(* ===== verification/_CoqProject ===== *)
-Q . S2P
Prelude.v
Memory.v
Marshal.v
Strbuf.v
Bufchain.v
Base64.v
Wildcard.v
Mpint.v
MpBits.v
MpMul.v
MpRecip.v
MpDiv.v
MpMonty.v
MpGcd.v
MpIO.v
MpRoot.v
Tree234.v
SortedSet.v
Conf.v
Callback.v
Timing.v
SftpPacket.v
Sftp.v
LocalFile.v
SftpXfer.v
SftpGet.v
SftpPut.v
ZlibHuff.v
ZlibLz77.v
ZlibDeflate.v
ZlibInflate.v
Zlib.v
SshCrypto.v
SshCompression.v
SshHash.v
SshMd5.v
SshSha1.v
SshSha256.v
SshHmac.v
SshArcfour.v
Fips197.v
SshAesSlice.v
SshAesRounds.v
SshAesKey.v
SshAes.v
Ssh2Bpp.v
Ssh2Run.v
Ssh2Channel.v
Ssh2Open.v
Ssh2Link.v
Ssh2Auth.v
Ssh2Session.v
