(* ===== verification/Prelude.v ===== *)
(** * A verification of the core of the SFTP back end (src/src/putty)

    The repository is a file-transfer client.  Its engine and interface are C++ over
    wxWidgets; its SFTP back end, [fzsftp], is a C program derived from PuTTY and lives in
    src/src/putty.  This library models the C code that the rest of that program stands
    on: its buffers and byte queues, the encoding of SSH data types, the containers, the
    configuration store, the event queue, the multiprecision integers under its
    public-key cryptography; the hashes and MACs, and the packet protocol of SSH-2 that
    uses them; and, on top of these, the SFTP client itself.

    ** The parts and how they fit together

<<
    memory.c ---- marshal.c ---- utils.c (strbuf, bufchain, base64) ---- sshpubk.c (key blobs)
                      |
                      +--------- mpint.c (numbers in the wire formats)
    tree234.c --- conf.c (configuration: also serialised through marshal.c)
          \------ timing.c (timers)
          \------ sftp.c (requests) --- sftpcommon.c (packets, through marshal.c)
                      |
                  sftp.c (transfers) --- psftp.c (get, put) --- unix/uxsftp.c (local files)
    callback.c    wildcard.c

    sshsha.c sshsh256.c sshmd5.c --- sshhmac.c --- sshmac.c --+
    ssharcf.c, sshaes.c (ciphers) ----------------------------+-- ssh2bpp.c (binary packets)
    sshzlib.c (a compression) --------------------------------+        |
                                       sshcommon.c (packets) ----------+-- bufchain of bytes
>>

    Buffers grow through [safegrowarray]; every writer of the program goes through the
    [BinarySink] interface of marshal.c, every reader of packets and files through
    [BinarySource]; strbufs and bufchains are sinks.  Sorted collections are counted
    2-3-4 trees.  An SFTP packet is a sink while it is built and a source when it is read;
    the requests that wait for an answer are a tree sorted by id.  The binary packet
    protocol pulls bytes from a bufchain in a coroutine that suspends when there are too
    few, and knows its cipher, its MAC and its compression only as vtables: these are type
    classes here, with the laws the protocol relies on; HMAC is an instance over any hash,
    Arcfour and AES are ciphers, sshzlib.c a compression.  Work is deferred to the top-level event loop through the callback
    queue, which the bufchains notify, and through the timers.

    ** Files

    - [Prelude.v] (this file): machine words, the error monad ([option] with a bind
      notation and [assert!]), the tactics [bcase], [bsimpl], [zdivmod] and the hint
      databases, congruence as a setoid, lists of words, [run_ops] (an operation sequence
      on a state machine) with its two simulation lemmas.
    - [Memory.v]: memory.c.  Sizes and growth of allocations, and byte buffers whose
      stores are bounds-checked.
    - [Marshal.v]: marshal.c, marshal.h.  The class [BinarySink] with its laws, all
      [put_*] functions over it, [BinarySource] and all [get_*] functions.
    - [Strbuf.v], [Bufchain.v], [Base64.v]: utils.c (and the key blob of sshpubk.c).
    - [Wildcard.v]: wildcard.c.
    - [Mpint.v], [MpBits.v], [MpMul.v], [MpRecip.v], [MpDiv.v], [MpMonty.v], [MpGcd.v],
      [MpIO.v], [MpRoot.v]: mpint.c in the order linear arithmetic, secret shifts,
      multiplication, reciprocal, division, Montgomery arithmetic, gcd and inverse,
      text and wire formats, roots and random numbers.
    - [Tree234.v]: tree234.c.  [SortedSet.v]: the interface its clients use, with the
      tree as instance.
    - [Conf.v]: conf.c and the option table of putty.h, over [SortedSet] and [BinarySink].
    - [Callback.v]: callback.c, with the heap of list nodes.
    - [Timing.v]: timing.c, over [SortedSet].
    - [SftpPacket.v]: sftpcommon.c and sftp.h, packets and file attributes.
    - [Sftp.v]: sftp.c, request ids and the sending and receiving half of every operation.
    - [LocalFile.v]: unix/uxsftp.c, local files as buffers the engine hands out.
    - [SftpXfer.v]: sftp.c, transfers with many requests in flight (a doubly linked list in
      memory).
    - [SftpGet.v], [SftpPut.v]: the download and upload loops of psftp.c, each together with a
      server as a step relation.
    - [ZlibHuff.v], [ZlibLz77.v], [ZlibDeflate.v], [ZlibInflate.v], [Zlib.v]: sshzlib.c, Huffman
      tables, the search for matches, the compressor, the decompressor, and the two
      together.
    - [SshCrypto.v]: the vtables of ssh.h for ciphers and MACs, sshmac.c, sshauxcrypt.c, and
      the laws [CipherLaws] and [MacLaws].  [SshCompression.v]: the vtable of compressions, with
      sshzlib.c and sshcommon.c's absent one as instances.
    - [SshHash.v]: the vtable of hashes and its laws, the collection of bytes into
      blocks that all hashes share, and the padding.  [SshMd5.v], [SshSha1.v], [SshSha256.v]:
      the software hashes, each after the standard it is compared with.
    - [SshHmac.v]: sshhmac.c over any hash.  [SshArcfour.v]: ssharcf.c.
    - [Fips197.v]: AES as the standard defines it, the reference for sshaes.c.  [SshAesSlice.v],
      [SshAesRounds.v]: the bit-sliced cipher, step by step and as a whole; [SshAesKey.v]: its
      key schedule; [SshAes.v]: its CBC and counter modes.
    - [Ssh2Bpp.v]: ssh2bpp.c and the packet functions of sshcommon.c.  [Ssh2Run.v]: the
      coroutine as a step function, and what holds of every run of it.
    - [Ssh2Channel.v]: the abstract channel and the invariant that ties the two ends.
      [Ssh2Open.v], [Ssh2Link.v], [Ssh2Session.v]: one packet opened, one packet from end to
      end, a whole session with changes of keys.  [Ssh2Auth.v]: what an attacker can
      do.

    A definition has the name of the C function it translates; the parts of a long
    function and its loops have a name of their own, next to it.  C integers are [Z] with
    the wrap-around written out ([u32], [u64], ...); memory is a list of cells, a list of
    words or a heap; a function that can fail an [assert], exit through the allocator or
    do something C leaves undefined gives an [option], and every theorem that says
    [= Some _] excludes those.

    ** What the theorems show

    - Refinement of an abstract state: a strbuf is a byte string, a bufchain a FIFO byte
      queue, a 2-3-4 tree a list or a sorted set, a configuration a finite map, the
      callback list a FIFO queue, each under any sequence of its operations.  For a strbuf
      that includes [strbuf_append] and [strbuf_catf], whose result is the text it formats
      as long as that text fits where the code can see it.  The timers refine two agendas:
      the one the comments in putty.h describe, under the conditions that make the code
      keep to it, and, as a lemma on the way, the one the code has without conditions.
    - Round trips: marshalled fields, key blobs in base64, decimal and hexadecimal
      numbers, SSH-1 and SSH-2 integers, serialised configurations, SFTP requests and
      their answers.
    - The SFTP protocol: every operation sends one well-formed packet with the lowest free
      id; an answer is matched with its request and decoded, whatever else is outstanding;
      and whatever a hostile server sends once a request has been made, the client reports
      an error or removes the request whose id the packet carries.
    - Transfers: a download and an upload terminate with exactly the file, whatever the
      order of the answers.
    - The SSH-2 packet protocol: a session of packets, with changes of keys and of
      compression, arrives as it was sent, in order, however the stream is cut; every packet
      handed on was cut from the stream together with its own tag, under the MAC in force; the coroutine always comes to rest.
      All of it holds for any cipher, MAC and compression with the laws.
    - Hashes: MD5, SHA-1 and SHA-256 compute what their standards define, for any division
      of the message into writes; HMAC is the one of RFC 2104 over any hash with the
      laws, so that the packet protocol runs over it.  The software AES, in bit slices, is that of
      FIPS 197 in the modes of SP 800-38A, and a cipher with the laws.  Arcfour decrypts what it encrypted, and
      its state stays a permutation.
    - Compression: every packet comes out of the decompressor as it went into the compressor,
      and a packet from a hostile peer either is decompressed or is refused; the theorem says
      exactly when the call after a refusal fails its assertion.
    - Functional correctness with termination of the arithmetic: Karatsuba
      multiplication, Newton division, Montgomery exponentiation, binary gcd and Bezout
      coefficients, modular and integer roots, against the integers.
    - Equivalence with a reference: the wildcard matcher decides the language of its
      pattern; the in-place word loops agree with the out-of-place ones.
    - Bounds: the error of [recip_approx_32] on all its inputs, getters that never leave
      their block.
    - Errors: truncated input is reported; and a few lemmas with names such as
      [strbuf_catf_truncates] state precisely where the code does less than its comments
      say.

    ** Bounds and fuel

    Loops that are not structural take fuel, chosen by the wrapper that models the
    function itself: the number of bytes left in a source, the length of the array or of
    the collection walked, the number of heap cells.  The theorems about the wrappers give
    a result, so the fuel is proved to be enough.  The build modelled is the 64-bit one
    (64-bit [size_t] and [unsigned long], [BignumInt] of 64 bits); sizes are bounded by the
    limits the code itself checks ([INT_MAX] in safegrowarray) where a theorem needs it.
    Some counters that are [int] in C are unbounded integers here: the counts and indices of
    tree234.c, [req_totalsize] and [sent_interval] of a transfer in sftp.c, the interval
    counter of the download loop in psftp.c.  Their theorems speak of runs in which those stay
    below 2^31.

    ** Not modelled

    Key exchange, authentication, channels and connection sharing, and the version
    exchange (ssh2transport.c, ssh2userauth.c, ssh2connection*.c, ssh*.c around them); the SSH-1
    protocol; the ciphers other than Arcfour and AES (DES, Blowfish; ChaCha20-Poly1305, whose
    cipher and MAC share their state, which the classes exclude; AES-GCM); SHA-512 and the
    implementations of hashes and AES with processor instructions; the public-key algorithms above the integers
    and the key file formats beyond their base64 blobs.  The commands of psftp.c other than the
    transfer loops, settings and command-line parsing, logging, proxies and the platform
    layers; the C++ engine and interface.  The loss of the connection under psftp.c, which
    reports it through [connection_fatal] and leaves the program.  Of the modelled files: freeing of memory
    except in the callback queue and the timers, the logging and the censoring in ssh2bpp.c,
    the text names of MACs, the stdio and bufchain adaptors of
    marshal.c, the debugging dumps of mpint.c, and the formatting done by the C library, which is a parameter. *)

From Stdlib Require Export ZArith Lia Bool.
From stdpp Require Export base list numbers option strings.
#[global] Open Scope Z_scope.


(** ** Machine words *)

Declare Scope word_scope.
Delimit Scope word_scope with word.

(** The value of a [w]-bit unsigned variable after [x] is stored in it. *)
Definition wrap (w x : Z) : Z := x mod 2 ^ w.
Abbreviation u8 := (wrap 8).
Abbreviation u16 := (wrap 16).
Abbreviation u32 := (wrap 32).
Abbreviation u64 := (wrap 64).

(** [x] is a value a [w]-bit unsigned variable can hold. *)
Definition word_ok (w x : Z) : Prop := 0 <= x < 2 ^ w.
Abbreviation byte_ok := (word_ok 8).
Abbreviation bytes_ok := (Forall byte_ok).

Infix "<<" := Z.shiftl (at level 30, right associativity) : word_scope.
Infix ">>" := Z.shiftr (at level 30, right associativity) : word_scope.
Infix ".|" := Z.lor (at level 45, left associativity) : word_scope.
Infix ".&" := Z.land (at level 40, left associativity) : word_scope.
Infix ".^" := Z.lxor (at level 42, left associativity) : word_scope.

(** [memory] indices and [strlen]-style lengths are non-negative integers. *)
Definition len {A} (l : list A) : Z := Z.of_nat (length l).

(** The character codes of a string literal. *)
Definition codes (s : String.string) : list Z :=
  (fun c => Z.of_N (Ascii.N_of_ascii c)) <$> String.list_ascii_of_string s.

Definition SIZE_MAX : Z := 2 ^ 64 - 1.
Definition INT_MAX : Z := 2 ^ 31 - 1.
Definition INT_MIN : Z := - 2 ^ 31.

(** A failed [assert] in the option monad. *)
Notation "'assert!' b ; k" := (if b then k else None)
  (at level 100, b at next level, k at level 200, right associativity,
   format "'assert!'  b ;  '/' k").

(** ** Automation *)

Create HintDb ssh discriminated.
Create Rewrite HintDb len.

Ltac bdestr H :=
  match type of H with
  | (_ <? _) = true => apply Z.ltb_lt in H
  | (_ <? _) = false => apply Z.ltb_ge in H
  | (_ <=? _) = true => apply Z.leb_le in H
  | (_ <=? _) = false => apply Z.leb_gt in H
  | (_ =? _) = true => apply Z.eqb_eq in H
  | (_ =? _) = false => apply Z.eqb_neq in H
  | (_ && _) = true => apply andb_true_iff in H; destruct H
  | (_ || _) = false => apply orb_false_iff in H; destruct H
  | negb _ = true => apply negb_true_iff in H
  | negb _ = false => apply negb_false_iff in H
  end.
(** Turn the boolean tests among the hypotheses into the facts they decide. *)
Ltac bsimpl := repeat match goal with H : _ |- _ => progress bdestr H end.
Ltac if_free t :=
  lazymatch t with context [if _ then _ else _] => fail | _ => idtac end.
(** Split on an innermost boolean comparison of the goal. *)
Ltac bcase :=
  match goal with
  | |- context [?a <? ?b] => if_free a; if_free b; destruct (Z.ltb_spec a b)
  | |- context [?a <=? ?b] => if_free a; if_free b; destruct (Z.leb_spec a b)
  | |- context [?a =? ?b] => if_free a; if_free b; destruct (Z.eqb_spec a b)
  end.

Ltac is_Zcst t :=
  lazymatch t with Z0 => idtac | Zpos _ => idtac | Zneg _ => idtac end.
(** Replace the constant powers of two by their values. *)
Ltac pow_norm :=
  repeat match goal with
  | |- context [2 ^ ?n] => is_Zcst n; let v := eval vm_compute in (2 ^ n) in change (2 ^ n) with v
  | H : context [2 ^ ?n] |- _ =>
      is_Zcst n; let v := eval vm_compute in (2 ^ n) in change (2 ^ n) with v in H
  end.
(** Linear arithmetic with quotients and remainders by constants. *)
Ltac zdivmod := pow_norm; Z.to_euclidean_division_equations; lia.

(** ** Words: range, wrap-around, bit operations *)

Lemma pow2_pos w : 0 <= w -> 0 < 2 ^ w.
Proof. intros. apply Z.pow_pos_nonneg; lia. Qed.

Lemma wrap_range w x : 0 <= w -> 0 <= wrap w x < 2 ^ w.
Proof. intros. apply Z.mod_pos_bound, pow2_pos; lia. Qed.

Lemma wrap_ok w x : 0 <= w -> word_ok w (wrap w x).
Proof. apply wrap_range. Qed.

Lemma wrap_id w x : word_ok w x -> wrap w x = x.
Proof. intros. by apply Z.mod_small. Qed.

Lemma wrap_wrap w x : wrap w (wrap w x) = wrap w x.
Proof. unfold wrap. apply Zmod_mod. Qed.

Lemma wrap_wrap_le v w x : 0 <= w <= v -> wrap w (wrap v x) = wrap w x.
Proof.
  intros. unfold wrap. apply Z.mod_mod_divide. exists (2 ^ (v - w)). rewrite <- Z.pow_add_r by lia. f_equal. lia.
Qed.

Lemma word_ok_mono v w x : v <= w -> word_ok v x -> word_ok w x.
Proof. unfold word_ok. pose proof (Z.pow_le_mono_r 2 v w). lia. Qed.

Lemma testbit_high w x i : word_ok w x -> 0 <= w <= i -> Z.testbit x i = false.
Proof.
  intros [] ?. rewrite <- (Z.mod_small x (2 ^ w)) by done.
  apply Z.mod_pow2_bits_high; lia.
Qed.

Lemma word_ok_bits w x :
  0 <= w -> 0 <= x -> (forall i, w <= i -> Z.testbit x i = false) -> word_ok w x.
Proof.
  intros Hw Hx Hb. split; [done|].
  destruct (Z.eq_dec x 0) as [->|]; [by apply pow2_pos|].
  apply Z.log2_lt_pow2; [lia|].
  destruct (Z.lt_ge_cases (Z.log2 x) w) as [|Hge]; [done|].
  specialize (Hb _ Hge). rewrite Z.bit_log2 in Hb by lia. done.
Qed.

Section BitClosure.
Context (w a b : Z) (Hw : 0 <= w) (Ha : word_ok w a) (Hb : word_ok w b).

Lemma lor_ok : word_ok w (Z.lor a b).
Proof.
  apply word_ok_bits; [done| |]; destruct Ha, Hb; [by apply Z.lor_nonneg|].
  intros. rewrite Z.lor_spec, !(testbit_high w); done || lia.
Qed.

Lemma lxor_ok : word_ok w (Z.lxor a b).
Proof.
  apply word_ok_bits; [done| |]; destruct Ha, Hb; [by apply Z.lxor_nonneg|].
  intros. rewrite Z.lxor_spec, !(testbit_high w); done || lia.
Qed.

Lemma land_ok : word_ok w (Z.land a b).
Proof.
  apply word_ok_bits; [done| |]; destruct Ha, Hb; [apply Z.land_nonneg; by left|].
  intros. rewrite Z.land_spec, !(testbit_high w); done || lia.
Qed.
End BitClosure.
#[export] Hint Resolve lor_ok lxor_ok land_ok wrap_ok : ssh.
#[export] Hint Extern 2 (_ <= _)%Z => lia : ssh.

(** Disjoint bit fields: [|] of a low field and a shifted high field is [+]. *)
Lemma lor_shiftl_add n a b :
  0 <= n -> word_ok n a -> Z.lor a (Z.shiftl b n) = a + b * 2 ^ n.
Proof.
  intros Hn Ha. rewrite Z.shiftl_mul_pow2 by done.
  assert (Z.land a (b * 2 ^ n) = 0) as Hl.
  { apply Z.bits_inj'. intros i Hi. rewrite Z.land_spec, Z.bits_0.
    destruct (Z.lt_ge_cases i n).
    - rewrite Z.mul_pow2_bits_low by lia. apply andb_false_r.
    - rewrite (testbit_high n) by (done || lia). done. }
  pose proof (Z.add_lor_land a (b * 2 ^ n)). lia.
Qed.

Lemma shiftr_div x n : 0 <= n -> Z.shiftr x n = x / 2 ^ n.
Proof. apply Z.shiftr_div_pow2. Qed.

Lemma land_mask x n : 0 <= n -> Z.land x (2 ^ n - 1) = x mod 2 ^ n.
Proof. intros. rewrite <- Z.land_ones, Z.ones_equiv by done. by rewrite Z.sub_1_r. Qed.

Lemma land_63 x : Z.land x 63 = x mod 64.
Proof. apply (land_mask x 6). lia. Qed.

Lemma land_1 x : Z.land x 1 = x mod 2.
Proof. apply (land_mask x 1). lia. Qed.

Lemma land_255 x : Z.land x 255 = x mod 256.
Proof. apply (land_mask x 8). lia. Qed.

(** ** Lists *)

Lemma len_nonneg {A} (l : list A) : 0 <= len l.
Proof. unfold len; lia. Qed.
#[export] Hint Resolve len_nonneg : ssh.

Lemma len_nil {A} : len (@nil A) = 0.
Proof. done. Qed.

Lemma len_cons {A} (x : A) l : len (x :: l) = 1 + len l.
Proof. unfold len; simpl; lia. Qed.

Lemma len_app {A} (l k : list A) : len (l ++ k) = len l + len k.
Proof. unfold len; rewrite length_app; lia. Qed.

Lemma len_pos {A} (l : list A) : l <> [] -> 0 < len l.
Proof. destruct l; [done|]. rewrite len_cons. pose proof (len_nonneg l). lia. Qed.

Lemma len_nil_inv {A} (l : list A) : len l <= 0 -> l = [].
Proof. destruct l; [done|]. rewrite len_cons. pose proof (len_nonneg l). lia. Qed.

Lemma len_fmap {A B} (f : A -> B) l : len (f <$> l) = len l.
Proof. unfold len; by rewrite length_fmap. Qed.

Lemma len_replicate {A} n (x : A) : 0 <= n -> len (replicate (Z.to_nat n) x) = n.
Proof. unfold len; rewrite length_replicate; lia. Qed.

Lemma to_nat_len {A} (l : list A) : Z.to_nat (len l) = length l.
Proof. unfold len; lia. Qed.

Lemma len_take {A} n (l : list A) :
  0 <= n <= len l -> len (take (Z.to_nat n) l) = n.
Proof. unfold len. intros. rewrite length_take. lia. Qed.

Lemma len_drop {A} n (l : list A) :
  0 <= n <= len l -> len (drop (Z.to_nat n) l) = len l - n.
Proof. unfold len. intros. rewrite length_drop. lia. Qed.

#[export] Hint Rewrite @len_nil @len_cons @len_app @len_fmap : len.

Lemma fold_left_ext_in {A B} (f g : A -> B -> A) l a :
  (forall a b, In b l -> f a b = g a b) -> fold_left f l a = fold_left g l a.
Proof.
  revert a; induction l as [|b l IH]; intros a H; simpl; [done|].
  rewrite H by (by left). apply IH. intros; apply H. by right.
Qed.

(** ** Big-endian and little-endian byte strings *)

(** The value of a byte string, most significant byte first. *)
Definition be_val (l : list Z) : Z := fold_left (fun a b => a * 256 + b) l 0.

(** The [n] low-order bytes of [v], most significant first. *)
Fixpoint be_split (n : nat) (v : Z) : list Z :=
  match n with O => [] | S n => be_split n (v / 256) ++ [v mod 256] end.

Lemma be_val_snoc l b : be_val (l ++ [b]) = be_val l * 256 + b.
Proof. unfold be_val. by rewrite fold_left_app. Qed.

Lemma length_be_split n v : length (be_split n v) = n.
Proof. revert v; induction n; intros; simpl; [done|]. rewrite length_app, IHn. simpl; lia. Qed.

Lemma be_split_ok n v : bytes_ok (be_split n v).
Proof.
  revert v; induction n; intros; simpl; [constructor|].
  apply Forall_app_2; [done|]. repeat constructor; apply Z.mod_pos_bound; lia.
Qed.

Lemma be_val_split n v : be_val (be_split n v) = v mod 256 ^ Z.of_nat n.
Proof.
  revert v; induction n as [|n IH]; intros v; simpl be_split; [by rewrite Z.mod_1_r|].
  rewrite be_val_snoc, IH, Nat2Z.inj_succ, Z.pow_succ_r by lia.
  rewrite Z.rem_mul_r by (try apply Z.pow_pos_nonneg; lia). lia.
Qed.

Lemma be_val_bound l : bytes_ok l -> 0 <= be_val l < 256 ^ len l.
Proof.
  induction l as [|b l IH] using rev_ind; intros H; [by cbn|].
  apply Forall_app in H as [Hl Hb]. apply Forall_inv in Hb as [].
  rewrite be_val_snoc, len_app. specialize (IH Hl).
  change (len [b]) with 1. rewrite Z.pow_add_r by (apply len_nonneg || lia).
  change (2 ^ 8) with 256 in *. nia.
Qed.

Lemma be_split_val l : bytes_ok l -> be_split (length l) (be_val l) = l.
Proof.
  induction l as [|b l IH] using rev_ind; intros H; [done|].
  apply Forall_app in H as [Hl Hb]. apply Forall_inv in Hb as [].
  rewrite length_app, be_val_snoc. simpl. rewrite Nat.add_1_r. simpl.
  change (2 ^ 8) with 256 in *.
  rewrite Z.div_add_l, (Z.div_small b), Z.add_0_r by lia.
  rewrite Z.add_comm, Z.mod_add, Z.mod_small by lia. by rewrite IH.
Qed.

(** ** Runs

    The outputs of a sequence of operations, as long as none of them fails. *)

Fixpoint run_ops {S O R} (step : S -> O -> option (S * R)) (s : S) (ops : list O) : option (S * list R) :=
  match ops with
  | [] => Some (s, [])
  | op :: ops => '(s, r) ← step s op; '(s, rs) ← run_ops step s ops; Some (s, r :: rs)
  end.

(** Two machines in lockstep: related states, equal outputs, failing together. *)
Lemma run_ops_sim {S A O R} (rel : S -> A -> Prop) (step : S -> O -> option (S * R)) (astep : A -> O -> option (A * R)) :
  (forall s a op, rel s a -> option_Forall2 (fun x y => rel x.1 y.1 /\ x.2 = y.2) (step s op) (astep a op)) ->
  forall ops s a, rel s a ->
  option_Forall2 (fun x y => rel x.1 y.1 /\ x.2 = y.2) (run_ops step s ops) (run_ops astep a ops).
Proof.
  intros Hstep. induction ops as [|op ops IH]; intros s a Hr; cbn [run_ops]; [by constructor|].
  destruct (Hstep s a op Hr) as [[s1 o1] [a1 o2] [Hr1 Ho]|]; cbn in *; [subst o2|constructor].
  destruct (IH s1 a1 Hr1) as [[s2 os] [a2 os'] [Hr2 Ho']|]; cbn in *; [subst os'|]; by constructor.
Qed.

(** One direction: what the abstract machine defines, the concrete one does. *)
Lemma run_ops_refines {S A O R} (rel : S -> A -> Prop) (step : S -> O -> option (S * R)) (astep : A -> O -> option (A * R)) :
  (forall s a op a' r, rel s a -> astep a op = Some (a', r) -> exists s', step s op = Some (s', r) /\ rel s' a') ->
  forall ops s a a' rs, rel s a -> run_ops astep a ops = Some (a', rs) ->
  exists s', run_ops step s ops = Some (s', rs) /\ rel s' a'.
Proof.
  intros Hstep. induction ops as [|op ops IH]; intros s a a' rs Hr; cbn [run_ops]; [intros [= <- <-]; eauto|].
  destruct (astep a op) as [[a1 r]|] eqn:E; [|done]. cbn [mbind option_bind].
  destruct (Hstep s a op a1 r Hr E) as (s1&->&Hr1). cbn [mbind option_bind].
  destruct (run_ops astep a1 ops) as [[a2 rs2]|] eqn:E2; [|done]. cbn [mbind option_bind]. intros [= <- <-].
  destruct (IH s1 a1 a2 rs2 Hr1 E2) as (s2&->&Hr2). cbn [mbind option_bind]. eauto.
Qed.

(** An invariant that makes every step succeed makes every run succeed. *)
Lemma run_ops_total {S O R} (inv : S -> Prop) (good : O -> Prop) (step : S -> O -> option (S * R)) :
  (forall s op, inv s -> good op -> exists s' r, step s op = Some (s', r) /\ inv s') ->
  forall ops s, inv s -> Forall good ops -> exists s' rs, run_ops step s ops = Some (s', rs) /\ inv s'.
Proof.
  intros Hstep. induction ops as [|op ops IH]; intros s Hi Hg; cbn [run_ops]; [eauto|].
  apply Forall_cons in Hg as [Hg Hgs]. destruct (Hstep s op Hi Hg) as (s1&r&->&Hi1). cbn.
  destruct (IH s1 Hi1 Hgs) as (s2&rs&->&Hi2). cbn. eauto.
Qed.

(** ** Congruence

    Modular reasoning by setoid rewriting: [cong n] is compatible with the ring
    operations, so that [a mod n] can be replaced by [a] inside them. *)

Definition cong (n a b : Z) : Prop := (n | a - b).
Notation "a == b '{mod' n '}'" := (cong n a b) (at level 70, b at next level, format "a  ==  b  '{mod'  n '}'").

#[export] Instance cong_equiv n : Equivalence (cong n).
Proof.
  split.
  - intros a. unfold cong. rewrite Z.sub_diag. apply Z.divide_0_r.
  - intros a b [k E]. exists (- k). lia.
  - intros a b c [k E] [j F]. exists (k + j). lia.
Qed.

#[export] Instance cong_add n : Proper (cong n ==> cong n ==> cong n) Z.add.
Proof. intros a b [k E] c d [j F]. exists (k + j). lia. Qed.

#[export] Instance cong_sub n : Proper (cong n ==> cong n ==> cong n) Z.sub.
Proof. intros a b [k E] c d [j F]. exists (k - j). lia. Qed.

#[export] Instance cong_opp n : Proper (cong n ==> cong n) Z.opp.
Proof. intros a b [k E]. exists (- k). lia. Qed.

#[export] Instance cong_mul n : Proper (cong n ==> cong n ==> cong n) Z.mul.
Proof.
  intros a b [k E] c d [j F]. exists (k * c + b * j).
  transitivity ((a - b) * c + b * (c - d)); [ring|]. rewrite E, F. ring.
Qed.

Lemma cong_pow n a b e : 0 <= e -> a == b {mod n} -> a ^ e == b ^ e {mod n}.
Proof.
  intros He Hab. revert e He. apply natlike_ind; [reflexivity|]. intros e He IH.
  rewrite !Z.pow_succ_r by done. rewrite IH. by rewrite Hab.
Qed.

Lemma cong_mod n a : n <> 0 -> a mod n == a {mod n}.
Proof. intros. exists (- (a / n)). rewrite Z.mod_eq by done. lia. Qed.

Lemma cong_iff n a b : n <> 0 -> a == b {mod n} <-> a mod n = b mod n.
Proof.
  intros Hn. split; intros H.
  - destruct H as [k E]. replace a with (b + k * n) by lia. by apply Z.mod_add.
  - by rewrite <- (cong_mod n a Hn), H, (cong_mod n b Hn).
Qed.

Lemma cong_divide m n a b : (m | n) -> a == b {mod n} -> a == b {mod m}.
Proof. unfold cong. apply Z.divide_trans. Qed.

Lemma cong_mod_divide m n a : n <> 0 -> (m | n) -> a mod n == a {mod m}.
Proof. intros. apply (cong_divide m n); [done|]. by apply cong_mod. Qed.

Lemma cong_small n a b : 0 <= b < n -> a == b {mod n} -> a mod n = b.
Proof. intros Hb H. apply cong_iff in H; [|lia]. by rewrite H, Z.mod_small. Qed.

(** A factor prime to the modulus cancels. *)
Lemma cong_cancel n r a b : Z.gcd n r = 1 -> r * a == r * b {mod n} -> a == b {mod n}.
Proof. unfold cong. intros Hg H. apply (Z.gauss n r); [|done]. by replace (r * (a - b)) with (r * a - r * b) by ring. Qed.
