(* ===== verification/Memory.v ===== *)
(** * Memory: the allocation wrappers of memory.c

    [safemalloc], [saferealloc] and [safegrowarray] compute the size of every
    buffer the program allocates.  What they return is modelled as the number of
    bytes (or elements) obtained; [None] is the code's abnormal exit, a failed
    [assert] or a call of [out_of_memory].  The C allocator itself is taken to
    satisfy any request that reaches it.

    The second half models a byte buffer: a list of cells, [None] for a byte that
    was allocated and never written.  Every store checks its bounds, so that a
    theorem saying an operation yields [Some] also says it stays in its buffer. *)

From S2P Require Import Prelude.

(** ** Allocation *)

(** The size in bytes of the block [safemalloc] asks the C library for. *)
Definition safemalloc (factor1 factor2 addend : Z) : option Z :=
  if factor2 =? 0 then None else
  if SIZE_MAX / factor2 <? factor1 then None else
  let product := u64 (factor1 * factor2) in
  if SIZE_MAX <? addend then None else
  if SIZE_MAX - addend <? product then None else
  let size := u64 (product + addend) in
  Some (if size =? 0 then 1 else size).

Definition saferealloc (n size : Z) : option Z :=
  if size =? 0 then None else
  if INT_MAX / size <? n then None else Some (u64 (size * n)).

(** The new element count [*allocated]; [secret] chooses the non-moving resize. *)
Definition safegrowarray (allocated eltsize oldlen extralen : Z) (secret : bool)
  : option Z :=
  assert! 0 <? eltsize;
  let maxsize := SIZE_MAX / eltsize in
  let oldsize := allocated in
  assert! oldsize <=? maxsize;
  assert! oldlen <=? maxsize;
  assert! extralen <=? maxsize - oldlen;
  if oldlen + extralen <? oldsize then Some allocated else
  let increment := (oldlen + extralen) - oldsize in
  let increment := if increment <? 256 / eltsize then 256 / eltsize else increment in
  let increment := if increment <? oldsize / 16 then oldsize / 16 else increment in
  let maxincr := maxsize - oldsize in
  let increment := if maxincr <? increment then maxincr else increment in
  let newsize := oldsize + increment in
  match (if secret then safemalloc newsize eltsize 0 else saferealloc newsize eltsize) with
  | Some _ => Some newsize
  | None => None
  end.

(** ** Byte buffers *)

Abbreviation cells := (list (option Z)).

(** [memcpy(mem + off, data, len)] *)
Definition mem_write (mem : cells) (off : Z) (data : list Z) : option cells :=
  if (0 <=? off) && (off + len data <=? len mem) then
    Some (take (Z.to_nat off) mem ++ (Some <$> data)
            ++ drop (Z.to_nat (off + len data)) mem)
  else None.

(** What an array of [allocated] cells holds after it is resized to [newsize]. *)
Definition mem_resize (mem : cells) (newsize : Z) : cells :=
  mem ++ replicate (Z.to_nat (newsize - len mem)) None.

(** ** Lemmas *)

Lemma len_mem_write mem off data mem' :
  mem_write mem off data = Some mem' -> len mem' = len mem.
Proof.
  unfold mem_write. destruct ((0 <=? off) && _) eqn:E; [|done]. bsimpl.
  pose proof (len_nonneg data).
  intros [= <-]. rewrite !len_app, len_fmap, len_take, len_drop by lia. lia.
Qed.

Lemma len_mem_resize mem n : len mem <= n -> len (mem_resize mem n) = n.
Proof.
  intros. unfold mem_resize. rewrite len_app, len_replicate by lia. lia.
Qed.

Lemma safemalloc_ok n e :
  0 < e -> 0 <= n <= SIZE_MAX / e -> is_Some (safemalloc n e 0).
Proof.
  intros. unfold safemalloc.
  rewrite (proj2 (Z.eqb_neq e 0)), (proj2 (Z.ltb_ge _ n)) by lia.
  rewrite (proj2 (Z.ltb_ge SIZE_MAX 0)) by done.
  assert (u64 (n * e) <= SIZE_MAX) by (pose proof (wrap_range 64 (n * e)); unfold SIZE_MAX; lia).
  rewrite (proj2 (Z.ltb_ge _ (u64 (n * e)))) by lia. eauto.
Qed.

Section Grow.
Context (eltsize : Z) (Hpos : 0 < eltsize).

(** How big the array gets, whichever of the three growth rules decides. *)
Lemma safegrowarray_bounds allocated oldlen extralen secret newsize :
  0 <= allocated -> 0 <= oldlen -> 0 <= extralen ->
  safegrowarray allocated eltsize oldlen extralen secret = Some newsize ->
  allocated <= newsize <= SIZE_MAX / eltsize /\ oldlen + extralen <= newsize /\
  newsize * eltsize <= SIZE_MAX.
Proof.
  intros ??? Hg. unfold safegrowarray in Hg.
  pose proof (Z.mul_div_le SIZE_MAX eltsize Hpos).
  assert (allocated <= newsize <= SIZE_MAX / eltsize /\ oldlen + extralen <= newsize);
    [|nia].
  assert (0 <= 256 / eltsize) by (apply Z.div_pos; lia).
  assert (0 <= allocated / 16) by (apply Z.div_pos; lia).
  set (m := SIZE_MAX / eltsize) in *.
  destruct (0 <? eltsize); [|done].
  destruct (allocated <=? m) eqn:?; [|done].
  destruct (oldlen <=? m) eqn:?; [|done].
  destruct (extralen <=? m - oldlen) eqn:?; [|done].
  destruct (oldlen + extralen <? allocated) eqn:?; bsimpl.
  - injection Hg as <-. lia.
  - destruct (if secret then _ else _); [|done]. injection Hg as <-.
    repeat bcase; lia.
Qed.

(** With sizes far from the top of the address space the growth succeeds. *)
Lemma safegrowarray_total allocated oldlen extralen secret :
  0 <= allocated -> 0 <= oldlen -> 0 <= extralen ->
  allocated * eltsize <= 2 ^ 30 + 2 ^ 29 ->
  (oldlen + extralen) * eltsize <= 2 ^ 30 ->
  exists newsize,
    safegrowarray allocated eltsize oldlen extralen secret = Some newsize /\
    (newsize = allocated \/
     newsize * eltsize <= (oldlen + extralen) * eltsize
       + Z.max 256 ((oldlen + extralen) * eltsize / 16)).
Proof.
  intros Ha Ho Hx Hae Hne. unfold safegrowarray.
  set (need := oldlen + extralen) in *. set (m := SIZE_MAX / eltsize).
  assert (Hm : forall x, 0 <= x -> x * eltsize <= SIZE_MAX -> x <= m).
  { intros. apply Z.div_le_lower_bound; lia. }
  assert (Hi : forall x, 0 <= x -> x * eltsize <= INT_MAX -> x <= INT_MAX / eltsize).
  { intros. apply Z.div_le_lower_bound; lia. }
  assert (allocated <= m) by (apply Hm; unfold SIZE_MAX; lia).
  assert (need <= m) by (apply Hm; unfold SIZE_MAX; lia).
  rewrite (proj2 (Z.ltb_lt 0 eltsize)), (proj2 (Z.leb_le allocated m)) by lia.
  rewrite (proj2 (Z.leb_le oldlen m)), (proj2 (Z.leb_le extralen (m - oldlen))) by lia.
  destruct (Z.ltb_spec need allocated); [by eauto|].
  assert (H256 : 256 / eltsize * eltsize <= 256) by (rewrite Z.mul_comm; apply Z.mul_div_le; lia).
  assert (0 <= 256 / eltsize) by (apply Z.div_pos; lia).
  assert (H16 : allocated / 16 * eltsize <= need * eltsize / 16).
  { apply Z.div_le_lower_bound; [lia|].
    pose proof (Z.mul_div_le allocated 16). nia. }
  assert (0 <= allocated / 16) by (apply Z.div_pos; lia).
  set (i0 := need - allocated). 
  set (i1 := if i0 <? 256 / eltsize then 256 / eltsize else i0).
  set (i2 := if i1 <? allocated / 16 then allocated / 16 else i1).
  set (i3 := if m - allocated <? i2 then m - allocated else i2).
  assert (Hi3 : (allocated + i3) * eltsize <= need * eltsize + Z.max 256 (need * eltsize / 16)).
  { assert (i3 <= i2) by (unfold i3; bcase; lia).
    assert (i2 = i0 \/ i2 = 256 / eltsize \/ i2 = allocated / 16) as [E|[E|E]]
      by (unfold i2, i1; repeat bcase; tauto);
    rewrite E in *; unfold i0 in *; nia. }
  assert (0 <= i3) by (unfold i3, i2, i1, i0; repeat bcase; lia).
  assert (need * eltsize / 16 <= 2 ^ 26) by (apply Z.div_le_upper_bound; lia).
  exists (allocated + i3). split; [|by right].
  destruct secret.
  - destruct (safemalloc_ok (allocated + i3) eltsize) as [z ->]; [lia| |done].
    split; [lia|]. apply Hm; unfold SIZE_MAX; lia.
  - unfold saferealloc. rewrite (proj2 (Z.eqb_neq eltsize 0)) by lia.
    rewrite (proj2 (Z.ltb_ge _ (allocated + i3))); [done|].
    apply Hi; unfold INT_MAX; lia.
Qed.
End Grow.

(** ** What a store leaves behind *)

Section Write.
Context (mem mem' : cells) (off : Z) (data : list Z).

Lemma mem_write_total :
  0 <= off -> off + len data <= len mem -> is_Some (mem_write mem off data).
Proof.
  intros. unfold mem_write. rewrite (proj2 (Z.leb_le 0 off)), (proj2 (Z.leb_le _ _)) by done.
  simpl. eauto.
Qed.

Hypothesis Hw : mem_write mem off data = Some mem'.

Lemma mem_write_shape :
  0 <= off /\ off + len data <= len mem /\
  mem' = take (Z.to_nat off) mem ++ (Some <$> data) ++ drop (Z.to_nat (off + len data)) mem.
Proof.
  unfold mem_write in Hw. destruct ((0 <=? off) && _) eqn:E; [|done].
  bsimpl. by injection Hw as <-.
Qed.

Lemma mem_write_take n : 0 <= n <= off -> take (Z.to_nat n) mem' = take (Z.to_nat n) mem.
Proof.
  intros. destruct mem_write_shape as (? & ? & ->). pose proof (len_nonneg data).
  rewrite take_app_le by (rewrite length_take; unfold len in *; lia).
  rewrite take_take. f_equal. lia.
Qed.

Lemma mem_write_take_end :
  take (Z.to_nat (off + len data)) mem' = take (Z.to_nat off) mem ++ (Some <$> data).
Proof.
  destruct mem_write_shape as (? & ? & ->). pose proof (len_nonneg data).
  rewrite app_assoc, take_app_length'; [done|].
  rewrite length_app, length_fmap, length_take. unfold len in *. lia.
Qed.

Lemma mem_write_lookup_ge i : off + len data <= Z.of_nat i -> mem' !! i = mem !! i.
Proof.
  intros. destruct mem_write_shape as (? & ? & ->). pose proof (len_nonneg data).
  assert (length (take (Z.to_nat off) mem ++ (Some <$> data)) = Z.to_nat (off + len data)) as El.
  { rewrite length_app, length_fmap, length_take. unfold len in *. lia. }
  rewrite app_assoc, lookup_app_r, lookup_drop, El by lia. f_equal. lia.
Qed.
End Write.

Lemma mem_write1_lookup mem off x mem' :
  mem_write mem off [x] = Some mem' -> mem' !! Z.to_nat off = Some (Some x).
Proof.
  intros Hw. destruct (mem_write_shape _ _ _ _ Hw) as (? & Hle & ->).
  change (len [x]) with 1 in Hle.
  rewrite lookup_app_r by (rewrite length_take; lia).
  rewrite length_take_le by (unfold len in *; lia). by rewrite Nat.sub_diag.
Qed.

Lemma mem_resize_take mem n k : k <= len mem -> take (Z.to_nat k) (mem_resize mem n) = take (Z.to_nat k) mem.
Proof. intros. unfold mem_resize. apply take_app_le. unfold len in *. lia. Qed.
