(* ===== verification/Marshal.v ===== *)
(** * Marshal: the wire encoding of marshal.c

    [BinarySink] is the interface behind every [put_*] call of the program: an
    object with a [write] method.  The class [BinarySink] is that method table,
    [BinarySinkLaws] what a caller may rely on; strbufs (Strbuf.v) and bufchains
    (Bufchain.v) are its instances.  [None] is a failed [assert] or an abnormal
    exit inside the sink.

    [BinarySource] is the decoder: a block, a position, and an error that sticks.
    A [get_*] call is a function from a source to a value and a source.

    A C string argument ([const char *]) is the list of its characters, without
    the terminating NUL. *)

From S2P Require Import Prelude Memory.

(** ** Fixed-width integers in memory (misc.h) *)
Section Fixed.
Local Open Scope word_scope.

Definition PUT_16BIT_MSB_FIRST (value : Z) : list Z := [u8 (value >> 8); u8 value].
Definition PUT_32BIT_MSB_FIRST (value : Z) : list Z :=
  [u8 (value >> 24); u8 (value >> 16); u8 (value >> 8); u8 value].
Definition PUT_64BIT_MSB_FIRST (value : Z) : list Z :=
  [u8 (value >> 56); u8 (value >> 48); u8 (value >> 40); u8 (value >> 32);
   u8 (value >> 24); u8 (value >> 16); u8 (value >> 8); u8 value].

Definition GET_16BIT_MSB_FIRST (p : list Z) : Z := nth 1 p 0 .| nth 0 p 0 << 8.
Definition GET_32BIT_MSB_FIRST (p : list Z) : Z :=
  nth 3 p 0 .| nth 2 p 0 << 8 .| nth 1 p 0 << 16 .| nth 0 p 0 << 24.
Definition GET_64BIT_MSB_FIRST (p : list Z) : Z :=
  nth 7 p 0 .| nth 6 p 0 << 8 .| nth 5 p 0 << 16 .| nth 4 p 0 << 24
  .| nth 3 p 0 << 32 .| nth 2 p 0 << 40 .| nth 1 p 0 << 48 .| nth 0 p 0 << 56.
End Fixed.

(** ** Sinks *)

Class BinarySink (S : Type) := { bs_write : S -> list Z -> option S }.

(** [sink_out] is all that was written; [sink_room s n] promises that [n] more
    bytes will be accepted. *)
Class BinarySinkLaws (S : Type) `{BinarySink S} := {
  sink_out : S -> list Z;
  sink_room : S -> Z -> Prop;
  bs_write_spec s d n :
    sink_room s n -> len d <= n ->
    exists s', bs_write s d = Some s' /\ sink_out s' = sink_out s ++ d
            /\ sink_room s' (n - len d)
}.

Section Put.
Context {S : Type} `{BinarySink S}.

Definition put_data (bs : S) (data : list Z) : option S := bs_write bs data.

Definition put_datapl (bs : S) (pl : list Z) : option S := put_data bs pl.

(** The body of the [while (len > 0)] loop, [fuel] times at most. *)
Fixpoint put_padding_loop (fuel : nat) (buf : list Z) (bs : S) (n : Z) : option S :=
  match fuel with
  | O => Some bs
  | Datatypes.S fuel =>
      if 0 <? n then
        let thislen := if n <? len buf then n else len buf in
        match bs_write bs (take (Z.to_nat thislen) buf) with
        | Some bs => put_padding_loop fuel buf bs (n - thislen)
        | None => None
        end
      else Some bs
  end.

Definition put_padding (bs : S) (n padbyte : Z) : option S :=
  put_padding_loop (Z.to_nat n) (replicate 16 padbyte) bs n.

Definition put_byte (bs : S) (val : Z) : option S := bs_write bs [u8 val].

Definition put_bool (bs : S) (val : bool) : option S :=
  bs_write bs [if val then 1 else 0].

Definition put_uint16 (bs : S) (val : Z) : option S :=
  bs_write bs (PUT_16BIT_MSB_FIRST (u16 val)).

Definition put_uint32 (bs : S) (val : Z) : option S :=
  bs_write bs (PUT_32BIT_MSB_FIRST (u32 val)).

Definition put_uint64 (bs : S) (val : Z) : option S :=
  bs_write bs (PUT_64BIT_MSB_FIRST (u64 val)).

Definition put_string (bs : S) (data : list Z) : option S :=
  assert! Z.shiftr (len data) 31 <? 2;
  match put_uint32 bs (len data) with
  | Some bs => bs_write bs data
  | None => None
  end.

Definition put_stringpl (bs : S) (pl : list Z) : option S := put_string bs pl.
Definition put_stringz (bs : S) (str : list Z) : option S := put_string bs str.

Definition put_asciz (bs : S) (str : list Z) : option S := bs_write bs (str ++ [0]).

(** The [bool] is the return value. *)
Definition put_pstring (bs : S) (str : list Z) : option (bool * S) :=
  if 255 <? len str then Some (false, bs) else
  match put_byte bs (len str) with
  | Some bs => match bs_write bs str with Some bs => Some (true, bs) | None => None end
  | None => None
  end.
End Put.

(** ** Sources *)

Inductive BinarySourceError := BSE_NO_ERROR | BSE_OUT_OF_DATA | BSE_INVALID.

#[export] Instance BinarySourceError_eq_dec : EqDecision BinarySourceError.
Proof. solve_decision. Defined.

Record BinarySource := mkSource {
  bs_data : list Z;
  bs_pos : Z;
  bs_err : BinarySourceError
}.

Definition BinarySource_INIT (data : list Z) : BinarySource :=
  mkSource data 0 BSE_NO_ERROR.

Section Get.
Implicit Types src : BinarySource.

Definition set_err src e := mkSource (bs_data src) (bs_pos src) e.
Definition advance src dist := mkSource (bs_data src) (bs_pos src + dist) (bs_err src).
(** The bytes from the current position to the end of the block. *)
Definition here src : list Z := drop (Z.to_nat (bs_pos src)) (bs_data src).
(** The [dist] bytes that [consume(dist)] points at, and the source after it. *)
Definition consume src dist : list Z * BinarySource :=
  (take (Z.to_nat dist) (here src), advance src dist).

Definition BinarySource_data_avail src (wanted : Z) : bool * BinarySource :=
  if decide (bs_err src = BSE_NO_ERROR) then
    if wanted <=? len (bs_data src) - bs_pos src then (true, src)
    else (false, set_err src BSE_OUT_OF_DATA)
  else (false, src).

Definition get_data src (wanted : Z) : list Z * BinarySource :=
  match BinarySource_data_avail src wanted with
  | (false, src) => ([], src)
  | (true, src) => consume src wanted
  end.

Definition get_byte src : Z * BinarySource :=
  match BinarySource_data_avail src 1 with
  | (false, src) => (0, src)
  | (true, src) => let '(ucp, src) := consume src 1 in (nth 0 ucp 0, src)
  end.

Definition get_bool src : bool * BinarySource :=
  match BinarySource_data_avail src 1 with
  | (false, src) => (false, src)
  | (true, src) => let '(ucp, src) := consume src 1 in (negb (nth 0 ucp 0 =? 0), src)
  end.

Definition get_uint16 src : Z * BinarySource :=
  match BinarySource_data_avail src 2 with
  | (false, src) => (0, src)
  | (true, src) => let '(ucp, src) := consume src 2 in (GET_16BIT_MSB_FIRST ucp, src)
  end.

Definition get_uint32 src : Z * BinarySource :=
  match BinarySource_data_avail src 4 with
  | (false, src) => (0, src)
  | (true, src) => let '(ucp, src) := consume src 4 in (GET_32BIT_MSB_FIRST ucp, src)
  end.

Definition get_uint64 src : Z * BinarySource :=
  match BinarySource_data_avail src 8 with
  | (false, src) => (0, src)
  | (true, src) => let '(ucp, src) := consume src 8 in (GET_64BIT_MSB_FIRST ucp, src)
  end.

Definition get_string src : list Z * BinarySource :=
  match BinarySource_data_avail src 4 with
  | (false, src) => ([], src)
  | (true, src) =>
      let '(ucp, src) := consume src 4 in
      let n := GET_32BIT_MSB_FIRST ucp in
      match BinarySource_data_avail src n with
      | (false, src) => ([], src)
      | (true, src) => consume src n
      end
  end.

(** [memchr]: the index of the first [c]. *)
Fixpoint memchr (l : list Z) (c : Z) : option Z :=
  match l with
  | [] => None
  | x :: l => if x =? c then Some 0 else option_map (Z.add 1) (memchr l c)
  end.

Definition get_asciz src : list Z * BinarySource :=
  if decide (bs_err src = BSE_NO_ERROR) then
    match memchr (here src) 0 with
    | None => ([], set_err src BSE_OUT_OF_DATA)
    | Some e => (take (Z.to_nat e) (here src), advance src (e + 1))
    end
  else ([], src).

(** [strchr(set, c) != NULL]; the terminating NUL is part of the string. *)
Definition strchr_found (set : list Z) (c : Z) : bool :=
  bool_decide (c ∈ set) || (c =? 0).

(** The [while (avail(1))] loop; each iteration but the last consumes a byte. *)
Fixpoint get_chars_loop (fuel : nat) (set : list Z) (include : bool) src : BinarySource :=
  match fuel with
  | O => src
  | Datatypes.S fuel =>
      match BinarySource_data_avail src 1 with
      | (false, src) => src
      | (true, src) =>
          let present := strchr_found set (nth 0 (here src) 0) in
          if eqb present include then get_chars_loop fuel set include (advance src 1)
          else src
      end
  end.

Definition get_chars_internal src (set : list Z) (include : bool) : list Z * BinarySource :=
  let src' := get_chars_loop (Datatypes.S (length (bs_data src))) set include src in
  (take (Z.to_nat (bs_pos src' - bs_pos src)) (here src), src').

Definition get_chars src set := get_chars_internal src set true.
Definition get_nonchars src set := get_chars_internal src set false.

(** [if (end > start && end[-1] == c) end--] on the line [start..end]. *)
Definition chomp_one (c : Z) (line : list Z) : list Z :=
  match list.last line with
  | Some x => if x =? c then take (length line - 1) line else line
  | None => line
  end.

Definition get_chomped_line src : list Z * BinarySource :=
  if decide (bs_err src = BSE_NO_ERROR) then
    let dist := match memchr (here src) 10 with
                | Some e => e + 1
                | None => len (bs_data src) - bs_pos src
                end in
    let '(line, src) := consume src dist in
    (chomp_one 13 (chomp_one 10 line), src)
  else ([], src).

Definition get_pstring src : list Z * BinarySource :=
  match BinarySource_data_avail src 1 with
  | (false, src) => ([], src)
  | (true, src) =>
      let '(ucp, src) := consume src 1 in
      let n := nth 0 ucp 0 in
      match BinarySource_data_avail src n with
      | (false, src) => ([], src)
      | (true, src) => consume src n
      end
  end.

Definition BinarySource_REWIND_TO src (pos : Z) : BinarySource :=
  if pos <=? len (bs_data src) then mkSource (bs_data src) pos BSE_NO_ERROR
  else mkSource (bs_data src) (len (bs_data src)) BSE_OUT_OF_DATA.
End Get.

(** ** Encodings of the fixed-width integers *)

Lemma PUT_16BIT_split v : PUT_16BIT_MSB_FIRST v = be_split 2 v.
Proof. unfold PUT_16BIT_MSB_FIRST, wrap. by rewrite !shiftr_div by lia. Qed.

Lemma PUT_32BIT_split v : PUT_32BIT_MSB_FIRST v = be_split 4 v.
Proof.
  unfold PUT_32BIT_MSB_FIRST, wrap. rewrite !shiftr_div by lia. simpl.
  by rewrite !Z.div_div by lia.
Qed.

Lemma PUT_64BIT_split v : PUT_64BIT_MSB_FIRST v = be_split 8 v.
Proof.
  unfold PUT_64BIT_MSB_FIRST, wrap. rewrite !shiftr_div by lia. simpl.
  by rewrite !Z.div_div by lia.
Qed.

#[global] Arguments be_split : simpl never.

(** Appending a byte at the bottom is a shift of the rest: the shape of GET_*. *)
Lemma lor_bytes n a b : 0 <= n -> word_ok n a -> byte_ok b ->
  Z.lor a (Z.shiftl b n) = a + b * 2 ^ n /\ word_ok (n + 8) (Z.lor a (Z.shiftl b n)).
Proof.
  intros Hn Ha Hb. rewrite lor_shiftl_add by done. split; [done|].
  unfold word_ok in *. rewrite Z.pow_add_r by lia. nia.
Qed.

Ltac lor_val :=
  repeat match goal with
  | |- context [Z.lor ?a (Z.shiftl ?b ?n)] =>
      let E := fresh in let R := fresh in
      destruct (lor_bytes n a b) as [E R]; [lia|eassumption|eassumption|];
      rewrite E in R; rewrite E; clear E; simpl Z.add in R
  end.

Lemma GET_16BIT_val p : bytes_ok p -> length p = 2%nat -> GET_16BIT_MSB_FIRST p = be_val p.
Proof.
  intros Hp Hl. destruct p as [|a [|b [|]]]; try discriminate.
  rewrite !Forall_cons_iff in Hp. destruct Hp as (Ha & Hb & _).
  cbv [GET_16BIT_MSB_FIRST nth be_val fold_left]. lor_val. lia.
Qed.

Lemma GET_32BIT_val p : bytes_ok p -> length p = 4%nat -> GET_32BIT_MSB_FIRST p = be_val p.
Proof.
  intros Hp Hl. destruct p as [|a [|b [|c [|d [|]]]]]; try discriminate.
  rewrite !Forall_cons_iff in Hp. destruct Hp as (Ha & Hb & Hc & Hd & _).
  cbv [GET_32BIT_MSB_FIRST nth be_val fold_left]. lor_val. lia.
Qed.

Lemma GET_64BIT_val p : bytes_ok p -> length p = 8%nat -> GET_64BIT_MSB_FIRST p = be_val p.
Proof.
  intros Hp Hl. destruct p as [|a [|b [|c [|d [|e [|f [|g [|h [|]]]]]]]]]; try discriminate.
  rewrite !Forall_cons_iff in Hp. destruct Hp as (Ha & Hb & Hc & Hd & He & Hf & Hg & Hh & _).
  cbv [GET_64BIT_MSB_FIRST nth be_val fold_left]. lor_val. lia.
Qed.

(** ** The decoder's state *)

Definition src_ok (src : BinarySource) : Prop :=
  0 <= bs_pos src <= len (bs_data src) /\ bytes_ok (bs_data src).

Lemma here_ok src : src_ok src -> bytes_ok (here src).
Proof. intros [_ H]. by apply Forall_drop. Qed.

Lemma len_here src : src_ok src -> len (here src) = len (bs_data src) - bs_pos src.
Proof. intros [? _]. unfold here. by rewrite len_drop. Qed.

(** What [avail] does, as a specification its callers use. *)
Lemma avail_spec src n b src' :
  BinarySource_data_avail src n = (b, src') -> src_ok src ->
  bs_data src' = bs_data src /\ bs_pos src' = bs_pos src /\
  (b = true -> src' = src /\ bs_err src = BSE_NO_ERROR /\ n <= len (here src)) /\
  (b = false -> bs_err src' <> BSE_NO_ERROR) /\
  (bs_err src <> BSE_NO_ERROR -> b = false /\ src' = src).
Proof.
  intros Ha Hok. pose proof (len_here src Hok). unfold BinarySource_data_avail in Ha.
  destruct (decide _) as [E|E]; [|naive_solver].
  destruct (n <=? _) eqn:?; bsimpl; simplify_eq; simpl; repeat split; done || lia.
Qed.

(** One step of the decoder: it moves forward inside the same block, and does not
    move once an error is set. *)
Definition get_step (src src' : BinarySource) : Prop :=
  src_ok src' /\ bs_data src' = bs_data src /\ bs_pos src <= bs_pos src' /\
  (bs_err src <> BSE_NO_ERROR -> src' = src).

#[export] Instance get_step_trans : Transitive get_step.
Proof.
  intros s1 s2 s3 (?&?&?&Hstick1) (?&?&?&Hstick2).
  split_and!; [done|congruence|lia|]. intros E. specialize (Hstick1 E) as ->. by apply Hstick2.
Qed.

Lemma get_step_refl src : src_ok src -> get_step src src.
Proof. done. Qed.

Lemma avail_false src n src' :
  BinarySource_data_avail src n = (false, src') -> src_ok src -> get_step src src'.
Proof.
  intros H Hok. destruct (avail_spec _ _ _ _ H Hok) as (Hd & Hp & _ & _ & He).
  destruct Hok as [? ?]. unfold get_step, src_ok. rewrite Hd, Hp.
  split_and!; try done; try lia. intros E. by apply He.
Qed.

Lemma avail_true src n src' :
  BinarySource_data_avail src n = (true, src') -> src_ok src ->
  src' = src /\ bs_err src = BSE_NO_ERROR /\ n <= len (here src).
Proof. intros H Hok. by apply (avail_spec _ _ _ _ H Hok). Qed.

Lemma advance_step src n :
  src_ok src -> bs_err src = BSE_NO_ERROR -> 0 <= n <= len (here src) ->
  get_step src (advance src n).
Proof.
  intros Hok He Hn. rewrite len_here in Hn by done. destruct Hok.
  unfold get_step, src_ok; simpl. split_and!; done || lia.
Qed.

Lemma take_here_ok src n : src_ok src -> bytes_ok (take n (here src)).
Proof. intros. by apply Forall_take, here_ok. Qed.
#[export] Hint Resolve get_step_refl avail_false advance_step take_here_ok : ssh.

Lemma nth_ok l i : bytes_ok l -> byte_ok (nth i l 0).
Proof.
  intros H. destruct (nth_in_or_default i l 0) as [Hin| ->]; [|done].
  rewrite List.Forall_forall in H. by apply H.
Qed.

Lemma memchr_bound l c e : memchr l c = Some e -> 0 <= e < len l.
Proof.
  revert e; induction l as [|x l IH]; intros e; simpl; [done|].
  rewrite len_cons. pose proof (len_nonneg l). case_match; [intros [= <-]; lia|].
  destruct (memchr l c) eqn:E; simpl; [|done]. intros [= <-]. specialize (IH _ eq_refl). lia.
Qed.

Lemma GET_32BIT_nonneg p : bytes_ok p -> 0 <= GET_32BIT_MSB_FIRST p.
Proof.
  intros H. unfold GET_32BIT_MSB_FIRST.
  rewrite !Z.lor_nonneg, !Z.shiftl_nonneg. repeat split; by apply nth_ok.
Qed.

(** ** Every getter is a [get_step] *)

(** The unmarshalling functions of the interface. *)
Inductive getop :=
| Get_data (n : Z) | Get_byte | Get_bool | Get_uint16 | Get_uint32 | Get_uint64
| Get_string | Get_asciz | Get_chars (set : list Z) | Get_nonchars (set : list Z)
| Get_chomped_line | Get_pstring.

Inductive getval := VBytes (l : list Z) | VNum (n : Z) | VBool (b : bool).

Definition run_getop (op : getop) (src : BinarySource) : getval * BinarySource :=
  match op with
  | Get_data n => prod_map VBytes id (get_data src n)
  | Get_byte => prod_map VNum id (get_byte src)
  | Get_bool => prod_map VBool id (get_bool src)
  | Get_uint16 => prod_map VNum id (get_uint16 src)
  | Get_uint32 => prod_map VNum id (get_uint32 src)
  | Get_uint64 => prod_map VNum id (get_uint64 src)
  | Get_string => prod_map VBytes id (get_string src)
  | Get_asciz => prod_map VBytes id (get_asciz src)
  | Get_chars set => prod_map VBytes id (get_chars src set)
  | Get_nonchars set => prod_map VBytes id (get_nonchars src set)
  | Get_chomped_line => prod_map VBytes id (get_chomped_line src)
  | Get_pstring => prod_map VBytes id (get_pstring src)
  end.

Ltac avail_case :=
  match goal with
  | Hok : src_ok ?s |- context [BinarySource_data_avail ?s ?n] =>
      let E := fresh "E" in
      destruct (BinarySource_data_avail s n) as [[] ?] eqn:E;
      [apply avail_true in E as (-> & ? & ?); [|exact Hok]
      |apply avail_false in E; [|exact Hok]; simpl; try exact E]
  end.

Lemma counted_step src n : src_ok src -> 0 <= n ->
  get_step src (snd (match BinarySource_data_avail src n with
                     | (false, s) => ([], s) | (true, s) => consume s n end)).
Proof. intros Hok Hn. avail_case. simpl. by apply advance_step. Qed.

Lemma get_string_step src : src_ok src -> get_step src (snd (get_string src)).
Proof.
  intros Hok. unfold get_string. avail_case. cbn [consume].
  assert (get_step src (advance src 4)) as Hs by (apply advance_step; done || lia).
  transitivity (advance src 4); [done|].
  apply counted_step; [apply Hs|]. by apply GET_32BIT_nonneg, take_here_ok.
Qed.

Lemma get_pstring_step src : src_ok src -> get_step src (snd (get_pstring src)).
Proof.
  intros Hok. unfold get_pstring. avail_case. cbn [consume].
  assert (get_step src (advance src 1)) as Hs by (apply advance_step; done || lia).
  transitivity (advance src 1); [done|].
  apply counted_step; [apply Hs|]. apply nth_ok. by apply take_here_ok.
Qed.

Lemma get_asciz_step src : src_ok src -> get_step src (snd (get_asciz src)).
Proof.
  intros Hok. unfold get_asciz. case_decide; [|by apply get_step_refl].
  destruct (memchr (here src) 0) eqn:E; simpl.
  - apply memchr_bound in E. apply advance_step; done || lia.
  - destruct Hok. by unfold get_step, src_ok.
Qed.

Lemma get_chars_loop_step fuel set include src :
  src_ok src -> get_step src (get_chars_loop fuel set include src).
Proof.
  revert src; induction fuel as [|fuel IH]; intros src Hok; simpl; [by apply get_step_refl|].
  avail_case. case_match; [|by apply get_step_refl].
  assert (get_step src (advance src 1)) as Hs by (apply advance_step; done || lia).
  etransitivity; [exact Hs|]. apply IH, Hs.
Qed.

Lemma get_chomped_line_step src : src_ok src -> get_step src (snd (get_chomped_line src)).
Proof.
  intros Hok. unfold get_chomped_line. case_decide; [|by apply get_step_refl].
  destruct (memchr (here src) 10) eqn:E; simpl.
  - apply memchr_bound in E. apply advance_step; done || lia.
  - pose proof (len_here src Hok). pose proof (len_nonneg (here src)).
    apply advance_step; done || lia.
Qed.

(** The single-value getters share one shape: a default, or a function of the
    consumed bytes. *)
Lemma fixed_step {A} src n (d : A) (f : list Z -> A) : src_ok src -> 0 <= n ->
  get_step src (snd (match BinarySource_data_avail src n with
                     | (false, s) => (d, s)
                     | (true, s) => let '(u, s) := consume s n in (f u, s) end)).
Proof. intros Hok Hn. avail_case. simpl. by apply advance_step. Qed.

Lemma snd_prod_map_id {A B C} (f : A -> B) (p : A * C) : snd (prod_map f id p) = snd p.
Proof. by destruct p. Qed.

Lemma run_getop_step op src :
  match op with Get_data n => 0 <= n | _ => True end ->
  src_ok src -> get_step src (snd (run_getop op src)).
Proof.
  intros Hop Hok.
  destruct op; unfold run_getop; rewrite snd_prod_map_id.
  - by apply counted_step.
  - by apply (fixed_step src 1 0 (fun u => nth 0 u 0)).
  - by apply (fixed_step src 1 false (fun u => negb (nth 0 u 0 =? 0))).
  - by apply (fixed_step src 2 0 GET_16BIT_MSB_FIRST).
  - by apply (fixed_step src 4 0 GET_32BIT_MSB_FIRST).
  - by apply (fixed_step src 8 0 GET_64BIT_MSB_FIRST).
  - by apply get_string_step.
  - by apply get_asciz_step.
  - by apply get_chars_loop_step.
  - by apply get_chars_loop_step.
  - by apply get_chomped_line_step.
  - by apply get_pstring_step.
Qed.

(** ** Typed fields: what is written is what is read *)

(** A value of one of the wire types, as the protocol code sees it. *)
Inductive field :=
| FData (d : list Z) | FByte (v : Z) | FBool (b : bool) | FUint16 (v : Z)
| FUint32 (v : Z) | FUint64 (v : Z) | FString (d : list Z) | FAsciz (s : list Z)
| FPstring (s : list Z).

Definition field_ok (f : field) : Prop :=
  match f with
  | FData d => bytes_ok d
  | FByte v => word_ok 8 v
  | FBool _ => True
  | FUint16 v => word_ok 16 v
  | FUint32 v => word_ok 32 v
  | FUint64 v => word_ok 64 v
  | FString d => bytes_ok d /\ len d < 2 ^ 32
  | FAsciz s => bytes_ok s /\ Forall (fun c => c <> 0) s
  | FPstring s => bytes_ok s /\ len s <= 255
  end.

(** The encoding a field has on the wire (RFC 4251, section 5). *)
Definition field_enc (f : field) : list Z :=
  match f with
  | FData d => d
  | FByte v => [v]
  | FBool b => [if b then 1 else 0]
  | FUint16 v => be_split 2 v
  | FUint32 v => be_split 4 v
  | FUint64 v => be_split 8 v
  | FString d => be_split 4 (len d) ++ d
  | FAsciz s => s ++ [0]
  | FPstring s => len s :: s
  end.

(** The [put_*] call for a field. *)
Definition put_field {S} `{BinarySink S} (bs : S) (f : field) : option S :=
  match f with
  | FData d => put_data bs d
  | FByte v => put_byte bs v
  | FBool b => put_bool bs b
  | FUint16 v => put_uint16 bs v
  | FUint32 v => put_uint32 bs v
  | FUint64 v => put_uint64 bs v
  | FString d => put_string bs d
  | FAsciz s => put_asciz bs s
  | FPstring s => snd <$> put_pstring bs s
  end.

Fixpoint put_fields {S} `{BinarySink S} (bs : S) (fs : list field) : option S :=
  match fs with
  | [] => Some bs
  | f :: fs => match put_field bs f with Some bs => put_fields bs fs | None => None end
  end.

(** The [get_*] call that reads a field of the same type as [f]. *)
Definition get_field (f : field) (src : BinarySource) : field * BinarySource :=
  match f with
  | FData d => prod_map FData id (get_data src (len d))
  | FByte _ => prod_map FByte id (get_byte src)
  | FBool _ => prod_map FBool id (get_bool src)
  | FUint16 _ => prod_map FUint16 id (get_uint16 src)
  | FUint32 _ => prod_map FUint32 id (get_uint32 src)
  | FUint64 _ => prod_map FUint64 id (get_uint64 src)
  | FString _ => prod_map FString id (get_string src)
  | FAsciz _ => prod_map FAsciz id (get_asciz src)
  | FPstring _ => prod_map FPstring id (get_pstring src)
  end.

Fixpoint get_fields (fs : list field) (src : BinarySource) : list field * BinarySource :=
  match fs with
  | [] => ([], src)
  | f :: fs =>
      let '(v, src) := get_field f src in
      let '(vs, src) := get_fields fs src in (v :: vs, src)
  end.

Lemma field_enc_ok f : field_ok f -> bytes_ok (field_enc f).
Proof.
  destruct f; cbn [field_enc field_ok]; intros; destruct_and?; auto using be_split_ok.
  - by destruct b; repeat constructor.
  - apply Forall_app; auto using be_split_ok.
  - apply Forall_app; repeat constructor; done || auto.
  - constructor; [|done]. pose proof (len_nonneg s). unfold word_ok. lia.
Qed.

(** ** Sequences of fields *)

Lemma put_fields_app {S} `{BinarySink S} (bs : S) fs1 fs2 :
  put_fields bs (fs1 ++ fs2) = (bs ← put_fields bs fs1; put_fields bs fs2).
Proof.
  revert bs; induction fs1 as [|f fs1 IH]; intros bs; cbn [put_fields app]; [done|]. destruct (put_field bs f); [apply IH|done].
Qed.

Lemma put_fields1 {S} `{BinarySink S} (bs : S) f : put_fields bs [f] = put_field bs f.
Proof. cbn [put_fields]. by destruct (put_field bs f). Qed.
Lemma put_fields2 {S} `{BinarySink S} (bs : S) f g : put_fields bs [f; g] = (bs ← put_field bs f; put_field bs g).
Proof.
  cbn [put_fields]. destruct (put_field bs f) as [s|]; [|done]. cbn [mbind option_bind]. by destruct (put_field s g).
Qed.
Lemma put_fields_if {S} `{BinarySink S} (bs : S) (b : bool) fs :
  put_fields bs (if b then fs else []) = if b then put_fields bs fs else Some bs.
Proof. by destruct b. Qed.

Section PutFields.
Context {S : Type} `{BinarySinkLaws S}.

(** A write that succeeds by the sink's laws. *)
Definition writes (s s' : S) (d : list Z) (n : Z) : Prop :=
  sink_out s' = sink_out s ++ d /\ sink_room s' (n - len d).

Lemma writes_app s1 s2 s3 d1 d2 n :
  writes s1 s2 d1 n -> writes s2 s3 d2 (n - len d1) -> writes s1 s3 (d1 ++ d2) n.
Proof.
  intros [E1 R1] [E2 R2]. split; [by rewrite E2, E1, app_assoc|].
  rewrite len_app. by replace (n - (len d1 + len d2)) with (n - len d1 - len d2) by lia.
Qed.

Lemma put_padding_loop_spec fuel b s n room :
  sink_room s room -> 0 <= n <= room -> n <= Z.of_nat fuel ->
  exists s', put_padding_loop fuel (replicate 16 b) s n = Some s'
          /\ writes s s' (replicate (Z.to_nat n) b) room.
Proof.
  revert s n room; induction fuel as [|fuel IH]; intros s n room Hr Hn Hf; cbn [put_padding_loop].
  { exists s. replace n with 0 by lia. split; [done|].
    split; simpl; [by rewrite app_nil_r|]. by rewrite Z.sub_0_r. }
  destruct (Z.ltb_spec 0 n).
  2:{ exists s. replace n with 0 by lia. split; [done|].
      split; simpl; [by rewrite app_nil_r|]. by rewrite Z.sub_0_r. }
  change (len (replicate 16 b)) with 16.
  set (t := if n <? 16 then n else 16).
  assert (0 < t <= n /\ t <= 16) as [Ht Ht16] by (unfold t; bcase; lia).
  rewrite take_replicate. replace (Z.to_nat t `min` 16)%nat with (Z.to_nat t) by lia.
  destruct (bs_write_spec s (replicate (Z.to_nat t) b) room) as (s1 & -> & E1 & R1);
    [done|rewrite len_replicate; lia|].
  destruct (IH s1 (n - t) (room - t)) as (s2 & -> & W2); try lia.
  { by rewrite len_replicate in R1 by lia. }
  exists s2. split; [done|].
  replace (Z.to_nat n) with (Z.to_nat t + Z.to_nat (n - t))%nat by lia.
  rewrite replicate_add. eapply writes_app; [by split|].
  by rewrite len_replicate by lia.
Qed.

Lemma write2_spec s d1 d2 n :
  sink_room s n -> len (d1 ++ d2) <= n ->
  exists s1 s2, bs_write s d1 = Some s1 /\ bs_write s1 d2 = Some s2
             /\ writes s s2 (d1 ++ d2) n.
Proof.
  intros Hr Hl. rewrite len_app in Hl. pose proof (len_nonneg d2).
  destruct (bs_write_spec s d1 n) as (s1 & E1 & O1 & R1); [done|lia|].
  destruct (bs_write_spec s1 d2 (n - len d1)) as (s2 & E2 & O2 & R2); [done|lia|].
  exists s1, s2. split_and!; [done|done|]. eapply writes_app; by split.
Qed.

Lemma put_field_spec s f n :
  field_ok f -> sink_room s n -> len (field_enc f) <= n ->
  exists s', put_field s f = Some s' /\ writes s s' (field_enc f) n.
Proof.
  intros Hf Hr Hl. destruct f as [d|v|b|v|v|v|d|t|t]; simpl in Hf;
    unfold put_field, put_data, put_byte, put_bool, put_uint16, put_uint32, put_uint64, put_asciz;
    rewrite ?PUT_16BIT_split, ?PUT_32BIT_split, ?PUT_64BIT_split, ?wrap_id by done;
    try (by apply bs_write_spec).
  - destruct Hf as [_ Hlen]. pose proof (len_nonneg d). unfold put_string.
    rewrite shiftr_div by lia. rewrite (proj2 (Z.ltb_lt _ 2))
      by (apply Z.div_lt_upper_bound; lia).
    unfold put_uint32. rewrite wrap_id, PUT_32BIT_split by (split; lia).
    destruct (write2_spec s (be_split 4 (len d)) d n) as (s1 & s2 & -> & -> & W); eauto.
  - destruct Hf as [_ Hlen]. pose proof (len_nonneg t). unfold put_pstring.
    rewrite (proj2 (Z.ltb_ge 255 _)) by lia. unfold put_byte.
    rewrite wrap_id by (unfold word_ok; lia).
    destruct (write2_spec s [len t] t n) as (s1 & s2 & -> & -> & W); eauto.
Qed.

Lemma put_fields_spec fs s n :
  Forall field_ok fs -> sink_room s n -> len (fs ≫= field_enc) <= n ->
  exists s', put_fields s fs = Some s' /\ writes s s' (fs ≫= field_enc) n.
Proof.
  revert s n; induction fs as [|f fs IH]; intros s n Hf Hr Hl; simpl.
  { exists s. split; [done|]. split; [by rewrite app_nil_r|]. by rewrite Z.sub_0_r. }
  apply Forall_cons_iff in Hf as [Hf Hfs]. rewrite bind_cons, len_app in Hl.
  pose proof (len_nonneg (fs ≫= field_enc)).
  destruct (put_field_spec s f n) as (s1 & -> & W1); [done..|lia|].
  destruct (IH s1 (n - len (field_enc f))) as (s2 & -> & W2); [done|apply W1|lia|].
  exists s2. split; [done|]. by eapply writes_app.
Qed.
End PutFields.

Section GetFields.
Implicit Types src : BinarySource.

Lemma avail_enough src n :
  src_ok src -> bs_err src = BSE_NO_ERROR -> n <= len (here src) ->
  BinarySource_data_avail src n = (true, src).
Proof.
  intros Hok He Hn. unfold BinarySource_data_avail. rewrite decide_True by done.
  rewrite len_here in Hn by done. by rewrite (proj2 (Z.leb_le _ _)).
Qed.

Lemma avail_short src n :
  src_ok src -> bs_err src = BSE_NO_ERROR -> len (here src) < n ->
  BinarySource_data_avail src n = (false, set_err src BSE_OUT_OF_DATA).
Proof.
  intros Hok He Hn. unfold BinarySource_data_avail. rewrite decide_True by done.
  rewrite len_here in Hn by done. by rewrite (proj2 (Z.leb_gt _ _)).
Qed.

Lemma here_advance src d rest :
  src_ok src -> here src = d ++ rest -> here (advance src (len d)) = rest.
Proof.
  intros [Hp _] Hh. unfold here in *; simpl. pose proof (len_nonneg d).
  rewrite Z2Nat.inj_add, <- drop_drop, Hh, to_nat_len, drop_app_length by lia. done.
Qed.

Lemma take_here src d rest : here src = d ++ rest -> take (Z.to_nat (len d)) (here src) = d.
Proof. intros ->. by rewrite to_nat_len, take_app_length. Qed.

(** [consume] of exactly the bytes of [d]. *)
Lemma consume_exact src d rest :
  here src = d ++ rest -> consume src (len d) = (d, advance src (len d)).
Proof. intros. unfold consume. by erewrite take_here. Qed.

Lemma memchr_zero s rest :
  Forall (fun c => c <> 0) s -> memchr (s ++ 0 :: rest) 0 = Some (len s).
Proof.
  induction 1 as [|c s Hc _ IH]; [done|]. rewrite len_cons. simpl.
  rewrite (proj2 (Z.eqb_neq c 0)), IH by done. done.
Qed.

Lemma memchr_zero_none s : Forall (fun c => c <> 0) s -> memchr s 0 = None.
Proof.
  induction 1 as [|c s Hc _ IH]; [done|]. simpl.
  by rewrite (proj2 (Z.eqb_neq c 0)), IH by done.
Qed.

Context (src : BinarySource) (Hok : src_ok src) (He : bs_err src = BSE_NO_ERROR).

Lemma len_here_app d rest : here src = d ++ rest -> len d <= len (here src).
Proof. intros ->. rewrite len_app. pose proof (len_nonneg rest). lia. Qed.

Lemma advance_ok d rest : here src = d ++ rest -> src_ok (advance src (len d)).
Proof.
  intros E. apply advance_step; try done. split; [apply len_nonneg|].
  by eapply len_here_app.
Qed.

Lemma advance_advance a b : advance (advance src a) b = advance src (a + b).
Proof. unfold advance; simpl. by rewrite Z.add_assoc. Qed.

Lemma len_be_split n v : len (be_split n v) = Z.of_nat n.
Proof. unfold len. by rewrite length_be_split. Qed.

Lemma be_val_split_id n v : word_ok (8 * Z.of_nat n) v -> be_val (be_split n v) = v.
Proof.
  intros H. rewrite be_val_split. change 256 with (2 ^ 8).
  rewrite <- Z.pow_mul_r by lia. by apply Z.mod_small.
Qed.

Lemma GET_32BIT_len v : 0 <= v < 2 ^ 32 -> GET_32BIT_MSB_FIRST (be_split 4 v) = v.
Proof.
  intros. rewrite GET_32BIT_val, be_val_split_id; auto using be_split_ok, length_be_split.
Qed.

(** A getter made of [avail n], [consume n] and a conversion of the bytes. *)
Lemma fixed_read {A} (d : A) (f : list Z -> A) n b rest :
  here src = b ++ rest -> len b = n ->
  match BinarySource_data_avail src n with
  | (false, s) => (d, s)
  | (true, s) => let '(u, s) := consume s n in (f u, s)
  end = (f b, advance src n).
Proof.
  intros E <-. rewrite avail_enough by (eauto using len_here_app).
  by erewrite consume_exact.
Qed.

Lemma get_field_read f rest :
  field_ok f -> here src = field_enc f ++ rest ->
  get_field f src = (f, advance src (len (field_enc f))).
Proof.
  intros Hf E. destruct f as [d|v|b|v|v|v|d|t|t]; cbn [field_ok field_enc get_field] in *.
  - unfold get_data. rewrite avail_enough by (eauto using len_here_app).
    by erewrite consume_exact.
  - unfold get_byte. by rewrite (fixed_read _ _ 1 _ _ E eq_refl).
  - unfold get_bool. rewrite (fixed_read _ _ 1 _ _ E eq_refl). by destruct b.
  - unfold get_uint16. rewrite (fixed_read _ _ 2 _ _ E (len_be_split 2 v)).
    rewrite GET_16BIT_val, be_val_split_id, len_be_split; auto using be_split_ok, length_be_split.
  - unfold get_uint32. rewrite (fixed_read _ _ 4 _ _ E (len_be_split 4 v)).
    rewrite GET_32BIT_val, be_val_split_id, len_be_split; auto using be_split_ok, length_be_split.
  - unfold get_uint64. rewrite (fixed_read _ _ 8 _ _ E (len_be_split 8 v)).
    rewrite GET_64BIT_val, be_val_split_id, len_be_split; auto using be_split_ok, length_be_split.
  - destruct Hf as [Hd Hl]. rewrite <- app_assoc in E. unfold get_string.
    change 4 with (len (be_split 4 (len d))) at 1 2.
    rewrite avail_enough by (eauto using len_here_app). erewrite consume_exact by done.
    pose proof (len_nonneg d).
    rewrite GET_32BIT_len by lia.
    pose proof (advance_ok _ _ E) as Hok'. pose proof (here_advance _ _ _ Hok E) as E'.
    rewrite avail_enough by (done || rewrite E', len_app; pose proof (len_nonneg rest); lia).
    erewrite consume_exact by done. cbn [prod_map fst snd]. unfold id.
    by rewrite advance_advance, len_app.
  - destruct Hf as [Hb Hz]. unfold get_asciz. rewrite decide_True by done.
    rewrite <- app_assoc in E. change ([0] ++ rest) with (0 :: rest) in E.
    rewrite E, memchr_zero by done.
    rewrite to_nat_len, take_app_length. by rewrite len_app.
  - destruct Hf as [Hb Hl]. unfold get_pstring. pose proof (len_nonneg t).
    change 1 with (len [len t]) at 1 2. change (len t :: t) with ([len t] ++ t) in *.
    rewrite <- app_assoc in E.
    rewrite avail_enough by (eauto using len_here_app). erewrite consume_exact by done.
    pose proof (advance_ok _ _ E) as Hok'. pose proof (here_advance _ _ _ Hok E) as E'.
    cbn [nth]. rewrite avail_enough by (done || rewrite E', len_app; pose proof (len_nonneg rest); lia).
    erewrite consume_exact by done. cbn [prod_map fst snd]. unfold id.
    by rewrite advance_advance, len_app.
Qed.

(** A counted string cut short, in its header or in its body. *)
Lemma counted_short k (decode : list Z -> Z) hdr d q :
  hdr ++ d = here src ++ q -> q <> [] -> len hdr = k -> decode hdr = len d ->
  bs_err (snd (match BinarySource_data_avail src k with
               | (false, s) => ([], s)
               | (true, s) =>
                   let '(u, s) := consume s k in
                   match BinarySource_data_avail s (decode u) with
                   | (false, s) => ([], s)
                   | (true, s) => consume s (decode u)
                   end
               end)) = BSE_OUT_OF_DATA.
Proof.
  intros E Hq <- Hd. destruct (Z.lt_ge_cases (len (here src)) (len hdr)) as [Hlt|Hge].
  { by rewrite avail_short. }
  assert (exists d', here src = hdr ++ d' /\ d = d' ++ q) as (d' & Eh & Ed).
  { apply app_eq_app in E as [k [[E1 E2]|[E1 E2]]]; [|by exists k].
    exists []. apply (f_equal len) in E1 as El. rewrite len_app in El.
    assert (k = []) as -> by (destruct k; [done|rewrite len_cons in El; pose proof (len_nonneg k); lia]).
    rewrite app_nil_r in E1. by rewrite E1, app_nil_r. }
  rewrite avail_enough by done. erewrite consume_exact by done. rewrite Hd.
  rewrite avail_short; [done|by eapply advance_ok|done|].
  rewrite (here_advance _ _ _ Hok Eh), Ed, len_app. destruct q; [done|].
  rewrite len_cons. pose proof (len_nonneg q). lia.
Qed.

(** A field cut short anywhere sets the error. *)
Lemma get_field_short f q :
  field_ok f -> field_enc f = here src ++ q -> q <> [] ->
  bs_err (snd (get_field f src)) = BSE_OUT_OF_DATA.
Proof.
  intros Hf E Hq.
  assert (Hlt : len (here src) < len (field_enc f)).
  { rewrite E, len_app. destruct q; [done|]. rewrite len_cons. pose proof (len_nonneg q). lia. }
  destruct f as [d|v|b|v|v|v|d|t|t]; cbn [field_ok field_enc get_field] in *;
    rewrite snd_prod_map_id; rewrite ?len_be_split in Hlt.
  - unfold get_data. by rewrite avail_short.
  - unfold get_byte. by rewrite avail_short.
  - unfold get_bool. by rewrite avail_short.
  - unfold get_uint16. by rewrite avail_short.
  - unfold get_uint32. by rewrite avail_short.
  - unfold get_uint64. by rewrite avail_short.
  - destruct Hf as [_ Hl]. pose proof (len_nonneg d). eapply counted_short; [done..|].
    apply GET_32BIT_len; lia.
  - destruct Hf as [Hb Hz]. unfold get_asciz. rewrite decide_True by done.
    rewrite memchr_zero_none; [done|].
    assert (here src `prefix_of` t) as [k Hk].
    { destruct q as [|x q _] using rev_ind; [done|]. rewrite app_assoc in E.
      apply app_inj_tail in E as [E _]. by exists q. }
    rewrite Hk in Hz. by apply Forall_app in Hz as [? _].
  - by apply (counted_short 1 (fun u => nth 0 u 0) [len t] t q).
Qed.
End GetFields.

(** A source without error whose remaining bytes are [d]. *)
Definition at_data (src : BinarySource) (d : list Z) : Prop :=
  src_ok src /\ bs_err src = BSE_NO_ERROR /\ here src = d.

Lemma at_data_field src f rest :
  field_ok f -> at_data src (field_enc f ++ rest) ->
  exists src', get_field f src = (f, src') /\ at_data src' rest.
Proof.
  intros Hf (Hok&He&Hh). eexists. split; [by apply get_field_read with (rest := rest)|].
  split; [by eapply advance_ok|]. split; [done|]. by apply here_advance.
Qed.

Lemma at_data_uint32 src v rest :
  word_ok 32 v -> at_data src (be_split 4 v ++ rest) -> exists src', get_uint32 src = (v, src') /\ at_data src' rest.
Proof.
  intros Hv Hs. destruct (at_data_field src (FUint32 v) rest Hv Hs) as (src'&E&Hs').
  cbn [get_field] in E. destruct (get_uint32 src). injection E as -> ->. eauto.
Qed.

Lemma at_data_bool src (b : bool) rest :
  at_data src ([if b then 1 else 0] ++ rest) -> exists src', get_bool src = (b, src') /\ at_data src' rest.
Proof.
  intros Hs. destruct (at_data_field src (FBool b) rest I Hs) as (src'&E&Hs').
  cbn [get_field] in E. destruct (get_bool src). injection E as -> ->. eauto.
Qed.

Lemma at_data_string src d rest :
  bytes_ok d -> len d < 2 ^ 32 -> at_data src (be_split 4 (len d) ++ d ++ rest) ->
  exists src', get_string src = (d, src') /\ at_data src' rest.
Proof.
  intros Hd Hl Hs. rewrite app_assoc in Hs. destruct (at_data_field src (FString d) rest (conj Hd Hl) Hs) as (src'&E&Hs').
  cbn [get_field] in E. destruct (get_string src). injection E as -> ->. eauto.
Qed.

Lemma at_data_uint64 src v rest :
  word_ok 64 v -> at_data src (be_split 8 v ++ rest) -> exists src', get_uint64 src = (v, src') /\ at_data src' rest.
Proof.
  intros Hv Hs. destruct (at_data_field src (FUint64 v) rest Hv Hs) as (src'&E&Hs').
  cbn [get_field] in E. destruct (get_uint64 src). injection E as -> ->. eauto.
Qed.

Lemma at_data_byte src v rest :
  word_ok 8 v -> at_data src (v :: rest) -> exists src', get_byte src = (v, src') /\ at_data src' rest.
Proof.
  intros Hv Hs. destruct (at_data_field src (FByte v) rest Hv Hs) as (src'&E&Hs').
  cbn [get_field] in E. destruct (get_byte src). injection E as -> ->. eauto.
Qed.

Lemma at_data_init d : bytes_ok d -> at_data (BinarySource_INIT d) d.
Proof. intros Hd. split; [|done]. split; [|done]. cbn [bs_pos bs_data BinarySource_INIT]. pose proof (len_nonneg d). lia. Qed.

Lemma get_fields_read fs src rest :
  src_ok src -> bs_err src = BSE_NO_ERROR -> Forall field_ok fs ->
  here src = (fs ≫= field_enc) ++ rest ->
  get_fields fs src = (fs, advance src (len (fs ≫= field_enc))).
Proof.
  revert src; induction fs as [|f fs IH]; intros src Hok He Hf E.
  { simpl. unfold advance. rewrite Z.add_0_r. by destruct src. }
  apply Forall_cons_iff in Hf as [Hf Hfs]. rewrite bind_cons, <- app_assoc in E.
  cbn [get_fields]. erewrite get_field_read by done.
  rewrite IH; [|by eapply advance_ok|done|done|by eapply here_advance].
  by rewrite advance_advance, bind_cons, len_app.
Qed.

Lemma get_field_sticky f src :
  src_ok src -> bs_err src <> BSE_NO_ERROR -> snd (get_field f src) = src.
Proof.
  intros Hok He.
  assert (forall op, match op with Get_data n => 0 <= n | _ => True end ->
                     snd (run_getop op src) = src) as R
    by (intros; by apply run_getop_step).
  destruct f as [d|v|b|v|v|v|d|t|t]; cbn [get_field]; rewrite snd_prod_map_id;
    [specialize (R (Get_data (len d)))|specialize (R Get_byte)|specialize (R Get_bool)
    |specialize (R Get_uint16)|specialize (R Get_uint32)|specialize (R Get_uint64)
    |specialize (R Get_string)|specialize (R Get_asciz)|specialize (R Get_pstring)];
    cbn [run_getop] in R; rewrite snd_prod_map_id in R; apply R; auto using len_nonneg.
Qed.

Lemma get_fields_sticky fs src :
  src_ok src -> bs_err src <> BSE_NO_ERROR -> snd (get_fields fs src) = src.
Proof.
  revert src; induction fs as [|f fs IH]; intros src Hok He; [done|]. cbn [get_fields].
  pose proof (get_field_sticky f src Hok He). destruct (get_field f src); simplify_eq/=.
  specialize (IH src Hok He). by destruct (get_fields fs src); simplify_eq/=.
Qed.

Lemma get_field_ok f src : src_ok src -> src_ok (snd (get_field f src)).
Proof.
  intros Hok.
  assert (forall op, match op with Get_data n => 0 <= n | _ => True end ->
                     src_ok (snd (run_getop op src))) as R
    by (intros; by apply run_getop_step).
  destruct f as [d|v|b|v|v|v|d|t|t]; cbn [get_field]; rewrite snd_prod_map_id;
    [specialize (R (Get_data (len d)))|specialize (R Get_byte)|specialize (R Get_bool)
    |specialize (R Get_uint16)|specialize (R Get_uint32)|specialize (R Get_uint64)
    |specialize (R Get_string)|specialize (R Get_asciz)|specialize (R Get_pstring)];
    cbn [run_getop] in R; rewrite snd_prod_map_id in R; apply R; auto using len_nonneg.
Qed.

(** ** The properties of the wire encoding *)

(** What a getter returns when there is an error. *)
Definition getop_default (op : getop) : getval :=
  match op with
  | Get_byte | Get_uint16 | Get_uint32 | Get_uint64 => VNum 0
  | Get_bool => VBool false
  | _ => VBytes []
  end.

(** The value [v] is what the bytes [used], those the getter passes over, encode. *)
Definition value_read (op : getop) (used : list Z) (v : getval) : Prop :=
  match op, v with
  | Get_data n, VBytes p => used = p /\ len p = n
  | Get_byte, VNum x => used = [x]
  | Get_bool, VBool b => exists x, used = [x] /\ b = negb (x =? 0)
  | Get_uint16, VNum x => used = be_split 2 x
  | Get_uint32, VNum x => used = be_split 4 x
  | Get_uint64, VNum x => used = be_split 8 x
  | Get_string, VBytes p => used = be_split 4 (len p) ++ p
  | Get_asciz, VBytes p => used = p ++ [0] /\ 0 ∉ p
  | Get_pstring, VBytes p => used = len p :: p
  | Get_chars set, VBytes p => used = p /\ Forall (fun c => strchr_found set c = true) p
  | Get_nonchars set, VBytes p => used = p /\ Forall (fun c => strchr_found set c = false) p
  | Get_chomped_line, VBytes p => exists eol, used = p ++ eol /\ eol ∈ [[]; [10]; [13]; [13; 10]]
  | _, _ => False
  end.

(** The getter passes over [used], which is where the source was, and its value is read from there; or there is an error. *)
Definition reads (op : getop) (src : BinarySource) (r : getval * BinarySource) : Prop :=
  exists used, here src = used ++ here r.2 /\ (value_read op used r.1 \/ r.1 = getop_default op /\ bs_err r.2 <> BSE_NO_ERROR).

Lemma avail_false_here src n src' :
  BinarySource_data_avail src n = (false, src') -> src_ok src -> here src' = here src /\ bs_err src' <> BSE_NO_ERROR.
Proof.
  intros H Hok. destruct (avail_spec _ _ _ _ H Hok) as (Hd & Hp & _ & He & _). split; [unfold here; by rewrite Hd, Hp|by apply He].
Qed.

Lemma reads_default op src src' : here src' = here src -> bs_err src' <> BSE_NO_ERROR -> reads op src (getop_default op, src').
Proof. intros Hh He. exists []. split; [by symmetry|by right]. Qed.

(** Passing over [n] bytes. *)
Lemma here_split src n :
  src_ok src -> 0 <= n <= len (here src) ->
  here src = take (Z.to_nat n) (here src) ++ here (advance src n) /\ len (take (Z.to_nat n) (here src)) = n.
Proof.
  intros Hok Hn. assert (len (take (Z.to_nat n) (here src)) = n) as E by (rewrite len_take; lia). split; [|done].
  rewrite <- E at 2. by rewrite (here_advance src _ (drop (Z.to_nat n) (here src))), take_drop by by rewrite ?take_drop.
Qed.

(** The getters of a fixed number of bytes. *)
Lemma fixed_reads {A} op src n (d : A) (f : list Z -> A) (V : A -> getval) :
  src_ok src -> 0 <= n -> V d = getop_default op ->
  (forall u, bytes_ok u -> len u = n -> value_read op u (V (f u))) ->
  reads op src (prod_map V id (match BinarySource_data_avail src n with
                               | (false, s) => (d, s)
                               | (true, s) => let '(u, s) := consume s n in (f u, s) end)).
Proof.
  intros Hok Hn Hd Hf. destruct (BinarySource_data_avail src n) as [[] s] eqn:E.
  - apply avail_true in E as (-> & _ & Hle); [|done]. destruct (here_split src n Hok ltac:(lia)) as [Hh Hl].
    exists (take (Z.to_nat n) (here src)). split; [exact Hh|]. left. apply Hf; [by apply take_here_ok|done].
  - apply avail_false_here in E as [Hh He]; [|done]. cbn. rewrite Hd. by apply reads_default.
Qed.

Lemma be_split_read n u : bytes_ok u -> len u = Z.of_nat n -> u = be_split n (be_val u).
Proof. intros Hu Hl. rewrite <- (be_split_val u Hu) at 1. f_equal. unfold len in Hl. lia. Qed.

(** A length of [k] bytes and that many bytes. *)
Lemma counted_reads op k (f : list Z -> Z) src :
  src_ok src -> 0 <= k -> getop_default op = VBytes [] ->
  (forall u p, bytes_ok u -> len u = k -> 0 <= f u /\ (len p = f u -> value_read op (u ++ p) (VBytes p))) ->
  reads op src (prod_map VBytes id (match BinarySource_data_avail src k with
                               | (false, s) => ([], s)
                               | (true, s) => let '(u, s) := consume s k in
                                   match BinarySource_data_avail s (f u) with (false, s) => ([], s) | (true, s) => consume s (f u) end end)).
Proof.
  intros Hok Hk Hd Hf. destruct (BinarySource_data_avail src k) as [[] s] eqn:E.
  2: { apply avail_false_here in E as [Hh He]; [|done]. cbn. rewrite <- Hd. by apply reads_default. }
  apply avail_true in E as (-> & He & Hle); [|done]. destruct (here_split src k Hok ltac:(lia)) as [Hh Hl]. cbn [consume].
  set (u := take (Z.to_nat k) (here src)) in *. assert (bytes_ok u) as Hu by by apply take_here_ok.
  assert (src_ok (advance src k)) as Hok' by (apply (advance_step src k Hok He); lia).
  destruct (BinarySource_data_avail (advance src k) (f u)) as [[] s] eqn:E'.
  - apply avail_true in E' as (-> & _ & Hle'); [|done]. destruct (here_split _ (f u) Hok') as [Hh' Hl'].
    { split; [by apply (Hf u [])|done]. }
    exists (u ++ take (Z.to_nat (f u)) (here (advance src k))). cbn [prod_map fst snd consume id]. split.
    + by rewrite <- app_assoc, <- Hh'.
    + left. by apply Hf.
  - apply avail_false_here in E' as [Hh' He']; [|done]. exists u. cbn. split; [by rewrite Hh'|]. right. by rewrite Hd.
Qed.

Lemma chars_loop_reads fuel set include src :
  src_ok src -> let src' := get_chars_loop fuel set include src in
  exists used, here src = used ++ here src' /\ bs_pos src' = bs_pos src + len used
    /\ Forall (fun c => strchr_found set c = include) used.
Proof.
  revert src; induction fuel as [|fuel IH]; intros src Hok; cbn [get_chars_loop].
  { exists []. split_and!; [done|rewrite len_nil; lia|constructor]. }
  destruct (BinarySource_data_avail src 1) as [[] s] eqn:E.
  2: { destruct (avail_spec _ _ _ _ E Hok) as (Hd & Hp & _). exists []. split_and!; [unfold here; by rewrite Hd, Hp|rewrite len_nil; lia|constructor]. }
  apply avail_true in E as (-> & He & Hle); [|done]. destruct (eqb _ include) eqn:Ep.
  2: { exists []. split_and!; [done|rewrite len_nil; lia|constructor]. }
  destruct (here_split src 1 Hok ltac:(lia)) as [Hh _].
  destruct (IH (advance src 1)) as (used & Hu & Hp & Hf); [apply (advance_step src 1 Hok He); lia|].
  destruct (here src) as [|c l] eqn:El; [rewrite len_nil in Hle; lia|]. change (Z.to_nat 1) with 1%nat in Hh. cbn [take nth] in *.
  exists (c :: used). split_and!; [rewrite Hh, Hu; done|rewrite Hp, len_cons; cbn [advance bs_pos]; lia|].
  constructor; [by apply eqb_prop|done].
Qed.

Lemma chars_reads op set include src :
  src_ok src -> (forall p, Forall (fun c => strchr_found set c = include) p -> value_read op p (VBytes p)) ->
  reads op src (prod_map VBytes id (get_chars_internal src set include)).
Proof.
  intros Hok Hv. destruct (chars_loop_reads (Datatypes.S (length (bs_data src))) set include src Hok) as (used & Hh & Hp & Hf).
  unfold get_chars_internal. exists used. cbn [prod_map fst snd id]. split; [exact Hh|]. left. rewrite Hp.
  replace (bs_pos src + len used - bs_pos src) with (len used) by lia. rewrite (take_here src used _ Hh). by apply Hv.
Qed.

Lemma memchr_split l c e :
  memchr l c = Some e -> take (Z.to_nat (e + 1)) l = take (Z.to_nat e) l ++ [c] /\ c ∉ take (Z.to_nat e) l.
Proof.
  revert e; induction l as [|x l IH]; intros e; cbn [memchr]; [done|]. destruct (Z.eqb_spec x c) as [->|Hne].
  { intros [= <-]. cbn. split; [by rewrite take_0|by apply not_elem_of_nil]. }
  destruct (memchr l c) as [k|] eqn:E; [|done]. cbn [option_map]. intros [= <-]. destruct (IH k eq_refl) as [IH1 IH2].
  apply memchr_bound in E. rewrite !(Z.add_comm 1), !Z2Nat.inj_add in * by lia. change (Z.to_nat 1) with 1%nat in *.
  rewrite !Nat.add_1_r in *. cbn [take app]. split; [f_equal; exact IH1|]. apply not_elem_of_cons. split; [done|exact IH2].
Qed.

Lemma chomp_one_split c l : chomp_one c l = l \/ l = chomp_one c l ++ [c].
Proof.
  unfold chomp_one. destruct (list.last l) as [x|] eqn:E; [|by left]. destruct (Z.eqb_spec x c) as [->|]; [|by left]. right.
  apply last_Some in E as [l' ->]. rewrite length_app, Nat.add_sub. by rewrite take_app_length.
Qed.

(** A line loses its line ending. *)
Lemma chomped_split l : exists eol, l = chomp_one 13 (chomp_one 10 l) ++ eol /\ eol ∈ [[]; [10]; [13]; [13; 10]].
Proof.
  destruct (chomp_one_split 10 l) as [E1|E1], (chomp_one_split 13 (chomp_one 10 l)) as [E2|E2].
  - exists []. rewrite E2, E1, app_nil_r. split; [done|apply list_elem_of_In; cbn; tauto].
  - exists [13]. rewrite <- E2, E1. split; [done|apply list_elem_of_In; cbn; tauto].
  - exists [10]. rewrite E2. split; [done|apply list_elem_of_In; cbn; tauto].
  - exists [13; 10]. split; [rewrite E1 at 1; rewrite E2 at 1; by rewrite <- app_assoc|apply list_elem_of_In; cbn; tauto].
Qed.

Lemma line_reads src : src_ok src -> reads Get_chomped_line src (prod_map VBytes id (get_chomped_line src)).
Proof.
  intros Hok. unfold get_chomped_line. case_decide as He; [|by apply (reads_default Get_chomped_line)].
  set (dist := match memchr (here src) 10 with Some e => _ | None => _ end).
  assert (0 <= dist <= len (here src)) as Hd.
  { unfold dist. destruct (memchr (here src) 10) eqn:E; [apply memchr_bound in E; lia|].
    pose proof (len_here src Hok). pose proof (len_nonneg (here src)). lia. }
  destruct (here_split src dist Hok Hd) as [Hh _]. cbn [consume prod_map fst snd id]. eexists. split; [exact Hh|]. left. apply chomped_split.
Qed.

Lemma asciz_reads src : src_ok src -> reads Get_asciz src (prod_map VBytes id (get_asciz src)).
Proof.
  intros Hok. unfold get_asciz. case_decide as He; [|by apply (reads_default Get_asciz)].
  destruct (memchr (here src) 0) as [e|] eqn:E; [|by apply (reads_default Get_asciz)].
  destruct (memchr_split _ _ _ E) as [E1 E2]. apply memchr_bound in E.
  destruct (here_split src (e + 1) Hok ltac:(lia)) as [Hh _]. eexists. split; [exact Hh|]. left. by split.
Qed.

Lemma one_byte (u : list Z) : len u = 1 -> exists x, u = [x].
Proof. unfold len. destruct u as [|x [|]]; [done|by exists x|]. cbn. lia. Qed.

Lemma run_getop_reads op src :
  match op with Get_data n => 0 <= n | _ => True end -> src_ok src -> reads op src (run_getop op src).
Proof.
  intros Hop Hok. destruct op; unfold run_getop.
  - unfold get_data. apply (fixed_reads (Get_data n) src n [] (fun u => u)); [done..|]. by intros u.
  - apply (fixed_reads Get_byte src 1 0 (fun u => nth 0 u 0)); [done..|]. intros u _ Hl. by destruct (one_byte u Hl) as [x ->].
  - apply (fixed_reads Get_bool src 1 false (fun u => negb (nth 0 u 0 =? 0))); [done..|].
    intros u _ Hl. destruct (one_byte u Hl) as [x ->]. by exists x.
  - apply (fixed_reads Get_uint16 src 2 0 GET_16BIT_MSB_FIRST); [done..|]. intros u Hu Hl.
    cbn [value_read]. rewrite GET_16BIT_val by (done || unfold len in Hl; lia). by apply be_split_read.
  - apply (fixed_reads Get_uint32 src 4 0 GET_32BIT_MSB_FIRST); [done..|]. intros u Hu Hl.
    cbn [value_read]. rewrite GET_32BIT_val by (done || unfold len in Hl; lia). by apply be_split_read.
  - apply (fixed_reads Get_uint64 src 8 0 GET_64BIT_MSB_FIRST); [done..|]. intros u Hu Hl.
    cbn [value_read]. rewrite GET_64BIT_val by (done || unfold len in Hl; lia). by apply be_split_read.
  - apply (counted_reads Get_string 4 GET_32BIT_MSB_FIRST); [done..|]. intros u p Hu Hl. split; [by apply GET_32BIT_nonneg|].
    intros Hp. cbn [value_read]. rewrite Hp, GET_32BIT_val by (done || unfold len in Hl; lia). f_equal. by apply be_split_read.
  - by apply asciz_reads.
  - by apply (chars_reads (Get_chars set) set true).
  - by apply (chars_reads (Get_nonchars set) set false).
  - by apply line_reads.
  - apply (counted_reads Get_pstring 1 (fun u => nth 0 u 0)); [done..|]. intros u p Hu Hl.
    destruct (one_byte u Hl) as [x ->]. cbn. apply Forall_cons in Hu as [[? _] _]. split; [done|]. by intros ->.
Qed.

(** C31. Whatever the (adversarial) input block, every getter stays inside it and returns
    only what is there: the bytes it passes over lie between the old position and the new one,
    inside the block, and they are exactly the encoding of the value returned (all of a string's length field
    and body, a line with its line ending), or else an error is recorded and the
    value is zero or empty.  The block is not changed, the position does not move back, and
    once an error is recorded no getter moves the position or changes anything, so a long
    sequence of gets can be checked once at the end. *)
Theorem getters_stay_in_block (op : getop) (src : BinarySource)
  (Hop : match op with Get_data n => 0 <= n | _ => True end) (Hok : src_ok src) :
  let '(v, src') := run_getop op src in
  0 <= bs_pos src <= bs_pos src' /\ bs_pos src' <= len (bs_data src)
  /\ bs_data src' = bs_data src
  /\ (let used := take (Z.to_nat (bs_pos src' - bs_pos src)) (drop (Z.to_nat (bs_pos src)) (bs_data src)) in
      value_read op used v \/ v = getop_default op /\ bs_err src' <> BSE_NO_ERROR)
  /\ (bs_err src <> BSE_NO_ERROR -> src' = src).
Proof.
  destruct (run_getop_step op src Hop Hok) as ([Hp ?] & Hd & ? & ?). destruct (run_getop_reads op src Hop Hok) as (used & Hh & Hv).
  pose proof (len_here src Hok) as Hl. destruct Hok as [? Hb]. destruct (run_getop op src) as [v src']. cbn [fst snd] in *.
  assert (bs_pos src' - bs_pos src = len used) as ->.
  { assert (src_ok src') as Hok' by (split; [done|by rewrite Hd]). pose proof (len_here src' Hok') as Hl'.
    apply (f_equal len) in Hh. rewrite len_app in Hh. rewrite Hd in *. lia. }
  fold (here src). rewrite (take_here src used _ Hh), Hd in *. cbv zeta. split_and!; done || lia.
Qed.

Lemma getters_stay_in_block_witness :
  let src := mkSource [7; 0; 0; 0; 2; 104; 105; 33] 1 BSE_NO_ERROR in
  src_ok src /\ run_getop Get_string src = (VBytes [104; 105], mkSource (bs_data src) 7 BSE_NO_ERROR)
  /\ value_read Get_string [0; 0; 0; 2; 104; 105] (VBytes [104; 105]).
Proof.
  intros src. assert (src_ok src) as H by (split; [done|]; by repeat constructor).
  split_and!; [exact H|reflexivity|].
  pose proof (getters_stay_in_block Get_string src I H) as R.
  destruct R as (_ & _ & _ & [R|[_ R]] & _); [exact R|by destruct R].
Defined.

(** C12. Any sequence of typed fields written through any sink that obeys the sink
    laws (and has the room) is read back unchanged by the matching getters, from
    the position where writing started, leaving the source exactly at the end of
    what was written, without an error, whatever follows it. *)
Theorem put_get_roundtrip (S : Type) `{BinarySinkLaws S} (s : S) (fs : list field)
  (rest : list Z) (n : Z)
  (Hf : Forall field_ok fs) (Hr : sink_room s n) (Hn : len (fs ≫= field_enc) <= n)
  (Hs : bytes_ok (sink_out s)) (Hrest : bytes_ok rest) :
  exists s', put_fields s fs = Some s' /\
    get_fields fs (mkSource (sink_out s' ++ rest) (len (sink_out s)) BSE_NO_ERROR)
    = (fs, mkSource (sink_out s' ++ rest) (len (sink_out s')) BSE_NO_ERROR).
Proof.
  destruct (put_fields_spec fs s n) as (s' & E & O & R); [done..|].
  exists s'. split; [done|]. rewrite O.
  assert (bytes_ok (fs ≫= field_enc)) as Henc.
  { clear -Hf. induction Hf; simpl; [done|]. apply Forall_app; auto using field_enc_ok. }
  erewrite get_fields_read with (rest := rest); [|split| |done|].
  - unfold advance; simpl. by rewrite len_app.
  - simpl. rewrite !len_app. pose proof (len_nonneg (sink_out s)).
    pose proof (len_nonneg (fs ≫= field_enc)). pose proof (len_nonneg rest). lia.
  - simpl. rewrite !Forall_app. auto.
  - done.
  - unfold here; simpl. by rewrite to_nat_len, <- app_assoc, drop_app_length.
Qed.

(** A plain byte list is a sink: the reference instance. *)
#[export] Instance list_sink : BinarySink (list Z) := {| bs_write s d := Some (s ++ d) |}.
#[export] Program Instance list_sink_laws : BinarySinkLaws (list Z) :=
  {| sink_out s := s; sink_room _ _ := True |}.
Next Obligation. eauto. Qed.

Lemma put_get_roundtrip_witness :
  let fs := [FByte 50; FString [97; 98]; FBool true; FUint32 7; FAsciz [120]] in
  exists s', put_fields [9] fs = Some s' /\
    get_fields fs (mkSource (s' ++ [1]) 1 BSE_NO_ERROR)
    = (fs, mkSource (s' ++ [1]) 15 BSE_NO_ERROR) /\ length s' = 15%nat.
Proof.
  destruct (put_get_roundtrip (list Z) [9]
    [FByte 50; FString [97; 98]; FBool true; FUint32 7; FAsciz [120]] [1] 100)
    as (s' & E & G); [by repeat constructor|done|done|by repeat constructor..|].
  exists s'. vm_compute in E. injection E as <-. split_and!; [reflexivity|exact G|reflexivity].
Defined.

(** C37. A message that was cut off anywhere, even by one byte, is detected: reading
    the fields of a strict prefix of their encoding always ends in
    [BSE_OUT_OF_DATA]. *)
Theorem get_truncated (fs : list field) (p q : list Z)
  (Hf : Forall field_ok fs) (E : (fs ≫= field_enc) = p ++ q) (Hq : q <> []) :
  bs_err (snd (get_fields fs (BinarySource_INIT p))) = BSE_OUT_OF_DATA.
Proof.
  assert (Hok : src_ok (BinarySource_INIT p)).
  { assert (bytes_ok (fs ≫= field_enc)) as Henc.
    { clear -Hf. induction Hf; simpl; [done|]. apply Forall_app; auto using field_enc_ok. }
    rewrite E in Henc. apply Forall_app in Henc as [Hp _].
    split; simpl; [pose proof (len_nonneg p); lia|done]. }
  assert (Hh : here (BinarySource_INIT p) = p) by done.
  assert (He : bs_err (BinarySource_INIT p) = BSE_NO_ERROR) by done.
  rewrite <- Hh in E. clear Hh. revert Hok He E. generalize (BinarySource_INIT p).
  induction Hf as [|f fs Hf Hfs IH]; intros src Hok He E.
  { by destruct (here src), q. }
  rewrite bind_cons in E. cbn [get_fields].
  assert ((exists k, here src = field_enc f ++ k /\ (fs ≫= field_enc) = k ++ q) \/
          (exists k, field_enc f = here src ++ k /\ k <> [])) as [(k & E1 & E2)|(k & E1 & Hk)].
  { apply app_eq_app in E as [k [[E1 E2]|[E1 E2]]]; [|by left; exists k].
    destruct k as [|x k]; [left; exists []|right; by exists (x :: k)].
    rewrite app_nil_r in E1. split; [by rewrite app_nil_r|by simpl in E2]. }
  - rewrite (get_field_read src Hok He f k Hf E1).
    specialize (IH (advance src (len (field_enc f)))).
    destruct (get_fields fs _); simpl in *. apply IH; [by eapply advance_ok|done|].
    by rewrite (here_advance _ _ _ Hok E1).
  - pose proof (get_field_short src Hok He f k Hf E1 Hk) as Herr.
    pose proof (get_field_ok f src Hok). destruct (get_field f src) as [v src'] eqn:?; simpl in *.
    pose proof (get_fields_sticky fs src') as Hst. destruct (get_fields fs src') as [vs s2]; simpl in *.
    rewrite Hst; [done|done|by rewrite Herr].
Qed.

Lemma get_truncated_witness :
  bs_err (snd (get_fields [FUint32 5; FString [1; 2]] (BinarySource_INIT [0; 0; 0; 5; 0; 0; 0; 2; 1])))
  = BSE_OUT_OF_DATA.
Proof.
  apply (get_truncated [FUint32 5; FString [1; 2]] [0; 0; 0; 5; 0; 0; 0; 2; 1] [2]);
    [by repeat constructor|reflexivity|discriminate].
Defined.

(** [put_padding] writes exactly [n] copies of the padding byte, in chunks of at
    most 16 bytes. *)
Theorem put_padding_correct (S : Type) `{BinarySinkLaws S} (s : S) (n padbyte room : Z)
  (Hr : sink_room s room) (Hn : 0 <= n <= room) :
  exists s', put_padding s n padbyte = Some s' /\
    sink_out s' = sink_out s ++ replicate (Z.to_nat n) padbyte.
Proof.
  destruct (put_padding_loop_spec (Z.to_nat n) padbyte s n room) as (s' & E & O & _); [done..|lia|].
  by exists s'.
Qed.

