(* ===== verification/Strbuf.v ===== *)
(** * Strbuf: the growable string buffers of utils.c

    A strbuf is a block of [size] bytes holding [len] bytes of content and a NUL
    after them.  The block is a list of cells; what [safegrowarray] adds to it is
    uninitialised.  [None] is a failed [assert], an abnormal exit of the allocator,
    or a store outside the block (which the theorems exclude). *)

From S2P Require Import Prelude Memory Marshal.

Record strbuf := mkStrbuf {
  sb_mem : cells;        (* s: the block; its length is [size] *)
  sb_len : Z;            (* len *)
  sb_nm : bool           (* nm: insist on non-moving resizes *)
}.

Definition sb_size (buf : strbuf) : Z := len (sb_mem buf).

(** [sgrowarray_general(buf->visible.s, buf->size, n, m, nm)] *)
Definition sb_grow (buf : strbuf) (n m : Z) : option strbuf :=
  match safegrowarray (sb_size buf) 1 n m (sb_nm buf) with
  | Some newsize => Some (mkStrbuf (mem_resize (sb_mem buf) newsize) (sb_len buf) (sb_nm buf))
  | None => None
  end.

(** [buf->s[buf->len] = '\0'] with a new [len] *)
Definition sb_set_len (buf : strbuf) (newlen : Z) : option strbuf :=
  match mem_write (sb_mem buf) newlen [0] with
  | Some mem => Some (mkStrbuf mem newlen (sb_nm buf))
  | None => None
  end.

(** The returned offset is where the [n] new bytes are to be stored. *)
Definition strbuf_append (buf : strbuf) (n : Z) : option (Z * strbuf) :=
  match sb_grow buf (u64 (sb_len buf + 1)) n with
  | Some buf =>
      let toret := sb_len buf in
      match sb_set_len buf (sb_len buf + n) with
      | Some buf => Some (toret, buf)
      | None => None
      end
  | None => None
  end.

Definition strbuf_shrink_to (buf : strbuf) (new_len : Z) : option strbuf :=
  assert! new_len <=? sb_len buf;
  sb_set_len buf new_len.

Definition strbuf_shrink_by (buf : strbuf) (amount_to_remove : Z) : option strbuf :=
  assert! amount_to_remove <=? sb_len buf;
  sb_set_len buf (sb_len buf - amount_to_remove).

Definition strbuf_chomp (buf : strbuf) (char_to_remove : Z) : option (bool * strbuf) :=
  if (0 <? sb_len buf) &&
     bool_decide (sb_mem buf !! Z.to_nat (sb_len buf - 1) = Some (Some char_to_remove))
  then match strbuf_shrink_by buf 1 with
       | Some buf => Some (true, buf)
       | None => None
       end
  else Some (false, buf).

(** [memcpy(strbuf_append(buf_o, len), data, len)] *)
Definition strbuf_BinarySink_write (buf : strbuf) (data : list Z) : option strbuf :=
  match strbuf_append buf (len data) with
  | Some (off, buf) =>
      match mem_write (sb_mem buf) off data with
      | Some mem => Some (mkStrbuf mem (sb_len buf) (sb_nm buf))
      | None => None
      end
  | None => None
  end.

Definition strbuf_new_general (nm : bool) : strbuf :=
  mkStrbuf (Some 0 :: replicate 511 None) 0 nm.
Definition strbuf_new : strbuf := strbuf_new_general false.
Definition strbuf_new_nm : strbuf := strbuf_new_general true.

Definition strbuf_new_for_agent_query : option strbuf :=
  match strbuf_append strbuf_new 4 with Some (_, buf) => Some buf | None => None end.

Definition strbuf_finalise_agent_query (buf : strbuf) : option strbuf :=
  assert! 5 <=? sb_len buf;
  match mem_write (sb_mem buf) 0 (PUT_32BIT_MSB_FIRST (u32 (sb_len buf - 4))) with
  | Some mem => Some (mkStrbuf mem (sb_len buf) (sb_nm buf))
  | None => None
  end.

(** ** Formatted appending *)

(** [vsnprintf(buf + off, avail, fmt, ap)], where [out] is the text that the format
    and its arguments stand for: it stores what fits, NUL-terminated, and returns
    the length the whole text would have had. *)
Definition vsnprintf (mem : cells) (off avail : Z) (out : list Z) : option (cells * Z) :=
  if 0 <? avail then
    match mem_write mem off (take (Z.to_nat (avail - 1)) out ++ [0]) with
    | Some mem => Some (mem, len out)
    | None => None
    end
  else Some (mem, len out).

(** The [while (1)] loop of [dupvprintf_inner]; the second iteration always has
    room, so two units of fuel are enough. *)
Fixpoint dupvprintf_loop (fuel : nat) (buf : strbuf) (oldlen : Z) (out : list Z)
  : option strbuf :=
  match fuel with
  | O => None
  | S fuel =>
      match vsnprintf (sb_mem buf) oldlen (sb_size buf - oldlen) out with
      | None => None
      | Some (mem, n) =>
          let buf := mkStrbuf mem (sb_len buf) (sb_nm buf) in
          if (0 <=? n) && (n <? sb_size buf) then Some buf
          else if 0 <? n then
            match safegrowarray (sb_size buf) 1 (oldlen + 1) n true with
            | Some newsize =>
                dupvprintf_loop fuel
                  (mkStrbuf (mem_resize mem newsize) (sb_len buf) (sb_nm buf)) oldlen out
            | None => None
            end
          else
            match safegrowarray (sb_size buf) 1 (sb_size buf) 1 true with
            | Some newsize =>
                dupvprintf_loop fuel
                  (mkStrbuf (mem_resize mem newsize) (sb_len buf) (sb_nm buf)) oldlen out
            | None => None
            end
      end
  end.

Definition dupvprintf_inner (buf : strbuf) (oldlen : Z) (out : list Z) : option strbuf :=
  match safegrowarray (sb_size buf) 1 oldlen 512 true with
  | Some newsize =>
      dupvprintf_loop 2 (mkStrbuf (mem_resize (sb_mem buf) newsize) (sb_len buf) (sb_nm buf))
        oldlen out
  | None => None
  end.

(** [strlen] of the C string at [off]: the cells before the first NUL. *)
Fixpoint c_strlen (mem : cells) : Z :=
  match mem with
  | Some c :: mem => if c =? 0 then 0 else 1 + c_strlen mem
  | _ => 0
  end.

Definition strbuf_catfv (buf : strbuf) (out : list Z) : option strbuf :=
  match dupvprintf_inner buf (sb_len buf) out with
  | Some buf' =>
      Some (mkStrbuf (sb_mem buf')
              (sb_len buf' + c_strlen (drop (Z.to_nat (sb_len buf')) (sb_mem buf')))
              (sb_nm buf'))
  | None => None
  end.

(** ** The invariant *)

(** The content: the first [len] bytes. *)
Definition sb_out (buf : strbuf) : list Z :=
  omap id (take (Z.to_nat (sb_len buf)) (sb_mem buf)).

Definition sb_wf (buf : strbuf) : Prop :=
  0 <= sb_len buf /\ sb_mem buf !! Z.to_nat (sb_len buf) = Some (Some 0)
  /\ Forall is_Some (take (Z.to_nat (sb_len buf)) (sb_mem buf)).

(** The largest block a strbuf of at most a gigabyte of content can have. *)
Definition sb_max : Z := 2 ^ 30 + 2 ^ 26 + 256.

Definition sb_room (buf : strbuf) (n : Z) : Prop :=
  sb_wf buf /\ sb_size buf <= sb_max /\ sb_len buf + 1 + n <= 2 ^ 30.

Lemma sb_len_lt buf : sb_wf buf -> sb_len buf < sb_size buf.
Proof.
  intros (? & Hl & _). apply lookup_lt_Some in Hl. unfold sb_size, len. lia.
Qed.

Section Operations.
Implicit Types buf : strbuf.

Lemma sb_set_len_spec buf n :
  0 <= n < sb_size buf -> Forall is_Some (take (Z.to_nat n) (sb_mem buf)) ->
  exists buf', sb_set_len buf n = Some buf' /\ sb_wf buf' /\ sb_len buf' = n /\
    sb_size buf' = sb_size buf /\ sb_nm buf' = sb_nm buf /\
    take (Z.to_nat n) (sb_mem buf') = take (Z.to_nat n) (sb_mem buf).
Proof.
  intros Hn Hf. unfold sb_set_len, sb_size in *.
  destruct (mem_write_total (sb_mem buf) n [0]) as [mem' Hw]; [lia|rewrite len_cons, len_nil; lia|].
  rewrite Hw. eexists; split; [done|]. unfold sb_wf; simpl.
  rewrite (mem_write_take _ _ _ _ Hw) by lia. rewrite (len_mem_write _ _ _ _ Hw).
  split_and!; auto; [lia|]. by eapply mem_write1_lookup.
Qed.

(** [strbuf_append]: the old content stays, [n] cells are reserved after it. *)
Lemma strbuf_append_spec buf n :
  0 <= sb_len buf < sb_size buf -> sb_size buf <= sb_max -> sb_len buf + 1 + n <= 2 ^ 30 ->
  0 <= n ->
  exists buf', strbuf_append buf n = Some (sb_len buf, buf') /\
    sb_len buf' = sb_len buf + n /\ sb_len buf' < sb_size buf' /\ sb_size buf' <= sb_max /\
    sb_nm buf' = sb_nm buf /\
    sb_mem buf' !! Z.to_nat (sb_len buf + n) = Some (Some 0) /\
    take (Z.to_nat (sb_len buf)) (sb_mem buf') = take (Z.to_nat (sb_len buf)) (sb_mem buf).
Proof.
  intros Hl Hmax Hn Hn0. unfold strbuf_append, sb_grow. rewrite wrap_id by (unfold word_ok; lia).
  destruct (safegrowarray_total 1 ltac:(lia) (sb_size buf) (sb_len buf + 1) n (sb_nm buf))
    as (newsize & Eg & Hbound); try (unfold sb_max in *; lia).
  rewrite Eg. apply safegrowarray_bounds in Eg as (Hge & Hneed & _); try lia.
  cbn [sb_len]. unfold sb_set_len. cbn [sb_mem].
  destruct (mem_write_total (mem_resize (sb_mem buf) newsize) (sb_len buf + n) [0]) as [mem' Hw];
    [lia|rewrite len_cons, len_nil, len_mem_resize; unfold sb_size in *; lia|].
  rewrite Hw. eexists; split; [done|]. simpl.
  assert (len mem' = newsize) as Hmem'.
  { rewrite (len_mem_write _ _ _ _ Hw), len_mem_resize; unfold sb_size in *; lia. }
  change (sb_size _) with (len mem') at 1 2. rewrite Hmem'. split_and!; auto; try lia.
  - destruct Hbound as [->|Hb]; [lia|]. unfold sb_max in *.
    assert ((sb_len buf + 1 + n) * 1 / 16 <= 2 ^ 26) by (apply Z.div_le_upper_bound; lia). lia.
  - by eapply mem_write1_lookup.
  - rewrite (mem_write_take _ _ _ _ Hw), mem_resize_take; unfold sb_size in *; done || lia.
Qed.

Lemma omap_id_fmap (l : list Z) : omap id (Some <$> l) = l.
Proof. induction l; simpl; [done|]. by f_equal. Qed.

(** A write, cell by cell; it needs no initialised content. *)
Lemma strbuf_write_cells buf d :
  0 <= sb_len buf < sb_size buf -> sb_size buf <= sb_max -> sb_len buf + 1 + len d <= 2 ^ 30 ->
  exists buf', strbuf_BinarySink_write buf d = Some buf' /\
    sb_len buf' = sb_len buf + len d /\ sb_len buf' < sb_size buf' /\ sb_size buf' <= sb_max /\
    sb_mem buf' !! Z.to_nat (sb_len buf') = Some (Some 0) /\
    take (Z.to_nat (sb_len buf')) (sb_mem buf')
    = take (Z.to_nat (sb_len buf)) (sb_mem buf) ++ (Some <$> d).
Proof.
  intros Hl Hs Hn. pose proof (len_nonneg d).
  destruct (strbuf_append_spec buf (len d)) as (buf1 & Ea & El & Hlt & Hsz & Hnm & Hz & Ht);
    [done..|].
  unfold strbuf_BinarySink_write. rewrite Ea.
  destruct (mem_write_total (sb_mem buf1) (sb_len buf) d) as [mem' Hw];
    [lia|unfold sb_size in *; lia|].
  rewrite Hw. eexists; split; [done|]. unfold sb_size in *; simpl.
  rewrite (len_mem_write _ _ _ _ Hw). split_and!; auto; rewrite El.
  - by rewrite (mem_write_lookup_ge _ _ _ _ Hw) by lia.
  - by rewrite (mem_write_take_end _ _ _ _ Hw), Ht.
Qed.

Lemma omap_id_some (m : cells) : Forall is_Some m -> Some <$> omap id m = m.
Proof.
  induction 1 as [|x m [y ->] _ IH]; [done|]. simpl. by f_equal.
Qed.

(** The sink law: a write appends exactly its bytes and keeps the invariant. *)
Lemma strbuf_write_spec buf d n :
  sb_room buf n -> len d <= n ->
  exists buf', strbuf_BinarySink_write buf d = Some buf' /\
    sb_out buf' = sb_out buf ++ d /\ sb_room buf' (n - len d).
Proof.
  intros (Hwf & Hs & Hn) Hd. pose proof (sb_len_lt buf Hwf). pose proof (len_nonneg d).
  destruct Hwf as (Hl0 & _ & Hinit).
  destruct (strbuf_write_cells buf d) as (buf' & Ew & El & Hlt & Hsz & Hz & Ht); [lia..|].
  exists buf'. split; [done|]. unfold sb_room, sb_wf, sb_out.
  rewrite Ht, omap_app, omap_id_fmap. split_and!; try done; try lia.
  apply Forall_app; split; [done|]. apply Forall_fmap, Forall_true. eauto.
Qed.

Lemma strbuf_new_room nm n : n <= 2 ^ 29 -> sb_room (strbuf_new_general nm) n.
Proof.
  intros. split_and!; [|done|simpl; lia]. by split_and!; [|reflexivity|constructor].
Qed.
End Operations.

#[export] Instance strbuf_sink : BinarySink strbuf := {| bs_write := strbuf_BinarySink_write |}.
#[export] Instance strbuf_sink_laws : BinarySinkLaws strbuf :=
  {| sink_out := sb_out; sink_room := sb_room; bs_write_spec := strbuf_write_spec |}.

(** ** Formatted appending *)

Lemma c_strlen_spec out rest :
  Forall (fun c => c <> 0) out -> c_strlen ((Some <$> out) ++ Some 0 :: rest) = len out.
Proof.
  induction 1 as [|c out Hc _ IH]; [done|]. rewrite len_cons, <- IH. simpl.
  by rewrite (proj2 (Z.eqb_neq c 0)).
Qed.

(** [strbuf_catf], cell by cell: a text of at most 511 characters, the room
    [dupvprintf_inner] reserves up front, is appended whole. *)
Lemma strbuf_catf_cells buf out :
  0 <= sb_len buf < sb_size buf -> sb_size buf <= sb_max -> sb_len buf + 513 <= 2 ^ 30 ->
  len out <= 511 -> Forall (fun c => c <> 0) out ->
  exists buf', strbuf_catfv buf out = Some buf' /\
    sb_len buf' = sb_len buf + len out /\ sb_size buf' <= sb_max /\
    sb_mem buf' !! Z.to_nat (sb_len buf') = Some (Some 0) /\
    take (Z.to_nat (sb_len buf')) (sb_mem buf')
    = take (Z.to_nat (sb_len buf)) (sb_mem buf) ++ (Some <$> out).
Proof.
  intros Hl Hs Hn Hlen Hnz. pose proof (len_nonneg out). unfold strbuf_catfv, dupvprintf_inner.
  destruct (safegrowarray_total 1 ltac:(lia) (sb_size buf) (sb_len buf) 512 true)
    as (newsize & Eg & Hbound); try (unfold sb_max in *; lia).
  assert (newsize <= sb_max) as Hmax.
  { destruct Hbound as [->|Hb]; [lia|]. unfold sb_max in *.
    assert ((sb_len buf + 512) * 1 / 16 <= 2 ^ 26) by (apply Z.div_le_upper_bound; lia). lia. }
  rewrite Eg. apply safegrowarray_bounds in Eg as (Hge & Hneed & _); try lia.
  unfold sb_size in *. cbn [dupvprintf_loop sb_mem sb_len]. unfold sb_size, vsnprintf; simpl.
  set (mem := mem_resize (sb_mem buf) newsize).
  assert (len mem = newsize) as Hm by (apply len_mem_resize; lia). rewrite Hm.
  rewrite (proj2 (Z.ltb_lt 0 _)) by lia. rewrite take_ge by (unfold len in *; lia).
  destruct (mem_write_total mem (sb_len buf) (out ++ [0])) as [mem' Hw];
    [lia|rewrite len_app; change (len [0]) with 1; lia|].
  pose proof (len_mem_write _ _ _ _ Hw) as Hm'. rewrite Hw, Hm', Hm.
  rewrite (proj2 (Z.leb_le 0 _)), (proj2 (Z.ltb_lt (len out) _)) by lia. simpl.
  destruct (mem_write_shape _ _ _ _ Hw) as (_ & Hle & Hshape).
  assert (length (take (Z.to_nat (sb_len buf)) mem) = Z.to_nat (sb_len buf)) as Hlt
    by (rewrite length_take; unfold len in *; lia).
  assert (c_strlen (drop (Z.to_nat (sb_len buf)) mem') = len out) as Hc.
  { rewrite Hshape, drop_app_length', fmap_app, <- app_assoc by done. by apply c_strlen_spec. }
  rewrite Hc. eexists; split; [done|]. cbn [sb_len sb_mem]. split_and!; [done|lia| |].
  - rewrite Hshape, fmap_app, <- !app_assoc, app_assoc, lookup_app_r
      by (rewrite length_app, length_fmap; unfold len in *; lia).
    by replace (_ - _)%nat with 0%nat by (rewrite length_app, length_fmap; unfold len in *; lia).
  - rewrite Hshape, fmap_app, <- !app_assoc, app_assoc, take_app_length'
      by (rewrite length_app, length_fmap; unfold len in *; lia).
    unfold mem. by rewrite mem_resize_take by lia.
Qed.

(** ** Refinement: a strbuf is a byte string *)

(** [SbAppend n] reserves [n] bytes and [SbStore off d] is what a caller does through the
    pointer [strbuf_append] returned, or through [buf->u]. *)
Inductive sb_op :=
| SbWrite (d : list Z) | SbAppend (n : Z) | SbStore (off : Z) (d : list Z) | SbCatf (out : list Z)
| SbShrinkTo (n : Z) | SbShrinkBy (n : Z) | SbChomp (c : Z).

(** A failed assertion, something the contract leaves open, or the content after the
    operation, in which a byte reserved and not yet stored is [None]. *)
Inductive sb_result := SbFails | SbOpen | SbContent (l : list (option Z)).

(** What an operation means on the byte string.  A formatted text longer than 511
    characters may be cut off ([strbuf_catf_truncates]), and one with a NUL in it ends there. *)
Definition sb_spec (l : list (option Z)) (op : sb_op) : sb_result :=
  match op with
  | SbWrite d => SbContent (l ++ (Some <$> d))
  | SbAppend n => SbContent (l ++ replicate (Z.to_nat n) None)
  | SbStore off d =>
      if (0 <=? off) && (off + len d <=? len l)
      then SbContent (take (Z.to_nat off) l ++ (Some <$> d) ++ drop (Z.to_nat (off + len d)) l) else SbOpen
  | SbCatf out => if (len out <=? 511) && forallb (fun c => negb (c =? 0)) out then SbContent (l ++ (Some <$> out)) else SbOpen
  | SbShrinkTo n => if n <=? len l then SbContent (take (Z.to_nat n) l) else SbFails
  | SbShrinkBy n => if n <=? len l then SbContent (take (Z.to_nat (len l - n)) l) else SbFails
  | SbChomp c =>
      match list.last l with
      | None => SbContent l
      | Some None => SbOpen
      | Some (Some x) => SbContent (if x =? c then take (Z.to_nat (len l - 1)) l else l)
      end
  end.

Definition sb_run (buf : strbuf) (op : sb_op) : option strbuf :=
  match op with
  | SbWrite d => strbuf_BinarySink_write buf d
  | SbAppend n => snd <$> strbuf_append buf n
  | SbStore off d => mem ← mem_write (sb_mem buf) off d; Some (mkStrbuf mem (sb_len buf) (sb_nm buf))
  | SbCatf out => strbuf_catfv buf out
  | SbShrinkTo n => strbuf_shrink_to buf n
  | SbShrinkBy n => strbuf_shrink_by buf n
  | SbChomp c => snd <$> strbuf_chomp buf c
  end.

(** The bytes an operation can add. *)
Definition sb_op_len (op : sb_op) : Z :=
  match op with SbWrite d | SbCatf d => len d | SbAppend n => n | _ => 0 end.
(** Lengths are unsigned. *)
Definition sb_op_ok (op : sb_op) : Prop :=
  match op with SbAppend n | SbShrinkTo n | SbShrinkBy n => 0 <= n | _ => True end.
Definition sb_total (ops : list sb_op) : Z := foldr (fun op a => sb_op_len op + a) 0 ops.

Fixpoint sb_specs (l : list (option Z)) (ops : list sb_op) : sb_result :=
  match ops with
  | [] => SbContent l
  | op :: ops => match sb_spec l op with SbContent l => sb_specs l ops | r => r end
  end.
Fixpoint sb_runs (buf : strbuf) (ops : list sb_op) : option strbuf :=
  match ops with
  | [] => Some buf
  | op :: ops => buf ← sb_run buf op; sb_runs buf ops
  end.

(** The cells hold the bytes that are known. *)
Definition known (l : list (option Z)) (m : cells) : Prop := Forall2 (fun x y => x = None \/ x = y) l m.

(** The content of [buf] is [l], with a NUL after it inside the block. *)
Definition sb_holds (l : list (option Z)) (buf : strbuf) : Prop :=
  sb_len buf = len l /\ known l (take (Z.to_nat (len l)) (sb_mem buf))
  /\ sb_mem buf !! Z.to_nat (len l) = Some (Some 0) /\ sb_size buf <= sb_max.

Section Refinement.
Implicit Types buf : strbuf.

Lemma known_some d : known (Some <$> d) (Some <$> d).
Proof. unfold known. apply Forall2_fmap. by apply Forall_Forall2_diag, Forall_true; auto. Qed.

Lemma known_bytes d m : known (Some <$> d) m -> m = Some <$> d.
Proof.
  revert m; induction d as [|x d IH]; intros m Hm; inversion Hm as [|? y ? m' [|<-] Hm']; subst; [done|done|]. cbn. f_equal. by apply IH.
Qed.

Lemma known_unset n m : length m = n -> known (replicate n None) m.
Proof. intros <-. induction m; constructor; auto. Qed.

Lemma holds_lt l buf : sb_holds l buf -> 0 <= sb_len buf < sb_size buf.
Proof. intros (-> & _ & Hl & _). apply lookup_lt_Some in Hl. pose proof (len_nonneg l). unfold sb_size, len in *. lia. Qed.

(** Cutting the content off after [n] bytes. *)
Lemma holds_shrink l buf n :
  sb_holds l buf -> 0 <= n <= len l -> exists buf', sb_set_len buf n = Some buf' /\ sb_holds (take (Z.to_nat n) l) buf'.
Proof.
  intros Hh Hn. pose proof (holds_lt l buf Hh) as Hlt. destruct Hh as (El & Hk & Hz & Hs). unfold sb_set_len, sb_size in *.
  destruct (mem_write_total (sb_mem buf) n [0]) as [mem' Hw]; [lia|change (len [0]) with 1; lia|]. rewrite Hw.
  eexists. split; [done|]. assert (len (take (Z.to_nat n) l) = n) as E by (rewrite len_take; lia).
  unfold sb_holds, sb_size. cbn [sb_len sb_mem]. rewrite E, (mem_write_take _ _ _ _ Hw), (len_mem_write _ _ _ _ Hw) by lia.
  split_and!; [done| |by eapply mem_write1_lookup|done].
  apply (Forall2_take _ _ _ (Z.to_nat n)) in Hk. by rewrite take_take, Nat.min_l in Hk by (unfold len in *; lia).
Qed.

Lemma holds_store l buf off d :
  sb_holds l buf -> 0 <= off -> off + len d <= len l ->
  exists buf', sb_run buf (SbStore off d) = Some buf'
    /\ sb_holds (take (Z.to_nat off) l ++ (Some <$> d) ++ drop (Z.to_nat (off + len d)) l) buf'.
Proof.
  intros Hh Ho Hd. pose proof (holds_lt l buf Hh) as Hlt. destruct Hh as (El & Hk & Hz & Hs). pose proof (len_nonneg d).
  unfold sb_size in *. cbn [sb_run]. destruct (mem_write_total (sb_mem buf) off d) as [mem' Hw]; [lia..|]. rewrite Hw.
  eexists. split; [done|]. set (l' := take _ _ ++ _).
  assert (len l' = len l) as E by (unfold l'; rewrite !len_app, len_fmap, len_take, len_drop; lia).
  unfold sb_holds, sb_size. cbn [sb_len sb_mem]. rewrite E, (len_mem_write _ _ _ _ Hw). split_and!; [done| |..|done].
  - destruct (mem_write_shape _ _ _ _ Hw) as (_ & _ & ->). unfold l', known.
    rewrite !take_app, take_take, !length_take, !length_fmap. apply Forall2_app; [|apply Forall2_app].
    + apply (Forall2_take _ _ _ (Z.to_nat off)) in Hk. rewrite take_take in Hk. by rewrite Nat.min_comm.
    + rewrite take_ge; [apply known_some|]. rewrite length_fmap. unfold len in *. lia.
    + apply (Forall2_drop _ _ _ (Z.to_nat (off + len d))) in Hk. rewrite skipn_firstn_comm in Hk.
      match goal with |- Forall2 _ _ (take ?n _) => replace n with (Z.to_nat (len l) - Z.to_nat (off + len d))%nat end; [done|].
      unfold len in *. lia.
  - rewrite (mem_write_lookup_ge _ _ _ _ Hw); [done|]. unfold len in *. lia.
Qed.

(** One operation. *)
Lemma sb_run_refines l buf op :
  sb_holds l buf -> len l + sb_op_len op + 513 <= 2 ^ 30 -> sb_op_ok op ->
  match sb_spec l op with
  | SbContent l' => len l' <= len l + sb_op_len op /\ exists buf', sb_run buf op = Some buf' /\ sb_holds l' buf'
  | SbFails => sb_run buf op = None
  | SbOpen => True
  end.
Proof.
  intros Hh Hn Hok. pose proof (holds_lt l buf Hh) as Hlt. pose proof Hh as (El & Hk & Hz & Hs). pose proof (len_nonneg l).
  destruct op as [d|n|off d|out|n|n|c]; cbn [sb_spec sb_op_len sb_op_ok] in *.
  - rewrite len_app, len_fmap. split; [lia|]. cbn [sb_run].
    destruct (strbuf_write_cells buf d) as (buf' & -> & El' & _ & Hs' & Hz' & Ht); [lia..|]. exists buf'. split; [done|].
    unfold sb_holds. rewrite len_app, len_fmap, <- El, <- El'. split_and!; [done| |done|done]. rewrite Ht, El.
    apply Forall2_app; [done|apply known_some].
  - rewrite len_app, len_replicate by lia. split; [lia|]. cbn [sb_run].
    destruct (strbuf_append_spec buf n) as (buf' & -> & El' & Hlt' & Hs' & _ & Hz' & Ht); [lia..|]. exists buf'. split; [done|].
    unfold sb_holds. rewrite len_app, len_replicate, <- El by lia. split_and!; [done| |done|done].
    rewrite Z2Nat.inj_add, <- take_take_drop by lia. rewrite Ht, El. apply Forall2_app; [done|]. apply known_unset.
    rewrite length_take, length_drop. unfold sb_size, len in *. lia.
  - destruct (Z.leb_spec 0 off); [|done]. destruct (Z.leb_spec (off + len d) (len l)); [|done]. cbn [andb].
    pose proof (len_nonneg d). split; [rewrite !len_app, len_fmap, len_take, len_drop; lia|]. by apply holds_store.
  - destruct (Z.leb_spec (len out) 511); [|done]. destruct (forallb _ out) eqn:Hnz; [|done]. cbn [andb].
    rewrite len_app, len_fmap. pose proof (len_nonneg out). split; [lia|]. cbn [sb_run].
    destruct (strbuf_catf_cells buf out) as (buf' & -> & El' & Hs' & Hz' & Ht); [lia..| |].
    { rewrite List.Forall_forall. rewrite forallb_forall in Hnz. intros c Hc. specialize (Hnz c Hc). by bsimpl. }
    exists buf'. split; [done|]. unfold sb_holds. rewrite len_app, len_fmap, <- El, <- El'. split_and!; [done| |done|done].
    rewrite Ht, El. apply Forall2_app; [done|apply known_some].
  - cbn [sb_run]. unfold strbuf_shrink_to. rewrite El. destruct (Z.leb_spec n (len l)); [|done].
    split; [rewrite len_take; lia|]. by apply holds_shrink.
  - cbn [sb_run]. unfold strbuf_shrink_by. rewrite El. destruct (Z.leb_spec n (len l)); [|done].
    split; [rewrite len_take; lia|]. apply holds_shrink; [done|lia].
  - cbn [sb_run]. unfold strbuf_chomp. rewrite El.
    destruct (Z.ltb_spec 0 (len l)) as [Hp|Hp].
    2: { assert (l = []) as -> by (destruct l; [done|rewrite len_cons in Hp; pose proof (len_nonneg l); lia]). cbn. split; [lia|by eexists]. }
    assert (Z.to_nat (len l - 1) = pred (length l)) as Ei by (unfold len in *; lia).
    destruct (list.last l) as [[x|]|] eqn:Ex; [|done|apply last_None in Ex as ->; done].
    assert (sb_mem buf !! Z.to_nat (len l - 1) = Some (Some x)) as Ec.
    { rewrite last_lookup, <- Ei in Ex. destruct (Forall2_lookup_l _ _ _ _ _ Hk Ex) as (y & Hy & [|<-]); [done|].
      rewrite lookup_take_lt in Hy by (unfold len in *; lia). done. }
    rewrite Ec. cbn [andb]. destruct (Z.eqb_spec x c) as [->|Hne].
    + rewrite bool_decide_true by done. unfold strbuf_shrink_by. rewrite El, (proj2 (Z.leb_le 1 _)) by lia.
      destruct (holds_shrink l buf (len l - 1) Hh ltac:(lia)) as (buf' & -> & Hh'). cbn. split; [rewrite len_take; lia|by eexists].
    + rewrite bool_decide_false by congruence. cbn. split; [lia|by eexists].
Qed.
End Refinement.

(** C30. Any sequence of strbuf operations is the same sequence on byte strings: writing,
    reserving bytes and storing into them, formatted appending, shrinking and chomping.  An
    assertion fails exactly when the specification says so, no store ever
    leaves the block, and otherwise the block holds the specified content
    followed by a NUL, as long as at most 2^29 bytes are added in total.  The contract
    leaves open what happens once a formatted text has more than 511 characters, or a NUL, or
    bytes are used that were reserved and never stored, or stored outside the content. *)
Theorem strbuf_refines_bytes (nm : bool) (ops : list sb_op)
  (Hok : Forall sb_op_ok ops) (Hlen : sb_total ops <= 2 ^ 29) :
  match sb_specs [] ops with
  | SbContent l => exists buf, sb_runs (strbuf_new_general nm) ops = Some buf /\ sb_holds l buf
  | SbFails => sb_runs (strbuf_new_general nm) ops = None
  | SbOpen => True
  end.
Proof.
  assert (sb_holds [] (strbuf_new_general nm)) as Hh by (split_and!; [done|constructor|done|done]).
  assert (len (@nil (option Z)) + sb_total ops + 513 <= 2 ^ 30) as Hn by (change (len []) with 0; lia).
  clear Hlen. revert Hh Hn. generalize (@nil (option Z)) (strbuf_new_general nm).
  induction Hok as [|op ops Hop Hops IH]; intros l buf Hh Hn; [by exists buf|]. cbn [sb_specs sb_runs].
  assert (0 <= sb_total ops).
  { clear -Hops. induction Hops as [|[] ops Ho _ IH]; unfold sb_total in *; cbn in *; try lia;
      first [pose proof (len_nonneg d)|pose proof (len_nonneg out)]; lia. }
  change (sb_total (op :: ops)) with (sb_op_len op + sb_total ops) in Hn.
  pose proof (sb_run_refines l buf op Hh ltac:(lia) Hop) as Hr.
  destruct (sb_spec l op) as [| |l']; [by rewrite Hr|done|]. destruct Hr as (Hl & buf' & -> & Hh'). cbn [mbind option_bind].
  apply IH; [done|lia].
Qed.

Lemma strbuf_refines_bytes_witness :
  let ops := [SbWrite [65; 66; 10]; SbChomp 10; SbAppend 3; SbStore 2 [67; 68; 69]; SbCatf [70; 71]; SbWrite (replicate 600 72); SbShrinkTo 8] in
  exists buf, sb_runs strbuf_new ops = Some buf /\ sb_holds (Some <$> [65; 66; 67; 68; 69; 70; 71; 72]) buf.
Proof.
  intros ops. pose proof (strbuf_refines_bytes false ops ltac:(unfold ops; repeat constructor; cbn; lia) ltac:(vm_compute; discriminate)) as R.
  assert (sb_specs [] ops = SbContent (Some <$> [65; 66; 67; 68; 69; 70; 71; 72])) as E by (vm_compute; reflexivity).
  rewrite E in R. exact R.
Defined.

(** Beyond that room [strbuf_catf] does not append the whole text: [dupvprintf_inner] takes [len < size] for the
    sign that everything fitted, although only [size - oldlen] bytes were offered
    to [vsnprintf].  Appending 600 characters to a strbuf that holds 500 reports
    success and keeps 511 of them. *)
Theorem strbuf_catf_truncates :
  sb_out <$> (strbuf_BinarySink_write strbuf_new (replicate 500 65)
              ≫= fun buf => strbuf_catfv buf (replicate 600 66))
  = Some (replicate 500 65 ++ replicate 511 66).
Proof. vm_compute. reflexivity. Qed.

(** An agent query, built by reserving four bytes, writing the payload and
    finalising, is the payload as one length-prefixed string. *)
Theorem agent_query_framed (payload : list Z)
  (Hne : payload <> []) (Hlen : len payload <= 2 ^ 20) (Hb : bytes_ok payload) :
  exists b1 b2 b3, strbuf_new_for_agent_query = Some b1 /\
    strbuf_BinarySink_write b1 payload = Some b2 /\
    strbuf_finalise_agent_query b2 = Some b3 /\
    sb_wf b3 /\ sb_out b3 = field_enc (FString payload).
Proof.
  pose proof (len_nonneg payload).
  assert (1 <= len payload) by (destruct payload; [done|]; rewrite len_cons;
                                pose proof (len_nonneg payload); lia).
  destruct (strbuf_append_spec strbuf_new 4) as (b1 & E1 & L1 & Hlt1 & Hs1 & _); [by cbn..|].
  change (sb_len strbuf_new) with 0 in *.
  destruct (strbuf_write_cells b1 payload) as (b2 & E2 & L2 & Hlt2 & Hs2 & Hz2 & T2); [lia..|].
  assert (sb_len b2 = 4 + len payload) as L by lia.
  destruct (mem_write_total (sb_mem b2) 0 (be_split 4 (len payload))) as [m Hw];
    [done|rewrite len_be_split; unfold sb_size in *; lia|].
  exists b1, b2, (mkStrbuf m (sb_len b2) (sb_nm b2)).
  unfold strbuf_new_for_agent_query, strbuf_finalise_agent_query. rewrite E1, E2, L.
  rewrite (proj2 (Z.leb_le 5 _)), PUT_32BIT_split by lia.
  replace (u32 (4 + len payload - 4)) with (len payload) by (rewrite wrap_id; [lia|split; lia]).
  rewrite Hw.
  assert (take (Z.to_nat (4 + len payload)) m = Some <$> field_enc (FString payload)) as T.
  { destruct (mem_write_shape _ _ _ _ Hw) as (_ & _ & ->). cbn [field_enc]. rewrite fmap_app.
    rewrite L, L1 in T2.
    replace (Z.to_nat (4 + len payload))
      with (length (Some <$> be_split 4 (len payload)) + length payload)%nat
      by (rewrite length_fmap, length_be_split; unfold len; lia).
    rewrite take_0, app_nil_l, take_app_add. f_equal.
    rewrite len_be_split. change (Z.to_nat (0 + Z.of_nat 4)) with 4%nat.
    rewrite take_drop_commute.
    replace (4 + length payload)%nat with (Z.to_nat (4 + len payload)) by (unfold len; lia).
    rewrite T2, drop_app_length'; [done|].
    rewrite length_take. unfold sb_size, len in *. lia. }
  split_and!; try done. 2:{ unfold sb_out; simpl. by rewrite T, omap_id_fmap. }
  unfold sb_wf; simpl. rewrite T. split_and!; [lia| |].
  - rewrite (mem_write_lookup_ge _ _ _ _ Hw); [by rewrite <- L|rewrite len_be_split; lia].
  - apply Forall_fmap, Forall_true. eauto.
Qed.

