(* ===== verification/Bufchain.v ===== *)
(** * Bufchain: the send and receive buffers of utils.c

    A bufchain is a linked list of granules.  A granule is modelled by the bytes
    between its [bufpos] and [bufend] and by the free space up to [bufmax]; [head]
    and [tail] are the two ends of the list.  The callback a bufchain carries is a
    number, and the calls of [queue_idempotent_callback] it makes are logged.
    [None] is a failed [assert], an abnormal exit of the allocator, or a step that
    has no defined behaviour (a NULL granule dereferenced, a pointer moved out of
    its block, a negative [memcpy] length). *)

From S2P Require Import Prelude Memory Marshal Strbuf.

Definition BUFFER_MIN_GRANULE : Z := 512 * 2 * 32.
(** [sizeof(struct bufchain_granule)]: four pointers. *)
Definition sizeof_granule : Z := 32.

Record granule := mkGranule {
  g_data : list Z;      (* [bufpos, bufend) *)
  g_free : Z            (* bufmax - bufend *)
}.

Record bufchain := mkBufchain {
  bc_granules : list granule;
  bc_size : Z;                      (* buffersize *)
  bc_ic : option nat;               (* ic *)
  bc_calls : list nat               (* queue_idempotent_callback calls, oldest first *)
}.

Definition bufchain_init : bufchain := mkBufchain [] 0 None [].

Definition bufchain_clear (ch : bufchain) : bufchain :=
  mkBufchain [] 0 (bc_ic ch) (bc_calls ch).

Definition bufchain_size (ch : bufchain) : Z := bc_size ch.

Definition bufchain_set_callback_inner (ch : bufchain) (ic : option nat) : bufchain :=
  mkBufchain (bc_granules ch) (bc_size ch) ic (bc_calls ch).

(** The [memcpy] into the free space of [tail]: the granules and the bytes left. *)
Definition fill_tail (gs : list granule) (buf : list Z) : list granule * list Z :=
  match list.last gs with
  | Some g =>
      if 0 <? g_free g then
        let copylen := Z.min (len buf) (g_free g) in
        (take (length gs - 1) gs ++
           [mkGranule (g_data g ++ take (Z.to_nat copylen) buf) (g_free g - copylen)],
         drop (Z.to_nat copylen) buf)
      else (gs, buf)
  | None => (gs, buf)
  end.

(** The [while (len > 0)] loop of [bufchain_add]. *)
Fixpoint bufchain_add_loop (fuel : nat) (gs : list granule) (buf : list Z)
  : option (list granule) :=
  match fuel with
  | O => None
  | S fuel =>
      if 0 <? len buf then
        let '(gs, buf) := fill_tail gs buf in
        if 0 <? len buf then
          let grainlen := Z.max (u64 (sizeof_granule + len buf)) BUFFER_MIN_GRANULE in
          match safemalloc grainlen 1 0 with
          | Some _ => bufchain_add_loop fuel (gs ++ [mkGranule [] (grainlen - sizeof_granule)]) buf
          | None => None
          end
        else bufchain_add_loop fuel gs buf
      else Some gs
  end.

Definition bufchain_add (ch : bufchain) (data : list Z) : option bufchain :=
  if len data =? 0 then Some ch else
  let size := u64 (bc_size ch + len data) in
  match bufchain_add_loop 3 (bc_granules ch) data with
  | Some gs =>
      Some (mkBufchain gs size (bc_ic ch)
              (match bc_ic ch with Some ic => bc_calls ch ++ [ic] | None => bc_calls ch end))
  | None => None
  end.

(** [int remlen = len] *)
Definition to_int (x : Z) : Z := let y := u32 x in if y <? 2 ^ 31 then y else y - 2 ^ 32.

(** The [while (len > 0)] loop of [bufchain_consume]. *)
Fixpoint bufchain_consume_loop (fuel : nat) (gs : list granule) (size n : Z)
  : option (list granule * Z) :=
  match fuel with
  | O => None
  | S fuel =>
      if 0 <? n then
        let remlen := to_int n in
        match gs with
        | [] => None                                 (* assert(ch->head != NULL) *)
        | g :: gs =>
            if len (g_data g) <=? remlen then
              let remlen := len (g_data g) in
              bufchain_consume_loop fuel gs (u64 (size - remlen)) (n - remlen)
            else if remlen <? 0 then None            (* bufpos leaves the block *)
            else bufchain_consume_loop fuel
                   (mkGranule (drop (Z.to_nat remlen) (g_data g)) (g_free g) :: gs)
                   (u64 (size - remlen)) (n - remlen)
        end
      else Some (gs, size)
  end.

Definition bufchain_consume (ch : bufchain) (n : Z) : option bufchain :=
  assert! n <=? bc_size ch;
  match bufchain_consume_loop (2 + length (bc_granules ch)) (bc_granules ch) (bc_size ch) n with
  | Some (gs, size) => Some (mkBufchain gs size (bc_ic ch) (bc_calls ch))
  | None => None
  end.

Definition bufchain_prefix (ch : bufchain) : option (list Z) :=
  match bc_granules ch with
  | [] => None
  | g :: _ => Some (g_data g)
  end.

(** The [while (len > 0)] loop of [bufchain_fetch]; it walks the granules. *)
Fixpoint bufchain_fetch_loop (gs : list granule) (n : Z) : option (list Z) :=
  if 0 <? n then
    match gs with
    | [] => None                                     (* assert(tmp != NULL) *)
    | g :: gs =>
        let remlen := to_int n in
        let remlen := if len (g_data g) <=? remlen then len (g_data g) else remlen in
        if remlen <? 0 then None else
        match bufchain_fetch_loop gs (n - remlen) with
        | Some d => Some (take (Z.to_nat remlen) (g_data g) ++ d)
        | None => None
        end
    end
  else Some [].

Definition bufchain_fetch (ch : bufchain) (n : Z) : option (list Z) :=
  assert! n <=? bc_size ch;
  bufchain_fetch_loop (bc_granules ch) n.

Definition bufchain_fetch_consume (ch : bufchain) (n : Z) : option (list Z * bufchain) :=
  match bufchain_fetch ch n with
  | Some d => match bufchain_consume ch n with Some ch => Some (d, ch) | None => None end
  | None => None
  end.

Definition bufchain_try_fetch_consume (ch : bufchain) (n : Z)
  : option (bool * list Z * bufchain) :=
  if n <=? bc_size ch then
    match bufchain_fetch_consume ch n with
    | Some (d, ch) => Some (true, d, ch)
    | None => None
    end
  else Some (false, [], ch).

(** The returned length is the length of the returned data. *)
Definition bufchain_fetch_consume_up_to (ch : bufchain) (n : Z) : option (list Z * bufchain) :=
  let n := if bc_size ch <? n then bc_size ch else n in
  if n =? 0 then Some ([], ch) else bufchain_fetch_consume ch n.

(** ** The invariant *)

Definition bc_out (ch : bufchain) : list Z := bc_granules ch ≫= g_data.

Definition granule_ok (g : granule) : Prop := g_data g <> [] /\ 0 <= g_free g.

(** No granule is empty, so a non-empty chain always has a non-empty prefix. *)
Definition bc_wf (ch : bufchain) : Prop :=
  Forall granule_ok (bc_granules ch) /\ bc_size ch = len (bc_out ch).

Definition bc_room (ch : bufchain) (n : Z) : Prop := bc_wf ch /\ bc_size ch + n <= 2 ^ 62.

Lemma to_int_small n : 0 <= n < 2 ^ 31 -> to_int n = n.
Proof.
  intros. unfold to_int. rewrite wrap_id by (unfold word_ok; lia).
  by rewrite (proj2 (Z.ltb_lt _ _)) by lia.
Qed.

(** ** Adding *)

Lemma fill_tail_snoc k g buf :
  fill_tail (k ++ [g]) buf =
  if 0 <? g_free g then
    let copylen := Z.min (len buf) (g_free g) in
    (k ++ [mkGranule (g_data g ++ take (Z.to_nat copylen) buf) (g_free g - copylen)],
     drop (Z.to_nat copylen) buf)
  else (k ++ [g], buf).
Proof.
  unfold fill_tail. rewrite last_snoc, length_app. simpl.
  by rewrite Nat.add_sub, take_app_length.
Qed.

(** [fill_tail] moves bytes into the chain and loses none. *)
Lemma fill_tail_spec gs buf gs' buf' :
  Forall granule_ok gs -> fill_tail gs buf = (gs', buf') ->
  Forall granule_ok gs' /\ (gs' ≫= g_data) ++ buf' = (gs ≫= g_data) ++ buf /\
  len buf' <= len buf.
Proof.
  intros Hok Ef. destruct gs as [|g k _] using rev_ind.
  { cbn in Ef. simplify_eq. done. }
  rewrite fill_tail_snoc in Ef. destruct (Z.ltb_spec 0 (g_free g)); cbv zeta in Ef; simplify_eq; [|done].
  apply Forall_app in Hok as [Hk Hg]. apply Forall_inv in Hg as [Hne Hfr].
  pose proof (len_nonneg buf). split_and!.
  - apply Forall_app; split; [done|]. repeat constructor; simpl; [|lia].
    by destruct (g_data g).
  - rewrite !bind_app. simpl. rewrite !app_nil_r, <- !app_assoc. do 2 f_equal. apply take_drop.
  - rewrite len_drop; lia.
Qed.

(** A fresh granule takes everything that is left. *)
Lemma add_loop_fresh gs cap buf :
  0 < len buf <= cap ->
  bufchain_add_loop 2 (gs ++ [mkGranule [] cap]) buf = Some (gs ++ [mkGranule buf (cap - len buf)]).
Proof.
  intros H. cbn [bufchain_add_loop]. rewrite (proj2 (Z.ltb_lt 0 (len buf))) by lia.
  rewrite fill_tail_snoc. simpl. rewrite (proj2 (Z.ltb_lt 0 cap)) by lia.
  rewrite Z.min_l, to_nat_len, drop_all, firstn_all by lia. reflexivity.
Qed.

Lemma add_loop_S fuel gs buf :
  bufchain_add_loop (S fuel) gs buf =
  if 0 <? len buf then
    let '(gs, buf) := fill_tail gs buf in
    if 0 <? len buf then
      let grainlen := Z.max (u64 (sizeof_granule + len buf)) BUFFER_MIN_GRANULE in
      match safemalloc grainlen 1 0 with
      | Some _ => bufchain_add_loop fuel (gs ++ [mkGranule [] (grainlen - sizeof_granule)]) buf
      | None => None
      end
    else bufchain_add_loop fuel gs buf
  else Some gs.
Proof. reflexivity. Qed.

Lemma bufchain_add_loop_spec gs buf :
  Forall granule_ok gs -> 0 < len buf <= 2 ^ 62 ->
  exists gs', bufchain_add_loop 3 gs buf = Some gs' /\ Forall granule_ok gs' /\
              (gs' ≫= g_data) = (gs ≫= g_data) ++ buf.
Proof.
  intros Hok Hb. rewrite add_loop_S, (proj2 (Z.ltb_lt 0 (len buf))) by lia.
  destruct (fill_tail gs buf) as [gs1 buf1] eqn:Ef.
  destruct (fill_tail_spec _ _ _ _ Hok Ef) as (Hok1 & E1 & Hl1).
  pose proof (len_nonneg buf1). destruct (Z.ltb_spec 0 (len buf1)) as [Hp|Hz].
  - rewrite wrap_id by (unfold word_ok, sizeof_granule; lia).
    cbv zeta. set (grainlen := Z.max _ _).
    assert (0 <= grainlen <= SIZE_MAX / 1) by
      (unfold grainlen, sizeof_granule, BUFFER_MIN_GRANULE, SIZE_MAX; rewrite Z.div_1_r; lia).
    destruct (safemalloc_ok grainlen 1) as [z ->]; [lia..|].
    rewrite add_loop_fresh by (unfold grainlen; lia).
    eexists; split; [done|]. split.
    + apply Forall_app; split; [done|]. repeat constructor; simpl.
      * by destruct buf1.
      * unfold grainlen; lia.
    + by rewrite bind_app, <- E1; simpl; rewrite app_nil_r.
  - assert (buf1 = []) as -> by (apply len_nil_inv; lia).
    eexists; split; [done|]. split; [done|]. by rewrite <- E1, app_nil_r.
Qed.

Lemma bufchain_add_spec ch d n :
  bc_room ch n -> len d <= n ->
  exists ch', bufchain_add ch d = Some ch' /\ bc_out ch' = bc_out ch ++ d
           /\ bc_room ch' (n - len d)
           /\ bc_calls ch' = bc_calls ch ++
                (if d then [] else match bc_ic ch with Some ic => [ic] | None => [] end).
Proof.
  intros ((Hok & Hs) & Hr) Hn. unfold bufchain_add. pose proof (len_nonneg d).
  pose proof (len_nonneg (bc_out ch)).
  destruct d as [|x d].
  { exists ch. rewrite !app_nil_r, len_nil, Z.sub_0_r. by repeat split. }
  rewrite (proj2 (Z.eqb_neq (len (x :: d)) 0)) by (rewrite len_cons in *; pose proof (len_nonneg d); lia).
  destruct (bufchain_add_loop_spec (bc_granules ch) (x :: d)) as (gs & -> & Hok' & E); [done| |].
  { rewrite len_cons in *. pose proof (len_nonneg d). lia. }
  eexists; split; [done|]. unfold bc_room, bc_wf, bc_out in *; simpl. rewrite E.
  rewrite wrap_id by (unfold word_ok; lia). rewrite len_app.
  split_and!; try done; try lia. by destruct (bc_ic ch); [|rewrite app_nil_r].
Qed.

#[export] Instance bufchain_sink : BinarySink bufchain := {| bs_write := bufchain_add |}.
#[export] Program Instance bufchain_sink_laws : BinarySinkLaws bufchain :=
  {| sink_out := bc_out; sink_room := bc_room |}.
Next Obligation.
  intros s d n Hr Hn. destruct (bufchain_add_spec s d n Hr Hn) as (s' & ? & ? & ? & _). eauto.
Qed.

(** ** Removing *)

Lemma bufchain_consume_loop_spec gs size n fuel :
  Forall granule_ok gs -> 0 <= n <= len (gs ≫= g_data) -> n < 2 ^ 31 ->
  size = len (gs ≫= g_data) -> size < 2 ^ 64 -> (length gs + 2 <= fuel)%nat ->
  exists gs', bufchain_consume_loop fuel gs size n = Some (gs', size - n) /\
    Forall granule_ok gs' /\ (gs' ≫= g_data) = drop (Z.to_nat n) (gs ≫= g_data).
Proof.
  intros Hok. revert size n fuel. induction Hok as [|g gs Hg Hok IH]; intros size n fuel Hn H31 Hs H64 Hf;
    (destruct fuel as [|fuel]; [lia|]); cbn [bufchain_consume_loop].
  { change (len ([] ≫= g_data)) with 0 in *. replace n with 0 by lia.
    exists []. by rewrite Hs. }
  rewrite bind_cons, len_app in *. pose proof (len_nonneg (gs ≫= g_data)).
  pose proof Hg as [Hne Hfr]. pose proof (len_pos _ Hne).
  destruct (Z.ltb_spec 0 n); [|exists (g :: gs)].
  2:{ replace n with 0 by lia. rewrite Z.sub_0_r. split_and!; [done|by constructor|done]. }
  rewrite to_int_small by lia. simpl in Hf. destruct (Z.leb_spec (len (g_data g)) n).
  - rewrite wrap_id by (unfold word_ok; lia).
    destruct (IH (size - len (g_data g)) (n - len (g_data g)) fuel) as (gs' & -> & Hok' & E); try lia.
    exists gs'. split; [do 2 f_equal; lia|]. split; [done|]. rewrite E.
    rewrite drop_app_ge by (unfold len in *; lia). f_equal. unfold len in *; lia.
  - rewrite (proj2 (Z.ltb_ge n 0)), wrap_id by (unfold word_ok; lia).
    destruct fuel as [|fuel]; [lia|]. cbn [bufchain_consume_loop]. rewrite Z.sub_diag. simpl.
    eexists; split; [done|]. split.
    + constructor; [|done]. split; simpl; [|done]. intros E. apply (f_equal len) in E.
      rewrite len_drop, len_nil in E; lia.
    + simpl. rewrite drop_app_le by (unfold len in *; lia). done.
Qed.

Lemma bufchain_fetch_loop_spec gs n :
  0 <= n <= len (gs ≫= g_data) -> n < 2 ^ 31 ->
  bufchain_fetch_loop gs n = Some (take (Z.to_nat n) (gs ≫= g_data)).
Proof.
  revert n; induction gs as [|g gs IH]; intros n Hn H31; cbn [bufchain_fetch_loop].
  { change (len ([] ≫= g_data)) with 0 in *. replace n with 0 by lia. done. }
  rewrite bind_cons, len_app in *. pose proof (len_nonneg (gs ≫= g_data)).
  pose proof (len_nonneg (g_data g)).
  destruct (Z.ltb_spec 0 n); [|by replace n with 0 by lia].
  rewrite to_int_small by lia. destruct (Z.leb_spec (len (g_data g)) n).
  - rewrite (proj2 (Z.ltb_ge _ 0)) by lia. rewrite IH by lia.
    rewrite to_nat_len, firstn_all, take_app_ge by (unfold len in *; lia).
    do 3 f_equal. unfold len in *; lia.
  - rewrite (proj2 (Z.ltb_ge n 0)), Z.sub_diag, IH by lia. simpl.
    rewrite app_nil_r, take_app_le by (unfold len in *; lia). done.
Qed.

Lemma bufchain_consume_spec ch n :
  bc_wf ch -> bc_size ch < 2 ^ 64 -> 0 <= n <= bc_size ch -> n < 2 ^ 31 ->
  exists ch', bufchain_consume ch n = Some ch' /\ bc_wf ch' /\
    bc_size ch' = bc_size ch - n /\ bc_out ch' = drop (Z.to_nat n) (bc_out ch) /\
    bc_ic ch' = bc_ic ch /\ bc_calls ch' = bc_calls ch.
Proof.
  intros (Hok & Hs) H64 Hn H31. unfold bufchain_consume, bc_out in *.
  rewrite (proj2 (Z.leb_le n _)) by lia.
  destruct (bufchain_consume_loop_spec (bc_granules ch) (bc_size ch) n (2 + length (bc_granules ch)))
    as (gs & -> & Hok' & E); [done|lia..|].
  eexists; split; [done|]. unfold bc_wf, bc_out; simpl. rewrite E.
  split_and!; try done. rewrite len_drop; lia.
Qed.

Lemma bufchain_fetch_consume_spec ch n :
  bc_wf ch -> bc_size ch < 2 ^ 64 -> 0 <= n <= bc_size ch -> n < 2 ^ 31 ->
  exists ch', bufchain_fetch_consume ch n = Some (take (Z.to_nat n) (bc_out ch), ch') /\
    bc_wf ch' /\ bc_size ch' = bc_size ch - n /\ bc_out ch' = drop (Z.to_nat n) (bc_out ch).
Proof.
  intros Hwf H64 Hn H31. pose proof Hwf as (_ & Hs).
  destruct (bufchain_consume_spec ch n) as (ch' & E & ? & ? & ? & _); [done..|].
  exists ch'. unfold bufchain_fetch_consume, bufchain_fetch.
  rewrite (proj2 (Z.leb_le n _)), bufchain_fetch_loop_spec by (unfold bc_out in *; lia).
  by rewrite E.
Qed.

(** ** Refinement: a bufchain is a first-in first-out queue of bytes *)

Inductive bc_op :=
| BcAdd (d : list Z) | BcClear | BcConsume (n : Z) | BcFetchConsume (n : Z)
| BcTry (n : Z) | BcUpTo (n : Z).

(** An operation returns data and a success flag. *)
Definition bc_spec (l : list Z) (op : bc_op) : option (list Z * bool * list Z) :=
  match op with
  | BcAdd d => Some ([], true, l ++ d)
  | BcClear => Some ([], true, [])
  | BcConsume n => assert! n <=? len l; Some ([], true, drop (Z.to_nat n) l)
  | BcFetchConsume n =>
      assert! n <=? len l; Some (take (Z.to_nat n) l, true, drop (Z.to_nat n) l)
  | BcTry n =>
      if n <=? len l then Some (take (Z.to_nat n) l, true, drop (Z.to_nat n) l)
      else Some ([], false, l)
  | BcUpTo n => Some (take (Z.to_nat n) l, true, drop (Z.to_nat n) l)
  end.

Definition bc_run (ch : bufchain) (op : bc_op) : option (list Z * bool * bufchain) :=
  match op with
  | BcAdd d => (fun ch => ([], true, ch)) <$> bufchain_add ch d
  | BcClear => Some ([], true, bufchain_clear ch)
  | BcConsume n => (fun ch => ([], true, ch)) <$> bufchain_consume ch n
  | BcFetchConsume n => (fun p => (fst p, true, snd p)) <$> bufchain_fetch_consume ch n
  | BcTry n => (fun p => (snd (fst p), fst (fst p), snd p)) <$> bufchain_try_fetch_consume ch n
  | BcUpTo n => (fun p => (fst p, true, snd p)) <$> bufchain_fetch_consume_up_to ch n
  end.

Definition bc_op_len (op : bc_op) : Z := match op with BcAdd d => len d | _ => 0 end.
Definition bc_op_ok (op : bc_op) : Prop :=
  match op with BcConsume n | BcFetchConsume n | BcTry n | BcUpTo n => 0 <= n | _ => True end.

(** A whole history: the observations, and the final state. *)
Fixpoint history {A B O} (f : A -> B -> option (O * A)) (a : A) (ops : list B)
  : option (list O * A) :=
  match ops with
  | [] => Some ([], a)
  | op :: ops =>
      match f a op with
      | Some (o, a) =>
          match history f a ops with Some (os, a) => Some (o :: os, a) | None => None end
      | None => None
      end
  end.

(** The operations stay within an [int] as long as the chain holds less than 2^31
    bytes, and [n] more bytes may be added. *)
Definition bc_small (ch : bufchain) (n : Z) : Prop := bc_wf ch /\ bc_size ch + n < 2 ^ 31.

Lemma bc_small_nonneg ch n : bc_small ch n -> 0 <= bc_size ch /\ bc_size ch = len (bc_out ch).
Proof. intros ((_ & ->) & _). split; [apply len_nonneg|done]. Qed.

Lemma bc_run_refines ch op n :
  bc_small ch n -> 0 <= n -> bc_op_len op <= n -> bc_op_ok op ->
  match bc_spec (bc_out ch) op, bc_run ch op with
  | Some (d, b, l), Some (d', b', ch') =>
      d = d' /\ b = b' /\ bc_out ch' = l /\ bc_small ch' (n - bc_op_len op)
  | None, None => True
  | _, _ => False
  end.
Proof.
  intros Hs Hn0 Hn Hok. pose proof (bc_small_nonneg ch n Hs) as [Hp Hl].
  destruct Hs as (Hwf & Hsz).
  assert (Hfc : forall k, 0 <= k <= bc_size ch -> exists ch', bufchain_fetch_consume ch k =
     Some (take (Z.to_nat k) (bc_out ch), ch') /\ bc_out ch' = drop (Z.to_nat k) (bc_out ch)
     /\ bc_small ch' n).
  { intros k Hk. destruct (bufchain_fetch_consume_spec ch k) as (ch' & ? & ? & ? & ?); [done|lia..|].
    exists ch'. split_and!; try done. split; [done|lia]. }
  destruct op as [d| |k|k|k|k]; simpl in *; rewrite ?Z.sub_0_r.
  - destruct (bufchain_add_spec ch d n) as (ch' & -> & Eo & (Hw & Hr) & _); [split; done || lia|lia|].
    simpl. split_and!; try done. split; [done|]. pose proof Hw as (_ & ->). rewrite Eo, len_app. lia.
  - split_and!; try done. split; [by split; [constructor|]|simpl; lia].
  - rewrite <- Hl. destruct (Z.leb_spec k (bc_size ch)).
    + destruct (bufchain_consume_spec ch k) as (ch' & -> & ? & ? & ? & _); [done|lia..|].
      simpl. split_and!; try done. split; [done|lia].
    + unfold bufchain_consume. by rewrite (proj2 (Z.leb_gt k _)).
  - rewrite <- Hl. destruct (Z.leb_spec k (bc_size ch)).
    + destruct (Hfc k) as (ch' & -> & ? & ?); [lia|]. done.
    + unfold bufchain_fetch_consume, bufchain_fetch. by rewrite (proj2 (Z.leb_gt k _)).
  - rewrite <- Hl. unfold bufchain_try_fetch_consume. destruct (Z.leb_spec k (bc_size ch)); [|done].
    destruct (Hfc k) as (ch' & -> & ? & ?); [lia|]. done.
  - unfold bufchain_fetch_consume_up_to.
    set (m := if bc_size ch <? k then bc_size ch else k).
    assert (0 <= m <= bc_size ch /\ take (Z.to_nat k) (bc_out ch) = take (Z.to_nat m) (bc_out ch)
            /\ drop (Z.to_nat k) (bc_out ch) = drop (Z.to_nat m) (bc_out ch)) as (Hm & -> & ->).
    { unfold m. bcase; [|by split_and!; try lia]. unfold len in Hl.
      by rewrite !take_ge, !drop_ge by lia. }
    destruct (Z.eqb_spec m 0) as [->|]; [done|]. destruct (Hfc m) as (ch' & -> & ? & ?); [lia|]. done.
Qed.

(** C25. Any history of adds, clears, consumes and the three kinds of fetch behaves
    as on a plain byte queue: the same data and success flags come out in the same
    order, an [assert] trips exactly where the queue would underflow, and at the
    end the size field is the number of bytes held and no granule is empty. *)
Theorem bufchain_is_fifo (ops : list bc_op)
  (Hok : Forall bc_op_ok ops) (Hlen : foldr (fun op a => bc_op_len op + a) 0 ops < 2 ^ 31) :
  match history bc_spec [] ops, history bc_run bufchain_init ops with
  | Some (os, l), Some (os', ch) => os = os' /\ bc_out ch = l /\ bc_wf ch
  | None, None => True
  | _, _ => False
  end.
Proof.
  assert (bc_small bufchain_init (foldr (fun op a => bc_op_len op + a) 0 ops)) as Hs.
  { split; [by split; [constructor|]|simpl; lia]. }
  clear Hlen. replace [] with (bc_out bufchain_init) by done. revert Hs.
  generalize bufchain_init. induction Hok as [|op ops Hop _ IH]; intros ch Hs; simpl in *.
  { split_and!; [done..|apply Hs]. }
  assert (0 <= foldr (fun op a => bc_op_len op + a) 0 ops /\ 0 <= bc_op_len op) as [].
  { clear. split; [|destruct op; simpl; auto using len_nonneg; lia].
    induction ops as [|[]]; simpl; try lia. pose proof (len_nonneg d). lia. }
  pose proof (bc_run_refines ch op _ Hs ltac:(lia) ltac:(lia) Hop) as R.
  destruct (bc_spec (bc_out ch) op) as [[[d b] l]|], (bc_run ch op) as [[[d' b'] ch']|]; try done.
  destruct R as (-> & -> & <- & R). specialize (IH ch').
  destruct (history bc_spec _ _) as [[os l']|], (history bc_run _ _) as [[os' ch2]|];
    try (apply IH; by replace (foldr _ 0 ops) with (bc_op_len op + foldr (fun op a => bc_op_len op + a) 0 ops - bc_op_len op) by lia).
  destruct IH as (-> & <- & ?); [|done].
  by replace (foldr _ 0 ops) with (bc_op_len op + foldr (fun op a => bc_op_len op + a) 0 ops - bc_op_len op) by lia.
Qed.

Lemma bufchain_is_fifo_witness :
  let ops := [BcAdd [1; 2; 3]; BcFetchConsume 2; BcAdd (replicate 40 9); BcTry 500; BcUpTo 3] in
  exists ch, history bc_run bufchain_init ops
    = Some ([([], true); ([1; 2], true); ([], true); ([], false); ([3; 9; 9], true)], ch) /\
    bc_out ch = replicate 38 9.
Proof.
  pose proof (bufchain_is_fifo
    [BcAdd [1; 2; 3]; BcFetchConsume 2; BcAdd (replicate 40 9); BcTry 500; BcUpTo 3]
    ltac:(repeat constructor; simpl; lia) ltac:(vm_compute; reflexivity)) as R.
  cbv zeta.
  match type of R with context [history bc_spec [] ?o] =>
    let v := eval vm_compute in (history bc_spec [] o) in
    replace (history bc_spec [] o) with v in R by (vm_compute; reflexivity) end.
  destruct (history bc_run bufchain_init _) as [[os ch]|]; [|destruct R].
  destruct R as (<- & R & _). exists ch. split; [reflexivity|].
  rewrite R. vm_compute. reflexivity.
Defined.

(** A chain that holds data offers a non-empty piece of it to the socket: what
    [bufchain_prefix] returns is a non-empty prefix of the content. *)
Theorem bufchain_prefix_progress (ch : bufchain) (Hwf : bc_wf ch) (Hne : 0 < bufchain_size ch) :
  exists d rest, bufchain_prefix ch = Some d /\ d <> [] /\ bc_out ch = d ++ rest.
Proof.
  destruct Hwf as (Hok & Hs). unfold bufchain_prefix, bufchain_size, bc_out in *.
  destruct (bc_granules ch) as [|g gs]; [rewrite Hs in Hne; done|].
  apply Forall_inv in Hok as [Hd _]. exists (g_data g), (gs ≫= g_data). done.
Qed.

(** The limit behind the bound of [bufchain_is_fifo]: [int remlen = len] turns a
    request of 2^31 bytes or more negative, and consuming that much of a chain
    that does hold it moves [bufpos] out of its block. *)
Theorem bufchain_consume_int_limit (ch : bufchain) (n : Z)
  (Hwf : bc_wf ch) (Hn : 2 ^ 31 <= n < 2 ^ 32) (Hs : n <= bufchain_size ch) :
  bufchain_consume ch n = None.
Proof.
  destruct Hwf as (Hok & Hsz). unfold bufchain_consume, bufchain_size in *.
  rewrite (proj2 (Z.leb_le n _)) by done. simpl. rewrite (proj2 (Z.ltb_lt 0 n)) by lia.
  assert (to_int n = n - 2 ^ 32) as E.
  { unfold to_int. rewrite wrap_id by (unfold word_ok; lia). by rewrite (proj2 (Z.ltb_ge _ _)) by lia. }
  destruct (bc_granules ch) as [|g gs] eqn:Eg; [done|]. rewrite E.
  pose proof (len_nonneg (g_data g)).
  by rewrite (proj2 (Z.leb_gt _ _)), (proj2 (Z.ltb_lt _ 0)) by lia.
Qed.

