(* ===== verification/Base64.v ===== *)
(** * Base64: key blobs in text files (utils.c, sshpubk.c)

    The atom routines of utils.c turn up to three bytes into four characters and
    back; [base64_encode_s] and [read_blob] of sshpubk.c use them to write a key
    blob as lines of 64 characters and to read it back. *)

From S2P Require Import Prelude Memory Marshal.

Section Atoms.
Local Open Scope word_scope.

Definition base64_chars : list Z :=
  codes "ABCDEFGHIJKLMNOPQRSTUVWXYZabcdefghijklmnopqrstuvwxyz0123456789+/"%string.

Definition base64_char (v : Z) : Z := nth (Z.to_nat v) base64_chars 0.

Definition base64_encode_atom (data : list Z) (n : Z) : list Z :=
  let word := nth 0 data 0 << 16 in
  let word := if 1 <? n then word .| nth 1 data 0 << 8 else word in
  let word := if 2 <? n then word .| nth 2 data 0 else word in
  [base64_char (word >> 18 .& 63);
   base64_char (word >> 12 .& 63);
   if 1 <? n then base64_char (word >> 6 .& 63) else 61;
   if 2 <? n then base64_char (word .& 63) else 61].

(** The value of a character; [-1] for [=], [None] for an invalid character. *)
Definition base64_val (c : Z) : option Z :=
  if (65 <=? c) && (c <=? 90) then Some (c - 65)
  else if (97 <=? c) && (c <=? 122) then Some (c - 97 + 26)
  else if (48 <=? c) && (c <=? 57) then Some (c - 48 + 52)
  else if c =? 43 then Some 62
  else if c =? 47 then Some 63
  else if c =? 61 then Some (-1)
  else None.

(** The decoded bytes; their number is the return value, 0 for an invalid atom. *)
Definition base64_decode_atom (atom : list Z) : list Z :=
  match base64_val (nth 0 atom 0), base64_val (nth 1 atom 0),
        base64_val (nth 2 atom 0), base64_val (nth 3 atom 0) with
  | Some v0, Some v1, Some v2, Some v3 =>
      if (v0 =? -1) || (v1 =? -1) then [] else
      if (v2 =? -1) && negb (v3 =? -1) then [] else
      let n := if negb (v3 =? -1) then 3 else if negb (v2 =? -1) then 2 else 1 in
      let word := u32 (v0 << 18 .| v1 << 12 .| (v2 .& 63) << 6 .| (v3 .& 63)) in
      [word >> 16 .& 255]
        ++ (if 1 <? n then [word >> 8 .& 255] else [])
        ++ (if 2 <? n then [word .& 255] else [])
  | _, _, _, _ => []
  end.
End Atoms.

(** ** Writing a blob (sshpubk.c) *)

Definition base64_lines (datalen : Z) : Z := (datalen + 47) / 48.

Section Encode.
Context {S : Type} `{BinarySink S}.

(** The [for (i = 0; i < 4; i++)] loop over the characters of an atom. *)
Fixpoint base64_put_chars (bs : S) (out : list Z) (linelen cpl : Z) : option (S * Z) :=
  match out with
  | [] => Some (bs, linelen)
  | c :: out =>
      let r := if cpl <=? linelen
               then match put_byte bs 10 with Some bs => Some (bs, 0) | None => None end
               else Some (bs, linelen) in
      match r with
      | Some (bs, linelen) =>
          match put_byte bs c with
          | Some bs => base64_put_chars bs out (linelen + 1) cpl
          | None => None
          end
      | None => None
      end
  end.

Fixpoint base64_encode_loop (fuel : nat) (bs : S) (data : list Z) (linelen cpl : Z)
  : option S :=
  match fuel with
  | O => None
  | Datatypes.S fuel =>
      if 0 <? len data then
        let n := if len data <? 3 then len data else 3 in
        match base64_put_chars bs (base64_encode_atom data n) linelen cpl with
        | Some (bs, linelen) =>
            base64_encode_loop fuel bs (drop (Z.to_nat n) data) linelen cpl
        | None => None
        end
      else put_byte bs 10
  end.

Definition base64_encode_s (bs : S) (data : list Z) (cpl : Z) : option S :=
  base64_encode_loop (Datatypes.S (length data)) bs data 0 cpl.
End Encode.

(** ** Reading it back (sshpubk.c) *)

(** [read_body]: a line, up to CR, LF or the end of the block.  A CR or LF right
    after the line's end is swallowed too. *)
Fixpoint read_body_loop (fuel : nat) (src : BinarySource) (buf : list Z)
  : list Z * BinarySource :=
  match fuel with
  | O => (buf, src)
  | S fuel =>
      let '(c, src) := get_byte src in
      if (c =? 13) || (c =? 10) || negb (bool_decide (bs_err src = BSE_NO_ERROR)) then
        if bool_decide (bs_err src = BSE_NO_ERROR) then
          let '(c, src) := get_byte src in
          if negb (c =? 13) && negb (c =? 10) && bool_decide (bs_err src = BSE_NO_ERROR)
          then (buf, mkSource (bs_data src) (bs_pos src - 1) (bs_err src))
          else (buf, src)
        else (buf, src)
      else read_body_loop fuel src (buf ++ [c])
  end.

Definition read_body (src : BinarySource) : list Z * BinarySource :=
  read_body_loop (S (length (bs_data src))) src [].

(** The characters of the C string made of a buffer: up to the first NUL. *)
Fixpoint c_str (l : list Z) : list Z :=
  match l with
  | [] => []
  | c :: l => if c =? 0 then [] else c :: c_str l
  end.

(** The [for (j = 0; j < linelen; j += 4)] loop: whether every atom was valid, and
    the sink's content. *)
Fixpoint read_atoms (fuel : nat) (line acc : list Z) : bool * list Z :=
  match fuel with
  | O => (true, acc)
  | S fuel =>
      if len line =? 0 then (true, acc) else
      match base64_decode_atom line with
      | [] => (false, acc)
      | d => read_atoms fuel (drop 4 line) (acc ++ d)
      end
  end.

Definition MAX_KEY_BLOB_LINES : Z := 262144 / 48.

(** The [for (i = 0; i < nlines; i++)] loop; the result is the return value, the
    bytes put into the sink, and the source. *)
Fixpoint read_blob_loop (nlines : nat) (src : BinarySource) (acc : list Z)
  : bool * list Z * BinarySource :=
  match nlines with
  | O => (true, acc, src)
  | S nlines =>
      let '(line, src) := read_body src in
      let line := c_str line in
      if negb (len line mod 4 =? 0) || (64 <? len line) then (false, acc, src) else
      match read_atoms (length line) line acc with
      | (true, acc) => read_blob_loop nlines src acc
      | (false, acc) => (false, acc, src)
      end
  end.

Definition read_blob (src : BinarySource) (nlines : Z) (acc : list Z)
  : option (bool * list Z * BinarySource) :=
  assert! nlines <? MAX_KEY_BLOB_LINES;
  Some (read_blob_loop (Z.to_nat nlines) src acc).

(** ** Atoms: decoding inverts encoding *)

Lemma base64_val_char v : 0 <= v < 64 -> base64_val (base64_char v) = Some v.
Proof.
  intros Hv.
  assert (Forall (fun i => base64_val (base64_char (Z.of_nat i)) = Some (Z.of_nat i)) (seq 0 64)) as H.
  { repeat (constructor; [reflexivity|]). constructor. }
  rewrite Forall_seq in H. specialize (H (Z.to_nat v) ltac:(lia)).
  by rewrite Z2Nat.id in H by lia.
Qed.

(** The printable characters an atom is made of. *)
Definition is_b64 (c : Z) : Prop := c <> 0 /\ c <> 10 /\ c <> 13 /\ byte_ok c.

Lemma base64_char_ok v : 0 <= v < 64 -> is_b64 (base64_char v).
Proof.
  intros Hv.
  assert (Forall (fun i => is_b64 (base64_char (Z.of_nat i))) (seq 0 64)) as H.
  { repeat (constructor; [by vm_compute|]). constructor. }
  rewrite Forall_seq in H. specialize (H (Z.to_nat v) ltac:(lia)).
  by rewrite Z2Nat.id in H by lia.
Qed.

Lemma sextet_mask x n : 0 <= n -> Z.land (Z.shiftr x n) 63 = x / 2 ^ n mod 64.
Proof. intros. by rewrite shiftr_div, land_63 by done. Qed.

Lemma word4 a b c d :
  0 <= a < 64 -> 0 <= b < 64 -> 0 <= c < 64 -> 0 <= d < 64 ->
  Z.lor (Z.lor (Z.lor (Z.shiftl a 18) (Z.shiftl b 12)) (Z.shiftl c 6)) d
  = a * 2 ^ 18 + b * 2 ^ 12 + c * 2 ^ 6 + d.
Proof.
  intros.
  replace (Z.lor (Z.lor (Z.shiftl a 18) (Z.shiftl b 12)) (Z.shiftl c 6))
    with (Z.shiftl (Z.lor c (Z.shiftl (Z.lor b (Z.shiftl a 6)) 6)) 6).
  2:{ rewrite !Z.shiftl_lor, !Z.shiftl_shiftl by lia. simpl Z.add.
      by rewrite Z.lor_comm, (Z.lor_comm (Z.shiftl b 12)). }
  rewrite Z.lor_comm, !lor_shiftl_add by (unfold word_ok; lia). lia.
Qed.

Lemma word3 a b c : byte_ok a -> byte_ok b -> byte_ok c ->
  Z.shiftl a 16 = a * 2 ^ 16 /\
  Z.lor (Z.shiftl a 16) (Z.shiftl b 8) = a * 2 ^ 16 + b * 2 ^ 8 /\
  Z.lor (Z.lor (Z.shiftl a 16) (Z.shiftl b 8)) c = a * 2 ^ 16 + b * 2 ^ 8 + c.
Proof.
  intros Ha Hb Hc. unfold word_ok in *.
  replace (Z.lor (Z.shiftl a 16) (Z.shiftl b 8)) with (Z.shiftl (Z.lor b (Z.shiftl a 8)) 8)
    by (rewrite Z.shiftl_lor, Z.shiftl_shiftl, Z.lor_comm by lia; done).
  rewrite (Z.lor_comm _ c), !lor_shiftl_add, !Z.shiftl_mul_pow2 by (unfold word_ok; lia). lia.
Qed.

(** Decoding, once the four character values are known. *)
Lemma decode_atom_vals v0 v1 v2 v3 c2 c3 :
  0 <= v0 < 64 -> 0 <= v1 < 64 ->
  base64_val c2 = Some v2 -> base64_val c3 = Some v3 -> -1 <= v2 < 64 -> -1 <= v3 < 64 ->
  (v2 = -1 -> v3 = -1) ->
  base64_decode_atom [base64_char v0; base64_char v1; c2; c3] =
  let word := v0 * 2 ^ 18 + v1 * 2 ^ 12 + (v2 mod 64) * 2 ^ 6 + v3 mod 64 in
  [word / 2 ^ 16 mod 256]
    ++ (if v2 =? -1 then [] else [word / 2 ^ 8 mod 256])
    ++ (if v3 =? -1 then [] else [word mod 256]).
Proof.
  intros H0 H1 E2 E3 H2 H3 H23. unfold base64_decode_atom. cbn [nth].
  rewrite !base64_val_char, E2, E3 by done.
  rewrite (proj2 (Z.eqb_neq v0 (-1))), (proj2 (Z.eqb_neq v1 (-1))) by lia. cbn [orb].
  rewrite !land_63.
  assert (0 <= v2 mod 64 < 64 /\ 0 <= v3 mod 64 < 64) as [].
  { split; apply Z.mod_pos_bound; lia. }
  rewrite word4 by done. rewrite wrap_id by (unfold word_ok; lia).
  rewrite !shiftr_div, !land_255 by lia.
  destruct (Z.eqb_spec v2 (-1)), (Z.eqb_spec v3 (-1)); try done; exfalso; lia.
Qed.

(** An atom of one, two and three bytes, through the value of [word]. *)
Section Roundtrip.
Context (a b c : Z) (Ha : byte_ok a) (Hb : byte_ok b) (Hc : byte_ok c).

Let digit (x n : Z) := base64_char (x / 2 ^ n mod 64).

Lemma encode_atom_eqs :
  base64_encode_atom [a] 1 =
    (let w := a * 2 ^ 16 in [digit w 18; digit w 12; 61; 61]) /\
  base64_encode_atom [a; b] 2 =
    (let w := a * 2 ^ 16 + b * 2 ^ 8 in [digit w 18; digit w 12; digit w 6; 61]) /\
  base64_encode_atom [a; b; c] 3 =
    (let w := a * 2 ^ 16 + b * 2 ^ 8 + c in
     [digit w 18; digit w 12; digit w 6; base64_char (w mod 64)]).
Proof.
  destruct (word3 a b c Ha Hb Hc) as (E1 & E2 & E3). unfold base64_encode_atom.
  cbn [nth Z.ltb Z.compare Pos.compare Pos.compare_cont].
  rewrite E3, E2, E1, !sextet_mask, land_63 by lia. done.
Qed.

Lemma digit_bound x n : 0 <= x / 2 ^ n mod 64 < 64.
Proof. apply Z.mod_pos_bound. lia. Qed.

Lemma digit_val x n : base64_val (digit x n) = Some (x / 2 ^ n mod 64).
Proof. apply base64_val_char, digit_bound. Qed.

Lemma atom1 : base64_decode_atom (base64_encode_atom [a] 1) = [a].
Proof.
  destruct encode_atom_eqs as (-> & _). cbv zeta. unfold digit.
  rewrite (decode_atom_vals _ _ (-1) (-1)) by (apply digit_bound || done || lia).
  cbv zeta. cbn [Z.eqb Pos.eqb app]. unfold word_ok in *. f_equal. zdivmod.
Qed.

Lemma atom2 : base64_decode_atom (base64_encode_atom [a; b] 2) = [a; b].
Proof.
  destruct encode_atom_eqs as (_ & -> & _). cbv zeta.
  set (w := a * 2 ^ 16 + b * 2 ^ 8). unfold digit at 1 2.
  pose proof (digit_bound w 18). pose proof (digit_bound w 12). pose proof (digit_bound w 6).
  rewrite (decode_atom_vals _ _ _ (-1) _ 61 (digit_bound w 18) (digit_bound w 12) (digit_val w 6) eq_refl) by lia.
  cbv zeta. rewrite (proj2 (Z.eqb_neq _ (-1))) by lia. cbn [Z.eqb Pos.eqb app].
  unfold word_ok, w in *. repeat f_equal; zdivmod.
Qed.

Lemma atom3 : base64_decode_atom (base64_encode_atom [a; b; c] 3) = [a; b; c].
Proof.
  destruct encode_atom_eqs as (_ & _ & ->). cbv zeta.
  set (w := a * 2 ^ 16 + b * 2 ^ 8 + c). unfold digit at 1 2.
  pose proof (digit_bound w 18). pose proof (digit_bound w 12). pose proof (digit_bound w 6).
  pose proof (Z.mod_pos_bound w 64 ltac:(lia)).
  rewrite (decode_atom_vals _ _ _ _ _ _ (digit_bound w 18) (digit_bound w 12) (digit_val w 6)
             (base64_val_char (w mod 64) ltac:(done))) by lia.
  cbv zeta. rewrite !(proj2 (Z.eqb_neq _ (-1))) by lia. cbn [app].
  unfold word_ok, w in *. repeat f_equal; zdivmod.
Qed.

Lemma atom_chars :
  Forall is_b64 (base64_encode_atom [a] 1) /\ Forall is_b64 (base64_encode_atom [a; b] 2) /\
  Forall is_b64 (base64_encode_atom [a; b; c] 3).
Proof.
  destruct encode_atom_eqs as (-> & -> & ->). cbv zeta.
  assert (forall x n, is_b64 (digit x n)) by (intros; apply base64_char_ok, digit_bound).
  assert (forall x, is_b64 (base64_char (x mod 64)))
    by (intros; apply base64_char_ok, Z.mod_pos_bound; lia).
  assert (is_b64 61) by (by vm_compute).
  split_and!; repeat first [apply Forall_nil_2 | apply Forall_cons_2; [solve [auto]|]].
Qed.
End Roundtrip.

(** ** The text of a blob *)

(** The characters of [data], three bytes at a time. *)
Fixpoint b64 (data : list Z) : list Z :=
  match data with
  | a :: b :: c :: r => base64_encode_atom [a; b; c] 3 ++ b64 r
  | [a; b] => base64_encode_atom [a; b] 2
  | [a] => base64_encode_atom [a] 1
  | [] => []
  end.

(** What [base64_encode_s] writes when the current line has [linelen] characters. *)
Fixpoint enc_text (linelen : Z) (data : list Z) : list Z :=
  let nl := if 64 <=? linelen then [10] else [] in
  let l := (if 64 <=? linelen then 0 else linelen) + 4 in
  match data with
  | a :: b :: c :: r => nl ++ base64_encode_atom [a; b; c] 3 ++ enc_text l r
  | [a; b] => nl ++ base64_encode_atom [a; b] 2 ++ [10]
  | [a] => nl ++ base64_encode_atom [a] 1 ++ [10]
  | [] => [10]
  end.

(** Induction in steps of three bytes. *)
Lemma three_ind (P : list Z -> Prop) :
  P [] -> (forall a, P [a]) -> (forall a b, P [a; b]) ->
  (forall a b c r, P r -> P (a :: b :: c :: r)) -> forall l, P l.
Proof.
  intros H0 H1 H2 H3 l. remember (length l) as n eqn:E. revert l E.
  induction n as [n IH] using lt_wf_ind; intros l ->.
  destruct l as [|a [|b [|c r]]]; auto. apply H3. eapply IH; [|done]. simpl; lia.
Qed.

Lemma length_atom data n : length (base64_encode_atom data n) = 4%nat.
Proof. done. Qed.

Lemma b64_facts data :
  bytes_ok data -> Forall is_b64 (b64 data) /\ len (b64 data) = 4 * ((len data + 2) / 3).
Proof.
  induction data as [| | |a b c r IH] using three_ind; intros Hd;
    rewrite ?Forall_cons_iff in Hd; destruct_and? Hd.
  - done.
  - split; [|done]. by apply (atom_chars a 0 0).
  - split; [|done]. by apply (atom_chars a b 0).
  - destruct IH as [IH1 IH2]; [done|]. cbn [b64]. split.
    + apply Forall_app; split; [|done]. by apply atom_chars.
    + rewrite len_app, IH2, !len_cons. unfold len at 1. rewrite length_atom. zdivmod.
Qed.

(** The text from any point of a line: the rest of the line, and the other lines. *)
Lemma enc_text_lines k data :
  0 <= k <= 16 ->
  enc_text (4 * k) data =
  b64 (take (Z.to_nat (48 - 3 * k)) data) ++ [10] ++
  match drop (Z.to_nat (48 - 3 * k)) data with [] => [] | d => enc_text 0 d end.
Proof.
  revert k; induction data as [|a|a b|a b c r IH] using three_ind; intros k Hk.
  - by rewrite take_nil, drop_nil.
  - destruct (Z.eq_dec k 16) as [->|]; [reflexivity|]. cbn [enc_text].
    rewrite (proj2 (Z.leb_gt 64 _)), take_ge, drop_ge by (simpl; lia). reflexivity.
  - destruct (Z.eq_dec k 16) as [->|]; [reflexivity|]. cbn [enc_text].
    rewrite (proj2 (Z.leb_gt 64 _)), take_ge, drop_ge by (simpl; lia). reflexivity.
  - cbn [enc_text]. destruct (Z.eq_dec k 16) as [->|]; [reflexivity|].
    rewrite (proj2 (Z.leb_gt 64 _)) by lia.
    replace (4 * k + 4) with (4 * (k + 1)) by lia. rewrite IH by lia.
    replace (Z.to_nat (48 - 3 * k)) with (3 + Z.to_nat (48 - 3 * (k + 1)))%nat by lia.
    cbn [take drop firstn skipn Nat.add b64]. by rewrite <- app_assoc.
Qed.

(** One round of the loop: a line break if the line is full, an atom, the rest. *)
Lemma enc_text_step l data :
  data <> [] -> bytes_ok data ->
  let m := if len data <? 3 then len data else 3 in
  enc_text l data = (if 64 <=? l then [10] else []) ++ base64_encode_atom data m
                      ++ enc_text ((if 64 <=? l then 0 else l) + 4) (drop (Z.to_nat m) data) /\
  Forall is_b64 (base64_encode_atom data m) /\ len (base64_encode_atom data m) = 4.
Proof.
  intros Hne Hd.
  destruct data as [|a [|b [|c r]]]; [done| | |]; rewrite !Forall_cons_iff in Hd; destruct_and? Hd.
  - split_and!; [done|by apply (atom_chars a 0 0)|done].
  - split_and!; [done|by apply (atom_chars a b 0)|done].
  - intros m. assert (m = 3) as ->.
    { unfold m. rewrite !len_cons. pose proof (len_nonneg r). bcase; lia. }
    split_and!; [done|by apply (atom_chars a b c)|done].
Qed.

Section EncodeSpec.
Context {S : Type} `{BinarySinkLaws S}.

Lemma put_byte_spec (s : S) c n :
  sink_room s n -> byte_ok c -> 1 <= n ->
  exists s', put_byte s c = Some s' /\ writes s s' [c] n.
Proof. intros. unfold put_byte. rewrite wrap_id by done. by apply bs_write_spec. Qed.

Lemma put_chars_spec out (s : S) linelen cpl n :
  sink_room s n -> Forall is_b64 out -> linelen + len out <= cpl -> len out <= n ->
  exists s', base64_put_chars s out linelen cpl = Some (s', linelen + len out)
          /\ writes s s' out n.
Proof.
  intros Hr Ho. revert s linelen n Hr. induction Ho as [|c out Hc _ IH]; intros s l n Hr Hl Hn.
  { exists s. rewrite len_nil, Z.add_0_r. split; [done|].
    split; [by rewrite app_nil_r|by rewrite Z.sub_0_r]. }
  rewrite len_cons in *. pose proof (len_nonneg out). cbn [base64_put_chars].
  rewrite (proj2 (Z.leb_gt cpl l)) by lia.
  destruct (put_byte_spec s c n) as (s1 & -> & W1); [done|apply Hc|lia|].
  destruct (IH s1 (l + 1) (n - 1)) as (s2 & -> & W2); [apply W1|lia..|].
  exists s2. split; [do 2 f_equal; lia|]. change (c :: out) with ([c] ++ out).
  by eapply writes_app.
Qed.

(** An atom at the start of a line, or after a full line. *)
Lemma put_atom_spec out (s : S) k n :
  sink_room s n -> Forall is_b64 out -> len out = 4 -> 0 <= k <= 16 ->
  let nl := if 64 <=? 4 * k then [10] else [] in
  len (nl ++ out) <= n ->
  exists s', base64_put_chars s out (4 * k) 64
             = Some (s', (if 64 <=? 4 * k then 0 else 4 * k) + 4)
          /\ writes s s' (nl ++ out) n.
Proof.
  intros Hr Ho Hl Hk nl Hn. unfold nl in *. rewrite len_app in Hn.
  destruct (Z.leb_spec 64 (4 * k)).
  2:{ destruct (put_chars_spec out s (4 * k) 64 n) as (s' & E & W); [done..|lia|rewrite len_nil in Hn; lia|].
      exists s'. by rewrite E, Hl. }
  destruct out as [|c out]; [done|]. cbn [base64_put_chars].
  rewrite (proj2 (Z.leb_le 64 _)) by done. change (len [10]) with 1 in Hn.
  apply Forall_cons_iff in Ho as [Hc Ho]. rewrite len_cons in *.
  destruct (put_byte_spec s 10 n) as (s1 & -> & W1); [done|done|lia|].
  destruct (put_byte_spec s1 c (n - 1)) as (s2 & -> & W2); [apply W1|apply Hc|lia|].
  destruct (put_chars_spec out s2 (0 + 1) 64 (n - 1 - 1)) as (s3 & -> & W3); [apply W2|done|lia..|].
  exists s3. split; [do 2 f_equal; lia|].
  eapply writes_app; [exact W1|]. change (c :: out) with ([c] ++ out). by eapply writes_app.
Qed.

Lemma encode_loop_spec fuel data (s : S) k n :
  bytes_ok data -> sink_room s n -> 0 <= k <= 16 -> len (enc_text (4 * k) data) <= n ->
  (length data < fuel)%nat ->
  exists s', base64_encode_loop fuel s data (4 * k) 64 = Some s'
          /\ writes s s' (enc_text (4 * k) data) n.
Proof.
  revert data s k n; induction fuel as [|fuel IH]; intros data s k n Hd Hr Hk Hn Hf; [lia|].
  cbn [base64_encode_loop]. destruct data as [|x data']; [by apply put_byte_spec|].
  set (data := x :: data') in *. assert (data <> []) as Hne by done.
  assert (0 < len data) as Hp by (by apply len_pos). clearbody data. clear x data'.
  rewrite (proj2 (Z.ltb_lt _ _)) by done.
  set (m := if len data <? 3 then len data else 3).
  destruct (enc_text_step (4 * k) data Hne Hd) as (Es & Hat & Hla). fold m in Es, Hat, Hla.
  rewrite Es in Hn |- *. rewrite app_assoc, len_app in Hn. rewrite app_assoc.
  pose proof (len_nonneg (enc_text ((if 64 <=? 4 * k then 0 else 4 * k) + 4) (drop (Z.to_nat m) data))).
  destruct (put_atom_spec (base64_encode_atom data m) s k n) as (s1 & -> & W1); [done..|lia|].
  set (k' := (if 64 <=? 4 * k then 0 else k) + 1).
  replace ((if 64 <=? 4 * k then 0 else 4 * k) + 4) with (4 * k') in * by (unfold k'; bcase; lia).
  destruct (IH (drop (Z.to_nat m) data) s1 k'
              (n - len ((if 64 <=? 4 * k then [10] else []) ++ base64_encode_atom data m)))
    as (s2 & -> & W2); [by apply Forall_drop|apply W1|unfold k'; bcase; lia|lia| |].
  { rewrite length_drop. unfold m, len in *. bcase; lia. }
  exists s2. split; [done|]. by eapply writes_app.
Qed.
End EncodeSpec.

(** ** Reading the text back *)

Section Read.
Implicit Types src : BinarySource.

Lemma get_byte_cons src c rest :
  src_ok src -> bs_err src = BSE_NO_ERROR -> here src = c :: rest ->
  get_byte src = (c, advance src 1) /\ here (advance src 1) = rest /\ src_ok (advance src 1).
Proof.
  intros Hok He Eh. change (c :: rest) with ([c] ++ rest) in Eh. split_and!.
  - unfold get_byte. by rewrite (fixed_read src Hok He 0 (fun u => nth 0 u 0) 1 [c] rest Eh eq_refl).
  - by apply (here_advance src [c] rest).
  - by apply (advance_ok src Hok He [c] rest).
Qed.

(** A line that is followed by something other than another line end. *)
Lemma read_body_loop_spec line src buf fuel x rest :
  src_ok src -> bs_err src = BSE_NO_ERROR -> Forall is_b64 line ->
  here src = line ++ 10 :: x :: rest -> x <> 10 -> x <> 13 -> (length line < fuel)%nat ->
  read_body_loop fuel src buf = (buf ++ line, advance src (len line + 1)).
Proof.
  intros Hok He Hl. revert src buf fuel Hok He.
  induction Hl as [|c line (Hc0 & Hc10 & Hc13 & Hcb) _ IH]; intros src buf fuel Hok He Eh Hx1 Hx2 Hf;
    (destruct fuel as [|fuel]; [lia|]); cbn [read_body_loop].
  - destruct (get_byte_cons src 10 (x :: rest) Hok He Eh) as (-> & Eh1 & Hok1). simpl.
    rewrite bool_decide_true by done.
    destruct (get_byte_cons (advance src 1) x rest Hok1 He Eh1) as (-> & _ & _).
    rewrite (proj2 (Z.eqb_neq x 13)), (proj2 (Z.eqb_neq x 10)), bool_decide_true by done.
    simpl. rewrite app_nil_r, len_nil. f_equal. unfold advance; simpl. f_equal. lia.
  - destruct (get_byte_cons src c (line ++ 10 :: x :: rest) Hok He Eh) as (-> & Eh1 & Hok1).
    rewrite (proj2 (Z.eqb_neq c 13)), (proj2 (Z.eqb_neq c 10)) by done.
    change (bs_err (advance src 1)) with (bs_err src). rewrite bool_decide_true by done. simpl.
    rewrite IH; [|done|done|done|done|done|simpl in Hf; lia].
    by rewrite <- app_assoc, advance_advance, len_cons, Z.add_assoc.
Qed.

Lemma c_str_b64 line : Forall is_b64 line -> c_str line = line.
Proof.
  induction 1 as [|c line (Hc & _) _ IH]; [done|]. simpl.
  by rewrite (proj2 (Z.eqb_neq c 0)), IH.
Qed.

Lemma b64_step data :
  data <> [] ->
  let m := if len data <? 3 then len data else 3 in
  b64 data = base64_encode_atom (take (Z.to_nat m) data) m ++ b64 (drop (Z.to_nat m) data).
Proof.
  destruct data as [|a [|b [|c r]]]; [done|done|done|]. intros _ m. assert (m = 3) as ->; [|done].
  unfold m. rewrite !len_cons. pose proof (len_nonneg r). bcase; lia.
Qed.

(** The decoder takes four characters; the rest of the line does not matter. *)
Lemma decode_atom_app atom rest :
  length atom = 4%nat -> base64_decode_atom (atom ++ rest) = base64_decode_atom atom.
Proof. destruct atom as [|? [|? [|? [|? [|]]]]]; try discriminate. done. Qed.

Lemma decode_chunk chunk :
  bytes_ok chunk -> 1 <= len chunk <= 3 ->
  base64_decode_atom (base64_encode_atom chunk (len chunk)) = chunk.
Proof.
  intros Hb Hl. destruct chunk as [|a [|b [|c [|d r]]]]; rewrite ?len_cons, ?len_nil in Hl;
    rewrite ?Forall_cons_iff in Hb; destruct_and? Hb; try lia.
  - by apply (atom1 a 0 0).
  - by apply (atom2 a b 0).
  - by apply atom3.
  - pose proof (len_nonneg r). lia.
Qed.

Lemma read_atoms_spec fuel data acc :
  bytes_ok data -> (length data <= fuel)%nat -> read_atoms fuel (b64 data) acc = (true, acc ++ data).
Proof.
  revert data acc; induction fuel as [|fuel IH]; intros data acc Hb Hf.
  { destruct data; [by rewrite app_nil_r|simpl in Hf; lia]. }
  destruct data as [|x data']; [by rewrite app_nil_r|]. set (data := x :: data') in *.
  assert (data <> []) as Hne by done. pose proof (len_pos data Hne). clearbody data.
  cbn [read_atoms]. rewrite b64_step by done. cbv zeta.
  set (m := if len data <? 3 then len data else 3).
  assert (1 <= m <= 3 /\ m <= len data) as [Hm Hml] by (unfold m; bcase; lia).
  pose proof (decode_chunk (take (Z.to_nat m) data)) as Hdec. rewrite len_take in Hdec by lia.
  specialize (Hdec ltac:(by apply Forall_take) Hm).
  rewrite (proj2 (Z.eqb_neq (len _) 0)) by (rewrite len_app; unfold len at 1; rewrite length_atom;
    pose proof (len_nonneg (b64 (drop (Z.to_nat m) data))); lia).
  rewrite decode_atom_app, Hdec by done.
  destruct (take (Z.to_nat m) data) as [|y t] eqn:Et.
  { apply (f_equal len) in Et. rewrite len_take, len_nil in Et by lia. lia. }
  change (drop 4 (base64_encode_atom (y :: t) m ++ b64 (drop (Z.to_nat m) data)))
    with (b64 (drop (Z.to_nat m) data)).
  rewrite IH; [|by apply Forall_drop|rewrite length_drop; lia].
  by rewrite <- Et, <- app_assoc, take_drop.
Qed.

Lemma length_le_b64 data : (length data <= length (b64 data))%nat.
Proof.
  induction data as [| | |a b c r IH] using three_ind; simpl; try lia.
Qed.

(** The whole blob, line by line, up to the start of what follows it. *)
Lemma read_blob_loop_spec nlines data src acc x rest :
  bytes_ok data -> data <> [] -> Z.of_nat nlines = base64_lines (len data) ->
  src_ok src -> bs_err src = BSE_NO_ERROR -> here src = enc_text 0 data ++ x :: rest ->
  x <> 10 -> x <> 13 ->
  read_blob_loop nlines src acc = (true, acc ++ data, advance src (len (enc_text 0 data))).
Proof.
  revert data src acc; induction nlines as [|nlines IH];
    intros data src acc Hb Hne Hn Hok He Eh Hx1 Hx2; pose proof (len_pos data Hne) as Hp;
    unfold base64_lines in Hn; [exfalso; zdivmod|].
  cbn [read_blob_loop]. pose proof (enc_text_lines 0 data ltac:(lia)) as El.
  change (4 * 0) with 0 in El. change (Z.to_nat (48 - 3 * 0)) with 48%nat in El.
  destruct (b64_facts (take 48 data)) as [Hch Hlen]; [by apply Forall_take|].
  assert (len (take 48 data) = Z.min 48 (len data)) as Hlt by (unfold len; rewrite length_take; lia).
  set (line := b64 (take 48 data)) in *.
  assert (exists y t, here src = line ++ 10 :: y :: t /\ y <> 10 /\ y <> 13) as (y & t & Eh' & Hy1 & Hy2).
  { rewrite El in Eh. destruct (drop 48 data) as [|z r] eqn:Ed.
    - exists x, rest. rewrite Eh, app_nil_r, <- app_assoc. done.
    - destruct (enc_text_step 0 (z :: r)) as (Es & Hat & Hla); [done|rewrite <- Ed; by apply Forall_drop|].
      destruct (base64_encode_atom (z :: r) _) as [|y at'] eqn:Ea; [done|].
      apply Forall_cons_iff in Hat as [(_ & Hy1 & Hy2 & _) _].
      exists y. eexists. split; [|done]. rewrite Eh, Es, <- app_assoc. reflexivity. }
  unfold read_body. rewrite (read_body_loop_spec line src [] _ y t) by
    (done || apply (f_equal length) in Eh'; unfold here in Eh'; rewrite length_drop, length_app in Eh'; simpl in Eh'; lia).
  simpl app. rewrite c_str_b64 by done.
  assert (len line mod 4 = 0 /\ len line <= 64) as [-> ?].
  { rewrite Hlen. split; [by rewrite Z.mul_comm, Z.mod_mul|]. zdivmod. }
  rewrite (proj2 (Z.ltb_ge 64 _)) by lia. simpl.
  unfold line. rewrite read_atoms_spec by (by apply Forall_take || apply length_le_b64). fold line.
  assert (here (advance src (len line + 1)) =
          match drop 48 data with [] => [] | d => enc_text 0 d end ++ x :: rest) as Eh2.
  { change 1 with (len [10]). rewrite <- len_app. apply (here_advance src); [done|].
    by rewrite Eh, El, <- !app_assoc. }
  destruct (drop 48 data) as [|z r] eqn:Ed.
  - assert (take 48 data = data) as Et by (rewrite <- (take_drop 48 data) at 2; by rewrite Ed, app_nil_r).
    assert (nlines = 0%nat) as -> by (rewrite Et in Hlt; zdivmod).
    cbn [read_blob_loop]. rewrite Et, El, app_nil_r, len_app. done.
  - rewrite (IH (z :: r) (advance src (len line + 1))); try done.
    + rewrite advance_advance, El, !len_app, <- app_assoc, <- Ed, take_drop. do 2 f_equal.
      change (len [10]) with 1. rewrite Ed. lia.
    + rewrite <- Ed. by apply Forall_drop.
    + assert (len (z :: r) = len data - 48) as ->.
      { rewrite <- Ed. apply (len_drop 48). split; [lia|]. apply (f_equal length) in Ed.
        rewrite length_drop in Ed. simpl in Ed. unfold len; lia. }
      unfold base64_lines. zdivmod.
    + change 1 with (len [10]). rewrite <- len_app. eapply advance_ok; [done..|].
      by rewrite Eh, El, <- !app_assoc.
Qed.
End Read.

Lemma len_enc_text k data :
  0 <= k <= 16 -> bytes_ok data -> 0 < len (enc_text (4 * k) data) <= 2 * len data + 8.
Proof.
  assert (forall l, len (enc_text l data) <= 1 + 5 * ((len data + 2) / 3)) as Hub.
  { induction data as [|a|a b|a b c r IH] using three_ind; intros l; cbn [enc_text];
      [done|destruct (64 <=? l); vm_compute; discriminate..|].
    rewrite !len_app, !len_cons.
    specialize (IH ((if 64 <=? l then 0 else l) + 4)).
    change (len (base64_encode_atom [a; b; c] 3)) with 4.
    assert (len (if 64 <=? l then [10] else []) <= 1) by (by destruct (64 <=? l)). zdivmod. }
  intros Hk Hb. pose proof (Hub (4 * k)). rewrite enc_text_lines in * by done.
  pose proof (len_nonneg data). split; [|zdivmod].
  rewrite !len_app. change (len [10]) with 1.
  match goal with |- 0 < len ?a + (1 + len ?b) =>
    pose proof (len_nonneg a); pose proof (len_nonneg b) end. lia.
Qed.

Lemma enc_text_ok l data : bytes_ok data -> bytes_ok (enc_text l data).
Proof.
  assert (forall out, Forall is_b64 out -> bytes_ok out) as Hout
    by (intros out Ho; eapply Forall_impl; [exact Ho|by intros c (_ & _ & _ & ?)]).
  assert (bytes_ok [10]) as H10 by (by repeat constructor).
  revert l; induction data as [|a|a b|a b c r IH] using three_ind; intros l Hb; cbn [enc_text];
    rewrite ?Forall_cons_iff in Hb; destruct_and? Hb; rewrite ?Forall_app; [done|..];
    (split; [by destruct (64 <=? l)|]).
  - split; [|done]. by apply Hout, (atom_chars a 0 0).
  - split; [|done]. by apply Hout, (atom_chars a b 0).
  - split; [by apply Hout, (atom_chars a b c)|by apply IH].
Qed.

(** Any one, two or three bytes survive the trip through a base64 atom. *)
Theorem base64_atom_roundtrip (data : list Z) (Hb : bytes_ok data) (Hl : 1 <= len data <= 3) :
  base64_decode_atom (base64_encode_atom data (len data)) = data.
Proof. by apply decode_chunk. Qed.

(** C32. A key blob written with [base64_encode_s] at 64 characters a line is read back
    byte for byte by [read_blob] given the line count [base64_lines] computes, and
    the reader stops exactly at the first character after the blob. *)
Theorem key_blob_roundtrip (S : Type) `{BinarySinkLaws S} (s : S) (data acc : list Z)
  (x : Z) (rest : list Z) (n : Z)
  (Hb : bytes_ok data) (Hne : data <> []) (Hl : len data <= 262000)
  (Hr : sink_room s n) (Hn : 2 * len data + 8 <= n)
  (Hs : bytes_ok (sink_out s)) (Hrest : bytes_ok (x :: rest)) (Hx : x <> 10 /\ x <> 13) :
  exists s', base64_encode_s s data 64 = Some s' /\
    read_blob (mkSource (sink_out s' ++ x :: rest) (len (sink_out s)) BSE_NO_ERROR)
      (base64_lines (len data)) acc
    = Some (true, acc ++ data,
            mkSource (sink_out s' ++ x :: rest) (len (sink_out s')) BSE_NO_ERROR).
Proof.
  pose proof (len_enc_text 0 data ltac:(lia) Hb) as [_ Hlen].
  destruct (encode_loop_spec (Datatypes.S (length data)) data s 0 n) as (s' & E & O & _);
    [done..|lia|lia|].
  exists s'. change (4 * 0) with 0 in *. split; [exact E|]. unfold read_blob.
  pose proof (len_pos data Hne). rewrite (proj2 (Z.ltb_lt _ _)) by
    (unfold MAX_KEY_BLOB_LINES, base64_lines; zdivmod).
  rewrite (read_blob_loop_spec _ data _ _ x rest); [|done|done| | | |..]; try (by apply Hx).
  - unfold advance; simpl. by rewrite O, len_app.
  - unfold base64_lines. rewrite Z2Nat.id; [done|]. zdivmod.
  - assert (bytes_ok (enc_text 0 data)) as Ht by (by apply enc_text_ok).
    split; simpl; [|rewrite O, !Forall_app; auto]. rewrite !O, !len_app.
    pose proof (len_nonneg (sink_out s)). pose proof (len_nonneg (enc_text 0 data)).
    pose proof (len_nonneg (x :: rest)). lia.
  - done.
  - unfold here; simpl. by rewrite O, <- app_assoc, to_nat_len, drop_app_length.
Qed.

Lemma key_blob_roundtrip_witness :
  exists s', base64_encode_s [7] (replicate 50 200) 64 = Some s' /\
    read_blob (mkSource (s' ++ [80; 114]) 1 BSE_NO_ERROR) 2 []
    = Some (true, replicate 50 200, mkSource (s' ++ [80; 114]) (len s') BSE_NO_ERROR).
Proof.
  destruct (key_blob_roundtrip (list Z) [7] (replicate 50 200) [] 80 [114] 1000)
    as (s' & E & R).
  { by apply Forall_replicate. } { discriminate. } { vm_compute; discriminate. } { exact I. }
  { vm_compute; discriminate. } { by repeat constructor. } { by repeat constructor. }
  { split; discriminate. }
  exists s'. split; [exact E|exact R].
Defined.
