(* ===== verification/Wildcard.v ===== *)
(** * Wildcard: the matcher of wildcard.c

    A wildcard is a C string, the list of its characters; a pointer into it is the
    rest of the string, and reading at its end gives the terminating NUL.  The
    target is a stretch of memory: the bytes up to [target_end], and whatever
    follows them.  A pointer into it is an index, and reading past the known
    memory is undefined ([None]).

    The reference is a two-stage definition: [wc_parse] turns the wildcard into
    tokens, and [matches] says which strings a token list stands for. *)

From S2P Require Import Prelude.

Definition WC_TRAILINGBACKSLASH : Z := 1.
Definition WC_UNCLOSEDCLASS : Z := 2.
Definition WC_INVALIDRANGE : Z := 3.

Definition hd0 (f : list Z) : Z := nth 0 f 0.

(** The body of a character class, up to its [ ] ]: an error, or whether [c] was
    listed and the pointer at the [ ] ]. *)
Fixpoint wc_class (fuel : nat) (f : list Z) (c : Z) (matched : bool) : Z + bool * list Z :=
  match fuel with
  | O => inl (- WC_UNCLOSEDCLASS)
  | S fuel =>
      if hd0 f =? 93 then inr (matched, f) else
      let f := if hd0 f =? 92 then tl f else f in
      if hd0 f =? 0 then inl (- WC_UNCLOSEDCLASS) else
      if nth 1 f 0 =? 45 then
        let lower := hd0 f in
        let f := tl (tl f) in
        if hd0 f =? 93 then inl (- WC_INVALIDRANGE) else
        let f := if hd0 f =? 92 then tl f else f in
        if hd0 f =? 0 then inl (- WC_UNCLOSEDCLASS) else
        let upper := hd0 f in
        let f := tl f in
        let '(lower, upper) := if upper <? lower then (upper, lower) else (lower, upper) in
        wc_class fuel f c (if (lower <=? c) && (c <=? upper) then true else matched)
      else wc_class fuel (tl f) c (matched || (c =? hd0 f))
  end.

(** The outcome of [wc_match_fragment]: its return value and, for 1, the pointers. *)
Inductive frag := FragError (e : Z) | FragNo | FragYes (f : list Z) (t : nat).

Fixpoint wc_fragment_loop (fuel : nat) (f : list Z) (mem : list Z) (t target_end : nat) : frag :=
  match fuel with
  | O => FragNo
  | S fuel =>
      if negb (hd0 f =? 0) && negb (hd0 f =? 42) && (t <? target_end)%nat then
        let c := nth t mem 0 in
        if hd0 f =? 92 then
          if nth 1 f 0 =? 0 then FragError (- WC_TRAILINGBACKSLASH)
          else if negb (nth 1 f 0 =? c) then FragNo
          else wc_fragment_loop fuel (tl (tl f)) mem (S t) target_end
        else if hd0 f =? 63 then wc_fragment_loop fuel (tl f) mem (S t) target_end
        else if hd0 f =? 91 then
          let f := tl f in
          let '(invert, f) := if hd0 f =? 94 then (true, tl f) else (false, f) in
          match wc_class (S (length f)) f c false with
          | inl e => FragError e
          | inr (matched, f) =>
              if eqb invert matched then FragNo
              else wc_fragment_loop fuel (tl f) mem (S t) target_end
          end
        else if negb (hd0 f =? c) then FragNo
        else wc_fragment_loop fuel (tl f) mem (S t) target_end
      else if (hd0 f =? 0) || (hd0 f =? 42) then FragYes f t
      else FragNo
  end.

Definition wc_match_fragment (f mem : list Z) (t target_end : nat) : frag :=
  wc_fragment_loop (S (length f)) f mem t target_end.

Fixpoint skip_stars (w : list Z) : list Z :=
  match w with
  | c :: w' => if c =? 42 then skip_stars w' else w
  | [] => []
  end.

(** The [while ( *target)] loop: where the fragment was found ([Some (inr ...)]), or
    the value to return. *)
Fixpoint wc_search (fuel : nat) (wildcard mem : list Z) (target target_end : nat)
  : option (Z + list Z * nat) :=
  match fuel with
  | O => None
  | S fuel =>
      match mem !! target with
      | None => None                                  (* read outside the memory *)
      | Some c =>
          if c =? 0 then Some (inl 0) else
          match wc_match_fragment wildcard mem target target_end with
          | FragError e => Some (inl e)
          | FragYes w' t' =>
              if (hd0 w' =? 0) && negb (t' =? target_end)%nat then
                match wc_match_fragment wildcard mem (target_end - (t' - target)) target_end with
                | FragError e => Some (inl e)
                | FragNo => Some (inl 0)
                | FragYes _ _ => Some (inl 1)
                end
              else Some (inr (w', t'))
          | FragNo => wc_search fuel wildcard mem (S target) target_end
          end
      end
  end.

(** The [while ( *wildcard)] loop. *)
Fixpoint wc_inner_loop (fuel : nat) (wildcard mem : list Z) (target target_end : nat) : option Z :=
  match fuel with
  | O => None
  | S fuel =>
      if hd0 wildcard =? 0 then Some (if (target =? target_end)%nat then 1 else 0) else
      if negb (hd0 wildcard =? 42) then None else      (* assert *)
      let wildcard := skip_stars wildcard in
      if hd0 wildcard =? 0 then Some 1 else
      match wc_search (S (length mem)) wildcard mem target target_end with
      | Some (inl ret) => Some ret
      | Some (inr (w', t')) => wc_inner_loop fuel w' mem t' target_end
      | None => None
      end
  end.

Definition wc_match_inner (wildcard mem : list Z) (target_len : nat) : option Z :=
  if negb (hd0 wildcard =? 42) then
    match wc_match_fragment wildcard mem 0 target_len with
    | FragError e => Some e
    | FragNo => Some 0
    | FragYes w' t' => wc_inner_loop (S (length wildcard)) w' mem t' target_len
    end
  else wc_inner_loop (S (length wildcard)) wildcard mem 0 target_len.

(** The target is a C string: a NUL follows it. *)
Definition wc_match (wildcard target : list Z) : option Z :=
  wc_match_inner wildcard (target ++ [0]) (length target).

(** The target is a pointer and a length: anything may follow it. *)
Definition wc_match_pl (wildcard target after : list Z) : option Z :=
  wc_match_inner wildcard (target ++ after) (length target).

(** [wc_unescape]: the output string, [None] if a wildcard character was met. *)
Fixpoint wc_unescape (wildcard : list Z) : option (list Z) :=
  match wildcard with
  | [] => Some []
  | c :: w =>
      if c =? 92 then
        match w with
        | [] => Some []
        | d :: w => option_map (cons d) (wc_unescape w)
        end
      else if (c =? 42) || (c =? 63) || (c =? 91) || (c =? 93) then None
      else option_map (cons c) (wc_unescape w)
  end.

(** ** The reference semantics *)

Inductive wtok :=
| WStar                                               (* any sequence *)
| WOne (accepts : list (Z * Z)) (invert : bool)       (* one character, in (or not in) ranges *)
| WAny.                                               (* one character *)

(** The ranges of a class, and what follows its [ ] ]. *)
Fixpoint parse_class (fuel : nat) (f : list Z) : option (list (Z * Z) * list Z) :=
  match fuel with
  | O => None
  | S fuel =>
      if hd0 f =? 93 then Some ([], tl f) else
      let f := if hd0 f =? 92 then tl f else f in
      if hd0 f =? 0 then None else
      if nth 1 f 0 =? 45 then
        let lower := hd0 f in
        let f := tl (tl f) in
        if hd0 f =? 93 then None else
        let f := if hd0 f =? 92 then tl f else f in
        if hd0 f =? 0 then None else
        match parse_class fuel (tl f) with
        | Some (rs, r) => Some ((Z.min lower (hd0 f), Z.max lower (hd0 f)) :: rs, r)
        | None => None
        end
      else
        match parse_class fuel (tl f) with
        | Some (rs, r) => Some ((hd0 f, hd0 f) :: rs, r)
        | None => None
        end
  end.

Fixpoint wc_parse (fuel : nat) (f : list Z) : option (list wtok) :=
  match fuel with
  | O => None
  | S fuel =>
      match f with
      | [] => Some []
      | c :: r =>
          if c =? 42 then option_map (cons WStar) (wc_parse fuel r)
          else if c =? 92 then
            match r with
            | [] => None
            | d :: r => option_map (cons (WOne [(d, d)] false)) (wc_parse fuel r)
            end
          else if c =? 63 then option_map (cons WAny) (wc_parse fuel r)
          else if c =? 91 then
            let '(invert, r) := if hd0 r =? 94 then (true, tl r) else (false, r) in
            match parse_class (S (length r)) r with
            | Some (rs, r) => option_map (cons (WOne rs invert)) (wc_parse fuel r)
            | None => None
            end
          else option_map (cons (WOne [(c, c)] false)) (wc_parse fuel r)
      end
  end.

Definition in_ranges (rs : list (Z * Z)) (c : Z) : bool :=
  existsb (fun r => (fst r <=? c) && (c <=? snd r)) rs.

Definition accepts (tok : wtok) (c : Z) : bool :=
  match tok with
  | WStar => false
  | WOne rs invert => negb (eqb invert (in_ranges rs c))
  | WAny => true
  end.

(** The strings a token list stands for. *)
Inductive matches : list wtok -> list Z -> Prop :=
| m_nil : matches [] []
| m_star toks skipped s : matches toks s -> matches (WStar :: toks) (skipped ++ s)
| m_one tok toks c s : accepts tok c = true -> matches toks s -> matches (tok :: toks) (c :: s).

(** ** Classes *)

Lemma tl_suffix {A} (l : list A) : exists k, l = k ++ tl l.
Proof. destruct l as [|x l]; [by exists []|by exists [x]]. Qed.

Lemma suffix_trans3 {A} (l1 l2 l3 : list A) :
  (exists k, l1 = k ++ l2) -> (exists k, l2 = k ++ l3) -> exists k, l1 = k ++ l3.
Proof. intros [k1 ->] [k2 ->]. exists (k1 ++ k2). by rewrite app_assoc. Qed.

Lemma esc_suffix (f : list Z) : exists k, f = k ++ (if hd0 f =? 92 then tl f else f).
Proof. destruct (hd0 f =? 92); [apply tl_suffix|by exists []]. Qed.

(** The matcher's scan of a class agrees with the parser's. *)
Lemma wc_class_spec fuel f c m rs r :
  parse_class fuel f = Some (rs, r) ->
  exists f', wc_class fuel f c m = inr (m || in_ranges rs c, f') /\ tl f' = r /\ f' <> [] /\
    exists k, f = k ++ f'.
Proof.
  revert f m rs r; induction fuel as [|fuel IH]; intros f m rs r Hp; [done|].
  cbn [parse_class wc_class] in *. destruct (Z.eqb_spec (hd0 f) 93) as [E93|].
  { simplify_eq. exists f. split_and!; [by rewrite orb_false_r|done|by intros ->|by exists []]. }
  pose proof (esc_suffix f) as Hs1. set (f1 := if hd0 f =? 92 then tl f else f) in *.
  destruct (hd0 f1 =? 0); [done|]. destruct (nth 1 f1 0 =? 45).
  - assert (exists k, f = k ++ tl (tl f1)) as Hs2
      by (eauto using suffix_trans3, tl_suffix).
    destruct (hd0 (tl (tl f1)) =? 93); [done|].
    pose proof (esc_suffix (tl (tl f1))) as Hs3.
    set (f2 := if hd0 (tl (tl f1)) =? 92 then _ else _) in *.
    destruct (hd0 f2 =? 0); [done|].
    destruct (parse_class fuel (tl f2)) as [[rs' r']|] eqn:E; [|done]. simplify_eq.
    set (m' := if hd0 f2 <? hd0 f1 then (hd0 f2, hd0 f1) else (hd0 f1, hd0 f2)).
    assert (m' = (Z.min (hd0 f1) (hd0 f2), Z.max (hd0 f1) (hd0 f2))) as -> by
      (unfold m'; bcase; f_equal; lia).
    edestruct IH as (f' & -> & ? & ? & Hs); [exact E|].
    exists f'. split_and!; [|done|done|eauto using suffix_trans3, tl_suffix].
    do 2 f_equal. simpl. destruct m, (_ && _), (in_ranges rs' c); done.
  - destruct (parse_class fuel (tl f1)) as [[rs' r']|] eqn:E; [|done]. simplify_eq.
    edestruct IH as (f' & -> & ? & ? & Hs); [exact E|].
    exists f'. split_and!; [|done|done|eauto using suffix_trans3, tl_suffix].
    do 2 f_equal. simpl. replace ((hd0 f1 <=? c) && (c <=? hd0 f1)) with (c =? hd0 f1) by
      (apply eq_true_iff_eq; rewrite andb_true_iff, !Z.leb_le, Z.eqb_eq; lia).
    by rewrite orb_assoc.
Qed.

(** ** Token lists and fragments *)

(** The rigid tokens before the first star, and the rest. *)
Fixpoint rigid (toks : list wtok) : list wtok :=
  match toks with WStar :: _ | [] => [] | tok :: toks => tok :: rigid toks end.
Fixpoint after_rigid (toks : list wtok) : list wtok :=
  match toks with WStar :: _ | [] => toks | _ :: toks => after_rigid toks end.

Lemma rigid_split toks : toks = rigid toks ++ after_rigid toks.
Proof. induction toks as [|[]]; simpl; congruence. Qed.

Definition not_star (tok : wtok) : Prop := tok <> WStar.

Lemma rigid_not_star toks : Forall not_star (rigid toks).
Proof. induction toks as [|[]]; simpl; by constructor. Qed.

Lemma after_rigid_shape toks : after_rigid toks = [] \/ exists r, after_rigid toks = WStar :: r.
Proof. induction toks as [|[]]; simpl; eauto. Qed.

Lemma matches_nil s : matches [] s <-> s = [].
Proof. split; [by inversion 1|]. intros ->. constructor. Qed.

Lemma accepts_lit c d : accepts (WOne [(c, c)] false) d = (c =? d).
Proof.
  simpl. rewrite orb_false_r. apply eq_true_iff_eq.
  destruct (Z.leb_spec c d), (Z.leb_spec d c), (Z.eqb_spec c d); simpl; split; try done; lia.
Qed.

Section Target.
(** The memory of the target, and where it ends. *)
Context (mem : list Z) (tend : nat) (Hend : (tend <= length mem)%nat).

(** The rest of the target from an index. *)
Definition suf (t : nat) : list Z := drop t (take tend mem).

(** The tokens [r] match, one to one, the characters from [t] on. *)
Fixpoint rig (r : list wtok) (t : nat) : bool :=
  match r with
  | [] => true
  | tok :: r => (t <? tend)%nat && accepts tok (nth t mem 0) && rig r (S t)
  end.

Lemma suf_cons t : (t < tend)%nat -> suf t = nth t mem 0 :: suf (S t).
Proof.
  intros. unfold suf. rewrite (drop_S _ (nth t mem 0) t); [done|].
  rewrite lookup_take_lt by done. destruct (lookup_lt_is_Some_2 mem t) as [c Hc]; [lia|].
  by rewrite (nth_lookup_Some _ _ 0 _ Hc).
Qed.

Lemma suf_nil t : (t <= tend)%nat -> suf t = [] <-> t = tend.
Proof.
  intros. unfold suf. split.
  - intros E. apply (f_equal length) in E. rewrite length_drop, length_take in E. simpl in E. lia.
  - intros ->. apply drop_ge. rewrite length_take. lia.
Qed.

Lemma suf_drop t k : suf (t + k) = drop k (suf t).
Proof. unfold suf. by rewrite drop_drop. Qed.

Lemma rig_bound r t : rig r t = true -> (t <= tend)%nat -> (t + length r <= tend)%nat.
Proof.
  revert t; induction r as [|tok r IH]; intros t; simpl; [lia|].
  intros H Ht. bsimpl. apply Nat.ltb_lt in H. specialize (IH (S t) ltac:(done)). lia.
Qed.

Lemma matches_rigid r rest t :
  Forall not_star r -> (t <= tend)%nat ->
  matches (r ++ rest) (suf t) <-> rig r t = true /\ matches rest (suf (t + length r)).
Proof.
  intros Hr. revert t; induction Hr as [|tok r Htok _ IH]; intros t Ht; simpl.
  { rewrite Nat.add_0_r. naive_solver. }
  destruct (Nat.ltb_spec t tend).
  - specialize (IH (S t) ltac:(lia)). rewrite suf_cons by done.
    rewrite Nat.add_succ_r. simpl in IH |- *. rewrite andb_true_iff. split.
    + intros Hm. inversion Hm; subst; [by destruct Htok|]. naive_solver.
    + intros [[Ha Hrig] Hm]. apply m_one; [done|]. by apply IH.
  - simpl. assert (t = tend) as -> by lia. rewrite (proj2 (suf_nil tend ltac:(done)) eq_refl).
    split; [|by intros []]. intros Hm; inversion Hm; subst. by destruct Htok.
Qed.

Lemma matches_star toks t :
  (t <= tend)%nat ->
  matches (WStar :: toks) (suf t) <-> exists t', (t <= t' <= tend)%nat /\ matches toks (suf t').
Proof.
  intros Ht. split.
  - inversion 1 as [|? skipped s Hm E1 E2|]; subst; [|done].
    exists (t + length skipped)%nat. rewrite suf_drop, <- E2, drop_app_length. split; [|done].
    apply (f_equal length) in E2. unfold suf in E2. rewrite length_app, length_drop, length_take in E2.
    lia.
  - intros (t' & Ht' & Hm). replace t' with (t + (t' - t))%nat in Hm by lia.
    rewrite suf_drop in Hm. rewrite <- (take_drop (t' - t) (suf t)). by constructor.
Qed.

Lemma matches_star_mono toks t t' :
  (t <= t' <= tend)%nat -> matches (WStar :: toks) (suf t') -> matches (WStar :: toks) (suf t).
Proof.
  intros Ht. rewrite !matches_star by lia. intros (u & Hu & Hm). exists u. split; [lia|done].
Qed.

(** ** The fragment matcher *)

(** [f] is a pointer into the wildcard whose tokens are [toks]. *)
Definition parses (f : list Z) (toks : list wtok) : Prop :=
  Forall (fun c => c <> 0) f /\ exists fuel, wc_parse fuel f = Some toks.

Lemma parses_suffix f k fuel toks :
  Forall (fun c => c <> 0) f -> (exists k', f = k' ++ k) -> wc_parse fuel k = Some toks ->
  parses k toks.
Proof. intros Hf [k' ->] Hp. apply Forall_app in Hf as [_ ?]. split; eauto. Qed.

(** The pointer at the end of a fragment. *)
Definition frag_end (f : list Z) (toks : list wtok) : Prop :=
  parses f toks /\ ((f = [] /\ toks = []) \/ (hd0 f = 42 /\ exists r, toks = WStar :: r)).

(** The outcome a fragment must have. *)
Definition frag_ok (f : list Z) (toks : list wtok) (t : nat) (res : frag) : Prop :=
  if rig (rigid toks) t
  then exists f', res = FragYes f' (t + length (rigid toks)) /\
                  frag_end f' (after_rigid toks) /\ (length f' <= length f)%nat
  else res = FragNo.

Lemma frag_ok_step f f' tok toks t res :
  tok <> WStar -> (t < tend)%nat -> accepts tok (nth t mem 0) = true ->
  (length f' <= length f)%nat ->
  frag_ok f' toks (S t) res -> frag_ok f (tok :: toks) t res.
Proof.
  intros Hs Ht Ha Hl Hok. unfold frag_ok in *.
  replace (rigid (tok :: toks)) with (tok :: rigid toks) by (by destruct tok).
  replace (after_rigid (tok :: toks)) with (after_rigid toks) by (by destruct tok).
  cbn [rig]. rewrite (proj2 (Nat.ltb_lt t tend)), Ha by done. simpl.
  destruct (rig (rigid toks) (S t)); [|done].
  destruct Hok as (f2 & -> & ? & ?). exists f2. split_and!; [f_equal; lia|done|lia].
Qed.

Lemma frag_ok_no f tok toks t :
  tok <> WStar -> ((t < tend)%nat -> accepts tok (nth t mem 0) = false) ->
  frag_ok f (tok :: toks) t FragNo.
Proof.
  intros Hs Ha. unfold frag_ok. replace (rigid (tok :: toks)) with (tok :: rigid toks) by (by destruct tok).
  cbn [rig]. destruct (Nat.ltb_spec t tend); [|done]. by rewrite Ha.
Qed.

Lemma fragment_spec fuel f toks t fuel' :
  Forall (fun c => c <> 0) f -> wc_parse fuel f = Some toks -> (length f < fuel')%nat ->
  frag_ok f toks t (wc_fragment_loop fuel' f mem t tend).
Proof.
  revert f toks t fuel'; induction fuel as [|fuel IH]; intros f toks t fuel' Hf Hp Hl; [done|].
  destruct fuel' as [|fuel']; [lia|].
  destruct f as [|c r]; [|pose proof Hf as Hf0; apply Forall_cons_iff in Hf as [Hc Hr]].
  { cbn in Hp. simplify_eq. unfold frag_ok. simpl. exists []. rewrite Nat.add_0_r.
    split_and!; [done| |done]. split; [split; [done|by exists 1%nat]|by left]. }
  cbn [wc_fragment_loop]. change (hd0 (c :: r)) with c. rewrite (proj2 (Z.eqb_neq c 0)) by done.
  pose proof Hp as Hp0. cbn [wc_parse] in Hp. destruct (Z.eqb_spec c 42) as [->|H42].
  { simpl. apply fmap_Some in Hp as (toks' & Hp & ->). unfold frag_ok. simpl. exists (42 :: r).
    rewrite Nat.add_0_r. split_and!; [done| |done].
    split; [split; [done|by eexists]|right; split; [done|by eexists]]. }
  simpl negb. cbn [andb orb]. simpl in Hl.
  destruct (Nat.ltb_spec t tend) as [Ht|Ht].
  2:{ simpl. assert (exists tok toks', toks = tok :: toks' /\ tok <> WStar) as (tok & toks' & -> & Hs).
      { repeat case_match; try done; apply fmap_Some in Hp as (? & _ & ->); by do 2 eexists. }
      apply frag_ok_no; [done|lia]. }
  destruct (Z.eqb_spec c 92) as [->|H92].
  { destruct r as [|d r]; [done|]. apply fmap_Some in Hp as (toks' & Hp & ->).
    apply Forall_cons_iff in Hr as [Hd Hr]. cbn [nth tl]. rewrite (proj2 (Z.eqb_neq d 0)) by done.
    pose proof (accepts_lit d (nth t mem 0)) as Ha. destruct (d =? nth t mem 0); simpl negb.
    - eapply frag_ok_step; [done|done|done| |apply IH; [done|done|simpl in Hl; lia]]. simpl; lia.
    - by apply frag_ok_no. }
  destruct (Z.eqb_spec c 63) as [->|H63].
  { apply fmap_Some in Hp as (toks' & Hp & ->).
    eapply frag_ok_step; [done|done|done| |apply IH; [done|done|simpl; lia]]. simpl; lia. }
  destruct (Z.eqb_spec c 91) as [->|H91].
  { cbn [tl]. set (ir := if hd0 r =? 94 then (true, tl r) else (false, r)) in *.
    assert (exists k, r = k ++ snd ir) as Hs1.
    { unfold ir. destruct (hd0 r =? 94); simpl; [apply tl_suffix|by exists []]. }
    destruct ir as [invert r1]; simpl in Hs1.
    destruct (parse_class (S (length r1)) r1) as [[rs r2]|] eqn:Ec; [|done].
    apply fmap_Some in Hp as (toks' & Hp & ->).
    destruct (wc_class_spec _ _ (nth t mem 0) false _ _ Ec) as (f' & -> & <- & Hne & Hs2).
    assert (exists k, r = k ++ tl f') as Hs3 by eauto using suffix_trans3, tl_suffix.
    assert (length (tl f') <= length r)%nat as Hlt.
    { destruct Hs3 as [k ->]. rewrite length_app. lia. }
    simpl orb. destruct (eqb invert (in_ranges rs (nth t mem 0))) eqn:Ei.
    - apply frag_ok_no; [done|]. intros _. simpl. by rewrite Ei.
    - apply (frag_ok_step _ (tl f')); [done|done|simpl; by rewrite Ei|simpl; lia|].
      apply IH; [|done|lia]. destruct Hs3 as [k ->]. by apply Forall_app in Hr as [_ ?]. }
  apply fmap_Some in Hp as (toks' & Hp & ->).
  pose proof (accepts_lit c (nth t mem 0)) as Ha. destruct (c =? nth t mem 0); simpl negb.
  - eapply frag_ok_step; [done|done|done| |apply IH; [done|done|simpl; lia]]. simpl; lia.
  - by apply frag_ok_no.
Qed.
End Target.

(** ** Searching and the main loop *)

Section Main.
Context (target : list Z) (Hnz : Forall (fun c => c <> 0) target).
Let mem := target ++ [0].
Let tend := length target.

Lemma mem_end : (tend <= length mem)%nat.
Proof. unfold mem, tend. rewrite length_app. lia. Qed.

Lemma mem_at t : (t < tend)%nat -> exists c, mem !! t = Some c /\ c <> 0.
Proof.
  intros Ht. unfold mem, tend in *. destruct (lookup_lt_is_Some_2 target t Ht) as [c Hc].
  exists c. rewrite lookup_app_l by done. split; [done|].
  rewrite Forall_lookup in Hnz. eauto.
Qed.

Lemma mem_at_end : mem !! tend = Some 0.
Proof. unfold mem, tend. by rewrite lookup_app_r, Nat.sub_diag by lia. Qed.

Lemma suf_end : suf mem tend tend = [].
Proof. by apply (suf_nil mem tend mem_end). Qed.

(** The first index from [t] on where the rigid tokens match. *)
Definition leftmost (r : list wtok) (t t0 : nat) : Prop :=
  (t <= t0 < tend)%nat /\ rig mem tend r t0 = true /\
  forall u, (t <= u < t0)%nat -> rig mem tend r u = false.

(** What the search returns: nothing found, or a decision for a last fragment, or
    the pointers to go on with. *)
Definition search_ok (w : list Z) (toks : list wtok) (t : nat) (res : Z + list Z * nat) : Prop :=
  let r := rigid toks in
  ((forall u, (t <= u < tend)%nat -> rig mem tend r u = false) /\ res = inl 0) \/
  exists t0, leftmost r t t0 /\
    ((after_rigid toks = [] /\ (t0 + length r < tend)%nat /\
      res = inl (if rig mem tend r (tend - length r) then 1 else 0)) \/
     (exists w', res = inr (w', (t0 + length r)%nat) /\ frag_end w' (after_rigid toks) /\
        (length w' <= length w)%nat /\ (after_rigid toks = [] -> t0 + length r = tend)%nat)).

Lemma search_spec w toks t fuel :
  parses w toks -> (t <= tend)%nat -> (tend - t < fuel)%nat ->
  exists res, wc_search fuel w mem t tend = Some res /\ search_ok w toks t res.
Proof.
  intros [Hw [pf Hp]]. revert t; induction fuel as [|fuel IH]; intros t Ht Hfuel; [lia|].
  cbn [wc_search]. destruct (decide (t = tend)) as [->|Hne].
  { rewrite mem_at_end. simpl. eexists; split; [done|]. left. split; [lia|done]. }
  destruct (mem_at t) as (c & -> & Hc); [lia|]. rewrite (proj2 (Z.eqb_neq c 0)) by done.
  pose proof (fragment_spec mem tend mem_end pf w toks t (S (length w)) Hw Hp ltac:(lia)) as Hfr.
  unfold wc_match_fragment at 1. unfold frag_ok in Hfr.
  destruct (rig mem tend (rigid toks) t) eqn:Er.
  - destruct Hfr as (w' & -> & Hend & Hlen).
    assert (leftmost (rigid toks) t t) as Hlm by (split_and!; [lia|lia|done|lia]).
    pose proof (rig_bound mem tend mem_end _ _ Er ltac:(lia)) as Hb.
    destruct Hend as [Hpw' [[-> Hnil]|[H42 [r Hr]]]].
    + simpl. destruct (Nat.eqb_spec (t + length (rigid toks)) tend) as [E|E]; simpl.
      * eexists; split; [done|]. right. exists t. split; [done|]. right. exists [].
        split_and!; [done|split; [done|by left]|done|done].
      * replace (tend - (t + length (rigid toks) - t))%nat with (tend - length (rigid toks))%nat by lia.
        unfold wc_match_fragment.
        pose proof (fragment_spec mem tend mem_end pf w toks (tend - length (rigid toks)) (S (length w)) Hw Hp
                      ltac:(lia)) as Hfr2.
        unfold frag_ok in Hfr2. exists (inl (if rig mem tend (rigid toks) (tend - length (rigid toks)) then 1 else 0)).
        split; [|right; exists t; split; [done|left; split_and!; [done|lia|done]]].
        destruct (rig mem tend (rigid toks) (tend - length (rigid toks))); [|by rewrite Hfr2].
        by destruct Hfr2 as (w2 & -> & _).
    + rewrite H42. simpl. eexists; split; [done|]. right. exists t. split; [done|]. right.
      exists w'. split_and!; [done|split; [done|right; eauto]|done|by rewrite Hr].
  - rewrite Hfr. destruct (IH (S t)) as (res & -> & Hok); [lia..|]. exists res. split; [done|].
    destruct Hok as [[Hno ->]|(t0 & (Ht0 & Hrt0 & Hno) & Hres)].
    + left. split; [|done]. intros u Hu. destruct (decide (u = t)) as [->|]; [done|apply Hno; lia].
    + right. exists t0. split; [|done]. split_and!; [lia|lia|done|].
      intros u Hu. destruct (decide (u = t)) as [->|]; [done|apply Hno; lia].
Qed.

(** ** Stars in a row *)

Lemma skip_stars_spec w toks :
  parses w (WStar :: toks) ->
  exists toks', parses (skip_stars w) toks' /\ (length (skip_stars w) < length w)%nat /\
    hd0 (skip_stars w) <> 42 /\
    forall s, matches (WStar :: toks) s <-> matches (WStar :: toks') s.
Proof.
  revert toks; induction w as [|c w IH]; intros toks [Hw [[|fuel] Hp]]; try done.
  apply Forall_cons_iff in Hw as [Hc Hw]. cbn [wc_parse] in Hp. cbn [skip_stars].
  destruct (Z.eqb_spec c 42) as [->|Hne].
  2:{ repeat case_match; try done; apply fmap_Some in Hp as (? & _ & ?); simplify_eq. }
  apply fmap_Some in Hp as (toks1 & Hp & ?). simplify_eq.
  destruct (decide (hd0 w = 42)) as [E|E].
  - destruct w as [|c w]; [done|]. change (c = 42) in E. subst c.
    destruct fuel as [|fuel]; [done|]. pose proof Hp as Hp1. cbn [wc_parse] in Hp1. simpl in Hp1.
    apply fmap_Some in Hp1 as (toks2 & _ & ->).
    destruct (IH toks2) as (toks' & ? & ? & ? & Heq); [split; [done|by eexists]|].
    exists toks'. split_and!; [done|cbn [length] in *; lia|done|]. intros s. rewrite <- Heq. split.
    + inversion 1 as [|? k s' Hm|]; subst; [|done].
      inversion Hm as [|? k2 s2 Hm2|]; subst; [|done]. rewrite app_assoc. by constructor.
    + intros Hm. change s with ([] ++ s). by constructor.
  - exists toks1. replace (skip_stars w) with w.
    + split_and!; [split; [done|by eexists]|simpl; lia|done|done].
    + destruct w as [|c w]; [done|]. cbn [skip_stars]. change (c <> 42) in E.
      by rewrite (proj2 (Z.eqb_neq c 42)).
Qed.

Lemma rigid_nonempty w toks :
  parses w toks -> w <> [] -> hd0 w <> 42 -> rigid toks <> [].
Proof.
  intros [Hw [[|fuel] Hp]] Hne H42; [done|]. destruct w as [|c w]; [done|].
  cbn [wc_parse] in Hp. change (c <> 42) in H42. rewrite (proj2 (Z.eqb_neq c 42)) in Hp by done.
  repeat case_match; try done; apply fmap_Some in Hp as (? & _ & ->); done.
Qed.

(** The matcher's answer [ret], against the specification. *)
Definition decides (ret : option Z) (P : Prop) : Prop := (ret = Some 1 /\ P) \/ (ret = Some 0 /\ ~ P).

Lemma decides_iff ret P Q : (P <-> Q) -> decides ret P -> decides ret Q.
Proof. unfold decides. tauto. Qed.

Lemma decides_bool (b : bool) P : (b = true <-> P) -> decides (Some (if b then 1 else 0)) P.
Proof. unfold decides. destruct b; intuition congruence. Qed.

Let suf := suf mem tend.
Let rg := rig mem tend.

(** A star and a last fragment: the fragment must match at the end. *)
Lemma star_last r t :
  Forall not_star r -> (t <= tend - length r)%nat -> (length r <= tend)%nat ->
  matches (WStar :: r) (suf t) <-> rg r (tend - length r) = true.
Proof.
  intros Hr Ht Hl. unfold suf. pose proof mem_end.
  assert (forall u, (u <= tend)%nat -> matches r (Wildcard.suf mem tend u) <->
           rg r u = true /\ u + length r = tend)%nat as Hm.
  { intros u Hu. rewrite <- (app_nil_r r) at 1. rewrite matches_rigid, matches_nil by done.
    split; intros [Hrig E]; (split; [done|]);
      apply (rig_bound mem tend mem_end) in Hrig; try done; by apply (suf_nil mem tend mem_end). }
  rewrite matches_star by (done || lia). split.
  - intros (u & Hu & Hmu). apply Hm in Hmu as [Hrig E]; [|lia].
    by replace (tend - length r)%nat with u by lia.
  - intros Hrig. exists (tend - length r)%nat. split; [lia|]. apply Hm; [lia|]. split; [done|lia].
Qed.

(** A star, a fragment and another star: the leftmost match of the fragment is as
    good as any. *)
Lemma star_leftmost r rest t t0 :
  Forall not_star r -> leftmost r t t0 ->
  matches (WStar :: r ++ WStar :: rest) (suf t) <-> matches (WStar :: rest) (suf (t0 + length r)).
Proof.
  intros Hr (Ht0 & Hrig0 & Hno). unfold suf. pose proof mem_end.
  pose proof (rig_bound mem tend mem_end _ _ Hrig0 ltac:(lia)) as Hb0.
  rewrite matches_star by (done || lia). split.
  - intros (u & Hu & Hm). apply matches_rigid in Hm as [Hrig Hm]; [|done..|lia].
    assert (t0 <= u)%nat.
    { destruct (decide (t0 <= u)%nat); [done|]. rewrite Hno in Hrig by lia. done. }
    apply (rig_bound mem tend mem_end) in Hrig; [|lia].
    eapply matches_star_mono; [done| |exact Hm]. lia.
  - intros Hm. exists t0. split; [lia|]. apply matches_rigid; [done..|lia|]. done.
Qed.

Lemma star_none r rest t :
  Forall not_star r -> r <> [] -> (t <= tend)%nat ->
  (forall u, (t <= u < tend)%nat -> rg r u = false) ->
  ~ matches (WStar :: r ++ rest) (suf t).
Proof.
  intros Hr Hne Ht Hno Hm. unfold suf in Hm. pose proof mem_end.
  apply matches_star in Hm as (u & Hu & Hm); [|done..].
  apply matches_rigid in Hm as [Hrig _]; [|done..|lia].
  destruct (decide (u = tend)) as [->|]; [|rewrite Hno in Hrig; done || lia].
  apply (rig_bound mem tend mem_end) in Hrig; [|lia]. destruct r; simpl in *; [done|lia].
Qed.

Lemma inner_loop_spec fuel w toks t :
  frag_end w toks -> (t <= tend)%nat -> (length w < fuel)%nat ->
  decides (wc_inner_loop fuel w mem t tend) (matches toks (suf t)).
Proof.
  revert w toks t; induction fuel as [|fuel IH]; intros w toks t [Hp Hshape] Ht Hl; [lia|].
  pose proof mem_end. cbn [wc_inner_loop]. destruct Hshape as [[-> ->]|[H42 [toks' ->]]].
  { simpl. apply decides_bool. rewrite Nat.eqb_eq, <- (suf_nil mem tend mem_end t Ht).
    symmetry. apply matches_nil. }
  rewrite H42. change (42 =? 0) with false. change (negb (42 =? 42)) with false. cbv iota zeta.
  destruct (skip_stars_spec w toks' Hp) as (toks2 & Hp2 & Hlen & Hhd & Heq).
  eapply decides_iff; [symmetry; apply Heq|]. clear Heq.
  destruct (skip_stars w) as [|c w2] eqn:Ew.
  { simpl. left. split; [done|]. assert (toks2 = []) as ->.
    { destruct Hp2 as [_ [[|f] Hf]]; by simplify_eq/=. }
    apply matches_star; [done..|]. exists tend. split; [lia|].
    rewrite suf_end. constructor. }
  rewrite <- Ew in *. assert (hd0 (skip_stars w) <> 0) as Hc.
  { rewrite Ew. destruct Hp2 as [Hnz2 _]. rewrite Ew in Hnz2. by apply Forall_inv in Hnz2. }
  rewrite (proj2 (Z.eqb_neq _ 0)) by done.
  pose proof (rigid_nonempty _ _ Hp2 ltac:(by rewrite Ew) Hhd) as Hrne.
  pose proof (rigid_not_star toks2) as Hrs.
  destruct (search_spec (skip_stars w) toks2 t (S (length mem)) Hp2 Ht) as (res & -> & Hok).
  { unfold mem, tend. rewrite length_app. simpl. lia. }
  rewrite (rigid_split toks2).
  destruct Hok as [[Hno ->]|(t0 & Hlm & [(Hnil & Hlt & ->)|(w' & -> & Hend & Hlen' & Hfin)])].
  - right. split; [done|]. by apply star_none.
  - rewrite Hnil, app_nil_r. apply decides_bool. symmetry.
    destruct Hlm as (? & _). apply star_last; [done|lia..].
  - pose proof (rig_bound mem tend mem_end _ _ (proj1 (proj2 Hlm))) as Hb.
    destruct Hlm as (Ht0 & Hrig & Hno). specialize (Hb ltac:(lia)).
    eapply decides_iff; [|apply (IH w' (after_rigid toks2) (t0 + length (rigid toks2))%nat); [done|lia|lia]].
    destruct (after_rigid_shape toks2) as [E|[rest E]]; rewrite E.
    + rewrite app_nil_r. specialize (Hfin E). rewrite Hfin.
      rewrite star_last by (done || lia). replace (tend - length (rigid toks2))%nat with t0 by lia.
      unfold suf. rewrite suf_end, matches_nil.
      by destruct Hend.
    + symmetry. by apply star_leftmost.
Qed.

Lemma wc_match_decides w toks :
  parses w toks -> decides (wc_match w target) (matches toks target).
Proof.
  intros Hp. pose proof mem_end.
  assert (suf 0 = target) as E0.
  { unfold suf, Wildcard.suf, mem, tend. by rewrite drop_0, take_app_length. }
  rewrite <- E0 at 2. unfold wc_match, wc_match_inner. fold mem tend.
  destruct (Z.eqb_spec (hd0 w) 42) as [E|E]; simpl negb; cbv iota.
  - apply inner_loop_spec; [|lia..]. split; [done|]. right. split; [done|].
    destruct Hp as [_ [[|fuel] Hf]]; [done|]. destruct w as [|c w]; [done|].
    change (c = 42) in E. subst c. cbn [wc_parse] in Hf. simpl in Hf.
    apply fmap_Some in Hf as (r & _ & ->). eauto.
  - destruct Hp as [Hw [pf Hf]].
    pose proof (fragment_spec mem tend mem_end pf w toks 0 (S (length w)) Hw Hf ltac:(lia)) as Hfr.
    unfold wc_match_fragment. unfold frag_ok in Hfr. rewrite (rigid_split toks) at 1.
    pose proof (matches_rigid mem tend mem_end (rigid toks) (after_rigid toks) 0 (rigid_not_star toks)
                  ltac:(lia)) as Hm.
    destruct (rig mem tend (rigid toks) 0) eqn:Er.
    + destruct Hfr as (w' & -> & Hend & Hlen).
      eapply decides_iff; [symmetry; exact Hm|]. 
      eapply decides_iff; [|apply (inner_loop_spec _ w' (after_rigid toks)); [done| |lia]].
      * unfold suf. tauto.
      * by apply (rig_bound mem tend mem_end) in Er; [|lia].
    + rewrite Hfr. right. split; [done|]. unfold suf. rewrite Hm. by intros [].
Qed.
End Main.

(** C10. For every syntactically valid wildcard, [wc_match] returns 1 on exactly the
    strings the wildcard stands for and 0 on all others, although it never
    backtracks over an earlier fragment. *)
Theorem wc_match_correct (wildcard target : list Z) (toks : list wtok)
  (Hw : Forall (fun c => c <> 0) wildcard) (Ht : Forall (fun c => c <> 0) target)
  (Hp : wc_parse (S (length wildcard)) wildcard = Some toks) :
  (wc_match wildcard target = Some 1 /\ matches toks target) \/
  (wc_match wildcard target = Some 0 /\ ~ matches toks target).
Proof. apply wc_match_decides; [done|]. split; eauto. Qed.

Lemma wc_match_correct_witness :
  matches [WOne [(98, 98)] false; WStar; WOne [(97, 99); (33, 33)] true] (codes "bacd").
Proof.
  destruct (wc_match_correct (codes "b*[^a-c!]") (codes "bacd")
    [WOne [(98, 98)] false; WStar; WOne [(97, 99); (33, 33)] true]) as [[_ H]|[H _]];
    [by vm_compute; repeat constructor..|reflexivity|exact H|discriminate H].
Defined.

(** ** Escaped names *)

Lemma unescape_parse fuel w out toks :
  (length w < fuel)%nat -> Forall (fun c => c <> 0) w ->
  wc_unescape w = Some out -> wc_parse fuel w = Some toks ->
  toks = (fun c => WOne [(c, c)] false) <$> out.
Proof.
  revert w out toks; induction fuel as [|fuel IH]; intros w out toks Hl Hw Hu Hp; [lia|].
  destruct w as [|c w]; [by simplify_eq/=|]. apply Forall_cons_iff in Hw as [Hc Hw].
  cbn [wc_unescape wc_parse length] in *. destruct (Z.eqb_spec c 92) as [->|H92].
  { change (92 =? 42) with false in Hp. cbv iota in Hp. destruct w as [|d w]; [done|].
    apply Forall_cons_iff in Hw as [_ Hw].
    apply fmap_Some in Hu as (o & Hu & ->), Hp as (t & Hp & ->). simpl in *. f_equal.
    eapply IH; [|done..]. lia. }
  destruct ((c =? 42) || (c =? 63) || (c =? 91) || (c =? 93)) eqn:E; [done|]. bsimpl.
  rewrite !(proj2 (Z.eqb_neq c _)) in Hp by done.
  apply fmap_Some in Hu as (o & Hu & ->), Hp as (t & Hp & ->). simpl. f_equal.
  eapply IH; [|done..]. lia.
Qed.

Lemma matches_literal out s :
  matches ((fun c => WOne [(c, c)] false) <$> out) s <-> s = out.
Proof.
  revert s; induction out as [|c out IH]; intros s; simpl; [apply matches_nil|]. split.
  - inversion 1 as [| |? ? d ? Ha Hm]; subst. rewrite accepts_lit in Ha. bsimpl. subst.
    f_equal. by apply IH.
  - intros ->. apply m_one; [rewrite accepts_lit; apply Z.eqb_refl|by apply IH].
Qed.

(** When [wc_unescape] accepts a wildcard as a plain (escaped) file name, the name
    it returns is the one and only string the wildcard matches. *)
Theorem wc_unescape_unique_match (wildcard out target : list Z) (toks : list wtok)
  (Hw : Forall (fun c => c <> 0) wildcard) (Ht : Forall (fun c => c <> 0) target)
  (Hp : wc_parse (S (length wildcard)) wildcard = Some toks)
  (Hu : wc_unescape wildcard = Some out) :
  wc_match wildcard target = Some (if bool_decide (target = out) then 1 else 0).
Proof.
  pose proof (unescape_parse (S (length wildcard)) wildcard out toks ltac:(lia) Hw Hu Hp) as ->.
  pose proof (wc_match_decides target Ht wildcard _ (conj Hw (ex_intro _ _ Hp))) as Hd.
  unfold decides in Hd. rewrite matches_literal in Hd. case_bool_decide; naive_solver.
Qed.


(** [wc_match_pl] looks for the end of its target by testing for a NUL, not by
    comparing with [target_end]: it reads beyond a target that no NUL follows, and
    it does not find a match that lies behind a NUL in the target. *)
Theorem wc_match_pl_needs_nul :
  wc_match_pl (codes "*c") (codes "ab") [] = None /\
  wc_match_pl (codes "*b") [0; 98] [0] = Some 0 /\
  matches [WStar; WOne [(98, 98)] false] [0; 98].
Proof.
  split_and!; [reflexivity..|]. apply (m_star _ [0] [98]). apply m_one; [reflexivity|constructor].
Qed.
