(* ===== verification/Mpint.v ===== *)
(** * Multiprecision integers: words, linear arithmetic, comparison, shifts

    The first part of mpint.c.  An [mp_int] is the array of its words, least
    significant first; [x->nw] is the length of the list.  The build modelled is
    the first branch of mpint_i.h: a 64-bit [BignumInt] with a 128-bit double-width
    type; [size_t] and [uintmax_t] have 64 bits.

    Functions that write into an existing number ([mp_add_into (r, a, b)], ...) only
    use the length [rw] of their destination and give its new words.  Section
    [InPlace] shows that running the same loops inside one of their own inputs, as
    the callers do, writes the same words.

    Every operation is specified by an equation [op = mp_of rw v], where [mp_of rw v]
    is the [rw]-word representation of [v] modulo [2 ^ (64 * rw)]. *)

From S2P Require Import Prelude Memory.

Open Scope word_scope.

Definition BIGNUM_INT_BITS_BITS : Z := 6.
Definition BIGNUM_INT_BITS : Z := 1 << BIGNUM_INT_BITS_BITS.
Definition BIGNUM_INT_BYTES : Z := BIGNUM_INT_BITS / 8.
(** [~(BignumInt)0] *)
Definition ones64 : Z := 2 ^ 64 - 1.

Abbreviation mp_int := (list Z).

Definition size_t_min (a b : nat) : nat := if (a <? b)%nat then a else b.
Definition size_t_max (a b : nat) : nat := if (b <? a)%nat then a else b.

(** ** The macros of mpint_i.h *)

Definition BignumADC (a b c : Z) : Z * Z :=
  let t := wrap 128 (wrap 128 (u64 a + u64 b) + c) in (u64 t, u64 (t >> 64)).

(** The high and the low word of the double-width result. *)
Definition BignumMULADD (a b addend : Z) : Z * Z :=
  let t := wrap 128 (wrap 128 (u64 a * u64 b) + u64 addend) in (u64 (t >> 64), u64 t).

Definition BignumMULADD2 (a b addend1 addend2 : Z) : Z * Z :=
  let t := wrap 128 (wrap 128 (wrap 128 (u64 a * u64 b) + u64 addend1) + u64 addend2) in
  (u64 (t >> 64), u64 t).

(** ** Words and construction *)

Definition mp_word (x : mp_int) (i : nat) : Z := nth i x 0.

Definition shift_right_by_one_word (n : Z) : Z :=
  let shift_too_big := 8 <=? BIGNUM_INT_BYTES in
  if shift_too_big then 0 else n >> (if shift_too_big then 0 else BIGNUM_INT_BITS).

Definition shift_left_by_one_word (n : Z) : Z :=
  let shift_too_big := 8 <=? BIGNUM_INT_BYTES in
  if shift_too_big then 0 else u64 (n << (if shift_too_big then 0 else BIGNUM_INT_BITS)).

Definition mp_make_sized (nw : nat) : option mp_int :=
  assert! (0 <? nw)%nat; Some (replicate nw 0).

Definition mp_new (maxbits : Z) : option mp_int :=
  mp_make_sized (Z.to_nat (u64 (maxbits + BIGNUM_INT_BITS - 1) / BIGNUM_INT_BITS)).

Definition mp_from_integer (n : Z) : option mp_int :=
  x ← mp_make_sized (Z.to_nat ((8 + BIGNUM_INT_BYTES - 1) / BIGNUM_INT_BYTES));
  Some ((fun i => u64 (n >> (Z.of_nat i * BIGNUM_INT_BITS))) <$> seq 0 (length x)).

Definition mp_max_bytes (x : mp_int) : Z := len x * BIGNUM_INT_BYTES.
Definition mp_max_bits (x : mp_int) : Z := len x * BIGNUM_INT_BITS.

Definition mp_copy_into (rw : nat) (src : mp_int) : mp_int :=
  let copy_nw := size_t_min rw (length src) in
  take copy_nw src ++ replicate (rw - copy_nw) 0.

Fixpoint mp_copy_integer_into (rw : nat) (n : Z) : mp_int :=
  match rw with
  | O => []
  | S rw => u64 n :: mp_copy_integer_into rw (shift_right_by_one_word n)
  end.

Definition mp_from_words (nw : nat) (w : list Z) : option mp_int :=
  x ← mp_make_sized nw; Some (take (length x) w).
Definition mp_copy (x : mp_int) : option mp_int := mp_from_words (length x) x.

Definition mp_select_into (rw : nat) (src0 src1 : mp_int) (which : Z) : mp_int :=
  let mask := u64 (- (1 .& which)) in
  (fun i => let srcword0 := mp_word src0 i in let srcword1 := mp_word src1 i in
            srcword0 .^ ((srcword1 .^ srcword0) .& mask)) <$> seq 0 rw.

Definition mp_cond_swap (x0 x1 : mp_int) (swap : Z) : option (mp_int * mp_int) :=
  assert! (length x0 =? length x1)%nat;
  let mask := u64 (- (1 .& swap)) in
  let diff i := (mp_word x0 i .^ mp_word x1 i) .& mask in
  Some ((fun i => mp_word x0 i .^ diff i) <$> seq 0 (length x0),
        (fun i => mp_word x1 i .^ diff i) <$> seq 0 (length x0)).

Definition mp_clear (x : mp_int) : mp_int := replicate (length x) 0.

Definition mp_cond_clear (x : mp_int) (clear : Z) : mp_int :=
  let mask := u64 (Z.lnot (u64 (- (1 .& clear)))) in
  (fun w => w .& mask) <$> x.

(** ** Single bits and bytes *)

Definition mp_get_byte (x : mp_int) (byte : Z) : Z :=
  255 .& (mp_word x (Z.to_nat (byte / BIGNUM_INT_BYTES)) >> (8 * (byte mod BIGNUM_INT_BYTES))).

Definition mp_get_bit (x : mp_int) (bit : Z) : Z :=
  1 .& (mp_word x (Z.to_nat (bit / BIGNUM_INT_BITS)) >> (bit mod BIGNUM_INT_BITS)).

Definition mp_get_integer (x : mp_int) : Z :=
  fold_right (fun w toret => shift_left_by_one_word toret .| w) 0 x.

Definition mp_set_bit (x : mp_int) (bit val : Z) : option mp_int :=
  let word := Z.to_nat (bit / BIGNUM_INT_BITS) in
  assert! (word <? length x)%nat;
  let shift := bit mod BIGNUM_INT_BITS in
  let w := mp_word x word .& u64 (Z.lnot (u64 (1 << shift))) in
  Some (<[word := w .| u64 ((val .& 1) << shift)]> x).

Definition normalise_to_1 (n : Z) : Z :=
  let n := (n >> 1) .| (n .& 1) in
  u64 (- n) >> (BIGNUM_INT_BITS - 1).

(** ** Addition, subtraction, bitwise operations *)

Definition mp_make_alias (x : mp_int) (offset n : nat) : mp_int :=
  let offset := if (length x <? offset)%nat then length x else offset in
  let n := if (length x - offset <? n)%nat then (length x - offset)%nat else n in
  take n (drop offset x).

(** The words and the final carry, from word [i] on. *)
Fixpoint mp_add_masked_loop (rw i : nat) (a b : mp_int) (b_and b_xor carry : Z) : mp_int * Z :=
  match rw with
  | O => ([], carry)
  | S rw =>
      let bword := (mp_word b i .& b_and) .^ b_xor in
      let '(out, carry) := BignumADC (mp_word a i) bword carry in
      let '(w_out, carry) := mp_add_masked_loop rw (S i) a b b_and b_xor carry in
      (out :: w_out, carry)
  end.
Definition mp_add_masked_into (rw : nat) (a b : mp_int) (b_and b_xor carry : Z) : mp_int * Z :=
  mp_add_masked_loop rw 0 a b b_and b_xor carry.

Definition mp_add_into_internal (rw : nat) (a b : mp_int) : mp_int * Z :=
  mp_add_masked_into rw a b ones64 0 0.
Definition mp_add_into (rw : nat) (a b : mp_int) : mp_int := fst (mp_add_into_internal rw a b).
Definition mp_sub_into (rw : nat) (a b : mp_int) : mp_int :=
  fst (mp_add_masked_into rw a b ones64 ones64 1).

Definition mp_and_into (rw : nat) (a b : mp_int) : mp_int :=
  (fun i => mp_word a i .& mp_word b i) <$> seq 0 rw.
Definition mp_or_into (rw : nat) (a b : mp_int) : mp_int :=
  (fun i => mp_word a i .| mp_word b i) <$> seq 0 rw.
Definition mp_xor_into (rw : nat) (a b : mp_int) : mp_int :=
  (fun i => mp_word a i .^ mp_word b i) <$> seq 0 rw.
Definition mp_bic_into (rw : nat) (a b : mp_int) : mp_int :=
  (fun i => mp_word a i .& u64 (Z.lnot (mp_word b i))) <$> seq 0 rw.

Fixpoint mp_cond_negate_loop (rw i : nat) (x : mp_int) (flip carry : Z) : mp_int :=
  match rw with
  | O => []
  | S rw =>
      let xword := mp_word x i .^ flip in
      let '(out, carry) := BignumADC 0 xword carry in
      out :: mp_cond_negate_loop rw (S i) x flip carry
  end.
Definition mp_cond_negate (rw : nat) (x : mp_int) (yes : Z) : mp_int :=
  mp_cond_negate_loop rw 0 x (u64 (- yes)) yes.

Fixpoint mp_add_masked_integer_loop (rw i : nat) (a : mp_int) (b b_and b_xor carry : Z)
  : mp_int * Z :=
  match rw with
  | O => ([], carry)
  | S rw =>
      let bword := u64 b in
      let b := shift_right_by_one_word b in
      let bword := (bword .^ b_xor) .& b_and in
      let '(out, carry) := BignumADC (mp_word a i) bword carry in
      let '(w_out, carry) := mp_add_masked_integer_loop rw (S i) a b b_and b_xor carry in
      (out :: w_out, carry)
  end.
Definition mp_add_integer_into (rw : nat) (a : mp_int) (n : Z) : mp_int :=
  fst (mp_add_masked_integer_loop rw 0 a n ones64 0 0).
Definition mp_sub_integer_into (rw : nat) (a : mp_int) (n : Z) : mp_int :=
  fst (mp_add_masked_integer_loop rw 0 a n ones64 ones64 1).

Fixpoint mp_add_shifted_loop (rw i : nat) (a : mp_int) (n : Z) (word_index : Z)
    (indicator carry : Z) : mp_int :=
  match rw with
  | O => []
  | S rw =>
      let indicator := indicator .| (1 .^ normalise_to_1 (Z.of_nat i .^ word_index)) in
      let bword := n .& u64 (- indicator) in
      let new_n := shift_right_by_one_word n in
      let n := n .^ ((n .^ new_n) .& u64 (- indicator)) in
      let '(out, carry) := BignumADC (mp_word a i) bword carry in
      out :: mp_add_shifted_loop rw (S i) a n word_index indicator carry
  end.
Definition mp_add_integer_into_shifted_by_words (rw : nat) (a : mp_int) (n word_index : Z) : mp_int :=
  mp_add_shifted_loop rw 0 a n word_index 0 0.

Fixpoint mp_mul_integer_loop (rw i : nat) (a : mp_int) (mult carry : Z) : mp_int * Z :=
  match rw with
  | O => ([], carry)
  | S rw =>
      let '(carry, out) := BignumMULADD (mp_word a i) mult carry in
      let '(w_out, carry) := mp_mul_integer_loop rw (S i) a mult carry in
      (out :: w_out, carry)
  end.
Definition mp_mul_integer_into (rw : nat) (a : mp_int) (n : Z) : option mp_int :=
  let '(w, carry) := mp_mul_integer_loop rw 0 a n 0 in
  assert! carry =? 0; Some w.

Definition mp_cond_add_into (rw : nat) (a b : mp_int) (yes : Z) : mp_int :=
  let mask := u64 (- (yes .& 1)) in
  fst (mp_add_masked_into rw a b mask 0 0).
Definition mp_cond_sub_into (rw : nat) (a b : mp_int) (yes : Z) : mp_int :=
  let mask := u64 (- (yes .& 1)) in
  fst (mp_add_masked_into rw a b mask mask (1 .& mask)).

(** ** Comparison *)

Definition mp_cmp_hs (a b : mp_int) : Z :=
  let rw := size_t_max (length a) (length b) in
  snd (mp_add_masked_into rw a b ones64 ones64 1).

Fixpoint mp_hs_integer_loop (e i : nat) (x : mp_int) (n carry : Z) : Z :=
  match e with
  | O => carry
  | S e =>
      let nword := u64 n in
      let n := shift_right_by_one_word n in
      let '(_, carry) := BignumADC (mp_word x i) (u64 (Z.lnot nword)) carry in
      mp_hs_integer_loop e (S i) x n carry
  end.
Definition mp_hs_integer (x : mp_int) (n : Z) : Z :=
  let nwords := Z.to_nat (8 / BIGNUM_INT_BYTES) in
  mp_hs_integer_loop (size_t_max (length x) nwords) 0 x n 1.

Definition mp_cmp_eq (a b : mp_int) : Z :=
  let limit := size_t_max (length a) (length b) in
  let diff := fold_left (fun diff i => diff .| (mp_word a i .^ mp_word b i)) (seq 0 limit) 0 in
  1 .^ normalise_to_1 diff.

Fixpoint mp_eq_integer_loop (e i : nat) (x : mp_int) (n diff : Z) : Z :=
  match e with
  | O => diff
  | S e =>
      let nword := u64 n in
      let n := shift_right_by_one_word n in
      mp_eq_integer_loop e (S i) x n (diff .| (mp_word x i .^ nword))
  end.
Definition mp_eq_integer (x : mp_int) (n : Z) : Z :=
  let nwords := Z.to_nat (8 / BIGNUM_INT_BYTES) in
  1 .^ normalise_to_1 (mp_eq_integer_loop (size_t_max (length x) nwords) 0 x n 0).

Definition mp_neg_into (rw : nat) (a : mp_int) : mp_int :=
  let zero := [] in mp_sub_into rw zero a.

Definition mp_add (x y : mp_int) : option mp_int :=
  r ← mp_make_sized (size_t_max (length x) (length y) + 1);
  Some (mp_add_into (length r) x y).
Definition mp_sub (x y : mp_int) : option mp_int :=
  r ← mp_make_sized (size_t_max (length x) (length y));
  Some (mp_sub_into (length r) x y).

(** ** Shifts by a public amount *)

Definition mp_lshift_fixed_into (rw : nat) (a : mp_int) (bits : Z) : mp_int :=
  let words := Z.to_nat (bits / BIGNUM_INT_BITS) in
  let bitoff := bits mod BIGNUM_INT_BITS in
  (fun i =>
     if (i <? words)%nat then 0
     else let w := mp_word a (i - words) in
          if bitoff =? 0 then w else
          let w := u64 (w << bitoff) in
          if (words <? i)%nat
          then w .| (mp_word a (i - words - 1) >> (BIGNUM_INT_BITS - bitoff)) else w)
  <$> seq 0 rw.

Definition mp_rshift_fixed_into (rw : nat) (a : mp_int) (bits : Z) : mp_int :=
  let words := Z.to_nat (bits / BIGNUM_INT_BITS) in
  let bitoff := bits mod BIGNUM_INT_BITS in
  (fun i =>
     let w := mp_word a (i + words) in
     if bitoff =? 0 then w else
     (w >> bitoff) .| u64 (mp_word a (i + words + 1) << (BIGNUM_INT_BITS - bitoff)))
  <$> seq 0 rw.

Definition mp_lshift_fixed (x : mp_int) (bits : Z) : option mp_int :=
  let words := u64 (bits + BIGNUM_INT_BITS - 1) / BIGNUM_INT_BITS in
  r ← mp_make_sized (length x + Z.to_nat words);
  Some (mp_lshift_fixed_into (length r) x bits).

Definition mp_rshift_fixed (x : mp_int) (bits : Z) : option mp_int :=
  let words := Z.to_nat (bits / BIGNUM_INT_BITS) in
  let nw := (length x - size_t_min (length x) words)%nat in
  r ← mp_make_sized (size_t_max nw 1);
  Some (mp_rshift_fixed_into (length r) x bits).

Fixpoint mp_reduce_mod_2to_loop (x : mp_int) (mask : Z) : mp_int :=
  match x with [] => [] | w :: x => (w .& mask) :: mp_reduce_mod_2to_loop x 0 end.
Definition mp_reduce_mod_2to (x : mp_int) (p : Z) : mp_int :=
  let word := Z.to_nat (p / BIGNUM_INT_BITS) in
  let mask := u64 (u64 (1 << (p mod BIGNUM_INT_BITS)) - 1) in
  take word x ++ mp_reduce_mod_2to_loop (drop word x) mask.

(** ** Smaller and larger *)

Definition mp_min_into (rw : nat) (x y : mp_int) : mp_int := mp_select_into rw x y (mp_cmp_hs x y).
Definition mp_max_into (rw : nat) (x y : mp_int) : mp_int := mp_select_into rw y x (mp_cmp_hs x y).
Definition mp_min (x y : mp_int) : option mp_int :=
  r ← mp_make_sized (size_t_min (length x) (length y)); Some (mp_min_into (length r) x y).
Definition mp_max (x y : mp_int) : option mp_int :=
  r ← mp_make_sized (size_t_max (length x) (length y)); Some (mp_max_into (length r) x y).
Definition mp_power_2 (power : Z) : option mp_int :=
  x ← mp_new (u64 (power + 1)); mp_set_bit x power 1.

(** ** The number an array of words stands for *)

Definition WB : Z := 2 ^ 64.
Definition wpow (n : nat) : Z := WB ^ Z.of_nat n.

Fixpoint mp_val (x : mp_int) : Z :=
  match x with [] => 0 | w :: x => w + WB * mp_val x end.
Abbreviation mp_ok := (Forall (word_ok 64)).

(** The [n]-word representation of [v] modulo [WB ^ n]. *)
Fixpoint mp_of (n : nat) (v : Z) : mp_int :=
  match n with O => [] | S n => v mod WB :: mp_of n (v / WB) end.

Lemma WB_pos : 0 < WB.
Proof. done. Qed.

Lemma wpow_0 : wpow 0 = 1.
Proof. done. Qed.

Lemma wpow_S n : wpow (S n) = WB * wpow n.
Proof. unfold wpow. rewrite Nat2Z.inj_succ, Z.pow_succ_r; lia. Qed.

Lemma wpow_pos n : 0 < wpow n.
Proof. apply Z.pow_pos_nonneg; [done|lia]. Qed.

Lemma wpow_add m n : wpow (m + n) = wpow m * wpow n.
Proof. unfold wpow. rewrite Nat2Z.inj_add, Z.pow_add_r; lia. Qed.

Lemma wpow_pow2 n : wpow n = 2 ^ (64 * Z.of_nat n).
Proof. unfold wpow, WB. rewrite <- Z.pow_mul_r; lia. Qed.

Lemma wpow_le m n : (m <= n)%nat -> wpow m <= wpow n.
Proof. intros. apply Z.pow_le_mono_r; [done|lia]. Qed.

Lemma word_WB w : word_ok 64 w -> 0 <= w < WB.
Proof. done. Qed.

Lemma mod_WB_ok v : word_ok 64 (v mod WB).
Proof. apply Z.mod_pos_bound, WB_pos. Qed.
#[export] Hint Resolve mod_WB_ok WB_pos wpow_pos : ssh.

(** Quotient and remainder by a product: the step of every word-by-word proof. *)
Lemma mod_mul_step v n : 0 < n -> v mod (WB * n) = v mod WB + WB * (v / WB mod n).
Proof. intros. rewrite Z.rem_mul_r by (pose proof WB_pos; lia). lia. Qed.

Lemma div_mul_step v n : 0 < n -> v / (WB * n) = v / WB / n.
Proof. intros. rewrite Z.div_div; [done|pose proof WB_pos; lia|lia]. Qed.

Section Representation.
Implicit Types (x : mp_int) (n : nat) (v : Z).

Lemma length_mp_of n v : length (mp_of n v) = n.
Proof. revert v; induction n; intros; simpl; auto. Qed.

Lemma mp_of_ok n v : mp_ok (mp_of n v).
Proof. revert v; induction n; intros; simpl; constructor; auto with ssh. Qed.

Lemma mp_val_of n v : mp_val (mp_of n v) = v mod wpow n.
Proof.
  revert v; induction n as [|n IH]; intros v; simpl; [by rewrite wpow_0, Z.mod_1_r|].
  rewrite IH, wpow_S, mod_mul_step; auto with ssh.
Qed.

Lemma mp_val_bound x : mp_ok x -> 0 <= mp_val x < wpow (length x).
Proof.
  induction 1 as [|w x Hw Hx IH]; simpl; [done|]. rewrite wpow_S.
  apply word_WB in Hw as []. nia.
Qed.

Lemma mp_of_val x : mp_ok x -> mp_of (length x) (mp_val x) = x.
Proof.
  induction 1 as [|w x Hw Hx IH]; simpl; [done|]. apply word_WB in Hw. f_equal.
  - rewrite Z.mul_comm, Z.mod_add, Z.mod_small; lia.
  - rewrite Z.mul_comm, Z.div_add, Z.div_small, Z.add_0_l by lia. done.
Qed.

Lemma mp_of_mod n v : mp_of n (v mod wpow n) = mp_of n v.
Proof.
  rewrite <- mp_val_of. rewrite <- (length_mp_of n v) at 1. by apply mp_of_val, mp_of_ok.
Qed.

(** Two numbers of the same residue have the same words. *)
Lemma mp_of_eq n v w : v mod wpow n = w mod wpow n -> mp_of n v = mp_of n w.
Proof. intros E. by rewrite <- mp_of_mod, E, mp_of_mod. Qed.

Lemma mp_of_inv x n v :
  mp_ok x -> length x = n -> mp_val x = v mod wpow n -> x = mp_of n v.
Proof. intros Hx <- E. by rewrite <- (mp_of_val x Hx) at 1; rewrite E, mp_of_mod. Qed.

Lemma mp_val_small n v : 0 <= v < wpow n -> mp_val (mp_of n v) = v.
Proof. intros. by rewrite mp_val_of, Z.mod_small. Qed.

Lemma mp_of_0 n : mp_of n 0 = replicate n 0.
Proof. induction n; simpl; [done|]. by rewrite Z.div_0_l, IHn by done. Qed.

Lemma mp_val_app x y : mp_val (x ++ y) = mp_val x + wpow (length x) * mp_val y.
Proof.
  induction x as [|w x IH]; [cbn [length]; rewrite wpow_0; cbn; lia|].
  change (length (w :: x)) with (S (length x)). rewrite wpow_S. simpl. rewrite IH. ring.
Qed.

Lemma mp_of_app m n v : mp_of (m + n) v = mp_of m v ++ mp_of n (v / wpow m).
Proof.
  revert v; induction m as [|m IH]; intros v; simpl; [by rewrite wpow_0, Z.div_1_r|].
  by rewrite IH, wpow_S, div_mul_step by auto with ssh.
Qed.

Lemma take_mp_of m n v : (m <= n)%nat -> take m (mp_of n v) = mp_of m v.
Proof.
  intros. replace n with (m + (n - m))%nat by lia. rewrite mp_of_app.
  apply take_app_length'. by rewrite length_mp_of.
Qed.

Lemma drop_mp_of m n v : (m <= n)%nat -> drop m (mp_of n v) = mp_of (n - m) (v / wpow m).
Proof.
  intros. replace n with (m + (n - m))%nat at 1 by lia. rewrite mp_of_app.
  apply drop_app_length'. by rewrite length_mp_of.
Qed.

Lemma mp_ok_single w : word_ok 64 w -> mp_ok [w].
Proof. by constructor. Qed.

Lemma mp_val_0 x : mp_ok x -> mp_val x = 0 -> x = replicate (length x) 0.
Proof. intros Hx E. by rewrite <- mp_of_0, <- E, mp_of_val. Qed.

Lemma mp_val_zeros n : mp_val (replicate n 0) = 0.
Proof. rewrite <- mp_of_0, mp_val_of. apply Z.mod_0_l. pose proof (wpow_pos n); lia. Qed.

(** *** Words *)

Lemma mp_word_ok x i : mp_ok x -> word_ok 64 (mp_word x i).
Proof.
  intros Hx. unfold mp_word. destruct (Nat.lt_ge_cases i (length x)).
  - eapply List.Forall_forall; [exact Hx|by apply nth_In].
  - by rewrite nth_overflow.
Qed.

Lemma mp_word_val x i : mp_ok x -> mp_word x i = mp_val x / wpow i mod WB.
Proof.
  intros Hx. revert i. induction Hx as [|w x Hw Hx IH]; intros i.
  { simpl mp_val. rewrite Z.div_0_l by (pose proof (wpow_pos i); lia). by destruct i. }
  simpl mp_val. apply word_WB in Hw. destruct i as [|i].
  - rewrite wpow_0, Z.div_1_r, Z.mul_comm, Z.mod_add, Z.mod_small by lia. done.
  - rewrite wpow_S, div_mul_step by auto with ssh.
    rewrite Z.mul_comm, Z.div_add, (Z.div_small w), Z.add_0_l by lia. apply IH.
Qed.

Lemma mp_word_of n v i : (i < n)%nat -> mp_word (mp_of n v) i = v / wpow i mod WB.
Proof.
  revert v i; induction n as [|n IH]; intros v i Hi; [lia|]. destruct i as [|i]; simpl.
  - by rewrite wpow_0, Z.div_1_r.
  - unfold mp_word; simpl. fold (mp_word (mp_of n (v / WB)) i).
    rewrite IH, wpow_S, div_mul_step by (auto with ssh || lia). done.
Qed.

Lemma mp_word_high x i : (length x <= i)%nat -> mp_word x i = 0.
Proof. apply nth_overflow. Qed.

(** The words of a loop [for (i = k; i < k + n; i++) r->w[i] = f(i)]. *)
Lemma words_fmap (f : nat -> Z) v k n :
  (forall i, (k <= i < k + n)%nat -> f i = v / wpow i mod WB) ->
  f <$> seq k n = mp_of n (v / wpow k).
Proof.
  revert k; induction n as [|n IH]; intros k Hf; simpl; [done|].
  f_equal; [apply Hf; lia|]. rewrite IH by (intros; apply Hf; lia).
  f_equal. rewrite wpow_S, Z.mul_comm, <- Z.div_div; auto with ssh.
  pose proof (wpow_pos k); lia.
Qed.

Lemma words_fmap0 (f : nat -> Z) v n :
  (forall i, (i < n)%nat -> f i = v / wpow i mod WB) -> f <$> seq 0 n = mp_of n v.
Proof. intros. rewrite words_fmap with (v := v), wpow_0, Z.div_1_r by (intros; auto with lia). done. Qed.

(** The words of [x], missing ones read as zero. *)
Lemma words_mp_word x n : mp_ok x -> mp_word x <$> seq 0 n = mp_of n (mp_val x).
Proof. intros. apply words_fmap0. intros. by apply mp_word_val. Qed.
End Representation.
#[export] Hint Resolve mp_of_ok mp_word_ok : ssh.
#[export] Hint Rewrite length_mp_of : len.

(** ** Words under the bit tricks of the code *)

Lemma u64_WB v : u64 v = v mod WB.
Proof. done. Qed.

Lemma BignumADC_spec a b c :
  word_ok 64 a -> word_ok 64 b -> 0 <= c <= 1 ->
  BignumADC a b c = ((a + b + c) mod WB, (a + b + c) / WB).
Proof.
  intros Ha Hb Hc. unfold BignumADC. rewrite !(wrap_id 64 a), !(wrap_id 64 b) by done.
  unfold word_ok in *. rewrite (wrap_id 128 (a + b)), (wrap_id 128 (a + b + c)) by (unfold word_ok; zdivmod).
  rewrite shiftr_div by lia. f_equal. apply wrap_id. unfold word_ok, WB. zdivmod.
Qed.

Lemma BignumMULADD2_spec a b c d :
  word_ok 64 a -> word_ok 64 b -> word_ok 64 c -> word_ok 64 d ->
  BignumMULADD2 a b c d = ((a * b + c + d) / WB, (a * b + c + d) mod WB).
Proof.
  intros Ha Hb Hc Hd. unfold BignumMULADD2.
  rewrite !(wrap_id 64 a), !(wrap_id 64 b), !(wrap_id 64 c), !(wrap_id 64 d) by done.
  apply word_WB in Ha as [], Hb as [], Hc as [], Hd as [].
  assert (0 <= a * b + c + d < WB * WB) by nia.
  change (2 ^ 128) with (WB * WB) in *. unfold word_ok, wrap in *.
  change (2 ^ 128) with (WB * WB).
  rewrite (Z.mod_small (a * b)), (Z.mod_small (a * b + c)), (Z.mod_small (a * b + c + d)) by nia.
  rewrite shiftr_div by lia. f_equal. apply Z.mod_small.
  change (2 ^ 64) with WB.
  split; [apply Z.div_pos; [lia|done]|]. apply Z.div_lt_upper_bound; [done|lia].
Qed.

Lemma BignumMULADD_spec a b c :
  word_ok 64 a -> word_ok 64 b -> word_ok 64 c ->
  BignumMULADD a b c = ((a * b + c) / WB, (a * b + c) mod WB).
Proof.
  intros. pose proof (BignumMULADD2_spec a b c 0) as E. rewrite Z.add_0_r in E.
  rewrite <- E by done. unfold BignumMULADD, BignumMULADD2.
  rewrite (wrap_id 64 0), Z.add_0_r by done. by rewrite wrap_wrap.
Qed.

Lemma land_ones64 w : word_ok 64 w -> Z.land w ones64 = w.
Proof. intros. unfold ones64. rewrite land_mask by lia. by apply wrap_id. Qed.

Lemma lxor_ones64 w : word_ok 64 w -> Z.lxor w ones64 = ones64 - w.
Proof.
  intros Hw. assert (Z.land w (Z.lxor w ones64) = 0) as E.
  { apply Z.bits_inj'. intros i Hi. rewrite Z.land_spec, Z.lxor_spec, Z.bits_0.
    change ones64 with (Z.ones 64). destruct (Z.lt_ge_cases i 64).
    - rewrite Z.ones_spec_low by lia. by destruct (Z.testbit w i).
    - by rewrite (testbit_high 64 w) by (done || lia). }
  apply Z.add_nocarry_lxor in E. rewrite <- Z.lxor_assoc, Z.lxor_nilpotent, Z.lxor_0_l in E. lia.
Qed.

Lemma u64_lnot w : word_ok 64 w -> u64 (Z.lnot w) = ones64 - w.
Proof. intros []. unfold wrap, ones64, Z.lnot in *. zdivmod. Qed.

Lemma ones64_ok : word_ok 64 ones64.
Proof. done. Qed.
#[export] Hint Resolve ones64_ok : ssh.

(** The mask [-(BignumInt)c] of a 0/1 value. *)
Lemma mask_b2z (c : bool) : u64 (- Z.b2z c) = if c then ones64 else 0.
Proof. by destruct c. Qed.

Lemma land_b2z c : Z.land 1 (Z.b2z c) = Z.b2z c.
Proof. by destruct c. Qed.

Lemma land_1_odd n : Z.land 1 n = Z.b2z (Z.odd n).
Proof. rewrite Z.land_comm, land_1. apply Zmod_odd. Qed.

(** [a ^ ((b ^ a) & mask)] selects. *)
Lemma select_word (c : bool) x y :
  word_ok 64 x -> word_ok 64 y ->
  Z.lxor x (Z.land (Z.lxor y x) (if c then ones64 else 0)) = if c then y else x.
Proof.
  intros Hx Hy. destruct c; [|by rewrite Z.land_0_r, Z.lxor_0_r].
  rewrite land_ones64 by (apply lxor_ok; done || lia).
  by rewrite (Z.lxor_comm y), <- Z.lxor_assoc, Z.lxor_nilpotent, Z.lxor_0_l.
Qed.

Lemma normalise_to_1_spec n : word_ok 64 n -> normalise_to_1 n = Z.b2z (negb (n =? 0)).
Proof.
  intros [H0 H1]. unfold normalise_to_1.
  rewrite land_1, (shiftr_div n) by lia.
  set (m := Z.lor _ _).
  assert (word_ok 63 m) as [].
  { apply lor_ok; [lia|split; zdivmod|split; zdivmod]. }
  destruct (Z.eqb_spec n 0) as [->|Hn]; [done|].
  assert (m <> 0). { intros E. apply Z.lor_eq_0_iff in E. zdivmod. }
  change (BIGNUM_INT_BITS - 1) with 63. rewrite shiftr_div by lia. unfold wrap. cbn -[Z.div Z.modulo Z.pow].
  zdivmod.
Qed.

(** ** Ripple-carry addition of two word lists *)

Fixpoint add_words (aw bw : list Z) (carry : Z) : list Z * Z :=
  match aw, bw with
  | a :: aw, b :: bw =>
      let '(out, carry) := BignumADC a b carry in
      let '(outs, carry) := add_words aw bw carry in (out :: outs, carry)
  | _, _ => ([], carry)
  end.

Lemma add_words_spec aw bw c :
  mp_ok aw -> mp_ok bw -> length aw = length bw -> 0 <= c <= 1 ->
  add_words aw bw c = (mp_of (length aw) (mp_val aw + mp_val bw + c),
                       (mp_val aw + mp_val bw + c) / wpow (length aw)).
Proof.
  intros Ha. revert bw c.
  induction Ha as [|a aw Ha Haw IH]; intros [|b bw] c Hb Hl Hc; try discriminate Hl.
  { cbn -[Z.div]. by rewrite wpow_0, Z.div_1_r. }
  apply Forall_cons_iff in Hb as [Hb Hbw]. injection Hl as Hl.
  cbn [add_words]. rewrite BignumADC_spec by done.
  assert (0 <= (a + b + c) / WB <= 1).
  { destruct Ha, Hb. unfold WB. zdivmod. }
  rewrite IH by done. cbn [mp_val mp_of length].
  replace (a + WB * mp_val aw + (b + WB * mp_val bw) + c)
    with (a + b + c + (mp_val aw + mp_val bw) * WB) by ring.
  rewrite wpow_S, div_mul_step, Z.mod_add, Z.div_add by (auto with ssh || done).
  f_equal; [f_equal; f_equal|f_equal]; ring.
Qed.

(** The value of a complemented number. *)
Lemma words_lnot v i : (ones64 - v / wpow i mod WB) = (- v - 1) / wpow i mod WB.
Proof.
  pose proof (wpow_pos i). replace (- v - 1) with (Z.lnot v) by (unfold Z.lnot; lia).
  assert (Z.lnot v / wpow i = Z.lnot (v / wpow i)) as ->.
  { rewrite !wpow_pow2, <- !Z.shiftr_div_pow2 by lia.
    apply Z.bits_inj'. intros. rewrite Z.lnot_spec, !Z.shiftr_spec, Z.lnot_spec by lia. done. }
  unfold Z.lnot, ones64, WB. generalize (v / wpow i). intros. zdivmod.
Qed.

Lemma mod_lnot v m : 0 < m -> (- v - 1) mod m = m - 1 - v mod m.
Proof.
  intros. symmetry. apply (Z.mod_unique _ _ (- (v / m) - 1)).
  - left. pose proof (Z.mod_pos_bound v m). lia.
  - pose proof (Z.div_mod v m). lia.
Qed.

Lemma fmap_words_ok (f : nat -> Z) l : (forall i, word_ok 64 (f i)) -> mp_ok (f <$> l).
Proof. intros. apply Forall_fmap, Forall_forall. auto. Qed.

(** ** Linear operations *)

Section Linear.
Context (a b : mp_int) (Ha : mp_ok a) (Hb : mp_ok b).

Lemma mp_add_masked_loop_words rw i b_and b_xor c :
  mp_add_masked_loop rw i a b b_and b_xor c
  = add_words (mp_word a <$> seq i rw)
              ((fun j => Z.lxor (Z.land (mp_word b j) b_and) b_xor) <$> seq i rw) c.
Proof.
  revert i c; induction rw as [|rw IH]; intros i c; [done|].
  cbn [mp_add_masked_loop seq fmap list_fmap add_words]. destruct (BignumADC _ _ _). by rewrite IH.
Qed.

(** [bv] is the number the masked words of [b] spell out. *)
Lemma mp_add_masked_spec rw b_and b_xor c bv :
  0 <= c <= 1 ->
  (forall i, Z.lxor (Z.land (mp_word b i) b_and) b_xor = bv / wpow i mod WB) ->
  mp_add_masked_into rw a b b_and b_xor c
  = (mp_of rw (mp_val a + bv + c), (mp_val a mod wpow rw + bv mod wpow rw + c) / wpow rw).
Proof.
  intros Hc Hbv. unfold mp_add_masked_into. rewrite mp_add_masked_loop_words.
  rewrite words_mp_word, (words_fmap0 _ bv) by auto.
  rewrite add_words_spec by (rewrite ?length_mp_of; auto with ssh).
  rewrite !length_mp_of, !mp_val_of. f_equal. apply mp_of_eq.
  rewrite <- Z.add_mod_idemp_l, <- Z.add_mod, Z.add_mod_idemp_l; pose proof (wpow_pos rw); lia.
Qed.

Lemma mask_keep i : Z.lxor (Z.land (mp_word b i) ones64) 0 = mp_val b / wpow i mod WB.
Proof. rewrite Z.lxor_0_r, land_ones64 by auto with ssh. by apply mp_word_val. Qed.

Lemma mask_flip i : Z.lxor (Z.land (mp_word b i) ones64) ones64 = (- mp_val b - 1) / wpow i mod WB.
Proof.
  rewrite land_ones64, lxor_ones64 by auto with ssh. rewrite mp_word_val by done. apply words_lnot.
Qed.

Lemma mask_drop i : Z.lxor (Z.land (mp_word b i) 0) 0 = 0 / wpow i mod WB.
Proof. rewrite Z.land_0_r, Z.div_0_l; [done|]. pose proof (wpow_pos i); lia. Qed.

Lemma mp_add_into_internal_spec rw :
  mp_add_into_internal rw a b
  = (mp_of rw (mp_val a + mp_val b), (mp_val a mod wpow rw + mp_val b mod wpow rw) / wpow rw).
Proof.
  unfold mp_add_into_internal. rewrite (mp_add_masked_spec _ _ _ _ (mp_val b)); [|lia|exact mask_keep].
  by rewrite !Z.add_0_r.
Qed.

Lemma mp_add_into_spec rw : mp_add_into rw a b = mp_of rw (mp_val a + mp_val b).
Proof. unfold mp_add_into. by rewrite mp_add_into_internal_spec. Qed.

Lemma mp_sub_masked_spec rw :
  mp_add_masked_into rw a b ones64 ones64 1
  = (mp_of rw (mp_val a - mp_val b), Z.b2z (mp_val b mod wpow rw <=? mp_val a mod wpow rw)).
Proof.
  rewrite (mp_add_masked_spec _ _ _ _ (- mp_val b - 1)); [|lia|exact mask_flip].
  pose proof (wpow_pos rw). f_equal; [f_equal; lia|]. rewrite mod_lnot by done.
  pose proof (Z.mod_pos_bound (mp_val a) (wpow rw)). pose proof (Z.mod_pos_bound (mp_val b) (wpow rw)).
  symmetry. destruct (Z.leb_spec (mp_val b mod wpow rw) (mp_val a mod wpow rw)); cbn [Z.b2z];
    eapply Z.div_unique; [left|idtac|left|idtac];
    [|instantiate (1 := mp_val a mod wpow rw - mp_val b mod wpow rw)| |
      instantiate (1 := mp_val a mod wpow rw + (wpow rw - mp_val b mod wpow rw))]; lia.
Qed.

Lemma mp_sub_into_spec rw : mp_sub_into rw a b = mp_of rw (mp_val a - mp_val b).
Proof. unfold mp_sub_into. by rewrite mp_sub_masked_spec. Qed.

Lemma mp_cond_add_into_spec rw c :
  mp_cond_add_into rw a b (Z.b2z c) = mp_of rw (mp_val a + if c then mp_val b else 0).
Proof.
  unfold mp_cond_add_into. rewrite Z.land_comm, land_b2z, mask_b2z.
  rewrite (mp_add_masked_spec _ _ _ _ (if c then mp_val b else 0)); [cbn; f_equal; lia|lia|].
  destruct c; [exact mask_keep|exact mask_drop].
Qed.

Lemma mp_cond_sub_into_spec rw c :
  mp_cond_sub_into rw a b (Z.b2z c) = mp_of rw (mp_val a - if c then mp_val b else 0).
Proof.
  unfold mp_cond_sub_into. rewrite Z.land_comm, land_b2z, mask_b2z. destruct c.
  - change (Z.land 1 ones64) with 1. by rewrite mp_sub_masked_spec.
  - change (Z.land 1 0) with 0.
    rewrite (mp_add_masked_spec _ _ _ _ 0); [cbn; f_equal; lia|lia|exact mask_drop].
Qed.

Lemma size_t_max_spec m n : size_t_max m n = Nat.max m n.
Proof. unfold size_t_max. destruct (Nat.ltb_spec n m); lia. Qed.

Lemma size_t_min_spec m n : size_t_min m n = Nat.min m n.
Proof. unfold size_t_min. destruct (Nat.ltb_spec m n); lia. Qed.

Lemma mp_val_lt_max : mp_val a < wpow (Nat.max (length a) (length b)).
Proof.
  pose proof (mp_val_bound a Ha). pose proof (wpow_le (length a) (Nat.max (length a) (length b))). lia.
Qed.
End Linear.

(** ** Comparison *)

Section Compare.
Context (a b : mp_int) (Ha : mp_ok a) (Hb : mp_ok b).

Lemma mp_val_mod_max :
  let rw := Nat.max (length a) (length b) in
  mp_val a mod wpow rw = mp_val a /\ mp_val b mod wpow rw = mp_val b.
Proof using Ha Hb.
  pose proof (mp_val_bound a Ha). pose proof (mp_val_bound b Hb).
  pose proof (mp_val_lt_max a b Ha). pose proof (mp_val_lt_max b a Hb) as H2.
  rewrite Nat.max_comm in H2. split; apply Z.mod_small; lia.
Qed.

Lemma mp_cmp_hs_spec : mp_cmp_hs a b = Z.b2z (mp_val b <=? mp_val a).
Proof using Ha Hb.
  unfold mp_cmp_hs. rewrite size_t_max_spec, mp_sub_masked_spec by done. cbn [snd].
  by destruct mp_val_mod_max as [-> ->].
Qed.

Lemma fold_lor_zero (f : nat -> Z) l acc :
  fold_left (fun d i => Z.lor d (f i)) l acc = 0 <-> acc = 0 /\ Forall (fun i => f i = 0) l.
Proof using.
  revert acc; induction l as [|i l IH]; intros acc; simpl; [rewrite Forall_nil; tauto|].
  rewrite IH, Z.lor_eq_0_iff, Forall_cons. tauto.
Qed.

Lemma fold_lor_ok (f : nat -> Z) l acc :
  word_ok 64 acc -> (forall i, word_ok 64 (f i)) ->
  word_ok 64 (fold_left (fun d i => Z.lor d (f i)) l acc).
Proof using.
  intros Hacc Hf. revert acc Hacc; induction l as [|i l IH]; intros acc Hacc; simpl; [done|].
  apply IH, lor_ok; [lia|done|apply Hf].
Qed.

Lemma words_equal rw :
  Forall (fun i => mp_word a i = mp_word b i) (seq 0 rw) <-> mp_of rw (mp_val a) = mp_of rw (mp_val b).
Proof using Ha Hb.
  rewrite <- !words_mp_word by done. split; intros E.
  - apply list_fmap_ext. intros i j Hj. apply (proj1 (Forall_lookup _ _) E i j Hj).
  - apply List.Forall_forall. intros i Hi. exact (ext_in_map E i Hi).
Qed.

Lemma mp_cmp_eq_spec : mp_cmp_eq a b = Z.b2z (mp_val a =? mp_val b).
Proof using Ha Hb.
  unfold mp_cmp_eq. rewrite size_t_max_spec. set (diff := fold_left _ _ _).
  assert (word_ok 64 diff) by (apply (fold_lor_ok (fun i => Z.lxor (mp_word a i) (mp_word b i))); [done|auto with ssh]).
  assert (diff = 0 <-> mp_val a = mp_val b) as Hd.
  { unfold diff. rewrite fold_lor_zero. destruct mp_val_mod_max as [Ea Eb].
    transitivity (Forall (fun i => mp_word a i = mp_word b i) (seq 0 (Nat.max (length a) (length b)))).
    - rewrite !List.Forall_forall. setoid_rewrite Z.lxor_eq_0_iff. tauto.
    - rewrite words_equal. split; [|by intros ->]. intros E. apply (f_equal mp_val) in E.
      rewrite !mp_val_of in E. congruence. }
  rewrite normalise_to_1_spec by done.
  destruct (Z.eqb_spec diff 0), (Z.eqb_spec (mp_val a) (mp_val b)); tauto || done.
Qed.
End Compare.

Section WithInteger.
Context (x : mp_int) (n : Z) (Hx : mp_ok x) (Hn : word_ok 64 n).

Lemma shift_right_by_one_word_spec m : word_ok 64 m -> shift_right_by_one_word m = m / WB.
Proof using. intros Hm. symmetry. apply Z.div_small. exact Hm. Qed.

Lemma mp_add_masked_integer_loop_words rw i m b_xor c :
  word_ok 64 m -> word_ok 64 b_xor ->
  mp_add_masked_integer_loop rw i x m ones64 b_xor c
  = add_words (mp_word x <$> seq i rw) ((fun w => Z.lxor w b_xor) <$> mp_of rw m) c.
Proof using.
  intros Hm Hb. revert i m c Hm; induction rw as [|rw IH]; intros i m c Hm; [done|].
  cbn [mp_add_masked_integer_loop seq fmap list_fmap add_words mp_of].
  rewrite land_ones64, u64_WB by auto with ssh lia.
  destruct (BignumADC _ _ _). rewrite shift_right_by_one_word_spec by done.
  rewrite IH; [done|]. rewrite Z.div_small by done. done.
Qed.

Lemma lxor_words rw m :
  (fun w => Z.lxor w ones64) <$> mp_of rw m = mp_of rw (- m - 1).
Proof using.
  revert m; induction rw as [|rw IH]; intros m; [done|]. cbn [mp_of fmap list_fmap].
  rewrite lxor_ones64 by auto with ssh. unfold fmap in IH. rewrite IH. f_equal.
  - pose proof (words_lnot m 0) as E. by rewrite wpow_0, !Z.div_1_r in E.
  - f_equal. unfold WB. zdivmod.
Qed.

Lemma mp_add_integer_into_spec rw : mp_add_integer_into rw x n = mp_of rw (mp_val x + n).
Proof using Hx Hn.
  unfold mp_add_integer_into. rewrite mp_add_masked_integer_loop_words by done.
  rewrite words_mp_word by done.
  rewrite (list_fmap_ext _ id) by (intros; apply Z.lxor_0_r). rewrite list_fmap_id.
  rewrite add_words_spec by (rewrite ?length_mp_of; auto with ssh; lia). cbn [fst].
  rewrite length_mp_of, !mp_val_of, Z.add_0_r. apply mp_of_eq.
  rewrite <- Z.add_mod; [done|]. pose proof (wpow_pos rw); lia.
Qed.

Lemma mp_sub_integer_into_spec rw : mp_sub_integer_into rw x n = mp_of rw (mp_val x - n).
Proof using Hx Hn.
  unfold mp_sub_integer_into. rewrite mp_add_masked_integer_loop_words by done.
  rewrite words_mp_word, lxor_words by done.
  rewrite add_words_spec by (rewrite ?length_mp_of; auto with ssh; lia). cbn [fst].
  rewrite length_mp_of, !mp_val_of. apply mp_of_eq.
  pose proof (wpow_pos rw).
  rewrite <- Z.add_mod_idemp_l, <- Z.add_mod, Z.add_mod_idemp_l by lia. f_equal. lia.
Qed.

Lemma mp_hs_integer_loop_words e i m c :
  word_ok 64 m ->
  mp_hs_integer_loop e i x m c
  = snd (add_words (mp_word x <$> seq i e) ((fun w => Z.lxor w ones64) <$> mp_of e m) c).
Proof using.
  revert i m c; induction e as [|e IH]; intros i m c Hm; [done|].
  cbn [mp_hs_integer_loop seq fmap list_fmap add_words mp_of].
  rewrite lxor_ones64, u64_lnot, u64_WB by auto with ssh.
  destruct (BignumADC _ _ _) as [o c']. rewrite shift_right_by_one_word_spec by done.
  rewrite IH by (rewrite Z.div_small by done; done). unfold fmap.
  by destruct (add_words _ _ c').
Qed.

Lemma mp_hs_integer_spec : mp_hs_integer x n = Z.b2z (n <=? mp_val x).
Proof using Hx Hn.
  unfold mp_hs_integer. rewrite mp_hs_integer_loop_words by done.
  change (Z.to_nat (8 / BIGNUM_INT_BYTES)) with 1%nat.
  rewrite size_t_max_spec. set (rw := Nat.max _ _).
  pose proof (mp_sub_masked_spec x [n] Hx (mp_ok_single n Hn) rw) as E.
  unfold mp_add_masked_into in E. rewrite mp_add_masked_loop_words, words_mp_word in E by done.
  rewrite (words_fmap0 _ (- mp_val [n] - 1)) in E
    by (intros; apply mask_flip, mp_ok_single, Hn).
  rewrite lxor_words, words_mp_word by done. cbn [mp_val] in E. rewrite Z.mul_0_r, Z.add_0_r in E. rewrite E.
  cbn [snd]. destruct (mp_val_mod_max x [n] Hx (mp_ok_single n Hn)) as [Ex En].
  cbn [length mp_val] in *. rewrite Z.mul_0_r, Z.add_0_r in En. fold rw in Ex, En. by rewrite Ex, En.
Qed.

Lemma mp_eq_integer_spec : mp_eq_integer x n = Z.b2z (mp_val x =? n).
Proof using Hx Hn.
  transitivity (mp_cmp_eq x [n]).
  2: { rewrite mp_cmp_eq_spec by (by try apply mp_ok_single). cbn [mp_val].
       by rewrite Z.mul_0_r, Z.add_0_r. }
  unfold mp_eq_integer, mp_cmp_eq. change (Z.to_nat (8 / BIGNUM_INT_BYTES)) with 1%nat.
  cbn [length]. do 2 f_equal. generalize (size_t_max (length x) 1). intros e.
  assert (forall k i acc, word_ok 64 k ->
    mp_eq_integer_loop e i x k acc
    = fold_left (fun d j => Z.lor d (Z.lxor (mp_word x j) (mp_word [k] (j - i)))) (seq i e) acc) as H.
  { clear. induction e as [|e IH]; intros k i acc Hk; [done|].
    cbn [mp_eq_integer_loop seq fold_left]. rewrite Nat.sub_diag, u64_WB.
    rewrite shift_right_by_one_word_spec, Z.div_small by done. rewrite IH by done.
    change (mp_word [k] 0) with k. rewrite (Z.mod_small k) by done.
    apply fold_left_ext_in. intros d j Hj. apply in_seq in Hj. f_equal. f_equal.
    replace (j - i)%nat with (S (j - S i)) by lia.
    unfold mp_word. by destruct (j - S i)%nat as [|[|]]. }
  rewrite H by done. apply fold_left_ext_in. intros d j _. by rewrite Nat.sub_0_r.
Qed.
End WithInteger.

(** ** Bits of words *)

Lemma word_bits v i k :
  0 <= k -> Z.testbit (v / wpow i mod WB) k = (k <? 64) && Z.testbit v (k + 64 * Z.of_nat i).
Proof.
  intros Hk. unfold WB. rewrite wpow_pow2. destruct (Z.ltb_spec k 64); cbn [andb].
  - rewrite Z.mod_pow2_bits_low, Z.div_pow2_bits by lia. done.
  - by rewrite Z.mod_pow2_bits_high by lia.
Qed.

Lemma mp_word_bits x i k :
  mp_ok x -> 0 <= k ->
  Z.testbit (mp_word x i) k = (k <? 64) && Z.testbit (mp_val x) (k + 64 * Z.of_nat i).
Proof. intros. rewrite mp_word_val by done. by apply word_bits. Qed.

Lemma u64_bits v k : 0 <= k -> Z.testbit (u64 v) k = (k <? 64) && Z.testbit v k.
Proof.
  intros. pose proof (word_bits v 0 k) as E. rewrite wpow_0, Z.div_1_r, Z.add_0_r in E. by apply E.
Qed.

Lemma mp_eq_words x n v :
  length x = n -> (forall i, (i < n)%nat -> mp_word x i = v / wpow i mod WB) -> x = mp_of n v.
Proof.
  intros Hl H. rewrite <- (words_fmap0 (mp_word x) v n) by done. subst n.
  clear. apply list_eq. intros i. rewrite list_lookup_fmap.
  destruct (Nat.lt_ge_cases i (length x)).
  - rewrite lookup_seq_lt by done. cbn. unfold mp_word. rewrite nth_lookup.
    destruct (lookup_lt_is_Some_2 x i) as [y ->]; done.
  - rewrite !lookup_ge_None_2; [done|by rewrite length_seq|done].
Qed.

(** Split an integer equality into its bits. *)
Ltac bitwise k Hk := apply Z.bits_inj'; intros k Hk.
(** Case on a comparison, discharging the impossible side. *)
Ltac bit_cases :=
  repeat (first
    [ rewrite Z.testbit_neg_r by lia
    | match goal with
      | |- context [?a <? ?b] => destruct (Z.ltb_spec a b)
      | |- context [?a <=? ?b] => destruct (Z.leb_spec a b)
      end ]; cbn [andb orb negb]; rewrite ?andb_false_r, ?orb_false_r, ?andb_true_r);
  try lia.

Section Copying.
Context (x y : mp_int) (Hx : mp_ok x) (Hy : mp_ok y).

Lemma mp_make_sized_spec n : (0 < n)%nat -> mp_make_sized n = Some (mp_of n 0).
Proof using. intros. unfold mp_make_sized. rewrite mp_of_0. by destruct n; [lia|]. Qed.

Lemma mp_copy_into_spec rw : mp_copy_into rw x = mp_of rw (mp_val x).
Proof using Hx.
  unfold mp_copy_into. rewrite size_t_min_spec, <- mp_of_0.
  destruct (Nat.le_gt_cases rw (length x)).
  - rewrite Nat.min_l, Nat.sub_diag, app_nil_r by lia. rewrite <- (mp_of_val x Hx) at 1.
    by apply take_mp_of.
  - rewrite Nat.min_r, take_ge by lia.
    replace rw with (length x + (rw - length x))%nat at 2 by lia.
    rewrite mp_of_app, mp_of_val, Z.div_small by (done || by apply mp_val_bound). done.
Qed.

Lemma mp_copy_spec : (0 < length x)%nat -> mp_copy x = Some x.
Proof using.
  intros. unfold mp_copy, mp_from_words. rewrite mp_make_sized_spec by done.
  cbn. by rewrite length_mp_of, take_ge.
Qed.

Lemma mp_select_into_spec rw c :
  mp_select_into rw x y (Z.b2z c) = mp_of rw (if c then mp_val y else mp_val x).
Proof using Hx Hy.
  unfold mp_select_into. rewrite land_b2z, mask_b2z. apply words_fmap0. intros i _.
  cbn beta zeta. rewrite select_word by auto with ssh. destruct c; by apply mp_word_val.
Qed.

Lemma mp_cond_swap_spec c :
  length x = length y ->
  mp_cond_swap x y (Z.b2z c) = Some (if c then (y, x) else (x, y)).
Proof using Hx Hy.
  intros Hl. unfold mp_cond_swap. rewrite land_b2z, mask_b2z, (proj2 (Nat.eqb_eq _ _) Hl).
  f_equal. assert (forall u v, mp_ok u -> mp_ok v -> length u = length y -> length v = length y ->
    (fun i => Z.lxor (mp_word u i) (Z.land (Z.lxor (mp_word v i) (mp_word u i)) (if c then ones64 else 0)))
      <$> seq 0 (length x) = if c then v else u) as Hsel.
  { intros u v Hu Hv Lu Lv. rewrite (words_fmap0 _ (if c then mp_val v else mp_val u)).
    - rewrite Hl. destruct c; [rewrite <- Lv|rewrite <- Lu]; by apply mp_of_val.
    - intros i _. rewrite select_word by auto with ssh. destruct c; by apply mp_word_val. }
  transitivity ((if c then y else x), (if c then x else y)); [|by destruct c].
  f_equal; [|by apply (Hsel y x)]. etrans; [|by apply (Hsel x y)].
  apply list_fmap_ext. intros. by rewrite (Z.lxor_comm (mp_word y _)).
Qed.
End Copying.

Lemma b2z_testbit_ne c k : k <> 0 -> Z.testbit (Z.b2z c) k = false.
Proof. intros. destruct (Z.lt_ge_cases k 0); [by apply Z.testbit_neg_r|]. apply (testbit_high 1); [|lia]. by destruct c. Qed.

Section Shifts.
Context (x : mp_int) (Hx : mp_ok x).

Lemma bits_split bits :
  0 <= bits ->
  exists words off, Z.to_nat (bits / BIGNUM_INT_BITS) = words /\ bits mod BIGNUM_INT_BITS = off
    /\ bits = 64 * Z.of_nat words + off /\ 0 <= off < 64.
Proof using.
  intros. change BIGNUM_INT_BITS with 64. exists (Z.to_nat (bits / 64)), (bits mod 64).
  split_and!; [done|done|zdivmod..].
Qed.

Lemma mp_lshift_fixed_into_spec rw bits :
  0 <= bits -> mp_lshift_fixed_into rw x bits = mp_of rw (mp_val x * 2 ^ bits).
Proof using Hx.
  intros Hb. unfold mp_lshift_fixed_into. destruct (bits_split bits Hb) as (words&off&->&->&E&Hoff).
  apply words_fmap0. intros i _. rewrite <- Z.shiftl_mul_pow2 by done. bitwise k Hk.
  rewrite word_bits, Z.shiftl_spec by lia. change BIGNUM_INT_BITS with 64.
  destruct (Nat.ltb_spec i words).
  { rewrite Z.bits_0. destruct (Z.ltb_spec k 64); [|done]. by rewrite Z.testbit_neg_r by lia. }
  destruct (Z.eqb_spec off 0).
  { rewrite mp_word_bits by done. f_equal. f_equal. lia. }
  destruct (Nat.ltb_spec words i).
  - rewrite Z.lor_spec, u64_bits, Z.shiftl_spec, Z.shiftr_spec by lia.
    destruct (Z.lt_ge_cases k off).
    + rewrite (Z.testbit_neg_r _ (k - off)) by lia. rewrite mp_word_bits by (done || lia).
      rewrite andb_false_r, (proj2 (Z.ltb_lt k 64)), (proj2 (Z.ltb_lt (k + (64 - off)) 64)) by lia.
      cbn [andb orb]. f_equal. lia.
    + rewrite !mp_word_bits by (done || lia). bit_cases; cbn [andb orb]; f_equal; lia.
  - assert (i = words) by lia. subst i. rewrite u64_bits, Z.shiftl_spec by lia.
    destruct (Z.lt_ge_cases k off).
    + rewrite !Z.testbit_neg_r by lia. done.
    + rewrite mp_word_bits by (done || lia). bit_cases; f_equal; lia.
Qed.

Lemma mp_rshift_fixed_into_spec rw bits :
  0 <= bits -> mp_rshift_fixed_into rw x bits = mp_of rw (mp_val x / 2 ^ bits).
Proof using Hx.
  intros Hb. unfold mp_rshift_fixed_into. destruct (bits_split bits Hb) as (words&off&->&->&E&Hoff).
  apply words_fmap0. intros i _. rewrite <- Z.shiftr_div_pow2 by done. bitwise k Hk.
  rewrite word_bits, Z.shiftr_spec by lia. change BIGNUM_INT_BITS with 64.
  destruct (Z.eqb_spec off 0).
  { rewrite mp_word_bits by done. f_equal. f_equal. lia. }
  rewrite Z.lor_spec, u64_bits, Z.shiftl_spec, Z.shiftr_spec by lia.
  destruct (Z.lt_ge_cases (k - (64 - off)) 0).
  - rewrite (Z.testbit_neg_r _ (k - _)) by lia.
    rewrite mp_word_bits by (done || lia). bit_cases; f_equal; lia.
  - rewrite !mp_word_bits by (done || lia). bit_cases; cbn [andb orb]; f_equal; lia.
Qed.

Lemma mp_reduce_loop_zero l : mp_reduce_mod_2to_loop l 0 = replicate (length l) 0.
Proof using. induction l as [|w l IH]; simpl; [done|]. by rewrite Z.land_0_r, IH. Qed.

Lemma mp_reduce_mod_2to_spec p :
  0 <= p -> mp_reduce_mod_2to x p = mp_of (length x) (mp_val x mod 2 ^ p).
Proof using Hx.
  intros Hp. unfold mp_reduce_mod_2to. destruct (bits_split p Hp) as (words&off&->&->&E&Hoff).
  assert (u64 (u64 (Z.shiftl 1 off) - 1) = 2 ^ off - 1) as ->.
  { rewrite Z.shiftl_1_l. pose proof (pow2_pos off). pose proof (Z.pow_lt_mono_r 2 off 64).
    rewrite (wrap_id 64 (2 ^ off)), wrap_id; [done|split; lia..]. }
  rewrite <- (mp_of_val x Hx) at 1 2. set (v := mp_val x).
  destruct (Nat.le_gt_cases (length x) words).
  { rewrite take_ge, drop_ge by (rewrite length_mp_of; lia). rewrite app_nil_r.
    rewrite (Z.mod_small v); [done|]. pose proof (mp_val_bound x Hx).
    rewrite wpow_pow2 in *. pose proof (Z.pow_le_mono_r 2 (64 * Z.of_nat (length x)) p). lia. }
  rewrite take_mp_of, drop_mp_of by lia.
  replace (length x - words)%nat with (S (length x - words - 1)) by lia.
  cbn [mp_of mp_reduce_mod_2to_loop].
  rewrite mp_reduce_loop_zero, length_mp_of, land_mask by lia.
  replace (length x) with (words + S (length x - words - 1))%nat at 2 by lia.
  rewrite mp_of_app. assert (v mod 2 ^ p / wpow words = v / wpow words mod 2 ^ off) as ->.
  { rewrite wpow_pow2. bitwise k Hk. rewrite Z.div_pow2_bits by lia.
    destruct (Z.lt_ge_cases k off).
    - rewrite !Z.mod_pow2_bits_low, Z.div_pow2_bits by lia. done.
    - rewrite !Z.mod_pow2_bits_high by lia. done. }
  f_equal.
  - apply mp_of_eq. rewrite wpow_pow2. bitwise k Hk.
    destruct (Z.lt_ge_cases k (64 * Z.of_nat words)).
    + rewrite !Z.mod_pow2_bits_low by lia. done.
    + rewrite !Z.mod_pow2_bits_high by lia. done.
  - cbn [mp_of]. set (u := v / wpow words). pose proof (pow2_pos off).
    pose proof (Z.mod_pos_bound u (2 ^ off)). pose proof (Z.pow_lt_mono_r 2 off 64).
    rewrite (Z.mod_small (u mod 2 ^ off) WB), (Z.div_small (u mod 2 ^ off) WB) by (unfold WB; lia).
    rewrite mp_of_0. f_equal. change (u64 u mod 2 ^ off = u mod 2 ^ off).
    apply (wrap_wrap_le 64 off). lia.
Qed.

Lemma mp_get_bit_spec bit :
  0 <= bit -> mp_get_bit x bit = Z.b2z (Z.testbit (mp_val x) bit).
Proof using Hx.
  intros Hb. unfold mp_get_bit. destruct (bits_split bit Hb) as (words&off&->&->&E&Hoff).
  rewrite land_1_odd, <- Z.bit0_odd, Z.shiftr_spec, mp_word_bits by (done || lia).
  bit_cases. do 2 f_equal. lia.
Qed.

Lemma mp_get_byte_spec byte :
  0 <= byte -> mp_get_byte x byte = mp_val x / 2 ^ (8 * byte) mod 256.
Proof using Hx.
  intros Hb. unfold mp_get_byte. rewrite Z.land_comm, land_255.
  change BIGNUM_INT_BYTES with 8. change 256 with (2 ^ 8). bitwise k Hk.
  destruct (Z.lt_ge_cases k 8); [|by rewrite !Z.mod_pow2_bits_high by lia].
  rewrite !Z.mod_pow2_bits_low, Z.div_pow2_bits by lia.
  rewrite Z.shiftr_spec, mp_word_bits by (try done; zdivmod).
  rewrite (proj2 (Z.ltb_lt _ 64)) by zdivmod. cbn [andb]. f_equal. zdivmod.
Qed.

Lemma mp_word_insert i j w :
  (i < length x)%nat -> mp_word (<[i := w]> x) j = if decide (i = j) then w else mp_word x j.
Proof using.
  intros. unfold mp_word. rewrite !nth_lookup. destruct (decide (i = j)) as [->|].
  - by rewrite list_lookup_insert_eq.
  - by rewrite list_lookup_insert_ne.
Qed.

Lemma mp_set_bit_spec bit c :
  0 <= bit < 64 * len x ->
  mp_set_bit x bit (Z.b2z c)
  = Some (mp_of (length x) (if c then Z.setbit (mp_val x) bit else Z.clearbit (mp_val x) bit)).
Proof using Hx.
  intros [Hb Hlt]. unfold mp_set_bit, len in *.
  destruct (bits_split bit Hb) as (words&off&->&->&E&Hoff).
  destruct (Nat.ltb_spec words (length x)); [|lia]. f_equal. apply mp_eq_words; [by rewrite length_insert|].
  intros i Hi. rewrite mp_word_insert by done. rewrite (Z.land_comm (Z.b2z c)), land_b2z.
  bitwise k Hk. rewrite word_bits by done.
  assert (Z.testbit (if c then Z.setbit (mp_val x) bit else Z.clearbit (mp_val x) bit) (k + 64 * Z.of_nat i)
    = if decide (k + 64 * Z.of_nat i = bit) then c else Z.testbit (mp_val x) (k + 64 * Z.of_nat i)) as ->.
  { destruct c; [rewrite Z.setbit_eqb by lia|rewrite Z.clearbit_eqb by lia];
      destruct (Z.eqb_spec bit (k + 64 * Z.of_nat i)), (decide (k + 64 * Z.of_nat i = bit)); try lia;
      cbn; by rewrite ?andb_true_r, ?andb_false_r. }
  destruct (decide (words = i)) as [->|].
  - rewrite Z.lor_spec, Z.land_spec, !u64_bits, Z.lnot_spec, u64_bits, mp_word_bits, !Z.shiftl_spec by (done || lia).
    destruct (Z.ltb_spec k 64); cbn [andb]; [|done].
    destruct (decide (k + _ = bit)).
    + replace (k - off) with 0 by lia. cbn. rewrite andb_false_r. by destruct c.
    + change 1 with (Z.b2z true). rewrite !b2z_testbit_ne, orb_false_r, andb_true_r by lia. done.
  - rewrite mp_word_bits by done. destruct (decide (k + _ = bit)), (Z.ltb_spec k 64); done || lia.
Qed.
End Shifts.

Section More.
Context (x y : mp_int) (Hx : mp_ok x) (Hy : mp_ok y).

Lemma mp_from_integer_spec n : word_ok 64 n -> mp_from_integer n = Some [n].
Proof using.
  intros Hn. unfold mp_from_integer. change (Z.to_nat _) with 1%nat.
  rewrite mp_make_sized_spec by lia. cbn [mbind option_bind]. rewrite length_mp_of.
  change (Some [u64 (Z.shiftr n 0)] = Some [n]). by rewrite Z.shiftr_0_r, wrap_id.
Qed.

Lemma mp_copy_integer_into_spec rw n : word_ok 64 n -> mp_copy_integer_into rw n = mp_of rw n.
Proof using.
  revert n; induction rw as [|rw IH]; intros n Hn; cbn [mp_copy_integer_into mp_of]; [done|].
  by rewrite IH, shift_right_by_one_word_spec by done.
Qed.

Lemma mp_get_integer_spec : (0 < length x)%nat -> mp_get_integer x = mp_val x mod WB.
Proof using Hx.
  intros Hl. destruct Hx as [|w l Hw _]; [simpl in Hl; lia|].
  cbn [mp_val]. rewrite Z.mul_comm, Z.mod_add, Z.mod_small by done. cbn. by rewrite Z.lor_0_l.
Qed.

Lemma mp_neg_into_spec rw : mp_neg_into rw x = mp_of rw (- mp_val x).
Proof using Hx. unfold mp_neg_into. by rewrite mp_sub_into_spec by done. Qed.

Lemma mp_cond_negate_loop_words rw i flip c :
  mp_cond_negate_loop rw i x flip c
  = fst (add_words (mp_word [] <$> seq i rw) ((fun j => Z.lxor (mp_word x j) flip) <$> seq i rw) c).
Proof using.
  revert i c; induction rw as [|rw IH]; intros i c; [done|].
  cbn [mp_cond_negate_loop seq fmap list_fmap add_words].
  replace (mp_word [] i) with 0 by (by destruct i).
  destruct (BignumADC _ _ _). rewrite IH. unfold fmap. by destruct (add_words _ _ _).
Qed.

Lemma mp_cond_negate_spec rw c :
  mp_cond_negate rw x (Z.b2z c) = mp_of rw (if c then - mp_val x else mp_val x).
Proof using Hx.
  unfold mp_cond_negate. rewrite mp_cond_negate_loop_words, mask_b2z.
  rewrite words_mp_word by constructor.
  rewrite (words_fmap0 _ (if c then - mp_val x - 1 else mp_val x)).
  - rewrite add_words_spec by (rewrite ?length_mp_of; auto with ssh; destruct c; simpl; lia).
    cbn [fst]. rewrite length_mp_of, !mp_val_of. cbn [mp_val]. apply mp_of_eq.
    pose proof (wpow_pos rw). rewrite Z.mod_0_l, Z.add_0_l, Z.add_mod_idemp_l by lia.
    f_equal. destruct c; cbn; lia.
  - intros i _. destruct c; [|rewrite Z.lxor_0_r; by apply mp_word_val].
    rewrite lxor_ones64, mp_word_val by auto with ssh. apply words_lnot.
Qed.

Lemma mp_cond_clear_spec c :
  mp_cond_clear x (Z.b2z c) = mp_of (length x) (if c then 0 else mp_val x).
Proof using Hx.
  unfold mp_cond_clear. rewrite land_b2z, mask_b2z.
  destruct c; cbn -[Z.land]; [rewrite mp_of_0|rewrite mp_of_val by done].
  - change (u64 (Z.lnot ones64)) with 0. clear. induction x as [|w l IH]; [done|].
    by rewrite fmap_cons, Z.land_0_r, IH.
  - change (u64 (Z.lnot 0)) with ones64. induction Hx as [|w l Hw Hl IH]; [done|].
    by rewrite fmap_cons, land_ones64, IH.
Qed.

Lemma mp_mul_integer_loop_spec rw i m c :
  word_ok 64 m -> word_ok 64 c ->
  mp_mul_integer_loop rw i x m c
  = (mp_of rw ((mp_val x / wpow i) * m + c),
     (mp_val x / wpow i mod wpow rw * m + c) / wpow rw).
Proof using Hx.
  intros Hm. revert i c; induction rw as [|rw IH]; intros i c Hc.
  { cbn -[Z.div Z.modulo]. by rewrite wpow_0, Z.mod_1_r, Z.mul_0_l, Z.add_0_l, Z.div_1_r. }
  cbn [mp_mul_integer_loop]. rewrite BignumMULADD_spec by auto with ssh.
  set (w := mp_word x i).
  assert (word_ok 64 w) as Hw by (by apply mp_word_ok).
  assert (word_ok 64 ((w * m + c) / WB)) as Hc'.
  { apply word_WB in Hw as [], Hm as [], Hc as []. split.
    - apply Z.div_pos; [nia|done].
    - apply Z.div_lt_upper_bound; [done|]. change (2 ^ 64) with WB. nia. }
  rewrite IH by done. cbn [mp_of].
  assert (w = mp_val x / wpow i mod WB) as Ew by (by apply mp_word_val).
  set (v := mp_val x / wpow i) in *.
  assert (mp_val x / wpow (S i) = v / WB) as ->.
  { rewrite wpow_S, Z.mul_comm, <- Z.div_div; [done| |done]. pose proof (wpow_pos i); lia. }
  assert (v = v / WB * WB + w) as Ev by (rewrite Ew; pose proof (Z.div_mod v WB ltac:(done)); lia).
  pose proof (wpow_pos rw).
  assert (v mod wpow (S rw) = w + WB * (v / WB mod wpow rw)) as -> by (by rewrite wpow_S, mod_mul_step, Ew).
  f_equal; [f_equal|].
  - rewrite Ev. replace ((v / WB * WB + w) * m + c) with (w * m + c + v / WB * m * WB) by ring.
    by rewrite Z.mod_add.
  - f_equal. rewrite Ev at 2.
    replace ((v / WB * WB + w) * m + c) with (w * m + c + v / WB * m * WB) by ring.
    rewrite Z.div_add by done. ring.
  - rewrite wpow_S, div_mul_step by done. f_equal.
    replace ((w + WB * (v / WB mod wpow rw)) * m + c)
      with (w * m + c + v / WB mod wpow rw * m * WB) by ring.
    rewrite Z.div_add by done. ring.
Qed.

(** The product is exact, or the assertion on the carry fails. *)
Lemma mp_mul_integer_into_spec rw m :
  word_ok 64 m -> mp_val x < wpow rw ->
  mp_mul_integer_into rw x m
  = if mp_val x * m <? wpow rw then Some (mp_of rw (mp_val x * m)) else None.
Proof using Hx.
  intros Hm Hlt. unfold mp_mul_integer_into. rewrite mp_mul_integer_loop_spec by done.
  rewrite wpow_0, Z.div_1_r, !Z.add_0_r, Z.mod_small by (pose proof (mp_val_bound x Hx); lia).
  pose proof (wpow_pos rw). pose proof (mp_val_bound x Hx). destruct Hm.
  assert (0 <= mp_val x * m) by nia.
  destruct (Z.ltb_spec (mp_val x * m) (wpow rw)); [by rewrite Z.div_small|].
  destruct (Z.eqb_spec (mp_val x * m / wpow rw) 0) as [E|]; [|done].
  apply Z.div_small_iff in E; lia.
Qed.

Lemma mp_add_spec :
  mp_add x y = Some (mp_of (Nat.max (length x) (length y) + 1) (mp_val x + mp_val y)).
Proof using Hx Hy.
  unfold mp_add. rewrite size_t_max_spec, mp_make_sized_spec by lia. cbn.
  by rewrite length_mp_of, mp_add_into_spec.
Qed.

Lemma mp_sub_spec :
  (0 < length x)%nat ->
  mp_sub x y = Some (mp_of (Nat.max (length x) (length y)) (mp_val x - mp_val y)).
Proof using Hx Hy.
  intros. unfold mp_sub. rewrite size_t_max_spec, mp_make_sized_spec by lia. cbn.
  by rewrite length_mp_of, mp_sub_into_spec.
Qed.

Lemma mp_min_into_spec rw : mp_min_into rw x y = mp_of rw (Z.min (mp_val x) (mp_val y)).
Proof using Hx Hy.
  unfold mp_min_into. rewrite mp_cmp_hs_spec, mp_select_into_spec by done. f_equal.
  destruct (Z.leb_spec (mp_val y) (mp_val x)); lia.
Qed.

Lemma mp_max_into_spec rw : mp_max_into rw x y = mp_of rw (Z.max (mp_val x) (mp_val y)).
Proof using Hx Hy.
  unfold mp_max_into. rewrite mp_cmp_hs_spec, mp_select_into_spec by done. f_equal.
  destruct (Z.leb_spec (mp_val y) (mp_val x)); lia.
Qed.

Lemma mp_power_2_spec p :
  0 <= p < 2 ^ 63 ->
  mp_power_2 p = Some (mp_of (Z.to_nat (p / 64 + 1)) (2 ^ p)).
Proof using.
  intros Hp. unfold mp_power_2, mp_new. rewrite (wrap_id 64 (p + 1)) by (unfold word_ok; zdivmod).
  change BIGNUM_INT_BITS with 64. rewrite (wrap_id 64) by (unfold word_ok; zdivmod).
  replace ((p + 1 + 64 - 1) / 64) with (p / 64 + 1) by zdivmod.
  rewrite mp_make_sized_spec by zdivmod. set (n := Z.to_nat _). cbn [mbind option_bind].
  assert (0 <= p < 64 * len (mp_of n 0)) by (unfold len, n; rewrite length_mp_of; zdivmod).
  change 1 with (Z.b2z true) at 1. rewrite mp_set_bit_spec by auto with ssh.
  rewrite length_mp_of, mp_val_of, Z.mod_0_l by (pose proof (wpow_pos n); lia).
  rewrite Z.setbit_spec', Z.lor_0_l. done.
Qed.
End More.

(** ** Adding an integer at a word offset *)

Section Shifted.
Context (a : mp_int) (Ha : mp_ok a) (idx : nat) (Hidx : Z.of_nat idx < 2 ^ 64).

Lemma index_test i :
  Z.of_nat i < 2 ^ 64 ->
  Z.lxor 1 (normalise_to_1 (Z.lxor (Z.of_nat i) (Z.of_nat idx))) = Z.b2z (Z.of_nat i =? Z.of_nat idx).
Proof using Hidx.
  intros Hi. rewrite normalise_to_1_spec by (apply lxor_ok; unfold word_ok; lia).
  destruct (Z.eqb_spec (Z.of_nat i) (Z.of_nat idx)) as [->|]; [by rewrite Z.lxor_nilpotent|].
  destruct (Z.eqb_spec (Z.lxor (Z.of_nat i) (Z.of_nat idx)) 0) as [E|]; [|done].
  apply (proj1 (Z.lxor_eq_0_iff _ _)) in E. lia.
Qed.

Lemma mp_add_shifted_after rw i c :
  mp_add_shifted_loop rw i a 0 (Z.of_nat idx) 1 c
  = fst (add_words (mp_word a <$> seq i rw) (mp_of rw 0) c) \/ 2 ^ 64 < Z.of_nat (i + rw).
Proof using Ha Hidx.
  revert i c; induction rw as [|rw IH]; intros i c; [by left|].
  destruct (Z.lt_ge_cases (2 ^ 64) (Z.of_nat (i + S rw))); [by right|]. left.
  cbn [mp_add_shifted_loop seq mp_of]. rewrite fmap_cons. cbn [add_words].
  rewrite index_test by lia. rewrite Z.land_0_l, Z.lxor_0_l.
  change (0 mod WB) with 0. change (shift_right_by_one_word 0) with 0.
  assert (Z.lor 1 (Z.b2z (Z.of_nat i =? Z.of_nat idx)) = 1) as -> by (by destruct (_ =? _)).
  change (0 / WB) with 0. rewrite Z.land_0_l. destruct (BignumADC _ _ _) as [o c'].
  destruct (IH (S i) c') as [->|]; [|lia]. by destruct (add_words _ _ c').
Qed.

Lemma mp_add_shifted_before rw i n c :
  word_ok 64 n -> (i <= idx)%nat -> Z.of_nat (i + rw) <= 2 ^ 64 ->
  mp_add_shifted_loop rw i a n (Z.of_nat idx) 0 c
  = fst (add_words (mp_word a <$> seq i rw) (mp_of rw (n * wpow (idx - i))) c).
Proof using Ha Hidx.
  intros Hn. revert i c; induction rw as [|rw IH]; intros i c Hi Hrw; [done|].
  cbn [mp_add_shifted_loop seq mp_of]. rewrite fmap_cons. cbn [add_words].
  rewrite index_test by lia. rewrite Z.lor_0_l, mask_b2z.
  destruct (Z.eqb_spec (Z.of_nat i) (Z.of_nat idx)) as [E|E].
  - assert (i = idx) by lia. subst i. rewrite Nat.sub_diag, wpow_0, Z.mul_1_r.
    change (shift_right_by_one_word n) with 0.
    rewrite Z.lxor_0_r, !land_ones64, Z.lxor_nilpotent by done.
    rewrite (Z.mod_small n), (Z.div_small n) by done.
    destruct (BignumADC _ _ _) as [o c'].
    destruct (mp_add_shifted_after rw (S idx) c') as [R|]; [|lia].
    change (Z.b2z true) with 1. rewrite R. by destruct (add_words _ _ c').
  - rewrite !Z.land_0_r, Z.lxor_0_r. replace (idx - i)%nat with (S (idx - S i)) by lia.
    rewrite wpow_S. replace (n * (WB * wpow (idx - S i))) with (n * wpow (idx - S i) * WB) by ring.
    rewrite Z.mod_mul, Z.div_mul by done. destruct (BignumADC _ _ _) as [o c'].
    change (Z.b2z false) with 0. rewrite IH by lia. by destruct (add_words _ _ c').
Qed.

Lemma mp_add_shifted_spec rw n :
  word_ok 64 n -> Z.of_nat rw <= 2 ^ 64 ->
  mp_add_integer_into_shifted_by_words rw a n (Z.of_nat idx) = mp_of rw (mp_val a + n * wpow idx).
Proof using Ha Hidx.
  intros Hn Hrw. unfold mp_add_integer_into_shifted_by_words.
  rewrite mp_add_shifted_before, Nat.sub_0_r by (done || lia).
  rewrite words_mp_word, add_words_spec by (rewrite ?length_mp_of; auto with ssh; lia).
  cbn [fst]. rewrite length_mp_of, !mp_val_of, Z.add_0_r. apply mp_of_eq.
  rewrite <- Z.add_mod; [done|]. pose proof (wpow_pos rw); lia.
Qed.
End Shifted.

(** ** Aliases *)

Lemma mp_make_alias_spec x offset n :
  mp_make_alias x offset n = take n (drop offset x).
Proof.
  unfold mp_make_alias. destruct (Nat.ltb_spec (length x) offset).
  - rewrite Nat.sub_diag, (drop_ge x (length x)), (drop_ge x offset) by lia. by rewrite !take_nil.
  - destruct (Nat.ltb_spec (length x - offset) n); [|done].
    rewrite !take_ge; [done|rewrite length_drop; lia..].
Qed.

Lemma take_drop_ok x m n : mp_ok x -> mp_ok (take m (drop n x)).
Proof. intros. by apply Forall_take, Forall_drop. Qed.

Lemma mp_make_alias_ok x offset n : mp_ok x -> mp_ok (mp_make_alias x offset n).
Proof. rewrite mp_make_alias_spec. apply take_drop_ok. Qed.
#[export] Hint Resolve mp_make_alias_ok : ssh.

Lemma mp_make_alias_of offset n m v :
  (offset + n <= m)%nat -> mp_make_alias (mp_of m v) offset n = mp_of n (v / wpow offset).
Proof. intros. rewrite mp_make_alias_spec, drop_mp_of, take_mp_of by lia. done. Qed.

Lemma mp_val_alias_low x n : mp_ok x -> mp_val (mp_make_alias x 0 n) = mp_val x mod wpow n.
Proof.
  intros Hx. rewrite mp_make_alias_spec, drop_0. destruct (Nat.le_gt_cases n (length x)).
  - rewrite <- (mp_of_val x Hx) at 1. by rewrite take_mp_of, mp_val_of.
  - pose proof (mp_val_bound x Hx). pose proof (wpow_le (length x) n).
    rewrite take_ge, Z.mod_small by lia. done.
Qed.

Lemma mp_val_drop x n : mp_ok x -> mp_val (drop n x) = mp_val x / wpow n.
Proof.
  intros Hx. pose proof (mp_val_bound x Hx). destruct (Nat.le_gt_cases n (length x)).
  - rewrite <- (mp_of_val x Hx) at 1. rewrite drop_mp_of, mp_val_of by lia.
    apply Z.mod_small. split; [apply Z.div_pos; [lia|apply wpow_pos]|].
    apply Z.div_lt_upper_bound; [apply wpow_pos|]. rewrite <- wpow_add.
    replace (n + (length x - n))%nat with (length x) by lia. lia.
  - pose proof (wpow_le (length x) n). rewrite drop_ge, Z.div_small by lia. done.
Qed.

(** ** Destinations that are also operands

    The same loops run on a store: the destination [r] is updated word by word and an
    operand given as [None] is the destination itself, read in its current state. *)

Module InPlace.

Definition operand (o : option mp_int) (r : mp_int) : mp_int := default r o.

(** [for (i = k; i < k + n; i++) r->w[i] = ...], with a carried value. *)
Fixpoint loop_up {C} (f : mp_int -> nat -> C -> Z * C) (k n : nat) (r : mp_int) (c : C) : mp_int * C :=
  match n with
  | O => (r, c)
  | S n => let '(w, c) := f r k c in loop_up f (S k) n (<[k := w]> r) c
  end.

(** [for (i = n; i-- > 0 ;) r->w[i] = ...] *)
Fixpoint loop_down (f : mp_int -> nat -> Z) (n : nat) (r : mp_int) : mp_int :=
  match n with O => r | S n => loop_down f n (<[n := f r n]> r) end.

Definition store_add_masked_into (r : mp_int) (a b : option mp_int) (b_and b_xor carry : Z) :=
  loop_up (fun r i carry =>
    let bword := Z.lxor (Z.land (mp_word (operand b r) i) b_and) b_xor in
    BignumADC (mp_word (operand a r) i) bword carry) 0 (length r) r carry.

Definition store_select_into (r : mp_int) (src0 src1 : option mp_int) (which : Z) :=
  let mask := u64 (- Z.land 1 which) in
  fst (loop_up (fun r i (_ : unit) =>
    let srcword0 := mp_word (operand src0 r) i in
    let srcword1 := mp_word (operand src1 r) i in
    (Z.lxor srcword0 (Z.land (Z.lxor srcword1 srcword0) mask), tt)) 0 (length r) r tt).

Definition store_rshift_fixed_into (r : mp_int) (a : option mp_int) (bits : Z) :=
  let words := Z.to_nat (bits / BIGNUM_INT_BITS) in
  let bitoff := bits mod BIGNUM_INT_BITS in
  fst (loop_up (fun r i (_ : unit) =>
    let w := mp_word (operand a r) (i + words) in
    let r := <[i := w]> r in
    (if bitoff =? 0 then w else
     let w := w >> bitoff in
     let r := <[i := w]> r in
     w .| u64 (mp_word (operand a r) (i + words + 1) << (BIGNUM_INT_BITS - bitoff)), tt))
    0 (length r) r tt).

Definition store_lshift_fixed_into (r : mp_int) (a : option mp_int) (bits : Z) :=
  let words := Z.to_nat (bits / BIGNUM_INT_BITS) in
  let bitoff := bits mod BIGNUM_INT_BITS in
  loop_down (fun r i =>
    if (i <? words)%nat then 0
    else let w := mp_word (operand a r) (i - words) in
         let r := <[i := w]> r in
         if bitoff =? 0 then w else
         let w := u64 (w << bitoff) in
         let r := <[i := w]> r in
         if (words <? i)%nat
         then w .| (mp_word (operand a r) (i - words - 1) >> (BIGNUM_INT_BITS - bitoff)) else w)
    (length r) r.

(** The same loop with the words collected instead of stored. *)
Fixpoint collect {C} (g : nat -> C -> Z * C) (k n : nat) (c : C) : mp_int * C :=
  match n with
  | O => ([], c)
  | S n => let '(w, c) := g k c in let '(ws, c) := collect g (S k) n c in (w :: ws, c)
  end.

Lemma loop_up_collect {C} (f : mp_int -> nat -> C -> Z * C) g r0 k n r c :
  length r = length r0 -> (k + n = length r)%nat ->
  (forall j, (k <= j)%nat -> mp_word r j = mp_word r0 j) ->
  (forall r j c, (j < length r)%nat -> length r = length r0 ->
     (forall i, (j <= i)%nat -> mp_word r i = mp_word r0 i) -> f r j c = g j c) ->
  loop_up f k n r c = (take k r ++ fst (collect g k n c), snd (collect g k n c)).
Proof.
  intros Hl Hk Hr Hf. revert k r c Hl Hk Hr. induction n as [|n IH]; intros k r c Hl Hk Hr.
  { cbn. rewrite take_ge, app_nil_r by lia. done. }
  cbn [loop_up collect]. rewrite Hf by (done || lia). destruct (g k c) as [w c'].
  rewrite IH; [|by rewrite length_insert|rewrite length_insert; lia|].
  - destruct (collect g (S k) n c') as [ws c'']. cbn [fst snd]. f_equal.
    rewrite (take_S_r _ _ w) by (rewrite list_lookup_insert_eq; [done|lia]).
    rewrite take_insert_ge by lia. by rewrite <- app_assoc.
  - intros j Hj. rewrite mp_word_insert by lia.
    destruct (decide (k = j)); [lia|]. apply Hr. lia.
Qed.

Lemma collect_map (h : nat -> Z) k n :
  fst (collect (fun i (_ : unit) => (h i, tt)) k n tt) = h <$> seq k n.
Proof.
  revert k; induction n as [|n IH]; intros k; [done|]. cbn [collect seq].
  specialize (IH (S k)). rewrite fmap_cons, <- IH. by destruct (collect _ (S k) n tt).
Qed.

Lemma loop_down_spec f g r0 n r :
  length r = length r0 -> (n <= length r)%nat ->
  (forall j, (j < n)%nat -> mp_word r j = mp_word r0 j) ->
  (forall r j, (j < length r)%nat -> length r = length r0 ->
     (forall i, (i <= j)%nat -> mp_word r i = mp_word r0 i) -> f r j = g j) ->
  loop_down f n r = (g <$> seq 0 n) ++ drop n r.
Proof.
  intros Hl Hn Hr Hf. revert r Hl Hn Hr. induction n as [|n IH]; intros r Hl Hn Hr; [done|].
  cbn [loop_down]. rewrite Hf by (intros; try apply Hr; lia).
  rewrite IH; [|by rewrite length_insert|rewrite length_insert; lia|].
  - rewrite seq_S, fmap_app, <- app_assoc. f_equal. cbn.
    rewrite (drop_S _ (g n)) by (rewrite list_lookup_insert_eq; [done|lia]).
    f_equal. by rewrite drop_insert_lt by lia.
  - intros j Hj. rewrite mp_word_insert by lia. destruct (decide (n = j)); [lia|]. apply Hr. lia.
Qed.

Lemma operand_word o r r0 i :
  mp_word r i = mp_word r0 i -> mp_word (operand o r) i = mp_word (operand o r0) i.
Proof. by destruct o. Qed.

Lemma operand_insert o r i j w :
  i <> j -> mp_word (operand o (<[i := w]> r)) j = mp_word (operand o r) j.
Proof.
  intros. destruct o; [done|]. cbn. unfold mp_word. by rewrite !nth_lookup, list_lookup_insert_ne.
Qed.

Lemma add_masked_collect rw k a b b_and b_xor c :
  mp_add_masked_loop rw k a b b_and b_xor c
  = collect (fun i c => BignumADC (mp_word a i) (Z.lxor (Z.land (mp_word b i) b_and) b_xor) c) k rw c.
Proof.
  revert k c; induction rw as [|rw IH]; intros k c; [done|].
  cbn [mp_add_masked_loop collect]. destruct (BignumADC _ _ _). by rewrite IH.
Qed.
End InPlace.

(** Addition, subtraction, selection and the two shifts may be run inside one of
    their operands, or inside both, as the callers do: each word is read before the
    loop overwrites it, so the words written are those of the separate-destination
    version. *)
Theorem mp_in_place_safe (r : mp_int) (a b : option mp_int) (b_and b_xor carry which bits : Z) :
  InPlace.store_add_masked_into r a b b_and b_xor carry
    = mp_add_masked_into (length r) (InPlace.operand a r) (InPlace.operand b r) b_and b_xor carry
  /\ InPlace.store_select_into r a b which
    = mp_select_into (length r) (InPlace.operand a r) (InPlace.operand b r) which
  /\ InPlace.store_rshift_fixed_into r a bits
    = mp_rshift_fixed_into (length r) (InPlace.operand a r) bits
  /\ InPlace.store_lshift_fixed_into r a bits
    = mp_lshift_fixed_into (length r) (InPlace.operand a r) bits.
Proof.
  split_and!.
  - unfold InPlace.store_add_masked_into, mp_add_masked_into. rewrite InPlace.add_masked_collect.
    set (g := fun i c => BignumADC _ _ c).
    rewrite (InPlace.loop_up_collect _ g r); [by destruct (InPlace.collect _ _ _ _)|done..|].
    intros r' j c _ _ Hr. by rewrite !(InPlace.operand_word _ r' r) by auto.
  - unfold InPlace.store_select_into, mp_select_into. rewrite <- InPlace.collect_map.
    erewrite (InPlace.loop_up_collect _ _ r); [done..|].
    intros r' j c _ _ Hr. by rewrite !(InPlace.operand_word _ r' r) by auto.
  - unfold InPlace.store_rshift_fixed_into, mp_rshift_fixed_into. rewrite <- InPlace.collect_map.
    erewrite (InPlace.loop_up_collect _ _ r); [done..|].
    intros r' j [] _ _ Hr. cbn zeta. rewrite !InPlace.operand_insert by lia.
    by rewrite !(InPlace.operand_word _ r' r) by (apply Hr; lia).
  - unfold InPlace.store_lshift_fixed_into, mp_lshift_fixed_into.
    erewrite (InPlace.loop_down_spec _ _ r); [by rewrite drop_all, app_nil_r|done..|].
    intros r' j _ _ Hr. cbn beta zeta. destruct (Nat.ltb_spec j (Z.to_nat (bits / BIGNUM_INT_BITS))); [done|].
    rewrite (InPlace.operand_word _ r' r) by (apply Hr; lia). case_match; [done|].
    case_match; [|done]. bsimpl. rewrite Nat.ltb_lt in *. rewrite !InPlace.operand_insert by lia.
    by rewrite (InPlace.operand_word _ r' r) by (apply Hr; lia).
Qed.

(** The word loops compute the integers they stand for, whatever the three widths:
    the destination of [rw] words holds the exact result modulo 2^(64 rw), for sum,
    difference, negation, conditional addition and subtraction, products by a small
    integer (where the overflow assertion fails just when the result does not fit),
    selection and the two fixed shifts. *)
Theorem mp_linear_correct (x y : mp_int) (rw : nat) (n m bits : Z) (c : bool) :
  mp_ok x -> mp_ok y -> word_ok 64 n -> word_ok 16 m -> 0 <= bits ->
  let holds r v := mp_ok r /\ length r = rw /\ mp_val r = v mod 2 ^ (64 * Z.of_nat rw) in
  holds (mp_add_into rw x y) (mp_val x + mp_val y)
  /\ holds (mp_sub_into rw x y) (mp_val x - mp_val y)
  /\ holds (mp_cond_add_into rw x y (Z.b2z c)) (mp_val x + if c then mp_val y else 0)
  /\ holds (mp_cond_sub_into rw x y (Z.b2z c)) (mp_val x - if c then mp_val y else 0)
  /\ holds (mp_neg_into rw x) (- mp_val x)
  /\ holds (mp_add_integer_into rw x n) (mp_val x + n)
  /\ holds (mp_sub_integer_into rw x n) (mp_val x - n)
  /\ holds (mp_select_into rw x y (Z.b2z c)) (if c then mp_val y else mp_val x)
  /\ holds (mp_lshift_fixed_into rw x bits) (mp_val x * 2 ^ bits)
  /\ holds (mp_rshift_fixed_into rw x bits) (mp_val x / 2 ^ bits)
  /\ (mp_val x < 2 ^ (64 * Z.of_nat rw) ->
      match mp_mul_integer_into rw x m with
      | Some r => holds r (mp_val x * m) /\ mp_val r = mp_val x * m
      | None => 2 ^ (64 * Z.of_nat rw) <= mp_val x * m
      end).
Proof.
  intros Hx Hy Hn Hm Hb holds. assert (Hof : forall v, holds (mp_of rw v) v).
  { intros v. split; [auto with ssh|]. split; [apply length_mp_of|]. by rewrite mp_val_of, wpow_pow2. }
  rewrite mp_add_into_spec, mp_sub_into_spec, mp_cond_add_into_spec, mp_cond_sub_into_spec, mp_neg_into_spec,
    mp_add_integer_into_spec, mp_sub_integer_into_spec, mp_select_into_spec, mp_lshift_fixed_into_spec,
    mp_rshift_fixed_into_spec by done.
  do 10 (split; [apply Hof|]). rewrite <- wpow_pow2. intros Hlt.
  rewrite mp_mul_integer_into_spec by (try done; unfold word_ok in *; lia).
  destruct (Z.ltb_spec (mp_val x * m) (wpow rw)); [|done]. split; [apply Hof|].
  pose proof (mp_val_bound x Hx). unfold word_ok in *. apply mp_val_small. nia.
Qed.


(** The comparisons are those of the integers for operands of different sizes, the
    bit and byte accessors read the binary expansion (zero beyond the top word) and
    setting a bit changes that bit only; [mp_add] and [mp_sub] size their results so
    that the sum is exact and the difference is exact whenever it is not negative. *)
Theorem mp_compare_and_bits_correct (x y : mp_int) (n bit : Z) (c : bool) :
  mp_ok x -> mp_ok y -> (0 < length x)%nat -> word_ok 64 n -> 0 <= bit ->
  mp_cmp_hs x y = Z.b2z (mp_val y <=? mp_val x)
  /\ mp_cmp_eq x y = Z.b2z (mp_val x =? mp_val y)
  /\ mp_hs_integer x n = Z.b2z (n <=? mp_val x)
  /\ mp_eq_integer x n = Z.b2z (mp_val x =? n)
  /\ mp_get_bit x bit = Z.b2z (Z.testbit (mp_val x) bit)
  /\ (bit < 64 * len x -> exists r, mp_set_bit x bit (Z.b2z c) = Some r
       /\ mp_val r = if c then Z.setbit (mp_val x) bit else Z.clearbit (mp_val x) bit)
  /\ (exists s, mp_add x y = Some s /\ mp_val s = mp_val x + mp_val y)
  /\ (exists d, mp_sub x y = Some d /\ (mp_val y <= mp_val x -> mp_val d = mp_val x - mp_val y)).
Proof.
  intros Hx Hy Hl Hn Hb. pose proof (mp_val_bound x Hx). pose proof (mp_val_bound y Hy).
  pose proof (wpow_le (length x) (Nat.max (length x) (length y))).
  pose proof (wpow_le (length y) (Nat.max (length x) (length y))).
  rewrite mp_cmp_hs_spec, mp_cmp_eq_spec, mp_hs_integer_spec, mp_eq_integer_spec, mp_get_bit_spec by done.
  do 5 (split; [done|]). split; [|split].
  - intros Hlt. rewrite mp_set_bit_spec by done. eexists. split; [done|]. apply mp_val_small.
    rewrite wpow_pow2 in *. fold (len x) in *.
    assert (forall v, 0 <= v -> (forall i, 64 * len x <= i -> Z.testbit v i = false) -> 0 <= v < 2 ^ (64 * len x)) as Hbits.
    { intros v Hv Hi. apply word_ok_bits; [lia|done|done]. }
    apply Hbits.
    + destruct c; [apply Z.lor_nonneg; split; [lia|]|apply Z.ldiff_nonneg; left; lia].
      rewrite Z.shiftl_mul_pow2 by done. pose proof (pow2_pos bit Hb). lia.
    + intros i Hi. assert (Z.testbit (mp_val x) i = false) by (apply (testbit_high (64 * len x)); [unfold word_ok; lia|lia]).
      destruct c; [rewrite Z.setbit_eqb by lia|rewrite Z.clearbit_eqb by lia]; destruct (Z.eqb_spec bit i); try lia; by rewrite H3.
  - rewrite mp_add_spec by done. eexists. split; [done|]. apply mp_val_small.
    rewrite wpow_add, wpow_S, wpow_0. unfold WB in *. lia.
  - rewrite mp_sub_spec by done. eexists. split; [done|]. intros. apply mp_val_small. lia.
Qed.

