(* ===== verification/MpBits.v ===== *)
(** * Multiprecision integers: secret shift counts and the size of a number

    The constant-time shifts of mpint.c ([mp_rshift_safe] and friends), which compose
    shifts by powers of two selected by masks, the search for the highest nonzero
    word and [mp_get_nbits].  The shifts work inside their operand and are modelled
    on the store loops of [Mpint.InPlace]. *)

From S2P Require Import Prelude Memory Mpint.

Open Scope word_scope.

(** [mp_word] at a [size_t] index that may have wrapped around below zero. *)
Definition mp_word_z (x : mp_int) (i : Z) : Z :=
  if i <? len x then mp_word x (Z.to_nat i) else 0.

(** ** Right shift *)

(** One pass of the loop over word offsets, at offset [1 << bit]. *)
Definition rshift_word_pass (r : mp_int) (wordshift bit : Z) : mp_int :=
  let word_offset := 1 << bit in
  let mask := u64 (- ((wordshift >> bit) .& 1)) in
  fst (InPlace.loop_up (fun r i (_ : unit) =>
    let w := mp_word_z r (Z.of_nat i + word_offset) in
    (mp_word r i .^ ((mp_word r i .^ w) .& mask), tt)) 0 (length r) r tt).

(** [for (unsigned bit = 0; r->nw >> bit; bit++)]; [fuel] counts down from the width
    of [size_t]. *)
Fixpoint word_passes (pass : mp_int -> Z -> Z -> mp_int) (fuel : nat) (r : mp_int)
    (wordshift bit : Z) : mp_int :=
  match fuel with
  | O => r
  | S fuel => if len r >> bit =? 0 then r
              else word_passes pass fuel (pass r wordshift bit) wordshift (bit + 1)
  end.

Definition rshift_bit_pass (bitshift : Z) (r : mp_int) (bit : Z) : mp_int :=
  let shift := 1 << bit in
  let upshift := BIGNUM_INT_BITS - shift in
  let mask := u64 (- ((bitshift >> bit) .& 1)) in
  fst (InPlace.loop_up (fun r i (_ : unit) =>
    let w := (mp_word r i >> shift) .| u64 (mp_word r (i + 1) << upshift) in
    (mp_word r i .^ ((mp_word r i .^ w) .& mask), tt)) 0 (length r) r tt).

Definition mp_rshift_safe_in_place (r : mp_int) (bits : Z) : mp_int :=
  let wordshift := bits / BIGNUM_INT_BITS in
  let bitshift := bits mod BIGNUM_INT_BITS in
  let clear := u64 (len r - wordshift) >> 63 in
  let r := mp_cond_clear r clear in
  let r := word_passes rshift_word_pass 64 r wordshift 0 in
  fold_left (rshift_bit_pass bitshift) [0; 1; 2; 3; 4; 5] r.

Definition mp_rshift_safe (x : mp_int) (bits : Z) : option mp_int :=
  r ← mp_copy x; Some (mp_rshift_safe_in_place r bits).
Definition mp_rshift_safe_into (rw : nat) (x : mp_int) (bits : Z) : mp_int :=
  mp_rshift_safe_in_place (mp_copy_into rw x) bits.

(** ** Left shift *)

Definition lshift_word_pass (r : mp_int) (wordshift bit : Z) : mp_int :=
  let word_offset := 1 << bit in
  let mask := u64 (- ((wordshift >> bit) .& 1)) in
  InPlace.loop_down (fun r i =>
    let w := mp_word_z r (u64 (Z.of_nat i - word_offset)) in
    mp_word r i .^ ((mp_word r i .^ w) .& mask)) (length r) r.

Definition mp_lshift_safe_in_place (r : mp_int) (bits : Z) : mp_int :=
  let wordshift := bits / BIGNUM_INT_BITS in
  let bitshift := bits mod BIGNUM_INT_BITS in
  let clear := u64 (len r - wordshift) >> 63 in
  let r := mp_cond_clear r clear in
  let r := word_passes lshift_word_pass 64 r wordshift 0 in
  let downshift := BIGNUM_INT_BITS - bitshift in
  let no_shift := downshift >> BIGNUM_INT_BITS_BITS in
  let downshift := downshift .& u64 (Z.lnot (u64 (- no_shift))) in
  let downshifted_mask := u64 (Z.lnot (u64 (- no_shift))) in
  InPlace.loop_down (fun r i =>
    u64 (mp_word r i << bitshift)
    .| ((mp_word_z r (u64 (Z.of_nat i - 1)) >> downshift) .& downshifted_mask)) (length r) r.

Definition mp_lshift_safe_into (rw : nat) (x : mp_int) (bits : Z) : mp_int :=
  mp_lshift_safe_in_place (mp_copy_into rw x) bits.

(** ** The highest nonzero word *)

Record hi_state := mkHi {
  curr_index : Z; curr_hi : Z; curr_lo : Z;
  hi_index : Z; hi_hi : Z; hi_lo : Z
}.

Definition find_highest_step (shift_wanted : Z) (s : hi_state) (curr_word : Z) : hi_state :=
  let indicator := normalise_to_1 curr_word in
  let lo' := (if BIGNUM_INT_BITS <? 64 then curr_lo s >> BIGNUM_INT_BITS else 0)
             .| u64 (curr_hi s << (64 - BIGNUM_INT_BITS)) in
  let hi' := (if BIGNUM_INT_BITS <? 64 then curr_hi s >> BIGNUM_INT_BITS else 0)
             .| u64 (curr_word << shift_wanted) in
  let mask := u64 (- indicator) in
  {| curr_index := curr_index s + 1; curr_hi := hi'; curr_lo := lo';
     hi_hi := hi_hi s .^ ((hi' .^ hi_hi s) .& mask);
     hi_lo := hi_lo s .^ ((lo' .^ hi_lo s) .& mask);
     hi_index := hi_index s .^ ((curr_index s .^ hi_index s) .& mask) |}.

(** The three outputs; a caller that passes [NULL] drops the component. *)
Definition mp_find_highest_nonzero_word_pair (x : mp_int) (shift_wanted index hi lo : Z) : Z * Z * Z :=
  let s := fold_left (find_highest_step shift_wanted) x (mkHi 0 0 0 index hi lo) in
  (hi_index s, hi_hi s, hi_lo s).

(** One step of the bisection inside the word. *)
Definition hibit_step (s : Z * Z) (i : Z) : Z * Z :=
  let '(hiword, hibit_index) := s in
  let shifted_word := hiword >> i in
  let indicator := u64 (- shifted_word) >> (BIGNUM_INT_BITS - 1) in
  (hiword .^ ((shifted_word .^ hiword) .& u64 (- indicator)),
   u64 (hibit_index + (i .& u64 (- indicator)))).

Definition mp_get_nbits (x : mp_int) : Z :=
  let '(hiword_index, hiword64, _) := mp_find_highest_nonzero_word_pair x 0 (u64 (-1)) ones64 0 in
  let hiword := u64 hiword64 in
  let '(_, hibit_index) := fold_left hibit_step [32; 16; 8; 4; 2; 1] (hiword, 0) in
  u64 (u64 (hiword_index << BIGNUM_INT_BITS_BITS) + hibit_index + 1).

Example mp_get_nbits_examples :
  mp_get_nbits [0; 0] = 0 /\ mp_get_nbits [5; 0] = 3 /\ mp_get_nbits [0; 1] = 65
  /\ mp_val (mp_rshift_safe_in_place [0; 0; 2 ^ 40] 130) = 2 ^ 38
  /\ mp_val (mp_lshift_safe_in_place [7; 0; 0] 130) = 7 * 2 ^ 130
  /\ mp_val (mp_lshift_safe_in_place [7; 0; 0] 192) = 0.
Proof. vm_compute. tauto. Qed.

(** ** Store loops that compute the words of a number *)

Lemma loop_up_words (f : mp_int -> nat -> Z) r v :
  (forall r' j, (j < length r)%nat -> length r' = length r ->
     (forall i, (j <= i)%nat -> mp_word r' i = mp_word r i) -> f r' j = v / wpow j mod WB) ->
  fst (InPlace.loop_up (fun r i (_ : unit) => (f r i, tt)) 0 (length r) r tt) = mp_of (length r) v.
Proof.
  intros H. rewrite (InPlace.loop_up_collect _ (fun j _ => (v / wpow j mod WB, tt)) r); [|done..|].
  - cbn [fst]. rewrite InPlace.collect_map. by apply (words_fmap0 (fun j => v / wpow j mod WB)).
  - intros r' j [] Hj Hl Hr. by rewrite H by (done || lia).
Qed.

Lemma loop_down_words (f : mp_int -> nat -> Z) r v :
  (forall r' j, (j < length r)%nat -> length r' = length r ->
     (forall i, (i <= j)%nat -> mp_word r' i = mp_word r i) -> f r' j = v / wpow j mod WB) ->
  InPlace.loop_down f (length r) r = mp_of (length r) v.
Proof.
  intros H. rewrite (InPlace.loop_down_spec _ (fun j => v / wpow j mod WB) r); [|done..|].
  - rewrite drop_all, app_nil_r. by apply (words_fmap0 (fun j => v / wpow j mod WB)).
  - intros r' j Hj Hl Hr. by rewrite H by (done || lia).
Qed.

Lemma mp_word_z_nat x i : mp_word_z x (Z.of_nat i) = mp_word x i.
Proof.
  unfold mp_word_z, len. rewrite Nat2Z.id. destruct (Z.ltb_spec (Z.of_nat i) (Z.of_nat (length x))); [done|].
  symmetry. apply mp_word_high. lia.
Qed.

(** The mask taken from bit [bit] of a shift count. *)
Lemma shift_mask n bit : 0 <= bit -> u64 (- (Z.land (Z.shiftr n bit) 1)) = if Z.testbit n bit then ones64 else 0.
Proof. intros. rewrite Z.land_comm, land_1_odd, <- Z.bit0_odd, Z.shiftr_spec, Z.add_0_l, mask_b2z by lia. done. Qed.

Lemma select_word' (c : bool) x y :
  word_ok 64 x -> word_ok 64 y ->
  Z.lxor x (Z.land (Z.lxor x y) (if c then ones64 else 0)) = if c then y else x.
Proof. intros. rewrite (Z.lxor_comm x y). by apply select_word. Qed.

Lemma testbit_mod_pow2 n k :
  0 <= k -> n mod 2 ^ (k + 1) = n mod 2 ^ k + if Z.testbit n k then 2 ^ k else 0.
Proof.
  intros. rewrite Z.pow_add_r, Z.rem_mul_r by (try apply Z.pow_nonzero; lia).
  change (2 ^ 1) with 2. rewrite (Zmod_odd (n / 2 ^ k)), <- Z.bit0_odd, Z.div_pow2_bits, Z.add_0_l by lia.
  destruct (Z.testbit n k); ring.
Qed.

Section SafeShift.
Context (r : mp_int) (Hr : mp_ok r) (Hlen : len r < 2 ^ 63).

Lemma rshift_word_pass_spec n bit :
  0 <= bit ->
  rshift_word_pass r n bit
  = mp_of (length r) (mp_val r / if Z.testbit n bit then wpow (Z.to_nat (2 ^ bit)) else 1).
Proof using Hr.
  intros Hb. unfold rshift_word_pass. rewrite shift_mask, Z.shiftl_1_l by done.
  pose proof (pow2_pos bit Hb). apply loop_up_words. intros r' j Hj _ Hr'.
  replace (Z.of_nat j + 2 ^ bit) with (Z.of_nat (j + Z.to_nat (2 ^ bit))) by lia.
  rewrite mp_word_z_nat, !Hr', select_word' by (auto with ssh || lia).
  destruct (Z.testbit n bit); rewrite mp_word_val by done; [|by rewrite Z.div_1_r].
  rewrite Nat.add_comm, wpow_add, <- Z.div_div; [done| |apply wpow_pos].
  pose proof (wpow_pos (Z.to_nat (2 ^ bit))). lia.
Qed.

Lemma lshift_word_pass_spec n bit :
  0 <= bit < 63 ->
  lshift_word_pass r n bit
  = mp_of (length r) (mp_val r * if Z.testbit n bit then wpow (Z.to_nat (2 ^ bit)) else 1).
Proof using Hr Hlen.
  intros Hb. unfold lshift_word_pass. rewrite shift_mask, Z.shiftl_1_l by lia.
  pose proof (pow2_pos bit). pose proof (Z.pow_lt_mono_r 2 bit 63). apply loop_down_words.
  intros r' j Hj Hl Hr'. unfold len in Hlen. set (d := Z.to_nat (2 ^ bit)).
  assert (mp_word_z r' (u64 (Z.of_nat j - 2 ^ bit)) = mp_val r * wpow d / wpow j mod WB) as E.
  { destruct (Nat.le_gt_cases d j).
    - replace (Z.of_nat j - 2 ^ bit) with (Z.of_nat (j - d)) by lia.
      rewrite wrap_id by (unfold word_ok; lia). rewrite mp_word_z_nat, Hr', mp_word_val by (done || lia).
      replace j with ((j - d) + d)%nat at 2 by lia. rewrite wpow_add.
      rewrite Z.div_mul_cancel_r; [done|pose proof (wpow_pos (j - d)); lia|pose proof (wpow_pos d); lia].
    - unfold mp_word_z. replace (u64 (Z.of_nat j - 2 ^ bit)) with (2 ^ 64 + (Z.of_nat j - 2 ^ bit)).
      2: { unfold wrap. rewrite <- (Z.mod_add _ 1), Z.mod_small by lia. lia. }
      destruct (Z.ltb_spec (2 ^ 64 + (Z.of_nat j - 2 ^ bit)) (len r')) as [Hlt|_]; [unfold len in Hlt; lia|].
      replace d with (S (d - j - 1) + j)%nat by lia.
      rewrite wpow_add, wpow_S. replace (mp_val r * (WB * wpow (d - j - 1) * wpow j))
        with (mp_val r * wpow (d - j - 1) * WB * wpow j) by ring.
      rewrite Z.div_mul by (pose proof (wpow_pos j); lia). by rewrite Z.mod_mul. }
  rewrite E, !Hr', select_word' by auto with ssh.
  destruct (Z.testbit n bit); [done|]. by rewrite Z.mul_1_r, mp_word_val.
Qed.

Lemma rshift_bit_pass_spec n bit :
  0 <= bit < 6 ->
  rshift_bit_pass n r bit = mp_of (length r) (mp_val r / if Z.testbit n bit then 2 ^ 2 ^ bit else 1).
Proof using Hr.
  intros Hb. unfold rshift_bit_pass. rewrite shift_mask, Z.shiftl_1_l by lia.
  pose proof (pow2_pos bit). pose proof (Z.pow_lt_mono_r 2 bit 6).
  apply loop_up_words. intros r' j Hj _ Hr'. rewrite !Hr' by lia.
  change BIGNUM_INT_BITS with 64.
  rewrite select_word'; [|auto with ssh|].
  2: { pose proof (mp_word_ok r j Hr) as Hw. apply lor_ok; [lia| |auto with ssh].
       destruct Hw. rewrite shiftr_div by lia. pose proof (pow2_pos (2 ^ bit)).
       split; [apply Z.div_pos; lia|]. apply Z.div_lt_upper_bound; nia. }
  destruct (Z.testbit n bit); [|by rewrite Z.div_1_r, mp_word_val].
  pose proof (mp_rshift_fixed_into_spec r Hr (S j) (2 ^ bit)) as E.
  apply (f_equal (fun l => mp_word l j)) in E; [|lia].
  rewrite mp_word_of in E by lia. rewrite <- E. clear E.
  unfold mp_rshift_fixed_into. change BIGNUM_INT_BITS with 64.
  rewrite Z.mod_small, Z.div_small by lia. destruct (Z.eqb_spec (2 ^ bit) 0); [lia|].
  unfold mp_word at 3. rewrite nth_lookup, list_lookup_fmap, lookup_seq_lt by lia. cbn -[Z.shiftl Z.shiftr wrap].
  by rewrite Nat.add_0_r.
Qed.

End SafeShift.

(** *** The sequences of passes *)

Lemma div_bound v d n : 0 <= v < n -> 0 < d -> 0 <= v / d < n.
Proof.
  intros. split; [apply Z.div_pos; lia|]. apply Z.div_lt_upper_bound; [lia|nia].
Qed.

(** [n mod 2 ^ (k+1)] as an exponent: one more selected shift. *)
Lemma pow_testbit_step b n k :
  0 <= k -> 0 < b -> b ^ (n mod 2 ^ (k + 1)) = b ^ (n mod 2 ^ k) * if Z.testbit n k then b ^ 2 ^ k else 1.
Proof.
  intros Hk Hb. rewrite testbit_mod_pow2 by done. pose proof (pow2_pos k Hk).
  pose proof (Z.mod_pos_bound n (2 ^ k)).
  destruct (Z.testbit n k); [rewrite Z.pow_add_r by lia; done|]. by rewrite Z.add_0_r, Z.mul_1_r.
Qed.

Section Passes.
Context (w : nat) (Hw : Z.of_nat w < 2 ^ 63).

Lemma rshift_bit_passes v n :
  0 <= v < wpow w -> 0 <= n < 64 ->
  fold_left (rshift_bit_pass n) [0; 1; 2; 3; 4; 5] (mp_of w v) = mp_of w (v / 2 ^ n).
Proof using.
  intros Hv Hn.
  assert (forall k : nat, (k <= 6)%nat ->
    fold_left (rshift_bit_pass n) (Z.of_nat <$> seq 0 k) (mp_of w v)
    = mp_of w (v / 2 ^ (n mod 2 ^ Z.of_nat k))) as H.
  { induction k as [|k IH]; intros Hk.
    { cbn -[Z.div Z.modulo]. by rewrite Z.mod_1_r, Z.div_1_r. }
    rewrite seq_S, fmap_app, fold_left_app, IH by lia. cbn [fmap list_fmap fold_left Nat.add].
    rewrite rshift_bit_pass_spec, length_mp_of by (auto with ssh || lia).
    assert (0 < 2 ^ (n mod 2 ^ Z.of_nat k)) by (apply pow2_pos, Z.mod_pos_bound, pow2_pos; lia).
    rewrite mp_val_small by (by apply div_bound).
    rewrite Nat2Z.inj_succ, <- Z.add_1_r, pow_testbit_step, Z.div_div by (try case_match; try apply pow2_pos; lia).
    done. }
  specialize (H 6%nat ltac:(lia)). cbn [seq fmap list_fmap] in H. rewrite Z.mod_small in H by (cbn; lia). exact H.
Qed.

(** The loop over word offsets, for either direction: [op] is the effect of one
    pass on the number, [ok] what the numbers are known to satisfy. *)
Lemma word_passes_spec pass (op : Z -> Z -> Z) (ok : Z -> Prop) v n :
  (forall u d e, 0 < d -> 0 < e -> op (op u d) e = op u (d * e)) ->
  (forall u d, ok u -> 0 < d -> ok (op u d)) ->
  (forall u bit, ok u -> 0 <= bit < 63 ->
     pass (mp_of w u) n bit = mp_of w (op u (if Z.testbit n bit then wpow (Z.to_nat (2 ^ bit)) else 1))) ->
  0 <= n <= Z.of_nat w -> op v 1 = v -> ok v ->
  word_passes pass 64 (mp_of w v) n 0 = mp_of w (op v (wpow (Z.to_nat n))).
Proof using Hw.
  intros Hop Hok Hpass Hn H1 Hv.
  assert (forall fuel k, 0 <= k -> k + Z.of_nat fuel = 64 ->
    word_passes pass fuel (mp_of w (op v (WB ^ (n mod 2 ^ k)))) n k = mp_of w (op v (WB ^ n))) as H.
  { induction fuel as [|fuel IH]; intros k Hk Hf; cbn [word_passes].
    { rewrite Z.mod_small; [done|]. pose proof (Z.pow_lt_mono_r 2 63 k). lia. }
    unfold len. rewrite length_mp_of, shiftr_div by done.
    destruct (Z.eqb_spec (Z.of_nat w / 2 ^ k) 0) as [E|E].
    { apply Z.div_small_iff in E; [|pose proof (pow2_pos k); lia]. rewrite Z.mod_small; [done|lia]. }
    assert (k < 63).
    { destruct (Z.lt_ge_cases k 63); [done|]. exfalso. apply E, Z.div_small.
      pose proof (Z.pow_le_mono_r 2 63 k). lia. }
    pose proof (pow2_pos k Hk). pose proof (Z.mod_pos_bound n (2 ^ k)).
    assert (0 < WB ^ (n mod 2 ^ k)) by (apply Z.pow_pos_nonneg; [done|lia]).
    rewrite Hpass by (auto || lia). rewrite <- (IH (k + 1)) by lia. f_equal. f_equal.
    rewrite pow_testbit_step, Hop by (try case_match; try apply wpow_pos; done || lia).
    unfold wpow. rewrite Z2Nat.id by lia. done. }
  unfold wpow. rewrite Z2Nat.id, <- (H 64%nat 0) by lia.
  rewrite Z.mod_1_r. change (WB ^ 0) with 1. by rewrite H1.
Qed.
End Passes.

(** *** The whole shifts *)

(** [(nw - wordshift) >> 63] tells whether the subtraction wrapped. *)
Lemma clear_flag a b :
  0 <= a < 2 ^ 63 -> 0 <= b < 2 ^ 63 -> Z.shiftr (u64 (a - b)) 63 = Z.b2z (a <? b).
Proof.
  intros. rewrite shiftr_div by lia. unfold wrap. destruct (Z.ltb_spec a b); cbn [Z.b2z]; zdivmod.
Qed.

Section WholeShifts.
Context (r : mp_int) (Hr : mp_ok r) (Hlen : len r < 2 ^ 63) (bits : Z) (Hbits : 0 <= bits < 2 ^ 64).

Lemma pow_bits_split : 2 ^ bits = wpow (Z.to_nat (bits / 64)) * 2 ^ (bits mod 64).
Proof using Hbits.
  rewrite wpow_pow2, <- Z.pow_add_r by zdivmod. f_equal. zdivmod.
Qed.

Lemma pow_bits_large : Z.of_nat (length r) < bits / 64 -> wpow (length r) <= 2 ^ bits.
Proof using Hbits. intros. rewrite wpow_pow2. apply Z.pow_le_mono_r; zdivmod. Qed.

Lemma mp_rshift_safe_in_place_spec :
  mp_rshift_safe_in_place r bits = mp_of (length r) (mp_val r / 2 ^ bits).
Proof using Hr Hlen Hbits.
  unfold mp_rshift_safe_in_place. change BIGNUM_INT_BITS with 64.
  pose proof (mp_val_bound r Hr). unfold len in *.
  rewrite clear_flag, mp_cond_clear_spec by (done || zdivmod).
  pose proof (pow2_pos (bits mod 64) ltac:(zdivmod)). pose proof (wpow_pos (Z.to_nat (bits / 64))).
  destruct (Z.ltb_spec (Z.of_nat (length r)) (bits / 64)) as [Hlt|Hge].
  - pose proof (pow_bits_large Hlt). rewrite (Z.div_small (mp_val r)) by lia.
    assert (forall fuel k, 0 <= k -> word_passes rshift_word_pass fuel (mp_of (length r) 0) (bits / 64) k = mp_of (length r) 0) as Hz.
    { induction fuel as [|fuel IH]; intros k Hk; cbn [word_passes]; [done|]. case_match; [done|].
      rewrite rshift_word_pass_spec, length_mp_of, mp_val_of by auto with ssh.
      rewrite Z.mod_0_l by (pose proof (wpow_pos (length r)); lia).
      rewrite Z.div_0_l by (case_match; [pose proof (wpow_pos (Z.to_nat (2 ^ k)))|]; lia). apply IH. lia. }
    rewrite Hz, rshift_bit_passes by (try split; try apply wpow_pos; zdivmod). by rewrite Z.div_0_l by lia.
  - rewrite (word_passes_spec _ Hlen _ Z.div (fun u => 0 <= u < wpow (length r))).
    + rewrite rshift_bit_passes by (try apply div_bound; done || zdivmod).
      by rewrite pow_bits_split, Z.div_div by lia.
    + intros. apply Z.div_div; lia.
    + intros. by apply div_bound.
    + intros u bit Hu Hb. by rewrite rshift_word_pass_spec, length_mp_of, mp_val_small by (auto with ssh; lia).
    + zdivmod.
    + apply Z.div_1_r.
    + done.
Qed.

(** Shifting by the bits within a word, from the top word down. *)
Lemma lshift_bits_spec :
  let bitshift := bits mod 64 in
  let no_shift := Z.shiftr (64 - bitshift) 6 in
  let mask := u64 (Z.lnot (u64 (- no_shift))) in
  InPlace.loop_down (fun r i =>
    Z.lor (u64 (Z.shiftl (mp_word r i) bitshift))
          (Z.land (Z.shiftr (mp_word_z r (u64 (Z.of_nat i - 1))) (Z.land (64 - bitshift) mask)) mask))
    (length r) r
  = mp_of (length r) (mp_val r * 2 ^ (bits mod 64)).
Proof using Hr Hlen Hbits.
  intros s no_shift mask. assert (0 <= s < 64) by (unfold s; zdivmod).
  assert (mask = if s =? 0 then 0 else ones64) as ->.
  { unfold mask, no_shift. rewrite shiftr_div by lia.
    destruct (Z.eqb_spec s 0) as [->|]; [done|]. by replace ((64 - s) / 2 ^ 6) with 0 by zdivmod. }
  apply loop_down_words. intros r' j Hj Hl Hr'. unfold len in Hlen.
  pose proof (mp_lshift_fixed_into_spec r Hr (S j) s ltac:(lia)) as F.
  apply (f_equal (fun l => mp_word l j)) in F. cbn beta in F. rewrite mp_word_of in F by lia. fold s. rewrite <- F. clear F.
  unfold mp_lshift_fixed_into. change BIGNUM_INT_BITS with 64. rewrite Z.div_small, Z.mod_small by lia.
  unfold mp_word at 2. rewrite nth_lookup, list_lookup_fmap, lookup_seq_lt by lia.
  cbn -[Z.shiftl Z.shiftr wrap Nat.ltb Z.eqb Z.land Z.lor Z.sub]. change (j <? Z.to_nat 0)%nat with false. cbn iota.
  rewrite Nat.sub_0_r, (Hr' j) by lia.
  destruct (Z.eqb_spec s 0) as [->|].
  { rewrite !Z.land_0_r, Z.lor_0_r, Z.shiftl_0_r. apply wrap_id. auto with ssh. }
  rewrite (land_ones64 (64 - s)) by (unfold word_ok; lia). destruct j as [|j].
  - unfold mp_word_z. destruct (Z.ltb_spec (u64 (Z.of_nat 0 - 1)) (len r')) as [Hc|_].
    { change (u64 (Z.of_nat 0 - 1)) with (2 ^ 64 - 1) in Hc. unfold len in Hc. lia. }
    by rewrite Z.shiftr_0_l, Z.land_0_l, Z.lor_0_r.
  - replace (Z.of_nat (S j) - 1) with (Z.of_nat j) by lia.
    rewrite (wrap_id 64 (Z.of_nat j)), mp_word_z_nat, Hr' by (unfold word_ok; lia).
    cbn [Nat.ltb Nat.leb]. rewrite Nat.sub_1_r. cbn [Nat.pred]. f_equal. apply land_ones64.
    destruct (mp_word_ok r j Hr). rewrite shiftr_div by lia. pose proof (pow2_pos (64 - s)).
    unfold word_ok. by apply div_bound; [|lia].
Qed.
End WholeShifts.

Lemma mp_lshift_safe_in_place_spec r bits :
  mp_ok r -> len r < 2 ^ 63 -> 0 <= bits < 2 ^ 64 ->
  mp_lshift_safe_in_place r bits = mp_of (length r) (mp_val r * 2 ^ bits).
Proof.
  intros Hr Hlen Hbits. unfold mp_lshift_safe_in_place.
  change BIGNUM_INT_BITS with 64. change BIGNUM_INT_BITS_BITS with 6.
  pose proof (mp_val_bound r Hr). pose proof (wpow_pos (length r)). pose proof (len_nonneg r).
  rewrite clear_flag, mp_cond_clear_spec by (done || zdivmod).
  assert (exists v, word_passes lshift_word_pass 64
     (mp_of (length r) (if len r <? bits / 64 then 0 else mp_val r)) (bits / 64) 0 = mp_of (length r) v
     /\ v mod wpow (length r) = (mp_val r * wpow (Z.to_nat (bits / 64))) mod wpow (length r)) as (v&->&Ev).
  { unfold len in *. destruct (Z.ltb_spec (Z.of_nat (length r)) (bits / 64)) as [Hlt|Hge].
    - exists 0. split.
      + cut (forall fuel k, 0 <= k -> k + Z.of_nat fuel <= 64 ->
          word_passes lshift_word_pass fuel (mp_of (length r) 0) (bits / 64) k = mp_of (length r) 0); [intros Hz; apply Hz; lia|].
        induction fuel as [|fuel IH]; intros k Hk Hf; cbn [word_passes]; [done|]. case_match eqn:E; [done|].
        assert (k < 63).
        { destruct (Z.lt_ge_cases k 63); [done|]. apply Z.eqb_neq in E. exfalso. apply E.
          rewrite shiftr_div by lia. unfold len. rewrite length_mp_of. apply Z.div_small.
          pose proof (Z.pow_le_mono_r 2 63 k). lia. }
        rewrite lshift_word_pass_spec, length_mp_of, mp_val_of
          by (auto with ssh; unfold len; rewrite ?length_mp_of; lia).
        rewrite Z.mod_0_l, Z.mul_0_l by lia. apply IH; lia.
      + replace (Z.to_nat (bits / 64)) with (Z.to_nat (bits / 64) - length r + length r)%nat by lia.
        rewrite wpow_add, Z.mul_assoc, Z.mod_mul, Z.mod_0_l by lia. done.
    - eexists. split; [|reflexivity].
      apply (word_passes_spec _ Hlen _ Z.mul (fun _ => True)); try done; try (intros; lia).
      + intros u bit _ Hb. rewrite lshift_word_pass_spec, length_mp_of, mp_val_of
          by (auto with ssh; unfold len; rewrite ?length_mp_of; lia).
        apply mp_of_eq. rewrite Z.mul_mod_idemp_l by lia. done.
      + zdivmod. }
  rewrite lshift_bits_spec by (auto with ssh; unfold len in *; rewrite ?length_mp_of; done).
  rewrite length_mp_of, mp_val_of, Ev. apply mp_of_eq.
  rewrite Z.mul_mod_idemp_l, (pow_bits_split bits) by lia. f_equal. ring.
Qed.

Lemma mp_rshift_safe_spec x bits :
  mp_ok x -> (0 < length x)%nat -> len x < 2 ^ 63 -> 0 <= bits < 2 ^ 64 ->
  mp_rshift_safe x bits = Some (mp_of (length x) (mp_val x / 2 ^ bits)).
Proof.
  intros. unfold mp_rshift_safe. rewrite mp_copy_spec by done. cbn [mbind option_bind].
  by rewrite mp_rshift_safe_in_place_spec.
Qed.

(** ** The highest nonzero word *)

(** What the search has found in the words [x] read so far. *)
Definition hi_found (x : mp_int) (index hi lo : Z) (s : hi_state) : Prop :=
  curr_index s = len x /\ curr_hi s = mp_word x (length x - 1) /\ 
  (if mp_val x =? 0 then hi_index s = index /\ hi_hi s = hi /\ hi_lo s = lo
  else exists k : nat, (k < length x)%nat /\ hi_index s = Z.of_nat k /\ wpow k <= mp_val x < wpow (S k)
       /\ hi_hi s = mp_val x / wpow k /\ hi_hi s * WB + hi_lo s = mp_val x * WB / wpow k
       /\ word_ok 64 (hi_lo s)).

Lemma mp_word_last x w : mp_word (x ++ [w]) (length (x ++ [w]) - 1) = w.
Proof. unfold mp_word. rewrite length_app, Nat.add_sub. by rewrite nth_middle. Qed.

Lemma mp_val_snoc x w : mp_val (x ++ [w]) = mp_val x + wpow (length x) * w.
Proof. rewrite mp_val_app. cbn [mp_val]. ring. Qed.

Lemma div_add_pow v a b : 0 <= v < a -> (v + a * b) / a = b.
Proof. intros. rewrite Z.mul_comm, Z.div_add, Z.div_small by lia. lia. Qed.

(** The two words at the top of [x ++ [w]], the lower one as it was left in [curr_hi]. *)
Lemma top_pair x w :
  mp_ok x -> word_ok 64 w ->
  w * WB + mp_word x (length x - 1) = mp_val (x ++ [w]) * WB / wpow (length x).
Proof.
  intros Hx Hw. rewrite mp_val_snoc. destruct x as [|u x _] using rev_ind.
  { cbn [length mp_val]. rewrite wpow_0, Z.div_1_r. cbn. ring. }
  rewrite mp_word_last, mp_val_snoc. apply Forall_app in Hx as [Hx Hu].
  pose proof (mp_val_bound x Hx). rewrite length_app. cbn [length]. rewrite Nat.add_1_r, wpow_S.
  pose proof (wpow_pos (length x)).
  replace ((mp_val x + wpow (length x) * u + WB * wpow (length x) * w) * WB)
    with ((mp_val x + wpow (length x) * (u + w * WB)) * WB) by ring.
  rewrite (Z.mul_comm WB), Z.div_mul_cancel_r by (done || lia).
  rewrite div_add_pow by lia. ring.
Qed.

Lemma find_highest_inv x index hi lo :
  mp_ok x -> len x < 2 ^ 64 -> word_ok 64 index -> word_ok 64 hi -> word_ok 64 lo ->
  hi_found x index hi lo (fold_left (find_highest_step 0) x (mkHi 0 0 0 index hi lo)).
Proof.
  intros Hx Hl Hindex Hhi Hlo. induction x as [|w x IH] using rev_ind; [by split|].
  apply Forall_app in Hx as [Hx Hw]. apply Forall_inv in Hw. rewrite len_app in Hl. change (len [w]) with 1 in Hl.
  specialize (IH Hx ltac:(lia)). rewrite fold_left_app. cbn [fold_left].
  destruct (fold_left _ _ _) as [ci chi clo ix h l]. destruct IH as (Eci&Echi&IH). cbn in Eci, Echi, IH. subst ci chi.
  unfold find_highest_step, hi_found. cbn -[Z.lxor Z.land Z.lor Z.shiftl mp_val normalise_to_1 wpow WB mp_word length].
  rewrite !Z.lor_0_l, !Z.shiftl_0_r, (wrap_id 64 w), (wrap_id 64 (mp_word x _)) by auto with ssh.
  rewrite normalise_to_1_spec, mask_b2z, mp_word_last by done. split_and!; [by rewrite len_app|done|].
  pose proof (mp_val_bound x Hx) as Hv. pose proof (wpow_pos (length x)).
  assert (word_ok 64 ix /\ word_ok 64 h /\ word_ok 64 l) as (Hix&Hh&Hll).
  { destruct (Z.eqb_spec (mp_val x) 0); [by destruct IH as (->&->&->)|].
    destruct IH as (k&Hk&->&Hr&->&_&?). split_and!; [unfold word_ok, len in *; lia| |done].
    pose proof (wpow_pos k). rewrite wpow_S in Hr. split; [apply Z.div_pos; lia|].
    apply Z.div_lt_upper_bound; [lia|]. change (2 ^ 64) with WB. lia. }
  rewrite !select_word by (auto with ssh; unfold word_ok; pose proof (len_nonneg x); lia).
  rewrite mp_val_snoc. destruct (Z.eqb_spec w 0) as [->|Hw0]; cbn [negb].
  - rewrite Z.mul_0_r, Z.add_0_r. destruct (Z.eqb_spec (mp_val x) 0); [done|].
    destruct IH as (k&Hk&IH). exists k. split; [rewrite length_app; lia|done].
  - destruct Hw as [Hw1 Hw2]. destruct (Z.eqb_spec (mp_val x + wpow (length x) * w) 0); [nia|].
    exists (length x). rewrite length_app. cbn [length]. change (2 ^ 64) with WB in Hw2.
    split_and!; [lia|done|nia|rewrite wpow_S; nia|by rewrite div_add_pow by lia| |auto with ssh].
    rewrite <- mp_val_snoc. by apply top_pair.
Qed.

(** ** The number of bits *)

Lemma hibit_step_spec hw idx i :
  0 < hw < 2 ^ (2 * i) -> hw < 2 ^ 64 -> 1 <= i <= 32 -> 0 <= idx < 64 ->
  exists hw' idx', hibit_step (hw, idx) i = (hw', idx') /\ 0 < hw' < 2 ^ i /\ hw' <= hw
    /\ idx <= idx' <= idx + i /\ Z.log2 hw + idx = Z.log2 hw' + idx'.
Proof.
  intros Hhw Hlt Hi Hidx. unfold hibit_step. set (s := Z.shiftr hw i).
  assert (s = hw / 2 ^ i) as Es by (apply shiftr_div; lia).
  pose proof (pow2_pos i). assert (0 <= s < 2 ^ i).
  { rewrite Es. split; [apply Z.div_pos; lia|]. apply Z.div_lt_upper_bound; [lia|].
    rewrite <- Z.pow_add_r by lia. replace (i + i) with (2 * i) by lia. lia. }
  pose proof (Z.pow_le_mono_r 2 i 32). 
  assert (Z.shiftr (u64 (- s)) (BIGNUM_INT_BITS - 1) = Z.b2z (negb (s =? 0))) as ->.
  { change (BIGNUM_INT_BITS - 1) with 63. rewrite shiftr_div by lia. unfold wrap.
    destruct (Z.eqb_spec s 0) as [->|]; [done|]. cbn [negb Z.b2z]. zdivmod. }
  rewrite mask_b2z, select_word by (unfold word_ok; lia).
  destruct (Z.eqb_spec s 0) as [E0|E0]; cbn [negb].
  - exists hw, idx. rewrite Z.land_0_r, Z.add_0_r, wrap_id by (unfold word_ok; lia).
    split_and!; try lia; try done. rewrite Es in E0. apply Z.div_small_iff in E0; lia.
  - exists s, (idx + i). rewrite land_ones64, wrap_id by (unfold word_ok; lia).
    assert (s <= hw) by (rewrite Es; apply Z.div_le_upper_bound; nia).
    split_and!; try lia; [done|]. unfold s. rewrite Z.log2_shiftr by lia.
    assert (2 ^ i <= hw) as Hge. { destruct (Z.lt_ge_cases hw (2 ^ i)); [|lia]. rewrite Z.div_small in Es; lia. }
    apply Z.log2_le_pow2 in Hge; lia.
Qed.

Lemma hibit_loop_spec hw :
  0 < hw < 2 ^ 64 ->
  exists x, fold_left hibit_step [32; 16; 8; 4; 2; 1] (hw, 0) = (x, Z.log2 hw) /\ Z.log2 hw < 64.
Proof.
  intros Hhw. cbn [fold_left].
  destruct (hibit_step_spec hw 0 32) as (h1&i1&->&?&?&?&?); [lia..|].
  destruct (hibit_step_spec h1 i1 16) as (h2&i2&->&?&?&?&?); [lia..|].
  destruct (hibit_step_spec h2 i2 8) as (h3&i3&->&?&?&?&?); [lia..|].
  destruct (hibit_step_spec h3 i3 4) as (h4&i4&->&?&?&?&?); [lia..|].
  destruct (hibit_step_spec h4 i4 2) as (h5&i5&->&?&?&?&?); [lia..|].
  destruct (hibit_step_spec h5 i5 1) as (h6&i6&->&?&?&?&?); [lia..|].
  assert (h6 = 1) as -> by lia. exists 1. change (Z.log2 1) with 0 in *. split; [f_equal; lia|].
  apply Z.log2_lt_pow2; lia.
Qed.

Lemma mp_get_nbits_spec x :
  mp_ok x -> len x < 2 ^ 57 ->
  mp_get_nbits x = if mp_val x =? 0 then 0 else Z.log2 (mp_val x) + 1.
Proof.
  intros Hx Hl. unfold mp_get_nbits, mp_find_highest_nonzero_word_pair.
  pose proof (find_highest_inv x (u64 (-1)) ones64 0 Hx ltac:(lia) ltac:(done) ltac:(done) ltac:(done)) as (_&_&F).
  set (s := fold_left _ _ _) in *. destruct s as [? ? ? ix h l]. cbn [hi_index hi_hi hi_lo] in F |- *.
  destruct (Z.eqb_spec (mp_val x) 0) as [E|E].
  { destruct F as (->&->&_). done. }
  destruct F as (k&Hk&->&Hr&->&_). pose proof (wpow_pos k). rewrite wpow_S in Hr. unfold len in Hl.
  assert (0 < mp_val x / wpow k < WB) as Hhw.
  { split; [apply Z.div_str_pos; lia|apply Z.div_lt_upper_bound; lia]. }
  rewrite (wrap_id 64 (mp_val x / wpow k)) by (unfold word_ok; change (2 ^ 64) with WB; lia).
  destruct (hibit_loop_spec _ Hhw) as (?&->&Hlog).
  assert (64 * Z.of_nat k <= Z.log2 (mp_val x)) by (apply Z.log2_le_pow2; rewrite <- ?wpow_pow2; lia).
  rewrite wpow_pow2, <- Z.shiftr_div_pow2, Z.log2_shiftr in * by lia.
  change BIGNUM_INT_BITS_BITS with 6. rewrite Z.shiftl_mul_pow2 by lia.
  rewrite (wrap_id 64 (Z.of_nat k * 2 ^ 6)) by (unfold word_ok; lia).
  rewrite wrap_id by (unfold word_ok; lia). lia.
Qed.

(** Shifting by a secret amount: the two "safe" shifts, made of conditional passes
    whose number depends only on the size, are exactly the shifts by [bits] within the
    words of the number, for every shift count (including those that shift everything
    out), and [mp_get_nbits] is the length of the binary expansion, 0 for 0. *)
Theorem mp_safe_shifts_correct (x : mp_int) (bits : Z) :
  mp_ok x -> (0 < length x)%nat -> len x < 2 ^ 57 -> 0 <= bits < 2 ^ 64 ->
  (exists r, mp_rshift_safe x bits = Some r /\ mp_ok r /\ length r = length x
     /\ mp_val r = mp_val x / 2 ^ bits)
  /\ mp_val (mp_lshift_safe_in_place x bits) = mp_val x * 2 ^ bits mod 2 ^ (64 * len x)
  /\ 2 ^ mp_get_nbits x <= 2 * mp_val x + 1 /\ mp_val x < 2 ^ mp_get_nbits x.
Proof.
  intros Hx Hl Hs Hb. pose proof (mp_val_bound x Hx). pose proof (pow2_pos bits ltac:(lia)). split; [|split].
  - rewrite mp_rshift_safe_spec by (done || lia). eexists. split; [done|]. split; [auto with ssh|].
    split; [apply length_mp_of|]. apply mp_val_small. split; [apply Z.div_pos; lia|apply Z.div_lt_upper_bound; nia].
  - rewrite mp_lshift_safe_in_place_spec by (done || lia). by rewrite mp_val_of, wpow_pow2.
  - rewrite mp_get_nbits_spec by done. destruct (Z.eqb_spec (mp_val x) 0) as [->|]; [done|].
    pose proof (Z.log2_spec (mp_val x) ltac:(lia)). pose proof (Z.log2_nonneg (mp_val x)).
    rewrite <- Z.add_1_r, Z.pow_add_r in * by lia. lia.
Qed.

