(* ===== verification/MpMul.v ===== *)
(** * Multiprecision integers: multiplication

    [mp_mul_add_simple], the schoolbook product, and [mp_mul_internal], the
    Karatsuba recursion with its truncated variant for short outputs.  The scratch
    pool is represented by its size: every piece allocated from it is written whole
    (cleared, or filled by [mp_add_into]) before it is read, while each assertion on
    the size is kept.  The recursion is on fuel; [mp_mul_internal_spec] shows that
    [inlen + 1] is always enough, that no assertion fails and that the result is the
    product modulo the size of the output. *)

From S2P Require Import Prelude Memory Mpint.

(** The loops over [bp] and then over the rest of [rq]. *)
Fixpoint carry_row (rq : mp_int) (carry : Z) : mp_int :=
  match rq with
  | [] => []
  | r :: rq => let '(out, carry) := BignumADC carry r 0 in out :: carry_row rq carry
  end.
Fixpoint mul_row (adata : Z) (bp rq : mp_int) (carry : Z) : mp_int :=
  match bp, rq with
  | bdata :: bp, r :: rq =>
      let '(carry, out) := BignumMULADD2 adata bdata r carry in out :: mul_row adata bp rq carry
  | _, _ => carry_row rq carry
  end.

(** [ap] and [rp] advance together; the words of [r] behind [rp] are final. *)
Fixpoint mp_mul_add_simple (rp ap b : mp_int) : mp_int :=
  match ap, rp with
  | adata :: ap, _ :: _ =>
      match mul_row adata b rp 0 with
      | [] => []
      | r :: rp => r :: mp_mul_add_simple rp ap b
      end
  | _, _ => rp
  end.

Definition KARATSUBA_THRESHOLD : nat := 24.

Definition mp_mul_scratchspace_unary (n : nat) : nat := n * 6.
Definition mp_mul_scratchspace (rw aw bw : nat) : nat :=
  let inlen := size_t_min rw (size_t_max aw bw) in mp_mul_scratchspace_unary inlen.

(** What is left of a pool of [pool] words. *)
Definition mp_alloc_from_scratch (pool n : nat) : option nat :=
  assert! (n <=? pool)%nat; Some (pool - n)%nat.

Fixpoint mp_mul_internal (fuel rw : nat) (a b : mp_int) (scratch : nat) : option mp_int :=
  match fuel with
  | O => None
  | S fuel =>
      let inlen := size_t_min rw (size_t_max (length a) (length b)) in
      assert! (mp_mul_scratchspace_unary inlen <=? scratch)%nat;
      let r := replicate rw 0 in
      if (inlen <? KARATSUBA_THRESHOLD)%nat || (length a =? 0)%nat || (length b =? 0)%nat
      then Some (mp_mul_add_simple r a b)
      else
        let toplen := (inlen / 2)%nat in
        let botlen := (inlen - toplen)%nat in
        let a0 := mp_make_alias a 0 botlen in
        let b0 := mp_make_alias b 0 botlen in
        let a1 := mp_make_alias a botlen toplen in
        let b1 := mp_make_alias b botlen toplen in
        let r0 := mp_make_alias r 0 (botlen * 2) in
        let r2 := mp_make_alias r (botlen * 2) rw in
        r0 ← mp_mul_internal fuel (length r0) a0 b0 scratch;
        r2 ← mp_mul_internal fuel (length r2) a1 b1 scratch;
        (* [r0] and [r2] are the two parts of [r]; [r1] overlaps both *)
        let r := r0 ++ r2 in
        let r1 := mp_make_alias r botlen rw in
        if (rw <? inlen * 2)%nat then
          let sw := size_t_min (botlen + toplen) (length r1) in
          scratch ← mp_alloc_from_scratch scratch sw;
          s ← mp_mul_internal fuel sw a0 b1 scratch;
          let r1 := mp_add_into (length r1) r1 s in
          s ← mp_mul_internal fuel sw a1 b0 scratch;
          let r1 := mp_add_into (length r1) r1 s in
          Some (take botlen r ++ r1)
        else
          scratch ← mp_alloc_from_scratch scratch (botlen + 1);
          scratch ← mp_alloc_from_scratch scratch (botlen + 1);
          let asum := mp_add_into (botlen + 1) a0 a1 in
          let bsum := mp_add_into (botlen + 1) b0 b1 in
          scratch ← mp_alloc_from_scratch scratch (botlen * 2 + 1);
          product ← mp_mul_internal fuel (botlen * 2 + 1) asum bsum scratch;
          let product := mp_sub_into (length product) product r0 in
          let product := mp_sub_into (length product) product r2 in
          let r1 := mp_add_into (length r1) r1 product in
          Some (take botlen r ++ r1)
  end.

Definition mul_fuel (rw : nat) (a b : mp_int) : nat :=
  S (Nat.min rw (Nat.max (length a) (length b))).

Definition mp_mul_into (rw : nat) (a b : mp_int) : option mp_int :=
  scratch ← mp_make_sized (mp_mul_scratchspace rw (length a) (length b));
  mp_mul_internal (mul_fuel rw a b) rw a b (length scratch).

Definition mp_mul (x y : mp_int) : option mp_int :=
  r ← mp_make_sized (length x + length y); mp_mul_into (length r) x y.

Lemma length_add_words aw bw c :
  length aw = length bw -> length (fst (add_words aw bw c)) = length aw.
Proof.
  revert bw c; induction aw as [|a aw IH]; intros [|b bw] c H; try done.
  cbn [add_words]. destruct (BignumADC _ _ _) as [o c']. injection H as H. specialize (IH bw c' H).
  destruct (add_words aw bw c'). cbn in *. by rewrite IH.
Qed.

Lemma length_mp_add_into rw a b : length (mp_add_into rw a b) = rw.
Proof.
  unfold mp_add_into, mp_add_into_internal, mp_add_masked_into. rewrite mp_add_masked_loop_words.
  by rewrite length_add_words; rewrite !length_fmap, ?length_seq.
Qed.

(** ** The schoolbook product *)

Lemma carry_row_spec rq c :
  mp_ok rq -> word_ok 64 c -> carry_row rq c = mp_of (length rq) (mp_val rq + c).
Proof.
  intros Hr. revert c; induction Hr as [|r rq Hr Hrq IH]; intros c Hc; [done|].
  cbn [carry_row length mp_of mp_val]. rewrite BignumADC_spec, Z.add_0_r by (done || lia).
  rewrite IH. 2: { destruct Hc, Hr. unfold word_ok, WB. zdivmod. }
  replace (r + WB * mp_val rq + c) with (c + r + mp_val rq * WB) by ring.
  by rewrite Z.mod_add, Z.div_add, (Z.add_comm (mp_val rq)).
Qed.

Lemma mul_row_spec ad b rq c :
  word_ok 64 ad -> mp_ok b -> mp_ok rq -> word_ok 64 c ->
  mul_row ad b rq c = mp_of (length rq) (mp_val rq + ad * mp_val b + c).
Proof.
  intros Ha Hb. revert rq c; induction Hb as [|x b Hx Hb IH]; intros rq c Hr Hc.
  { cbn [mp_val]. rewrite Z.mul_0_r, Z.add_0_r.
    replace (mul_row ad [] rq c) with (carry_row rq c) by (by destruct rq). by apply carry_row_spec. }
  destruct Hr as [|r rq Hr Hrq]; [done|].
  cbn [mul_row length mp_of mp_val]. rewrite BignumMULADD2_spec by done.
  rewrite IH; [|done|].
  2: { apply word_WB in Ha as [], Hx as [], Hr as [], Hc as []. split.
       - apply Z.div_pos; [nia|done].
       - apply Z.div_lt_upper_bound; [done|]. change (2 ^ 64) with WB. nia. }
  replace (r + WB * mp_val rq + ad * (x + WB * mp_val b) + c)
    with (ad * x + r + c + (mp_val rq + ad * mp_val b) * WB) by ring.
  rewrite Z.mod_add, Z.div_add by done. f_equal. f_equal. ring.
Qed.

Lemma mp_mul_add_simple_spec r a b :
  mp_ok r -> mp_ok a -> mp_ok b ->
  mp_mul_add_simple r a b = mp_of (length r) (mp_val r + mp_val a * mp_val b).
Proof.
  intros Hr Ha Hb. revert r Hr; induction Ha as [|x a Hx Ha IH]; intros r Hr.
  { cbn [mp_mul_add_simple mp_val]. rewrite Z.mul_0_l, Z.add_0_r, mp_of_val by done. by destruct r. }
  destruct r as [|r0 r]; [done|]. cbn [mp_mul_add_simple]. rewrite mul_row_spec by done.
  cbn [length mp_of]. rewrite IH, length_mp_of by auto with ssh. rewrite Z.add_0_r. cbn [mp_val].
  set (t := r0 + WB * mp_val r).
  replace (t + (x + WB * mp_val a) * mp_val b)
    with (t + x * mp_val b + mp_val a * mp_val b * WB) by ring.
  rewrite Z.mod_add, Z.div_add by done. f_equal. apply mp_of_eq.
  rewrite mp_val_of, Z.add_mod_idemp_l by (pose proof (wpow_pos (length r)); lia). done.
Qed.

(** ** Karatsuba *)

Lemma length_mp_make_alias x o n : length (mp_make_alias x o n) = Nat.min n (length x - o).
Proof. by rewrite mp_make_alias_spec, length_take, length_drop. Qed.

Lemma mul_lt_wpow u v m n : 0 <= u < wpow m -> 0 <= v < wpow n -> 0 <= u * v < wpow (m + n).
Proof. intros. rewrite wpow_add. nia. Qed.

Section Karatsuba.
Context (rw inlen : nat).

(** A number cut at [botlen], as far as the output can see it. *)
Lemma split_val x botlen toplen :
  mp_ok x -> (inlen = botlen + toplen)%nat -> (length x <= inlen \/ rw <= inlen)%nat ->
  mp_val x mod wpow rw
  = (mp_val (mp_make_alias x 0 botlen) + wpow botlen * mp_val (mp_make_alias x botlen toplen)) mod wpow rw.
Proof using.
  intros Hx Hin Hlen.
  assert (mp_val (mp_make_alias x 0 botlen) + wpow botlen * mp_val (mp_make_alias x botlen toplen)
          = mp_val (mp_make_alias x 0 inlen)) as ->.
  { rewrite !mp_make_alias_spec, drop_0. destruct (Nat.le_gt_cases botlen (length x)).
    - replace (wpow botlen) with (wpow (length (take botlen x))) by (rewrite length_take; f_equal; lia).
      rewrite <- mp_val_app. f_equal. rewrite Hin. by rewrite take_take_drop.
    - rewrite (drop_ge x), take_nil, !take_ge by lia. cbn [mp_val]. ring. }
  rewrite mp_val_alias_low by done. destruct Hlen.
  - rewrite (Z.mod_small (mp_val x) (wpow inlen)); [done|].
    pose proof (mp_val_bound x Hx). pose proof (wpow_le (length x) inlen). lia.
  - symmetry. apply Z.mod_mod_divide. exists (wpow (inlen - rw)). rewrite <- wpow_add. f_equal. lia.
Qed.

Lemma mul_split_val a b botlen toplen :
  mp_ok a -> mp_ok b -> (inlen = botlen + toplen)%nat ->
  (length a <= inlen \/ rw <= inlen)%nat -> (length b <= inlen \/ rw <= inlen)%nat ->
  let a0 := mp_val (mp_make_alias a 0 botlen) in let a1 := mp_val (mp_make_alias a botlen toplen) in
  let b0 := mp_val (mp_make_alias b 0 botlen) in let b1 := mp_val (mp_make_alias b botlen toplen) in
  (mp_val a * mp_val b) mod wpow rw
  = (a0 * b0 + a1 * b1 * wpow (botlen * 2) + (a0 * b1 + a1 * b0) * wpow botlen) mod wpow rw.
Proof using.
  intros Ha Hb Hin La Lb a0 a1 b0 b1. pose proof (wpow_pos rw).
  rewrite Z.mul_mod, (split_val a botlen toplen), (split_val b botlen toplen), <- Z.mul_mod by (done || lia).
  f_equal. fold a0 a1 b0 b1. replace (botlen * 2)%nat with (botlen + botlen)%nat by lia.
  rewrite wpow_add. ring.
Qed.

(** The two outer products side by side. *)
Lemma outer_products lo hi bot2 :
  0 <= lo < wpow bot2 ->
  mp_of (Nat.min bot2 rw) lo ++ mp_of (rw - bot2) hi = mp_of rw (lo + hi * wpow bot2).
Proof using.
  intros Hlo. destruct (Nat.le_gt_cases bot2 rw).
  - rewrite Nat.min_l by lia. replace rw with (bot2 + (rw - bot2))%nat at 2 by lia.
    rewrite mp_of_app. pose proof (wpow_pos bot2). f_equal.
    + apply mp_of_eq. by rewrite Z.mod_add by lia.
    + by rewrite Z.div_add, Z.div_small by lia.
  - rewrite Nat.min_r by lia. replace (rw - bot2)%nat with 0%nat by lia. rewrite app_nil_r.
    apply mp_of_eq. replace bot2 with (bot2 - rw + rw)%nat by lia.
    rewrite wpow_add, Z.mul_assoc, Z.mod_add by (pose proof (wpow_pos rw); lia). done.
Qed.

(** Adding into the alias [r1] adds at its offset. *)
Lemma add_alias v mid m botlen :
  mp_ok mid -> mp_val mid mod wpow (rw - botlen) = m mod wpow (rw - botlen) ->
  mp_add_into (rw - botlen) (mp_of (rw - botlen) (v / wpow botlen)) mid
  = mp_of (rw - botlen) ((v + m * wpow botlen) / wpow botlen).
Proof using.
  intros Hm E. rewrite mp_add_into_spec by auto with ssh.
  pose proof (wpow_pos botlen). pose proof (wpow_pos (rw - botlen)).
  rewrite Z.div_add by lia. apply mp_of_eq. rewrite mp_val_of, Z.add_mod_idemp_l by lia.
  rewrite <- Z.add_mod_idemp_r, E, Z.add_mod_idemp_r by lia. done.
Qed.

Lemma join_alias v m botlen :
  (botlen <= rw)%nat ->
  take botlen (mp_of rw v) ++ mp_of (rw - botlen) ((v + m * wpow botlen) / wpow botlen)
  = mp_of rw (v + m * wpow botlen).
Proof using.
  intros Hb. rewrite take_mp_of by done.
  transitivity (mp_of (botlen + (rw - botlen)) (v + m * wpow botlen)); [|f_equal; lia].
  rewrite mp_of_app. f_equal. apply mp_of_eq. rewrite Z.mod_add; [done|]. pose proof (wpow_pos botlen). lia.
Qed.

(** The cross products computed separately, each cut to the words of [r1]. *)
Lemma finish_short v p q botlen :
  (botlen <= rw)%nat -> 0 <= p < wpow inlen -> 0 <= q < wpow inlen ->
  let sw := Nat.min inlen (rw - botlen) in
  take botlen (mp_of rw v)
    ++ mp_add_into (rw - botlen)
         (mp_add_into (rw - botlen) (mp_of (rw - botlen) (v / wpow botlen)) (mp_of sw p)) (mp_of sw q)
  = mp_of rw (v + (p + q) * wpow botlen).
Proof using.
  intros Hb Hp Hq sw.
  assert (forall u, 0 <= u < wpow inlen ->
    mp_val (mp_of sw u) mod wpow (rw - botlen) = u mod wpow (rw - botlen)) as Hsw.
  { intros u Hu. rewrite mp_val_of. unfold sw. destruct (Nat.le_gt_cases inlen (rw - botlen)).
    - rewrite Nat.min_l, (Z.mod_small u (wpow inlen)) by lia. done.
    - rewrite Nat.min_r by lia. apply Z.mod_mod. pose proof (wpow_pos (rw - botlen)); lia. }
  rewrite (add_alias v _ p), (add_alias _ _ q) by auto with ssh.
  rewrite <- Z.add_assoc, <- Z.mul_add_distr_r. by apply join_alias.
Qed.

(** The cross products from the product of the sums. *)
Lemma finish_long v a0 a1 b0 b1 botlen toplen :
  (inlen = botlen + toplen)%nat -> (toplen <= botlen)%nat -> (inlen * 2 <= rw)%nat -> (0 < botlen)%nat ->
  0 <= a0 < wpow botlen -> 0 <= b0 < wpow botlen -> 0 <= a1 < wpow toplen -> 0 <= b1 < wpow toplen ->
  let product := mp_of (botlen * 2 + 1) ((a0 + a1) * (b0 + b1)) in
  let product := mp_sub_into (length product) product (mp_of (Nat.min (botlen * 2) rw) (a0 * b0)) in
  let product := mp_sub_into (length product) product (mp_of (rw - botlen * 2) (a1 * b1)) in
  take botlen (mp_of rw v) ++ mp_add_into (rw - botlen) (mp_of (rw - botlen) (v / wpow botlen)) product
  = mp_of rw (v + (a0 * b1 + a1 * b0) * wpow botlen).
Proof using.
  intros Hin Htop Hlong Hpos Ha0 Hb0 Ha1 Hb1. cbn zeta.
  rewrite Nat.min_l by lia. rewrite !length_mp_of.
  rewrite (mp_sub_into_spec (mp_of _ _) (mp_of (botlen * 2) _)) by auto with ssh.
  rewrite length_mp_of, mp_sub_into_spec by auto with ssh.
  pose proof (wpow_le toplen botlen Htop). pose proof (mul_lt_wpow a0 b0 botlen botlen Ha0 Hb0) as V0.
  replace (botlen + botlen)%nat with (botlen * 2)%nat in V0 by lia.
  assert (0 <= a1 * b1 < wpow (rw - botlen * 2)) as V2.
  { pose proof (mul_lt_wpow a1 b1 toplen toplen Ha1 Hb1).
    pose proof (wpow_le (toplen + toplen) (rw - botlen * 2)). lia. }
  assert (0 <= (a0 + a1) * (b0 + b1) < wpow (botlen * 2 + 1)) as V1.
  { replace (botlen * 2 + 1)%nat with (S (botlen + botlen)) by lia. rewrite wpow_S, wpow_add.
    assert (4 <= WB) by done. nia. }
  rewrite (mp_val_small _ _ V1), (mp_val_small _ _ V0), (mp_val_small _ _ V2).
  rewrite (mp_val_small _ ((a0 + a1) * (b0 + b1) - a0 * b0)) by nia.
  rewrite (add_alias v _ (a0 * b1 + a1 * b0)); [|auto with ssh|].
  - apply join_alias. lia.
  - rewrite mp_val_small by nia. f_equal. ring.
Qed.
End Karatsuba.

(** What a call of [mp_mul_internal] on smaller inputs may be assumed to do. *)
Definition mul_ih (fuel : nat) : Prop :=
  forall rw a b scratch, mp_ok a -> mp_ok b ->
    let inlen := Nat.min rw (Nat.max (length a) (length b)) in
    (inlen < fuel)%nat -> (6 * inlen <= scratch)%nat ->
    mp_mul_internal fuel rw a b scratch = Some (mp_of rw (mp_val a * mp_val b)).

Lemma mp_alloc_ok pool n : (n <= pool)%nat -> mp_alloc_from_scratch pool n = Some (pool - n)%nat.
Proof. intros. unfold mp_alloc_from_scratch. by rewrite (proj2 (Nat.leb_le _ _)). Qed.

Lemma mp_val_alias_bound x o n : mp_ok x -> 0 <= mp_val (mp_make_alias x o n) < wpow n.
Proof.
  intros Hx. pose proof (mp_val_bound (mp_make_alias x o n) (mp_make_alias_ok x o n Hx)).
  pose proof (wpow_le (length (mp_make_alias x o n)) n) as Hle.
  rewrite length_mp_make_alias in *. lia.
Qed.

Lemma mp_mul_internal_spec fuel : mul_ih fuel.
Proof.
  induction fuel as [|fuel IH]; intros rw a b scratch Ha Hb inlen Hfuel Hs; [lia|].
  cbn [mp_mul_internal]. rewrite size_t_max_spec, size_t_min_spec. fold inlen.
  unfold mp_mul_scratchspace_unary. rewrite (proj2 (Nat.leb_le (inlen * 6) scratch)) by lia.
  case_match eqn:Hsmall.
  { rewrite mp_mul_add_simple_spec by (rewrite <- ?mp_of_0; auto with ssh).
    by rewrite length_replicate, mp_val_zeros. }
  apply orb_false_iff in Hsmall as [Hsmall _]. apply orb_false_iff in Hsmall as [Hsmall _].
  apply Nat.ltb_ge in Hsmall. unfold KARATSUBA_THRESHOLD in Hsmall.
  set (toplen := (inlen / 2)%nat). set (botlen := (inlen - toplen)%nat).
  assert (2 * toplen <= inlen <= 2 * toplen + 1)%nat.
  { pose proof (Nat.div_mod_eq inlen 2). pose proof (Nat.mod_upper_bound inlen 2). unfold toplen. lia. }
  assert (inlen = botlen + toplen)%nat as Hin by (unfold botlen; lia).
  set (a0 := mp_make_alias a 0 botlen). set (a1 := mp_make_alias a botlen toplen).
  set (b0 := mp_make_alias b 0 botlen). set (b1 := mp_make_alias b botlen toplen).
  assert (mp_ok a0 /\ mp_ok a1 /\ mp_ok b0 /\ mp_ok b1) as (Ha0&Ha1&Hb0&Hb1) by (unfold a0, a1, b0, b1; split_and!; auto with ssh).
  assert (length a0 <= botlen /\ length b0 <= botlen /\ length a1 <= toplen /\ length b1 <= toplen)%nat
    as (La0&Lb0&La1&Lb1) by (unfold a0, a1, b0, b1; rewrite !length_mp_make_alias; lia).
  pose proof (mp_val_alias_bound a 0 botlen Ha) as Va0. pose proof (mp_val_alias_bound a botlen toplen Ha) as Va1.
  pose proof (mp_val_alias_bound b 0 botlen Hb) as Vb0. pose proof (mp_val_alias_bound b botlen toplen Hb) as Vb1.
  fold a0 in Va0. fold a1 in Va1. fold b0 in Vb0. fold b1 in Vb1.
  rewrite !length_mp_make_alias, length_replicate, Nat.sub_0_r.
  rewrite !IH by (done || lia). cbn [mbind option_bind].
  pose proof (mul_lt_wpow _ _ _ _ Va0 Vb0) as V00.
  replace (botlen + botlen)%nat with (botlen * 2)%nat in V00 by lia.
  replace (rw `min` (rw - botlen * 2))%nat with (rw - botlen * 2)%nat by lia.
  rewrite outer_products by done. set (v := _ + _).
  assert (mp_of rw (mp_val a * mp_val b)
          = mp_of rw (v + (mp_val a0 * mp_val b1 + mp_val a1 * mp_val b0) * wpow botlen)) as ->.
  { apply mp_of_eq, (mul_split_val rw inlen a b botlen toplen); done || lia. }
  assert (mp_make_alias (mp_of rw v) botlen rw = mp_of (rw - botlen) (v / wpow botlen)) as ->.
  { rewrite mp_make_alias_spec, take_ge by (rewrite length_drop, length_mp_of; lia). apply drop_mp_of. lia. }
  rewrite length_mp_of.
  destruct (Nat.ltb_spec rw (inlen * 2)) as [Hshort|Hlong].
  - rewrite size_t_min_spec, <- Hin. rewrite mp_alloc_ok by lia. cbn [mbind option_bind].
    rewrite !IH by (done || lia). cbn [mbind option_bind]. f_equal.
    rewrite length_mp_add_into. apply finish_short; [lia|rewrite Hin..].
    + by apply mul_lt_wpow.
    + rewrite Nat.add_comm. by apply mul_lt_wpow.
  - rewrite !mp_alloc_ok by lia. cbn [mbind option_bind]. rewrite mp_alloc_ok by lia. cbn [mbind option_bind].
    rewrite mp_alloc_ok by lia. cbn [mbind option_bind]. rewrite !mp_add_into_spec by done.
    pose proof (wpow_le toplen botlen ltac:(lia)).
    assert (2 * wpow botlen <= wpow (botlen + 1)).
    { rewrite Nat.add_1_r, wpow_S. pose proof (wpow_pos botlen). assert (2 <= WB) by done. nia. }
    rewrite IH by (rewrite ?length_mp_of; auto with ssh; lia). cbn [mbind option_bind].
    rewrite !mp_val_small by lia. f_equal. apply (finish_long rw inlen v _ _ _ _ botlen toplen); done || lia.
Qed.

Lemma mp_mul_into_spec rw a b :
  mp_ok a -> mp_ok b -> (0 < rw)%nat -> (0 < length a)%nat ->
  mp_mul_into rw a b = Some (mp_of rw (mp_val a * mp_val b)).
Proof.
  intros Ha Hb Hrw Hla. unfold mp_mul_into, mp_mul_scratchspace, mp_mul_scratchspace_unary, mul_fuel.
  rewrite size_t_max_spec, size_t_min_spec, mp_make_sized_spec by lia. cbn [mbind option_bind].
  rewrite length_mp_of. apply mp_mul_internal_spec; done || lia.
Qed.

Lemma mp_mul_spec x y :
  mp_ok x -> mp_ok y -> (0 < length x)%nat ->
  mp_mul x y = Some (mp_of (length x + length y) (mp_val x * mp_val y)).
Proof.
  intros. unfold mp_mul. rewrite mp_make_sized_spec by lia. cbn [mbind option_bind].
  rewrite length_mp_of. apply mp_mul_into_spec; done || lia.
Qed.

(** C26. Multiplication is exact: for operands of any size, through any depth of the
    Karatsuba recursion, [mp_mul] returns the product, the scratch space it allocates
    suffices at every level, and writing into [rw] words gives the product modulo
    [2 ^ (64 * rw)]. *)
Theorem mp_mul_correct (x y : mp_int) (rw : nat)
  (Hx : mp_ok x) (Hy : mp_ok y) (Hlx : (0 < length x)%nat) (Hrw : (0 < rw)%nat) :
  (exists p, mp_mul x y = Some p /\ mp_val p = mp_val x * mp_val y /\ length p = (length x + length y)%nat)
  /\ (exists p, mp_mul_into rw x y = Some p /\ mp_val p = (mp_val x * mp_val y) mod 2 ^ (64 * Z.of_nat rw)
      /\ length p = rw).
Proof.
  pose proof (mp_val_bound x Hx) as Vx. pose proof (mp_val_bound y Hy) as Vy. split.
  - rewrite mp_mul_spec by done. eexists. split; [done|]. rewrite length_mp_of. split; [|done].
    apply mp_val_small. by apply mul_lt_wpow.
  - rewrite mp_mul_into_spec by done. eexists. split; [done|].
    by rewrite length_mp_of, mp_val_of, wpow_pow2.
Qed.

(** Numbers of thirty words take the Karatsuba branch. *)
Lemma mp_mul_correct_witness :
  let x := mp_of 30 (3 ^ 1000) in let y := mp_of 30 (5 ^ 800) in
  mp_ok x /\ (exists p, mp_mul x y = Some p /\ mp_val p = mp_val x * mp_val y /\ length p = 60%nat)
  /\ (exists p, mp_mul_into 40 x y = Some p /\ mp_val p = (mp_val x * mp_val y) mod 2 ^ (64 * Z.of_nat 40)
      /\ length p = 40%nat).
Proof.
  intros x y. split; [apply mp_of_ok|].
  assert (mp_ok x) as Hx by apply mp_of_ok. assert (mp_ok y) as Hy by apply mp_of_ok.
  destruct (mp_mul_correct x y 40 Hx Hy) as [H1 H2]; [unfold x; rewrite length_mp_of; lia|lia|].
  split; [|exact H2]. destruct H1 as (p&?&?&?). exists p. split; [done|]. split; [done|].
  unfold x, y in *. by rewrite !length_mp_of in *.
Defined.
