(* ===== verification/MpRecip.v ===== *)
(** * The starting approximation of the division: [recip_approx_32]

    [recip_approx_32] evaluates a degree-8 polynomial in fixed-point arithmetic.  Its
    comment reports the error found by running through all [2 ^ 31] inputs; here the
    bound the division relies on is proved.  The exact polynomial is bounded on
    [[2 ^ 31, 2 ^ 32]] by cutting the interval into pieces and looking at the
    coefficients of the polynomial shifted to the start of each piece (a computation
    the kernel runs), and the rounding of each of the eight steps is added. *)

From S2P Require Import Prelude Memory.

Open Scope word_scope.

Definition recip_approx_32 (x : Z) : Z :=
  let r := 0x92db03d6 in
  let r := u64 (0xf63e71ea - (u64 (r * x) >> 34)) in
  let r := u64 (0xb63721e8 - (u64 (r * x) >> 34)) in
  let r := u64 (0x9c2da00e - (u64 (r * x) >> 33)) in
  let r := u64 (0xaada0bb8 - (u64 (r * x) >> 32)) in
  let r := u64 (0xf75cd403 - (u64 (r * x) >> 31)) in
  let r := u64 (0xecf97a41 - (u64 (r * x) >> 31)) in
  let r := u64 (0x90d876cd - (u64 (r * x) >> 31)) in
  let r := u64 (0x6682799a0 - (u64 (r * x) >> 26)) in
  u32 r.

(** The example the source's comment gives. *)
Example recip_comment : recip_approx_32 4226800006 = 2182115287.
Proof. reflexivity. Qed.

(** ** Polynomials, by their coefficients, lowest first *)

Module Poly.

Fixpoint eval (l : list Z) (x : Z) : Z :=
  match l with [] => 0 | c :: l => c + x * eval l x end.

(** [sum c_j t^j d^(n-1-j)]: the value at [t / d], scaled. *)
Fixpoint heval (l : list Z) (t d : Z) : Z :=
  match l with [] => 0 | c :: l => c * d ^ Z.of_nat (length l) + t * heval l t d end.

(** Coefficients in the variable [x / d]. *)
Fixpoint scale (l : list Z) (f d : Z) : list Z :=
  match l with [] => [] | c :: l => c * f :: scale l (f * d) d end.

Fixpoint add (l k : list Z) : list Z :=
  match l, k with a :: l, b :: k => a + b :: add l k | _, _ => [] end.

(** The polynomial with its variable increased by one. *)
Fixpoint shift1 (l : list Z) : list Z :=
  match l with [] => [] | c :: l => let s := shift1 l in add (c :: s) (s ++ [0]) end.

(** Bounds of the polynomial on [[0, 1]]. *)
Fixpoint hi (l : list Z) : Z := match l with [] => 0 | c :: l => c + Z.max 0 (hi l) end.
Fixpoint lo (l : list Z) : Z := match l with [] => 0 | c :: l => c + Z.min 0 (lo l) end.

(** [kmin] and [kmax] bound the polynomial on the next [n] unit intervals. *)
Fixpoint check (n : nat) (l : list Z) (kmin kmax : Z) : bool :=
  match n with
  | O => true
  | S n => (kmin <=? lo l) && (hi l <=? kmax) && check n (shift1 l) kmin kmax
  end.

Lemma length_add l k : length l = length k -> length (add l k) = length l.
Proof. revert k; induction l; intros [|]; simpl; auto. Qed.

Lemma length_shift1 l : length (shift1 l) = length l.
Proof.
  induction l as [|c l IH]; [done|]. cbn [shift1]. rewrite length_add; [by simpl; rewrite IH|].
  rewrite length_app. simpl. lia.
Qed.

Lemma length_scale l f d : length (scale l f d) = length l.
Proof. revert f; induction l; intros; simpl; auto. Qed.

Lemma heval_add l k t d :
  length l = length k -> heval (add l k) t d = heval l t d + heval k t d.
Proof.
  revert k; induction l as [|a l IH]; intros [|b k] H; try done. injection H as H.
  cbn [add heval]. rewrite IH, length_add, H by done. ring.
Qed.

Lemma heval_snoc0 l t d : heval (l ++ [0]) t d = d * heval l t d.
Proof.
  induction l as [|c l IH]; cbn [app heval]; [simpl; ring|].
  rewrite IH, length_app. cbn [length]. rewrite Nat.add_1_r, Nat2Z.inj_succ, Z.pow_succ_r by lia. ring.
Qed.

Lemma heval_shift1 l t d : heval (shift1 l) t d = heval l (t + d) d.
Proof.
  induction l as [|c l IH]; [done|]. cbn [shift1].
  rewrite heval_add by (rewrite length_app; simpl; lia).
  rewrite heval_snoc0. cbn [heval]. rewrite IH, length_shift1. ring.
Qed.

Lemma heval_scale l f x d :
  heval (scale l f d) x d = f * d ^ Z.of_nat (length l - 1) * eval l x.
Proof.
  revert f; induction l as [|c l IH]; intros f; [cbn; ring|]. cbn [scale heval eval].
  rewrite IH, length_scale. cbn [length]. rewrite Nat.sub_succ, Nat.sub_0_r.
  destruct l as [|c' l]; [cbn; ring|]. cbn [length]. rewrite Nat.sub_succ, Nat.sub_0_r.
  rewrite Nat2Z.inj_succ, Z.pow_succ_r by lia. ring.
Qed.

Lemma heval_bounds l t d :
  0 <= t <= d ->
  lo l * d ^ Z.of_nat (length l - 1) <= heval l t d <= hi l * d ^ Z.of_nat (length l - 1).
Proof.
  intros Ht. induction l as [|c l IH]; [cbn; lia|]. cbn [lo hi heval length].
  rewrite Nat.sub_succ, Nat.sub_0_r. destruct l as [|c' l]; [cbn; lia|].
  set (k := c' :: l) in *. change (length k) with (S (length l)) in *.
  rewrite Nat.sub_succ, Nat.sub_0_r in IH. rewrite Nat2Z.inj_succ, Z.pow_succ_r by lia.
  assert (0 <= d ^ Z.of_nat (length l)) by (apply Z.pow_nonneg; lia).
  set (p := d ^ Z.of_nat (length l)) in *. clearbody p k. nia.
Qed.

Lemma check_sound n l kmin kmax i t d :
  check n l kmin kmax = true -> 0 <= t <= d -> (i < n)%nat ->
  kmin * d ^ Z.of_nat (length l - 1) <= heval l (t + Z.of_nat i * d) d <= kmax * d ^ Z.of_nat (length l - 1).
Proof.
  intros Hc Ht. revert l i Hc; induction n as [|n IH]; intros l i Hc Hi; [lia|].
  cbn [check] in Hc. apply andb_true_iff in Hc as [Hb Hc]. bsimpl. destruct i as [|i].
  - rewrite Z.mul_0_l, Z.add_0_r. pose proof (heval_bounds l t d Ht).
    assert (0 <= d ^ Z.of_nat (length l - 1)) by (apply Z.pow_nonneg; lia). nia.
  - specialize (IH _ i Hc ltac:(lia)). rewrite length_shift1, heval_shift1 in IH.
    replace (t + Z.of_nat (S i) * d) with (t + Z.of_nat i * d + d) by lia. done.
Qed.

Lemma heval_iter n l t d : heval (Nat.iter n shift1 l) t d = heval l (t + Z.of_nat n * d) d.
Proof.
  revert t; induction n as [|n IH]; intros t; [cbn; f_equal; lia|].
  change (Nat.iter (S n) shift1 l) with (shift1 (Nat.iter n shift1 l)).
  rewrite heval_shift1, IH. f_equal. lia.
Qed.

Lemma length_iter n l : length (Nat.iter n shift1 l) = length l.
Proof. induction n as [|n IH]; [done|]. cbn. rewrite length_shift1. apply IH. Qed.

(** The check of a polynomial on [[n0 * d, (n0 + n) * d)]. *)
Definition on_interval (n0 n : nat) (d : Z) (l : list Z) (kmin kmax : Z) : bool :=
  check n (Nat.iter n0 shift1 (scale l 1 d)) kmin kmax.

Lemma on_interval_sound n0 n d l kmin kmax x :
  0 < d -> on_interval n0 n d l kmin kmax = true ->
  Z.of_nat n0 * d <= x < (Z.of_nat n0 + Z.of_nat n) * d -> kmin <= eval l x <= kmax.
Proof.
  intros Hd Hc Hx. set (t := (x - Z.of_nat n0 * d) mod d).
  set (i := Z.to_nat ((x - Z.of_nat n0 * d) / d)).
  assert (0 <= (x - Z.of_nat n0 * d) / d < Z.of_nat n) as Hi.
  { split; [apply Z.div_pos; lia|apply Z.div_lt_upper_bound; lia]. }
  assert (x = t + Z.of_nat i * d + Z.of_nat n0 * d) as Ex.
  { unfold t, i. rewrite Z2Nat.id by lia. pose proof (Z.div_mod (x - Z.of_nat n0 * d) d). lia. }
  pose proof (check_sound n _ kmin kmax i t d Hc) as H.
  rewrite length_iter, length_scale, heval_iter, <- Ex, heval_scale, Z.mul_1_l in H.
  specialize (H ltac:(unfold t; pose proof (Z.mod_pos_bound (x - Z.of_nat n0 * d) d); lia) ltac:(lia)).
  assert (0 < d ^ Z.of_nat (length l - 1)) by (apply Z.pow_pos_nonneg; lia). nia.
Qed.
End Poly.

(** ** The polynomial and its rounding *)

(** [step_poly] is the exact counterpart of [r = C - ((r * x) >> s)]: with [l] scaled
    by [2 ^ t], the result is scaled by [2 ^ (t + s)]. *)
Definition step_poly (c t : Z) (l : list Z) : list Z := c * 2 ^ t :: (Z.opp <$> l).

Lemma eval_step_poly c t l x : Poly.eval (step_poly c t l) x = c * 2 ^ t - Poly.eval l x * x.
Proof.
  unfold step_poly. cbn [Poly.eval].
  enough (Poly.eval (Z.opp <$> l) x = - Poly.eval l x) as -> by ring.
  induction l as [|a l IH]; [done|]. rewrite fmap_cons. cbn [Poly.eval]. rewrite IH. ring.
Qed.

(** [r] is the value of [l] scaled by [2 ^ t], within [lo / 8] below and [hi / 8] above. *)
Definition near (l : list Z) (t lo hi x r : Z) : Prop :=
  - lo * 2 ^ t <= 8 * (r * 2 ^ t - Poly.eval l x) <= hi * 2 ^ t.

Section Step.
Context (x r c s t lo hi : Z) (l : list Z).
Context (Hx : 2 ^ 31 <= x < 2 ^ 32) (Hr : 0 <= r < 2 ^ 32) (Hn : near l t lo hi x r).
Context (Ht : 0 <= t) (Hs : 0 <= s) (Hlo : 0 <= lo) (Hhi : 0 <= hi).
Context (lo' hi' : Z) (Hlo' : hi * 2 ^ 32 <= lo' * 2 ^ s) (Hhi' : lo * 2 ^ 32 + 8 * 2 ^ s <= hi' * 2 ^ s).

Lemma recip_step_near : near (step_poly c (t + s) l) (t + s) lo' hi' x (c - r * x / 2 ^ s).
Proof.
  unfold near in *. rewrite eval_step_poly, Z.pow_add_r by lia.
  pose proof (pow2_pos t Ht). pose proof (pow2_pos s Hs).
  pose proof (Z.mod_pos_bound (r * x) (2 ^ s)) as Hm. pose proof (Z.div_mod (r * x) (2 ^ s)) as Hd.
  set (q := r * x / 2 ^ s) in *. set (m := (r * x) mod 2 ^ s) in *.
  set (e := r * 2 ^ t - Poly.eval l x) in *.
  assert (8 * ((c - q) * (2 ^ t * 2 ^ s) - (c * (2 ^ t * 2 ^ s) - Poly.eval l x * x))
          = 8 * m * 2 ^ t - 8 * e * x) as ->.
  { replace m with (r * x - 2 ^ s * q) by lia. unfold e. ring. }
  assert (- lo * 2 ^ t * x <= 8 * e * x <= hi * 2 ^ t * x) by nia.
  assert (hi * 2 ^ t * x <= lo' * 2 ^ s * 2 ^ t) by nia.
  assert (lo * 2 ^ t * x + 8 * m * 2 ^ t <= hi' * 2 ^ s * 2 ^ t) by nia.
  nia.
Qed.

(** When the exact value stays inside the word, so does the computed one. *)
Lemma recip_step kmin kmax :
  kmin * 2 ^ (t + s) <= Poly.eval (step_poly c (t + s) l) x <= kmax * 2 ^ (t + s) ->
  lo' <= 8 * kmin -> 8 * kmax + hi' < 8 * 2 ^ 33 ->
  u64 (c - Z.shiftr (u64 (r * x)) s) = c - r * x / 2 ^ s
  /\ 0 <= c - r * x / 2 ^ s <= kmax + hi' / 8.
Proof.
  intros Hk Hmin Hmax. pose proof recip_step_near as Hnear. unfold near in Hnear.
  pose proof (pow2_pos (t + s) ltac:(lia)).
  rewrite (wrap_id 64 (r * x)), shiftr_div by (unfold word_ok; nia).
  set (v := c - r * x / 2 ^ s) in *. set (p := 2 ^ (t + s)) in *.
  assert (0 <= 8 * v) by nia.
  assert (8 * v <= 8 * kmax + hi') by nia.
  split; [apply wrap_id; unfold word_ok; lia|]. split; [lia|]. zdivmod.
Qed.
End Step.

(** The exact polynomials after each step. *)
Definition l0 := [0x92db03d6].
Definition l1 := step_poly 0xf63e71ea 34 l0.
Definition l2 := step_poly 0xb63721e8 68 l1.
Definition l3 := step_poly 0x9c2da00e 101 l2.
Definition l4 := step_poly 0xaada0bb8 133 l3.
Definition l5 := step_poly 0xf75cd403 164 l4.
Definition l6 := step_poly 0xecf97a41 195 l5.
Definition l7 := step_poly 0x90d876cd 226 l6.
Definition l8 := step_poly 0x6682799a0 252 l7.
(** [2 ^ 252 * (p(x) * x - 2 ^ 63)] *)
Definition l_err := - (2 ^ 315) :: l8.

(** The kernel's computations: the intermediate values stay well inside a word (128
    pieces), the final relative error is below [2 ^ -21] (2048 pieces). *)
Lemma intermediate_checks :
  forallb (fun '(l, t) => Poly.on_interval 128 128 (2 ^ 24) l (2 ^ 20 * 2 ^ t) ((2 ^ 32 - 2 ^ 20) * 2 ^ t))
    [(l1, 34); (l2, 68); (l3, 101); (l4, 133); (l5, 164); (l6, 195); (l7, 226)] = true.
Proof. vm_compute. reflexivity. Qed.

Lemma error_check : Poly.on_interval 2048 2048 (2 ^ 20) l_err (- 2 ^ 42 * 2 ^ 252) (2 ^ 42 * 2 ^ 252) = true.
Proof. vm_compute. reflexivity. Qed.

Lemma intermediate_bounds l t x :
  In (l, t) [(l1, 34); (l2, 68); (l3, 101); (l4, 133); (l5, 164); (l6, 195); (l7, 226)] ->
  2 ^ 31 <= x < 2 ^ 32 -> 2 ^ 20 * 2 ^ t <= Poly.eval l x <= (2 ^ 32 - 2 ^ 20) * 2 ^ t.
Proof.
  intros Hin Hx. pose proof (proj1 (forallb_forall _ _) intermediate_checks _ Hin) as H. cbn beta iota in H.
  apply (Poly.on_interval_sound 128 128 (2 ^ 24)); [done|exact H|].
  change (Z.of_nat 128 * 2 ^ 24) with (2 ^ 31). change ((Z.of_nat 128 + Z.of_nat 128) * 2 ^ 24) with (2 ^ 32). done.
Qed.

Lemma error_bounds x :
  2 ^ 31 <= x < 2 ^ 32 ->
  (2 ^ 63 - 2 ^ 42) * 2 ^ 252 <= Poly.eval l8 x * x <= (2 ^ 63 + 2 ^ 42) * 2 ^ 252.
Proof.
  intros Hx. pose proof (Poly.on_interval_sound _ _ (2 ^ 20) _ _ _ x ltac:(done) error_check) as H.
  change (Z.of_nat 2048 * 2 ^ 20) with (2 ^ 31) in H.
  change ((Z.of_nat 2048 + Z.of_nat 2048) * 2 ^ 20) with (2 ^ 32) in H. specialize (H Hx).
  unfold l_err in H. cbn [Poly.eval] in H. replace (2 ^ 315) with (2 ^ 63 * 2 ^ 252) in H by done. nia.
Qed.

(** One step of the code, as the chain below applies it. *)
Ltac recip_step_tac x r c s t lo hi l lo' hi' l' Hx Hr Hn r' Hr' Hn' :=
  let B := fresh in let E := fresh in let R := fresh in
  pose proof (intermediate_bounds l' (t + s) x ltac:(cbn; tauto) Hx) as B;
  destruct (recip_step x r c s t lo hi l Hx Hr Hn ltac:(lia) ltac:(lia) ltac:(lia) ltac:(lia)
              lo' hi' ltac:(lia) ltac:(lia) _ _ B ltac:(lia) ltac:(lia)) as [E R];
  assert (near l' (t + s) lo' hi' x (c - r * x / 2 ^ s)) as Hn'
    by (apply (recip_step_near x r c s t lo hi l); first [assumption | lia]);
  rewrite E; set (r' := c - r * x / 2 ^ s) in *;
  assert (0 <= r' < 2 ^ 32) as Hr' by (clear - R; zdivmod); clearbody r'; clear B E R.

Lemma recip_chain x :
  2 ^ 31 <= x < 2 ^ 32 -> exists r, recip_approx_32 x = u32 r /\ near l8 252 7168 7176 x r /\ 0 <= r.
Proof.
  intros Hx. unfold recip_approx_32. cbn zeta.
  assert (near l0 0 0 0 x 0x92db03d6) as N0 by (unfold near, l0; cbn [Poly.eval]; lia).
  assert (0 <= 0x92db03d6 < 2 ^ 32) as R0 by lia.
  recip_step_tac x 0x92db03d6 0xf63e71ea 34 0 0 0 l0 0 8 l1 Hx R0 N0 r1 R1 N1.
  recip_step_tac x r1 0xb63721e8 34 34 0 8 l1 2 8 l2 Hx R1 N1 r2 R2 N2.
  recip_step_tac x r2 0x9c2da00e 33 68 2 8 l2 4 9 l3 Hx R2 N2 r3 R3 N3.
  recip_step_tac x r3 0xaada0bb8 32 101 4 9 l3 9 12 l4 Hx R3 N3 r4 R4 N4.
  recip_step_tac x r4 0xf75cd403 31 133 9 12 l4 24 26 l5 Hx R4 N4 r5 R5 N5.
  recip_step_tac x r5 0xecf97a41 31 164 24 26 l5 52 56 l6 Hx R5 N5 r6 R6 N6.
  recip_step_tac x r6 0x90d876cd 31 195 52 56 l6 112 112 l7 Hx R6 N6 r7 R7 N7.
  assert ((2 ^ 31 - 2 ^ 10) * 2 ^ 252 <= Poly.eval l8 x <= (2 ^ 32 + 2 ^ 11) * 2 ^ 252) as B.
  { pose proof (error_bounds x Hx). set (e := Poly.eval l8 x) in *. clearbody e. 
    assert (0 < e) by nia. split; nia. }
  destruct (recip_step x r7 0x6682799a0 26 226 112 112 l7 Hx R7 N7 ltac:(lia) ltac:(lia) ltac:(lia) ltac:(lia)
              7168 7176 ltac:(lia) ltac:(lia) (2 ^ 31 - 2 ^ 10) (2 ^ 32 + 2 ^ 11) B
              ltac:(lia) ltac:(lia)) as [E R].
  exists (0x6682799a0 - r7 * x / 2 ^ 26). rewrite E. split; [done|]. split; [|lia].
  apply (recip_step_near x r7 0x6682799a0 26 226 112 112 l7); first [assumption | lia].
Qed.

Lemma near_error x r :
  2 ^ 31 <= x < 2 ^ 32 -> near l8 252 7168 7176 x r -> Z.abs (r * x - 2 ^ 63) < 2 ^ 43.
Proof.
  intros Hx Hn. pose proof (error_bounds x Hx) as B. unfold near in Hn. set (e := Poly.eval l8 x) in *. clearbody e.
  assert (- 7168 * 2 ^ 252 * x <= 8 * (r * x * 2 ^ 252 - e * x) <= 7176 * 2 ^ 252 * x) by nia.
  cut (- (2 ^ 43) * 2 ^ 252 < (r * x - 2 ^ 63) * 2 ^ 252 < 2 ^ 43 * 2 ^ 252); [nia|].
  assert (x * 2 ^ 252 <= 2 ^ 32 * 2 ^ 252) by nia. lia.
Qed.

Lemma recip_first_inputs :
  forallb (fun i => let x := 2 ^ 31 + Z.of_nat i in
     Z.abs (recip_approx_32 x * x - 2 ^ 63) <? 2 ^ 43) (seq 0 2048) = true.
Proof. vm_compute. reflexivity. Qed.

Lemma recip_approx_32_bounds x :
  2 ^ 31 <= x < 2 ^ 32 ->
  Z.abs (recip_approx_32 x * x - 2 ^ 63) < 2 ^ 43 /\ 0 <= recip_approx_32 x < 2 ^ 32.
Proof.
  intros Hx. split; [|unfold recip_approx_32; apply wrap_range; lia].
  destruct (Z.lt_ge_cases x (2 ^ 31 + 2048)).
  { pose proof (proj1 (forallb_forall _ _) recip_first_inputs (Z.to_nat (x - 2 ^ 31))) as H1.
    cbn beta zeta in H1. rewrite Z2Nat.id in H1 by lia. replace (2 ^ 31 + (x - 2 ^ 31)) with x in H1 by lia.
    apply Z.ltb_lt, H1, in_seq. lia. }
  destruct (recip_chain x Hx) as (r&->&Hn&Hr). apply near_error in Hn; [|done].
  rewrite wrap_id; [done|]. unfold word_ok. nia.
Qed.

(** C36. For every divisor word with its top bit set, the starting approximation of the
    division, computed from multiplications and shifts only, is the reciprocal
    [2 ^ 63 / x] with a relative error below [2 ^ -20] ("20 good bits"). *)
Theorem recip_approx_32_error (x : Z) (Hx : 2 ^ 31 <= x < 2 ^ 32) :
  Z.abs (recip_approx_32 x * x - 2 ^ 63) < 2 ^ 43 /\ 0 <= recip_approx_32 x < 2 ^ 32.
Proof. by apply recip_approx_32_bounds. Qed.

Lemma recip_approx_32_error_witness :
  Z.abs (recip_approx_32 4226800006 * 4226800006 - 2 ^ 63) < 2 ^ 43 /\ 0 <= recip_approx_32 4226800006 < 2 ^ 32.
Proof. apply (recip_approx_32_error 4226800006). lia. Defined.
