(* ===== verification/MpDiv.v ===== *)
(** * Multiprecision integers: division

    [mp_divmod_into] divides by multiplying with a reciprocal found by Newton-Raphson
    iteration in a fixed number of steps, and finishes with two conditional
    subtractions.  The phases of the function are separate definitions, in its order.
    [mp_divmod_spec] is the total correctness of the whole: no assertion fails, the
    loop ends, and the outputs are the Euclidean quotient and remainder.  The proof
    makes the error analysis of the source's comments precise; it shows besides that
    one correction is always enough, and that the remainder before the correction
    fits its buffer. *)

From S2P Require Import Prelude Memory Mpint MpBits MpMul MpRecip.

Open Scope word_scope.

Definition normalise_to_1_u64 (n : Z) : Z :=
  let n := (n >> 1) .| (n .& 1) in u64 (- n) >> 63.

(** ** The phases of the division *)

(** [hibits], [lobits], [shift_up] *)
Definition divmod_shift_step (s : Z * Z * Z) (i : Z) : Z * Z * Z :=
  let '(hibits, lobits, shift_up) := s in
  let sl := 1 << i in
  let sr := 64 - sl in
  let indicator := 1 .^ normalise_to_1_u64 (hibits >> sr) in
  let new_hibits := u64 (hibits << sl) .| (lobits >> sr) in
  let new_lobits := u64 (lobits << sl) in
  let new_shift_up := shift_up + sl in
  (hibits .^ ((hibits .^ new_hibits) .& u64 (- indicator)),
   lobits .^ ((lobits .^ new_lobits) .& u64 (- indicator)),
   shift_up .^ ((shift_up .^ new_shift_up) .& u64 (- indicator))).

Definition divmod_unshift_step (shift_up : Z) (s : Z * Z) (i : Z) : Z * Z :=
  let '(hibits, lobits) := s in
  let sl := 1 << i in
  let sr := 64 - sl in
  let indicator := 1 .& (shift_up >> i) in
  let new_hibits := u64 (hibits << sl) .| (lobits >> sr) in
  let new_lobits := u64 (lobits << sl) in
  (hibits .^ ((hibits .^ new_hibits) .& u64 (- indicator)),
   lobits .^ ((lobits .^ new_lobits) .& u64 (- indicator))).

Definition divmod_log2_R (nw dw : nat) : Z :=
  let max_log2_n := (Z.of_nat nw + Z.of_nat dw) * BIGNUM_INT_BITS in
  let log2_R := max_log2_n + 3 in
  let log2_R := log2_R - Z.min 191 log2_R in
  let log2_R := (log2_R + BIGNUM_INT_BITS - 1) .& Z.lnot (BIGNUM_INT_BITS - 1) in
  log2_R + 191.

Definition divmod_start (d : mp_int) (log2_R : Z) (rw : nat) : option mp_int :=
  let '(hiword_index, hibits, lobits) :=
    mp_find_highest_nonzero_word_pair d (64 - BIGNUM_INT_BITS) 0 0 0 in
  let '(hibits, lobits, shift_up) :=
    fold_left divmod_shift_step [5; 4; 3; 2; 1; 0] (hibits, lobits, 0) in
  let lobits := u64 (recip_approx_32 (hibits >> 32) << 32) in
  let hibits := 0 in
  let '(hibits, lobits) :=
    fold_left (divmod_unshift_step shift_up) [5; 4; 3; 2; 1; 0] (hibits, lobits) in
  r_approx ← mp_make_sized rw;
  let input_bit_index := u64 (hiword_index * BIGNUM_INT_BITS - (128 - BIGNUM_INT_BITS)) in
  let output_bit_index := u64 (log2_R - 191 - input_bit_index) in
  assert! output_bit_index mod BIGNUM_INT_BITS =? 0;
  let output_word_index := output_bit_index / BIGNUM_INT_BITS in
  let r_approx := mp_add_integer_into_shifted_by_words rw r_approx lobits output_word_index in
  Some (mp_add_integer_into_shifted_by_words rw r_approx hibits
          (output_word_index + 64 / BIGNUM_INT_BITS)).

(** The Newton-Raphson iteration; [fuel] bounds the number of rounds. *)
Fixpoint divmod_newton (fuel : nat) (d two_R r_approx : mp_int) (log2_R : Z)
    (good_bits good_bits_needed : Z) : option mp_int :=
  let rw := length r_approx in
  let drw := (rw + length d)%nat in
  let diffw := size_t_max rw drw in
  let productw := (rw + diffw)%nat in
  let scratch := size_t_max (mp_mul_scratchspace drw rw (length d))
                            (mp_mul_scratchspace productw rw diffw) in
  if good_bits <? good_bits_needed then
    match fuel with
    | O => None
    | S fuel =>
        dr ← mp_mul_internal (mul_fuel drw r_approx d) drw r_approx d scratch;
        let diff := mp_sub_into diffw two_R dr in
        product ← mp_mul_internal (mul_fuel productw r_approx diff) productw r_approx diff scratch;
        let product_shifted := mp_make_alias product (Z.to_nat (log2_R / BIGNUM_INT_BITS)) productw in
        let r_approx := mp_rshift_fixed_into rw product_shifted (log2_R mod BIGNUM_INT_BITS) in
        divmod_newton fuel d two_R r_approx log2_R (good_bits * 2 - 1) good_bits_needed
    end
  else Some r_approx.

Definition divmod_correct_step (d : mp_int) (s : mp_int * Z) : mp_int * Z :=
  let '(remainder, q_correction) := s in
  let need_correction := mp_cmp_hs remainder d in
  (mp_cond_sub_into (length d) remainder d need_correction, q_correction + need_correction).

(** The reciprocal [R / d], from the starting approximation to the last iterate. *)
Definition divmod_reciprocal (nw : Z) (d : mp_int) (log2_R : Z) : option mp_int :=
  let rw := Z.to_nat ((log2_R + 2 + BIGNUM_INT_BITS - 1) / BIGNUM_INT_BITS) in
  r_approx ← divmod_start d log2_R rw;
  two_R ← mp_make_sized rw;
  let two_R := mp_add_integer_into_shifted_by_words rw two_R
                 (u64 (1 << ((log2_R + 1) mod BIGNUM_INT_BITS))) ((log2_R + 1) / BIGNUM_INT_BITS) in
  let good_bits := 31 - 11 in
  let good_bits_needed := BIGNUM_INT_BITS * nw + 4 in
  divmod_newton 64 d two_R r_approx log2_R good_bits good_bits_needed.

(** The quotient and the remainder from the reciprocal. *)
Definition divmod_finish (n d : mp_int) (log2_R : Z) (r_approx : mp_int) : option (mp_int * mp_int) :=
  quotient_full ← mp_mul r_approx n;
  let quotient_alias := mp_make_alias quotient_full (Z.to_nat (log2_R / BIGNUM_INT_BITS)) (length quotient_full) in
  let quotient := mp_rshift_fixed_into (length n) quotient_alias (log2_R mod BIGNUM_INT_BITS) in
  remainder ← mp_mul_into (length d) quotient d;
  let remainder := mp_sub_into (length d) n remainder in
  let '(remainder, q_correction) := divmod_correct_step d (divmod_correct_step d (remainder, 0)) in
  let quotient := mp_add_integer_into (length quotient) quotient q_correction in
  assert! mp_cmp_hs remainder d =? 0;
  Some (quotient, remainder).

(** Quotient and remainder; the caller's outputs are copies of them. *)
Definition mp_divmod (n d : mp_int) : option (mp_int * mp_int) :=
  assert! mp_eq_integer d 0 =? 0;
  let log2_R := divmod_log2_R (length n) (length d) in
  r_approx ← divmod_reciprocal (len n) d log2_R;
  divmod_finish n d log2_R r_approx.

(** [q_out] and [r_out] are [NULL] or numbers of the given widths. *)
Definition mp_divmod_into (n d : mp_int) (q_out r_out : option nat) : option (option mp_int * option mp_int) :=
  '(quotient, remainder) ← mp_divmod n d;
  Some ((fun w => mp_copy_into w quotient) <$> q_out, (fun w => mp_copy_into w remainder) <$> r_out).

Definition mp_div (n d : mp_int) : option mp_int :=
  q ← mp_make_sized (length n); '(q, _) ← mp_divmod_into n d (Some (length q)) None; q.
Definition mp_mod (n d : mp_int) : option mp_int :=
  r ← mp_make_sized (length d); '(_, r) ← mp_divmod_into n d None (Some (length r)); r.

Example mp_divmod_run :
  mp_divmod (mp_of 4 (10 ^ 70)) (mp_of 2 (10 ^ 30 + 7))
  = Some (mp_of 4 (10 ^ 70 / (10 ^ 30 + 7)), mp_of 2 (10 ^ 70 mod (10 ^ 30 + 7)))
  /\ mp_divmod [12] [3] = Some ([4], [0]).
Proof. vm_compute. tauto. Qed.

(** ** Shifting the 128-bit pair *)

Lemma shiftr_word_ok w s : word_ok 64 w -> 0 <= s -> word_ok 64 (Z.shiftr w s).
Proof.
  intros [] ?. rewrite shiftr_div by done. pose proof (pow2_pos s). unfold word_ok.
  by apply div_bound; [|lia].
Qed.

Section Pair.
Context (hi lo sl : Z) (Hhi : word_ok 64 hi) (Hlo : word_ok 64 lo) (Hsl : 1 <= sl <= 32).
Let new_hi := Z.lor (u64 (Z.shiftl hi sl)) (Z.shiftr lo (64 - sl)).
Let new_lo := u64 (Z.shiftl lo sl).

Lemma pair_ok : word_ok 64 new_hi /\ word_ok 64 new_lo.
Proof using Hlo Hsl.
  split; [|apply wrap_ok; lia]. apply lor_ok; [lia|apply wrap_ok; lia|].
  apply shiftr_word_ok; [done|lia].
Qed.

Lemma pair_value :
  hi < 2 ^ (64 - sl) ->
  new_hi * WB + new_lo = (hi * WB + lo) * 2 ^ sl /\ hi * 2 ^ sl <= new_hi.
Proof using Hhi Hlo Hsl.
  intros Hlt. pose proof (pow2_pos sl). pose proof (pow2_pos (64 - sl)).
  assert (WB = 2 ^ sl * 2 ^ (64 - sl)) as EW by (rewrite <- Z.pow_add_r by lia; unfold WB; f_equal; lia).
  destruct Hhi as [Hh0 _], Hlo as [Hl0 Hl1].
  assert (0 <= lo / 2 ^ (64 - sl) < 2 ^ sl) as Hq.
  { split; [apply Z.div_pos; lia|]. apply Z.div_lt_upper_bound; [lia|]. change (2 ^ 64) with WB in Hl1. lia. }
  assert (new_hi = hi * 2 ^ sl + lo / 2 ^ (64 - sl)) as ->.
  { unfold new_hi. rewrite wrap_id, shiftr_div by (try lia; unfold word_ok; rewrite Z.shiftl_mul_pow2 by lia;
      change (2 ^ 64) with WB; nia).
    rewrite Z.lor_comm, lor_shiftl_add by (done || lia). lia. }
  assert (new_lo = lo * 2 ^ sl - lo / 2 ^ (64 - sl) * WB) as ->.
  { unfold new_lo. rewrite Z.shiftl_mul_pow2 by lia. change (u64 (lo * 2 ^ sl)) with ((lo * 2 ^ sl) mod WB).
    rewrite Z.mod_eq by done. rewrite EW, (Z.mul_comm lo), Z.div_mul_cancel_l by lia. ring. }
  split; [ring|lia].
Qed.
End Pair.

Lemma normalise_to_1_u64_spec n : word_ok 64 n -> normalise_to_1_u64 n = Z.b2z (negb (n =? 0)).
Proof. apply normalise_to_1_spec. Qed.

(** One step of the normalisation of the divisor's top bits. *)
Lemma divmod_shift_step_spec hi lo su i :
  0 <= i <= 5 -> word_ok 64 hi -> word_ok 64 lo -> 0 <= su <= 64 -> 2 ^ (64 - 2 * 2 ^ i) <= hi ->
  exists hi' lo' su', divmod_shift_step (hi, lo, su) i = (hi', lo', su')
    /\ word_ok 64 hi' /\ word_ok 64 lo' /\ su <= su' <= su + 2 ^ i
    /\ (hi' * WB + lo') * 2 ^ su = (hi * WB + lo) * 2 ^ su' /\ 2 ^ (64 - 2 ^ i) <= hi'.
Proof.
  intros Hi Hhi Hlo Hsu Hge. unfold divmod_shift_step. rewrite Z.shiftl_1_l.
  assert (1 <= 2 ^ i <= 32) as Hsl.
  { pose proof (pow2_pos i). pose proof (Z.pow_le_mono_r 2 i 5). lia. }
  set (sl := 2 ^ i) in *. clearbody sl.
  rewrite normalise_to_1_u64_spec by (apply shiftr_word_ok; [done|lia]).
  destruct (pair_ok hi lo sl Hlo Hsl) as [Ph Pl].
  assert (Z.lxor 1 (Z.b2z (negb (Z.shiftr hi (64 - sl) =? 0))) = Z.b2z (Z.shiftr hi (64 - sl) =? 0)) as ->
    by (by destruct (_ =? 0)).
  rewrite mask_b2z, !select_word' by (done || unfold word_ok; lia).
  rewrite shiftr_div by lia. pose proof (pow2_pos (64 - sl)). destruct Hhi as [Hh0 Hh1].
  destruct (Z.eqb_spec (hi / 2 ^ (64 - sl)) 0) as [E|E].
  - assert (hi < 2 ^ (64 - sl)) as Hlt by (apply Z.div_small_iff in E; lia).
    destruct (pair_value hi lo sl ltac:(done) Hlo Hsl Hlt) as [Hv Hge'].
    do 3 eexists. split; [done|]. split_and!; try done; try lia.
    + rewrite Hv, Z.pow_add_r by lia. ring.
    + etransitivity; [|exact Hge']. transitivity (2 ^ (64 - 2 * sl) * 2 ^ sl); [|pose proof (pow2_pos sl); nia].
      rewrite <- Z.pow_add_r by lia. apply Z.pow_le_mono_r; lia.
  - do 3 eexists. split; [done|]. split_and!; try done; try lia.
    destruct (Z.lt_ge_cases hi (2 ^ (64 - sl))); [|lia]. rewrite Z.div_small in E; lia.
Qed.

Lemma rescale v v' w p p' : v' * p = v * p' -> v = w * p -> 0 < p -> v' = w * p'.
Proof. intros E -> Hp. apply (Z.mul_cancel_r _ _ p); lia. Qed.

Lemma divmod_shift_spec hi lo :
  word_ok 64 hi -> word_ok 64 lo -> 0 < hi ->
  exists hi' lo' su, fold_left divmod_shift_step [5; 4; 3; 2; 1; 0] (hi, lo, 0) = (hi', lo', su)
    /\ 2 ^ 63 <= hi' < 2 ^ 64 /\ word_ok 64 lo' /\ 0 <= su < 64
    /\ hi' * WB + lo' = (hi * WB + lo) * 2 ^ su.
Proof.
  intros Hhi Hlo Hpos. cbn [fold_left].
  destruct (divmod_shift_step_spec hi lo 0 5) as (h1&l1&s1&->&?&?&?&E1&?); [first [assumption | cbn in *; lia]..|].
  destruct (divmod_shift_step_spec h1 l1 s1 4) as (h2&l2&s2&->&?&?&?&E2&?); [first [assumption | cbn in *; lia]..|].
  destruct (divmod_shift_step_spec h2 l2 s2 3) as (h3&l3&s3&->&?&?&?&E3&?); [first [assumption | cbn in *; lia]..|].
  destruct (divmod_shift_step_spec h3 l3 s3 2) as (h4&l4&s4&->&?&?&?&E4&?); [first [assumption | cbn in *; lia]..|].
  destruct (divmod_shift_step_spec h4 l4 s4 1) as (h5&l5&s5&->&?&?&?&E5&?); [first [assumption | cbn in *; lia]..|].
  destruct (divmod_shift_step_spec h5 l5 s5 0) as (h6&l6&s6&->&Hh6&?&?&E6&?); [first [assumption | cbn in *; lia]..|].
  exists h6, l6, s6. destruct Hh6. split; [done|]. split_and!; try done; try lia.
  pose proof (pow2_pos s1). pose proof (pow2_pos s2). pose proof (pow2_pos s3). pose proof (pow2_pos s4). pose proof (pow2_pos s5).
  set (v := hi * WB + lo) in *. rewrite Z.pow_0_r, Z.mul_1_r in E1.
  assert (0 < 2 ^ s1 /\ 0 < 2 ^ s2 /\ 0 < 2 ^ s3 /\ 0 < 2 ^ s4 /\ 0 < 2 ^ s5) as (?&?&?&?&?) by lia.
  pose proof (rescale _ _ _ _ _ E2 E1 ltac:(assumption)) as F2.
  pose proof (rescale _ _ _ _ _ E3 F2 ltac:(assumption)) as F3.
  pose proof (rescale _ _ _ _ _ E4 F3 ltac:(assumption)) as F4.
  pose proof (rescale _ _ _ _ _ E5 F4 ltac:(assumption)) as F5.
  exact (rescale _ _ _ _ _ E6 F5 ltac:(assumption)).
Qed.

(** Shifting the reciprocal back up by the same amount. *)
Lemma divmod_unshift_spec v su :
  0 <= v < 2 ^ 64 -> 0 <= su < 64 ->
  exists hi lo, fold_left (divmod_unshift_step su) [5; 4; 3; 2; 1; 0] (0, v) = (hi, lo)
    /\ word_ok 64 hi /\ word_ok 64 lo /\ hi * WB + lo = v * 2 ^ su.
Proof.
  intros Hv Hsu.
  assert (forall hi lo i w, 0 <= i <= 5 -> word_ok 64 hi -> word_ok 64 lo ->
    hi * WB + lo = v * 2 ^ w -> 0 <= w -> w + 2 ^ i < 64 ->
    exists hi' lo' w', divmod_unshift_step su (hi, lo) i = (hi', lo') /\ word_ok 64 hi' /\ word_ok 64 lo'
      /\ hi' * WB + lo' = v * 2 ^ w' /\ w' = w + (if Z.testbit su i then 2 ^ i else 0)) as Step.
  { intros hi lo i w Hi Hhi Hlo E Hw Hwi. unfold divmod_unshift_step.
    rewrite Z.shiftl_1_l, land_1_odd, <- Z.bit0_odd, Z.shiftr_spec, Z.add_0_l, mask_b2z by lia.
    assert (1 <= 2 ^ i <= 32) as Hsl.
    { pose proof (pow2_pos i). pose proof (Z.pow_le_mono_r 2 i 5). lia. }
    destruct (pair_ok hi lo (2 ^ i) Hlo Hsl) as [Ph Pl].
    rewrite !select_word' by done.
    eexists _, _, (w + if Z.testbit su i then 2 ^ i else 0). split; [done|].
    destruct (Z.testbit su i); [|by rewrite Z.add_0_r].
    assert (hi < 2 ^ (64 - 2 ^ i)) as Hlt.
    { destruct Hlo. pose proof (Z.pow_lt_mono_r 2 w (64 - 2 ^ i)). pose proof (pow2_pos w).
      change (2 ^ 64) with WB in *. assert (hi < 2 ^ w); [|lia]. apply (Z.mul_lt_mono_pos_r WB); [done|]. nia. }
    split_and!; try done. rewrite (proj1 (pair_value hi lo (2 ^ i) Hhi Hlo Hsl Hlt)).
    rewrite E, Z.pow_add_r by lia. ring. }
  pose proof (testbit_mod_pow2 su 0 ltac:(lia) : su mod 2 = su mod 1 + _) as M0.
  pose proof (testbit_mod_pow2 su 1 ltac:(lia) : su mod 4 = su mod 2 + _) as M1.
  pose proof (testbit_mod_pow2 su 2 ltac:(lia) : su mod 8 = su mod 4 + _) as M2.
  pose proof (testbit_mod_pow2 su 3 ltac:(lia) : su mod 16 = su mod 8 + _) as M3.
  pose proof (testbit_mod_pow2 su 4 ltac:(lia) : su mod 32 = su mod 16 + _) as M4.
  pose proof (testbit_mod_pow2 su 5 ltac:(lia) : su mod 64 = su mod 32 + _) as M5.
  rewrite Z.mod_1_r in M0. rewrite (Z.mod_small su 64) in M5 by lia.
  assert (forall i : Z, 0 <= i -> 0 <= (if Z.testbit su i then 2 ^ i else 0) <= 2 ^ i) as Q.
  { intros i Hi. pose proof (pow2_pos i Hi). destruct (Z.testbit su i); lia. }
  pose proof (Q 0 ltac:(lia)). pose proof (Q 1 ltac:(lia)). pose proof (Q 2 ltac:(lia)).
  pose proof (Q 3 ltac:(lia)). pose proof (Q 4 ltac:(lia)). pose proof (Q 5 ltac:(lia)).
  cbn [fold_left].
  destruct (Step 0 v 5 0) as (h1&l1&w1&->&?&?&E1&W1); [lia|done|exact Hv|lia..|].
  destruct (Step h1 l1 4 w1) as (h2&l2&w2&->&?&?&E2&W2); [first [assumption | lia]..|].
  destruct (Step h2 l2 3 w2) as (h3&l3&w3&->&?&?&E3&W3); [first [assumption | lia]..|].
  destruct (Step h3 l3 2 w3) as (h4&l4&w4&->&?&?&E4&W4); [first [assumption | lia]..|].
  destruct (Step h4 l4 1 w4) as (h5&l5&w5&->&?&?&E5&W5); [first [assumption | lia]..|].
  destruct (Step h5 l5 0 w5) as (h6&l6&w6&->&?&?&E6&W6); [first [assumption | lia]..|].
  exists h6, l6. split_and!; try done. rewrite E6. f_equal. f_equal.
  clear - M0 M1 M2 M3 M4 M5 W1 W2 W3 W4 W5 W6. lia.
Qed.

(** ** The scale [R = 2 ^ log2_R] *)

Lemma land_lnot_63 x : Z.land x (Z.lnot 63) = 64 * (x / 64).
Proof.
  rewrite <- Z.ldiff_land. change 63 with (Z.ones 6). rewrite Z.ldiff_ones_r by lia.
  rewrite Z.shiftl_mul_pow2, Z.shiftr_div_pow2 by lia. change (2 ^ 6) with 64. lia.
Qed.

Lemma divmod_log2_R_spec nw dw :
  let L := divmod_log2_R nw dw in
  (exists j, 0 <= j /\ L = 64 * j + 191) /\ 64 * (Z.of_nat nw + Z.of_nat dw) + 3 <= L
  /\ L <= 64 * (Z.of_nat nw + Z.of_nat dw) + 257.
Proof.
  unfold divmod_log2_R. change (BIGNUM_INT_BITS - 1) with 63. change BIGNUM_INT_BITS with 64.
  rewrite land_lnot_63. set (m := Z.of_nat nw + Z.of_nat dw). assert (0 <= m) by lia. clearbody m.
  set (q := (m * 64 + 3 - Z.min 191 (m * 64 + 3) + 64 - 1) / 64).
  assert (q * 64 <= m * 64 + 3 - Z.min 191 (m * 64 + 3) + 63 < q * 64 + 64) by (unfold q; zdivmod).
  clearbody q. split_and!; [exists q; lia|lia|lia].
Qed.

(** ** The starting approximation *)

Section Start.
Context (d : mp_int) (Hd : mp_ok d) (Hd0 : mp_val d <> 0) (Hdl : len d < 2 ^ 50).
Context (L j : Z) (Hj : 0 <= j) (HL : L = 64 * j + 191) (Hjd : len d - 2 <= j) (Hj' : j < 2 ^ 50).
Context (rw : nat) (Hrw : 2 ^ (L + 1) < wpow rw) (Hrw' : Z.of_nat rw < 2 ^ 60) (Hrw0 : (0 < rw)%nat).

(** The arithmetic of the comment: with [v] the top 128 bits of the divisor,
    normalised by [su], and [x] its top 32 bits, [rec * 2 ^ (32 + su)] at bit
    [64 * o] is the reciprocal of the divisor within [2 ^ -19]. *)
Lemma start_error (v su x rec o : Z) (k : nat) :
  v * wpow k <= mp_val d * WB < (v + 1) * wpow k ->
  x * 2 ^ 96 <= v * 2 ^ su < (x + 1) * 2 ^ 96 -> 0 <= su < 64 -> 2 ^ 31 <= x < 2 ^ 32 ->
  Z.abs (rec * x - 2 ^ 63) < 2 ^ 43 -> 0 <= rec < 2 ^ 32 -> o = j + 1 - Z.of_nat k -> 0 <= o ->
  Z.abs (mp_val d * (rec * 2 ^ 32 * 2 ^ su * 2 ^ (64 * o)) - 2 ^ L) <= 2 ^ (L - 19).
Proof using All.
  intros Hv Hx Hsu Hxr Hrec Hrr Ho Ho0.
  set (D := mp_val d) in *. set (P := 2 ^ (64 * o)). set (S := 2 ^ su) in *. set (K := wpow k) in *.
  assert (0 < P) by (apply pow2_pos; lia). assert (0 < S) by (apply pow2_pos; lia).
  assert (0 < K) by apply wpow_pos.
  assert (P * K * 2 ^ 128 = 2 ^ (L + 1)) as EPK.
  { unfold P, K. rewrite wpow_pow2, <- !Z.pow_add_r by lia. f_equal. lia. }
  assert (exists M, 2 ^ 96 = M * S /\ 0 < M) as (M&EM&HM).
  { exists (2 ^ (96 - su)). split; [unfold S; rewrite <- Z.pow_add_r by lia; f_equal; lia|apply pow2_pos; lia]. }
  assert ((v + 1) * S <= (x + 1) * 2 ^ 96) as Hx1.
  { rewrite EM in Hx |- *. assert (v < (x + 1) * M) by (apply (Z.mul_lt_mono_pos_r S); lia).
    replace ((x + 1) * (M * S)) with ((x + 1) * M * S) by ring. apply Z.mul_le_mono_nonneg_r; lia. }
  set (R19 := 2 ^ (L - 19)). assert (2 ^ (L + 1) = R19 * 2 ^ 20) as E19.
  { unfold R19. rewrite <- Z.pow_add_r by lia. f_equal. lia. }
  assert (2 ^ L = R19 * 2 ^ 19) as -> by (unfold R19; rewrite <- Z.pow_add_r by lia; f_equal; lia).
  assert (0 < R19) by (apply pow2_pos; lia).
  (* in units of [2 ^ 96 * K]: [x <= D * WB * S < x + 1] *)
  assert (x * (2 ^ 96 * K) <= D * WB * S <= (x + 1) * (2 ^ 96 * K)) as HD by nia.
  set (T := D * (rec * 2 ^ 32 * S * P)).
  assert (T * WB = rec * (D * WB * S) * (2 ^ 32 * P)) as ET by (unfold T; ring).
  assert (rec * x * (R19 * 2 ^ 20) <= T * WB <= rec * (x + 1) * (R19 * 2 ^ 20)) as HT.
  { rewrite ET, <- E19, <- EPK. change (2 ^ 128) with (2 ^ 32 * 2 ^ 96).
    assert (0 < 2 ^ 32 * P) by lia. split; nia. }
  clear - HT Hrec Hrr Hxr H2. unfold WB in HT.
  assert ((2 ^ 63 - 2 ^ 43) * R19 <= rec * x * R19) by nia.
  assert (rec * (x + 1) * R19 <= (2 ^ 63 + 2 ^ 43 + 2 ^ 32) * R19) by nia.
  lia.
Qed.

Lemma divmod_start_spec :
  exists r0, divmod_start d L rw = Some (mp_of rw r0) /\ 0 <= r0 < wpow rw
    /\ Z.abs (mp_val d * r0 - 2 ^ L) <= 2 ^ (L - 19).
Proof using All.
  unfold divmod_start, mp_find_highest_nonzero_word_pair. change (64 - BIGNUM_INT_BITS) with 0.
  pose proof (find_highest_inv d 0 0 0 Hd ltac:(lia) ltac:(done) ltac:(done) ltac:(done)) as (_&_&F).
  set (s := fold_left _ _ _) in *. destruct s as [? ? ? ix h l]. cbn [hi_index hi_hi hi_lo] in F |- *.
  destruct (Z.eqb_spec (mp_val d) 0); [done|]. destruct F as (k&Hk&->&Hr&Eh&El&Hl).
  pose proof (wpow_pos k) as Hwk. rewrite wpow_S in Hr.
  assert (0 < h < WB) as Hh.
  { rewrite Eh. split; [apply Z.div_str_pos; lia|apply Z.div_lt_upper_bound; lia]. }
  destruct (divmod_shift_spec h l) as (h'&l'&su&->&Hh'&Hl'&Hsu&Ev); [split; unfold WB in *; lia|done|lia|].
  set (x := Z.shiftr h' 32). assert (x = h' / 2 ^ 32) as Ex by (apply shiftr_div; lia).
  assert (2 ^ 31 <= x < 2 ^ 32) as Hx by (rewrite Ex; zdivmod).
  destruct (recip_approx_32_bounds x Hx) as [Hrec Hrr]. set (rec := recip_approx_32 x) in *.
  rewrite Z.shiftl_mul_pow2, (wrap_id 64 (rec * 2 ^ 32)) by (try lia; unfold word_ok; lia).
  destruct (divmod_unshift_spec (rec * 2 ^ 32) su) as (hi&lo&->&Hhi&Hlo&Ehl); [lia|lia|].
  rewrite mp_make_sized_spec by done. cbn [mbind option_bind]. change BIGNUM_INT_BITS with 64.
  unfold len in *. set (o := j + 1 - Z.of_nat k).
  assert (u64 (L - 191 - u64 (Z.of_nat k * 64 - (128 - 64))) = 64 * o) as ->.
  { unfold wrap, o. rewrite Zminus_mod_idemp_r, Z.mod_small; lia. }
  rewrite Z.mul_comm, Z.mod_mul, Z.div_mul by done. cbn [Z.eqb]. change (64 / 64) with 1.
  assert (0 <= o < 2 ^ 51) as Ho by lia.
  set (r0 := rec * 2 ^ 32 * 2 ^ su * 2 ^ (64 * o)).
  assert (Z.abs (mp_val d * r0 - 2 ^ L) <= 2 ^ (L - 19)) as Herr.
  { apply (start_error (h * WB + l) su x rec o k); try done; try lia.
    - rewrite El. pose proof (Z.div_mod (mp_val d * WB) (wpow k)). pose proof (Z.mod_pos_bound (mp_val d * WB) (wpow k)). lia.
    - rewrite <- Ev, Ex. destruct Hl'. unfold WB. change (2 ^ 96) with (2 ^ 32 * 2 ^ 64). zdivmod. }
  assert (0 < mp_val d) by (pose proof (mp_val_bound d Hd); lia).
  assert (0 <= r0) by (unfold r0; pose proof (pow2_pos su); pose proof (pow2_pos (64 * o)); nia).
  assert (r0 < wpow rw).
  { eapply Z.le_lt_trans; [|exact Hrw].
    replace (L + 1) with (L - 19 + 20) by lia. replace L with (L - 19 + 19) in Herr at 1 by lia.
    rewrite Z.pow_add_r in * by lia. pose proof (pow2_pos (L - 19)). nia. }
  exists r0. split; [|done].
  replace o with (Z.of_nat (Z.to_nat o)) at 1 2 by lia.
  replace (Z.of_nat (Z.to_nat o) + 1) with (Z.of_nat (Z.to_nat o + 1)) by lia.
  rewrite (mp_add_shifted_spec (mp_of rw 0)) by (auto with ssh; lia).
  rewrite mp_add_shifted_spec by (auto with ssh; lia). f_equal. apply mp_of_eq.
  pose proof (wpow_pos rw).
  rewrite !mp_val_of, Z.mod_0_l, Z.add_0_l, Z.add_mod_idemp_l by lia. f_equal.
  rewrite wpow_add. change (wpow 1) with WB. unfold r0. rewrite <- Ehl, wpow_pow2, Z2Nat.id by lia. ring.
Qed.
End Start.

(** ** The Newton-Raphson iteration *)

(** The words of [floor (v / 2 ^ L)], through the alias and the shift. *)
Lemma shift_by_L L w n v :
  0 <= L -> 0 <= v < wpow n ->
  mp_rshift_fixed_into w (mp_make_alias (mp_of n v) (Z.to_nat (L / BIGNUM_INT_BITS)) n) (L mod BIGNUM_INT_BITS)
  = mp_of w (v / 2 ^ L).
Proof.
  intros HL Hv. destruct (bits_split L HL) as (words&off&->&->&E&Hoff).
  rewrite mp_rshift_fixed_into_spec by (auto with ssh; lia).
  rewrite mp_make_alias_spec, take_ge by (rewrite length_drop, length_mp_of; lia).
  rewrite mp_val_drop, mp_val_small by auto with ssh. f_equal.
  rewrite E, Z.pow_add_r, wpow_pow2, Z.div_div by (try apply pow2_pos; try (pose proof (pow2_pos (64 * Z.of_nat words)); lia); lia).
  done.
Qed.

Section Newton.
Context (d : mp_int) (Hd : mp_ok d) (Hd0 : 0 < mp_val d) (L : Z) (HL : 0 <= L).
Context (rw : nat) (Hrw : 2 ^ (L + 1) < wpow rw) (HDR : 8 * mp_val d <= 2 ^ L).
Let D := mp_val d.
Let R := 2 ^ L.

(** The exact effect of one round on the error [R - D * r]. *)
Lemma newton_error r r' :
  0 <= r -> Z.abs (R - D * r) <= R -> r' = r * (2 * R - D * r) / R ->
  0 <= r' /\ 0 <= R - D * r' /\ (R - D * r') * R <= (R - D * r) ^ 2 + D * R.
Proof using All.
  intros Hr He ->. assert (0 < R) by (apply pow2_pos; lia). set (p := r * (2 * R - D * r)).
  assert (0 <= p) by (unfold p; nia).
  pose proof (Z.div_mod p R ltac:(lia)) as Hm. pose proof (Z.mod_pos_bound p R ltac:(lia)) as Hb.
  assert (0 <= p / R) by (apply Z.div_pos; lia). set (q := p / R) in *. set (m := p mod R) in *.
  assert (D * p = R ^ 2 - (R - D * r) ^ 2) as Ep by (unfold p; ring).
  assert (0 < D) by done.
  assert (D * q * R = R ^ 2 - (R - D * r) ^ 2 - D * m) as Eq.
  { rewrite <- Ep. rewrite Hm. ring. }
  assert ((R - D * q) * R = (R - D * r) ^ 2 + D * m) as Ee by lia.
  split; [done|]. split; [|rewrite Ee; nia].
  assert (0 <= (R - D * q) * R) by (rewrite Ee; nia). nia.
Qed.

(** [g] good bits, as the code counts them. *)
Definition good (g r : Z) : Prop :=
  0 <= r < wpow rw /\ Z.abs (R - D * r) <= R
  /\ Z.abs (R - D * r) * 2 ^ (g - 1) <= R + 2 * D * 2 ^ (g - 1).

Lemma newton_good g r r' :
  20 <= g -> good g r -> r' = r * (2 * R - D * r) / R -> good (g * 2 - 1) r' /\ 0 <= R - D * r'.
Proof using All.
  intros Hg (Hr&He&Hb) Er. destruct (newton_error r r') as (Hr'&He'&Hstep); [lia|done|done|].
  assert (0 < R) by (apply pow2_pos; lia). assert (0 < D) by done. change (2 ^ L) with R in HDR. fold D in HDR.
  assert (R < wpow rw) by (rewrite Z.pow_add_r in Hrw by lia; unfold R; lia).
  split; [|done]. unfold good. rewrite (Z.abs_eq (R - D * r')) by done. split; [nia|]. split; [nia|].
  set (E := 2 ^ (g - 1)) in *.
  assert (8 <= E) by (change 8 with (2 ^ 3); apply Z.pow_le_mono_r; lia).
  assert (2 ^ (g * 2 - 1 - 1) = E * E) as -> by (unfold E; rewrite <- Z.pow_add_r by lia; f_equal; lia).
  set (e := R - D * r) in *. set (e' := R - D * r') in *. clearbody e e' E.
  assert (Z.abs e * E * (Z.abs e * E) <= (R + 2 * D * E) * (R + 2 * D * E)) as Hsq
    by (apply Z.mul_le_mono_nonneg; nia).
  assert (e ^ 2 * (E * E) <= (R + 2 * D * E) * (R + 2 * D * E)) as Hsq'.
  { replace (e ^ 2 * (E * E)) with (Z.abs e * E * (Z.abs e * E)); [done|]. destruct (Z.abs_spec e) as [[_ ->]|[_ ->]]; ring. }
  assert (e' * R * (E * E) <= (R + 2 * D * E) * (R + 2 * D * E) + D * R * (E * E)) as Hall.
  { transitivity ((e ^ 2 + D * R) * (E * E)); [apply Z.mul_le_mono_nonneg_r; nia|lia]. }
  assert (4 * D * R * E + 4 * D * D * (E * E) <= D * R * (E * E)) as Hsmall.
  { assert (4 * R * E + 4 * D * (E * E) <= R * (E * E)); [|nia].
    assert (8 * R * E <= R * (E * E)) by nia. assert (8 * D * (E * E) <= R * (E * E)) by nia. lia. }
  apply (Z.mul_le_mono_pos_r _ _ R); [done|]. nia.
Qed.

Lemma mul_internal_call w a b s :
  mp_ok a -> mp_ok b ->
  (6 * Nat.min w (Nat.max (length a) (length b)) <= s)%nat ->
  mp_mul_internal (mul_fuel w a b) w a b s = Some (mp_of w (mp_val a * mp_val b)).
Proof using. intros. apply mp_mul_internal_spec; auto. Qed.

Lemma newton_round r scratch :
  0 <= r < wpow rw -> Z.abs (R - D * r) <= R ->
  let drw := (rw + length d)%nat in let diffw := size_t_max rw drw in let productw := (rw + diffw)%nat in
  (6 * Nat.min drw (Nat.max rw (length d)) <= scratch)%nat ->
  (6 * Nat.min productw (Nat.max rw diffw) <= scratch)%nat ->
  let diff := mp_sub_into diffw (mp_of rw (2 * R)) (mp_of drw (D * r)) in
  mp_mul_internal (mul_fuel drw (mp_of rw r) d) drw (mp_of rw r) d scratch = Some (mp_of drw (D * r))
  /\ mp_mul_internal (mul_fuel productw (mp_of rw r) diff) productw (mp_of rw r) diff scratch
     = Some (mp_of productw (r * (2 * R - D * r))) /\ 0 <= r * (2 * R - D * r) < wpow productw.
Proof using All.
  intros Hr He drw diffw productw Hs1 Hs2. cbn zeta.
  assert (0 < R) by (apply pow2_pos; lia).
  assert (2 * R < wpow rw) by (rewrite Z.pow_add_r in Hrw by lia; unfold R; lia).
  pose proof (mp_val_bound d Hd) as HD. fold D in HD.
  assert (0 <= D * r < wpow drw) as Hdr.
  { unfold drw. rewrite Z.mul_comm, wpow_add. nia. }
  assert (diffw = drw) as Ediff by (unfold diffw; rewrite size_t_max_spec; unfold drw; lia).
  assert (0 <= 2 * R - D * r < wpow diffw) as Hdiff.
  { rewrite Ediff. pose proof (wpow_le rw drw ltac:(unfold drw; lia)). lia. }
  rewrite mul_internal_call by (rewrite ?length_mp_of; auto with ssh).
  rewrite mp_val_small by done. fold D. rewrite (Z.mul_comm r D). split; [done|].
  rewrite mp_sub_into_spec by auto with ssh. rewrite !(mp_val_small rw), (mp_val_small drw) by lia.
  rewrite mul_internal_call by (rewrite ?length_mp_of; auto with ssh).
  rewrite !mp_val_small by done. split; [done|]. unfold productw. by apply mul_lt_wpow.
Qed.

Lemma divmod_newton_spec fuel g needed r :
  20 <= g -> good g r -> (g < needed \/ 0 <= R - D * r) -> needed <= (g - 1) * 2 ^ Z.of_nat fuel + 1 ->
  exists g' r', divmod_newton fuel d (mp_of rw (2 * R)) (mp_of rw r) L g needed = Some (mp_of rw r')
    /\ needed <= g' /\ good g' r' /\ 0 <= R - D * r'.
Proof using All.
  revert g r; induction fuel as [|fuel IH]; intros g r Hg Hgood Hpos Hfuel; cbn [divmod_newton].
  { rewrite (proj2 (Z.ltb_ge g needed)) by lia. exists g, r. split_and!; done || lia. }
  destruct (Z.ltb_spec g needed) as [Hlt|Hge].
  2: { exists g, r. split_and!; done || lia. }
  rewrite length_mp_of. pose proof Hgood as (Hr&He&_).
  destruct (newton_round r (size_t_max
      (mp_mul_scratchspace (rw + length d) rw (length d))
      (mp_mul_scratchspace (rw + size_t_max rw (rw + length d)) rw (size_t_max rw (rw + length d)))))
    as (->&Hprod&Hpv); [done|done| | |].
  1, 2: unfold mp_mul_scratchspace, mp_mul_scratchspace_unary; rewrite !size_t_max_spec, !size_t_min_spec; lia.
  cbn [mbind option_bind]. rewrite Hprod. cbn [mbind option_bind].
  rewrite shift_by_L by done. fold R.
  destruct (newton_good g r (r * (2 * R - D * r) / R)) as [Hgood' Hpos']; [done|done|done|].
  apply IH; [lia|done|by right|].
  rewrite Nat2Z.inj_succ, Z.pow_succ_r in Hfuel by lia. lia.
Qed.

(** The rounds done are enough for a dividend of [nw] words. *)
Lemma newton_enough n nw g r :
  0 <= n < wpow nw -> 8 * D * wpow nw <= R -> 64 * Z.of_nat nw + 4 <= g -> good g r -> 0 <= R - D * r ->
  n * (R - D * r) < R.
Proof using All.
  intros Hn HR Hg (_&_&Hb) Hpos. rewrite Z.abs_eq in Hb by done.
  assert (0 < R) by (apply pow2_pos; lia). assert (0 < D) by done.
  set (E := 2 ^ (g - 1)) in *. set (e := R - D * r) in *.
  assert (8 * wpow nw <= E).
  { rewrite wpow_pow2. change 8 with (2 ^ 3). rewrite <- Z.pow_add_r by lia. apply Z.pow_le_mono_r; lia. }
  assert (0 < E) by lia. clearbody E e.
  apply (Z.mul_lt_mono_pos_r (8 * E)); [lia|].
  assert (8 * n * (e * E) <= 8 * n * (R + 2 * D * E)) by (apply Z.mul_le_mono_nonneg_l; lia).
  assert (8 * n * R <= E * R) by nia.
  assert (8 * n * (2 * D * E) <= 2 * R * E).
  { assert (8 * D * n <= R) by nia. nia. }
  nia.
Qed.
End Newton.

(** ** The whole division *)

(** With [n * (R - D * r) < R] the quotient digit is right, unless the division is
    exact: then it may be one too small and the remainder is the divisor itself. *)
Lemma quotient_estimate n D r R :
  0 <= n -> 0 < D -> 0 < R -> 0 <= r -> 0 <= R - D * r -> n * (R - D * r) < R ->
  let q := n * r / R in
  exists c, n / D = q + Z.b2z c /\ n - q * D = n mod D + Z.b2z c * D /\ (c = true -> n mod D = 0) /\ 0 <= q.
Proof.
  intros Hn HD HR Hr He Hsmall q.
  pose proof (Z.div_mod n D ltac:(lia)) as Hnd. pose proof (Z.mod_pos_bound n D HD) as Hb.
  set (Q := n / D) in *. set (rho := n mod D) in *.
  assert (0 <= q) by (apply Z.div_pos; [nia|lia]).
  pose proof (Z.div_mod (n * r) R ltac:(lia)) as Hq. pose proof (Z.mod_pos_bound (n * r) R HR) as Hqb. fold q in Hq.
  set (m := (n * r) mod R) in *.
  assert (D * (n * r) = n * R - n * (R - D * r)) as E by ring. set (ne := n * (R - D * r)) in *.
  assert (0 <= ne) by (unfold ne; nia).
  assert (q <= Q) as Hle.
  { assert (D * (R * q) <= n * R) by nia. assert (D * q <= n) by nia. nia. }
  assert (forall t, t * (D * R) <= n * R - ne -> t <= q) as Hge.
  { intros t Ht. assert (D * (t * R) <= D * (n * r)) by lia. assert (t * R <= n * r) by nia. nia. }
  destruct (Z.eq_dec q Q) as [Eq|Ne].
  - exists false. cbn [Z.b2z]. split; [lia|]. split; [nia|]. split; [done|lia].
  - destruct (Z.eq_dec rho 0) as [E0|E0].
    + exists true. cbn [Z.b2z]. assert (Q - 1 <= q) by (apply Hge; nia).
      assert (q = Q - 1) by lia. split; [lia|]. split; [nia|]. split; [done|lia].
    + assert (Q <= q); [|lia]. apply Hge. rewrite Hnd. nia.
Qed.

Section Finish.
Context (d : mp_int) (Hd : mp_ok d).

(** Two rounds of conditional subtraction, of which at most the first does something. *)
Lemma divmod_correct_spec rho c :
  0 <= rho < mp_val d -> (c = true -> rho = 0) ->
  divmod_correct_step d (divmod_correct_step d (mp_of (length d) (rho + Z.b2z c * mp_val d), 0))
  = (mp_of (length d) rho, Z.b2z c).
Proof using Hd.
  intros Hrho Hc. pose proof (mp_val_bound d Hd).
  assert (0 <= rho + Z.b2z c * mp_val d < wpow (length d)) by (destruct c; cbn; [rewrite Hc by done|]; lia).
  assert (forall v e k, 0 <= v < wpow (length d) -> e = v - (if mp_val d <=? v then mp_val d else 0) ->
    divmod_correct_step d (mp_of (length d) v, k) = (mp_of (length d) e, k + Z.b2z (mp_val d <=? v))) as Step.
  { intros v e k Hv ->. unfold divmod_correct_step.
    rewrite mp_cmp_hs_spec, mp_val_small by auto with ssh.
    rewrite mp_cond_sub_into_spec, mp_val_small by auto with ssh. done. }
  rewrite (Step _ rho); [|done|].
  - rewrite (Step _ rho); [|lia|].
    + rewrite (proj2 (Z.leb_gt (mp_val d) rho)) by lia. f_equal. rewrite Z.add_0_r. cbn [Z.add].
      destruct c; cbn [Z.b2z]; [rewrite Hc by done|]; destruct (Z.leb_spec (mp_val d) (0 + 1 * mp_val d)) || idtac;
        try (destruct (Z.leb_spec (mp_val d) (rho + 0 * mp_val d))); done || lia.
    + rewrite (proj2 (Z.leb_gt (mp_val d) rho)) by lia. lia.
  - destruct c; cbn [Z.b2z]; [rewrite Hc by done|].
    + rewrite (proj2 (Z.leb_le (mp_val d) _)); lia.
    + rewrite (proj2 (Z.leb_gt (mp_val d) _)); lia.
Qed.
End Finish.

Lemma two_R_spec L rw :
  0 <= L -> L < 2 ^ 57 -> (0 < rw)%nat -> Z.of_nat rw < 2 ^ 60 ->
  mp_add_integer_into_shifted_by_words rw (mp_of rw 0)
    (u64 (Z.shiftl 1 ((L + 1) mod BIGNUM_INT_BITS))) ((L + 1) / BIGNUM_INT_BITS) = mp_of rw (2 * 2 ^ L).
Proof.
  intros HL HL' Hrw0 Hrw.
  destruct (bits_split (L + 1) ltac:(lia)) as (words&off&Ew&->&E&Hoff). change BIGNUM_INT_BITS with 64 in *.
  replace ((L + 1) / 64) with (Z.of_nat words) by (rewrite <- Ew; zdivmod).
  pose proof (Z.pow_lt_mono_r 2 off 64). pose proof (pow2_pos off).
  rewrite Z.shiftl_1_l, wrap_id by (unfold word_ok; lia).
  rewrite mp_add_shifted_spec by (auto with ssh; unfold word_ok; lia).
  rewrite mp_val_of, Z.mod_0_l, Z.add_0_l by (pose proof (wpow_pos rw); lia). f_equal.
  rewrite wpow_pow2, <- Z.pow_add_r, <- (Z.pow_succ_r 2 L) by lia. f_equal. lia.
Qed.

Section Division.
Context (n d : mp_int) (Hn : mp_ok n) (Hd : mp_ok d) (Hnl : (0 < length n)%nat).
Context (Hnn : len n < 2 ^ 49) (Hdd : len d < 2 ^ 49) (Hd0 : mp_val d <> 0).
Let D := mp_val d.

Lemma divmod_D_pos : 0 < D.
Proof using All. pose proof (mp_val_bound d Hd). unfold D. lia. Qed.

Lemma divmod_reciprocal_spec :
  let L := divmod_log2_R (length n) (length d) in
  exists rw r, divmod_reciprocal (len n) d L = Some (mp_of rw r) /\ (0 < rw)%nat /\ 0 <= L
    /\ 0 <= r < wpow rw /\ 0 <= 2 ^ L - D * r /\ mp_val n * (2 ^ L - D * r) < 2 ^ L.
Proof using All.
  pose proof (mp_val_bound n Hn) as Vn. pose proof (mp_val_bound d Hd) as Vd. pose proof divmod_D_pos as HD.
  fold D in Vd. unfold len in *.
  destruct (divmod_log2_R_spec (length n) (length d)) as ((j&Hj&EL)&HLlo&HLhi). cbn zeta.
  set (L := divmod_log2_R (length n) (length d)) in *. clearbody L. unfold divmod_reciprocal.
  set (rw := Z.to_nat ((L + 2 + BIGNUM_INT_BITS - 1) / BIGNUM_INT_BITS)).
  assert (64 * Z.of_nat rw >= L + 2 /\ Z.of_nat rw < 2 ^ 60) as [Hrw1 Hrw2].
  { unfold rw. change BIGNUM_INT_BITS with 64. zdivmod. }
  assert (2 ^ (L + 1) < wpow rw) as Hrw by (rewrite wpow_pow2; apply Z.pow_lt_mono_r; lia).
  assert (0 < rw)%nat as Hrw0 by lia. clearbody rw.
  destruct (divmod_start_spec d Hd Hd0 ltac:(unfold len; lia) L j Hj EL ltac:(unfold len; lia) ltac:(lia) rw Hrw Hrw2 Hrw0)
    as (r0&->&Hr0&He0). fold D in He0. cbn [mbind option_bind].
  rewrite mp_make_sized_spec by done. cbn [mbind option_bind].
  rewrite two_R_spec by lia. change BIGNUM_INT_BITS with 64. change (31 - 11) with 20.
  assert (0 < 2 ^ L) as HR by (apply pow2_pos; lia). pose proof (wpow_pos (length n)).
  assert (8 * D * wpow (length n) <= 2 ^ L) as HDR.
  { transitivity (2 ^ 3 * (wpow (length d) * wpow (length n))); [nia|].
    rewrite !wpow_pow2, <- !Z.pow_add_r by lia. apply Z.pow_le_mono_r; lia. }
  assert (8 * D <= 2 ^ L) as HDR8 by nia.
  assert (2 ^ L = 2 ^ (L - 19) * 2 ^ 19) as E19 by (rewrite <- Z.pow_add_r by lia; f_equal; lia).
  pose proof (pow2_pos (L - 19) ltac:(lia)).
  assert (good d L rw 20 r0) as Hgood.
  { unfold good. fold D. rewrite <- Z.abs_opp, Z.opp_sub_distr, Z.add_comm, Z.add_opp_r. split; [lia|]. split; [lia|].
    change (20 - 1) with 19. nia. }
  assert (64 * Z.of_nat (length n) + 4 <= (20 - 1) * 2 ^ Z.of_nat 64 + 1) as Hfuel.
  { change (2 ^ Z.of_nat 64) with (2 ^ 64). lia. }
  destruct (divmod_newton_spec d Hd HD L ltac:(lia) rw Hrw HDR8 64 20 (64 * Z.of_nat (length n) + 4) r0
    ltac:(lia) Hgood ltac:(lia) Hfuel) as (g&r&->&Hg&Hgr&Hpos).
  exists rw, r. split; [done|]. split_and!; try done; try apply Hgr; try lia.
  by apply (newton_enough d Hd HD L ltac:(lia) rw Hrw HDR8 (mp_val n) (length n) g r).
Qed.

Lemma divmod_finish_spec L rw r :
  0 <= L -> (0 < rw)%nat -> 0 <= r < wpow rw -> 0 <= 2 ^ L - D * r -> mp_val n * (2 ^ L - D * r) < 2 ^ L ->
  divmod_finish n d L (mp_of rw r)
  = Some (mp_of (length n) (mp_val n / D), mp_of (length d) (mp_val n mod D)).
Proof using All.
  intros HL Hrw Hr He Hsmall. pose proof (mp_val_bound n Hn) as Vn. pose proof (mp_val_bound d Hd) as Vd.
  pose proof divmod_D_pos as HD. fold D in Vd. assert (0 < 2 ^ L) as HR by (apply pow2_pos; lia).
  assert (0 < length d)%nat as Hdl by (clear - Hd0; destruct d; [done|simpl; lia]).
  destruct (quotient_estimate (mp_val n) D r (2 ^ L)) as (c&EQ&ER&Hc&Hq); try lia.
  pose proof (Z.mod_pos_bound (mp_val n) D HD). pose proof (Z.div_mod (mp_val n) D ltac:(lia)).
  set (q := mp_val n * r / 2 ^ L) in *. assert (q <= mp_val n) by (destruct c; cbn in EQ; nia).
  unfold divmod_finish. rewrite mp_mul_spec by (rewrite ?length_mp_of; auto with ssh).
  cbn [mbind option_bind]. rewrite !length_mp_of, mp_val_small by done.
  rewrite shift_by_L by (done || by apply mul_lt_wpow). rewrite (Z.mul_comm r). fold q.
  rewrite mp_mul_into_spec by (rewrite ?length_mp_of; auto with ssh; lia). cbn [mbind option_bind].
  rewrite (mp_val_small _ q) by lia. fold D. rewrite mp_sub_into_spec by auto with ssh.
  assert (mp_of (length d) (mp_val n - mp_val (mp_of (length d) (q * D)))
          = mp_of (length d) (mp_val n mod D + Z.b2z c * D)) as ->.
  { apply mp_of_eq. pose proof (wpow_pos (length d)).
    by rewrite mp_val_of, Zminus_mod_idemp_r, ER. }
  unfold D. rewrite divmod_correct_spec by done. fold D.
  rewrite mp_add_integer_into_spec, length_mp_of, mp_val_small by (auto with ssh; try lia; by destruct c).
  rewrite mp_cmp_hs_spec, (mp_val_small (length d)) by (auto with ssh; lia). fold D.
  rewrite (proj2 (Z.leb_gt D _)) by lia. cbn. by rewrite EQ.
Qed.

Lemma mp_divmod_spec :
  mp_divmod n d = Some (mp_of (length n) (mp_val n / D), mp_of (length d) (mp_val n mod D)).
Proof using All.
  unfold mp_divmod. rewrite mp_eq_integer_spec, (proj2 (Z.eqb_neq (mp_val d) 0)) by done. cbn [Z.b2z Z.eqb].
  destruct divmod_reciprocal_spec as (rw&r&->&?&?&?&?&?). cbn [mbind option_bind]. by apply divmod_finish_spec.
Qed.
End Division.

Lemma mp_of_small_copy w n v : 0 <= v < wpow n -> mp_copy_into w (mp_of n v) = mp_of w v.
Proof. intros. by rewrite mp_copy_into_spec, mp_val_small by auto with ssh. Qed.

Lemma mp_mod_spec n d :
  mp_ok n -> mp_ok d -> (0 < length n)%nat -> len n < 2 ^ 49 -> len d < 2 ^ 49 -> mp_val d <> 0 ->
  mp_mod n d = Some (mp_of (length d) (mp_val n mod mp_val d)).
Proof.
  intros Hn Hd ? ? ? Hd0. unfold mp_mod, mp_divmod_into.
  assert (0 < length d)%nat by (destruct d; [done|simpl; lia]).
  rewrite mp_make_sized_spec by done. cbn [mbind option_bind]. rewrite mp_divmod_spec by done.
  cbn. rewrite length_mp_of, mp_of_small_copy; [done|].
  pose proof (mp_val_bound d Hd). pose proof (Z.mod_pos_bound (mp_val n) (mp_val d)). lia.
Qed.

Lemma mp_div_spec n d :
  mp_ok n -> mp_ok d -> (0 < length n)%nat -> len n < 2 ^ 49 -> len d < 2 ^ 49 -> mp_val d <> 0 ->
  mp_div n d = Some (mp_of (length n) (mp_val n / mp_val d)).
Proof.
  intros Hn Hd ? ? ? Hd0. unfold mp_div, mp_divmod_into.
  rewrite mp_make_sized_spec by done. cbn [mbind option_bind]. rewrite mp_divmod_spec by done.
  cbn. rewrite length_mp_of, mp_of_small_copy; [done|].
  pose proof (mp_val_bound n Hn). pose proof (mp_val_bound d Hd). apply div_bound; lia.
Qed.

(** C9. Division is total and correct: for operands of any size, with a nonzero divisor
    no assertion of [mp_divmod_into] fails, the Newton-Raphson loop ends, and the
    outputs are the Euclidean quotient and remainder; a zero divisor is caught by the
    assertion. *)
Theorem mp_divmod_correct (n d : mp_int)
  (Hn : mp_ok n) (Hd : mp_ok d) (Hnl : (0 < length n)%nat) (Hnn : len n < 2 ^ 49) (Hdd : len d < 2 ^ 49) :
  if mp_val d =? 0 then mp_div n d = None /\ mp_divmod_into n d None (Some (length d)) = None
  else exists q r, mp_div n d = Some q /\ mp_mod n d = Some r
       /\ mp_val q = mp_val n / mp_val d /\ mp_val r = mp_val n mod mp_val d
       /\ length q = length n /\ length r = length d.
Proof.
  pose proof (mp_val_bound n Hn). pose proof (mp_val_bound d Hd).
  destruct (Z.eqb_spec (mp_val d) 0) as [E|E].
  - unfold mp_div, mp_divmod_into, mp_divmod. rewrite mp_make_sized_spec, mp_eq_integer_spec, E by done. done.
  - rewrite mp_div_spec, mp_mod_spec by done. do 2 eexists. split_and!; try done; try apply length_mp_of.
    + apply mp_val_small. apply div_bound; lia.
    + apply mp_val_small. pose proof (Z.mod_pos_bound (mp_val n) (mp_val d)). lia.
Qed.

Lemma mp_divmod_correct_witness :
  let n := mp_of 6 (10 ^ 100) in let d := mp_of 3 (10 ^ 40 + 9) in
  exists q r, mp_div n d = Some q /\ mp_mod n d = Some r
       /\ mp_val q = 10 ^ 100 / (10 ^ 40 + 9) /\ mp_val r = 10 ^ 100 mod (10 ^ 40 + 9)
       /\ length q = 6%nat /\ length r = 3%nat.
Proof.
  intros n d. assert (mp_val n = 10 ^ 100) as En by (vm_compute; reflexivity).
  assert (mp_val d = 10 ^ 40 + 9) as Ed by (vm_compute; reflexivity).
  rewrite <- En, <- Ed.
  exact (mp_divmod_correct n d (mp_of_ok _ _) (mp_of_ok _ _) ltac:(vm_compute; lia) ltac:(vm_compute; reflexivity) ltac:(vm_compute; reflexivity)).
Defined.

(** ** Modular arithmetic by division *)

Definition mp_modmul (x y modulus : mp_int) : option mp_int :=
  product ← mp_mul x y; mp_mod product modulus.
Definition mp_modadd (x y modulus : mp_int) : option mp_int :=
  sum ← mp_add x y; mp_mod sum modulus.
Definition mp_modsub (x y modulus : mp_int) : option mp_int :=
  diff ← mp_make_sized (size_t_max (length x) (length y));
  let diff := mp_sub_into (length diff) x y in
  let negate := mp_cmp_hs y x in
  let diff := mp_cond_negate (length diff) diff negate in
  residue ← mp_mod diff modulus;
  let residue := mp_cond_negate (length residue) residue negate in
  let make_positive := negate .& wrap 32 (Z.lnot (mp_eq_integer residue 0)) in
  Some (mp_cond_add_into (length residue) residue modulus make_positive).

Definition mp_modadd_in_range (x y modulus : mp_int) : option mp_int :=
  sum ← mp_make_sized (length modulus);
  let '(sum, carry) := mp_add_into_internal (length sum) x y in
  Some (mp_cond_sub_into (length sum) sum modulus (carry .| mp_cmp_hs sum modulus)).
Definition mp_modsub_in_range (x y modulus : mp_int) : option mp_int :=
  diff ← mp_make_sized (length modulus);
  let diff := mp_sub_into (length diff) x y in
  Some (mp_cond_add_into (length diff) diff modulus (1 .^ mp_cmp_hs x y)).

(** A modulus and operands of sizes the program can hold. *)
Definition modulus_ok (m : mp_int) : Prop := mp_ok m /\ mp_val m <> 0 /\ len m < 2 ^ 47.
Definition operand_ok (x : mp_int) : Prop := mp_ok x /\ (0 < length x)%nat /\ len x < 2 ^ 47.

Section Modular.
Context (x y m : mp_int) (Hx : operand_ok x) (Hy : operand_ok y) (Hm : modulus_ok m).

Lemma modulus_pos : 0 < mp_val m < wpow (length m) /\ (0 < length m)%nat.
Proof using Hm.
  destruct Hm as (Hmo&H0&_). pose proof (mp_val_bound m Hmo). split; [lia|].
  clear - H0. destruct m; [done|simpl; lia].
Qed.

Lemma mp_modmul_spec : mp_modmul x y m = Some (mp_of (length m) ((mp_val x * mp_val y) mod mp_val m)).
Proof using Hx Hy Hm.
  destruct Hx as (?&?&?), Hy as (?&?&?), Hm as (?&?&?). unfold mp_modmul, len in *.
  rewrite mp_mul_spec by done. cbn [mbind option_bind].
  rewrite mp_mod_spec by (auto with ssh; unfold len; rewrite ?length_mp_of; lia).
  rewrite mp_val_small; [done|]. apply mul_lt_wpow; by apply mp_val_bound.
Qed.

Lemma mp_modadd_spec : mp_modadd x y m = Some (mp_of (length m) ((mp_val x + mp_val y) mod mp_val m)).
Proof using Hx Hy Hm.
  destruct Hx as (Hxo&?&?), Hy as (Hyo&?&?), Hm as (?&?&?). unfold mp_modadd, len in *.
  rewrite mp_add_spec by done. cbn [mbind option_bind].
  rewrite mp_mod_spec by (auto with ssh; unfold len; rewrite ?length_mp_of; lia).
  rewrite mp_val_small; [done|]. rewrite Nat.add_1_r, wpow_S.
  pose proof (mp_val_lt_max x y Hxo). pose proof (mp_val_lt_max y x Hyo) as Hy'. rewrite Nat.max_comm in Hy'.
  pose proof (mp_val_bound x Hxo). pose proof (mp_val_bound y Hyo). assert (2 <= WB) by done. nia.
Qed.

Lemma mp_modsub_spec : mp_modsub x y m = Some (mp_of (length m) ((mp_val x - mp_val y) mod mp_val m)).
Proof using Hx Hy Hm.
  pose proof modulus_pos as [Hmp Hml]. destruct Hx as (Hxo&?&?), Hy as (Hyo&?&?), Hm as (?&?&?).
  unfold mp_modsub, len in *. rewrite size_t_max_spec, mp_make_sized_spec by lia. cbn [mbind option_bind].
  rewrite length_mp_of, mp_sub_into_spec, mp_cmp_hs_spec by done. set (w := Nat.max _ _).
  rewrite length_mp_of, mp_cond_negate_spec by auto with ssh.
  pose proof (mp_val_lt_max x y Hxo) as Bx. pose proof (mp_val_lt_max y x Hyo) as By. rewrite Nat.max_comm in By. fold w in Bx, By.
  pose proof (mp_val_bound x Hxo). pose proof (mp_val_bound y Hyo). pose proof (wpow_pos w).
  set (X := mp_val x) in *. set (Y := mp_val y) in *. set (M := mp_val m) in *.
  set (neg := X <=? Y).
  assert (mp_of w (if neg then - mp_val (mp_of w (X - Y)) else mp_val (mp_of w (X - Y))) = mp_of w (Z.abs (X - Y))) as ->.
  { apply mp_of_eq. rewrite mp_val_of. unfold neg. destruct (Z.leb_spec X Y).
    - rewrite <- Z.sub_0_l, Zminus_mod_idemp_r. f_equal. lia.
    - rewrite Z.mod_mod by lia. f_equal. lia. }
  rewrite mp_mod_spec by (auto with ssh; unfold len; rewrite ?length_mp_of; unfold w; lia).
  cbn [mbind option_bind]. rewrite (mp_val_small w) by lia. fold M.
  pose proof (Z.mod_pos_bound (Z.abs (X - Y)) M). set (u := Z.abs (X - Y) mod M) in *.
  rewrite length_mp_of, mp_cond_negate_spec, (mp_val_small (length m) u) by (auto with ssh; lia).
  rewrite mp_eq_integer_spec by (auto with ssh; done).
  assert (mp_val (mp_of (length m) (if neg then - u else u)) =? 0 = (u =? 0)) as ->.
  { rewrite mp_val_of. pose proof (wpow_pos (length m)). destruct (Z.eqb_spec u 0) as [->|].
    - by destruct neg; rewrite Z.mod_0_l by lia.
    - apply Z.eqb_neq. destruct neg; [|rewrite Z.mod_small; lia].
      rewrite Z.mod_opp_l_nz by (rewrite ?Z.mod_small; lia). rewrite Z.mod_small; lia. }
  assert (Z.land (Z.b2z neg) (wrap 32 (Z.lnot (Z.b2z (u =? 0)))) = Z.b2z (neg && negb (u =? 0))) as ->
    by (by destruct neg, (u =? 0)).
  rewrite mp_cond_add_into_spec, length_mp_of by auto with ssh. fold M. f_equal. apply mp_of_eq.
  rewrite mp_val_of, Z.add_mod_idemp_l by (pose proof (wpow_pos (length m)); lia). f_equal.
  unfold neg, u. destruct (Z.leb_spec X Y) as [Hle|Hgt]; cbn [andb].
  - rewrite Z.abs_neq by lia. destruct (Z.eqb_spec (- (X - Y) mod M) 0) as [E|E]; cbn [negb].
    + pose proof (Z_mod_zero_opp_full _ _ E) as E'. rewrite Z.opp_involutive in E'. lia.
    + transitivity (M - - (X - Y) mod M); [lia|]. rewrite <- Z.mod_opp_l_nz by lia. f_equal. lia.
  - rewrite Z.abs_eq by lia. lia.
Qed.
End Modular.

Section InRange.
Context (x y m : mp_int) (Hx : mp_ok x) (Hy : mp_ok y) (Hm : modulus_ok m).
Context (Rx : mp_val x < mp_val m) (Ry : mp_val y < mp_val m).

Lemma mp_modadd_in_range_spec :
  mp_modadd_in_range x y m = Some (mp_of (length m) ((mp_val x + mp_val y) mod mp_val m)).
Proof using All.
  pose proof (modulus_pos m Hm) as [Hmp Hml]. destruct Hm as (Hmo&_&_).
  pose proof (mp_val_bound x Hx). pose proof (mp_val_bound y Hy).
  unfold mp_modadd_in_range. rewrite mp_make_sized_spec by done. cbn [mbind option_bind].
  rewrite length_mp_of, mp_add_into_internal_spec by done.
  rewrite !(Z.mod_small _ (wpow (length m))) by lia.
  rewrite mp_cmp_hs_spec, length_mp_of, mp_val_of by auto with ssh.
  set (W := wpow (length m)) in *. set (M := mp_val m) in *. set (t := mp_val x + mp_val y) in *.
  assert (t / W = Z.b2z (W <=? t)) as ->.
  { destruct (Z.leb_spec W t); cbn [Z.b2z]; [|apply Z.div_small; lia].
    symmetry. apply (Z.div_unique t W 1 (t - W)); lia. }
  assert (Z.lor (Z.b2z (W <=? t)) (Z.b2z (M <=? t mod W)) = Z.b2z (M <=? t)) as ->.
  { destruct (Z.leb_spec W t).
    - rewrite (proj2 (Z.leb_le M t)) by lia. by destruct (M <=? t mod W).
    - rewrite Z.mod_small by lia. by destruct (M <=? t). }
  rewrite mp_cond_sub_into_spec by auto with ssh. f_equal. apply mp_of_eq. fold W M.
  rewrite mp_val_of. fold W. rewrite Zminus_mod_idemp_l. f_equal.
  destruct (Z.leb_spec M t); [|rewrite Z.mod_small; lia].
  apply (Z.mod_unique t M 1); lia.
Qed.

Lemma mp_modsub_in_range_spec :
  mp_modsub_in_range x y m = Some (mp_of (length m) ((mp_val x - mp_val y) mod mp_val m)).
Proof using All.
  pose proof (modulus_pos m Hm) as [Hmp Hml]. destruct Hm as (Hmo&_&_).
  pose proof (mp_val_bound x Hx). pose proof (mp_val_bound y Hy).
  unfold mp_modsub_in_range. rewrite mp_make_sized_spec by done. cbn [mbind option_bind].
  rewrite length_mp_of, mp_sub_into_spec, mp_cmp_hs_spec by done.
  assert (Z.lxor 1 (Z.b2z (mp_val y <=? mp_val x)) = Z.b2z (mp_val x <? mp_val y)) as ->.
  { rewrite Z.leb_antisym. by destruct (mp_val x <? mp_val y). }
  rewrite mp_cond_add_into_spec, length_mp_of by auto with ssh. f_equal. apply mp_of_eq.
  rewrite mp_val_of, Z.add_mod_idemp_l by (pose proof (wpow_pos (length m)); lia). f_equal.
  destruct (Z.ltb_spec (mp_val x) (mp_val y)); [|rewrite Z.mod_small; lia].
  apply (Z.mod_unique _ _ (-1)); lia.
Qed.
End InRange.

(** The modular operations built on the division compute in [Z / mZ]: product, sum
    and difference of operands of any size, and the in-range sum and difference that
    skip the division when both operands are already reduced. *)
Theorem mp_modular_correct (x y m : mp_int)
  (Hx : operand_ok x) (Hy : operand_ok y) (Hm : modulus_ok m) :
  let reduced v := Some (mp_of (length m) (v mod mp_val m)) in
  mp_modmul x y m = reduced (mp_val x * mp_val y)
  /\ mp_modadd x y m = reduced (mp_val x + mp_val y)
  /\ mp_modsub x y m = reduced (mp_val x - mp_val y)
  /\ (mp_val x < mp_val m -> mp_val y < mp_val m ->
      mp_modadd_in_range x y m = reduced (mp_val x + mp_val y)
      /\ mp_modsub_in_range x y m = reduced (mp_val x - mp_val y)).
Proof.
  cbn zeta. rewrite mp_modmul_spec, mp_modadd_spec, mp_modsub_spec by done. split_and!; try done.
  intros. destruct Hx as [? _], Hy as [? _]. by rewrite mp_modadd_in_range_spec, mp_modsub_in_range_spec.
Qed.

