(* ===== verification/MpMonty.v ===== *)
(** * Multiprecision integers: Montgomery arithmetic and modular exponentiation

    [mp_invert_mod_2to] (Hensel lifting), the [MontyContext] with its setup, reduction,
    multiplication, import and export, and the square-and-multiply of [monty_pow].
    [mp_modpow_correct] is the result the key exchange and the signatures rest on.
    Scratch pools appear by their size, as in [MpMul]. *)

From S2P Require Import Prelude Memory Mpint MpMul MpRecip MpBits MpDiv.
From Stdlib Require Import Zdivisibility.

Open Scope word_scope.

(** ** Inverse modulo a power of two *)

(** The words an alias covers, replaced in the number it aliases. *)
Definition write_alias (x : mp_int) (offset : nat) (w : mp_int) : mp_int :=
  take offset x ++ w ++ drop (offset + length w) x.

(** One round: the inverse modulo [2 ^ b] becomes one modulo [2 ^ (2 * b)]. *)
Definition invert_round (x r : mp_int) (b : Z) (scratch mul_scratch : nat) : option mp_int :=
  let Bw := Z.to_nat ((b + BIGNUM_INT_BITS - 1) / BIGNUM_INT_BITS) in
  let B2w := Z.to_nat ((2 * b + BIGNUM_INT_BITS - 1) / BIGNUM_INT_BITS) in
  scratch ← mp_alloc_from_scratch scratch Bw;
  let x0 := mp_copy_into Bw x in
  let x0 := mp_reduce_mod_2to x0 b in
  let r0 := mp_make_alias r 0 Bw in
  scratch ← mp_alloc_from_scratch scratch B2w;
  Kshift ← mp_mul_internal (mul_fuel B2w x0 r0) B2w x0 r0 mul_scratch;
  scratch ← mp_alloc_from_scratch scratch Bw;
  let K := mp_rshift_fixed_into Bw Kshift b in
  scratch ← mp_alloc_from_scratch scratch Bw;
  let x1 := mp_rshift_fixed_into Bw x b in
  let x1 := mp_reduce_mod_2to x1 b in
  let r0x1 := mp_make_alias Kshift 0 Bw in
  r0x1 ← mp_mul_internal (mul_fuel (length r0x1) r0 x1) (length r0x1) r0 x1 mul_scratch;
  let r0x1 := mp_add_into (length r0x1) r0x1 K in
  let r0x1 := mp_neg_into (length r0x1) r0x1 in
  scratch ← mp_alloc_from_scratch scratch Bw;
  r1 ← mp_mul_internal (mul_fuel Bw r0 r0x1) Bw r0 r0x1 mul_scratch;
  let r1 := mp_reduce_mod_2to r1 b in
  let K := mp_lshift_fixed_into Bw r1 (b mod BIGNUM_INT_BITS) in
  let Bpos := Z.to_nat (b / BIGNUM_INT_BITS) in
  let r1_position := mp_make_alias r Bpos (B2w - Bpos) in
  let r1_position := mp_add_into (length r1_position) r1_position K in
  Some (write_alias r Bpos r1_position).

(** [for (size_t b = 1; b < p; b <<= 1)] *)
Fixpoint invert_loop (fuel : nat) (x r : mp_int) (b p : Z) (scratch mul_scratch : nat) : option mp_int :=
  if b <? p then
    match fuel with
    | O => None
    | S fuel => r ← invert_round x r b scratch mul_scratch;
                invert_loop fuel x r (u64 (b << 1)) p scratch mul_scratch
    end
  else Some r.

Definition mp_invert_mod_2to (x : mp_int) (p : Z) : option mp_int :=
  assert! (0 <? length x)%nat;
  assert! negb (mp_word x 0 .& 1 =? 0);
  assert! 0 <? p;
  let rw := Z.to_nat ((p + BIGNUM_INT_BITS - 1) / BIGNUM_INT_BITS) in
  let rw := size_t_max rw 1 in
  r ← mp_make_sized rw;
  let mul_scratchsize := mp_mul_scratchspace (2 * rw) rw rw in
  scratch ← mp_make_sized (6 * rw + mul_scratchsize);
  scratch_per_iter ← mp_alloc_from_scratch (length scratch) mul_scratchsize;
  let r := <[0%nat := 1]> r in
  r ← invert_loop 64 x r 1 p scratch_per_iter mul_scratchsize;
  Some (mp_reduce_mod_2to r p).

(** ** Montgomery contexts *)

Record MontyContext := mkMonty {
  mc_m : mp_int;
  mc_rbits : Z;
  mc_rw : nat;
  mc_pw : nat;
  mc_minus_minv_mod_r : mp_int;
  mc_powers_of_r_mod_m : list mp_int;
  mc_scratch : nat
}.

Definition monty_scratch_size (rw pw : nat) : nat :=
  3 * rw + pw + mp_mul_scratchspace pw rw rw.

Definition monty_new (modulus : mp_int) : option MontyContext :=
  let rw := length modulus in
  let rbits := Z.of_nat rw * BIGNUM_INT_BITS in
  let pw := (rw * 2 + 1)%nat in
  m ← mp_copy modulus;
  minv ← mp_invert_mod_2to m rbits;
  let minus_minv := mp_neg_into (length minv) minv in
  r ← mp_make_sized (rw + 1);
  let r := <[rw := 1]> r in
  p0 ← mp_mod r m;
  p1 ← mp_modmul p0 p0 m;
  p2 ← mp_modmul p0 p1 m;
  scratch ← mp_make_sized (monty_scratch_size rw pw);
  Some (mkMonty m rbits rw pw minus_minv [p0; p1; p2] (length scratch)).

Definition monty_reduce_internal (mc : MontyContext) (x : mp_int) (scratch : nat) : option mp_int :=
  let x_lo := mp_make_alias x 0 (Z.to_nat (mc_rbits mc)) in
  scratch ← mp_alloc_from_scratch scratch (mc_rw mc);
  k ← mp_mul_internal (mul_fuel (mc_rw mc) x_lo (mc_minus_minv_mod_r mc))
        (mc_rw mc) x_lo (mc_minus_minv_mod_r mc) scratch;
  scratch ← mp_alloc_from_scratch scratch (mc_pw mc);
  mk ← mp_mul_internal (mul_fuel (mc_pw mc) (mc_m mc) k) (mc_pw mc) (mc_m mc) k scratch;
  let mk := mp_add_into (mc_pw mc) x mk in
  let toret := mp_make_alias mk (mc_rw mc) (length mk - mc_rw mc) in
  Some (mp_cond_sub_into (length toret) toret (mc_m mc) (mp_cmp_hs toret (mc_m mc))).

Definition monty_mul_into (mc : MontyContext) (rw : nat) (x y : mp_int) : option mp_int :=
  assert! (length x <=? mc_rw mc)%nat;
  assert! (length y <=? mc_rw mc)%nat;
  scratch ← mp_alloc_from_scratch (mc_scratch mc) (2 * mc_rw mc);
  tmp ← mp_mul_into (2 * mc_rw mc) x y;
  reduced ← monty_reduce_internal mc tmp scratch;
  Some (mp_copy_into rw reduced).
Definition monty_mul (mc : MontyContext) (x y : mp_int) : option mp_int :=
  toret ← mp_make_sized (mc_rw mc); monty_mul_into mc (length toret) x y.

Definition monty_modulus (mc : MontyContext) : mp_int := mc_m mc.
Definition monty_identity (mc : MontyContext) : mp_int := nth 0 (mc_powers_of_r_mod_m mc) [].

Definition monty_import (mc : MontyContext) (x : mp_int) : option mp_int :=
  mp_modmul x (nth 0 (mc_powers_of_r_mod_m mc) []) (mc_m mc).
Definition monty_import_into (mc : MontyContext) (rw : nat) (x : mp_int) : option mp_int :=
  imported ← monty_import mc x; Some (mp_copy_into rw imported).

Definition monty_export_into (mc : MontyContext) (rw : nat) (x : mp_int) : option mp_int :=
  assert! (length x <=? 2 * mc_rw mc)%nat;
  reduced ← monty_reduce_internal mc x (mc_scratch mc);
  Some (mp_copy_into rw reduced).
Definition monty_export (mc : MontyContext) (x : mp_int) : option mp_int :=
  toret ← mp_make_sized (mc_rw mc); monty_export_into mc (length toret) x.

Definition monty_reduce (mc : MontyContext) (x : mp_int) : option mp_int :=
  reduced ← monty_reduce_internal mc x (mc_scratch mc); Some (mp_copy_into (length x) reduced).

Definition monty_add (mc : MontyContext) (x y : mp_int) : option mp_int := mp_modadd_in_range x y (mc_m mc).
Definition monty_sub (mc : MontyContext) (x y : mp_int) : option mp_int := mp_modsub_in_range x y (mc_m mc).

(** ** Exponentiation *)

(** The [while (true)] loop, [fuel] bounding the bits of the exponent still to come. *)
Fixpoint monty_pow_loop (fuel : nat) (mc : MontyContext) (exponent out square : mp_int) (i : Z) : option mp_int :=
  tmp ← mp_mul_into (mc_rw mc * 2) out square;
  tmp ← monty_reduce mc tmp;
  let out := mp_select_into (length out) out tmp (mp_get_bit exponent i) in
  if (len exponent * BIGNUM_INT_BITS <=? i + 1) then Some out else
  match fuel with
  | O => None
  | S fuel =>
      tmp ← mp_mul_into (mc_rw mc * 2) square square;
      tmp ← monty_reduce mc tmp;
      monty_pow_loop fuel mc exponent out (mp_copy_into (length square) tmp) (i + 1)
  end.

Definition monty_pow (mc : MontyContext) (base exponent : mp_int) : option mp_int :=
  square ← mp_copy base;
  out ← mp_copy (nth 0 (mc_powers_of_r_mod_m mc) []);
  _ ← mp_make_sized (mc_rw mc * 2);
  monty_pow_loop (64 * length exponent) mc exponent out square 0.

Definition mp_modpow (base exponent modulus : mp_int) : option mp_int :=
  assert! (0 <? length modulus)%nat;
  assert! negb (mp_word modulus 0 .& 1 =? 0);
  mc ← monty_new modulus;
  m_base ← monty_import mc base;
  m_out ← monty_pow mc m_base exponent;
  monty_export mc m_out.

Example mp_invert_mod_2to_run : mp_invert_mod_2to [3; 7] 64 = Some [12297829382473034411].
Proof. vm_compute. reflexivity. Qed.

(** ** Correctness of the inverse modulo a power of two *)

Lemma take_mp_of_min m n v : take m (mp_of n v) = mp_of (Nat.min m n) v.
Proof.
  destruct (Nat.le_gt_cases m n); [rewrite take_mp_of by done; f_equal; lia|].
  rewrite take_ge by (rewrite length_mp_of; lia). f_equal. lia.
Qed.

Lemma add_in_alias rw o n v K :
  mp_ok K -> (o + n <= rw)%nat -> 0 <= v ->
  (v + mp_val K * wpow o < wpow (o + n) \/ (o + n = rw)%nat) ->
  write_alias (mp_of rw v) o (mp_add_into n (mp_of n (v / wpow o)) K) = mp_of rw (v + mp_val K * wpow o).
Proof.
  intros HK Hon Hv Hfit. unfold write_alias. rewrite length_mp_add_into, mp_add_into_spec by auto with ssh.
  pose proof (wpow_pos o). pose proof (wpow_pos n). pose proof (mp_val_bound K HK).
  set (k := mp_val K) in *. rewrite take_mp_of, drop_mp_of by lia.
  transitivity (mp_of (o + (n + (rw - (o + n)))) (v + k * wpow o)); [|f_equal; lia].
  rewrite !mp_of_app, Z.div_add by lia. f_equal; [|f_equal].
  - apply mp_of_eq. by rewrite Z.mod_add by lia.
  - apply mp_of_eq. rewrite mp_val_of, Z.add_mod_idemp_l by lia. done.
  - destruct Hfit as [Hfit|Hfit]; [|by replace (rw - (o + n))%nat with 0%nat by lia].
    rewrite wpow_add in *. rewrite (Z.div_small v) by nia. rewrite <- Z.div_add, Z.div_div, Z.div_small by nia. done.
Qed.

Lemma hensel_step X v B K x0 x1 r1 :
  1 < B -> 0 <= v -> 0 <= X -> x0 = X mod B -> x1 = X / B mod B -> K = x0 * v / B ->
  (v * X) mod B = 1 -> r1 = (v * - (v * x1 + K)) mod B -> ((v + r1 * B) * X) mod (B * B) = 1.
Proof.
  intros HB Hv HX -> -> -> Hinv Hr1.
  set (x0 := X mod B) in *. set (x1 := X / B mod B) in *. set (K := x0 * v / B) in *.
  assert (exists t, X = x0 + x1 * B + t * (B * B)) as [t Et].
  { exists (X / B / B). unfold x0, x1. pose proof (Z.div_mod X B). pose proof (Z.div_mod (X / B) B). nia. }
  assert (v * x0 = K * B + 1) as Ev.
  { unfold K. rewrite (Z.mul_comm x0). pose proof (Z.div_mod (v * x0) B).
    assert ((v * x0) mod B = 1) by (unfold x0; rewrite Z.mul_mod_idemp_r by lia; done). lia. }
  assert (exists s, r1 = v * - (v * x1 + K) + s * B) as [s Es].
  { exists (- (v * - (v * x1 + K) / B)). rewrite Hr1, Z.mod_eq by lia. ring. }
  assert ((v + r1 * B) * X = 1 + (v * t + r1 * x1 + r1 * t * B + s * x0 - (v * x1 + K) * K) * (B * B)) as ->.
  { transitivity (v * x0 + (v * x1 + r1 * x0) * B + (v * t + r1 * x1 + r1 * t * B) * (B * B)).
    { rewrite Et. ring. }
    assert (r1 * x0 = - (v * x1 + K) * (K * B + 1) + s * x0 * B) as ->.
    { rewrite <- Ev, Es. ring. }
    rewrite Ev. ring. }
  rewrite Z.mod_add by nia. apply Z.mod_small. nia.
Qed.

Section Round.
Context (x : mp_int) (Hx : mp_ok x) (rw : nat) (b v : Z).
Context (Hb : 1 <= b) (Hbw : b <= 32 \/ b mod 64 = 0) (Hbr : b < 64 * Z.of_nat rw) (Hv : 0 <= v < 2 ^ b).
Context (Hinv : (v * mp_val x) mod 2 ^ b = 1).

(** [b] in words and bits. *)
Lemma round_sizes :
  exists Bw Bpos, Z.to_nat ((b + BIGNUM_INT_BITS - 1) / BIGNUM_INT_BITS) = Bw
    /\ Z.to_nat (b / BIGNUM_INT_BITS) = Bpos /\ 2 ^ b <= wpow Bw /\ (Bw <= rw)%nat /\ (0 < Bw)%nat
    /\ (Bpos < rw)%nat /\ 2 ^ b = 2 ^ (b mod 64) * wpow Bpos
    /\ exists B2w, Z.to_nat ((2 * b + BIGNUM_INT_BITS - 1) / BIGNUM_INT_BITS) = B2w
       /\ 2 ^ (2 * b) <= wpow B2w /\ (Bw <= B2w <= 2 * rw)%nat /\ (Bpos < B2w)%nat
       /\ (2 ^ (2 * b) <= wpow B2w) /\ 2 ^ b * 2 ^ (b mod 64) <= wpow Bw.
Proof using All.
  change BIGNUM_INT_BITS with 64. do 2 eexists. split; [done|]. split; [done|].
  rewrite !wpow_pow2. split_and!; [apply Z.pow_le_mono_r; zdivmod|zdivmod..| |].
  { rewrite <- Z.pow_add_r by zdivmod. f_equal. zdivmod. }
  eexists. split; [done|]. rewrite !wpow_pow2.
  split_and!; try (apply Z.pow_le_mono_r; zdivmod); try zdivmod.
  rewrite <- Z.pow_add_r by zdivmod. apply Z.pow_le_mono_r; [lia|]. zdivmod.
Qed.

(** The new digit of the inverse, as the code computes it. *)
Definition round_digit : Z :=
  let B := 2 ^ b in
  (v * - (v * (mp_val x / B mod B) + mp_val x mod B * v / B)) mod B.

Lemma mod_mod_wpow w u : 2 ^ b <= wpow w -> u mod wpow w mod 2 ^ b = u mod 2 ^ b.
Proof using All.
  intros Hw. apply Z.mod_mod_divide. exists (2 ^ (64 * Z.of_nat w - b)).
  rewrite wpow_pow2 in *. apply Z.pow_le_mono_r_iff in Hw; [|lia..].
  rewrite <- Z.pow_add_r by lia. f_equal. lia.
Qed.

Lemma round_digit_spec Bw :
  2 ^ b <= wpow Bw ->
  let B := 2 ^ b in let X := mp_val x in
  let K := X mod B * v / B in let x1 := X / B mod B in
  mp_reduce_mod_2to (mp_of Bw (mp_val (mp_of Bw v) * mp_val (mp_neg_into Bw
     (mp_add_into Bw (mp_of Bw (v * x1)) (mp_of Bw K))))) b = mp_of Bw round_digit.
Proof using All.
  intros HBw B X K x1. pose proof (wpow_pos Bw). fold B in HBw. assert (0 < B) by (apply pow2_pos; lia).
  rewrite mp_add_into_spec, mp_neg_into_spec, mp_reduce_mod_2to_spec, length_mp_of by (auto with ssh; lia).
  f_equal. rewrite !mp_val_of. apply cong_iff; [fold B; lia|]. fold X B.
  assert (forall u, u mod wpow Bw == u {mod B}) as Hcong.
  { intros u. apply cong_iff; [lia|]. by apply mod_mod_wpow. }
  by rewrite !Hcong.
Qed.

Lemma invert_round_spec scratch mul_scratch :
  (6 * rw <= scratch)%nat -> (6 * rw <= mul_scratch)%nat ->
  invert_round x (mp_of rw v) b scratch mul_scratch = Some (mp_of rw (v + round_digit * 2 ^ b)).
Proof using All.
  intros Hs Hms. destruct round_sizes as (Bw&Bpos&EBw&EBpos&HBw&HBwr&HBw0&HBp&EB&B2w&EB2w&HB2w&HB2r&HB2p&_&HKw).
  unfold invert_round. rewrite EBw, EB2w, EBpos. clear EBw EB2w EBpos. change BIGNUM_INT_BITS with 64.
  pose proof (mp_val_bound x Hx). pose proof (wpow_pos Bw).
  assert (0 < 2 ^ b) by (apply pow2_pos; lia). pose proof (Z.mod_pos_bound (mp_val x) (2 ^ b)).
  assert (2 ^ (2 * b) = 2 ^ b * 2 ^ b) as EBB by (rewrite <- Z.pow_add_r by lia; f_equal; lia).
  rewrite mp_alloc_ok by lia. cbn [mbind option_bind]. rewrite mp_alloc_ok by lia. cbn [mbind option_bind].
  rewrite mp_copy_into_spec, (mp_reduce_mod_2to_spec (mp_of Bw _)) by (auto with ssh; lia).
  rewrite length_mp_of, mp_val_of, (mod_mod_wpow Bw) by lia.
  rewrite (mp_make_alias_of 0 Bw rw v), wpow_0, Z.div_1_r by lia.
  rewrite mul_internal_call by (rewrite ?length_mp_of; auto with ssh; lia). cbn [mbind option_bind].
  rewrite mp_alloc_ok by lia. cbn [mbind option_bind]. rewrite mp_alloc_ok by lia. cbn [mbind option_bind].
  rewrite (mp_val_small Bw (mp_val x mod _)), (mp_val_small Bw v) by lia.
  rewrite (mp_rshift_fixed_into_spec (mp_of B2w _)), (mp_rshift_fixed_into_spec x) by (auto with ssh; lia).
  rewrite (mp_val_small B2w) by nia.
  rewrite (mp_reduce_mod_2to_spec (mp_of Bw _)) by (auto with ssh; lia).
  rewrite length_mp_of, mp_val_of, (mod_mod_wpow Bw) by lia.
  rewrite (mp_make_alias_of 0 Bw B2w), !length_mp_of by lia.
  rewrite mul_internal_call by (rewrite ?length_mp_of; auto with ssh; lia). cbn [mbind option_bind].
  rewrite mp_alloc_ok by lia. cbn [mbind option_bind].
  pose proof (Z.mod_pos_bound (mp_val x / 2 ^ b) (2 ^ b)).
  rewrite (mp_val_small Bw v), (mp_val_small Bw (_ mod _)) by lia.
  rewrite !length_mp_of, length_mp_add_into.
  rewrite mul_internal_call; [|auto with ssh| |].
  2: { rewrite mp_add_into_spec, mp_neg_into_spec by auto with ssh. auto with ssh. }
  2: { rewrite mp_add_into_spec, mp_neg_into_spec, !length_mp_of by auto with ssh. lia. }
  cbn [mbind option_bind]. rewrite round_digit_spec by done.
  assert (0 <= round_digit < 2 ^ b) as Hrd by (apply Z.mod_pos_bound; lia).
  pose proof (pow2_pos (b mod 64) ltac:(zdivmod)).
  rewrite mp_lshift_fixed_into_spec, (mp_val_small Bw round_digit) by (auto with ssh; lia || zdivmod).
  rewrite mp_make_alias_spec, drop_mp_of, length_take, length_mp_of by lia.
  set (n := Nat.min _ _). rewrite take_mp_of_min by lia. fold n.
  rewrite add_in_alias; [|auto with ssh|lia|lia|].
  - rewrite mp_val_small by nia. rewrite EB. f_equal. f_equal. ring.
  - rewrite mp_val_small by nia. destruct (Nat.le_gt_cases (B2w - Bpos) (rw - Bpos)) as [Hn|Hn]; [left|right; lia].
    replace (Bpos + n)%nat with B2w by lia. rewrite <- Z.mul_assoc, <- EB. nia.
Qed.

Lemma round_digit_inverse :
  0 <= mp_val x -> let v' := v + round_digit * 2 ^ b in
  0 <= v' < 2 ^ (2 * b) /\ (v' * mp_val x) mod 2 ^ (2 * b) = 1.
Proof using All.
  intros HX v'. assert (1 < 2 ^ b) by (change 1 with (2 ^ 0); apply Z.pow_lt_mono_r; lia).
  assert (2 ^ (2 * b) = 2 ^ b * 2 ^ b) as -> by (rewrite <- Z.pow_add_r by lia; f_equal; lia).
  assert (0 <= round_digit < 2 ^ b) by (apply Z.mod_pos_bound; lia).
  split; [unfold v'; nia|]. unfold v'. by eapply hensel_step; try done; try lia.
Qed.
End Round.

Lemma low_bit_spec x : mp_ok x -> Z.land (mp_word x 0) 1 = mp_val x mod 2.
Proof.
  intros Hx. rewrite land_1, mp_word_val, wpow_0, Z.div_1_r by done.
  apply Z.mod_mod_divide. by exists (2 ^ 63).
Qed.

Lemma mp_of_one n : (0 < n)%nat -> <[0%nat := 1]> (mp_of n 0) = mp_of n 1.
Proof. destruct n; [lia|done]. Qed.

Section InvertMod2.
Context (x : mp_int) (Hx : mp_ok x) (Hodd : mp_val x mod 2 = 1) (p : Z) (Hp : 0 < p < 2 ^ 62).
Context (rw : nat) (Hrw : p <= 64 * Z.of_nat rw).

Lemma invert_loop_spec scratch mul_scratch fuel j v :
  (6 * rw <= scratch)%nat -> (6 * rw <= mul_scratch)%nat ->
  0 <= j -> 0 <= v < 2 ^ 2 ^ j -> (v * mp_val x) mod 2 ^ 2 ^ j = 1 -> p <= 2 ^ j * 2 ^ Z.of_nat fuel ->
  exists v' e, invert_loop fuel x (mp_of rw v) (2 ^ j) p scratch mul_scratch = Some (mp_of rw v')
    /\ p <= e /\ (v' * mp_val x) mod 2 ^ e = 1.
Proof using All.
  intros Hs Hms. revert j v. induction fuel as [|fuel IH]; intros j v Hj Hv Hinv Hfuel; cbn [invert_loop].
  { rewrite Z.pow_0_r, Z.mul_1_r in Hfuel. rewrite (proj2 (Z.ltb_ge _ _)) by lia. by exists v, (2 ^ j). }
  destruct (Z.ltb_spec (2 ^ j) p) as [Hlt|Hge]; [|by exists v, (2 ^ j)].
  pose proof (pow2_pos j Hj). pose proof (mp_val_bound x Hx).
  assert (2 ^ j <= 32 \/ 2 ^ j mod 64 = 0) as Hbw.
  { destruct (Z.le_gt_cases j 5); [left; change 32 with (2 ^ 5); apply Z.pow_le_mono_r; lia|right].
    replace j with (j - 6 + 6) by lia. rewrite Z.pow_add_r by lia. apply Z.mod_mul. done. }
  rewrite (invert_round_spec x Hx rw (2 ^ j) v ltac:(lia) Hbw ltac:(lia) Hv Hinv) by done. cbn [mbind option_bind].
  destruct (round_digit_inverse x Hx rw (2 ^ j) v ltac:(lia) Hbw ltac:(lia) Hv Hinv ltac:(lia)) as [Hv' Hinv'].
  rewrite Z.shiftl_mul_pow2, wrap_id by (unfold word_ok; lia).
  replace (2 ^ j * 2 ^ 1) with (2 ^ (j + 1)) by (rewrite Z.pow_add_r by lia; done).
  replace (2 * 2 ^ j) with (2 ^ (j + 1)) in * by (rewrite Z.pow_add_r by lia; lia).
  apply IH; try done; [lia|]. rewrite Z.pow_add_r by lia.
  rewrite Nat2Z.inj_succ, Z.pow_succ_r in Hfuel by lia. lia.
Qed.
End InvertMod2.

Lemma mp_invert_mod_2to_spec x p :
  mp_ok x -> mp_val x mod 2 = 1 -> 0 < p < 2 ^ 62 ->
  let rw := Z.to_nat ((p + 63) / 64) in
  exists v, mp_invert_mod_2to x p = Some (mp_of rw v) /\ 0 <= v < 2 ^ p /\ (v * mp_val x) mod 2 ^ p = 1.
Proof.
  intros Hx Hodd Hp rw. unfold mp_invert_mod_2to.
  destruct (Nat.ltb_spec 0 (length x)).
  2: { destruct x; [done|simpl in *; lia]. }
  rewrite low_bit_spec, Hodd, (proj2 (Z.ltb_lt 0 p)) by (done || lia). cbn [negb Z.eqb].
  change BIGNUM_INT_BITS with 64. replace (p + 64 - 1) with (p + 63) by lia. fold rw.
  assert (p <= 64 * Z.of_nat rw < p + 64) as Hrw by (unfold rw; zdivmod).
  rewrite size_t_max_spec, Nat.max_l by lia. rewrite mp_make_sized_spec by lia. cbn [mbind option_bind].
  unfold mp_mul_scratchspace, mp_mul_scratchspace_unary. rewrite size_t_max_spec, size_t_min_spec.
  rewrite mp_make_sized_spec by lia. cbn [mbind option_bind]. rewrite length_mp_of, mp_alloc_ok by lia.
  cbn [mbind option_bind]. rewrite mp_of_one by lia. pose proof (mp_val_bound x Hx).
  match goal with |- context [invert_loop 64 x _ 1 p ?s ?ms] =>
    destruct (invert_loop_spec x Hx Hodd p Hp rw ltac:(lia) s ms 64 0 1) as (v&e&E&He&Hinv) end; [lia..| | |].
  { by rewrite Z.mul_1_l. } { change (2 ^ Z.of_nat 64) with (2 ^ 64). lia. }
  change (2 ^ 0) with 1 in E. rewrite E.
  cbn [mbind option_bind]. exists (v mod 2 ^ p). assert (0 < 2 ^ p) by (apply pow2_pos; lia).
  rewrite mp_reduce_mod_2to_spec, length_mp_of, mp_val_of by (auto with ssh; lia).
  assert ((2 ^ p | wpow rw)) as Hdiv.
  { exists (2 ^ (64 * Z.of_nat rw - p)). rewrite wpow_pow2, <- Z.pow_add_r by lia. f_equal. lia. }
  rewrite (Z.mod_mod_divide v) by done. split; [done|]. split; [apply Z.mod_pos_bound; lia|].
  rewrite Z.mul_mod_idemp_l by lia. apply cong_small; [split; [lia|change 1 with (2 ^ 0); apply Z.pow_lt_mono_r; lia]|].
  apply (cong_divide _ (2 ^ e)); [exists (2 ^ (e - p)); rewrite <- Z.pow_add_r by lia; f_equal; lia|].
  pose proof (cong_mod (2 ^ e) (v * mp_val x) ltac:(pose proof (pow2_pos e); lia)) as C.
  rewrite Hinv in C. by symmetry.
Qed.

(** ** Correctness of Montgomery arithmetic *)

(** [R], the Montgomery radix of a context. *)
Definition monty_R (mc : MontyContext) : Z := wpow (mc_rw mc).

(** What [monty_new] establishes. *)
Record monty_ok (mc : MontyContext) : Prop := {
  mo_m : modulus_ok (mc_m mc);
  mo_odd : mp_val (mc_m mc) mod 2 = 1;
  mo_rw : mc_rw mc = length (mc_m mc);
  mo_rbits : mc_rbits mc = 64 * Z.of_nat (mc_rw mc);
  mo_pw : mc_pw mc = (mc_rw mc * 2 + 1)%nat;
  mo_minv_ok : mp_ok (mc_minus_minv_mod_r mc);
  mo_minv_len : length (mc_minus_minv_mod_r mc) = mc_rw mc;
  mo_minv : mp_val (mc_minus_minv_mod_r mc) * mp_val (mc_m mc) == -1 {mod monty_R mc};
  mo_powers : mc_powers_of_r_mod_m mc
    = (fun i => mp_of (mc_rw mc) (monty_R mc ^ Z.of_nat i mod mp_val (mc_m mc))) <$> [1; 2; 3]%nat;
  mo_scratch : mc_scratch mc = monty_scratch_size (mc_rw mc) (mc_pw mc)
}.

Lemma gcd_odd_wpow m n : m mod 2 = 1 -> Z.gcd m (wpow n) = 1.
Proof.
  intros Hm. rewrite wpow_pow2. apply (Z.coprime_pow_r m 2); [lia|].
  unfold Z.coprime. rewrite Z.gcd_comm, <- Z.gcd_mod, Hm by done. done.
Qed.

Lemma mp_of_top n : <[n := 1]> (mp_of (n + 1) 0) = mp_of (n + 1) (wpow n).
Proof.
  rewrite !mp_of_app. pose proof (wpow_pos n). rewrite Z.div_same, Z.div_0_l by lia.
  rewrite <- (Nat.add_0_r n) at 1. rewrite <- (length_mp_of n 0) at 1. rewrite insert_app_r. f_equal.
  apply mp_of_eq. rewrite Z.mod_same, Z.mod_0_l by lia. done.
Qed.

Lemma monty_new_spec m :
  modulus_ok m -> mp_val m mod 2 = 1 -> exists mc, monty_new m = Some mc /\ monty_ok mc /\ mc_m mc = m.
Proof.
  intros Hm Hodd. pose proof (modulus_pos m Hm) as [HM Hl]. pose proof Hm as (Hmo&H0&Hlen). unfold len in Hlen.
  unfold monty_new. rewrite mp_copy_spec by done. cbn [mbind option_bind]. change BIGNUM_INT_BITS with 64.
  destruct (mp_invert_mod_2to_spec m (Z.of_nat (length m) * 64)) as (v&->&Hv&Hinv); [done|done|lia|].
  cbn [mbind option_bind].
  assert (Z.to_nat ((Z.of_nat (length m) * 64 + 63) / 64) = length m) as -> by (clear; zdivmod).
  rewrite length_mp_of, mp_neg_into_spec by auto with ssh.
  rewrite (mp_make_sized_spec (length m + 1)) by lia. cbn [mbind option_bind]. rewrite mp_of_top.
  rewrite mp_mod_spec; [|auto with ssh|auto|rewrite length_mp_of; lia|unfold len; rewrite length_mp_of; lia|unfold len; lia|done].
  cbn [mbind option_bind]. set (R := wpow (length m)). assert (0 < R) by apply wpow_pos.
  rewrite (mp_val_small (length m + 1)) by (rewrite Nat.add_1_r, wpow_S; fold R; assert (1 < WB) by done; nia).
  pose proof (Z.mod_pos_bound R (mp_val m)). set (M := mp_val m) in *.
  assert (forall u, 0 <= u < M -> operand_ok (mp_of (length m) u)) as Hop.
  { intros. split; [auto with ssh|]. unfold len. rewrite length_mp_of. lia. }
  rewrite mp_modmul_spec by (auto; apply Hop, Z.mod_pos_bound; lia). cbn [mbind option_bind].
  rewrite !(mp_val_small (length m) (R mod M)) by (fold R; lia).
  pose proof (Z.mod_pos_bound (R mod M * (R mod M)) M). fold M.
  rewrite mp_modmul_spec by (auto; apply Hop, Z.mod_pos_bound; lia). cbn [mbind option_bind].
  rewrite (mp_val_small (length m) (R mod M)), (mp_val_small (length m) (_ mod M)) by (fold R; lia). fold M.
  rewrite mp_make_sized_spec by (unfold monty_scratch_size; lia). cbn [mbind option_bind].
  eexists. split; [done|]. split; [|done].
  split; cbn [mc_m mc_rbits mc_rw mc_pw mc_minus_minv_mod_r mc_powers_of_r_mod_m mc_scratch];
    try done; try lia; try (apply length_mp_of); auto with ssh.
  - unfold monty_R. cbn [mc_rw]. rewrite mp_val_of. fold R M.
    assert (0 < R) by done. rewrite cong_mod by lia. rewrite mp_val_small by (rewrite wpow_pow2; replace (64 * Z.of_nat (length m)) with (Z.of_nat (length m) * 64) by lia; lia).
    transitivity (- (v * M)); [by replace (- v * M) with (- (v * M)) by ring|].
    assert (v * M == 1 {mod R}) as ->; [|done].
    unfold R. rewrite wpow_pow2. replace (64 * Z.of_nat (length m)) with (Z.of_nat (length m) * 64) by lia.
    pose proof (cong_mod (2 ^ (Z.of_nat (length m) * 64)) (v * M) ltac:(pose proof (pow2_pos (Z.of_nat (length m) * 64)); lia)) as C.
    rewrite Hinv in C. by symmetry.
  - unfold monty_R. cbn [mc_rw fmap list_fmap]. fold R M.
    assert ((R mod M * (R mod M)) mod M = R ^ Z.of_nat 2 mod M) as ->.
    { rewrite <- Z.mul_mod by lia. f_equal. change (Z.of_nat 2) with 2. ring. }
    assert ((R mod M * (R ^ Z.of_nat 2 mod M)) mod M = R ^ Z.of_nat 3 mod M) as ->.
    { by rewrite <- Z.mul_mod by lia. }
    by rewrite Z.pow_1_r.
Qed.

Section Monty.
Context (mc : MontyContext) (Hmc : monty_ok mc).
Let M := mp_val (mc_m mc).
Let R := monty_R mc.
Let rw := mc_rw mc.

Lemma monty_sizes : 0 < M < R /\ (0 < rw)%nat /\ 0 < R /\ Z.of_nat rw < 2 ^ 47 /\ Z.gcd M R = 1.
Proof using Hmc.
  destruct (modulus_pos _ (mo_m mc Hmc)) as [HM Hl]. destruct (mo_m mc Hmc) as (_&_&Hlen). unfold len in Hlen.
  unfold R, monty_R, rw, M. rewrite (mo_rw mc Hmc). pose proof (wpow_pos (length (mc_m mc))).
  split_and!; try lia. apply gcd_odd_wpow, (mo_odd mc Hmc).
Qed.

(** Exact division by [R], up to one subtraction of the modulus. *)
Lemma redc_arith X k :
  0 <= X < R * M -> 0 <= k < R -> k == X * mp_val (mc_minus_minv_mod_r mc) {mod R} ->
  let T := (X + M * k) / R in
  0 <= T < 2 * M /\ T * R == X {mod M} /\ X + M * k < 2 * R * R.
Proof using Hmc.
  intros HX Hk Ek T. pose proof monty_sizes as (HM&_&HR&_&_). pose proof (mo_minv mc Hmc) as Hminv.
  assert (X + M * k == 0 {mod R}) as Hz.
  { rewrite Ek. fold R M in Hminv.
    replace (X + M * (X * mp_val (mc_minus_minv_mod_r mc))) with (X + X * (mp_val (mc_minus_minv_mod_r mc) * M)) by ring.
    rewrite Hminv. by replace (X + X * -1) with 0 by ring. }
  assert (T * R = X + M * k) as ET.
  { unfold T. destruct Hz as [t Et]. rewrite Z.sub_0_r in Et. by rewrite Et, Z.div_mul by lia. }
  split; [|split].
  - assert (0 <= T * R < 2 * M * R) by nia. nia.
  - rewrite ET. exists k. ring.
  - nia.
Qed.

Lemma monty_reduce_internal_spec x scratch :
  mp_ok x -> (length x <= 2 * rw)%nat -> mp_val x < R * M -> (3 * rw + 1 + 6 * rw <= scratch)%nat ->
  exists t, monty_reduce_internal mc x scratch = Some (mp_of (rw + 1) t)
    /\ 0 <= t < M /\ t * R == mp_val x {mod M}.
Proof using Hmc.
  intros Hx Hlx HX Hs. pose proof monty_sizes as (HM&Hrw&HR&Hrw'&_). pose proof (mp_val_bound x Hx).
  pose proof (mo_m mc Hmc) as (Hmo&_&_). pose proof (mo_rw mc Hmc) as Erw.
  pose proof (mo_minv_ok mc Hmc). pose proof (mo_minv_len mc Hmc) as Lminv. fold rw in Erw, Lminv.
  unfold monty_reduce_internal. rewrite (mo_rbits mc Hmc), (mo_pw mc Hmc). fold rw.
  rewrite mp_make_alias_spec, drop_0, take_ge by lia.
  rewrite mp_alloc_ok by lia. cbn [mbind option_bind].
  rewrite mul_internal_call by (auto; lia). cbn [mbind option_bind].
  rewrite mp_alloc_ok by lia. cbn [mbind option_bind].
  rewrite mul_internal_call by (rewrite ?length_mp_of; auto with ssh; lia). cbn [mbind option_bind].
  fold M. rewrite mp_val_of. change (wpow rw) with R. set (k := (mp_val x * _) mod R).
  assert (0 <= k < R) by (apply Z.mod_pos_bound; lia).
  destruct (redc_arith (mp_val x) k) as (HT&HTR&Hsum); [lia|done|apply cong_mod; lia|].
  set (T := (mp_val x + M * k) / R) in *.
  assert (2 * R * R < wpow (rw * 2 + 1)) as Hpw.
  { rewrite Nat.add_1_r, wpow_S. replace (rw * 2)%nat with (rw + rw)%nat by lia. rewrite wpow_add.
    change (wpow rw) with R. assert (2 < WB) by done. nia. }
  rewrite mp_add_into_spec, mp_val_small, length_mp_of by (auto with ssh; nia).
  rewrite mp_make_alias_of by lia. change (wpow rw) with R. fold T.
  replace (rw * 2 + 1 - rw)%nat with (rw + 1)%nat by lia.
  assert (M < wpow (rw + 1) /\ 2 * M < wpow (rw + 1)) as [??].
  { rewrite Nat.add_1_r, wpow_S. change (wpow rw) with R. assert (2 < WB) by done. nia. }
  rewrite mp_cmp_hs_spec, mp_cond_sub_into_spec, length_mp_of, mp_val_small by (auto with ssh; lia). fold M.
  exists (T - if M <=? T then M else 0). split; [done|].
  split; [destruct (Z.leb_spec M T); lia|].
  destruct (Z.leb_spec M T); [|by rewrite Z.sub_0_r].
  rewrite <- HTR. exists (- R). ring.
Qed.

(** The number that stands for [a]. *)
Definition monty_rep (a : Z) : mp_int := mp_of rw ((a * R) mod M).

Lemma monty_rep_val a : mp_val (monty_rep a) = (a * R) mod M /\ 0 <= (a * R) mod M < M.
Proof using Hmc.
  pose proof monty_sizes as (HM&_). pose proof (Z.mod_pos_bound (a * R) M). split; [|lia].
  apply mp_val_small. change (wpow rw) with R. lia.
Qed.

(** The residue that reduction leaves is determined by its product with [R]. *)
Lemma redc_unique t c : 0 <= t < M -> t * R == c * R {mod M} -> t = c mod M.
Proof using Hmc.
  intros Ht E. pose proof monty_sizes as (HM&_&_&_&Hg).
  rewrite <- (Z.mod_small t M) by done. apply cong_iff; [lia|].
  apply (cong_cancel M R); [done|]. by rewrite !(Z.mul_comm R).
Qed.

Lemma monty_mul_into_spec w a b :
  monty_mul_into mc w (monty_rep a) (monty_rep b) = Some (mp_of w ((a * b * R) mod M)).
Proof using Hmc.
  pose proof monty_sizes as (HM&Hrw&HR&_&_). destruct (monty_rep_val a) as [Ea Ba], (monty_rep_val b) as [Eb Bb].
  unfold monty_mul_into. unfold monty_rep at 1 2. rewrite !length_mp_of, !(proj2 (Nat.leb_le rw (mc_rw mc))) by done.
  rewrite (mo_scratch mc Hmc). unfold monty_scratch_size, mp_mul_scratchspace, mp_mul_scratchspace_unary.
  rewrite size_t_max_spec, size_t_min_spec, (mo_pw mc Hmc). fold rw.
  rewrite mp_alloc_ok by lia. cbn [mbind option_bind].
  rewrite mp_mul_into_spec by (unfold monty_rep; rewrite ?length_mp_of; auto with ssh; lia). cbn [mbind option_bind].
  rewrite Ea, Eb. set (u := (a * R) mod M) in *. set (v := (b * R) mod M) in *.
  assert (0 <= u * v < R * M /\ u * v < wpow (2 * rw)) as [??].
  { replace (2 * rw)%nat with (rw + rw)%nat by lia. rewrite wpow_add. change (wpow rw) with R. nia. }
  match goal with |- context [monty_reduce_internal mc ?x ?s] =>
    destruct (monty_reduce_internal_spec x s) as (t&->&Ht&Et) end.
  { auto with ssh. } { rewrite length_mp_of; lia. } { rewrite mp_val_small; lia. } { lia. }
  cbn [mbind option_bind]. rewrite mp_of_small_copy.
  2: { rewrite Nat.add_1_r, wpow_S. change (wpow rw) with R. assert (1 <= WB) by done. nia. }
  do 2 f_equal. apply redc_unique; [done|]. rewrite Et, mp_val_small by lia.
  unfold u, v. rewrite !cong_mod by lia. by replace (a * R * (b * R)) with (a * b * R * R) by ring.
Qed.

Lemma monty_mul_spec a b : monty_mul mc (monty_rep a) (monty_rep b) = Some (monty_rep (a * b)).
Proof using Hmc.
  pose proof monty_sizes as (_&Hrw&_). unfold monty_mul. rewrite mp_make_sized_spec by done.
  cbn [mbind option_bind]. by rewrite length_mp_of, monty_mul_into_spec.
Qed.

Lemma monty_power i : (i < 3)%nat -> nth i (mc_powers_of_r_mod_m mc) [] = mp_of rw (R ^ Z.of_nat (S i) mod M).
Proof using Hmc. intros Hi. rewrite (mo_powers mc Hmc). by destruct i as [|[|[|]]]; [..|lia]. Qed.

Lemma monty_identity_spec : monty_identity mc = monty_rep 1.
Proof using Hmc. unfold monty_identity. rewrite monty_power by lia. unfold monty_rep. by rewrite Z.mul_1_l, Z.pow_1_r. Qed.

Lemma monty_import_spec x : operand_ok x -> monty_import mc x = Some (monty_rep (mp_val x)).
Proof using Hmc.
  intros Hx. pose proof monty_sizes as (HM&Hrw&HR&Hrw'&_). unfold monty_import.
  rewrite monty_power by lia. rewrite Z.pow_1_r. pose proof (Z.mod_pos_bound R M).
  rewrite mp_modmul_spec; [|done| |apply (mo_m mc Hmc)].
  2: { split; [auto with ssh|]. unfold len. rewrite length_mp_of. lia. }
  rewrite mp_val_small by (change (wpow rw) with R; lia).
  rewrite <- (mo_rw mc Hmc). fold M rw. unfold monty_rep. by rewrite Z.mul_mod_idemp_r by lia.
Qed.

Lemma monty_export_spec a : monty_export mc (monty_rep a) = Some (mp_of rw (a mod M)).
Proof using Hmc.
  pose proof monty_sizes as (HM&Hrw&HR&_&_). destruct (monty_rep_val a) as [Ea Ba].
  unfold monty_export, monty_export_into. rewrite mp_make_sized_spec by done. cbn [mbind option_bind].
  unfold monty_rep at 1. rewrite !length_mp_of, (proj2 (Nat.leb_le _ _)) by (unfold rw; lia).
  rewrite (mo_scratch mc Hmc). unfold monty_scratch_size, mp_mul_scratchspace, mp_mul_scratchspace_unary.
  rewrite size_t_max_spec, size_t_min_spec, (mo_pw mc Hmc). fold rw.
  match goal with |- context [monty_reduce_internal mc ?x ?s] =>
    destruct (monty_reduce_internal_spec x s) as (t&->&Ht&Et) end.
  { unfold monty_rep. auto with ssh. } { unfold monty_rep. rewrite length_mp_of; lia. } { rewrite Ea; nia. } { lia. }
  cbn [mbind option_bind]. rewrite mp_of_small_copy.
  2: { rewrite Nat.add_1_r, wpow_S. change (wpow rw) with R. assert (1 <= WB) by done. nia. }
  do 2 f_equal. apply redc_unique; [done|]. by rewrite Et, Ea, cong_mod by lia.
Qed.
End Monty.

Section Power.
Context (mc : MontyContext) (Hmc : monty_ok mc).

Lemma monty_mul_reduce a b :
  exists tmp, mp_mul_into (mc_rw mc * 2) (monty_rep mc a) (monty_rep mc b) = Some tmp
    /\ monty_reduce mc tmp = Some (mp_of (mc_rw mc * 2) ((a * b * monty_R mc) mod mp_val (mc_m mc))).
Proof using Hmc.
  pose proof (monty_sizes mc Hmc) as (HM&Hrw&HR&_&_).
  destruct (monty_rep_val mc Hmc a) as [Ea Ba], (monty_rep_val mc Hmc b) as [Eb Bb].
  rewrite mp_mul_into_spec by (unfold monty_rep; rewrite ?length_mp_of; auto with ssh; lia).
  eexists. split; [done|]. unfold monty_reduce. rewrite Ea, Eb.
  set (M := mp_val (mc_m mc)) in *. set (R := monty_R mc) in *.
  set (u := (a * R) mod M) in *. set (v := (b * R) mod M) in *.
  assert (0 <= u * v < R * M /\ u * v < wpow (mc_rw mc * 2)) as [??].
  { replace (mc_rw mc * 2)%nat with (mc_rw mc + mc_rw mc)%nat by lia. rewrite wpow_add.
    change (wpow (mc_rw mc)) with R. nia. }
  rewrite (mo_scratch mc Hmc). unfold monty_scratch_size, mp_mul_scratchspace, mp_mul_scratchspace_unary.
  rewrite size_t_max_spec, size_t_min_spec, (mo_pw mc Hmc).
  match goal with |- context [monty_reduce_internal mc ?x ?s] =>
    destruct (monty_reduce_internal_spec mc Hmc x s) as (t&->&Ht&Et) end.
  { auto with ssh. } { rewrite length_mp_of; lia. } { rewrite mp_val_small; fold R M; lia. } { lia. }
  cbn [mbind option_bind]. rewrite length_mp_of, mp_of_small_copy.
  2: { rewrite Nat.add_1_r, wpow_S. fold M in Ht. change (wpow (mc_rw mc)) with R. assert (1 <= WB) by done. nia. }
  do 2 f_equal. apply (redc_unique mc Hmc); [done|]. fold R M. fold R M in Et. rewrite Et, mp_val_small by lia.
  unfold u, v. rewrite !cong_mod by lia. by replace (a * R * (b * R)) with (a * b * R * R) by ring.
Qed.

Lemma monty_rep_of_double a :
  mp_val (mp_of (mc_rw mc * 2) ((a * monty_R mc) mod mp_val (mc_m mc))) = mp_val (monty_rep mc a).
Proof using Hmc.
  destruct (monty_rep_val mc Hmc a) as [-> Ba]. apply mp_val_small.
  pose proof (monty_sizes mc Hmc) as (HM&_). pose proof (wpow_le (mc_rw mc) (mc_rw mc * 2) ltac:(lia)).
  change (wpow (mc_rw mc)) with (monty_R mc) in *. lia.
Qed.

Lemma monty_pow_loop_spec e (He : mp_ok e) B fuel i :
  0 <= i < 64 * len e -> 64 * len e <= i + 1 + Z.of_nat fuel ->
  monty_pow_loop fuel mc e (monty_rep mc (B ^ (mp_val e mod 2 ^ i))) (monty_rep mc (B ^ 2 ^ i)) i
  = Some (monty_rep mc (B ^ mp_val e)).
Proof using Hmc.
  revert i; induction fuel as [|fuel IH]; intros i Hi Hf; cbn [monty_pow_loop];
    destruct (monty_mul_reduce (B ^ (mp_val e mod 2 ^ i)) (B ^ 2 ^ i)) as (t1&->&E1);
    cbn [mbind option_bind]; rewrite E1; cbn [mbind option_bind];
    rewrite mp_get_bit_spec, mp_select_into_spec by (unfold monty_rep; auto with ssh; lia);
    rewrite monty_rep_of_double; change BIGNUM_INT_BITS with 64.
  all: pose proof (pow2_pos i ltac:(lia)); pose proof (Z.mod_pos_bound (mp_val e) (2 ^ i)).
  all: assert (mp_of (length (monty_rep mc (B ^ (mp_val e mod 2 ^ i))))
          (if Z.testbit (mp_val e) i then mp_val (monty_rep mc (B ^ (mp_val e mod 2 ^ i) * B ^ 2 ^ i))
           else mp_val (monty_rep mc (B ^ (mp_val e mod 2 ^ i))))
        = monty_rep mc (B ^ (mp_val e mod 2 ^ (i + 1)))) as ->.
  1, 3: rewrite testbit_mod_pow2 by lia; destruct (Z.testbit (mp_val e) i);
    [rewrite <- Z.pow_add_r by lia|rewrite Z.add_0_r];
    rewrite (proj1 (monty_rep_val mc Hmc _)); unfold monty_rep; by rewrite length_mp_of.
  all: pose proof (mp_val_bound e He) as Ve; rewrite wpow_pow2 in Ve; fold (len e) in Ve.
  - rewrite (proj2 (Z.leb_le _ _)) by lia. replace (i + 1) with (64 * len e) by lia. by rewrite Z.mod_small.
  - destruct (Z.leb_spec (len e * 64) (i + 1)).
    { replace (i + 1) with (64 * len e) by lia. by rewrite Z.mod_small. }
    destruct (monty_mul_reduce (B ^ 2 ^ i) (B ^ 2 ^ i)) as (t2&->&E2). cbn [mbind option_bind].
    rewrite E2. cbn [mbind option_bind]. rewrite mp_copy_into_spec, monty_rep_of_double by auto with ssh.
    rewrite <- Z.pow_add_r by lia. replace (2 ^ i + 2 ^ i) with (2 ^ (i + 1)) by (rewrite Z.pow_add_r by lia; lia).
    rewrite (proj1 (monty_rep_val mc Hmc _)). unfold monty_rep at 2. rewrite length_mp_of. apply IH; lia.
Qed.

Lemma monty_pow_spec a e :
  mp_ok e -> (0 < length e)%nat -> monty_pow mc (monty_rep mc a) e = Some (monty_rep mc (a ^ mp_val e)).
Proof using Hmc.
  intros He Hle. pose proof (monty_sizes mc Hmc) as (HM&Hrw&_). unfold monty_pow.
  change (nth 0 (mc_powers_of_r_mod_m mc) []) with (monty_identity mc). rewrite (monty_identity_spec mc Hmc).
  rewrite !mp_copy_spec by (unfold monty_rep; rewrite length_mp_of; lia). cbn [mbind option_bind].
  rewrite mp_make_sized_spec by lia. cbn [mbind option_bind].
  pose proof (monty_pow_loop_spec e He a (64 * length e) 0) as L.
  rewrite Z.pow_0_r, Z.mod_1_r, Z.pow_0_r, Z.pow_1_r in L. apply L; unfold len; lia.
Qed.

Lemma monty_add_sub_spec a b :
  monty_add mc (monty_rep mc a) (monty_rep mc b) = Some (monty_rep mc (a + b))
  /\ monty_sub mc (monty_rep mc a) (monty_rep mc b) = Some (monty_rep mc (a - b)).
Proof using Hmc.
  destruct (monty_rep_val mc Hmc a) as [Ea Ba], (monty_rep_val mc Hmc b) as [Eb Bb].
  unfold monty_add, monty_sub.
  rewrite mp_modadd_in_range_spec, mp_modsub_in_range_spec
    by first [apply (mo_m mc Hmc) | rewrite ?Ea, ?Eb; lia | unfold monty_rep; auto with ssh].
  rewrite Ea, Eb, <- (mo_rw mc Hmc). unfold monty_rep. split; do 2 f_equal; apply cong_iff; try lia;
    rewrite !cong_mod by lia; by rewrite ?Z.mul_add_distr_r, ?Z.mul_sub_distr_r.
Qed.
End Power.

(** C6. Modular exponentiation is correct: for an odd modulus and operands of any size
    [mp_modpow] returns [base ^ exponent mod modulus]; no assertion of the Montgomery
    code fails and its scratch space suffices. *)
Theorem mp_modpow_correct (base exponent modulus : mp_int)
  (Hb : operand_ok base) (He : operand_ok exponent) (Hm : modulus_ok modulus) (Hodd : mp_val modulus mod 2 = 1) :
  mp_modpow base exponent modulus
  = Some (mp_of (length modulus) (mp_val base ^ mp_val exponent mod mp_val modulus)).
Proof.
  pose proof (modulus_pos modulus Hm) as [HM Hl]. destruct He as (Heo&Hel&_). unfold mp_modpow.
  rewrite (proj2 (Nat.ltb_lt _ _) Hl), low_bit_spec, Hodd by apply Hm. cbn [negb Z.eqb].
  destruct (monty_new_spec modulus Hm Hodd) as (mc&->&Hmc&Em). cbn [mbind option_bind].
  rewrite monty_import_spec by done. cbn [mbind option_bind].
  rewrite monty_pow_spec by done. cbn [mbind option_bind].
  by rewrite monty_export_spec, (mo_rw mc Hmc), Em.
Qed.

Lemma mp_modpow_correct_witness :
  mp_modpow [2; 7] [65537] [15; 9] = Some (mp_of 2 ((2 + 7 * 2 ^ 64) ^ 65537 mod (15 + 9 * 2 ^ 64))).
Proof.
  assert (forall a b, word_ok 64 a -> word_ok 64 b -> operand_ok [a; b]) as H2.
  { intros. split; [by constructor; [|constructor]|]. unfold len. simpl length. lia. }
  assert (operand_ok [65537]) as H1 by (split; [by constructor|]; unfold len; simpl length; lia).
  assert (modulus_ok [15; 9]) as Hm.
  { split; [by constructor; [|constructor]|]. split; [vm_compute; lia|done]. }
  exact (mp_modpow_correct [2; 7] [65537] [15; 9] (H2 2 7 ltac:(done) ltac:(done)) H1 Hm ltac:(reflexivity)).
Defined.

(** Montgomery form is a ring representation: import, the four operations and
    export commute with arithmetic modulo the context's modulus, for a context made
    by [monty_new]. *)
Theorem monty_arithmetic_correct (modulus x y : mp_int)
  (Hm : modulus_ok modulus) (Hodd : mp_val modulus mod 2 = 1) (Hx : operand_ok x) (Hy : operand_ok y) :
  exists mc mx my, monty_new modulus = Some mc
    /\ monty_import mc x = Some mx /\ monty_import mc y = Some my
    /\ forall op zop, In (op, zop) [(monty_mul, Z.mul); (monty_add, Z.add); (monty_sub, Z.sub)] ->
       exists r, op mc mx my = Some r
         /\ monty_export mc r = Some (mp_of (length modulus) (zop (mp_val x) (mp_val y) mod mp_val modulus)).
Proof.
  destruct (monty_new_spec modulus Hm Hodd) as (mc&E&Hmc&Em).
  exists mc, (monty_rep mc (mp_val x)), (monty_rep mc (mp_val y)). rewrite !monty_import_spec by done.
  split_and!; try done. destruct (monty_add_sub_spec mc Hmc (mp_val x) (mp_val y)) as [Ea Es].
  intros op zop [H|[H|[H|[]]]]; injection H as <- <-;
    [rewrite monty_mul_spec by done|rewrite Ea|rewrite Es]; eexists; (split; [done|]);
    by rewrite monty_export_spec, (mo_rw mc Hmc), Em.
Qed.

