(* ===== verification/MpGcd.v ===== *)
(** * Multiprecision integers: greatest common divisor, Bezout coefficients, inverse

    [mp_bezout_into], the constant-time variant of Stein's algorithm that first reduces
    the pair while recording its two decisions per step in a bit string and then
    unwinds the record to build the coefficients; [mp_gcd_into] with the common
    factors of two taken out first; [mp_invert] and [monty_invert].

    The number of steps is fixed by the size of the numbers; the proof follows the
    argument of the source's comment (every step halves the product of the pair). *)

From S2P Require Import Prelude Memory Mpint MpBits MpMul MpRecip MpDiv MpMonty.
From Stdlib Require Import Zdivisibility Btauto.

Open Scope word_scope.

(** One reduction step on [a], [b] and the record. *)
Definition bezout_step (nw : nat) (s : mp_int * mp_int * mp_int) (step : Z) : option (mp_int * mp_int * mp_int) :=
  let '(a, b, record) := s in
  let swap_if_both_odd := mp_cmp_hs b a in
  let swap_if_one_even := mp_word a 0 .& 1 in
  let both_odd := mp_word a 0 .& mp_word b 0 .& 1 in
  let swap := swap_if_one_even .^ ((swap_if_both_odd .^ swap_if_one_even) .& both_odd) in
  '(a, b) ← mp_cond_swap a b swap;
  let a := mp_cond_sub_into nw a b both_odd in
  let a := mp_rshift_fixed_into nw a 1 in
  record ← mp_set_bit record (step * 2) both_odd;
  record ← mp_set_bit record (step * 2 + 1) swap;
  Some (a, b, record).

(** [for (size_t step = k; step < k + n; step++)] *)
Fixpoint bezout_reduce (nw n : nat) (step : Z) (s : mp_int * mp_int * mp_int) : option (mp_int * mp_int * mp_int) :=
  match n with
  | O => Some s
  | S n => s ← bezout_step nw s step; bezout_reduce nw n (step + 1) s
  end.

(** The state of the unwinding: [a], [b], [ac], [bc], [minus_d]. *)
Record unwind := mkUnwind { u_a : mp_int; u_b : mp_int; u_ac : mp_int; u_bc : mp_int; u_minus_d : Z }.

Definition unwind_step (nw : nat) (record : mp_int) (s : unwind) (step : Z) : option unwind :=
  let '(mkUnwind a b ac bc minus_d) := s in
  let both_odd := mp_get_bit record (step * 2) in
  let swap := mp_get_bit record (step * 2 + 1) in
  let adjust := mp_word ac 0 .& 1 in
  let ac := mp_cond_add_into (nw + 1) ac b adjust in
  let bc := mp_cond_add_into (nw + 1) bc a adjust in
  let ac := mp_rshift_fixed_into (nw + 1) ac 1 in
  let bc := mp_cond_add_into (nw + 1) bc ac both_odd in
  let a := mp_lshift_fixed_into nw a 1 in
  let a := mp_cond_add_into nw a b both_odd in
  '(a, b) ← mp_cond_swap a b swap;
  '(ac, bc) ← mp_cond_swap ac bc swap;
  Some (mkUnwind a b ac bc (minus_d .^ swap)).

(** [for (size_t step = n; step-- > 0 ;)] *)
Fixpoint bezout_unwind (nw n : nat) (record : mp_int) (s : unwind) : option unwind :=
  match n with
  | O => Some s
  | S n => s ← unwind_step nw record s (Z.of_nat n); bezout_unwind nw n record s
  end.

Definition bezout_coeffs (nw steps : nat) (a b record : mp_int) : option (mp_int * mp_int) :=
  ac ← mp_make_sized (nw + 1);
  bc ← mp_make_sized (nw + 1);
  let ac := <[0%nat := mp_get_bit a 0]> ac in
  let bc := <[0%nat := mp_get_bit b 0]> bc in
  let a := mp_copy_into nw ac in
  let b := mp_copy_into nw bc in
  let minus_d := mp_word b 0 in
  '(mkUnwind a b ac bc minus_d) ← bezout_unwind nw steps record (mkUnwind a b ac bc minus_d);
  let tmp := mp_sub_into nw b ac in
  let ac := mp_select_into (nw + 1) ac tmp minus_d in
  let tmp := mp_sub_into nw a bc in
  let bc := mp_select_into (nw + 1) bc tmp minus_d in
  Some (ac, bc).

(** The three outputs, each [NULL] or a number of the given width. *)
Definition mp_bezout_into (a_coeff_out b_coeff_out gcd_out : option nat) (a_in b_in : mp_int)
  : option (option mp_int * option mp_int * option mp_int) :=
  let nw := size_t_max 1 (size_t_max (length a_in) (length b_in)) in
  let a := mp_copy_into nw a_in in
  let b := mp_copy_into nw b_in in
  let steps := (2 * nw * 64)%nat in
  record ← mp_make_sized (Z.to_nat ((Z.of_nat steps * 2 + BIGNUM_INT_BITS - 1) / BIGNUM_INT_BITS));
  '(a, b, record) ← bezout_reduce nw steps 0 (a, b, record);
  let gcd := option_map (fun w => mp_add_into w a b) gcd_out in
  if negb (bool_decide (is_Some a_coeff_out) || bool_decide (is_Some b_coeff_out)) then Some (None, None, gcd) else
  '(ac, bc) ← bezout_coeffs nw steps a b record;
  Some (option_map (fun w => mp_copy_into w ac) a_coeff_out, option_map (fun w => mp_copy_into w bc) b_coeff_out, gcd).

Definition mp_invert (x m : mp_int) : option mp_int :=
  result ← mp_make_sized (length m);
  '(result, _, _) ← mp_bezout_into (Some (length result)) None None x m; result.

(** The lowest set bit of [tmp]: [tmp & -tmp], word by word. *)
Fixpoint lowest_bit_loop (tmp : mp_int) (carry : Z) : mp_int :=
  match tmp with
  | [] => []
  | w :: tmp => let '(negw, carry) := BignumADC 0 (u64 (Z.lnot w)) carry in
                (w .& negw) :: lowest_bit_loop tmp carry
  end.

Definition mp_gcd_into (a b : mp_int) (gcd A B : option nat)
  : option (option mp_int * option mp_int * option mp_int) :=
  tmp ← mp_make_sized (size_t_max (length a) (length b));
  let tmp : mp_int := (fun i => mp_word a i .| mp_word b i) <$> seq 0 (length tmp) in
  let tmp := lowest_bit_loop tmp 1 in
  let shift := u64 (mp_get_nbits tmp - 1) in
  as_ ← mp_rshift_safe a shift;
  bs ← mp_rshift_safe b shift;
  '(A, B, gcd) ← mp_bezout_into A B gcd as_ bs;
  Some (A, B, option_map (fun g => mp_lshift_safe_in_place g shift) gcd).

Definition mp_gcd (a b : mp_int) : option mp_int :=
  gcd ← mp_make_sized (size_t_min (length a) (length b));
  '(_, _, gcd) ← mp_gcd_into a b (Some (length gcd)) None None; gcd.

Definition mp_coprime (a b : mp_int) : option Z := gcd ← mp_gcd a b; Some (mp_eq_integer gcd 1).

Definition monty_invert (mc : MontyContext) (x : mp_int) : option mp_int :=
  tmp ← mp_invert x (mc_m mc); monty_mul mc tmp (nth 2 (mc_powers_of_r_mod_m mc) []).

Example gcd_run :
  mp_gcd [84; 0] [36; 0] = Some [12; 0] /\ mp_invert [3] [1000003] = Some [666669]
  /\ mp_coprime [35] [64] = Some 1.
Proof. vm_compute. tauto. Qed.

(** ** The reduction on integers *)

(** The decisions [both_odd] and [swap] of a step. *)
Definition zflags (p : Z * Z) : bool * bool :=
  let '(A, B) := p in
  let bo := Z.odd A && Z.odd B in (bo, if bo then A <=? B else Z.odd A).

Definition zswap {T} (sw : bool) (p : T * T) : T * T := if sw then (p.2, p.1) else p.

Definition zstep (p : Z * Z) : Z * Z :=
  let '(bo, sw) := zflags p in
  let '(A, B) := zswap sw p in
  ((A - if bo then B else 0) / 2, B).

Definition zpair (p : Z * Z) : Prop := 0 <= p.1 /\ 0 <= p.2 /\ Z.odd p.1 || Z.odd p.2 = true.

Lemma odd_div2 B : Z.odd B = true -> B = 2 * (B / 2) + 1.
Proof. intros H. pose proof (Zmod_odd B) as Hm. rewrite H in Hm. pose proof (Z.div_mod B 2). lia. Qed.

Lemma gcd_halve h B : Z.odd B = true -> Z.gcd (2 * h) B = Z.gcd h B.
Proof.
  intros HB. apply Z.gcd_unique.
  - apply Z.gcd_nonneg.
  - apply Z.divide_mul_r, Z.gcd_divide_l.
  - apply Z.gcd_divide_r.
  - intros q Hq1 Hq2. apply Z.gcd_greatest; [|done]. apply (Z.gauss q 2); [done|].
    apply Z.gcd_unique; [lia|apply Z.divide_1_l..|]. intros t Ht1 Ht2.
    apply (Z.divide_trans t q B) in Hq2; [|done].
    replace 1 with (B - 2 * (B / 2)) by (pose proof (odd_div2 B HB); lia).
    apply Z.divide_sub_r; [done|]. by apply Z.divide_mul_l.
Qed.

(** Everything the later proofs use of a step. *)
Lemma zstep_spec p :
  zpair p ->
  let '(bo, sw) := zflags p in let '(A, B) := zswap sw p in let '(A', B') := zstep p in
  zpair (zstep p) /\ Z.odd B' = true /\ B' = B /\ 2 * A' + (if bo then B else 0) = A
  /\ Z.gcd A' B' = Z.gcd p.1 p.2 /\ 2 * (A' * B') <= p.1 * p.2 /\ (bo = true -> B <= A).
Proof.
  destruct p as [A B]. intros (HA&HB&Hodd). cbn [fst snd] in *. unfold zstep.
  destruct (zflags (A, B)) as [bo sw] eqn:Ef. unfold zflags in Ef. injection Ef as Ebo Esw.
  destruct (zswap sw (A, B)) as [A1 B1] eqn:Es.
  assert (0 <= A1 /\ 0 <= B1 /\ Z.gcd A1 B1 = Z.gcd A B /\ A1 * B1 = A * B
    /\ Z.odd B1 = true /\ (bo = true -> B1 <= A1 /\ Z.odd A1 = true) /\ (bo = false -> Z.odd A1 = false))
    as (HA1&HB1&Eg&Em&Hob&Hbo&Hbo').
  { unfold zswap in Es. rewrite Ebo in Esw.
    destruct sw; cbn in Es; injection Es as <- <-; rewrite ?(Z.gcd_comm B), ?(Z.mul_comm B);
      destruct (Z.odd A), (Z.odd B); cbn in Ebo, Esw, Hodd |- *; subst bo; cbn in Esw;
      try discriminate; rewrite ?Z.leb_le, ?Z.leb_gt in Esw; split_and!; try done; try lia; intros; try done; try lia. }
  clear Ebo Esw Es. set (e := A1 - if bo then B1 else 0).
  assert (0 <= e /\ Z.odd e = false) as [He Hoe].
  { unfold e. destruct bo; [destruct Hbo as [? Ho]; [done|]|rewrite Z.sub_0_r; auto].
    split; [lia|]. by rewrite Z.odd_sub, Ho, Hob. }
  assert (e = 2 * (e / 2)) as E2.
  { pose proof (Zmod_odd e) as Hm. rewrite Hoe in Hm. pose proof (Z.div_mod e 2). lia. }
  assert (0 <= e / 2) by (apply Z.div_pos; lia). set (h := e / 2) in *. clearbody h.
  assert (Z.gcd h B1 = Z.gcd A1 B1) as Egcd.
  { rewrite <- (gcd_halve h B1 Hob), <- E2. unfold e. destruct bo; [|by rewrite Z.sub_0_r].
    replace (A1 - B1) with (A1 + (-1) * B1) by ring. by rewrite Z.gcd_comm, Z.gcd_add_mult_diag_r, Z.gcd_comm. }
  split; [split_and!; cbn; [lia|lia|by rewrite Hob, orb_true_r]|]. split; [done|]. split; [done|].
  split; [unfold e in E2; destruct bo; lia|]. split; [cbn; congruence|].
  split; [cbn; unfold e in *; destruct bo; nia|]. intros Ht. by apply Hbo.
Qed.

(** ** The reduction loop *)

(** The pair after [k] steps. *)
Definition traj (p : Z * Z) (k : nat) : Z * Z := Nat.iter k zstep p.

Lemma traj_S p k : traj p (S k) = zstep (traj p k).
Proof. done. Qed.

Lemma traj_pair p k : zpair p -> zpair (traj p k).
Proof.
  intros Hp. induction k as [|k IH]; [done|]. rewrite traj_S. pose proof (zstep_spec _ IH) as H.
  destruct (zflags (traj p k)) as [bo sw]. destruct (zswap sw (traj p k)). destruct (zstep (traj p k)). apply H.
Qed.

Lemma traj_gcd p k : zpair p -> Z.gcd (traj p k).1 (traj p k).2 = Z.gcd p.1 p.2.
Proof.
  intros Hp. induction k as [|k IH]; [done|]. rewrite traj_S, <- IH.
  pose proof (zstep_spec _ (traj_pair p k Hp)) as H.
  destruct (zflags (traj p k)) as [bo sw]. destruct (zswap sw (traj p k)). destruct (zstep (traj p k)). apply H.
Qed.

Lemma traj_product p k : zpair p -> (traj p k).1 * (traj p k).2 * 2 ^ Z.of_nat k <= p.1 * p.2.
Proof.
  intros Hp. induction k as [|k IH]; [cbn; lia|]. rewrite traj_S, Nat2Z.inj_succ, Z.pow_succ_r by lia.
  pose proof (zstep_spec _ (traj_pair p k Hp)) as H. pose proof (pow2_pos (Z.of_nat k)).
  destruct (zflags (traj p k)) as [bo sw]. destruct (zswap sw (traj p k)). destruct (zstep (traj p k)).
  destruct H as (_&_&_&_&_&H&_). cbn [fst snd]. nia.
Qed.

Lemma traj_odd p k : zpair p -> Z.odd (traj p (S k)).2 = true.
Proof.
  intros Hp. rewrite traj_S. pose proof (zstep_spec _ (traj_pair p k Hp)) as H.
  destruct (zflags (traj p k)) as [bo sw]. destruct (zswap sw (traj p k)). destruct (zstep (traj p k)). apply H.
Qed.

(** Once the product has been halved away the pair is [(0, gcd)]. *)
Lemma traj_end p n k :
  zpair p -> p.1 < 2 ^ n -> p.2 < 2 ^ n -> 0 <= n -> (0 < k)%nat -> 2 * n <= Z.of_nat k ->
  traj p k = (0, Z.gcd p.1 p.2).
Proof.
  intros Hp H1 H2 Hn Hk Hle. destruct k as [|k]; [lia|].
  pose proof (traj_pair p (S k) Hp) as (HA&HB&_). pose proof (traj_odd p k Hp) as Hodd.
  pose proof (traj_product p (S k) Hp) as Hprod. pose proof (traj_gcd p (S k) Hp) as Hg. pose proof Hp as (?&?&_).
  destruct (traj p (S k)) as [A B]. cbn [fst snd] in *.
  assert (1 <= B). { destruct (Z.eq_dec B 0) as [->|]; [done|lia]. }
  assert (p.1 * p.2 < 2 ^ Z.of_nat (S k)).
  { assert (2 ^ n * 2 ^ n <= 2 ^ Z.of_nat (S k)) by (rewrite <- Z.pow_add_r by lia; apply Z.pow_le_mono_r; lia).
    pose proof (pow2_pos n Hn). nia. }
  assert (A = 0) as ->.
  { destruct (Z.eq_dec A 0); [done|]. assert (1 <= A * B) by nia.
    pose proof (pow2_pos (Z.of_nat (S k)) ltac:(lia)). set (P := 2 ^ Z.of_nat (S k)) in *. nia. }
  rewrite Z.gcd_0_l, Z.abs_eq in Hg by lia. by rewrite Hg.
Qed.

(** The pair never grows. *)
Lemma zstep_bound p W : zpair p -> p.1 < W -> p.2 < W -> (zstep p).1 < W /\ (zstep p).2 < W.
Proof.
  intros Hp H1 H2. pose proof (zstep_spec p Hp) as H. destruct (zflags p) as [bo sw].
  destruct p as [A B]. destruct Hp as (?&?&_). cbn [fst snd] in *. unfold zswap in *.
  destruct sw; cbn [fst snd] in H; destruct (zstep (A, B)) as [A' B'];
    destruct H as ((HA'&_&_)&_&->&H&_); cbn [fst snd] in *; destruct bo; lia.
Qed.

Section Reduce.
Context (nw : nat) (Hnw : (0 < nw)%nat).
Abbreviation mp p := (mp_of nw p).
Definition in_words (p : Z * Z) : Prop := zpair p /\ p.1 < wpow nw /\ p.2 < wpow nw.

(** The first [s] steps of the trajectory of [p] are in the record. *)
Definition recorded (p : Z * Z) (s : nat) (record : mp_int) : Prop :=
  mp_ok record /\ forall k, (k < s)%nat ->
    mp_get_bit record (Z.of_nat k * 2) = Z.b2z (zflags (traj p k)).1
    /\ mp_get_bit record (Z.of_nat k * 2 + 1) = Z.b2z (zflags (traj p k)).2.

Lemma b2z_odd_word v : 0 <= v < wpow nw -> Z.land (mp_word (mp v) 0) 1 = Z.b2z (Z.odd v).
Proof using.
  intros Hv. rewrite low_bit_spec, mp_val_small by auto with ssh. apply Zmod_odd.
Qed.

Lemma step_flags A B :
  0 <= A < wpow nw -> 0 <= B < wpow nw ->
  let one := Z.land (mp_word (mp A) 0) 1 in
  let both := Z.land (Z.land (mp_word (mp A) 0) (mp_word (mp B) 0)) 1 in
  both = Z.b2z (zflags (A, B)).1
  /\ Z.lxor one (Z.land (Z.lxor (mp_cmp_hs (mp B) (mp A)) one) both) = Z.b2z (zflags (A, B)).2.
Proof using.
  intros HA HB. cbn zeta. rewrite b2z_odd_word by done.
  assert (Z.land (Z.land (mp_word (mp A) 0) (mp_word (mp B) 0)) 1 = Z.b2z (Z.odd A && Z.odd B)) as ->.
  { rewrite <- (Z.land_diag 1) at 1.
    replace (Z.land (Z.land (mp_word (mp A) 0) (mp_word (mp B) 0)) (Z.land 1 1))
      with (Z.land (Z.land (mp_word (mp A) 0) 1) (Z.land (mp_word (mp B) 0) 1)).
    - rewrite !b2z_odd_word by done. by destruct (Z.odd A), (Z.odd B).
    - apply Z.bits_inj'. intros i Hi. rewrite !Z.land_spec. btauto. }
  rewrite mp_cmp_hs_spec, !mp_val_small by auto with ssh. unfold zflags. cbn [fst snd]. split; [done|].
  by destruct (Z.odd A), (Z.odd B), (A <=? B).
Qed.

Lemma record_set record bit c :
  mp_ok record -> 0 <= bit < 64 * len record ->
  exists record', mp_set_bit record bit (Z.b2z c) = Some record' /\ mp_ok record' /\ length record' = length record
    /\ forall j, 0 <= j < 64 * len record ->
       mp_get_bit record' j = if decide (j = bit) then Z.b2z c else mp_get_bit record j.
Proof using All.
  intros Hr Hb. rewrite mp_set_bit_spec by done. eexists. split; [done|]. split; [auto with ssh|].
  split; [apply length_mp_of|]. intros j Hj. rewrite !mp_get_bit_spec by (auto with ssh; lia).
  rewrite mp_val_of, wpow_pow2. fold (len record). rewrite Z.mod_pow2_bits_low by lia.
  destruct c; [rewrite Z.setbit_eqb by lia|rewrite Z.clearbit_eqb by lia];
    destruct (Z.eqb_spec bit j), (decide (j = bit)); try lia; cbn; by rewrite ?andb_true_r, ?andb_false_r.
Qed.

Lemma cond_swap_pair A B c :
  mp_cond_swap (mp A) (mp B) (Z.b2z c) = Some (mp (zswap c (A, B)).1, mp (zswap c (A, B)).2).
Proof using All. rewrite mp_cond_swap_spec by (rewrite ?length_mp_of; auto with ssh). by destruct c. Qed.

Lemma bezout_step_spec p0 s record :
  in_words (traj p0 s) -> recorded p0 s record -> 2 * Z.of_nat (S s) <= 64 * len record ->
  let p := traj p0 s in
  exists record', bezout_step nw (mp p.1, mp p.2, record) (Z.of_nat s) = Some (mp (zstep p).1, mp (zstep p).2, record')
    /\ recorded p0 (S s) record' /\ len record' = len record.
Proof using All.
  intros [Hp [H1 H2]] [Hr Hrec] Hlen p. fold p in Hp, H1, H2. pose proof (zstep_spec p Hp) as Hz.
  pose proof Hp as (P1&P2&_). unfold bezout_step.
  destruct (step_flags p.1 p.2 ltac:(lia) ltac:(lia)) as [Eb Es]. cbn zeta in Eb, Es. rewrite Eb in *. rewrite Es.
  rewrite <- surjective_pairing. rewrite <- surjective_pairing in Eb, Es.
  destruct (zflags p) as [bo sw] eqn:Ef. cbn [fst snd] in *.
  rewrite cond_swap_pair, <- surjective_pairing. cbn [mbind option_bind].
  destruct (zswap sw p) as [A B] eqn:Esw. cbn [fst snd].
  assert (0 <= A < wpow nw /\ 0 <= B < wpow nw) as [HA HB].
  { unfold zswap in Esw. destruct p as [x y], sw; cbn in *; injection Esw as <- <-; lia. }
  rewrite mp_cond_sub_into_spec, mp_rshift_fixed_into_spec by (auto with ssh; lia).
  destruct (zstep p) as [A' B'] eqn:Ez. destruct Hz as ((Z1&_)&_&->&Hz&_&_&Hbo). cbn [fst snd] in *.
  rewrite (mp_val_small nw A), (mp_val_small nw B) by done.
  rewrite (mp_val_small nw (A - _)) by (destruct bo; lia).
  assert ((A - (if bo then B else 0)) / 2 ^ 1 = A') as ->.
  { symmetry. apply Z.div_unique_exact; [done|]. change (2 ^ 1) with 2. destruct bo; lia. }
  destruct (record_set record (Z.of_nat s * 2) bo Hr ltac:(lia)) as (r1&->&Hr1&Lr1&G1). cbn [mbind option_bind].
  destruct (record_set r1 (Z.of_nat s * 2 + 1) sw Hr1 ltac:(unfold len in *; lia)) as (r2&->&Hr2&Lr2&G2). cbn [mbind option_bind].
  exists r2. split; [done|]. split; [|unfold len; lia]. split; [done|]. intros k Hk. unfold len in *.
  rewrite Lr1 in G2. rewrite !G2, !G1 by lia.
  destruct (decide (k = s)) as [->|Hne].
  - fold p. rewrite Ef. cbn [fst snd]. by repeat case_decide; try lia.
  - repeat case_decide; try lia. apply Hrec. lia.
Qed.

Lemma traj_words p0 n : in_words p0 -> in_words (traj p0 n).
Proof using.
  intros (Hp&H1&H2). split; [by apply traj_pair|]. induction n as [|n IH]; [done|].
  rewrite traj_S. apply zstep_bound; [by apply traj_pair|apply IH..].
Qed.

Lemma bezout_reduce_spec p0 n s record :
  in_words p0 -> recorded p0 s record -> 2 * Z.of_nat (s + n) <= 64 * len record ->
  exists record', bezout_reduce nw n (Z.of_nat s) (mp (traj p0 s).1, mp (traj p0 s).2, record)
    = Some (mp (traj p0 (s + n)).1, mp (traj p0 (s + n)).2, record') /\ recorded p0 (s + n) record'.
Proof using All.
  revert s record; induction n as [|n IH]; intros s record Hin Hrec Hlen; cbn [bezout_reduce].
  { rewrite Nat.add_0_r. eauto. }
  destruct (bezout_step_spec p0 s record (traj_words p0 s Hin) Hrec ltac:(lia)) as (r'&->&Hr'&Lr').
  cbn [mbind option_bind]. replace (Z.of_nat s + 1) with (Z.of_nat (S s)) by lia. rewrite <- traj_S.
  replace (s + S n)%nat with (S s + n)%nat by lia. apply IH; [done|done|lia].
Qed.
End Reduce.

(** ** The unwinding on integers *)

(** A state of the unwinding, by value: the pair over its gcd, the coefficients by
    absolute value and whether the combination is currently [-1]. *)
Record zunwind := mkZ { z_a : Z; z_b : Z; z_u : Z; z_v : Z; z_m : bool }.

Definition zflip (sw : bool) (z : zunwind) : zunwind :=
  let '(mkZ a b u v m) := z in if sw then mkZ b a v u (negb m) else z.

Definition zunwind_step (flags : bool * bool) (z : zunwind) : zunwind :=
  let '(mkZ a b u v m) := z in
  let '(bo, sw) := flags in
  let u' := (u + if Z.odd u then b else 0) / 2 in
  let v' := v + (if Z.odd u then a else 0) + (if bo then u' else 0) in
  zflip sw (mkZ (2 * a + if bo then b else 0) b u' v' m).

(** The coefficients combine to plus or minus one, and are bounded by the opposite
    number except while that is zero. *)
Definition zbezout (z : zunwind) : Prop :=
  let '(mkZ a b u v m) := z in
  0 <= a /\ 0 <= b /\ u * a - v * b = (if m then -1 else 1)
  /\ (0 <= u <= b /\ 0 <= v <= a \/ a = 0 /\ b = 1 /\ u = 0 /\ v = 1 \/ a = 1 /\ b = 0 /\ u = 1 /\ v = 0).

Lemma zflip_bezout sw z : zbezout z -> zbezout (zflip sw z).
Proof. destruct z as [a b u v m], sw, m; cbn; lia. Qed.

Lemma zunwind_step_spec bo sw z : Z.odd (z_b z) = true -> zbezout z -> zbezout (zunwind_step (bo, sw) z).
Proof.
  destruct z as [a b u v m]. cbn [z_b zunwind_step]. intros Hb (Ha&Hb0&E&H).
  apply zflip_bezout. cbn -[Z.mul].
  assert (Hu : u + (if Z.odd u then b else 0) = 2 * ((u + if Z.odd u then b else 0) / 2)).
  { assert (Z.odd (u + if Z.odd u then b else 0) = false) as Ho
      by (destruct (Z.odd u) eqn:Eu; rewrite Z.odd_add, ?Hb, ?Eu; done).
    set (t := u + _) in *. pose proof (Zmod_odd t) as Hm. rewrite Ho in Hm. pose proof (Z.div_mod t 2). lia. }
  set (u' := _ / 2) in *. clearbody u'.
  assert (b <> 0) by (intros ->; done).
  assert (E1 : u' * (2 * a) - (v + if Z.odd u then a else 0) * b = if m then -1 else 1).
  { rewrite <- E. destruct (Z.odd u); nia. }
  destruct H as [H|[(->&->&->&->)|(_&->&_)]]; [|cbn in *|done].
  - split; [destruct bo; lia|]. split; [lia|]. split; [rewrite <- E1; destruct bo; nia|].
    left. destruct (Z.odd u), bo; lia.
  - assert (u' = 0) as -> by lia. destruct bo, m; lia.
Qed.

Section Unwind.
Context (nw : nat).

Definition of_zunwind (z : zunwind) : unwind :=
  mkUnwind (mp_of nw (z_a z)) (mp_of nw (z_b z)) (mp_of (nw + 1) (z_u z)) (mp_of (nw + 1) (z_v z)) (Z.b2z (z_m z)).

Lemma wpow_next : wpow (nw + 1) = wpow nw * 2 ^ 64.
Proof using. rewrite wpow_add. done. Qed.

Lemma zbezout_fits z :
  zbezout z -> z_a z < wpow nw -> z_b z < wpow nw ->
  0 <= z_a z /\ 0 <= z_b z /\ 0 <= z_u z <= wpow nw /\ 0 <= z_v z <= wpow nw.
Proof using. destruct z. cbn. pose proof (wpow_pos nw). lia. Qed.

Lemma cond_swap_words n A B c :
  mp_cond_swap (mp_of n A) (mp_of n B) (Z.b2z c)
  = Some (mp_of n (if c then B else A), mp_of n (if c then A else B)).
Proof using. rewrite mp_cond_swap_spec by (rewrite ?length_mp_of; auto with ssh). by destruct c. Qed.

Lemma unwind_step_spec record step bo sw z :
  mp_get_bit record (step * 2) = Z.b2z bo -> mp_get_bit record (step * 2 + 1) = Z.b2z sw ->
  zbezout z -> z_b z < wpow nw -> 2 * z_a z + (if bo then z_b z else 0) < wpow nw ->
  unwind_step nw record (of_zunwind z) step = Some (of_zunwind (zunwind_step (bo, sw) z)).
Proof using.
  intros Ebo Esw Hz Hb Ha2.
  destruct (zbezout_fits z Hz) as (Ha&Hb0&Hu&Hv); [destruct z; cbn in *; destruct bo; lia|done|]. clear Hz.
  destruct z as [a b u v m]. cbn [z_a z_b z_u z_v z_m] in *. unfold of_zunwind at 1, unwind_step. cbn [z_a z_b z_u z_v z_m].
  pose proof wpow_next as Hw. pose proof (wpow_pos nw). rewrite Ebo, Esw.
  assert (a < wpow nw) by (destruct bo; lia).
  rewrite b2z_odd_word by lia.
  rewrite (mp_cond_add_into_spec (mp_of (nw + 1) u)), (mp_cond_add_into_spec (mp_of (nw + 1) v)) by auto with ssh.
  rewrite mp_rshift_fixed_into_spec, mp_lshift_fixed_into_spec by auto with ssh.
  rewrite !mp_cond_add_into_spec by auto with ssh.
  rewrite (mp_val_small (nw + 1) u), (mp_val_small (nw + 1) v), (mp_val_small nw a), (mp_val_small nw b) by lia.
  change (2 ^ 1) with 2.
  rewrite (mp_val_small (nw + 1) (u + _)) by (destruct (Z.odd u); lia).
  rewrite (mp_val_small (nw + 1) (v + _)) by (destruct (Z.odd u); lia).
  set (u' := (u + _) / 2).
  assert (0 <= u' <= wpow nw).
  { unfold u'. destruct (Z.odd u); split; [apply Z.div_pos; lia|apply Z.div_le_upper_bound; lia..|apply Z.div_pos; lia
    |apply Z.div_le_upper_bound; lia]. }
  rewrite (mp_val_small (nw + 1) u') by lia. rewrite (mp_val_small nw (a * 2)) by (destruct bo; lia).
  rewrite !cond_swap_words. cbn [mbind option_bind]. unfold of_zunwind, zunwind_step. fold u'.
  rewrite (Z.mul_comm a 2). destruct sw, m; done.
Qed.

(** Going back through the recorded steps ends at the original pair over its gcd. *)
Lemma bezout_unwind_spec p0 record d n z :
  zpair p0 -> in_words nw p0 -> 0 < d -> recorded p0 n record ->
  zbezout z -> (d * z_a z, d * z_b z) = traj p0 n ->
  exists z', bezout_unwind nw n record (of_zunwind z) = Some (of_zunwind z')
    /\ zbezout z' /\ (d * z_a z', d * z_b z') = p0.
Proof using.
  intros Hp Hin Hd. revert z. induction n as [|n IH]; intros z [Hr Hrec] Hz Et; cbn [bezout_unwind].
  { exists z. auto. }
  destruct (Hrec n ltac:(lia)) as [Ebo Esw]. rewrite traj_S in Et. 
  pose proof (zstep_spec _ (traj_pair p0 n Hp)) as Hs.
  pose proof (traj_words nw p0 n Hin) as (_&W1&W2).
  destruct (zflags (traj p0 n)) as [bo sw] eqn:Ef. destruct (zswap sw (traj p0 n)) as [A B] eqn:Esn.
  rewrite <- Et in Hs. destruct Hs as (_&Hodd&EB&EA&_). cbn [fst snd] in *.
  assert (A < wpow nw /\ B < wpow nw) as [HA HB].
  { destruct (traj p0 n), sw; cbn in Esn; injection Esn as <- <-; cbn in *; lia. }
  assert (0 <= z_a z /\ 0 <= z_b z) as [Ha Hb] by (destruct z; cbn in *; lia).
  assert (z_b z < wpow nw) by (rewrite <- EB in HB; clear - HB Hd Hb; nia).
  assert (2 * z_a z + (if bo then z_b z else 0) < wpow nw).
  { rewrite <- EA, <- EB in HA. clear - HA Hd Ha Hb. destruct bo; nia. }
  rewrite (unwind_step_spec record (Z.of_nat n) bo sw) by done.
  cbn [mbind option_bind]. apply IH.
  - split; [done|]. intros k Hk. apply Hrec. lia.
  - apply zunwind_step_spec; [|done]. rewrite Z.odd_mul in Hodd. apply andb_prop in Hodd. apply Hodd.
  - unfold zunwind_step. destruct z as [a b u v m]. cbn [z_a z_b] in *.
    destruct (traj p0 n) as [x y], sw; cbn in Esn |- *; injection Esn as <- <-; cbn; f_equal; destruct bo; lia.
Qed.
End Unwind.

(** ** The whole of [mp_bezout_into] *)

Lemma record_half n : (2 * (2 * n * 64) / 64)%nat = (4 * n)%nat.
Proof. replace (2 * (2 * n * 64))%nat with (4 * n * 64)%nat by lia. by rewrite Nat.div_mul. Qed.

Lemma word0_of n w : (0 < n)%nat -> 0 <= w < WB -> <[0%nat := w]> (mp_of n 0) = mp_of n w.
Proof.
  intros Hn Hw. destruct n as [|n]; [lia|]. cbn. rewrite !Z.div_small, Z.mod_small by (done || lia). done.
Qed.

Lemma wpow_gt1 n : (0 < n)%nat -> 1 < wpow n.
Proof. intros. pose proof (wpow_le 1 n). rewrite wpow_S, wpow_0 in *. unfold WB in *. lia. Qed.

Section BezoutInto.
Context (nw : nat) (Hnw : (0 < nw)%nat).
Context (A B : Z) (Hin : in_words nw (A, B)).

Let d := Z.gcd A B.
Let steps := (2 * nw * 64)%nat.

Lemma final_pair : traj (A, B) steps = (0, d).
Proof using All.
  destruct Hin as (Hp&H1&H2). rewrite wpow_pow2 in H1, H2.
  apply (traj_end (A, B) (64 * Z.of_nat nw)); try done; unfold steps; lia.
Qed.

Lemma reduce_all :
  exists record, bezout_reduce nw steps 0 (mp_of nw A, mp_of nw B, mp_of (2 * steps / 64) 0)
    = Some (mp_of nw 0, mp_of nw d, record) /\ recorded (A, B) steps record.
Proof using All.
  destruct (bezout_reduce_spec nw Hnw (A, B) steps 0 (mp_of (2 * steps / 64) 0)) as (r&E&Hr); [done| | |].
  - split; [auto with ssh|lia].
  - unfold len, steps. rewrite length_mp_of, record_half. lia.
  - exists r. split; [|done]. cbn [Nat.add] in E. rewrite final_pair in E. exact E.
Qed.

Lemma gcd_pos : 0 < d /\ Z.odd d = true.
Proof using All.
  pose proof final_pair as E. pose proof (traj_odd (A, B) (steps - 1) ltac:(apply Hin)) as Ho.
  replace (S (steps - 1)) with steps in Ho by (unfold steps; lia). rewrite E in Ho. cbn in Ho.
  split; [|done]. pose proof (Z.gcd_nonneg A B). fold d in H. destruct (Z.eq_dec d 0) as [Ez|]; [by rewrite Ez in Ho|lia].
Qed.

(** The coefficients, for a positive first argument. *)
Lemma bezout_coeffs_spec record :
  recorded (A, B) steps record -> 0 < A ->
  exists u v, bezout_coeffs nw steps (mp_of nw 0) (mp_of nw d) record = Some (mp_of (nw + 1) u, mp_of (nw + 1) v)
    /\ u * A - v * B = d /\ 0 <= u <= Z.max 1 (B / d) /\ 0 <= v <= A / d.
Proof using All.
  intros Hrec HA. destruct gcd_pos as [Hd Ho]. pose proof (wpow_gt1 nw Hnw). pose proof (wpow_next nw).
  assert (d < wpow nw).
  { pose proof (Z.gcd_divide_l A B) as Hdiv. apply Z.divide_pos_le in Hdiv; [|lia]. destruct Hin as (_&H1&_).
    cbn in H1. fold d in Hdiv. lia. }
  destruct (bezout_unwind_spec nw (A, B) record d steps (mkZ 0 1 0 1 true)) as (z&E&Hz&Ep);
    [apply Hin|done|done|done|cbn; lia|rewrite final_pair; cbn; f_equal; lia|].
  unfold bezout_coeffs. rewrite !mp_make_sized_spec by lia. cbn [mbind option_bind].
  rewrite !mp_get_bit_spec by (auto with ssh; lia). rewrite !mp_val_small by lia. rewrite !Z.bit0_odd, Ho.
  change (Z.b2z (Z.odd 0)) with 0. change (Z.b2z true) with 1. rewrite !word0_of by (unfold WB; lia).
  rewrite !mp_copy_into_spec by auto with ssh. rewrite !mp_val_small by lia.
  replace (mp_word (mp_of nw 1) 0) with 1
    by (rewrite mp_word_val, mp_val_small, wpow_0 by (auto with ssh; lia); done).
  unfold of_zunwind in E at 1. cbn [z_a z_b z_u z_v z_m] in E. change (Z.b2z true) with 1 in E.
  rewrite E. cbn [mbind option_bind].
  destruct z as [a b u v m]. cbn [z_a z_b] in Ep. unfold of_zunwind. cbn [z_a z_b z_u z_v z_m].
  injection Ep as Ea Eb. rewrite <- Ea, <- Eb, !(Z.mul_comm d), !Z.div_mul by lia.
  destruct Hin as (_&W1&W2). cbn [fst snd] in W1, W2.
  assert (a < wpow nw /\ b < wpow nw) as [Wa Wb] by (destruct Hz as (?&?&_); nia).
  assert (0 < a) by nia. destruct Hz as (Ha&Hb&Ez&Hz).
  rewrite !mp_sub_into_spec, !mp_select_into_spec by auto with ssh.
  rewrite (mp_val_small (nw + 1) u), (mp_val_small (nw + 1) v), (mp_val_small nw a), (mp_val_small nw b) by lia.
  exists (if m then b - u else u), (if m then a - v else v). 
  destruct m; [rewrite !(mp_val_small nw) by lia|]; (split; [done|split; [nia|lia]]).
Qed.
End BezoutInto.

(** Coefficients that satisfy the equation are strictly below the bound unless it is one. *)
Lemma bezout_strict a b u v : 0 < a -> u * a - v * b = 1 -> 1 < b -> u <= b -> u < b.
Proof. intros. destruct (Z.eq_dec u b) as [->|]; [|lia]. destruct (Z.eq_mul_1 b (a - v)); lia. Qed.

Lemma record_size n : Z.to_nat ((Z.of_nat (2 * n * 64) * 2 + BIGNUM_INT_BITS - 1) / BIGNUM_INT_BITS) = (4 * n)%nat.
Proof.
  change BIGNUM_INT_BITS with 64. replace (Z.of_nat (2 * n * 64) * 2 + 64 - 1) with (63 + 4 * Z.of_nat n * 64) by lia.
  rewrite Z.div_add by done. change (63 / 64) with 0. lia.
Qed.

Section Bezout.
Context (a b : mp_int) (Ha : mp_ok a) (Hb : mp_ok b).
Context (Hodd : Z.odd (mp_val a) || Z.odd (mp_val b) = true).

Abbreviation A := (mp_val a).
Abbreviation B := (mp_val b).
Abbreviation d := (Z.gcd A B).
Abbreviation nw := (size_t_max 1 (size_t_max (length a) (length b))).

Lemma bezout_words : (0 < nw)%nat /\ in_words nw (A, B).
Proof using All.
  rewrite !size_t_max_spec. split; [lia|]. pose proof (mp_val_bound a Ha). pose proof (mp_val_bound b Hb).
  pose proof (wpow_le (length a) (Nat.max 1 (Nat.max (length a) (length b)))).
  pose proof (wpow_le (length b) (Nat.max 1 (Nat.max (length a) (length b)))).
  split; [|cbn; lia]. split_and!; cbn; [lia|lia|done].
Qed.

Lemma bezout_into_reduced wa wb wg :
  exists record, recorded (A, B) (2 * nw * 64) record
    /\ mp_bezout_into wa wb wg a b
       = (let gcd := option_map (fun w => mp_of w d) wg in
          if negb (bool_decide (is_Some wa) || bool_decide (is_Some wb)) then Some (None, None, gcd) else
          '(ac, bc) ← bezout_coeffs nw (2 * nw * 64) (mp_of nw 0) (mp_of nw d) record;
          Some (option_map (fun w => mp_copy_into w ac) wa, option_map (fun w => mp_copy_into w bc) wb, gcd)).
Proof using All.
  destruct bezout_words as [Hnw Hin]. destruct (reduce_all nw Hnw A B Hin) as (record&E&Hr).
  exists record. split; [done|]. unfold mp_bezout_into.
  rewrite !mp_copy_into_spec by done. rewrite record_size, mp_make_sized_spec by lia.
  rewrite record_half in E. cbn [mbind option_bind]. rewrite E. cbn [mbind option_bind].
  destruct (gcd_pos nw Hnw A B Hin) as [Hd _].
  assert (d < wpow nw).
  { destruct Hin as ((?&?&_)&?&?). cbn in *. destruct (Z.eq_dec A 0) as [->|].
    - rewrite Z.gcd_0_l. lia.
    - assert (0 < A) as HA by lia. pose proof (Z.divide_pos_le _ _ HA (Z.gcd_divide_l A B)). lia. }
  replace (option_map (fun w => mp_add_into w (mp_of nw 0) (mp_of nw d)) wg) with (option_map (fun w => mp_of w d) wg).
  { reflexivity. }
  destruct wg as [w|]; [|done]. cbn. f_equal. rewrite mp_add_into_spec by auto with ssh.
  by rewrite (mp_val_small nw d), (mp_val_small nw 0) by lia.
Qed.

(** Only the gcd asked for: it is delivered whatever the pair. *)
Lemma mp_bezout_gcd_spec w : mp_bezout_into None None (Some w) a b = Some (None, None, Some (mp_of w d)).
Proof using All. destruct (bezout_into_reduced None None (Some w)) as (record&_&->). done. Qed.

Lemma mp_bezout_spec wa wb wg :
  0 < A ->
  exists u v, mp_bezout_into wa wb wg a b
    = Some (option_map (fun w => mp_of w u) wa, option_map (fun w => mp_of w v) wb, option_map (fun w => mp_of w d) wg)
    /\ u * A - v * B = d /\ 0 <= u <= Z.max 1 (B / d) /\ 0 <= v <= A / d.
Proof using All.
  intros HA. destruct (bezout_into_reduced wa wb wg) as (record&Hr&->). destruct bezout_words as [Hnw Hin].
  destruct (bezout_coeffs_spec nw Hnw A B Hin record Hr HA) as (u&v&E&Huv&Hu&Hv). exists u, v. split; [|done].
  rewrite E. destruct (gcd_pos nw Hnw A B Hin) as [Hd _]. pose proof (wpow_next nw). pose proof (wpow_gt1 nw Hnw).
  assert (A / d <= A /\ B / d <= B) as [??].
  { destruct Hin as ((?&?&_)&_). cbn in *. split; apply Z.div_le_upper_bound; nia. }
  destruct Hin as (_&?&?). cbn [fst snd] in *.
  destruct wa, wb; cbn; try done; rewrite !mp_copy_into_spec by auto with ssh; rewrite !mp_val_small by lia; done.
Qed.
End Bezout.

(** ** The lowest set bit *)

Lemma lowest_bit_loop_spec n V c :
  0 <= c <= 1 -> lowest_bit_loop (mp_of n V) c = mp_of n (Z.land V (Z.lnot V + c)).
Proof.
  revert V c; induction n as [|n IH]; intros V c Hc; cbn [mp_of lowest_bit_loop]; [done|].
  assert (u64 (Z.lnot (V mod WB)) = Z.lnot V mod WB) as ->.
  { unfold u64, wrap. change (2 ^ 64) with WB. assert (forall x, Z.lnot x = -1 - x) as L by (unfold Z.lnot; lia).
    rewrite !L. apply Zminus_mod_idemp_r. }
  rewrite BignumADC_spec by (done || auto with ssh). rewrite Z.add_0_l.
  assert ((Z.lnot V + c) / WB = Z.lnot (V / WB) + (Z.lnot V mod WB + c) / WB) as Ed.
  { pose proof (Z.div_mod (Z.lnot V) WB ltac:(done)). rewrite (Z.div_mod (Z.lnot V) WB) at 1 by done.
    replace (WB * (Z.lnot V / WB) + Z.lnot V mod WB + c) with (Z.lnot V mod WB + c + Z.lnot V / WB * WB) by lia.
    rewrite Z.div_add by done. rewrite Z.add_comm. f_equal. change WB with (2 ^ 64).
    rewrite <- !Z.shiftr_div_pow2 by lia. bitwise k Hk. by rewrite Z.shiftr_spec, !Z.lnot_spec, Z.shiftr_spec by lia. }
  f_equal.
  - rewrite Zplus_mod_idemp_l. change WB with (2 ^ 64). rewrite <- !Z.land_ones by lia.
    bitwise k Hk. rewrite !Z.land_spec. btauto.
  - rewrite IH by (Z.to_euclidean_division_equations; unfold WB in *; lia). rewrite <- Ed.
    change WB with (2 ^ 64). by rewrite <- !Z.shiftr_div_pow2, Z.shiftr_land by lia.
Qed.

(** A positive number is an odd one shifted; [V & -V] is the shift. *)
Lemma odd_part V : 0 < V -> exists t k, 0 <= t /\ 0 <= k /\ V = 2 ^ t * (2 * k + 1).
Proof.
  intros HV. destruct V as [|p|]; [done| |done]. clear HV. induction p as [p IH|p (t&k&Ht&Hk&E)|].
  - exists 0, (Z.pos p). lia.
  - exists (t + 1), k. rewrite Z.pow_add_r by lia. lia.
  - by exists 0, 0.
Qed.

Lemma odd_part_bits t k i :
  0 <= t -> 0 <= i <= t -> Z.testbit (2 ^ t * (2 * k + 1)) i = (i =? t).
Proof.
  intros Ht Hi. rewrite Z.mul_comm. destruct (Z.eqb_spec i t) as [->|].
  - rewrite Z.mul_pow2_bits, Z.sub_diag by lia. apply Z.testbit_odd_0.
  - apply Z.mul_pow2_bits_low. lia.
Qed.

Lemma lowest_bit t k : 0 <= t -> 0 <= k -> let V := 2 ^ t * (2 * k + 1) in Z.land V (- V) = 2 ^ t.
Proof.
  intros Ht Hk V. bitwise i Hi. rewrite Z.land_spec, Z.pow2_bits_eqb by lia.
  destruct (Z.le_gt_cases i t) as [Hle|Hgt].
  - unfold V at 1. rewrite odd_part_bits by lia. destruct (Z.eqb_spec i t) as [->|]; [|by destruct (Z.eqb_spec t i); [lia|]].
    replace (- V) with (2 ^ t * (2 * (- k - 1) + 1)) by (unfold V; lia). rewrite odd_part_bits by lia. by rewrite !Z.eqb_refl.
  - destruct (Z.eqb_spec t i); [lia|]. replace i with (t + ((i - t - 1) + 1)) by lia.
    replace (- V) with ((2 * (- k - 1) + 1) * 2 ^ t) by (unfold V; lia). unfold V. rewrite (Z.mul_comm (2 ^ t)).
    rewrite !Z.mul_pow2_bits_add by lia. rewrite (Z.add_1_r (i - t - 1)), !Z.testbit_odd_succ by lia.
    replace (- k - 1) with (Z.lnot k) by (unfold Z.lnot; lia). rewrite Z.lnot_spec by lia. by destruct (Z.testbit k _).
Qed.

Section Gcd.
Context (a b : mp_int) (Ha : mp_ok a) (Hb : mp_ok b).
Context (Hla : (0 < length a)%nat) (Hlb : (0 < length b)%nat).
Context (Hsa : len a < 2 ^ 57) (Hsb : len b < 2 ^ 57).
Context (Hnz : 0 < mp_val a \/ 0 < mp_val b).

Abbreviation A := (mp_val a).
Abbreviation B := (mp_val b).

(** The shift taken out: a common power of two that leaves one of the numbers odd. *)
Lemma common_shift :
  exists t, 0 <= t < 64 * Z.max (len a) (len b)
    /\ A = 2 ^ t * (A / 2 ^ t) /\ B = 2 ^ t * (B / 2 ^ t)
    /\ Z.odd (A / 2 ^ t) || Z.odd (B / 2 ^ t) = true
    /\ forall n, (n = Nat.max (length a) (length b))%nat ->
       u64 (mp_get_nbits (lowest_bit_loop ((fun i => mp_word a i .| mp_word b i) <$> seq 0 n) 1) - 1) = t.
Proof using All.
  pose proof (mp_val_bound a Ha). pose proof (mp_val_bound b Hb).
  set (V := Z.lor A B). set (n := Nat.max (length a) (length b)).
  assert (0 <= V) by (apply Z.lor_nonneg; lia).
  assert (V <> 0) by (intros E; apply Z.lor_eq_0_iff in E; lia).
  destruct (odd_part V) as (t&k&Ht&Hk&EV); [lia|]. exists t.
  assert (word_ok (64 * Z.of_nat n) V) as HVn.
  { pose proof (wpow_le (length a) n). pose proof (wpow_le (length b) n).
    apply lor_ok; try lia; unfold word_ok; rewrite <- wpow_pow2; lia. }
  unfold word_ok in HVn. rewrite <- wpow_pow2 in HVn.
  assert (2 ^ t < wpow n) as Htn by nia.
  assert (t < 64 * Z.of_nat n) as Hlt by (rewrite wpow_pow2 in Htn; apply Z.pow_lt_mono_r_iff in Htn; lia).
  assert (forall i, 0 <= i <= t -> Z.testbit A i || Z.testbit B i = (i =? t)) as Hbits.
  { intros i Hi. rewrite <- Z.lor_spec. fold V. rewrite EV. by apply odd_part_bits. }
  assert (forall x, (forall i, 0 <= i < t -> Z.testbit x i = false) -> x = 2 ^ t * (x / 2 ^ t)) as Hdiv.
  { intros x Hx. rewrite <- Z.shiftr_div_pow2, Z.mul_comm, <- Z.shiftl_mul_pow2 by done. bitwise i Hi.
    destruct (Z.lt_ge_cases i t).
    - rewrite Z.shiftl_spec_low by done. auto.
    - rewrite Z.shiftl_spec_high, Z.shiftr_spec by lia. f_equal. lia. }
  split; [unfold n, len in *; lia|].
  split; [|split; [|split]].
  1,2: apply Hdiv; intros i Hi; specialize (Hbits i ltac:(lia));
    destruct (Z.eqb_spec i t); [lia|]; apply orb_false_elim in Hbits; apply Hbits.
  - specialize (Hbits t ltac:(lia)). rewrite Z.eqb_refl in Hbits. rewrite <- !Z.bit0_odd, !Z.div_pow2_bits by lia.
    by rewrite Z.add_0_l.
  - intros ? ->. fold n. rewrite (words_fmap0 _ V).
    2: { intros i _. unfold V. bitwise j Hj. rewrite Z.lor_spec, !mp_word_bits, word_bits, Z.lor_spec by done. btauto. }
    rewrite lowest_bit_loop_spec by lia. replace (Z.lnot V + 1) with (- V) by (unfold Z.lnot; lia).
    rewrite EV, lowest_bit by done. rewrite mp_get_nbits_spec by (auto with ssh; unfold len in *; rewrite length_mp_of; lia).
    pose proof (pow2_pos t Ht). rewrite mp_val_small by lia. destruct (Z.eqb_spec (2 ^ t) 0); [lia|].
    rewrite Z.log2_pow2, Z.add_simpl_r by done. apply wrap_id. unfold word_ok, len in *. lia.
Qed.

Lemma gcd_shift t :
  0 <= t -> A = 2 ^ t * (A / 2 ^ t) -> B = 2 ^ t * (B / 2 ^ t) ->
  Z.gcd A B = Z.gcd (A / 2 ^ t) (B / 2 ^ t) * 2 ^ t.
Proof using All.
  intros Ht EA EB. rewrite EA, EB at 1. rewrite Z.gcd_mul_mono_l. pose proof (pow2_pos t Ht). lia.
Qed.

Lemma mp_gcd_into_spec w :
  len (replicate w 0) < 2 ^ 63 ->
  mp_gcd_into a b (Some w) None None = Some (None, None, Some (mp_of w (Z.gcd A B))).
Proof using All.
  intros Hw. destruct common_shift as (t&Ht&EA&EB&Hodd&Et). unfold mp_gcd_into.
  rewrite size_t_max_spec, mp_make_sized_spec by lia. cbn [mbind option_bind]. rewrite length_mp_of, Et by done.
  rewrite !mp_rshift_safe_spec by (done || lia). cbn [mbind option_bind].
  pose proof (pow2_pos t ltac:(lia)).
  assert (forall x, mp_ok x -> 0 <= mp_val x / 2 ^ t < wpow (length x)) as Hdiv.
  { intros x Hx. pose proof (mp_val_bound x Hx). split; [apply Z.div_pos; lia|apply Z.div_lt_upper_bound; nia]. }
  rewrite mp_bezout_gcd_spec by (first [solve [auto with ssh]|rewrite !mp_val_small by auto; done]).
  cbn [mbind option_bind option_map]. rewrite !mp_val_small by auto.
  rewrite mp_lshift_safe_in_place_spec by (first [solve [auto with ssh]|unfold len in *; rewrite ?length_mp_of, ?length_replicate in *; lia]).
  rewrite length_mp_of, (gcd_shift t) by (done || lia). rewrite mp_val_of. do 3 f_equal.
  apply mp_of_eq. by rewrite Zmult_mod_idemp_l.
Qed.

Lemma mp_gcd_spec : mp_gcd a b = Some (mp_of (Nat.min (length a) (length b)) (Z.gcd A B)).
Proof using All.
  unfold mp_gcd. rewrite size_t_min_spec, mp_make_sized_spec by lia. cbn [mbind option_bind].
  rewrite length_mp_of, mp_gcd_into_spec; [done|]. unfold len in *. rewrite length_replicate. lia.
Qed.

(** The divisor of two positive numbers fits the narrower one's words. *)
Lemma gcd_fits : 0 < A -> 0 < B -> 0 < Z.gcd A B < wpow (Nat.min (length a) (length b)).
Proof using All.
  intros HA HB. pose proof (mp_val_bound a Ha). pose proof (mp_val_bound b Hb).
  pose proof (Z.divide_pos_le _ _ HA (Z.gcd_divide_l A B)). pose proof (Z.divide_pos_le _ _ HB (Z.gcd_divide_r A B)).
  pose proof (Z.gcd_nonneg A B). assert (Z.gcd A B <> 0) by (intros E; apply Z.gcd_eq_0_l in E; lia).
  destruct (Nat.min_spec (length a) (length b)) as [[_ ->]|[_ ->]]; lia.
Qed.
End Gcd.

Lemma mp_nonempty x : 0 < mp_val x -> (0 < length x)%nat.
Proof. destruct x; cbn; lia. Qed.

Lemma mp_invert_spec x m :
  mp_ok x -> mp_ok m -> 0 < mp_val x -> 1 < mp_val m -> Z.gcd (mp_val x) (mp_val m) = 1 ->
  exists u, mp_invert x m = Some (mp_of (length m) u) /\ 0 <= u < mp_val m /\ u * mp_val x mod mp_val m = 1.
Proof.
  intros Hx Hm HX HM Hg. assert (Z.odd (mp_val x) || Z.odd (mp_val m) = true) as Hodd.
  { destruct (Z.odd (mp_val x)) eqn:Ex, (Z.odd (mp_val m)) eqn:Em; try done. exfalso.
    assert (2 | 1) as [q Hq]; [|lia]. rewrite <- Hg.
    apply Z.gcd_greatest; apply Z.mod_divide; try done; rewrite Zmod_odd; [by rewrite Ex|by rewrite Em]. }
  destruct (mp_bezout_spec x m Hx Hm Hodd (Some (length m)) None None HX) as (u&v&E&Huv&Hu&Hv).
  rewrite Hg, !Z.div_1_r in *. unfold mp_invert. pose proof (mp_nonempty m ltac:(lia)).
  rewrite mp_make_sized_spec by done. cbn [mbind option_bind]. rewrite length_mp_of, E. cbn.
  exists u. split; [done|]. split; [split; [lia|]; apply (bezout_strict (mp_val x) _ u v); lia|].
  replace (u * mp_val x) with (1 + v * mp_val m) by lia. rewrite Z.mod_add by lia. by apply Z.mod_small.
Qed.

(** ** Theorems *)

(** C28. [mp_bezout_into] on a pair that is not both even, with a positive first number:
    it always delivers; the gcd output is the greatest common divisor and the two
    coefficients are non-negative numbers A, B with A*a - B*b = gcd(a, b).  A is below b/d
    and B below a/d as the source's comment promises, except that a bound of one (or,
    for A, zero) lets the coefficient be one.  Every output that was not asked for stays
    absent, and each is reduced to the words of the number it is written to. *)
Theorem mp_bezout_correct a b wa wb wg :
  mp_ok a -> mp_ok b -> Z.odd (mp_val a) || Z.odd (mp_val b) = true -> 0 < mp_val a ->
  let d := Z.gcd (mp_val a) (mp_val b) in
  exists A B,
    mp_bezout_into wa wb wg a b
    = Some (option_map (fun w => mp_of w A) wa, option_map (fun w => mp_of w B) wb, option_map (fun w => mp_of w d) wg)
    /\ A * mp_val a - B * mp_val b = d /\ 0 <= A /\ 0 <= B
    /\ (if 1 <? mp_val b / d then A < mp_val b / d else A <= 1)
    /\ (if 1 <? mp_val a / d then B < mp_val a / d else B <= 1).
Proof.
  intros Ha Hb Hodd HA d. destruct (mp_bezout_spec a b Ha Hb Hodd wa wb wg HA) as (u&v&E&Huv&Hu&Hv).
  fold d in E, Huv, Hu, Hv. exists u, v. split; [done|].
  assert (0 < d) by (pose proof (Z.gcd_nonneg (mp_val a) (mp_val b)); assert (d <> 0) by (intros Ed; apply Z.gcd_eq_0_l in Ed; lia); unfold d in *; lia).
  destruct (Z.gcd_divide_l (mp_val a) (mp_val b)) as [a' Ea]. destruct (Z.gcd_divide_r (mp_val a) (mp_val b)) as [b' Eb].
  fold d in Ea, Eb. clearbody d. rewrite Ea in Hv. rewrite Eb in Hu. rewrite Ea, Eb in Huv |- *.
  rewrite !Z.div_mul in * by lia.
  assert (Ez : u * a' - v * b' = 1) by nia. assert (0 < a') by nia.
  split; [lia|]. split; [lia|]. split; [lia|].
  destruct (Z.ltb_spec 1 b'), (Z.ltb_spec 1 a'); split; try lia.
  all: try (apply (bezout_strict a' b' u v); lia).
  all: destruct (Z.eq_dec v a') as [->|]; [|lia]; destruct (Z.eq_mul_1 a' (u - b')); lia.
Qed.

Lemma mp_bezout_correct_witness :
  exists A B, mp_bezout_into (Some 1%nat) (Some 1%nat) (Some 1%nat) [240] [45]
    = Some (Some (mp_of 1 A), Some (mp_of 1 B), Some [15]) /\ A * 240 - B * 45 = 15.
Proof.
  destruct (mp_bezout_correct [240] [45] (Some 1%nat) (Some 1%nat) (Some 1%nat)) as (A&B&E&H&_);
    [by repeat constructor..|done|done|]. exists A, B. split; [exact E|exact H].
Defined.

(** [mp_gcd] and [mp_coprime]: for two positive numbers of any (equal or different)
    sizes the result, as wide as the narrower argument, is exactly the greatest common
    divisor, common powers of two included, and [mp_coprime] is 1 just when that is one. *)
Theorem mp_gcd_correct a b :
  mp_ok a -> mp_ok b -> len a < 2 ^ 57 -> len b < 2 ^ 57 -> 0 < mp_val a -> 0 < mp_val b ->
  exists g, mp_gcd a b = Some g /\ mp_ok g /\ length g = Nat.min (length a) (length b)
    /\ mp_val g = Z.gcd (mp_val a) (mp_val b)
    /\ mp_coprime a b = Some (Z.b2z (Z.gcd (mp_val a) (mp_val b) =? 1)).
Proof.
  intros Ha Hb Hsa Hsb HA HB. pose proof (mp_nonempty a HA) as La. pose proof (mp_nonempty b HB) as Lb.
  pose proof (gcd_fits a b Ha Hb La Lb Hsa Hsb (or_introl HA) HA HB).
  unfold mp_coprime. rewrite mp_gcd_spec by auto. cbn [mbind option_bind]. eexists. split; [done|].
  split; [auto with ssh|]. split; [apply length_mp_of|]. rewrite mp_eq_integer_spec by auto with ssh.
  rewrite mp_val_small by lia. done.
Qed.


(** [mp_invert]: for [x] coprime to a modulus above one, in any representation (no
    reduction of [x] needed), the result is the inverse of [x] reduced modulo [m]. *)
Theorem mp_invert_correct x m :
  mp_ok x -> mp_ok m -> 0 < mp_val x -> 1 < mp_val m -> Z.gcd (mp_val x) (mp_val m) = 1 ->
  exists r, mp_invert x m = Some r /\ mp_ok r /\ length r = length m
    /\ mp_val r < mp_val m /\ mp_val r * mp_val x mod mp_val m = 1.
Proof.
  intros Hx Hm HX HM Hg. destruct (mp_invert_spec x m Hx Hm HX HM Hg) as (u&E&Hu&H).
  pose proof (mp_val_bound m Hm). rewrite E. eexists. split; [done|]. split; [auto with ssh|].
  split; [apply length_mp_of|]. rewrite mp_val_small by lia. split; [lia|done].
Qed.


(** Two edge cases the comments do not allow for: a coefficient equal to its bound when
    [b/d] is one (no smaller non-negative pair exists), and a zero operand narrower than
    the divisor, whose words are then cut off. *)
Lemma mp_gcd_edge_cases :
  mp_bezout_into (Some 1%nat) (Some 1%nat) (Some 1%nat) [3] [1] = Some (Some [1], Some [2], Some [1])
  /\ mp_invert [5] [1] = Some [1] /\ mp_gcd [0] [5; 7] = Some [5].
Proof. vm_compute. tauto. Qed.
