(* ===== verification/MpIO.v ===== *)
(** * Multiprecision integers as bytes, text and wire data

    The part of mpint.c that reads and writes numbers: byte strings
    ([mp_from_bytes_le], [mp_from_bytes_be]), decimal and hexadecimal text, and the
    SSH-1 and SSH-2 wire formats on top of marshal.c.  A C string is the list of its
    characters, unsigned; [schar] is the value of a [char] in an expression.  A text
    buffer is the list of its bytes with the terminating NUL in it, and [c_string]
    what a reader of the buffer sees. *)

From S2P Require Import Prelude Memory Marshal Mpint MpBits MpMul.

Open Scope word_scope.

(** The value of a (signed) [char] whose byte is [c]. *)
Definition schar (c : Z) : Z := if c <? 128 then c else c - 256.

(** The characters before the first NUL. *)
Fixpoint c_string (buf : list Z) : list Z :=
  match buf with
  | [] => []
  | c :: buf => if c =? 0 then [] else c :: c_string buf
  end.

(** ** Input: bytes, decimal, hexadecimal *)

(** [x->w[word] |= bits] *)
Definition or_into (x : mp_int) (word : nat) (bits : Z) : mp_int :=
  <[word := mp_word x word .| bits]> x.

(** The loop of [mp_from_bytes_int] from index [i], [k] iterations left. *)
Fixpoint mp_from_bytes_loop (k i : nat) (bytes : list Z) (m c : Z) (n : mp_int) : option mp_int :=
  match k with
  | O => Some n
  | S k =>
      b ← bytes !! Z.to_nat (u64 (u64 (m * Z.of_nat i) + c));
      mp_from_bytes_loop k (S i) bytes m c
        (or_into n (i / Z.to_nat BIGNUM_INT_BYTES)
           (u64 (b << (8 * (Z.of_nat i mod BIGNUM_INT_BYTES)))))
  end.

Definition mp_from_bytes_int (bytes : list Z) (m c : Z) : option mp_int :=
  let nw := Z.to_nat (u64 (len bytes + BIGNUM_INT_BYTES - 1) / BIGNUM_INT_BYTES) in
  let nw := size_t_max nw 1 in
  n ← mp_make_sized nw;
  mp_from_bytes_loop (length bytes) 0 bytes m c n.

Definition mp_from_bytes_le (bytes : list Z) : option mp_int := mp_from_bytes_int bytes 1 0.
Definition mp_from_bytes_be (bytes : list Z) : option mp_int :=
  mp_from_bytes_int bytes (u64 (-1)) (u64 (len bytes - 1)).

Fixpoint mp_from_decimal_loop (decimal : list Z) (x : mp_int) : option mp_int :=
  match decimal with
  | [] => Some x
  | c :: decimal =>
      let x := mp_add_integer_into (length x) x (u64 (schar c - 48)) in
      match decimal with
      | [] => Some x
      | _ => x ← mp_mul_integer_into (length x) x 10; mp_from_decimal_loop decimal x
      end
  end.

Definition mp_from_decimal_pl (decimal : list Z) : option mp_int :=
  assert! len decimal <? SIZE_MAX / 196;
  let bits := 196 * len decimal / 59 in
  let words := bits / BIGNUM_INT_BITS + 1 in
  x ← mp_make_sized (Z.to_nat words);
  mp_from_decimal_loop decimal x.

Definition mp_from_decimal (decimal : list Z) : option mp_int := mp_from_decimal_pl (c_string decimal).

(** The value of one hexadecimal digit, by masks instead of branches. *)
Definition hex_digitval (c : Z) : Z :=
  let digit := u64 (schar c) in
  let lmask := u64 (Z.lnot (u64 (- ((u64 (digit - 97) .| u64 (102 - digit)) >> 63)))) in
  let umask := u64 (Z.lnot (u64 (- ((u64 (digit - 65) .| u64 (70 - digit)) >> 63)))) in
  let digitval := u64 (digit - 48) in
  let digitval := digitval .^ ((digitval .^ u64 (digit - 97 + 10)) .& lmask) in
  let digitval := digitval .^ ((digitval .^ u64 (digit - 65 + 10)) .& umask) in
  digitval .& 15.

(** The loop of [mp_from_hex_pl]: the digits from the last one back. *)
Fixpoint mp_from_hex_loop (k nibble : nat) (hex : list Z) (x : mp_int) : option mp_int :=
  match k with
  | O => Some x
  | S k =>
      c ← hex !! (length hex - 1 - nibble)%nat;
      let word_idx := (nibble / (Z.to_nat BIGNUM_INT_BYTES * 2))%nat in
      let nibble_within_word := Z.of_nat nibble mod (BIGNUM_INT_BYTES * 2) in
      mp_from_hex_loop k (S nibble) hex
        (or_into x word_idx (u64 (hex_digitval c << (nibble_within_word * 4))))
  end.

Definition mp_from_hex_pl (hex : list Z) : option mp_int :=
  assert! len hex <=? SIZE_MAX / 4;
  let bits := len hex * 4 in
  let words := u64 (bits + BIGNUM_INT_BITS - 1) / BIGNUM_INT_BITS in
  let words := size_t_max (Z.to_nat words) 1 in
  x ← mp_make_sized words;
  mp_from_hex_loop (length hex) 0 hex x.

Definition mp_from_hex (hex : list Z) : option mp_int := mp_from_hex_pl (c_string hex).

(** ** Output: decimal and hexadecimal *)

(** The scan [for (pos = trim; pos-- > 0 ;)]. *)
Fixpoint trim_scan (pos : nat) (buf : list Z) (trim : Z) : Z :=
  match pos with
  | O => trim
  | S pos =>
      let diff := u8 (nth pos buf 0 .^ 48) in
      let mask := u64 (- (u64 (diff - 1) >> 63)) in
      trim_scan pos buf (trim .^ ((trim .^ Z.of_nat pos) .& u64 (Z.lnot mask)))
  end.

(** The conditional exchanges at distance [d], from index [i] on. *)
Fixpoint trim_pass (k i d : nat) (mask : Z) (ubuf : list Z) : list Z :=
  match k with
  | O => ubuf
  | S k =>
      let diff := mask .& (nth i ubuf 0 .^ nth (i + d) ubuf 0) in
      let ubuf := <[i := nth i ubuf 0 .^ diff]> ubuf in
      let ubuf := <[(i + d)%nat := nth (i + d) ubuf 0 .^ diff]> ubuf in
      trim_pass k (S i) d mask ubuf
  end.

Fixpoint trim_passes (fuel : nat) (logd : Z) (trim : Z) (ubuf : list Z) : list Z :=
  match fuel with
  | O => ubuf
  | S fuel =>
      if len ubuf >> logd =? 0 then ubuf else
      let mask := u8 (- u8 ((trim >> logd) .& 1)) in
      let d := Z.to_nat (u64 (1 << logd)) in
      trim_passes fuel (logd + 1) trim (trim_pass (length ubuf - d) 0 d mask ubuf)
  end.

(** A [size_t] has at most 64 bits, so that 64 passes reach [bufsize >> logd == 0]. *)
Definition trim_leading_zeroes (buf : list Z) (maxtrim : nat) : list Z :=
  let trim := trim_scan maxtrim buf (Z.of_nat maxtrim) in
  trim_passes 64 0 trim buf.

(** One word of the residue sum: [low_digit] and [maxval] with [mult]. *)
Definition residue_byte (w : Z) (s : Z * Z * Z) (j : Z) : Z * Z * Z :=
  let '(low_digit, maxval, mult) := s in
  (u32 (low_digit + mult * (255 .& (w >> (8 * j)))), u32 (maxval + u32 (mult * 255)), 6).

Definition residue_fold (v : Z) : Z := u32 ((v .& 65535) + u32 (6 * (v >> 16))).

Definition residue_word (s : Z * Z * Z) (w : Z) : Z * Z * Z :=
  let '(low_digit, maxval, mult) := fold_left (residue_byte w) [0; 1; 2; 3; 4; 5; 6; 7] s in
  if (2 ^ 32 - 1) - 6 * 255 * BIGNUM_INT_BYTES <? maxval
  then (residue_fold low_digit, residue_fold maxval, mult)
  else (low_digit, maxval, mult).

(** The residue of [x] modulo 10. *)
Definition low_digit_of (x : mp_int) : Z :=
  let '(low_digit, _, _) := fold_left residue_word x (0, 0, 1) in
  let low_digit := u32 (low_digit - u64 (10 * (u64 (429496729 * low_digit) >> 32))) in
  u32 (low_digit - u32 (10 * (u32 (low_digit + 6) >> 4))).

Definition make_inv5 (nw : nat) : option mp_int :=
  inv5 ← mp_make_sized nw;
  let inv5 := (fun _ => u64 (ones64 / 5 * 4)) <$> inv5 in
  Some (<[0%nat := u64 (mp_word inv5 0 + 1)]> inv5).

(** The digit loop; [outbuf] is what was written above [pos]. *)
Fixpoint mp_get_decimal_loop (pos : nat) (inv5 x : mp_int) (outbuf : list Z) : option (list Z) :=
  match pos with
  | O => Some outbuf
  | S pos =>
      let low_digit := low_digit_of x in
      assert! low_digit <? 10;
      let outbuf := u8 (48 + low_digit) :: outbuf in
      let x := mp_sub_integer_into (length x) x low_digit in
      let y := mp_rshift_fixed_into (length x) x 1 in
      x ← mp_mul_into (length x) y inv5;
      mp_get_decimal_loop pos inv5 x outbuf
  end.

Definition decimal_bufsize (nw : nat) : nat :=
  size_t_max (Z.to_nat (Z.of_nat nw * (146 * BIGNUM_INT_BITS) / 485)) 1 + 2.

Definition mp_get_decimal (x_orig : mp_int) : option (list Z) :=
  x ← mp_copy x_orig;
  inv5 ← make_inv5 (length x);
  assert! len x <? (SIZE_MAX - 1) / (146 * BIGNUM_INT_BITS);
  let bufsize := decimal_bufsize (length x) in
  outbuf ← mp_get_decimal_loop (bufsize - 1) inv5 x [0];
  Some (trim_leading_zeroes outbuf (bufsize - 2)).

Fixpoint mp_get_hex_loop (k nibble : nat) (x : mp_int) (letter_offset : Z) (outbuf : list Z) : list Z :=
  match k with
  | O => outbuf
  | S k =>
      let word_idx := (nibble / (Z.to_nat BIGNUM_INT_BYTES * 2))%nat in
      let nibble_within_word := Z.of_nat nibble mod (BIGNUM_INT_BYTES * 2) in
      let digitval := 15 .& (mp_word x word_idx >> (nibble_within_word * 4)) in
      let mask := u8 (- ((digitval + 6) >> 4)) in
      let digit := u8 (digitval + 48 + (letter_offset .& mask)) in
      mp_get_hex_loop k (S nibble) x letter_offset (digit :: outbuf)
  end.

Definition mp_get_hex_internal (x : mp_int) (letter_offset : Z) : list Z :=
  let nibbles := (length x * Z.to_nat BIGNUM_INT_BYTES * 2)%nat in
  let outbuf := mp_get_hex_loop nibbles 0 x letter_offset [0] in
  trim_leading_zeroes outbuf (nibbles - 1).

Definition mp_get_hex (x : mp_int) : list Z := mp_get_hex_internal x (97 - (48 + 10)).
Definition mp_get_hex_uppercase (x : mp_int) : list Z := mp_get_hex_internal x (65 - (48 + 10)).

(** ** The SSH wire formats *)

Section Wire.
Context {S : Type} `{BinarySink S}.

(** [for (i = bytes; i-- > 0 ;) put_byte(bs, mp_get_byte(x, i))] *)
Fixpoint put_mp_bytes (bs : S) (bytes : nat) (x : mp_int) : option S :=
  match bytes with
  | O => Some bs
  | Datatypes.S i => bs ← put_byte bs (mp_get_byte x (Z.of_nat i)); put_mp_bytes bs i x
  end.

Definition BinarySink_put_mp_ssh1 (bs : S) (x : mp_int) : option S :=
  let bits := mp_get_nbits x in
  let bytes := u64 (bits + 7) / 8 in
  assert! bits <? 65536;
  bs ← put_uint16 bs bits;
  put_mp_bytes bs (Z.to_nat bytes) x.

Definition BinarySink_put_mp_ssh2 (bs : S) (x : mp_int) : option S :=
  let bytes := u64 (mp_get_nbits x + 8) / 8 in
  bs ← put_uint32 bs bytes;
  put_mp_bytes bs (Z.to_nat bytes) x.
End Wire.

Definition BinarySource_get_mp_ssh1 (src : BinarySource) : option (mp_int * BinarySource) :=
  let '(bitc, src) := get_uint16 src in
  let '(bytes, src) := get_data src ((bitc + 7) / 8) in
  if decide (bs_err src = BSE_NO_ERROR) then
    toret ← mp_from_bytes_be bytes;
    if bitc <? mp_get_nbits toret then
      toret ← mp_from_integer 0; Some (toret, set_err src BSE_INVALID)
    else Some (toret, src)
  else toret ← mp_from_integer 0; Some (toret, src).

Definition BinarySource_get_mp_ssh2 (src : BinarySource) : option (mp_int * BinarySource) :=
  let '(bytes, src) := get_string src in
  if decide (bs_err src = BSE_NO_ERROR) then
    let p i := nth i bytes 0 in
    if (0 <? len bytes) &&
       (negb (p 0%nat .& 128 =? 0) ||
        ((p 0%nat =? 0) && ((len bytes <=? 1) || (p 1%nat .& 128 =? 0))))
    then toret ← mp_from_integer 0; Some (toret, set_err src BSE_INVALID)
    else toret ← mp_from_bytes_be bytes; Some (toret, src)
  else toret ← mp_from_integer 0; Some (toret, src).

Example mp_io_examples :
  mp_from_hex (codes "deadBEEF00112233445566" ++ [0]) = mp_from_decimal (codes "269202023459141943873000806" ++ [0])
  /\ (c_string <$> mp_get_decimal [12345678901234567890; 3]) = Some (codes "67685911122363222738")
  /\ c_string (mp_get_hex [0xabc; 0]) = codes "abc" /\ c_string (mp_get_hex_uppercase [0]) = codes "0"
  /\ mp_from_bytes_be [1; 2; 3] = Some [66051] /\ mp_from_bytes_le [1; 2; 3] = Some [197121].
Proof. vm_compute. tauto. Qed.

(** ** Positional notation *)

(** The value of a digit string in base [b], most significant digit first. *)
Definition digits_val (b : Z) (l : list Z) : Z := fold_left (fun a d => a * b + d) l 0.

(** The [n] low-order digits of [v]. *)
Fixpoint digits (b : Z) (n : nat) (v : Z) : list Z :=
  match n with O => [] | S n => digits b n (v / b) ++ [v mod b] end.

Abbreviation digits_ok b := (Forall (fun d => 0 <= d < b)).

Section Positional.
Context (b : Z) (Hb : 1 < b).

Lemma digits_val_snoc l d : digits_val b (l ++ [d]) = digits_val b l * b + d.
Proof using. unfold digits_val. by rewrite fold_left_app. Qed.

Lemma digits_val_app l k : digits_val b (l ++ k) = digits_val b l * b ^ len k + digits_val b k.
Proof using.
  induction k as [|d k IH] using rev_ind; [rewrite app_nil_r, len_nil, Z.pow_0_r; change (digits_val b []) with 0; lia|].
  rewrite app_assoc, !digits_val_snoc, IH, len_app, Z.pow_add_r by auto with ssh.
  change (len [d]) with 1. rewrite Z.pow_1_r. ring.
Qed.

Lemma digits_val_bound l : digits_ok b l -> 0 <= digits_val b l < b ^ len l.
Proof using Hb.
  induction l as [|d l IH] using rev_ind; intros H; [by cbn|].
  apply Forall_app in H as [Hl Hd]. apply Forall_inv in Hd. specialize (IH Hl).
  rewrite digits_val_snoc, len_app, Z.pow_add_r by auto with ssh. change (len [d]) with 1. nia.
Qed.

Lemma length_digits n v : length (digits b n v) = n.
Proof using. revert v; induction n; intros; simpl; [done|]. rewrite length_app, IHn. simpl; lia. Qed.

Lemma len_digits n v : len (digits b n v) = Z.of_nat n.
Proof using. unfold len. by rewrite length_digits. Qed.

Lemma digits_range n v : digits_ok b (digits b n v).
Proof using Hb.
  revert v; induction n; intros; simpl; [constructor|].
  apply Forall_app_2; [done|]. repeat constructor; apply Z.mod_pos_bound; lia.
Qed.

Lemma digits_val_digits n v : digits_val b (digits b n v) = v mod b ^ Z.of_nat n.
Proof using Hb.
  revert v; induction n as [|n IH]; intros v; simpl digits; [by rewrite Z.mod_1_r|].
  rewrite digits_val_snoc, IH, Nat2Z.inj_succ, Z.pow_succ_r by lia.
  rewrite Z.rem_mul_r by (try apply Z.pow_pos_nonneg; lia). lia.
Qed.

(** The value of the digits from the last one back. *)
Lemma digits_val_rev_snoc l i d :
  l !! (length l - 1 - i)%nat = Some d -> (i < length l)%nat ->
  digits_val b (drop (length l - 1 - i) l) = digits_val b (drop (length l - i) l) + d * b ^ Z.of_nat i.
Proof using.
  intros Hd Hi. rewrite (drop_S l d _ Hd). replace (S (length l - 1 - i)) with (length l - i)%nat by lia.
  change (?a :: ?k) with ([a] ++ k). rewrite digits_val_app.
  unfold len. rewrite length_drop. replace (length l - (length l - i))%nat with i by lia.
  change (digits_val b [d]) with d. lia.
Qed.
End Positional.

(** ** Filling in a number by OR-ing its digits into the words *)

Section OrDigits.
Context (s : Z) (per : nat) (Hs : 0 < s) (Hper : s * Z.of_nat per = 64).

(** A digit of [s] bits at digit position [i] of a number with zeros from there on. *)
Lemma or_into_spec nw i v d :
  (i < nw * per)%nat -> word_ok (s * Z.of_nat i) v -> word_ok s d ->
  or_into (mp_of nw v) (i / per) (u64 (d << (s * (Z.of_nat i mod Z.of_nat per))))
  = mp_of nw (v + d * 2 ^ (s * Z.of_nat i)).
Proof using Hs Hper.
  intros Hi Hv Hd. unfold or_into. set (q := (i / per)%nat).
  assert (per <> 0%nat) as Hp by lia.
  assert (Z.of_nat i mod Z.of_nat per = Z.of_nat (i mod per)) as -> by by rewrite Nat2Z.inj_mod.
  set (r := (i mod per)%nat). assert (i = (per * q + r)%nat /\ (r < per)%nat) as [Ei Hr].
  { split; [apply Nat.div_mod_eq|by apply Nat.mod_upper_bound]. }
  assert (q < nw)%nat by (apply Nat.Div0.div_lt_upper_bound; lia).
  assert (s * Z.of_nat i = 64 * Z.of_nat q + s * Z.of_nat r) as Es by (rewrite <- Hper; lia).
  assert (0 <= s * Z.of_nat r /\ s * Z.of_nat r + s <= 64) as [Hr0 Hr1] by (rewrite <- Hper; nia).
  rewrite <- lor_shiftl_add by (done || lia).
  apply mp_eq_words; [by rewrite length_insert, length_mp_of|].
  intros j Hj. rewrite mp_word_insert by (by rewrite length_mp_of).
  apply Z.bits_inj'. intros k Hk. rewrite word_bits by done. rewrite Z.lor_spec, Z.shiftl_spec by lia.
  case_decide as E.
  - subst j. rewrite Z.lor_spec, mp_word_of, word_bits, u64_bits, Z.shiftl_spec by done.
    destruct (k <? 64); [|done]. cbn [andb]. f_equal. f_equal. lia.
  - rewrite mp_word_of, word_bits by done. destruct (Z.ltb_spec k 64); [|done]. cbn [andb].
    assert (Z.testbit d (k + 64 * Z.of_nat j - s * Z.of_nat i) = false) as ->; [|by rewrite orb_false_r].
    destruct (Nat.lt_ge_cases j q); [apply Z.testbit_neg_r; lia|apply (testbit_high s); [done|lia]].
Qed.
End OrDigits.

(** ** Reading bytes *)

(** The words a number of [n] bytes is given. *)
Definition byte_words (n : nat) : nat := Nat.max ((n + 7) / 8) 1.

Lemma byte_words_pos n : (0 < byte_words n)%nat.
Proof. unfold byte_words. lia. Qed.

Lemma byte_words_enough n : (n <= byte_words n * 8)%nat.
Proof. unfold byte_words. pose proof (Nat.div_mod_eq (n + 7) 8). pose proof (Nat.mod_upper_bound (n + 7) 8). lia. Qed.

Lemma pow_byte i : 2 ^ (8 * Z.of_nat i) = 256 ^ Z.of_nat i.
Proof. change 256 with (2 ^ 8). by rewrite <- Z.pow_mul_r by lia. Qed.

Section FromBytes.
Context (bytes rds : list Z) (m c : Z).
Hypothesis (Hok : bytes_ok rds) (Hlen : length rds = length bytes).
Hypothesis Hget : forall i, (i < length bytes)%nat ->
  bytes !! Z.to_nat (u64 (u64 (m * Z.of_nat i) + c)) = rds !! (length rds - 1 - i)%nat.

Lemma mp_from_bytes_loop_spec nw k i :
  (i + k)%nat = length bytes -> (length bytes <= nw * 8)%nat ->
  mp_from_bytes_loop k i bytes m c (mp_of nw (digits_val 256 (drop (length rds - i) rds)))
  = Some (mp_of nw (digits_val 256 rds)).
Proof using Hok Hlen Hget.
  revert i; induction k as [|k IH]; intros i Hi Hnw; cbn [mp_from_bytes_loop].
  { replace (length rds - i)%nat with 0%nat by lia. done. }
  rewrite Hget by lia.
  destruct (lookup_lt_is_Some_2 rds (length rds - 1 - i)) as [d Hd]; [lia|].
  rewrite Hd. cbn [mbind option_bind].
  pose proof (Forall_lookup_1 _ _ _ _ Hok Hd) as Hdb.
  assert (word_ok (8 * Z.of_nat i) (digits_val 256 (drop (length rds - i) rds))) as Hv.
  { unfold word_ok. rewrite pow_byte. replace (Z.of_nat i) with (len (drop (length rds - i) rds)).
    - apply digits_val_bound; [lia|]. by apply Forall_drop.
    - unfold len. rewrite length_drop. lia. }
  change (Z.to_nat BIGNUM_INT_BYTES) with 8%nat. change BIGNUM_INT_BYTES with (Z.of_nat 8).
  rewrite (or_into_spec 8 8) by (done || lia).
  rewrite pow_byte, <- digits_val_rev_snoc by (done || lia).
  replace (length rds - 1 - i)%nat with (length rds - S i)%nat by lia. apply IH; lia.
Qed.

Lemma mp_from_bytes_int_spec :
  len bytes < 2 ^ 63 ->
  mp_from_bytes_int bytes m c = Some (mp_of (byte_words (length bytes)) (digits_val 256 rds)).
Proof using Hok Hlen Hget.
  intros Hl. unfold mp_from_bytes_int. rewrite size_t_max_spec. change BIGNUM_INT_BYTES with 8.
  pose proof (len_nonneg bytes). rewrite wrap_id by (unfold word_ok; lia).
  assert (Z.to_nat ((len bytes + 8 - 1) / 8) = (length bytes + 7) / 8)%nat as ->.
  { unfold len. rewrite <- (Nat2Z.id ((length bytes + 7) / 8)), Nat2Z.inj_div, Nat2Z.inj_add.
    f_equal. f_equal. lia. }
  fold (byte_words (length bytes)).
  rewrite mp_make_sized_spec by apply byte_words_pos. cbn [mbind option_bind].
  rewrite <- (mp_from_bytes_loop_spec _ (length bytes) 0) by (apply byte_words_enough || lia).
  rewrite drop_ge by lia. done.
Qed.
End FromBytes.

Lemma mp_from_bytes_be_spec bytes :
  bytes_ok bytes -> len bytes < 2 ^ 63 ->
  mp_from_bytes_be bytes = Some (mp_of (byte_words (length bytes)) (be_val bytes)).
Proof.
  intros Hb Hl. apply mp_from_bytes_int_spec; try done. intros i Hi. f_equal.
  unfold len, wrap in *. rewrite Zplus_mod_idemp_l, Zplus_mod_idemp_r.
  change (-1 mod 2 ^ 64) with (2 ^ 64 - 1).
  replace ((2 ^ 64 - 1) * Z.of_nat i + (Z.of_nat (length bytes) - 1))
    with (Z.of_nat (length bytes) - 1 - Z.of_nat i + Z.of_nat i * 2 ^ 64) by ring.
  rewrite Z.mod_add, Z.mod_small; lia.
Qed.

Lemma mp_from_bytes_le_spec bytes :
  bytes_ok bytes -> len bytes < 2 ^ 63 ->
  mp_from_bytes_le bytes = Some (mp_of (byte_words (length bytes)) (be_val (reverse bytes))).
Proof.
  intros Hb Hl. apply mp_from_bytes_int_spec; try done; [by apply Forall_reverse|by rewrite length_reverse|].
  intros i Hi. rewrite length_reverse, reverse_lookup by lia.
  unfold len in Hl. rewrite Z.mul_1_l, Z.add_0_r, wrap_wrap, wrap_id by (unfold word_ok; lia). f_equal. lia.
Qed.

(** ** Reading text *)

Definition is_decimal (c : Z) : Prop := 48 <= c <= 57.
Definition is_hex (c : Z) : Prop := 48 <= c <= 57 \/ 97 <= c <= 102 \/ 65 <= c <= 70.
(** The value of a hexadecimal digit, by its ranges. *)
Definition hex_val (c : Z) : Z := if c <? 65 then c - 48 else if c <? 97 then c - 55 else c - 87.
Definition dec_val (c : Z) : Z := c - 48.

Lemma hex_digitval_spec c : is_hex c -> hex_digitval c = hex_val c /\ 0 <= hex_val c < 16.
Proof.
  intros Hc. assert (forallb (fun c => (hex_digitval c =? hex_val c) && (0 <=? hex_val c) && (hex_val c <? 16))
    (seqZ 48 10 ++ seqZ 97 6 ++ seqZ 65 6) = true) as H by by vm_compute.
  rewrite forallb_forall in H. specialize (H c).
  rewrite !in_app_iff, <- !list_elem_of_In, !elem_of_seqZ in H. unfold is_hex in Hc.
  specialize (H ltac:(lia)). bsimpl. lia.
Qed.

Definition hex_words (n : nat) : nat := Nat.max ((4 * n + 63) / 64) 1.

Lemma mp_from_hex_loop_spec hex nw k i :
  Forall is_hex hex -> (i + k)%nat = length hex -> (length hex <= nw * 16)%nat ->
  mp_from_hex_loop k i hex (mp_of nw (digits_val 16 (drop (length hex - i) (hex_val <$> hex))))
  = Some (mp_of nw (digits_val 16 (hex_val <$> hex))).
Proof.
  intros Hh. revert i; induction k as [|k IH]; intros i Hi Hnw; cbn [mp_from_hex_loop].
  { replace (length hex - i)%nat with 0%nat by lia. done. }
  destruct (lookup_lt_is_Some_2 hex (length hex - 1 - i)) as [d Hd]; [lia|].
  rewrite Hd. cbn [mbind option_bind]. pose proof (Forall_lookup_1 _ _ _ _ Hh Hd) as Hc.
  apply hex_digitval_spec in Hc as [-> Hr]. set (ds := hex_val <$> hex).
  assert (ds !! (length hex - 1 - i)%nat = Some (hex_val d)) as Hd' by (unfold ds; by rewrite list_lookup_fmap, Hd).
  assert (length ds = length hex) as Hlen by apply length_fmap. rewrite <- Hlen in *.
  assert (digits_ok 16 ds) as Hds.
  { apply Forall_fmap. eapply Forall_impl; [exact Hh|]. intros x. apply hex_digitval_spec. }
  assert (word_ok (4 * Z.of_nat i) (digits_val 16 (drop (length ds - i) ds))) as Hv.
  { unfold word_ok. rewrite Z.pow_mul_r by lia. replace (Z.of_nat i) with (len (drop (length ds - i) ds)).
    - apply digits_val_bound; [lia|]. by apply Forall_drop.
    - unfold len. rewrite length_drop. lia. }
  change (Z.to_nat BIGNUM_INT_BYTES * 2)%nat with 16%nat. change (BIGNUM_INT_BYTES * 2) with (Z.of_nat 16).
  rewrite (Z.mul_comm _ 4), (or_into_spec 4 16) by (done || lia).
  rewrite (Z.pow_mul_r 2 4) by lia. change (2 ^ 4) with 16. rewrite <- digits_val_rev_snoc by (done || lia).
  replace (length ds - 1 - i)%nat with (length ds - S i)%nat by lia. apply IH; lia.
Qed.

Lemma mp_from_hex_pl_spec hex :
  Forall is_hex hex -> len hex < 2 ^ 60 ->
  mp_from_hex_pl hex = Some (mp_of (hex_words (length hex)) (digits_val 16 (hex_val <$> hex))).
Proof.
  intros Hh Hl. unfold mp_from_hex_pl. pose proof (len_nonneg hex).
  rewrite (proj2 (Z.leb_le _ _)) by (unfold SIZE_MAX; zdivmod).
  rewrite size_t_max_spec. change BIGNUM_INT_BITS with 64. rewrite wrap_id by (unfold word_ok; lia).
  assert (Z.to_nat ((len hex * 4 + 64 - 1) / 64) = (4 * length hex + 63) / 64)%nat as ->.
  { unfold len. rewrite <- (Nat2Z.id ((4 * length hex + 63) / 64)), Nat2Z.inj_div, Nat2Z.inj_add.
    f_equal. f_equal. lia. }
  fold (hex_words (length hex)). rewrite mp_make_sized_spec by (unfold hex_words; lia). cbn [mbind option_bind].
  rewrite <- (mp_from_hex_loop_spec hex _ (length hex) 0); [|done|lia|].
  - rewrite drop_ge; [done|]. rewrite length_fmap. lia.
  - unfold hex_words. pose proof (Nat.div_mod_eq (4 * length hex + 63) 64).
    pose proof (Nat.mod_upper_bound (4 * length hex + 63) 64). lia.
Qed.

(** A rational bound on a logarithm, scaled. *)
Lemma pow_ratio a b p q n m :
  0 < a -> 1 < b -> 0 < p -> 0 <= q -> 0 <= n -> 0 <= m ->
  a ^ p <= b ^ q -> q * n <= p * m -> a ^ n <= b ^ m.
Proof.
  intros Ha Hb Hp Hq Hn Hm Hle Hr. apply Z.nlt_ge. intros Hlt.
  assert ((b ^ m) ^ p < (a ^ n) ^ p) as H.
  { apply Z.pow_lt_mono_l; [done|]. split; [apply Z.pow_nonneg; lia|done]. }
  rewrite <- !Z.pow_mul_r, (Z.mul_comm n), (Z.mul_comm m), (Z.pow_mul_r a) in H by lia.
  assert ((a ^ p) ^ n <= (b ^ q) ^ n) as H2.
  { apply Z.pow_le_mono_l. split; [apply Z.pow_nonneg; lia|done]. }
  rewrite <- (Z.pow_mul_r b) in H2 by lia.
  pose proof (Z.pow_le_mono_r b (q * n) (p * m) ltac:(lia) Hr). lia.
Qed.

Definition decimal_words (n : nat) : nat := Z.to_nat (196 * Z.of_nat n / 59 / 64 + 1).

Lemma decimal_words_enough n : 10 ^ Z.of_nat n <= wpow (decimal_words n).
Proof.
  rewrite wpow_pow2. unfold decimal_words. rewrite Z2Nat.id by zdivmod.
  apply (pow_ratio _ _ 59 196); zdivmod.
Qed.

Abbreviation decimal_val l := (digits_val 10 (dec_val <$> l)).

Lemma decimal_val_cons c l : decimal_val (c :: l) = dec_val c * 10 ^ len l + decimal_val l.
Proof.
  rewrite fmap_cons. change (?a :: ?k) with ([a] ++ k). rewrite digits_val_app, len_fmap. done.
Qed.

Lemma decimal_val_bound l : Forall is_decimal l -> 0 <= decimal_val l < 10 ^ len l.
Proof.
  intros H. rewrite <- (len_fmap dec_val). apply digits_val_bound; [lia|].
  apply Forall_fmap. eapply Forall_impl; [exact H|]. unfold is_decimal, dec_val. cbn. lia.
Qed.

Lemma mp_from_decimal_loop_spec nw l v :
  Forall is_decimal l -> l <> [] -> 0 <= v -> v * 10 ^ (len l - 1) + decimal_val l < wpow nw ->
  mp_from_decimal_loop l (mp_of nw v) = Some (mp_of nw (v * 10 ^ (len l - 1) + decimal_val l)).
Proof.
  revert v; induction l as [|c l IH]; intros v Hl Hne Hv Hlt; [done|].
  apply Forall_cons_iff in Hl as [Hc Hl]. pose proof (decimal_val_bound l Hl) as Hb.
  rewrite decimal_val_cons, len_cons in *. replace (1 + len l - 1) with (len l) in * by lia.
  assert (0 <= dec_val c < 10) as Hd by (unfold dec_val, is_decimal in *; lia).
  assert (u64 (schar c - 48) = dec_val c) as Hdig.
  { unfold schar. unfold is_decimal in Hc. rewrite (proj2 (Z.ltb_lt c 128)) by lia.
    apply wrap_id. unfold word_ok, dec_val in *. lia. }
  cbn [mp_from_decimal_loop]. rewrite Hdig, length_mp_of, mp_add_integer_into_spec
    by (auto with ssh; unfold word_ok; lia).
  assert (0 < 10 ^ len l) as Hp by (apply Z.pow_pos_nonneg; auto with ssh; lia).
  rewrite mp_val_small by (split; [done|nia]).
  destruct l as [|c' l].
  { rewrite len_nil, Z.pow_0_r. f_equal. f_equal. change (decimal_val []) with 0. ring. }
  set (k := c' :: l) in *. rewrite length_mp_of.
  assert (10 ^ len k = 10 * 10 ^ (len k - 1)) as Ep.
  { rewrite <- Z.pow_succ_r by (unfold k; rewrite len_cons; pose proof (len_nonneg l); lia). f_equal. lia. }
  assert (0 < 10 ^ (len k - 1)) by nia.
  assert ((v + dec_val c) * 10 < wpow nw) by (rewrite Ep in Hlt; nia).
  rewrite mp_mul_integer_into_spec by (auto with ssh; rewrite mp_val_small by lia; lia).
  rewrite mp_val_small, (proj2 (Z.ltb_lt _ _)) by lia. cbn [mbind option_bind].
  rewrite IH; [|done|done|lia|].
  - f_equal. f_equal. rewrite Ep. ring.
  - rewrite Ep in Hlt. lia.
Qed.

Lemma mp_from_decimal_pl_spec l :
  Forall is_decimal l -> len l < 2 ^ 56 ->
  mp_from_decimal_pl l = Some (mp_of (decimal_words (length l)) (decimal_val l)).
Proof.
  intros Hl Hs. unfold mp_from_decimal_pl. rewrite (proj2 (Z.ltb_lt _ _)) by (unfold SIZE_MAX; zdivmod).
  change BIGNUM_INT_BITS with 64. change (Z.to_nat _) with (decimal_words (length l)).
  assert (0 < decimal_words (length l))%nat by (unfold decimal_words; zdivmod).
  rewrite mp_make_sized_spec by done. cbn [mbind option_bind].
  destruct (decide (l = [])) as [->|]; [done|].
  rewrite mp_from_decimal_loop_spec; [by rewrite Z.mul_0_l|done|done|lia|].
  pose proof (decimal_val_bound l Hl). pose proof (decimal_words_enough (length l)). unfold len in *. lia.
Qed.

(** ** Trimming leading zeroes *)

Lemma trim_scan_spec buf maxtrim pos t :
  bytes_ok buf -> (pos <= t <= maxtrim)%nat -> (maxtrim < length buf)%nat -> len buf < 2 ^ 64 ->
  (forall j, (pos <= j < t)%nat -> nth j buf 0 = 48) -> ((t < maxtrim)%nat -> nth t buf 0 <> 48) ->
  exists t', trim_scan pos buf (Z.of_nat t) = Z.of_nat t' /\ (t' <= maxtrim)%nat
    /\ (forall j, (j < t')%nat -> nth j buf 0 = 48) /\ ((t' < maxtrim)%nat -> nth t' buf 0 <> 48).
Proof.
  intros Hb Ht Hm Hl. unfold len in Hl. revert t Ht. induction pos as [|pos IH]; intros t Ht H0 H1.
  { exists t. split; [done|]. split; [lia|]. split; [intros; apply H0; lia|done]. }
  cbn [trim_scan]. pose proof (nth_ok buf pos Hb) as Hc. set (c := nth pos buf 0) in *.
  assert (byte_ok (Z.lxor c 48)) as Hx by (apply lxor_ok; done || lia).
  rewrite (wrap_id 8) by done. pose proof (Z.lxor_eq c 48) as Heq.
  assert (u64 (Z.lnot (u64 (- (u64 (Z.lxor c 48 - 1) >> 63))))
          = if negb (Z.lxor c 48 =? 0) then ones64 else 0) as ->.
  { destruct (Z.eqb_spec (Z.lxor c 48) 0) as [->|]; [done|]. cbn [negb].
    destruct Hx as []. change (2 ^ 8) with 256 in *. rewrite (wrap_id 64 (Z.lxor c 48 - 1)) by (unfold word_ok; lia).
    rewrite shiftr_div by lia. rewrite Z.div_small by lia. done. }
  rewrite (Z.lxor_comm (Z.of_nat t) (Z.of_nat pos)), select_word by (unfold word_ok; lia).
  destruct (Z.eqb_spec (Z.lxor c 48) 0) as [E|E]; cbn [negb].
  - apply IH; [lia| |done]. intros j Hj. destruct (decide (j = pos)) as [->|]; [by apply Heq|apply H0; lia].
  - apply IH; [lia|lia|]. intros _ Hc48. apply E. subst c. by rewrite Hc48.
Qed.

Lemma nth_insert {A} (l : list A) i j x d :
  (i < length l)%nat -> nth j (<[i := x]> l) d = if decide (i = j) then x else nth j l d.
Proof.
  intros. rewrite !nth_lookup. case_decide as E.
  - subst. by rewrite list_lookup_insert_eq.
  - by rewrite list_lookup_insert_ne.
Qed.

Lemma xor_swap a b : byte_ok a -> byte_ok b ->
  Z.lxor a (Z.land 255 (Z.lxor a b)) = b /\ Z.lxor b (Z.land 255 (Z.lxor a b)) = a.
Proof.
  intros Ha Hb. rewrite Z.land_comm, land_255, Z.mod_small by (by apply (lxor_ok 8)).
  split; [by rewrite <- Z.lxor_assoc, Z.lxor_nilpotent, Z.lxor_0_l|].
  by rewrite (Z.lxor_comm a b), <- Z.lxor_assoc, Z.lxor_nilpotent, Z.lxor_0_l.
Qed.

Lemma trim_pass_keep k i d buf : (i + k + d <= length buf)%nat -> trim_pass k i d 0 buf = buf.
Proof.
  revert i; induction k as [|k IH]; intros i H; cbn [trim_pass]; [done|].
  rewrite Z.land_0_l, !Z.lxor_0_r.
  assert (forall j, (j < length buf)%nat -> <[j := nth j buf 0]> buf = buf) as Hid.
  { intros j Hj. apply list_insert_id. rewrite nth_lookup.
    by destruct (lookup_lt_is_Some_2 buf j Hj) as [x ->]. }
  rewrite !Hid by lia. apply IH. lia.
Qed.

(** A pass with the mask set moves everything [d] places down. *)
Lemma trim_pass_shift k i d buf :
  bytes_ok buf -> (0 < d)%nat -> (i + k + d)%nat = length buf ->
  let r := trim_pass k i d 255 buf in
  length r = length buf /\ bytes_ok r
  /\ (forall j, (j < i)%nat -> nth j r 0 = nth j buf 0)
  /\ (forall j, (i <= j < i + k)%nat -> nth j r 0 = nth (j + d) buf 0).
Proof.
  revert i buf; induction k as [|k IH]; intros i buf Hb Hd Hl; cbn [trim_pass].
  { split; [done|]. split; [done|]. split; [done|]. intros; lia. }
  pose proof (nth_ok buf i Hb). pose proof (nth_ok buf (i + d) Hb).
  rewrite nth_insert by lia. rewrite decide_False by lia.
  destruct (xor_swap (nth i buf 0) (nth (i + d) buf 0)) as [E1 E2]; [done..|]. rewrite E1, E2.
  set (buf1 := <[(i + d)%nat := _]> _).
  assert (length buf1 = length buf) as Hl1 by (unfold buf1; by rewrite !length_insert).
  assert (bytes_ok buf1) as Hb1 by (by apply Forall_insert; [apply Forall_insert|]).
  assert (forall j, nth j buf1 0 = if decide (i + d = j)%nat then nth i buf 0
                                   else if decide (i = j) then nth (i + d) buf 0 else nth j buf 0) as Hn.
  { intros j. unfold buf1. rewrite nth_insert by (rewrite length_insert; lia). case_decide; [done|].
    by rewrite nth_insert by lia. }
  destruct (IH (S i) buf1) as (R1&R2&R3&R4); [done|done|lia|].
  split; [lia|]. split; [done|]. split; intros j Hj.
  - rewrite R3, Hn, !decide_False by lia. done.
  - destruct (decide (j = i)) as [->|].
    + rewrite R3, Hn, decide_False, decide_True by lia. done.
    + rewrite R4, Hn, !decide_False by lia. done.
Qed.

Section TrimPasses.
Context (buf : list Z) (t : nat) (Hb : bytes_ok buf) (Ht : (t < length buf)%nat) (Hl : len buf < 2 ^ 64).

(** The buffer after the passes for the low [logd] bits of the shift count. *)
Definition shifted (logd : Z) (r : list Z) : Prop :=
  length r = length buf /\ bytes_ok r
  /\ forall j, Z.of_nat j + Z.of_nat t mod 2 ^ logd < len buf ->
       nth j r 0 = nth (Z.to_nat (Z.of_nat j + Z.of_nat t mod 2 ^ logd)) buf 0.

Lemma trim_passes_step logd r :
  0 <= logd < 64 -> shifted logd r -> len r >> logd <> 0 ->
  let d := Z.to_nat (u64 (1 << logd)) in
  shifted (logd + 1) (trim_pass (length r - d) 0 d (u8 (- u8 ((Z.of_nat t >> logd) .& 1))) r).
Proof using All.
  intros Hlog (L&B&N) Hne d. pose proof (pow2_pos logd ltac:(lia)) as Hp.
  assert (2 ^ logd < 2 ^ 64) by (apply Z.pow_lt_mono_r; lia).
  assert (Z.of_nat d = 2 ^ logd) as Ed.
  { unfold d. rewrite Z.shiftl_1_l, wrap_id by (unfold word_ok; lia). lia. }
  assert (2 ^ logd <= len r) as Hd.
  { rewrite shiftr_div in Hne by lia. apply Z.nlt_ge. intros Hlt. apply Hne, Z.div_small. pose proof (len_nonneg r). lia. }
  assert (Z.of_nat t mod 2 ^ (logd + 1) = Z.of_nat t mod 2 ^ logd + 2 ^ logd * (Z.of_nat t / 2 ^ logd mod 2)) as Em.
  { rewrite Z.pow_add_r, Z.pow_1_r, Z.rem_mul_r by lia. done. }
  pose proof (Z.mod_pos_bound (Z.of_nat t) (2 ^ logd) Hp). unfold len in *.
  rewrite shiftr_div, land_1 by lia. unfold shifted, len. rewrite Em.
  pose proof (Z.mod_pos_bound (Z.of_nat t / 2 ^ logd) 2 ltac:(lia)) as Hbit.
  destruct (Z.eq_dec (Z.of_nat t / 2 ^ logd mod 2) 0) as [E|E]; [rewrite E|replace (Z.of_nat t / 2 ^ logd mod 2) with 1 by lia].
  - change (u8 (- u8 0)) with 0. rewrite trim_pass_keep by lia. rewrite Z.mul_0_r, Z.add_0_r. done.
  - change (u8 (- u8 1)) with 255. rewrite Z.mul_1_r.
    destruct (trim_pass_shift (length r - d) 0 d r) as (R1&R2&_&R4); [done|lia|lia|].
    split; [lia|]. split; [done|]. intros j Hj. rewrite R4 by lia. rewrite N by lia. f_equal. lia.
Qed.

Lemma trim_passes_spec fuel logd r :
  0 <= logd -> Z.of_nat fuel + logd = 64 -> shifted logd r ->
  take (length buf - t) (trim_passes fuel logd (Z.of_nat t) r) = drop t buf.
Proof using All.
  revert logd r; induction fuel as [|fuel IH]; intros logd r Hlog Hf Hs.
  all: assert (len buf < 2 ^ logd -> take (length buf - t) r = drop t buf) as Hend.
  1,3: destruct Hs as (L&B&N); unfold len in *; intros Hlt;
    rewrite Z.mod_small in N by lia; apply (nth_ext _ _ 0 0);
    [rewrite length_take, length_drop; lia|];
    intros j Hj; rewrite length_take in Hj; rewrite !nth_lookup, lookup_take_lt, lookup_drop by lia;
    rewrite <- !nth_lookup; rewrite N by lia; f_equal; lia.
  - cbn [trim_passes]. apply Hend. replace logd with 64 by lia. done.
  - cbn [trim_passes]. destruct (Z.eqb_spec (len r >> logd) 0) as [E|E].
    + apply Hend. rewrite shiftr_div in E by lia. pose proof (len_nonneg r).
      pose proof (pow2_pos logd ltac:(lia)). apply Z.div_small_iff in E; [|lia].
      destruct Hs as (L&_&_). unfold len in *. lia.
    + apply IH; [lia|lia|]. by apply trim_passes_step; [lia|..].
Qed.
End TrimPasses.

Lemma c_string_app l rest : Forall (fun c => c <> 0) l -> c_string (l ++ 0 :: rest) = l.
Proof. induction 1 as [|c l Hc _ IH]; [done|]. cbn. by rewrite (proj2 (Z.eqb_neq c 0)), IH. Qed.

(** Only zeroes are dropped, as many as possible while a digit remains. *)
Lemma trim_leading_zeroes_spec l n :
  length l = S n -> bytes_ok l -> Forall (fun c => c <> 0) l -> len l < 2 ^ 64 - 1 ->
  exists z r, l = replicate z 48 ++ r /\ c_string (trim_leading_zeroes (l ++ [0]) n) = r
    /\ r <> [] /\ (hd 0 r = 48 -> length r = 1%nat).
Proof.
  intros Hn Hb Hz Hs. unfold trim_leading_zeroes. set (buf := l ++ [0]).
  assert (bytes_ok buf) as Hbb by (apply Forall_app_2; [done|by repeat constructor]).
  assert (length buf = S (S n)) as Hlb by (unfold buf; rewrite length_app; simpl; lia).
  assert (len buf < 2 ^ 64) by (unfold len in *; lia).
  destruct (trim_scan_spec buf n n n) as (t&->&Ht&H48&Hne); [done|lia|lia|done|lia|lia|].
  assert (forall j, (j <= n)%nat -> nth j buf 0 = nth j l 0) as Hnth.
  { intros j Hj. apply app_nth1. lia. }
  set (r := trim_passes _ _ _ _). exists t, (drop t l). split; [|split; [|split]].
  - rewrite <- (take_drop t l) at 1. f_equal. apply (nth_ext _ _ 0 0).
    { rewrite length_take, length_replicate. lia. }
    intros j Hj. rewrite length_take in Hj. rewrite nth_lookup, lookup_take_lt, <- nth_lookup by lia.
    rewrite <- Hnth, H48 by lia.
    rewrite nth_lookup, lookup_replicate_2 by lia. done.
  - assert (take (length buf - t) r = drop t buf) as E.
    { apply trim_passes_spec; try done; [lia|]. split; [done|]. split; [done|].
      intros j Hj. rewrite Z.mod_1_r, Z.add_0_r, Nat2Z.id. done. }
    rewrite <- (take_drop (length buf - t) r), E. unfold buf. rewrite drop_app_le by lia.
    rewrite <- app_assoc. apply c_string_app. by apply Forall_drop.
  - intros E. apply (f_equal length) in E. rewrite length_drop in E. simpl in E. lia.
  - intros E. rewrite length_drop. destruct (Nat.lt_ge_cases t n); [|lia]. exfalso. apply Hne; [done|].
    rewrite Hnth by lia. rewrite <- E. rewrite <- (Nat.add_0_r t) at 1. rewrite nth_lookup, <- lookup_drop.
    by destruct (drop t l).
Qed.

(** ** The residue modulo 10 *)

Definition byte_at (w j : Z) : Z := w / 2 ^ (8 * j) mod 256.

Lemma byte_at_range w j : 0 <= byte_at w j < 256.
Proof. apply Z.mod_pos_bound. lia. Qed.

Lemma residue_byte_spec w low maxval mult j :
  0 <= j -> 0 <= low -> 0 <= maxval -> 0 <= mult <= 6 -> low + 1530 < 2 ^ 32 -> maxval + 1530 < 2 ^ 32 ->
  residue_byte w (low, maxval, mult) j = (low + mult * byte_at w j, maxval + mult * 255, 6).
Proof.
  intros. unfold residue_byte. rewrite Z.land_comm, land_255, shiftr_div by lia. fold (byte_at w j).
  pose proof (byte_at_range w j). assert (0 <= mult * byte_at w j <= 1530) by nia.
  by rewrite (wrap_id 32 (mult * 255)), !wrap_id by (unfold word_ok; lia).
Qed.

(** The sum of the bytes above the lowest. *)
Definition high_bytes (w : Z) : Z :=
  byte_at w 1 + byte_at w 2 + byte_at w 3 + byte_at w 4 + byte_at w 5 + byte_at w 6 + byte_at w 7.

Lemma high_bytes_range w : 0 <= high_bytes w <= 1785.
Proof.
  unfold high_bytes. pose proof (byte_at_range w 1). pose proof (byte_at_range w 2).
  pose proof (byte_at_range w 3). pose proof (byte_at_range w 4). pose proof (byte_at_range w 5).
  pose proof (byte_at_range w 6). pose proof (byte_at_range w 7). lia.
Qed.

Lemma residue_bytes_spec w low maxval mult :
  0 <= low -> 0 <= maxval -> 0 <= mult <= 6 -> low + 12240 < 2 ^ 32 -> maxval + 12240 < 2 ^ 32 ->
  fold_left (residue_byte w) [0; 1; 2; 3; 4; 5; 6; 7] (low, maxval, mult)
  = (low + mult * byte_at w 0 + 6 * high_bytes w, maxval + mult * 255 + 10710, 6).
Proof.
  intros. cbn [fold_left]. pose proof (byte_at_range w 0). pose proof (byte_at_range w 1).
  pose proof (byte_at_range w 2). pose proof (byte_at_range w 3). pose proof (byte_at_range w 4).
  pose proof (byte_at_range w 5). pose proof (byte_at_range w 6).
  assert (0 <= mult * byte_at w 0 <= 1530) by nia.
  rewrite !residue_byte_spec by lia. unfold high_bytes. f_equal. f_equal; lia.
Qed.

Lemma byte_step w j k : 0 <= j -> j + 1 = k -> w / 2 ^ (8 * j) = byte_at w j + 256 * (w / 2 ^ (8 * k)).
Proof.
  intros Hj <-. unfold byte_at. replace (8 * (j + 1)) with (8 * j + 8) by lia.
  pose proof (pow2_pos (8 * j) ltac:(lia)).
  rewrite Z.pow_add_r, <- Z.div_div by lia. change (2 ^ 8) with 256. pose proof (Z.div_mod (w / 2 ^ (8 * j)) 256). lia.
Qed.

(** 256 is 6 modulo 10, and so are all its powers. *)
Lemma word_mod_10 w : word_ok 64 w -> byte_at w 0 + 6 * high_bytes w == w {mod 10}.
Proof.
  intros Hw. pose proof (byte_step w 0 1 ltac:(lia) eq_refl) as H0. rewrite Z.div_1_r in H0.
  pose proof (byte_step w 1 2 ltac:(lia) eq_refl). pose proof (byte_step w 2 3 ltac:(lia) eq_refl).
  pose proof (byte_step w 3 4 ltac:(lia) eq_refl). pose proof (byte_step w 4 5 ltac:(lia) eq_refl).
  pose proof (byte_step w 5 6 ltac:(lia) eq_refl). pose proof (byte_step w 6 7 ltac:(lia) eq_refl).
  pose proof (byte_step w 7 8 ltac:(lia) eq_refl).
  assert (w / 2 ^ (8 * 8) = 0) by (apply Z.div_small; exact Hw).
  exists (- (25 * byte_at w 1 + 6553 * byte_at w 2 + 1677721 * byte_at w 3 + 429496729 * byte_at w 4 + 109951162777 * byte_at w 5 + 28147497671065 * byte_at w 6 + 7205759403792793 * byte_at w 7)).
  unfold high_bytes. lia.
Qed.

(** *** The accumulators over all the words

    [maxval] does not depend on the number.  It reaches the folding threshold at
    word 350,896 and, starting again from 457,215, does not reach it a second time
    before word 700,000. *)

Definition residue_inv (n v : Z) (s : Z * Z * Z) : Prop :=
  let '(low, maxval, mult) := s in
  mult = 6 /\ low == v {mod 10} /\ 0 <= low /\
  ((n <= 350895 /\ maxval = 10965 + 12240 * (n - 1) /\ low <= maxval)
   \/ (350896 <= n /\ maxval = 457215 + 12240 * (n - 350896) /\ low <= 458745 + 12240 * (n - 350896))).

Lemma residue_fold_spec v :
  word_ok 32 v -> residue_fold v == v {mod 10} /\ 0 <= residue_fold v <= 458745.
Proof.
  intros [H0 H1]. unfold residue_fold. change 65535 with (2 ^ 16 - 1). rewrite (land_mask v 16), shiftr_div by lia.
  pose proof (Z.div_mod v (2 ^ 16) ltac:(lia)) as E. pose proof (Z.mod_pos_bound v (2 ^ 16) ltac:(lia)).
  assert (0 <= v / 2 ^ 16 < 65536) by (split; [apply Z.div_pos|apply Z.div_lt_upper_bound]; lia).
  pow_norm. rewrite (wrap_id 32 (6 * _)), wrap_id by (unfold word_ok; lia).
  split; [|lia]. exists (- (6553 * (v / 65536))). lia.
Qed.

Lemma residue_first w :
  word_ok 64 w -> residue_inv 1 w (residue_word (0, 0, 1) w).
Proof.
  intros Hw. unfold residue_word. rewrite residue_bytes_spec by lia.
  pose proof (word_mod_10 w Hw). pose proof (byte_at_range w 0). pose proof (high_bytes_range w).
  change ((2 ^ 32 - 1) - 6 * 255 * BIGNUM_INT_BYTES) with 4294955055.
  rewrite (proj2 (Z.ltb_ge _ _)) by lia. rewrite Z.mul_1_l, Z.add_0_l.
  split; [done|]. split; [done|]. split; lia.
Qed.

Lemma residue_next n v s w :
  1 <= n < 700000 -> word_ok 64 w -> residue_inv n v s ->
  residue_inv (n + 1) (v + 6 * w) (residue_word s w).
Proof.
  intros Hn Hw Hs. destruct s as [[low maxval] mult]. destruct Hs as (->&Hc&H0&Hcase).
  unfold residue_word. rewrite residue_bytes_spec by lia.
  pose proof (byte_at_range w 0). pose proof (high_bytes_range w).
  assert (low + 6 * byte_at w 0 + 6 * high_bytes w == v + 6 * w {mod 10}) as Hcong.
  { destruct Hc as [k Ek], (word_mod_10 w Hw) as [m Em]. exists (k + 6 * m - 3 * high_bytes w). lia. }
  change ((2 ^ 32 - 1) - 6 * 255 * BIGNUM_INT_BYTES) with 4294955055.
  set (low' := low + 6 * byte_at w 0 + 6 * high_bytes w) in *.
  assert (low <= low' <= low + 12240) by lia. clearbody low'.
  destruct (Z.ltb_spec 4294955055 (maxval + 6 * 255 + 10710)).
  - assert (n = 350895) as -> by lia. assert (maxval + 6 * 255 + 10710 = 4294965765) as -> by lia.
    destruct (residue_fold_spec low') as [Hf Hr]; [unfold word_ok; lia|].
    change (residue_fold 4294965765) with 457215. unfold residue_inv.
    split; [done|]. split; [by rewrite Hf|]. split; [lia|]. right. lia.
  - unfold residue_inv. split; [done|]. split; [done|]. split; [lia|]. lia.
Qed.

Lemma residue_words x n v s :
  mp_ok x -> 1 <= n -> n + len x <= 700000 -> residue_inv n v s ->
  exists v', residue_inv (n + len x) v' (fold_left residue_word x s) /\ v' == v + 6 * mp_val x {mod 10}.
Proof.
  intros Hx. revert n v s; induction Hx as [|w x Hw Hx IH]; intros n v s Hn Hl Hs.
  { exists v. rewrite len_nil, Z.add_0_r. split; [done|]. by rewrite Z.add_0_r. }
  rewrite len_cons in *. pose proof (len_nonneg x). cbn [fold_left].
  destruct (IH (n + 1) (v + 6 * w) (residue_word s w)) as (v'&Hi&Hc); [lia|lia|by apply residue_next; [lia|..]|].
  exists v'. rewrite Z.add_assoc. split; [done|]. rewrite Hc. cbn [mp_val].
  exists (- (3 * (ones64 / 5)) * mp_val x). unfold WB. change (ones64 / 5) with 3689348814741910323. lia.
Qed.

(** The multiplication by [0x19999999] leaves a remainder below 16. *)
Lemma reduce_10 v :
  word_ok 32 v ->
  let r := u32 (v - u64 (10 * (u64 (429496729 * v) >> 32))) in
  u32 (r - u32 (10 * (u32 (r + 6) >> 4))) = v mod 10.
Proof.
  intros [H0 H1] r. subst r. pow_norm.
  rewrite (wrap_id 64 (429496729 * v)), shiftr_div by (unfold word_ok; lia). pow_norm.
  set (q := 429496729 * v / 4294967296).
  assert (4294967296 * q <= 429496729 * v < 4294967296 * q + 4294967296) by (unfold q; zdivmod).
  assert (0 <= q) by (unfold q; apply Z.div_pos; lia). clearbody q.
  rewrite (wrap_id 64 (10 * q)), (wrap_id 32 (v - 10 * q)) by (unfold word_ok; lia).
  rewrite (wrap_id 32 (v - 10 * q + 6)), shiftr_div by (unfold word_ok; lia). change (2 ^ 4) with 16.
  apply (Z.mod_unique _ _ (q + (v - 10 * q + 6) / 16)).
  - left. assert (0 <= (v - 10 * q + 6) / 16 <= 1) by zdivmod.
    rewrite (wrap_id 32 (10 * _)), wrap_id by (unfold word_ok; zdivmod). zdivmod.
  - assert (0 <= (v - 10 * q + 6) / 16 <= 1) by zdivmod.
    rewrite (wrap_id 32 (10 * _)), wrap_id by (unfold word_ok; zdivmod). lia.
Qed.

Lemma low_digit_of_spec x :
  mp_ok x -> (0 < length x)%nat -> len x <= 700000 -> low_digit_of x = mp_val x mod 10.
Proof.
  intros Hx Hl Hn. destruct Hx as [|w x Hw Hx]; [simpl in Hl; lia|]. rewrite len_cons in Hn.
  unfold low_digit_of. cbn [fold_left].
  destruct (residue_words x 1 w (residue_word (0, 0, 1) w)) as (v'&Hi&Hc); [done|lia|lia|by apply residue_first|].
  destruct (fold_left residue_word x _) as [[low maxval] mult]. destruct Hi as (_&Hlow&H0&Hcase).
  rewrite reduce_10 by (unfold word_ok; lia). apply cong_iff; [lia|].
  rewrite Hlow, Hc. cbn [mp_val]. exists (- (ones64 / 10) * mp_val x).
  unfold WB. change (ones64 / 10) with 1844674407370955161. lia.
Qed.

Definition inv5_word : Z := ones64 / 5 * 4.

Lemma inv5_words n : 5 * mp_val (replicate n inv5_word) = 4 * (wpow n - 1).
Proof.
  induction n as [|n IH]; [done|]. cbn [replicate mp_val]. rewrite wpow_S.
  change inv5_word with 14757395258967641292 at 1. unfold WB in *. lia.
Qed.

Lemma make_inv5_spec n :
  exists inv5, make_inv5 (S n) = Some inv5 /\ mp_ok inv5 /\ length inv5 = S n
    /\ 5 * mp_val inv5 = 4 * wpow (S n) + 1.
Proof.
  exists ((inv5_word + 1) :: replicate n inv5_word). split.
  { unfold make_inv5. rewrite mp_make_sized_spec by lia. cbn [mbind option_bind].
    rewrite mp_of_0, fmap_replicate. done. }
  split; [constructor; [done|by apply Forall_replicate]|]. split; [cbn; by rewrite length_replicate|].
  cbn [mp_val]. pose proof (inv5_words n). rewrite wpow_S.
  change inv5_word with 14757395258967641292 at 1. unfold WB in *. lia.
Qed.

(** Dividing by 10: drop the digit, halve, multiply by the inverse of 5. *)
Lemma divide_by_10 n inv5 v :
  5 * mp_val inv5 = 4 * wpow n + 1 -> 0 <= v < wpow n ->
  mp_of n ((v - v mod 10) / 2 * mp_val inv5) = mp_of n (v / 10).
Proof.
  intros Hi Hv. apply mp_of_eq, cong_iff; [pose proof (wpow_pos n); lia|].
  assert ((v - v mod 10) / 2 = 5 * (v / 10)) as ->.
  { replace (v - v mod 10) with (5 * (v / 10) * 2) by zdivmod. by rewrite Z.div_mul. }
  exists (4 * (v / 10)). nia.
Qed.

Lemma mp_get_decimal_loop_spec n inv5 pos v out :
  mp_ok inv5 -> 5 * mp_val inv5 = 4 * wpow n + 1 -> (0 < n)%nat -> Z.of_nat n <= 700000 -> 0 <= v < wpow n ->
  mp_get_decimal_loop pos inv5 (mp_of n v) out = Some ((Z.add 48 <$> digits 10 pos v) ++ out).
Proof.
  intros Hok Hi Hn Hb. revert v out; induction pos as [|pos IH]; intros v out Hv; cbn [mp_get_decimal_loop]; [done|].
  rewrite low_digit_of_spec by (auto with ssh; rewrite ?length_mp_of; unfold len; rewrite ?length_mp_of; lia).
  rewrite mp_val_small by done. pose proof (Z.mod_pos_bound v 10 ltac:(lia)) as Hd.
  rewrite (proj2 (Z.ltb_lt _ _)) by lia. rewrite !length_mp_of.
  rewrite mp_sub_integer_into_spec by (auto with ssh; unfold word_ok; lia). rewrite mp_val_small by done.
  assert (0 <= v - v mod 10 < wpow n) as Hv' by zdivmod.
  rewrite !length_mp_of, mp_rshift_fixed_into_spec by (auto with ssh; lia).
  rewrite (mp_val_small n (v - v mod 10)) by done. change (2 ^ 1) with 2.
  rewrite mp_mul_into_spec by (auto with ssh; rewrite ?length_mp_of; done).
  cbn [mbind option_bind]. assert (0 <= (v - v mod 10) / 2 < wpow n) by zdivmod.
  rewrite mp_val_small, divide_by_10 by done. rewrite IH by zdivmod.
  cbn [digits]. rewrite fmap_app, <- app_assoc. cbn [fmap list_fmap app].
  rewrite wrap_id by (unfold word_ok; lia). done.
Qed.

(** ** Writing text *)

(** The text of a number: no superfluous leading zero. *)
Definition canonical (l : list Z) : Prop := l <> [] /\ (hd 0 l = 48 -> length l = 1%nat).

Lemma digits_val_zeros b z l : digits_val b (replicate z 0 ++ l) = digits_val b l.
Proof.
  rewrite digits_val_app. replace (digits_val b (replicate z 0)) with 0; [lia|].
  induction z as [|z IH]; [done|]. rewrite replicate_S_end, digits_val_snoc, <- IH. lia.
Qed.

(** Digits written as characters and trimmed keep their value. *)
Lemma trimmed_digits b (val enc : Z -> Z) n v :
  1 < b -> (forall d, 0 <= d < b -> val (enc d) = d /\ 0 < enc d < 256) -> val 48 = 0 ->
  Z.of_nat n < 2 ^ 64 - 2 -> 0 <= v < b ^ Z.of_nat (S n) ->
  let r := c_string (trim_leading_zeroes ((enc <$> digits b (S n) v) ++ [0]) n) in
  canonical r /\ digits_val b (val <$> r) = v
  /\ exists z, enc <$> digits b (S n) v = replicate z 48 ++ r.
Proof.
  intros Hb Henc H48 Hn Hv. set (l := enc <$> digits b (S n) v).
  pose proof (digits_range b Hb (S n) v) as Hr.
  assert (length l = S n) as Hl by (unfold l; by rewrite length_fmap, length_digits).
  assert (Forall (fun c => 0 < c < 256) l) as Hl'.
  { apply Forall_fmap. eapply Forall_impl; [exact Hr|]. intros d Hd. by apply Henc. }
  destruct (trim_leading_zeroes_spec l n) as (z&r&E&->&Hne&Hhd); [done| | |unfold len; lia|].
  1,2: eapply Forall_impl; [exact Hl'|]; cbn; unfold word_ok; lia.
  split; [done|]. split; [|by exists z].
  assert (val <$> l = digits b (S n) v) as Ev.
  { unfold l. rewrite <- list_fmap_compose. rewrite <- (list_fmap_id (digits b (S n) v)) at 2.
    apply list_fmap_ext. intros i d Hd. apply Henc. by apply (Forall_lookup_1 _ _ i d Hr). }
  rewrite E, fmap_app, fmap_replicate, H48 in Ev.
  rewrite <- (digits_val_zeros b z), Ev, digits_val_digits by done. by apply Z.mod_small.
Qed.

Lemma decimal_digits_enough nw : wpow nw <= 10 ^ Z.of_nat (decimal_bufsize nw - 1).
Proof.
  rewrite wpow_pow2. unfold decimal_bufsize. rewrite size_t_max_spec. change (146 * BIGNUM_INT_BITS) with 9344.
  apply (pow_ratio _ _ 485 146); try lia; zdivmod.
Qed.

Lemma mp_get_decimal_spec x :
  mp_ok x -> (0 < length x)%nat -> len x <= 700000 ->
  exists buf, mp_get_decimal x = Some buf
    /\ canonical (c_string buf) /\ Forall is_decimal (c_string buf)
    /\ decimal_val (c_string buf) = mp_val x /\ len (c_string buf) < 2 ^ 56.
Proof.
  intros Hx Hl Hn. unfold mp_get_decimal. rewrite mp_copy_spec by done. cbn [mbind option_bind].
  set (nw := length x) in *. destruct (make_inv5_spec (nw - 1)) as (inv5&E&Hok&Hli&Hi).
  replace (S (nw - 1)) with nw in * by lia. rewrite E. cbn [mbind option_bind].
  rewrite (proj2 (Z.ltb_lt _ _)) by (unfold SIZE_MAX; change (146 * BIGNUM_INT_BITS) with 9344; zdivmod).
  pose proof (mp_val_bound x Hx) as Hv. fold nw in Hv.
  assert (exists m, decimal_bufsize nw = S (S m) /\ Z.of_nat m < 2 ^ 40) as (m&Em&Hm).
  { unfold decimal_bufsize, len in *. rewrite size_t_max_spec. change (146 * BIGNUM_INT_BITS) with 9344.
    eexists. split; [by rewrite (Nat.add_comm _ 2)|]. fold nw in Hn. zdivmod. }
  pose proof (decimal_digits_enough nw) as Hd. rewrite Em in *.
  replace (S (S m) - 1)%nat with (S m) in * by lia. replace (S (S m) - 2)%nat with m by lia.
  pose proof (mp_get_decimal_loop_spec nw inv5 (S m) (mp_val x) [0] Hok Hi Hl Hn Hv) as El.
  unfold nw in El. rewrite mp_of_val in El by done. rewrite El. cbn [mbind option_bind]. clear El.
  eexists. split; [done|].
  destruct (trimmed_digits 10 dec_val (Z.add 48) m (mp_val x)) as (Hc&Hval&z&Ez);
    [lia|unfold dec_val; lia|done|lia|lia|].
  assert (Forall is_decimal (Z.add 48 <$> digits 10 (S m) (mp_val x))) as Hdec.
  { apply Forall_fmap. eapply Forall_impl; [apply digits_range; lia|]. unfold is_decimal. cbn. lia. }
  apply (f_equal len) in Ez as El. rewrite Ez in Hdec. apply Forall_app in Hdec as [_ Hdec].
  split; [done|]. split; [done|]. split; [done|].
  rewrite len_fmap, len_digits, len_app in El. pose proof (len_nonneg (replicate z 48)). lia.
Qed.

Definition hexchar (letter_offset d : Z) : Z :=
  u8 (d + 48 + (letter_offset .& u8 (- ((d + 6) >> 4)))).

Lemma hexchar_spec off d :
  off = 39 \/ off = 7 -> 0 <= d < 16 ->
  hex_val (hexchar off d) = d /\ 0 < hexchar off d < 256 /\ is_hex (hexchar off d).
Proof.
  intros Ho Hd. assert (forallb (fun off => forallb (fun d => let c := hexchar off d in
    (hex_val c =? d) && (((48 <=? c) && (c <=? 57)) || ((97 <=? c) && (c <=? 102)) || ((65 <=? c) && (c <=? 70))))
    (seqZ 0 16)) [39; 7] = true) as H by by vm_compute.
  rewrite forallb_forall in H. specialize (H off ltac:(cbn; lia)). rewrite forallb_forall in H.
  specialize (H d). rewrite <- list_elem_of_In, elem_of_seqZ in H. specialize (H ltac:(lia)).
  unfold is_hex. rewrite !andb_true_iff, !orb_true_iff, !andb_true_iff, !Z.leb_le, Z.eqb_eq in H. lia.
Qed.

Lemma nibble_spec x i :
  mp_ok x ->
  15 .& (mp_word x (i / 16) >> (Z.of_nat i mod 16 * 4)) = mp_val x / 16 ^ Z.of_nat i mod 16.
Proof.
  intros Hx. rewrite Z.land_comm. change 15 with (2 ^ 4 - 1). rewrite land_mask by lia.
  change (16 ^ Z.of_nat i) with ((2 ^ 4) ^ Z.of_nat i). rewrite <- Z.pow_mul_r by lia.
  change (?a = ?b mod 16) with (a = b mod 2 ^ 4).
  apply Z.bits_inj'. intros k Hk. destruct (Z.lt_ge_cases k 4); [|by rewrite !Z.mod_pow2_bits_high by lia].
  assert (Z.of_nat (i / 16) = Z.of_nat i / 16) as Eq by by rewrite Nat2Z.inj_div.
  rewrite !Z.mod_pow2_bits_low, Z.div_pow2_bits by lia.
  rewrite Z.shiftr_spec, mp_word_bits by (try done; zdivmod).
  rewrite (proj2 (Z.ltb_lt _ 64)) by zdivmod. cbn [andb]. f_equal. zdivmod.
Qed.

Lemma mp_get_hex_loop_spec x off k i out :
  mp_ok x ->
  mp_get_hex_loop k i x off out = (hexchar off <$> digits 16 k (mp_val x / 16 ^ Z.of_nat i)) ++ out.
Proof.
  intros Hx. revert i out; induction k as [|k IH]; intros i out; cbn [mp_get_hex_loop]; [done|].
  change (Z.to_nat BIGNUM_INT_BYTES * 2)%nat with 16%nat. change (BIGNUM_INT_BYTES * 2) with 16.
  rewrite nibble_spec by done. rewrite IH. cbn [digits]. rewrite fmap_app, <- app_assoc.
  rewrite Nat2Z.inj_succ, Z.pow_succ_r, (Z.mul_comm 16), <- Z.div_div by (try apply Z.pow_pos_nonneg; lia). done.
Qed.

Lemma mp_get_hex_internal_spec x off :
  mp_ok x -> (0 < length x)%nat -> len x < 2 ^ 56 -> off = 39 \/ off = 7 ->
  let r := c_string (mp_get_hex_internal x off) in
  canonical r /\ Forall is_hex r /\ digits_val 16 (hex_val <$> r) = mp_val x /\ len r < 2 ^ 60.
Proof.
  intros Hx Hl Hn Hoff. unfold mp_get_hex_internal. change (Z.to_nat BIGNUM_INT_BYTES) with 8%nat.
  rewrite mp_get_hex_loop_spec by done. rewrite Z.pow_0_r, Z.div_1_r.
  set (m := (length x * 8 * 2 - 1)%nat). replace (length x * 8 * 2)%nat with (S m) by lia. unfold len in Hn.
  pose proof (mp_val_bound x Hx) as Hv.
  assert (wpow (length x) = 16 ^ Z.of_nat (S m)) as Ew.
  { rewrite wpow_pow2. change 16 with (2 ^ 4). rewrite <- Z.pow_mul_r by lia. f_equal. lia. }
  destruct (trimmed_digits 16 hex_val (hexchar off) m (mp_val x)) as (Hc&Hval&z&Ez);
    [lia| |done|lia|lia|].
  { intros d Hd. by destruct (hexchar_spec off d Hoff Hd) as (?&?&_). }
  assert (Forall is_hex (hexchar off <$> digits 16 (S m) (mp_val x))) as Hdec.
  { apply Forall_fmap. eapply Forall_impl; [apply digits_range; lia|]. intros d Hd. by apply hexchar_spec. }
  apply (f_equal len) in Ez as El. rewrite Ez in Hdec. apply Forall_app in Hdec as [_ Hdec].
  split; [done|]. split; [done|]. split; [done|].
  rewrite len_fmap, len_digits, len_app in El. pose proof (len_nonneg (replicate z 48)). lia.
Qed.

Lemma is_decimal_nonzero l : Forall is_decimal l -> Forall (fun c => c <> 0) l.
Proof. intros H. eapply Forall_impl; [exact H|]. unfold is_decimal. cbn. lia. Qed.

Lemma is_hex_nonzero l : Forall is_hex l -> Forall (fun c => c <> 0) l.
Proof. intros H. eapply Forall_impl; [exact H|]. unfold is_hex. cbn. lia. Qed.

Lemma hex_words_enough n : 16 ^ Z.of_nat n <= wpow (hex_words n).
Proof.
  rewrite wpow_pow2. change 16 with (2 ^ 4). rewrite <- Z.pow_mul_r by lia. apply Z.pow_le_mono_r; [lia|].
  unfold hex_words. pose proof (Nat.div_mod_eq (4 * n + 63) 64). pose proof (Nat.mod_upper_bound (4 * n + 63) 64). lia.
Qed.

Lemma decimal_reads_back l :
  Forall is_decimal l -> len l < 2 ^ 56 ->
  exists y, mp_from_decimal (l ++ [0]) = Some y /\ mp_val y = decimal_val l.
Proof.
  intros Hd Hs. unfold mp_from_decimal. rewrite c_string_app by (by apply is_decimal_nonzero).
  rewrite mp_from_decimal_pl_spec by done. eexists. split; [done|].
  apply mp_val_small. pose proof (decimal_val_bound _ Hd).
  pose proof (decimal_words_enough (length l)). unfold len in *. lia.
Qed.

Lemma hex_reads_back l :
  Forall is_hex l -> len l < 2 ^ 60 ->
  exists y, mp_from_hex (l ++ [0]) = Some y /\ mp_val y = digits_val 16 (hex_val <$> l).
Proof.
  intros Hd Hs. unfold mp_from_hex. rewrite c_string_app by (by apply is_hex_nonzero).
  rewrite mp_from_hex_pl_spec by done. eexists. split; [done|].
  apply mp_val_small. pose proof (hex_words_enough (length l)).
  assert (digits_ok 16 (hex_val <$> l)) as Hok.
  { apply Forall_fmap. eapply Forall_impl; [exact Hd|]. intros c Hc'. by apply hex_digitval_spec. }
  pose proof (digits_val_bound 16 ltac:(lia) _ Hok) as Hb. rewrite len_fmap in Hb. unfold len in *. lia.
Qed.

Lemma mp_get_hex_both x get :
  get = mp_get_hex \/ get = mp_get_hex_uppercase ->
  exists off, get x = mp_get_hex_internal x off /\ (off = 39 \/ off = 7).
Proof.
  intros [-> | ->]; [exists 39|exists 7]; (split; [|lia]); unfold mp_get_hex, mp_get_hex_uppercase; f_equal.
Qed.

(** C33. Numbers survive a trip through text.  For every number of up to 700,000 words
    [mp_get_decimal] passes its assertions and yields a string of decimal digits
    without superfluous leading zeroes whose value is the number, and
    [mp_from_decimal] of that string gives the number back; [mp_get_hex] and
    [mp_get_hex_uppercase] do the same in base 16 with [mp_from_hex]. *)
Theorem mp_text_roundtrip (x : mp_int) :
  mp_ok x -> (0 < length x)%nat -> len x <= 700000 ->
  (exists buf y, mp_get_decimal x = Some buf
     /\ canonical (c_string buf) /\ Forall is_decimal (c_string buf) /\ decimal_val (c_string buf) = mp_val x
     /\ mp_from_decimal (c_string buf ++ [0]) = Some y /\ mp_val y = mp_val x)
  /\ forall get, get = mp_get_hex \/ get = mp_get_hex_uppercase ->
     exists y, canonical (c_string (get x)) /\ Forall is_hex (c_string (get x))
     /\ mp_from_hex (c_string (get x) ++ [0]) = Some y /\ mp_val y = mp_val x.
Proof.
  intros Hx Hl Hn. split.
  - destruct (mp_get_decimal_spec x) as (buf&E&Hc&Hd&Hv&Hs); [done..|].
    destruct (decimal_reads_back (c_string buf)) as (y&Hy&Hvy); [done..|].
    exists buf, y. split_and!; try done. by rewrite Hvy.
  - intros get Hget. destruct (mp_get_hex_both x get Hget) as (off&->&Hoff).
    destruct (mp_get_hex_internal_spec x off) as (Hc&Hd&Hv&Hs); [done|done|lia|done|].
    destruct (hex_reads_back _ Hd Hs) as (y&Hy&Hvy).
    exists y. split_and!; try done. by rewrite Hvy.
Qed.

Lemma mp_text_roundtrip_witness :
  exists buf y, mp_get_decimal [2 ^ 64 - 1; 7] = Some buf
     /\ mp_from_decimal (c_string buf ++ [0]) = Some y /\ mp_val y = 2 ^ 67 - 1.
Proof.
  destruct (mp_text_roundtrip [2 ^ 64 - 1; 7]) as [(buf&y&H1&_&_&_&H2&H3) _].
  - repeat constructor; done.
  - cbn; lia.
  - done.
  - exists buf, y. split; [exact H1|]. split; [exact H2|]. rewrite H3. reflexivity.
Defined.

(** ** The wire formats *)

Definition nbits (v : Z) : Z := if v =? 0 then 0 else Z.log2 v + 1.

Lemma nbits_bound v : 0 <= v -> 0 <= nbits v /\ v < 2 ^ nbits v /\ (v <> 0 -> 2 ^ (nbits v - 1) <= v).
Proof.
  intros Hv. unfold nbits. destruct (Z.eqb_spec v 0) as [->|]; [done|].
  pose proof (Z.log2_nonneg v). pose proof (Z.log2_spec v ltac:(lia)) as [H1 H2].
  replace (Z.log2 v + 1 - 1) with (Z.log2 v) by lia. rewrite Z.add_1_r. lia.
Qed.

Lemma nbits_le v n : 0 <= n -> 0 <= v < 2 ^ n -> nbits v <= n.
Proof.
  intros Hn Hv. pose proof (nbits_bound v ltac:(lia)) as (H0&_&H).
  destruct (Z.eq_dec v 0) as [->|]; [done|]. specialize (H n0).
  apply Z.nlt_ge. intros Hlt. pose proof (Z.pow_le_mono_r 2 n (nbits v - 1)). lia.
Qed.

Definition ssh1_enc (v : Z) : list Z :=
  be_split 2 (nbits v) ++ be_split (Z.to_nat ((nbits v + 7) / 8)) v.
Definition ssh2_enc (v : Z) : list Z :=
  be_split 4 ((nbits v + 8) / 8) ++ be_split (Z.to_nat ((nbits v + 8) / 8)) v.

Lemma be_split_cons n v : be_split (S n) v = v / 256 ^ Z.of_nat n mod 256 :: be_split n v.
Proof.
  revert v; induction n as [|n IH]; intros v.
  { change (be_split 1 v) with ([] ++ [v mod 256]). by rewrite Z.pow_0_r, Z.div_1_r. }
  change (be_split (S (S n)) v) with (be_split (S n) (v / 256) ++ [v mod 256]). rewrite IH.
  change (be_split (S n) v) with (be_split n (v / 256) ++ [v mod 256]).
  rewrite Z.div_div by (try apply Z.pow_pos_nonneg; lia).
  rewrite Nat2Z.inj_succ, Z.pow_succ_r by lia. done.
Qed.

Section PutMp.
Context {S : Type} `{BinarySinkLaws S} (x : mp_int) (Hx : mp_ok x) (Hlx : len x < 2 ^ 57).

Lemma mp_get_nbits_val : mp_get_nbits x = nbits (mp_val x).
Proof using Hx Hlx. by apply mp_get_nbits_spec. Qed.

Lemma nbits_small : 0 <= nbits (mp_val x) <= 64 * len x.
Proof using Hx.
  pose proof (mp_val_bound x Hx) as Hv. rewrite wpow_pow2 in Hv.
  pose proof (nbits_bound (mp_val x)). split; [lia|]. apply nbits_le; [unfold len; lia|exact Hv].
Qed.

Lemma put_mp_bytes_spec (s : S) k n :
  sink_room s n -> Z.of_nat k <= n ->
  exists s', put_mp_bytes s k x = Some s' /\ writes s s' (be_split k (mp_val x)) n.
Proof using Hx.
  revert s n; induction k as [|k IH]; intros s n Hr Hn; cbn [put_mp_bytes].
  { exists s. split; [done|]. split; [by rewrite app_nil_r|]. change (len (be_split 0 (mp_val x))) with 0. by rewrite Z.sub_0_r. }
  rewrite mp_get_byte_spec, pow_byte by (done || lia). set (b := _ mod 256).
  assert (byte_ok b) by (apply Z.mod_pos_bound; lia).
  destruct (put_field_spec s (FByte b) n) as (s1&E1&W1); [done|done|cbn [field_enc]; rewrite len_cons, len_nil; lia|].
  cbn [put_field] in E1. rewrite E1. cbn [mbind option_bind].
  destruct (IH s1 (n - 1)) as (s2&E2&W2); [apply W1|lia|]. exists s2. split; [done|].
  rewrite be_split_cons. exact (writes_app s s1 s2 [b] _ n W1 W2).
Qed.

(** A counted number: a header field, then the bytes. *)
Lemma put_counted_spec (s : S) f k n :
  field_ok f -> sink_room s n -> len (field_enc f) + Z.of_nat k <= n ->
  exists s', (bs ← put_field s f; put_mp_bytes bs k x) = Some s'
    /\ writes s s' (field_enc f ++ be_split k (mp_val x)) n.
Proof using Hx.
  intros Hf Hr Hn. destruct (put_field_spec s f n) as (s1&E1&W1); [done|done|lia|].
  rewrite E1. cbn [mbind option_bind].
  destruct (put_mp_bytes_spec s1 k (n - len (field_enc f))) as (s2&E2&W2); [apply W1|lia|].
  exists s2. split; [done|]. exact (writes_app s s1 s2 _ _ n W1 W2).
Qed.

Lemma put_mp_ssh1_spec (s : S) n :
  nbits (mp_val x) < 65536 -> sink_room s n -> len (ssh1_enc (mp_val x)) <= n ->
  exists s', BinarySink_put_mp_ssh1 s x = Some s' /\ writes s s' (ssh1_enc (mp_val x)) n.
Proof using Hx Hlx.
  intros Hb Hr Hn. unfold BinarySink_put_mp_ssh1, ssh1_enc in *. rewrite mp_get_nbits_val.
  pose proof nbits_small. rewrite len_app, !len_be_split in Hn.
  rewrite (proj2 (Z.ltb_lt _ _)), wrap_id by (unfold word_ok; lia).
  apply (put_counted_spec s (FUint16 (nbits (mp_val x)))); [cbn; unfold word_ok; lia|done|].
  cbn [field_enc]. rewrite len_be_split. lia.
Qed.

Lemma put_mp_ssh2_spec (s : S) n :
  nbits (mp_val x) < 2 ^ 34 -> sink_room s n -> len (ssh2_enc (mp_val x)) <= n ->
  exists s', BinarySink_put_mp_ssh2 s x = Some s' /\ writes s s' (ssh2_enc (mp_val x)) n.
Proof using Hx Hlx.
  intros Hb Hr Hn. unfold BinarySink_put_mp_ssh2, ssh2_enc in *. rewrite mp_get_nbits_val.
  pose proof nbits_small. rewrite len_app, !len_be_split in Hn. rewrite wrap_id by (unfold word_ok; lia).
  apply (put_counted_spec s (FUint32 ((nbits (mp_val x) + 8) / 8))); [cbn; unfold word_ok; zdivmod|done|].
  cbn [field_enc]. rewrite len_be_split. lia.
Qed.
End PutMp.

Lemma land_128 b : byte_ok b -> (Z.land b 128 =? 0) = (b <? 128).
Proof.
  intros Hb. assert (forallb (fun b => eqb (Z.land b 128 =? 0) (b <? 128)) (seqZ 0 256) = true) as H by by vm_compute.
  rewrite forallb_forall in H. specialize (H b). rewrite <- list_elem_of_In, elem_of_seqZ in H.
  apply eqb_prop, H. unfold word_ok in Hb. lia.
Qed.

Section GetMp.
Context (src : BinarySource) (Hok : src_ok src) (He : bs_err src = BSE_NO_ERROR).
Context (v : Z) (rest : list Z) (Hv : 0 <= v).

Lemma read_bytes k :
  v < 256 ^ Z.of_nat k -> Z.of_nat k < 2 ^ 59 ->
  exists y, mp_from_bytes_be (be_split k v) = Some y /\ mp_ok y /\ mp_val y = v /\ len y < 2 ^ 57.
Proof using Hv.
  intros Hlt Hk. rewrite mp_from_bytes_be_spec by (apply be_split_ok || rewrite len_be_split; lia).
  eexists. split; [done|]. split; [auto with ssh|].
  rewrite length_be_split, be_val_split, Z.mod_small by lia. split.
  - apply mp_val_small. rewrite wpow_pow2. rewrite <- pow_byte in Hlt.
    pose proof (Z.pow_le_mono_r 2 (8 * Z.of_nat k) (64 * Z.of_nat (byte_words k)) ltac:(lia)).
    pose proof (byte_words_enough k). lia.
  - unfold len. rewrite length_mp_of. unfold byte_words.
    pose proof (Nat.div_mod_eq (k + 7) 8). lia.
Qed.

Lemma get_mp_ssh1_read :
  nbits v < 65536 -> here src = ssh1_enc v ++ rest ->
  exists y, BinarySource_get_mp_ssh1 src = Some (y, advance src (len (ssh1_enc v))) /\ mp_ok y /\ mp_val y = v.
Proof using All.
  intros Hb Hh. pose proof (nbits_bound v Hv) as (H0&Hlt&_). unfold ssh1_enc in *. set (k := Z.to_nat _) in *.
  rewrite <- app_assoc in Hh.
  pose proof (get_field_read src Hok He (FUint16 (nbits v)) _ ltac:(cbn; unfold word_ok; lia) Hh) as E1.
  cbn [get_field] in E1. destruct (get_uint16 src) as [bitc src1] eqn:Eg. injection E1 as -> ->.
  assert (src_ok (advance src (len (be_split 2 (nbits v))))) as Hok1 by (by eapply advance_ok).
  apply here_advance in Hh as Hh1; [|done].
  assert (len (be_split k v) = (nbits v + 7) / 8) as Hlen by (rewrite len_be_split; unfold k; zdivmod).
  pose proof (get_field_read (advance src (len (be_split 2 (nbits v)))) Hok1 He (FData (be_split k v)) _
    (be_split_ok k v) Hh1) as E2.
  cbn [get_field] in E2. unfold BinarySource_get_mp_ssh1. rewrite Eg.
  cbn [field_enc id] in *. rewrite <- Hlen.
  destruct (get_data _ _) as [bytes src2]. injection E2 as -> ->. rewrite decide_True by done.
  destruct (read_bytes k) as (y&Ey&Hy&Hvy&Hly).
  { rewrite <- pow_byte. eapply Z.lt_le_trans; [exact Hlt|]. apply Z.pow_le_mono_r; [lia|]. unfold k. zdivmod. }
  { unfold k. zdivmod. }
  rewrite Ey. cbn [mbind option_bind]. rewrite mp_get_nbits_val, Hvy, Z.ltb_irrefl by done.
  rewrite advance_advance, <- len_app. eauto.
Qed.

(** The encoding of a nonzero number is the one form the reader accepts. *)
Lemma ssh2_bytes_minimal :
  v <> 0 -> let k := Z.to_nat (nbits v / 8) in
  exists b, be_split (S k) v = b :: be_split k v /\ 0 <= b < 128
    /\ (b = 0 -> exists k' b', k = S k' /\ be_split k v = b' :: be_split k' v /\ 128 <= b' < 256).
Proof using Hv.
  intros Hne k. pose proof (nbits_bound v Hv) as (H0&Hlt&Hge). specialize (Hge Hne).
  exists (v / 256 ^ Z.of_nat k mod 256). split; [apply be_split_cons|].
  assert (v < 2 ^ (8 * Z.of_nat k + 7)) as Hk.
  { eapply Z.lt_le_trans; [exact Hlt|]. apply Z.pow_le_mono_r; [lia|]. unfold k. zdivmod. }
  rewrite Z.pow_add_r, pow_byte in Hk by lia. pose proof (Z.pow_pos_nonneg 256 (Z.of_nat k) ltac:(lia) ltac:(lia)).
  assert (0 <= v / 256 ^ Z.of_nat k < 128) as Hq.
  { split; [apply Z.div_pos; lia|apply Z.div_lt_upper_bound; lia]. }
  rewrite Z.mod_small by lia. split; [done|]. intros Hz. apply Z.div_small_iff in Hz; [|lia].
  assert (nbits v = 8 * Z.of_nat k) as Enb.
  { pose proof (nbits_le v (8 * Z.of_nat k)) as H8. rewrite pow_byte in H8. unfold k in *. zdivmod. }
  assert (nbits v <> 0). { intros E. rewrite E in Hlt. lia. }
  exists (k - 1)%nat, (v / 256 ^ Z.of_nat (k - 1) mod 256). split; [lia|].
  replace k with (S (k - 1)) at 1 by lia. split; [apply be_split_cons|].
  set (p := 256 ^ Z.of_nat (k - 1)).
  assert (256 ^ Z.of_nat k = 256 * p) as Ep.
  { unfold p. rewrite <- Z.pow_succ_r by lia. f_equal. lia. }
  assert (2 ^ (nbits v - 1) = 128 * p) as Ep2.
  { unfold p. rewrite <- pow_byte. change 128 with (2 ^ 7). rewrite <- Z.pow_add_r by lia. f_equal. lia. }
  assert (128 <= v / p < 256); [|rewrite Z.mod_small; lia].
  split; [apply Z.div_le_lower_bound|apply Z.div_lt_upper_bound]; lia.
Qed.

Lemma get_string_read :
  nbits v < 2 ^ 34 -> here src = ssh2_enc v ++ rest ->
  get_string src = (be_split (Z.to_nat ((nbits v + 8) / 8)) v, advance src (len (ssh2_enc v))).
Proof using Hok He Hv.
  intros Hb Hh. pose proof (nbits_bound v Hv) as (H0&_&_). unfold ssh2_enc in *. set (k := Z.to_nat _) in *.
  assert ((nbits v + 8) / 8 = len (be_split k v)) as Hlen by (rewrite len_be_split; unfold k; zdivmod).
  rewrite Hlen in *.
  pose proof (get_field_read src Hok He (FString (be_split k v)) rest) as E.
  cbn [get_field field_ok field_enc] in E. destruct (get_string src) as [b s].
  specialize (E ltac:(split; [apply be_split_ok|rewrite <- Hlen; zdivmod]) Hh). by injection E as -> ->.
Qed.

Lemma get_mp_ssh2_read :
  v <> 0 -> nbits v < 2 ^ 34 -> here src = ssh2_enc v ++ rest ->
  exists y, BinarySource_get_mp_ssh2 src = Some (y, advance src (len (ssh2_enc v))) /\ mp_ok y /\ mp_val y = v.
Proof using Hok He Hv.
  intros Hne Hb Hh. pose proof (nbits_bound v Hv) as (H0&Hlt&_).
  unfold BinarySource_get_mp_ssh2. rewrite get_string_read by done. rewrite decide_True by done.
  replace (Z.to_nat ((nbits v + 8) / 8)) with (S (Z.to_nat (nbits v / 8))) by zdivmod.
  set (k := Z.to_nat (nbits v / 8)).
  destruct (read_bytes (S k)) as (y&Ey&Hy&Hvy&_).
  { rewrite <- pow_byte. eapply Z.lt_le_trans; [exact Hlt|]. apply Z.pow_le_mono_r; [lia|]. unfold k. zdivmod. }
  { unfold k. zdivmod. }
  destruct (ssh2_bytes_minimal Hne) as (b&Eb&Hb0&Hb1). fold k in Eb, Hb1. rewrite Ey, Eb. cbn [nth].
  rewrite land_128, (proj2 (Z.ltb_lt b 128)) by (unfold word_ok; lia).
  assert ((b =? 0) && ((len (b :: be_split k v) <=? 1) || (Z.land (nth 0 (be_split k v) 0) 128 =? 0)) = false) as ->.
  { destruct (Z.eqb_spec b 0) as [E|]; [|done]. destruct (Hb1 E) as (k'&b'&Ek&Eb'&Hb').
    rewrite Eb'. cbn [nth]. rewrite land_128 by (unfold word_ok; lia).
    rewrite (proj2 (Z.ltb_ge b' 128)), !len_cons by lia. pose proof (len_nonneg (be_split k' v)).
    by rewrite (proj2 (Z.leb_gt _ _)) by lia. }
  cbn [negb orb]. rewrite andb_false_r. cbn [mbind option_bind]. eauto.
Qed.
End GetMp.

(** The SSH wire formats of a number are inverse to each other: a number below
    [2 ^ 65535] written by [BinarySink_put_mp_ssh1], or a nonzero one below
    [2 ^ (2 ^ 34 - 1)] written by [BinarySink_put_mp_ssh2], into any sink that has room, is
    read back from any block that continues with the written bytes, with the same value,
    no error, and the source advanced past it. *)
Theorem mp_ssh_roundtrip (S : Type) `{BinarySinkLaws S} (s : S) (x : mp_int) (n : Z) :
  mp_ok x -> len x < 2 ^ 57 -> sink_room s n -> 8 * (n - 5) >= mp_get_nbits x + 8 ->
  (mp_get_nbits x < 65536 ->
   exists s' d, BinarySink_put_mp_ssh1 s x = Some s' /\ sink_out s' = sink_out s ++ d
   /\ forall src rest, src_ok src -> bs_err src = BSE_NO_ERROR -> here src = d ++ rest ->
      exists y, BinarySource_get_mp_ssh1 src = Some (y, advance src (len d)) /\ mp_val y = mp_val x)
  /\ (mp_val x <> 0 -> mp_get_nbits x < 2 ^ 34 ->
   exists s' d, BinarySink_put_mp_ssh2 s x = Some s' /\ sink_out s' = sink_out s ++ d
   /\ forall src rest, src_ok src -> bs_err src = BSE_NO_ERROR -> here src = d ++ rest ->
      exists y, BinarySource_get_mp_ssh2 src = Some (y, advance src (len d)) /\ mp_val y = mp_val x).
Proof.
  intros Hx Hl Hr Hn. rewrite mp_get_nbits_val in * by done. pose proof (mp_val_bound x Hx) as [Hv _].
  pose proof (nbits_bound (mp_val x) Hv) as (Hnb&_&_). split.
  - intros Hb. destruct (put_mp_ssh1_spec x Hx Hl s n Hb Hr) as (s'&E&W&_).
    { unfold ssh1_enc. rewrite len_app, !len_be_split. zdivmod. }
    exists s', (ssh1_enc (mp_val x)). split; [done|]. split; [done|]. intros src rest Hok He Hh.
    destruct (get_mp_ssh1_read src Hok He (mp_val x) rest Hv Hb Hh) as (y&Ey&_&Hy). eauto.
  - intros Hne Hb. destruct (put_mp_ssh2_spec x Hx Hl s n Hb Hr) as (s'&E&W&_).
    { unfold ssh2_enc. rewrite len_app, !len_be_split. zdivmod. }
    exists s', (ssh2_enc (mp_val x)). split; [done|]. split; [done|]. intros src rest Hok He Hh.
    destruct (get_mp_ssh2_read src Hok He (mp_val x) rest Hv Hne Hb Hh) as (y&Ey&_&Hy). eauto.
Qed.


(** Zero is not read back: [BinarySink_put_mp_ssh2] writes it as a string of one zero
    byte, which [BinarySource_get_mp_ssh2] rejects as malformed (the SSH-2 form of zero is
    the empty string, which the reader does accept). *)
Theorem mp_ssh2_zero_rejected :
  exists s', BinarySink_put_mp_ssh2 [] [0] = Some s'
  /\ BinarySource_get_mp_ssh2 (BinarySource_INIT s') = Some ([0], mkSource s' 5 BSE_INVALID)
  /\ BinarySource_get_mp_ssh2 (BinarySource_INIT [0; 0; 0; 0])
     = Some ([0], mkSource [0; 0; 0; 0] 4 BSE_NO_ERROR).
Proof. eexists. split; [vm_compute; reflexivity|]. split; vm_compute; reflexivity. Qed.
