(* ===== verification/MpRoot.v ===== *)
(** * Multiprecision integers: square roots modulo a prime, integer roots, random numbers

    The last part of mpint.c: [ModsqrtContext] and [mp_modsqrt] (a constant-time
    Tonelli-Shanks on the Montgomery arithmetic of [MpMonty]), [mp_nthroot], and the
    [mp_random_*_fn] functions, whose source of random bytes is a parameter. *)

From S2P Require Import Prelude Memory Mpint MpBits MpMul MpDiv MpMonty MpIO.
From Stdlib Require Import Zdivisibility.

Open Scope word_scope.

(** ** Modular square roots *)

Record ModsqrtContext := mkModsqrt {
  sc_p : mp_int;
  sc_mc : MontyContext;
  sc_e : nat;
  sc_k : mp_int;
  sc_km1o2 : mp_int;
  sc_z : mp_int;
  sc_zk : option mp_int
}.

(** [for (sc->e = 1; sc->e < BIGNUM_INT_BITS * p->nw; sc->e++)], [n] iterations at most. *)
Fixpoint modsqrt_find_e (n : nat) (p : mp_int) (e : nat) : nat :=
  match n with
  | O => e
  | S n => if Z.of_nat e <? BIGNUM_INT_BITS * len p then
             if mp_get_bit p (Z.of_nat e) =? 0 then modsqrt_find_e n p (S e) else e
           else e
  end.

Definition modsqrt_new (p any_nonsquare_mod_p : mp_int) : option ModsqrtContext :=
  sp ← mp_copy p;
  mc ← monty_new sp;
  z ← monty_import mc any_nonsquare_mod_p;
  let e := modsqrt_find_e (64 * length p) p 1 in
  k ← mp_rshift_fixed p (Z.of_nat e);
  km1o2 ← mp_rshift_fixed k 1;
  Some (mkModsqrt sp mc e k km1o2 z None).

Definition modsqrt_lazy_setup (sc : ModsqrtContext) : option ModsqrtContext :=
  match sc_zk sc with
  | Some _ => Some sc
  | None => zk ← monty_pow (sc_mc sc) (sc_z sc) (sc_k sc);
            Some (mkModsqrt (sc_p sc) (sc_mc sc) (sc_e sc) (sc_k sc) (sc_km1o2 sc) (sc_z sc) (Some zk))
  end.

(** [for (j = i+1; j < sc->e; j++) monty_mul_into(sc->mc, &tmp, &tmp, &tmp)] *)
Fixpoint square_times (n : nat) (mc : MontyContext) (tmp : mp_int) : option mp_int :=
  match n with
  | O => Some tmp
  | S n => tmp ← monty_mul_into mc (length tmp) tmp tmp; square_times n mc tmp
  end.

(** The loop from iteration [i], [n] iterations left: [toret] and [*success]. *)
Fixpoint modsqrt_loop (n i : nat) (mc : MontyContext) (x toret xk power_of_zk : mp_int) (success : Z)
  : option (mp_int * Z) :=
  match n with
  | O => Some (toret, success)
  | S n =>
      tmp ← square_times n mc xk;
      let eq1 := mp_cmp_eq tmp (monty_identity mc) in
      if (i =? 0)%nat then
        modsqrt_loop n (S i) mc x toret xk power_of_zk (eq1 .| mp_eq_integer x 0)
      else
        tmp ← monty_mul_into mc (length tmp) toret power_of_zk;
        let toret := mp_select_into (length toret) tmp toret eq1 in
        power_of_zk ← monty_mul_into mc (length power_of_zk) power_of_zk power_of_zk;
        tmp ← monty_mul_into mc (length tmp) xk power_of_zk;
        let xk := mp_select_into (length xk) tmp xk eq1 in
        modsqrt_loop n (S i) mc x toret xk power_of_zk success
  end.

(** The root, [*success] (not written when [e] is 0: then [success0]), and the context. *)
Definition monty_modsqrt (sc : ModsqrtContext) (x : mp_int) (success0 : Z)
  : option (mp_int * Z * ModsqrtContext) :=
  sc ← modsqrt_lazy_setup sc;
  let mc := sc_mc sc in
  scratch ← mp_make_sized (3 * mc_rw mc);
  toret ← monty_pow mc x (sc_km1o2 sc);
  scratch ← mp_alloc_from_scratch (length scratch) (mc_rw mc);
  let xk := mp_copy_into (mc_rw mc) toret in
  toret ← monty_mul_into mc (length toret) toret x;
  xk ← monty_mul_into mc (mc_rw mc) toret xk;
  scratch ← mp_alloc_from_scratch scratch (mc_rw mc);
  scratch ← mp_alloc_from_scratch scratch (mc_rw mc);
  zk ← sc_zk sc;
  let power_of_zk := mp_copy_into (mc_rw mc) zk in
  '(toret, success) ← modsqrt_loop (sc_e sc) 0 mc x toret xk power_of_zk success0;
  Some (toret, success, sc).

Definition mp_modsqrt (sc : ModsqrtContext) (x : mp_int) (success0 : Z)
  : option (mp_int * Z * ModsqrtContext) :=
  mx ← monty_import (sc_mc sc) x;
  '(mroot, success, sc) ← monty_modsqrt sc mx success0;
  root ← monty_export (sc_mc sc) mroot;
  Some (root, success, sc).

(** ** Correctness of the square root *)

Section Modsqrt.
Context (mc : MontyContext) (Hmc : monty_ok mc).
Let M := mp_val (mc_m mc).
Let rep := monty_rep mc.

Lemma length_rep a : length (rep a) = mc_rw mc.
Proof using. apply length_mp_of. Qed.

Lemma rep_ok a : mp_ok (rep a).
Proof using. apply mp_of_ok. Qed.

Lemma mul_into_rep a b : monty_mul_into mc (mc_rw mc) (rep a) (rep b) = Some (rep (a * b)).
Proof using Hmc. unfold rep. by rewrite monty_mul_into_spec. Qed.

Lemma copy_rep a : mp_copy_into (mc_rw mc) (rep a) = rep a.
Proof using Hmc. rewrite mp_copy_into_spec by apply rep_ok. unfold rep. by rewrite (proj1 (monty_rep_val mc Hmc a)). Qed.

Lemma select_rep a b c : mp_select_into (mc_rw mc) (rep a) (rep b) (Z.b2z c) = rep (if c then b else a).
Proof using Hmc.
  rewrite mp_select_into_spec by apply rep_ok. unfold rep.
  by destruct c; rewrite (proj1 (monty_rep_val mc Hmc _)).
Qed.

(** Representatives are equal just when the residues are. *)
Lemma rep_eqb a b : mp_cmp_eq (rep a) (rep b) = Z.b2z (bool_decide (a mod M = b mod M)).
Proof using Hmc.
  rewrite mp_cmp_eq_spec by apply rep_ok. unfold rep.
  rewrite (proj1 (monty_rep_val mc Hmc a)), (proj1 (monty_rep_val mc Hmc b)). fold M. f_equal.
  pose proof (monty_sizes mc Hmc) as (HM&_&HR&_&Hg). fold M in HM, Hg.
  apply eq_bool_prop_intro. rewrite !Is_true_true, Z.eqb_eq, bool_decide_eq_true, <- !cong_iff by lia.
  split; [|by intros ->]. rewrite !(Z.mul_comm _ (monty_R mc)). by apply cong_cancel.
Qed.

Lemma rep_zero a : mp_eq_integer (rep a) 0 = Z.b2z (bool_decide (a mod M = 0)).
Proof using Hmc.
  rewrite mp_eq_integer_spec by (apply rep_ok || done).
  pose proof (monty_sizes mc Hmc) as (HM&_&_&_&_). fold M in HM.
  pose proof (rep_eqb a 0) as E. rewrite Z.mod_0_l in E by lia. rewrite <- E.
  rewrite mp_cmp_eq_spec by apply rep_ok. do 2 f_equal.
  unfold rep. rewrite (proj1 (monty_rep_val mc Hmc 0)). by rewrite Z.mul_0_l, Z.mod_0_l by (fold M; lia).
Qed.

Lemma square_times_spec n a : square_times n mc (rep a) = Some (rep (a ^ 2 ^ Z.of_nat n)).
Proof using Hmc.
  revert a; induction n as [|n IH]; intros a; cbn [square_times]; [by rewrite Z.pow_0_r, Z.pow_1_r|].
  rewrite length_rep, mul_into_rep. cbn [mbind option_bind]. rewrite IH. do 2 f_equal.
  rewrite Nat2Z.inj_succ, Z.pow_succ_r, Z.pow_mul_r by lia. f_equal. ring.
Qed.

(** The loop invariant after the first iteration, [n] iterations left. *)
Definition modsqrt_inv (X : Z) (n : nat) (T K W : Z) : Prop :=
  T * T == X * K {mod M} /\ K ^ 2 ^ Z.of_nat n == 1 {mod M} /\ W ^ 2 ^ Z.of_nat n == -1 {mod M}.

Lemma pow2_double a n : a ^ 2 ^ Z.of_nat (S n) = a ^ 2 ^ Z.of_nat n * a ^ 2 ^ Z.of_nat n.
Proof using M mc.
  rewrite Nat2Z.inj_succ, Z.pow_succ_r by lia. rewrite Z.mul_comm, Z.pow_mul_r by (try apply Z.pow_nonneg; lia). ring.
Qed.

(** A residue whose square is 1 is 1 or -1, as the modulus is a prime. *)
Lemma sqrt_of_one t : Z.prime M -> t * t == 1 {mod M} -> t == 1 {mod M} \/ t == -1 {mod M}.
Proof using.
  intros Hp H. unfold cong in *. replace (t * t - 1) with ((t - 1) * (t - -1)) in H by ring.
  by apply Z.divide_prime_mul in H.
Qed.

Lemma modsqrt_inv_step X n T K W :
  Z.prime M -> modsqrt_inv X (S n) T K W ->
  let t := K ^ 2 ^ Z.of_nat n in
  if bool_decide (t mod M = 1 mod M) then modsqrt_inv X n T K (W * W)
  else modsqrt_inv X n (T * W) (K * (W * W)) (W * W).
Proof using Hmc.
  intros Hp (HT&HK&HW) t. pose proof (monty_sizes mc Hmc) as (HM&_). fold M in HM.
  rewrite !pow2_double in *. fold t in HK.
  assert ((W * W) ^ 2 ^ Z.of_nat n == -1 {mod M}) as HW2 by by rewrite Z.pow_mul_l.
  case_bool_decide as E; [apply cong_iff in E; [|lia]; done|].
  split; [|split]; [| |done].
  - replace (T * W * (T * W)) with (T * T * (W * W)) by ring. rewrite HT. by replace (X * (K * (W * W))) with (X * K * (W * W)) by ring.
  - rewrite Z.pow_mul_l, HW2. fold t. destruct (sqrt_of_one t Hp HK) as [H|H].
    + exfalso. apply E. by apply cong_iff; [lia|].
    + by rewrite H.
Qed.

Lemma modsqrt_loop_spec X n i T K W s :
  Z.prime M -> (0 < i)%nat ->
  exists T', modsqrt_loop n i mc (rep X) (rep T) (rep K) (rep W) s = Some (rep T', s)
    /\ (modsqrt_inv X n T K W -> T' * T' == X {mod M}) /\ (T == 0 {mod M} -> T' == 0 {mod M}).
Proof using Hmc.
  intros Hp. revert i T K W; induction n as [|n IH]; intros i T K W Hi; cbn [modsqrt_loop].
  { exists T. split; [done|]. split; [|done]. intros (HT&HK&_). rewrite Z.pow_0_r, Z.pow_1_r in HK.
    rewrite HT, HK. by rewrite Z.mul_1_r. }
  rewrite square_times_spec. cbn [mbind option_bind]. rewrite (proj2 (Nat.eqb_neq i 0)) by lia.
  rewrite monty_identity_spec, rep_eqb by done. fold rep. rewrite !length_rep.
  repeat (rewrite mul_into_rep; cbn [mbind option_bind]; rewrite ?length_rep). rewrite !select_rep.
  set (c := bool_decide _). destruct (IH (S i) (if c then T else T * W) (if c then K else K * (W * W)) (W * W))
    as (T'&E&Hinv&Hz); [lia|].
  exists T'. rewrite E. split; [done|]. split.
  - intros Hi'. apply Hinv. pose proof (modsqrt_inv_step X n T K W Hp Hi') as Hs. cbn zeta in Hs.
    fold c in Hs. by destruct c.
  - intros HT. apply Hz. destruct c; [done|]. rewrite HT. by rewrite Z.mul_0_l.
Qed.
End Modsqrt.

Lemma mp_rshift_fixed_spec x bits :
  mp_ok x -> 0 <= bits ->
  exists r, mp_rshift_fixed x bits = Some r /\ mp_ok r /\ (0 < length r <= Nat.max 1 (length x))%nat
    /\ mp_val r = mp_val x / 2 ^ bits.
Proof.
  intros Hx Hb. unfold mp_rshift_fixed. destruct (bits_split bits Hb) as (words&off&->&_&E&Hoff).
  rewrite size_t_max_spec, size_t_min_spec, mp_make_sized_spec by lia. cbn [mbind option_bind].
  rewrite length_mp_of, mp_rshift_fixed_into_spec by done. eexists. split; [done|]. split; [auto with ssh|].
  rewrite length_mp_of. split; [lia|]. apply mp_val_small.
  pose proof (mp_val_bound x Hx) as Hv. pose proof (pow2_pos bits Hb).
  split; [apply Z.div_pos; lia|]. apply Z.div_lt_upper_bound; [done|].
  eapply Z.lt_le_trans; [apply Hv|]. rewrite !wpow_pow2, <- Z.pow_add_r by lia.
  apply Z.pow_le_mono_r; lia.
Qed.

Lemma modsqrt_find_e_spec p n e :
  mp_ok p -> 1 < mp_val p -> (1 <= e)%nat -> mp_val p mod 2 ^ Z.of_nat e = 1 ->
  64 * len p <= Z.of_nat (n + e) ->
  let e' := modsqrt_find_e n p e in
  (1 <= e')%nat /\ mp_val p mod 2 ^ Z.of_nat e' = 1 /\ Z.testbit (mp_val p) (Z.of_nat e') = true.
Proof.
  intros Hp H1. revert e; induction n as [|n IH]; intros e He Hm Hf.
  all: pose proof (mp_val_bound p Hp) as Hv; rewrite wpow_pow2 in Hv; fold (len p) in Hv.
  all: assert (Z.of_nat e < 64 * len p) as Hlt
    by (apply Z.nle_gt; intros Hge; rewrite Z.mod_small in Hm; [lia|];
        pose proof (Z.pow_le_mono_r 2 (64 * len p) (Z.of_nat e)); lia).
  - lia.
  - cbn [modsqrt_find_e]. change BIGNUM_INT_BITS with 64. rewrite (proj2 (Z.ltb_lt _ _) Hlt).
    rewrite mp_get_bit_spec by (done || lia). destruct (Z.testbit (mp_val p) (Z.of_nat e)) eqn:Eb; [done|].
    apply IH; [lia| |lia]. rewrite Nat2Z.inj_succ, <- Z.add_1_r, testbit_mod_pow2, Eb by lia. lia.
Qed.

(** The context of the prime [p] and the non-square [z], before or after the lazy setup. *)
Record modsqrt_ok (p z : mp_int) (sc : ModsqrtContext) : Prop := {
  so_mc : monty_ok (sc_mc sc);
  so_m : mc_m (sc_mc sc) = p;
  so_e : (1 <= sc_e sc)%nat;
  so_k_ok : mp_ok (sc_k sc) /\ (0 < length (sc_k sc))%nat;
  so_km1o2_ok : mp_ok (sc_km1o2 sc) /\ (0 < length (sc_km1o2 sc))%nat;
  so_p : mp_val p = 2 ^ Z.of_nat (sc_e sc) * mp_val (sc_k sc) + 1;
  so_k : mp_val (sc_k sc) = 2 * mp_val (sc_km1o2 sc) + 1;
  so_z : sc_z sc = monty_rep (sc_mc sc) (mp_val z);
  so_zk : forall zk, sc_zk sc = Some zk -> zk = monty_rep (sc_mc sc) (mp_val z ^ mp_val (sc_k sc))
}.

Lemma modsqrt_new_spec p z :
  modulus_ok p -> mp_val p mod 2 = 1 -> 1 < mp_val p -> operand_ok z ->
  exists sc, modsqrt_new p z = Some sc /\ modsqrt_ok p z sc.
Proof.
  intros Hp Hodd H1 Hz. pose proof (modulus_pos p Hp) as [_ Hl]. pose proof Hp as (Hpo&_&_).
  unfold modsqrt_new. rewrite mp_copy_spec by done. cbn [mbind option_bind].
  destruct (monty_new_spec p Hp Hodd) as (mc&->&Hmc&Em). cbn [mbind option_bind].
  rewrite monty_import_spec by done. cbn [mbind option_bind].
  destruct (modsqrt_find_e_spec p (64 * length p) 1) as (He&Hmod&Hbit); [done|done|lia|done|unfold len; lia|].
  set (e := modsqrt_find_e _ _ _) in *.
  destruct (mp_rshift_fixed_spec p (Z.of_nat e)) as (k&->&Hk&Hlk&Vk); [done|lia|]. cbn [mbind option_bind].
  destruct (mp_rshift_fixed_spec k 1) as (h&->&Hh&Hlh&Vh); [done|lia|]. cbn [mbind option_bind].
  eexists. split; [done|]. split; cbn [sc_mc sc_e sc_k sc_km1o2 sc_z sc_zk]; try done.
  - split; [done|lia].
  - split; [done|lia].
  - rewrite Vk. pose proof (Z.div_mod (mp_val p) (2 ^ Z.of_nat e)). pose proof (pow2_pos (Z.of_nat e)). lia.
  - rewrite Vh. change (2 ^ 1) with 2. assert (mp_val k mod 2 = 1); [|zdivmod].
    rewrite Vk, Zmod_odd, <- Z.bit0_odd, Z.div_pow2_bits, Z.add_0_l, Hbit by lia. done.
Qed.

Lemma modsqrt_lazy_setup_spec p z sc :
  modsqrt_ok p z sc ->
  exists sc', modsqrt_lazy_setup sc = Some sc' /\ modsqrt_ok p z sc' /\ sc_mc sc' = sc_mc sc
    /\ sc_zk sc' = Some (monty_rep (sc_mc sc) (mp_val z ^ mp_val (sc_k sc'))).
Proof.
  intros Hs. unfold modsqrt_lazy_setup. destruct (sc_zk sc) as [zk|] eqn:E.
  - exists sc. split; [done|]. split; [done|]. split; [done|]. by rewrite E, (so_zk p z sc Hs zk E).
  - destruct (so_k_ok p z sc Hs). rewrite (so_z p z sc Hs), monty_pow_spec by (done || apply (so_mc p z sc Hs)).
    cbn [mbind option_bind]. eexists. split; [done|]. split; [|done].
    destruct Hs. split; cbn [sc_mc sc_e sc_k sc_km1o2 sc_z sc_zk]; try done. by intros zk [= <-].
Qed.

Section ModsqrtRun.
Context (p z : mp_int) (Hp : Z.prime (mp_val p)) (H2 : 2 < mp_val p).
Let P := mp_val p.
Context (Hz : mp_val z ^ ((P - 1) / 2) == -1 {mod P}).

(** The first iteration tests [x ^ ((p - 1) / 2)], which also starts the invariant. *)
Lemma modsqrt_inv_start sc X :
  modsqrt_ok p z sc -> forall k, mp_val (sc_k sc) = k -> forall n, sc_e sc = S n ->
  k * 2 ^ Z.of_nat n = (P - 1) / 2
  /\ let T := X ^ (k / 2) * X in let K := T * X ^ (k / 2) in
     K ^ 2 ^ Z.of_nat n = X ^ ((P - 1) / 2)
     /\ (X ^ ((P - 1) / 2) == 1 {mod P} -> modsqrt_inv (sc_mc sc) X n T K (mp_val z ^ k)).
Proof using H2 Hz.
  intros Hs k Ek n En. pose proof (so_p p z sc Hs) as Ep. pose proof (so_k p z sc Hs) as Eodd.
  pose proof (mp_val_bound _ (proj1 (so_km1o2_ok p z sc Hs))) as [Hh _].
  rewrite Ek, En, Nat2Z.inj_succ, Z.pow_succ_r in * by lia. set (h := mp_val (sc_km1o2 sc)) in *.
  assert (k * 2 ^ Z.of_nat n = (P - 1) / 2) as Ehalf.
  { unfold P. rewrite Ep. replace (2 * 2 ^ Z.of_nat n * k + 1 - 1) with (k * 2 ^ Z.of_nat n * 2) by ring. by rewrite Z.div_mul. }
  split; [done|]. intros T K. pose proof (pow2_pos (Z.of_nat n) ltac:(lia)).
  assert (K = X ^ k) as EK.
  { unfold K, T. replace (k / 2) with h by (rewrite Eodd; zdivmod). rewrite Eodd.
    rewrite Z.add_1_r, Z.pow_succ_r by lia. replace (2 * h) with (h + h) by lia. rewrite Z.pow_add_r by lia. ring. }
  assert (K ^ 2 ^ Z.of_nat n = X ^ ((P - 1) / 2)) as EKn by (rewrite EK, <- Z.pow_mul_r, Ehalf by lia; done).
  split; [done|]. intros H1. unfold modsqrt_inv. rewrite (so_m p z sc Hs). fold P. split; [|split].
  - unfold K, T. replace (X ^ (k / 2) * X * (X ^ (k / 2) * X)) with (X * (X ^ (k / 2) * X * X ^ (k / 2))) by ring. done.
  - by rewrite EKn.
  - by rewrite <- Z.pow_mul_r, Ehalf by lia.
Qed.

Lemma monty_modsqrt_spec sc X s0 :
  modsqrt_ok p z sc ->
  exists T s sc', monty_modsqrt sc (monty_rep (sc_mc sc) X) s0 = Some (monty_rep (sc_mc sc) T, s, sc')
    /\ modsqrt_ok p z sc' /\ sc_mc sc' = sc_mc sc
    /\ s = Z.b2z (bool_decide (X ^ ((P - 1) / 2) mod P = 1) || bool_decide (X mod P = 0))
    /\ (s = 1 -> T * T == X {mod P}).
Proof using Hp H2 Hz.
  intros Hs0. unfold monty_modsqrt.
  destruct (modsqrt_lazy_setup_spec p z sc Hs0) as (sc'&->&Hs&Emc&Ezk). cbn [mbind option_bind].
  rewrite <- Emc in *. set (mc := sc_mc sc') in *. pose proof (so_mc p z sc' Hs : monty_ok mc) as Hmc.
  pose proof (monty_sizes mc Hmc) as (_&Hrw&_). destruct (so_km1o2_ok p z sc' Hs) as [Hh Hlh].
  rewrite mp_make_sized_spec by lia. cbn [mbind option_bind]. rewrite length_mp_of.
  rewrite monty_pow_spec by done. cbn [mbind option_bind].
  rewrite mp_alloc_ok by lia. cbn [mbind option_bind]. rewrite !length_rep, copy_rep by done.
  repeat (rewrite mul_into_rep by done; cbn [mbind option_bind]).
  do 2 (rewrite mp_alloc_ok by lia; cbn [mbind option_bind]). rewrite Ezk. cbn [mbind option_bind]. rewrite copy_rep by done.
  pose proof (so_e p z sc' Hs) as He. destruct (sc_e sc') as [|n] eqn:En; [lia|]. clear He.
  pose proof (mp_val_bound _ Hh) as [Hh0 _]. pose proof (so_k p z sc' Hs) as Ek.
  replace (mp_val (sc_km1o2 sc')) with (mp_val (sc_k sc') / 2) by (rewrite Ek; zdivmod).
  destruct (modsqrt_inv_start sc' X Hs _ eq_refl n En) as (Ehalf&Epow&Hstart).
  set (k := mp_val (sc_k sc')) in *. set (T := X ^ (k / 2) * X) in *.
  cbn [modsqrt_loop Nat.eqb]. rewrite square_times_spec by done. cbn [mbind option_bind].
  rewrite Epow, monty_identity_spec, rep_eqb, rep_zero by done.
  assert (mp_val (mc_m mc) = P) as EM by (unfold mc; by rewrite (so_m p z sc' Hs)). rewrite EM, (Z.mod_small 1) by lia.
  set (c1 := bool_decide (X ^ ((P - 1) / 2) mod P = 1)). set (c2 := bool_decide (X mod P = 0)).
  destruct (modsqrt_loop_spec mc Hmc X n 1 T (T * X ^ (k / 2)) (mp_val z ^ k) (Z.b2z c1 .| Z.b2z c2))
    as (T'&EL&Hinv&Hzero); [by rewrite EM|lia|]. rewrite EM in *.
  rewrite EL. cbn [mbind option_bind]. eexists _, _, _. split; [done|]. split; [done|]. split; [done|].
  split; [by destruct c1, c2|]. intros Es.
  assert (P <> 0) as HP by lia.
  destruct c1 eqn:E1.
  - apply bool_decide_eq_true in E1. apply Hinv, Hstart. apply cong_iff; [done|]. by rewrite (Z.mod_small 1) by lia.
  - destruct c2 eqn:E2; [|done]. apply bool_decide_eq_true in E2.
    assert (X == 0 {mod P}) as HX by (apply cong_iff; [done|]; by rewrite Z.mod_0_l).
    rewrite Hzero, HX; [done|]. destruct HX as [q Eq]. exists (X ^ (k / 2) * q).
    unfold T. rewrite Z.sub_0_r in *. rewrite Eq at 2. ring.
Qed.
End ModsqrtRun.

(** C34. Square roots modulo a prime: for an odd prime [p] and a [z] that is not a square
    ([z ^ ((p-1)/2) = -1]), [modsqrt_new] makes a context on which [mp_modsqrt] can be
    called any number of times.  Each call reports success exactly when the input is 0
    or satisfies Euler's criterion [x ^ ((p-1)/2) = 1], and then returns a number below
    [p] whose square is the input modulo [p]. *)
Theorem mp_modsqrt_correct (p z : mp_int)
  (Hp : modulus_ok p) (Hz : operand_ok z) (Hprime : Z.prime (mp_val p)) (Hodd : mp_val p mod 2 = 1)
  (Hns : mp_val z ^ ((mp_val p - 1) / 2) == -1 {mod mp_val p}) :
  (exists sc, modsqrt_new p z = Some sc /\ modsqrt_ok p z sc)
  /\ forall sc x success0, modsqrt_ok p z sc -> operand_ok x ->
     exists root success sc', mp_modsqrt sc x success0 = Some (root, success, sc') /\ modsqrt_ok p z sc'
       /\ (success = 1 <-> mp_val x mod mp_val p = 0 \/ mp_val x ^ ((mp_val p - 1) / 2) mod mp_val p = 1)
       /\ (success = 1 -> mp_val root < mp_val p /\ mp_val root * mp_val root mod mp_val p = mp_val x mod mp_val p).
Proof.
  assert (2 < mp_val p) as H2.
  { pose proof (Z.prime_ge_2 _ Hprime). assert (mp_val p <> 2) by (intros E; by rewrite E in Hodd). lia. }
  split; [apply modsqrt_new_spec; try done; lia|]. intros sc x s0 Hs Hx. unfold mp_modsqrt.
  rewrite monty_import_spec by (done || apply (so_mc p z sc Hs)). cbn [mbind option_bind].
  destruct (monty_modsqrt_spec p z Hprime H2 Hns sc (mp_val x) s0 Hs) as (T&s&sc'&->&Hs'&Emc&Es&Hroot).
  cbn [mbind option_bind]. rewrite <- Emc. rewrite monty_export_spec by apply (so_mc p z sc' Hs'). cbn [mbind option_bind].
  pose proof (monty_sizes _ (so_mc p z sc' Hs')) as (HM&_). rewrite (so_m p z sc' Hs') in *.
  pose proof (Z.mod_pos_bound T (mp_val p) ltac:(lia)) as HT.
  eexists _, s, sc'. split; [done|]. split; [done|]. split.
  - rewrite Es. case_bool_decide; case_bool_decide; cbn; intuition lia.
  - intros E1. specialize (Hroot E1). rewrite mp_val_small by (fold (monty_R (sc_mc sc')); unfold monty_R in *; lia).
    split; [lia|]. apply cong_iff; [lia|]. by rewrite !cong_mod by lia.
Qed.

Lemma prime_13 : Z.prime 13.
Proof.
  split; [lia|]. intros n Hn [q Hq].
  assert (q = 1 \/ q = 2 \/ q = 3 \/ q = 4 \/ q = 5 \/ q = 6) as Hq' by nia. lia.
Qed.

Lemma mp_modsqrt_correct_witness :
  exists sc root success sc', modsqrt_new [13] [2] = Some sc /\ mp_modsqrt sc [10] 0 = Some (root, success, sc')
    /\ success = 1 /\ mp_val root * mp_val root mod 13 = 10.
Proof.
  assert (forall a, word_ok 64 a -> operand_ok [a]) as Ho by (intros; split; [by constructor|]; unfold len; simpl length; lia).
  destruct (mp_modsqrt_correct [13] [2]) as [(sc&E&Hs) H].
  - split; [by constructor|]. split; [by vm_compute|done].
  - by apply Ho.
  - exact prime_13.
  - reflexivity.
  - exists 5. reflexivity.
  - assert (word_ok 64 10) as H10 by (split; lia).
    destruct (H sc [10] 0 Hs (Ho 10 H10)) as (root&success&sc'&Er&_&Hiff&Hsq).
    assert (success = 1) as E1 by (apply Hiff; right; reflexivity).
    exists sc, root, success, sc'. split; [exact E|]. split; [exact Er|]. split; [exact E1|].
    exact (proj2 (Hsq E1)).
Defined.

(** ** Integer roots *)

(** The terms [binom * powers[j] * 2 ^ ((i-j)*s)] from [j] on, added to [newpowers[i]]. *)
Fixpoint nthroot_terms (cnt j i : nat) (powers : list mp_int) (s : Z) (newpower : mp_int) (binom : Z) : option mp_int :=
  match cnt with
  | O => Some newpower
  | S cnt =>
      scratch ← mp_mul_integer_into (length newpower) (nth j powers []) binom;
      let scratch := mp_lshift_fixed_into (length scratch) scratch (u64 (Z.of_nat (i - j) * s)) in
      let newpower := mp_add_into (length newpower) newpower scratch in
      let binom_mul := u32 (binom * Z.of_nat (i - j)) in
      let binom_mul := binom_mul / Z.of_nat (j + 1) in
      assert! binom_mul <? 65536;
      nthroot_terms cnt (S j) i powers s newpower binom_mul
  end.

Definition nthroot_newpower (powers : list mp_int) (s : Z) (i : nat) : option mp_int :=
  let newpower := mp_copy_into (length (nth i powers [])) (nth i powers []) in
  nthroot_terms i 0 i powers s newpower 1.

(** One trial bit [2 ^ s]. *)
Definition nthroot_bit (y : mp_int) (n : nat) (powers : list mp_int) (s : Z) : option (list mp_int) :=
  newpowers ← mapM (nthroot_newpower powers s) (seq 0 (n + 1));
  let newbit := mp_cmp_hs y (nth n newpowers []) in
  Some ((fun i => mp_select_into (length (nth i powers [])) (nth i powers []) (nth i newpowers []) newbit)
        <$> seq 0 (n + 1)).

Fixpoint nthroot_loop (s : nat) (y : mp_int) (n : nat) (powers : list mp_int) : option (list mp_int) :=
  match s with
  | O => Some powers
  | S s => powers ← nthroot_bit y n powers (Z.of_nat s); nthroot_loop s y n powers
  end.

(** The root and, when [remainder_out] has [rw] words, the remainder.  A zero [n] is a
    division by zero. *)
Definition mp_nthroot (y : mp_int) (n : nat) (remainder_out : option nat) : option (mp_int * option mp_int) :=
  assert! (0 <? n)%nat;
  alloc ← mapM (fun _ => mp_make_sized (length y + 1)) (seq 0 (2 * (n + 1) + 1));
  let powers := take (n + 1) alloc in
  let powers := <[0%nat := mp_copy_integer_into (length (nth 0 powers [])) 1]> powers in
  powers ← nthroot_loop (Z.to_nat (mp_max_bits y / Z.of_nat n + 1)) y n powers;
  let remainder := (fun rw => mp_sub_into rw y (nth n powers [])) <$> remainder_out in
  root ← mp_new (mp_max_bits y / Z.of_nat n);
  Some (mp_copy_into (length root) (nth 1 powers []), remainder).

Example mp_nthroot_examples :
  mp_nthroot [1000; 0] 3 (Some 2%nat) = Some ([10], Some [0; 0]) /\ mp_nthroot [26] 2 (Some 1%nat) = Some ([5], Some [1]).
Proof. vm_compute. tauto. Qed.

(** *** Binomial coefficients *)

Fixpoint choose (n k : nat) : Z :=
  match k, n with
  | O, _ => 1
  | S _, O => 0
  | S k, S n => choose n k + choose n (S k)
  end.

Lemma choose_0 n : choose n 0 = 1.
Proof. by destruct n. Qed.

Lemma choose_absorb n k : Z.of_nat (S k) * choose n (S k) = (Z.of_nat n - Z.of_nat k) * choose n k.
Proof.
  revert k; induction n as [|n IH]; intros k.
  { destruct k; cbn [choose]; lia. }
  destruct k as [|k]; cbn [choose].
  - pose proof (IH 0%nat) as H. cbn [choose] in H. destruct n; cbn [choose] in *; lia.
  - pose proof (IH k) as H1. pose proof (IH (S k)) as H2. rewrite !Nat2Z.inj_succ in *. cbn [choose] in *. nia.
Qed.

Lemma choose_next i j :
  (j < i)%nat -> choose i j * Z.of_nat (i - j) / Z.of_nat (j + 1) = choose i (j + 1).
Proof.
  intros Hj. rewrite Nat.add_1_r. pose proof (choose_absorb i j) as H.
  replace (Z.of_nat (i - j)) with (Z.of_nat i - Z.of_nat j) by lia.
  rewrite Z.mul_comm, <- H, Z.mul_comm, Z.div_mul by lia. done.
Qed.

Lemma choose_bound i j : (i <= 18)%nat -> (j <= i)%nat -> 1 <= choose i j < 65536.
Proof.
  intros Hi Hj.
  assert (forallb (fun i => forallb (fun j => (1 <=? choose i j) && (choose i j <? 65536)) (seq 0 (S i))) (seq 0 19) = true)
    as H by by vm_compute.
  rewrite forallb_forall in H. specialize (H i ltac:(apply in_seq; lia)).
  rewrite forallb_forall in H. specialize (H j ltac:(apply in_seq; lia)). bsimpl. lia.
Qed.

(** The sum of [f 0], ..., [f (n - 1)]. *)
Fixpoint sum_upto (f : nat -> Z) (n : nat) : Z := match n with O => 0 | S n => sum_upto f n + f n end.

Lemma sum_upto_first f n : sum_upto f (S n) = f 0%nat + sum_upto (fun l => f (S l)) n.
Proof. induction n as [|n IH]; [cbn; lia|]. change (sum_upto f (S (S n))) with (sum_upto f (S n) + f (S n)). rewrite IH. cbn. lia. Qed.

Lemma sum_upto_add f g n : sum_upto (fun l => f l + g l) n = sum_upto f n + sum_upto g n.
Proof. induction n as [|n IH]; cbn; lia. Qed.

Lemma sum_upto_scale c f n : sum_upto (fun l => c * f l) n = c * sum_upto f n.
Proof. induction n as [|n IH]; cbn; lia. Qed.

Lemma sum_upto_ext f g n : (forall l, (l < n)%nat -> f l = g l) -> sum_upto f n = sum_upto g n.
Proof. intros H. induction n as [|n IH]; cbn; [done|]. rewrite IH, H by (intros; apply H || idtac; lia). done. Qed.

Section Binomial.
Context (x b : Z).

Definition term (i j : nat) : Z := choose i j * x ^ Z.of_nat j * b ^ Z.of_nat (i - j).

Lemma choose_over i j : (i < j)%nat -> choose i j = 0.
Proof using. revert j; induction i as [|i IH]; intros [|j] H; cbn; try lia. rewrite !IH by lia. done. Qed.

Lemma term_next i l : (l <= i)%nat -> term (S i) (S l) = x * term i l + b * term i (S l).
Proof using.
  intros Hl. unfold term. cbn [choose]. rewrite Nat2Z.inj_succ, Z.pow_succ_r by lia.
  replace (S i - S l)%nat with (i - l)%nat by lia. destruct (decide (l = i)) as [->|].
  - rewrite (choose_over i (S i)) by lia. ring.
  - replace (i - l)%nat with (S (i - S l)) by lia. rewrite (Nat2Z.inj_succ (i - S l)), Z.pow_succ_r by lia. ring.
Qed.

Lemma binomial_theorem i : sum_upto (term i) (S i) = (x + b) ^ Z.of_nat i.
Proof using.
  induction i as [|i IH]; [done|]. rewrite sum_upto_first.
  rewrite (sum_upto_ext _ (fun l => x * term i l + b * term i (S l))) by (intros; apply term_next; lia).
  rewrite sum_upto_add, !sum_upto_scale, IH.
  assert (sum_upto (fun l => term i (S l)) (S i) = (x + b) ^ Z.of_nat i - term i 0) as ->.
  { assert (term i (S i) = 0) as Hz by (unfold term; rewrite choose_over by lia; lia).
    rewrite <- IH, (sum_upto_first (term i) i). change (sum_upto ?f (S i)) with (sum_upto f i + f i).
    cbv beta. rewrite Hz. ring. }
  rewrite Nat2Z.inj_succ, Z.pow_succ_r by lia.
  assert (term (S i) 0 = b * term i 0) as ->; [|ring].
  unfold term. rewrite !choose_0. rewrite !Nat.sub_0_r, Nat2Z.inj_succ, Z.pow_succ_r by lia. ring.
Qed.
End Binomial.

(** *** The search for the root *)

Lemma mul_coeff_small a c W : 0 <= a < W -> 1 <= c < 65536 -> a * c < 2 ^ 64 * W.
Proof. pow_norm. nia. Qed.

Section NthRoot.
Context (y : mp_int) (n : nat) (Hy : mp_ok y) (Hly : (0 < length y)%nat) (Hlen : len y < 2 ^ 50).
Context (Hn : (1 <= n <= 18)%nat).
Let w := (length y + 1)%nat.
Let Y := mp_val y.

Definition powers_of (x : Z) : list mp_int := (fun i => mp_of w (x ^ Z.of_nat i)) <$> seq 0 (n + 1).

Lemma nth_fmap_seq {A} (f : nat -> A) d i m : (i < m)%nat -> nth i (f <$> seq 0 m) d = f i.
Proof using. intros. rewrite nth_lookup, list_lookup_fmap, lookup_seq_lt by done. done. Qed.

Lemma nth_powers x i : (i <= n)%nat -> nth i (powers_of x) [] = mp_of w (x ^ Z.of_nat i).
Proof using Hly Hn. intros. unfold powers_of. by rewrite (nth_fmap_seq (fun i => mp_of w (x ^ Z.of_nat i))) by lia. Qed.

Lemma wpow_w : wpow w = 2 ^ 64 * wpow (length y) /\ 0 < wpow (length y) /\ 0 <= Y < wpow (length y).
Proof using Hy. unfold w. rewrite Nat.add_1_r, wpow_S. pose proof (wpow_pos (length y)). pose proof (mp_val_bound y Hy). done. Qed.

(** Lower powers of a candidate fit in the words of [y]. *)
Lemma power_small x j : 0 <= x -> x ^ Z.of_nat n <= Y -> (j <= n)%nat -> 0 <= x ^ Z.of_nat j < wpow (length y).
Proof using Hy Hn Hly.
  intros Hx Hp Hj. split; [by apply Z.pow_nonneg|]. pose proof wpow_w as (_&H1&H2).
  destruct (Z.eq_dec x 0) as [->|].
  { pose proof (wpow_le 1 (length y) ltac:(lia)) as Hw. rewrite wpow_S, wpow_0 in Hw. unfold WB in Hw.
    destruct j; [change (0 ^ Z.of_nat 0) with 1; lia|rewrite Z.pow_0_l; lia]. }
  pose proof (Z.pow_le_mono_r x (Z.of_nat j) (Z.of_nat n)). lia.
Qed.

Lemma nthroot_terms_spec x s cnt j i :
  0 <= x -> x ^ Z.of_nat n <= Y -> 0 <= s -> Z.of_nat i * s < 2 ^ 64 -> (i <= n)%nat -> (j + cnt)%nat = i ->
  nthroot_terms cnt j i (powers_of x) s (mp_of w (x ^ Z.of_nat i + sum_upto (term x (2 ^ s) i) j)) (choose i j)
  = Some (mp_of w ((x + 2 ^ s) ^ Z.of_nat i)).
Proof using Hy Hn Hly.
  intros Hx Hp Hs His Hi. revert j; induction cnt as [|cnt IH]; intros j Hj; cbn [nthroot_terms].
  { replace j with i by lia. do 2 f_equal. rewrite <- binomial_theorem. cbn [sum_upto].
    unfold term at 3. rewrite Nat.sub_diag, Z.pow_0_r. assert (choose i i = 1) as ->; [|ring].
    clear. induction i as [|i IH]; [done|]. cbn [choose]. rewrite IH, choose_over by lia. done. }
  pose proof wpow_w as (Hw&H1&H2). pose proof (power_small x j Hx Hp ltac:(lia)) as Hxj.
  pose proof (choose_bound i j ltac:(lia) ltac:(lia)) as Hc.
  rewrite nth_powers, length_mp_of by lia.
  assert (mp_val (mp_of w (x ^ Z.of_nat j)) = x ^ Z.of_nat j) as Ev by (apply mp_val_small; lia).
  rewrite mp_mul_integer_into_spec by (auto with ssh; rewrite ?Ev; unfold word_ok; lia). rewrite Ev.
  rewrite (proj2 (Z.ltb_lt (x ^ Z.of_nat j * choose i j) (wpow w))) by (rewrite Hw; by apply mul_coeff_small). cbn [mbind option_bind]. rewrite !length_mp_of.
  assert (0 <= Z.of_nat (i - j) * s < 2 ^ 64) by nia. rewrite (wrap_id 64) by done.
  rewrite mp_lshift_fixed_into_spec by (auto with ssh; lia).
  rewrite mp_add_into_spec by auto with ssh.
  rewrite (wrap_id 32) by (unfold word_ok; nia). rewrite choose_next by lia.
  pose proof (choose_bound i (j + 1) ltac:(lia) ltac:(lia)). rewrite (proj2 (Z.ltb_lt _ _)) by lia.
  rewrite Nat.add_1_r. rewrite <- (IH (S j)) by lia. f_equal. apply mp_of_eq, cong_iff; [pose proof (wpow_pos w); lia|].
  assert (forall v, mp_val (mp_of w v) == v {mod wpow w}) as Hv.
  { intros v. rewrite mp_val_of. apply cong_mod. pose proof (wpow_pos w). lia. }
  rewrite !Hv. cbn [sum_upto]. unfold term at 3. rewrite (Z.mul_comm (Z.of_nat (i - j))), Z.pow_mul_r by lia.
  by replace (x ^ Z.of_nat j * choose i j * (2 ^ s) ^ Z.of_nat (i - j))
    with (choose i j * x ^ Z.of_nat j * (2 ^ s) ^ Z.of_nat (i - j)) by ring;
    rewrite Z.add_assoc.
Qed.

Lemma nthroot_newpower_spec x s i :
  0 <= x -> x ^ Z.of_nat n <= Y -> 0 <= s -> Z.of_nat n * s < 2 ^ 64 -> (i <= n)%nat ->
  nthroot_newpower (powers_of x) s i = Some (mp_of w ((x + 2 ^ s) ^ Z.of_nat i)).
Proof using Hy Hn Hly.
  intros Hx Hp Hs Hns Hi. unfold nthroot_newpower. rewrite nth_powers, length_mp_of by done.
  rewrite mp_copy_into_spec by auto with ssh.
  rewrite <- (nthroot_terms_spec x s i 0 i) by (done || nia). rewrite choose_0. cbn [sum_upto]. rewrite Z.add_0_r.
  f_equal. rewrite mp_val_of. apply mp_of_mod.
Qed.

Lemma nthroot_bit_spec x s :
  0 <= x -> x ^ Z.of_nat n <= Y -> 0 <= s <= 64 * len y / Z.of_nat n ->
  nthroot_bit y n (powers_of x) s
  = Some (powers_of (if (x + 2 ^ s) ^ Z.of_nat n <=? Y then x + 2 ^ s else x)).
Proof using Hy Hn Hlen Hly.
  intros Hx Hp Hs. unfold nthroot_bit. pose proof wpow_w as (Hw&H1&H2). pose proof (pow2_pos s ltac:(lia)).
  assert (Z.of_nat n * s <= 64 * len y) as Hns.
  { pose proof (Z.mul_div_le (64 * len y) (Z.of_nat n)). nia. }
  assert (mapM (nthroot_newpower (powers_of x) s) (seq 0 (n + 1)) = Some (powers_of (x + 2 ^ s))) as ->.
  { apply mapM_Some_2, Forall2_fmap_r, Forall_Forall2_diag, Forall_forall. intros i Hi. apply elem_of_seq in Hi.
    apply nthroot_newpower_spec; try done; lia. }
  cbn [mbind option_bind]. rewrite nth_powers by lia.
  assert (0 <= (x + 2 ^ s) ^ Z.of_nat n < wpow w) as Hfit.
  { split; [apply Z.pow_nonneg; lia|].
    assert ((2 ^ s) ^ Z.of_nat n <= wpow (length y)) as Hb.
    { rewrite wpow_pow2, <- Z.pow_mul_r by lia. apply Z.pow_le_mono_r; [lia|]. unfold len in Hns. lia. }
    assert ((2 * Z.max x (2 ^ s)) ^ Z.of_nat n < wpow w) as Hm.
    { rewrite Z.pow_mul_l. pose proof (Z.pow_le_mono_r 2 (Z.of_nat n) 18 ltac:(lia) ltac:(lia)).
      assert (Z.max x (2 ^ s) ^ Z.of_nat n <= wpow (length y)) by (destruct (Z.max_spec x (2 ^ s)) as [[_ ->]|[_ ->]]; lia).
      pose proof (Z.pow_nonneg (Z.max x (2 ^ s)) (Z.of_nat n) ltac:(lia)). pow_norm. nia. }
    eapply Z.le_lt_trans; [|exact Hm]. apply Z.pow_le_mono_l. lia. }
  rewrite mp_cmp_hs_spec, mp_val_small by (auto with ssh; done). f_equal. unfold powers_of at 4.
  apply list_fmap_ext. intros idx i Hi. apply list_elem_of_lookup_2, elem_of_seq in Hi.
  rewrite !nth_powers, length_mp_of, mp_select_into_spec by (auto with ssh; lia).
  fold Y. destruct (_ <=? Y); rewrite mp_val_of; apply mp_of_mod.
Qed.

Lemma nthroot_loop_spec s x :
  0 <= x -> x ^ Z.of_nat n <= Y < (x + 2 ^ Z.of_nat s) ^ Z.of_nat n ->
  Z.of_nat s <= 64 * len y / Z.of_nat n + 1 ->
  exists r, nthroot_loop s y n (powers_of x) = Some (powers_of r) /\ 0 <= r
    /\ r ^ Z.of_nat n <= Y < (r + 1) ^ Z.of_nat n.
Proof using Hy Hn Hlen Hly.
  revert x; induction s as [|s IH]; intros x Hx Hb Hs; cbn [nthroot_loop].
  { exists x. split; [done|]. split; [done|]. exact Hb. }
  rewrite nthroot_bit_spec by (done || lia). cbn [mbind option_bind]. apply IH; [| |lia].
  - pose proof (pow2_pos (Z.of_nat s)). destruct (_ <=? Y); lia.
  - rewrite Nat2Z.inj_succ, Z.pow_succ_r in Hb by lia.
    destruct (Z.leb_spec ((x + 2 ^ Z.of_nat s) ^ Z.of_nat n) Y) as [Hle|Hgt]; [|lia].
    split; [done|]. replace (x + 2 ^ Z.of_nat s + 2 ^ Z.of_nat s) with (x + 2 * 2 ^ Z.of_nat s) by ring. lia.
Qed.
End NthRoot.

Lemma nthroot_start (w n : nat) :
  (0 < w)%nat ->
  (alloc ← mapM (fun _ => mp_make_sized w) (seq 0 (2 * (n + 1) + 1));
   let powers := take (n + 1) alloc in
   Some (<[0%nat := mp_copy_integer_into (length (nth 0 powers [])) 1]> powers))
  = Some ((fun i => mp_of w (0 ^ Z.of_nat i)) <$> seq 0 (n + 1)).
Proof.
  intros Hw. assert (mapM (fun _ => mp_make_sized w) (seq 0 (2 * (n + 1) + 1))
    = Some ((fun _ => mp_of w 0) <$> seq 0 (2 * (n + 1) + 1))) as ->.
  { apply mapM_Some_2, Forall2_fmap_r, Forall_Forall2_diag, Forall_forall. intros i _. by apply mp_make_sized_spec. }
  cbn [mbind option_bind]. f_equal. rewrite <- fmap_take, take_seq, Nat.min_l by lia.
  rewrite Nat.add_1_r. cbn [seq fmap list_fmap nth]. rewrite length_mp_of.
  cbn [insert list_insert]. f_equal.
  - by apply mp_copy_integer_into_spec.
  - apply list_fmap_ext. intros idx i Hi. apply list_elem_of_lookup_2, elem_of_seq in Hi.
    rewrite Z.pow_0_l by lia. done.
Qed.

(** The words of the root suffice: [n] is far below the bits of a word. *)
Lemma root_words (nw n rootw : nat) r :
  (0 < nw)%nat -> (1 <= n <= 18)%nat -> Z.of_nat rootw = (64 * Z.of_nat nw / Z.of_nat n + 63) / 64 ->
  0 <= r -> r ^ Z.of_nat n < wpow nw -> r < wpow rootw.
Proof.
  intros Hnw Hn Er Hr Hlt. apply Z.nle_gt. intros Hge. rewrite wpow_pow2 in *.
  pose proof (Z.pow_le_mono_l (2 ^ (64 * Z.of_nat rootw)) r (Z.of_nat n)) as H.
  rewrite <- Z.pow_mul_r in H by lia.
  assert (64 * Z.of_nat rootw * Z.of_nat n < 64 * Z.of_nat nw) as H2.
  { apply Z.nle_gt. intros H3. pose proof (Z.pow_le_mono_r 2 _ _ ltac:(lia) H3).
    pose proof (pow2_pos (64 * Z.of_nat rootw)). lia. }
  assert (64 * Z.of_nat rootw + 1 <= 64 * Z.of_nat nw / Z.of_nat n); [|zdivmod].
  apply Z.div_le_lower_bound; nia.
Qed.

(** Integer roots: for [1 <= n <= 18] (beyond that the 16-bit binomial coefficients
    of the code overflow and its assertion fails) [mp_nthroot] returns the largest
    number whose [n]-th power does not exceed [y], and the remainder when asked for. *)
Theorem mp_nthroot_correct (y : mp_int) (n rw : nat) :
  mp_ok y -> (0 < length y)%nat -> len y < 2 ^ 50 -> (1 <= n <= 18)%nat ->
  exists root rem, mp_nthroot y n (Some rw) = Some (root, Some rem)
    /\ 0 <= mp_val root /\ mp_val root ^ Z.of_nat n <= mp_val y < (mp_val root + 1) ^ Z.of_nat n
    /\ rem = mp_of rw (mp_val y - mp_val root ^ Z.of_nat n).
Proof.
  intros Hy Hl Hlen Hn. unfold mp_nthroot. rewrite (proj2 (Nat.ltb_lt 0 n)) by lia.
  pose proof (nthroot_start (length y + 1) n ltac:(lia)) as Es. fold (powers_of y n 0) in Es.
  destruct (mapM _ (seq 0 (2 * (n + 1) + 1))) as [alloc|] eqn:Ea; [|done]. cbn [mbind option_bind] in Es |- *.
  injection Es as ->. pose proof (mp_val_bound y Hy) as Hv. unfold mp_max_bits. change BIGNUM_INT_BITS with 64.
  rewrite (Z.mul_comm (len y)). set (q := 64 * len y / Z.of_nat n).
  assert (3 <= q <= 64 * len y) as Hq.
  { unfold q, len. split; [apply Z.div_le_lower_bound; lia|apply Z.div_le_upper_bound; nia]. }
  destruct (nthroot_loop_spec y n Hy Hl Hlen Hn (Z.to_nat (q + 1)) 0) as (r&->&Hr&Hb); [lia| |fold q; lia|].
  { rewrite Z.pow_0_l, Z.add_0_l, <- Z.pow_mul_r by lia. split; [lia|].
    eapply Z.lt_le_trans; [apply Hv|]. rewrite wpow_pow2. apply Z.pow_le_mono_r; [lia|].
    rewrite Z2Nat.id by lia. unfold q, len. pose proof (Z.div_mod (64 * Z.of_nat (length y)) (Z.of_nat n)).
    pose proof (Z.mod_pos_bound (64 * Z.of_nat (length y)) (Z.of_nat n)). nia. }
  cbn [mbind option_bind fmap option_fmap option_map]. unfold mp_new. change BIGNUM_INT_BITS with 64.
  rewrite wrap_id by (unfold word_ok; lia). assert (1 <= (q + 64 - 1) / 64) by (apply Z.div_le_lower_bound; lia).
  rewrite mp_make_sized_spec by lia. cbn [mbind option_bind].
  rewrite length_mp_of, !nth_powers by lia.
  assert (r < wpow (Z.to_nat ((q + 64 - 1) / 64))) as Hrw.
  { apply (root_words (length y) n); try done; [|lia].
    rewrite Z2Nat.id by lia. fold (len y). fold q. f_equal. lia. }
  pose proof (power_small y n Hy Hl Hn r 1 Hr (proj1 Hb) ltac:(lia)) as H1.
  pose proof (power_small y n Hy Hl Hn r n Hr (proj1 Hb) ltac:(lia)) as H2.
  pose proof (wpow_le (length y) (length y + 1) ltac:(lia)).
  rewrite mp_copy_into_spec, mp_sub_into_spec, !mp_val_small by (auto with ssh; lia).
  change (Z.of_nat 1) with 1 in *. rewrite Z.pow_1_r in *.
  eexists _, _. split; [done|]. rewrite mp_val_small by lia. done.
Qed.


(** ** Random numbers

    [random_read_fn_t] is a parameter: the bytes it writes into a buffer of a given size. *)

Section Random.
Context (random_read : Z -> list Z).

Definition mp_random_bits_fn (bits : Z) : option mp_int :=
  let bytes := u64 (bits + 7) / 8 in
  let randbuf := random_read bytes in
  let randbuf := if bytes =? 0 then randbuf
                 else <[0%nat := nth 0 randbuf 0 .& ((2 << (u64 (bits - 1) .& 7)) - 1)]> randbuf in
  mp_from_bytes_be randbuf.

Definition mp_random_upto_fn (limit : mp_int) : option mp_int :=
  unreduced ← mp_random_bits_fn (mp_max_bits limit + 128);
  mp_mod unreduced limit.

Definition mp_random_in_range_fn (lo hi : mp_int) : option mp_int :=
  n_outcomes ← mp_sub hi lo;
  addend ← mp_random_upto_fn n_outcomes;
  result ← mp_make_sized (length hi);
  Some (mp_add_into (length result) addend lo).

Context (Hlen : forall n, 0 <= n -> len (random_read n) = n) (Hok : forall n, bytes_ok (random_read n)).

Lemma be_val_cons b l : be_val (b :: l) = b * 256 ^ len l + be_val l.
Proof using. exact (digits_val_app 256 [b] l). Qed.

Lemma mp_random_bits_fn_spec bits :
  0 <= bits < 2 ^ 60 ->
  exists r, mp_random_bits_fn bits = Some r /\ mp_ok r /\ (0 < length r)%nat /\ len r <= bits / 64 + 2
    /\ mp_val r = be_val (random_read ((bits + 7) / 8)) mod 2 ^ bits.
Proof using Hlen Hok.
  intros Hb. unfold mp_random_bits_fn. rewrite (wrap_id 64 (bits + 7)) by (unfold word_ok; lia).
  set (n := (bits + 7) / 8). assert (0 <= n) by (unfold n; zdivmod).
  pose proof (Hlen n ltac:(lia)) as Hl. pose proof (Hok n) as Ho. set (buf := random_read n) in *.
  set (buf' := if n =? 0 then buf else _).
  assert (bytes_ok buf' /\ length buf' = length buf /\ be_val buf' = be_val buf mod 2 ^ bits) as (Ho'&Hl'&Hv).
  { unfold buf'. destruct (Z.eqb_spec n 0) as [E|E].
    { assert (bits = 0) as -> by (unfold n in E; zdivmod). rewrite E in Hl.
      apply Z.eq_le_incl, len_nil_inv in Hl. rewrite Hl. done. }
    destruct buf as [|b l]; [rewrite len_nil in Hl; lia|]. apply Forall_cons_iff in Ho as [Hbb Hlo].
    rewrite len_cons in Hl. cbn [nth insert list_insert]. set (r := (bits - 1) mod 8).
    rewrite (wrap_id 64 (bits - 1)) by (unfold word_ok, n in *; zdivmod).
    change 7 with (2 ^ 3 - 1). rewrite land_mask by lia. change (2 ^ 3) with 8. fold r.
    assert (0 <= r < 8) by (apply Z.mod_pos_bound; lia).
    assert (2 << r = 2 ^ (r + 1)) as -> by (rewrite Z.shiftl_mul_pow2, Z.pow_add_r by lia; lia).
    rewrite land_mask by lia.
    pose proof (Z.mod_pos_bound b (2 ^ (r + 1)) ltac:(apply pow2_pos; lia)) as Hm.
    pose proof (Z.pow_le_mono_r 2 (r + 1) 8 ltac:(lia) ltac:(lia)).
    split; [constructor; [unfold word_ok; lia|done]|]. split; [done|]. rewrite !be_val_cons.
    pose proof (be_val_bound l Hlo) as Hbl. set (q := 256 ^ len l) in *.
    assert (2 ^ bits = q * 2 ^ (r + 1)) as ->.
    { unfold q. change 256 with (2 ^ 8). rewrite <- Z.pow_mul_r, <- Z.pow_add_r by (auto with ssh; lia).
      f_equal. unfold r, n in *. zdivmod. }
    assert ((b * q + be_val l) mod q = be_val l /\ (b * q + be_val l) / q = b) as [Em Ed].
    { rewrite (Z.add_comm (b * q)), Z.mod_add, Z.div_add, Z.mod_small, (Z.div_small (be_val l)) by lia. done. }
    rewrite Z.rem_mul_r, Em, Ed by lia. ring. }
  rewrite mp_from_bytes_be_spec; [|done|unfold len in *; rewrite Hl'; unfold n in *; zdivmod].
  eexists. split; [done|]. split; [auto with ssh|]. rewrite length_mp_of. split; [apply byte_words_pos|].
  unfold len in *. rewrite Hl'. split.
  { rewrite length_mp_of. unfold byte_words. pose proof (Nat.div_mod_eq (length buf + 7) 8).
    pose proof (Nat.mod_upper_bound (length buf + 7) 8). unfold n in *. zdivmod. }
  rewrite <- Hv. apply mp_val_small. pose proof (be_val_bound buf' Ho') as Hbb. unfold len in Hbb. rewrite Hl' in Hbb.
  rewrite wpow_pow2. rewrite <- pow_byte in Hbb. pose proof (byte_words_enough (length buf)).
  pose proof (Z.pow_le_mono_r 2 (8 * Z.of_nat (length buf)) (64 * Z.of_nat (byte_words (length buf)))). lia.
Qed.

Lemma mp_random_upto_fn_spec limit :
  mp_ok limit -> mp_val limit <> 0 -> len limit < 2 ^ 47 ->
  mp_random_upto_fn limit
  = Some (mp_of (length limit) (be_val (random_read (8 * len limit + 16)) mod mp_val limit)).
Proof using Hlen Hok.
  intros Hl H0 Hs. unfold mp_random_upto_fn, mp_max_bits. change BIGNUM_INT_BITS with 64.
  pose proof (len_nonneg limit).
  destruct (mp_random_bits_fn_spec (len limit * 64 + 128)) as (r&->&Hr&Hlr&Hlr2&Hv); [lia|].
  cbn [mbind option_bind]. rewrite mp_mod_spec; try done; [|zdivmod|lia]. do 2 f_equal. rewrite Hv.
  replace ((len limit * 64 + 128 + 7) / 8) with (8 * len limit + 16) by zdivmod.
  rewrite (Z.mod_small _ (2 ^ _)); [done|].
  pose proof (be_val_bound _ (Hok (8 * len limit + 16))) as Hb. rewrite Hlen in Hb by lia.
  change 256 with (2 ^ 8) in Hb. rewrite <- Z.pow_mul_r in Hb by lia.
  replace (len limit * 64 + 128) with (8 * (8 * len limit + 16)) by lia. done.
Qed.
End Random.

(** The random-number functions stay in range and lose nothing of their input: for a
    byte source that fills its buffer, [mp_random_bits_fn] returns the bytes read,
    big-endian, cut to [bits] bits, and [mp_random_in_range_fn] returns [lo] plus the bytes
    read (128 bits more than [hi - lo] can have) modulo [hi - lo], a number in [lo, hi). *)
Theorem mp_random_correct (random_read : Z -> list Z) (bits : Z) (lo hi : mp_int) :
  (forall n, 0 <= n -> len (random_read n) = n) -> (forall n, bytes_ok (random_read n)) ->
  0 <= bits < 2 ^ 60 -> operand_ok lo -> operand_ok hi -> mp_val lo < mp_val hi ->
  (exists r, mp_random_bits_fn random_read bits = Some r
     /\ mp_val r = be_val (random_read ((bits + 7) / 8)) mod 2 ^ bits)
  /\ exists r, mp_random_in_range_fn random_read lo hi = Some r
     /\ mp_val r = mp_val lo
          + be_val (random_read (8 * Z.max (len hi) (len lo) + 16)) mod (mp_val hi - mp_val lo)
     /\ mp_val lo <= mp_val r < mp_val hi.
Proof.
  intros Hlen Hok Hb (Hlo&Hllo&Hslo) (Hhi&Hlhi&Hshi) Hlt. split.
  { destruct (mp_random_bits_fn_spec random_read Hlen Hok bits Hb) as (r&E&_&_&_&Hv). eauto. }
  unfold mp_random_in_range_fn. rewrite mp_sub_spec by done. cbn [mbind option_bind].
  pose proof (mp_val_bound hi Hhi) as Hvh. pose proof (mp_val_bound lo Hlo) as Hvl.
  pose proof (wpow_le (length hi) (Nat.max (length hi) (length lo)) ltac:(lia)).
  set (w := Nat.max (length hi) (length lo)) in *.
  assert (mp_val (mp_of w (mp_val hi - mp_val lo)) = mp_val hi - mp_val lo) as Ed by (apply mp_val_small; lia).
  rewrite mp_random_upto_fn_spec; [|done|done|auto with ssh|lia|unfold len in *; rewrite length_mp_of; lia].
  cbn [mbind option_bind]. rewrite mp_make_sized_spec by done. cbn [mbind option_bind].
  unfold len at 1 in Hshi. unfold len at 1. rewrite !length_mp_of, Ed.
  replace (8 * Z.of_nat w + 16) with (8 * Z.max (len hi) (len lo) + 16) by (unfold w, len; lia).
  set (v := be_val _ mod _). assert (0 <= v < mp_val hi - mp_val lo) by (apply Z.mod_pos_bound; lia).
  rewrite mp_add_into_spec, mp_val_small by (auto with ssh; lia).
  eexists. split; [done|]. rewrite mp_val_small by lia. lia.
Qed.

