(* ===== verification/Tree234.v ===== *)
(** * The counted 2-3-4 tree of tree234.c

    Nodes have the source's four kids, four counts and three elements; [Null] is the
    NULL kid pointer and an element slot is [None] when it is NULL.  A node under
    modification is held with the path up to the root (each ancestor with the number
    of the child descended into), which stands for the [parent] pointers and for the
    search of [n] among [n->parent->kids].  [None] as the result of an operation is a
    step without defined behaviour (a NULL or out-of-range slot dereferenced) or a
    failed [assert].  Counts are unbounded integers: a tree never holds 2^31 elements. *)

From stdpp Require Import sorting.
From S2P Require Import Prelude.

Open Scope Z_scope.

Section Model.
Context {E : Type}.

Inductive node234 : Type :=
| Null
| Node (k0 k1 k2 k3 : node234) (c0 c1 c2 c3 : Z) (e0 e1 e2 : option E).

Definition kid (n : node234) (i : nat) : node234 :=
  match n with
  | Null => Null
  | Node k0 k1 k2 k3 _ _ _ _ _ _ _ => match i with 0 => k0 | 1 => k1 | 2 => k2 | 3 => k3 | _ => Null end
  end%nat.
Definition count (n : node234) (i : nat) : Z :=
  match n with
  | Null => 0
  | Node _ _ _ _ c0 c1 c2 c3 _ _ _ => match i with 0%nat => c0 | 1%nat => c1 | 2%nat => c2 | 3%nat => c3 | _ => 0 end
  end.
Definition elem (n : node234) (i : nat) : option E :=
  match n with
  | Null => None
  | Node _ _ _ _ _ _ _ _ e0 e1 e2 => match i with 0 => e0 | 1 => e1 | 2 => e2 | _ => None end
  end%nat.

Definition set_kid (n : node234) (i : nat) (k : node234) : node234 :=
  match n with
  | Null => Null
  | Node k0 k1 k2 k3 c0 c1 c2 c3 e0 e1 e2 =>
      match i with
      | 0 => Node k k1 k2 k3 c0 c1 c2 c3 e0 e1 e2
      | 1 => Node k0 k k2 k3 c0 c1 c2 c3 e0 e1 e2
      | 2 => Node k0 k1 k k3 c0 c1 c2 c3 e0 e1 e2
      | 3 => Node k0 k1 k2 k c0 c1 c2 c3 e0 e1 e2
      | _ => n
      end
  end%nat.
Definition set_count (n : node234) (i : nat) (c : Z) : node234 :=
  match n with
  | Null => Null
  | Node k0 k1 k2 k3 c0 c1 c2 c3 e0 e1 e2 =>
      match i with
      | 0 => Node k0 k1 k2 k3 c c1 c2 c3 e0 e1 e2
      | 1 => Node k0 k1 k2 k3 c0 c c2 c3 e0 e1 e2
      | 2 => Node k0 k1 k2 k3 c0 c1 c c3 e0 e1 e2
      | 3 => Node k0 k1 k2 k3 c0 c1 c2 c e0 e1 e2
      | _ => n
      end
  end%nat.
Definition set_elem (n : node234) (i : nat) (e : option E) : node234 :=
  match n with
  | Null => Null
  | Node k0 k1 k2 k3 c0 c1 c2 c3 e0 e1 e2 =>
      match i with
      | 0 => Node k0 k1 k2 k3 c0 c1 c2 c3 e e1 e2
      | 1 => Node k0 k1 k2 k3 c0 c1 c2 c3 e0 e e2
      | 2 => Node k0 k1 k2 k3 c0 c1 c2 c3 e0 e1 e
      | _ => n
      end
  end%nat.

Definition isnull (n : node234) : bool := match n with Null => true | _ => false end.
Definition present (e : option E) : bool := match e with Some _ => true | None => false end.

Record tree234 := mkTree { root : node234; cmp : option (E -> E -> Z) }.

Definition newtree234 (cmp : option (E -> E -> Z)) : tree234 := mkTree Null cmp.

Definition countnode234 (n : node234) : Z :=
  match n with
  | Null => 0
  | Node _ _ _ _ c0 c1 c2 c3 e0 e1 e2 =>
      let count := c0 + c1 + c2 + c3 in
      count + Z.b2z (present e0) + Z.b2z (present e1) + Z.b2z (present e2)
  end.

(** Counted up to the first NULL element. *)
Definition elements234 (n : node234) : Z :=
  if negb (present (elem n 0)) then 0
  else if negb (present (elem n 1)) then 1
  else if negb (present (elem n 2)) then 2 else 3.

Definition count234 (t : tree234) : Z := countnode234 (root t).

(** ** Insertion *)

Abbreviation path := (list (node234 * nat)).

(** Where to go from node [n]: the child number and the index within that child. *)
Inductive descent := Descend (childnum : nat) (index : Z) | Exists_already (e : E) | Range_error | Undefined.

Definition add_child_index (n : node234) (index : Z) : descent :=
  if isnull (kid n 0) then
    if index <=? 3 then Descend (Z.to_nat index) index else Undefined
  else if index <=? count n 0 then Descend 0 index
  else let index := index - (count n 0 + 1) in
  if index <=? count n 1 then Descend 1 index
  else let index := index - (count n 1 + 1) in
  if index <=? count n 2 then Descend 2 index
  else let index := index - (count n 2 + 1) in
  if index <=? count n 3 then Descend 3 index
  else Range_error.

Definition add_child_cmp (cmp : E -> E -> Z) (e : E) (n : node234) (index : Z) : descent :=
  match elem n 0 with
  | None => Undefined
  | Some x0 =>
      let c := cmp e x0 in
      if c <? 0 then Descend 0 index else if c =? 0 then Exists_already x0 else
      match elem n 1 with
      | None => Descend 1 index
      | Some x1 =>
          let c := cmp e x1 in
          if c <? 0 then Descend 1 index else if c =? 0 then Exists_already x1 else
          match elem n 2 with
          | None => Descend 2 index
          | Some x2 =>
              let c := cmp e x2 in
              if c <? 0 then Descend 2 index else if c =? 0 then Exists_already x2 else Descend 3 index
          end
      end
  end.

Definition add_child (cmp : option (E -> E -> Z)) (e : E) (n : node234) (index : Z) : descent :=
  if 0 <=? index then add_child_index n index
  else match cmp with Some cmp => add_child_cmp cmp e n index | None => Undefined end.

(** [while ( *np)]: the path of the place to insert at, or an early return. *)
Fixpoint add_find (cmp : option (E -> E -> Z)) (e : E) (n : node234) (index : Z) (up : path)
  : option (path + option E) :=
  match n with
  | Null => Some (inl up)
  | Node k0 k1 k2 k3 _ _ _ _ _ _ _ =>
      match add_child cmp e n index with
      | Descend childnum index =>
          let up := (n, childnum) :: up in
          match childnum with
          | 0 => add_find cmp e k0 index up
          | 1 => add_find cmp e k1 index up
          | 2 => add_find cmp e k2 index up
          | 3 => add_find cmp e k3 index up
          | _ => None
          end%nat
      | Exists_already x => Some (inr (Some x))
      | Range_error => Some (inr None)
      | Undefined => None
      end
  end.

(** Insert [left e right] in [n] at position [np]: the node, or the two halves of a
    split 4-node around the element to pass up. *)
Definition insert_at (n : node234) (np : nat) (left : node234) (lcount : Z) (e : option E)
    (right : node234) (rcount : Z) : node234 + node234 * option E * node234 :=
  match n with
  | Null => inl Null
  | Node k0 k1 k2 k3 c0 c1 c2 c3 e0 e1 e2 =>
      if negb (present e1) then
        inl match np with
            | 0 => Node left right k1 k3 lcount rcount c1 c3 e e0 e2
            | _ => Node k0 left right k3 c0 lcount rcount c3 e0 e e2
            end%nat
      else if negb (present e2) then
        inl match np with
            | 0 => Node left right k1 k2 lcount rcount c1 c2 e e0 e1
            | 1 => Node k0 left right k2 c0 lcount rcount c2 e0 e e1
            | _ => Node k0 k1 left right c0 c1 lcount rcount e0 e1 e
            end%nat
      else
        inr match np with
            | 0 => (Node left right k1 Null lcount rcount c1 0 e e0 None, e1,
                    Node k2 k3 Null Null c2 c3 0 0 e2 None None)
            | 1 => (Node k0 left right Null c0 lcount rcount 0 e0 e None, e1,
                    Node k2 k3 Null Null c2 c3 0 0 e2 None None)
            | 2 => (Node k0 k1 left Null c0 c1 lcount 0 e0 e1 None, e,
                    Node right k3 Null Null rcount c3 0 0 e2 None None)
            | _ => (Node k0 k1 k2 Null c0 c1 c2 0 e0 e1 None, e2,
                    Node left right Null Null lcount rcount 0 0 e None None)
            end%nat
  end.

(** Back up the tree, updating counts. *)
Fixpoint fix_counts (n : node234) (up : path) : node234 :=
  match up with
  | [] => n
  | (p, childnum) :: up => fix_counts (set_count (set_kid p childnum n) childnum (countnode234 n)) up
  end.

Fixpoint insert_up (up : path) (left : node234) (lcount : Z) (e : option E) (right : node234) (rcount : Z)
  : node234 :=
  match up with
  | [] => Node left right Null Null lcount rcount 0 0 e None None
  | (n, np) :: up =>
      match insert_at n np left lcount e right rcount with
      | inl n => fix_counts n up
      | inr (m, e, n) => insert_up up m (countnode234 m) e n (countnode234 n)
      end
  end.

(** The tree and the returned element (NULL is [None]). *)
Definition add234_internal (t : tree234) (e : E) (index : Z) : option (tree234 * option E) :=
  if isnull (root t) then
    Some (mkTree (Node Null Null Null Null 0 0 0 0 (Some e) None None) (cmp t), Some e)
  else
    match add_find (cmp t) e (root t) index [] with
    | None => None
    | Some (inr r) => Some (t, r)
    | Some (inl up) => Some (mkTree (insert_up up Null 0 (Some e) Null 0) (cmp t), Some e)
    end.

Definition add234 (t : tree234) (e : E) : option (tree234 * option E) :=
  match cmp t with None => Some (t, None) | Some _ => add234_internal t e (-1) end.

Definition addpos234 (t : tree234) (e : E) (index : Z) : option (tree234 * option E) :=
  if (index <? 0) || bool_decide (is_Some (cmp t)) then Some (t, None) else add234_internal t e index.
(** ** Lookup *)

(** The cascade of comparisons of an index with the counts of a node: a child with
    the index inside it, or an element of the node. *)
Definition locate (n : node234) (index : Z) : nat * Z + nat :=
  if index <? count n 0 then inl (0%nat, index)
  else let index := index - (count n 0 + 1) in if index <? 0 then inr 0%nat
  else if index <? count n 1 then inl (1%nat, index)
  else let index := index - (count n 1 + 1) in if index <? 0 then inr 1%nat
  else if index <? count n 2 then inl (2%nat, index)
  else let index := index - (count n 2 + 1) in if index <? 0 then inr 2%nat
  else inl (3%nat, index).

Fixpoint index_loop (n : node234) (index : Z) : option E :=
  match n with
  | Null => None
  | Node k0 k1 k2 k3 _ _ _ _ _ _ _ =>
      match locate n index with
      | inr ei => elem n ei
      | inl (ki, index) =>
          match ki with
          | 0 => index_loop k0 index | 1 => index_loop k1 index
          | 2 => index_loop k2 index | _ => index_loop k3 index
          end%nat
      end
  end.

Definition index234 (t : tree234) (index : Z) : option E :=
  if isnull (root t) then None
  else if (index <? 0) || (countnode234 (root t) <=? index) then None
  else index_loop (root t) index.

(** [search234_state] *)
Record search234_state := mkSearch {
  s_element : option E; s_index : Z; s_lo : Z; s_hi : Z; s_last : Z; s_base : Z; s_node : node234
}.

(** [for (i = 0; i < k; i++) acc += 1 + node->counts[i]] and the same without the 1. *)
Definition sum_counts (n : node234) (k : nat) : Z :=
  fold_left (fun acc i => acc + (1 + count n i)) (seq 0 k) 0.
Definition sum_only_counts (n : node234) (k : nat) : Z :=
  fold_left (fun acc i => acc + count n i) (seq 0 k) 0.

(** The second half of a step, [node] having just been entered when [last] is -1. *)
Definition search_here (node : node234) (base lo hi last : Z) : search234_state :=
  let '(lo, hi) := if last =? -1 then (0, if isnull node then 0 else elements234 node - 1) else (lo, hi) in
  if isnull node then mkSearch None base lo hi last base node
  else
    let last := Z.quot (lo + hi) 2 in
    mkSearch (elem node (Z.to_nat last)) (base + last + sum_only_counts node (Z.to_nat (last + 1)))
      lo hi last base node.

Definition search234_step (s : search234_state) (direction : Z) : option search234_state :=
  let '(mkSearch _ _ lo hi last base node) := s in
  if isnull node then Some (mkSearch None 0 lo hi last base node)
  else if last =? -1 then Some (search_here node base lo hi last)
  else if direction =? 0 then None
  else
    let '(lo, hi) := if 0 <? direction then (last + 1, hi) else (lo, last - 1) in
    if hi <? lo
    then Some (search_here (kid node (Z.to_nat lo)) (base + sum_counts node (Z.to_nat lo)) lo hi (-1))
    else Some (search_here node base lo hi last).

Definition search234_start (t : tree234) : option search234_state :=
  search234_step (mkSearch None 0 0 0 (-1) 0 (root t)) 0.

Inductive relation234 := REL234_EQ | REL234_LT | REL234_LE | REL234_GT | REL234_GE.

Definition reldir (r : relation234) : Z :=
  match r with REL234_LT | REL234_LE => -1 | REL234_GT | REL234_GE => 1 | REL234_EQ => 0 end.
Definition equal_permitted (r : relation234) : bool :=
  match r with REL234_LT | REL234_GT => false | _ => true end.

(** [while (ss.element)]: the element found equal, or the index the search ends at. *)
Fixpoint find_loop (fuel : nat) (cmp : E -> E -> Z) (e : option E) (r : relation234) (ss : search234_state)
  : option (E * Z + Z) :=
  match s_element ss with
  | None => Some (inr (s_index ss))
  | Some x =>
      match fuel with
      | O => None
      | S fuel =>
          let cmpret := match e with Some e => cmp e x | None => - reldir r end in
          if (cmpret =? 0) && equal_permitted r then Some (inl (x, s_index ss))
          else
            let cmpret := if cmpret =? 0 then reldir r else cmpret in
            match search234_step ss cmpret with
            | Some ss => find_loop fuel cmp e r ss
            | None => None
            end
      end
  end.

Fixpoint height (n : node234) : nat :=
  match n with Null => 0%nat | Node k0 _ _ _ _ _ _ _ _ _ _ => S (height k0) end.

(** The element and its index; [cmp] is the tree's own when not given. *)
Definition findrelpos234 (t : tree234) (e : option E) (c : option (E -> E -> Z)) (r : relation234)
  : option (option (E * Z)) :=
  if equal_permitted r && negb (present e) then None
  else
    match (match c with Some c => Some c | None => cmp t end), search234_start t with
    | Some cmp, Some ss =>
        match find_loop (2 * height (root t) + 1) cmp e r ss with
        | None => None
        | Some (inl found) => Some (Some found)
        | Some (inr ix) =>
            match r with
            | REL234_EQ => Some None
            | _ =>
                let ix := match r with REL234_LT | REL234_LE => ix - 1 | _ => ix end in
                Some (option_map (fun x => (x, ix)) (index234 t ix))
            end
        end
    | _, _ => None
    end.

Definition findrel234 (t : tree234) (e : option E) (c : option (E -> E -> Z)) (r : relation234) : option (option E) :=
  option_map (option_map fst) (findrelpos234 t e c r).
Definition find234 (t : tree234) (e : option E) (c : option (E -> E -> Z)) : option (option E) :=
  findrel234 t e c REL234_EQ.
Definition findpos234 (t : tree234) (e : option E) (c : option (E -> E -> Z)) : option (option (E * Z)) :=
  findrelpos234 t e c REL234_EQ.

(** ** Deletion *)

(** Case 3a, left-handed: move a subtree from child [ki - 1] to child [ki]. *)
Definition del_3a_left (n : node234) (ki : nat) (index : Z) : node234 * nat * Z :=
  let sub := kid n ki in
  let sib := kid n (ki - 1) in
  let lastelem := if present (elem sib 2) then 2%nat else if present (elem sib 1) then 1%nat else 0%nat in
  let sub := set_kid sub 2 (kid sub 1) in
  let sub := set_count sub 2 (count sub 1) in
  let sub := set_elem sub 1 (elem sub 0) in
  let sub := set_kid sub 1 (kid sub 0) in
  let sub := set_count sub 1 (count sub 0) in
  let sub := set_elem sub 0 (elem n (ki - 1)) in
  let sub := set_kid sub 0 (kid sib (lastelem + 1)) in
  let sub := set_count sub 0 (count sib (lastelem + 1)) in
  let n := set_elem n (ki - 1) (elem sib lastelem) in
  let sib := set_kid sib (lastelem + 1) Null in
  let sib := set_count sib (lastelem + 1) 0 in
  let sib := set_elem sib lastelem None in
  let n := set_kid (set_kid n ki sub) (ki - 1) sib in
  let n := set_count n ki (countnode234 sub) in
  let index := index + count n (ki - 1) in
  let n := set_count n (ki - 1) (countnode234 sib) in
  let index := index - count n (ki - 1) in
  (n, ki, index).

(** [for (j = 0; j < 2 && sib->elems[j + 1]; j++)] *)
Fixpoint sib_shift (k j : nat) (sib : node234) : node234 * nat :=
  match k with
  | O => (sib, j)
  | S k =>
      if present (elem sib (j + 1)) then
        let sib := set_kid sib (j + 1) (kid sib (j + 2)) in
        let sib := set_count sib (j + 1) (count sib (j + 2)) in
        let sib := set_elem sib j (elem sib (j + 1)) in
        sib_shift k (j + 1) sib
      else (sib, j)
  end.

(** Case 3a, right-handed: move a subtree from child [ki + 1] to child [ki]. *)
Definition del_3a_right (n : node234) (ki : nat) (index : Z) : node234 * nat * Z :=
  let sub := kid n ki in
  let sib := kid n (ki + 1) in
  let sub := set_elem sub 1 (elem n ki) in
  let sub := set_kid sub 2 (kid sib 0) in
  let sub := set_count sub 2 (count sib 0) in
  let n := set_elem n ki (elem sib 0) in
  let sib := set_kid sib 0 (kid sib 1) in
  let sib := set_count sib 0 (count sib 1) in
  let '(sib, j) := sib_shift 2 0 sib in
  let sib := set_kid sib (j + 1) Null in
  let sib := set_count sib (j + 1) 0 in
  let sib := set_elem sib j None in
  let n := set_kid (set_kid n ki sub) (ki + 1) sib in
  let n := set_count n ki (countnode234 sub) in
  let n := set_count n (ki + 1) (countnode234 sib) in
  (n, ki, index).

(** [for (j = ki; j < 3 && n->kids[j + 1]; j++)] *)
Fixpoint drop_sib (k j : nat) (n : node234) : node234 * nat :=
  match k with
  | O => (n, j)
  | S k =>
      if negb (isnull (kid n (j + 1))) then
        let n := set_kid n j (kid n (j + 1)) in
        let n := set_count n j (count n (j + 1)) in
        let n := set_elem n j (if (j <? 2)%nat then elem n (j + 1) else None) in
        drop_sib k (j + 1) n
      else (n, j)
  end.

(** Case 3b: merge child [ki] with a neighbour around an element of [n]. *)
Definition del_3b (n : node234) (ki : nat) (index : Z) : node234 * nat * Z :=
  let '(ki, index) := if (0 <? ki)%nat then ((ki - 1)%nat, index + count n (ki - 1) + 1) else (ki, index) in
  let sib := kid n ki in
  let sub := kid n (ki + 1) in
  let sub := set_kid sub 3 (kid sub 1) in
  let sub := set_count sub 3 (count sub 1) in
  let sub := set_elem sub 2 (elem sub 0) in
  let sub := set_kid sub 2 (kid sub 0) in
  let sub := set_count sub 2 (count sub 0) in
  let sub := set_elem sub 1 (elem n ki) in
  let sub := set_kid sub 1 (kid sib 1) in
  let sub := set_count sub 1 (count sib 1) in
  let sub := set_elem sub 0 (elem sib 0) in
  let sub := set_kid sub 0 (kid sib 0) in
  let sub := set_count sub 0 (count sib 0) in
  let n := set_kid n (ki + 1) sub in
  let n := set_count n (ki + 1) (countnode234 sub) in
  let '(n, j) := drop_sib (3 - ki) ki n in
  let n := set_kid n j Null in
  let n := set_count n j 0 in
  let n := if (j <? 3)%nat then set_elem n j None else n in
  (n, ki, index).

(** One move down to child [ki]: the node, the child and the index inside it. *)
Definition del_descend (n : node234) (ki : nat) (index : Z) : node234 * nat * Z :=
  if negb (present (elem (kid n ki) 1)) then
    if (0 <? ki)%nat && present (elem (kid n (ki - 1)) 1) then del_3a_left n ki index
    else if (ki <? 3)%nat && negb (isnull (kid n (ki + 1))) && present (elem (kid n (ki + 1)) 1)
    then del_3a_right n ki index
    else del_3b n ki index
  else (n, ki, index).

(** The greatest and the least element of a subtree. *)
Fixpoint last_elem (m : node234) : option E :=
  match m with
  | Null => None
  | Node k0 k1 k2 k3 _ _ _ _ e0 e1 e2 =>
      if isnull k0 then (if present e2 then e2 else if present e1 then e1 else e0)
      else if negb (isnull k3) then last_elem k3
      else if negb (isnull k2) then last_elem k2
      else if negb (isnull k1) then last_elem k1 else last_elem k0
  end.
Fixpoint first_elem (m : node234) : option E :=
  match m with
  | Null => None
  | Node k0 _ _ _ _ _ _ _ e0 _ _ => if isnull k0 then e0 else first_elem k0
  end.

(** [for (i = ei; i < 2 && n->elems[i + 1]; i++) n->elems[i] = n->elems[i + 1]; n->elems[i] = NULL] *)
Fixpoint remove_elem (k i : nat) (n : node234) : node234 :=
  match k with
  | O => set_elem n i None
  | S k => if present (elem n (i + 1)) then remove_elem k (i + 1) (set_elem n i (elem n (i + 1)))
           else set_elem n i None
  end.

Fixpoint dec_counts (n : node234) (up : path) : node234 :=
  match up with
  | [] => n
  | (p, childnum) :: up => dec_counts (set_count (set_kid p childnum n) childnum (count p childnum - 1)) up
  end.

(** [for (j = ei; j < 2 && n->elems[j + 1]; j++)] of case 2c. *)
Fixpoint drop_right (k j : nat) (n : node234) : node234 * nat :=
  match k with
  | O => (n, j)
  | S k =>
      if present (elem n (j + 1)) then
        let n := set_elem n j (elem n (j + 1)) in
        let n := set_kid n (j + 1) (kid n (j + 2)) in
        let n := set_count n (j + 1) (count n (j + 2)) in
        drop_right k (j + 1) n
      else (n, j)
  end.

(** Case 2c: merge the children around element [ei], with it in the middle. *)
Definition del_2c (n : node234) (ei : nat) : node234 * node234 :=
  let a := kid n ei in
  let b := kid n (ei + 1) in
  let a := set_elem a 1 (elem n ei) in
  let a := set_kid a 2 (kid b 0) in
  let a := set_count a 2 (count b 0) in
  let a := set_elem a 2 (elem b 0) in
  let a := set_kid a 3 (kid b 1) in
  let a := set_count a 3 (count b 1) in
  let n := set_kid n ei a in
  let n := set_count n ei (countnode234 a) in
  let '(n, j) := drop_right (2 - ei) ei n in
  let n := set_elem n j None in
  let n := set_kid n (j + 1) Null in
  let n := set_count n (j + 1) 0 in
  (n, a).

(** The path of the node entered from [n]; a root left without elements is dropped. *)
Definition enter (n : node234) (ki : nat) (up : path) : path :=
  if present (elem n 0) then (n, ki) :: up else [].

(** The two nested loops: one round per node visited, the deleted element in [retval]. *)
Fixpoint del_loop (fuel : nat) (n : node234) (index : Z) (up : path) (retval : option E)
  : option (node234 * option E) :=
  match fuel with
  | O => None
  | S fuel =>
      if isnull n then None else
      match locate n index with
      | inl (ki, index) =>
          if isnull (kid n ki) then None else
          let '(n, ki, index) := del_descend n ki index in
          del_loop fuel (kid n ki) index (enter n ki up) retval
      | inr ei =>
          let retval := if present retval then retval else elem n ei in
          if (length up =? 0)%nat && negb (present (elem n 1)) && isnull (kid n 0) then Some (Null, retval)
          else if isnull (kid n 0) && present (elem n 1) then
            Some (dec_counts (remove_elem (2 - ei) ei n) up, retval)
          else if isnull (kid n ei) || isnull (kid n (ei + 1)) then None
          else if present (elem (kid n ei) 1) then
            let n := set_elem n ei (last_elem (kid n ei)) in
            del_loop fuel (kid n ei) (count n ei - 1) ((n, ei) :: up) retval
          else if present (elem (kid n (ei + 1)) 1) then
            let n := set_elem n ei (first_elem (kid n (ei + 1))) in
            del_loop fuel (kid n (ei + 1)) 0 ((n, S ei) :: up) retval
          else
            let '(n, a) := del_2c n ei in
            del_loop fuel a (count a 0 + count a 1 + 1) (enter n ei up) retval
      end
  end.

Definition delpos234_internal (t : tree234) (index : Z) : option (tree234 * option E) :=
  match del_loop (height (root t)) (root t) index [] None with
  | Some (n, retval) => Some (mkTree n (cmp t), retval)
  | None => None
  end.

Definition delpos234 (t : tree234) (index : Z) : option (tree234 * option E) :=
  if (index <? 0) || (countnode234 (root t) <=? index) then Some (t, None) else delpos234_internal t index.

Definition del234 (t : tree234) (e : E) : option (tree234 * option E) :=
  match findrelpos234 t (Some e) None REL234_EQ with
  | None => None
  | Some None => Some (t, None)
  | Some (Some (_, index)) => delpos234_internal t index
  end.
End Model.

Arguments node234 : clear implicits.
Arguments tree234 : clear implicits.

(** Normalises concatenations to the right-nested form. *)
Ltac lists := repeat progress (cbn -[Z.add Z.sub]; rewrite <- ?app_assoc, ?app_nil_r).

(** ** The list a tree stands for, and its shape *)

Section Theory.
Context {E : Type}.
Implicit Types (n k : node234 E) (up : list (node234 E * nat)) (e x : E) (l : list E).

Fixpoint to_list n : list E :=
  match n with
  | Null => []
  | Node k0 k1 k2 k3 _ _ _ _ e0 e1 e2 =>
      to_list k0 ++ option_list e0 ++ to_list k1 ++ option_list e1 ++ to_list k2 ++ option_list e2 ++ to_list k3
  end.

Definition size n : Z := len (to_list n).

(** The three kinds of node, with accurate counts. *)
Definition N2 k0 e0 k1 := Node k0 k1 Null Null (size k0) (size k1) 0 0 (Some e0) None None.
Definition N3 k0 e0 k1 e1 k2 := Node k0 k1 k2 Null (size k0) (size k1) (size k2) 0 (Some e0) (Some e1) None.
Definition N4 k0 e0 k1 e1 k2 e2 k3 :=
  Node k0 k1 k2 k3 (size k0) (size k1) (size k2) (size k3) (Some e0) (Some e1) (Some e2).

(** What the self-test of the source checks of a tree, at a depth [h] the same everywhere. *)
Inductive wf : nat -> node234 E -> Prop :=
| wf_null : wf 0 Null
| wf_2 h k0 e0 k1 : wf h k0 -> wf h k1 -> wf (S h) (N2 k0 e0 k1)
| wf_3 h k0 e0 k1 e1 k2 : wf h k0 -> wf h k1 -> wf h k2 -> wf (S h) (N3 k0 e0 k1 e1 k2)
| wf_4 h k0 e0 k1 e1 k2 e2 k3 :
    wf h k0 -> wf h k1 -> wf h k2 -> wf h k3 -> wf (S h) (N4 k0 e0 k1 e1 k2 e2 k3).

Lemma wf_0 n : wf 0 n -> n = Null.
Proof. by inversion 1. Qed.

Lemma size_N2 k0 e0 k1 : size (N2 k0 e0 k1) = size k0 + 1 + size k1.
Proof. unfold size, len. cbn. rewrite !length_app. cbn. rewrite !length_app. cbn. lia. Qed.
Lemma size_N3 k0 e0 k1 e1 k2 : size (N3 k0 e0 k1 e1 k2) = size k0 + 1 + size k1 + 1 + size k2.
Proof. unfold size, len. cbn. repeat (rewrite !length_app; cbn). lia. Qed.
Lemma size_N4 k0 e0 k1 e1 k2 e2 k3 : size (N4 k0 e0 k1 e1 k2 e2 k3) = size k0 + 1 + size k1 + 1 + size k2 + 1 + size k3.
Proof. unfold size, len. cbn. repeat (rewrite !length_app; cbn). lia. Qed.

Lemma countnode_wf h n : wf h n -> countnode234 n = size n.
Proof. destruct 1; [done|..]; rewrite ?size_N2, ?size_N3, ?size_N4; cbn -[size]; lia. Qed.

Lemma height_wf h n : wf h n -> height n = h.
Proof. induction 1; cbn; congruence. Qed.

Lemma size_nonneg n : 0 <= size n.
Proof. unfold size, len. lia. Qed.

(** The elements of a node left and right of a child. *)
Definition lft n (i : nat) : list E :=
  match n with
  | Null => []
  | Node k0 k1 k2 _ _ _ _ _ e0 e1 e2 =>
      match i with
      | 0 => []
      | 1 => to_list k0 ++ option_list e0
      | 2 => to_list k0 ++ option_list e0 ++ to_list k1 ++ option_list e1
      | _ => to_list k0 ++ option_list e0 ++ to_list k1 ++ option_list e1 ++ to_list k2 ++ option_list e2
      end
  end%nat.
Definition rgt n (i : nat) : list E :=
  match n with
  | Null => []
  | Node _ k1 k2 k3 _ _ _ _ e0 e1 e2 =>
      match i with
      | 0 => option_list e0 ++ to_list k1 ++ option_list e1 ++ to_list k2 ++ option_list e2 ++ to_list k3
      | 1 => option_list e1 ++ to_list k2 ++ option_list e2 ++ to_list k3
      | 2 => option_list e2 ++ to_list k3
      | _ => []
      end
  end%nat.

Lemma to_list_kid n i : (i < 4)%nat -> n <> Null -> to_list n = lft n i ++ to_list (kid n i) ++ rgt n i.
Proof. intros Hi Hn. destruct n; [done|]. do 4 (destruct i as [|i]; [cbn; by rewrite <- ?app_assoc, ?app_nil_r|]). lia. Qed.

Lemma lft_set_kid n i k : lft (set_kid n i k) i = lft n i.
Proof. destruct n; [done|]. by do 4 (destruct i as [|i]; [done|]). Qed.
Lemma rgt_set_kid n i k : rgt (set_kid n i k) i = rgt n i.
Proof. destruct n; [done|]. by do 4 (destruct i as [|i]; [done|]). Qed.
Lemma kid_set_kid n i k : (i < 4)%nat -> n <> Null -> kid (set_kid n i k) i = k.
Proof. intros Hi Hn. destruct n; [done|]. do 4 (destruct i as [|i]; [done|]). lia. Qed.

(** Number of elements of a node, and its children. *)
Definition kids_of n : nat := if negb (present (elem n 1)) then 2 else if negb (present (elem n 2)) then 3 else 4.

Lemma kid_wf h n i : wf (S h) n -> (i < kids_of n)%nat -> wf h (kid n i).
Proof. intros H Hi. inversion H; subst; cbn in Hi; do 4 (destruct i as [|i]; [first [done|lia]|]); lia. Qed.

Lemma count_wf h n i : wf h n -> count n i = size (kid n i).
Proof. intros H. inversion H; subst; by do 4 (destruct i as [|i]; [done|]). Qed.

(** A child replaced, with its count brought up to date. *)
Lemma replace_kid_wf h n i k :
  wf (S h) n -> (i < kids_of n)%nat -> wf h k -> wf (S h) (set_count (set_kid n i k) i (size k)).
Proof.
  intros H Hi Hk. inversion H; subst; cbn in Hi; do 4 (destruct i as [|i]; [first [by constructor|lia]|]); lia.
Qed.

(** ** Paths *)

(** A path below which hangs a subtree of depth [h]. *)
Fixpoint path_ok (h : nat) up : Prop :=
  match up with [] => True | (p, i) :: up => wf (S h) p /\ (i < kids_of p)%nat /\ path_ok (S h) up end.

Fixpoint before up : list E := match up with [] => [] | (p, i) :: up => before up ++ lft p i end.
Fixpoint after up : list E := match up with [] => [] | (p, i) :: up => rgt p i ++ after up end.

Lemma kids_of_le n : (kids_of n <= 4)%nat.
Proof. unfold kids_of. repeat case_match; lia. Qed.

(** The node a child of which has been replaced. *)
Lemma replace_kid h p i k :
  wf (S h) p -> (i < kids_of p)%nat -> wf h k ->
  let p' := set_count (set_kid p i k) i (size k) in
  wf (S h) p' /\ to_list p' = lft p i ++ to_list k ++ rgt p i.
Proof.
  intros Hp Hi Hk p'. split; [by apply replace_kid_wf|]. pose proof (kids_of_le p).
  inversion Hp; subst; cbn in Hi; do 4 (destruct i as [|i]; [try lia; by lists|]); lia.
Qed.

Lemma fix_counts_spec h n up :
  wf h n -> path_ok h up ->
  exists h', wf h' (fix_counts n up) /\ to_list (fix_counts n up) = before up ++ to_list n ++ after up.
Proof.
  revert h n; induction up as [|[p i] up IH]; intros h n Hn; cbn [path_ok fix_counts before after].
  { intros _. exists h. by rewrite app_nil_r. }
  intros (Hp&Hi&Hup). rewrite (countnode_wf h n Hn). destruct (replace_kid h p i n Hp Hi Hn) as [Hw Hl].
  destruct (IH _ _ Hw Hup) as (h'&Hw'&Hl'). exists h'. split; [done|]. rewrite Hl', Hl. by rewrite <- !app_assoc.
Qed.

(** ** Insertion *)

Lemma insert_at_spec h n np left e right :
  wf (S h) n -> (np < kids_of n)%nat -> wf h left -> wf h right ->
  let l := lft n np ++ to_list left ++ e :: to_list right ++ rgt n np in
  match insert_at n np left (size left) (Some e) right (size right) with
  | inl n' => wf (S h) n' /\ to_list n' = l
  | inr (m, e', n') => exists x, e' = Some x /\ wf (S h) m /\ wf (S h) n' /\ to_list m ++ x :: to_list n' = l
  end.
Proof.
  intros Hn Hi Hl Hr. inversion Hn; subst; cbn in Hi;
    do 4 (destruct np as [|np];
          [try lia; cbn -[size];
           first [split; [by constructor|] | eexists; split; [done|]; split; [by constructor|]; split; [by constructor|]];
           by lists|]); lia.
Qed.

Lemma insert_up_spec h up left e right :
  wf h left -> wf h right -> path_ok h up ->
  exists h', wf h' (insert_up up left (size left) (Some e) right (size right))
    /\ to_list (insert_up up left (size left) (Some e) right (size right))
       = before up ++ to_list left ++ e :: to_list right ++ after up.
Proof.
  revert h left e right; induction up as [|[n np] up IH]; intros h left e right Hl Hr; cbn [path_ok insert_up before after].
  { intros _. exists (S h). split; [by constructor|]. cbn. by rewrite !app_nil_r. }
  intros (Hn&Hi&Hup). pose proof (insert_at_spec h n np left e right Hn Hi Hl Hr) as H.
  destruct (insert_at _ _ _ _ _ _ _) as [n'|[[m e'] n']].
  - destruct H as [Hw Hl']. destruct (fix_counts_spec (S h) n' up Hw Hup) as (h'&Hw'&Hl''). exists h'. split; [done|].
    rewrite Hl'', Hl'. by lists.
  - destruct H as (x&->&Hm&Hn'&Hl'). rewrite !(countnode_wf (S h)) by done.
    destruct (IH (S h) m x n' Hm Hn' Hup) as (h'&Hw'&Hl''). exists h'. split; [done|]. rewrite Hl''.
    change (x :: to_list n' ++ after up) with ((x :: to_list n') ++ after up). rewrite (app_assoc (to_list m)), Hl'. by lists.
Qed.

Lemma len_lft h n i : wf h n -> len (lft n i) =
  match n, i with
  | Null, _ | _, 0%nat => 0
  | _, 1%nat => size (kid n 0) + 1
  | _, 2%nat => size (kid n 0) + 1 + size (kid n 1) + Z.b2z (present (elem n 1))
  | _, _ => size (kid n 0) + 1 + size (kid n 1) + Z.b2z (present (elem n 1)) + size (kid n 2) + Z.b2z (present (elem n 2))
  end.
Proof.
  intros H. unfold size, len.
  inversion H; subst; [done|..]; do 3 (destruct i as [|i]; [cbn; rewrite ?length_app; cbn; rewrite ?length_app; cbn; lia|]);
    cbn; repeat (rewrite ?length_app; cbn); lia.
Qed.

(** In a well-formed node either every child is NULL or none is. *)
Lemma leaf_size h n i : wf (S h) n -> isnull (kid n 0) = true -> kid n i = Null /\ h = 0%nat.
Proof.
  intros H H0. assert (h = 0%nat) as ->.
  { assert (wf h (kid n 0)) as Hk by (apply (kid_wf h); [done|inversion H; cbn; lia]). by destruct Hk. }
  split; [|done]. inversion H; subst; do 4 (destruct i as [|i]; [cbn; first [done|by apply wf_0]|]); done.
Qed.

Lemma add_child_index_spec h n index :
  wf (S h) n -> 0 <= index <= size n ->
  exists i ix, add_child_index n index = Descend i ix /\ (i < kids_of n)%nat /\ 0 <= ix
    /\ (kid n i = Null /\ len (lft n i) = index \/ 0 <= ix <= size (kid n i) /\ len (lft n i) + ix = index).
Proof.
  intros H Hi. unfold add_child_index. destruct (isnull (kid n 0)) eqn:E0.
  - assert (forall i, kid n i = Null) as Hk by (intros i; by apply (leaf_size h)).
    assert (size n = Z.of_nat (kids_of n) - 1 /\ (kids_of n <= 4)%nat) as [Hs Hm].
    { pose proof (Hk 0%nat) as K0. pose proof (Hk 1%nat) as K1. pose proof (Hk 2%nat) as K2. pose proof (Hk 3%nat) as K3.
      inversion H; subst; cbn in K0, K1, K2, K3; subst; unfold size, len; cbn; lia. }
    destruct (Z.leb_spec index 3); [|lia]. exists (Z.to_nat index), index. split; [done|]. split; [lia|]. split; [lia|]. left.
    split; [done|]. rewrite (len_lft (S h)), !Hk by done. change (size Null) with 0.
    assert (index = 0 \/ index = 1 \/ index = 2 \/ index = 3) as Hx by lia.
    destruct Hx as [-> | [-> | [-> | ->]]]; inversion H; subst; cbn -[size] in Hs, Hi, Hm |- *; first [lia|reflexivity].
  - rewrite !(count_wf (S h)) by done. pose proof (size_nonneg (kid n 0)). pose proof (size_nonneg (kid n 1)).
    pose proof (size_nonneg (kid n 2)). pose proof (size_nonneg (kid n 3)).
    assert (size n = size (kid n 0) + 1 + size (kid n 1) + Z.b2z (present (elem n 1)) + size (kid n 2)
      + Z.b2z (present (elem n 2)) + size (kid n 3)) as Hs.
    { rewrite <- (countnode_wf (S h)) by done. inversion H; subst; cbn -[size]; change (size Null) with 0; lia. }
    repeat match goal with |- context [?a <=? ?b] => destruct (Z.leb_spec a b) end; try (eexists _, _; split; [done|]; rewrite (len_lft (S h)) by done);
      inversion H; subst; cbn -[size] in *; change (size Null) with 0 in *; lia.
Qed.

Lemma add_find_step c e n index up i ix :
  n <> Null -> (i < 4)%nat -> add_child c e n index = Descend i ix ->
  add_find c e n index up = add_find c e (kid n i) ix ((n, i) :: up).
Proof.
  intros Hn Hi E1. destruct n; [done|]. cbn [add_find]. rewrite E1. by do 4 (destruct i as [|i]; [done|]); lia.
Qed.

Lemma add_find_index c e h n index up :
  wf h n -> path_ok h up -> (n <> Null -> 0 <= index <= size n) -> 0 <= index ->
  exists up' l1 l2, add_find c e n index up = Some (inl up') /\ path_ok 0 up' /\ to_list n = l1 ++ l2
    /\ before up' = before up ++ l1 /\ after up' = l2 ++ after up /\ (n <> Null -> len l1 = index).
Proof.
  revert n index up; induction h as [|h IH]; intros n index up Hn Hup Hi H0.
  { apply wf_0 in Hn as ->. exists up, [], []. rewrite !app_nil_r. split_and!; done. }
  assert (n <> Null) as Hnn by (by inversion Hn). specialize (Hi Hnn).
  destruct (add_child_index_spec h n index Hn Hi) as (i&ix&Ec&Hik&Hix0&Hix).
  assert (add_child c e n index = Descend i ix) by (unfold add_child; by rewrite (proj2 (Z.leb_le _ _) H0)).
  pose proof (kids_of_le n). rewrite (add_find_step c e n index up i ix) by (done || lia).
  destruct (IH (kid n i) ix ((n, i) :: up)) as (up'&l1&l2&->&Hok&El&Eb&Ea&Hl).
  - by apply kid_wf.
  - done.
  - intros Hk. destruct Hix as [[? _]|?]; [done|lia].
  - done.
  - exists up', (lft n i ++ l1), (l2 ++ rgt n i). split; [done|]. split; [done|]. cbn [before after] in Eb, Ea.
    split; [rewrite (to_list_kid n i) by (done || lia); rewrite El; by lists|].
    split; [rewrite Eb; by lists|]. split; [rewrite Ea; by lists|]. intros _. rewrite len_app.
    destruct Hix as [[Hk Hl']|[? <-]].
    + rewrite Hk in El. symmetry in El. apply app_eq_nil in El as [-> ->]. change (len (@nil E)) with 0. lia.
    + assert (kid n i = Null \/ kid n i <> Null) as [Hk|Hk] by (destruct (kid n i); [by left|by right]); [|by rewrite Hl].
      rewrite Hk in El. symmetry in El. apply app_eq_nil in El as [-> ->]. rewrite Hk in *. change (len (@nil E)) with 0. change (size (@Null E)) with 0 in *. lia.
Qed.

(** The element between two children. *)
Lemma elem_between n i x :
  (i < 3)%nat -> elem n i = Some x ->
  lft n (S i) = lft n i ++ to_list (kid n i) ++ [x] /\ rgt n i = x :: to_list (kid n (S i)) ++ rgt n (S i).
Proof.
  intros Hi Hx. destruct n; [done|]. do 3 (destruct i as [|i]; [cbn in Hx; subst; split; by lists|]). lia.
Qed.

Lemma to_list_elem n i x :
  (i < 3)%nat -> elem n i = Some x ->
  to_list n = (lft n i ++ to_list (kid n i)) ++ x :: to_list (kid n (S i)) ++ rgt n (S i).
Proof.
  intros Hi Hx. rewrite (to_list_kid n i) by (try lia; by intros ->). rewrite (proj2 (elem_between n i x Hi Hx)). by lists.
Qed.

(** *** Search by comparison *)

(** The list is ordered as far as the comparisons [f] of its elements with a key tell. *)
Definition ordered (f : E -> Z) l : Prop :=
  StronglySorted (fun x y => (f x <= 0 -> f y <= 0) /\ (f x < 0 -> f y < 0)) l.

Lemma ordered_cut f l1 x l2 :
  ordered f (l1 ++ x :: l2) ->
  (0 < f x -> Forall (fun x => 0 < f x) (l1 ++ [x])) /\ (f x < 0 -> Forall (fun x => f x < 0) (x :: l2)).
Proof using.
  intros H. split; intros Hx.
  - apply Forall_app. split; [|by repeat constructor]. apply List.Forall_forall. intros y Hy.
    destruct (StronglySorted_app_1_elem_of _ l1 (x :: l2) y x H) as [Hle _]; [by apply list_elem_of_In|by left|]. lia.
  - constructor; [done|]. apply StronglySorted_app_1_r in H. inversion H as [|? ? _ Hf]; subst.
    eapply Forall_impl; [exact Hf|]. intros y [_ Hy]. auto.
Qed.

Lemma elem_cut f n i x :
  (i < 3)%nat -> elem n i = Some x -> ordered f (to_list n) ->
  (0 < f x -> Forall (fun x => 0 < f x) (lft n (S i))) /\ (f x < 0 -> Forall (fun x => f x < 0) (rgt n i)).
Proof using.
  intros Hi Hx Ho. rewrite (to_list_elem n i x Hi Hx) in Ho. destruct (elem_between n i x Hi Hx) as [-> ->].
  rewrite app_assoc. by apply ordered_cut.
Qed.

Section Compare.
Context (cmp : E -> E -> Z) (e : E).
Abbreviation above := (Forall (fun x => 0 < cmp e x)).
Abbreviation below := (Forall (fun x => cmp e x < 0)).

Lemma add_child_cmp_spec h n index :
  wf (S h) n -> ordered (cmp e) (to_list n) ->
  match add_child_cmp cmp e n index with
  | Descend i ix => (i < kids_of n)%nat /\ above (lft n i) /\ below (rgt n i) /\ ix = index
  | Exists_already x => x ∈ to_list n /\ cmp e x = 0
  | _ => False
  end.
Proof using.
  intros Hn Ho. pose proof (fun x Hx => elem_cut (cmp e) n 0 x ltac:(lia) Hx Ho) as C0.
  pose proof (fun x Hx => elem_cut (cmp e) n 1 x ltac:(lia) Hx Ho) as C1. pose proof (fun x Hx => elem_cut (cmp e) n 2 x ltac:(lia) Hx Ho) as C2.
  assert (forall i x, (i < 3)%nat -> elem n i = Some x -> x ∈ to_list n) as Hin.
  { intros i x Hi Hx. rewrite (to_list_elem n i x Hi Hx), elem_of_app. right. by left. }
  pose proof (fun x => Hin 0%nat x ltac:(lia)) as I0. pose proof (fun x => Hin 1%nat x ltac:(lia)) as I1.
  pose proof (fun x => Hin 2%nat x ltac:(lia)) as I2. clear Hin Ho.
  unfold add_child_cmp. 
  inversion Hn; subst; cbn -[to_list lft rgt] in *;
    repeat match goal with
    | |- context [?a <? ?b] => destruct (Z.ltb_spec a b)
    | |- context [?a =? ?b] => destruct (Z.eqb_spec a b)
    end;
    first [split; [first [exact (I0 _ eq_refl)|exact (I1 _ eq_refl)|exact (I2 _ eq_refl)]|done]|split; [lia|]];
    (split; [|split; [|done]]);
    first [exact (List.Forall_nil _)|apply (C0 _ eq_refl); lia|apply (C1 _ eq_refl); lia|apply (C2 _ eq_refl); lia].
Qed.

Lemma add_find_cmp h n up :
  wf h n -> path_ok h up -> ordered (cmp e) (to_list n) ->
  exists r, add_find (Some cmp) e n (-1) up = Some r /\
    match r with
    | inr None => False
    | inr (Some x) => x ∈ to_list n /\ cmp e x = 0
    | inl up' => path_ok 0 up' /\ exists l1 l2, to_list n = l1 ++ l2 /\ before up' = before up ++ l1
        /\ after up' = l2 ++ after up /\ above l1 /\ below l2
    end.
Proof using.
  revert n up; induction h as [|h IH]; intros n up Hn Hup Ho.
  { apply wf_0 in Hn as ->. eexists. split; [done|]. split; [done|]. exists [], [].
    rewrite !app_nil_r. split_and!; done || constructor. }
  assert (n <> Null) as Hnn by (by inversion Hn). pose proof (add_child_cmp_spec h n (-1) Hn Ho) as Hc.
  pose proof (kids_of_le n).
  destruct (add_child_cmp cmp e n (-1)) as [i ix|x| |] eqn:Ec; [|destruct n; [done|]; cbn [add_find]..]; try done.
  - destruct Hc as (Hi&Ha&Hb&->). rewrite (add_find_step _ e n (-1) up i (-1)) by (done || lia).
    rewrite (to_list_kid n i) in Ho by (done || lia).
    destruct (IH (kid n i) ((n, i) :: up)) as (r&->&Hr); [by apply kid_wf|done| |].
    { apply StronglySorted_app_1_r, StronglySorted_app_1_l in Ho. done. }
    exists r. split; [done|]. destruct r as [up'|[x|]]; [|rewrite (to_list_kid n i) by (done || lia)|done].
    + destruct Hr as (Hok&l1&l2&El&Eb&Ea&H1&H2). split; [done|]. exists (lft n i ++ l1), (l2 ++ rgt n i).
      cbn [before after] in Eb, Ea. rewrite (to_list_kid n i), El, Eb, Ea by (done || lia).
      split; [by lists|]. split; [by lists|]. split; [by lists|]. split; by apply Forall_app.
    + destruct Hr as [Hx ?]. split; [|done]. rewrite !elem_of_app. auto.
  - unfold add_child. rewrite Ec. eexists. split; [done|]. done.
Qed.
End Compare.

(** ** Lookup by index *)

Lemma size_node h n :
  wf (S h) n -> size n = size (kid n 0) + 1 + size (kid n 1) + Z.b2z (present (elem n 1)) + size (kid n 2)
      + Z.b2z (present (elem n 2)) + size (kid n 3).
Proof.
  intros H. rewrite <- (countnode_wf (S h)) by done. inversion H; subst; cbn -[size]; change (size Null) with 0; lia.
Qed.

Lemma locate_spec h n index :
  wf (S h) n -> 0 <= index < size n ->
  match locate n index with
  | inl (ki, ix) => (ki < kids_of n)%nat /\ 0 <= ix < size (kid n ki) /\ index = len (lft n ki) + ix
  | inr ei => (S ei < kids_of n)%nat /\ index = len (lft n ei) + size (kid n ei) /\ present (elem n ei) = true
  end.
Proof.
  intros H Hi. rewrite (size_node h) in Hi by done. unfold locate. rewrite !(count_wf (S h)) by done.
  pose proof (size_nonneg (kid n 0)). pose proof (size_nonneg (kid n 1)).
  pose proof (size_nonneg (kid n 2)). pose proof (size_nonneg (kid n 3)).
  repeat match goal with |- context [?a <? ?b] => destruct (Z.ltb_spec a b) end; rewrite (len_lft (S h)) by done;
    inversion H; subst; cbn -[size] in *; change (size Null) with 0 in *; split_and!; first [done|lia].
Qed.

Lemma lookup_mid {A} (l1 l2 l3 : list A) ix :
  0 <= ix < len l2 -> (l1 ++ l2 ++ l3) !! Z.to_nat (len l1 + ix) = l2 !! Z.to_nat ix.
Proof.
  intros Hx. unfold len in *. rewrite lookup_app_r by lia. rewrite lookup_app_l by lia. f_equal. lia.
Qed.

Lemma index_loop_spec h n index :
  wf h n -> 0 <= index < size n -> index_loop n index = to_list n !! Z.to_nat index.
Proof.
  revert n index; induction h as [|h IH]; intros n index Hn Hi.
  { apply wf_0 in Hn as ->. change (size Null) with 0 in Hi. lia. }
  pose proof (locate_spec h n index Hn Hi) as Hl. assert (n <> Null) as Hnn by (by inversion Hn). pose proof (kids_of_le n).
  destruct (locate n index) as [[ki ix]|ei] eqn:El.
  - destruct Hl as (Hk&Hx&->). rewrite (to_list_kid n ki) by (done || lia). rewrite lookup_mid by done.
    rewrite <- IH by (done || by apply kid_wf). destruct n; [done|]. cbn [index_loop]. rewrite El.
    by do 4 (destruct ki as [|ki]; [done|]); lia.
  - destruct Hl as (Hk&->&Hp). destruct (elem n ei) as [x|] eqn:Ex; [|done]. rewrite (to_list_elem n ei x) by (done || lia).
    rewrite lookup_app_r by (unfold size, len in *; rewrite length_app; lia). destruct n; [done|]. cbn [index_loop]. rewrite El.
    rewrite Ex. replace (Z.to_nat _ - _)%nat with 0%nat; [done|]. unfold size, len. rewrite length_app. lia.
Qed.

Lemma index234_spec (t : tree234 E) h index :
  wf h (root t) -> index234 t index = if index <? 0 then None else to_list (root t) !! Z.to_nat index.
Proof.
  intros Hw. unfold index234. rewrite (countnode_wf h) by done.
  destruct (isnull (root t)) eqn:E0.
  { destruct (root t); [|done]. by destruct (index <? 0). }
  destruct (Z.ltb_spec index 0), (Z.leb_spec (size (root t)) index); cbn; [done|done| |].
  - symmetry. apply lookup_ge_None_2. unfold size, len in *. lia.
  - by apply (index_loop_spec h).
Qed.

(** ** Search *)

Definition nelems n : Z := Z.of_nat (kids_of n) - 1.

Lemma elements234_wf h n : wf (S h) n -> elements234 n = nelems n.
Proof. by inversion 1. Qed.

Lemma nelems_bound h n : wf (S h) n -> 1 <= nelems n <= 3.
Proof. intros H. unfold nelems. inversion H; cbn [kids_of elem N2 N3 N4 present negb]; lia. Qed.

Lemma slots (i : nat) : Z.of_nat i <= 3 -> i = 0%nat \/ i = 1%nat \/ i = 2%nat \/ i = 3%nat.
Proof. lia. Qed.

Lemma elem_wf h n i : wf (S h) n -> Z.of_nat i < nelems n -> exists x, elem n i = Some x.
Proof.
  intros H Hi. pose proof (nelems_bound h n H). destruct (slots i) as [-> | [-> | [-> | ->]]]; [lia|..];
    inversion H; subst; unfold nelems in *; cbn in *; eauto; lia.
Qed.

Lemma sum_counts_lft h n i : wf (S h) n -> Z.of_nat i <= nelems n -> sum_counts n i = len (lft n i).
Proof.
  intros H Hi. rewrite (len_lft (S h)) by done. unfold sum_counts. pose proof (nelems_bound h n H).
  destruct (slots i) as [-> | [-> | [-> | ->]]]; [lia|..]; inversion H; subst; unfold nelems in *; cbn -[size] in *; lia.
Qed.

Lemma sum_only_counts_lft h n i :
  wf (S h) n -> Z.of_nat i < nelems n ->
  Z.of_nat i + sum_only_counts n (S i) = len (lft n i) + size (kid n i).
Proof.
  intros H Hi. rewrite (len_lft (S h)) by done. unfold sum_only_counts. pose proof (nelems_bound h n H).
  destruct (slots i) as [-> | [-> | [-> | ->]]]; [lia|..]; inversion H; subst; unfold nelems in *; cbn -[size] in *; lia.
Qed.

Section Search.
(** The directions taken at the elements of the list [L] searched. *)
Context (g : E -> Z) (L : list E) (Hg : ordered g L).
Abbreviation above := (Forall (fun x => 0 < g x)).
Abbreviation below := (Forall (fun x => g x < 0)).

(** The search is at element [last] of a node, those before [lo] and after [hi] being
    excluded, or has reached an empty child; [m] bounds the steps left. *)
Definition searching (ss : search234_state) (m : nat) : Prop :=
  exists pre post h, L = pre ++ to_list (s_node ss) ++ post /\ s_base ss = len pre /\ above pre /\ below post /\
    match h with
    | O => s_node ss = Null /\ s_element ss = None /\ s_index ss = s_base ss
    | S h =>
        let n := s_node ss in
        wf (S h) n /\ 0 <= s_lo ss <= s_hi ss /\ s_hi ss < nelems n /\ s_last ss = Z.quot (s_lo ss + s_hi ss) 2
        /\ s_element ss = elem n (Z.to_nat (s_last ss))
        /\ s_index ss = len pre + len (lft n (Z.to_nat (s_last ss))) + size (kid n (Z.to_nat (s_last ss)))
        /\ above (lft n (Z.to_nat (s_lo ss))) /\ below (rgt n (Z.to_nat (s_hi ss + 1)))
        /\ (2 * h + (if (s_lo ss =? s_hi ss)%Z then 1 else 2) <= m)%nat
    end.

(** Entering a node. *)
Lemma search_enter h n pre post lo hi m :
  L = pre ++ to_list n ++ post -> wf h n -> above pre -> below post -> (2 * h <= m)%nat ->
  searching (search_here n (len pre) lo hi (-1)) m.
Proof using Hg.
  intros EL Hn Hpre Hpost Hm. exists pre, post, h. unfold search_here. change (-1 =? -1) with true. cbn iota.
  destruct h as [|h]; [apply wf_0 in Hn as ->; cbn; by split_and!|].
  assert (isnull n = false) as -> by (by inversion Hn). cbn zeta iota. rewrite (elements234_wf h n Hn).
  pose proof (nelems_bound h n Hn) as Hne.
  set (last := Z.quot (0 + (nelems n - 1)) 2). assert (0 <= last < nelems n) as Hlast.
  { unfold last. rewrite Z.quot_div_nonneg by lia. split; [apply Z.div_pos; lia|apply Z.div_lt_upper_bound; lia]. }
  cbn [s_node s_base s_lo s_hi s_last s_element s_index]. split; [done|]. split; [done|]. split; [done|]. split; [done|].
  split; [done|]. split; [lia|]. split; [lia|]. split; [done|]. split; [done|].
  split. { rewrite Z.add_1_r, Z2Nat.inj_succ by lia.
           pose proof (sum_only_counts_lft h n (Z.to_nat last) Hn ltac:(lia)). lia. }
  split; [inversion Hn; subst; exact (List.Forall_nil _)|]. split.
  - replace (nelems n - 1 + 1) with (nelems n) by lia.
    inversion Hn; subst; exact (List.Forall_nil _).
  - destruct (Z.eqb_spec 0 (nelems n - 1)); lia.
Qed.

(** Staying in the node with a range narrowed to one element. *)
Lemma search_narrow h n pre post i last m :
  L = pre ++ to_list n ++ post -> above pre -> below post -> wf (S h) n -> 0 <= i < nelems n -> last <> -1 ->
  above (lft n (Z.to_nat i)) -> below (rgt n (Z.to_nat (i + 1))) -> (2 * h + 1 <= m)%nat ->
  searching (search_here n (len pre) i i last) m.
Proof using Hg.
  intros EL Hpre Hpost Hn Hi Hl Ha Hb Hm. exists pre, post, (S h). unfold search_here.
  destruct (Z.eqb_spec last (-1)); [lia|]. assert (isnull n = false) as -> by (by inversion Hn).
  cbn zeta iota. cbn [s_node s_base s_lo s_hi s_last s_element s_index].
  assert (Z.quot (i + i) 2 = i) as -> by (rewrite Z.quot_div_nonneg by lia; zdivmod).
  split_and!; try done; try lia.
  - rewrite Z.add_1_r, Z2Nat.inj_succ by lia. pose proof (sum_only_counts_lft h n (Z.to_nat i) Hn ltac:(lia)). lia.
  - rewrite Z.eqb_refl. lia.
Qed.

(** Descending to the child at [i]. *)
Lemma search_descend h n pre post i lo hi m :
  L = pre ++ to_list n ++ post -> above pre -> below post -> wf (S h) n -> 0 <= i <= nelems n ->
  above (lft n (Z.to_nat i)) -> below (rgt n (Z.to_nat i)) -> (2 * h <= m)%nat ->
  searching (search_here (kid n (Z.to_nat i)) (len pre + sum_counts n (Z.to_nat i)) lo hi (-1)) m.
Proof using Hg.
  intros EL Hpre Hpost Hn Hi Ha Hb Hm. pose proof (nelems_bound h n Hn).
  rewrite (sum_counts_lft h n) by (done || lia). rewrite <- len_app.
  apply (search_enter h _ _ (rgt n (Z.to_nat i) ++ post)); [| | | |done].
  - rewrite EL, (to_list_kid n (Z.to_nat i)) by (try lia; by inversion Hn). by lists.
  - apply kid_wf; [done|]. unfold nelems in Hi. lia.
  - by apply Forall_app.
  - by apply Forall_app.
Qed.

(** A step in the direction of the element looked at. *)
Lemma search_step ss m x :
  searching ss (S m) -> s_element ss = Some x -> g x <> 0 ->
  exists ss', search234_step ss (g x) = Some ss' /\ searching ss' m.
Proof using Hg.
  intros (pre&post&h&EL&Eb&Hpre&Hpost&Hs) Hx Hnz. destruct h as [|h]; [destruct Hs as (_&?&_); congruence|].
  destruct ss as [el ix lo hi last base n]. cbn [s_node s_base s_lo s_hi s_last s_element s_index] in *.
  destruct Hs as (Hn&Hlo&Hhi&->&->&_&Hab&Hbe&Hm). pose proof (nelems_bound h n Hn). subst base.
  set (last := Z.quot (lo + hi) 2) in *.
  assert (last = (lo + hi) / 2) as Elast by (apply Z.quot_div_nonneg; lia).
  assert (lo <= last <= hi /\ (last = hi -> lo = hi)) as [Hlast Hlh] by (rewrite Elast; clear - Hlo; split; [split|]; zdivmod).
  unfold search234_step. assert (isnull n = false) as -> by (by inversion Hn).
  destruct (Z.eqb_spec last (-1)); [lia|]. destruct (Z.eqb_spec (g x) 0); [done|].
  assert (ordered g (to_list n)) as Ho.
  { revert Hg. rewrite EL. intros Ho. by apply StronglySorted_app_1_r, StronglySorted_app_1_l in Ho. }
  destruct (elem_cut g n (Z.to_nat last) x ltac:(lia) Hx Ho) as [Hup Hdn].
  assert (Z.to_nat (last + 1) = S (Z.to_nat last)) as Es by lia.
  destruct (Z.ltb_spec 0 (g x)) as [Hpos|Hneg]; cbn zeta iota.
  - specialize (Hup Hpos). destruct (Z.ltb_spec hi (last + 1)).
    + eexists. split; [done|]. assert (last = hi) as E1 by lia. rewrite <- E1 in Hbe. rewrite <- Es in Hup.
      apply (search_descend h n pre post); try done; [lia|]. destruct (lo =? hi); lia.
    + eexists. split; [done|]. assert (last + 1 = hi) as E1 by (rewrite Elast in *; clear - Hlo Hhi H H0; zdivmod).
      rewrite E1 in *. rewrite <- Es in Hup. apply (search_narrow h n pre post); try done; [lia|].
      destruct (Z.eqb_spec lo hi); lia.
  - specialize (Hdn ltac:(lia)). destruct (Z.ltb_spec (last - 1) lo).
    + eexists. split; [done|]. assert (last = lo) as E1 by lia. rewrite E1 in Hdn.
      apply (search_descend h n pre post); try done; [lia|]. destruct (lo =? hi); lia.
    + eexists. split; [done|]. assert (last - 1 = lo) as -> by (rewrite Elast in *; clear - Hlo Hhi H H0; zdivmod).
      apply (search_narrow h n pre post); try done; [lia| |destruct (Z.eqb_spec lo hi); lia].
      by replace (lo + 1) with last by (rewrite Elast in *; clear - Hlo Hhi H H0; zdivmod).
Qed.

Lemma searching_pos ss x : searching ss 0 -> s_element ss = Some x -> False.
Proof using Hg.
  intros (pre&post&[|h]&_&_&_&_&Hs) Hx; [destruct Hs as (_&?&_); congruence|].
  destruct Hs as (_&_&_&_&_&_&_&_&Hs). destruct (_ =? _); lia.
Qed.

(** The index a search ends at separates the two directions. *)
Lemma search_end ss m :
  searching ss m -> s_element ss = None ->
  0 <= s_index ss <= len L /\ above (take (Z.to_nat (s_index ss)) L) /\ below (drop (Z.to_nat (s_index ss)) L).
Proof using Hg.
  intros (pre&post&h&EL&Eb&Hpre&Hpost&Hs) Hx. destruct h as [|h].
  - destruct Hs as (En&_&->). rewrite En in EL. cbn in EL. rewrite Eb, EL, len_app. pose proof (len_nonneg pre).
    pose proof (len_nonneg post). split; [lia|]. unfold len. rewrite Nat2Z.id, take_app_length, drop_app_length. done.
  - destruct Hs as (Hn&Hlo&Hhi&El&Ee&_). rewrite Ee in Hx. exfalso.
    destruct (elem_wf h (s_node ss) (Z.to_nat (s_last ss)) Hn) as [x E1]; [|congruence]. rewrite El.
    rewrite Z.quot_div_nonneg by lia. assert (0 <= (s_lo ss + s_hi ss) / 2 <= s_hi ss) as Hq by (clear - Hlo; zdivmod).
    clear - Hq Hhi. lia.
Qed.

Lemma search_found ss m x :
  searching ss m -> s_element ss = Some x -> 0 <= s_index ss < len L /\ L !! Z.to_nat (s_index ss) = Some x.
Proof using Hg.
  intros (pre&post&h&EL&Eb&Hpre&Hpost&Hs) Hx. destruct h as [|h]; [destruct Hs as (_&?&_); congruence|].
  destruct Hs as (Hn&Hlo&Hhi&El&Ee&Ei&_). pose proof (nelems_bound h _ Hn).
  assert (0 <= s_last ss <= s_hi ss) by (rewrite El, Z.quot_div_nonneg by lia; zdivmod).
  rewrite Ee in Hx. rewrite (to_list_elem (s_node ss) (Z.to_nat (s_last ss)) x ltac:(lia) Hx) in EL. set (i := Z.to_nat (s_last ss)) in *.
  set (l1 := lft (s_node ss) i ++ to_list (kid (s_node ss) i)) in *.
  assert (s_index ss = len (pre ++ l1)) as -> by (unfold l1; rewrite !len_app; unfold size in Ei; lia).
  set (rest := to_list (kid (s_node ss) (S i)) ++ rgt (s_node ss) (S i) ++ post).
  assert (L = (pre ++ l1) ++ x :: rest) as -> by (rewrite EL; unfold rest; by lists).
  rewrite (len_app (pre ++ l1)), len_cons. pose proof (len_nonneg (pre ++ l1)). pose proof (len_nonneg rest). split; [lia|].
  unfold len. rewrite Nat2Z.id. by rewrite lookup_app_r, Nat.sub_diag by lia.
Qed.
End Search.

(** The loop of [findrelpos234], the comparisons of the elements being [f] and the
    directions taken [g]. *)
Lemma find_loop_spec cmp (key : option E) r f g L fuel ss m :
  (forall x, match key with Some e => cmp e x | None => - reldir r end = f x) ->
  (forall x, if f x =? 0 then equal_permitted r = true \/ g x = reldir r else g x = f x) ->
  ordered g L -> searching g L ss m -> (m <= fuel)%nat ->
  exists res, find_loop fuel cmp key r ss = Some res /\
    match res with
    | inl (x, ix) => equal_permitted r = true /\ f x = 0 /\ 0 <= ix < len L /\ L !! Z.to_nat ix = Some x
    | inr ix => 0 <= ix <= len L /\ Forall (fun x => 0 < g x) (take (Z.to_nat ix) L)
                /\ Forall (fun x => g x < 0) (drop (Z.to_nat ix) L)
    end.
Proof.
  intros Hf Hfg Ho. revert ss m; induction fuel as [|fuel IH]; intros ss m Hs Hm; cbn [find_loop];
    (destruct (s_element ss) as [x|] eqn:Ex; [|eexists; split; [done|]; by apply (search_end g L Ho ss m)]).
  - assert (m = 0)%nat as -> by lia. by destruct (searching_pos g L Ho ss x).
  - rewrite Hf. specialize (Hfg x). destruct (search_found g L Ho ss m x Hs Ex) as [Hix Hl].
    destruct (Z.eqb_spec (f x) 0) as [E0|E0]; cbn [andb].
    + destruct (equal_permitted r) eqn:Ep; [eexists; split; [done|]; exact (conj eq_refl (conj E0 (conj Hix Hl)))|].
      destruct Hfg as [?|Hg]; [done|]. cbn zeta iota. rewrite <- Hg.
      assert (g x <> 0) by (rewrite Hg; by destruct r).
      assert (exists m', m = S m') as [m' ->] by (destruct m; [|eauto]; destruct (searching_pos g L Ho ss x Hs Ex)).
      destruct (search_step g L Ho ss m' x Hs Ex) as (ss'&->&Hs'); [done|]. apply (IH ss' m'); [done|lia].
    + cbn zeta iota. rewrite <- Hfg in E0 |- *.
      assert (exists m', m = S m') as [m' ->] by (destruct m; [|eauto]; destruct (searching_pos g L Ho ss x Hs Ex)).
      destruct (search_step g L Ho ss m' x Hs Ex) as (ss'&->&Hs'); [done|]. apply (IH ss' m'); [done|lia].
Qed.

(** ** Deletion *)

(** The node constructors with their counts as hypotheses. *)
Lemma wf_2' h k0 k1 c0 c1 e0 :
  wf h k0 -> wf h k1 -> c0 = size k0 -> c1 = size k1 -> wf (S h) (Node k0 k1 Null Null c0 c1 0 0 (Some e0) None None).
Proof. intros ? ? -> ->. by apply wf_2. Qed.
Lemma wf_3' h k0 k1 k2 c0 c1 c2 e0 e1 :
  wf h k0 -> wf h k1 -> wf h k2 -> c0 = size k0 -> c1 = size k1 -> c2 = size k2 ->
  wf (S h) (Node k0 k1 k2 Null c0 c1 c2 0 (Some e0) (Some e1) None).
Proof. intros ? ? ? -> -> ->. by apply wf_3. Qed.
Lemma wf_4' h k0 k1 k2 k3 c0 c1 c2 c3 e0 e1 e2 :
  wf h k0 -> wf h k1 -> wf h k2 -> wf h k3 -> c0 = size k0 -> c1 = size k1 -> c2 = size k2 -> c3 = size k3 ->
  wf (S h) (Node k0 k1 k2 k3 c0 c1 c2 c3 (Some e0) (Some e1) (Some e2)).
Proof. intros ? ? ? ? -> -> -> ->. by apply wf_4. Qed.

Ltac node_wf :=
  lazymatch goal with
  | |- wf _ (Node _ _ _ _ _ _ _ _ _ (Some _) (Some _)) => apply wf_4'
  | |- wf _ (Node _ _ _ _ _ _ _ _ _ (Some _) None) => apply wf_3'
  | |- wf _ (Node _ _ _ _ _ _ _ _ _ None None) => apply wf_2'
  | |- wf _ (N2 _ _ _) => apply wf_2
  | |- wf _ (N3 _ _ _ _ _) => apply wf_3
  | |- wf _ (N4 _ _ _ _ _ _ _) => apply wf_4
  | |- wf _ _ => eassumption
  | |- countnode234 _ = _ => eapply countnode_wf
  | |- _ => reflexivity
  end.

(** What a move down to a child establishes: the child reached has two elements at
    least, the list is unchanged and the index designates the same element of it; or
    the node has lost its only element and the child holds the whole list. *)
Definition moved (h : nat) n (ki : nat) (ix : Z) (r : node234 E * nat * Z) : Prop :=
  let '(n', ki', ix') := r in
  present (elem (kid n' ki') 1) = true /\ wf (S h) (kid n' ki') /\ 0 <= ix' < size (kid n' ki')
  /\ (present (elem n' 0) = true /\ wf (S (S h)) n' /\ (ki' < kids_of n')%nat
        /\ to_list n' = to_list n /\ len (lft n' ki') + ix' = len (lft n ki) + ix
      \/ present (elem n' 0) = false /\ kids_of n = 2%nat /\ to_list (kid n' ki') = to_list n
        /\ ix' = len (lft n ki) + ix).

(** Lengths of the lists of concrete nodes. *)
Ltac sizes :=
  unfold countnode234, size, len, N2, N3, N4;
  cbn [present Z.b2z to_list lft app]; unfold option_list; cbn [option_rect app];
  repeat (rewrite ?length_app; cbn [length app]); lia.

(** Closes a case of [moved] in which the nodes are concrete. *)
Ltac moved_case Hx :=
  split; [reflexivity|]; split; [repeat node_wf|]; split; [revert Hx; sizes|];
  first
    [ left; split; [reflexivity|]; split; [repeat node_wf|]; split; [cbn; lia|];
      split; [by lists|revert Hx; sizes]
    | right; split; [reflexivity|]; split; [reflexivity|]; split; [by lists|revert Hx; sizes] ].

Ltac child_is b :=
  match goal with H : wf (S _) ?k, H' : present (elem ?k 1) = b |- _ => inversion H; subst; clear H; try discriminate H'; clear H' end.

Lemma isnull_wf h n : wf (S h) n -> isnull n = false.
Proof. by inversion 1. Qed.

Lemma del_3a_left_spec h n ki ix :
  wf (S (S h)) n -> (ki < kids_of n)%nat -> 0 <= ix < size (kid n ki) ->
  present (elem (kid n ki) 1) = false -> (0 < ki)%nat -> present (elem (kid n (ki - 1)) 1) = true ->
  moved h n ki ix (del_3a_left n ki ix).
Proof.
  intros Hn Hk Hx Hone Hki Hsib. pose proof (kids_of_le n). unfold del_3a_left.
  destruct (slots ki) as [-> | [-> | [-> | ->]]]; [lia|lia|..]; cbn [Nat.sub] in *.
  all: inversion Hn; subst; cbn in Hk; try lia; cbn [kid N2 N3 N4] in *.
  all: child_is false; child_is true; cbn -[countnode234 size to_list lft]; moved_case Hx.
Qed.

Lemma del_3a_right_spec h n ki ix :
  wf (S (S h)) n -> (ki < kids_of n)%nat -> 0 <= ix < size (kid n ki) ->
  present (elem (kid n ki) 1) = false -> (ki < 3)%nat -> present (elem (kid n (ki + 1)) 1) = true ->
  moved h n ki ix (del_3a_right n ki ix).
Proof.
  intros Hn Hk Hx Hone Hki Hsib. unfold del_3a_right.
  destruct (slots ki) as [-> | [-> | [-> | ->]]]; [lia|..|lia]; cbn [Nat.add] in *.
  all: inversion Hn; subst; cbn in Hk; try lia; cbn [kid N2 N3 N4] in *; try discriminate.
  all: child_is false; child_is true; cbn -[countnode234 size to_list lft]; moved_case Hx.
Qed.

Lemma del_3b_spec h n ki ix :
  wf (S (S h)) n -> (ki < kids_of n)%nat -> 0 <= ix < size (kid n ki) ->
  present (elem (kid n ki) 1) = false ->
  present (elem (kid n (if (0 <? ki)%nat then ki - 1 else ki + 1)) 1) = false ->
  moved h n ki ix (del_3b n ki ix).
Proof.
  intros Hn Hk Hx Hone Hsib. pose proof (kids_of_le n). unfold del_3b.
  destruct (slots ki) as [-> | [-> | [-> | ->]]]; [lia|..]; cbn [Nat.sub Nat.add Nat.ltb Nat.leb] in *.
  all: inversion Hn; subst; cbn in Hk; try lia; cbn in Hsib; cbn [kid N2 N3 N4] in *; try discriminate.
  all: child_is false; child_is false; cbn -[countnode234 size to_list lft];
    repeat (match goal with H : wf (S _) ?k |- context [isnull ?k] => rewrite (isnull_wf _ k H) end;
            cbn -[countnode234 size to_list lft]); moved_case Hx.
Qed.

(** A move down, from the root or from a node with two elements at least. *)
Lemma del_descend_spec h n ki ix :
  wf (S (S h)) n -> (ki < kids_of n)%nat -> 0 <= ix < size (kid n ki) -> moved h n ki ix (del_descend n ki ix).
Proof.
  intros Hn Hk Hx. unfold del_descend. destruct (present (elem (kid n ki) 1)) eqn:Hone; cbn [negb].
  { split; [done|]. split; [by apply kid_wf|]. split; [done|]. left. split; [by inversion Hn|]. done. }
  destruct (Nat.ltb_spec 0 ki), (present (elem (kid n (ki - 1)) 1)) eqn:Hl; cbn [andb];
    [by apply del_3a_left_spec|..].
  all: destruct (Nat.ltb_spec ki 3), (present (elem (kid n (ki + 1)) 1)) eqn:Hr; cbn [andb];
    rewrite ?andb_true_r, ?andb_false_r.
  all: try (apply del_3b_spec; try done; destruct (Nat.ltb_spec 0 ki); done || lia).
  all: destruct (isnull (kid n (ki + 1))) eqn:E1; cbn [negb]; [destruct (kid n (ki + 1)); done|by apply del_3a_right_spec].
Qed.

Lemma del_2c_spec h n ei :
  wf (S (S h)) n -> (S ei < kids_of n)%nat ->
  present (elem (kid n ei) 1) = false -> present (elem (kid n (S ei)) 1) = false ->
  let '(n', a) := del_2c n ei in
  kid n' ei = a /\ moved h n ei (size (kid n ei)) (n', ei, count a 0 + count a 1 + 1).
Proof.
  intros Hn Hk Ha Hb. pose proof (kids_of_le n). unfold del_2c.
  destruct (slots ei) as [-> | [-> | [-> | ->]]]; [lia|..|lia]; cbn [Nat.add Nat.sub] in *.
  all: inversion Hn; subst; cbn in Hk; try lia; cbn [kid N2 N3 N4] in *.
  all: child_is false; child_is false; cbn -[countnode234 size to_list lft]; (split; [reflexivity|]);
    assert (Hx : 0 <= 0) by lia; moved_case Hx.
Qed.

Lemma last_elem_spec h m : wf (S h) m -> exists l x, last_elem m = Some x /\ to_list m = l ++ [x].
Proof.
  revert m; induction h as [|h IH]; intros m Hm.
  - inversion Hm; subst; repeat match goal with H : wf 0 ?k |- _ => apply wf_0 in H; subst end; cbn; eauto.
    + by exists [], e0.
    + by exists [e0], e1.
    + by exists [e0; e1], e2.
  - assert (forall pre k, wf (S h) k -> exists l x, last_elem k = Some x /\ pre ++ to_list k = l ++ [x]) as Hk.
    { intros pre k Hk. destruct (IH k Hk) as (l&x&->&->). exists (pre ++ l), x. by rewrite app_assoc. }
    inversion Hm; subst; cbn [last_elem N2 N3 N4 isnull negb];
      repeat match goal with H : wf (S _) ?k |- context [isnull ?k] => rewrite (isnull_wf _ k H); cbn [negb] end.
    + destruct (Hk (to_list k0 ++ [e0]) k1) as (l&x&->&El); [done|]. exists l, x. split; [done|]. rewrite <- El. by lists.
    + destruct (Hk (to_list k0 ++ [e0] ++ to_list k1 ++ [e1]) k2) as (l&x&->&El); [done|]. exists l, x. split; [done|].
      rewrite <- El. by lists.
    + destruct (Hk (to_list k0 ++ [e0] ++ to_list k1 ++ [e1] ++ to_list k2 ++ [e2]) k3) as (l&x&->&El); [done|].
      exists l, x. split; [done|]. rewrite <- El. by lists.
Qed.

Lemma first_elem_spec h m : wf (S h) m -> exists l x, first_elem m = Some x /\ to_list m = x :: l.
Proof.
  revert m; induction h as [|h IH]; intros m Hm.
  - inversion Hm; subst; repeat match goal with H : wf 0 ?k |- _ => apply wf_0 in H; subst end; cbn; eauto.
  - inversion Hm; subst; cbn [first_elem N2 N3 N4]; rewrite (isnull_wf h) by done;
      destruct (IH k0) as (l&x&->&El); try done; unfold N2, N3, N4; cbn [to_list]; rewrite El; cbn [app]; eauto.
Qed.

(** The counts on the path are those of the subtree below. *)
Fixpoint linked n up : Prop :=
  match up with [] => True | (p, i) :: up => size (kid p i) = size n /\ linked p up end.

Lemma linked_size n n' up : size n = size n' -> linked n up -> linked n' up.
Proof. destruct up as [|[p i] up]; [done|]. cbn. by intros ->. Qed.

Lemma dec_counts_spec h n m up :
  wf h n -> size n = size m - 1 -> path_ok h up -> linked m up ->
  exists h', wf h' (dec_counts n up) /\ to_list (dec_counts n up) = before up ++ to_list n ++ after up.
Proof.
  revert h n m; induction up as [|[p i] up IH]; intros h n m Hn Hs; cbn [path_ok linked dec_counts before after].
  { intros _ _. exists h. by rewrite app_nil_r. }
  intros (Hp&Hi&Hup) [Hk Hl]. rewrite (count_wf (S h)), Hk, <- Hs by done.
  destruct (replace_kid h p i n Hp Hi Hn) as [Hw El]. pose proof (kids_of_le p).
  destruct (IH (S h) _ p Hw) as (h'&Hw'&El'); [|done|done|].
  - match goal with |- size ?a = _ => change (size a) with (len (to_list a)) end.
    unfold size in *. rewrite El, (to_list_kid p i) by (try lia; by inversion Hp). rewrite !len_app. lia.
  - exists h'. split; [done|]. rewrite El', El. by lists.
Qed.

(** Removal inside a leaf. *)
Lemma remove_elem_spec n ei x :
  wf 1 n -> (S ei < kids_of n)%nat -> elem n ei = Some x -> present (elem n 1) = true ->
  wf 1 (remove_elem (2 - ei) ei n)
  /\ exists l1 l2, to_list n = l1 ++ x :: l2 /\ len l1 = Z.of_nat ei /\ to_list (remove_elem (2 - ei) ei n) = l1 ++ l2.
Proof.
  intros Hn Hk Hx H1. pose proof (kids_of_le n).
  destruct (slots ei) as [-> | [-> | [-> | ->]]]; [lia|..|lia]; inversion Hn; subst; cbn in Hk, Hx, H1; try lia; try discriminate;
    injection Hx as ->; repeat match goal with H : wf 0 ?k |- _ => apply wf_0 in H; subst end; cbn -[size];
    (split; [repeat first [exact wf_null|node_wf]|]).
  1: by exists [], [e1].
  1: by exists [], [e1; e2].
  1: by exists [e0], [].
  1: by exists [e0], [e2].
  by exists [e0; e1], [].
Qed.

(** The element at an index inside the middle of a concatenation. *)
Lemma split_mid (L K R l1 l2 : list E) x ix :
  L ++ K ++ R = l1 ++ x :: l2 -> len l1 = len L + ix -> 0 <= ix < len K ->
  exists m1 m2, K = m1 ++ x :: m2 /\ l1 = L ++ m1 /\ l2 = m2 ++ R /\ len m1 = ix.
Proof.
  intros Eq Hl Hx. destruct (drop (Z.to_nat ix) K) as [|y m2] eqn:Ed.
  { apply (f_equal length) in Ed. rewrite length_drop in Ed. unfold len in *. cbn in Ed. lia. }
  pose proof (take_drop (Z.to_nat ix) K) as Ek. rewrite Ed in Ek. set (m1 := take (Z.to_nat ix) K) in *.
  assert (len m1 = ix) as Hm1 by (unfold m1, len in *; rewrite length_take; lia).
  rewrite <- Ek in Eq. rewrite <- app_assoc in Eq. cbn in Eq. rewrite app_assoc in Eq.
  apply app_inj_1 in Eq as [E1 E2]; [|rewrite length_app; unfold len in *; lia]. injection E2 as -> E2.
  exists m1, m2. by rewrite Ek.
Qed.

(** What deleting [x], at the given place of the subtree [n], has to achieve. *)
Definition deletes up (l1 : list E) (x : E) (l2 : list E) (retval : option E) (r : option (node234 E * option E)) : Prop :=
  exists h' n', r = Some (n', if present retval then retval else Some x) /\ wf h' n'
    /\ to_list n' = before up ++ l1 ++ l2 ++ after up.

(** The induction hypothesis: deletion from a subtree of depth [h] with two elements
    at its root, or from a whole tree of that depth. *)
Definition deletion (fuel h : nat) : Prop :=
  forall n index up retval l1 x l2,
    wf h n -> path_ok h up -> linked n up -> (up = [] \/ present (elem n 1) = true) ->
    to_list n = l1 ++ x :: l2 -> len l1 = index -> deletes up l1 x l2 retval (del_loop fuel n index up retval).

(** After a move down the deletion goes on in the child. *)
Lemma deletion_moved fuel h n ki ix up retval n' ki' ix' l1 x l2 :
  deletion fuel (S h) -> wf (S (S h)) n -> (ki < kids_of n)%nat ->
  path_ok (S (S h)) up -> linked n up -> (up = [] \/ present (elem n 1) = true) ->
  to_list n = l1 ++ x :: l2 -> len l1 = len (lft n ki) + ix -> moved h n ki ix (n', ki', ix') ->
  deletes up l1 x l2 retval (del_loop fuel (kid n' ki') ix' (enter n' ki' up) retval).
Proof.
  intros IH Hn Hk Hup Hl Hroot El Hlen (H1&Hw&Hix&[(He&Hn'&Hk'&El'&Ei)|(He&H2&El'&->)]); unfold enter; rewrite He.
  - pose proof (kids_of_le n'). rewrite <- El', (to_list_kid n' ki') in El by (try lia; by inversion Hn').
    destruct (split_mid _ _ _ _ _ _ ix' El) as (m1&m2&Em&->&->&Hm); [lia|done|].
    destruct (IH (kid n' ki') ix' ((n', ki') :: up) retval m1 x m2) as (h'&n2&->&Hw2&El2); try done; [|by right|].
    { cbn. split; [done|]. apply (linked_size n); [unfold size; by rewrite El'|done]. }
    exists h', n2. split; [done|]. split; [done|]. rewrite El2. cbn [before after]. by lists.
  - assert (up = []) as ->.
    { destruct Hroot as [|Hr]; [done|]. unfold kids_of in H2. rewrite Hr in H2. cbn in H2. by destruct (negb _). }
    apply IH; try done; first [by left|by rewrite El'|lia].
Qed.

Lemma set_elem_spec h n ei y :
  wf (S h) n -> (S ei < kids_of n)%nat ->
  let n' := set_elem n ei (Some y) in
  wf (S h) n' /\ kids_of n' = kids_of n /\ size n' = size n /\ (forall i, kid n' i = kid n i) /\ elem n' ei = Some y
  /\ lft n' ei = lft n ei /\ rgt n' (S ei) = rgt n (S ei).
Proof.
  intros Hn Hk. pose proof (kids_of_le n).
  destruct (slots ei) as [-> | [-> | [-> | ->]]]; [lia|..|lia]; inversion Hn; subst; cbn in Hk; try lia; cbn -[size to_list lft rgt];
    (split; [repeat node_wf|]); (split; [done|]); (split; [sizes|]); (split; [done|]); (split; [done|]); done.
Qed.

(** Cases 2a and 2b: the element is overwritten by its neighbour, which is deleted. *)
Lemma deletion_pred fuel h n ei up r0 x :
  deletion fuel (S h) -> wf (S (S h)) n -> (S ei < kids_of n)%nat -> elem n ei = Some x ->
  path_ok (S (S h)) up -> linked n up -> present (elem (kid n ei) 1) = true ->
  let n' := set_elem n ei (last_elem (kid n ei)) in
  deletes up (lft n ei ++ to_list (kid n ei)) x (to_list (kid n (S ei)) ++ rgt n (S ei)) (Some r0)
    (del_loop fuel (kid n' ei) (count n' ei - 1) ((n', ei) :: up) (Some r0)).
Proof.
  intros IH Hn Hk Hx Hup Hl H1. cbn zeta. pose proof (kid_wf (S h) n ei Hn ltac:(lia)) as Hw. pose proof (kids_of_le n).
  destruct (last_elem_spec h (kid n ei) Hw) as (q&y&->&Eq).
  destruct (set_elem_spec (S h) n ei y Hn Hk) as (Hn'&Hk'&Hs&Hkid&He&Hlft&Hrgt). set (n' := set_elem n ei (Some y)) in *.
  rewrite (count_wf (S (S h))), !Hkid by done.
  destruct (IH (kid n ei) (size (kid n ei) - 1) ((n', ei) :: up) (Some r0) q y []) as (h'&n2&->&Hw2&El2); try done.
  - cbn. split; [done|]. split; [lia|done].
  - cbn. rewrite Hkid. split; [done|]. by apply (linked_size n).
  - by right.
  - unfold size. rewrite Eq, len_app. change (len [y]) with 1. lia.
  - exists h', n2. split; [done|]. split; [done|]. rewrite El2. cbn [before after].
    rewrite Hlft, (proj2 (elem_between n' ei y ltac:(lia) He)), Hkid, Hrgt, Eq. by lists.
Qed.

Lemma deletion_succ fuel h n ei up r0 x :
  deletion fuel (S h) -> wf (S (S h)) n -> (S ei < kids_of n)%nat -> elem n ei = Some x ->
  path_ok (S (S h)) up -> linked n up -> present (elem (kid n (S ei)) 1) = true ->
  let n' := set_elem n ei (first_elem (kid n (S ei))) in
  deletes up (lft n ei ++ to_list (kid n ei)) x (to_list (kid n (S ei)) ++ rgt n (S ei)) (Some r0)
    (del_loop fuel (kid n' (S ei)) 0 ((n', S ei) :: up) (Some r0)).
Proof.
  intros IH Hn Hk Hx Hup Hl H1. cbn zeta. pose proof (kid_wf (S h) n (S ei) Hn Hk) as Hw. pose proof (kids_of_le n).
  destruct (first_elem_spec h (kid n (S ei)) Hw) as (q&y&->&Eq).
  destruct (set_elem_spec (S h) n ei y Hn Hk) as (Hn'&Hk'&Hs&Hkid&He&Hlft&Hrgt). set (n' := set_elem n ei (Some y)) in *.
  rewrite !Hkid.
  destruct (IH (kid n (S ei)) 0 ((n', S ei) :: up) (Some r0) [] y q) as (h'&n2&->&Hw2&El2); try done.
  - cbn. split; [done|]. split; [lia|done].
  - cbn. rewrite Hkid. split; [done|]. by apply (linked_size n).
  - by right.
  - exists h', n2. split; [done|]. split; [done|]. rewrite El2. cbn [before after].
    rewrite (proj1 (elem_between n' ei y ltac:(lia) He)), Hkid, Hrgt, Hlft, Eq. by lists.
Qed.

(** Case 1: an element of a leaf with another one. *)
Lemma deletion_leaf n ei up rv y :
  wf 1 n -> path_ok 1 up -> linked n up -> (S ei < kids_of n)%nat -> elem n ei = Some y -> present (elem n 1) = true ->
  present rv = true ->
  deletes up (lft n ei ++ to_list (kid n ei)) y (to_list (kid n (S ei)) ++ rgt n (S ei)) rv
    (Some (dec_counts (remove_elem (2 - ei) ei n) up, rv)).
Proof.
  intros Hn Hup Hl Hk Hy H1 Hrv. pose proof (kids_of_le n).
  destruct (remove_elem_spec n ei y Hn Hk Hy H1) as (Hw&l1&l2&El&Hlen&El').
  destruct (dec_counts_spec 1 (remove_elem (2 - ei) ei n) n up Hw) as (h'&Hw'&El2); [|done|done|].
  { unfold size. rewrite El, El', !len_app, len_cons. lia. }
  exists h', (dec_counts (remove_elem (2 - ei) ei n) up). rewrite Hrv. split; [done|]. split; [done|]. rewrite El2, El'.
  rewrite (to_list_elem n ei y) in El by (done || lia). apply app_inj_1 in El as [-> E2]; [injection E2 as ->; by lists|].
  assert (isnull (kid n 0) = true) as E0.
  { assert (wf 0 (kid n 0)) as Hk0 by (apply (kid_wf 0 n 0 Hn); lia). apply wf_0 in Hk0. by rewrite Hk0. }
  destruct (leaf_size 0 n ei Hn E0) as [-> _]. rewrite length_app, Nat.add_0_r.
  enough (len (lft n ei) = Z.of_nat ei) by (unfold len in *; lia).
  rewrite (len_lft 1), !(proj1 (leaf_size 0 n _ Hn E0)) by done. change (size Null) with 0.
  destruct (slots ei) as [-> | [-> | [-> | ->]]]; [lia|..|lia]; inversion Hn; subst; cbn in *; lia.
Qed.

(** The loop deletes, for any fuel that covers the depth. *)
Lemma del_loop_spec fuel h : (h <= fuel)%nat -> deletion fuel h.
Proof.
  revert h; induction fuel as [|fuel IH]; intros h Hf n index up retval l1 x l2 Hn Hup Hl Hroot El Hlen.
  { assert (h = 0)%nat as -> by lia. apply wf_0 in Hn as ->. by apply app_cons_not_nil in El. }
  destruct h as [|h]; [apply wf_0 in Hn as ->; by apply app_cons_not_nil in El|].
  assert (0 <= index < size n) as Hix.
  { subst index. unfold size. rewrite El, len_app, len_cons. pose proof (len_nonneg l1). pose proof (len_nonneg l2). lia. }
  pose proof (locate_spec h n index Hn Hix) as Hloc. pose proof (kids_of_le n). cbn [del_loop]. rewrite (isnull_wf h n Hn).
  destruct (locate n index) as [[ki ix]|ei].
  - destruct Hloc as (Hk&Hx&Ei). pose proof (kid_wf h n ki Hn Hk) as Hw.
    destruct h as [|h]; [apply wf_0 in Hw; rewrite Hw in Hx; change (size Null) with 0 in Hx; lia|].
    rewrite (isnull_wf h) by done. pose proof (del_descend_spec h n ki ix Hn Hk Hx) as Hm.
    destruct (del_descend n ki ix) as [[n' ki'] ix']. by apply (deletion_moved fuel h n ki ix); auto with lia.
  - destruct Hloc as (Hk&Ei&Hp). destruct (elem n ei) as [y|] eqn:Ey; [|done]. cbn zeta.
    rewrite (to_list_elem n ei y) in El by (done || lia).
    apply app_inj_1 in El as [<- E2]; [|unfold size, len in *; rewrite length_app; lia]. injection E2 as <- <-.
    set (rv := if present retval then retval else Some y).
    assert (exists r0, rv = Some r0) as [r0 Er] by (unfold rv; destruct retval; eauto).
    assert (forall r, deletes up (lft n ei ++ to_list (kid n ei)) y (to_list (kid n (S ei)) ++ rgt n (S ei)) rv r ->
              deletes up (lft n ei ++ to_list (kid n ei)) y (to_list (kid n (S ei)) ++ rgt n (S ei)) retval r) as Hrv.
    { intros r (h'&n'&->&?&?). exists h', n'. split; [|done]. rewrite Er. cbn. by rewrite <- Er. }
    destruct (isnull (kid n 0)) eqn:E0.
    + assert (h = 0%nat) as -> by (by apply (leaf_size h n 0)).
      rewrite !andb_true_r. destruct (present (elem n 1)) eqn:H1; cbn [negb andb].
      * rewrite andb_false_r. apply Hrv. apply deletion_leaf; try done. by rewrite Er.
      * destruct Hroot as [->|]; [|done]. apply Hrv. cbn. exists 0%nat, Null. rewrite Er. split; [done|]. split; [constructor|].
        inversion Hn; subst; try done. cbn in Hk. assert (ei = 0)%nat as -> by lia.
        repeat match goal with H : wf 0 ?k |- _ => apply wf_0 in H; subst end. done.
    + assert (exists h', h = S h') as [h' ->].
      { destruct h; [|eauto]. assert (wf 0 (kid n 0)) as Hw by (apply (kid_wf 0 n 0 Hn); lia). apply wf_0 in Hw. by rewrite Hw in E0. }
      rewrite !andb_false_r. cbn [andb]. rewrite !(isnull_wf h') by (apply kid_wf; [done|lia]). cbn [orb].
      apply Hrv. rewrite Er. specialize (IH (S h') ltac:(lia)). rewrite Nat.add_1_r.
      destruct (present (elem (kid n ei) 1)) eqn:Ha; [by apply (deletion_pred fuel h')|].
      destruct (present (elem (kid n (S ei)) 1)) eqn:Hb; [by apply (deletion_succ fuel h')|].
      pose proof (del_2c_spec h' n ei Hn Hk Ha Hb) as Hm. destruct (del_2c n ei) as [n' a]. destruct Hm as [<- Hm].
      apply (deletion_moved fuel h' n ei (size (kid n ei))); try done; [lia|by apply to_list_elem; [lia|]|].
      by rewrite len_app.
Qed.
End Theory.

(** ** The operations on whole trees *)

Definition elements {E} (t : tree234 E) : list E := to_list (root t).
Definition tree_ok {E} (t : tree234 E) : Prop := exists h, wf h (root t).

(** A comparison function that orders its arguments, by signs. *)
Class TotalCmp {E} (cmp : E -> E -> Z) : Prop := {
  cmp_antisym x y : Z.sgn (cmp y x) = - Z.sgn (cmp x y);
  cmp_trans x y z : cmp x y <= 0 -> cmp y z <= 0 -> cmp x z <= 0
}.

#[export] Instance Z_sub_total : TotalCmp Z.sub.
Proof. split; intros; lia. Qed.

#[export] Instance relation234_eq_dec : EqDecision relation234.
Proof. solve_decision. Defined.

Section Trees.
Context {E : Type}.
Implicit Types (t : tree234 E) (e x : E) (l : list E).

Lemma count234_spec t : tree_ok t -> count234 t = len (elements t).
Proof. intros [h H]. apply (countnode_wf h). done. Qed.

Lemma root_null t : tree_ok t -> isnull (root t) = true -> elements t = [] /\ root t = Null.
Proof. intros _ H. unfold elements. by destruct (root t). Qed.

Lemma insert_at_path t e up l1 l2 :
  path_ok 0 up -> before up = l1 -> after up = l2 ->
  let t' := mkTree (insert_up up Null 0 (Some e) Null 0) (cmp t) in tree_ok t' /\ elements t' = l1 ++ e :: l2.
Proof.
  intros Hok <- <-. destruct (insert_up_spec 0 up Null e Null wf_null wf_null Hok) as (h'&Hw&El).
  split; [by exists h'|]. exact El.
Qed.

Lemma addpos_spec t e index :
  tree_ok t -> cmp t = None -> 0 <= index <= len (elements t) ->
  exists t', addpos234 t e index = Some (t', Some e) /\ tree_ok t' /\ cmp t' = None
    /\ elements t' = take (Z.to_nat index) (elements t) ++ e :: drop (Z.to_nat index) (elements t).
Proof.
  intros Hok Hc Hi. unfold addpos234, add234_internal. rewrite Hc. destruct (Z.ltb_spec index 0); [lia|]. cbn [orb].
  rewrite bool_decide_eq_false_2 by (by intros [? ?]).
  destruct (isnull (root t)) eqn:E0.
  { destruct (root_null t Hok E0) as [-> _]. eexists. split; [done|]. split; [|split; [done|]].
    - exists 1%nat. apply (wf_2 0 Null e Null); constructor.
    - by rewrite take_nil, drop_nil. }
  destruct Hok as [h Hw].
  destruct (add_find_index None e h (root t) index [] Hw) as (up&l1&l2&->&Hup&El&Eb&Ea&Hl); [done|done|lia|].
  eexists. split; [done|]. cbn in Eb, Ea. rewrite app_nil_r in Ea.
  destruct (insert_at_path t e up l1 l2 Hup Eb Ea) as [Hok' El']. split; [by rewrite Hc in Hok'|]. split; [done|].
  unfold elements in *. rewrite El. cbn [root] in *. rewrite El'.
  assert (length l1 = Z.to_nat index) as <- by (rewrite <- Hl by (by intros E1; rewrite E1 in E0); unfold len; lia).
  by rewrite take_app_length, drop_app_length.
Qed.

Lemma delpos_internal_spec t index x l1 l2 :
  tree_ok t -> elements t = l1 ++ x :: l2 -> len l1 = index ->
  exists t', delpos234_internal t index = Some (t', Some x) /\ tree_ok t' /\ cmp t' = cmp t /\ elements t' = l1 ++ l2.
Proof.
  intros [h Hw] El Hl. unfold delpos234_internal. rewrite (height_wf h (root t) Hw).
  destruct (del_loop_spec h h (Nat.le_refl h) (root t) index [] None l1 x l2) as (h'&n'&->&Hw'&El'); try done; [by left|].
  eexists. split; [done|]. split; [by exists h'|]. split; [done|]. unfold elements. cbn in *. by rewrite El', app_nil_r.
Qed.

Lemma split_at_index l index :
  0 <= index < len l -> exists l1 x l2, l = l1 ++ x :: l2 /\ len l1 = index /\ l !! Z.to_nat index = Some x.
Proof.
  intros Hi. destruct (lookup_lt_is_Some_2 l (Z.to_nat index)) as [x Hx]; [unfold len in Hi; lia|].
  exists (take (Z.to_nat index) l), x, (drop (S (Z.to_nat index)) l). split; [by rewrite take_drop_middle|].
  split; [|done]. unfold len in *. rewrite length_take. lia.
Qed.

Lemma delpos_spec t index :
  tree_ok t ->
  exists t', delpos234 t index = Some (t', if index <? 0 then None else elements t !! Z.to_nat index) /\ tree_ok t' /\ cmp t' = cmp t
    /\ elements t' = if index <? 0 then elements t else delete (Z.to_nat index) (elements t).
Proof.
  intros Hok. unfold delpos234. change (countnode234 (root t)) with (count234 t). rewrite (count234_spec t Hok).
  destruct (Z.ltb_spec index 0); cbn [orb]; [by exists t|]. destruct (Z.leb_spec (len (elements t)) index).
  - exists t. rewrite lookup_ge_None_2 by (unfold len in *; lia). split; [done|]. split; [done|]. split; [done|].
    by rewrite delete_take_drop, take_ge, drop_ge, app_nil_r by (unfold len in *; lia).
  - destruct (split_at_index (elements t) index) as (l1&x&l2&El&Hl&Hx); [done|].
    destruct (delpos_internal_spec t index x l1 l2 Hok El Hl) as (t'&->&Hok'&Hc&El'). exists t'. rewrite Hx.
    split; [done|]. split; [done|]. split; [done|]. rewrite El', El.
    assert (Z.to_nat index = length l1) as -> by (unfold len in Hl; lia). by rewrite delete_middle.
Qed.

(** *** Search *)

(** What the relation asks of the comparison of the key with an element. *)
Definition rel_holds (r : relation234) (c : Z) : bool :=
  match r with
  | REL234_EQ => c =? 0 | REL234_LT => 0 <? c | REL234_LE => 0 <=? c | REL234_GT => c <? 0 | REL234_GE => c <=? 0
  end.

(** The elements a better answer would be among. *)
Definition beyond (r : relation234) (ix : nat) l : list E :=
  match r with REL234_LT | REL234_LE => drop (S ix) l | _ => take ix l end.

Definition found (r : relation234) (f : E -> Z) l (res : option (E * Z)) : Prop :=
  match res with
  | Some (x, ix) =>
      0 <= ix /\ l !! Z.to_nat ix = Some x /\ rel_holds r (f x) = true
      /\ (f x = 0 \/ Forall (fun y => rel_holds r (f y) = false) (beyond r (Z.to_nat ix) l))
  | None => Forall (fun y => rel_holds r (f y) = false) l
  end.

(** The comparisons of the key, with the direction invented for a NULL key. *)
Definition key_cmp (c : E -> E -> Z) (key : option E) (r : relation234) (x : E) : Z :=
  match key with Some e => c e x | None => - reldir r end.

Definition direction (f : E -> Z) (r : relation234) (x : E) : Z :=
  if equal_permitted r then f x else if f x =? 0 then reldir r else f x.

Lemma direction_ordered f r l : ordered f l -> ordered (direction f r) l.
Proof.
  unfold ordered, direction. intros H. destruct (equal_permitted r) eqn:Ep; [done|].
  induction H as [|x l _ IH Hx]; constructor; [done|]. eapply Forall_impl; [exact Hx|]. intros y [H1 H2].
  destruct r; try discriminate; cbn; destruct (Z.eqb_spec (f x) 0), (Z.eqb_spec (f y) 0); lia.
Qed.

Definition leftward (r : relation234) : bool := match r with REL234_LT | REL234_LE => true | _ => false end.

(** The direction taken at an element decides whether it is an answer. *)
Lemma direction_rel f r x :
  (0 < direction f r x -> rel_holds r (f x) = leftward r)
  /\ (direction f r x < 0 -> rel_holds r (f x) = match r with REL234_GT | REL234_GE => true | _ => false end).
Proof.
  unfold direction. destruct r; cbn; destruct (Z.eqb_spec (f x) 0); split; intros; cbn in *;
    rewrite ?Z.ltb_lt, ?Z.ltb_ge, ?Z.leb_le, ?Z.leb_gt; try lia.
Qed.

(** The answer next to the place where the directions change. *)
Lemma found_at_end f r L ix :
  0 <= ix <= len L -> Forall (fun x => 0 < direction f r x) (take (Z.to_nat ix) L) ->
  Forall (fun x => direction f r x < 0) (drop (Z.to_nat ix) L) -> r <> REL234_EQ ->
  let j := if leftward r then ix - 1 else ix in
  found r f L (option_map (fun x => (x, j)) (if j <? 0 then None else L !! Z.to_nat j)).
Proof.
  intros Hix Ha Hb Hr j.
  assert (Forall (fun y => rel_holds r (f y) = leftward r) (take (Z.to_nat ix) L)) as Ha'.
  { eapply Forall_impl; [exact Ha|]. intros y Hy. by apply direction_rel. }
  assert (Forall (fun y => rel_holds r (f y) = negb (leftward r)) (drop (Z.to_nat ix) L)) as Hb'.
  { eapply Forall_impl; [exact Hb|]. intros y Hy. rewrite (proj2 (direction_rel f r y) Hy). by destruct r. }
  rewrite <- (take_drop (Z.to_nat ix) L) at 1. unfold len in Hix.
  destruct (leftward r) eqn:El; unfold j; cbn [negb] in *.
  - destruct (Z.ltb_spec (ix - 1) 0).
    { assert (ix = 0) as -> by lia. cbn. exact Hb'. }
    destruct (lookup_lt_is_Some_2 L (Z.to_nat (ix - 1))) as [x Hx]; [lia|]. rewrite take_drop, Hx. cbn. split; [lia|]. split; [done|].
    assert (x ∈ take (Z.to_nat ix) L) as Hin.
    { apply (list_elem_of_lookup_2 _ (Z.to_nat (ix - 1))). rewrite lookup_take_lt by lia. done. }
    rewrite List.Forall_forall in Ha'. split; [apply Ha'; by apply list_elem_of_In|]. right.
    destruct r; try discriminate; cbn [beyond]; by replace (S (Z.to_nat (ix - 1))) with (Z.to_nat ix) by lia.
  - destruct (Z.ltb_spec ix 0); [lia|]. rewrite take_drop. destruct (L !! Z.to_nat ix) as [x|] eqn:Hx; cbn.
    + split; [lia|]. split; [done|]. assert (x ∈ drop (Z.to_nat ix) L) as Hin.
      { apply (list_elem_of_lookup_2 _ 0). by rewrite lookup_drop, Nat.add_0_r. }
      rewrite List.Forall_forall in Hb'. split; [apply Hb'; by apply list_elem_of_In|]. right.
      by destruct r.
    + apply lookup_ge_None in Hx. by rewrite take_ge in Ha' by done.
Qed.

Lemma search_start_spec t h g L :
  wf h (root t) -> ordered g L -> L = elements t ->
  exists ss, search234_start t = Some ss /\ searching g L ss (2 * h).
Proof.
  intros Hw Ho ->. unfold search234_start, search234_step. destruct (isnull (root t)) eqn:E0.
  - eexists. split; [done|]. unfold elements. destruct (root t); [|done]. exists [], [], 0%nat. cbn. by split_and!.
  - eexists. split; [done|]. change (0 : Z) with (len (@nil E)) at 1.
    apply (search_enter g (elements t) Ho h (root t) [] []); [|done|constructor|constructor|lia].
    unfold elements. cbn. by rewrite app_nil_r.
Qed.

Lemma findrelpos_spec t key (c : option (E -> E -> Z)) r f0 :
  tree_ok t -> (match c with Some c => Some c | None => cmp t end) = Some f0 ->
  (equal_permitted r = true -> is_Some key) -> ordered (key_cmp f0 key r) (elements t) ->
  exists res, findrelpos234 t key c r = Some res /\ found r (key_cmp f0 key r) (elements t) res.
Proof.
  intros Hok Hc Hkey Ho. pose proof Hok as [h Hw]. unfold findrelpos234. rewrite Hc.
  assert (equal_permitted r && negb (present key) = false) as ->.
  { destruct (equal_permitted r); [|done]. by destruct Hkey as [? ->]. }
  set (f := key_cmp f0 key r) in *. set (g := direction f r). set (L := elements t) in *.
  pose proof (direction_ordered f r L Ho) as Hg. fold g in Hg.
  destruct (search_start_spec t h g L Hw Hg eq_refl) as (ss&->&Hs). rewrite (height_wf h (root t) Hw).
  destruct (find_loop_spec f0 key r f g L (2 * h + 1) ss (2 * h)) as (res&->&Hres); try done; [|lia|].
  { intros x. unfold g, direction. destruct (equal_permitted r); [|destruct (f x =? 0); auto].
    destruct (f x =? 0); auto. }
  destruct res as [[x ix]|ix].
  { destruct Hres as (Hp&Hx&Hix&Hl). eexists. split; [done|]. cbn. split; [lia|]. split; [done|]. rewrite Hx.
    split; [by destruct r|by left]. }
  destruct Hres as (Hix&Ha&Hb). destruct (decide (r = REL234_EQ)) as [->|Hr].
  - eexists. split; [done|]. cbn. rewrite <- (take_drop (Z.to_nat ix) L). unfold g, direction in Ha, Hb. cbn in Ha, Hb.
    apply Forall_app. split; (eapply Forall_impl; [first [exact Ha|exact Hb]|]); intros y Hy; apply Z.eqb_neq; cbn in Hy; lia.
  - pose proof (found_at_end f r L ix Hix Ha Hb Hr) as Hf. cbn zeta in Hf. rewrite <- (index234_spec t h) in Hf by done.
    destruct r; try done; eexists; (split; [done|exact Hf]).
Qed.
End Trees.

(** *** Sorted trees *)

Section SortedTrees.
Context {E : Type} (c : E -> E -> Z) `{!TotalCmp c}.
Implicit Types (t : tree234 E) (e x : E) (l : list E).

Definition sorted l : Prop := StronglySorted (fun x y => c x y < 0) l.

Definition sorted_tree t : Prop := tree_ok t /\ cmp t = Some c /\ sorted (elements t).

Lemma cmp_gt x y : 0 < c x y <-> c y x < 0.
Proof using All. pose proof (cmp_antisym x y). lia. Qed.

Lemma cmp_lt_trans x y z : c x y < 0 -> c y z < 0 -> c x z < 0.
Proof using All.
  intros H1 H2. destruct (Z.lt_ge_cases (c x z) 0) as [|H3]; [done|]. exfalso.
  assert (c z x <= 0) by (pose proof (cmp_antisym x z); lia).
  assert (c y x <= 0) by (apply (cmp_trans y z x); lia). pose proof (cmp_antisym x y). lia.
Qed.

Lemma sorted_ordered l e : sorted l -> ordered (c e) l.
Proof using All.
  intros H. induction H as [|x l _ IH Hx]; constructor; [done|]. eapply Forall_impl; [exact Hx|]. intros y Hxy.
  cbn in Hxy. split; intros He.
  - apply (cmp_trans e x y); lia.
  - by apply (cmp_lt_trans e x y).
Qed.

Lemma sorted_insert l1 e l2 :
  sorted (l1 ++ l2) -> Forall (fun x => 0 < c e x) l1 -> Forall (fun x => c e x < 0) l2 -> sorted (l1 ++ e :: l2).
Proof using All.
  unfold sorted. rewrite !StronglySorted_app. intros (H12&H1&H2) Ha Hb. rewrite List.Forall_forall in Ha.
  split; [|split; [done|]].
  - intros x y Hx Hy. apply elem_of_cons in Hy as [->|Hy]; [|by apply H12]. apply cmp_gt, Ha. by apply list_elem_of_In.
  - by constructor.
Qed.

Lemma sorted_remove l1 x l2 : sorted (l1 ++ x :: l2) -> sorted (l1 ++ l2).
Proof using.
  unfold sorted. rewrite !StronglySorted_app. intros (H12&H1&H2). inversion H2; subst. split; [|done].
  intros y z Hy Hz. apply H12; [done|]. by right.
Qed.

(** Adding: the element already there is returned and nothing changes, or the new one
    goes to its place. *)
Lemma add_sorted_spec t e :
  sorted_tree t ->
  exists t' r, add234 t e = Some (t', Some r) /\ sorted_tree t' /\
    ((r ∈ elements t /\ c e r = 0 /\ t' = t)
     \/ (r = e /\ Forall (fun x => c e x <> 0) (elements t) /\
         exists l1 l2, elements t = l1 ++ l2 /\ elements t' = l1 ++ e :: l2)).
Proof using All.
  intros (Hok&Hc&Hs). unfold add234, add234_internal. rewrite Hc. destruct (isnull (root t)) eqn:E0.
  { destruct (root_null t Hok E0) as [El _]. eexists _, _. split; [done|]. split; [|right; rewrite El; split; [done|]; split; [constructor|by exists [], []]].
    split; [exists 1%nat; apply (wf_2 0 Null e Null); constructor|]. split; [done|]. by repeat constructor. }
  pose proof Hok as [h Hw].
  destruct (add_find_cmp c e h (root t) [] Hw I (sorted_ordered _ e Hs)) as (r&->&Hr).
  destruct r as [up|[x|]]; [| |done].
  - destruct Hr as (Hup&l1&l2&El&Eb&Ea&H1&H2). cbn in Eb, Ea. rewrite app_nil_r in Ea.
    destruct (insert_at_path t e up l1 l2 Hup Eb Ea) as [Hok' El']. rewrite Hc in Hok', El'.
    eexists _, _. split; [done|]. unfold sorted_tree. rewrite El'. split.
    + split; [done|]. split; [done|]. apply sorted_insert; [|done|done]. unfold elements in Hs. by rewrite <- El.
    + right. split; [done|]. unfold elements at 1. rewrite El. split; [|exists l1, l2; by unfold elements at 1].
      apply Forall_app. split; eapply Forall_impl; [exact H1| |exact H2|]; cbn; intros; lia.
  - eexists _, _. split; [done|]. split; [done|]. left. by destruct Hr.
Qed.

(** Removing: the element that compares equal is taken out and returned, or nothing is. *)
Lemma del_sorted_spec t e :
  sorted_tree t ->
  exists t' r, del234 t e = Some (t', r) /\ sorted_tree t' /\
    match r with
    | Some x => c e x = 0 /\ exists l1 l2, elements t = l1 ++ x :: l2 /\ elements t' = l1 ++ l2
    | None => t' = t /\ Forall (fun x => c e x <> 0) (elements t)
    end.
Proof using All.
  intros (Hok&Hc&Hs). unfold del234.
  destruct (findrelpos_spec t (Some e) None REL234_EQ c Hok Hc) as (res&->&Hf); [eauto|by apply sorted_ordered|].
  destruct res as [[x ix]|]; cbn in Hf.
  - destruct Hf as (Hix&Hl&Hx&_). apply Z.eqb_eq in Hx.
    assert (elements t = take (Z.to_nat ix) (elements t) ++ x :: drop (S (Z.to_nat ix)) (elements t)) as El
      by (by rewrite take_drop_middle).
    pose proof (lookup_lt_Some _ _ _ Hl).
    destruct (delpos_internal_spec t ix x _ _ Hok El) as (t'&->&Hok'&Hc'&El'); [unfold len; rewrite length_take; lia|].
    eexists _, _. split; [done|]. split; [|split; [done|eauto]].
    split; [done|]. split; [congruence|]. rewrite El'. apply (sorted_remove _ x). by rewrite <- El.
  - eexists _, _. split; [done|]. split; [done|]. split; [done|]. eapply Forall_impl; [exact Hf|].
    cbn. intros x Hx. by apply Z.eqb_neq.
Qed.
End SortedTrees.

(** ** Theorems *)

(** Operations of an unsorted tree and of the list it stands for.  An insertion beyond
    the end is left undefined. *)
Inductive pos_op {E} := AddPos (e : E) (index : Z) | DelPos (index : Z) | IndexOf (index : Z) | CountOf.
Inductive pos_out {E} := Elem (x : option E) | Num (n : Z).
Arguments pos_op : clear implicits.
Arguments pos_out : clear implicits.

Definition tree_step {E} (t : tree234 E) (op : pos_op E) : option (tree234 E * pos_out E) :=
  match op with
  | AddPos e index => '(t, r) ← addpos234 t e index; Some (t, Elem r)
  | DelPos index => '(t, r) ← delpos234 t index; Some (t, Elem r)
  | IndexOf index => Some (t, Elem (index234 t index))
  | CountOf => Some (t, Num (count234 t))
  end.

Definition list_step {E} (l : list E) (op : pos_op E) : option (list E * pos_out E) :=
  match op with
  | AddPos e index =>
      if index <? 0 then Some (l, Elem None)
      else if index <=? len l then Some (take (Z.to_nat index) l ++ e :: drop (Z.to_nat index) l, Elem (Some e))
      else None
  | DelPos index =>
      if index <? 0 then Some (l, Elem None) else Some (delete (Z.to_nat index) l, Elem (l !! Z.to_nat index))
  | IndexOf index => Some (l, Elem (if index <? 0 then None else l !! Z.to_nat index))
  | CountOf => Some (l, Num (len l))
  end.

Lemma tree_step_refines {E} (t : tree234 E) op l' r :
  tree_ok t -> cmp t = None -> list_step (elements t) op = Some (l', r) ->
  exists t', tree_step t op = Some (t', r) /\ tree_ok t' /\ cmp t' = None /\ elements t' = l'.
Proof.
  intros Hok Hc. destruct op as [e index|index|index|]; cbn [list_step tree_step].
  - destruct (Z.ltb_spec index 0).
    + intros [= <- <-]. exists t. unfold addpos234. by rewrite (proj2 (Z.ltb_lt _ _)).
    + destruct (Z.leb_spec index (len (elements t))); [|done]. intros [= <- <-].
      destruct (addpos_spec t e index Hok Hc) as (t'&->&?&?&?); [lia|]. eauto.
  - intros H. destruct (delpos_spec t index Hok) as (t'&->&?&Hc'&El). exists t'. rewrite El, Hc', Hc.
    destruct (index <? 0); injection H as <- <-; by split_and!.
  - intros [= <- <-]. exists t. destruct Hok as [h Hw] eqn:E0. rewrite (index234_spec t h) by done. eauto.
  - intros [= <- <-]. exists t. rewrite count234_spec by done. eauto.
Qed.

(** C7. A 2-3-4 tree without comparison function is a list: whatever sequence of
    insertions by index (within the bounds), deletions, lookups and counts is run on it,
    every call returns what the list operation returns, the tree ends up standing for the
    list, and it stays balanced with accurate counts (the properties the source's
    self-test verifies).  In particular no call fails or reads a missing node. *)
Theorem tree234_refines_list {E} (t : tree234 E) (ops : list (pos_op E)) l' outs :
  tree_ok t -> cmp t = None -> run_ops list_step (elements t) ops = Some (l', outs) ->
  exists t', run_ops tree_step t ops = Some (t', outs) /\ tree_ok t' /\ elements t' = l'.
Proof.
  revert t l' outs; induction ops as [|op ops IH]; intros t l' outs Hok Hc; cbn [run_ops].
  { intros [= <- <-]. eauto. }
  destruct (list_step (elements t) op) as [[l1 r]|] eqn:E1; [|done]. cbn [mbind option_bind].
  destruct (tree_step_refines t op l1 r Hok Hc E1) as (t1&->&Hok1&Hc1&<-). cbn [mbind option_bind].
  destruct (run_ops list_step (elements t1) ops) as [[l2 rs]|] eqn:E2; [|done]. cbn [mbind option_bind].
  intros [= <- <-]. destruct (IH t1 l2 rs Hok1 Hc1 E2) as (t'&->&?&?). eauto.
Qed.

Lemma tree234_refines_list_witness :
  exists t', run_ops tree_step (newtree234 None) [AddPos 5 0; AddPos 7 1; AddPos 6 1; DelPos 0; CountOf]
    = Some (t', [Elem (Some 5); Elem (Some 7); Elem (Some 6); Elem (Some 5); Num 2]) /\ elements t' = [6; 7].
Proof.
  destruct (tree234_refines_list (newtree234 None) [AddPos 5 0; AddPos 7 1; AddPos 6 1; DelPos 0; CountOf]
    [6; 7] [Elem (Some 5); Elem (Some 7); Elem (Some 6); Elem (Some 5); Num 2]) as (t'&E1&_&E2).
  - exists 0%nat. constructor.
  - reflexivity.
  - reflexivity.
  - exists t'. split; [exact E1|exact E2].
Defined.

(** C13. A tree with a comparison function is a sorted set: [add234] returns the element
    that compares equal and changes nothing, or puts the new one in its place; [del234]
    removes and returns the element that compares equal, or reports that there is none;
    both keep the tree balanced, counted and strictly sorted. *)
Theorem sorted_tree234_correct {E} (c : E -> E -> Z) (t : tree234 E) (e : E) :
  TotalCmp c -> sorted_tree c t ->
  (exists t' r, add234 t e = Some (t', Some r) /\ sorted_tree c t' /\
     ((r ∈ elements t /\ c e r = 0 /\ t' = t)
      \/ (r = e /\ Forall (fun x => c e x <> 0) (elements t) /\
          exists l1 l2, elements t = l1 ++ l2 /\ elements t' = l1 ++ e :: l2)))
  /\ (exists t' r, del234 t e = Some (t', r) /\ sorted_tree c t' /\
        match r with
        | Some x => c e x = 0 /\ exists l1 l2, elements t = l1 ++ x :: l2 /\ elements t' = l1 ++ l2
        | None => t' = t /\ Forall (fun x => c e x <> 0) (elements t)
        end).
Proof. intros Hc Ht. split; [by apply add_sorted_spec|by apply del_sorted_spec]. Qed.

Lemma sorted_tree234_correct_witness :
  exists t' r, add234 (newtree234 (Some Z.sub)) 3 = Some (t', Some r) /\ sorted_tree Z.sub t'.
Proof.
  destruct (sorted_tree234_correct Z.sub (newtree234 (Some Z.sub)) 3) as [(t'&r&H1&H2&_) _].
  - exact Z_sub_total.
  - split; [exists 0%nat; constructor|]. split; [reflexivity|constructor].
  - exists t', r. split; [exact H1|exact H2].
Defined.

(** C29. The search of a tree: for a comparison the tree is ordered by (it may be
    asymmetric, and the key may be of a different kind or, for the strict relations,
    NULL) [findrelpos234] terminates with an element in the relation asked for and its
    index, such that no element beyond it is an answer too unless an equal one was found;
    or with NULL when no element is in the relation. *)
Theorem findrelpos234_correct {E} (t : tree234 E) (key : option E) (c : option (E -> E -> Z)) (r : relation234) (f0 : E -> E -> Z) :
  tree_ok t -> (match c with Some c => Some c | None => cmp t end) = Some f0 ->
  (equal_permitted r = true -> is_Some key) -> ordered (key_cmp f0 key r) (elements t) ->
  exists res, findrelpos234 t key c r = Some res /\ found r (key_cmp f0 key r) (elements t) res.
Proof. apply findrelpos_spec. Qed.

Lemma findrelpos234_correct_witness :
  exists res, findrelpos234 (mkTree (Node Null Null Null Null 0 0 0 0 (Some 3) (Some 5) None) (Some Z.sub)) (Some 4) None REL234_GE
    = Some res /\ found REL234_GE (key_cmp Z.sub (Some 4) REL234_GE) [3; 5] res.
Proof.
  destruct (findrelpos234_correct (mkTree (Node Null Null Null Null 0 0 0 0 (Some 3) (Some 5) None) (Some Z.sub))
    (Some 4) None REL234_GE Z.sub) as (res&H1&H2).
  - exists 1%nat. apply (wf_3 0 Null 3 Null 5 Null); constructor.
  - reflexivity.
  - intros _. exists 4. reflexivity.
  - repeat constructor; cbn; lia.
  - exists res. split; [exact H1|exact H2].
Defined.

(** [addpos234] leaves the upper bound of the index to [add234_internal] ("this
    checks the upper bound"), which checks it at internal nodes only: in a tree whose
    root is a leaf an index one or two past the end is accepted and inserts at the end,
    a larger one reads beyond the node's four kids, and an empty tree accepts any. *)
Theorem addpos234_bound_unchecked :
  let leaf := mkTree (Node Null Null Null Null 0 0 0 0 (Some 1) None None) None in
  option_map (fun p => (elements p.1, p.2)) (addpos234 leaf 2 3) = Some ([1; 2], Some 2)
  /\ addpos234 leaf 2 4 = None
  /\ option_map (fun p => (elements p.1, p.2)) (addpos234 (newtree234 None) 2 1000) = Some ([2], Some 2).
Proof. vm_compute. tauto. Qed.
