(* ===== verification/SortedSet.v ===== *)
(** * Sorted sets: what tree234.c promises to its clients

    [SortedSet] is the part of tree234.h that conf.c and timing.c call, as an
    interface; [SortedSetLaws] is its contract, in terms of the strictly sorted list
    of the elements.  The clients are modelled and proved against the class; the
    2-3-4 tree is its instance. *)

From stdpp Require Import sorting.
From S2P Require Import Prelude Memory Tree234.
Open Scope Z_scope.

Class SortedSet (T E : Type) := {
  ss_new : (E -> E -> Z) -> T;
  ss_add : T -> E -> option (T * option E);
  ss_del : T -> E -> option (T * option E);
  ss_delpos : T -> Z -> option (T * option E);
  ss_index : T -> Z -> option E;
  ss_count : T -> Z;
  ss_findrelpos : T -> option E -> option (E -> E -> Z) -> relation234 -> option (option (E * Z))
}.

(** [c] is the comparison function the set was made with. *)
Class SortedSetLaws (T E : Type) `{SortedSet T E} (c : E -> E -> Z) := {
  ss_ok : T -> Prop;
  ss_elems : T -> list E;
  ss_ok_sorted t : ss_ok t -> sorted c (ss_elems t);
  ss_new_spec : ss_ok (ss_new c) /\ ss_elems (ss_new c) = [];
  ss_add_spec t e : ss_ok t ->
    exists t' r, ss_add t e = Some (t', Some r) /\ ss_ok t' /\
      ((r ∈ ss_elems t /\ c e r = 0 /\ t' = t)
       \/ (r = e /\ Forall (fun x => c e x <> 0) (ss_elems t) /\
           exists l1 l2, ss_elems t = l1 ++ l2 /\ ss_elems t' = l1 ++ e :: l2));
  ss_del_spec t e : ss_ok t ->
    exists t' r, ss_del t e = Some (t', r) /\ ss_ok t' /\
      match r with
      | Some x => c e x = 0 /\ exists l1 l2, ss_elems t = l1 ++ x :: l2 /\ ss_elems t' = l1 ++ l2
      | None => t' = t /\ Forall (fun x => c e x <> 0) (ss_elems t)
      end;
  ss_delpos_spec t i : ss_ok t -> 0 <= i ->
    exists t', ss_delpos t i = Some (t', ss_elems t !! Z.to_nat i) /\ ss_ok t'
      /\ ss_elems t' = delete (Z.to_nat i) (ss_elems t);
  ss_index_spec t i : ss_ok t -> 0 <= i -> ss_index t i = ss_elems t !! Z.to_nat i;
  ss_count_spec t : ss_ok t -> ss_count t = len (ss_elems t);
  ss_findrelpos_spec t e c' r : ss_ok t -> (c' = None \/ c' = Some c) ->
    exists res, ss_findrelpos t (Some e) c' r = Some res /\ found r (c e) (ss_elems t) res
}.

#[export] Instance tree234_set E : SortedSet (tree234 E) E := {|
  ss_new c := newtree234 (Some c);
  ss_add := add234;
  ss_del := del234;
  ss_delpos := delpos234;
  ss_index := index234;
  ss_count := count234;
  ss_findrelpos := findrelpos234
|}.

#[export] Program Instance tree234_set_laws E (c : E -> E -> Z) `{!TotalCmp c} : SortedSetLaws (tree234 E) E c := {|
  ss_ok := sorted_tree c;
  ss_elems := elements
|}.
Next Obligation. by intros E c ? t (_&_&Hs). Qed.
Next Obligation.
  intros E c ?. split; [|done]. split; [exists 0%nat; constructor|]. split; [done|constructor].
Qed.
Next Obligation. intros E c ? t e Ht. by apply add_sorted_spec. Qed.
Next Obligation. intros E c ? t e Ht. by apply del_sorted_spec. Qed.
Next Obligation.
  intros E c ? t i (Hok&Hc&Hs) Hi. cbn. destruct (delpos_spec t i Hok) as (t'&Ed&Hok'&Hc'&El).
  rewrite (proj2 (Z.ltb_ge i 0)) in * by done. exists t'. split; [done|]. split; [|done].
  split; [done|]. split; [congruence|]. rewrite El. clear -Hs.
  set (n := Z.to_nat i). destruct (elements t !! n) as [x|] eqn:E0.
  - rewrite <- (take_drop_middle _ n x E0) in Hs. apply (sorted_remove c) in Hs.
    by rewrite delete_take_drop.
  - apply lookup_ge_None_1 in E0. by rewrite delete_take_drop, take_ge, drop_ge, app_nil_r by lia.
Qed.
Next Obligation.
  intros E c ? t i ([h Hw]&Hc&Hs) Hi. cbn. rewrite (index234_spec t h) by done.
  by rewrite (proj2 (Z.ltb_ge i 0)) by done.
Qed.
Next Obligation. intros E c ? t (Hok&_&_). by apply count234_spec. Qed.
Next Obligation.
  intros E c ? t e c' r (Hok&Hc&Hs) Hc'. cbn.
  apply (findrelpos_spec t (Some e) c' r c Hok); [destruct Hc' as [-> | ->]; done|eauto|].
  exact (sorted_ordered c _ e Hs).
Qed.

(** ** What clients use *)
Section Client.
Context {T E : Type} (c : E -> E -> Z) `{SortedSetLaws T E c} `{!TotalCmp c}.

Lemma sorted_unique l x y : sorted c l -> x ∈ l -> y ∈ l -> c x y = 0 -> x = y.
Proof using All.
  intros Hs Hx Hy Hc. induction Hs as [|a l _ IH Hf]; [by apply elem_of_nil in Hx|].
  rewrite Forall_forall in Hf. pose proof (cmp_antisym x y) as Ha.
  apply elem_of_cons in Hx as [-> |Hx], Hy as [-> |Hy]; [done| | |by apply IH].
  - specialize (Hf y Hy). lia.
  - specialize (Hf x Hx). lia.
Qed.

Definition ss_find (t : T) (e : E) : option (option E) := option_map (option_map fst) (ss_findrelpos t (Some e) None REL234_EQ).

Lemma ss_find_spec t e :
  ss_ok t -> exists r, ss_find t e = Some r /\
    match r with
    | Some x => x ∈ ss_elems t /\ c e x = 0
    | None => Forall (fun x => c e x <> 0) (ss_elems t)
    end.
Proof using All.
  intros Ht. unfold ss_find.
  destruct (ss_findrelpos_spec t e None REL234_EQ Ht) as (res&->&Hf); [by left|]. cbn [option_map].
  destruct res as [[x i]|]; cbn in Hf |- *; eexists; (split; [done|]).
  - destruct Hf as (_&Hl&Hr&_). apply list_elem_of_lookup_2 in Hl. split; [done|]. by apply Z.eqb_eq.
  - eapply Forall_impl; [exact Hf|]. cbn. intros x Hx. by apply Z.eqb_neq.
Qed.

(** The search for the first element above the key, when the set is cut there. *)
Lemma ss_first_above t e c' r l1 l2 :
  ss_ok t -> (c' = None \/ c' = Some c) -> (r = REL234_GT \/ r = REL234_GE) -> ss_elems t = l1 ++ l2 ->
  Forall (fun x => rel_holds r (c e x) = false) l1 -> Forall (fun x => rel_holds r (c e x) = true) l2 ->
  ss_findrelpos t (Some e) c' r = Some (match l2 with [] => None | x :: _ => Some (x, len l1) end).
Proof using All.
  intros Ht Hc' Hr El H1 H2. destruct (ss_findrelpos_spec t e c' r Ht Hc') as (res&->&Hf). f_equal.
  pose proof (ss_ok_sorted t Ht) as Hs. rewrite El in *. destruct res as [[x ix]|]; cbn [found] in Hf.
  - destruct Hf as (Hix&Hl&Hx&Hb). apply lookup_app_Some in Hl as [Hl|[Hge Hl]].
    { pose proof (Forall_lookup_1 _ _ _ _ H1 Hl). cbn in *. congruence. }
    destruct l2 as [|h l2]; [done|]. destruct (Z.to_nat ix - length l1)%nat as [|m] eqn:Em.
    { cbn in Hl. injection Hl as ->. do 2 f_equal. unfold len. lia. }
    exfalso. cbn in Hl. apply Forall_cons_iff in H2 as [Hh _].
    apply list_elem_of_lookup_2 in Hl as Hin. destruct Hb as [Hb|Hb].
    + unfold sorted in Hs. apply StronglySorted_app_1_r in Hs. inversion Hs as [|? ? _ Hf]; subst.
      rewrite Forall_forall in Hf. specialize (Hf x Hin). cbn in Hf.
      destruct Hr as [-> | ->]; cbn [rel_holds] in *; bsimpl; [lia|].
      pose proof (cmp_antisym e x). pose proof (cmp_antisym h x). pose proof (cmp_trans x e h). lia.
    + rewrite Forall_forall in Hb. rewrite (Hb h) in Hh; [done|].
      destruct Hr as [-> | ->]; cbn [beyond]; apply list_elem_of_lookup; exists (length l1);
        rewrite lookup_take_lt by lia; rewrite lookup_app_r, Nat.sub_diag by lia; done.
  - apply Forall_app in Hf as [_ Hf]. destruct l2 as [|h l2]; [done|].
    apply Forall_cons_iff in Hf as [Hf _]. apply Forall_cons_iff in H2 as [Hh _]. congruence.
Qed.
End Client.
