(* ===== verification/Conf.v ===== *)
(** * The configuration store (conf.c)

    A configuration is a sorted set of entries, keyed by an option of putty.h and, for
    some options, a subkey.  The module is modelled against the interface [SortedSet]
    (tree234.c in the program) and against [BinarySink]/[BinarySource] for its
    serialisation.  [conf_refines_map] shows that it is a finite map with typed access,
    [conf_enumerates] that walking the subkeys of an option visits all of them in order,
    [conf_roundtrip] that a serialised configuration is read back.

    [Filename] and [FontSpec] are the ones of unix/uxmisc.c, a path and a name.  A
    pointer comparison of two entries ([oldentry != entry]) is a comparison of their
    contents: replacing an entry by one with the same contents is no change. *)

From stdpp Require Import gmap sorting.
From S2P Require Import Prelude Memory Marshal Tree234 SortedSet.
Open Scope Z_scope.

(** ** Options and their types *)

Inductive Type_ := TYPE_NONE | TYPE_BOOL | TYPE_INT | TYPE_STR | TYPE_FILENAME | TYPE_FONT.

#[export] Instance Type_eq_dec : EqDecision Type_.
Proof. solve_decision. Defined.

Module Options.
Import Ascii String.
Abbreviation NONE := TYPE_NONE (only parsing).
Abbreviation BOOL := TYPE_BOOL (only parsing).
Abbreviation INT := TYPE_INT (only parsing).
Abbreviation STR := TYPE_STR (only parsing).
Abbreviation FILENAME := TYPE_FILENAME (only parsing).
Abbreviation FONT := TYPE_FONT (only parsing).
(** [X(value-type, subkey-type, keyword)] *)
Definition X (valtype keytype : Type_) (keyword : string) : Type_ * Type_ * string := (valtype, keytype, keyword).

Definition CONFIG_OPTIONS_1 : list (Type_ * Type_ * string) := [
  X STR NONE "host"; X INT NONE "port"; X INT NONE "protocol"; X INT NONE "addressfamily";
   X INT NONE "close_on_exit"; X BOOL NONE "warn_on_close"; X INT NONE "ping_interval";
   X BOOL NONE "tcp_nodelay"; X BOOL NONE "tcp_keepalives"; X STR NONE "loghost";
   X STR NONE "proxy_exclude_list"; X INT NONE "proxy_dns"; X BOOL NONE "even_proxy_localhost";
   X INT NONE "proxy_type"; X STR NONE "proxy_host"; X INT NONE "proxy_port";
   X STR NONE "proxy_username"; X STR NONE "proxy_password"; X STR NONE "proxy_telnet_command";
   X INT NONE "proxy_log_to_term"; X STR NONE "remote_cmd"; X STR NONE "remote_cmd2";
   X BOOL NONE "nopty"; X BOOL NONE "compression"; X INT INT "ssh_kexlist"; X INT INT "ssh_hklist";
   X BOOL NONE "ssh_prefer_known_hostkeys"; X INT NONE "ssh_rekey_time"; X STR NONE "ssh_rekey_data";
   X BOOL NONE "tryagent"; X BOOL NONE "agentfwd"; X BOOL NONE "change_username";
   X INT INT "ssh_cipherlist"; X FILENAME NONE "keyfile"; X STR STR "fz_keyfiles"; X INT NONE "sshprot";
   X BOOL NONE "ssh2_des_cbc"; X BOOL NONE "ssh_no_userauth"; X BOOL NONE "ssh_no_trivial_userauth";
   X BOOL NONE "ssh_show_banner"; X BOOL NONE "try_tis_auth"; X BOOL NONE "try_ki_auth";
   X BOOL NONE "try_gssapi_auth"; X BOOL NONE "try_gssapi_kex"; X BOOL NONE "gssapifwd";
   X INT NONE "gssapirekey"; X INT INT "ssh_gsslist"; X FILENAME NONE "ssh_gss_custom";
   X BOOL NONE "ssh_subsys"; X BOOL NONE "ssh_subsys2"; X BOOL NONE "ssh_no_shell";
   X STR NONE "ssh_nc_host"; X INT NONE "ssh_nc_port"; X STR NONE "termtype"; X STR NONE "termspeed";
   X STR STR "ttymodes"; X STR STR "environmt"; X STR NONE "username"; X BOOL NONE "username_from_env";
   X STR NONE "localusername"; X BOOL NONE "rfc_environ"; X BOOL NONE "passive_telnet";
   X STR NONE "serline"; X INT NONE "serspeed"; X INT NONE "serdatabits"; X INT NONE "serstopbits";
   X INT NONE "serparity"; X INT NONE "serflow"; X STR NONE "supdup_location";
   X INT NONE "supdup_ascii_set"; X BOOL NONE "supdup_more"; X BOOL NONE "supdup_scroll";
   X BOOL NONE "bksp_is_delete"; X BOOL NONE "rxvt_homeend"; X INT NONE "funky_type";
   X BOOL NONE "no_applic_c"; X BOOL NONE "no_applic_k"; X BOOL NONE "no_mouse_rep";
   X BOOL NONE "no_remote_resize"; X BOOL NONE "no_alt_screen"; X BOOL NONE "no_remote_wintitle";
   X BOOL NONE "no_remote_clearscroll"; X BOOL NONE "no_dbackspace"; X BOOL NONE "no_remote_charset";
   X INT NONE "remote_qtitle_action"; X BOOL NONE "app_cursor"; X BOOL NONE "app_keypad";
   X BOOL NONE "nethack_keypad"; X BOOL NONE "telnet_keyboard"; X BOOL NONE "telnet_newline";
   X BOOL NONE "alt_f4"; X BOOL NONE "alt_space"; X BOOL NONE "alt_only"; X INT NONE "localecho";
   X INT NONE "localedit"; X BOOL NONE "alwaysontop"; X BOOL NONE "fullscreenonaltenter";
   X BOOL NONE "scroll_on_key"; X BOOL NONE "scroll_on_disp"; X BOOL NONE "erase_to_scrollback";
   X BOOL NONE "compose_key"; X BOOL NONE "ctrlaltkeys"; X BOOL NONE "osx_option_meta";
   X BOOL NONE "osx_command_meta"; X STR NONE "wintitle"; X INT NONE "savelines"
  ]%string.

Definition CONFIG_OPTIONS_2 : list (Type_ * Type_ * string) := [
  X BOOL NONE "dec_om"; X BOOL NONE "wrap_mode"; X BOOL NONE "lfhascr"; X INT NONE "cursor_type";
   X BOOL NONE "blink_cur"; X INT NONE "beep"; X INT NONE "beep_ind"; X BOOL NONE "bellovl";
   X INT NONE "bellovl_n"; X INT NONE "bellovl_t"; X INT NONE "bellovl_s";
   X FILENAME NONE "bell_wavefile"; X BOOL NONE "scrollbar"; X BOOL NONE "scrollbar_in_fullscreen";
   X INT NONE "resize_action"; X BOOL NONE "bce"; X BOOL NONE "blinktext";
   X BOOL NONE "win_name_always"; X INT NONE "width"; X INT NONE "height"; X FONT NONE "font";
   X INT NONE "font_quality"; X FILENAME NONE "logfilename"; X INT NONE "logtype";
   X INT NONE "logxfovr"; X BOOL NONE "logflush"; X BOOL NONE "logheader"; X BOOL NONE "logomitpass";
   X BOOL NONE "logomitdata"; X BOOL NONE "hide_mouseptr"; X BOOL NONE "sunken_edge";
   X INT NONE "window_border"; X STR NONE "answerback"; X STR NONE "printer";
   X BOOL NONE "no_arabicshaping"; X BOOL NONE "no_bidi"; X BOOL NONE "ansi_colour";
   X BOOL NONE "xterm_256_colour"; X BOOL NONE "true_colour"; X BOOL NONE "system_colour";
   X BOOL NONE "try_palette"; X INT NONE "bold_style"; X INT INT "colours"; X INT NONE "mouse_is_xterm";
   X BOOL NONE "rect_select"; X BOOL NONE "paste_controls"; X BOOL NONE "rawcnp";
   X BOOL NONE "utf8linedraw"; X BOOL NONE "rtf_paste"; X BOOL NONE "mouse_override";
   X INT INT "wordness"; X BOOL NONE "mouseautocopy"; X INT NONE "mousepaste";
   X INT NONE "ctrlshiftins"; X INT NONE "ctrlshiftcv"; X STR NONE "mousepaste_custom";
   X STR NONE "ctrlshiftins_custom"; X STR NONE "ctrlshiftcv_custom"; X INT NONE "vtmode";
   X STR NONE "line_codepage"; X BOOL NONE "cjk_ambig_wide"; X BOOL NONE "utf8_override";
   X BOOL NONE "xlat_capslockcyr"; X BOOL NONE "x11_forward"; X STR NONE "x11_display";
   X INT NONE "x11_auth"; X FILENAME NONE "xauthfile"; X BOOL NONE "lport_acceptall";
   X BOOL NONE "rport_acceptall"; X STR STR "portfwd"; X INT NONE "sshbug_ignore1";
   X INT NONE "sshbug_plainpw1"; X INT NONE "sshbug_rsa1"; X INT NONE "sshbug_hmac2";
   X INT NONE "sshbug_derivekey2"; X INT NONE "sshbug_rsapad2"; X INT NONE "sshbug_pksessid2";
   X INT NONE "sshbug_rekey2"; X INT NONE "sshbug_maxpkt2"; X INT NONE "sshbug_ignore2";
   X INT NONE "sshbug_oldgex2"; X INT NONE "sshbug_winadj"; X INT NONE "sshbug_chanreq";
   X BOOL NONE "ssh_simple"; X BOOL NONE "ssh_connection_sharing";
   X BOOL NONE "ssh_connection_sharing_upstream"; X BOOL NONE "ssh_connection_sharing_downstream";
   X STR STR "ssh_manual_hostkeys"; X BOOL NONE "stamp_utmp"; X BOOL NONE "login_shell";
   X BOOL NONE "scrollbar_on_left"; X BOOL NONE "shadowbold"; X FONT NONE "boldfont";
   X FONT NONE "widefont"; X FONT NONE "wideboldfont"; X INT NONE "shadowboldoffset";
   X BOOL NONE "crhaslf"; X STR NONE "winclass"
  ]%string.
Definition CONFIG_OPTIONS := (CONFIG_OPTIONS_1 ++ CONFIG_OPTIONS_2)%list.

(** The value of the enumeration constant [CONF_<keyword>]. *)
Definition CONF (keyword : string) : Z :=
  match list_find (fun o => o.2 = keyword) CONFIG_OPTIONS with Some (i, _) => Z.of_nat i | None => -1 end.
End Options.

Definition N_CONFIG_OPTIONS : Z := len Options.CONFIG_OPTIONS.
Definition valuetypes : list Type_ := (fun o => o.1.1) <$> Options.CONFIG_OPTIONS.
Definition subkeytypes : list Type_ := (fun o => o.1.2) <$> Options.CONFIG_OPTIONS.

(** [types[primary]], [None] outside the array. *)
Definition type_at (types : list Type_) (primary : Z) : option Type_ :=
  if primary <? 0 then None else types !! Z.to_nat primary.

(** ** Entries *)

(** The union of a key: the member that its option's subkey type selects. *)
Inductive secondary := SecNone | SecInt (i : Z) | SecStr (s : list Z).
Record key := mkKey { primary : Z; key_secondary : secondary }.

(** The union of a value; [ValUnset] before any member is written. *)
Inductive value := ValUnset | ValBool (b : bool) | ValInt (i : Z) | ValStr (s : list Z) | ValFile (path : list Z) | ValFont (name : list Z).
Record conf_entry := mkEntry { ent_key : key; ent_value : value }.

#[export] Instance secondary_eq_dec : EqDecision secondary.
Proof. solve_decision. Defined.
#[export] Instance key_eq_dec : EqDecision key.
Proof. solve_decision. Defined.
#[export] Instance value_eq_dec : EqDecision value.
Proof. solve_decision. Defined.
#[export] Instance conf_entry_eq_dec : EqDecision conf_entry.
Proof. solve_decision. Defined.

#[export] Program Instance key_countable : Countable key :=
  inj_countable' (fun k => (primary k, match key_secondary k with SecNone => inl () | SecInt i => inr (inl i) | SecStr s => inr (inr s) end))
                 (fun p => mkKey p.1 (match p.2 with inl _ => SecNone | inr (inl i) => SecInt i | inr (inr s) => SecStr s end)) _.
Next Obligation. by intros [p []]. Qed.

Definition sec_i (k : key) : Z := match key_secondary k with SecInt i => i | _ => 0 end.
Definition sec_s (k : key) : list Z := match key_secondary k with SecStr s => s | _ => [] end.

(** The sign of [strcmp]. *)
Fixpoint strcmp (a b : list Z) : Z :=
  match a, b with
  | [], [] => 0
  | [], _ => -1
  | _, [] => 1
  | x :: a, y :: b => if x =? y then strcmp a b else if x <? y then -1 else 1
  end.

Definition conf_cmp (av bv : conf_entry) : Z :=
  let a := ent_key av in let b := ent_key bv in
  if primary a <? primary b then -1
  else if primary b <? primary a then 1
  else match type_at subkeytypes (primary a) with
       | Some TYPE_INT =>
           if sec_i a <? sec_i b then -1 else if sec_i b <? sec_i a then 1 else 0
       | Some TYPE_STR => strcmp (sec_s a) (sec_s b)
       | _ => 0
       end.

(** The same on a [struct constkey], which has the layout of a [struct key]. *)
Definition conf_cmp_constkey (av bv : conf_entry) : Z := conf_cmp av bv.

(** A key used for a lookup. *)
Definition lookup_entry (k : key) : conf_entry := mkEntry k ValUnset.

Definition copy_key (from : key) : key :=
  match type_at subkeytypes (primary from) with
  | Some TYPE_INT => mkKey (primary from) (SecInt (sec_i from))
  | Some TYPE_STR => mkKey (primary from) (SecStr (sec_s from))
  | _ => mkKey (primary from) SecNone
  end.

Definition copy_value (from : value) (type : Type_) : value :=
  match type, from with
  | TYPE_BOOL, ValBool b => ValBool b
  | TYPE_INT, ValInt i => ValInt i
  | TYPE_STR, ValStr s => ValStr s
  | TYPE_FILENAME, ValFile f => ValFile f
  | TYPE_FONT, ValFont f => ValFont f
  | _, _ => ValUnset
  end.

(** ** The store *)
Section Store.
Context {T : Type} `{SortedSet T conf_entry}.

Definition conf_new : T := ss_new conf_cmp.

(** [while ((entry = delpos234(conf->tree, 0)) != NULL)] *)
Fixpoint conf_clear_loop (fuel : nat) (conf : T) : option T :=
  '(conf, entry) ← ss_delpos conf 0;
  match entry, fuel with
  | None, _ => Some conf
  | Some _, O => None
  | Some _, S fuel => conf_clear_loop fuel conf
  end.
Definition conf_clear (conf : T) : option T := conf_clear_loop (Z.to_nat (ss_count conf)) conf.

(** The code compares the addresses of the entries, the model the entries: replacing an
    entry by an equal one has no effect. *)
Definition conf_insert (conf : T) (entry : conf_entry) : option T :=
  '(conf, oldentry) ← ss_add conf entry;
  match oldentry with
  | None => Some conf
  | Some old =>
      if decide (old = entry) then Some conf else
      '(conf, _) ← ss_del conf old;
      '(conf, oldentry) ← ss_add conf entry;
      assert! bool_decide (oldentry = Some entry);
      Some conf
  end.

(** [for (i = 0; (entry = index234(oldconf->tree, i)) != NULL; i++)] *)
Fixpoint conf_copy_loop (fuel : nat) (i : Z) (newconf oldconf : T) : option T :=
  match ss_index oldconf i with
  | None => Some newconf
  | Some entry =>
      match fuel with
      | O => None
      | S fuel =>
          t ← type_at valuetypes (primary (ent_key entry));
          let entry2 := mkEntry (copy_key (ent_key entry)) (copy_value (ent_value entry) t) in
          '(newconf, _) ← ss_add newconf entry2;
          conf_copy_loop fuel (i + 1) newconf oldconf
      end
  end.
Definition conf_copy_into (newconf oldconf : T) : option T :=
  newconf ← conf_clear newconf;
  conf_copy_loop (Z.to_nat (ss_count oldconf)) 0 newconf oldconf.
Definition conf_copy (oldconf : T) : option T := conf_copy_into conf_new oldconf.

(** The two assertions at the start of every accessor. *)
Definition types_are (primary : Z) (subkey val : Type_) : bool :=
  bool_decide (type_at subkeytypes primary = Some subkey) && bool_decide (type_at valuetypes primary = Some val).

Definition find (conf : T) (k : key) : option (option conf_entry) := ss_find conf (lookup_entry k).

Definition conf_get_bool (conf : T) (primary : Z) : option bool :=
  assert! types_are primary TYPE_NONE TYPE_BOOL;
  entry ← find conf (mkKey primary SecNone);
  entry ← entry;
  match ent_value entry with ValBool b => Some b | _ => None end.

Definition conf_get_int (conf : T) (primary : Z) : option Z :=
  assert! types_are primary TYPE_NONE TYPE_INT;
  entry ← find conf (mkKey primary SecNone);
  entry ← entry;
  match ent_value entry with ValInt i => Some i | _ => None end.

Definition conf_get_int_int (conf : T) (primary secondary : Z) : option Z :=
  assert! types_are primary TYPE_INT TYPE_INT;
  entry ← find conf (mkKey primary (SecInt secondary));
  entry ← entry;
  match ent_value entry with ValInt i => Some i | _ => None end.

Definition conf_get_str (conf : T) (primary : Z) : option (list Z) :=
  assert! types_are primary TYPE_NONE TYPE_STR;
  entry ← find conf (mkKey primary SecNone);
  entry ← entry;
  match ent_value entry with ValStr s => Some s | _ => None end.

Definition conf_get_str_str_opt (conf : T) (primary : Z) (secondary : list Z) : option (option (list Z)) :=
  assert! types_are primary TYPE_STR TYPE_STR;
  entry ← find conf (mkKey primary (SecStr secondary));
  match entry with
  | None => Some None
  | Some entry => match ent_value entry with ValStr s => Some (Some s) | _ => None end
  end.

Definition conf_get_str_str (conf : T) (primary : Z) (secondary : list Z) : option (list Z) :=
  ret ← conf_get_str_str_opt conf primary secondary; ret.

(** The value and [*subkeyout]. *)
Definition conf_get_str_strs (conf : T) (prim : Z) (subkeyin : option (list Z))
  : option (option (list Z * list Z)) :=
  assert! types_are prim TYPE_STR TYPE_STR;
  entry ← match subkeyin with
          | Some s => ss_findrelpos conf (Some (lookup_entry (mkKey prim (SecStr s)))) None REL234_GT
          | None => ss_findrelpos conf (Some (lookup_entry (mkKey prim (SecStr [])))) (Some conf_cmp_constkey) REL234_GE
          end;
  match entry with
  | None => Some None
  | Some (entry, _) =>
      if primary (ent_key entry) =? prim then
        match ent_value entry with ValStr s => Some (Some (s, sec_s (ent_key entry))) | _ => None end
      else Some None
  end.

Definition conf_get_str_nthstrkey (conf : T) (prim n : Z) : option (option (list Z)) :=
  assert! types_are prim TYPE_STR TYPE_STR;
  entry ← ss_findrelpos conf (Some (lookup_entry (mkKey prim (SecStr [])))) (Some conf_cmp_constkey) REL234_GE;
  match entry with
  | None => Some None
  | Some (entry, index) =>
      if negb (primary (ent_key entry) =? prim) then Some None else
      match ss_index conf (index + n) with
      | None => Some None
      | Some entry =>
          if primary (ent_key entry) =? prim then Some (Some (sec_s (ent_key entry))) else Some None
      end
  end.

Definition conf_get_filename (conf : T) (primary : Z) : option (list Z) :=
  assert! types_are primary TYPE_NONE TYPE_FILENAME;
  entry ← find conf (mkKey primary SecNone);
  entry ← entry;
  match ent_value entry with ValFile f => Some f | _ => None end.

Definition conf_get_fontspec (conf : T) (primary : Z) : option (list Z) :=
  assert! types_are primary TYPE_NONE TYPE_FONT;
  entry ← find conf (mkKey primary SecNone);
  entry ← entry;
  match ent_value entry with ValFont f => Some f | _ => None end.

Definition conf_set_bool (conf : T) (primary : Z) (value : bool) : option T :=
  assert! types_are primary TYPE_NONE TYPE_BOOL;
  conf_insert conf (mkEntry (mkKey primary SecNone) (ValBool value)).

Definition conf_set_int (conf : T) (primary value : Z) : option T :=
  assert! types_are primary TYPE_NONE TYPE_INT;
  conf_insert conf (mkEntry (mkKey primary SecNone) (ValInt value)).

Definition conf_set_int_int (conf : T) (primary secondary value : Z) : option T :=
  assert! types_are primary TYPE_INT TYPE_INT;
  conf_insert conf (mkEntry (mkKey primary (SecInt secondary)) (ValInt value)).

Definition conf_set_str (conf : T) (primary : Z) (value : list Z) : option T :=
  assert! types_are primary TYPE_NONE TYPE_STR;
  conf_insert conf (mkEntry (mkKey primary SecNone) (ValStr value)).

Definition conf_set_str_str (conf : T) (primary : Z) (secondary value : list Z) : option T :=
  assert! types_are primary TYPE_STR TYPE_STR;
  conf_insert conf (mkEntry (mkKey primary (SecStr secondary)) (ValStr value)).

Definition conf_del_str_str (conf : T) (primary : Z) (secondary : list Z) : option T :=
  assert! types_are primary TYPE_STR TYPE_STR;
  entry ← find conf (mkKey primary (SecStr secondary));
  match entry with
  | None => Some conf
  | Some entry => '(conf, _) ← ss_del conf entry; Some conf
  end.

Definition conf_set_filename (conf : T) (primary : Z) (value : list Z) : option T :=
  assert! types_are primary TYPE_NONE TYPE_FILENAME;
  conf_insert conf (mkEntry (mkKey primary SecNone) (ValFile value)).

Definition conf_set_fontspec (conf : T) (primary : Z) (value : list Z) : option T :=
  assert! types_are primary TYPE_NONE TYPE_FONT;
  conf_insert conf (mkEntry (mkKey primary SecNone) (ValFont value)).
End Store.

(** ** Serialisation *)

Section Serial.
Context {T : Type} `{SortedSet T conf_entry}.

Definition toint (u : Z) : Z :=
  if u <=? INT_MAX then u
  else if u32 INT_MIN <=? u then INT_MIN + (u - u32 INT_MIN)
  else INT_MIN.

Definition filename_serialise {S} `{BinarySink S} (bs : S) (path : list Z) : option S := put_asciz bs path.
Definition fontspec_serialise {S} `{BinarySink S} (bs : S) (name : list Z) : option S := put_asciz bs name.
Definition filename_deserialise (src : BinarySource) : list Z * BinarySource := get_asciz src.
Definition fontspec_deserialise (src : BinarySource) : list Z * BinarySource := get_asciz src.

(** The subkey and the value of one entry. *)
Definition serialise_key {S} `{BinarySink S} (bs : S) (k : key) : option S :=
  match type_at subkeytypes (primary k), key_secondary k with
  | Some TYPE_INT, SecInt i => put_uint32 bs i
  | Some TYPE_STR, SecStr s => put_asciz bs s
  | Some TYPE_INT, _ | Some TYPE_STR, _ | None, _ => None
  | _, _ => Some bs
  end.
Definition serialise_value {S} `{BinarySink S} (bs : S) (e : conf_entry) : option S :=
  match type_at valuetypes (primary (ent_key e)), ent_value e with
  | Some TYPE_BOOL, ValBool b => put_bool bs b
  | Some TYPE_INT, ValInt i => put_uint32 bs i
  | Some TYPE_STR, ValStr s => put_asciz bs s
  | Some TYPE_FILENAME, ValFile f => filename_serialise bs f
  | Some TYPE_FONT, ValFont f => fontspec_serialise bs f
  | Some TYPE_NONE, _ => Some bs
  | _, _ => None
  end.

Fixpoint conf_serialise_loop {S} `{BinarySink S} (fuel : nat) (i : Z) (bs : S) (conf : T) : option S :=
  match ss_index conf i with
  | None => Some bs
  | Some entry =>
      match fuel with
      | O => None
      | Datatypes.S fuel =>
          bs ← put_uint32 bs (primary (ent_key entry));
          bs ← serialise_key bs (ent_key entry);
          bs ← serialise_value bs entry;
          conf_serialise_loop fuel (i + 1) bs conf
      end
  end.

Definition conf_serialise {S} `{BinarySink S} (bs : S) (conf : T) : option S :=
  bs ← conf_serialise_loop (Z.to_nat (ss_count conf)) 0 bs conf;
  put_uint32 bs 4294967295.

Definition deserialise_key (prim : Z) (src : BinarySource) : key * BinarySource :=
  match type_at subkeytypes prim with
  | Some TYPE_INT => let '(i, src) := get_uint32 src in (mkKey prim (SecInt (toint i)), src)
  | Some TYPE_STR => let '(s, src) := get_asciz src in (mkKey prim (SecStr s), src)
  | _ => (mkKey prim SecNone, src)
  end.
Definition deserialise_value (prim : Z) (src : BinarySource) : value * BinarySource :=
  match type_at valuetypes prim with
  | Some TYPE_BOOL => let '(b, src) := get_bool src in (ValBool b, src)
  | Some TYPE_INT => let '(i, src) := get_uint32 src in (ValInt (toint i), src)
  | Some TYPE_STR => let '(s, src) := get_asciz src in (ValStr s, src)
  | Some TYPE_FILENAME => let '(f, src) := filename_deserialise src in (ValFile f, src)
  | Some TYPE_FONT => let '(f, src) := fontspec_deserialise src in (ValFont f, src)
  | _ => (ValUnset, src)
  end.

(** The [while (1)] loop: the configuration, the return value and the source. *)
Fixpoint conf_deserialise_loop (fuel : nat) (conf : T) (src : BinarySource) : option (T * bool * BinarySource) :=
  let '(prim, src) := get_uint32 src in
  if negb (bool_decide (bs_err src = BSE_NO_ERROR)) then Some (conf, false, src)
  else if prim =? 4294967295 then Some (conf, true, src)
  else if N_CONFIG_OPTIONS <=? prim then Some (conf, false, src)
  else
    let '(k, src) := deserialise_key prim src in
    let '(v, src) := deserialise_value prim src in
    if negb (bool_decide (bs_err src = BSE_NO_ERROR)) then Some (conf, false, src)
    else
      conf ← conf_insert conf (mkEntry k v);
      match fuel with
      | O => None
      | S fuel => conf_deserialise_loop fuel conf src
      end.

(** Every iteration but the last consumes at least the four bytes of the option. *)
Definition conf_deserialise (conf : T) (src : BinarySource) : option (T * bool * BinarySource) :=
  conf_deserialise_loop (length (bs_data src)) conf src.
End Serial.

Example conf_examples :
  let c0 : tree234 conf_entry := conf_new in
  (c1 ← conf_set_int c0 (Options.CONF "port") 22;
   c2 ← conf_set_str_str c1 (Options.CONF "environmt") (codes "B") (codes "2");
   c3 ← conf_set_str_str c2 (Options.CONF "environmt") (codes "A") (codes "1");
   c4 ← conf_set_int c3 (Options.CONF "port") 23;
   p ← conf_get_int c4 (Options.CONF "port");
   a ← conf_get_str_strs c4 (Options.CONF "environmt") None;
   bytes ← conf_serialise ([] : list Z) c4;
   '(c5, ok, _) ← conf_deserialise c0 (BinarySource_INIT bytes);
   q ← conf_get_str_str c5 (Options.CONF "environmt") (codes "B");
   Some (p, a, ok, q)) = Some (23, Some (codes "1", codes "A"), true, codes "2").
Proof. vm_compute. reflexivity. Qed.

(** ** The order of the entries *)

Lemma strcmp_antisym a b : strcmp b a = - strcmp a b.
Proof.
  revert b; induction a as [|x a IH]; intros [|y b]; cbn; try done.
  rewrite (Z.eqb_sym y x). destruct (Z.eqb_spec x y); [apply IH|].
  destruct (Z.ltb_spec x y), (Z.ltb_spec y x); lia.
Qed.

Lemma strcmp_trans a b c : strcmp a b <= 0 -> strcmp b c <= 0 -> strcmp a c <= 0.
Proof.
  revert b c; induction a as [|x a IH]; intros [|y b] [|z c]; cbn; try lia.
  repeat bcase; subst; try lia. apply IH.
Qed.

Lemma strcmp_eq a b : strcmp a b = 0 <-> a = b.
Proof.
  revert b; induction a as [|x a IH]; intros [|y b]; cbn; try (split; [lia|done]); [done|].
  destruct (Z.eqb_spec x y) as [->|]; [rewrite IH; split; congruence|].
  split; [destruct (x <? y); lia|congruence].
Qed.

(** Two keys of the same option. *)
Definition sec_cmp (t : option Type_) (a b : key) : Z :=
  match t with
  | Some TYPE_INT => if sec_i a <? sec_i b then -1 else if sec_i b <? sec_i a then 1 else 0
  | Some TYPE_STR => strcmp (sec_s a) (sec_s b)
  | _ => 0
  end.

Lemma conf_cmp_lex x y :
  conf_cmp x y = (let a := ent_key x in let b := ent_key y in
    if primary a <? primary b then -1 else if primary b <? primary a then 1
    else sec_cmp (type_at subkeytypes (primary a)) a b).
Proof. done. Qed.

#[export] Instance conf_cmp_total : TotalCmp conf_cmp.
Proof.
  split; intros x y; [|intros z]; rewrite !conf_cmp_lex; cbn zeta.
  - set (a := ent_key x). set (b := ent_key y).
    destruct (Z.ltb_spec (primary a) (primary b)), (Z.ltb_spec (primary b) (primary a)); try lia.
    assert (primary b = primary a) as -> by lia. unfold sec_cmp. destruct (type_at _ _) as [[]|]; try done.
    + repeat bcase; lia.
    + rewrite strcmp_antisym. lia.
  - set (a := ent_key x). set (b := ent_key y). set (c := ent_key z).
    destruct (Z.ltb_spec (primary a) (primary b)), (Z.ltb_spec (primary b) (primary a)), (Z.ltb_spec (primary b) (primary c)),
      (Z.ltb_spec (primary c) (primary b)), (Z.ltb_spec (primary a) (primary c)), (Z.ltb_spec (primary c) (primary a)); try lia.
    assert (primary b = primary a) as -> by lia. unfold sec_cmp. destruct (type_at _ _) as [[]|]; try done.
    + repeat bcase; lia.
    + apply strcmp_trans.
Qed.

(** The union members of a key and of a value are the ones its option asks for. *)
Definition key_wf (k : key) : Prop :=
  match type_at subkeytypes (primary k), key_secondary k with
  | Some TYPE_INT, SecInt _ | Some TYPE_STR, SecStr _ => True
  | Some TYPE_NONE, SecNone => True
  | _, _ => False
  end.
Definition value_wf (p : Z) (v : value) : Prop :=
  match type_at valuetypes p, v with
  | Some TYPE_BOOL, ValBool _ | Some TYPE_INT, ValInt _ | Some TYPE_STR, ValStr _
  | Some TYPE_FILENAME, ValFile _ | Some TYPE_FONT, ValFont _ => True
  | _, _ => False
  end.
Definition entry_wf (e : conf_entry) : Prop := key_wf (ent_key e) /\ value_wf (primary (ent_key e)) (ent_value e).

Lemma conf_cmp_eq x y : key_wf (ent_key x) -> key_wf (ent_key y) -> conf_cmp x y = 0 <-> ent_key x = ent_key y.
Proof.
  intros Hx Hy. rewrite conf_cmp_lex. cbn zeta. destruct (ent_key x) as [p s], (ent_key y) as [q r].
  cbn [primary] in *. destruct (Z.ltb_spec p q); [split; [done|intros [= -> ->]; lia]|].
  destruct (Z.ltb_spec q p); [split; [done|intros [= -> ->]; lia]|].
  assert (q = p) as -> by lia. unfold key_wf, sec_cmp, sec_i, sec_s in *. cbn [primary key_secondary] in *.
  destruct (type_at subkeytypes p) as [[]|]; try done; destruct s, r; try done.
  - split; [|intros [= ->]; by rewrite Z.ltb_irrefl]. repeat bcase; try lia. intros _. f_equal. f_equal. lia.
  - rewrite strcmp_eq. split; [by intros ->|by intros [= ->]].
Qed.

(** ** The map a configuration stands for *)

Section Refinement.
Context {T : Type} `{SortedSetLaws T conf_entry conf_cmp}.

Definition conf_ok (t : T) : Prop := ss_ok t /\ Forall entry_wf (ss_elems t).

Definition pairs (l : list conf_entry) : list (key * value) := (fun e => (ent_key e, ent_value e)) <$> l.
Definition conf_map (t : T) : gmap key value := list_to_map (pairs (ss_elems t)).

Lemma pairs_nodup l : sorted conf_cmp l -> Forall entry_wf l -> NoDup (pairs l).*1.
Proof using.
  intros Hs Hw. unfold pairs. rewrite <- list_fmap_compose.
  induction Hs as [|e l _ IH Hf]; cbn; constructor; apply Forall_cons_iff in Hw as [He Hl]; [|by apply IH].
  intros Hin. apply list_elem_of_fmap in Hin as (e'&Ek&Hin). rewrite Forall_forall in Hf, Hl.
  specialize (Hf e' Hin). cbn in Hf, Ek. rewrite (proj2 (conf_cmp_eq e e' (proj1 He) (proj1 (Hl e' Hin)))) in Hf; [lia|done].
Qed.

Lemma conf_nodup t : conf_ok t -> NoDup (pairs (ss_elems t)).*1.
Proof using. intros [Hok Hw]. apply pairs_nodup; [by apply ss_ok_sorted|done]. Qed.

Lemma conf_map_Some t e : conf_ok t -> e ∈ ss_elems t -> conf_map t !! ent_key e = Some (ent_value e).
Proof using.
  intros Ht He. apply elem_of_list_to_map_1; [by apply conf_nodup|].
  unfold pairs. apply list_elem_of_fmap. by exists e.
Qed.

Lemma conf_map_None t k :
  conf_ok t -> key_wf k -> Forall (fun x => conf_cmp (lookup_entry k) x <> 0) (ss_elems t) -> conf_map t !! k = None.
Proof using.
  intros [_ Hw] Hk Hf. apply not_elem_of_list_to_map_1. unfold pairs. rewrite <- list_fmap_compose.
  intros Hin. apply list_elem_of_fmap in Hin as (e&->&Hin). rewrite Forall_forall in Hf, Hw.
  apply (Hf e Hin). apply conf_cmp_eq; [done|by apply Hw|done].
Qed.

Lemma conf_cmp_key x y z : ent_key x = ent_key y -> conf_cmp x z = conf_cmp y z.
Proof using. unfold conf_cmp. by intros ->. Qed.

Lemma find_spec t k :
  conf_ok t -> key_wf k ->
  exists r, find t k = Some r /\
    match r with
    | Some e => e ∈ ss_elems t /\ ent_key e = k /\ entry_wf e /\ conf_map t !! k = Some (ent_value e)
    | None => conf_map t !! k = None
    end.
Proof using.
  intros Ht Hk. destruct (ss_find_spec conf_cmp t (lookup_entry k) (proj1 Ht)) as (r&E&Hr).
  exists r. split; [done|]. destruct r as [e|]; [|by apply conf_map_None].
  destruct Hr as [Hin Hc]. pose proof (proj1 (Forall_forall _ _) (proj2 Ht) e Hin) as He.
  apply conf_cmp_eq in Hc as Ek; [|done|apply He]. cbn in Ek. subst k.
  split; [done|]. split; [done|]. split; [done|]. by apply conf_map_Some.
Qed.

(** Adding an entry whose key is new. *)
Lemma conf_map_insert t t' e l1 l2 :
  conf_ok t -> ss_ok t' -> entry_wf e -> ss_elems t = l1 ++ l2 -> ss_elems t' = l1 ++ e :: l2 ->
  conf_ok t' /\ conf_map t' = <[ent_key e := ent_value e]> (conf_map t).
Proof using.
  intros [Hok Hw] Hok' He E E'. assert (conf_ok t') as Ht'.
  { split; [done|]. rewrite E'. rewrite E in Hw. apply Forall_app in Hw as [H1 H2]. apply Forall_app. by split; [|constructor]. }
  split; [done|]. unfold conf_map. rewrite E, E'.
  change (<[ent_key e := ent_value e]> (list_to_map (pairs (l1 ++ l2))))
    with (list_to_map ((ent_key e, ent_value e) :: pairs (l1 ++ l2)) : gmap key value).
  apply list_to_map_proper.
  - rewrite <- E'. by apply conf_nodup.
  - unfold pairs. rewrite !fmap_app, fmap_cons. by rewrite Permutation_middle.
Qed.

Lemma conf_map_delete t t' x l1 l2 :
  conf_ok t -> ss_ok t' -> ss_elems t = l1 ++ x :: l2 -> ss_elems t' = l1 ++ l2 ->
  conf_ok t' /\ conf_map t' = delete (ent_key x) (conf_map t).
Proof using.
  intros [Hok Hw] Hok' E E'. rewrite E in Hw. apply Forall_app in Hw as [H1 H2]. apply Forall_cons_iff in H2 as [Hx H2].
  assert (conf_ok t') as Ht' by (split; [done|]; rewrite E'; by apply Forall_app).
  split; [done|]. destruct (conf_map_insert t' t x l1 l2 Ht' Hok Hx E' E) as [Ht ->].
  rewrite delete_insert_id; [done|]. apply not_elem_of_list_to_map_1.
  pose proof (conf_nodup t Ht) as Hnd. rewrite E in Hnd. rewrite E'. unfold pairs in *. rewrite !fmap_app in *.
  cbn in Hnd. apply NoDup_app in Hnd as (_&Hd&Hnd). apply NoDup_cons in Hnd as [Hn _].
  intros Hin. apply elem_of_app in Hin as [Hin|Hin]; [|done]. apply (Hd _ Hin). by left.
Qed.

Lemma conf_insert_spec t e :
  conf_ok t -> entry_wf e ->
  exists t', conf_insert t e = Some t' /\ conf_ok t' /\ conf_map t' = <[ent_key e := ent_value e]> (conf_map t).
Proof using.
  intros Ht He. unfold conf_insert.
  destruct (ss_add_spec t e (proj1 Ht)) as (t1&r&->&Hok1&Hr). cbn [mbind option_bind].
  destruct Hr as [(Hin&Hc&->)|(->&_&l1&l2&E&E')].
  - pose proof (proj1 (Forall_forall _ _) (proj2 Ht) r Hin) as Hr.
    apply conf_cmp_eq in Hc as Ek; [|apply He|apply Hr]. pose proof (conf_map_Some t r Ht Hin) as Hm.
    case_decide as Eq.
    + subst r. exists t. split; [done|]. split; [done|]. by rewrite insert_id.
    + destruct (ss_del_spec t r (proj1 Ht)) as (t2&x&->&Hok2&Hx). cbn [mbind option_bind].
      destruct x as [x|].
      2: { destruct Hx as [_ Hf]. rewrite Forall_forall in Hf. exfalso. apply (Hf r Hin). by apply conf_cmp_eq; [apply Hr|apply Hr|]. }
      destruct Hx as (Hcx&l1&l2&E&E').
      assert (x ∈ ss_elems t) as Hx by (rewrite E; apply elem_of_app; right; by left).
      pose proof (proj1 (Forall_forall _ _) (proj2 Ht) x Hx) as Hxw.
      apply conf_cmp_eq in Hcx as Ekx; [|apply Hr|apply Hxw].
      destruct (conf_map_delete t t2 x l1 l2 Ht Hok2 E E') as [Ht2 Em2].
      destruct (ss_add_spec t2 e Hok2) as (t3&r3&->&Hok3&Hr3). cbn [mbind option_bind].
      destruct Hr3 as [(Hin3&Hc3&_)|(->&_&k1&k2&F&F')].
      { exfalso. pose proof (proj1 (Forall_forall _ _) (proj2 Ht2) r3 Hin3) as Hr3.
        apply conf_cmp_eq in Hc3; [|apply He|apply Hr3]. pose proof (conf_map_Some t2 r3 Ht2 Hin3) as Hm3.
        rewrite Em2, <- Hc3, Ek, Ekx in Hm3. by rewrite lookup_delete_eq in Hm3. }
      rewrite bool_decide_eq_true_2 by done.
      destruct (conf_map_insert t2 t3 e k1 k2 Ht2 Hok3 He F F') as [Ht3 Em3].
      exists t3. split; [done|]. split; [done|]. rewrite Em3, Em2, <- Ekx, <- Ek. apply insert_delete_eq.
  - rewrite decide_True by done. destruct (conf_map_insert t t1 e l1 l2 Ht Hok1 He E E') as [Ht1 Em]. eauto.
Qed.

Lemma conf_del_spec t x :
  conf_ok t -> x ∈ ss_elems t ->
  exists t' r, ss_del t x = Some (t', r) /\ conf_ok t' /\ conf_map t' = delete (ent_key x) (conf_map t).
Proof using.
  intros Ht Hx. destruct (ss_del_spec t x (proj1 Ht)) as (t'&r&E&Hok'&Hr).
  pose proof (proj1 (Forall_forall _ _) (proj2 Ht)) as Hw. exists t', r. split; [done|]. destruct r as [y|].
  - destruct Hr as (Hc&l1&l2&E1&E2). assert (y ∈ ss_elems t) as Hy by (rewrite E1; apply elem_of_app; right; by left).
    apply conf_cmp_eq in Hc; [|by apply Hw|by apply Hw]. rewrite Hc. by eapply conf_map_delete.
  - destruct Hr as [_ Hf]. rewrite Forall_forall in Hf. exfalso. apply (Hf x Hx). by apply conf_cmp_eq; [apply Hw|apply Hw|].
Qed.
End Refinement.

(** ** The typed accessors as operations on the map *)

Inductive conf_op :=
| SetBool (p : Z) (b : bool) | SetInt (p i : Z) | SetIntInt (p s i : Z) | SetStr (p : Z) (v : list Z)
| SetStrStr (p : Z) (s v : list Z) | SetFilename (p : Z) (f : list Z) | SetFontspec (p : Z) (f : list Z)
| DelStrStr (p : Z) (s : list Z)
| GetBool (p : Z) | GetInt (p : Z) | GetIntInt (p s : Z) | GetStr (p : Z) | GetStrStrOpt (p : Z) (s : list Z)
| GetStrStr (p : Z) (s : list Z) | GetFilename (p : Z) | GetFontspec (p : Z).

Inductive conf_out := ODone | OBool (b : bool) | OInt (i : Z) | OStr (s : list Z) | OStrOpt (s : option (list Z)).

Definition conf_step {T} `{SortedSet T conf_entry} (t : T) (op : conf_op) : option (T * conf_out) :=
  let done r := t' ← r; Some (t', ODone) in
  match op with
  | SetBool p b => done (conf_set_bool t p b)
  | SetInt p i => done (conf_set_int t p i)
  | SetIntInt p s i => done (conf_set_int_int t p s i)
  | SetStr p v => done (conf_set_str t p v)
  | SetStrStr p s v => done (conf_set_str_str t p s v)
  | SetFilename p f => done (conf_set_filename t p f)
  | SetFontspec p f => done (conf_set_fontspec t p f)
  | DelStrStr p s => done (conf_del_str_str t p s)
  | GetBool p => b ← conf_get_bool t p; Some (t, OBool b)
  | GetInt p => i ← conf_get_int t p; Some (t, OInt i)
  | GetIntInt p s => i ← conf_get_int_int t p s; Some (t, OInt i)
  | GetStr p => s ← conf_get_str t p; Some (t, OStr s)
  | GetStrStrOpt p s => s ← conf_get_str_str_opt t p s; Some (t, OStrOpt s)
  | GetStrStr p s => s ← conf_get_str_str t p s; Some (t, OStr s)
  | GetFilename p => f ← conf_get_filename t p; Some (t, OStr f)
  | GetFontspec p => f ← conf_get_fontspec t p; Some (t, OStr f)
  end.

(** The contract: the key, the types the option must have, and what is done with the map. *)
Definition op_key (op : conf_op) : key * Type_ * Type_ :=
  match op with
  | SetBool p _ | GetBool p => (mkKey p SecNone, TYPE_NONE, TYPE_BOOL)
  | SetInt p _ | GetInt p => (mkKey p SecNone, TYPE_NONE, TYPE_INT)
  | SetIntInt p s _ | GetIntInt p s => (mkKey p (SecInt s), TYPE_INT, TYPE_INT)
  | SetStr p _ | GetStr p => (mkKey p SecNone, TYPE_NONE, TYPE_STR)
  | SetStrStr p s _ | DelStrStr p s | GetStrStrOpt p s | GetStrStr p s => (mkKey p (SecStr s), TYPE_STR, TYPE_STR)
  | SetFilename p _ | GetFilename p => (mkKey p SecNone, TYPE_NONE, TYPE_FILENAME)
  | SetFontspec p _ | GetFontspec p => (mkKey p SecNone, TYPE_NONE, TYPE_FONT)
  end.

Definition map_step (m : gmap key value) (op : conf_op) : option (gmap key value * conf_out) :=
  let '(k, kt, vt) := op_key op in
  if types_are (primary k) kt vt then
    match op with
    | SetBool _ b => Some (<[k := ValBool b]> m, ODone)
    | SetInt _ i | SetIntInt _ _ i => Some (<[k := ValInt i]> m, ODone)
    | SetStr _ v | SetStrStr _ _ v => Some (<[k := ValStr v]> m, ODone)
    | SetFilename _ f => Some (<[k := ValFile f]> m, ODone)
    | SetFontspec _ f => Some (<[k := ValFont f]> m, ODone)
    | DelStrStr _ _ => Some (delete k m, ODone)
    | GetStrStrOpt _ _ =>
        Some (m, OStrOpt (match m !! k with Some (ValStr s) => Some s | _ => None end))
    | _ =>
        match m !! k with
        | Some (ValBool b) => Some (m, OBool b)
        | Some (ValInt i) => Some (m, OInt i)
        | Some (ValStr s) | Some (ValFile s) | Some (ValFont s) => Some (m, OStr s)
        | _ => None
        end
    end
  else None.

Section Steps.
Context {T : Type} `{SortedSetLaws T conf_entry conf_cmp}.

Lemma types_are_true p kt vt :
  types_are p kt vt = true -> type_at subkeytypes p = Some kt /\ type_at valuetypes p = Some vt.
Proof using. unfold types_are. rewrite andb_true_iff, !bool_decide_eq_true. done. Qed.

Lemma op_key_wf op k kt vt : op_key op = (k, kt, vt) -> types_are (primary k) kt vt = true -> key_wf k.
Proof using.
  intros E Ht. apply types_are_true in Ht as [Hk _]. unfold key_wf. rewrite Hk.
  destruct op; injection E as <- <- <-; done.
Qed.

Lemma set_spec t k v :
  conf_ok t -> key_wf k -> value_wf (primary k) v ->
  exists t', (t' ← conf_insert t (mkEntry k v); Some (t', ODone)) = Some (t', ODone)
    /\ conf_ok t' /\ conf_map t' = <[k := v]> (conf_map t).
Proof using.
  intros Ht Hk Hv. destruct (conf_insert_spec t (mkEntry k v) Ht) as (t'&->&Ht'&Em); [done|]. eauto.
Qed.

Lemma conf_step_refines t op :
  conf_ok t ->
  match map_step (conf_map t) op with
  | Some (m', out) => exists t', conf_step t op = Some (t', out) /\ conf_ok t' /\ conf_map t' = m'
  | None => conf_step t op = None
  end.
Proof using.
  intros Ht. unfold map_step. destruct (op_key op) as [[k kt] vt] eqn:Eo.
  destruct (types_are (primary k) kt vt) eqn:Et.
  2: { destruct op; injection Eo as <- <- <-; cbn [conf_step primary] in *;
       unfold conf_set_bool, conf_set_int, conf_set_int_int, conf_set_str, conf_set_str_str, conf_set_filename,
         conf_set_fontspec, conf_del_str_str, conf_get_bool, conf_get_int, conf_get_int_int, conf_get_str,
         conf_get_str_str, conf_get_str_str_opt, conf_get_filename, conf_get_fontspec; by rewrite Et. }
  pose proof (op_key_wf op k kt vt Eo Et) as Hk. apply types_are_true in Et as HT. destruct HT as [_ Hvt].
  assert (forall v, match vt, v with TYPE_BOOL, ValBool _ | TYPE_INT, ValInt _ | TYPE_STR, ValStr _
            | TYPE_FILENAME, ValFile _ | TYPE_FONT, ValFont _ => True | _, _ => False end -> value_wf (primary k) v) as Hv.
  { intros v. unfold value_wf. by rewrite Hvt. }
  destruct (find_spec t k Ht Hk) as (r&Ef&Hr).
  assert (match r with Some e => value_wf (primary k) (ent_value e) /\ e ∈ ss_elems t /\ ent_key e = k | None => True end) as Hrw.
  { destruct r as [e|]; [|done]. destruct Hr as (Hin&<-&Hw&_). split_and!; [apply Hw|done|done]. }
  assert (conf_map t !! k = ent_value <$> r) as Hm by (destruct r; [by destruct Hr as (_&_&_&?)|done]).
  rewrite ?Hm. destruct op; injection Eo as <- <- <-; cbn [conf_step primary] in *;
    unfold conf_set_bool, conf_set_int, conf_set_int_int, conf_set_str, conf_set_str_str, conf_set_filename,
      conf_set_fontspec, conf_del_str_str, conf_get_bool, conf_get_int, conf_get_int_int, conf_get_str,
      conf_get_str_str, conf_get_str_str_opt, conf_get_filename, conf_get_fontspec; rewrite Et;
    try (by apply set_spec; [done|done|apply Hv]);
    rewrite Ef; cbn [mbind option_bind]; destruct r as [e|]; cbn [fmap option_fmap option_map mbind option_bind].
  all: try (eexists; split; [reflexivity|]; by split; [done|]).
  all: try done.
  1: { destruct Hrw as (_&Hin&Ek). destruct (conf_del_spec t e Ht Hin) as (t'&x&->&Ht'&Em). cbn [mbind option_bind].
       exists t'. rewrite <- Ek. done. }
  1: { exists t. split; [done|]. split; [done|]. symmetry. by apply delete_id. }
  all: destruct Hrw as (Hw&_&_); unfold value_wf in Hw; rewrite Hvt in Hw; destruct (ent_value e); try done;
    eexists; split; [reflexivity|]; by split.
Qed.
End Steps.

(** C14. The configuration store is a finite map: any sequence of the typed setters,
    getters and deletions, run on a well-formed configuration, gives the results of the
    same operations on the map from keys to values it stands for, and fails an assertion
    exactly where the map version does: when an option is used with the wrong types or
    read before it was set.  The store stays well-formed, so every value can be read back
    under the type it was stored with. *)
Theorem conf_refines_map {T} `{SortedSetLaws T conf_entry conf_cmp} (t : T) (ops : list conf_op) :
  conf_ok t ->
  match run_ops map_step (conf_map t) ops with
  | Some (m', outs) => exists t', run_ops conf_step t ops = Some (t', outs) /\ conf_ok t' /\ conf_map t' = m'
  | None => run_ops conf_step t ops = None
  end.
Proof.
  revert t; induction ops as [|op ops IH]; intros t Ht; cbn [run_ops]; [eauto|].
  pose proof (conf_step_refines t op Ht) as Hs. destruct (map_step (conf_map t) op) as [[m1 o]|].
  - destruct Hs as (t1&->&Ht1&Em). cbn [mbind option_bind]. specialize (IH t1 Ht1). rewrite Em in IH.
    destruct (run_ops map_step m1 ops) as [[m2 os]|]; cbn [mbind option_bind].
    + destruct IH as (t2&->&Ht2&Em2). eauto.
    + by rewrite IH.
  - by rewrite Hs.
Qed.

Lemma conf_refines_map_witness :
  exists t' : tree234 conf_entry,
    run_ops conf_step conf_new [SetInt (Options.CONF "port") 22; SetBool (Options.CONF "tcp_nodelay") true;
      SetInt (Options.CONF "port") 2222; GetInt (Options.CONF "port"); GetBool (Options.CONF "tcp_nodelay")]
    = Some (t', [ODone; ODone; ODone; OInt 2222; OBool true]).
Proof.
  assert (conf_ok (conf_new : tree234 conf_entry)) as H0.
  { unfold conf_ok, conf_new. destruct (ss_new_spec (T := tree234 conf_entry) (c := conf_cmp)) as [H1 H2]. rewrite H2. split; [exact H1|constructor]. }
  pose proof (conf_refines_map (conf_new : tree234 conf_entry)
    [SetInt (Options.CONF "port") 22; SetBool (Options.CONF "tcp_nodelay") true;
     SetInt (Options.CONF "port") 2222; GetInt (Options.CONF "port"); GetBool (Options.CONF "tcp_nodelay")] H0) as H.
  vm_compute in H. destruct H as (t'&H&_). exists t'. vm_compute. exact H.
Defined.

(** ** Copying *)

Section Copy.
Context {T : Type} `{SortedSetLaws T conf_entry conf_cmp}.

Lemma conf_clear_loop_spec fuel t :
  ss_ok t -> (length (ss_elems t) <= fuel)%nat ->
  exists t', conf_clear_loop fuel t = Some t' /\ ss_ok t' /\ ss_elems t' = [].
Proof using.
  revert t; induction fuel as [|fuel IH]; intros t Hok Hf; cbn [conf_clear_loop];
    destruct (ss_delpos_spec t 0 Hok) as (t1&->&Hok1&E1); [lia| |lia|]; cbn [mbind option_bind];
    change (Z.to_nat 0) with 0%nat in *; destruct (ss_elems t) as [|e l]; cbn [lookup list_lookup length] in *.
  - exists t1. by rewrite E1.
  - lia.
  - exists t1. by rewrite E1.
  - apply IH; [done|]. rewrite E1. cbn. lia.
Qed.

Lemma conf_clear_spec t :
  ss_ok t -> exists t', conf_clear t = Some t' /\ ss_ok t' /\ ss_elems t' = [].
Proof using. intros Hok. apply conf_clear_loop_spec; [done|]. rewrite ss_count_spec by done. unfold len. lia. Qed.

Lemma copy_entry e :
  entry_wf e -> exists t, type_at valuetypes (primary (ent_key e)) = Some t
    /\ mkEntry (copy_key (ent_key e)) (copy_value (ent_value e) t) = e.
Proof using.
  destruct e as [[p s] v]. intros [Hk Hv]. cbn [ent_key ent_value] in *. unfold key_wf, value_wf, copy_key, copy_value, sec_i, sec_s in *.
  cbn [primary key_secondary] in *. destruct (type_at valuetypes p) as [t|]; [|done]. exists t. split; [done|]. f_equal.
  - destruct (type_at subkeytypes p) as [[]|]; destruct s; done.
  - destruct t, v; done.
Qed.

Lemma conf_copy_loop_spec fuel new old i :
  conf_ok new -> conf_ok old -> conf_map new = list_to_map (pairs (take i (ss_elems old))) ->
  (length (ss_elems old) <= i + fuel)%nat ->
  exists new', conf_copy_loop fuel (Z.of_nat i) new old = Some new' /\ conf_ok new' /\ conf_map new' = conf_map old.
Proof using.
  revert new i; induction fuel as [|fuel IH]; intros new i Hn Ho Em Hf; cbn [conf_copy_loop];
    rewrite ss_index_spec, Nat2Z.id by (apply Ho || lia); destruct (ss_elems old !! i) as [e|] eqn:Ee.
  1: { apply lookup_lt_Some in Ee. lia. }
  1, 3: apply lookup_ge_None_1 in Ee; exists new; rewrite take_ge in Em by done; done.
  pose proof (Forall_lookup_1 _ _ _ _ (proj2 Ho) Ee) as He. destruct (copy_entry e He) as (ty&->&Ecopy).
  cbn [mbind option_bind]. rewrite Ecopy.
  destruct (ss_add_spec new e (proj1 Hn)) as (new1&r&->&Hok1&Hr). cbn [mbind option_bind].
  pose proof (conf_nodup old Ho) as Hnd. rewrite <- (take_drop_middle _ _ _ Ee) in Hnd. unfold pairs in Hnd.
  rewrite !fmap_app in Hnd. cbn in Hnd. apply NoDup_app in Hnd as (_&Hd&_).
  replace (Z.of_nat i + 1) with (Z.of_nat (S i)) by lia.
  destruct Hr as [(Hin&Hc&_)|(->&_&l1&l2&E&E')].
  - exfalso. pose proof (proj1 (Forall_forall _ _) (proj2 Hn) r Hin) as Hr.
    apply conf_cmp_eq in Hc; [|apply He|apply Hr]. pose proof (conf_map_Some new r Hn Hin) as Hm.
    rewrite Em in Hm. apply elem_of_list_to_map_2 in Hm. apply (Hd (ent_key e)); [|by left].
    unfold pairs in Hm. apply list_elem_of_fmap in Hm as (e'&[= E1 E2]&Hin').
    apply list_elem_of_fmap. exists (ent_key e', ent_value e'). split; [cbn; congruence|].
    apply list_elem_of_fmap. by exists e'.
  - destruct (conf_map_insert new new1 e l1 l2 Hn Hok1 He E E') as [Hn1 Em1].
    apply IH; [done|done| |lia]. rewrite Em1, Em, (take_S_r _ _ e Ee). unfold pairs. rewrite fmap_app.
    cbn. rewrite list_to_map_snoc; [done|].
    intros Hin. apply (Hd (ent_key e)); [|by left]. done.
Qed.

Lemma conf_copy_into_spec new old :
  conf_ok new -> conf_ok old ->
  exists new', conf_copy_into new old = Some new' /\ conf_ok new' /\ conf_map new' = conf_map old.
Proof using.
  intros Hn Ho. unfold conf_copy_into. destruct (conf_clear_spec new (proj1 Hn)) as (n0&->&Hok0&E0). cbn [mbind option_bind].
  assert (conf_ok n0) as Hn0 by (split; [done|]; rewrite E0; constructor).
  apply (conf_copy_loop_spec _ n0 old 0); [done|done|unfold conf_map; by rewrite E0|].
  rewrite ss_count_spec by apply Ho. unfold len. lia.
Qed.

Lemma conf_new_ok : conf_ok (conf_new : T).
Proof using. destruct ss_new_spec as [H1 H2]. split; [done|]. unfold conf_new. rewrite H2. constructor. Qed.

Lemma conf_new_map : conf_map (conf_new : T) = ∅.
Proof using. destruct ss_new_spec as [H1 H2]. unfold conf_map, conf_new. by rewrite H2. Qed.
End Copy.

(** Copying a configuration makes another one with the same contents, whatever the
    destination held before; the loops that clear it and walk the source terminate. *)
Theorem conf_copy_correct {T} `{SortedSetLaws T conf_entry conf_cmp} (newconf oldconf : T) :
  conf_ok newconf -> conf_ok oldconf ->
  (exists c, conf_copy_into newconf oldconf = Some c /\ conf_ok c /\ conf_map c = conf_map oldconf)
  /\ (exists c, conf_copy oldconf = Some c /\ conf_ok c /\ conf_map c = conf_map oldconf).
Proof. intros Hn Ho. split; [by apply conf_copy_into_spec|]. apply conf_copy_into_spec; [apply conf_new_ok|done]. Qed.


(** ** Walking the subkeys of an option *)

(** The loop of the callers: start without a subkey, go on with the last one. *)
Fixpoint conf_walk {T} `{SortedSet T conf_entry} (fuel : nat) (conf : T) (prim : Z) (subkey : option (list Z))
  : option (list (list Z * list Z)) :=
  r ← conf_get_str_strs conf prim subkey;
  match r, fuel with
  | None, _ => Some []
  | Some _, O => None
  | Some (v, s), S fuel => rest ← conf_walk fuel conf prim (Some s); Some ((s, v) :: rest)
  end.

(** The subkeys of an option with their values, in the order of the store. *)
Definition subkeys (prim : Z) (l : list conf_entry) : list (list Z * list Z) :=
  (fun e => (sec_s (ent_key e), match ent_value e with ValStr s => s | _ => [] end))
  <$> filter (fun e => primary (ent_key e) = prim) l.

Section Walk.
Context {T : Type} `{SortedSetLaws T conf_entry conf_cmp}.
Context (t : T) (Ht : conf_ok t) (prim : Z) (Htypes : types_are prim TYPE_STR TYPE_STR = true).

(** What [conf_get_str_strs] finds, given where the key cuts the sorted entries. *)
Lemma conf_get_str_strs_spec subkey l1 l2 :
  let r := match subkey with Some _ => REL234_GT | None => REL234_GE end in
  let k := lookup_entry (mkKey prim (SecStr (default [] subkey))) in
  ss_elems t = l1 ++ l2 ->
  Forall (fun x => rel_holds r (conf_cmp k x) = false) l1 -> Forall (fun x => rel_holds r (conf_cmp k x) = true) l2 ->
  conf_get_str_strs t prim subkey
  = Some (match l2 with
          | x :: _ => if primary (ent_key x) =? prim then
                        Some (match ent_value x with ValStr s => s | _ => [] end, sec_s (ent_key x)) else None
          | [] => None
          end).
Proof using Ht Htypes.
  intros r k El H1 H2. unfold conf_get_str_strs. rewrite Htypes.
  assert ((match subkey with
           | Some s => ss_findrelpos t (Some (lookup_entry (mkKey prim (SecStr s)))) None REL234_GT
           | None => ss_findrelpos t (Some (lookup_entry (mkKey prim (SecStr [])))) (Some conf_cmp_constkey) REL234_GE
           end) = Some (match l2 with [] => None | x :: _ => Some (x, len l1) end)) as ->.
  { destruct subkey as [s|]; apply (ss_first_above conf_cmp); try done; try (apply Ht); auto. }
  cbn [mbind option_bind]. destruct l2 as [|x l2]; [done|].
  destruct (Z.eqb_spec (primary (ent_key x)) prim) as [E|]; [|done].
  assert (entry_wf x) as [_ Hv].
  { eapply (proj1 (Forall_forall _ _) (proj2 Ht)). rewrite El. apply elem_of_app. right. by left. }
  unfold value_wf in Hv. rewrite E, (proj2 (types_are_true prim _ _ Htypes)) in Hv. by destruct (ent_value x).
Qed.

Lemma filter_none (P : conf_entry -> Prop) `{forall x, Decision (P x)} l : Forall (fun x => ~ P x) l -> filter P l = [].
Proof using. induction 1 as [|x l Hx _ IH]; [done|]. by rewrite filter_cons_False. Qed.

Lemma above_other l x :
  sorted conf_cmp (x :: l) -> prim < primary (ent_key x) -> filter (fun e => primary (ent_key e) = prim) (x :: l) = [].
Proof using.
  intros Hs Hp. apply filter_none, Forall_cons. split; [lia|]. inversion Hs as [|? ? _ Hf]; subst.
  eapply Forall_impl; [exact Hf|]. cbn. intros y Hy. rewrite conf_cmp_lex in Hy. cbn zeta in Hy.
  destruct (Z.ltb_spec (primary (ent_key x)) (primary (ent_key y))); [lia|].
  destruct (Z.ltb_spec (primary (ent_key y)) (primary (ent_key x))); lia.
Qed.

Lemma conf_walk_spec fuel subkey l1 l2 :
  let r := match subkey with Some _ => REL234_GT | None => REL234_GE end in
  let k := lookup_entry (mkKey prim (SecStr (default [] subkey))) in
  ss_elems t = l1 ++ l2 -> (length l2 <= fuel)%nat ->
  Forall (fun x => rel_holds r (conf_cmp k x) = false) l1 -> Forall (fun x => rel_holds r (conf_cmp k x) = true) l2 ->
  conf_walk fuel t prim subkey = Some (subkeys prim l2).
Proof using Ht Htypes.
  revert subkey l1 l2; induction fuel as [|fuel IH]; intros subkey l1 l2 r k El Hf H1 H2; cbn [conf_walk];
    rewrite (conf_get_str_strs_spec subkey l1 l2 El H1 H2); cbn [mbind option_bind].
  { by destruct l2; [|cbn in Hf; lia]. }
  destruct l2 as [|x l2]; [done|]. pose proof (ss_ok_sorted t (proj1 Ht)) as Hs. rewrite El in Hs.
  apply StronglySorted_app in Hs as (H12&_&Hs2).
  assert (entry_wf x) as Hx.
  { eapply (proj1 (Forall_forall _ _) (proj2 Ht)). rewrite El. apply elem_of_app. right. by left. }
  destruct (Z.eqb_spec (primary (ent_key x)) prim) as [E|E].
  - unfold subkeys. rewrite filter_cons_True by done. cbn [fmap list_fmap].
    assert (ent_key x = mkKey prim (SecStr (sec_s (ent_key x)))) as Ek.
    { destruct Hx as [Hk _]. unfold key_wf in Hk. rewrite E, (proj1 (types_are_true prim _ _ Htypes)) in Hk.
      destruct (ent_key x) as [p []]; cbn in *; subst; done. }
    assert (forall y, conf_cmp (lookup_entry (mkKey prim (SecStr (sec_s (ent_key x))))) y = conf_cmp x y) as Hc.
    { intros y. apply conf_cmp_key. cbn. by rewrite <- Ek. }
    pose proof (IH (Some (sec_s (ent_key x))) (l1 ++ [x]) l2) as IH'. cbn [default] in IH'. unfold id in IH'.
    rewrite IH'; [done|by rewrite <- app_assoc|cbn in Hf; lia| |].
    + apply Forall_forall. intros y Hy. rewrite Hc. apply elem_of_app in Hy as [Hy|Hy]; cbn; apply Z.ltb_ge.
      * pose proof (H12 y x Hy ltac:(by left)). pose proof (cmp_antisym (cmp := conf_cmp) x y). cbn in *. lia.
      * apply list_elem_of_singleton in Hy as ->. rewrite (proj2 (conf_cmp_eq x x (proj1 Hx) (proj1 Hx))); lia || done.
    + apply Forall_forall. intros y Hy. rewrite Hc. cbn. apply Z.ltb_lt.
      inversion Hs2 as [|? ? _ Hf2]; subst. rewrite Forall_forall in Hf2. by apply Hf2.
  - apply Forall_cons_iff in H2 as [Hh _]. unfold subkeys. rewrite above_other; [done|done|].
    subst r k. destruct subkey; cbn [rel_holds] in Hh; bsimpl; rewrite conf_cmp_lex in Hh; cbn in Hh;
      destruct (Z.ltb_spec prim (primary (ent_key x))), (Z.ltb_spec (primary (ent_key x)) prim); lia.
Qed.

(** The entries below all subkeys of the option. *)
Lemma walk_start :
  exists l1 l2, ss_elems t = l1 ++ l2 /\ filter (fun e => primary (ent_key e) = prim) l1 = []
    /\ let k := lookup_entry (mkKey prim (SecStr [])) in
       Forall (fun x => rel_holds REL234_GE (conf_cmp k x) = false) l1
       /\ Forall (fun x => rel_holds REL234_GE (conf_cmp k x) = true) l2.
Proof using Ht Htypes.
  pose proof (ss_ok_sorted t (proj1 Ht)) as Hs. induction Hs as [|x l Hs IH Hf].
  { exists [], []. split; [done|]. split; [done|]. split; constructor. }
  set (k := lookup_entry (mkKey prim (SecStr []))) in *.
  destruct (rel_holds REL234_GE (conf_cmp k x)) eqn:E.
  - exists [], (x :: l). split; [done|]. split; [done|]. split; [constructor|]. constructor; [done|].
    eapply Forall_impl; [exact Hf|]. cbn in E |- *. intros y Hy. apply Z.leb_le in E. apply Z.leb_le.
    apply (cmp_trans k x y); lia.
  - destruct IH as (l1&l2&->&Hfl&H1&H2). exists (x :: l1), l2. split; [done|]. split; [|split; [by constructor|done]].
    rewrite filter_cons_False; [done|]. intros Ep. cbn [rel_holds] in E. apply Z.leb_gt in E. unfold k in E. rewrite conf_cmp_lex in E. cbn zeta in E.
    cbn [lookup_entry ent_key primary] in E. rewrite Ep, Z.ltb_irrefl in E.
    rewrite (proj1 (types_are_true prim _ _ Htypes)) in E. cbn in E.
    destruct (sec_s (ent_key x)); lia.
Qed.
End Walk.

(** Enumeration of subkeys: for an option with string subkeys the callers' loop over
    [conf_get_str_strs], started without a subkey and continued with the one last
    returned, ends, and visits each subkey of that option once, in ascending order and with its
    value, and no entry of another option. *)
Theorem conf_enumerates {T} `{SortedSetLaws T conf_entry conf_cmp} (t : T) (prim : Z) (fuel : nat) :
  conf_ok t -> types_are prim TYPE_STR TYPE_STR = true -> ss_count t <= Z.of_nat fuel ->
  conf_walk fuel t prim None = Some (subkeys prim (ss_elems t)).
Proof.
  intros Ht Htypes Hf. rewrite ss_count_spec in Hf by apply Ht.
  destruct (walk_start t Ht prim Htypes) as (l1&l2&El&Hfl&H1&H2).
  rewrite (conf_walk_spec t Ht prim Htypes fuel None l1 l2 El); [|rewrite El in Hf; unfold len in Hf; rewrite length_app in Hf; lia|done|done].
  unfold subkeys. by rewrite El, filter_app, Hfl.
Qed.


(** ** The serialised form *)

(** Values that survive: 32-bit integers, strings of nonzero bytes. *)
Definition int_ok (i : Z) : Prop := - 2 ^ 31 <= i < 2 ^ 31.
Definition asciz_ok (s : list Z) : Prop := bytes_ok s /\ Forall (fun c => c <> 0) s.
Definition entry_ok (e : conf_entry) : Prop :=
  entry_wf e
  /\ match key_secondary (ent_key e) with SecInt i => int_ok i | SecStr s => asciz_ok s | SecNone => True end
  /\ match ent_value e with
     | ValInt i => int_ok i | ValStr s | ValFile s | ValFont s => asciz_ok s | _ => True
     end.

(** An entry as fields of the wire encoding. *)
Definition key_fields (k : key) : list field :=
  match key_secondary k with SecInt i => [FUint32 (u32 i)] | SecStr s => [FAsciz s] | SecNone => [] end.
Definition value_fields (v : value) : list field :=
  match v with
  | ValBool b => [FBool b] | ValInt i => [FUint32 (u32 i)]
  | ValStr s | ValFile s | ValFont s => [FAsciz s] | ValUnset => []
  end.
Definition entry_fields (e : conf_entry) : list field :=
  FUint32 (primary (ent_key e)) :: key_fields (ent_key e) ++ value_fields (ent_value e).
Definition conf_fields (l : list conf_entry) : list field := (l ≫= entry_fields) ++ [FUint32 4294967295].

Lemma type_at_range types p ty : type_at types p = Some ty -> 0 <= p < len types.
Proof.
  unfold type_at. destruct (Z.ltb_spec p 0); [done|]. intros E%lookup_lt_Some. unfold len. lia.
Qed.

Lemma primary_range e : entry_wf e -> 0 <= primary (ent_key e) < N_CONFIG_OPTIONS.
Proof.
  intros [Hk _]. unfold key_wf in Hk. destruct (type_at subkeytypes (primary (ent_key e))) eqn:E; [|done].
  apply type_at_range in E. unfold subkeytypes in E. by rewrite len_fmap in E.
Qed.

Lemma options_count : N_CONFIG_OPTIONS = 204.
Proof. reflexivity. Qed.

Lemma toint_u32 i : int_ok i -> toint (u32 i) = i.
Proof.
  unfold int_ok, toint. change (u32 INT_MIN) with (2 ^ 31). unfold wrap, INT_MAX, INT_MIN. intros Hi.
  assert (i mod 2 ^ 32 = i /\ 0 <= i \/ i mod 2 ^ 32 = i + 2 ^ 32 /\ i < 0) as [[E ?]|[E ?]] by zdivmod; rewrite E; repeat bcase; lia.
Qed.

Lemma entry_fields_ok e : entry_ok e -> Forall field_ok (entry_fields e).
Proof.
  intros (Hw&Hk&Hv). pose proof (primary_range e Hw) as Hp. rewrite options_count in Hp.
  constructor; [cbn; unfold word_ok; lia|]. apply Forall_app. split.
  - unfold key_fields. destruct (key_secondary _); repeat constructor; cbn; try apply Hk; by apply wrap_ok.
  - unfold value_fields. destruct (ent_value e); repeat constructor; cbn; try apply Hv; by apply wrap_ok.
Qed.

Lemma conf_fields_ok l : Forall entry_ok l -> Forall field_ok (conf_fields l).
Proof.
  intros Hl. apply Forall_app. split; [|by repeat constructor].
  induction Hl; cbn [mbind list_bind]; [constructor|]. apply Forall_app. split; [by apply entry_fields_ok|done].
Qed.

Lemma conf_fields_length l : (length l <= length (conf_fields l ≫= field_enc))%nat.
Proof.
  unfold conf_fields. rewrite bind_app, length_app. apply Nat.le_trans with (length ((l ≫= entry_fields) ≫= field_enc)); [|lia].
  induction l as [|e l IH]; [cbn; lia|]. cbn [mbind list_bind length]. rewrite bind_app, length_app.
  assert (4 <= length (entry_fields e ≫= field_enc))%nat; [|cbn [mbind list_bind] in *; lia].
  unfold entry_fields. cbn [mbind list_bind field_enc]. rewrite length_app, length_be_split. lia.
Qed.

Section Serialise.
Context {T : Type} `{SortedSetLaws T conf_entry conf_cmp} {S : Type} `{BinarySinkLaws S}.

Lemma put_uint32_wrap (s : S) i : put_uint32 s (u32 i) = put_uint32 s i.
Proof using. unfold put_uint32. by rewrite wrap_wrap. Qed.

Lemma serialise_entry (s : S) e :
  entry_wf e ->
  (bs ← put_uint32 s (primary (ent_key e)); bs ← serialise_key bs (ent_key e); serialise_value bs e)
  = put_fields s (entry_fields e).
Proof using.
  intros [Hk Hv]. unfold entry_fields. change (?a :: ?l) with ([a] ++ l). rewrite put_fields_app, put_fields1.
  cbn [put_field]. destruct (put_uint32 s _) as [s1|]; cbn [mbind option_bind]; [|done]. rewrite put_fields_app.
  assert (serialise_key s1 (ent_key e) = put_fields s1 (key_fields (ent_key e))) as ->.
  { unfold key_wf in Hk. unfold serialise_key, key_fields. destruct (ent_key e) as [p []]; cbn [primary key_secondary] in *;
      destruct (type_at subkeytypes p) as [[]|]; try done; rewrite put_fields1; cbn [put_field]; by rewrite ?put_uint32_wrap. }
  destruct (put_fields s1 _) as [s2|]; cbn [mbind option_bind]; [|done].
  unfold value_wf in Hv. unfold serialise_value, value_fields, filename_serialise, fontspec_serialise.
  destruct (type_at valuetypes _) as [[]|], (ent_value e); try done;
    rewrite put_fields1; cbn [put_field]; by rewrite ?put_uint32_wrap.
Qed.

Lemma conf_serialise_loop_spec fuel (t : T) (s : S) i :
  conf_ok t -> (length (ss_elems t) <= i + fuel)%nat ->
  conf_serialise_loop fuel (Z.of_nat i) s t = put_fields s (drop i (ss_elems t) ≫= entry_fields).
Proof using.
  intros Ht. revert s i; induction fuel as [|fuel IH]; intros s i Hf; cbn [conf_serialise_loop];
    rewrite ss_index_spec, Nat2Z.id by (apply Ht || lia); destruct (ss_elems t !! i) as [e|] eqn:Ee.
  1: { apply lookup_lt_Some in Ee. lia. }
  1, 3: apply lookup_ge_None_1 in Ee; by rewrite drop_ge.
  rewrite (drop_S _ e i Ee). cbn [mbind list_bind]. rewrite put_fields_app.
  rewrite <- serialise_entry by (by apply (Forall_lookup_1 _ _ _ _ (proj2 Ht) Ee)).
  destruct (put_uint32 s _) as [s1|]; cbn [mbind option_bind]; [|done].
  destruct (serialise_key s1 _) as [s2|]; cbn [mbind option_bind]; [|done].
  destruct (serialise_value s2 e) as [s3|]; cbn [mbind option_bind]; [|done].
  replace (Z.of_nat i + 1) with (Z.of_nat (Datatypes.S i)) by lia. apply IH. lia.
Qed.

Lemma conf_serialise_spec (t : T) (s : S) :
  conf_ok t -> conf_serialise s t = put_fields s (conf_fields (ss_elems t)).
Proof using.
  intros Ht. unfold conf_serialise, conf_fields.
  rewrite (conf_serialise_loop_spec _ t s 0); [|done|rewrite ss_count_spec by apply Ht; unfold len; lia].
  rewrite put_fields_app. destruct (put_fields s _); cbn [mbind option_bind]; [by rewrite put_fields1|done].
Qed.
End Serialise.

Section Deserialise.
Context {T : Type} `{SortedSetLaws T conf_entry conf_cmp}.

Lemma at_data_asciz src s rest :
  asciz_ok s -> at_data src ((s ++ [0]) ++ rest) -> exists src', get_asciz src = (s, src') /\ at_data src' rest.
Proof using.
  intros Hv Hs. destruct (at_data_field src (FAsciz s) rest Hv Hs) as (src'&E&Hs').
  cbn [get_field] in E. destruct (get_asciz src). injection E as -> ->. eauto.
Qed.

Lemma deserialise_key_spec src e rest :
  entry_ok e -> at_data src ((key_fields (ent_key e) ≫= field_enc) ++ rest) ->
  exists src', deserialise_key (primary (ent_key e)) src = (ent_key e, src') /\ at_data src' rest.
Proof using.
  intros ([Hw _]&Hk&_) Hs. unfold key_wf in Hw. unfold key_fields in Hs. unfold deserialise_key.
  destruct (ent_key e) as [p [|i|s]]; cbn [primary key_secondary] in *;
    destruct (type_at subkeytypes p) as [[]|]; try done; cbn [mbind list_bind field_enc] in Hs;
    rewrite ?app_nil_r in Hs.
  - eauto.
  - destruct (at_data_uint32 src (u32 i) rest) as (src'&->&Hs'); [by apply wrap_ok|done|]. rewrite toint_u32 by done. eauto.
  - destruct (at_data_asciz src s rest) as (src'&->&Hs'); [done|done|]. eauto.
Qed.

Lemma deserialise_value_spec src e rest :
  entry_ok e -> at_data src ((value_fields (ent_value e) ≫= field_enc) ++ rest) ->
  exists src', deserialise_value (primary (ent_key e)) src = (ent_value e, src') /\ at_data src' rest.
Proof using.
  intros ([_ Hw]&_&Hv) Hs. unfold value_wf in Hw. unfold value_fields in Hs.
  unfold deserialise_value, filename_deserialise, fontspec_deserialise.
  destruct (type_at valuetypes _) as [[]|]; try done; destruct (ent_value e) as [|b|i|s|f|f]; try done;
    cbn [mbind list_bind field_enc] in Hs; rewrite ?app_nil_r in Hs.
  - destruct (at_data_bool src b rest) as (src'&->&Hs'); [done|]. eauto.
  - destruct (at_data_uint32 src (u32 i) rest) as (src'&->&Hs'); [by apply wrap_ok|done|]. rewrite toint_u32 by done. eauto.
  - destruct (at_data_asciz src s rest) as (src'&->&Hs'); [done|done|]. eauto.
  - destruct (at_data_asciz src f rest) as (src'&->&Hs'); [done|done|]. eauto.
  - destruct (at_data_asciz src f rest) as (src'&->&Hs'); [done|done|]. eauto.
Qed.

Lemma deserialise_loop_spec fuel l (t : T) src rest :
  Forall entry_ok l -> conf_ok t -> (length l <= fuel)%nat ->
  at_data src ((conf_fields l ≫= field_enc) ++ rest) ->
  exists t' src', conf_deserialise_loop fuel t src = Some (t', true, src') /\ conf_ok t' /\ at_data src' rest
    /\ conf_map t' = fold_left (fun (m : gmap key value) e => <[ent_key e := ent_value e]> m) l (conf_map t).
Proof using.
  intros Hl. revert fuel t src; induction Hl as [|e l He Hl IH]; intros fuel t src Ht Hf Hs.
  - unfold conf_fields in Hs. cbn [mbind list_bind app field_enc] in Hs. rewrite app_nil_r in Hs.
    destruct (at_data_uint32 src 4294967295 rest) as (src'&E&Hs'); [done|done|].
    exists t, src'. split; [|done]. destruct fuel; cbn [conf_deserialise_loop]; rewrite E;
      rewrite (bool_decide_eq_true_2 _ (proj1 (proj2 Hs'))); done.
  - unfold conf_fields in Hs. cbn [mbind list_bind] in Hs. unfold entry_fields at 1 in Hs.
    rewrite <- app_assoc, bind_app in Hs. cbn [mbind list_bind field_enc] in Hs. rewrite bind_app, <- !app_assoc in Hs.
    pose proof (primary_range e (proj1 He)) as Hp. rewrite options_count in Hp.
    destruct (at_data_uint32 src (primary (ent_key e)) _ ltac:(unfold word_ok; lia) Hs) as (s1&E1&H1).
    destruct (deserialise_key_spec s1 e _ He H1) as (s2&E2&H2).
    destruct (deserialise_value_spec s2 e _ He H2) as (s3&E3&H3).
    destruct fuel as [|fuel]; [cbn in Hf; lia|]. cbn [conf_deserialise_loop]. rewrite E1.
    rewrite (bool_decide_eq_true_2 _ (proj1 (proj2 H1))). cbn [negb]. rewrite options_count.
    rewrite (proj2 (Z.eqb_neq _ _)), (proj2 (Z.leb_gt _ _)) by lia. rewrite E2, E3.
    rewrite (bool_decide_eq_true_2 _ (proj1 (proj2 H3))). cbn [negb].
    destruct e as [k v]. destruct (conf_insert_spec t (mkEntry k v) Ht (proj1 He)) as (t1&Ei&Ht1&Em).
    cbn [ent_key ent_value] in *. rewrite Ei. cbn [mbind option_bind].
    destruct (IH fuel t1 s3 Ht1) as (t'&src'&E&Ht'&Hs'&Em'); [cbn in Hf; lia| |].
    { exact H3. }
    exists t', src'. split; [done|]. split; [done|]. split; [done|]. rewrite Em'. cbn [fold_left]. by rewrite Em.
Qed.

Lemma fold_insert_union l (m : gmap key value) :
  NoDup (pairs l).*1 ->
  fold_left (fun (m : gmap key value) e => <[ent_key e := ent_value e]> m) l m = list_to_map (pairs l) ∪ m.
Proof using.
  revert m; induction l as [|e l IH]; intros m Hnd; cbn [fold_left]; [symmetry; apply (left_id_L ∅ (∪))|].
  cbn in Hnd. apply NoDup_cons in Hnd as [Hn Hnd]. rewrite IH by done. cbn.
  rewrite <- insert_union_l, insert_union_r; [done|]. by apply not_elem_of_list_to_map_1.
Qed.
End Deserialise.

(** C15. Serialisation: a configuration whose integers have 32 bits and whose strings hold
    no NUL is written by [conf_serialise] into any sink with room, and [conf_deserialise]
    of the bytes written, whatever follows them, reports success, stops behind them, and puts
    every entry into the destination, where it replaces what was stored under its key. *)
Theorem conf_roundtrip {T} `{SortedSetLaws T conf_entry conf_cmp} {S} `{BinarySinkLaws S}
  (t t0 : T) (s : S) (n : Z) :
  conf_ok t -> Forall entry_ok (ss_elems t) -> conf_ok t0 ->
  sink_room s n -> len (conf_fields (ss_elems t) ≫= field_enc) <= n ->
  exists s' d, conf_serialise s t = Some s' /\ sink_out s' = sink_out s ++ d
    /\ forall src rest, src_ok src -> bs_err src = BSE_NO_ERROR -> here src = d ++ rest ->
       exists t' src', conf_deserialise t0 src = Some (t', true, src') /\ bs_err src' = BSE_NO_ERROR
         /\ here src' = rest /\ conf_ok t' /\ conf_map t' = conf_map t ∪ conf_map t0.
Proof.
  intros Ht He Ht0 Hr Hn. rewrite conf_serialise_spec by done.
  destruct (put_fields_spec (conf_fields (ss_elems t)) s n) as (s'&E&W&_); [by apply conf_fields_ok|done|done|].
  exists s', (conf_fields (ss_elems t) ≫= field_enc). split; [done|]. split; [done|]. intros src rest Hok Herr Hh.
  unfold conf_deserialise.
  destruct (deserialise_loop_spec (length (bs_data src)) (ss_elems t) t0 src rest) as (t'&src'&Ed&Ht'&(_&He'&Hh')&Em); try done.
  - apply (f_equal len) in Hh. rewrite len_here, len_app in Hh by done. unfold len at 3 in Hh.
    pose proof (conf_fields_length (ss_elems t)) as Hlen.
    destruct Hok as [Hp _]. unfold len in *. lia.
  - exists t', src'. split_and!; try done. rewrite Em, fold_insert_union; [done|]. by apply conf_nodup.
Qed.

Lemma conf_roundtrip_witness :
  exists (t : tree234 conf_entry) (s' d : list Z), conf_set_int conf_new (Options.CONF "port") (-22) = Some t
  /\ conf_serialise [7] t = Some s' /\ s' = [7] ++ d.
Proof.
  set (e := mkEntry (mkKey (Options.CONF "port") SecNone) (ValInt (-22))).
  assert (entry_wf e) as He by (vm_compute; split; exact I).
  set (t := mkTree (Node Null Null Null Null 0 0 0 0 (Some e) None None) (Some conf_cmp)).
  assert (conf_ok (t : tree234 conf_entry)) as Ht.
  { split; [|constructor; [exact He|constructor]].
    split; [exists 1%nat; apply (wf_2 0 Null e Null); constructor|]. split; [reflexivity|]. repeat constructor. }
  destruct (conf_roundtrip (t : tree234 conf_entry) conf_new ([7] : list Z) 100) as (s'&d&E&O&_).
  - exact Ht.
  - constructor; [|constructor]. split; [exact He|]. split; [exact I|]. vm_compute. split; [discriminate|reflexivity].
  - exact conf_new_ok.
  - exact I.
  - vm_compute. discriminate.
  - exists t, s', d. split; [reflexivity|]. split; [exact E|exact O].
Defined.
