(* ===== verification/Callback.v ===== *)
(** * The queue of top-level callbacks (callback.c)

    The queue is a singly linked list in a heap, with a head and a tail pointer and a
    third pointer to the callback being run.  The model keeps the heap: a node is
    allocated by [queue_toplevel_callback], freed by [run_toplevel_callbacks] and
    [delete_callbacks_for_context], and following a pointer to a node that is not there
    is [None].  [callback_refines_queue] shows that it is a FIFO queue, that no dead pointer is
    followed and no node leaks; [idempotent_callback_once] that an idempotent callback is
    never queued twice.

    What a callback does while it runs is part of the operation that runs it
    ([OpRun]): any sequence of calls of this module other than a nested
    [run_toplevel_callbacks].  The front end's notification function is taken not to
    touch the queue; its calls are logged. *)

From stdpp Require Import gmap.
From S2P Require Import Prelude Memory.
Open Scope Z_scope.

(** [toplevel_callback_fn_t]: the module's own function, or one of a client. *)
Inductive cbfn := run_idempotent_callback | client_fn (f : Z).

#[export] Instance cbfn_eq_dec : EqDecision cbfn.
Proof. solve_decision. Defined.

Record callback := mkCb { cb_next : option positive; cb_fn : cbfn; cb_ctx : Z }.

Record IdempotentCallback := mkIC { ic_fn : Z; ic_ctx : Z; ic_queued : bool }.
(** The idempotent callbacks of the clients, by address. *)
Abbreviation ics := (gmap Z IdempotentCallback).

(** ** Code that does not depend on how the queue is stored *)

Class CallbackQueue (S : Type) := {
  cq_queue : S -> cbfn -> Z -> option S;
  cq_delete : S -> Z -> option S;
  cq_ics : S -> ics;
  cq_set_ics : S -> ics -> S
}.

Section Clients.
Context {S : Type} `{CallbackQueue S}.

Definition queue_idempotent_callback (s : S) (ic : Z) : option S :=
  c ← cq_ics s !! ic;
  if ic_queued c then Some s
  else cq_queue (cq_set_ics s (<[ic := mkIC (ic_fn c) (ic_ctx c) true]> (cq_ics s))) run_idempotent_callback ic.

(** What a callback may do. *)
Inductive action := AQueue (f ctx : Z) | AQueueIdempotent (ic : Z) | ADelete (ctx : Z).

Definition act (s : S) (a : action) : option S :=
  match a with
  | AQueue f ctx => cq_queue s (client_fn f) ctx
  | AQueueIdempotent ic => queue_idempotent_callback s ic
  | ADelete ctx => cq_delete s ctx
  end.
Fixpoint acts (s : S) (l : list action) : option S :=
  match l with [] => Some s | a :: l => s ← act s a; acts s l end.

(** The call [fn(ctx)], in which the client's function performs [body]. *)
Definition call (s : S) (fn : cbfn) (ctx : Z) (body : list action) : option S :=
  match fn with
  | client_fn _ => acts s body
  | run_idempotent_callback =>
      c ← cq_ics s !! ctx;
      acts (cq_set_ics s (<[ctx := mkIC (ic_fn c) (ic_ctx c) false]> (cq_ics s))) body
  end.
End Clients.

(** Whether [delete_callbacks_for_context(ctx)] takes a callback out. *)
Definition for_context (m : ics) (ctx : Z) (fn : cbfn) (cctx : Z) : option bool :=
  if cctx =? ctx then Some true
  else match fn with
       | run_idempotent_callback => c ← m !! cctx; Some (ic_ctx c =? ctx)
       | client_fn _ => Some false
       end.

(** ** The linked list *)

Record cbstate := mkState {
  heap : gmap positive callback;
  cbcurr : option positive;
  cbhead : option positive;
  cbtail : option positive;
  notify_frontend : option Z;
  notify_ctx : Z;
  st_ics : ics;
  notified : list Z
}.

Definition set_list (s : cbstate) (h : gmap positive callback) (curr hd tl : option positive) : cbstate :=
  mkState h curr hd tl (notify_frontend s) (notify_ctx s) (st_ics s) (notified s).

Definition request_callback_notifications (s : cbstate) (fn : option Z) (ctx : Z) : cbstate :=
  mkState (heap s) (cbcurr s) (cbhead s) (cbtail s) fn ctx (st_ics s) (notified s).

Definition queue_toplevel_callback (s : cbstate) (fn : cbfn) (ctx : Z) : option cbstate :=
  let cb := fresh (dom (heap s)) in
  let h := <[cb := mkCb None fn ctx]> (heap s) in
  let log := match notify_frontend s, cbhead s, cbcurr s with
             | Some _, None, None => notified s ++ [notify_ctx s]
             | _, _, _ => notified s
             end in
  '(h, hd) ← match cbtail s with
             | Some tl => n ← h !! tl; Some (<[tl := mkCb (Some cb) (cb_fn n) (cb_ctx n)]> h, cbhead s)
             | None => Some (h, Some cb)
             end;
  n ← h !! cb;
  let h := <[cb := mkCb None (cb_fn n) (cb_ctx n)]> h in
  Some (mkState h (cbcurr s) hd (Some cb) (notify_frontend s) (notify_ctx s) (st_ics s) log).

(** The [while (cbhead)] loop: the heap, [newhead] and [newtail]. *)
Fixpoint delete_loop (fuel : nat) (m : ics) (ctx : Z) (h : gmap positive callback) (hd newhead newtail : option positive)
  : option (gmap positive callback * option positive * option positive) :=
  match hd with
  | None => Some (h, newhead, newtail)
  | Some cb =>
      match fuel with
      | O => None
      | S fuel =>
          n ← h !! cb;
          b ← for_context m ctx (cb_fn n) (cb_ctx n);
          if (b : bool) then delete_loop fuel m ctx (delete cb h) (cb_next n) newhead newtail
          else match newhead with
               | None => delete_loop fuel m ctx h (cb_next n) (Some cb) (Some cb)
               | Some _ =>
                   tl ← newtail;
                   tn ← h !! tl;
                   delete_loop fuel m ctx (<[tl := mkCb (Some cb) (cb_fn tn) (cb_ctx tn)]> h) (cb_next n) newhead (Some cb)
               end
      end
  end.

Definition delete_callbacks_for_context (s : cbstate) (ctx : Z) : option cbstate :=
  '(h, newhead, newtail) ← delete_loop (size (heap s)) (st_ics s) ctx (heap s) (cbhead s) None None;
  h ← match newtail with
      | Some tl => n ← h !! tl; Some (<[tl := mkCb None (cb_fn n) (cb_ctx n)]> h)
      | None => Some h
      end;
  Some (set_list s h (cbcurr s) newhead newtail).

#[export] Instance cbstate_queue : CallbackQueue cbstate := {|
  cq_queue := queue_toplevel_callback;
  cq_delete := delete_callbacks_for_context;
  cq_ics := st_ics;
  cq_set_ics s m := mkState (heap s) (cbcurr s) (cbhead s) (cbtail s) (notify_frontend s) (notify_ctx s) m (notified s)
|}.

(** The state, and the callback that was run, if there was one. *)
Definition run_toplevel_callbacks (s : cbstate) (body : list action) : option (cbstate * option (cbfn * Z)) :=
  match cbhead s with
  | None => Some (s, None)
  | Some cb =>
      n ← heap s !! cb;
      let hd := cb_next n in
      let tl := match hd with None => None | Some _ => cbtail s end in
      s ← call (set_list s (heap s) (Some cb) hd tl) (cb_fn n) (cb_ctx n) body;
      curr ← cbcurr s;
      _ ← heap s !! curr;
      Some (set_list s (delete curr (heap s)) None (cbhead s) (cbtail s), Some (cb_fn n, cb_ctx n))
  end.

Definition toplevel_callback_pending (s : cbstate) : bool :=
  match cbcurr s, cbhead s with None, None => false | _, _ => true end.

Inductive cb_op :=
| OpQueue (f ctx : Z) | OpQueueIdempotent (ic : Z) | OpDelete (ctx : Z)
| OpRun (body : list action) | OpPending | OpNotify (fn : option Z) (ctx : Z).
Inductive cb_out := Done | Ran (cb : option (cbfn * Z)) | Pending (b : bool).

Definition cb_step (s : cbstate) (op : cb_op) : option (cbstate * cb_out) :=
  let done r := s' ← r; Some (s', Done) in
  match op with
  | OpQueue f ctx => done (queue_toplevel_callback s (client_fn f) ctx)
  | OpQueueIdempotent ic => done (queue_idempotent_callback s ic)
  | OpDelete ctx => done (delete_callbacks_for_context s ctx)
  | OpRun body => '(s, cb) ← run_toplevel_callbacks s body; Some (s, Ran cb)
  | OpPending => Some (s, Pending (toplevel_callback_pending s))
  | OpNotify fn ctx => Some (request_callback_notifications s fn ctx, Done)
  end.

Definition cb_init (m : ics) : cbstate := mkState ∅ None None None None 0 m [].

Example callback_examples :
  let m : ics := {[ 50 := mkIC 7 5 false ]} in
  option_map snd (run_ops cb_step (cb_init m)
    [OpNotify (Some 1) 9; OpQueue 1 5; OpQueueIdempotent 50; OpQueueIdempotent 50; OpQueue 2 6; OpRun [AQueue 3 6]; OpPending;
     OpDelete 5; OpRun []; OpRun []; OpRun []; OpPending])
  = Some [Done; Done; Done; Done; Done; Ran (Some (client_fn 1, 5)); Pending true; Done;
          Ran (Some (client_fn 2, 6)); Ran (Some (client_fn 3, 6)); Ran None; Pending false].
Proof. vm_compute. reflexivity. Qed.

(** ** The contract: a list *)

Record aqueue := mkQueue {
  a_queue : list (cbfn * Z);
  a_busy : bool;
  a_notify : option Z;
  a_notify_ctx : Z;
  a_ics : ics;
  a_notified : list Z
}.

Definition a_set_queue (a : aqueue) (q : list (cbfn * Z)) (busy : bool) : aqueue :=
  mkQueue q busy (a_notify a) (a_notify_ctx a) (a_ics a) (a_notified a).

Definition a_queue_cb (a : aqueue) (fn : cbfn) (ctx : Z) : option aqueue :=
  let log := match a_notify a, a_queue a, a_busy a with
             | Some _, [], false => a_notified a ++ [a_notify_ctx a]
             | _, _, _ => a_notified a
             end in
  Some (mkQueue (a_queue a ++ [(fn, ctx)]) (a_busy a) (a_notify a) (a_notify_ctx a) (a_ics a) log).

Fixpoint remove_context (m : ics) (ctx : Z) (q : list (cbfn * Z)) : option (list (cbfn * Z)) :=
  match q with
  | [] => Some []
  | (fn, c) :: q => b ← for_context m ctx fn c; q ← remove_context m ctx q; Some (if (b : bool) then q else (fn, c) :: q)
  end.

#[export] Instance aqueue_queue : CallbackQueue aqueue := {|
  cq_queue := a_queue_cb;
  cq_delete a ctx := q ← remove_context (a_ics a) ctx (a_queue a); Some (a_set_queue a q (a_busy a));
  cq_ics := a_ics;
  cq_set_ics a m := mkQueue (a_queue a) (a_busy a) (a_notify a) (a_notify_ctx a) m (a_notified a)
|}.

Definition a_step (a : aqueue) (op : cb_op) : option (aqueue * cb_out) :=
  let done r := a' ← r; Some (a', Done) in
  match op with
  | OpQueue f ctx => done (cq_queue a (client_fn f) ctx)
  | OpQueueIdempotent ic => done (queue_idempotent_callback a ic)
  | OpDelete ctx => done (cq_delete a ctx)
  | OpRun body =>
      match a_queue a with
      | [] => Some (a, Ran None)
      | (fn, ctx) :: q =>
          a ← call (a_set_queue a q true) fn ctx body;
          Some (a_set_queue a (a_queue a) false, Ran (Some (fn, ctx)))
      end
  | OpPending => Some (a, Pending (a_busy a || negb (bool_decide (a_queue a = []))))
  | OpNotify fn ctx => Some (mkQueue (a_queue a) (a_busy a) fn ctx (a_ics a) (a_notified a), Done)
  end.

(** ** List segments *)

Abbreviation node := (positive * (cbfn * Z))%type.

(** From [hd] the nodes [l] follow one another up to the pointer [tl]. *)
Fixpoint seg (h : gmap positive callback) (hd : option positive) (l : list node) (tl : option positive) : Prop :=
  match l with
  | [] => hd = tl
  | (p, (fn, ctx)) :: l => hd = Some p /\ exists nx, h !! p = Some (mkCb nx fn ctx) /\ seg h nx l tl
  end.

Lemma seg_same h h' hd l tl :
  (forall p, p ∈ l.*1 -> h' !! p = h !! p) -> seg h hd l tl -> seg h' hd l tl.
Proof.
  revert hd; induction l as [|[p [fn ctx]] l IH]; intros hd Hp; cbn [seg]; [done|].
  intros (->&nx&Hn&Hs). split; [done|]. exists nx. rewrite Hp by (by left). split; [done|].
  apply IH; [|done]. intros q Hq. apply Hp. by right.
Qed.

Lemma seg_insert h hd l tl p n : p ∉ l.*1 -> seg h hd l tl -> seg (<[p := n]> h) hd l tl.
Proof. intros Hp. apply seg_same. intros q Hq. rewrite lookup_insert_ne; [done|]. congruence. Qed.

Lemma seg_delete h hd l tl p : p ∉ l.*1 -> seg h hd l tl -> seg (delete p h) hd l tl.
Proof. intros Hp. apply seg_same. intros q Hq. rewrite lookup_delete_ne; [done|]. congruence. Qed.

Lemma seg_app h hd l1 l2 tl : seg h hd (l1 ++ l2) tl <-> exists mid, seg h hd l1 mid /\ seg h mid l2 tl.
Proof.
  revert hd; induction l1 as [|[p [fn ctx]] l1 IH]; intros hd; cbn [seg app].
  - split; [eauto|]. by intros (mid&->&?).
  - split.
    + intros (->&nx&Hn&Hs). apply IH in Hs as (mid&H1&H2). eauto 10.
    + intros (mid&(->&nx&Hn&H1)&H2). split; [done|]. exists nx. split; [done|]. apply IH. eauto.
Qed.

Lemma seg_dom h hd l tl p : seg h hd l tl -> p ∈ l.*1 -> p ∈ dom h.
Proof.
  revert hd; induction l as [|[q [fn ctx]] l IH]; intros hd; cbn [seg]; [intros _ H; by apply elem_of_nil in H|].
  intros (_&nx&Hn&Hs) [->|Hp]%elem_of_cons; [by apply elem_of_dom; eauto|]. by apply (IH nx).
Qed.

Lemma seg_head h hd l : seg h hd l None -> hd = fst <$> head l.
Proof. destruct l as [|[p [fn ctx]] l]; cbn [seg]; [done|]. by intros [-> _]. Qed.

(** Redirecting the last pointer of a segment. *)
Lemma seg_last h hd l p fn ctx old tl nx :
  NoDup (l.*1 ++ [p]) -> seg h hd l (Some p) -> h !! p = Some (mkCb old fn ctx) -> tl = nx ->
  seg (<[p := mkCb nx fn ctx]> h) hd (l ++ [(p, (fn, ctx))]) tl.
Proof.
  intros Hnd Hs Hp ->. apply NoDup_app in Hnd as (_&Hd&_). apply seg_app. exists (Some p). split.
  - apply seg_insert; [|done]. intros Hin. apply (Hd p Hin). by left.
  - cbn. split; [done|]. exists nx. by rewrite lookup_insert_eq.
Qed.

(** ** The representation *)

Definition curr_list (s : cbstate) : list positive := match cbcurr s with Some p => [p] | None => [] end.

(** [l] are the nodes of the queue; they, and the current callback, are all of the heap. *)
Definition represents (s : cbstate) (a : aqueue) (l : list node) : Prop :=
  seg (heap s) (cbhead s) l None /\ NoDup (curr_list s ++ l.*1) /\ cbtail s = fst <$> list.last l
  /\ l.*2 = a_queue a /\ bool_decide (is_Some (cbcurr s)) = a_busy a
  /\ dom (heap s) = list_to_set (curr_list s ++ l.*1)
  /\ (notify_frontend s, notify_ctx s, st_ics s, notified s) = (a_notify a, a_notify_ctx a, a_ics a, a_notified a).
Definition cb_rel (s : cbstate) (a : aqueue) : Prop := exists l, represents s a l.

Lemma fmap_last {A B} (f : A -> B) l : f <$> list.last l = list.last (f <$> l).
Proof. symmetry. apply fmap_last. Qed.

Lemma last_snoc_inv {A} (l : list A) x : list.last l = Some x -> exists l', l = l' ++ [x].
Proof. apply last_Some. Qed.

Lemma queue_refines s a fn ctx :
  cb_rel s a ->
  exists s' a', queue_toplevel_callback s fn ctx = Some s' /\ a_queue_cb a fn ctx = Some a' /\ cb_rel s' a' /\ cbcurr s' = cbcurr s.
Proof.
  intros (l&Hseg&Hnd&Htl&Hq&Hb&Hdom&Hrest). unfold queue_toplevel_callback.
  set (cb := fresh (dom (heap s))). assert (cb ∉ dom (heap s)) as Hcb by apply is_fresh.
  assert (cb ∉ curr_list s ++ l.*1) as Hcb'.
  { rewrite Hdom in Hcb. by rewrite elem_of_list_to_set in Hcb. }
  pose proof Hcb' as Hcb2. rewrite elem_of_app in Hcb2. apply Decidable.not_or in Hcb2 as [Hcbc Hcbl].
  set (h := <[cb := mkCb None fn ctx]> (heap s)).
  assert (seg h (cbhead s) l None) as Hsegh by by apply seg_insert.
  assert (exists h1 hd, (match cbtail s with
     | Some tl => n ← h !! tl; Some (<[tl := mkCb (Some cb) (cb_fn n) (cb_ctx n)]> h, cbhead s)
     | None => Some (h, Some cb) end) = Some (h1, hd) /\ seg h1 hd l (Some cb) /\ h1 !! cb = Some (mkCb None fn ctx)
     /\ dom h1 = {[cb]} ∪ dom (heap s)) as (h1&hd&->&Hs1&Hn1&Hd1).
  { destruct (cbtail s) as [tl|]; cbn in Htl.
    - destruct (list.last l) as [[p [fn' ctx']]|] eqn:El; [|done]. injection Htl as ->.
      apply last_snoc_inv in El as [l' ->]. apply seg_app in Hsegh as (mid&H1&H2). cbn in H2.
      destruct H2 as (->&nx&Hp&->). rewrite Hp. cbn [mbind option_bind cb_fn cb_ctx].
      rewrite fmap_app in Hnd. apply NoDup_app in Hnd as (_&_&Hnd').
      assert (p <> cb). { intros ->. apply Hcbl. rewrite fmap_app. apply elem_of_app. right. by left. }
      eexists _, _. split; [done|]. split; [by eapply seg_last|]. split.
      + rewrite lookup_insert_ne by done. apply lookup_insert_eq.
      + rewrite dom_insert_lookup_L by eauto. unfold h. by rewrite dom_insert_L.
    - destruct l as [|x l]; [|by destruct (list.last (x :: l)) eqn:E; [|by apply last_None in E]].
      eexists _, _. split; [done|]. split; [done|]. split; [apply lookup_insert_eq|]. unfold h. by rewrite dom_insert_L. }
  cbn [mbind option_bind]. rewrite Hn1. cbn [mbind option_bind cb_fn cb_ctx]. rewrite insert_id by done.
  eexists _, _. split; [done|]. split; [done|]. split; [|done]. exists (l ++ [(cb, (fn, ctx))]).
  injection Hrest as En Enc Ei El. split_and!; cbn [heap cbhead cbtail cbcurr a_queue a_busy a_notify a_notify_ctx a_ics a_notified notify_frontend notify_ctx st_ics notified]; try done.
  - apply seg_app. exists (Some cb). split; [done|]. cbn. split; [done|]. exists None. done.
  - rewrite fmap_app. rewrite (app_assoc (curr_list s)). apply NoDup_app. split; [done|]. split; [|by apply NoDup_singleton].
    intros x Hx ->%list_elem_of_singleton. by apply Hcb'.
  - by rewrite last_snoc.
  - by rewrite fmap_app, Hq.
  - rewrite Hd1, Hdom, fmap_app. cbn [fmap list_fmap fst]. unfold curr_list; cbn [cbcurr].
    rewrite (app_assoc _ _ [cb]), list_to_set_app_L. cbn. set_solver.
  - rewrite En, Enc, Ei, El. apply seg_head in Hseg. destruct (a_notify a); [|done].
    rewrite <- Hq, Hseg. destruct l as [|[p x] l]; cbn; [|done]. rewrite <- Hb. by destruct (cbcurr s).
Qed.

(** *** Deleting *)

(** The list built by the loop: its last node still has its old [next] pointer. *)
Definition kept (h : gmap positive callback) (newhead newtail : option positive) (ks : list node) : Prop :=
  (ks = [] /\ newhead = None /\ newtail = None)
  \/ exists ks' p fn ctx nx, ks = ks' ++ [(p, (fn, ctx))] /\ newtail = Some p /\ seg h newhead ks' (Some p)
       /\ h !! p = Some (mkCb nx fn ctx).

Lemma kept_same h h' nh nt ks :
  (forall p, p ∈ ks.*1 -> h' !! p = h !! p) -> kept h nh nt ks -> kept h' nh nt ks.
Proof.
  intros Hp [H|(ks'&p&fn&ctx&nx&->&->&Hs&Hn)]; [by left|]. right. exists ks', p, fn, ctx, nx.
  rewrite fmap_app in Hp. split_and!; try done.
  - eapply seg_same; [|done]. intros q Hq. apply Hp, elem_of_app. by left.
  - rewrite Hp; [done|]. apply elem_of_app. right. by left.
Qed.

(** The loop appends a node to the kept list. *)
Lemma kept_snoc h nh nt ks p fn ctx nx :
  kept h nh nt ks -> NoDup (ks.*1 ++ [p]) -> h !! p = Some (mkCb nx fn ctx) ->
  exists h' nh', (match nh with
      | None => Some (h, Some p)
      | Some _ => tl ← nt; tn ← h !! tl; Some (<[tl := mkCb (Some p) (cb_fn tn) (cb_ctx tn)]> h, nh)
      end) = Some (h', nh')
    /\ kept h' nh' (Some p) (ks ++ [(p, (fn, ctx))]) /\ dom h' = dom h
    /\ (forall q, q ∉ ks.*1 -> h' !! q = h !! q).
Proof.
  intros [(->&->&->)|(ks'&q&fn'&ctx'&nx'&->&->&Hs&Hn)] Hnd Hp.
  - exists h, (Some p). split; [done|]. split; [|done]. right. exists [], p, fn, ctx, nx. done.
  - destruct nh as [x|].
    2: { destruct ks' as [|[y [??]] ks']; cbn in Hs; [done|]. by destruct Hs. }
    cbn [mbind option_bind]. rewrite Hn. cbn [mbind option_bind cb_fn cb_ctx].
    eexists _, _. split; [done|]. rewrite fmap_app in Hnd. apply NoDup_app in Hnd as (Hnd1&Hd&_).
    assert (q <> p). { intros ->. apply (Hd p); [apply elem_of_app; right; by left|by left]. }
    split; [|split].
    + right. exists (ks' ++ [(q, (fn', ctx'))]), p, fn, ctx, nx. split; [done|]. split; [done|].
      split; [by eapply seg_last|]. by rewrite lookup_insert_ne.
    + apply dom_insert_lookup_L. eauto.
    + intros r Hr. rewrite lookup_insert_ne; [done|]. intros <-. apply Hr. rewrite fmap_app.
      apply elem_of_app. right. by left.
Qed.

Lemma delete_loop_refines m ctx xs fuel h hd nh nt ks rs :
  kept h nh nt ks -> seg h hd rs None -> NoDup (xs ++ ks.*1 ++ rs.*1) ->
  dom h = list_to_set (xs ++ ks.*1 ++ rs.*1) -> (length rs <= fuel)%nat ->
  match remove_context m ctx rs.*2 with
  | Some q => exists h' nh' nt' ks', delete_loop fuel m ctx h hd nh nt = Some (h', nh', nt')
      /\ kept h' nh' nt' (ks ++ ks') /\ ks'.*2 = q /\ NoDup (xs ++ (ks ++ ks').*1)
      /\ dom h' = list_to_set (xs ++ (ks ++ ks').*1)
  | None => delete_loop fuel m ctx h hd nh nt = None
  end.
Proof.
  revert fuel h hd nh nt ks; induction rs as [|[p [fn c]] rs IH]; intros fuel h hd nh nt ks Hk Hs Hnd Hdom Hf.
  { cbn in Hs. subst hd. cbn [remove_context fmap list_fmap]. exists h, nh, nt, []. rewrite !app_nil_r in *. by destruct fuel. }
  cbn [seg] in Hs. destruct Hs as (->&nx&Hp&Hs). cbn [fmap list_fmap fst snd remove_context] in *.
  destruct fuel as [|fuel]; [cbn in Hf; lia|]. cbn [delete_loop]. rewrite Hp. cbn [mbind option_bind cb_fn cb_ctx cb_next].
  assert (p ∉ xs /\ p ∉ ks.*1 /\ p ∉ rs.*1) as (Hpx&Hpk&Hpr).
  { rewrite app_assoc in Hnd. apply NoDup_app in Hnd as (_&Hd&Hnd). apply NoDup_cons in Hnd as [Hpr _].
    assert (p ∉ xs ++ ks.*1) as Hn by (intros Hin; apply (Hd p Hin); by left).
    rewrite elem_of_app in Hn. tauto. }
  destruct (for_context m ctx fn c) as [[]|]; cbn [mbind option_bind]; [| |done].
  - (* freed *)
    assert (NoDup (xs ++ ks.*1 ++ rs.*1)) as Hnd'.
    { rewrite app_assoc in *. eapply sublist_NoDup; [exact Hnd|]. apply sublist_app; [done|]. by apply sublist_cons. }
    assert (dom (delete p h) = list_to_set (xs ++ ks.*1 ++ rs.*1)) as Hdom'.
    { rewrite dom_delete_L, Hdom. apply set_eq. intros r. rewrite elem_of_difference, !elem_of_list_to_set, !elem_of_app.
      rewrite elem_of_cons, elem_of_singleton. destruct (decide (r = p)) as [->|]; tauto. }
    pose proof (IH fuel (delete p h) nx nh nt ks
      (kept_same _ (delete p h) _ _ _ ltac:(intros r Hr; apply lookup_delete_ne; intros ->; by apply Hpk) Hk)
      (seg_delete _ _ _ _ _ Hpr Hs) Hnd' Hdom' ltac:(cbn in Hf; lia)) as IH'.
    by destruct (remove_context m ctx rs.*2).
  - (* kept *)
    assert (NoDup (ks.*1 ++ [p])) as Hndk.
    { apply NoDup_app in Hnd as (_&_&Hnd). apply NoDup_app in Hnd as (H1&Hd&_). apply NoDup_app.
      split; [done|]. split; [|by apply NoDup_singleton]. intros r Hr ->%list_elem_of_singleton. by apply Hpk. }
    destruct (kept_snoc h nh nt ks p fn c nx Hk Hndk Hp) as (h'&nh'&E&Hk'&Hd'&Hsame).
    assert (delete_loop fuel m ctx h' nx nh' (Some p)
      = match nh with
        | None => delete_loop fuel m ctx h nx (Some p) (Some p)
        | Some _ => tl ← nt; tn ← h !! tl;
            delete_loop fuel m ctx (<[tl := mkCb (Some p) (cb_fn tn) (cb_ctx tn)]> h) nx nh (Some p)
        end) as <-.
    { destruct nh; [|by injection E as <- <-]. destruct nt as [tl|]; [|done]. cbn [mbind option_bind] in *.
      destruct (h !! tl); [|done]. cbn [mbind option_bind] in *. by injection E as <- <-. }
    pose proof (IH fuel h' nx nh' (Some p) (ks ++ [(p, (fn, c))]) Hk') as IH'. rewrite fmap_app in IH'.
    cbn [fmap list_fmap fst] in IH'. rewrite <- !(app_assoc ks.*1) in IH'. cbn [app] in IH'.
    assert (seg h' nx rs None) as Hs'.
    { eapply seg_same; [|exact Hs]. intros r Hr. apply Hsame. intros Hrk. apply NoDup_app in Hnd as (_&_&Hnd).
      apply NoDup_app in Hnd as (_&Hd&_). apply (Hd r Hrk). by right. }
    specialize (IH' Hs' Hnd ltac:(by rewrite Hd') ltac:(cbn in Hf; lia)).
    destruct (remove_context m ctx rs.*2) as [q|]; cbn [mbind option_bind]; [|done].
    destruct IH' as (h2&nh2&nt2&ks2&E2&Hk2&Hq2&Hnd2&Hdom2).
    exists h2, nh2, nt2, ((p, (fn, c)) :: ks2). rewrite <- app_assoc in *. split_and!; try done. cbn. by rewrite Hq2.
Qed.

(** With [newtail->next = NULL] the kept list is a whole list. *)
Lemma kept_close h nh nt ks :
  kept h nh nt ks -> NoDup ks.*1 ->
  exists h', (match nt with
      | Some tl => n ← h !! tl; Some (<[tl := mkCb None (cb_fn n) (cb_ctx n)]> h)
      | None => Some h
      end) = Some h' /\ seg h' nh ks None /\ dom h' = dom h /\ nt = fst <$> list.last ks.
Proof.
  intros [(->&->&->)|(ks'&p&fn&ctx&nx&->&->&Hs&Hn)] Hnd; [by exists h|]. rewrite Hn. cbn [mbind option_bind cb_fn cb_ctx].
  rewrite fmap_app in Hnd. eexists. split; [done|]. split; [by eapply seg_last|]. split; [by apply dom_insert_lookup_L; eauto|].
  by rewrite last_snoc.
Qed.

(** ** The simulation *)

(** The relation inside a callback: no operation of this module changes [cbcurr]. *)
Definition cb_at (c : option positive) (s : cbstate) (a : aqueue) : Prop := cb_rel s a /\ cbcurr s = c.

Lemma queue_at c s a fn ctx :
  cb_at c s a -> option_Forall2 (cb_at c) (queue_toplevel_callback s fn ctx) (a_queue_cb a fn ctx).
Proof.
  intros [Hr Hc]. destruct (queue_refines s a fn ctx Hr) as (s'&a'&->&->&Hr'&Hc'). constructor. split; [done|congruence].
Qed.

Lemma delete_at c s a ctx :
  cb_at c s a -> option_Forall2 (cb_at c) (delete_callbacks_for_context s ctx) (cq_delete a ctx).
Proof.
  intros [(l&Hseg&Hnd&Htl&Hq&Hb&Hdom&Hrest) Hc]. cbn [cq_delete aqueue_queue]. injection Hrest as En Enc Ei El.
  assert (length l <= size (heap s))%nat as Hf.
  { rewrite <- size_dom, Hdom, size_list_to_set by done. rewrite length_app, length_fmap. lia. }
  pose proof (delete_loop_refines (st_ics s) ctx (curr_list s) (size (heap s)) (heap s) (cbhead s) None None [] l
    ltac:(by left) Hseg Hnd Hdom Hf) as HD.
  unfold delete_callbacks_for_context. rewrite <- Ei, <- Hq.
  destruct (remove_context (st_ics s) ctx l.*2) as [q|]; [|rewrite HD; constructor].
  destruct HD as (h1&nh&nt&ks&->&Hk&Hkq&Hnd1&Hdom1). cbn [app] in *. cbn [mbind option_bind].
  pose proof Hnd1 as Hnd2. apply NoDup_app in Hnd2 as (_&_&Hnd2).
  destruct (kept_close _ _ _ _ Hk Hnd2) as (h2&->&Hs2&Hd2&Hnt). cbn [mbind option_bind]. constructor. split; [|done].
  exists ks. unfold represents, set_list, a_set_queue, curr_list in *.
  cbn [heap cbhead cbtail cbcurr a_queue a_busy a_notify a_notify_ctx a_ics a_notified notify_frontend notify_ctx st_ics notified].
  split_and!; try done; congruence.
Qed.

Lemma ics_at c s a : cb_at c s a -> cq_ics s = cq_ics a.
Proof. intros [(l&_&_&_&_&_&_&Hr) _]. by injection Hr. Qed.

Lemma set_ics_at c s a m : cb_at c s a -> cb_at c (cq_set_ics s m) (cq_set_ics a m).
Proof.
  intros [(l&?&?&?&?&?&?&Hr) Hc]. split; [|done]. exists l. injection Hr as E1 E2 _ E4.
  split_and!; try done. cbn. congruence.
Qed.

Lemma queue_idempotent_at c s a ic :
  cb_at c s a -> option_Forall2 (cb_at c) (queue_idempotent_callback s ic) (queue_idempotent_callback a ic).
Proof.
  intros Hr. unfold queue_idempotent_callback. rewrite (ics_at _ _ _ Hr).
  destruct (cq_ics a !! ic) as [k|]; cbn [mbind option_bind]; [|constructor].
  destruct (ic_queued k); [by constructor|]. apply queue_at, set_ics_at, Hr.
Qed.

Lemma acts_at c s a l : cb_at c s a -> option_Forall2 (cb_at c) (acts s l) (acts a l).
Proof.
  revert s a; induction l as [|x l IH]; intros s a Hr; cbn [acts]; [by constructor|].
  assert (option_Forall2 (cb_at c) (act s x) (act a x)) as [s' a' H|]; [|by apply IH|constructor].
  destruct x; cbn [act]; [by apply queue_at|by apply queue_idempotent_at|by apply delete_at].
Qed.

Lemma call_at c s a fn ctx body : cb_at c s a -> option_Forall2 (cb_at c) (call s fn ctx body) (call a fn ctx body).
Proof.
  intros Hr. destruct fn; cbn [call]; [|by apply acts_at]. rewrite (ics_at _ _ _ Hr).
  destruct (cq_ics a !! ctx); cbn [mbind option_bind]; [|constructor]. by apply acts_at, set_ics_at.
Qed.

(** Starting and ending a callback. *)
Lemma curr_start s a p fn ctx nx l q :
  represents s a ((p, (fn, ctx)) :: l) -> cbcurr s = None -> heap s !! p = Some (mkCb nx fn ctx) -> a_queue a = (fn, ctx) :: q ->
  cb_at (Some p) (set_list s (heap s) (Some p) nx (match nx with None => None | Some _ => cbtail s end)) (a_set_queue a q true).
Proof.
  intros (Hseg&Hnd&Htl&Hq&Hb&Hdom&Hrest) Hc Hp Ha. split; [|done]. exists l. unfold represents, curr_list in *.
  rewrite Hc in *. cbn [seg] in Hseg. destruct Hseg as (_&nx'&Hp'&Hs). rewrite Hp in Hp'. injection Hp' as <-.
  cbn [set_list a_set_queue heap cbhead cbtail cbcurr a_queue a_busy a_notify a_notify_ctx a_ics a_notified notify_frontend notify_ctx st_ics notified].
  split_and!; try done.
  - rewrite Htl. pose proof (seg_head _ _ _ Hs) as ->. by destruct l as [|[??] ?].
  - rewrite Ha in Hq. by injection Hq.
Qed.

Lemma curr_end s a p :
  cb_at (Some p) s a ->
  is_Some (heap s !! p) /\ cb_at None (set_list s (delete p (heap s)) None (cbhead s) (cbtail s)) (a_set_queue a (a_queue a) false).
Proof.
  intros [(l&Hseg&Hnd&Htl&Hq&Hb&Hdom&Hrest) Hc]. unfold curr_list in *. rewrite Hc in *. cbn [app] in *.
  apply NoDup_cons in Hnd as [Hpl Hnd]. split; [apply elem_of_dom; rewrite Hdom; set_solver|]. split; [|done]. exists l.
  unfold represents, curr_list.
  cbn [set_list a_set_queue heap cbhead cbtail cbcurr a_queue a_busy a_notify a_notify_ctx a_ics a_notified notify_frontend notify_ctx st_ics notified].
  split_and!; try done; [by apply seg_delete|]. rewrite dom_delete_L, Hdom. cbn [list_to_set app].
  assert (p ∉ (list_to_set l.*1 : gset positive)) by by rewrite elem_of_list_to_set. set_solver.
Qed.

Definition cb_res : cbstate * cb_out -> aqueue * cb_out -> Prop := fun x y => cb_at None x.1 y.1 /\ x.2 = y.2.

Lemma run_step s a body : cb_at None s a -> option_Forall2 cb_res (cb_step s (OpRun body)) (a_step a (OpRun body)).
Proof.
  intros [(l&Hrep) Hc]. cbn [cb_step a_step]. unfold run_toplevel_callbacks.
  pose proof Hrep as (Hseg&_&_&Hq&_). destruct l as [|[p [fn ctx]] l]; cbn [seg] in Hseg; cbn in Hq; rewrite <- Hq.
  - rewrite Hseg. constructor. split; [|done]. split; [by exists []|done].
  - destruct Hseg as (->&nx&Hp&Hs). rewrite Hp. cbn [mbind option_bind cb_next cb_fn cb_ctx].
    pose proof (call_at _ _ _ fn ctx body (curr_start s a p fn ctx nx l l.*2 Hrep Hc Hp (eq_sym Hq))) as HC.
    destruct HC as [s' a' Hat|]; cbn [mbind option_bind]; [|constructor].
    destruct (curr_end _ _ _ Hat) as [[n Hn] Hend]. rewrite (proj2 Hat). cbn [mbind option_bind]. rewrite Hn.
    cbn [mbind option_bind]. by constructor.
Qed.

Lemma cb_step_at s a op : cb_at None s a -> option_Forall2 cb_res (cb_step s op) (a_step a op).
Proof.
  assert (forall (r : option cbstate) (r' : option aqueue), option_Forall2 (cb_at None) r r' ->
    option_Forall2 cb_res (s' ← r; Some (s', Done)) (a' ← r'; Some (a', Done))) as Hdone.
  { intros r r' []; constructor. by split. }
  intros Hat. destruct op as [f ctx|ic|ctx|body| |fn ctx].
  - by apply Hdone, queue_at.
  - by apply Hdone, queue_idempotent_at.
  - by apply Hdone, delete_at.
  - by apply run_step.
  - constructor. split; [done|]. cbn. destruct Hat as [(l&Hseg&_&_&Hq&Hb&_) Hc]. apply seg_head in Hseg.
    unfold toplevel_callback_pending. rewrite Hc, Hseg, <- Hq in *. rewrite <- Hb. by destruct l.
  - constructor. split; [|done]. destruct Hat as [(l&?&?&?&?&?&?&Hr) Hc]. split; [|done]. exists l. injection Hr as _ _ E3 E4.
    split_and!; try done. cbn. congruence.
Qed.

Definition a_init (m : ics) : aqueue := mkQueue [] false None 0 m [].

Lemma init_at m : cb_at None (cb_init m) (a_init m).
Proof. split; [|done]. exists []. split_and!; try done. by constructor. Qed.

(** C16. Refinement: whatever is queued, deleted and run, and whatever the callbacks
    themselves queue and delete while they run, the linked list gives the answers of a
    plain FIFO list (the callbacks run in the order they were queued, less those deleted,
    with the same notifications to the front end), and after any sequence of operations the heap holds exactly
    the nodes of the queue.  Neither follows a dead pointer unless the other reads an
    idempotent callback that does not exist. *)
Theorem callback_refines_queue m ops :
  option_Forall2 (fun x y => cb_at None x.1 y.1 /\ x.2 = y.2)
    (run_ops cb_step (cb_init m) ops) (run_ops a_step (a_init m) ops).
Proof. apply (run_ops_sim (cb_at None)); [apply cb_step_at|apply init_at]. Qed.

(** ** Idempotent callbacks *)

Definition idem (x : cbfn * Z) : option Z := match x.1 with run_idempotent_callback => Some x.2 | client_fn _ => None end.

(** Every idempotent callback in the queue is there once, and is marked as queued. *)
Definition idem_ok (D : gset Z) (a : aqueue) : Prop :=
  dom (a_ics a) = D /\ NoDup (omap idem (a_queue a))
  /\ forall ic, ic ∈ omap idem (a_queue a) -> exists c, a_ics a !! ic = Some c /\ ic_queued c = true.

(** An operation that names only idempotent callbacks that exist. *)
Definition action_good (D : gset Z) (x : action) : Prop := match x with AQueueIdempotent ic => ic ∈ D | _ => True end.
Definition op_good (D : gset Z) (op : cb_op) : Prop :=
  match op with OpQueueIdempotent ic => ic ∈ D | OpRun body => Forall (action_good D) body | _ => True end.

Lemma queue_client_idem D a f ctx : idem_ok D a -> exists a', a_queue_cb a (client_fn f) ctx = Some a' /\ idem_ok D a'.
Proof.
  intros (Hd&Hn&Hq). eexists. split; [done|]. unfold idem_ok. cbn. rewrite omap_app. cbn. by rewrite app_nil_r.
Qed.

(** Setting the flag of one callback, and having it in the queue only if it is set. *)
Lemma set_flag_idem D a ic c b :
  idem_ok D a -> a_ics a !! ic = Some c -> (b = false -> ic ∉ omap idem (a_queue a)) ->
  idem_ok D (cq_set_ics a (<[ic := mkIC (ic_fn c) (ic_ctx c) b]> (a_ics a))).
Proof.
  intros (Hd&Hn&Hq) Hc Hb. unfold idem_ok. cbn. split_and!; [by rewrite dom_insert_lookup_L|done|].
  intros k Hk. destruct (decide (k = ic)) as [->|]; [|rewrite lookup_insert_ne by done; by apply Hq].
  rewrite lookup_insert_eq. eexists. split; [done|]. destruct b; [done|]. by destruct (Hb eq_refl).
Qed.

Lemma queue_idempotent_idem D a ic :
  idem_ok D a -> ic ∈ D -> exists a', queue_idempotent_callback a ic = Some a' /\ idem_ok D a'.
Proof.
  intros Hok Hic. pose proof Hok as (Hd&Hn&Hq). unfold queue_idempotent_callback. cbn [cq_ics aqueue_queue].
  rewrite <- Hd in Hic. apply elem_of_dom in Hic as [c Hc]. rewrite Hc. cbn [mbind option_bind].
  destruct (ic_queued c) eqn:E; [eauto|]. eexists. split; [done|].
  destruct (set_flag_idem D a ic c true Hok Hc ltac:(done)) as (Hd'&Hn'&Hq'). unfold idem_ok. cbn in *. rewrite omap_app. cbn.
  assert (ic ∉ omap idem (a_queue a)) as Hni by (intros (c'&?&?)%Hq; congruence).
  split_and!; [done| |].
  - apply NoDup_app. split; [done|]. split; [|apply NoDup_singleton]. by intros x Hx ->%list_elem_of_singleton.
  - intros k [Hk| ->%list_elem_of_singleton]%elem_of_app; [by apply Hq'|]. rewrite lookup_insert_eq. by eexists.
Qed.

(** Deleting succeeds, and leaves a sublist. *)
Lemma remove_context_sublist m ctx q :
  (forall ic, ic ∈ omap idem q -> is_Some (m !! ic)) -> exists q', remove_context m ctx q = Some q' /\ q' `sublist_of` q.
Proof.
  induction q as [|[fn c] q IH]; intros Hm; [by exists []|]. cbn [remove_context].
  destruct IH as (q'&->&Hs). { intros ic Hic. apply Hm. cbn. destruct (idem (fn, c)); [by right|done]. }
  assert (exists b, for_context m ctx fn c = Some b) as [b ->].
  { unfold for_context. destruct (c =? ctx); [eauto|]. destruct fn; [|eauto].
    destruct (Hm c) as [k ->]; [by left|]. cbn. eauto. }
  cbn [mbind option_bind]. eexists. split; [done|]. destruct b; by constructor.
Qed.

Lemma sublist_omap {A B} (f : A -> option B) l k : l `sublist_of` k -> omap f l `sublist_of` omap f k.
Proof. induction 1; cbn; [done| |]; destruct (f x); by try constructor. Qed.

Lemma delete_idem D a ctx : idem_ok D a -> exists a', cq_delete a ctx = Some a' /\ idem_ok D a'.
Proof.
  intros (Hd&Hn&Hq). destruct (remove_context_sublist (a_ics a) ctx (a_queue a)) as (q'&E&Hs).
  { intros ic (c&Hc&_)%Hq. eauto. }
  cbn [cq_delete aqueue_queue]. rewrite E. cbn [mbind option_bind]. eexists. split; [done|]. unfold idem_ok. cbn.
  apply (sublist_omap idem) in Hs. split_and!; [done|by eapply sublist_NoDup|].
  intros ic Hic. apply Hq. by eapply elem_of_sublist.
Qed.

Lemma acts_idem D a l : idem_ok D a -> Forall (action_good D) l -> exists a', acts a l = Some a' /\ idem_ok D a'.
Proof.
  revert a; induction l as [|x l IH]; intros a Hok Hl; cbn [acts]; [eauto|]. apply Forall_cons in Hl as [Hx Hl].
  assert (exists a1, act a x = Some a1 /\ idem_ok D a1) as (a1&->&Hok1).
  { destruct x; cbn [act]; [by apply queue_client_idem|by apply queue_idempotent_idem|by apply delete_idem]. }
  by apply IH.
Qed.

Lemma a_step_idem D a op : idem_ok D a -> op_good D op -> exists a' o, a_step a op = Some (a', o) /\ idem_ok D a'.
Proof.
  intros Hok Hop. destruct op as [f ctx|ic|ctx|body| |fn ctx]; cbn [a_step op_good] in *; [| | | |eauto|by eauto].
  - destruct (queue_client_idem D a f ctx Hok) as (a'&E&?). exists a', Done. cbn [cq_queue aqueue_queue]. by rewrite E.
  - destruct (queue_idempotent_idem D a ic Hok Hop) as (a'&->&?). by exists a', Done.
  - destruct (delete_idem D a ctx Hok) as (a'&->&?). by exists a', Done.
  - pose proof Hok as (Hd&Hn&Hq). destruct (a_queue a) as [|[fn ctx] q] eqn:Eq; [by eauto|].
    assert (exists a', call (a_set_queue a q true) fn ctx body = Some a' /\ idem_ok D a') as (a'&->&Hok').
    { destruct fn as [|f]; cbn [call].
      - cbn in Hn. apply NoDup_cons in Hn as [Hni Hn]. destruct (Hq ctx) as (c&Hc&_); [by left|].
        cbn [cq_ics aqueue_queue a_set_queue a_ics]. rewrite Hc. cbn [mbind option_bind]. apply acts_idem; [|done].
        apply (set_flag_idem D (a_set_queue a q true)); [|done|done]. split_and!; [done|done|].
        intros ic Hic. apply Hq. by right.
      - by apply acts_idem. }
    cbn [mbind option_bind]. eexists _, _. split; [done|]. exact Hok'.
Qed.

(** Invariant: as long as the idempotent callbacks named exist, no operation fails, and an
    idempotent callback is never in the queue twice, however often it is queued, by the
    program or by callbacks that are running; one that is in the queue has [queued] set. *)
Theorem idempotent_callback_once m ops :
  Forall (op_good (dom m)) ops ->
  exists s outs l, run_ops cb_step (cb_init m) ops = Some (s, outs) /\ seg (heap s) (cbhead s) l None
    /\ NoDup (omap idem l.*2)
    /\ forall ic, ic ∈ omap idem l.*2 -> exists c, st_ics s !! ic = Some c /\ ic_queued c = true.
Proof.
  intros Hops. destruct (run_ops_total (idem_ok (dom m)) (op_good (dom m)) a_step) with (ops := ops) (s := a_init m)
    as (a&outs&E&Hd&Hn&Hq); [apply a_step_idem|split_and!; [done|by constructor|by intros ? ?%elem_of_nil]|done|].
  pose proof (run_ops_sim (cb_at None) cb_step a_step cb_step_at ops (cb_init m) (a_init m) (init_at m)) as HS.
  rewrite E in HS. inversion HS as [[s o] ? [Hat Ho] E1|]; subst. cbn in Ho; subst o.
  destruct Hat as [(l&Hseg&_&_&Hl&_&_&Hr) _]. cbn in *. rewrite <- Hl in *. exists s, outs, l. injection Hr as _ _ -> _. done.
Qed.


(** A deleted idempotent callback keeps its [queued] flag, and can not be queued again. *)
Example deleted_callback_stays_queued :
  let m : ics := {[ 50 := mkIC 7 5 false ]} in
  option_map snd (run_ops cb_step (cb_init m) [OpQueueIdempotent 50; OpDelete 5; OpQueueIdempotent 50; OpRun []])
  = Some [Done; Done; Done; Ran None].
Proof. vm_compute. reflexivity. Qed.
