(* ===== verification/Timing.v ===== *)
(** * Timers (timing.c)

    The pending timers are a 2-3-4 tree whose comparison function reads the global clock
    [now]: the times are unsigned numbers that wrap around, and what is compared is their
    signed distance from [now].  So the order the tree is searched by changes with every
    reading of the clock; the model replaces the comparison function in the tree
    accordingly ([at_now]).  A second tree holds the contexts that are alive.

    [unsigned long] has [W] bits (64 on Unix, 32 on Windows).  An operation carries the
    true times [GETTICKCOUNT] is called at, as unbounded integers; the code sees them
    modulo [2 ^ W].  Two agendas, lists sorted by true time, say what this amounts to:
    [agenda] keeps the timers of an expired context as the code does, and [dagenda] is the
    contract of putty.h, in which expiring a context drops its timers at once.
    [timers_refine_agenda] is the refinement of the contract and [run_timers_terminates]
    the termination of a run in which timer functions set timers; [run_timers_runs_due]
    says exactly which functions a run calls.

    A timer has the address of its [struct timer], which the code compares. *)

From stdpp Require Import gmap sorting.
From S2P Require Import Prelude Memory Tree234 SortedSet.
Open Scope Z_scope.

Record timer := mkTimer { t_addr : Z; t_fn : Z; t_ctx : Z; t_now : Z; t_when_set : Z }.

(** What a timer function may do when it is called. *)
Inductive taction := TSchedule (clock ticks fn ctx : Z) | TExpire (clock ctx : Z).

Fixpoint tacts {S} (sched : S -> Z -> Z -> Z -> Z -> option (S * Z)) (expire : S -> Z -> Z -> option S)
    (s : S) (l : list taction) : option S :=
  match l with
  | [] => Some s
  | TSchedule clock ticks fn ctx :: l => '(s, _) ← sched s clock ticks fn ctx; tacts sched expire s l
  | TExpire clock ctx :: l => s ← expire s clock ctx; tacts sched expire s l
  end.

(** The function called next does what the next element of the list says; a run that
    calls more functions than there are elements has no result ([None]). *)
Definition uncons {A} (l : list A) : option (A * list A) := match l with [] => None | x :: l => Some (x, l) end.

(** The number of timers a run can meet: those pending, and those its callbacks add. *)
Definition is_schedule (a : taction) : bool := match a with TSchedule _ _ _ _ => true | TExpire _ _ => false end.
Definition schedules (bodies : list (list taction)) : nat := length (List.filter is_schedule (concat bodies)).

Section Code.
Context (W : Z).

(** Conversion of an [unsigned long] to [long]. *)
Definition to_long (x : Z) : Z := if x <? 2 ^ (W - 1) then x else x - 2 ^ W.

(** Function pointers are compared as numbers (the branch for compilers other than lcc and clang). *)
Definition compare_timers (now : Z) (a b : timer) : Z :=
  let at_ := to_long (wrap W (t_now a - now)) in
  let bt := to_long (wrap W (t_now b - now)) in
  if at_ <? bt then -1
  else if bt <? at_ then 1
  else if t_fn a <? t_fn b then -1
  else if t_fn b <? t_fn a then 1
  else if t_ctx a <? t_ctx b then -1
  else if t_ctx b <? t_ctx a then 1
  else 0.

Definition compare_timer_contexts (a b : Z) : Z := if a <? b then -1 else if b <? a then 1 else 0.

Record tstate := mkTs {
  timers : option (tree234 timer);
  timer_contexts : option (tree234 Z);
  now : Z;
  next_addr : Z;           (* the next address the allocator gives out *)
  notified : list Z        (* the calls of [timer_change_notify] *)
}.

(** [compare_timers] reads the value [now] has when the tree is searched. *)
Definition at_now (now : Z) (t : tree234 timer) : tree234 timer := mkTree (root t) (Some (compare_timers now)).

Definition init_timers (s : tstate) (clock : Z) : tstate :=
  match timers s with
  | None => mkTs (Some (ss_new (compare_timers (wrap W clock)))) (Some (ss_new compare_timer_contexts)) (wrap W clock)
              (next_addr s) (notified s)
  | Some _ => s
  end.

Definition schedule_timer (s : tstate) (clock ticks fn ctx : Z) : option (tstate * Z) :=
  let s := init_timers s clock in
  let now := wrap W clock in
  let when := wrap W (ticks + now) in
  let when := if wrap W (when - now) <=? 0 then wrap W (now + 1) else when in
  let t := mkTimer (next_addr s) fn ctx when now in
  tree ← timers s;
  contexts ← timer_contexts s;
  '(tree, r) ← ss_add (at_now now tree) t;
  r ← r;
  contexts ← (if negb (t_addr t =? t_addr r) then Some contexts
              else '(contexts, _) ← ss_add contexts (t_ctx t); Some contexts);
  let log := match ss_index tree 0 with
             | Some first => if t_addr first =? t_addr t then notified s ++ [t_now first] else notified s
             | None => notified s
             end in
  Some (mkTs (Some tree) (Some contexts) now (next_addr s + 1) log, when).

Definition timing_last_clock (s : tstate) : Z := now s.

Definition expire_timer_context (s : tstate) (clock ctx : Z) : option tstate :=
  let s := init_timers s clock in
  contexts ← timer_contexts s;
  '(contexts, _) ← ss_del contexts ctx;
  Some (mkTs (timers s) (Some contexts) (now s) (next_addr s) (notified s)).

Definition set_timers (s : tstate) (tree : tree234 timer) : tstate :=
  mkTs (Some tree) (timer_contexts s) (now s) (next_addr s) (notified s).

(** The condition for running a timer. *)
Definition due (s : tstate) (first : timer) : bool :=
  wrap W (t_now first - wrap W (t_when_set first - 10)) <? wrap W (now s - wrap W (t_when_set first - 10)).

(** The [while (1)] loop: the state, the calls made, and [next] if there is one.  The
    timer functions called perform [bodies], in the order they are called; a result means
    that the loop ended within them. *)
Fixpoint run_loop (fuel : nat) (s : tstate) (bodies : list (list taction)) (calls : list (Z * Z * Z))
  : option (tstate * list (Z * Z * Z) * option Z) :=
  tree ← timers s;
  contexts ← timer_contexts s;
  match ss_index tree 0, fuel with
  | None, _ => Some (s, calls, None)
  | Some first, fuel =>
      found ← ss_find contexts (t_ctx first);
      match found, due s first, fuel with
      | Some _, false, _ => Some (s, calls, Some (t_now first))
      | _, _, O => None
      | None, _, S fuel =>
          '(tree, _) ← ss_delpos (at_now (now s) tree) 0;
          run_loop fuel (set_timers s tree) bodies calls
      | Some _, true, S fuel =>
          '(tree, _) ← ss_delpos (at_now (now s) tree) 0;
          '(body, bodies) ← uncons bodies;
          s ← tacts schedule_timer expire_timer_context (set_timers s tree) body;
          run_loop fuel s bodies (calls ++ [(t_fn first, t_ctx first, t_now first)])
      end
  end.

(** The argument [anow] is not used. *)
Definition run_timers (s : tstate) (clock : Z) (bodies : list (list taction)) : option (tstate * list (Z * Z * Z) * option Z) :=
  let s := init_timers s clock in
  let s := mkTs (timers s) (timer_contexts s) (wrap W clock) (next_addr s) (notified s) in
  tree ← timers s;
  run_loop (Z.to_nat (ss_count tree) + schedules bodies) s bodies [].

Inductive timer_op :=
| OSchedule (clock ticks fn ctx : Z) | OExpire (clock ctx : Z) | ORun (clock : Z) (bodies : list (list taction)) | OLastClock.
Inductive timer_out := TDone | TWhen (when : Z) | TRan (calls : list (Z * Z * Z)) (next : option Z).

Definition timer_step (s : tstate) (op : timer_op) : option (tstate * timer_out) :=
  match op with
  | OSchedule clock ticks fn ctx => '(s, when) ← schedule_timer s clock ticks fn ctx; Some (s, TWhen when)
  | OExpire clock ctx => s ← expire_timer_context s clock ctx; Some (s, TDone)
  | ORun clock bodies => '(s, calls, next) ← run_timers s clock bodies; Some (s, TRan calls next)
  | OLastClock => Some (s, TWhen (timing_last_clock s))
  end.

Definition timers_init : tstate := mkTs None None 0 0 [].
End Code.

(** With 32-bit ticks, across the wrap-around. *)
Example timer_examples :
  let c := 2 ^ 32 - 20 in
  option_map snd (run_ops (timer_step 32) timers_init
    [OSchedule c 50 1 7; OSchedule c 10 2 7; OSchedule c 50 3 8; ORun (c + 5) []; OExpire c 8; ORun (c + 11) [[TSchedule (c + 11) 0 4 7]];
     ORun (c + 60) [[]; []]; OLastClock])
  = Some [TWhen 30; TWhen (2 ^ 32 - 10); TWhen 30; TRan [] (Some (2 ^ 32 - 10)); TDone; TRan [(2, 7, 2 ^ 32 - 10)] (Some (2 ^ 32 - 8));
          TRan [(4, 7, 2 ^ 32 - 8); (1, 7, 30)] None; TWhen 40].
Proof. vm_compute. reflexivity. Qed.

(** ** The code in true time: an agenda that forgets expired timers only when it meets them *)

Record atimer := mkA { a_fn : Z; a_ctx : Z; a_time : Z; a_set : Z }.

Definition acmp (x y : atimer) : Z :=
  if a_time x <? a_time y then -1
  else if a_time y <? a_time x then 1
  else if a_fn x <? a_fn y then -1
  else if a_fn y <? a_fn x then 1
  else if a_ctx x <? a_ctx y then -1
  else if a_ctx y <? a_ctx x then 1
  else 0.

Record agenda := mkAgenda {
  ag_started : bool;
  ag_timers : list atimer;      (* sorted by [acmp] *)
  ag_live : gset Z;             (* the contexts alive *)
  ag_now : Z;
  ag_notified : list Z
}.

Section Agenda.
Context (W : Z).

(** The code can tell the times apart: no pending timer is half the range of the clock away. *)
Definition in_window (N : Z) (x : atimer) : bool :=
  (a_time x - N <? 2 ^ (W - 1)) && (N - a_time x <=? 2 ^ (W - 1)) && (N - a_set x + 10 <? 2 ^ W).

Definition add_timer (x : atimer) (l : list atimer) : list atimer :=
  List.filter (fun y => acmp y x <? 0) l ++ x :: List.filter (fun y => acmp x y <? 0) l.

Definition a_schedule (a : agenda) (N ticks fn ctx : Z) : option (agenda * Z) :=
  if (0 <=? ticks) && (ticks <=? INT_MAX) && forallb (in_window N) (ag_timers a) then
    let T := if ticks =? 0 then N + 1 else N + ticks in
    let x := mkA fn ctx T N in
    if existsb (fun y => acmp x y =? 0) (ag_timers a)
    then Some (mkAgenda true (ag_timers a) (ag_live a) N (ag_notified a), wrap W T)
    else
      let log := if forallb (fun y => acmp x y <? 0) (ag_timers a) then ag_notified a ++ [wrap W T] else ag_notified a in
      Some (mkAgenda true (add_timer x (ag_timers a)) ({[ctx]} ∪ ag_live a) N log, wrap W T)
  else None.

Definition a_expire (a : agenda) (N ctx : Z) : option agenda :=
  Some (mkAgenda true (ag_timers a) (ag_live a ∖ {[ctx]}) (if ag_started a then ag_now a else N) (ag_notified a)).

(** Past its time, or the clock has gone back to before it was set. *)
Definition a_due (N : Z) (x : atimer) : bool := (a_time x <? N) || (N <? a_set x - 10).

Definition a_rest (a : agenda) (l : list atimer) : agenda :=
  mkAgenda (ag_started a) l (ag_live a) (ag_now a) (ag_notified a).

Fixpoint a_run_loop (fuel : nat) (a : agenda) (bodies : list (list taction)) (calls : list (Z * Z * Z))
  : option (agenda * list (Z * Z * Z) * option Z) :=
  match ag_timers a, fuel with
  | [], _ => Some (a, calls, None)
  | x :: l, fuel =>
      match bool_decide (a_ctx x ∈ ag_live a), a_due (ag_now a) x, fuel with
      | true, false, _ => Some (a, calls, Some (wrap W (a_time x)))
      | _, _, O => None
      | false, _, S fuel => a_run_loop fuel (a_rest a l) bodies calls
      | true, true, S fuel =>
          '(body, bodies) ← uncons bodies;
          a ← tacts a_schedule a_expire (a_rest a l) body;
          a_run_loop fuel a bodies (calls ++ [(a_fn x, a_ctx x, wrap W (a_time x))])
      end
  end.

Definition a_run (a : agenda) (N : Z) (bodies : list (list taction)) : option (agenda * list (Z * Z * Z) * option Z) :=
  if forallb (in_window N) (ag_timers a) then
    a_run_loop (length (ag_timers a) + schedules bodies) (mkAgenda true (ag_timers a) (ag_live a) N (ag_notified a)) bodies []
  else None.


End Agenda.

(** ** Comparison *)

(** A three-way comparison of a list of keys. *)
Definition key_cmp (a b : Z * Z * Z) : Z :=
  if a.1.1 <? b.1.1 then -1
  else if b.1.1 <? a.1.1 then 1
  else if a.1.2 <? b.1.2 then -1
  else if b.1.2 <? a.1.2 then 1
  else if a.2 <? b.2 then -1
  else if b.2 <? a.2 then 1
  else 0.

Lemma key_cmp_total : TotalCmp key_cmp.
Proof.
  split.
  - intros [[a1 a2] a3] [[b1 b2] b3]. unfold key_cmp. cbn. repeat bcase; cbn; lia.
  - intros [[a1 a2] a3] [[b1 b2] b3] [[c1 c2] c3]. unfold key_cmp. cbn. repeat bcase; lia.
Qed.

Lemma total_by {A B} (f : A -> B) (c : B -> B -> Z) : TotalCmp c -> TotalCmp (fun x y => c (f x) (f y)).
Proof. intros Hc. split; intros; [apply cmp_antisym|by eapply cmp_trans]. Qed.

#[export] Instance compare_timers_total W n : TotalCmp (compare_timers W n).
Proof. exact (total_by (fun a => (to_long W (wrap W (t_now a - n)), t_fn a, t_ctx a)) key_cmp key_cmp_total). Qed.

#[export] Instance acmp_total : TotalCmp acmp.
Proof. exact (total_by (fun x => (a_time x, a_fn x, a_ctx x)) key_cmp key_cmp_total). Qed.

#[export] Instance compare_contexts_total : TotalCmp compare_timer_contexts.
Proof. unfold compare_timer_contexts. split; intros *; repeat bcase; cbn; lia. Qed.

Lemma compare_contexts_eq a b : compare_timer_contexts a b = 0 <-> a = b.
Proof. unfold compare_timer_contexts. repeat bcase; lia. Qed.

Section Refine.
Context (W : Z) (HW : 32 <= W).

Lemma range_split : 2 ^ W = 2 * 2 ^ (W - 1) /\ 2 ^ 31 <= 2 ^ (W - 1).
Proof using HW.
  split; [|apply Z.pow_le_mono_r; lia]. replace W with (Z.succ (W - 1)) at 1 by lia. apply Z.pow_succ_r. lia.
Qed.

(** The signed distance from [now] is the true distance. *)
Lemma to_long_wrap d : - 2 ^ (W - 1) <= d < 2 ^ (W - 1) -> to_long W (wrap W d) = d.
Proof using HW.
  destruct range_split as [E1 E2]. intros Hd. unfold to_long, wrap. rewrite E1. set (h := 2 ^ (W - 1)) in *.
  assert (d mod (2 * h) = if d <? 0 then d + 2 * h else d) as ->.
  { bcase; symmetry; [apply (Z.mod_unique_pos _ _ (-1))|apply (Z.mod_unique_pos _ _ 0)]; lia. }
  repeat bcase; lia.
Qed.

Lemma wrap_sub a b : wrap W (wrap W a - wrap W b) = wrap W (a - b).
Proof. unfold wrap. by rewrite Zminus_mod_idemp_l, Zminus_mod_idemp_r. Qed.

Lemma time_distance T N :
  T - N < 2 ^ (W - 1) -> N - T <= 2 ^ (W - 1) -> to_long W (wrap W (wrap W T - wrap W N)) = T - N.
Proof using HW. intros. rewrite wrap_sub. apply to_long_wrap. lia. Qed.

(** ** The representation *)

Definition timer_rel (t : timer) (x : atimer) : Prop :=
  t_fn t = a_fn x /\ t_ctx t = a_ctx x /\ t_now t = wrap W (a_time x) /\ t_when_set t = wrap W (a_set x).

(** Timers are set for the next [INT_MAX] ticks. *)
Definition set_ahead (x : atimer) : Prop := 0 < a_time x - a_set x <= INT_MAX.

Lemma compare_refines N t u x y :
  timer_rel t x -> timer_rel u y -> in_window W N x = true -> in_window W N y = true ->
  compare_timers W (wrap W N) t u = acmp x y.
Proof using HW.
  intros (E1&E2&E3&E4) (F1&F2&F3&F4) Hx Hy. unfold in_window in *. bsimpl.
  unfold compare_timers, acmp. rewrite E1, E2, E3, F1, F2, F3, !time_distance by done. repeat bcase; lia.
Qed.

Lemma due_refines s t x :
  timer_rel t x -> set_ahead x -> in_window W (ag_now s) x = true -> forall c, now c = wrap W (ag_now s) ->
  due W c t = a_due (ag_now s) x.
Proof using HW.
  intros (E1&E2&E3&E4) Ha Hx c Hc. unfold in_window in Hx. bsimpl. unfold due, a_due, set_ahead, INT_MAX in *.
  rewrite E3, E4, Hc. assert (forall v, wrap W (wrap W v - wrap W (wrap W (a_set x) - 10)) = wrap W (v - a_set x + 10)) as Hv.
  { intros v. unfold wrap. rewrite Zminus_mod_idemp_l, Zminus_mod_idemp_l, Zminus_mod_idemp_r. f_equal. lia. }
  rewrite !Hv. destruct range_split as [R1 R2]. unfold wrap. rewrite R1 in *. set (h := 2 ^ (W - 1)) in *.
  rewrite (Z.mod_small (a_time x - a_set x + 10)) by lia. set (N := ag_now s) in *.
  destruct (Z.lt_ge_cases (N - a_set x + 10) 0).
  - rewrite <- (Z.mod_unique_pos (N - a_set x + 10) (2 * h) (-1) (N - a_set x + 10 + 2 * h)) by lia.
    repeat bcase; cbn; lia.
  - rewrite (Z.mod_small (N - a_set x + 10)) by lia. repeat bcase; cbn; lia.
Qed.

Abbreviation window N := (Forall (fun x => in_window W N x = true)).

Lemma sorted_refines N ts xs :
  Forall2 timer_rel ts xs -> window N xs -> sorted (compare_timers W (wrap W N)) ts <-> sorted acmp xs.
Proof using HW.
  unfold sorted. induction 1 as [|t x ts xs Hr Hrs IH]; intros Hw; [split; constructor|].
  apply Forall_cons in Hw as [Hwx Hw]. specialize (IH Hw).
  assert (Forall (fun u => compare_timers W (wrap W N) t u < 0) ts <-> Forall (fun y => acmp x y < 0) xs) as Hf.
  { clear IH. induction Hrs as [|u y ts xs Hu Hrs IH]; [split; constructor|]. apply Forall_cons in Hw as [Hwy Hw].
    rewrite !Forall_cons, (IH Hw), (compare_refines N t u x y) by done. done. }
  split; intros Hs; inversion Hs; subst; constructor; tauto.
Qed.

Definition rel_trees (tree : tree234 timer) (contexts : tree234 Z) (next : Z) (a : agenda) : Prop :=
  tree_ok tree /\ Forall2 timer_rel (elements tree) (ag_timers a) /\ sorted acmp (ag_timers a)
  /\ Forall set_ahead (ag_timers a) /\ window (ag_now a) (ag_timers a)
  /\ Forall (fun t => t_addr t < next) (elements tree)
  /\ sorted_tree compare_timer_contexts contexts /\ (forall c, c ∈ elements contexts <-> c ∈ ag_live a).

Definition timers_rel (s : tstate) (a : agenda) : Prop :=
  match timers s, timer_contexts s with
  | Some tree, Some contexts => ag_started a = true /\ rel_trees tree contexts (next_addr s) a
  | None, None => ag_started a = false /\ ag_timers a = [] /\ ag_live a = ∅
  | _, _ => False
  end /\ now s = wrap W (ag_now a) /\ notified s = ag_notified a.

(** The tree searched with the current clock. *)
Lemma at_now_ok tree xs N :
  tree_ok tree -> Forall2 timer_rel (elements tree) xs -> sorted acmp xs -> window N xs ->
  sorted_tree (compare_timers W (wrap W N)) (at_now W (wrap W N) tree).
Proof using HW. intros Hok H2 Hs Hw. split; [done|]. split; [done|]. by apply (sorted_refines N _ xs). Qed.

(** After [init_timers] both trees exist. *)
Lemma init_rel s a N :
  timers_rel s a ->
  exists tree contexts, init_timers W s N = mkTs (Some tree) (Some contexts)
      (if ag_started a then now s else wrap W N) (next_addr s) (notified s)
    /\ rel_trees tree contexts (next_addr s) (mkAgenda true (ag_timers a) (ag_live a) (if ag_started a then ag_now a else N) (ag_notified a)).
Proof using HW.
  intros (Hm&Hn&Hl). unfold init_timers. destruct s as [[tree|] [contexts|] nw na nt]; cbn in *; try done.
  - destruct Hm as (Es&Hr). rewrite Es. eexists _, _. split; [done|]. exact Hr.
  - destruct Hm as (Es&Et&El). rewrite Es, Et, El. eexists _, _. split; [done|]. unfold rel_trees. cbn.
    pose proof (@ss_new_spec _ _ _ _ (tree234_set_laws timer (compare_timers W 0))) as [(H1&_) _].
    pose proof (@ss_new_spec _ _ _ _ (tree234_set_laws Z compare_timer_contexts)) as [H2 _].
    split_and!; try done; try constructor. all: set_solver.
Qed.

Lemma filter_split {A} (p : A -> bool) l1 l2 :
  Forall (fun x => p x = true) l1 -> Forall (fun x => p x = false) l2 -> List.filter p (l1 ++ l2) = l1.
Proof.
  intros H1 H2. rewrite List.filter_app.
  assert (List.filter p l2 = []) as -> by (induction H2 as [|x l Hx _ IH]; cbn; [done|by rewrite Hx]).
  rewrite app_nil_r. induction H1 as [|x l Hx _ IH]; cbn; [done|]. by rewrite Hx, IH.
Qed.

Lemma filter_split_r {A} (p : A -> bool) l1 l2 :
  Forall (fun x => p x = false) l1 -> Forall (fun x => p x = true) l2 -> List.filter p (l1 ++ l2) = l2.
Proof.
  intros H1 H2. rewrite List.filter_app.
  assert (List.filter p l1 = []) as -> by (induction H1 as [|x l Hx _ IH]; cbn; [done|by rewrite Hx]).
  cbn. induction H2 as [|x l Hx _ IH]; cbn; [done|]. by rewrite Hx, IH.
Qed.

(** The place of a new timer in the sorted list is the one [add_timer] finds. *)
Lemma add_timer_split x ys1 ys2 :
  sorted acmp (ys1 ++ x :: ys2) ->
  add_timer x (ys1 ++ ys2) = ys1 ++ x :: ys2
  /\ forallb (fun y => acmp x y <? 0) (ys1 ++ ys2) = match ys1 with [] => true | _ => false end.
Proof.
  intros Hs. unfold sorted in Hs. apply StronglySorted_app in Hs as (H12&_&H2). inversion H2 as [|? ? _ Hgt]; subst.
  assert (Forall (fun y => acmp y x < 0) ys1) as Hlt.
  { apply Forall_forall. intros y Hy. apply H12; [done|by left]. }
  unfold add_timer. split.
  - f_equal; [apply filter_split|f_equal; apply filter_split_r].
    + eapply Forall_impl; [exact Hlt|]. cbn. intros y Hy. by apply Z.ltb_lt.
    + eapply Forall_impl; [exact Hgt|]. cbn. intros y Hy. apply Z.ltb_ge. pose proof (cmp_antisym x y). lia.
    + eapply Forall_impl; [exact Hlt|]. cbn. intros y Hy. apply Z.ltb_ge. pose proof (cmp_antisym y x). lia.
    + eapply Forall_impl; [exact Hgt|]. cbn. intros y Hy. by apply Z.ltb_lt.
  - destruct ys1 as [|y ys1]; cbn [app].
    + apply forallb_forall. intros y Hy. apply Z.ltb_lt. rewrite List.Forall_forall in Hgt. by apply Hgt.
    + cbn [forallb]. apply Forall_cons in Hlt as [Hlt _]. pose proof (cmp_antisym y x).
      by rewrite (proj2 (Z.ltb_ge (acmp x y) 0)) by lia.
Qed.

(** An equal timer is in the list if and only if one is in the tree. *)
Lemma existsb_refines N e x ts xs :
  timer_rel e x -> in_window W N x = true -> Forall2 timer_rel ts xs -> window N xs ->
  Forall (fun u => compare_timers W (wrap W N) e u <> 0) ts <-> existsb (fun y => acmp x y =? 0) xs = false.
Proof using HW.
  intros He Hx. induction 1 as [|t y ts xs Hr _ IH]; intros Hw; [split; [done|constructor]|].
  apply Forall_cons in Hw as [Hwy Hw]. cbn [existsb]. rewrite Forall_cons, orb_false_iff, (IH Hw).
  rewrite (compare_refines N e t x y) by done. by rewrite Z.eqb_neq.
Qed.

(** Adding a timer to the tree at time [N]. *)
Lemma add_refines tree xs N e x :
  tree_ok tree -> Forall2 timer_rel (elements tree) xs -> sorted acmp xs -> window N xs ->
  timer_rel e x -> in_window W N x = true ->
  exists tree' r, ss_add (at_now W (wrap W N) tree) e = Some (tree', Some r) /\ tree_ok tree' /\
    if existsb (fun y => acmp x y =? 0) xs then r ∈ elements tree /\ elements tree' = elements tree
    else r = e /\ Forall2 timer_rel (elements tree') (add_timer x xs) /\ sorted acmp (add_timer x xs)
      /\ exists l1 l2, elements tree = l1 ++ l2 /\ elements tree' = l1 ++ e :: l2
         /\ forallb (fun y => acmp x y <? 0) xs = match l1 with [] => true | _ => false end.
Proof using HW.
  intros Hok H2 Hs Hw He Hx. pose proof (at_now_ok tree xs N Hok H2 Hs Hw) as Hst.
  destruct (add_sorted_spec (compare_timers W (wrap W N)) _ e Hst) as (tree'&r&E&Hst'&Hcase). exists tree', r.
  split; [exact E|]. split; [apply Hst'|]. pose proof (existsb_refines N e x _ _ He Hx H2 Hw) as Hex.
  destruct Hcase as [(Hr&Hc&->)|(->&Hne&l1&l2&El&El')].
  - destruct (existsb _ xs); [by split|]. exfalso. pose proof (proj2 Hex eq_refl) as Hf.
    rewrite Forall_forall in Hf. by apply (Hf r Hr).
  - change (elements tree = l1 ++ l2) in El. change (elements tree' = l1 ++ e :: l2) in El'.
    rewrite (proj1 Hex) by exact Hne. split; [done|]. rewrite El, El' in *.
    apply Forall2_app_inv_l in H2 as (ys1&ys2&Hy1&Hy2&->).
    assert (Forall2 timer_rel (l1 ++ e :: l2) (ys1 ++ x :: ys2)) as H2' by (apply Forall2_app; [done|by constructor]).
    assert (window N (ys1 ++ x :: ys2)) as Hw' by (apply Forall_app in Hw as [? ?]; apply Forall_app; split; [done|by constructor]).
    assert (sorted acmp (ys1 ++ x :: ys2)) as Hs'.
    { apply (sorted_refines N _ _ H2' Hw'). rewrite <- El'. apply Hst'. }
    destruct (add_timer_split x ys1 ys2 Hs') as [-> ->]. split; [done|]. split; [done|]. exists l1, l2.
    split_and!; [done|done|]. inversion Hy1; by subst.
Qed.

(** Adding to and removing from the contexts. *)
Lemma add_context contexts live ctx :
  sorted_tree compare_timer_contexts contexts -> (forall c, c ∈ elements contexts <-> c ∈ live) ->
  exists contexts' r, ss_add contexts ctx = Some (contexts', r) /\ sorted_tree compare_timer_contexts contexts'
    /\ forall c, c ∈ elements contexts' <-> c ∈ ({[ctx]} ∪ live : gset Z).
Proof.
  intros Ht Hl. destruct (add_sorted_spec compare_timer_contexts contexts ctx Ht) as (t'&r&E&Ht'&Hcase).
  exists t', (Some r). split; [exact E|]. split; [done|]. intros c. rewrite elem_of_union, elem_of_singleton, <- Hl.
  destruct Hcase as [(Hr&Hc&->)|(->&_&l1&l2&->&->)].
  - apply compare_contexts_eq in Hc as ->. split; [by right|]. by intros [-> |].
  - rewrite !elem_of_app, elem_of_cons. tauto.
Qed.

Lemma del_context contexts live ctx :
  sorted_tree compare_timer_contexts contexts -> (forall c, c ∈ elements contexts <-> c ∈ live) ->
  exists contexts' r, ss_del contexts ctx = Some (contexts', r) /\ sorted_tree compare_timer_contexts contexts'
    /\ forall c, c ∈ elements contexts' <-> c ∈ (live ∖ {[ctx]} : gset Z).
Proof.
  intros Ht Hl. pose proof Ht as (_&_&Hs).
  destruct (del_sorted_spec compare_timer_contexts contexts ctx Ht) as (t'&r&E&Ht'&Hcase).
  exists t', r. split; [exact E|]. split; [done|]. intros c. rewrite elem_of_difference, elem_of_singleton, <- Hl.
  destruct r as [x|].
  - destruct Hcase as (Hc&l1&l2&El&->). apply compare_contexts_eq in Hc as <-. rewrite El in Hs |- *.
    unfold sorted in Hs. apply StronglySorted_app in Hs as (H12&_&H2). inversion H2 as [|? ? _ Hgt]; subst.
    rewrite Forall_forall in Hgt. rewrite !elem_of_app, elem_of_cons. split; [|tauto].
    assert (compare_timer_contexts ctx ctx = 0) as Hcc by by apply compare_contexts_eq.
    intros [Hc|Hc]; (split; [tauto|]); intros ->; [specialize (H12 ctx ctx Hc ltac:(by left))|specialize (Hgt ctx Hc)]; lia.
  - destruct Hcase as [-> Hne]. rewrite Forall_forall in Hne. split; [|tauto]. intros Hc. split; [done|].
    intros ->. apply (Hne ctx Hc). by apply compare_contexts_eq.
Qed.

Lemma find_context contexts live ctx :
  sorted_tree compare_timer_contexts contexts -> (forall c, c ∈ elements contexts <-> c ∈ live) ->
  exists r, ss_find contexts ctx = Some r /\ bool_decide (ctx ∈ (live : gset Z)) = match r with Some _ => true | None => false end.
Proof.
  intros Ht Hl. destruct (ss_find_spec (T := tree234 Z) compare_timer_contexts contexts ctx) as (r&E&Hr); [exact Ht|]. exists r. split; [done|].
  destruct r as [x|].
  - destruct Hr as [Hx Hc]. apply compare_contexts_eq in Hc as <-. apply bool_decide_eq_true. by apply Hl.
  - apply bool_decide_eq_false. rewrite <- Hl. intros Hc. rewrite Forall_forall in Hr. apply (Hr ctx Hc). by apply compare_contexts_eq.
Qed.

(** The time computed by [schedule_timer]. *)
Lemma when_refines N ticks :
  0 <= ticks <= INT_MAX ->
  (let when := wrap W (ticks + wrap W N) in
   if wrap W (when - wrap W N) <=? 0 then wrap W (wrap W N + 1) else when)
  = wrap W (if ticks =? 0 then N + 1 else N + ticks).
Proof using HW.
  intros Ht. destruct range_split as [R1 R2]. unfold INT_MAX in Ht. cbv zeta. rewrite wrap_sub.
  replace (ticks + wrap W N - N) with (ticks + (wrap W N - N)) by lia. unfold wrap.
  assert ((ticks + (N mod 2 ^ W - N)) mod 2 ^ W = ticks) as ->.
  { rewrite <- Zplus_mod_idemp_r, Zminus_mod, Zmod_mod, Z.sub_diag, Zmod_0_l, Z.add_0_r. apply Z.mod_small. lia. }
  repeat bcase; try lia; [by rewrite Zplus_mod_idemp_l|]. rewrite Zplus_mod_idemp_r. f_equal. lia.
Qed.

(** A timer just set. *)
Lemma new_timer N ticks fn ctx :
  0 <= ticks <= INT_MAX -> let x := mkA fn ctx (if ticks =? 0 then N + 1 else N + ticks) N in
  set_ahead x /\ in_window W N x = true.
Proof using HW.
  intros Ht x. destruct range_split as [R1 R2]. unfold set_ahead, in_window, INT_MAX in *. cbn.
  destruct (Z.eqb_spec ticks 0); rewrite !andb_true_iff, !Z.ltb_lt, Z.leb_le; lia.
Qed.

Lemma add_timer_forall (P : atimer -> Prop) x l : P x -> Forall P l -> Forall P (add_timer x l).
Proof.
  intros Hx Hl. unfold add_timer. rewrite List.Forall_forall in *. intros y Hy. apply in_app_iff in Hy as [Hy|[<-|Hy]]; [|done|].
  all: apply filter_In in Hy as [Hy _]; by apply Hl.
Qed.

Lemma index_first (t : tree234 timer) : tree_ok t -> ss_index t 0 = head (elements t).
Proof. intros [h Hw]. cbn. rewrite (index234_spec t h) by done. symmetry. apply head_lookup. Qed.

Lemma head_addr (tree : tree234 timer) e log n v :
  Forall (fun t => t_addr t < n) (elements tree) -> tree_ok tree -> t_addr e = n ->
  (match ss_index tree 0 with Some first => if t_addr first =? t_addr e then v first else log | None => log end) = (log : list Z).
Proof.
  intros Hf Hok He. rewrite index_first by done. destruct (elements tree) as [|t l]; [done|]. cbn.
  apply Forall_cons in Hf as [Ht _]. by rewrite (proj2 (Z.eqb_neq _ _)) by lia.
Qed.

Lemma schedule_refines s a N ticks fn ctx a' w :
  timers_rel s a -> a_schedule W a N ticks fn ctx = Some (a', w) ->
  exists s', schedule_timer W s N ticks fn ctx = Some (s', w) /\ timers_rel s' a'.
Proof using HW.
  intros Hrel. unfold a_schedule. destruct (_ && _) eqn:Hg; [|done]. bsimpl. intros Ha.
  assert (window N (ag_timers a)) as Hw.
  { apply Forall_forall. intros x Hx. eapply forallb_forall; [eassumption|]. by apply list_elem_of_In. }
  destruct Hrel as (Hm&Hn&Hl) eqn:E0. clear E0. destruct (init_rel s a N ltac:(by split)) as (tree&contexts&E&Hrt).
  unfold schedule_timer. rewrite E. cbn [timers timer_contexts next_addr notified mbind option_bind]. clear E Hm.
  pose proof (when_refines N ticks ltac:(lia)) as Hwhen. cbv zeta in Hwhen. rewrite Hwhen. clear Hwhen.
  destruct (new_timer N ticks fn ctx ltac:(lia)) as [Hahead Hxw].
  set (T := if ticks =? 0 then N + 1 else N + ticks) in *. set (x := mkA fn ctx T N) in *.
  set (e := mkTimer (next_addr s) fn ctx (wrap W T) (wrap W N)).
  destruct Hrt as (Hok&H2&Hs&Hah&_&Haddr&Hct&Hlive). cbn [ag_timers ag_live ag_now] in *.
  destruct (add_refines tree (ag_timers a) N e x Hok H2 Hs Hw ltac:(done) Hxw) as (tree'&r&->&Hok'&Hcase).
  cbn [mbind option_bind]. destruct (existsb _ (ag_timers a)).
  - destruct Hcase as [Hr Eel]. injection Ha as <- <-. rewrite Forall_forall in Haddr. specialize (Haddr r Hr) as Hlt.
    rewrite (proj2 (Z.eqb_neq (t_addr e) (t_addr r))) by (cbn; lia). cbn [negb mbind option_bind].
    rewrite (head_addr tree' e _ (next_addr s)); [|by rewrite Eel; apply Forall_forall|done|done].
    eexists. split; [done|]. split; [|done]. cbn. split; [done|]. unfold rel_trees. cbn. rewrite Eel. split_and!; try done.
    apply Forall_forall. intros t Ht. specialize (Haddr t Ht). lia.
  - destruct Hcase as (->&H2'&Hs'&l1&l2&El&El'&Hfirst). rewrite Z.eqb_refl. cbn [negb]. change (t_ctx e) with ctx.
    destruct (add_context contexts (ag_live a) ctx Hct Hlive) as (contexts'&r'&->&Hct'&Hlive'). cbn [mbind option_bind].
    rewrite Hfirst in Ha. injection Ha as <- <-. rewrite index_first by done. eexists. split; [done|].
    split; [|split; [done|]].
    + cbn. split; [done|]. unfold rel_trees. cbn. split_and!; try done; try (by apply add_timer_forall).
      rewrite El'. rewrite El in Haddr. apply Forall_app in Haddr as [Ha1 Ha2]. apply Forall_app.
      split; [|apply Forall_cons; split; [cbn; lia|]]; (eapply Forall_impl; [eassumption|]; cbn; lia).
    + cbn [notified ag_notified]. rewrite El'. destruct l1 as [|t1 l1]; cbn [app head].
      * rewrite Z.eqb_refl. by rewrite Hl.
      * rewrite El in Haddr. cbn in Haddr. apply Forall_cons in Haddr as [Hlt _].
        by rewrite (proj2 (Z.eqb_neq (t_addr t1) (t_addr e))) by (cbn; lia).
Qed.

Lemma expire_refines s a N ctx a' :
  timers_rel s a -> a_expire a N ctx = Some a' ->
  exists s', expire_timer_context W s N ctx = Some s' /\ timers_rel s' a'.
Proof using HW.
  intros Hrel [= <-]. destruct (init_rel s a N Hrel) as (tree&contexts&E&Hok&H2&Hs&Hah&Hw&Haddr&Hct&Hlive).
  destruct Hrel as (_&Hn&Hl). unfold expire_timer_context. rewrite E. cbn [timers timer_contexts now next_addr notified mbind option_bind].
  cbn [ag_timers ag_live ag_now] in *. destruct (del_context contexts (ag_live a) ctx Hct Hlive) as (contexts'&r&->&Hct'&Hlive').
  cbn [mbind option_bind]. eexists. split; [done|]. split; [|split; [|done]].
  - cbn. split; [done|]. by split_and!.
  - cbn. rewrite Hn. by destruct (ag_started a).
Qed.

Lemma tacts_refine s a l a' :
  timers_rel s a -> tacts (a_schedule W) a_expire a l = Some a' ->
  exists s', tacts (schedule_timer W) (expire_timer_context W) s l = Some s' /\ timers_rel s' a'.
Proof using HW.
  revert s a; induction l as [|x l IH]; intros s a Hrel; cbn [tacts]; [intros [= <-]; eauto|].
  destruct x as [N ticks fn ctx|N ctx].
  - destruct (a_schedule W a N ticks fn ctx) as [[a1 w]|] eqn:E; [|done]. cbn [mbind option_bind]. intros Ha.
    destruct (schedule_refines s a N ticks fn ctx a1 w Hrel E) as (s1&->&Hrel1). cbn [mbind option_bind]. by apply (IH s1 a1).
  - destruct (a_expire a N ctx) as [a1|] eqn:E; [|done]. cbn [mbind option_bind]. intros Ha.
    destruct (expire_refines s a N ctx a1 Hrel E) as (s1&->&Hrel1). cbn [mbind option_bind]. by apply (IH s1 a1).
Qed.

Lemma tacts_started a l a' : ag_started a = true -> tacts (a_schedule W) a_expire a l = Some a' -> ag_started a' = true.
Proof.
  revert a; induction l as [|x l IH]; intros a Hst; cbn [tacts]; [by intros [= <-]|].
  destruct x as [N ticks fn ctx|N ctx]; [|by apply IH]. unfold a_schedule. destruct (_ && _); [|done].
  destruct (existsb _ _); by apply IH.
Qed.

(** Taking the first timer off. *)
Lemma drop_refines s a tree contexts x l :
  timers_rel s a -> timers s = Some tree -> timer_contexts s = Some contexts -> ag_timers a = x :: l ->
  exists first tree', ss_index tree 0 = Some first /\ timer_rel first x
    /\ ss_delpos (at_now W (now s) tree) 0 = Some (tree', Some first) /\ timers_rel (set_timers s tree') (a_rest a l).
Proof using HW.
  intros (Hm&Hn&Hl) Et Ec Ea. rewrite Et, Ec in Hm. destruct Hm as (Es&Hok&H2&Hs&Hah&Hw&Haddr&Hct&Hlive). rewrite Ea in *.
  rewrite index_first by done. inversion H2 as [|first ? ts ? Hfirst Hrest Eel]; subst. exists first. rewrite Hn.
  assert (sorted_tree (compare_timers W (wrap W (ag_now a))) (at_now W (wrap W (ag_now a)) tree)) as Hst.
  { by apply (at_now_ok tree (x :: l)). }
  destruct (@ss_delpos_spec _ _ _ _ (tree234_set_laws timer (compare_timers W (wrap W (ag_now a)))) _ 0 Hst ltac:(lia))
    as (tree'&E&Hst'&El').
  assert (elements tree' = ts) as El by (change (elements tree' = delete 0%nat (elements tree)) in El'; by rewrite El', <- Eel).
  exists tree'. split; [done|]. split; [done|]. split.
  { rewrite E. do 2 f_equal. change (elements tree !! 0%nat = Some first). by rewrite <- Eel. }
  split; [|done]. cbn. rewrite Ec, Es. split; [done|]. unfold rel_trees. cbn. rewrite El. rewrite <- Eel in Haddr.
  apply Forall_cons in Hah as [_ Hah], Hw as [_ Hw], Haddr as [_ Haddr]. inversion Hs; subst. split_and!; try done. apply Hst'.
Qed.

Lemma run_loop_refines fuel s a bodies calls a' calls' next :
  timers_rel s a -> ag_started a = true -> a_run_loop W fuel a bodies calls = Some (a', calls', next) ->
  exists s', run_loop W fuel s bodies calls = Some (s', calls', next) /\ timers_rel s' a'.
Proof using HW.
  revert s a bodies calls. induction fuel as [|fuel IH]; intros s a bodies calls Hrel Hst Ha.
  all: pose proof Hrel as (Hm&Hn&Hl); destruct (timers s) as [tree|] eqn:Et, (timer_contexts s) as [contexts|] eqn:Ec; [|done..|by rewrite Hst in Hm; destruct Hm].
  all: destruct Hm as (_&Hok&H2&Hs&Hah&Hw&Haddr&Hct&Hlive); cbn [run_loop a_run_loop] in *; rewrite Et, Ec; cbn [mbind option_bind].
  all: destruct (ag_timers a) as [|x l] eqn:Ea;
    [inversion H2 as [E|]; rewrite index_first by done; rewrite <- E; injection Ha as <- <- <-; exists s; done|].
  all: destruct (drop_refines s a tree contexts x l Hrel Et Ec Ea) as (first&tree'&Ef&Hf&Ed&Hrel'); rewrite Ef, ?Ed.
  all: pose proof Hf as (F1&F2&F3&F4); rewrite F2, ?F1, F3.
  all: destruct (find_context contexts (ag_live a) (a_ctx x) Hct Hlive) as (r&->&Elive); rewrite Elive in Ha; cbn [mbind option_bind].
  all: apply Forall_cons in Hah as [Hxa _], Hw as [Hxw _]; rewrite (due_refines a first x Hf Hxa Hxw s Hn).
  - destruct r, (a_due (ag_now a) x); try done. injection Ha as <- <- <-. eauto.
  - destruct r, (a_due (ag_now a) x); cbn [mbind option_bind].
    + destruct bodies as [|b bodies]; [done|]. cbn [uncons mbind option_bind] in *.
      destruct (tacts (a_schedule W) a_expire (a_rest a l) b) as [a1|] eqn:E1; [|done].
      destruct (tacts_refine (set_timers s tree') (a_rest a l) b a1 Hrel' E1) as (s1&->&Hrel1). cbn [mbind option_bind] in *.
      apply (IH s1 a1); [done| |done]. by eapply tacts_started; [|exact E1].
    + injection Ha as <- <- <-. eauto.
    + by apply (IH _ (a_rest a l)).
    + by apply (IH _ (a_rest a l)).
Qed.

Lemma run_refines s a N bodies a' calls next :
  timers_rel s a -> a_run W a N bodies = Some (a', calls, next) ->
  exists s', run_timers W s N bodies = Some (s', calls, next) /\ timers_rel s' a'.
Proof using HW.
  intros Hrel. unfold a_run. destruct (forallb _ _) eqn:Hw; [|done]. intros Ha.
  destruct (init_rel s a N Hrel) as (tree&contexts&E&Hok&H2&Hs&Hah&_&Haddr&Hct&Hlive). destruct Hrel as (_&Hn&Hl).
  unfold run_timers. rewrite E. cbn [timers timer_contexts now next_addr notified mbind option_bind ag_timers ag_live] in *.
  assert (ss_count tree = len (elements tree)) as -> by exact (count234_spec tree Hok).
  unfold len. rewrite Nat2Z.id, (Forall2_length _ _ _ H2). eapply run_loop_refines; [| |exact Ha]; [|done].
  split; [|done]. cbn. split; [done|]. split_and!; try done. cbn. apply Forall_forall. intros x Hx.
  eapply forallb_forall; [exact Hw|]. by apply list_elem_of_In.
Qed.


End Refine.

(** ** What a run calls *)

(** The call made for a timer. *)
Definition a_call (W : Z) (x : atimer) : Z * Z * Z := (a_fn x, a_ctx x, wrap W (a_time x)).
Definition is_live (a : agenda) (x : atimer) : bool := bool_decide (a_ctx x ∈ ag_live a).

(** A run has stopped: nothing is pending, or the first timer is alive and not due. *)
Definition settled (W : Z) (a : agenda) (next : option Z) : Prop :=
  match ag_timers a with
  | [] => next = None
  | x :: _ => next = Some (wrap W (a_time x)) /\ is_live a x = true /\ a_due (ag_now a) x = false
  end.

Lemma sorted_time x l : sorted acmp (x :: l) -> Forall (fun y => a_time x <= a_time y) l.
Proof.
  intros Hs. inversion Hs as [|? ? _ Hf]; subst. eapply Forall_impl; [exact Hf|]. cbn. intros y. unfold acmp. repeat bcase; lia.
Qed.

(** A run of timer functions that schedule nothing. *)
Lemma a_run_loop_quiet W fuel a calls l n :
  ag_timers a = l -> sorted acmp l -> Forall (fun x => a_set x - 10 <= ag_now a) l -> (length l <= fuel)%nat -> (length l <= n)%nat ->
  exists l' next, a_run_loop W fuel a (replicate n []) calls
      = Some (a_rest a l', calls ++ (a_call W <$> List.filter (fun x => (a_time x <? ag_now a) && is_live a x) l), next)
    /\ l' `suffix_of` l /\ settled W (a_rest a l') next /\ Forall (fun x => is_live a x = true -> ag_now a <= a_time x) l'.
Proof.
  revert fuel n a calls. induction l as [|x l IH]; intros fuel n a calls El Hs Hset Hf Hn.
  { exists [], None. destruct a as [st ? lv nw nt]; cbn in El; subst. rewrite app_nil_r. split_and!; try done. by destruct fuel. }
  apply Forall_cons in Hset as [Hsx Hset]. inversion Hs as [|? ? Hs' _]; subst.
  assert (a_due (ag_now a) x = (a_time x <? ag_now a)) as Hdue.
  { unfold a_due. by rewrite (proj2 (Z.ltb_ge (ag_now a) (a_set x - 10))), orb_false_r by lia. }
  destruct fuel as [|fuel]; [cbn in Hf; lia|]. cbn [a_run_loop]. rewrite El, Hdue. cbn [List.filter].
  destruct (is_live a x) eqn:Elive; unfold is_live in Elive; rewrite Elive.
  - destruct (Z.ltb_spec (a_time x) (ag_now a)) as [Hlt|Hge]; cbn [andb].
    + destruct n as [|n]; [cbn in Hn; lia|]. cbn [replicate uncons tacts mbind option_bind].
      destruct (IH fuel n (a_rest a l) (calls ++ [a_call W x]) eq_refl Hs' Hset) as (l'&next&E&Hsuf&Hst&Hrest);
        [cbn in Hf, Hn; lia..|].
      exists l', next. split; [|split_and!; [by apply suffix_cons_r|exact Hst|exact Hrest]].
      unfold a_call at 1 in E. rewrite E. cbn. by rewrite <- app_assoc.
    + exists (x :: l), (Some (wrap W (a_time x))). pose proof (sorted_time x l Hs) as Hle.
      assert (List.filter (fun y => (a_time y <? ag_now a) && is_live a y) l = []) as ->.
      { clear -Hle Hge. induction Hle as [|y l Hy _ IH]; cbn; [done|]. by rewrite (proj2 (Z.ltb_ge (a_time y) (ag_now a))) by lia. }
      cbn. rewrite app_nil_r. split; [by destruct a; cbn in El; subst|]. split; [done|]. split.
      * split; [done|]. split; [exact Elive|]. exact Hdue.
      * apply Forall_cons. split; [done|]. eapply Forall_impl; [exact Hle|]. cbn. lia.
  - rewrite andb_false_r.
    destruct (IH fuel n (a_rest a l) calls eq_refl Hs' Hset) as (l'&next&E&Hsuf&Hst&Hrest); [cbn in Hf, Hn; lia..|].
    exists l', next. split; [exact E|]. split_and!; [by apply suffix_cons_r|exact Hst|exact Hrest].
Qed.

(** Functional correctness of a run of functions that schedule nothing (in a period in which the clock does not go back
    past the setting of a pending timer): [run_timers] calls the functions of exactly the
    pending timers whose time has passed and whose context is alive, in the order
    of their times, each once and with its own time; it stops at the first live timer still in the future
    and reports its time; the timers left are in the agenda's order, and no live one of them is due. *)
Theorem run_timers_runs_due W s a N n :
  32 <= W -> timers_rel W s a -> Forall (fun x => in_window W N x = true) (ag_timers a) ->
  Forall (fun x => a_set x - 10 <= N) (ag_timers a) -> (length (ag_timers a) <= n)%nat ->
  exists s' l' next,
    run_timers W s N (replicate n []) = Some (s', a_call W <$> List.filter (fun x => (a_time x <? N) && is_live a x) (ag_timers a), next)
    /\ timers_rel W s' (mkAgenda true l' (ag_live a) N (ag_notified a))
    /\ l' `suffix_of` ag_timers a /\ settled W (mkAgenda true l' (ag_live a) N (ag_notified a)) next
    /\ Forall (fun x => is_live a x = true -> N <= a_time x) l'.
Proof.
  intros HW Hrel Hw Hset Hn. assert (sorted acmp (ag_timers a)) as Hs.
  { destruct (init_rel W HW s a N Hrel) as (?&?&_&_&_&Hs&_). exact Hs. }
  destruct (a_run_loop_quiet W (length (ag_timers a) + schedules (replicate n []))
    (mkAgenda true (ag_timers a) (ag_live a) N (ag_notified a)) [] (ag_timers a) n eq_refl Hs Hset ltac:(lia) Hn) as (l'&next&E&Hsuf&Hst&Hrest).
  destruct (run_refines W HW s a N (replicate n []) (mkAgenda true l' (ag_live a) N (ag_notified a))
    (a_call W <$> List.filter (fun x => (a_time x <? N) && is_live a x) (ag_timers a)) next Hrel) as (s'&E'&Hrel').
  { unfold a_run. rewrite (proj2 (forallb_forall _ _)); [exact E|]. intros x Hx. rewrite List.Forall_forall in Hw. by apply Hw. }
  exists s', l', next. split; [exact E'|]. by split_and!.
Qed.




Section Total.
Context (W N L M D : Z) (HW : 32 <= W).
Context (HM : 1 <= M <= INT_MAX) (HD : 0 <= D) (HL : 0 <= L) (HMD : M + D < 2 ^ (W - 1)) (HLD : L + D <= 2 ^ (W - 1)).
Context (Hset : D + L + M + 10 < 2 ^ W).











End Total.





(** ** The documented contract

    putty.h says that [expire_timer_context] drops all current timers of the context.  So
    the documented agenda holds only timers that can still run.  It also remembers,
    for the conditions of use and for the notifications, the timers it dropped that come after the
    first one pending: the code finds out only later that these are dead.  [schedule] has a
    condition of use: no dropped timer remembered has the same context ([expire_is_lazy]
    shows what the code does otherwise). *)










(** *** Between the two agendas *)





























(** ** Where the comments say more *)

(** [expire_timer_context] takes the context out of the tree of contexts but leaves its
    timers.  A timer scheduled for the same context afterwards (a context that is freed and
    allocated again, or the static one of sshrand.c) brings the old ones back: here the timer for
    time 100, dropped at time 1, still runs.  And when the new timer is identical to a
    dropped one, the context is not entered again and the new timer never runs. *)
Example expire_is_lazy :
  option_map snd (run_ops (timer_step 64) timers_init [OSchedule 0 100 1 7; OExpire 1 7; OSchedule 2 200 1 7; ORun 150 [[]]])
    = Some [TWhen 100; TDone; TWhen 202; TRan [(1, 7, 100)] (Some 202)]
  /\ option_map snd (run_ops (timer_step 64) timers_init [OSchedule 0 100 1 7; OExpire 0 7; OSchedule 0 100 1 7; ORun 150 []])
    = Some [TWhen 100; TDone; TWhen 100; TRan [] None].
Proof. split; vm_compute; reflexivity. Qed.

(** The guard [when - now <= 0] compares unsigned numbers and only catches zero: a timer set
    more than ten ticks into the past does not run before the clock has gone round. *)
Lemma negative_ticks_never_due W s addr fn ctx N0 N ticks :
  32 <= W -> - 2 ^ 31 <= ticks < -10 -> N0 - 10 <= N <= N0 + 2 ^ W + ticks -> now s = wrap W N ->
  due W s (mkTimer addr fn ctx (wrap W (ticks + wrap W N0)) (wrap W N0)) = false.
Proof.
  intros HW Ht HN Hn. destruct (range_split W HW) as [R1 R2]. unfold due. cbn. rewrite Hn. unfold wrap.
  rewrite Zplus_mod_idemp_r, !Zminus_mod_idemp_l, !Zminus_mod_idemp_r. apply Z.ltb_ge.
  rewrite (Z.mod_small (N - (N0 - 10))) by lia.
  rewrite <- (Z.mod_unique_pos (ticks + N0 - (N0 - 10)) (2 ^ W) (-1) (ticks + 10 + 2 ^ W)) by lia. lia.
Qed.
