(* ===== verification/SftpPacket.v ===== *)
(** * SFTP packets and file attributes (sftpcommon.c, sftp.h)

    A packet under construction is a [BinarySink]: a block that grows, whose first five
    bytes are filled in when it is sent.  A packet received is its type and a
    [BinarySource] on the rest.  File attributes are written and read field by field, as
    their flags say; a field whose flag is not set keeps the value it had. *)

From S2P Require Import Prelude Memory Marshal Strbuf.
Open Scope Z_scope.

(** ** Constants of the protocol *)

Definition SSH_FXP_INIT : Z := 1.
Definition SSH_FXP_VERSION : Z := 2.
Definition SSH_FXP_OPEN : Z := 3.
Definition SSH_FXP_CLOSE : Z := 4.
Definition SSH_FXP_READ : Z := 5.
Definition SSH_FXP_WRITE : Z := 6.
Definition SSH_FXP_FSTAT : Z := 8.
Definition SSH_FXP_SETSTAT : Z := 9.
Definition SSH_FXP_FSETSTAT : Z := 10.
Definition SSH_FXP_OPENDIR : Z := 11.
Definition SSH_FXP_READDIR : Z := 12.
Definition SSH_FXP_REMOVE : Z := 13.
Definition SSH_FXP_MKDIR : Z := 14.
Definition SSH_FXP_RMDIR : Z := 15.
Definition SSH_FXP_REALPATH : Z := 16.
Definition SSH_FXP_STAT : Z := 17.
Definition SSH_FXP_RENAME : Z := 18.
Definition SSH_FXP_STATUS : Z := 101.
Definition SSH_FXP_HANDLE : Z := 102.
Definition SSH_FXP_DATA : Z := 103.
Definition SSH_FXP_NAME : Z := 104.
Definition SSH_FXP_ATTRS : Z := 105.

Definition SSH_FX_OK : Z := 0.
Definition SSH_FX_EOF : Z := 1.
Definition SSH_FX_FAILURE : Z := 4.

Definition SSH_FILEXFER_ATTR_SIZE : Z := 1.
Definition SSH_FILEXFER_ATTR_UIDGID : Z := 2.
Definition SSH_FILEXFER_ATTR_PERMISSIONS : Z := 4.
Definition SSH_FILEXFER_ATTR_ACMODTIME : Z := 8.
Definition SSH_FILEXFER_ATTR_EXTENDED : Z := 2147483648.

Definition SFTP_PROTO_VERSION : Z := 3.

(** ** Packets to be sent *)

Record sftp_packet := mkPkt {
  pk_data : cells;      (* data: the block; its length is [maxlen] *)
  pk_length : Z;
  pk_type : Z
}.

Definition sftp_pkt_BinarySink_write (pkt : sftp_packet) (data : list Z) : option sftp_packet :=
  assert! len data <=? u64 (4294967295 - pk_length pkt);
  maxlen ← safegrowarray (len (pk_data pkt)) 1 (pk_length pkt) (len data) true;
  mem ← mem_write (mem_resize (pk_data pkt) maxlen) (pk_length pkt) data;
  Some (mkPkt mem (pk_length pkt + len data) (pk_type pkt)).

#[export] Instance sftp_pkt_sink : BinarySink sftp_packet := {| bs_write := sftp_pkt_BinarySink_write |}.

Definition sftp_pkt_init (type : Z) : option sftp_packet :=
  pkt ← put_uint32 (mkPkt [] 0 type) 0;
  put_byte pkt 0.

Definition sftp_send_prepare (pkt : sftp_packet) : option sftp_packet :=
  mem ← mem_write (pk_data pkt) 0 (PUT_32BIT_MSB_FIRST (u32 (pk_length pkt - 4)));
  mem ← (if 5 <=? pk_length pkt then mem_write mem 4 [u8 (pk_type pkt)] else Some mem);
  Some (mkPkt mem (pk_length pkt) (pk_type pkt)).

(** What [sftp_senddata(pkt->data, pkt->length)] is given; [None] if a byte of it was never written. *)
Fixpoint written (mem : cells) : option (list Z) :=
  match mem with
  | [] => Some []
  | c :: mem => c ← c; l ← written mem; Some (c :: l)
  end.
Definition pkt_bytes (pkt : sftp_packet) : option (list Z) := written (take (Z.to_nat (pk_length pkt)) (pk_data pkt)).

(** ** File attributes *)

Record fxp_attrs := mkAttrs {
  at_flags : Z; at_size : Z; at_uid : Z; at_gid : Z; at_permissions : Z; at_atime : Z; at_mtime : Z
}.

Definition no_attrs : fxp_attrs := mkAttrs 0 0 0 0 0 0 0.

Definition has (flags flag : Z) : bool := negb (Z.land flags flag =? 0).

Definition put_fxp_attrs {S} `{BinarySink S} (bs : S) (attrs : fxp_attrs) : option S :=
  let flags := at_flags attrs in
  bs ← put_uint32 bs flags;
  bs ← (if has flags SSH_FILEXFER_ATTR_SIZE then put_uint64 bs (at_size attrs) else Some bs);
  bs ← (if has flags SSH_FILEXFER_ATTR_UIDGID
        then bs ← put_uint32 bs (at_uid attrs); put_uint32 bs (at_gid attrs) else Some bs);
  bs ← (if has flags SSH_FILEXFER_ATTR_PERMISSIONS then put_uint32 bs (at_permissions attrs) else Some bs);
  (if has flags SSH_FILEXFER_ATTR_ACMODTIME
   then bs ← put_uint32 bs (at_atime attrs); put_uint32 bs (at_mtime attrs) else Some bs).

(** [while (count--)] of the extended attributes. *)
Fixpoint skip_extended (fuel : nat) (count : Z) (src : BinarySource) : option BinarySource :=
  if count =? 0 then Some src
  else if negb (bool_decide (bs_err src = BSE_NO_ERROR)) then Some src
  else match fuel with
       | O => None
       | S fuel =>
           let '(_, src) := get_string src in
           let '(_, src) := get_string src in
           skip_extended fuel (count - 1) src
       end.

(** Each round reads at least eight bytes or meets the end of the data. *)
Definition get_fxp_attrs (src : BinarySource) (attrs : fxp_attrs) : option (fxp_attrs * BinarySource) :=
  let '(flags, src) := get_uint32 src in
  let '(size, src) := if has flags SSH_FILEXFER_ATTR_SIZE then get_uint64 src else (at_size attrs, src) in
  let '(uid, gid, src) := if has flags SSH_FILEXFER_ATTR_UIDGID
                          then let '(u, src) := get_uint32 src in let '(g, src) := get_uint32 src in (u, g, src)
                          else (at_uid attrs, at_gid attrs, src) in
  let '(perms, src) := if has flags SSH_FILEXFER_ATTR_PERMISSIONS then get_uint32 src else (at_permissions attrs, src) in
  let '(atime, mtime, src) := if has flags SSH_FILEXFER_ATTR_ACMODTIME
                              then let '(a, src) := get_uint32 src in let '(m, src) := get_uint32 src in (a, m, src)
                              else (at_atime attrs, at_mtime attrs, src) in
  src ← (if has flags SSH_FILEXFER_ATTR_EXTENDED
         then let '(count, src) := get_uint32 src in skip_extended (length (bs_data src) + 1) count src
         else Some src);
  Some (mkAttrs flags size uid gid perms atime mtime, src).

(** ** Packets received *)

Record packet_in := mkIn { in_type : Z; in_src : BinarySource }.

(** [sftp_recv_prepare] and [sftp_recv_finish] on the bytes after the length. *)
Definition sftp_recv_finish (data : list Z) : option packet_in :=
  let '(type, src) := get_byte (BinarySource_INIT data) in
  if bool_decide (bs_err src = BSE_NO_ERROR) then Some (mkIn type src) else None.

(** [sftp_recvdata] on the bytes the server sends in all; [None] is its [false], when they come to an end.
    (In psftp.c the loss of the connection goes to [console_connection_fatal], which exits the program,
    so that the callers see [false] only when the backend has an exit code already.) *)
Definition sftp_recvdata (input : list Z) (n : Z) : option (list Z * list Z) :=
  if n <=? len input then Some (take (Z.to_nat n) input, drop (Z.to_nat n) input) else None.

(** The packet (or NULL) and what is left of the input. *)
Definition sftp_recv (input : list Z) : option packet_in * list Z :=
  match sftp_recvdata input 4 with
  | None => (None, input)
  | Some (x, input) =>
      let pktlen := GET_32BIT_MSB_FIRST x in
      if 1048576 <? pktlen then (None, input)
      else match sftp_recvdata input pktlen with
           | None => (None, input)
           | Some (data, input) => (sftp_recv_finish data, input)
           end
  end.

Example sftp_packet_examples :
  (pkt ← sftp_pkt_init SSH_FXP_MKDIR;
   pkt ← put_uint32 pkt 256;
   pkt ← put_stringz pkt (codes "d"%string);
   pkt ← put_fxp_attrs pkt (mkAttrs 4 0 0 0 493 0 0);
   pkt ← sftp_send_prepare pkt;
   pkt_bytes pkt) = Some [0;0;0;18; 14; 0;0;1;0; 0;0;0;1; 100; 0;0;0;4; 0;0;1;237]
  /\ sftp_recv [0;0;0;2; 101; 7; 0; 0] = (Some (mkIn 101 (mkSource [101; 7] 1 BSE_NO_ERROR)), [0; 0]).
Proof. split; vm_compute; reflexivity. Qed.

(** ** The packet as a sink *)

Definition pk_out (pkt : sftp_packet) : list Z := omap id (take (Z.to_nat (pk_length pkt)) (pk_data pkt)).

Definition pk_max : Z := 2 ^ 30 + 2 ^ 26 + 256.

Definition pk_room (pkt : sftp_packet) (n : Z) : Prop :=
  0 <= pk_length pkt <= len (pk_data pkt) /\ Forall is_Some (take (Z.to_nat (pk_length pkt)) (pk_data pkt))
  /\ len (pk_data pkt) <= pk_max /\ pk_length pkt + n <= 2 ^ 30.

Lemma written_omap mem : Forall is_Some mem -> written mem = Some (omap id mem).
Proof. induction 1 as [|c mem [x ->] _ IH]; cbn; [done|]. by rewrite IH. Qed.

Lemma pkt_bytes_out pkt n : pk_room pkt n -> pkt_bytes pkt = Some (pk_out pkt) /\ len (pk_out pkt) = pk_length pkt.
Proof.
  intros (Hl&Hf&_). split; [by apply written_omap|]. unfold pk_out.
  assert (forall m : cells, Forall is_Some m -> len (omap id m) = len m) as E.
  { induction 1 as [|c m [x ->] _ IH]; cbn; [done|]. rewrite !len_cons. lia. }
  rewrite E by done. rewrite len_take; lia.
Qed.

Lemma pkt_write_spec pkt d n :
  pk_room pkt n -> len d <= n ->
  exists pkt', sftp_pkt_BinarySink_write pkt d = Some pkt' /\ pk_out pkt' = pk_out pkt ++ d /\ pk_room pkt' (n - len d)
    /\ pk_type pkt' = pk_type pkt.
Proof.
  intros (Hl&Hf&Hm&Hn) Hd. pose proof (len_nonneg d). unfold sftp_pkt_BinarySink_write.
  rewrite wrap_id by (unfold word_ok; lia). rewrite (proj2 (Z.leb_le _ _)) by lia.
  destruct (safegrowarray_total 1 ltac:(lia) (len (pk_data pkt)) (pk_length pkt) (len d) true)
    as (newsize&Eg&Hbound); try (unfold pk_max in *; lia).
  rewrite Eg. cbn [mbind option_bind]. apply safegrowarray_bounds in Eg as (Hge&Hneed&_); try lia.
  assert (len (mem_resize (pk_data pkt) newsize) = newsize) as Er by (apply len_mem_resize; lia).
  destruct (mem_write_total (mem_resize (pk_data pkt) newsize) (pk_length pkt) d) as [mem' Hw]; [lia|lia|].
  rewrite Hw. cbn [mbind option_bind]. eexists; split; [done|]. unfold pk_room, pk_out. cbn [pk_data pk_length pk_type].
  rewrite (mem_write_take_end _ _ _ _ Hw), mem_resize_take, omap_app, omap_id_fmap by lia.
  rewrite (len_mem_write _ _ _ _ Hw), Er. split_and!; try done; try lia.
  - apply Forall_app. split; [done|]. apply Forall_fmap, Forall_true. eauto.
  - destruct Hbound as [->|Hb]; [lia|]. unfold pk_max in *.
    assert ((pk_length pkt + len d) * 1 / 16 <= 2 ^ 26) by (apply Z.div_le_upper_bound; lia). lia.
Qed.

#[export] Program Instance sftp_pkt_sink_laws : BinarySinkLaws sftp_packet := {|
  sink_out := pk_out;
  sink_room := pk_room
|}.
Next Obligation. intros s d n Hr Hd. destruct (pkt_write_spec s d n Hr Hd) as (s'&?&?&?&_). eauto. Qed.

(** Writing keeps the type. *)
Lemma pkt_write_type (pkt pkt' : sftp_packet) d : bs_write pkt d = Some pkt' -> pk_type pkt' = pk_type pkt.
Proof.
  cbn. unfold sftp_pkt_BinarySink_write. destruct (_ <=? _); [|done].
  destruct (safegrowarray _ _ _ _ _); cbn [mbind option_bind]; [|done].
  destruct (mem_write _ _ _); cbn [mbind option_bind]; [|done]. by intros [= <-].
Qed.

Lemma put_field_type (pkt pkt' : sftp_packet) f : put_field pkt f = Some pkt' -> pk_type pkt' = pk_type pkt.
Proof.
  destruct f; cbn [put_field]; unfold put_data, put_byte, put_bool, put_uint16, put_uint32, put_uint64, put_string, put_asciz, put_pstring;
    try apply pkt_write_type.
  - destruct (_ <? _); [|done]. unfold put_uint32. destruct (bs_write pkt _) as [p|] eqn:E; [|done].
    intros H%pkt_write_type. apply pkt_write_type in E. congruence.
  - destruct (_ <? _); [by intros [= <-]|]. unfold put_byte. destruct (bs_write pkt _) as [p|] eqn:E; [|done].
    destruct (bs_write p s) as [q|] eqn:E2; [|done]. intros [= <-]. apply pkt_write_type in E, E2. congruence.
Qed.

Lemma put_fields_type fs (pkt pkt' : sftp_packet) : put_fields pkt fs = Some pkt' -> pk_type pkt' = pk_type pkt.
Proof.
  revert pkt; induction fs as [|f fs IH]; intros pkt; cbn [put_fields]; [by intros [= <-]|].
  destruct (put_field pkt f) as [p|] eqn:E; [|done]. intros H%IH. apply put_field_type in E. congruence.
Qed.

(** Concrete fields are well formed. *)
Ltac fields_ok := repeat first [done | apply Forall_cons; split | apply Forall_nil; done | split].

(** ** What goes over the wire *)

(** A packet of the protocol: its length, its type, its fields. *)
Definition frame (type : Z) (fs : list field) : list Z :=
  be_split 4 (1 + len (fs ≫= field_enc)) ++ type :: (fs ≫= field_enc).

(** The length and the type replace the first five bytes. *)
Lemma send_prepare_spec pkt n hdr body :
  pk_room pkt n -> pk_out pkt = hdr ++ body -> length hdr = 5%nat ->
  exists pkt', sftp_send_prepare pkt = Some pkt'
    /\ pkt_bytes pkt' = Some (be_split 4 (u32 (1 + len body)) ++ u8 (pk_type pkt) :: body).
Proof.
  intros Hr Ho Hh. pose proof Hr as (Hl&Hf&Hm&_). destruct (pkt_bytes_out pkt n Hr) as [_ Hlen].
  assert (pk_length pkt = 5 + len body) as EL.
  { assert (len hdr = 5) by (unfold len; lia). rewrite Ho, len_app in Hlen. lia. }
  pose proof (len_nonneg body). unfold sftp_send_prepare. rewrite PUT_32BIT_split, EL.
  replace (5 + len body - 4) with (1 + len body) by lia.
  set (d := be_split 4 (u32 (1 + len body))). assert (length d = 4%nat) as Hd.
  { apply Nat2Z.inj. exact (len_be_split 4 (u32 (1 + len body))). }
  assert (len d = 4) as Hd' by (unfold len; by rewrite Hd).
  destruct (mem_write_total (pk_data pkt) 0 d) as [m1 E1]; [lia|lia|]. rewrite E1. cbn [mbind option_bind].
  rewrite (proj2 (Z.leb_le 5 _)) by lia. pose proof (len_mem_write _ _ _ _ E1) as L1.
  destruct (mem_write_total m1 4 [u8 (pk_type pkt)]) as [m2 E2]; [lia|change (len [u8 (pk_type pkt)]) with 1; lia|]. rewrite E2. cbn [mbind option_bind].
  eexists. split; [done|]. unfold pkt_bytes. cbn [pk_length pk_data].
  destruct (mem_write_shape _ _ _ _ E1) as (_&_&F1). destruct (mem_write_shape _ _ _ _ E2) as (_&_&F2).
  assert (take (Z.to_nat (5 + len body)) (pk_data pkt) = Some <$> (hdr ++ body)) as Ht.
  { rewrite <- EL, <- Ho. unfold pk_out. by rewrite omap_id_some. }
  assert (take (Z.to_nat (len body)) (drop 5 (pk_data pkt)) = Some <$> body) as Hb.
  { apply (f_equal (drop 5)) in Ht. rewrite fmap_app, drop_app_length' in Ht by (by rewrite length_fmap).
    rewrite <- Ht, take_drop_commute. do 2 f_equal. lia. }
  assert (m2 = (Some <$> (d ++ [u8 (pk_type pkt)])) ++ drop 5 (pk_data pkt)) as Em.
  { rewrite F2, F1. cbn [Z.to_nat]. rewrite take_0. cbn [app]. change (Z.to_nat 4) with 4%nat.
    change (Z.to_nat (4 + len [u8 (pk_type pkt)])) with 5%nat. rewrite Hd'. change (Z.to_nat (0 + 4)) with 4%nat.
    rewrite take_app_length' by (by rewrite length_fmap). rewrite drop_app_ge by (rewrite length_fmap; lia).
    by rewrite length_fmap, Hd, drop_drop, fmap_app, <- app_assoc. }
  assert (take (Z.to_nat (5 + len body)) m2 = Some <$> (d ++ u8 (pk_type pkt) :: body)) as ->.
  { rewrite Em, take_app_ge by (rewrite length_fmap, length_app, Hd; cbn; lia). rewrite length_fmap, length_app, Hd.
    replace (Z.to_nat (5 + len body) - (4 + length [u8 (pk_type pkt)]))%nat with (Z.to_nat (len body)) by (cbn; lia).
    rewrite Hb, <- fmap_app, <- app_assoc. done. }
  rewrite written_omap, omap_id_fmap; [done|]. apply Forall_fmap, Forall_true. eauto.
Qed.

(** Building a packet from its fields and sending it. *)
Definition build (type : Z) (fs : list field) : option (list Z) :=
  pkt ← sftp_pkt_init type;
  pkt ← put_fields pkt fs;
  pkt ← sftp_send_prepare pkt;
  pkt_bytes pkt.

Lemma build_frame type fs :
  word_ok 8 type -> Forall field_ok fs -> len (fs ≫= field_enc) <= 2 ^ 29 -> build type fs = Some (frame type fs).
Proof.
  intros Ht Hf Hl. unfold build. pose proof (len_nonneg (fs ≫= field_enc)).
  destruct (put_fields_spec [FUint32 0; FByte 0] (mkPkt [] 0 type) (2 ^ 30)) as (p1&E1&O1&R1).
  { repeat constructor; done. } { split_and!; try done. } { done. }
  assert (sftp_pkt_init type = Some p1) as ->.
  { unfold sftp_pkt_init. cbn [put_fields put_field] in E1. destruct (put_uint32 _ 0); [|done]. cbn [mbind option_bind].
    destruct (put_byte s 0); [|done]. done. }
  cbn [mbind option_bind]. apply put_fields_type in E1.
  destruct (put_fields_spec fs p1 (2 ^ 30 - 5)) as (p2&E2&O2&R2); [done|exact R1|lia|]. rewrite E2. cbn [mbind option_bind].
  apply put_fields_type in E2. cbn [pk_type] in E1.
  destruct (send_prepare_spec p2 _ [0; 0; 0; 0; 0] (fs ≫= field_enc) R2) as (p3&->&Hb); [|done|].
  { change (pk_out p2) with (sink_out p2). by rewrite O2, O1. }
  cbn [mbind option_bind]. rewrite Hb, E2, E1. unfold frame. by rewrite !wrap_id by (unfold word_ok in *; lia).
Qed.

Lemma recvdata_app n d rest : len d = n -> sftp_recvdata (d ++ rest) n = Some (d, rest).
Proof.
  intros <-. unfold sftp_recvdata. rewrite (proj2 (Z.leb_le _ _)) by (rewrite len_app; pose proof (len_nonneg rest); lia).
  unfold len. by rewrite Nat2Z.id, take_app_length, drop_app_length.
Qed.

(** A frame that arrives is read back: the type, and a source on its fields. *)
Lemma recv_frame type fs rest :
  word_ok 8 type -> Forall field_ok fs -> len (fs ≫= field_enc) < 2 ^ 20 ->
  exists src, sftp_recv (frame type fs ++ rest) = (Some (mkIn type src), rest) /\ at_data src (fs ≫= field_enc).
Proof.
  intros Ht Hf Hl. set (body := fs ≫= field_enc) in *. pose proof (len_nonneg body).
  assert (bytes_ok body) as Hb.
  { unfold body. clear -Hf. induction Hf as [|f fs Hf _ IH]; [constructor|]. rewrite bind_cons.
    apply Forall_app. split; [by apply field_enc_ok|done]. }
  unfold frame. fold body. rewrite <- app_assoc. unfold sftp_recv.
  rewrite (recvdata_app 4 (be_split 4 (1 + len body))), GET_32BIT_len by (lia || apply len_be_split).
  rewrite (proj2 (Z.ltb_ge 1048576 _)), (recvdata_app (1 + len body) (type :: body)) by (rewrite ?len_cons; lia).
  unfold sftp_recv_finish.
  destruct (at_data_byte (BinarySource_INIT (type :: body)) type body Ht) as (src&->&Hs).
  { apply at_data_init. by constructor. }
  exists src. pose proof Hs as (_&->&_). by rewrite bool_decide_true.
Qed.

(** ** Attributes *)

Definition attrs_fields (a : fxp_attrs) : list field :=
  let opt b (l : list field) := if (b : bool) then l else [] in
  FUint32 (at_flags a) :: opt (has (at_flags a) SSH_FILEXFER_ATTR_SIZE) [FUint64 (at_size a)]
  ++ opt (has (at_flags a) SSH_FILEXFER_ATTR_UIDGID) [FUint32 (at_uid a); FUint32 (at_gid a)]
  ++ opt (has (at_flags a) SSH_FILEXFER_ATTR_PERMISSIONS) [FUint32 (at_permissions a)]
  ++ opt (has (at_flags a) SSH_FILEXFER_ATTR_ACMODTIME) [FUint32 (at_atime a); FUint32 (at_mtime a)].

Definition attrs_ok (a : fxp_attrs) : Prop :=
  word_ok 32 (at_flags a) /\ word_ok 64 (at_size a) /\ Forall (word_ok 32) [at_uid a; at_gid a; at_permissions a; at_atime a; at_mtime a].

Lemma put_attrs_fields {S} `{BinarySink S} (bs : S) a : put_fxp_attrs bs a = put_fields bs (attrs_fields a).
Proof.
  unfold put_fxp_attrs, attrs_fields. cbn [put_fields put_field].
  destruct (put_uint32 bs _) as [s|]; [|done]. cbn [mbind option_bind]. rewrite put_fields_app, put_fields_if, put_fields1.
  cbn [put_field]. destruct (if has _ _ then put_uint64 s _ else _) as [s1|]; [|done]. cbn [mbind option_bind].
  rewrite put_fields_app, put_fields_if, put_fields2. cbn [put_field]. destruct (if has _ _ then _ else Some s1) as [s2|]; [|done].
  cbn [mbind option_bind]. rewrite put_fields_app, put_fields_if, put_fields1. cbn [put_field].
  destruct (if has _ _ then _ else Some s2) as [s3|]; [|done]. cbn [mbind option_bind]. by rewrite put_fields_if, put_fields2.
Qed.

Lemma attrs_fields_ok a : attrs_ok a -> Forall field_ok (attrs_fields a).
Proof.
  intros (H1&H2&H3). rewrite !Forall_cons in H3. destruct H3 as (H3&H4&H5&H6&H7&_). unfold attrs_fields.
  constructor; [done|]. repeat (apply Forall_app; split). all: destruct (has _ _); repeat (apply Forall_cons; split; [done|]); apply Forall_nil; done.
Qed.

(** The attributes a reader ends up with: the fields sent, the others as they were. *)
Definition merge_attrs (old a : fxp_attrs) : fxp_attrs :=
  let sel flag (f : fxp_attrs -> Z) := if has (at_flags a) flag then f a else f old in
  mkAttrs (at_flags a) (sel SSH_FILEXFER_ATTR_SIZE at_size) (sel SSH_FILEXFER_ATTR_UIDGID at_uid)
    (sel SSH_FILEXFER_ATTR_UIDGID at_gid) (sel SSH_FILEXFER_ATTR_PERMISSIONS at_permissions)
    (sel SSH_FILEXFER_ATTR_ACMODTIME at_atime) (sel SSH_FILEXFER_ATTR_ACMODTIME at_mtime).

Lemma at_data_uint32_pair src u v rest :
  word_ok 32 u -> word_ok 32 v -> at_data src (([FUint32 u; FUint32 v] ≫= field_enc) ++ rest) ->
  exists src', (let '(u, src) := get_uint32 src in let '(g, src) := get_uint32 src in (u, g, src)) = (u, v, src') /\ at_data src' rest.
Proof.
  intros Hu Hv Hs. rewrite !bind_cons, <- !app_assoc in Hs. cbn [field_enc] in Hs.
  destruct (at_data_uint32 _ _ _ Hu Hs) as (s1&->&Hs1). by destruct (at_data_uint32 _ _ _ Hv Hs1) as (s2&->&Hs2); eauto.
Qed.

(** A group of fields that is there or not. *)
Lemma at_data_opt {A} (b : bool) (get : BinarySource -> A * BinarySource) (v old : A) fs src rest :
  (forall rest', at_data src ((fs ≫= field_enc) ++ rest') -> exists src', get src = (v, src') /\ at_data src' rest') ->
  at_data src (((if b then fs else []) ≫= field_enc) ++ rest) ->
  exists src', (if b then get src else (old, src)) = (if b then v else old, src') /\ at_data src' rest.
Proof. intros Hget Hs. destruct b; [by apply Hget|]. cbn in Hs. eauto. Qed.

(** What [put_fxp_attrs] writes, [get_fxp_attrs] reads back. *)
Lemma get_attrs_read src old a rest :
  attrs_ok a -> has (at_flags a) SSH_FILEXFER_ATTR_EXTENDED = false ->
  at_data src ((attrs_fields a ≫= field_enc) ++ rest) ->
  exists src', get_fxp_attrs src old = Some (merge_attrs old a, src') /\ at_data src' rest.
Proof.
  intros (H1&H2&H3) Hext Hs. rewrite !Forall_cons in H3. destruct H3 as (H3&H4&H5&H6&H7&_).
  unfold attrs_fields in Hs. rewrite bind_cons, !bind_app, <- !app_assoc in Hs. cbn [field_enc] in Hs.
  unfold get_fxp_attrs, merge_attrs. destruct (at_data_uint32 _ _ _ H1 Hs) as (s1&->&Hs1). clear Hs. rewrite Hext.
  destruct (at_data_opt (has (at_flags a) SSH_FILEXFER_ATTR_SIZE) get_uint64 (at_size a) (at_size old) [FUint64 (at_size a)] s1 _
    ltac:(intros r Hr; rewrite bind_cons, app_nil_r in Hr; by apply at_data_uint64) Hs1) as (s2&->&Hs2).
  destruct (at_data_opt (has (at_flags a) SSH_FILEXFER_ATTR_UIDGID)
    (fun s => let '(u, s) := get_uint32 s in let '(g, s) := get_uint32 s in (u, g, s)) (at_uid a, at_gid a) (at_uid old, at_gid old)
    [FUint32 (at_uid a); FUint32 (at_gid a)] s2 _
    ltac:(intros r Hr; by apply at_data_uint32_pair) Hs2) as (s3&->&Hs3).
  destruct (at_data_opt (has (at_flags a) SSH_FILEXFER_ATTR_PERMISSIONS) get_uint32 (at_permissions a) (at_permissions old)
    [FUint32 (at_permissions a)] s3 _
    ltac:(intros r Hr; rewrite bind_cons, app_nil_r in Hr; by apply at_data_uint32) Hs3) as (s4&E4&Hs4).
  destruct (at_data_opt (has (at_flags a) SSH_FILEXFER_ATTR_ACMODTIME)
    (fun s => let '(u, s) := get_uint32 s in let '(g, s) := get_uint32 s in (u, g, s)) (at_atime a, at_mtime a) (at_atime old, at_mtime old)
    [FUint32 (at_atime a); FUint32 (at_mtime a)] s4 _
    ltac:(intros r Hr; by apply at_data_uint32_pair) Hs4) as (s5&E5&Hs5).
  exists s5. split; [|done]. destruct (has (at_flags a) SSH_FILEXFER_ATTR_UIDGID); rewrite E4, E5; cbn [mbind option_bind];
    by destruct (has (at_flags a) SSH_FILEXFER_ATTR_ACMODTIME).
Qed.

(** ** Attributes in any packet *)

(** A getter without error that needs [n] bytes moves forward by [n], or reports an error. *)
Lemma get_string_progress src :
  src_ok src -> bs_err src = BSE_NO_ERROR ->
  src_ok (snd (get_string src))
  /\ (bs_err (snd (get_string src)) <> BSE_NO_ERROR \/ len (here (snd (get_string src))) + 4 <= len (here src)).
Proof.
  intros Hok He. pose proof (get_string_step src Hok) as (Hok'&Hd&_&_). split; [done|].
  revert Hok' Hd. unfold get_string, BinarySource_data_avail. rewrite decide_True by done.
  destruct (Z.leb_spec 4 (len (bs_data src) - bs_pos src)) as [H4|H4]; [|by left]. cbn [consume].
  set (n := GET_32BIT_MSB_FIRST (take (Z.to_nat 4) (here src))).
  assert (0 <= n) by (unfold n; by apply GET_32BIT_nonneg, take_here_ok).
  rewrite decide_True by done. destruct (n <=? _); [|by left]. intros Hok' Hd. right.
  rewrite (len_here _ Hok'), (len_here src Hok). cbn [consume snd advance bs_data bs_pos]. lia.
Qed.

Lemma skip_extended_total fuel count src :
  src_ok src -> len (here src) < Z.of_nat fuel -> exists src', skip_extended fuel count src = Some src' /\ src_ok src'.
Proof.
  revert count src; induction fuel as [|fuel IH]; intros count src Hok Hf; [pose proof (len_nonneg (here src)); lia|].
  cbn [skip_extended]. destruct (count =? 0); [eauto|].
  destruct (decide (bs_err src = BSE_NO_ERROR)) as [He|He]; [|rewrite bool_decide_false by done; cbn; eauto].
  rewrite bool_decide_true by done. cbn [negb]. destruct (get_string_progress src Hok He) as (Hok1&Hp1).
  destruct (get_string src) as [x1 s1] eqn:E1. cbn [snd] in *.
  destruct (get_string s1) as [x2 s2] eqn:E2. pose proof (get_string_step s1 Hok1) as (Hok2&Hd2&Hpos2&Hst2).
  rewrite E2 in *. cbn [snd] in *. destruct Hp1 as [Hbad|Hlen].
  - specialize (Hst2 Hbad) as ->. destruct fuel; cbn [skip_extended]; destruct (count - 1 =? 0); eauto;
      rewrite bool_decide_false by done; cbn; eauto.
  - apply IH; [done|]. rewrite (len_here s2 Hok2), Hd2. rewrite (len_here s1 Hok1) in Hlen. lia.
Qed.

Lemma uint32_step src : src_ok src -> get_step src (snd (get_uint32 src)).
Proof. intros Hok. by apply (fixed_step src 4 0 GET_32BIT_MSB_FIRST). Qed.
Lemma uint64_step src : src_ok src -> get_step src (snd (get_uint64 src)).
Proof. intros Hok. by apply (fixed_step src 8 0 GET_64BIT_MSB_FIRST). Qed.

Lemma opt_step {A} (b : bool) (get : BinarySource -> A * BinarySource) (old : A) src :
  src_ok src -> (forall s, src_ok s -> get_step s (snd (get s))) -> get_step src (snd (if b then get src else (old, src))).
Proof. intros Hok Hg. destruct b; [by apply Hg|]. by apply get_step_refl. Qed.

Lemma uint32_pair_step src :
  src_ok src -> get_step src (snd (let '(u, s) := get_uint32 src in let '(g, s) := get_uint32 s in (u, g, s))).
Proof.
  intros Hok. pose proof (uint32_step src Hok) as H1. destruct (get_uint32 src) as [u s1]. cbn [snd] in *.
  pose proof (uint32_step s1 ltac:(apply H1)) as H2. destruct (get_uint32 s1) as [g s2]. cbn [snd] in *. by transitivity s1.
Qed.

(** Whatever the packet holds, the attributes are read and the loop over the extensions ends. *)
Lemma get_attrs_total src old : src_ok src -> exists a src', get_fxp_attrs src old = Some (a, src') /\ src_ok src'.
Proof.
  intros Hok. unfold get_fxp_attrs. pose proof (uint32_step src Hok) as H1. destruct (get_uint32 src) as [flags s1]. cbn [snd] in H1.
  pose proof (opt_step (has flags SSH_FILEXFER_ATTR_SIZE) get_uint64 (at_size old) s1 ltac:(apply H1) uint64_step) as H2.
  destruct (if has flags SSH_FILEXFER_ATTR_SIZE then _ else _) as [size s2]. cbn [snd] in H2.
  pose proof (opt_step (has flags SSH_FILEXFER_ATTR_UIDGID) _ (at_uid old, at_gid old) s2 ltac:(apply H2) uint32_pair_step) as H3. cbv beta in H3.
  destruct (if has flags SSH_FILEXFER_ATTR_UIDGID then _ else _) as [[uid gid] s3]. cbn [snd] in H3.
  pose proof (opt_step (has flags SSH_FILEXFER_ATTR_PERMISSIONS) get_uint32 (at_permissions old) s3 ltac:(apply H3) uint32_step) as H4.
  destruct (if has flags SSH_FILEXFER_ATTR_PERMISSIONS then _ else _) as [perms s4]. cbn [snd] in H4.
  pose proof (opt_step (has flags SSH_FILEXFER_ATTR_ACMODTIME) _ (at_atime old, at_mtime old) s4 ltac:(apply H4) uint32_pair_step) as H5. cbv beta in H5.
  destruct (if has flags SSH_FILEXFER_ATTR_ACMODTIME then _ else _) as [[atime mtime] s5]. cbn [snd] in H5.
  destruct H5 as (Hok5&_). destruct (has flags SSH_FILEXFER_ATTR_EXTENDED); [|cbn; eauto].
  pose proof (uint32_step s5 Hok5) as (Hok6&_). destruct (get_uint32 s5) as [count s6]. cbn [snd] in Hok6.
  destruct (skip_extended_total (length (bs_data s6) + 1) count s6 Hok6) as (s7&->&Hok7); [|cbn; eauto].
  rewrite len_here by done. destruct Hok6 as [? _]. unfold len in *. lia.
Qed.
