(* ===== verification/Sftp.v ===== *)
(** * The SFTP client primitives (sftp.c)

    Requests carry an id; the ids of the requests that have not been answered are a 2-3-4
    tree, from which [sftp_alloc_request] picks the lowest free one.  Each operation of the
    protocol is a pair of functions: [fxp_*_send] allocates an id and sends a packet,
    [fxp_*_recv] decodes the answer.

    The state is the module's static variables together with what the module exchanges with
    the connection: the packets sent, and the bytes that are still to arrive (the
    contract of sftp.h: [sftp_recvdata] blocks until it has all the bytes asked for, or
    fails).  A [struct sftp_request] has an address; its id does not change and is kept
    with the address in the tree, its other fields are in a memory of their own.
    [None] is a failed [assert], an abnormal exit or a dead pointer. *)

From stdpp Require Import gmap sorting.
From S2P Require Import Prelude Memory Marshal Strbuf Tree234 SortedSet SftpPacket.
Open Scope Z_scope.

(** ** State *)

Record sftp_request := mkReq { r_addr : Z; r_id : Z }.
Record req_fields := mkFields { registered : bool; userdata : option Z }.

#[export] Instance sftp_request_eq_dec : EqDecision sftp_request.
Proof. solve_decision. Defined.

(** The messages built for [fxp_error]; [dupprintf] is not expanded. *)
Inductive fxp_message :=
| MText (s : list Z)
| MExpectedStatus (type : Z)
| MUnknownDesc (code : Z) (desc : list Z)
| MKnownDesc (code : Z) (desc : list Z).

Record session := mkSession {
  sftp_requests : option (tree234 sftp_request);
  req_mem : gmap Z req_fields;
  next_req : Z;
  fxp_error_message : fxp_message;
  fxp_errtype : Z;
  sent : list (list Z);
  input : list Z
}.

Definition set_requests (st : session) (t : tree234 sftp_request) (m : gmap Z req_fields) (next : Z) : session :=
  mkSession (Some t) m next (fxp_error_message st) (fxp_errtype st) (sent st) (input st).
Definition set_mem (st : session) (m : gmap Z req_fields) : session :=
  mkSession (sftp_requests st) m (next_req st) (fxp_error_message st) (fxp_errtype st) (sent st) (input st).
Definition set_error (st : session) (msg : fxp_message) (errtype : Z) : session :=
  mkSession (sftp_requests st) (req_mem st) (next_req st) msg errtype (sent st) (input st).
Definition set_sent (st : session) (l : list (list Z)) : session :=
  mkSession (sftp_requests st) (req_mem st) (next_req st) (fxp_error_message st) (fxp_errtype st) l (input st).

Definition fxp_internal_error (st : session) (msg : string) : session := set_error st (MText (codes msg)) (-1).

(** ** Sending *)

(** The result of [sftp_senddata] is ignored by every caller. *)
Definition sftp_send (st : session) (pkt : sftp_packet) : option session :=
  pkt ← sftp_send_prepare pkt;
  d ← pkt_bytes pkt;
  Some (set_sent st (sent st ++ [d])).

(** ** Request ids *)

Definition REQUEST_ID_OFFSET : Z := 256.

Definition sftp_reqcmp (a b : sftp_request) : Z :=
  if r_id a <? r_id b then -1 else if r_id b <? r_id a then 1 else 0.
(** [sftp_reqfind] compares an id in the place of the first request. *)
Definition id_key (id : Z) : sftp_request := mkReq 0 id.
Definition sftp_reqfind (id : Z) (b : sftp_request) : Z := sftp_reqcmp (id_key id) b.

(** [while (high - low > 1)], on [unsigned] variables. *)
Fixpoint alloc_search (fuel : nat) (t : tree234 sftp_request) (low high : Z) : option Z :=
  if 1 <? u32 (high - low) then
    match fuel with
    | O => None
    | S fuel =>
        let mid := u32 (high + low) / 2 in
        r ← ss_index t mid;
        if r_id r =? u32 (mid + REQUEST_ID_OFFSET) then alloc_search fuel t mid high
        else alloc_search fuel t low mid
    end
  else Some low.

Definition sftp_alloc_request (st : session) : option (session * sftp_request) :=
  let t := match sftp_requests st with Some t => t | None => ss_new sftp_reqcmp end in
  let tsize := ss_count t in
  low ← alloc_search (Z.to_nat tsize + 1) t (u32 (-1)) (u32 tsize);
  let i := u32 (low + 1 + REQUEST_ID_OFFSET) in
  found ← ss_find t (id_key i);
  assert! bool_decide (found = None);
  let r := mkReq (next_req st) i in
  '(t, _) ← ss_add t r;
  Some (set_requests st t (<[next_req st := mkFields false None]> (req_mem st)) (next_req st + 1), r).

(** The tree goes; the requests in it stay allocated. *)
Definition sftp_cleanup_request (st : session) : session :=
  mkSession None (req_mem st) (next_req st) (fxp_error_message st) (fxp_errtype st) (sent st) (input st).

Definition sftp_register (st : session) (req : sftp_request) : option session :=
  f ← req_mem st !! r_addr req;
  Some (set_mem st (<[r_addr req := mkFields true (userdata f)]> (req_mem st))).

Definition fxp_set_userdata (st : session) (req : sftp_request) (data : Z) : option session :=
  f ← req_mem st !! r_addr req;
  Some (set_mem st (<[r_addr req := mkFields (registered f) (Some data)]> (req_mem st))).

Definition fxp_get_userdata (st : session) (req : sftp_request) : option (option Z) :=
  f ← req_mem st !! r_addr req; Some (userdata f).

(** [sfree(req)] *)
Definition free_req (st : session) (req : sftp_request) : option session :=
  _ ← req_mem st !! r_addr req;
  Some (set_mem st (delete (r_addr req) (req_mem st))).

(** The request the packet answers, taken out of the tree, and the packet with its id read. *)
Definition sftp_find_request (st : session) (pktin : option packet_in) : option (session * option (sftp_request * packet_in)) :=
  match pktin with
  | None => Some (fxp_internal_error st "did not receive a valid SFTP packet", None)
  | Some pktin =>
      let '(id, src) := get_uint32 (in_src pktin) in
      if negb (bool_decide (bs_err src = BSE_NO_ERROR))
      then Some (fxp_internal_error st "did not receive a valid SFTP packet", None)
      else
        t ← sftp_requests st;
        found ← ss_find t (id_key id);
        match found with
        | None => Some (fxp_internal_error st "request ID mismatch", None)
        | Some req =>
            f ← req_mem st !! r_addr req;
            if negb (registered f) then Some (fxp_internal_error st "request ID mismatch", None)
            else
              '(t, _) ← ss_del t req;
              Some (set_requests st t (req_mem st) (next_req st), Some (req, mkIn (in_type pktin) src))
        end
  end.

(** ** Status packets *)

Definition messages : list string :=
  ["unexpected OK response"; "end of file"; "no such file or directory"; "permission denied"; "failure";
   "bad message"; "no connection"; "connection lost"; "operation unsupported"]%string.

(** [fxp_errtype = get_uint32(pktin)]: an [unsigned long] stored in an [int]. *)
Definition to_int (x : Z) : Z := if x <? 2 ^ 31 then x else x - 2 ^ 32.

Definition status_message (code : Z) (desc : option (list Z)) : fxp_message :=
  let known := (0 <=? code) && (code <? len messages) in
  let text := MText (codes (nth (Z.to_nat code) messages ""%string)) in
  match desc with
  | Some (c :: d) =>
      if negb (c =? 0) && (SSH_FX_FAILURE <=? code)
      then if known then MKnownDesc code (c :: d) else MUnknownDesc code (c :: d)
      else if known then text else MText (codes "received unknown error code")
  | _ => if known then text else MText (codes "received unknown error code")
  end.

Definition fxp_got_status (st : session) (pktin : packet_in) : session * Z :=
  let st :=
    if negb (in_type pktin =? SSH_FXP_STATUS) then set_error st (MExpectedStatus (in_type pktin)) (-1)
    else
      let '(code, src) := get_uint32 (in_src pktin) in
      if negb (bool_decide (bs_err src = BSE_NO_ERROR)) then set_error st (MText (codes "malformed FXP_STATUS packet")) (-1)
      else
        let '(ed, src) := get_string src in
        let desc := if bool_decide (bs_err src = BSE_NO_ERROR) then Some ed else None in
        set_error st (status_message (to_int code) desc) (to_int code) in
  (st, if fxp_errtype st =? SSH_FX_OK then 1 else if fxp_errtype st =? SSH_FX_EOF then 0 else -1).

Definition fxp_error_type (st : session) : Z := fxp_errtype st.
Definition fxp_error (st : session) : fxp_message := fxp_error_message st.

(** ** The primitives *)

(** [get_err(pktin)] after a getter. *)
Definition bad (src : BinarySource) : bool := negb (bool_decide (bs_err src = BSE_NO_ERROR)).
(** [mkstr]: a copy of the bytes, which a NUL follows. *)
Definition mkstr (pl : list Z) : list Z := pl.

Definition fxp_init (st : session) : option (session * bool) :=
  pktout ← sftp_pkt_init SSH_FXP_INIT;
  pktout ← put_uint32 pktout SFTP_PROTO_VERSION;
  st ← sftp_send st pktout;
  let '(pktin, inp) := sftp_recv (input st) in
  let st := mkSession (sftp_requests st) (req_mem st) (next_req st) (fxp_error_message st) (fxp_errtype st) (sent st) inp in
  match pktin with
  | None => Some (fxp_internal_error st "could not connect", false)
  | Some pktin =>
      if negb (in_type pktin =? SSH_FXP_VERSION) then Some (fxp_internal_error st "did not receive FXP_VERSION", false)
      else
        let '(remotever, src) := get_uint32 (in_src pktin) in
        if bad src then Some (fxp_internal_error st "malformed FXP_VERSION packet", false)
        else if SFTP_PROTO_VERSION <? remotever
        then Some (fxp_internal_error st "remote protocol is more advanced than we support", false)
        else Some (st, true)
  end.

Definition fxp_realpath_send (st : session) (path : list Z) : option (session * sftp_request) :=
  '(st, req) ← sftp_alloc_request st;
  pktout ← sftp_pkt_init SSH_FXP_REALPATH;
  pktout ← put_uint32 pktout (r_id req);
  pktout ← put_stringz pktout path;
  st ← sftp_send st pktout;
  Some (st, req).

Definition fxp_realpath_recv (st : session) (pktin : packet_in) (req : sftp_request) : option (session * option (list Z)) :=
  st ← free_req st req;
  if in_type pktin =? SSH_FXP_NAME then
    let '(count, src) := get_uint32 (in_src pktin) in
    if bad src || negb (count =? 1) then Some (fxp_internal_error st "REALPATH did not return name count of 1", None)
    else
      let '(name, src) := get_string src in
      if bad src then Some (fxp_internal_error st "REALPATH returned malformed FXP_NAME", None)
      else Some (st, Some (mkstr name))
  else Some (fst (fxp_got_status st pktin), None).

Definition fxp_open_send (st : session) (path : list Z) (type : Z) (attrs : option fxp_attrs) : option (session * sftp_request) :=
  '(st, req) ← sftp_alloc_request st;
  pktout ← sftp_pkt_init SSH_FXP_OPEN;
  pktout ← put_uint32 pktout (r_id req);
  pktout ← put_stringz pktout path;
  pktout ← put_uint32 pktout type;
  pktout ← put_fxp_attrs pktout (default no_attrs attrs);
  st ← sftp_send st pktout;
  Some (st, req).

(** [fxp_handle]: the string and its length. *)
Abbreviation fxp_handle := (list Z).

Definition fxp_got_handle (st : session) (pktin : packet_in) : session * option fxp_handle :=
  let '(id, src) := get_string (in_src pktin) in
  if bad src then (fxp_internal_error st "received malformed FXP_HANDLE", None)
  else (st, Some (mkstr id)).

Definition fxp_open_recv (st : session) (pktin : packet_in) (req : sftp_request) : option (session * option fxp_handle) :=
  st ← free_req st req;
  if in_type pktin =? SSH_FXP_HANDLE then Some (fxp_got_handle st pktin)
  else Some (fst (fxp_got_status st pktin), None).

Definition fxp_opendir_send (st : session) (path : list Z) : option (session * sftp_request) :=
  '(st, req) ← sftp_alloc_request st;
  pktout ← sftp_pkt_init SSH_FXP_OPENDIR;
  pktout ← put_uint32 pktout (r_id req);
  pktout ← put_stringz pktout path;
  st ← sftp_send st pktout;
  Some (st, req).

Definition fxp_opendir_recv (st : session) (pktin : packet_in) (req : sftp_request) : option (session * option fxp_handle) :=
  st ← free_req st req;
  if in_type pktin =? SSH_FXP_HANDLE then Some (fxp_got_handle st pktin)
  else Some (fst (fxp_got_status st pktin), None).

Definition fxp_close_send (st : session) (handle : fxp_handle) : option (session * sftp_request) :=
  '(st, req) ← sftp_alloc_request st;
  pktout ← sftp_pkt_init SSH_FXP_CLOSE;
  pktout ← put_uint32 pktout (r_id req);
  pktout ← put_string pktout handle;
  st ← sftp_send st pktout;
  Some (st, req).

Definition fxp_close_recv (st : session) (pktin : packet_in) (req : sftp_request) : option (session * bool) :=
  st ← free_req st req;
  let '(st, _) := fxp_got_status st pktin in
  Some (st, fxp_errtype st =? SSH_FX_OK).

Definition fxp_mkdir_send (st : session) (path : list Z) (attrs : option fxp_attrs) : option (session * sftp_request) :=
  '(st, req) ← sftp_alloc_request st;
  pktout ← sftp_pkt_init SSH_FXP_MKDIR;
  pktout ← put_uint32 pktout (r_id req);
  pktout ← put_stringz pktout path;
  pktout ← put_fxp_attrs pktout (default no_attrs attrs);
  st ← sftp_send st pktout;
  Some (st, req).

Definition fxp_mkdir_recv (st : session) (pktin : packet_in) (req : sftp_request) : option (session * bool) :=
  st ← free_req st req;
  let '(st, id) := fxp_got_status st pktin in
  Some (st, id =? 1).

Definition fxp_rmdir_send (st : session) (path : list Z) : option (session * sftp_request) :=
  '(st, req) ← sftp_alloc_request st;
  pktout ← sftp_pkt_init SSH_FXP_RMDIR;
  pktout ← put_uint32 pktout (r_id req);
  pktout ← put_stringz pktout path;
  st ← sftp_send st pktout;
  Some (st, req).

Definition fxp_rmdir_recv (st : session) (pktin : packet_in) (req : sftp_request) : option (session * bool) :=
  st ← free_req st req;
  let '(st, id) := fxp_got_status st pktin in
  Some (st, id =? 1).

Definition fxp_remove_send (st : session) (fname : list Z) : option (session * sftp_request) :=
  '(st, req) ← sftp_alloc_request st;
  pktout ← sftp_pkt_init SSH_FXP_REMOVE;
  pktout ← put_uint32 pktout (r_id req);
  pktout ← put_stringz pktout fname;
  st ← sftp_send st pktout;
  Some (st, req).

Definition fxp_remove_recv (st : session) (pktin : packet_in) (req : sftp_request) : option (session * bool) :=
  st ← free_req st req;
  let '(st, id) := fxp_got_status st pktin in
  Some (st, id =? 1).

Definition fxp_rename_send (st : session) (srcfname dstfname : list Z) : option (session * sftp_request) :=
  '(st, req) ← sftp_alloc_request st;
  pktout ← sftp_pkt_init SSH_FXP_RENAME;
  pktout ← put_uint32 pktout (r_id req);
  pktout ← put_stringz pktout srcfname;
  pktout ← put_stringz pktout dstfname;
  st ← sftp_send st pktout;
  Some (st, req).

Definition fxp_rename_recv (st : session) (pktin : packet_in) (req : sftp_request) : option (session * bool) :=
  st ← free_req st req;
  let '(st, id) := fxp_got_status st pktin in
  Some (st, id =? 1).

Definition fxp_stat_send (st : session) (fname : list Z) : option (session * sftp_request) :=
  '(st, req) ← sftp_alloc_request st;
  pktout ← sftp_pkt_init SSH_FXP_STAT;
  pktout ← put_uint32 pktout (r_id req);
  pktout ← put_stringz pktout fname;
  st ← sftp_send st pktout;
  Some (st, req).

(** The caller's [*attrs], and whether it was filled in. *)
Definition fxp_got_attrs (st : session) (pktin : packet_in) (attrs : fxp_attrs) : option (session * fxp_attrs * bool) :=
  '(attrs, src) ← get_fxp_attrs (in_src pktin) attrs;
  if bad src then Some (fxp_internal_error st "malformed SSH_FXP_ATTRS packet", attrs, false)
  else Some (st, attrs, true).

Definition fxp_stat_recv (st : session) (pktin : packet_in) (req : sftp_request) (attrs : fxp_attrs)
  : option (session * fxp_attrs * bool) :=
  st ← free_req st req;
  if in_type pktin =? SSH_FXP_ATTRS then fxp_got_attrs st pktin attrs
  else Some (fst (fxp_got_status st pktin), attrs, false).

Definition fxp_fstat_send (st : session) (handle : fxp_handle) : option (session * sftp_request) :=
  '(st, req) ← sftp_alloc_request st;
  pktout ← sftp_pkt_init SSH_FXP_FSTAT;
  pktout ← put_uint32 pktout (r_id req);
  pktout ← put_string pktout handle;
  st ← sftp_send st pktout;
  Some (st, req).

Definition fxp_fstat_recv (st : session) (pktin : packet_in) (req : sftp_request) (attrs : fxp_attrs)
  : option (session * fxp_attrs * bool) :=
  st ← free_req st req;
  if in_type pktin =? SSH_FXP_ATTRS then fxp_got_attrs st pktin attrs
  else Some (fst (fxp_got_status st pktin), attrs, false).

Definition fxp_setstat_send (st : session) (fname : list Z) (attrs : fxp_attrs) : option (session * sftp_request) :=
  '(st, req) ← sftp_alloc_request st;
  pktout ← sftp_pkt_init SSH_FXP_SETSTAT;
  pktout ← put_uint32 pktout (r_id req);
  pktout ← put_stringz pktout fname;
  pktout ← put_fxp_attrs pktout attrs;
  st ← sftp_send st pktout;
  Some (st, req).

Definition fxp_setstat_recv (st : session) (pktin : packet_in) (req : sftp_request) : option (session * bool) :=
  st ← free_req st req;
  let '(st, id) := fxp_got_status st pktin in
  Some (st, id =? 1).

Definition fxp_fsetstat_send (st : session) (handle : fxp_handle) (attrs : fxp_attrs) : option (session * sftp_request) :=
  '(st, req) ← sftp_alloc_request st;
  pktout ← sftp_pkt_init SSH_FXP_FSETSTAT;
  pktout ← put_uint32 pktout (r_id req);
  pktout ← put_string pktout handle;
  pktout ← put_fxp_attrs pktout attrs;
  st ← sftp_send st pktout;
  Some (st, req).

Definition fxp_fsetstat_recv (st : session) (pktin : packet_in) (req : sftp_request) : option (session * bool) :=
  st ← free_req st req;
  let '(st, id) := fxp_got_status st pktin in
  Some (st, id =? 1).

Definition fxp_read_send (st : session) (handle : fxp_handle) (offset n : Z) : option (session * sftp_request) :=
  '(st, req) ← sftp_alloc_request st;
  pktout ← sftp_pkt_init SSH_FXP_READ;
  pktout ← put_uint32 pktout (r_id req);
  pktout ← put_string pktout handle;
  pktout ← put_uint64 pktout offset;
  pktout ← put_uint32 pktout n;
  st ← sftp_send st pktout;
  Some (st, req).

(** The return value and the bytes copied to the buffer, which holds [n]. *)
Definition fxp_read_recv (st : session) (pktin : packet_in) (req : sftp_request) (n : Z) : option (session * Z * list Z) :=
  st ← free_req st req;
  if in_type pktin =? SSH_FXP_DATA then
    let '(data, src) := get_string (in_src pktin) in
    if bad src then Some (fxp_internal_error st "READ returned malformed SSH_FXP_DATA packet", -1, [])
    else if n <? len data then Some (fxp_internal_error st "READ returned more bytes than requested", -1, [])
    else Some (st, len data, data)
  else Some (fst (fxp_got_status st pktin), -1, []).

Definition fxp_readdir_send (st : session) (handle : fxp_handle) : option (session * sftp_request) :=
  '(st, req) ← sftp_alloc_request st;
  pktout ← sftp_pkt_init SSH_FXP_READDIR;
  pktout ← put_uint32 pktout (r_id req);
  pktout ← put_string pktout handle;
  st ← sftp_send st pktout;
  Some (st, req).

Record fxp_name := mkName { filename : list Z; longname : list Z; nm_attrs : fxp_attrs }.

(** [for (i = 0; i < nnames; i++)]; [uninit] is what the new array holds. *)
Fixpoint readdir_loop (n : nat) (i : Z) (uninit : Z -> fxp_attrs) (src : BinarySource) : option (list fxp_name * BinarySource) :=
  match n with
  | O => Some ([], src)
  | S n =>
      let '(f, src) := get_string src in
      let '(l, src) := get_string src in
      '(a, src) ← get_fxp_attrs src (uninit i);
      '(names, src) ← readdir_loop n (i + 1) uninit src;
      Some (mkName (mkstr f) (mkstr l) a :: names, src)
  end.

(** [sizeof(struct fxp_name)]: two pointers and seven 64-bit fields. *)
Definition sizeof_fxp_name : Z := 72.

Definition get_avail (src : BinarySource) : Z := len (bs_data src) - bs_pos src.

Definition fxp_readdir_recv (st : session) (pktin : packet_in) (req : sftp_request) (uninit : Z -> fxp_attrs)
  : option (session * option (list fxp_name)) :=
  st ← free_req st req;
  if in_type pktin =? SSH_FXP_NAME then
    let '(i, src) := get_uint32 (in_src pktin) in
    if bad src || (get_avail src / 12 <? i) then Some (fxp_internal_error st "malformed FXP_NAME packet", None)
    else if INT_MAX / sizeof_fxp_name <? i then Some (fxp_internal_error st "unreasonably large FXP_NAME packet", None)
    else
      '(names, src) ← readdir_loop (Z.to_nat i) 0 uninit src;
      if bad src then Some (fxp_internal_error st "malformed FXP_NAME packet", None)
      else Some (st, Some names)
  else Some (fst (fxp_got_status st pktin), None).

Definition fxp_write_send (st : session) (handle : fxp_handle) (buffer : list Z) (offset : Z) : option (session * sftp_request) :=
  '(st, req) ← sftp_alloc_request st;
  pktout ← sftp_pkt_init SSH_FXP_WRITE;
  pktout ← put_uint32 pktout (r_id req);
  pktout ← put_string pktout handle;
  pktout ← put_uint64 pktout offset;
  pktout ← put_string pktout buffer;
  st ← sftp_send st pktout;
  Some (st, req).

Definition fxp_write_recv (st : session) (pktin : packet_in) (req : sftp_request) : option (session * bool) :=
  st ← free_req st req;
  let '(st, _) := fxp_got_status st pktin in
  Some (st, fxp_errtype st =? SSH_FX_OK).

Definition session_init (inp : list Z) : session := mkSession None ∅ 0 (MText []) 0 [] inp.

Example sftp_examples :
  let st := session_init [0;0;0;5;2;0;0;0;3] in
  option_map (fun '(st, ok) => (sent st, input st, ok)) (fxp_init st) = Some ([[0;0;0;5;1;0;0;0;3]], [], true)
  /\ option_map (fun '(st, req) => (sent st, r_id req)) ('(st, _) ← fxp_stat_send st [47]; fxp_rmdir_send st [47; 97])
     = Some ([[0;0;0;10;17;0;0;1;0;0;0;0;1;47]; [0;0;0;11;15;0;0;1;1;0;0;0;2;47;97]], 257).
Proof. split; vm_compute; reflexivity. Qed.

(** ** Allocation of ids *)

#[export] Instance reqcmp_total : TotalCmp sftp_reqcmp.
Proof. unfold sftp_reqcmp. split; intros *; repeat bcase; cbn; lia. Qed.

Lemma reqcmp_lt a b : sftp_reqcmp a b < 0 <-> r_id a < r_id b.
Proof. unfold sftp_reqcmp. repeat bcase; lia. Qed.

Lemma reqcmp_eq a b : sftp_reqcmp a b = 0 <-> r_id a = r_id b.
Proof. unfold sftp_reqcmp. repeat bcase; lia. Qed.

Section Alloc.
Context (rs : list sftp_request) (Hs : sorted sftp_reqcmp rs) (Hlow : Forall (fun r => REQUEST_ID_OFFSET <= r_id r) rs).

(** Distinct ids in order are at least as far apart as their positions. *)
Lemma ids_gap i j x y : rs !! i = Some x -> rs !! j = Some y -> (i <= j)%nat -> r_id x + Z.of_nat (j - i) <= r_id y.
Proof using Hs.
  intros Hx Hy Hij. remember (j - i)%nat as d eqn:Ed. revert j y Hy Hij Ed. induction d as [|d IH]; intros j y Hy Hij Ed.
  { assert (i = j) as -> by lia. rewrite Hx in Hy. injection Hy as ->. lia. }
  destruct j as [|j]; [lia|]. destruct (rs !! j) as [z|] eqn:Hz.
  2: { apply lookup_ge_None_1 in Hz. apply lookup_lt_Some in Hy. lia. }
  specialize (IH j z Hz ltac:(lia) ltac:(lia)).
  assert (r_id z < r_id y); [|lia]. pose proof Hs as Hs'. rewrite <- (take_drop_middle rs j z Hz) in Hs'.
  apply StronglySorted_app_1_r in Hs'. inversion Hs' as [|? ? _ Hf]; subst. apply reqcmp_lt.
  apply (Forall_lookup_1 _ _ 0%nat y Hf). rewrite lookup_drop. by rewrite Nat.add_0_r.
Qed.

Lemma ids_above i x : rs !! i = Some x -> Z.of_nat i + REQUEST_ID_OFFSET <= r_id x.
Proof using Hs Hlow.
  intros Hx. destruct (rs !! 0%nat) as [y|] eqn:Hy.
  - pose proof (ids_gap 0 i y x Hy Hx ltac:(lia)) as Hg. rewrite Nat.sub_0_r in Hg.
    pose proof (Forall_lookup_1 _ _ _ _ Hlow Hy) as Hl. cbn in Hl. lia.
  - apply lookup_ge_None_1 in Hy. apply lookup_lt_Some in Hx. lia.
Qed.

(** [L] is the last position of the initial run of consecutive ids. *)
Definition run_ends (L : Z) : Prop :=
  -1 <= L < len rs
  /\ (forall i x, rs !! i = Some x -> Z.of_nat i <= L -> r_id x = Z.of_nat i + REQUEST_ID_OFFSET)
  /\ (forall i x, rs !! i = Some x -> L < Z.of_nat i -> Z.of_nat i + REQUEST_ID_OFFSET < r_id x).

Lemma alloc_search_spec t fuel L H :
  tree_ok t -> elements t = rs -> len rs < 2 ^ 31 -> -1 <= L < H -> H <= len rs -> H - L - 1 <= Z.of_nat fuel ->
  (forall i x, rs !! i = Some x -> Z.of_nat i <= L -> r_id x = Z.of_nat i + REQUEST_ID_OFFSET) ->
  (forall i x, rs !! i = Some x -> H <= Z.of_nat i -> Z.of_nat i + REQUEST_ID_OFFSET < r_id x) ->
  exists L', alloc_search fuel t (u32 L) H = Some (u32 L') /\ run_ends L'.
Proof using Hs Hlow.
  intros Hok El Hn. revert L H; induction fuel as [|fuel IH]; intros L H HL HH Hf Hlo Hhi; cbn [alloc_search].
  all: assert (u32 (H - u32 L) = H - L) as -> by (unfold wrap; rewrite Zminus_mod_idemp_r; apply Z.mod_small; lia).
  all: destruct (Z.ltb_spec 1 (H - L)) as [Hgt|Hle];
    [|exists L; split; [done|]; split; [lia|]; split; [done|]; intros i x Hx Hi; apply Hhi; [done|lia]].
  { lia. }
  assert (u32 (H + u32 L) / 2 = (H + L) / 2) as ->.
  { f_equal. unfold wrap. rewrite Zplus_mod_idemp_r. apply Z.mod_small. lia. }
  set (mid := (H + L) / 2). assert (L < mid < H /\ 0 <= mid) as Hmid by (unfold mid; zdivmod).
  destruct (rs !! Z.to_nat mid) as [r|] eqn:Er; [|apply lookup_ge_None_1 in Er; unfold len in *; lia].
  assert (ss_index t mid = Some r) as ->.
  { cbn. destruct Hok as [h Hw]. rewrite (index234_spec t h) by done. rewrite (proj2 (Z.ltb_ge mid 0)) by lia.
    change (to_list (root t)) with (elements t). by rewrite El. }
  cbn [mbind option_bind]. unfold REQUEST_ID_OFFSET at 1. rewrite wrap_id by (unfold word_ok; lia).
  destruct (Z.eqb_spec (r_id r) (mid + 256)) as [Eq|Ne].
  - destruct (IH mid H) as (L'&E'&HR); try lia; [|done|rewrite (wrap_id 32 mid) in E' by (unfold word_ok; lia); eauto].
    intros i x Hx Hi. pose proof (ids_above i x Hx). pose proof (ids_gap i (Z.to_nat mid) x r Hx Er ltac:(lia)).
    unfold REQUEST_ID_OFFSET in *. lia.
  - apply IH; try lia; [done|]. intros i x Hx Hi. pose proof (ids_above _ _ Er).
    pose proof (ids_gap (Z.to_nat mid) i r x Er Hx ltac:(lia)). unfold REQUEST_ID_OFFSET in *. lia.
Qed.

(** The id after the run is free, and every smaller one is taken. *)
Lemma run_ends_free L :
  run_ends L -> (forall x, x ∈ rs -> r_id x <> L + 1 + REQUEST_ID_OFFSET)
  /\ forall id, REQUEST_ID_OFFSET <= id < L + 1 + REQUEST_ID_OFFSET -> exists x, x ∈ rs /\ r_id x = id.
Proof using Hs Hlow.
  intros (HL&Hlo&Hhi). split.
  - intros x [i Hx]%list_elem_of_lookup Eid. destruct (Z.le_gt_cases (Z.of_nat i) L) as [Hi|Hi].
    + specialize (Hlo i x Hx Hi). lia.
    + specialize (Hhi i x Hx Hi). lia.
  - intros id Hid. destruct (rs !! Z.to_nat (id - REQUEST_ID_OFFSET)) as [x|] eqn:Hx.
    + exists x. split; [by eapply list_elem_of_lookup_2|]. rewrite (Hlo _ x Hx); lia.
    + apply lookup_ge_None_1 in Hx. unfold len in *. lia.
Qed.
End Alloc.

(** ** The invariant of the session *)

Definition pending (st : session) : list sftp_request :=
  match sftp_requests st with Some t => elements t | None => [] end.

Definition sess_ok (st : session) : Prop :=
  match sftp_requests st with Some t => sorted_tree sftp_reqcmp t | None => True end
  /\ Forall (fun r => REQUEST_ID_OFFSET <= r_id r /\ is_Some (req_mem st !! r_addr r)) (pending st)
  /\ NoDup (r_addr <$> pending st)
  /\ (forall a, is_Some (req_mem st !! a) -> a < next_req st).

(** The lowest id that is not in use. *)
Definition lowest_free (rs : list sftp_request) (id : Z) : Prop :=
  REQUEST_ID_OFFSET <= id /\ (forall x, x ∈ rs -> r_id x <> id)
  /\ forall k, REQUEST_ID_OFFSET <= k < id -> exists x, x ∈ rs /\ r_id x = k.

Lemma pending_sorted st : sess_ok st -> sorted sftp_reqcmp (pending st).
Proof. intros (Ht&_). unfold pending. destruct (sftp_requests st); [apply Ht|constructor]. Qed.

Lemma pending_tree st :
  sess_ok st -> let t := match sftp_requests st with Some t => t | None => ss_new sftp_reqcmp end in
  sorted_tree sftp_reqcmp t /\ elements t = pending st.
Proof.
  intros (Ht&_). unfold pending. destruct (sftp_requests st) as [t|]; [done|].
  exact (@ss_new_spec _ _ _ _ (tree234_set_laws sftp_request sftp_reqcmp)).
Qed.

(** A request that has just been allocated. *)
Record allocated (st st' : session) (r : sftp_request) : Prop := {
  al_addr : r_addr r = next_req st;
  al_next : next_req st' = next_req st + 1;
  al_mem : req_mem st' = <[r_addr r := mkFields false None]> (req_mem st);
  al_pending : pending st' ≡ₚ r :: pending st;
  al_id : lowest_free (pending st) (r_id r) /\ word_ok 32 (r_id r);
  al_error : fxp_error_message st' = fxp_error_message st /\ fxp_errtype st' = fxp_errtype st;
  al_input : input st' = input st
}.

Lemma alloc_spec st :
  sess_ok st -> len (pending st) < 2 ^ 31 ->
  exists st' r, sftp_alloc_request st = Some (st', r) /\ sess_ok st' /\ allocated st st' r /\ sent st' = sent st.
Proof.
  intros Hok Hn. pose proof Hok as (_&Hf&Hnd&Hmem). destruct (pending_tree st Hok) as [Ht El]. unfold sftp_alloc_request.
  set (t := match sftp_requests st with Some t => t | None => ss_new sftp_reqcmp end) in *.
  assert (ss_count t = len (pending st)) as -> by (rewrite <- El; by apply count234_spec, Ht).
  pose proof (len_nonneg (pending st)). rewrite (wrap_id 32 (len (pending st))) by (unfold word_ok; lia).
  assert (Forall (fun r => REQUEST_ID_OFFSET <= r_id r) (pending st)) as Hlow by (eapply Forall_impl; [exact Hf|]; cbn; tauto).
  destruct (alloc_search_spec (pending st) (pending_sorted st Hok) Hlow t (Z.to_nat (len (pending st)) + 1) (-1) (len (pending st)))
    as (L&->&HR); [apply Ht|done|done|lia|lia|lia|intros; lia|intros i x Hx Hi; apply lookup_lt_Some in Hx; unfold len in *; lia|].
  cbn [mbind option_bind]. pose proof HR as (HL&_&_). destruct (run_ends_free (pending st) (pending_sorted st Hok) Hlow L HR) as [Hfree Hused].
  assert (u32 (u32 L + 1 + REQUEST_ID_OFFSET) = L + 1 + REQUEST_ID_OFFSET) as ->.
  { unfold wrap, REQUEST_ID_OFFSET. rewrite <- Z.add_assoc, Zplus_mod_idemp_l. rewrite Z.add_assoc. apply Z.mod_small. lia. }
  set (i := L + 1 + REQUEST_ID_OFFSET) in *.
  destruct (ss_find_spec (T := tree234 sftp_request) sftp_reqcmp t (id_key i)) as (fr&->&Hfr); [exact Ht|].
  cbn [mbind option_bind]. destruct fr as [x|].
  { destruct Hfr as [Hx Hc]. apply reqcmp_eq in Hc. exfalso. apply (Hfree x); [by rewrite <- El|]. by rewrite <- Hc. }
  rewrite bool_decide_true by done. set (r := mkReq (next_req st) i).
  destruct (add_sorted_spec sftp_reqcmp t r Ht) as (t'&r'&E&Ht'&Hcase). cbn [ss_add tree234_set]. rewrite E. cbn [mbind option_bind].
  destruct Hcase as [(Hr&Hc&_)|(->&_&l1&l2&E1&E2)].
  { apply reqcmp_eq in Hc. exfalso. apply (Hfree r'); [by rewrite <- El|]. by rewrite <- Hc. }
  assert (pending (set_requests st t' (<[next_req st := mkFields false None]> (req_mem st)) (next_req st + 1)) ≡ₚ r :: pending st) as Hperm.
  { unfold pending at 1. cbn. rewrite E2, <- El, E1. symmetry. apply Permutation_middle. }
  eexists _, _. split; [done|]. split; [|split; [|done]].
  - split; [exact Ht'|]. split; [|split].
    + rewrite Hperm. apply Forall_cons. split; [cbn; rewrite lookup_insert_eq; split; [unfold i, REQUEST_ID_OFFSET; lia|eauto]|].
      eapply Forall_impl; [exact Hf|]. cbn. intros x [Hx [f Hfx]]. split; [done|]. rewrite lookup_insert_ne; [eauto|].
      intros Ea. specialize (Hmem (r_addr x) ltac:(eauto)). lia.
    + rewrite Hperm. cbn. apply NoDup_cons. split; [|done]. intros (x&Ea&Hx)%list_elem_of_fmap.
      rewrite Forall_forall in Hf. destruct (Hf x Hx) as [_ Hs]. specialize (Hmem (r_addr x) Hs). lia.
    + cbn. intros a. destruct (decide (a = next_req st)) as [->|]; [lia|]. rewrite lookup_insert_ne by done.
      intros Ha%Hmem. lia.
  - constructor; try done. split; [|unfold word_ok, i, REQUEST_ID_OFFSET; cbn; unfold i, REQUEST_ID_OFFSET; lia].
    split; [cbn; unfold i, REQUEST_ID_OFFSET; lia|]. split; [done|exact Hused].
Qed.

(** ** Requests on the wire *)

(** The operations of the protocol, with their packet types and fields (after the id). *)
Inductive fxp_op :=
| Realpath (path : list Z) | Open (path : list Z) (type : Z) (attrs : option fxp_attrs) | Opendir (path : list Z)
| Close (h : fxp_handle) | Mkdir (path : list Z) (attrs : option fxp_attrs) | Rmdir (path : list Z) | Remove (path : list Z)
| Rename (src dst : list Z) | Stat (path : list Z) | Fstat (h : fxp_handle) | Setstat (path : list Z) (attrs : fxp_attrs)
| Fsetstat (h : fxp_handle) (attrs : fxp_attrs) | Read (h : fxp_handle) (offset n : Z) | Readdir (h : fxp_handle)
| Write (h : fxp_handle) (offset : Z) (data : list Z).

Definition op_type (op : fxp_op) : Z :=
  match op with
  | Realpath _ => SSH_FXP_REALPATH | Open _ _ _ => SSH_FXP_OPEN | Opendir _ => SSH_FXP_OPENDIR | Close _ => SSH_FXP_CLOSE
  | Mkdir _ _ => SSH_FXP_MKDIR | Rmdir _ => SSH_FXP_RMDIR | Remove _ => SSH_FXP_REMOVE | Rename _ _ => SSH_FXP_RENAME
  | Stat _ => SSH_FXP_STAT | Fstat _ => SSH_FXP_FSTAT | Setstat _ _ => SSH_FXP_SETSTAT | Fsetstat _ _ => SSH_FXP_FSETSTAT
  | Read _ _ _ => SSH_FXP_READ | Readdir _ => SSH_FXP_READDIR | Write _ _ _ => SSH_FXP_WRITE
  end.

Definition op_fields (op : fxp_op) : list field :=
  match op with
  | Realpath p | Opendir p | Rmdir p | Remove p | Stat p => [FString p]
  | Close h | Fstat h | Readdir h => [FString h]
  | Open p type a => FString p :: FUint32 type :: attrs_fields (default no_attrs a)
  | Mkdir p a => FString p :: attrs_fields (default no_attrs a)
  | Rename p q => [FString p; FString q]
  | Setstat p a | Fsetstat p a => FString p :: attrs_fields a
  | Read h o n => [FString h; FUint64 o; FUint32 n]
  | Write h o d => [FString h; FUint64 o; FString d]
  end.

Definition fxp_send (st : session) (op : fxp_op) : option (session * sftp_request) :=
  match op with
  | Realpath p => fxp_realpath_send st p
  | Open p type a => fxp_open_send st p type a
  | Opendir p => fxp_opendir_send st p
  | Close h => fxp_close_send st h
  | Mkdir p a => fxp_mkdir_send st p a
  | Rmdir p => fxp_rmdir_send st p
  | Remove p => fxp_remove_send st p
  | Rename p q => fxp_rename_send st p q
  | Stat p => fxp_stat_send st p
  | Fstat h => fxp_fstat_send st h
  | Setstat p a => fxp_setstat_send st p a
  | Fsetstat h a => fxp_fsetstat_send st h a
  | Read h o n => fxp_read_send st h o n
  | Readdir h => fxp_readdir_send st h
  | Write h o d => fxp_write_send st h d o
  end.

Definition op_ok (op : fxp_op) : Prop := Forall field_ok (op_fields op) /\ len (op_fields op ≫= field_enc) <= 2 ^ 29 - 4.

(** Every send function allocates an id and builds one packet from its fields. *)
Definition send_request (st : session) (type : Z) (fs : list field) : option (session * sftp_request) :=
  '(st, req) ← sftp_alloc_request st;
  d ← build type (FUint32 (r_id req) :: fs);
  Some (set_sent st (sent st ++ [d]), req).

Ltac put_case :=
  match goal with
  | |- context [put_uint32 ?p ?v] => destruct (put_uint32 p v) as [?|]
  | |- context [put_uint64 ?p ?v] => destruct (put_uint64 p v) as [?|]
  | |- context [put_string ?p ?v] => destruct (put_string p v) as [?|]
  end; cbn [mbind option_bind]; try done.

Lemma fxp_send_request st op : fxp_send st op = send_request st (op_type op) (op_fields op).
Proof.
  unfold send_request, build.
  destruct op; cbn [fxp_send op_type op_fields];
  unfold fxp_realpath_send, fxp_open_send, fxp_opendir_send, fxp_close_send, fxp_mkdir_send, fxp_rmdir_send, fxp_remove_send, fxp_rename_send,
    fxp_stat_send, fxp_fstat_send, fxp_setstat_send, fxp_fsetstat_send, fxp_read_send, fxp_readdir_send, fxp_write_send, sftp_send, put_stringz;
  destruct (sftp_alloc_request st) as [[st1 req]|]; cbn [mbind option_bind]; try done;
  destruct (sftp_pkt_init _) as [p|]; cbn [mbind option_bind]; try done;
  cbn [put_fields put_field]; repeat put_case.
  all: rewrite ?put_attrs_fields; try (destruct (put_fields _ (attrs_fields _)) as [?|]; cbn [mbind option_bind]; try done).
  all: destruct (sftp_send_prepare _) as [q|]; cbn [mbind option_bind]; try done; by destruct (pkt_bytes q).
Qed.

Lemma sess_ok_sent st l : sess_ok st -> sess_ok (set_sent st l).
Proof. done. Qed.
Lemma sess_ok_error st msg e : sess_ok st -> sess_ok (set_error st msg e).
Proof. done. Qed.

Lemma op_type_ok op : word_ok 8 (op_type op).
Proof. by destruct op. Qed.

Lemma send_spec st op :
  sess_ok st -> len (pending st) < 2 ^ 31 -> op_ok op ->
  exists st' req, fxp_send st op = Some (st', req) /\ sess_ok st' /\ allocated st st' req
    /\ sent st' = sent st ++ [frame (op_type op) (FUint32 (r_id req) :: op_fields op)].
Proof.
  intros Hok Hn (Hf&Hl). rewrite fxp_send_request. unfold send_request.
  destruct (alloc_spec st Hok Hn) as (st1&req&->&Hok1&Hal&Hsent). cbn [mbind option_bind].
  rewrite build_frame; [|apply op_type_ok| |].
  - cbn [mbind option_bind]. eexists _, _. split; [done|]. split; [done|]. split; [by destruct Hal; constructor|]. cbn. by rewrite Hsent.
  - apply Forall_cons. split; [apply Hal|done].
  - rewrite bind_cons, len_app. cbn [field_enc]. rewrite len_be_split. lia.
Qed.

(** ** Matching an answer to its request *)

(** [req] has been taken out of the tree. *)
Record taken (st st' : session) (req : sftp_request) : Prop := {
  tk_pending : pending st ≡ₚ req :: pending st';
  tk_mem : req_mem st' = req_mem st;
  tk_next : next_req st' = next_req st;
  tk_error : fxp_error_message st' = fxp_error_message st /\ fxp_errtype st' = fxp_errtype st;
  tk_io : sent st' = sent st /\ input st' = input st
}.

Lemma pending_id_inj st x y : sess_ok st -> x ∈ pending st -> y ∈ pending st -> r_id x = r_id y -> x = y.
Proof. intros Hok Hx Hy E. apply (sorted_unique sftp_reqcmp (pending st)); [by apply pending_sorted|done|done|by apply reqcmp_eq]. Qed.

(** Taking a pending request out of the tree. *)
Lemma take_request st t req :
  sess_ok st -> sftp_requests st = Some t -> req ∈ pending st ->
  exists t', ss_del t req = Some (t', Some req) /\ sess_ok (set_requests st t' (req_mem st) (next_req st))
    /\ taken st (set_requests st t' (req_mem st) (next_req st)) req.
Proof.
  intros Hok Et Hreq. pose proof Hok as (Ht&Hf&Hnd&Hmem). rewrite Et in Ht.
  assert (pending st = elements t) as Ep by (unfold pending; by rewrite Et).
  destruct (del_sorted_spec sftp_reqcmp t req Ht) as (t'&r&E&Ht'&Hcase). cbn [ss_del tree234_set]. rewrite E.
  destruct r as [y|].
  2: { exfalso. destruct Hcase as [_ Hne]. rewrite Forall_forall in Hne. apply (Hne req); [by rewrite <- Ep|]. by apply reqcmp_eq. }
  destruct Hcase as (Hc&l1&l2&E1&E2). apply reqcmp_eq in Hc.
  assert (y = req) as ->.
  { apply (pending_id_inj st); [done| |done|done]. rewrite Ep, E1. apply elem_of_app. right. by left. }
  assert (pending st ≡ₚ req :: pending (set_requests st t' (req_mem st) (next_req st))) as Hperm.
  { rewrite Ep, E1. unfold pending. cbn. rewrite E2. symmetry. apply Permutation_middle. }
  exists t'. split; [done|]. split; [|by constructor].
  rewrite Hperm in Hf, Hnd. apply Forall_cons in Hf as [_ Hf]. apply NoDup_cons in Hnd as [_ Hnd]. by split_and!.
Qed.

(** Any packet: either it answers a registered pending request, which is taken out, or it is reported. *)
Lemma find_request_any st pktin :
  sess_ok st -> is_Some (sftp_requests st) -> src_ok (in_src pktin) ->
  let '(id, src) := get_uint32 (in_src pktin) in
  exists st' found, sftp_find_request st (Some pktin) = Some (st', found) /\ sess_ok st' /\
    match found with
    | None => pending st' = pending st /\ fxp_errtype st' = -1
        /\ forall req ud, req ∈ pending st -> req_mem st !! r_addr req = Some (mkFields true ud) -> bs_err src = BSE_NO_ERROR -> r_id req <> id
    | Some (req, pktin') =>
        taken st st' req /\ req ∈ pending st /\ (exists ud, req_mem st !! r_addr req = Some (mkFields true ud))
        /\ bs_err src = BSE_NO_ERROR /\ r_id req = id /\ pktin' = mkIn (in_type pktin) src
    end.
Proof.
  intros Hok [t Et] Hsrc. pose proof Hok as (Ht&Hf&_). rewrite Et in Ht. unfold sftp_find_request.
  destruct (get_uint32 (in_src pktin)) as [id src] eqn:Eg.
  assert (pending st = elements t) as Ep by (unfold pending; by rewrite Et).
  destruct (negb _) eqn:Eb.
  { eexists _, None. split; [done|]. split_and!; try done. intros req ud _ _ Hno. by rewrite bool_decide_true in Eb. }
  apply negb_false_iff, bool_decide_eq_true in Eb. rewrite Et. cbn [mbind option_bind].
  destruct (ss_find_spec (T := tree234 sftp_request) sftp_reqcmp t (id_key id)) as (fr&->&Hfr); [exact Ht|].
  cbn [mbind option_bind]. destruct fr as [x|].
  2: { eexists _, None. split; [done|]. split_and!; try done. intros req ud Hreq _ _ Hid. rewrite Ep in Hreq.
       rewrite Forall_forall in Hfr. apply (Hfr req Hreq). by apply reqcmp_eq. }
  destruct Hfr as [Hx Hc]. apply reqcmp_eq in Hc. cbn in Hc.
  change (x ∈ elements t) in Hx. rewrite <- Ep in Hx.
  rewrite Forall_forall in Hf. destruct (Hf x Hx) as [_ [f Hfx]].
  rewrite Hfx. cbn [mbind option_bind]. destruct f as [[] ud]; cbn [registered negb].
  2: { eexists _, None. split; [done|]. split_and!; try done. intros req ud' Hreq Hm _ Hid.
       rewrite (pending_id_inj st req x Hok Hreq Hx) in Hm by congruence. congruence. }
  destruct (take_request st t x Hok Et Hx) as (t'&->&Hok'&Htk). cbn [mbind option_bind].
  eexists _, (Some (x, _)). split; [done|]. split; [done|]. split_and!; eauto.
Qed.

Lemma find_request_spec st req ud type src rest :
  sess_ok st -> req ∈ pending st -> req_mem st !! r_addr req = Some (mkFields true ud) -> word_ok 32 (r_id req) ->
  at_data src (be_split 4 (r_id req) ++ rest) ->
  exists st' src', sftp_find_request st (Some (mkIn type src)) = Some (st', Some (req, mkIn type src'))
    /\ at_data src' rest /\ sess_ok st' /\ taken st st' req.
Proof.
  intros Hok Hreq Hm Hid Hs. unfold sftp_find_request. cbn [in_src in_type].
  destruct (at_data_uint32 _ _ _ Hid Hs) as (src'&->&Hs'). pose proof Hs' as (_&->&_). rewrite bool_decide_true by done. cbn [negb].
  pose proof Hok as (Ht&_). unfold pending in Hreq. destruct (sftp_requests st) as [t|] eqn:Et; [|by apply elem_of_nil in Hreq].
  cbn [mbind option_bind]. assert (pending st = elements t) as Ep by (unfold pending; by rewrite Et).
  destruct (ss_find_spec (T := tree234 sftp_request) sftp_reqcmp t (id_key (r_id req))) as (fr&->&Hfr); [exact Ht|].
  cbn [mbind option_bind]. destruct fr as [x|].
  2: { exfalso. rewrite Forall_forall in Hfr. apply (Hfr req Hreq). by apply reqcmp_eq. }
  destruct Hfr as [Hx Hc]. apply reqcmp_eq in Hc. cbn in Hc.
  assert (x = req) as -> by (apply (pending_id_inj st); [done|by rewrite Ep|by rewrite Ep|done]).
  rewrite Hm. cbn [mbind option_bind registered negb].
  destruct (take_request st t req Hok Et ltac:(by rewrite Ep)) as (t'&->&Hok'&Htk). cbn [mbind option_bind]. eauto 10.
Qed.

Lemma free_spec st req ud :
  sess_ok st -> req_mem st !! r_addr req = Some ud -> r_addr req ∉ r_addr <$> pending st ->
  exists st', free_req st req = Some st' /\ sess_ok st' /\ pending st' = pending st /\ sftp_requests st' = sftp_requests st
    /\ req_mem st' = delete (r_addr req) (req_mem st) /\ fxp_errtype st' = fxp_errtype st /\ sent st' = sent st /\ input st' = input st.
Proof.
  intros (Ht&Hf&Hnd&Hmem) Hm Hni. unfold free_req. rewrite Hm. cbn [mbind option_bind]. eexists. split; [done|]. split; [|done].
  split; [done|]. split; [|split; [done|]].
  - apply Forall_forall. intros x Hx. rewrite Forall_forall in Hf. destruct (Hf x Hx) as [Hid [f Hfx]]. split; [done|]. cbn.
    rewrite lookup_delete_ne; [eauto|]. intros Ea. apply Hni. rewrite Ea. apply list_elem_of_fmap. eauto.
  - cbn. intros a [f Ha]. apply lookup_delete_Some in Ha as [_ Ha]. apply Hmem. eauto.
Qed.

(** ** Answers *)

Inductive fxp_reply :=
| RStatus (code : Z) (msg lang : list Z) | RHandle (h : fxp_handle) | RData (d : list Z) | RNames (l : list fxp_name)
| RAttrs (a : fxp_attrs).

Definition reply_type (r : fxp_reply) : Z :=
  match r with
  | RStatus _ _ _ => SSH_FXP_STATUS | RHandle _ => SSH_FXP_HANDLE | RData _ => SSH_FXP_DATA | RNames _ => SSH_FXP_NAME
  | RAttrs _ => SSH_FXP_ATTRS
  end.

Definition name_fields (n : fxp_name) : list field := FString (filename n) :: FString (longname n) :: attrs_fields (nm_attrs n).

Definition reply_fields (r : fxp_reply) : list field :=
  match r with
  | RStatus code msg lang => [FUint32 code; FString msg; FString lang]
  | RHandle h => [FString h]
  | RData d => [FString d]
  | RNames l => FUint32 (len l) :: (l ≫= name_fields)
  | RAttrs a => attrs_fields a
  end.

(** Attributes without extensions. *)
Definition plain_attrs (a : fxp_attrs) : Prop := attrs_ok a /\ has (at_flags a) SSH_FILEXFER_ATTR_EXTENDED = false.

Definition reply_ok (r : fxp_reply) : Prop :=
  Forall field_ok (reply_fields r) /\ len (reply_fields r ≫= field_enc) < 2 ^ 20 - 4
  /\ match r with RNames l => Forall (fun n => plain_attrs (nm_attrs n)) l | RAttrs a => plain_attrs a | _ => True end.

Inductive fxp_result :=
| RsPath (r : option (list Z)) | RsHandle (r : option fxp_handle) | RsBool (b : bool) | RsAttrs (a : fxp_attrs) (ok : bool)
| RsData (n : Z) (d : list Z) | RsNames (r : option (list fxp_name)).

(** The receiving half of each operation; [old] is the memory that attributes are read into. *)
Definition fxp_recv (st : session) (op : fxp_op) (pktin : packet_in) (req : sftp_request) (old : Z -> fxp_attrs)
  : option (session * fxp_result) :=
  let bool_result r := '(st, b) ← r; Some (st, RsBool b) in
  match op with
  | Realpath _ => '(st, r) ← fxp_realpath_recv st pktin req; Some (st, RsPath r)
  | Open _ _ _ => '(st, r) ← fxp_open_recv st pktin req; Some (st, RsHandle r)
  | Opendir _ => '(st, r) ← fxp_opendir_recv st pktin req; Some (st, RsHandle r)
  | Close _ => bool_result (fxp_close_recv st pktin req)
  | Mkdir _ _ => bool_result (fxp_mkdir_recv st pktin req)
  | Rmdir _ => bool_result (fxp_rmdir_recv st pktin req)
  | Remove _ => bool_result (fxp_remove_recv st pktin req)
  | Rename _ _ => bool_result (fxp_rename_recv st pktin req)
  | Setstat _ _ => bool_result (fxp_setstat_recv st pktin req)
  | Fsetstat _ _ => bool_result (fxp_fsetstat_recv st pktin req)
  | Write _ _ _ => bool_result (fxp_write_recv st pktin req)
  | Stat _ => '(st, a, b) ← fxp_stat_recv st pktin req (old 0); Some (st, RsAttrs a b)
  | Fstat _ => '(st, a, b) ← fxp_fstat_recv st pktin req (old 0); Some (st, RsAttrs a b)
  | Read _ _ n => '(st, k, d) ← fxp_read_recv st pktin req n; Some (st, RsData k d)
  | Readdir _ => '(st, r) ← fxp_readdir_recv st pktin req old; Some (st, RsNames r)
  end.

(** The error code a status packet leaves; other packets are not what was expected. *)
Definition status_of (r : fxp_reply) : Z := match r with RStatus code _ _ => to_int code | _ => -1 end.

Fixpoint merge_names (i : Z) (old : Z -> fxp_attrs) (l : list fxp_name) : list fxp_name :=
  match l with
  | [] => []
  | n :: l => mkName (filename n) (longname n) (merge_attrs (old i) (nm_attrs n)) :: merge_names (i + 1) old l
  end.

(** What the caller gets, and the error code if it is set. *)
Definition reply_result (op : fxp_op) (r : fxp_reply) (old : Z -> fxp_attrs) : fxp_result * option Z :=
  let failed res := (res, Some (status_of r)) in
  match op, r with
  | Realpath _, RNames [n] => (RsPath (Some (filename n)), None)
  | Realpath _, RNames _ => (RsPath None, Some (-1))
  | Realpath _, _ => failed (RsPath None)
  | Open _ _ _, RHandle h | Opendir _, RHandle h => (RsHandle (Some h), None)
  | Open _ _ _, _ | Opendir _, _ => failed (RsHandle None)
  | Stat _, RAttrs a | Fstat _, RAttrs a => (RsAttrs (merge_attrs (old 0) a) true, None)
  | Stat _, _ | Fstat _, _ => failed (RsAttrs (old 0) false)
  | Read _ _ n, RData d => if len d <=? n then (RsData (len d) d, None) else (RsData (-1) [], Some (-1))
  | Read _ _ _, _ => failed (RsData (-1) [])
  | Readdir _, RNames l => (RsNames (Some (merge_names 0 old l)), None)
  | Readdir _, _ => failed (RsNames None)
  | _, _ => failed (RsBool (status_of r =? SSH_FX_OK))
  end.

Lemma to_int_eqb c k : word_ok 32 c -> 0 <= k < 2 ^ 31 -> (to_int c =? k) = (c =? k).
Proof. unfold word_ok, to_int. intros. repeat bcase; lia. Qed.

Lemma got_status_spec st r src :
  Forall field_ok (reply_fields r) -> at_data src (reply_fields r ≫= field_enc) ->
  exists msg, fxp_got_status st (mkIn (reply_type r) src)
    = (set_error st msg (status_of r), if status_of r =? SSH_FX_OK then 1 else if status_of r =? SSH_FX_EOF then 0 else -1).
Proof.
  intros Hf Hs. unfold fxp_got_status. cbn [in_type in_src]. destruct r as [code msg lang|h|d|l|a]; cbn [reply_type] in *;
    try (eexists; reflexivity).
  rewrite Z.eqb_refl. cbn [negb]. cbn [reply_fields] in *. rewrite !bind_cons, <- ?app_assoc in Hs. cbn [field_enc] in Hs.
  rewrite !Forall_cons in Hf. destruct Hf as (Hc&Hm&_).
  destruct (at_data_uint32 _ _ _ Hc Hs) as (s1&->&Hs1). pose proof Hs1 as (_&->&_). rewrite bool_decide_true by done. cbn [negb].
  rewrite <- app_assoc in Hs1. destruct Hm as [Hm1 Hm2].
  destruct (at_data_string _ _ _ Hm1 Hm2 Hs1) as (s2&->&_). eexists. reflexivity.
Qed.

Lemma bad_at_data src d : at_data src d -> bad src = false.
Proof. intros (_&E&_). unfold bad. rewrite E. by rewrite bool_decide_true. Qed.

Lemma readdir_loop_read l i old src rest :
  Forall field_ok (l ≫= name_fields) -> Forall (fun n => plain_attrs (nm_attrs n)) l ->
  at_data src (((l ≫= name_fields) ≫= field_enc) ++ rest) ->
  exists src', readdir_loop (length l) i old src = Some (merge_names i old l, src') /\ at_data src' rest.
Proof.
  revert i src. induction l as [|n l IH]; intros i src Hf Hp Hs; cbn [readdir_loop length merge_names]; [eauto|].
  rewrite bind_cons in Hf, Hs. apply Forall_app in Hf as [Hn Hf]. unfold name_fields in Hn at 1. rewrite !Forall_cons in Hn.
  destruct Hn as ([Hf1 Hf2]&[Hl1 Hl2]&Ha). apply Forall_cons in Hp as [[Hp1 Hp2] Hp].
  rewrite bind_app in Hs. unfold name_fields in Hs at 1. rewrite !bind_cons in Hs. cbn [field_enc] in Hs. rewrite <- !app_assoc in Hs.
  destruct (at_data_string _ _ _ Hf1 Hf2 Hs) as (s1&->&Hs1). destruct (at_data_string _ _ _ Hl1 Hl2 Hs1) as (s2&->&Hs2).
  destruct (get_attrs_read s2 (old i) (nm_attrs n) _ Hp1 Hp2 Hs2) as (s3&->&Hs3). cbn [mbind option_bind].
  destruct (IH (i + 1) s3 Hf Hp Hs3) as (s4&->&Hs4). cbn [mbind option_bind]. eauto.
Qed.

(** A name takes at least twelve bytes. *)
Lemma names_size l : 12 * len l <= len ((l ≫= name_fields) ≫= field_enc).
Proof.
  induction l as [|n l IH]; [done|]. rewrite bind_cons, bind_app, len_app, len_cons. unfold name_fields at 1, attrs_fields.
  rewrite !bind_cons, !len_app. cbn [field_enc]. rewrite !len_app, !len_be_split.
  repeat match goal with |- context [len ?x] => lazymatch goal with H : 0 <= len x |- _ => fail | _ => pose proof (len_nonneg x) end end.
  lia.
Qed.

(** The state a receiving function leaves: with the error code set, or not. *)
Definition leaves (st0 st' : session) (e : option Z) : Prop :=
  match e with None => st' = st0 | Some k => exists msg, st' = set_error st0 msg k end.

Lemma realpath_names st0 l src :
  reply_ok (RNames l) -> at_data src (reply_fields (RNames l) ≫= field_enc) ->
  exists st', (let '(count, s) := get_uint32 src in
      if bad s || negb (count =? 1) then Some (fxp_internal_error st0 "REALPATH did not return name count of 1", None)
      else let '(name, s) := get_string s in
        if bad s then Some (fxp_internal_error st0 "REALPATH returned malformed FXP_NAME", None) else Some (st0, Some (mkstr name)))
    = Some (st', match l with [n] => Some (filename n) | _ => None end)
    /\ leaves st0 st' (match l with [n] => None | _ => Some (-1) end).
Proof.
  intros (Hf&_&_) Hs. cbn [reply_fields] in *. rewrite bind_cons in Hs. cbn [field_enc] in Hs.
  apply Forall_cons in Hf as [Hc Hf]. destruct (at_data_uint32 _ _ _ Hc Hs) as (s1&->&Hs1). rewrite (bad_at_data _ _ Hs1). cbn [orb].
  assert (forall x : option (list Z), exists st', Some (fxp_internal_error st0 "REALPATH did not return name count of 1", x) = Some (st', x)
    /\ leaves st0 st' (Some (-1))) as Hbad by (intros x; eexists; split; [done|]; by eexists).
  destruct l as [|n [|n' l]]; [apply Hbad| |].
  - change (len [n]) with 1. cbn [Z.eqb negb Pos.eqb]. rewrite bind_cons, app_nil_r in Hs1, Hf. unfold name_fields in Hs1, Hf.
    rewrite bind_cons in Hs1. cbn [field_enc] in Hs1. rewrite <- app_assoc in Hs1. apply Forall_cons in Hf as [[Hn1 Hn2] _].
    destruct (at_data_string _ _ _ Hn1 Hn2 Hs1) as (s2&->&Hs2). rewrite (bad_at_data _ _ Hs2). eexists. by split.
  - rewrite (proj2 (Z.eqb_neq _ 1)) by (rewrite !len_cons; pose proof (len_nonneg l); lia). apply Hbad.
Qed.

Lemma readdir_names st0 l old src :
  reply_ok (RNames l) -> at_data src (reply_fields (RNames l) ≫= field_enc) ->
  (let '(i, s) := get_uint32 src in
   if bad s || (get_avail s / 12 <? i) then Some (fxp_internal_error st0 "malformed FXP_NAME packet", None)
   else if INT_MAX / sizeof_fxp_name <? i then Some (fxp_internal_error st0 "unreasonably large FXP_NAME packet", None)
   else '(names, s) ← readdir_loop (Z.to_nat i) 0 old s;
     if bad s then Some (fxp_internal_error st0 "malformed FXP_NAME packet", None) else Some (st0, Some names))
  = Some (st0, Some (merge_names 0 old l)).
Proof.
  intros (Hf&Hsize&Hp) Hs. cbn [reply_fields] in *. rewrite bind_cons in Hs, Hsize. cbn [field_enc] in Hs, Hsize.
  rewrite len_app, len_be_split in Hsize. apply Forall_cons in Hf as [Hc Hf].
  destruct (at_data_uint32 _ _ _ Hc Hs) as (s1&->&Hs1). rewrite (bad_at_data _ _ Hs1). cbn [orb].
  pose proof (names_size l) as Hmin. pose proof (len_nonneg l).
  assert (get_avail s1 = len ((l ≫= name_fields) ≫= field_enc)) as ->.
  { destruct Hs1 as (Hok&_&<-). unfold get_avail. by rewrite len_here. }
  rewrite (proj2 (Z.ltb_ge _ (len l))) by (apply Z.div_le_lower_bound; lia).
  rewrite (proj2 (Z.ltb_ge _ (len l))) by (change (INT_MAX / sizeof_fxp_name) with 29826161; lia).
  unfold len at 1. rewrite Nat2Z.id. rewrite <- (app_nil_r ((l ≫= name_fields) ≫= field_enc)) in Hs1.
  destruct (readdir_loop_read l 0 old s1 [] Hf Hp Hs1) as (s2&->&Hs2). cbn [mbind option_bind]. by rewrite (bad_at_data _ _ Hs2).
Qed.

(** The shape of a receiving function with one packet type of its own. *)
Lemma expect_reply {A} (type : Z) (r : fxp_reply) st0 src (body : option (session * A)) (f : A) (g : A -> fxp_result) res :
  Forall field_ok (reply_fields r) -> at_data src (reply_fields r ≫= field_enc) ->
  (reply_type r = type -> exists st' x, body = Some (st', x) /\ g x = res.1 /\ leaves st0 st' res.2) ->
  (reply_type r <> type -> res = (g f, Some (status_of r))) ->
  exists st', ('(st, x) ← (if in_type (mkIn (reply_type r) src) =? type then body
                 else Some (fst (fxp_got_status st0 (mkIn (reply_type r) src)), f)); Some (st, g x)) = Some (st', res.1)
    /\ leaves st0 st' res.2.
Proof.
  intros Hf Hs Hyes Hno. cbn [in_type]. destruct (Z.eqb_spec (reply_type r) type) as [E|E].
  - destruct (Hyes E) as (st'&x&->&<-&Hl). cbn [mbind option_bind]. eauto.
  - rewrite (Hno E). destruct (got_status_spec st0 r src Hf Hs) as (msg&->). cbn. eexists. split; [done|]. by eexists.
Qed.

Lemma handle_reply st0 h src :
  Forall field_ok (reply_fields (RHandle h)) -> at_data src (reply_fields (RHandle h) ≫= field_enc) ->
  fxp_got_handle st0 (mkIn SSH_FXP_HANDLE src) = (st0, Some h).
Proof.
  intros Hf Hs. apply Forall_cons in Hf as [[H1 H2] _]. cbn [reply_fields] in Hs. rewrite bind_cons in Hs. cbn [field_enc] in Hs.
  rewrite <- app_assoc in Hs. unfold fxp_got_handle. cbn [in_src]. destruct (at_data_string _ _ _ H1 H2 Hs) as (s1&->&Hs1).
  by rewrite (bad_at_data _ _ Hs1).
Qed.

Lemma attrs_reply st0 a old src :
  reply_ok (RAttrs a) -> at_data src (reply_fields (RAttrs a) ≫= field_enc) ->
  fxp_got_attrs st0 (mkIn SSH_FXP_ATTRS src) old = Some (st0, merge_attrs old a, true).
Proof.
  intros (_&_&Ha&Hext) Hs. cbn [reply_fields] in Hs. rewrite <- (app_nil_r (attrs_fields a ≫= field_enc)) in Hs.
  unfold fxp_got_attrs. cbn [in_src]. destruct (get_attrs_read src old a [] Ha Hext Hs) as (s1&->&Hs1). cbn [mbind option_bind].
  by rewrite (bad_at_data _ _ Hs1).
Qed.

Lemma data_reply st0 d n src :
  reply_ok (RData d) -> at_data src (reply_fields (RData d) ≫= field_enc) ->
  exists st', (let '(data, s) := get_string src in
      if bad s then Some (fxp_internal_error st0 "READ returned malformed SSH_FXP_DATA packet", -1, [])
      else if n <? len data then Some (fxp_internal_error st0 "READ returned more bytes than requested", -1, [])
      else Some (st0, len data, data))
    = Some (st', if len d <=? n then len d else -1, if len d <=? n then d else [])
    /\ leaves st0 st' (if len d <=? n then None else Some (-1)).
Proof.
  intros (Hf&_) Hs. apply Forall_cons in Hf as [[H1 H2] _]. cbn [reply_fields] in Hs. rewrite bind_cons in Hs. cbn [field_enc] in Hs.
  rewrite <- app_assoc in Hs. destruct (at_data_string _ _ _ H1 H2 Hs) as (s1&->&Hs1). rewrite (bad_at_data _ _ Hs1).
  rewrite Z.leb_antisym. destruct (n <? len d); cbn [negb]; eexists; (split; [done|]); [by eexists|done].
Qed.

(** An operation that only returns success or failure. *)
Lemma status_reply st0 r src (f : session -> Z -> bool) :
  (forall st k, f st k = (k =? 1) \/ f st k = (fxp_errtype st =? SSH_FX_OK)) ->
  Forall field_ok (reply_fields r) -> at_data src (reply_fields r ≫= field_enc) ->
  exists st', (let '(st, k) := fxp_got_status st0 (mkIn (reply_type r) src) in Some (st, f st k))
      = Some (st', status_of r =? SSH_FX_OK) /\ leaves st0 st' (Some (status_of r)).
Proof.
  intros Hfk Hf Hs. destruct (got_status_spec st0 r src Hf Hs) as (msg&->). eexists. split; [|by eexists]. do 2 f_equal.
  destruct (Hfk (set_error st0 msg (status_of r)) (if status_of r =? SSH_FX_OK then 1 else if status_of r =? SSH_FX_EOF then 0 else -1)) as [-> | ->];
    [|done]. destruct (status_of r =? SSH_FX_OK); [done|]. by destruct (status_of r =? SSH_FX_EOF).
Qed.

Lemma triple_fail {A B} st0 r src (x : A) (y : B) (g : A -> B -> fxp_result) :
  Forall field_ok (reply_fields r) -> at_data src (reply_fields r ≫= field_enc) ->
  exists st', ('(st, x, y) ← Some (fst (fxp_got_status st0 (mkIn (reply_type r) src)), x, y); Some (st, g x y)) = Some (st', g x y)
    /\ leaves st0 st' (Some (status_of r)).
Proof. intros Hf Hs. destruct (got_status_spec st0 r src Hf Hs) as (msg&->). cbn. eexists. split; [done|]. by eexists. Qed.

Lemma recv_reply st st0 op r req old src :
  free_req st req = Some st0 -> reply_ok r -> at_data src (reply_fields r ≫= field_enc) ->
  exists st', fxp_recv st op (mkIn (reply_type r) src) req old = Some (st', (reply_result op r old).1)
    /\ leaves st0 st' (reply_result op r old).2.
Proof.
  intros Hfree Hr Hs. pose proof Hr as (Hf&_).
  assert (forall f : session -> Z -> bool, (forall st k, f st k = (k =? 1) \/ f st k = (fxp_errtype st =? SSH_FX_OK)) ->
    exists st', ('(st, b) ← (let '(st, k) := fxp_got_status st0 (mkIn (reply_type r) src) in Some (st, f st k)); Some (st, RsBool b))
      = Some (st', RsBool (status_of r =? SSH_FX_OK)) /\ leaves st0 st' (Some (status_of r))) as Hbool.
  { intros f Hfk. destruct (status_reply st0 r src f Hfk Hf Hs) as (st'&->&Hl). cbn. eauto. }
  assert (exists st', ('(st, x) ← (if in_type (mkIn (reply_type r) src) =? SSH_FXP_HANDLE
        then Some (fxp_got_handle st0 (mkIn (reply_type r) src)) else Some (fst (fxp_got_status st0 (mkIn (reply_type r) src)), None));
      Some (st, RsHandle x)) = Some (st', (reply_result (Opendir []) r old).1) /\ leaves st0 st' (reply_result (Opendir []) r old).2) as Hhandle.
  { apply expect_reply; [done|done| |by destruct r].
    intros E. destruct r as [|h| | |]; try done. cbn [reply_type]. rewrite (handle_reply st0 h) by done. eexists _, _. split_and!; done. }
  destruct op as [p|p ty a|p|h|p a|p|p|p q|p|h|p a|h a|h o n|h|h o d]; cbn [fxp_recv];
  unfold fxp_realpath_recv, fxp_open_recv, fxp_opendir_recv, fxp_close_recv, fxp_mkdir_recv, fxp_rmdir_recv, fxp_remove_recv, fxp_rename_recv,
    fxp_stat_recv, fxp_fstat_recv, fxp_setstat_recv, fxp_fsetstat_recv, fxp_read_recv, fxp_readdir_recv, fxp_write_recv;
  rewrite Hfree; cbn [mbind option_bind];
  try (by apply (Hbool (fun st k => fxp_errtype st =? SSH_FX_OK)); intros; right);
  try (by apply (Hbool (fun st k => k =? 1)); intros; left); try exact Hhandle.
  - apply expect_reply; [done|done| |by destruct r]. intros E. destruct r as [| | |l|]; try done.
    destruct (realpath_names st0 l src Hr Hs) as (st'&E'&Hl). cbn [in_src]. rewrite E'. eexists _, _. split; [done|].
    by destruct l as [|? [|? ?]].
  - destruct r as [| | | |a]; try (exact (triple_fail st0 _ src (old 0) false RsAttrs Hf Hs)). cbn [in_type reply_type]. rewrite Z.eqb_refl, (attrs_reply st0 a) by done. cbn. eauto.
  - destruct r as [| | | |a]; try (exact (triple_fail st0 _ src (old 0) false RsAttrs Hf Hs)). cbn [in_type reply_type]. rewrite Z.eqb_refl, (attrs_reply st0 a) by done. cbn. eauto.
  - destruct r as [| |d| |]; try (exact (triple_fail st0 _ src (-1) [] RsData Hf Hs)). cbn [in_type reply_type in_src]. rewrite Z.eqb_refl.
    destruct (data_reply st0 d n src Hr Hs) as (st'&->&Hl). cbn [mbind option_bind reply_result]. exists st'.
    by destruct (len d <=? n).
  - apply expect_reply; [done|done| |by destruct r]. intros E. destruct r as [| | |l|]; try done. cbn [in_src].
    rewrite readdir_names with (l := l) by done. eexists _, _. split_and!; done.
Qed.

Lemma readdir_loop_total n i old src : src_ok src -> exists names src', readdir_loop n i old src = Some (names, src') /\ src_ok src'.
Proof.
  revert i src; induction n as [|n IH]; intros i src Hok; cbn [readdir_loop]; [eauto|].
  pose proof (get_string_step src Hok) as (H1&_). destruct (get_string src) as [f s1]. cbn [snd] in H1.
  pose proof (get_string_step s1 H1) as (H2&_). destruct (get_string s1) as [l s2]. cbn [snd] in H2.
  destruct (get_attrs_total s2 (old i) H2) as (a&s3&->&H3). cbn [mbind option_bind].
  destruct (IH (i + 1) s3 H3) as (names&s4&->&H4). cbn [mbind option_bind]. eauto.
Qed.

Lemma got_status_error st pktin : exists msg k x, fxp_got_status st pktin = (set_error st msg k, x).
Proof.
  unfold fxp_got_status. destruct (in_type pktin =? _); cbn [negb]; [|by eexists _, _, _].
  destruct (get_uint32 _) as [code s1]. destruct (negb _); [by eexists _, _, _|]. destruct (get_string s1). by eexists _, _, _.
Qed.

(** A receiving function always returns, and touches nothing but the error state. *)
Lemma recv_any st st0 op pktin req old :
  free_req st req = Some st0 -> src_ok (in_src pktin) ->
  exists st' res e, fxp_recv st op pktin req old = Some (st', res) /\ leaves st0 st' e.
Proof.
  intros Hfree Hok. destruct (got_status_error st0 pktin) as (msg&k&x&Hst).
  assert (forall m z, leaves st0 (set_error st0 m z) (Some z)) as Herr by (by eexists).
  pose proof (get_string_step (in_src pktin) Hok) as Hstr.
  destruct op; cbn [fxp_recv];
  unfold fxp_realpath_recv, fxp_open_recv, fxp_opendir_recv, fxp_close_recv, fxp_mkdir_recv, fxp_rmdir_recv, fxp_remove_recv, fxp_rename_recv,
    fxp_stat_recv, fxp_fstat_recv, fxp_setstat_recv, fxp_fsetstat_recv, fxp_read_recv, fxp_readdir_recv, fxp_write_recv, fxp_got_handle, fxp_got_attrs;
  rewrite Hfree; cbn [mbind option_bind]; rewrite Hst; cbn [mbind option_bind fst];
  try (eexists _, _, _; split; [reflexivity|apply Herr]);
  match goal with |- context [if ?b then _ else _] => destruct b end;
  try (eexists _, _, _; split; [reflexivity|apply Herr]).
  all: try (destruct (get_attrs_total (in_src pktin) (old 0) Hok) as (a&s1&->&Hok1); cbn [mbind option_bind];
    destruct (bad s1); eexists _, _, _; (split; [reflexivity|]); [apply Herr|by instantiate (1 := None)]).
  all: try (destruct (get_string (in_src pktin)) as [d s1]; destruct (bad s1); [eexists _, _, _; split; [reflexivity|apply Herr]|];
    try (destruct (_ <? len d); [eexists _, _, _; split; [reflexivity|apply Herr]|]); by eexists _, _, None).
  - pose proof (uint32_step (in_src pktin) Hok) as (Hok1&_). destruct (get_uint32 (in_src pktin)) as [count s1]. cbn [snd] in Hok1.
    destruct (bad s1 || _); [eexists _, _, _; split; [reflexivity|apply Herr]|]. destruct (get_string s1) as [name s2].
    destruct (bad s2); [eexists _, _, _; split; [reflexivity|apply Herr]|]. by eexists _, _, None.
  - pose proof (uint32_step (in_src pktin) Hok) as (Hok1&_). destruct (get_uint32 (in_src pktin)) as [count s1]. cbn [snd] in Hok1.
    destruct (bad s1 || _); [eexists _, _, _; split; [reflexivity|apply Herr]|].
    destruct (_ <? count); [eexists _, _, _; split; [reflexivity|apply Herr]|].
    destruct (readdir_loop_total (Z.to_nat count) 0 old s1 Hok1) as (names&s2&->&Hok2). cbn [mbind option_bind].
    destruct (bad s2); [eexists _, _, _; split; [reflexivity|apply Herr]|]. by eexists _, _, None.
Qed.

Lemma register_spec st req f :
  sess_ok st -> req_mem st !! r_addr req = Some f ->
  exists st', sftp_register st req = Some st' /\ sess_ok st' /\ pending st' = pending st
    /\ req_mem st' = <[r_addr req := mkFields true (userdata f)]> (req_mem st) /\ input st' = input st /\ sent st' = sent st.
Proof.
  intros (Ht&Hf&Hnd&Hmem) Hm. unfold sftp_register. rewrite Hm. cbn [mbind option_bind]. eexists. split; [done|]. split; [|done].
  split; [done|]. split; [|split; [done|]].
  - eapply Forall_impl; [exact Hf|]. cbn. intros x [Hid Hx]. split; [done|]. rewrite lookup_insert_is_Some. destruct (decide (r_addr req = r_addr x)); auto.
  - cbn. intros a. rewrite lookup_insert_is_Some. intros [<-|[_ Ha]]; apply Hmem; eauto.
Qed.

(** A request taken out of the tree can be freed. *)
Lemma taken_free st st' req ud :
  sess_ok st -> sess_ok st' -> taken st st' req -> req_mem st !! r_addr req = Some ud ->
  exists st0, free_req st' req = Some st0 /\ sess_ok st0 /\ pending st0 = pending st'
    /\ req_mem st0 = delete (r_addr req) (req_mem st) /\ fxp_errtype st0 = fxp_errtype st /\ sent st0 = sent st /\ input st0 = input st.
Proof.
  intros (_&_&Hnd&_) Hok' Htk Hm. destruct Htk as [Hp Hmem Hnx [_ He] [Hs Hi]].
  destruct (free_spec st' req ud Hok') as (st0&E&Hok0&Ep&_&Em&Ee&Es&Ei).
  - by rewrite Hmem.
  - rewrite Hp in Hnd. cbn in Hnd. by apply NoDup_cons in Hnd as [? _].
  - exists st0. rewrite Hmem in Em. split_and!; try done; congruence.
Qed.

Lemma leaves_ok st0 st' e :
  leaves st0 st' e -> sess_ok st0 -> sess_ok st' /\ pending st' = pending st0 /\ req_mem st' = req_mem st0
    /\ fxp_errtype st' = default (fxp_errtype st0) e /\ sent st' = sent st0 /\ input st' = input st0.
Proof. destruct e as [k|]; cbn; [intros [msg ->]|intros ->]; done. Qed.

(** The answer to a request, from the bytes to the result. *)
Lemma reply_spec st op r req ud old inp rest :
  sess_ok st -> req ∈ pending st -> req_mem st !! r_addr req = Some (mkFields true ud) -> word_ok 32 (r_id req) ->
  reply_ok r -> inp = frame (reply_type r) (FUint32 (r_id req) :: reply_fields r) ++ rest ->
  exists pktin st1 pktin' st2,
    sftp_recv inp = (Some pktin, rest) /\ sftp_find_request st (Some pktin) = Some (st1, Some (req, pktin')) /\ taken st st1 req
    /\ fxp_recv st1 op pktin' req old = Some (st2, (reply_result op r old).1)
    /\ fxp_errtype st2 = default (fxp_errtype st) (reply_result op r old).2
    /\ sess_ok st2 /\ pending st ≡ₚ req :: pending st2 /\ req_mem st2 = delete (r_addr req) (req_mem st)
    /\ sent st2 = sent st /\ input st2 = input st.
Proof.
  intros Hok Hreq Hm Hid Hr Hin. pose proof Hr as (Hf&Hsize&_). rewrite Hin.
  destruct (recv_frame (reply_type r) (FUint32 (r_id req) :: reply_fields r) rest) as (src&->&Hs).
  { by destruct r. } { by apply Forall_cons. } { rewrite bind_cons, len_app. cbn [field_enc]. rewrite len_be_split. lia. }
  rewrite bind_cons in Hs. cbn [field_enc] in Hs.
  destruct (find_request_spec st req ud (reply_type r) src _ Hok Hreq Hm Hid Hs) as (st1&src'&E1&Hs1&Hok1&Htk).
  destruct (taken_free st st1 req _ Hok Hok1 Htk Hm) as (st0&Efree&Hok0&Ep&Em&Ee&Es&Ei).
  destruct (recv_reply st1 st0 op r req old src' Efree Hr Hs1) as (st2&E2&Hl).
  destruct (leaves_ok st0 st2 _ Hl Hok0) as (Hok2&Ep2&Em2&Ee2&Es2&Ei2).
  eexists _, st1, _, st2. split; [done|]. split; [exact E1|]. split; [done|]. split; [exact E2|].
  rewrite Ee2, Ee, Em2, Em, Ep2, Ep, Es2, Es, Ei2, Ei.
  split_and!; try done. apply Htk.
Qed.

(** C19. Sending: every operation of the protocol writes exactly one well-formed packet (its length,
    its type, a fresh request id and its fields, as the protocol lays them out); the id is the lowest that is not
    in use; and the request is pending afterwards.  The binary search for the id
    works on [unsigned] variables that start at [-1], and ends. *)
Theorem sftp_send_correct st op :
  sess_ok st -> len (pending st) < 2 ^ 31 -> op_ok op ->
  exists st' req, fxp_send st op = Some (st', req) /\ sess_ok st' /\ pending st' ≡ₚ req :: pending st
    /\ lowest_free (pending st) (r_id req) /\ req_mem st' !! r_addr req = Some (mkFields false None)
    /\ sent st' = sent st ++ [frame (op_type op) (FUint32 (r_id req) :: op_fields op)].
Proof.
  intros Hok Hn Hop. destruct (send_spec st op Hok Hn Hop) as (st'&req&E&Hok'&Hal&Hs). exists st', req.
  destruct Hal as [_ _ Hm Hp [Hid _] _ _]. split_and!; try done; try apply Hid. rewrite Hm. apply lookup_insert_eq.
Qed.

Lemma sess_ok_init inp : sess_ok (session_init inp).
Proof.
  split; [done|]. split; [apply Forall_nil; done|]. split; [apply NoDup_nil_2|]. intros a [f Hf]. by destruct (lookup_empty_Some a f Hf).
Qed.

Lemma sftp_send_correct_witness :
  let op := Read [1; 2] 65536 32768 in
  op_ok op /\ exists st' req, fxp_send (session_init []) op = Some (st', req) /\ sess_ok st' /\ pending st' ≡ₚ req :: []
    /\ lowest_free [] (r_id req) /\ req_mem st' !! r_addr req = Some (mkFields false None)
    /\ sent st' = [] ++ [frame (op_type op) (FUint32 (r_id req) :: op_fields op)].
Proof.
  intros op. assert (op_ok op) as Hop by (split; [fields_ok|done]).
  split; [exact Hop|]. apply (sftp_send_correct (session_init []) op (sess_ok_init []) ltac:(done) Hop).
Defined.

(** C20. Answering: when the packet that answers a registered request arrives, whatever other
    requests are outstanding and whatever follows it on the connection, [sftp_recv] frames
    it, [sftp_find_request] finds exactly that request and takes it out, and the receiving
    half of the operation decodes it: a matching answer gives its contents (names,
    attributes, handle, data), a status gives its error code, any other packet type an
    error; and the memory of the request is freed. *)
Theorem sftp_reply_correct st op r req ud old rest :
  sess_ok st -> req ∈ pending st -> req_mem st !! r_addr req = Some (mkFields true ud) -> word_ok 32 (r_id req) ->
  reply_ok r -> input st = frame (reply_type r) (FUint32 (r_id req) :: reply_fields r) ++ rest ->
  exists pktin st1 pktin' st2,
    sftp_recv (input st) = (Some pktin, rest) /\ sftp_find_request st (Some pktin) = Some (st1, Some (req, pktin'))
    /\ fxp_recv st1 op pktin' req old = Some (st2, (reply_result op r old).1)
    /\ fxp_errtype st2 = default (fxp_errtype st) (reply_result op r old).2
    /\ sess_ok st2 /\ pending st ≡ₚ req :: pending st2 /\ req_mem st2 = delete (r_addr req) (req_mem st).
Proof.
  intros Hok Hreq Hm Hid Hr Hin. destruct (reply_spec st op r req ud old (input st) rest Hok Hreq Hm Hid Hr Hin)
    as (pktin&st1&pktin'&st2&H1&H2&_&H3&H4&H5&H6&H7&_). by exists pktin, st1, pktin', st2.
Qed.

(** A session with one registered READ request, and its answer on the way. *)
Lemma sftp_reply_correct_witness :
  let inp := frame SSH_FXP_DATA [FUint32 256; FString [7; 8; 9]] in
  exists st req,
    ('(st, req) ← fxp_send (session_init inp) (Read [1] 0 100); st ← sftp_register st req; Some (st, req)) = Some (st, req)
    /\ exists pktin st1 pktin' st2,
      sftp_recv (input st) = (Some pktin, []) /\ sftp_find_request st (Some pktin) = Some (st1, Some (req, pktin'))
      /\ fxp_recv st1 (Read [1] 0 100) pktin' req (fun _ => no_attrs) = Some (st2, RsData 3 [7; 8; 9])
      /\ fxp_errtype st2 = fxp_errtype st
      /\ sess_ok st2 /\ pending st ≡ₚ req :: pending st2 /\ req_mem st2 = delete (r_addr req) (req_mem st).
Proof.
  intros inp. destruct (send_spec (session_init inp) (Read [1] 0 100) (sess_ok_init inp) ltac:(done)) as (st1&req&E1&Hok1&Hal&_).
  { split; [fields_ok|done]. }
  destruct (register_spec st1 req _ Hok1 ltac:(rewrite (al_mem _ _ _ Hal); apply lookup_insert_eq)) as (st&E2&Hok&Ep&Em&Ei&_).
  exists st, req. rewrite E1. cbn [mbind option_bind]. rewrite E2. split; [reflexivity|]. clear E1 E2.
  assert (r_id req = 256) as Eid.
  { destruct (al_id _ _ _ Hal) as [(H1&_&H3) _]. destruct (Z.eq_dec (r_id req) 256) as [E|E]; [exact E|].
    destruct (H3 256) as (x&Hx&_); [unfold REQUEST_ID_OFFSET in *; lia|]. by apply elem_of_nil in Hx. }
  apply (sftp_reply_correct st (Read [1] 0 100) (RData [7; 8; 9]) req None (fun _ => no_attrs) [] Hok).
  - rewrite Ep, (al_pending _ _ _ Hal). by left.
  - rewrite Em. apply lookup_insert_eq.
  - rewrite Eid. split; lia.
  - split; [fields_ok|done].
  - rewrite Ei, (al_input _ _ _ Hal), Eid. by rewrite app_nil_r.
Defined.


(** The id in the packet that [inp] starts with, if the whole packet is there, within the limit
    on packets, and long enough for its type and its id. *)
Definition packet_id (inp : list Z) : option Z :=
  let n := GET_32BIT_MSB_FIRST (take 4 inp) in
  if (4 <=? len inp) && (5 <=? n) && (n <=? 1048576) && (4 + n <=? len inp)
  then Some (GET_32BIT_MSB_FIRST (take 4 (drop 5 inp))) else None.

Lemma recv_packet_id inp :
  bytes_ok inp ->
  match fst (sftp_recv inp) with
  | None => packet_id inp = None
  | Some p => src_ok (in_src p) /\
      let '(id, src) := get_uint32 (in_src p) in packet_id inp = if bool_decide (bs_err src = BSE_NO_ERROR) then Some id else None
  end.
Proof.
  intros Hb. unfold packet_id, sftp_recv, sftp_recvdata. change (Z.to_nat 4) with 4%nat.
  destruct (Z.leb_spec 4 (len inp)) as [H4|H4]; [|done]. cbn [andb].
  set (n := GET_32BIT_MSB_FIRST (take 4 inp)). replace (n <=? 1048576) with (negb (1048576 <? n)) by (repeat bcase; cbn; lia).
  destruct (1048576 <? n); [by rewrite andb_false_r|]. cbn [negb]. rewrite andb_true_r.
  assert (len (drop 4 inp) = len inp - 4) as -> by (unfold len in *; rewrite length_drop; lia).
  replace (4 + n <=? len inp) with (n <=? len inp - 4) by (repeat bcase; lia).
  destruct (Z.leb_spec n (len inp - 4)) as [Hn|Hn]; [|by rewrite andb_false_r]. rewrite andb_true_r. cbn [fst].
  assert (len (take (Z.to_nat n) (drop 4 inp)) = Z.max 0 n /\ bytes_ok (take (Z.to_nat n) (drop 4 inp))) as [Hd Hdb].
  { split; [unfold len in *; rewrite length_take, length_drop; lia|by apply Forall_take, Forall_drop]. }
  assert (5 <= n -> take 4 (drop 5 inp) = take 4 (drop 1 (take (Z.to_nat n) (drop 4 inp)))) as Hsl.
  { intros Hn5. replace (drop 5 inp) with (drop 1 (drop 4 inp)) by by rewrite drop_drop. generalize (drop 4 inp). intros l.
    rewrite !(take_drop_commute _ 4 1), take_take. do 2 f_equal. lia. }
  set (data := take (Z.to_nat n) (drop 4 inp)) in *.
  unfold sftp_recv_finish, BinarySource_INIT, get_byte, BinarySource_data_avail. cbn [bs_err bs_data bs_pos].
  rewrite decide_True by done. rewrite Hd. destruct (Z.leb_spec 1 (Z.max 0 n - 0)) as [H1|H1].
  2: { cbn. by rewrite (proj2 (Z.leb_gt 5 n)) by lia. }
  unfold consume, advance. cbn [bs_err bs_data bs_pos in_src]. rewrite bool_decide_true by done. cbn [in_src].
  split; [split; cbn [bs_pos bs_data]; [lia|done]|].
  unfold get_uint32, BinarySource_data_avail. cbn [bs_err bs_data bs_pos]. rewrite decide_True by done. rewrite Hd.
  replace (4 <=? Z.max 0 n - (0 + 1)) with (5 <=? n) by (repeat bcase; lia). destruct (Z.leb_spec 5 n) as [H5|H5].
  - unfold consume, advance, here. cbn [bs_err bs_data bs_pos]. rewrite bool_decide_true, Hsl by done. done.
  - unfold set_err. cbn [bs_err]. by rewrite bool_decide_false.
Qed.

(** C21. Safety against the server: whatever bytes arrive, the client neither fails an assertion nor
    follows a dead pointer nor loops, once the first request was made (the tree of requests exists).
    A packet is taken for the answer to the request registered under the id it carries, and
    to no other; it is decoded by any receiving function to a result or an error, and exactly
    that request is gone.  Anything else, be it cut off, too long, without an id or for an id that is
    not registered, is reported and changes nothing. *)
Theorem sftp_hostile_server st op old :
  sess_ok st -> is_Some (sftp_requests st) -> bytes_ok (input st) ->
  exists st1 found, sftp_find_request st (fst (sftp_recv (input st))) = Some (st1, found) /\
    match found with
    | None => fxp_errtype st1 = -1 /\ sess_ok st1 /\ pending st1 = pending st /\
        forall req ud, req ∈ pending st -> req_mem st !! r_addr req = Some (mkFields true ud) -> packet_id (input st) <> Some (r_id req)
    | Some (req, pktin') =>
        packet_id (input st) = Some (r_id req) /\ req ∈ pending st /\ (exists ud, req_mem st !! r_addr req = Some (mkFields true ud)) /\
        exists st2 res, fxp_recv st1 op pktin' req old = Some (st2, res) /\ sess_ok st2 /\ pending st ≡ₚ req :: pending st2
    end.
Proof.
  intros Hok Ht Hb. pose proof (recv_packet_id _ Hb) as Hid. destruct (fst (sftp_recv (input st))) as [pktin|].
  2: { eexists _, None. split; [done|]. split; [done|]. split; [done|]. split; [done|]. intros req ud _ _. by rewrite Hid. }
  destruct Hid as [Hsrc Hid]. pose proof (find_request_any st pktin Hok Ht Hsrc) as Hany.
  destruct (get_uint32 (in_src pktin)) as [id src] eqn:Eg. destruct Hany as (st1&found&E&Hok1&Hf). exists st1, found.
  split; [done|]. rewrite Hid.
  destruct found as [[req pktin']|].
  2: { destruct Hf as (Hp&He&Hno). split_and!; try done. intros req ud Hreq Hm. specialize (Hno req ud Hreq Hm).
       destruct (bool_decide _) eqn:Eb; [|done]. apply bool_decide_eq_true in Eb. intros [= ->]. by destruct (Hno Eb). }
  destruct Hf as (Htk&Hreq&[ud Hm]&He&Hrid&->). rewrite bool_decide_true by done. split; [by rewrite Hrid|]. split; [done|]. split; [eauto|].
  destruct (taken_free st st1 req _ Hok Hok1 Htk Hm) as (st0&Efree&Hok0&Ep&_).
  destruct (recv_any st1 st0 op (mkIn (in_type pktin) src) req old Efree) as (st2&res&e&E2&Hl).
  { cbn. pose proof (uint32_step _ Hsrc) as Hstep. rewrite Eg in Hstep. apply Hstep. }
  destruct (leaves_ok st0 st2 e Hl Hok0) as (Hok2&Ep2&_). exists st2, res. split; [done|]. split; [done|].
  rewrite Ep2, Ep. apply Htk.
Qed.

(** A directory listing that claims more names than it holds. *)
Lemma sftp_hostile_server_witness :
  let inp := [0; 0; 0; 9; 104; 0; 0; 1; 0; 255; 255; 255; 255] in
  exists st req,
    ('(st, req) ← fxp_send (session_init inp) (Readdir [1]); st ← sftp_register st req; Some (st, req)) = Some (st, req)
    /\ packet_id (input st) = Some 256 /\
    exists st1 found, sftp_find_request st (fst (sftp_recv (input st))) = Some (st1, found) /\
    match found with
    | None => fxp_errtype st1 = -1 /\ sess_ok st1 /\ pending st1 = pending st /\
        forall req ud, req ∈ pending st -> req_mem st !! r_addr req = Some (mkFields true ud) -> packet_id (input st) <> Some (r_id req)
    | Some (req, pktin') =>
        packet_id (input st) = Some (r_id req) /\ req ∈ pending st /\ (exists ud, req_mem st !! r_addr req = Some (mkFields true ud)) /\
        exists st2 res, fxp_recv st1 (Readdir [1]) pktin' req (fun _ => no_attrs) = Some (st2, res) /\ sess_ok st2
          /\ pending st ≡ₚ req :: pending st2
    end.
Proof.
  intros inp. destruct (send_spec (session_init inp) (Readdir [1]) (sess_ok_init inp) ltac:(done)) as (st1&req&E1&Hok1&Hal&_).
  { split; [fields_ok|done]. }
  destruct (register_spec st1 req _ Hok1 ltac:(rewrite (al_mem _ _ _ Hal); apply lookup_insert_eq)) as (st&E2&Hok&Ep&Em&Ei&_).
  assert (input st = inp) as Einp by (rewrite Ei; exact (al_input _ _ _ Hal)).
  exists st, req. rewrite E1. cbn [mbind option_bind]. rewrite E2.
  split; [reflexivity|]. clear E1 E2. split; [rewrite Einp; reflexivity|].
  apply (sftp_hostile_server st (Readdir [1]) (fun _ => no_attrs) Hok).
  - assert (req ∈ pending st) as Hreq by (rewrite Ep, (al_pending _ _ _ Hal); by left). unfold pending in Hreq.
    destruct (sftp_requests st) as [t|]; [by exists t|]. by apply elem_of_nil in Hreq.
  - rewrite Einp. fields_ok.
Defined.
