(* ===== verification/LocalFile.v ===== *)
(** * Local files as the engine provides them (unix/uxsftp.c)

    The back end does not open local files.  It asks the engine for one buffer of
    shared memory after the other: a download fills a buffer and, when it asks for the next
    one (or finishes), tells the engine how many bytes of it are valid; an upload empties
    the buffers it is given.

    The engine is the list of the answers it is going to give and, for a download, the
    bytes it has taken so far.  [None] stands for waiting for an answer that never
    comes and for a buffer of negative size. *)

From S2P Require Import Prelude.
Open Scope Z_scope.

(** [state]: enum of both kinds of file. *)
Inductive fstate := f_ok | f_eof | f_error.

(** ** Writing *)

(** An answer to [sftp_io_nextbuf]: a minus sign, nothing, or a buffer of so many bytes. *)
Inductive wanswer := WError | WEof | WBuf (size : Z).

Record wengine := mkWEngine { we_answers : list wanswer; we_finalize : bool; we_file : list Z }.

(** [buffer_] points behind the bytes stored in the current buffer, which are [wf_buffer]. *)
Record WFile := mkWFile { wf_state : fstate; wf_buffer : list Z; wf_remaining : Z; wf_size : Z }.

Definition open_wfile : WFile := mkWFile f_ok [] 0 0.

(** The engine takes the valid bytes of the buffer. *)
Definition engine_take (e : wengine) (f : WFile) : list Z := we_file e ++ take (Z.to_nat (wf_size f - wf_remaining f)) (wf_buffer f).

Definition wnextbuf (e : wengine) (f : WFile) : option (wengine * WFile) :=
  match we_answers e with
  | [] => None
  | a :: l =>
      Some (mkWEngine l (we_finalize e) (engine_take e f),
            match a with
            | WError => mkWFile f_error (wf_buffer f) (wf_remaining f) (wf_size f)
            | WEof => mkWFile f_eof (wf_buffer f) (wf_remaining f) (wf_size f)
            | WBuf n => mkWFile f_ok [] n n
            end)
  end.

Definition write_to_file (e : wengine) (f : WFile) (data : list Z) : option (wengine * WFile * Z) :=
  '(e, f) ← match wf_state f with
            | f_ok => if wf_remaining f =? 0 then wnextbuf e f else Some (e, f)
            | _ => Some (e, f)
            end;
  match wf_state f with
  | f_eof => Some (e, f, 0)
  | f_error => Some (e, f, -1)
  | f_ok =>
      let n := if wf_remaining f <? len data then wf_remaining f else len data in
      assert! 0 <=? n;
      Some (e, mkWFile f_ok (wf_buffer f ++ take (Z.to_nat n) data) (wf_remaining f - n) (wf_size f), n)
  end.

Definition finalize_wfile (e : wengine) (f : WFile) : wengine * WFile * bool :=
  match wf_state f with
  | f_eof => (e, f, true)
  | f_error => (e, f, false)
  | f_ok =>
      let st := if we_finalize e then f_eof else f_error in
      (mkWEngine (we_answers e) (we_finalize e) (engine_take e f), mkWFile st (wf_buffer f) (wf_remaining f) (wf_size f), we_finalize e)
  end.

(** ** Reading *)

Inductive ranswer := RError | REof | RBuf (data : list Z).

(** [rf_buffer] is what is left of the current buffer; its length is [remaining_]. *)
Record RFile := mkRFile { rf_state : fstate; rf_buffer : list Z }.

Definition open_rfile : RFile := mkRFile f_ok [].

(** The value returned and the bytes copied. *)
Definition read_from_file (l : list ranswer) (f : RFile) (length : Z) : option (list ranswer * RFile * Z * list Z) :=
  '(l, f) ← match rf_state f with
            | f_ok =>
                if len (rf_buffer f) =? 0 then
                  match l with
                  | [] => None
                  | RError :: l => Some (l, mkRFile f_error (rf_buffer f))
                  | REof :: l => Some (l, mkRFile f_eof (rf_buffer f))
                  | RBuf d :: l => Some (l, mkRFile f_ok d)
                  end
                else Some (l, f)
            | _ => Some (l, f)
            end;
  match rf_state f with
  | f_eof => Some (l, f, 0, [])
  | f_error => Some (l, f, -1, [])
  | f_ok =>
      let n := if len (rf_buffer f) <? length then len (rf_buffer f) else length in
      Some (l, mkRFile f_ok (drop (Z.to_nat n) (rf_buffer f)), n, take (Z.to_nat n) (rf_buffer f))
  end.

Example local_file_examples :
  (let e := mkWEngine [WBuf 2; WBuf 5] true [] in
   '(e, f, n) ← write_to_file e open_wfile [1; 2; 3];
   '(e, f, m) ← write_to_file e f [3];
   let '(e, f, ok) := finalize_wfile e f in Some (n, m, we_file e, ok)) = Some (2, 1, [1; 2; 3], true)
  /\ (let l := [RBuf [1; 2; 3]; REof] in
      '(l, f, n, d) ← read_from_file l open_rfile 2;
      '(l, f, n', d') ← read_from_file l f 2;
      '(l, f, n'', _) ← read_from_file l f 2;
      Some (n, d, n', d', n'', rf_state f)) = Some (2, [1; 2], 1, [3], 0, f_eof).
Proof. split; reflexivity. Qed.

(** ** What has been written *)

(** The bytes the engine has or will have when the file is finished. *)
Definition wcontents (e : wengine) (f : WFile) : list Z := we_file e ++ wf_buffer f.

(** The engine still has buffers enough for [n] bytes: none is empty. *)
Definition wfile_ok (e : wengine) (f : WFile) (n : Z) : Prop :=
  wf_state f = f_ok /\ 0 <= wf_remaining f /\ wf_size f = len (wf_buffer f) + wf_remaining f
  /\ Forall (fun a => exists k, a = WBuf k /\ 0 < k <= INT_MAX) (we_answers e)
  /\ n <= len (we_answers e) + wf_remaining f.

Lemma engine_take_all e f n : wfile_ok e f n -> engine_take e f = wcontents e f.
Proof.
  intros (_&_&Hs&_). unfold engine_take, wcontents. f_equal. apply take_ge. unfold len in Hs. lia.
Qed.

Lemma write_to_file_spec e f n data :
  wfile_ok e f n -> 0 < len data <= n ->
  exists e' f' k, write_to_file e f data = Some (e', f', k) /\ 0 < k <= len data
    /\ wfile_ok e' f' (n - k) /\ wcontents e' f' = wcontents e f ++ take (Z.to_nat k) data /\ we_finalize e' = we_finalize e.
Proof.
  intros Hok Hd. pose proof Hok as (Hst&Hr&Hs&Ha&Hn). unfold write_to_file. rewrite Hst.
  assert (exists e1 f1, (if wf_remaining f =? 0 then wnextbuf e f else Some (e, f)) = Some (e1, f1) /\ wfile_ok e1 f1 n
    /\ 0 < wf_remaining f1 /\ wcontents e1 f1 = wcontents e f /\ we_finalize e1 = we_finalize e) as (e1&f1&->&Hok1&Hr1&Hc1&Hf1).
  { bcase; [|exists e, f; split_and!; done || lia]. unfold wnextbuf. rewrite (engine_take_all e f n Hok).
    destruct (we_answers e) as [|a l] eqn:El; [rewrite len_nil in Hn; lia|]. apply Forall_cons in Ha as [(k&->&Hk) Ha].
    eexists _, _. split; [done|]. unfold wfile_ok, wcontents. cbn. rewrite len_cons in Hn.
    split_and!; try done; try lia. by rewrite app_nil_r. }
  cbn [mbind option_bind]. clear Hok Hst Hr Hs Ha Hn. destruct Hok1 as (Hst&Hr&Hs&Ha&Hn). rewrite Hst.
  set (k := if wf_remaining f1 <? len data then wf_remaining f1 else len data).
  assert (0 < k <= len data /\ k <= wf_remaining f1) as [Hk1 Hk2] by (unfold k; bcase; lia).
  rewrite (proj2 (Z.leb_le 0 k)) by lia. exists e1. eexists _, k. split; [done|]. split; [done|]. unfold wfile_ok, wcontents in *. cbn.
  rewrite len_app. split_and!; try done; try lia.
  - rewrite len_take by lia. lia.
  - by rewrite app_assoc, Hc1.
Qed.

Lemma finalize_spec e f n :
  wfile_ok e f n -> we_finalize e = true -> exists e' f', finalize_wfile e f = (e', f', true) /\ we_file e' = wcontents e f.
Proof.
  intros Hok Hf. unfold finalize_wfile. rewrite (proj1 Hok), Hf. eexists _, _. split; [done|]. cbn. by apply (engine_take_all e f n).
Qed.

(** ** What is left to read *)

(** The number of reads of up to [n] bytes that empty a buffer of [k]. *)
Definition chunk (n k : Z) : Z := (k + (n - 1)) / n.

(** [rest] is still to come, in [c] reads of up to [n] bytes; then the end of the file. *)
Definition rfile_ok (n : Z) (l : list ranswer) (f : RFile) (rest : list Z) (c : Z) : Prop :=
  rf_state f = f_ok /\ bytes_ok rest /\ exists bufs, l = (RBuf <$> bufs) ++ [REof] /\ Forall (fun d => d <> []) bufs
    /\ rest = rf_buffer f ++ concat bufs /\ c = chunk n (len (rf_buffer f)) + foldr (fun d s => chunk n (len d) + s) 0 bufs.

Lemma chunk_pos n k : 0 < n -> 0 <= k -> 0 <= chunk n k.
Proof. intros. unfold chunk. apply Z.div_pos; lia. Qed.

Lemma rfile_chunks n l f rest c : 0 < n -> rfile_ok n l f rest c -> 0 <= c.
Proof.
  intros Hn (_&_&bufs&_&_&_&->). pose proof (chunk_pos n (len (rf_buffer f)) Hn (len_nonneg _)).
  assert (0 <= foldr (fun d s => chunk n (len d) + s) 0 bufs); [|lia]. induction bufs as [|d bufs IH]; cbn; [lia|].
  pose proof (chunk_pos n (len d) Hn (len_nonneg _)). lia.
Qed.

Lemma chunk_step n k : 0 < n -> 0 < k -> chunk n (k - Z.min k n) = chunk n k - 1.
Proof.
  intros Hn Hk. unfold chunk. destruct (Z.min_spec k n) as [[? ->]|[? ->]].
  - rewrite Z.sub_diag, Z.add_0_l, Z.div_small by lia.
    replace (k + (n - 1)) with (1 * n + (k - 1)) by lia. rewrite Z.div_add_l, Z.div_small by lia. lia.
  - replace (k + (n - 1)) with (k - n + (n - 1) + 1 * n) by lia. rewrite Z.div_add by lia. lia.
Qed.

(** With something in the buffer. *)
Lemma read_buffer n l f rest c :
  0 < n -> rfile_ok n l f rest c -> rf_buffer f <> [] ->
  let k := if len (rf_buffer f) <? n then len (rf_buffer f) else n in
  let d := take (Z.to_nat k) (rf_buffer f) in
  k = len d /\ 0 < len d <= n /\ exists rest', rest = d ++ rest' /\ rfile_ok n l (mkRFile f_ok (drop (Z.to_nat k) (rf_buffer f))) rest' (c - 1).
Proof.
  intros Hn (Hst&Hb&bufs&El&Hne&Er&Ec) Hbuf k d. apply len_pos in Hbuf.
  assert (k = Z.min (len (rf_buffer f)) n) as Ek by (unfold k; bcase; lia).
  assert (len d = k) as Ed by (apply len_take; lia). split; [done|]. split; [lia|].
  exists (drop (Z.to_nat k) (rf_buffer f) ++ concat bufs). split; [unfold d; by rewrite app_assoc, take_drop|]. split; [done|]. split.
  { rewrite Er in Hb. apply Forall_app in Hb as [Hb1 Hb2]. apply Forall_app. split; [by apply Forall_drop|done]. }
  exists bufs. split_and!; try done. cbn [rf_buffer]. rewrite len_drop, Ek, chunk_step by lia. lia.
Qed.

Lemma read_from_file_spec n l f rest c :
  0 < n -> rfile_ok n l f rest c ->
  (rest = [] /\ exists l' f', read_from_file l f n = Some (l', f', 0, []))
  \/ exists l' f' d rest', read_from_file l f n = Some (l', f', len d, d) /\ 0 < len d <= n /\ rest = d ++ rest'
      /\ rfile_ok n l' f' rest' (c - 1).
Proof.
  intros Hn Hok. pose proof Hok as (Hst&Hb&bufs&El&Hne&Er&Ec). unfold read_from_file. rewrite Hst.
  destruct (Z.eqb_spec (len (rf_buffer f)) 0) as [E0|E0].
  - apply Z.eq_le_incl in E0. apply len_nil_inv in E0. rewrite E0 in Er, Ec. destruct bufs as [|d bufs]; rewrite El; cbn [fmap list_fmap app].
    + left. split; [done|]. cbn. eauto.
    + right. cbn [mbind option_bind rf_state rf_buffer]. apply Forall_cons in Hne as [Hd Hne].
      destruct (read_buffer n ((RBuf <$> bufs) ++ [REof]) (mkRFile f_ok d) rest c Hn) as (Ek&Hk&rest'&Erest&Hok'); [|done|].
      { split; [done|]. split; [done|]. exists bufs. split_and!; try done. rewrite Ec. cbn [foldr rf_buffer].
        assert (chunk n (len (@nil Z)) = 0) as -> by (unfold chunk; change (len (@nil Z)) with 0; apply Z.div_small; lia). lia. }
      cbn [rf_buffer] in *. eexists _, _, _, rest'. split; [rewrite <- Ek; reflexivity|]. rewrite <- Ek in Hk |- *. done.
  - right. cbn [mbind option_bind]. rewrite Hst. destruct (read_buffer n l f rest c Hn Hok) as (Ek&Hk&rest'&Erest&Hok').
    { intros E. by rewrite E in E0. }
    eexists _, _, _, rest'. split; [rewrite <- Ek; reflexivity|]. rewrite <- Ek in Hk |- *. done.
Qed.
