(* ===== verification/SftpXfer.v ===== *)
(** * Queued transfers (sftp.c: xfer_*, and the loops of psftp.c that drive them)

    A transfer keeps many READ or WRITE requests in flight.  Its requests are a doubly linked
    list in memory ([struct req], in the order of their offsets); the [userdata] of an SFTP request is
    the address of its [struct req].  Answers may come in any order; data is handed out
    in the order of the file.

    The buffer of a request is the list of the bytes an answer has put into it.  Numbers
    of bytes in flight ([int] in the code) are integers; they stay below five megabytes in
    a download.  Progress reports go to a log, and whether the timer for the next one
    has run out is an argument. *)

From stdpp Require Import gmap sorting.
From S2P Require Import Prelude Memory Marshal Strbuf Tree234 SortedSet SftpPacket Sftp.
Open Scope Z_scope.

(** [struct req]: the contents, and the two pointers. *)
Record req_data := mkData { rq_len : Z; rq_retlen : Z; rq_complete : Z; rq_offset : Z; rq_buffer : list Z }.
Record req := mkRq { rq : req_data; rq_next : option Z; rq_prev : option Z }.

Record fxp_xfer := mkXfer {
  x_offset : Z; x_furthestdata : Z; x_filesize : Z;
  x_totalsize : Z; x_maxsize : Z;
  x_eof : bool; x_err : bool;
  x_fh : fxp_handle;
  x_head : option Z; x_tail : option Z;
  x_sent_interval : Z
}.

(** The session, the requests of the transfer in memory, and the progress reports. *)
Record world := mkWorld { w_st : session; w_reqs : gmap Z req; w_next : Z; w_reports : list Z }.

Definition set_st (w : world) (st : session) : world := mkWorld st (w_reqs w) (w_next w) (w_reports w).
Definition set_reqs (w : world) (m : gmap Z req) : world := mkWorld (w_st w) m (w_next w) (w_reports w).

(** [eof] is set by the callers. *)
Definition xfer_init (fh : fxp_handle) (offset : Z) (eof : bool) : fxp_xfer :=
  mkXfer offset 0 SIZE_MAX 0 (1048576 * 4) eof false fh None None 0.

Definition xfer_done (x : fxp_xfer) : bool :=
  (x_eof x || x_err x) && match x_head x with None => true | Some _ => false end.

Definition xfer_set_error (x : fxp_xfer) : fxp_xfer :=
  mkXfer (x_offset x) (x_furthestdata x) (x_filesize x) (x_totalsize x) (x_maxsize x) (x_eof x) true (x_fh x) (x_head x) (x_tail x)
    (x_sent_interval x).

Definition set_ends (x : fxp_xfer) (hd tl : option Z) : fxp_xfer :=
  mkXfer (x_offset x) (x_furthestdata x) (x_filesize x) (x_totalsize x) (x_maxsize x) (x_eof x) (x_err x) (x_fh x) hd tl
    (x_sent_interval x).
Definition add_total (x : fxp_xfer) (d : Z) : fxp_xfer :=
  mkXfer (x_offset x) (x_furthestdata x) (x_filesize x) (x_totalsize x + d) (x_maxsize x) (x_eof x) (x_err x) (x_fh x) (x_head x)
    (x_tail x) (x_sent_interval x).
Definition add_offset (x : fxp_xfer) (d : Z) : fxp_xfer :=
  mkXfer (u64 (x_offset x + d)) (x_furthestdata x) (x_filesize x) (x_totalsize x) (x_maxsize x) (x_eof x) (x_err x) (x_fh x) (x_head x)
    (x_tail x) (x_sent_interval x).

(** A new [struct req] at the end of the list. *)
Definition append_req (w : world) (x : fxp_xfer) (d : req_data) : option (world * fxp_xfer * Z) :=
  let rr := w_next w in
  m ← match x_tail x with
      | Some t => n ← w_reqs w !! t; Some (<[t := mkRq (rq n) (Some rr) (rq_prev n)]> (w_reqs w))
      | None => Some (w_reqs w)
      end;
  let hd := match x_tail x with Some _ => x_head x | None => Some rr end in
  Some (mkWorld (w_st w) (<[rr := mkRq d None (x_tail x)]> m) (rr + 1) (w_reports w), set_ends x hd (Some rr), rr).

(** ** Downloading *)

Definition BLOCK : Z := 32768.

(** One round of the loop of [xfer_download_queue]. *)
Definition queue_read (w : world) (x : fxp_xfer) : option (world * fxp_xfer) :=
  let offset := x_offset x in
  '(w, x, rr) ← append_req w x (mkData BLOCK 0 0 offset []);
  '(st, r) ← fxp_read_send (w_st w) (x_fh x) offset BLOCK;
  st ← sftp_register st r;
  st ← fxp_set_userdata st r rr;
  Some (set_st w st, add_total (add_offset x BLOCK) BLOCK).

Fixpoint queue_loop (fuel : nat) (w : world) (x : fxp_xfer) : option (world * fxp_xfer) :=
  if (x_totalsize x <? x_maxsize x) && negb (x_eof x) && negb (x_err x) then
    match fuel with
    | O => None
    | S fuel => '(w, x) ← queue_read w x; queue_loop fuel w x
    end
  else Some (w, x).

Definition xfer_download_queue (w : world) (x : fxp_xfer) : option (world * fxp_xfer) :=
  queue_loop (Z.to_nat ((x_maxsize x - x_totalsize x) / BLOCK + 1)) w x.

Definition xfer_download_init (w : world) (fh : fxp_handle) (offset : Z) : option (world * fxp_xfer) :=
  xfer_download_queue w (xfer_init fh offset false).

(** Finding the [struct req] a packet belongs to: the request and the packet, or [INT_MIN]. *)
Definition find_rr (w : world) (pktin : option packet_in) (msg : string) : option (world * option (sftp_request * packet_in * Z)) :=
  '(st, found) ← sftp_find_request (w_st w) pktin;
  match found with
  | None => Some (set_st w st, None)
  | Some (rreq, pktin) =>
      ud ← fxp_get_userdata st rreq;
      match ud with
      | None => Some (set_st w (fxp_internal_error st msg), None)
      | Some rr => Some (set_st w st, Some (rreq, pktin, rr))
      end
  end.

(** The bookkeeping after an answer of [retlen] bytes for the block at [offset]. *)
Definition note_block (x : fxp_xfer) (offset n retlen : Z) (eof : bool) : fxp_xfer :=
  let furthestdata := if (0 <? retlen) && (x_furthestdata x <? offset) then offset else x_furthestdata x in
  let filesize :=
    if retlen <? n then
      let fs := u64 (offset + (if retlen <? 0 then 0 else retlen)) in
      if fs <? x_filesize x then fs else x_filesize x
    else x_filesize x in
  mkXfer (x_offset x) furthestdata filesize (x_totalsize x) (x_maxsize x) (x_eof x || eof) (x_err x) (x_fh x) (x_head x) (x_tail x)
    (x_sent_interval x).

Definition xfer_download_gotpkt (w : world) (x : fxp_xfer) (pktin : option packet_in) : option (world * fxp_xfer * Z) :=
  '(w, found) ← find_rr w pktin "request ID is not part of the current download";
  match found with
  | None => Some (w, x, INT_MIN)
  | Some (rreq, pktin, a) =>
      n ← w_reqs w !! a;
      let rr := rq n in
      '(st, retlen, data) ← fxp_read_recv (w_st w) pktin rreq (rq_len rr);
      let w := set_st w st in
      let set_rr retlen complete := set_reqs w (<[a := mkRq (mkData (rq_len rr) retlen complete (rq_offset rr) data) (rq_next n) (rq_prev n)]> (w_reqs w)) in
      let eof := ((retlen <? 0) && (fxp_error_type st =? SSH_FX_EOF)) || (retlen =? 0) in
      if negb eof && (retlen <? 0) then Some (set_rr retlen (-1), xfer_set_error x, -1)
      else
        let retlen := if eof then 0 else retlen in
        let x := note_block x (rq_offset rr) (rq_len rr) retlen eof in
        let w := set_rr retlen 1 in
        if x_filesize x <? x_furthestdata x then
          let st := set_error (w_st w) (MText (codes "received a short buffer from FXP_READ, but not at EOF")) (-1) in
          Some (set_st w st, xfer_set_error x, -1)
        else Some (w, x, 1)
  end.

(** [while (xfer->head && xfer->head->complete && !retbuf)] *)
Fixpoint data_loop (fuel : nat) (w : world) (x : fxp_xfer) : option (world * fxp_xfer * option (list Z)) :=
  match x_head x with
  | None => Some (w, x, None)
  | Some a =>
      n ← w_reqs w !! a;
      let rr := rq n in
      if rq_complete rr =? 0 then Some (w, x, None)
      else
        match fuel with
        | O => None
        | S fuel =>
            '(m, tl) ← match rq_next n with
                       | Some b => nb ← w_reqs w !! b; Some (<[b := mkRq (rq nb) (rq_next nb) None]> (w_reqs w), x_tail x)
                       | None => Some (w_reqs w, None)
                       end;
            let w := set_reqs w (delete a m) in
            let x := add_total (set_ends x (rq_next n) tl) (- rq_len rr) in
            if 0 <? rq_complete rr then Some (w, x, Some (take (Z.to_nat (rq_retlen rr)) (rq_buffer rr)))
            else data_loop fuel w x
        end
  end.

(** The data handed out, if there is any. *)
Definition xfer_download_data (w : world) (x : fxp_xfer) : option (world * fxp_xfer * option (list Z)) :=
  data_loop (length (map_to_list (w_reqs w))) w x.

(** ** Uploading *)

Definition xfer_upload_init (fh : fxp_handle) (offset : Z) : fxp_xfer := xfer_init fh offset true.

Definition xfer_upload_data (w : world) (x : fxp_xfer) (buffer : list Z) : option (world * fxp_xfer) :=
  let offset := x_offset x in
  '(w, x, rr) ← append_req w x (mkData (len buffer) 0 0 offset []);
  '(st, r) ← fxp_write_send (w_st w) (x_fh x) buffer offset;
  st ← sftp_register st r;
  st ← fxp_set_userdata st r rr;
  Some (set_st w st, add_total (add_offset x (len buffer)) (len buffer)).

(** Taking a [struct req] out of the list. *)
Definition unlink_req (m : gmap Z req) (x : fxp_xfer) (a : Z) (n : req) : option (gmap Z req * fxp_xfer) :=
  '(m, hd) ← match rq_prev n with
             | Some p => np ← m !! p; Some (<[p := mkRq (rq np) (rq_next n) (rq_prev np)]> m, x_head x)
             | None => Some (m, rq_next n)
             end;
  '(m, tl) ← match rq_next n with
             | Some b => nb ← m !! b; Some (<[b := mkRq (rq nb) (rq_next nb) (rq_prev n)]> m, x_tail x)
             | None => Some (m, rq_prev n)
             end;
  Some (delete a m, set_ends x hd tl).

Definition report (w : world) (n : Z) : world := mkWorld (w_st w) (w_reqs w) (w_next w) (w_reports w ++ [n]).

(** [sent_interval += n], reported and reset when the timer has run out. *)
Definition count_sent (tick : bool) (w : world) (x : fxp_xfer) (n : Z) : world * fxp_xfer :=
  let s := x_sent_interval x + n in
  let set v := mkXfer (x_offset x) (x_furthestdata x) (x_filesize x) (x_totalsize x) (x_maxsize x) (x_eof x) (x_err x) (x_fh x)
                 (x_head x) (x_tail x) v in
  if tick then (report w s, set 0) else (w, set s).

Definition xfer_upload_gotpkt (tick : bool) (w : world) (x : fxp_xfer) (pktin : option packet_in) : option (world * fxp_xfer * Z) :=
  '(w, found) ← find_rr w pktin "request ID is not part of the current upload";
  match found with
  | None => Some (w, x, INT_MIN)
  | Some (rreq, pktin, a) =>
      n ← w_reqs w !! a;
      '(st, ret) ← fxp_write_recv (w_st w) pktin rreq;
      '(m, x) ← unlink_req (w_reqs w) x a n;
      let x := add_total x (- rq_len (rq n)) in
      let '(w, x) := count_sent tick (set_reqs (set_st w st) m) x (rq_len (rq n)) in
      Some (w, x, if ret : bool then 1 else -1)
  end.

(** [while (xfer->head)] of [xfer_cleanup]. *)
Fixpoint cleanup_loop (fuel : nat) (m : gmap Z req) (head : option Z) : option (gmap Z req) :=
  match head with
  | None => Some m
  | Some a =>
      match fuel with
      | O => None
      | S fuel => n ← m !! a; cleanup_loop fuel (delete a m) (rq_next n)
      end
  end.

Definition xfer_cleanup (w : world) (x : fxp_xfer) : option world :=
  let w := if 0 <? x_sent_interval x then report w (x_sent_interval x) else w in
  m ← cleanup_loop (length (map_to_list (w_reqs w))) (w_reqs w) (x_head x);
  Some (set_reqs w m).

(** ** The list of requests *)

(** [L] from [hd] to [tl], between [p] and [n]. *)
Fixpoint dll (m : gmap Z req) (p : option Z) (L : list (Z * req_data)) (n hd tl : option Z) : Prop :=
  match L with
  | [] => hd = n /\ tl = p
  | (a, d) :: L => hd = Some a /\ exists nx, m !! a = Some (mkRq d nx p) /\ dll m (Some a) L n nx tl
  end.

Lemma dll_app m p L1 L2 n hd tl :
  dll m p (L1 ++ L2) n hd tl <-> exists hd2 tl1, dll m p L1 hd2 hd tl1 /\ dll m tl1 L2 n hd2 tl.
Proof.
  revert p hd. induction L1 as [|[a d] L1 IH]; intros p hd; cbn.
  - split; [intros H; by exists hd, p|]. by intros (?&?&[-> ->]&H).
  - split.
    + intros (->&nx&Hm&(hd2&tl1&H1&H2)%IH). exists hd2, tl1. eauto 6.
    + intros (hd2&tl1&(->&nx&Hm&H1)&H2). split; [done|]. exists nx. split; [done|]. apply IH. eauto.
Qed.

(** Only the addresses in the list matter. *)
Lemma dll_frame m m' p L n hd tl :
  (forall a, a ∈ L.*1 -> m' !! a = m !! a) -> dll m p L n hd tl -> dll m' p L n hd tl.
Proof.
  revert p hd. induction L as [|[a d] L IH]; intros p hd Hm; cbn; [done|]. intros (->&nx&Ha&H). split; [done|]. exists nx.
  split; [rewrite Hm; [done|cbn; by left]|]. apply IH; [|done]. intros b Hb. apply Hm. cbn. by right.
Qed.

Lemma dll_insert_other m a x p L n hd tl : a ∉ L.*1 -> dll m p L n hd tl -> dll (<[a := x]> m) p L n hd tl.
Proof. intros Ha. apply dll_frame. intros b Hb. apply lookup_insert_ne. by intros ->. Qed.

Lemma dll_delete_other m a p L n hd tl : a ∉ L.*1 -> dll m p L n hd tl -> dll (delete a m) p L n hd tl.
Proof. intros Ha. apply dll_frame. intros b Hb. apply lookup_delete_ne. by intros ->. Qed.

Lemma dll_tail m p L n hd tl : dll m p L n hd tl -> tl = match list.last L with Some (t, _) => Some t | None => p end.
Proof.
  revert p hd. induction L as [|[a d] L IH]; intros p hd; [by intros [_ ->]|]. intros (->&nx&_&H). rewrite (IH _ _ H), last_cons.
  by destruct (list.last L) as [[]|].
Qed.
Lemma dll_head m p L n hd tl : dll m p L n hd tl -> hd = match L with (a, _) :: _ => Some a | [] => n end.
Proof. destruct L as [|[a d] L]; cbn; [by intros [-> _]|by intros (->&_)]. Qed.

Lemma dll_in m p L n hd tl a d : dll m p L n hd tl -> (a, d) ∈ L -> exists nx pv, m !! a = Some (mkRq d nx pv).
Proof.
  intros H Hin. apply list_elem_of_split in Hin as (L1&L2&->). apply dll_app in H as (hd2&tl1&_&H).
  cbn in H. destruct H as (->&nx&Hm&_). eauto.
Qed.

(** Linking the list to something else behind it, and before it. *)
Lemma dll_relink_last m p L n n' hd t :
  NoDup L.*1 -> dll m p L n hd (Some t) -> list.last (L.*1) = Some t ->
  exists nd, m !! t = Some nd /\ dll (<[t := mkRq (rq nd) n' (rq_prev nd)]> m) p L n' hd (Some t).
Proof.
  intros Hnd H Hl. destruct (exists_last (l := L)) as (L1&[a d]&->); [by intros ->|].
  rewrite fmap_app, last_app in Hl. cbn in Hl. injection Hl as ->. rewrite fmap_app in Hnd. cbn in Hnd.
  apply dll_app in H as (hd2&tl1&H1&H2). cbn in H2. destruct H2 as (->&nx&Hm&_&_).
  eexists. split; [exact Hm|]. apply dll_app. exists (Some t), tl1. split.
  - apply dll_insert_other; [|done]. apply NoDup_app in Hnd as (_&Hd&_). intros Ht. apply (Hd t Ht). by left.
  - cbn. split; [done|]. eexists. split; [apply lookup_insert_eq|done].
Qed.

Lemma dll_relink_first m p p' a d L n hd tl :
  NoDup ((a, d) :: L).*1 -> dll m p ((a, d) :: L) n hd tl ->
  exists nd, m !! a = Some nd /\ dll (<[a := mkRq (rq nd) (rq_next nd) p']> m) p' ((a, d) :: L) n hd tl.
Proof.
  cbn [fmap list_fmap fst dll]. intros [Ha Hnd]%NoDup_cons (->&nx&Hm&H). eexists. split; [exact Hm|]. split; [done|].
  exists nx. split; [apply lookup_insert_eq|]. by apply dll_insert_other.
Qed.

(** The requests in memory are exactly those of the list. *)
Definition listed (m : gmap Z req) (hd tl : option Z) (L : list (Z * req_data)) : Prop :=
  dll m None L None hd tl /\ NoDup L.*1 /\ forall a, is_Some (m !! a) <-> a ∈ L.*1.

Lemma listed_empty : listed ∅ None None [].
Proof. split; [done|]. split; [apply NoDup_nil_2|]. intros a. rewrite lookup_empty. split; [by intros []|by intros ?%elem_of_nil]. Qed.

Lemma listed_length m hd tl L : listed m hd tl L -> (length L <= length (map_to_list m))%nat.
Proof.
  intros (_&Hnd&Hdom). rewrite <- (length_fmap fst L), <- (length_fmap fst (map_to_list m)). apply submseteq_length, NoDup_submseteq; [done|].
  intros a Ha. apply Hdom in Ha as [n Hn]. apply list_elem_of_fmap. exists (a, n). split; [done|]. by apply elem_of_map_to_list.
Qed.

Lemma is_Some_insert (m : gmap Z req) a n b : is_Some (m !! a) -> is_Some (<[a := n]> m !! b) <-> is_Some (m !! b).
Proof. intros Ha. destruct (decide (a = b)) as [->|]; [rewrite lookup_insert_eq; by split|by rewrite lookup_insert_ne]. Qed.

Lemma list_snoc_case {A} (l : list A) : l = [] \/ exists k x, l = k ++ [x].
Proof. induction l as [|x k _] using rev_ind; eauto. Qed.

Lemma listed_append (w : world) (x : fxp_xfer) L d :
  listed (w_reqs w) (x_head x) (x_tail x) L -> w_next w ∉ L.*1 ->
  exists m hd tl, append_req w x d = Some (mkWorld (w_st w) m (w_next w + 1) (w_reports w), set_ends x hd tl, w_next w)
    /\ listed m hd tl (L ++ [(w_next w, d)]).
Proof.
  intros (Hl&Hnd&Hdom) Ha. unfold append_req. set (a := w_next w) in *.
  assert (NoDup (L ++ [(a, d)]).*1) as Hnd'.
  { rewrite fmap_app. apply NoDup_app. split; [done|]. split; [|apply NoDup_singleton].
    intros b Hb Hb'. cbn in Hb'. apply list_elem_of_singleton in Hb'. by subst. }
  assert (forall m : gmap Z req, (forall b, is_Some (m !! b) <-> is_Some (w_reqs w !! b)) ->
    forall b, is_Some (<[a := mkRq d None (x_tail x)]> m !! b) <-> b ∈ (L ++ [(a, d)]).*1) as Hdom'.
  { intros m Hm b. rewrite fmap_app, elem_of_app. cbn. rewrite list_elem_of_singleton, lookup_insert_is_Some, Hm, Hdom.
    destruct (decide (a = b)); naive_solver. }
  destruct (list_snoc_case L) as [->|(L1&[t dt]&EL)].
  - destruct Hl as [Eh Et]. rewrite Et in *. eexists _, _, _. split; [done|]. split; [|split; [done|by apply Hdom']].
    cbn. split; [done|]. eexists. split; [apply lookup_insert_eq|done].
  - assert (x_tail x = Some t) as Et by (rewrite (dll_tail _ _ _ _ _ _ Hl), EL, last_snoc; done).
    rewrite Et in *. destruct (dll_relink_last _ _ _ _ (Some a) _ _ Hnd Hl) as (nd&Hm&Hl').
    { rewrite EL, fmap_app. apply last_snoc. }
    rewrite Hm. cbn [mbind option_bind]. eexists _, _, _. split; [done|]. split; [|split; [done|apply Hdom'; intros b; apply is_Some_insert; eauto]].
    apply dll_app. exists (Some a), (Some t). split; [by apply dll_insert_other|]. cbn. split; [done|].
    eexists. split; [apply lookup_insert_eq|done].
Qed.

Lemma listed_update m hd tl L1 a d L2 :
  listed m hd tl (L1 ++ (a, d) :: L2) ->
  exists nx pv, m !! a = Some (mkRq d nx pv) /\ forall d', listed (<[a := mkRq d' nx pv]> m) hd tl (L1 ++ (a, d') :: L2).
Proof.
  intros (Hl&Hnd&Hdom). apply dll_app in Hl as (hd2&tl1&H1&H2). cbn in H2. destruct H2 as (->&nx&Hm&H2). exists nx, tl1. split; [done|].
  intros d'. rewrite fmap_app in Hnd. cbn in Hnd. split; [|split].
  - apply NoDup_app in Hnd as (_&Hn1&[Hn2 _]%NoDup_cons). apply dll_app. exists (Some a), tl1. split.
    + apply dll_insert_other; [|done]. intros Ha. apply (Hn1 a Ha). by left.
    + cbn. split; [done|]. exists nx. split; [apply lookup_insert_eq|]. by apply dll_insert_other.
  - by rewrite fmap_app.
  - intros b. rewrite is_Some_insert by eauto. rewrite Hdom, !fmap_app. done.
Qed.

(** The two halves of [unlink_req]. *)
Lemma unlink_prev m L1 a hd tl1 nx :
  NoDup L1.*1 -> dll m None L1 (Some a) hd tl1 ->
  exists m1 hd', match tl1 with
                 | Some p => np ← m !! p; Some (<[p := mkRq (rq np) nx (rq_prev np)]> m, hd)
                 | None => Some (m, nx)
                 end = Some (m1, hd')
    /\ dll m1 None L1 nx hd' tl1 /\ (forall b, b ∉ L1.*1 -> m1 !! b = m !! b) /\ (forall b, is_Some (m1 !! b) <-> is_Some (m !! b)).
Proof.
  intros Hnd H. destruct (list_snoc_case L1) as [->|(L0&[p dp]&EL)].
  - destruct H as [_ ->]. by exists m, nx.
  - assert (tl1 = Some p) as -> by (rewrite (dll_tail _ _ _ _ _ _ H), EL, last_snoc; done).
    destruct (dll_relink_last _ _ _ _ nx _ _ Hnd H) as (nd&Hm&H'); [rewrite EL, fmap_app; apply last_snoc|].
    rewrite Hm. cbn [mbind option_bind]. eexists _, _. split; [done|]. split; [done|]. split.
    + intros b Hb. rewrite lookup_insert_ne; [done|]. intros ->. apply Hb. rewrite EL, fmap_app. apply elem_of_app. right. by left.
    + intros b. apply is_Some_insert. eauto.
Qed.

Lemma unlink_next m L2 a nx tl pv :
  NoDup L2.*1 -> dll m (Some a) L2 None nx tl ->
  exists m2 tl', match nx with
                 | Some b => nb ← m !! b; Some (<[b := mkRq (rq nb) (rq_next nb) pv]> m, tl)
                 | None => Some (m, pv)
                 end = Some (m2, tl')
    /\ dll m2 pv L2 None nx tl' /\ (forall b, b ∉ L2.*1 -> m2 !! b = m !! b) /\ (forall b, is_Some (m2 !! b) <-> is_Some (m !! b)).
Proof.
  intros Hnd H. destruct L2 as [|[b db] L2].
  - destruct H as [-> ->]. by exists m, pv.
  - assert (nx = Some b) as -> by (destruct H as [H _]; done).
    destruct (dll_relink_first _ _ pv _ _ _ _ _ _ Hnd H) as (nd&Hm&H').
    rewrite Hm. cbn [mbind option_bind]. eexists _, _. split; [done|]. split; [done|]. split.
    + intros c Hc. rewrite lookup_insert_ne; [done|]. intros ->. apply Hc. by left.
    + intros c. apply is_Some_insert. eauto.
Qed.

Lemma listed_unlink m x L1 a d L2 :
  listed m (x_head x) (x_tail x) (L1 ++ (a, d) :: L2) ->
  exists nx pv m' hd tl, m !! a = Some (mkRq d nx pv) /\ unlink_req m x a (mkRq d nx pv) = Some (m', set_ends x hd tl)
    /\ listed m' hd tl (L1 ++ L2) /\ (L1 = [] -> pv = None).
Proof.
  intros (Hl&Hnd&Hdom). apply dll_app in Hl as (hd2&pv&H1&H2). cbn in H2. destruct H2 as (->&nx&Hm&H2).
  rewrite fmap_app in Hnd. cbn in Hnd. apply NoDup_app in Hnd as (Hnd1&Hd&[Ha2 Hnd2]%NoDup_cons).
  assert (a ∉ L1.*1) as Ha1 by (intros Ha; apply (Hd a Ha); by left).
  assert (forall b, b ∈ L1.*1 -> b ∉ L2.*1) as Hd' by (intros b Hb Hb'; apply (Hd b Hb); by right).
  destruct (unlink_prev m L1 a _ _ nx Hnd1 H1) as (m1&hd&E1&Hl1&Hm1&Hs1).
  destruct (unlink_next m1 L2 a nx (x_tail x) pv Hnd2) as (m2&tl&E2&Hl2&Hm2&Hs2).
  { apply (dll_frame m); [|done]. intros b Hb. apply Hm1. intros Hb'. by apply (Hd' b). }
  exists nx, pv, (delete a m2), hd, tl. split; [done|]. unfold unlink_req. cbn [rq_prev rq_next]. rewrite E1. cbn [mbind option_bind].
  rewrite E2. cbn [mbind option_bind]. split; [done|]. split.
  - split; [|split].
    + apply dll_delete_other; [by rewrite fmap_app, elem_of_app; tauto|]. apply dll_app. exists nx, pv. split; [|done].
      apply (dll_frame m1); [|done]. intros b Hb. by apply Hm2, Hd'.
    + rewrite fmap_app. apply NoDup_app. split_and!; done.
    + intros b. rewrite lookup_delete_is_Some, Hs2, Hs1, Hdom, !fmap_app, !elem_of_app. cbn. rewrite elem_of_cons.
      destruct (decide (a = b)); naive_solver.
  - intros ->. by destruct H1 as [_ ->].
Qed.

(** ** The requests in flight *)

Definition set_input (st : session) (inp : list Z) : session :=
  mkSession (sftp_requests st) (req_mem st) (next_req st) (fxp_error_message st) (fxp_errtype st) (sent st) inp.

(** The pending requests are those of the transfer, each with the address of its [struct req]. *)
Definition outstanding (st : session) (Q : list (sftp_request * Z)) : Prop :=
  sess_ok st /\ pending st ≡ₚ Q.*1
  /\ Forall (fun q => req_mem st !! r_addr q.1 = Some (mkFields true (Some q.2)) /\ word_ok 32 (r_id q.1)) Q.

#[export] Instance outstanding_perm st : Proper ((≡ₚ) ==> iff) (outstanding st).
Proof. intros Q Q' E. unfold outstanding. by rewrite E. Qed.

Lemma outstanding_input st inp Q : outstanding st Q -> outstanding (set_input st inp) Q.
Proof. done. Qed.

Lemma outstanding_fresh st st' r (Q : list (sftp_request * Z)) :
  sess_ok st -> allocated st st' r -> pending st ≡ₚ Q.*1 -> Forall (fun q => r_addr q.1 <> r_addr r) Q.
Proof.
  intros (_&Hf&_&Hmem) Hal Hp. apply Forall_forall. intros q Hq E. rewrite Hp in Hf. rewrite Forall_forall in Hf.
  destruct (Hf q.1) as [_ Hs]; [apply list_elem_of_fmap; eauto|]. specialize (Hmem _ Hs). rewrite (al_addr _ _ _ Hal) in E. lia.
Qed.

Lemma set_userdata_spec st req f a :
  sess_ok st -> req_mem st !! r_addr req = Some f ->
  exists st', fxp_set_userdata st req a = Some st' /\ sess_ok st' /\ pending st' = pending st
    /\ req_mem st' = <[r_addr req := mkFields (registered f) (Some a)]> (req_mem st) /\ input st' = input st /\ sent st' = sent st.
Proof.
  intros (Ht&Hf&Hnd&Hmem) Hm. unfold fxp_set_userdata. rewrite Hm. cbn [mbind option_bind]. eexists. split; [done|]. split; [|done].
  split; [done|]. split; [|split; [done|]].
  - eapply Forall_impl; [exact Hf|]. cbn. intros x [Hid Hx]. split; [done|]. rewrite lookup_insert_is_Some. destruct (decide (r_addr req = r_addr x)); auto.
  - cbn. intros b. rewrite lookup_insert_is_Some. intros [<-|[_ Hb]]; apply Hmem; eauto.
Qed.

(** Sending a request and registering it for [a]. *)
Lemma send_outstanding st Q op a :
  outstanding st Q -> len Q < 2 ^ 31 -> op_ok op ->
  exists st1 r st2 st', fxp_send st op = Some (st1, r) /\ sftp_register st1 r = Some st2 /\ fxp_set_userdata st2 r a = Some st'
    /\ outstanding st' (Q ++ [(r, a)]) /\ sent st' = sent st ++ [frame (op_type op) (FUint32 (r_id r) :: op_fields op)]
    /\ input st' = input st /\ word_ok 32 (r_id r).
Proof.
  intros (Hok&Hp&HQ) HQl Hop. destruct (send_spec st op Hok) as (st1&r&E1&Hok1&Hal&Hs1); [|done|].
  { unfold len in *. rewrite Hp, length_fmap. done. }
  assert (req_mem st1 !! r_addr r = Some (mkFields false None)) as Hm1 by (rewrite (al_mem _ _ _ Hal); apply lookup_insert_eq).
  destruct (register_spec st1 r _ Hok1 Hm1) as (st2&E2&Hok2&Ep2&Em2&Ei2&Es2).
  destruct (set_userdata_spec st2 r (mkFields true None) a Hok2) as (st'&E3&Hok3&Ep3&Em3&Ei3&Es3); [rewrite Em2; apply lookup_insert_eq|].
  exists st1, r, st2, st'. split; [done|]. split; [done|]. split; [done|]. split; [|split_and!].
  - split; [done|]. rewrite Ep3, Ep2, (al_pending _ _ _ Hal), Hp, fmap_app. split; [by rewrite Permutation_app_comm|].
    apply Forall_app. split; [|apply Forall_cons; split; [|by apply Forall_nil]].
    + pose proof (outstanding_fresh _ _ _ _ Hok Hal Hp) as Hfr. rewrite Forall_forall in *. intros q Hq.
      destruct (HQ q Hq) as [Hm Hid]. split; [|done]. specialize (Hfr q Hq). rewrite Em3, Em2, (al_mem _ _ _ Hal).
      by rewrite !lookup_insert_ne by congruence.
    + cbn. rewrite Em3, lookup_insert_eq. split; [done|]. apply Hal.
  - by rewrite Es3, Es2.
  - rewrite Ei3, Ei2. apply Hal.
  - apply Hal.
Qed.

(** The answer to one of the requests: it is found with its [struct req], and decoded. *)
Lemma answer_outstanding w Q Q' r a op reply old inp rest msg :
  outstanding (w_st w) Q -> Q ≡ₚ (r, a) :: Q' -> reply_ok reply ->
  inp = frame (reply_type reply) (FUint32 (r_id r) :: reply_fields reply) ++ rest ->
  exists pktin st1 pktin' st2,
    sftp_recv inp = (Some pktin, rest) /\ find_rr w (Some pktin) msg = Some (set_st w st1, Some (r, pktin', a))
    /\ fxp_recv st1 op pktin' r old = Some (st2, (reply_result op reply old).1)
    /\ fxp_errtype st2 = default (fxp_errtype (w_st w)) (reply_result op reply old).2
    /\ outstanding st2 Q' /\ sent st2 = sent (w_st w) /\ input st2 = input (w_st w).
Proof.
  intros HQ0 HQQ Hr Hin. rewrite HQQ in HQ0. destruct HQ0 as (Hok&Hp&HQ). apply Forall_cons in HQ as [[Hm Hid] HQ]. cbn [fst snd] in *.
  destruct (reply_spec (w_st w) op reply r (Some a) old inp rest Hok) as (pktin&st1&pktin'&st2&H1&H2&Htk&H3&H4&H5&H6&H7&H8&H9); try done.
  { rewrite Hp. by left. }
  exists pktin, st1, pktin', st2. split; [done|]. split.
  { unfold find_rr. rewrite H2. cbn [mbind option_bind]. unfold fxp_get_userdata. rewrite (tk_mem _ _ _ Htk), Hm. done. }
  split; [done|]. split; [done|]. split; [|done]. split; [done|]. split.
  - apply (Permutation_cons_inv (a := r)). rewrite <- H6, Hp. done.
  - rewrite Forall_forall in *. intros q Hq. destruct (HQ q Hq) as [Hmq Hidq]. split; [|done]. rewrite H7, lookup_delete_ne; [done|].
    destruct Hok as (_&_&Hnd&_). rewrite Hp in Hnd. cbn in Hnd. apply NoDup_cons in Hnd as [Hnd _]. intros E. apply Hnd. rewrite E.
    rewrite <- list_fmap_compose. apply list_elem_of_fmap. by exists q.
Qed.

(** A read that gave [d], or nothing at the end of the file. *)
Lemma gotpkt_data w w1 x pktin r pktin' a n off nx pv st2 k d :
  find_rr w (Some pktin) "request ID is not part of the current download" = Some (w1, Some (r, pktin', a)) ->
  w_reqs w1 !! a = Some (mkRq (mkData n 0 0 off []) nx pv) -> fxp_read_recv (w_st w1) pktin' r n = Some (st2, k, d) ->
  k = len d \/ k = -1 /\ fxp_errtype st2 = SSH_FX_EOF /\ len d = 0 ->
  let x' := note_block x off n (len d) (len d =? 0) in x_furthestdata x' <= x_filesize x' ->
  xfer_download_gotpkt w x (Some pktin)
    = Some (set_reqs (set_st w1 st2) (<[a := mkRq (mkData n (len d) 1 off d) nx pv]> (w_reqs w1)), x', 1).
Proof.
  intros E1 Hm E2 Hk x' Hx. unfold xfer_download_gotpkt. rewrite E1. cbn [mbind option_bind]. rewrite Hm.
  cbn [mbind option_bind rq rq_len rq_offset rq_next rq_prev]. rewrite E2. cbn [mbind option_bind]. unfold fxp_error_type.
  set (eof := (k <? 0) && (fxp_errtype st2 =? SSH_FX_EOF) || (k =? 0)).
  assert (eof = (len d =? 0) /\ (negb eof && (k <? 0) = false) /\ (if eof then 0 else k) = len d) as (Heof&->&->).
  { unfold eof. pose proof (len_nonneg d). destruct Hk as [->|(->&->&Hz)].
    - destruct (Z.ltb_spec (len d) 0); [lia|]. cbn. destruct (Z.eqb_spec (len d) 0); split_and!; done || lia.
    - rewrite Hz. done. }
  rewrite Heof. fold x'. by rewrite (proj2 (Z.ltb_ge _ _)).
Qed.

(** The first block of the list has been read. *)
Lemma download_data_head w x a n k off d L :
  listed (w_reqs w) (x_head x) (x_tail x) ((a, mkData n k 1 off d) :: L) ->
  exists m hd tl, xfer_download_data w x = Some (set_reqs w m, add_total (set_ends x hd tl) (- n), Some (take (Z.to_nat k) d))
    /\ listed m hd tl L.
Proof.
  intros Il. pose proof (listed_length _ _ _ _ Il) as Hfuel. cbn [length] in Hfuel.
  destruct (listed_unlink _ _ [] _ _ _ Il) as (nx&pv&m&hd&tl&Hm&Eu&Hl'&Hpv). rewrite (Hpv eq_refl) in Hm, Eu. clear Hpv.
  assert (x_head x = Some a) as Eh by (by destruct Il as ((?&_)&_)). exists m, hd, tl. split; [|exact Hl'].
  unfold xfer_download_data. destruct (length (map_to_list (w_reqs w))) as [|fuel]; [lia|].
  cbn [data_loop]. rewrite Eh, Hm. cbn [mbind option_bind rq rq_complete rq_next rq_len rq_retlen rq_buffer].
  unfold unlink_req in Eu. cbn [rq_prev rq_next mbind option_bind] in Eu.
  change (1 =? 0) with false. cbn iota.
  match goal with |- context [mbind (M := option) _ ?e] => destruct e as [[m2 tl2]|]; [|discriminate Eu] end.
  cbn [mbind option_bind] in Eu |- *. injection Eu as <- <- <-. reflexivity.
Qed.

Lemma reports_snoc l (v : Z) : foldr Z.add 0 (l ++ [v]) = foldr Z.add 0 l + v.
Proof. induction l as [|y l IH]; cbn; lia. Qed.
