(* ===== verification/SftpGet.v ===== *)
(** * Downloading a file (psftp.c: the loop of [sftp_get_file])

    The loop keeps read requests in flight, takes the answers in whatever order they come
    and hands the blocks to the local file in the order of the file.  It is modelled as
    two steps, before and after the point where it waits for a packet; a server that
    holds a file takes steps in between, answering any request it has not yet
    answered. *)

From stdpp Require Import gmap sorting relations.
From S2P Require Import Prelude Memory Marshal Strbuf Tree234 SortedSet SftpPacket Sftp LocalFile SftpXfer.
Open Scope Z_scope.

(** ** The client *)

(** The error messages shown. *)
Inductive get_error := ErrorWhileReading (m : fxp_message) | ErrorWritingLocalFile.

(** [g_top]: at the head of the loop; otherwise it waits in [sftp_recv]. *)
Record get_state := mkGet {
  g_top : bool;
  g_w : world; g_x : fxp_xfer;
  g_e : wengine; g_f : WFile;
  g_ret : Z; g_shown : bool; g_log : list get_error; g_winterval : Z
}.

Definition set_wx (s : get_state) (w : world) (x : fxp_xfer) : get_state :=
  mkGet (g_top s) w x (g_e s) (g_f s) (g_ret s) (g_shown s) (g_log s) (g_winterval s).
Definition set_top (s : get_state) (top : bool) : get_state :=
  mkGet top (g_w s) (g_x s) (g_e s) (g_f s) (g_ret s) (g_shown s) (g_log s) (g_winterval s).

(** [if (!shown_err) { fzprintf(sftpError, ...); shown_err = true; } ret = 0;] *)
Definition show_error (s : get_state) (e : get_error) : get_state :=
  mkGet (g_top s) (g_w s) (g_x s) (g_e s) (g_f s) 0 true (if g_shown s then g_log s else g_log s ++ [e]) (g_winterval s).

Definition get_start (w : world) (fh : fxp_handle) (offset : Z) (e : wengine) (f : WFile) : option get_state :=
  '(w, x) ← xfer_download_init w fh offset;
  Some (mkGet true w x e f 1 false [] 0).

(** [while (file && wpos < len)]: the bytes written, and whether a write failed. *)
Fixpoint write_loop (fuel : nat) (e : wengine) (f : WFile) (buf : list Z) (wpos : Z) : option (wengine * WFile * Z * bool) :=
  if wpos <? len buf then
    match fuel with
    | O => None
    | S fuel =>
        '(e, f, wlen) ← write_to_file e f (drop (Z.to_nat wpos) buf);
        if wlen <=? 0 then Some (e, f, wpos, true) else write_loop fuel e f buf (wpos + wlen)
    end
  else Some (e, f, wpos, false).

(** One block of data. *)
Definition write_block (s : get_state) (buf : list Z) : option get_state :=
  '(e, f, wpos, failed) ← write_loop (length buf) (g_e s) (g_f s) buf 0;
  let s := mkGet (g_top s) (g_w s) (g_x s) e f (g_ret s) (g_shown s) (g_log s) (g_winterval s) in
  let s := if failed : bool then set_wx (show_error s ErrorWritingLocalFile) (g_w s) (xfer_set_error (g_x s)) else s in
  let s := if wpos <? len buf
           then mkGet (g_top s) (g_w s) (xfer_set_error (g_x s)) (g_e s) (g_f s) 0 (g_shown s) (g_log s) (g_winterval s) else s in
  Some (mkGet (g_top s) (g_w s) (g_x s) (g_e s) (g_f s) (g_ret s) (g_shown s) (g_log s) (g_winterval s + wpos)).

(** [while (xfer_download_data(xfer, &vbuf, &len))] *)
Fixpoint drain_loop (fuel : nat) (s : get_state) : option get_state :=
  match fuel with
  | O => None
  | S fuel =>
      '(w, x, data) ← xfer_download_data (g_w s) (g_x s);
      let s := set_wx s w x in
      match data with
      | None => Some s
      | Some buf => s ← write_block s buf; drain_loop fuel s
      end
  end.

(** From the head of the loop to [sftp_recv]. *)
Definition get_queue (s : get_state) : option get_state :=
  if xfer_done (g_x s) then None
  else '(w, x) ← xfer_download_queue (g_w s) (g_x s); Some (set_top (set_wx s w x) false).

(** From [sftp_recv] to the head of the loop. *)
Definition get_recv (tick : bool) (s : get_state) : option get_state :=
  let st := w_st (g_w s) in
  let '(pktin, inp) := sftp_recv (input st) in
  let w := set_st (g_w s) (set_input st inp) in
  '(w, x, retd) ← xfer_download_gotpkt w (g_x s) pktin;
  let s := set_wx s w x in
  let s := if retd <=? 0 then show_error s (ErrorWhileReading (fxp_error (w_st w))) else s in
  s ← drain_loop (length (map_to_list (w_reqs (g_w s))) + 1) s;
  Some (if tick
        then mkGet true (report (g_w s) (g_winterval s)) (g_x s) (g_e s) (g_f s) (g_ret s) (g_shown s) (g_log s) 0
        else set_top s true).

(** After the loop. *)
Definition get_finish (s : get_state) : option (world * wengine * Z) :=
  w ← xfer_cleanup (g_w s) (g_x s);
  if g_ret s =? 1
  then let '(e, f, ok) := finalize_wfile (g_e s) (g_f s) in Some (w, e, if ok then 1 else 0)
  else Some (w, g_e s, g_ret s).

(** ** The server *)

(** The bytes of the file from [off]. *)
Definition slice (F : list Z) (off n : Z) : list Z := take (Z.to_nat n) (drop (Z.to_nat off) F).

(** A read request for the handle: its id, offset and length. *)
Definition read_request (fh : fxp_handle) (bytes : list Z) : option (Z * Z * Z) :=
  match sftp_recv bytes with
  | (Some pktin, []) =>
      if in_type pktin =? SSH_FXP_READ then
        let '(id, src) := get_uint32 (in_src pktin) in
        let '(h, src) := get_string src in
        let '(off, src) := get_uint64 src in
        let '(n, src) := get_uint32 src in
        if bad src || negb (bool_decide (h = fh)) then None else Some (id, off, n)
      else None
  | _ => None
  end.

(** What the protocol allows for a regular file: the bytes, or the end of the file. *)
Inductive answers (F : list Z) (off n : Z) : fxp_reply -> Prop :=
| ans_data : off < len F -> answers F off n (RData (slice F off n))
| ans_empty : len F <= off -> answers F off n (RData [])
| ans_eof msg lang : len F <= off -> bytes_ok msg -> bytes_ok lang -> len msg + len lang <= 65536 ->
    answers F off n (RStatus SSH_FX_EOF msg lang).

Definition reply_frame (id : Z) (r : fxp_reply) : list Z := frame (reply_type r) (FUint32 id :: reply_fields r).

Definition deliver (s : get_state) (bytes : list Z) : get_state :=
  let st := w_st (g_w s) in set_wx s (set_st (g_w s) (set_input st (input st ++ bytes))) (g_x s).

(** The client and the requests the server has not answered. *)
Inductive get_step (F : list Z) (fh : fxp_handle) : get_state * list (list Z) -> get_state * list (list Z) -> Prop :=
| step_queue s s' srv :
    g_top s = true -> get_queue s = Some s' ->
    get_step F fh (s, srv) (s', srv ++ drop (length (sent (w_st (g_w s)))) (sent (w_st (g_w s'))))
| step_serve s srv1 bytes srv2 id off n r :
    read_request fh bytes = Some (id, off, n) -> answers F off n r ->
    get_step F fh (s, srv1 ++ bytes :: srv2) (deliver s (reply_frame id r), srv1 ++ srv2)
| step_recv tick s s' srv :
    g_top s = false -> input (w_st (g_w s)) <> [] -> get_recv tick s = Some s' ->
    get_step F fh (s, srv) (s', srv).

(** ** The invariant *)

Lemma slice_app F off n m : 0 <= off -> 0 <= n -> 0 <= m -> slice F off (n + m) = slice F off n ++ slice F (off + n) m.
Proof.
  intros. unfold slice. rewrite (Z2Nat.inj_add n m), (Z2Nat.inj_add off n), <- drop_drop by lia. symmetry. apply take_take_drop.
Qed.

Lemma slice_len F off n : 0 <= off -> 0 <= n -> len (slice F off n) = Z.max 0 (Z.min n (len F - off)).
Proof. intros. unfold slice, len. rewrite length_take, length_drop. lia. Qed.

Lemma slice_all F off n : len F <= off + n -> 0 <= off -> 0 <= n -> slice F off n = drop (Z.to_nat off) F.
Proof. intros. unfold slice. apply take_ge. rewrite length_drop. unfold len in *. lia. Qed.

Section Download.
Variables (F : list Z) (fh : fxp_handle) (start : Z).
Hypothesis HF : bytes_ok F.
Hypothesis HFl : len F < 2 ^ 62.
Hypothesis Hstart : 0 <= start < 2 ^ 62.
Hypothesis Hfh : bytes_ok fh /\ len fh <= 256.

(** A block of the file: waiting for its answer, or read. *)
Record block := mkBlock { b_addr : Z; b_off : Z; b_done : bool }.

Definition node (b : block) : Z * req_data :=
  let d := slice F (b_off b) BLOCK in
  (b_addr b, if b_done b then mkData BLOCK (len d) 1 (b_off b) d else mkData BLOCK 0 0 (b_off b) []).

(** A request in flight. *)
Record item := mkItem { i_req : sftp_request; i_addr : Z; i_off : Z }.

Definition item_block (i : item) : block := mkBlock (i_addr i) (i_off i) false.
Definition item_frame (i : item) : list Z :=
  frame SSH_FXP_READ [FUint32 (r_id (i_req i)); FString fh; FUint64 (i_off i); FUint32 BLOCK].

Definition bound : Z := Z.max start (len F + BLOCK) + 4194304.

(** [d0] is the offset of the first block of [bs]; [qin] are the requests whose answers
    have arrived, [qsv] those that the server has. *)
Record xfer_inv (w : world) (x : fxp_xfer) (srv : list (list Z)) (d0 : Z) (bs : list block)
  (qin : list (item * fxp_reply)) (qsv : list item) : Prop := {
  xi_listed : listed (w_reqs w) (x_head x) (x_tail x) (node <$> bs);
  xi_next : Forall (fun b => b_addr b < w_next w) bs;
  xi_offs : forall k b, bs !! k = Some b -> b_off b = d0 + BLOCK * Z.of_nat k;
  xi_offset : x_offset x = d0 + BLOCK * len bs;
  xi_total : x_totalsize x = BLOCK * len bs /\ x_maxsize x = 4194304 /\ len bs <= 128;
  xi_start : start <= d0 /\ x_offset x <= bound /\ (x_eof x = false -> d0 <= Z.max start (len F + BLOCK));
  xi_eof : (x_eof x = true -> len F <= x_offset x) /\ Forall (fun b => b_done b = true -> len F <= b_off b -> x_eof x = true) bs;
  xi_size : len F <= x_filesize x /\ x_furthestdata x <= len F;
  xi_fix : x_err x = false /\ x_fh x = fh /\ x_sent_interval x = 0;
  xi_blocks : item_block <$> (qin.*1 ++ qsv) ≡ₚ filter (fun b => b_done b = false) bs;
  xi_req : outstanding (w_st w) ((fun i => (i_req i, i_addr i)) <$> (qin.*1 ++ qsv));
  xi_input : input (w_st w) = qin ≫= (fun q => reply_frame (r_id (i_req q.1)) q.2);
  xi_answers : Forall (fun q => answers F (i_off q.1) BLOCK q.2) qin;
  xi_srv : srv = item_frame <$> qsv
}.

Lemma node_addr bs : (node <$> bs).*1 = b_addr <$> bs.
Proof using Type. rewrite <- list_fmap_compose. by apply list_fmap_ext. Qed.

Lemma block_bounds w x srv d0 bs qin qsv b :
  xfer_inv w x srv d0 bs qin qsv -> b ∈ bs -> start <= b_off b /\ b_off b + BLOCK <= bound.
Proof using Type.
  intros I [k Hk]%list_elem_of_lookup. rewrite (xi_offs _ _ _ _ _ _ _ I k b Hk). apply lookup_lt_Some in Hk.
  pose proof (xi_offset _ _ _ _ _ _ _ I). destruct (xi_start _ _ _ _ _ _ _ I) as (?&?&_). unfold len, BLOCK in *. lia.
Qed.

Lemma items_few w x srv d0 bs qin qsv :
  xfer_inv w x srv d0 bs qin qsv -> len (qin.*1 ++ qsv) <= len bs.
Proof using Type.
  intros I. pose proof (Permutation_length (xi_blocks _ _ _ _ _ _ _ I)) as E. rewrite length_fmap in E. unfold len. rewrite E.
  pose proof (length_filter (fun b => b_done b = false) bs). lia.
Qed.

Lemma read_op_ok off : 0 <= off < 2 ^ 64 -> op_ok (Read fh off BLOCK).
Proof using Hfh.
  intros Hoff. destruct Hfh as [H1 H2]. pose proof (len_nonneg fh). split; cbn [op_fields].
  - repeat (apply Forall_cons; split); [split; [done|lia]|exact Hoff|done|by apply Forall_nil].
  - rewrite !bind_cons, !len_app. cbn [field_enc]. rewrite len_app, !len_be_split. change (len (mbind field_enc [])) with 0. lia.
Qed.

Lemma bound_fits : 0 <= bound < 2 ^ 64.
Proof using HFl Hstart. unfold bound, BLOCK. lia. Qed.

(** One more block is asked for. *)
Lemma queue_read_spec w x srv d0 bs qin qsv :
  xfer_inv w x srv d0 bs qin qsv -> x_eof x = false -> x_totalsize x < x_maxsize x ->
  exists w' x' b i, queue_read w x = Some (w', x') /\ xfer_inv w' x' (srv ++ [item_frame i]) d0 (bs ++ [b]) qin (qsv ++ [i])
    /\ b_done b = false /\ x_eof x' = false /\ sent (w_st w') = sent (w_st w) ++ [item_frame i] /\ w_reports w' = w_reports w.
Proof using HFl Hstart Hfh.
  intros I He Ht. destruct I as [Il In Io If (It&Im&Ib) (Is&Ix&Id) (Ie1&Ie2) Iz (Ir&Ifh&Iv) Ibl Irq Iin Ians Isv].
  pose proof (len_nonneg bs). pose proof bound_fits. specialize (Id He). rewrite It, Im in Ht. unfold BLOCK in Ht.
  assert (x_offset x + BLOCK <= bound) as Hb by (rewrite If; unfold bound, BLOCK in *; lia).
  assert (start <= x_offset x) as Hs by (rewrite If; unfold BLOCK; lia).
  set (off := x_offset x) in *. set (a := w_next w). set (b := mkBlock a off false).
  unfold queue_read. fold off. destruct (listed_append w x (node <$> bs) (mkData BLOCK 0 0 off []) Il) as (m&hd&tl&->&Hl').
  { rewrite node_addr. intros (b'&E&Hb')%list_elem_of_fmap. rewrite Forall_forall in In. specialize (In b' Hb'). lia. }
  cbn [mbind option_bind w_st x_fh set_ends]. rewrite Ifh.
  destruct (send_outstanding (w_st w) _ (Read fh off BLOCK) a Irq) as (st1&r&st2&st'&E1&E2&E3&Hout&Hs'&Hi'&Hid).
  { pose proof (items_few w x srv d0 bs qin qsv ltac:(constructor; done)). unfold len in *. rewrite length_fmap. lia. }
  { apply read_op_ok. lia. }
  cbn [fxp_send] in E1. rewrite E1. cbn [mbind option_bind]. rewrite E2. cbn [mbind option_bind]. fold a. rewrite E3. cbn [mbind option_bind].
  set (i := mkItem r a off). eexists _, _, b, i. split; [done|]. split; [|split_and!; done].
  constructor; cbn.
  - rewrite fmap_app. exact Hl'.
  - apply Forall_app. split; [eapply Forall_impl; [exact In|]; cbn; intros; lia|]. apply Forall_cons. split; [cbn; unfold a; lia|by apply Forall_nil].
  - intros k b' Hk. apply lookup_snoc_Some in Hk as [[_ Hk]|[Ek <-]]; [by apply Io|]. rewrite Ek. exact If.
  - rewrite wrap_id by (unfold word_ok, BLOCK in *; lia). rewrite len_app. change (len [b]) with 1. unfold BLOCK, off in *. lia.
  - rewrite len_app. change (len [b]) with 1. unfold BLOCK in *. split_and!; [lia|done|lia].
  - rewrite wrap_id by (unfold word_ok, BLOCK in *; lia). split_and!; [done|done|]. intros. done.
  - rewrite wrap_id by (unfold word_ok, BLOCK in *; lia). split; [intros E; congruence|]. apply Forall_app. split; [done|].
    apply Forall_cons. split; [done|by apply Forall_nil].
  - done.
  - done.
  - rewrite app_assoc, fmap_app, filter_app, Ibl. reflexivity.
  - rewrite app_assoc, fmap_app. exact Hout.
  - by rewrite Hi'.
  - done.
  - by rewrite fmap_app, Isv.
Qed.

(** The queue is filled. *)
Lemma queue_loop_spec fuel w x srv d0 bs qin qsv :
  xfer_inv w x srv d0 bs qin qsv -> 128 - len bs < Z.of_nat fuel ->
  exists w' x' bs' its, queue_loop fuel w x = Some (w', x') /\ xfer_inv w' x' (srv ++ (item_frame <$> its)) d0 (bs ++ bs') qin (qsv ++ its)
    /\ Forall (fun b => b_done b = false) bs' /\ length bs' = length its /\ (x_eof x = true \/ bs ++ bs' <> [])
    /\ sent (w_st w') = sent (w_st w) ++ (item_frame <$> its) /\ w_reports w' = w_reports w.
Proof using HFl Hstart Hfh.
  revert w x srv bs qsv. induction fuel as [|fuel IH]; intros w x srv bs qsv I Hf.
  { destruct (xi_total _ _ _ _ _ _ _ I) as (_&_&?). lia. }
  cbn [queue_loop]. destruct (xi_total _ _ _ _ _ _ _ I) as (It&Im&Ib). destruct (xi_fix _ _ _ _ _ _ _ I) as (Ir&_). rewrite Ir. cbn [negb]. rewrite andb_true_r.
  destruct (x_totalsize x <? x_maxsize x) eqn:Et; cbn [andb]; [destruct (x_eof x) eqn:Ee; cbn [negb]|].
  - exists w, x, [], []. rewrite !app_nil_r. split_and!; try done. by left.
  - destruct (queue_read_spec w x srv d0 bs qin qsv I Ee ltac:(lia)) as (w1&x1&b&i&->&I1&Hb&He1&Hs1&Hr1). cbn [mbind option_bind].
    destruct (IH w1 x1 _ _ _ I1) as (w'&x'&bs'&its&->&I'&Hd&Hlen&Hne&Hs'&Hr'); [rewrite len_app; change (len [b]) with 1; lia|].
    exists w', x', (b :: bs'), (i :: its). rewrite <- !app_assoc in *. cbn [app] in *. split; [done|]. split; [exact I'|].
    split; [by apply Forall_cons|]. split; [cbn; lia|]. split; [right; by destruct bs|]. rewrite Hs', Hs1, Hr', Hr1, <- app_assoc. done.
  - exists w, x, [], []. rewrite !app_nil_r. split_and!; try done. right. intros ->. rewrite It, Im in Et. done.
Qed.

(** ** The server's part *)

Lemma read_request_frame i :
  word_ok 32 (r_id (i_req i)) -> word_ok 64 (i_off i) -> read_request fh (item_frame i) = Some (r_id (i_req i), i_off i, BLOCK).
Proof using Hfh.
  intros Hid Hoff. destruct Hfh as [H1 H2]. pose proof (len_nonneg fh). unfold read_request, item_frame.
  set (fs := [FUint32 (r_id (i_req i)); FString fh; FUint64 (i_off i); FUint32 BLOCK]).
  destruct (recv_frame SSH_FXP_READ fs []) as (src&E&Hs); [done|fields_ok; lia| |].
  { unfold fs. rewrite !bind_cons, !len_app. cbn [field_enc]. rewrite len_app, !len_be_split. change (len (mbind field_enc [])) with 0. lia. }
  rewrite app_nil_r in E. rewrite E. cbn [in_type in_src]. rewrite Z.eqb_refl.
  unfold fs in Hs. rewrite !bind_cons in Hs. cbn [field_enc] in Hs. rewrite <- !app_assoc in Hs.
  destruct (at_data_uint32 _ _ _ Hid Hs) as (s1&->&Hs1). destruct (at_data_string _ _ _ H1 ltac:(lia) Hs1) as (s2&->&Hs2).
  destruct (at_data_uint64 _ _ _ Hoff Hs2) as (s3&->&Hs3). destruct (at_data_uint32 _ BLOCK _ ltac:(done) Hs3) as (s4&->&Hs4).
  rewrite (bad_at_data _ _ Hs4). by rewrite bool_decide_true.
Qed.

Lemma answers_ok off r : 0 <= off -> answers F off BLOCK r -> reply_ok r.
Proof using HF.
  intros Hoff Ha. pose proof (slice_len F off BLOCK Hoff ltac:(done)) as Hl. unfold BLOCK in *.
  destruct Ha as [H|H|msg lang H Hm Hg Hml]; (split; [|split; [|done]]); cbn [reply_fields].
  - apply Forall_cons. split; [|by apply Forall_nil]. split; [unfold slice; by apply Forall_take, Forall_drop|lia].
  - rewrite bind_cons, len_app. cbn [field_enc]. rewrite len_app, len_be_split. change (len (mbind field_enc [])) with 0. lia.
  - fields_ok.
  - done.
  - pose proof (len_nonneg msg). pose proof (len_nonneg lang).
    apply Forall_cons; split; [done|]. apply Forall_cons; split; [split; [done|lia]|]. apply Forall_cons; split; [split; [done|lia]|]. by apply Forall_nil.
  - rewrite !bind_cons, !len_app. cbn [field_enc]. rewrite !len_app, !len_be_split. change (len (mbind field_enc [])) with 0. lia.
Qed.

Lemma item_ok w x srv d0 bs qin qsv i :
  xfer_inv w x srv d0 bs qin qsv -> i ∈ qin.*1 ++ qsv -> word_ok 32 (r_id (i_req i)) /\ 0 <= i_off i <= bound /\ item_block i ∈ bs.
Proof using Hstart.
  intros I Hi. destruct (xi_req _ _ _ _ _ _ _ I) as (_&_&Hf). rewrite Forall_forall in Hf.
  destruct (Hf (i_req i, i_addr i)) as [_ Hid]; [apply list_elem_of_fmap; by exists i|].
  assert (item_block i ∈ bs) as Hb.
  { assert (item_block i ∈ filter (fun b => b_done b = false) bs) as [_ H]%list_elem_of_filter; [|done].
    rewrite <- (xi_blocks _ _ _ _ _ _ _ I). by apply list_elem_of_fmap_2. }
  pose proof (block_bounds _ _ _ _ _ _ _ _ I Hb) as H. unfold BLOCK in *. cbn in H. split_and!; try done; lia.
Qed.

Lemma serve_spec w x srv1 bytes srv2 d0 bs qin qsv id off n r :
  xfer_inv w x (srv1 ++ bytes :: srv2) d0 bs qin qsv -> read_request fh bytes = Some (id, off, n) -> answers F off n r ->
  exists qin' qsv', xfer_inv (set_st w (set_input (w_st w) (input (w_st w) ++ reply_frame id r))) x (srv1 ++ srv2) d0 bs qin' qsv'.
Proof using HFl Hstart Hfh.
  intros I Hreq Ha. pose proof (xi_srv _ _ _ _ _ _ _ I) as Esv. symmetry in Esv.
  apply fmap_app_inv in Esv as (q1&q2'&->&E2&Eq). symmetry in E2. apply fmap_cons_inv in E2 as (i&q2&->&->&->).
  destruct (item_ok _ _ _ _ _ _ _ i I) as (Hid&Hoff&_).
  { rewrite Eq. apply elem_of_app. right. apply elem_of_app. right. by left. }
  pose proof bound_fits. rewrite read_request_frame in Hreq by (done || (unfold word_ok; lia)). injection Hreq as <- <- <-.
  exists (qin ++ [(i, r)]), (q1 ++ q2).
  assert ((qin ++ [(i, r)]).*1 ++ q1 ++ q2 ≡ₚ qin.*1 ++ qsv) as Hp.
  { rewrite Eq, fmap_app, <- app_assoc. cbn. by rewrite Permutation_middle. }
  destruct I as [Il In Io If It Is Ie Iz Ir Ibl Irq Iin Ians Isv]. constructor; try done.
  - by rewrite Hp.
  - cbn [w_st set_st]. apply outstanding_input. by rewrite Hp.
  - cbn. rewrite Iin, bind_app. cbn. by rewrite app_nil_r.
  - apply Forall_app. split; [done|]. apply Forall_cons. split; [done|by apply Forall_nil].
  - by rewrite fmap_app.
Qed.

(** ** Receiving *)

(** What [fxp_read_recv] makes of an answer: the bytes of the block, and at the end of the file either nothing or an error. *)
Lemma read_answer off r old :
  0 <= off -> answers F off BLOCK r ->
  exists k e, reply_result (Read fh off BLOCK) r old = (RsData k (slice F off BLOCK), e)
    /\ (k = len (slice F off BLOCK) \/ k = -1 /\ e = Some SSH_FX_EOF /\ len (slice F off BLOCK) = 0).
Proof using Type.
  intros Hoff Ha. pose proof (slice_len F off BLOCK Hoff ltac:(done)) as Hl.
  assert (0 < BLOCK) by done. destruct Ha as [H0|H0|msg lang H0 _ _ _]; cbn [reply_result status_of].
  - rewrite (proj2 (Z.leb_le _ _)) by lia. eauto.
  - assert (slice F off BLOCK = []) as -> by (apply len_nil_inv; lia). cbn. eauto.
  - assert (slice F off BLOCK = []) as -> by (apply len_nil_inv; lia). exists (-1), (Some 1). split; [done|]. right. done.
Qed.

Lemma note_block_size x off :
  0 <= off <= bound -> len F <= x_filesize x -> x_furthestdata x <= len F ->
  let d := len (slice F off BLOCK) in let x' := note_block x off BLOCK d (d =? 0) in
  len F <= x_filesize x' /\ x_furthestdata x' <= len F.
Proof using HFl Hstart.
  intros Hoff H1 H2. pose proof (slice_len F off BLOCK ltac:(lia) ltac:(done)) as Hd. assert (0 < BLOCK) by done. pose proof bound_fits.
  set (d := len (slice F off BLOCK)) in *. cbn. split.
  - destruct (Z.ltb_spec d BLOCK); [|done]. rewrite (proj2 (Z.ltb_ge d 0)) by lia.
    assert (len F <= off + d) by lia. assert (off + d <= bound + BLOCK) by lia.
    rewrite wrap_id by (unfold word_ok; unfold bound, BLOCK in *; lia). bcase; lia.
  - destruct (Z.ltb_spec 0 d); cbn; [|done]. bcase; lia.
Qed.

(** The answer to a request is put into its block. *)
Lemma mark_done w x srv d0 b1 b2 i r qin qsv st2 m' :
  let bs := b1 ++ item_block i :: b2 in let bs' := b1 ++ mkBlock (i_addr i) (i_off i) true :: b2 in
  let d := len (slice F (i_off i) BLOCK) in
  xfer_inv w x srv d0 bs ((i, r) :: qin) qsv ->
  listed m' (x_head x) (x_tail x) (node <$> bs') -> outstanding st2 ((fun i => (i_req i, i_addr i)) <$> (qin.*1 ++ qsv)) ->
  input st2 = qin ≫= (fun q => reply_frame (r_id (i_req q.1)) q.2) ->
  xfer_inv (mkWorld st2 m' (w_next w) (w_reports w)) (note_block x (i_off i) BLOCK d (d =? 0)) srv d0 bs' qin qsv.
Proof using HFl Hstart.
  intros bs bs' d I Hl' Hout Hin. destruct (item_ok _ _ _ _ _ _ _ i I) as (_&Hoff&_); [by left|].
  destruct I as [Il In Io If It (Is1&Is2&Is3) (Ie1&Ie2) (Iz1&Iz2) Ir Ibl Irq Iin Ians Isv].
  pose proof (note_block_size x (i_off i) Hoff Iz1 Iz2) as Iz'. fold d in Iz'.
  pose proof (slice_len F (i_off i) BLOCK ltac:(lia) ltac:(done)) as Hd. fold d in Hd.
  assert (len bs' = len bs) as Elen by (unfold bs, bs'; by rewrite !len_app, !len_cons).
  constructor; rewrite ?Elen; [exact Hl'| | |exact If|exact It| | |exact Iz'|exact Ir| |exact Hout|exact Hin| |exact Isv].
  - unfold bs in In. apply Forall_app in In as [In1 [In2 In3]%Forall_cons]. apply Forall_app. by rewrite Forall_cons.
  - intros n b Hn. destruct (decide (n = length b1)) as [->|Hne].
    + unfold bs' in Hn. rewrite list_lookup_middle in Hn by done. injection Hn as <-. apply (Io (length b1) (item_block i)). by apply list_lookup_middle.
    + apply Io. unfold bs, bs' in *. rewrite lookup_app in *. destruct (b1 !! n) eqn:En; [done|]. apply lookup_ge_None_1 in En.
      destruct (n - length b1)%nat eqn:Em; [lia|]. done.
  - split; [exact Is1|]. split; [exact Is2|]. cbn [x_eof note_block]. intros [He _]%orb_false_iff. by apply Is3.
  - assert (d = 0 -> len F <= x_offset x) as Hend.
    { intros Hz. rewrite If. pose proof (Io (length b1) (item_block i) (list_lookup_middle _ _ _ _ eq_refl)) as Hoff'. cbn in Hoff'.
      unfold bs. rewrite len_app, len_cons. pose proof (len_nonneg b2). unfold len, BLOCK in *. lia. }
    cbn [x_eof x_offset note_block]. split; [intros [?|?%Z.eqb_eq]%orb_true_iff; [by apply Ie1|by apply Hend]|].
    unfold bs in Ie2. apply Forall_app in Ie2 as [Ia [_ Ib]%Forall_cons]. apply Forall_app. rewrite Forall_cons. split_and!.
    + eapply Forall_impl; [exact Ia|]. cbn. intros b Hb1 Hb2 Hb3. by rewrite Hb1.
    + cbn [b_done b_off]. intros _ Hge. apply orb_true_iff. right. apply Z.eqb_eq. lia.
    + eapply Forall_impl; [exact Ib|]. cbn. intros b Hb1 Hb2 Hb3. by rewrite Hb1.
  - unfold bs in Ibl. rewrite filter_app, filter_cons_True in Ibl by done. unfold bs'. rewrite filter_app, filter_cons_False by done.
    rewrite fmap_cons in Ibl. cbn [fst app] in Ibl. rewrite fmap_cons, <- Permutation_middle in Ibl. by apply Permutation_cons_inv in Ibl.
  - by apply Forall_cons in Ians as [_ Ians].
Qed.

Lemma gotpkt_spec w x srv d0 bs i r qin qsv :
  xfer_inv w x srv d0 bs ((i, r) :: qin) qsv ->
  exists pktin rest w' x' bs', sftp_recv (input (w_st w)) = (Some pktin, rest)
    /\ xfer_download_gotpkt (set_st w (set_input (w_st w) rest)) x (Some pktin) = Some (w', x', 1)
    /\ xfer_inv w' x' srv d0 bs' qin qsv /\ length bs' = length bs /\ sent (w_st w') = sent (w_st w) /\ w_reports w' = w_reports w
    /\ x_offset x' = x_offset x.
Proof using HF HFl Hstart Hfh.
  intros I. destruct (item_ok _ _ _ _ _ _ _ i I) as (Hid&Hoff&Hb); [by left|].
  pose proof (xi_answers _ _ _ _ _ _ _ I) as Ha. apply Forall_cons in Ha as [Ha _]. cbn [fst snd] in Ha.
  pose proof (xi_input _ _ _ _ _ _ _ I) as Iin. rewrite bind_cons in Iin. cbn [fst snd] in Iin. set (rest := qin ≫= _) in Iin.
  destruct (read_answer (i_off i) r (fun _ => no_attrs) ltac:(lia) Ha) as (k&e&Er&Hk). set (d := slice F (i_off i) BLOCK) in *.
  destruct (answer_outstanding (set_st w (set_input (w_st w) rest)) _ ((fun i => (i_req i, i_addr i)) <$> (qin.*1 ++ qsv)) (i_req i) (i_addr i)
    (Read fh (i_off i) BLOCK) r (fun _ => no_attrs) (input (w_st w)) rest "request ID is not part of the current download"
    (outstanding_input _ rest _ (xi_req _ _ _ _ _ _ _ I)))
    as (pktin&st1&pktin'&st2&E1&E2&E3&E4&Hout&Es&Ei); [done|by apply (answers_ok (i_off i)); [lia|]|exact Iin|].
  rewrite Er in E3, E4. cbn [fst snd] in E3, E4. cbn [fxp_recv] in E3.
  destruct (fxp_read_recv st1 pktin' (i_req i) BLOCK) as [[[st2' k'] d']|] eqn:Erd; [|done]. injection E3 as -> -> ->.
  apply list_elem_of_split in Hb as (b1&b2&->). destruct (xi_size _ _ _ _ _ _ _ I) as [Iz1 Iz2].
  pose proof (xi_listed _ _ _ _ _ _ _ I) as Il. rewrite fmap_app, fmap_cons in Il.
  destruct (listed_update _ _ _ _ _ _ _ Il) as (nx&pv&Hm&Hupd).
  destruct (note_block_size x (i_off i) Hoff Iz1 Iz2) as [Hz1 Hz2]. fold d in Hz1, Hz2.
  exists pktin, rest. eexists _, _, _. split; [exact E1|]. split.
  { eapply (gotpkt_data _ _ x _ _ _ _ BLOCK (i_off i) _ _ _ _ d); [exact E2|exact Hm|exact Erd| |exact (Z.le_trans _ _ _ Hz2 Hz1)]. rewrite E4. destruct Hk as [->|(->&->&Hz)]; [by left|right; split_and!; done]. }
  split; [|split; [|split; [exact Es|split; reflexivity]]].
  - eapply (mark_done w x srv d0 b1 b2 i r qin qsv st2); [exact I| |exact Hout|exact Ei]. rewrite fmap_app, fmap_cons. apply Hupd.
  - by rewrite !length_app.
Qed.

(** ** Handing the data out *)

Definition drained (bs : list block) : Prop := match bs with b :: _ => b_done b = false | [] => True end.

Lemma download_data_none w x srv d0 bs qin qsv :
  xfer_inv w x srv d0 bs qin qsv -> drained bs -> xfer_download_data w x = Some (w, x, None).
Proof using Type.
  intros I Hd. pose proof (xi_listed _ _ _ _ _ _ _ I) as (Hl&_). unfold xfer_download_data.
  destruct bs as [|b bs]; cbn in Hl.
  - destruct Hl as [Eh _]. destruct (length _); cbn [data_loop]; by rewrite Eh.
  - destruct Hl as (Eh&nx&Hm&_). cbn in Hd. rewrite Hd in Hm. destruct (length _); cbn [data_loop]; by rewrite Eh, Hm.
Qed.

Lemma download_data_pop w x srv d0 b bs qin qsv :
  xfer_inv w x srv d0 (b :: bs) qin qsv -> b_done b = true ->
  exists w' x' buf, xfer_download_data w x = Some (w', x', Some buf) /\ buf = slice F d0 BLOCK /\ xfer_inv w' x' srv (d0 + BLOCK) bs qin qsv
    /\ w_st w' = w_st w /\ w_reports w' = w_reports w /\ x_offset x' = x_offset x.
Proof using Type.
  intros I Hb. destruct I as [Il In Io If (It&Im&Ib) (Is1&Is2&Is3) (Ie1&Ie2) Iz Ir Ibl Irq Iin Ians Isv].
  assert (b_off b = d0) as Eoff by (rewrite (Io O b eq_refl); lia).
  rewrite len_cons in *. set (d := slice F d0 BLOCK). rewrite fmap_cons in Il. unfold node at 1 in Il. rewrite Eoff, Hb in Il. fold d in Il.
  destruct (download_data_head _ _ _ _ _ _ _ _ Il) as (m&hd&tl&->&Hl'). rewrite to_nat_len, take_ge by done.
  eexists _, _, _. split; [done|]. split; [done|]. split; [|done]. apply Forall_cons in In as [_ In]. apply Forall_cons in Ie2 as [Ieb Ie2].
  assert (0 < BLOCK) by done. constructor; try done; cbn [x_offset x_totalsize x_maxsize x_eof add_total set_ends].
  - intros n b' Hn. rewrite (Io (S n) b' Hn). lia.
  - lia.
  - split_and!; lia.
  - split; [lia|]. split; [done|]. intros He. assert (d0 < len F); [|lia].
    destruct (Z.lt_ge_cases d0 (len F)) as [|Hge]; [done|]. rewrite Eoff in Ieb. rewrite (Ieb Hb Hge) in He. done.
  - by rewrite filter_cons_False in Ibl by (by rewrite Hb).
Qed.

Lemma write_loop_spec fuel e f buf wpos n :
  wfile_ok e f n -> 0 <= wpos <= len buf -> len buf - wpos <= n -> len buf - wpos <= Z.of_nat fuel ->
  exists e' f', write_loop fuel e f buf wpos = Some (e', f', len buf, false) /\ wfile_ok e' f' (n - (len buf - wpos))
    /\ wcontents e' f' = wcontents e f ++ drop (Z.to_nat wpos) buf /\ we_finalize e' = we_finalize e.
Proof using Type.
  revert e f wpos n. induction fuel as [|fuel IH]; intros e f wpos n Hok Hw Hn Hf; cbn [write_loop]; destruct (Z.ltb_spec wpos (len buf)).
  1: lia.
  2: { destruct (write_to_file_spec e f n (drop (Z.to_nat wpos) buf) Hok) as (e1&f1&k&->&Hk&Hok1&Hc1&Hf1); rewrite len_drop in * by lia; [lia|].
    cbn [mbind option_bind]. rewrite (proj2 (Z.leb_gt k 0)) by lia.
    destruct (IH e1 f1 (wpos + k) (n - k) Hok1) as (e'&f'&->&Hok'&Hc'&Hf'); [lia..|]. exists e', f'. split; [done|].
    split; [by replace (n - (len buf - wpos)) with (n - k - (len buf - (wpos + k))) by lia|]. rewrite Hc', Hc1, Hf', Hf1. split; [|done].
    rewrite <- app_assoc. f_equal. rewrite Z2Nat.inj_add, <- drop_drop by lia. apply take_drop. }
  all: assert (wpos = len buf) as -> by lia; exists e, f; rewrite to_nat_len, drop_ge, app_nil_r by done; split; [done|];
    split; [by rewrite Z.sub_diag, Z.sub_0_r|done].
Qed.

(** The local file holds the file up to [d0]; nothing has gone wrong. *)
Record file_inv (s : get_state) (d0 : Z) : Prop := {
  fi_contents : wcontents (g_e s) (g_f s) = slice F start (d0 - start);
  fi_ok : wfile_ok (g_e s) (g_f s) (Z.max 0 (len F - d0));
  fi_final : we_finalize (g_e s) = true;
  fi_ret : g_ret s = 1 /\ g_shown s = false /\ g_log s = [];
  fi_reports : foldr Z.add 0 (w_reports (g_w s)) + g_winterval s = len (wcontents (g_e s) (g_f s))
}.

Lemma write_block_spec s d0 d :
  file_inv s d0 -> start <= d0 -> d = slice F d0 BLOCK ->
  exists s', write_block s d = Some s' /\ file_inv s' (d0 + BLOCK) /\ g_top s' = g_top s /\ g_w s' = g_w s /\ g_x s' = g_x s.
Proof using Hstart.
  intros [Hc Hok Hfin Hret Hrep] Hd Ed. assert (0 < BLOCK) by done.
  pose proof (slice_len F d0 BLOCK ltac:(lia) ltac:(lia)) as Hl. rewrite <- Ed in Hl. unfold write_block.
  destruct (write_loop_spec (length d) (g_e s) (g_f s) d 0 _ Hok) as (e&f&->&Hok'&Hc'&Hf'); [lia..|unfold len; lia|].
  cbn [mbind option_bind]. rewrite Z.ltb_irrefl. eexists. split; [done|]. split; [|done]. rewrite drop_0 in Hc'.
  constructor; cbn [g_e g_f g_w g_ret g_shown g_log g_winterval].
  - rewrite Hc', Hc. replace (d0 + BLOCK - start) with ((d0 - start) + BLOCK) by lia. rewrite slice_app by lia. rewrite Ed.
    by replace (start + (d0 - start)) with d0 by lia.
  - by replace (Z.max 0 (len F - (d0 + BLOCK))) with (Z.max 0 (len F - d0) - (len d - 0)) by lia.
  - by rewrite Hf'.
  - done.
  - rewrite Hc', len_app. lia.
Qed.

Lemma file_inv_wx s w x d0 : w_reports w = w_reports (g_w s) -> file_inv s d0 -> file_inv (set_wx s w x) d0.
Proof using Type. intros E [? ? ? ? ?]. constructor; cbn; try done. by rewrite E. Qed.

Lemma drain_spec fuel s srv d0 bs qin qsv :
  xfer_inv (g_w s) (g_x s) srv d0 bs qin qsv -> file_inv s d0 -> (length bs < fuel)%nat ->
  exists s' d0' bs', drain_loop fuel s = Some s' /\ xfer_inv (g_w s') (g_x s') srv d0' bs' qin qsv /\ file_inv s' d0' /\ drained bs'
    /\ w_st (g_w s') = w_st (g_w s) /\ x_offset (g_x s') = x_offset (g_x s).
Proof using Hstart.
  revert s d0 bs. induction fuel as [|fuel IH]; intros s d0 bs I Hfi Hfuel; [lia|]. cbn [drain_loop].
  assert (drained bs \/ exists b bs', bs = b :: bs' /\ b_done b = true) as [Hd|(b&bs'&->&Hb)].
  { destruct bs as [|b bs']; [by left|]. destruct (b_done b) eqn:Eb; [right; eauto|by left]. }
  - rewrite (download_data_none _ _ _ _ _ _ _ I Hd). cbn [mbind option_bind]. eexists _, d0, bs. split; [done|]. split; [exact I|].
    split; [by apply file_inv_wx|done].
  - destruct (download_data_pop _ _ _ _ _ _ _ _ I Hb) as (w1&x1&buf&->&Ebuf&I1&Est&Erep&Eoff). cbn [mbind option_bind].
    destruct (xi_start _ _ _ _ _ _ _ I) as (Hst&_).
    destruct (write_block_spec (set_wx s w1 x1) d0 buf ltac:(by apply file_inv_wx) Hst Ebuf) as (s2&->&Hfi2&Et2&Ew2&Ex2). cbn [mbind option_bind].
    destruct (IH s2 (d0 + BLOCK) bs') as (s'&d0'&bs''&->&I'&Hfi'&Hd'&Est'&Eoff'); [by rewrite Ew2, Ex2|done|cbn in Hfuel; lia|].
    exists s', d0', bs''. split_and!; try done; [rewrite Est', Ew2; exact Est|rewrite Eoff', Ex2; exact Eoff].
Qed.

(** ** The whole system *)

Definition get_inv (c : get_state * list (list Z)) : Prop :=
  exists d0 bs qin qsv, xfer_inv (g_w c.1) (g_x c.1) c.2 d0 bs qin qsv /\ file_inv c.1 d0 /\ drained bs /\ (g_top c.1 = false -> bs <> []).

(** What is left to do: blocks to ask for, requests to answer, answers to take. *)
Definition todo (c : get_state * list (list Z)) : Z :=
  4 * ((bound - x_offset (g_x c.1)) / BLOCK) + 2 * len (pending (w_st (g_w c.1))) + len c.2 + (if g_top c.1 then 1 else 0).

Lemma pending_items w x srv d0 bs qin qsv :
  xfer_inv w x srv d0 bs qin qsv -> len (pending (w_st w)) = len qin + len qsv /\ len srv = len qsv.
Proof using Type.
  intros I. destruct (xi_req _ _ _ _ _ _ _ I) as (_&Hp&_). rewrite (xi_srv _ _ _ _ _ _ _ I), len_fmap. split; [|done].
  unfold len. rewrite Hp, !length_fmap, length_app, length_fmap. lia.
Qed.

Lemma todo_nonneg s srv d0 bs qin qsv : xfer_inv (g_w s) (g_x s) srv d0 bs qin qsv -> 0 <= todo (s, srv).
Proof using Type.
  intros I. destruct (xi_start _ _ _ _ _ _ _ I) as (_&Hb&_). unfold todo. cbn [fst snd].
  pose proof (Z.div_pos (bound - x_offset (g_x s)) BLOCK ltac:(lia) ltac:(done)). pose proof (len_nonneg (pending (w_st (g_w s)))).
  pose proof (len_nonneg srv). destruct (g_top s); lia.
Qed.

Lemma xfer_queue_spec w x srv d0 bs qin qsv :
  xfer_inv w x srv d0 bs qin qsv ->
  exists w' x' bs' its, xfer_download_queue w x = Some (w', x') /\ xfer_inv w' x' (srv ++ (item_frame <$> its)) d0 (bs ++ bs') qin (qsv ++ its)
    /\ Forall (fun b => b_done b = false) bs' /\ length bs' = length its /\ (x_eof x = true \/ bs ++ bs' <> [])
    /\ sent (w_st w') = sent (w_st w) ++ (item_frame <$> its) /\ w_reports w' = w_reports w.
Proof using HFl Hstart Hfh.
  intros I. unfold xfer_download_queue. apply queue_loop_spec; [exact I|]. destruct (xi_total _ _ _ _ _ _ _ I) as (It&Im&Ib).
  rewrite It, Im. replace (4194304 - BLOCK * len bs) with ((128 - len bs) * BLOCK) by (unfold BLOCK; lia). rewrite Z.div_mul by done.
  pose proof (len_nonneg bs). lia.
Qed.

Lemma queue_step s srv :
  get_inv (s, srv) -> g_top s = true -> xfer_done (g_x s) = false ->
  exists s', get_queue s = Some s' /\ let c' := (s', srv ++ drop (length (sent (w_st (g_w s)))) (sent (w_st (g_w s')))) in
    get_inv c' /\ 0 <= todo c' < todo (s, srv).
Proof using HFl Hstart Hfh.
  intros (d0&bs&qin&qsv&I&Hfi&Hd&_) Htop Hdone. cbn [fst snd] in *. unfold get_queue. rewrite Hdone.
  destruct (xfer_queue_spec _ _ _ _ _ _ _ I) as (w'&x'&bs'&its&->&I'&Hw&Hlen&Hne&Hs&Hr).
  cbn [mbind option_bind]. eexists. split; [done|]. cbn [g_w set_top set_wx]. rewrite Hs, drop_app_length. split.
  - exists d0, (bs ++ bs'), qin, (qsv ++ its). split; [exact I'|]. split; [by apply (file_inv_wx s w' x') in Hfi as []|]. split.
    + destruct bs as [|b bs]; [|exact Hd]. destruct bs' as [|b' bs']; [done|]. by apply Forall_cons in Hw as [Hw _].
    + intros _. destruct Hne as [He|Hne]; [|exact Hne]. intros [-> ->]%app_nil.
      destruct (xi_listed _ _ _ _ _ _ _ I) as ([Eh _]&_). unfold xfer_done in Hdone. by rewrite He, Eh in Hdone.
  - split; [by eapply (todo_nonneg (set_top (set_wx s w' x') false))|].
    destruct (pending_items _ _ _ _ _ _ _ I) as [E1 E2]. destruct (pending_items _ _ _ _ _ _ _ I') as [E1' E2'].
    pose proof (xi_offset _ _ _ _ _ _ _ I) as Eo. pose proof (xi_offset _ _ _ _ _ _ _ I') as Eo'.
    assert (len its = len bs') as Ek by (unfold len; lia). unfold todo. cbn [fst snd g_w g_x g_top set_top set_wx].
    rewrite Htop, E1', E2', E1, E2, Eo', Eo, !len_app, Ek. pose proof (len_nonneg bs').
    replace (bound - (d0 + BLOCK * (len bs + len bs'))) with (bound - (d0 + BLOCK * len bs) + - len bs' * BLOCK) by lia.
    rewrite Z.div_add by done. lia.
Qed.

Lemma serve_step s srv1 bytes srv2 id off n r :
  get_inv (s, srv1 ++ bytes :: srv2) -> read_request fh bytes = Some (id, off, n) -> answers F off n r ->
  let c' := (deliver s (reply_frame id r), srv1 ++ srv2) in get_inv c' /\ 0 <= todo c' < todo (s, srv1 ++ bytes :: srv2).
Proof using HFl Hstart Hfh.
  intros (d0&bs&qin&qsv&I&Hfi&Hd&Hne) Hr Ha. cbn [fst snd] in *. destruct (serve_spec _ _ _ _ _ _ _ _ _ _ _ _ _ I Hr Ha) as (qin'&qsv'&I').
  split; [exists d0, bs, qin', qsv'; split_and!; try done; by apply (file_inv_wx s)|].
  split; [by eapply (todo_nonneg (deliver s (reply_frame id r)))|].
  unfold todo. cbn [fst snd]. rewrite !len_app, len_cons. change (pending (w_st (g_w (deliver s (reply_frame id r))))) with (pending (w_st (g_w s))).
  change (x_offset (g_x (deliver s (reply_frame id r)))) with (x_offset (g_x s)). change (g_top (deliver s (reply_frame id r))) with (g_top s). lia.
Qed.

Lemma recv_step tick s srv :
  get_inv (s, srv) -> g_top s = false -> input (w_st (g_w s)) <> [] ->
  exists s', get_recv tick s = Some s' /\ get_inv (s', srv) /\ 0 <= todo (s', srv) < todo (s, srv).
Proof using HF HFl Hstart Hfh.
  intros (d0&bs&qin&qsv&I&Hfi&Hd&Hne) Htop Hin. cbn [fst snd] in *.
  destruct qin as [|[i r] qin]; [by rewrite (xi_input _ _ _ _ _ _ _ I) in Hin|].
  destruct (gotpkt_spec _ _ _ _ _ _ _ _ _ I) as (pktin&rest&w1&x1&bs1&E1&E2&I1&Hlen1&Hsent1&Hrep1&Hoff1).
  unfold get_recv. rewrite E1. cbn iota. rewrite E2. cbn [mbind option_bind]. change (1 <=? 0) with false. cbn iota.
  destruct (drain_spec (length (map_to_list (w_reqs (g_w (set_wx s w1 x1)))) + 1) (set_wx s w1 x1) srv d0 bs1 qin qsv I1)
    as (s2&d2&bs2&->&I2&Hfi2&Hd2&Hst2&Hoff2).
  { by apply file_inv_wx. }
  { pose proof (listed_length _ _ _ _ (xi_listed _ _ _ _ _ _ _ I1)) as Hl. rewrite length_fmap in Hl. cbn [g_w set_wx]. lia. }
  cbn [mbind option_bind]. eexists. split; [done|].
  assert (forall s', g_w s' = (if tick then report (g_w s2) (g_winterval s2) else g_w s2) -> g_x s' = g_x s2 -> g_top s' = true ->
    file_inv s' d2 -> get_inv (s', srv) /\ 0 <= todo (s', srv) < todo (s, srv)) as Hall.
  { intros s' Ew Ex Et Hfi'. assert (xfer_inv (g_w s') (g_x s') srv d2 bs2 qin qsv) as I'.
    { rewrite Ew, Ex. destruct tick; [|exact I2]. destruct I2. by constructor. }
    split; [exists d2, bs2, qin, qsv; split_and!; try done; cbn; congruence|].
    split; [by eapply todo_nonneg|]. destruct (pending_items _ _ _ _ _ _ _ I) as [P1 _]. destruct (pending_items _ _ _ _ _ _ _ I') as [P2 _].
    unfold todo. cbn [fst snd]. rewrite Et, Htop, P1, P2, Ex, Hoff2, len_cons. cbn [g_x set_wx]. rewrite Hoff1. lia. }
  destruct tick; apply Hall; try done; destruct Hfi2 as [Hc Hok Hfin Hret Hrep]; constructor; try done.
  cbn [g_w g_e g_f g_winterval report w_reports]. rewrite reports_snoc, Z.add_0_r. exact Hrep.
Qed.

Lemma get_step_inv c c' : get_inv c -> get_step F fh c c' -> get_inv c' /\ 0 <= todo c' < todo c.
Proof using HF HFl Hstart Hfh.
  intros Hi Hs. destruct Hs as [s s' srv Htop Hq|s srv1 bytes srv2 id off n r Hr Ha|tick s s' srv Htop Hin Hr].
  - destruct (xfer_done (g_x s)) eqn:Hd; [unfold get_queue in Hq; by rewrite Hd in Hq|].
    destruct (queue_step s srv Hi Htop Hd) as (s1&E&H). rewrite Hq in E. injection E as <-. exact H.
  - by apply (serve_step s srv1 bytes srv2 id off n r).
  - destruct (recv_step tick s srv Hi Htop Hin) as (s1&E&H). rewrite Hr in E. injection E as <-. exact H.
Qed.

(** As long as the loop is not done, something can happen. *)
Lemma get_progress s srv : get_inv (s, srv) -> nf (get_step F fh) (s, srv) -> g_top s = true /\ xfer_done (g_x s) = true.
Proof using HF HFl Hstart Hfh.
  intros Hi Hnf. destruct (g_top s) eqn:Htop.
  - split; [done|]. destruct (xfer_done (g_x s)) eqn:Hd; [done|]. destruct (queue_step s srv Hi Htop Hd) as (s1&E&_).
    exfalso. apply Hnf. eexists. by apply step_queue.
  - exfalso. apply Hnf. pose proof Hi as (d0&bs&qin&qsv&I&_&Hd&Hne). cbn [fst snd] in *.
    destruct qin as [|[i r] qin].
    + destruct bs as [|b bs]; [by destruct (Hne Htop)|]. pose proof (xi_blocks _ _ _ _ _ _ _ I) as Hp.
      rewrite filter_cons_True in Hp by exact Hd. destruct qsv as [|i qsv]; [by apply Permutation_nil_cons in Hp|].
      destruct (item_ok _ _ _ _ _ _ _ i I) as (Hid&Hoff&_); [by left|]. pose proof bound_fits.
      assert (exists r, answers F (i_off i) BLOCK r) as [r Hr].
      { destruct (Z.lt_ge_cases (i_off i) (len F)); eexists; [by apply ans_data|by apply ans_empty]. }
      rewrite (xi_srv _ _ _ _ _ _ _ I). eexists. apply (step_serve F fh s [] (item_frame i) _ (r_id (i_req i)) (i_off i) BLOCK r); [|exact Hr].
      apply read_request_frame; [done|unfold word_ok; lia].
    + assert (input (w_st (g_w s)) <> []) as Hin.
      { rewrite (xi_input _ _ _ _ _ _ _ I), bind_cons. unfold reply_frame, frame. by destruct (be_split 4 _) eqn:E. }
      destruct (recv_step false s srv Hi Htop Hin) as (s1&E&_). eexists. by apply (step_recv F fh false).
Qed.

Lemma get_terminates c : get_inv c -> sn (get_step F fh) c.
Proof using HF HFl Hstart Hfh.
  remember (Z.to_nat (todo c)) as n eqn:En. revert c En. induction n as [n IH] using lt_wf_ind. intros c -> Hi.
  constructor. intros c' Hs. destruct (get_step_inv c c' Hi Hs) as [Hi' Ht]. apply (IH (Z.to_nat (todo c'))); [lia|done|done].
Qed.

Lemma get_inv_reach c c' : get_inv c -> rtc (get_step F fh) c c' -> get_inv c'.
Proof using HF HFl Hstart Hfh. intros Hi H. induction H as [|c c1 c2 Hs _ IH]; [done|]. apply IH. by apply (get_step_inv c). Qed.

(** When the loop is done the file is complete. *)
Lemma get_finish_spec s srv :
  get_inv (s, srv) -> xfer_done (g_x s) = true ->
  exists w e, get_finish s = Some (w, e, 1) /\ we_file e = drop (Z.to_nat start) F /\ w_reqs w = ∅ /\ pending (w_st w) = []
    /\ foldr Z.add 0 (w_reports w) + g_winterval s = len (we_file e).
Proof using Hstart.
  intros (d0&bs&qin&qsv&I&[Hc Hok Hfin (Hret&_) Hrep]&_) Hdone. cbn [fst snd] in *.
  destruct (xi_fix _ _ _ _ _ _ _ I) as (Ir&_&Iv). destruct (xi_start _ _ _ _ _ _ _ I) as (Is&_). unfold xfer_done in Hdone.
  rewrite Ir, orb_false_r in Hdone. apply andb_true_iff in Hdone as [He Hh].
  assert (x_head (g_x s) = None) as Eh by (by destruct (x_head (g_x s))). clear Hh.
  assert (bs = []) as ->.
  { destruct bs as [|b bs]; [done|]. destruct (xi_listed _ _ _ _ _ _ _ I) as ((Hl&_)&_). by rewrite Eh in Hl. }
  pose proof (proj1 (xi_eof _ _ _ _ _ _ _ I) He) as Hend. rewrite (xi_offset _ _ _ _ _ _ _ I) in Hend.
  change (len (@nil block)) with 0 in Hend. rewrite Z.mul_0_r, Z.add_0_r in Hend.
  pose proof (xi_listed _ _ _ _ _ _ _ I) as (_&_&Hdom).
  assert (w_reqs (g_w s) = ∅) as Em.
  { apply map_empty. intros a. destruct (w_reqs (g_w s) !! a) as [n|] eqn:En; [|done].
    assert (a ∈ (node <$> (@nil block)).*1) as Ha by (apply Hdom; eauto). by apply elem_of_nil in Ha. }
  assert (pending (w_st (g_w s)) = []) as Ep.
  { apply len_nil_inv. destruct (pending_items _ _ _ _ _ _ _ I) as [-> _]. pose proof (items_few _ _ _ _ _ _ _ I) as Hf.
    rewrite len_app, len_fmap in Hf. exact Hf. }
  unfold get_finish, xfer_cleanup. rewrite Iv. change (0 <? 0) with false. cbn iota. rewrite Eh.
  assert (forall k m, cleanup_loop k m None = Some m) as -> by (by intros []). cbn [mbind option_bind]. rewrite Hret. change (1 =? 1) with true. cbn iota.
  destruct (finalize_spec (g_e s) (g_f s) _ Hok Hfin) as (e'&f'&->&Hfile). eexists _, e'. split; [done|].
  rewrite Hfile. split; [|done]. rewrite Hc. apply slice_all; lia.
Qed.

Lemma xfer_inv_init w :
  outstanding (w_st w) [] -> input (w_st w) = [] -> w_reqs w = ∅ -> xfer_inv w (xfer_init fh start false) [] start [] [] [].
Proof using HFl Hstart.
  intros Hout Hin Hm. pose proof (len_nonneg F). constructor; try done; cbn.
  - rewrite Hm. apply listed_empty.
  - change (len (@nil block)) with 0. lia.
  - unfold bound, BLOCK. split_and!; lia.
  - unfold SIZE_MAX. lia.
Qed.

(** The transfer starts with requests for the first blocks. *)
Lemma get_start_spec w e :
  outstanding (w_st w) [] -> input (w_st w) = [] -> w_reqs w = ∅ -> w_reports w = [] ->
  wfile_ok e open_wfile (Z.max 0 (len F - start)) -> we_file e = [] -> we_finalize e = true ->
  exists s0, get_start w fh start e open_wfile = Some s0
    /\ get_inv (s0, drop (length (sent (w_st w))) (sent (w_st (g_w s0)))).
Proof using HFl Hstart Hfh.
  intros Hout Hin Hm Hrep Hok Hfile Hfin. unfold get_start, xfer_download_init.
  pose proof (xfer_inv_init w Hout Hin Hm) as I.
  destruct (xfer_queue_spec _ _ _ _ _ _ _ I) as (w'&x'&bs'&its&->&I'&Hw&_&Hne&Hs&Hr).
  cbn [mbind option_bind]. eexists. split; [done|]. cbn [g_w]. rewrite Hs, drop_app_length. exists start, bs', [], its.
  split; [exact I'|]. split; [|split; [destruct bs' as [|b bs']; [done|by apply Forall_cons in Hw as [Hw _]]|done]].
  constructor; cbn [fst g_e g_f g_w g_ret g_shown g_log g_winterval]; try done.
  - unfold wcontents. rewrite Hfile, Z.sub_diag. done.
  - unfold wcontents. by rewrite Hr, Hrep, Hfile.
Qed.
End Download.

(** C1. Downloading delivers the file.  For every file, every starting offset and every handle, with
    up to 128 blocks requested at a time: whatever the order in which the server answers the
    outstanding requests, however its answers interleave with the client's progress,
    and however the engine cuts the local file into buffers, the loop of
    [sftp_get_file] ends; what has been written at any moment is a prefix of the file
    from the starting offset; and when nothing can happen any more the loop is over, it reports success,
    the local file has received exactly the bytes from the starting offset on, no request is
    pending, no [struct req] is left in memory, and the progress reports add up to the bytes
    written. *)
Theorem sftp_download_correct F fh start w e :
  bytes_ok F -> len F < 2 ^ 62 -> 0 <= start < 2 ^ 62 -> bytes_ok fh /\ len fh <= 256 ->
  sess_ok (w_st w) -> pending (w_st w) = [] -> input (w_st w) = [] -> w_reqs w = ∅ -> w_reports w = [] ->
  Forall (fun a => exists k, a = WBuf k /\ 0 < k <= INT_MAX) (we_answers e) -> len F <= len (we_answers e) ->
  we_file e = [] -> we_finalize e = true ->
  exists s0, get_start w fh start e open_wfile = Some s0 /\
    let c0 := (s0, drop (length (sent (w_st w))) (sent (w_st (g_w s0)))) in
    sn (get_step F fh) c0 /\
    forall s srv, rtc (get_step F fh) c0 (s, srv) ->
      wcontents (g_e s) (g_f s) `prefix_of` drop (Z.to_nat start) F /\
      (nf (get_step F fh) (s, srv) ->
       exists w' e', get_finish s = Some (w', e', 1) /\ we_file e' = drop (Z.to_nat start) F /\ w_reqs w' = ∅ /\ pending (w_st w') = []
         /\ foldr Z.add 0 (w_reports w') + g_winterval s = len (we_file e')).
Proof.
  intros HF HFl Hst Hfh Hok Hp Hin Hm Hrep Ha Hn Hfile Hfin.
  destruct (get_start_spec F fh start HFl Hst Hfh w e) as (s0&E0&Hi0); try done.
  { split; [done|]. rewrite Hp. split; [done|by apply Forall_nil]. }
  { split_and!; try done. cbn. pose proof (len_nonneg (we_answers e)). lia. }
  exists s0. split; [done|]. split; [by apply (get_terminates F fh start HF HFl Hst Hfh)|].
  intros s srv Hr. pose proof (get_inv_reach F fh start HF HFl Hst Hfh _ _ Hi0 Hr) as Hi. split.
  - destruct Hi as (d0&bs&qin&qsv&_&Hfi&_). cbn [fst] in Hfi. rewrite (fi_contents _ _ _ _ Hfi). unfold slice. apply prefix_take.
  - intros Hnf. destruct (get_progress F fh start HF HFl Hst Hfh s srv Hi Hnf) as [_ Hd]. by apply (get_finish_spec F fh start Hst s srv).
Qed.

(** Five bytes, the first of which the local file has already. *)
Lemma sftp_download_correct_witness :
  let F := [10; 20; 30; 40; 50] in
  let w := mkWorld (session_init []) ∅ 0 [] in let e := mkWEngine [WBuf 3; WBuf 1; WBuf 7; WBuf 1; WBuf 1] true [] in
  exists s0, get_start w [7] 1 e open_wfile = Some s0 /\
    let c0 := (s0, drop (length (sent (w_st w))) (sent (w_st (g_w s0)))) in
    sn (get_step F [7]) c0 /\
    forall s srv, rtc (get_step F [7]) c0 (s, srv) ->
      wcontents (g_e s) (g_f s) `prefix_of` [20; 30; 40; 50] /\
      (nf (get_step F [7]) (s, srv) ->
       exists w' e', get_finish s = Some (w', e', 1) /\ we_file e' = [20; 30; 40; 50] /\ w_reqs w' = ∅ /\ pending (w_st w') = []
         /\ foldr Z.add 0 (w_reports w') + g_winterval s = len (we_file e')).
Proof.
  intros F w e. apply (sftp_download_correct F [7] 1 w e); try done; try lia.
  - repeat (apply Forall_cons; split; [split; lia|]). by apply Forall_nil.
  - split; [|done]. apply Forall_cons. split; [split; lia|by apply Forall_nil].
  - apply sess_ok_init.
  - repeat (apply Forall_cons; split; [eexists; split; [reflexivity|unfold INT_MAX; lia]|]). by apply Forall_nil.
Defined.
