(* ===== verification/SftpPut.v ===== *)
(** * Uploading a file (psftp.c: the loop of [sftp_put_file])

    The loop sends write requests as long as the connection takes them, and then waits for
    an answer.  Four things it asks its surroundings are arguments of the model: whether
    the send buffer is empty ([xfer_upload_ready]), whether many packets wait to be
    received, whether top-level callbacks are pending, and whether the progress timer has run
    out.  A server applies the writes and answers them, in any order. *)

From stdpp Require Import gmap sorting relations.
From S2P Require Import Prelude Memory Marshal Strbuf Tree234 SortedSet SftpPacket Sftp LocalFile SftpXfer.
Open Scope Z_scope.

(** ** The client *)

Inductive put_error := ErrorReadingLocalFile | ErrorWhileWriting (m : fxp_message).

(** At the head of the loop, in the inner loop, behind it, or waiting in [sftp_recv]. *)
Inductive put_pc := PTop | PInner | PCheck | PRecv.

Record put_state := mkPut {
  p_pc : put_pc;
  p_w : world; p_x : fxp_xfer;
  p_l : list ranswer; p_f : RFile;
  p_err : bool; p_eof : bool; p_log : list put_error
}.

Definition p_go (s : put_state) (pc : put_pc) : put_state :=
  mkPut pc (p_w s) (p_x s) (p_l s) (p_f s) (p_err s) (p_eof s) (p_log s).

Definition put_start (w : world) (fh : fxp_handle) (offset : Z) (l : list ranswer) (f : RFile) : put_state :=
  mkPut PTop w (xfer_upload_init fh offset) l f false false [].

(** [while ((!err && !eof) || !xfer_done(xfer))] *)
Definition put_more (s : put_state) : bool := (negb (p_err s) && negb (p_eof s)) || negb (xfer_done (p_x s)).

(** [sizeof(buffer)] *)
Definition PUT_BUFFER : Z := 16384.

(** One round of the inner loop; [full] is [pending_receive() >= 5]. *)
Definition put_inner (ready full : bool) (s : put_state) : option put_state :=
  if ready && negb (p_err s) && negb (p_eof s) then
    '(l, f, n, buffer) ← read_from_file (p_l s) (p_f s) PUT_BUFFER;
    if n =? -1 then Some (mkPut PInner (p_w s) (p_x s) l f true (p_eof s) (p_log s ++ [ErrorReadingLocalFile]))
    else if n =? 0 then Some (mkPut PInner (p_w s) (p_x s) l f (p_err s) true (p_log s))
    else
      '(w, x) ← xfer_upload_data (p_w s) (p_x s) buffer;
      Some (mkPut (if full : bool then PCheck else PInner) w x l f (p_err s) (p_eof s) (p_log s))
  else Some (p_go s PCheck).

(** After the inner loop: back to the head of the loop, or on to [sftp_recv]. *)
Definition put_waits (callbacks : bool) (s : put_state) : bool :=
  negb (callbacks && negb (p_err s) && negb (p_eof s)) && negb (xfer_done (p_x s)).

Definition put_recv (tick : bool) (s : put_state) : option put_state :=
  let st := w_st (p_w s) in
  let '(pktin, inp) := sftp_recv (input st) in
  '(w, x, ret) ← xfer_upload_gotpkt tick (set_st (p_w s) (set_input st inp)) (p_x s) pktin;
  let s := mkPut PTop w x (p_l s) (p_f s) (p_err s) (p_eof s) (p_log s) in
  Some (if (ret <=? 0) && negb (p_err s)
        then mkPut PTop w x (p_l s) (p_f s) true (p_eof s) (p_log s ++ [ErrorWhileWriting (fxp_error (w_st w))]) else s).

(** After the loop, up to the closing of the file: the value returned is [err ? 0 : 1]. *)
Definition put_finish (s : put_state) : option (world * Z) :=
  w ← xfer_cleanup (p_w s) (p_x s);
  Some (w, if p_err s then 0 else 1).

(** ** The server *)

(** A file as bytes at offsets. *)
Fixpoint write_at (G : gmap Z Z) (off : Z) (d : list Z) : gmap Z Z :=
  match d with
  | [] => G
  | c :: d => write_at (<[off := c]> G) (off + 1) d
  end.

Definition write_request (fh : fxp_handle) (bytes : list Z) : option (Z * Z * list Z) :=
  match sftp_recv bytes with
  | (Some pktin, []) =>
      if in_type pktin =? SSH_FXP_WRITE then
        let '(id, src) := get_uint32 (in_src pktin) in
        let '(h, src) := get_string src in
        let '(off, src) := get_uint64 src in
        let '(d, src) := get_string src in
        if bad src || negb (bool_decide (h = fh)) then None else Some (id, off, d)
      else None
  | _ => None
  end.

(** The client, the requests the server has not answered, its file, and how many more times the
    surroundings will hold the client up: with a send buffer that is not empty although
    no request is outstanding, or with pending callbacks. *)
Record put_system := mkSys { ps_s : put_state; ps_srv : list (list Z); ps_file : gmap Z Z; ps_idle : nat }.

Definition put_deliver (s : put_state) (bytes : list Z) : put_state :=
  let st := w_st (p_w s) in
  mkPut (p_pc s) (set_st (p_w s) (set_input st (input st ++ bytes))) (p_x s) (p_l s) (p_f s) (p_err s) (p_eof s) (p_log s).

Definition ok_frame (id : Z) (msg lang : list Z) : list Z := frame SSH_FXP_STATUS [FUint32 id; FUint32 SSH_FX_OK; FString msg; FString lang].

Definition new_frames (s s' : put_state) : list (list Z) := drop (length (sent (w_st (p_w s)))) (sent (w_st (p_w s'))).

Inductive put_step (fh : fxp_handle) : put_system -> put_system -> Prop :=
| pstep_top s srv G k :
    p_pc s = PTop -> put_more s = true -> put_step fh (mkSys s srv G k) (mkSys (p_go s PInner) srv G k)
| pstep_inner ready full s s' srv G k :
    p_pc s = PInner -> ready || p_err s || p_eof s || negb (xfer_done (p_x s)) = true -> put_inner ready full s = Some s' ->
    put_step fh (mkSys s srv G k) (mkSys s' (srv ++ new_frames s s') G k)
| pstep_held_up callbacks full s s' srv G k :
    p_pc s = PInner -> xfer_done (p_x s) = true -> put_inner false full s = Some s' -> put_waits callbacks s' = false ->
    put_step fh (mkSys s srv G (S k)) (mkSys (p_go s' PTop) srv G k)
| pstep_callbacks s srv G k :
    p_pc s = PCheck -> p_err s || p_eof s = false -> put_waits true s = false ->
    put_step fh (mkSys s srv G (S k)) (mkSys (p_go s PTop) srv G k)
| pstep_check s srv G k :
    p_pc s = PCheck -> put_step fh (mkSys s srv G k) (mkSys (p_go s (if put_waits false s then PRecv else PTop)) srv G k)
| pstep_recv tick s s' srv G k :
    p_pc s = PRecv -> input (w_st (p_w s)) <> [] -> put_recv tick s = Some s' ->
    put_step fh (mkSys s srv G k) (mkSys s' srv G k)
| pstep_serve s srv1 bytes srv2 G k id off d msg lang :
    write_request fh bytes = Some (id, off, d) -> bytes_ok msg -> bytes_ok lang -> len msg + len lang <= 65536 ->
    put_step fh (mkSys s (srv1 ++ bytes :: srv2) G k)
      (mkSys (put_deliver s (ok_frame id msg lang)) (srv1 ++ srv2) (write_at G off d) k).

(** ** The file of the server *)

Lemma write_at_lookup G off d k :
  write_at G off d !! k = if (off <=? k) && (k <? off + len d) then d !! Z.to_nat (k - off) else G !! k.
Proof.
  revert G off. induction d as [|c d IH]; intros G off; cbn [write_at].
  - change (len (@nil Z)) with 0. destruct (Z.leb_spec off k), (Z.ltb_spec k (off + 0)); try done; lia.
  - rewrite IH, len_cons. pose proof (len_nonneg d). destruct (Z.eq_dec off k) as [->|Hne].
    + rewrite (proj2 (Z.leb_gt (k + 1) k)) by lia. cbn [andb]. rewrite lookup_insert_eq.
      rewrite (proj2 (Z.leb_le k k)), (proj2 (Z.ltb_lt k (k + (1 + len d)))) by lia. cbn [andb]. by rewrite Z.sub_diag.
    + rewrite lookup_insert_ne by done. destruct (Z.leb_spec (off + 1) k), (Z.leb_spec off k); try lia; cbn [andb]; [|done].
      replace (off + (1 + len d)) with (off + 1 + len d) by lia. destruct (Z.ltb_spec k (off + 1 + len d)); [|done].
      replace (Z.to_nat (k - off)) with (S (Z.to_nat (k - (off + 1)))) by lia. done.
Qed.

(** Writing a piece of [d] over the file that holds [d] changes nothing there. *)
Lemma write_at_piece G0 off pre d post k :
  off + len pre <= k < off + len pre + len d -> write_at G0 off (pre ++ d ++ post) !! k = d !! Z.to_nat (k - (off + len pre)).
Proof.
  intros Hk. pose proof (len_nonneg pre). pose proof (len_nonneg post). rewrite write_at_lookup, !len_app.
  rewrite (proj2 (Z.leb_le _ _)), (proj2 (Z.ltb_lt _ _)) by lia. cbn [andb].
  rewrite lookup_app_r by (unfold len in *; lia). rewrite lookup_app_l by (unfold len in *; lia). f_equal. unfold len in *. lia.
Qed.

Lemma write_at_outside G0 off d d' k : ~ (off + len d <= k < off + len d + len d') -> write_at G0 off (d ++ d') !! k = write_at G0 off d !! k.
Proof.
  intros Hk. pose proof (len_nonneg d). pose proof (len_nonneg d'). rewrite !write_at_lookup, len_app.
  destruct (Z.leb_spec off k); cbn [andb]; [|done]. destruct (Z.ltb_spec k (off + len d)).
  - rewrite (proj2 (Z.ltb_lt k _)) by lia. rewrite lookup_app_l; [done|]. unfold len in *. lia.
  - rewrite (proj2 (Z.ltb_ge k _)) by lia. done.
Qed.

(** ** The invariant *)

Section Upload.
Variables (D : list Z) (fh : fxp_handle) (start : Z) (G0 : gmap Z Z).
Hypothesis HD : bytes_ok D.
Hypothesis Hstart : 0 <= start.
Hypothesis Hsize : start + len D < 2 ^ 64.
Hypothesis Hfh : bytes_ok fh /\ len fh <= 256.

(** A write request in flight. *)
Record witem := mkW { wi_req : sftp_request; wi_addr : Z; wi_off : Z; wi_data : list Z }.

Definition wi_block (i : witem) : Z * req_data := (wi_addr i, mkData (len (wi_data i)) 0 0 (wi_off i) []).
Definition wi_frame (i : witem) : list Z :=
  frame SSH_FXP_WRITE [FUint32 (r_id (wi_req i)); FString fh; FUint64 (wi_off i); FString (wi_data i)].
Definition block_sum (bs : list (Z * req_data)) : Z := foldr (fun b s => rq_len b.2 + s) 0 bs.

(** [Dr] is what has been read and sent. *)
Record wxfer_inv (w : world) (x : fxp_xfer) (srv : list (list Z)) (G : gmap Z Z) (Dr : list Z) (bs : list (Z * req_data))
  (qin : list (witem * (list Z * list Z))) (qsv : list witem) : Prop := {
  wi_listed : listed (w_reqs w) (x_head x) (x_tail x) bs;
  wi_next : Forall (fun a => a < w_next w) bs.*1;
  wi_offset : x_offset x = start + len Dr;
  wi_total : foldr Z.add 0 (w_reports w) + x_sent_interval x + block_sum bs = len Dr /\ 0 <= x_sent_interval x;
  wi_fix : x_eof x = true /\ x_err x = false /\ x_fh x = fh;
  wi_blocks : wi_block <$> (qin.*1 ++ qsv) ≡ₚ bs;
  wi_out : outstanding (w_st w) ((fun i => (wi_req i, wi_addr i)) <$> (qin.*1 ++ qsv));
  wi_input : input (w_st w) = qin ≫= (fun q => ok_frame (r_id (wi_req q.1)) q.2.1 q.2.2);
  wi_answers : Forall (fun q => bytes_ok q.2.1 /\ bytes_ok q.2.2 /\ len q.2.1 + len q.2.2 <= 65536) qin;
  wi_srv : srv = wi_frame <$> qsv;
  wi_pieces : Forall (fun i => 0 < len (wi_data i) <= PUT_BUFFER /\
                exists pre post, Dr = pre ++ wi_data i ++ post /\ wi_off i = start + len pre) (qin.*1 ++ qsv);
  wi_file : forall k, Forall (fun i => ~ (wi_off i <= k < wi_off i + len (wi_data i))) qsv -> G !! k = write_at G0 start Dr !! k
}.

Lemma write_op_ok off d : 0 <= off < 2 ^ 64 -> bytes_ok d -> len d <= PUT_BUFFER -> op_ok (Write fh off d).
Proof using Hfh.
  unfold PUT_BUFFER. intros Hoff Hd Hl. destruct Hfh as [H1 H2]. pose proof (len_nonneg fh). pose proof (len_nonneg d). split; cbn [op_fields].
  - repeat (apply Forall_cons; split); [split; [done|lia]|exact Hoff|split; [done|lia]|by apply Forall_nil].
  - rewrite !bind_cons, !len_app. cbn [field_enc]. rewrite !len_app, !len_be_split. change (len (mbind field_enc [])) with 0. lia.
Qed.

Lemma block_sum_app bs bs' : block_sum (bs ++ bs') = block_sum bs + block_sum bs'.
Proof using Type. unfold block_sum. induction bs as [|b bs IH]; cbn; lia. Qed.

Lemma pieces_snoc Dr d (qs : list witem) :
  Forall (fun i => 0 < len (wi_data i) <= PUT_BUFFER /\ exists pre post, Dr = pre ++ wi_data i ++ post /\ wi_off i = start + len pre) qs ->
  Forall (fun i => 0 < len (wi_data i) <= PUT_BUFFER /\ exists pre post, Dr ++ d = pre ++ wi_data i ++ post /\ wi_off i = start + len pre) qs.
Proof using Type.
  intros H. eapply Forall_impl; [exact H|]. cbn. intros i (Hl&pre&post&->&Ho). split; [done|]. exists pre, (post ++ d). by rewrite <- !app_assoc.
Qed.

(** One more piece is sent. *)
Lemma upload_spec w x srv G Dr bs qin qsv d :
  wxfer_inv w x srv G Dr bs qin qsv -> 0 < len d <= PUT_BUFFER -> bytes_ok d -> start + len Dr + len d < 2 ^ 64 ->
  len (qin.*1 ++ qsv) < 2 ^ 31 ->
  exists w' x' i, xfer_upload_data w x d = Some (w', x')
    /\ wxfer_inv w' x' (srv ++ [wi_frame i]) G (Dr ++ d) (bs ++ [wi_block i]) qin (qsv ++ [i])
    /\ sent (w_st w') = sent (w_st w) ++ [wi_frame i].
Proof using Hstart Hfh.
  intros I Hd Hdb Hsz Hq. destruct I as [Il In Io (It&Iv) (Ie&Ir&Ifh) Ibl Iout Iin Ians Isv Ip If].
  pose proof (len_nonneg Dr). set (off := start + len Dr) in *. unfold xfer_upload_data. rewrite Io.
  destruct (listed_append w x bs (mkData (len d) 0 0 off []) Il) as (m&hd&tl&->&Hl').
  { intros Ha. rewrite Forall_forall in In. specialize (In _ Ha). lia. }
  cbn [mbind option_bind w_st x_fh set_ends]. rewrite Ifh.
  destruct (send_outstanding (w_st w) _ (Write fh off d) (w_next w) Iout) as (st1&r&st2&st'&E1&E2&E3&Hout&Hs'&Hi'&Hid).
  { by rewrite len_fmap. } { by apply write_op_ok; [lia| |lia]. }
  cbn [fxp_send] in E1. rewrite E1. cbn [mbind option_bind]. rewrite E2. cbn [mbind option_bind]. rewrite E3. cbn [mbind option_bind].
  set (i := mkW r (w_next w) off d). eexists _, _, i. split; [done|]. split; [|exact Hs'].
  constructor; cbn [w_st w_reqs w_next w_reports set_st x_head x_tail x_offset x_sent_interval x_eof x_err x_fh add_total add_offset set_ends].
  - exact Hl'.
  - rewrite fmap_app. apply Forall_app. split; [eapply Forall_impl; [exact In|]; cbn; intros; lia|]. apply Forall_cons. split; [cbn; lia|by apply Forall_nil].
  - rewrite Io, wrap_id by (unfold word_ok; lia). rewrite len_app. lia.
  - rewrite block_sum_app, len_app. cbn. lia.
  - done.
  - rewrite app_assoc, fmap_app, Ibl. done.
  - rewrite app_assoc, fmap_app. exact Hout.
  - by rewrite Hi'.
  - done.
  - by rewrite fmap_app, Isv.
  - rewrite app_assoc. apply Forall_app. split; [by apply pieces_snoc|]. apply Forall_cons. split; [|by apply Forall_nil]. split; [done|].
    exists Dr, []. by rewrite app_nil_r.
  - intros k Hk. apply Forall_app in Hk as [Hk [Hki _]%Forall_cons]. rewrite (If k Hk). symmetry. by apply write_at_outside.
Qed.

Lemma write_request_frame i :
  word_ok 32 (r_id (wi_req i)) -> word_ok 64 (wi_off i) -> bytes_ok (wi_data i) -> len (wi_data i) <= PUT_BUFFER ->
  write_request fh (wi_frame i) = Some (r_id (wi_req i), wi_off i, wi_data i).
Proof using Hfh.
  unfold PUT_BUFFER. intros Hid Hoff Hd Hl. destruct Hfh as [H1 H2]. pose proof (len_nonneg fh). pose proof (len_nonneg (wi_data i)). unfold write_request, wi_frame.
  set (fs := [FUint32 (r_id (wi_req i)); FString fh; FUint64 (wi_off i); FString (wi_data i)]).
  destruct (recv_frame SSH_FXP_WRITE fs []) as (src&E&Hs); [done|fields_ok; lia| |].
  { unfold fs. rewrite !bind_cons, !len_app. cbn [field_enc]. rewrite !len_app, !len_be_split. change (len (mbind field_enc [])) with 0. lia. }
  rewrite app_nil_r in E. rewrite E. cbn [in_type in_src]. rewrite Z.eqb_refl.
  unfold fs in Hs. rewrite !bind_cons in Hs. cbn [field_enc] in Hs. rewrite <- !app_assoc in Hs.
  destruct (at_data_uint32 _ _ _ Hid Hs) as (s1&->&Hs1). destruct (at_data_string _ _ _ H1 ltac:(lia) Hs1) as (s2&->&Hs2).
  destruct (at_data_uint64 _ _ _ Hoff Hs2) as (s3&->&Hs3). destruct (at_data_string _ _ _ Hd ltac:(lia) Hs3) as (s4&->&Hs4).
  rewrite (bad_at_data _ _ Hs4). by rewrite bool_decide_true.
Qed.

Lemma witem_ok w x srv G Dr bs qin qsv i :
  wxfer_inv w x srv G Dr bs qin qsv -> i ∈ qin.*1 ++ qsv -> bytes_ok Dr -> start + len Dr < 2 ^ 64 ->
  word_ok 32 (r_id (wi_req i)) /\ word_ok 64 (wi_off i) /\ bytes_ok (wi_data i) /\ 0 < len (wi_data i) <= PUT_BUFFER.
Proof using Hstart Hfh.
  intros I Hi Hb Hsz. destruct (wi_out _ _ _ _ _ _ _ _ I) as (_&_&Hf). rewrite Forall_forall in Hf.
  destruct (Hf (wi_req i, wi_addr i)) as [_ Hid]; [apply list_elem_of_fmap; by exists i|].
  pose proof (wi_pieces _ _ _ _ _ _ _ _ I) as Hp. rewrite Forall_forall in Hp. destruct (Hp i Hi) as (Hl&pre&post&->&Ho).
  rewrite !Forall_app in Hb. rewrite !len_app in Hsz. pose proof (len_nonneg pre). pose proof (len_nonneg post).
  split; [done|]. split; [unfold word_ok; lia|]. tauto.
Qed.

Lemma ok_reply_ok msg lang :
  bytes_ok msg -> bytes_ok lang -> len msg + len lang <= 65536 -> reply_ok (RStatus SSH_FX_OK msg lang).
Proof using Type.
  intros Hm Hg Hl. pose proof (len_nonneg msg). pose proof (len_nonneg lang). split; [|split; [|done]]; cbn [reply_fields].
  - apply Forall_cons; split; [done|]. apply Forall_cons; split; [split; [done|lia]|]. apply Forall_cons; split; [split; [done|lia]|]. by apply Forall_nil.
  - rewrite !bind_cons, !len_app. cbn [field_enc]. rewrite !len_app, !len_be_split. change (len (mbind field_enc [])) with 0. lia.
Qed.

(** The server writes a piece and answers. *)
Lemma wserve_spec w x srv1 bytes srv2 G Dr bs qin qsv id off d msg lang :
  wxfer_inv w x (srv1 ++ bytes :: srv2) G Dr bs qin qsv -> bytes_ok Dr -> start + len Dr < 2 ^ 64 ->
  write_request fh bytes = Some (id, off, d) -> bytes_ok msg -> bytes_ok lang -> len msg + len lang <= 65536 ->
  exists qin' qsv', wxfer_inv (set_st w (set_input (w_st w) (input (w_st w) ++ ok_frame id msg lang))) x (srv1 ++ srv2)
    (write_at G off d) Dr bs qin' qsv' /\ len (qin'.*1 ++ qsv') = len (qin.*1 ++ qsv).
Proof using Hstart Hfh.
  intros I HDr Hsz Hreq Hm Hg Hl. pose proof (wi_srv _ _ _ _ _ _ _ _ I) as Esv. symmetry in Esv.
  apply fmap_app_inv in Esv as (q1&q2'&->&E2&Eq). symmetry in E2. apply fmap_cons_inv in E2 as (i&q2&->&->&->).
  assert (i ∈ qin.*1 ++ qsv) as Hi by (rewrite Eq; apply elem_of_app; right; apply elem_of_app; right; by left).
  destruct (witem_ok _ _ _ _ _ _ _ _ i I Hi HDr Hsz) as (Hid&Hoff&Hd&Hdl).
  rewrite write_request_frame in Hreq by (done || lia). injection Hreq as <- <- <-.
  exists (qin ++ [(i, (msg, lang))]), (q1 ++ q2).
  assert ((qin ++ [(i, (msg, lang))]).*1 ++ q1 ++ q2 ≡ₚ qin.*1 ++ qsv) as Hp.
  { rewrite Eq, fmap_app, <- app_assoc. cbn. by rewrite Permutation_middle. }
  split; [|unfold len; by rewrite Hp].
  destruct I as [Il In Io It Ifx Ibl Iout Iin Ians Isv Ip If]. constructor; try done.
  - by rewrite Hp.
  - cbn [w_st set_st]. apply outstanding_input. by rewrite Hp.
  - cbn. rewrite Iin, bind_app. cbn. by rewrite app_nil_r.
  - apply Forall_app. split; [done|]. apply Forall_cons. split; [done|by apply Forall_nil].
  - by rewrite fmap_app.
  - by rewrite Hp.
  - intros k Hk. rewrite write_at_lookup. rewrite Forall_forall in Ip. destruct (Ip i Hi) as (_&pre&post&EDr&Ho).
    destruct (Z.leb_spec (wi_off i) k); cbn [andb]; [destruct (Z.ltb_spec k (wi_off i + len (wi_data i)))|].
    + rewrite EDr, write_at_piece by lia. by rewrite Ho.
    + apply If. rewrite Eq. apply Forall_app in Hk as [Hk1 Hk2]. apply Forall_app. split; [done|]. apply Forall_cons. split; [lia|done].
    + apply If. rewrite Eq. apply Forall_app in Hk as [Hk1 Hk2]. apply Forall_app. split; [done|]. apply Forall_cons. split; [lia|done].
Qed.

Lemma count_sent_spec tick w x n w' x' :
  count_sent tick w x n = (w', x') ->
  x' = mkXfer (x_offset x) (x_furthestdata x) (x_filesize x) (x_totalsize x) (x_maxsize x) (x_eof x) (x_err x) (x_fh x) (x_head x) (x_tail x)
         (x_sent_interval x')
  /\ w_st w' = w_st w /\ w_reqs w' = w_reqs w /\ w_next w' = w_next w
  /\ foldr Z.add 0 (w_reports w') + x_sent_interval x' = foldr Z.add 0 (w_reports w) + x_sent_interval x + n
  /\ (0 <= x_sent_interval x + n -> 0 <= x_sent_interval x').
Proof using Type. unfold count_sent. destruct tick; intros [= <- <-]; cbn; rewrite ?reports_snoc; split_and!; done || lia. Qed.

(** An answer takes its request off the list. *)
Lemma ack_spec tick w x srv G Dr bs i msg lang qin qsv :
  wxfer_inv w x srv G Dr bs ((i, (msg, lang)) :: qin) qsv ->
  exists pktin rest w' x' bs', sftp_recv (input (w_st w)) = (Some pktin, rest)
    /\ xfer_upload_gotpkt tick (set_st w (set_input (w_st w) rest)) x (Some pktin) = Some (w', x', 1)
    /\ wxfer_inv w' x' srv G Dr bs' qin qsv /\ sent (w_st w') = sent (w_st w).
Proof using Type.
  intros I. pose proof (wi_answers _ _ _ _ _ _ _ _ I) as Ha. apply Forall_cons in Ha as [(Hm&Hg&Hl) Hans]. cbn [fst snd] in *.
  destruct I as [Il In Io (It&Iv) Ifx Ibl Iout Iin Ians Isv Ip If]. rewrite bind_cons in Iin. cbn [fst snd] in Iin. set (rest := qin ≫= _) in Iin.
  destruct (answer_outstanding (set_st w (set_input (w_st w) rest)) _ ((fun i => (wi_req i, wi_addr i)) <$> (qin.*1 ++ qsv)) (wi_req i) (wi_addr i)
    (Write fh 0 []) (RStatus SSH_FX_OK msg lang) (fun _ => no_attrs) (input (w_st w)) rest "request ID is not part of the current upload"
    (outstanding_input _ rest _ Iout)) as (pktin&st1&pktin'&st2&E1&E2&E3&_&Hout&Es&Ei); [done|by apply ok_reply_ok|exact Iin|].
  cbn [fxp_recv reply_result fst status_of] in E3. destruct (fxp_write_recv st1 pktin' (wi_req i)) as [[st2' ret]|] eqn:Erd; [|done].
  cbn [mbind option_bind] in E3. injection E3 as -> ->.
  assert (wi_block i ∈ bs) as Hb by (rewrite <- Ibl; by left). apply list_elem_of_split in Hb as (b1&b2&->). unfold wi_block at 1 in Il.
  destruct (listed_unlink _ _ _ _ _ _ Il) as (nx&pv&m'&hd&tl&Hm'&Eu&Hl'&_).
  exists pktin, rest. unfold xfer_upload_gotpkt. rewrite E2. cbn [mbind option_bind]. cbn [w_reqs set_st w_st]. rewrite Hm'. cbn [mbind option_bind].
  rewrite Erd. cbn [mbind option_bind]. rewrite Eu. cbn [mbind option_bind rq rq_len].
  match goal with |- context [count_sent tick ?w0 ?x0 ?n] => destruct (count_sent tick w0 x0 n) as [w' x'] eqn:Ec end.
  apply count_sent_spec in Ec as (Ex&Ew&Em&En&Erep&Eiv). cbn [x_offset x_furthestdata x_filesize x_totalsize x_maxsize x_eof x_err x_fh x_head x_tail
    x_sent_interval add_total set_ends w_reports set_reqs set_st w_st w_reqs w_next] in *.
  exists w', x', (b1 ++ b2). split; [done|]. split; [done|]. split; [|by rewrite Ew].
  pose proof (len_nonneg (wi_data i)).
  constructor; rewrite ?Ew, ?Em, ?En; try rewrite Ex; cbn [x_offset x_eof x_err x_fh x_head x_tail x_sent_interval]; try done.
  - rewrite fmap_app, Forall_app in In. destruct In as [In1 [_ In2]%Forall_cons]. rewrite fmap_app, Forall_app. done.
  - rewrite Erep. rewrite block_sum_app in *. cbn [block_sum foldr wi_block snd rq_len] in It. fold (block_sum b2) in It. split; [lia|]. apply Eiv. lia.
  - rewrite fmap_cons in Ibl. cbn [fst app] in Ibl. rewrite fmap_cons, <- Permutation_middle in Ibl. by apply Permutation_cons_inv in Ibl.
  - rewrite fmap_cons in Ip. cbn [fst app] in Ip. by apply Forall_cons in Ip as [_ Ip].
Qed.

(** ** The whole system *)

Variable N : Z.
Hypothesis HN : N < 2 ^ 31.

Definition pcw (s : put_state) : Z :=
  match p_pc s with PTop => if put_more s then 3 else 0 | PInner => 2 | PCheck => 1 | PRecv => 0 end.

Definition local_inv (s : put_state) (Dr : list Z) (items c0 : Z) : Prop :=
  if p_eof s then D = Dr
  else exists rest, rfile_ok PUT_BUFFER (p_l s) (p_f s) rest c0 /\ D = Dr ++ rest /\ items + c0 <= N.

(** [n] bounds what is left to do: pieces to read, requests to answer, answers to take, hold-ups. *)
Definition put_inv (c : put_system) (n : Z) : Prop :=
  exists Dr bs qin qsv c0, wxfer_inv (p_w (ps_s c)) (p_x (ps_s c)) (ps_srv c) (ps_file c) Dr bs qin qsv
    /\ p_err (ps_s c) = false /\ 0 <= c0 /\ local_inv (ps_s c) Dr (len (qin.*1 ++ qsv)) c0
    /\ match p_pc (ps_s c) with PCheck => p_eof (ps_s c) = false -> bs <> [] | PRecv => bs <> [] | _ => True end
    /\ n = 6 * c0 + (if p_eof (ps_s c) then 0 else 6) + 4 * len (qin.*1 ++ qsv) + len qsv + 3 * Z.of_nat (ps_idle c) + pcw (ps_s c).

Lemma done_iff w x srv G Dr bs qin qsv : wxfer_inv w x srv G Dr bs qin qsv -> xfer_done x = true <-> bs = [].
Proof using Type.
  intros I. destruct (wi_fix _ _ _ _ _ _ _ _ I) as (He&_). destruct (wi_listed _ _ _ _ _ _ _ _ I) as (Hl&_).
  unfold xfer_done. rewrite He. cbn [orb andb]. destruct bs as [|[a d] bs]; [by destruct Hl as [-> _]|]. by destruct Hl as (->&_).
Qed.

Lemma not_done w x srv G Dr bs qin qsv : wxfer_inv w x srv G Dr bs qin qsv -> xfer_done x = false -> bs <> [].
Proof using Type. intros I Hd E. apply (done_iff _ _ _ _ _ _ _ _ I) in E. congruence. Qed.

Lemma local_prefix s Dr items c0 : local_inv s Dr items c0 -> bytes_ok Dr /\ start + len Dr < 2 ^ 64.
Proof using HD Hsize.
  unfold local_inv. destruct (p_eof s); [by intros <-|]. intros (rest&_&E&_). rewrite E in HD, Hsize. apply Forall_app in HD as [HDr _].
  rewrite len_app in Hsize. pose proof (len_nonneg rest). split; [done|lia].
Qed.

Lemma new_frames_none s s' : sent (w_st (p_w s')) = sent (w_st (p_w s)) -> new_frames s s' = [].
Proof using Type. intros E. unfold new_frames. rewrite E. by apply drop_ge. Qed.

Lemma put_inner_step ready full s srv G k n :
  put_inv (mkSys s srv G k) n -> p_pc s = PInner -> ready || p_err s || p_eof s || negb (xfer_done (p_x s)) = true ->
  exists s' n', put_inner ready full s = Some s' /\ put_inv (mkSys s' (srv ++ new_frames s s') G k) n' /\ n' < n.
Proof using HD Hsize Hstart Hfh HN.
  intros (Dr&bs&qin&qsv&c0&I&He&Hc0&Hloc&_&->) Hpc Hr. cbn [ps_s ps_srv ps_file ps_idle] in *.
  destruct (local_prefix _ _ _ _ Hloc) as [HDr Hsz]. unfold put_inner, pcw. rewrite Hpc, He, andb_true_r. rewrite He, orb_false_r in Hr.
  destruct (ready && negb (p_eof s)) eqn:Ego.
  - apply andb_true_iff in Ego as [-> Eeof%negb_true_iff]. unfold local_inv in Hloc. rewrite Eeof in Hloc |- *. destruct Hloc as (rest&Hrf&ED&Hn).
    destruct (read_from_file_spec PUT_BUFFER _ _ _ _ ltac:(done) Hrf) as [(->&l'&f'&->)|(l'&f'&d&rest'&->&Hd&->&Hrf')]; cbn [mbind option_bind].
    + change (0 =? -1) with false. change (0 =? 0) with true. cbn iota. eexists _, _. split; [done|].
      rewrite new_frames_none, app_nil_r by done. split.
      * exists Dr, bs, qin, qsv, c0. split; [exact I|]. split; [done|]. split; [done|]. split; [by rewrite app_nil_r in ED|]. split; [done|reflexivity].
      * cbn. lia.
    + rewrite (proj2 (Z.eqb_neq (len d) (-1))), (proj2 (Z.eqb_neq (len d) 0)) by lia.
      pose proof HD as HD'. rewrite ED, !Forall_app in HD'. pose proof Hsize as Hsize'. rewrite ED, !len_app in Hsize'. pose proof (len_nonneg rest').
      destruct (upload_spec _ _ _ _ _ _ _ _ d I Hd) as (w'&x'&i&->&I'&Hs'); [tauto|lia|lia|]. cbn [mbind option_bind].
      eexists _, _. split; [done|]. unfold new_frames. cbn [p_w]. rewrite Hs', drop_app_length.
      assert (len (qin.*1 ++ qsv ++ [i]) = len (qin.*1 ++ qsv) + 1) as El by (rewrite app_assoc, len_app; done).
      pose proof (rfile_chunks PUT_BUFFER _ _ _ _ ltac:(done) Hrf'). split.
      * exists (Dr ++ d), (bs ++ [wi_block i]), qin, (qsv ++ [i]), (c0 - 1). split; [exact I'|]. split; [done|]. split; [lia|]. split; [|split].
        -- unfold local_inv. cbn [p_eof p_l p_f ps_s]. exists rest'. split; [done|]. split; [by rewrite <- app_assoc|]. lia.
        -- cbn. destruct full; [|done]. intros _ [_ ?]%app_nil. done.
        -- reflexivity.
      * unfold pcw. cbn [p_eof ps_s ps_idle p_pc]. rewrite El, !len_app. change (len [i]) with 1. destruct full; lia.
  - eexists _, _. split; [done|]. rewrite new_frames_none, app_nil_r by done. split.
    + exists Dr, bs, qin, qsv, c0. split; [exact I|]. split; [done|]. split; [done|]. split; [exact Hloc|]. split; [|reflexivity].
      cbn. intros Eeof. rewrite Eeof, andb_true_r in Ego. rewrite Ego, Eeof in Hr. cbn in Hr. apply negb_true_iff in Hr. by eapply not_done.
    + cbn. lia.
Qed.

(** A state that differs in the place only. *)
Lemma put_inv_go s srv G k n pc k' :
  put_inv (mkSys s srv G k) n ->
  (forall bs : list (Z * req_data), match p_pc s with PCheck => p_eof s = false -> bs <> [] | PRecv => bs <> [] | _ => True end -> (xfer_done (p_x s) = true <-> bs = []) ->
    match pc with PCheck => p_eof s = false -> bs <> [] | PRecv => bs <> [] | _ => True end) ->
  put_inv (mkSys (p_go s pc) srv G k') (n + 3 * (Z.of_nat k' - Z.of_nat k) + pcw (p_go s pc) - pcw s).
Proof using Type.
  intros (Dr&bs&qin&qsv&c0&I&He&Hc0&Hloc&Hpc&->) Hgo. cbn [ps_s ps_srv ps_file ps_idle] in *. exists Dr, bs, qin, qsv, c0.
  split; [exact I|]. split; [done|]. split; [done|]. split; [exact Hloc|]. split; [|cbn [ps_s ps_idle p_eof p_go]; lia].
  apply Hgo; [done|]. by eapply done_iff.
Qed.

Lemma pcw_bounds s : 0 <= pcw s <= 3.
Proof using Type. unfold pcw. destruct (p_pc s), (put_more s); lia. Qed.

Lemma put_more_false s : p_err s = false -> put_more s = negb (p_eof s) || negb (xfer_done (p_x s)).
Proof using Type. unfold put_more. by intros ->. Qed.

Lemma put_recv_step tick s srv G k n :
  put_inv (mkSys s srv G k) n -> p_pc s = PRecv -> input (w_st (p_w s)) <> [] ->
  exists s' n', put_recv tick s = Some s' /\ put_inv (mkSys s' srv G k) n' /\ n' < n.
Proof using Type.
  intros (Dr&bs&qin&qsv&c0&I&He&Hc0&Hloc&_&->) Hpc Hin. cbn [ps_s ps_srv ps_file ps_idle] in *.
  destruct qin as [|[i [msg lang]] qin]; [by rewrite (wi_input _ _ _ _ _ _ _ _ I) in Hin|].
  destruct (ack_spec tick _ _ _ _ _ _ _ _ _ _ _ I) as (pktin&rest&w'&x'&bs'&E1&E2&I'&_).
  unfold put_recv. rewrite E1. cbn iota. rewrite E2. cbn [mbind option_bind]. change (1 <=? 0) with false. cbn [andb].
  eexists _, _. split; [done|]. change (((i, (msg, lang)) :: qin).*1 ++ qsv) with (i :: (qin.*1 ++ qsv)) in *. rewrite len_cons in *. split.
  - exists Dr, bs', qin, qsv, c0. split; [exact I'|]. split; [done|]. split; [done|]. split; [|split; [done|reflexivity]].
    unfold local_inv in *. cbn [ps_s p_eof p_l p_f]. destruct (p_eof s); [done|]. destruct Hloc as (rst&H1&H2&H3). exists rst. split_and!; try done. lia.
  - match goal with |- context [pcw ?s'] => pose proof (pcw_bounds s') end. unfold pcw at 2. rewrite Hpc. cbn [ps_s ps_idle p_eof] in *. lia.
Qed.

Lemma put_serve_step s srv1 bytes srv2 G k n id off d msg lang :
  put_inv (mkSys s (srv1 ++ bytes :: srv2) G k) n -> write_request fh bytes = Some (id, off, d) ->
  bytes_ok msg -> bytes_ok lang -> len msg + len lang <= 65536 ->
  put_inv (mkSys (put_deliver s (ok_frame id msg lang)) (srv1 ++ srv2) (write_at G off d) k) (n - 1).
Proof using HD Hsize Hstart Hfh.
  intros (Dr&bs&qin&qsv&c0&I&He&Hc0&Hloc&Hpc&->) Hreq Hm Hg Hl. cbn [ps_s ps_srv ps_file ps_idle] in *.
  destruct (local_prefix _ _ _ _ Hloc) as [HDr Hsz].
  destruct (wserve_spec _ _ _ _ _ _ _ _ _ _ _ _ _ _ _ I HDr Hsz Hreq Hm Hg Hl) as (qin'&qsv'&I'&El).
  exists Dr, bs, qin', qsv', c0. split; [exact I'|]. split; [done|]. split; [done|]. split; [by rewrite El|]. split; [exact Hpc|].
  assert (len qsv = len qsv' + 1) as Eq.
  { pose proof (f_equal len (wi_srv _ _ _ _ _ _ _ _ I)) as H1. pose proof (f_equal len (wi_srv _ _ _ _ _ _ _ _ I')) as H2.
    rewrite len_fmap, len_app in H1, H2. rewrite len_cons in H1. lia. }
  cbn [ps_s ps_idle p_eof put_deliver]. rewrite El, Eq. change (pcw (put_deliver s (ok_frame id msg lang))) with (pcw s). lia.
Qed.

Lemma put_step_inv c c' n : put_inv c n -> put_step fh c c' -> exists n', put_inv c' n' /\ n' < n.
Proof using HD Hsize Hstart Hfh HN.
  intros Hi Hs. destruct Hs as [s srv G k Hpc Hm|ready full s s' srv G k Hpc Hr E|cb full s s' srv G k Hpc Hd E Hw|s srv G k Hpc He Hw
    |s srv G k Hpc|tick s s' srv G k Hpc Hin E|s srv1 bytes srv2 G k id off d msg lang Hreq Hm Hg Hl].
  - eexists. split; [apply (put_inv_go s srv G k n PInner k Hi); intros; exact Logic.I|]. unfold pcw. rewrite Hpc, Hm. cbn. lia.
  - destruct (put_inner_step ready full s srv G k n Hi Hpc Hr) as (s1&n'&E1&Hi'&Hn). rewrite E in E1. injection E1 as <-. eauto.
  - unfold put_inner in E. cbn [andb] in E. injection E as <-. eexists.
    split; [apply (put_inv_go s srv G (S k) n PTop k Hi); intros; exact Logic.I|].
    unfold pcw at 2. rewrite Hpc. pose proof (pcw_bounds (p_go s PTop)). lia.
  - eexists. split; [apply (put_inv_go s srv G (S k) n PTop k Hi); intros; exact Logic.I|].
    unfold pcw at 2. rewrite Hpc. pose proof (pcw_bounds (p_go s PTop)). lia.
  - pose proof Hi as (Dr&bs&qin&qsv&c0&I&He&_&_&Hbs&_). cbn [ps_s ps_srv ps_file] in *. rewrite Hpc in Hbs.
    pose proof (done_iff _ _ _ _ _ _ _ _ I) as Hdi. unfold put_waits. cbn [andb negb].
    destruct (xfer_done (p_x s)) eqn:Hd; cbn [negb]; eexists.
    + split; [apply (put_inv_go s srv G k n PTop k Hi); intros; exact Logic.I|]. unfold pcw. rewrite Hpc. cbn [p_pc p_go].
      rewrite put_more_false by done. cbn [p_eof p_x p_go]. rewrite Hd. destruct (p_eof s) eqn:Ee; cbn [negb orb]; [lia|].
      exfalso. apply (Hbs eq_refl). by apply Hdi.
    + split; [apply (put_inv_go s srv G k n PRecv k Hi)|unfold pcw; rewrite Hpc; cbn; lia]. intros bs' _ Hbs' ->. rewrite Hd in Hbs'. by destruct Hbs' as [_ Hbs']; discriminate Hbs'.
  - destruct (put_recv_step tick s srv G k n Hi Hpc Hin) as (s1&n'&E1&Hi'&Hn). rewrite E in E1. injection E1 as <-. eauto.
  - exists (n - 1). split; [by apply (put_serve_step s srv1 bytes srv2 G k n id off d msg lang)|lia].
Qed.

Lemma put_inv_nonneg c n : put_inv c n -> 0 <= n.
Proof using Type.
  intros (Dr&bs&qin&qsv&c0&_&_&Hc0&_&_&->). pose proof (len_nonneg (qin.*1 ++ qsv)). pose proof (len_nonneg qsv). pose proof (pcw_bounds (ps_s c)).
  destruct (p_eof (ps_s c)); lia.
Qed.

Lemma put_terminates c n : put_inv c n -> sn (put_step fh) c.
Proof using HD Hsize Hstart Hfh HN.
  remember (Z.to_nat n) as m eqn:Em. revert c n Em. induction m as [m IH] using lt_wf_ind. intros c n -> Hi.
  constructor. intros c' Hs. destruct (put_step_inv c c' n Hi Hs) as (n'&Hi'&Hn). pose proof (put_inv_nonneg c' n' Hi').
  apply (IH (Z.to_nat n') ltac:(lia) c' n' eq_refl Hi').
Qed.

Lemma put_inv_reach c c' n : put_inv c n -> rtc (put_step fh) c c' -> exists n', put_inv c' n'.
Proof using HD Hsize Hstart Hfh HN.
  intros Hi H. revert n Hi. induction H as [c|c c1 c2 Hs _ IH]; intros n Hi; [eauto|]. destruct (put_step_inv c c1 n Hi Hs) as (n1&Hi1&_). by apply (IH n1).
Qed.

Lemma put_progress c n : put_inv c n -> nf (put_step fh) c -> p_pc (ps_s c) = PTop /\ put_more (ps_s c) = false.
Proof using HD Hsize Hstart Hfh HN.
  destruct c as [s srv G k]. intros Hi Hnf. cbn [ps_s]. destruct (p_pc s) eqn:Hpc.
  - split; [done|]. destruct (put_more s) eqn:Hm; [|done]. exfalso. apply Hnf. eexists. by apply pstep_top.
  - exfalso. apply Hnf. destruct (put_inner_step true false s srv G k n Hi Hpc eq_refl) as (s'&n'&E&_). eexists. by eapply (pstep_inner fh true false).
  - exfalso. apply Hnf. eexists. by apply pstep_check.
  - exfalso. apply Hnf. pose proof Hi as (Dr&bs&qin&qsv&c0&I&_&_&Hloc&Hbs&_). cbn [ps_s ps_srv ps_file] in *. rewrite Hpc in Hbs.
    destruct (local_prefix _ _ _ _ Hloc) as [HDr Hsz]. destruct qin as [|[i [msg lang]] qin].
    + pose proof (wi_blocks _ _ _ _ _ _ _ _ I) as Hp. destruct qsv as [|i qsv].
      { exfalso. apply Hbs. by apply Permutation_nil_l in Hp. }
      destruct (witem_ok _ _ _ _ _ _ _ _ i I ltac:(by left) HDr Hsz) as (Hid&Hoff&Hd&Hdl).
      rewrite (wi_srv _ _ _ _ _ _ _ _ I). eexists. apply (pstep_serve fh s [] (wi_frame i) _ G k (r_id (wi_req i)) (wi_off i) (wi_data i) [] []); try done.
      apply write_request_frame; done || lia.
    + assert (input (w_st (p_w s)) <> []) as Hin.
      { rewrite (wi_input _ _ _ _ _ _ _ _ I), bind_cons. unfold ok_frame, frame. by destruct (be_split 4 _) eqn:E. }
      destruct (put_recv_step false s srv G k n Hi Hpc Hin) as (s'&n'&E&_). eexists. by apply (pstep_recv fh false).
Qed.

Lemma put_finish_spec c n :
  put_inv c n -> put_more (ps_s c) = false ->
  exists w, put_finish (ps_s c) = Some (w, 1) /\ ps_file c = write_at G0 start D /\ w_reqs w = ∅ /\ pending (w_st w) = []
    /\ foldr Z.add 0 (w_reports w) = len D.
Proof using Type.
  intros (Dr&bs&qin&qsv&c0&I&He&_&Hloc&_) Hm. rewrite put_more_false in Hm by done. apply orb_false_iff in Hm as [Heof Hd].
  apply negb_false_iff in Heof, Hd. unfold local_inv in Hloc. rewrite Heof in Hloc. subst Dr.
  apply (done_iff _ _ _ _ _ _ _ _ I) in Hd. subst bs.
  destruct I as [(Hl&_&Hdom) In Io (It&Iv) Ifx Ibl (Hok&Hp&_) Iin Ians Isv Ip If]. destruct Hl as [Eh _].
  assert (qin.*1 ++ qsv = []) as Eq by (symmetry in Ibl; apply Permutation_nil_l in Ibl; symmetry in Ibl; by apply fmap_nil_inv in Ibl).
  rewrite Eq in Hp. cbn in Hp. apply app_nil in Eq as [_ ->].
  unfold put_finish, xfer_cleanup. rewrite Eh, He.
  assert (forall k m, cleanup_loop k m None = Some m) as Hcl by (by intros []). rewrite Hcl. cbn [mbind option_bind].
  eexists. split; [done|]. split; [apply map_eq; intros k; by apply If, Forall_nil|].
  change (block_sum []) with 0 in It.
  assert (w_reqs (p_w (ps_s c)) = ∅) as Em.
  { apply map_empty. intros a. destruct (w_reqs (p_w (ps_s c)) !! a) as [r|] eqn:En; [|done].
    assert (a ∈ (@nil (Z * req_data)).*1) as Ha by (apply Hdom; eauto). by apply elem_of_nil in Ha. }
  destruct (Z.ltb_spec 0 (x_sent_interval (p_x (ps_s c)))); cbn; rewrite ?reports_snoc; split_and!; try done; try lia.
  all: by apply Permutation_nil_r in Hp || (symmetry in Hp; by apply Permutation_nil_l in Hp).
Qed.

Lemma put_inv_start w bufs k :
  outstanding (w_st w) [] -> input (w_st w) = [] -> w_reqs w = ∅ -> w_reports w = [] ->
  D = concat bufs -> Forall (fun d => d <> []) bufs -> foldr (fun d s => chunk PUT_BUFFER (len d) + s) 0 bufs <= N ->
  exists n, put_inv (mkSys (put_start w fh start ((RBuf <$> bufs) ++ [REof]) open_rfile) [] G0 k) n.
Proof using HD.
  intros Hout Hin Hm Hrep ED Hne HNc. set (c0 := foldr (fun d s => chunk PUT_BUFFER (len d) + s) 0 bufs) in *.
  assert (rfile_ok PUT_BUFFER ((RBuf <$> bufs) ++ [REof]) open_rfile D c0) as Hrf.
  { split; [done|]. split; [exact HD|]. exists bufs. split_and!; try done. }
  eexists. exists [], [], [], [], c0. split; [|split_and!; try done].
  - constructor; try done.
    + cbn. rewrite Hm. apply listed_empty.
    + cbn. change (len (@nil Z)) with 0. lia.
    + cbn. by rewrite Hrep.
  - by apply (rfile_chunks PUT_BUFFER _ _ _ _ ltac:(done) Hrf).
  - exists D. split_and!; try done.
Qed.
End Upload.

(** C2. Uploading delivers the file.  Whatever the engine's buffers, whatever the order in which the server
    carries out the outstanding writes and answers them, and however the connection
    holds the client up (finitely often), the loop of [sftp_put_file] ends, and then every
    request has been answered, the server's file is the old one with the local file
    written at the starting offset, the function reports success, no [struct req] is
    left in memory, and the progress reports add up to the size of the local file.  The number of
    requests must fit the 31 bits of the request table. *)
Theorem sftp_upload_correct bufs fh start G0 w k :
  bytes_ok (concat bufs) -> Forall (fun d => d <> []) bufs -> 0 <= start -> start + len (concat bufs) < 2 ^ 64 ->
  foldr (fun d s => chunk PUT_BUFFER (len d) + s) 0 bufs < 2 ^ 31 -> bytes_ok fh /\ len fh <= 256 ->
  sess_ok (w_st w) -> pending (w_st w) = [] -> input (w_st w) = [] -> w_reqs w = ∅ -> w_reports w = [] ->
  let c0 := mkSys (put_start w fh start ((RBuf <$> bufs) ++ [REof]) open_rfile) [] G0 k in
  sn (put_step fh) c0 /\
  forall c, rtc (put_step fh) c0 c -> nf (put_step fh) c ->
    p_pc (ps_s c) = PTop /\ put_more (ps_s c) = false /\
    exists w', put_finish (ps_s c) = Some (w', 1) /\ ps_file c = write_at G0 start (concat bufs) /\ w_reqs w' = ∅ /\ pending (w_st w') = []
      /\ foldr Z.add 0 (w_reports w') = len (concat bufs).
Proof.
  intros HD Hne Hst Hsz HN Hfh Hok Hp Hin Hm Hrep c0.
  assert (outstanding (w_st w) []) as Hout by (split; [done|]; rewrite Hp; split; [done|by apply Forall_nil]).
  destruct (put_inv_start (concat bufs) fh start G0 HD _ w bufs k Hout Hin Hm Hrep eq_refl Hne (Z.le_refl _)) as [n Hi].
  split; [exact (put_terminates _ fh start G0 HD Hst Hsz Hfh _ HN _ _ Hi)|].
  intros c Hr Hnf. destruct (put_inv_reach _ fh start G0 HD Hst Hsz Hfh _ HN _ _ _ Hi Hr) as [n' Hi'].
  destruct (put_progress _ fh start G0 HD Hst Hsz Hfh _ HN _ _ Hi' Hnf) as [Hpc Hmore]. split; [done|]. split; [done|].
  exact (put_finish_spec _ fh start G0 _ _ _ Hi' Hmore).
Qed.

(** Two buffers appended to a file of one byte. *)
Lemma sftp_upload_correct_witness :
  let w := mkWorld (session_init []) ∅ 0 [] in let G0 := {[0 := 9]} : gmap Z Z in
  let c0 := mkSys (put_start w [7] 1 [RBuf [1; 2]; RBuf [3]; REof] open_rfile) [] G0 3 in
  sn (put_step [7]) c0 /\
  forall c, rtc (put_step [7]) c0 c -> nf (put_step [7]) c ->
    p_pc (ps_s c) = PTop /\ put_more (ps_s c) = false /\
    exists w', put_finish (ps_s c) = Some (w', 1) /\ ps_file c = write_at G0 1 [1; 2; 3] /\ w_reqs w' = ∅ /\ pending (w_st w') = []
      /\ foldr Z.add 0 (w_reports w') = 3.
Proof.
  intros w G0. apply (sftp_upload_correct [[1; 2]; [3]] [7] 1 G0 w 3); try done.
  - repeat (apply Forall_cons; split; [split; lia|]). by apply Forall_nil.
  - repeat (apply Forall_cons; split; [done|]). by apply Forall_nil.
  - split; [|done]. apply Forall_cons. split; [split; lia|by apply Forall_nil].
  - apply sess_ok_init.
Defined.
