(* ===== verification/ZlibHuff.v ===== *)
(** * Huffman coding in zlib (sshzlib.c)

    The tables of the deflate format, the construction of decoding tables from code
    lengths, and the lookup in them.  A code is stored with its bits mirrored: the first bit
    of the stream is the lowest.  A table is indexed by the next few bits; an entry gives
    a symbol and the number of bits of its code, or a table for the bits after these.

    A stream of bits is a list of booleans. *)

From S2P Require Import Prelude.
Open Scope Z_scope.
Open Scope word_scope.

(** ** Tables of the format *)

Definition mirrorbytes : list Z :=
  [0; 128; 64; 192; 32; 160; 96; 224; 16; 144; 80; 208; 48; 176; 112; 240;
   8; 136; 72; 200; 40; 168; 104; 232; 24; 152; 88; 216; 56; 184; 120; 248;
   4; 132; 68; 196; 36; 164; 100; 228; 20; 148; 84; 212; 52; 180; 116; 244;
   12; 140; 76; 204; 44; 172; 108; 236; 28; 156; 92; 220; 60; 188; 124; 252;
   2; 130; 66; 194; 34; 162; 98; 226; 18; 146; 82; 210; 50; 178; 114; 242;
   10; 138; 74; 202; 42; 170; 106; 234; 26; 154; 90; 218; 58; 186; 122; 250;
   6; 134; 70; 198; 38; 166; 102; 230; 22; 150; 86; 214; 54; 182; 118; 246;
   14; 142; 78; 206; 46; 174; 110; 238; 30; 158; 94; 222; 62; 190; 126; 254;
   1; 129; 65; 193; 33; 161; 97; 225; 17; 145; 81; 209; 49; 177; 113; 241;
   9; 137; 73; 201; 41; 169; 105; 233; 25; 153; 89; 217; 57; 185; 121; 249;
   5; 133; 69; 197; 37; 165; 101; 229; 21; 149; 85; 213; 53; 181; 117; 245;
   13; 141; 77; 205; 45; 173; 109; 237; 29; 157; 93; 221; 61; 189; 125; 253;
   3; 131; 67; 195; 35; 163; 99; 227; 19; 147; 83; 211; 51; 179; 115; 243;
   11; 139; 75; 203; 43; 171; 107; 235; 27; 155; 91; 219; 59; 187; 123; 251;
   7; 135; 71; 199; 39; 167; 103; 231; 23; 151; 87; 215; 55; 183; 119; 247;
   15; 143; 79; 207; 47; 175; 111; 239; 31; 159; 95; 223; 63; 191; 127; 255].

Record coderecord := mkRec { cr_code : Z; cr_extrabits : Z; cr_min : Z; cr_max : Z }.

Definition lencodes : list coderecord :=
  [mkRec 257 0 3 3; mkRec 258 0 4 4; mkRec 259 0 5 5; mkRec 260 0 6 6;
   mkRec 261 0 7 7; mkRec 262 0 8 8; mkRec 263 0 9 9; mkRec 264 0 10 10;
   mkRec 265 1 11 12; mkRec 266 1 13 14; mkRec 267 1 15 16; mkRec 268 1 17 18;
   mkRec 269 2 19 22; mkRec 270 2 23 26; mkRec 271 2 27 30; mkRec 272 2 31 34;
   mkRec 273 3 35 42; mkRec 274 3 43 50; mkRec 275 3 51 58; mkRec 276 3 59 66;
   mkRec 277 4 67 82; mkRec 278 4 83 98; mkRec 279 4 99 114; mkRec 280 4 115 130;
   mkRec 281 5 131 162; mkRec 282 5 163 194; mkRec 283 5 195 226; mkRec 284 5 227 257;
   mkRec 285 0 258 258].

Definition distcodes : list coderecord :=
  [mkRec 0 0 1 1; mkRec 1 0 2 2; mkRec 2 0 3 3; mkRec 3 0 4 4;
   mkRec 4 1 5 6; mkRec 5 1 7 8; mkRec 6 2 9 12; mkRec 7 2 13 16;
   mkRec 8 3 17 24; mkRec 9 3 25 32; mkRec 10 4 33 48; mkRec 11 4 49 64;
   mkRec 12 5 65 96; mkRec 13 5 97 128; mkRec 14 6 129 192; mkRec 15 6 193 256;
   mkRec 16 7 257 384; mkRec 17 7 385 512; mkRec 18 8 513 768; mkRec 19 8 769 1024;
   mkRec 20 9 1025 1536; mkRec 21 9 1537 2048; mkRec 22 10 2049 3072; mkRec 23 10 3073 4096;
   mkRec 24 11 4097 6144; mkRec 25 11 6145 8192; mkRec 26 12 8193 12288; mkRec 27 12 12289 16384;
   mkRec 28 13 16385 24576; mkRec 29 13 24577 32768].

(** ** Decoding tables *)

(** [nbits], [code] and [nexttable] of an entry. *)
Inductive zlib_table := ZTable (mask : Z) (table : list (Z * Z * option zlib_table)).

Definition MAXCODELEN : Z := 16.
Definition MAXSYMS : Z := 288.

(** [for (j = code; j <= mask; j += 1 << (lengths[i] - pfxbits))] *)
Fixpoint set_entries (fuel : nat) (tab : list (Z * Z)) (j mask step i nbits : Z) : option (list (Z * Z)) :=
  if j <=? mask then
    match fuel with
    | O => None
    | S fuel =>
        '(nb, _) ← tab !! Z.to_nat j;
        set_entries fuel (<[Z.to_nat j := (if nb <? nbits then nbits else nb, i)]> tab) (j + step) mask step i nbits
    end
  else Some tab.

(** [for (i = 0; i < nsyms; i++)], with the codes and lengths from [i] on. *)
Fixpoint add_symbols (codes lengths : list Z) (i pfx pfxbits mask : Z) (tab : list (Z * Z)) : option (list (Z * Z)) :=
  match codes, lengths with
  | c :: codes, l :: lengths =>
      tab ← (if (l <=? pfxbits) || negb (Z.land c ((1 << pfxbits) - 1) =? pfx) then Some tab
             else set_entries (Z.to_nat (mask + 1)) tab (Z.land (c >> pfxbits) mask) mask (1 << (l - pfxbits)) i (l - pfxbits));
      add_symbols codes lengths (i + 1) pfx pfxbits mask tab
  | _, _ => Some tab
  end.

(** The entries of a table and the subtables for long codes. *)
Fixpoint zlib_mkonetab (fuel : nat) (codes lengths : list Z) (pfx pfxbits bits : Z) : option zlib_table :=
  match fuel with
  | O => None
  | S fuel =>
      let mask := (1 << bits) - 1 in
      tab ← add_symbols codes lengths 0 pfx pfxbits mask (replicate (Z.to_nat (1 << bits)) (0, -1));
      entries ← mapM (fun '(code, (nbits, sym)) =>
                        if nbits <=? bits then Some (nbits, sym, None)
                        else
                          let n := if 7 <? nbits - bits then 7 else nbits - bits in
                          sub ← zlib_mkonetab fuel codes lengths (Z.lor pfx (code << pfxbits)) (pfxbits + bits) n;
                          Some (bits, -1, Some sub))
                     (zip (Z.of_nat <$> seq 0 (length tab)) tab);
      Some (ZTable mask entries)
  end.

(** The codes of each length are counted; [count[0]] is never used. *)
Fixpoint count_lengths (lengths : list Z) (count : list Z) : option (list Z) :=
  match lengths with
  | [] => Some count
  | l :: lengths => n ← count !! Z.to_nat l; count_lengths lengths (<[Z.to_nat l := n + 1]> count)
  end.

Definition max_length (lengths : list Z) : Z := foldl (fun maxlen l => if maxlen <? l then l else maxlen) 0 lengths.

(** The first code of each length, from length 1 on. *)
Fixpoint start_codes (count : list Z) (code : Z) : list Z :=
  match count with
  | [] => []
  | n :: count => code :: start_codes count ((code + n) << 1)
  end.

(** The [l] low bits of [code], the lowest one first. *)
Fixpoint mirror_loop (l : nat) (acc code : Z) : Z :=
  match l with
  | O => acc
  | S l => mirror_loop l (Z.lor (acc << 1) (Z.land code 1)) (code >> 1)
  end.

Fixpoint assign_codes (lengths startcode : list Z) : option (list Z) :=
  match lengths with
  | [] => Some []
  | l :: lengths =>
      code ← startcode !! Z.to_nat l;
      rest ← assign_codes lengths (<[Z.to_nat l := code + 1]> startcode);
      Some (mirror_loop (Z.to_nat l) 0 code :: rest)
  end.

(** The codes go into an array of [MAXSYMS] elements. *)
Definition zlib_codes (lengths : list Z) : option (list Z) :=
  assert! len lengths <=? MAXSYMS;
  count ← count_lengths lengths (replicate (Z.to_nat MAXCODELEN) 0);
  assign_codes lengths (0 :: start_codes (drop 1 count) 0).

Definition zlib_mktable (lengths : list Z) : option zlib_table :=
  codes ← zlib_codes lengths;
  let maxlen := max_length lengths in
  zlib_mkonetab (Z.to_nat MAXCODELEN) codes lengths 0 0 (if maxlen <? 9 then maxlen else 9).

(** The symbol ([-1]: more bits are needed, [-2]: no such code) and what is left of the bits. *)
Fixpoint huflookup_loop (fuel : nat) (bits nbits : Z) (tab : zlib_table) : option (option (Z * Z) * Z) :=
  match fuel with
  | O => None
  | S fuel =>
      let '(ZTable mask table) := tab in
      '(enb, code, next) ← table !! Z.to_nat (Z.land bits mask);
      if nbits <? enb then Some (None, -1)
      else
        let bits := bits >> enb in
        let nbits := nbits - enb in
        if code =? -1 then
          match next with
          | None => Some (None, -2)
          | Some tab => huflookup_loop fuel bits nbits tab
          end
        else Some (Some (bits, nbits), code)
  end.

Definition zlib_huflookup (bits nbits : Z) (tab : zlib_table) : option (Z * Z * Z) :=
  '(rest, code) ← huflookup_loop (Z.to_nat MAXCODELEN) bits nbits tab;
  let '(bits, nbits) := default (bits, nbits) rest in
  Some (bits, nbits, code).

(** The static trees: what [zlib_decompress_init] fills [lengths] with. *)
Definition static_lengths : list Z := replicate 144 8 ++ replicate 112 9 ++ replicate 24 7 ++ replicate 8 8.
Definition static_dist_lengths : list Z := replicate 32 5.

Example zlib_tables_examples :
  zlib_codes [2; 1; 3; 3] = Some [1; 0; 3; 7]
  /\ (tab ← zlib_mktable [2; 1; 3; 3]; zlib_huflookup 11 4 tab) = Some (1, 1, 2)
  /\ (tab ← zlib_mktable [2; 1; 3; 3]; zlib_huflookup 3 2 tab) = Some (3, 2, -1)
  /\ (tab ← zlib_mktable [1; 2]; zlib_huflookup 3 2 tab) = Some (3, 2, -2).
Proof. repeat split; reflexivity. Qed.

(** ** Bits *)

(** The [n] low bits of [v], the lowest first. *)
Fixpoint bits_of (n : nat) (v : Z) : list bool :=
  match n with
  | O => []
  | S n => Z.odd v :: bits_of n (Z.div2 v)
  end.

Fixpoint bits_val (l : list bool) : Z :=
  match l with
  | [] => 0
  | b :: l => Z.b2z b + 2 * bits_val l
  end.

Lemma length_bits_of n v : length (bits_of n v) = n.
Proof. revert v. induction n; intros v; cbn; [done|]. by rewrite IHn. Qed.

Lemma bits_val_bound l : 0 <= bits_val l < 2 ^ len l.
Proof.
  induction l as [|b l IH]; [done|]. rewrite len_cons, Z.pow_add_r by (pose proof (len_nonneg l); lia). cbn [bits_val].
  destruct b; cbn [Z.b2z]; lia.
Qed.

Lemma bits_of_val l : bits_of (length l) (bits_val l) = l.
Proof.
  induction l as [|b l IH]; [done|]. cbn [length bits_of bits_val].
  assert (Z.odd (Z.b2z b + 2 * bits_val l) = b) as -> by (rewrite Z.odd_add, Z.odd_mul; by destruct b).
  assert (Z.div2 (Z.b2z b + 2 * bits_val l) = bits_val l) as ->; [|by rewrite IH].
  rewrite Z.div2_div, Z.mul_comm, Z.div_add by lia. by destruct b.
Qed.

Lemma bits_val_of n v : bits_val (bits_of n v) = v mod 2 ^ Z.of_nat n.
Proof.
  revert v. induction n as [|n IH]; intros v; [by rewrite Z.mod_1_r|]. cbn [bits_of bits_val]. rewrite IH, Z.div2_div.
  rewrite Nat2Z.inj_succ, Z.pow_succ_r by lia. rewrite Z.rem_mul_r by lia. rewrite Zmod_odd. by destruct (Z.odd v).
Qed.

Lemma bits_of_shiftr n m v : bits_of (n + m) v = bits_of n v ++ bits_of m (v >> Z.of_nat n).
Proof.
  revert v. induction n as [|n IH]; intros v; [done|]. cbn [Nat.add bits_of app]. rewrite IH. do 3 f_equal.
  rewrite Z.div2_spec, Z.shiftr_shiftr by lia. f_equal. lia.
Qed.

Lemma bits_of_mod n v : bits_of n (v mod 2 ^ Z.of_nat n) = bits_of n v.
Proof. rewrite <- bits_val_of. rewrite <- (length_bits_of n v) at 1. apply bits_of_val. Qed.

Lemma bits_of_inj n v w : 0 <= v < 2 ^ Z.of_nat n -> 0 <= w < 2 ^ Z.of_nat n -> bits_of n v = bits_of n w -> v = w.
Proof. intros Hv Hw E. apply (f_equal bits_val) in E. rewrite !bits_val_of in E. by rewrite !Z.mod_small in E. Qed.

(** Appending bits to an accumulator. *)
Lemma bits_of_lor n m a b : 0 <= a < 2 ^ Z.of_nat n -> bits_of (n + m) (a .| (b << Z.of_nat n)) = bits_of n a ++ bits_of m b.
Proof.
  intros Ha. rewrite bits_of_shiftr. f_equal.
  - rewrite <- bits_of_mod. f_equal. rewrite <- Z.land_ones by lia. apply Z.bits_inj'. intros i Hi.
    rewrite Z.land_spec, Z.lor_spec. destruct (Z.lt_ge_cases i (Z.of_nat n)).
    + rewrite Z.ones_spec_low, Z.shiftl_spec_low, orb_false_r, andb_true_r by lia. done.
    + rewrite Z.ones_spec_high, andb_false_r by lia. symmetry. destruct (Z.eq_dec a 0) as [->|]; [apply Z.bits_0|].
      apply Z.bits_above_log2; [lia|]. apply Z.log2_lt_pow2; [lia|]. eapply Z.lt_le_trans; [apply Ha|]. apply Z.pow_le_mono_r; lia.
  - f_equal. rewrite Z.shiftr_lor, Z.shiftr_shiftl_l, Z.sub_diag, Z.shiftl_0_r by lia.
    rewrite Z.shiftr_div_pow2, Z.div_small by lia. apply Z.lor_0_l.
Qed.

(** The bits of a sequence of bytes. *)
Definition bytes_bits (l : list Z) : list bool := l ≫= bits_of 8.

Lemma bytes_bits_app l k : bytes_bits (l ++ k) = bytes_bits l ++ bytes_bits k.
Proof. apply bind_app. Qed.

Lemma bytes_bits_cons b l : bytes_bits (b :: l) = bits_of 8 b ++ bytes_bits l.
Proof. done. Qed.

Lemma len_bytes_bits l : len (bytes_bits l) = 8 * len l.
Proof. induction l as [|b l IH]; [done|]. rewrite bytes_bits_cons, len_app, len_cons, IH. unfold len at 1. rewrite length_bits_of. lia. Qed.

Lemma take_bits_of k n v : (k <= n)%nat -> take k (bits_of n v) = bits_of k v.
Proof.
  intros Hk. replace n with (k + (n - k))%nat by lia. rewrite bits_of_shiftr, take_app_le by (rewrite length_bits_of; lia).
  apply take_ge. by rewrite length_bits_of.
Qed.

(** ** Decoding a code word *)

(** [tab] decodes the code words of the symbols below [nsym]: a whole code word gives its
    symbol, a part of one asks for more bits. *)
Class Decodes (tab : zlib_table) (code : Z -> list bool) (nsym : Z) : Prop := {
  dec_full sym bits n rest :
    0 <= sym < nsym -> 0 <= n -> bits_of (Z.to_nat n) bits = code sym ++ rest ->
    zlib_huflookup bits n tab = Some (bits >> len (code sym), n - len (code sym), sym);
  dec_part sym bits n b q :
    0 <= sym < nsym -> 0 <= bits < 2 ^ n -> 0 <= n -> code sym = bits_of (Z.to_nat n) bits ++ b :: q ->
    zlib_huflookup bits n tab = Some (bits, n, -1)
}.

(** A table without subtables. *)
Section OneLevel.
Variables (B : nat) (t : list (Z * Z * option zlib_table)) (code : Z -> list bool) (nsym : Z).
Hypothesis Hlen : forall sym, 0 <= sym < nsym -> (length (code sym) <= B)%nat.
Hypothesis Hfull : forall sym r, 0 <= sym < nsym -> (length (code sym) + length r = B)%nat ->
  t !! Z.to_nat (bits_val (code sym ++ r)) = Some (len (code sym), sym, None).
Hypothesis Hcover : forall v, length v = B -> exists sym r, 0 <= sym < nsym /\ v = code sym ++ r.

Lemma index_bits bits : Z.land bits ((1 << Z.of_nat B) - 1) = bits_val (bits_of B bits).
Proof using Type. rewrite bits_val_of, Z.shiftl_1_l, <- Z.land_ones by lia. by rewrite Z.ones_equiv. Qed.

Lemma one_level_entry sym bits r :
  0 <= sym < nsym -> bits_of B bits = code sym ++ r ->
  t !! Z.to_nat (Z.land bits ((1 << Z.of_nat B) - 1)) = Some (len (code sym), sym, None).
Proof using Hfull.
  intros Hs E. rewrite index_bits, E. apply Hfull; [done|]. apply (f_equal length) in E. rewrite length_bits_of, length_app in E. lia.
Qed.

Lemma one_level_decodes : Decodes (ZTable ((1 << Z.of_nat B) - 1) t) code nsym.
Proof using Hlen Hfull Hcover.
  constructor.
  - intros sym bits n rest Hs Hn0 E. unfold zlib_huflookup. change (Z.to_nat MAXCODELEN) with 16%nat. cbn [huflookup_loop].
    assert (length (code sym) <= Z.to_nat n)%nat as Hn.
    { apply (f_equal length) in E. rewrite length_bits_of, length_app in E. lia. }
    rewrite (one_level_entry sym bits (bits_of (B - length (code sym)) (bits >> len (code sym)))).
    + cbn [mbind option_bind]. rewrite (proj2 (Z.ltb_ge n _)) by (unfold len; lia). rewrite (proj2 (Z.eqb_neq sym (-1))) by lia. done.
    + done.
    + specialize (Hlen sym Hs). replace B with (length (code sym) + (B - length (code sym)))%nat at 1 by lia. rewrite bits_of_shiftr. f_equal.
      rewrite <- (take_bits_of _ (Z.to_nat n)) by done. by rewrite E, take_app_length.
  - intros sym bits n b q Hs Hb Hn E. unfold zlib_huflookup. change (Z.to_nat MAXCODELEN) with 16%nat. cbn [huflookup_loop].
    specialize (Hlen sym Hs). assert (length (code sym) = Z.to_nat n + S (length q))%nat as El by (rewrite E, length_app, length_bits_of; done).
    destruct (Hcover (bits_of B bits)) as (s'&r&Hs'&E'); [apply length_bits_of|]. rewrite (one_level_entry s' bits r Hs' E'). cbn [mbind option_bind].
    destruct (Z.ltb_spec n (len (code s'))) as [|Hle]; [done|]. exfalso.
    (* the code word found would be a proper prefix of the one that is coming *)
    set (l' := length (code s')). assert (l' <= Z.to_nat n)%nat as Hl' by (unfold len in Hle; unfold l'; lia).
    assert (code s' = take l' (bits_of (Z.to_nat n) bits)) as Epre.
    { assert (l' <= B)%nat by lia. rewrite take_bits_of by done. rewrite <- (take_bits_of l' B) by lia. unfold l'. by rewrite E', take_app_length. }
    set (r1 := replicate (B - length (code sym)) false). set (r2 := drop l' (bits_of (Z.to_nat n) bits) ++ b :: q ++ r1).
    assert (code sym ++ r1 = code s' ++ r2) as Esame.
    { unfold r2. rewrite E, Epre, (app_assoc (take l' _)), take_drop, <- app_assoc. done. }
    pose proof (Hfull sym r1 Hs ltac:(unfold r1; rewrite length_replicate; lia)) as H1.
    pose proof (Hfull s' r2 Hs') as H2. rewrite Esame, H2 in H1.
    + injection H1 as Hlen' _. unfold len in *. lia.
    + apply (f_equal length) in Esame. rewrite !length_app in Esame. unfold r1 in Esame. rewrite length_replicate in Esame. lia.
Qed.
End OneLevel.

(** ** The static trees *)

(** The [l] bits of [c], the highest first. *)
Definition msb_bits (l : nat) (c : Z) : list bool := rev (bits_of l c).

(** The code words of RFC 1951, section 3.2.6. *)
Definition static_code (sym : Z) : list bool :=
  if sym <? 144 then msb_bits 8 (48 + sym)
  else if sym <? 256 then msb_bits 9 (400 + (sym - 144))
  else if sym <? 280 then msb_bits 7 (sym - 256)
  else msb_bits 8 (192 + (sym - 280)).
Definition static_dist_code (sym : Z) : list bool := msb_bits 5 sym.

Fixpoint all_bits (n : nat) : list (list bool) :=
  match n with
  | O => [[]]
  | S n => (cons false <$> all_bits n) ++ (cons true <$> all_bits n)
  end.

Lemma elem_of_all_bits l : l ∈ all_bits (length l).
Proof. induction l as [|b l IH]; [by left|]. cbn. apply elem_of_app. destruct b; [right|left]; by apply list_elem_of_fmap_2. Qed.

Definition beq_bits (a b : list bool) : bool := bool_decide (a = b).

(** Every code word with everything that may follow it, and every index. *)
Definition check_table (B : nat) (t : list (Z * Z * option zlib_table)) (code : Z -> list bool) (nsym : nat) : bool :=
  forallb (fun k => let sym := Z.of_nat k in let c := code sym in
    (length c <=? B)%nat &&
    forallb (fun r => match t !! Z.to_nat (bits_val (c ++ r)) with
                      | Some (nb, s, None) => (nb =? len c) && (s =? sym)
                      | _ => false
                      end) (all_bits (B - length c))) (seq 0 nsym)
  && forallb (fun v => match t !! Z.to_nat (bits_val v) with
                       | Some (nb, s, None) => (0 <=? s) && (s <? Z.of_nat nsym) && beq_bits (take (length (code s)) v) (code s)
                       | _ => false
                       end) (all_bits B).

Lemma check_table_decodes B t code nsym :
  check_table B t code nsym = true -> Decodes (ZTable ((1 << Z.of_nat B) - 1) t) code (Z.of_nat nsym).
Proof.
  intros [H1 H2]%andb_true_iff. rewrite forallb_forall in H1, H2.
  assert (forall sym, 0 <= sym < Z.of_nat nsym -> In (Z.to_nat sym) (seq 0 nsym)) as Hin by (intros sym Hs; apply in_seq; lia).
  apply one_level_decodes.
  - intros sym Hs. specialize (H1 _ (Hin sym Hs)). cbn beta zeta in H1. rewrite Z2Nat.id in H1 by lia. apply andb_true_iff in H1 as [H1 _]. by apply Nat.leb_le.
  - intros sym r Hs Hr. specialize (H1 _ (Hin sym Hs)). cbn beta zeta in H1. rewrite Z2Nat.id in H1 by lia. apply andb_true_iff in H1 as [_ H1].
    rewrite forallb_forall in H1. specialize (H1 r). rewrite <- Hr, Nat.add_comm, Nat.add_sub in H1.
    specialize (H1 ltac:(apply list_elem_of_In, elem_of_all_bits)). destruct (t !! _) as [[[nb s] [sub|]]|]; try done.
    apply andb_true_iff in H1 as [E1%Z.eqb_eq E2%Z.eqb_eq]. congruence.
  - intros v Hv. specialize (H2 v). rewrite <- Hv in H2. specialize (H2 ltac:(apply list_elem_of_In, elem_of_all_bits)).
    destruct (t !! _) as [[[nb s] [sub|]]|]; try done. apply andb_true_iff in H2 as [[E1%Z.leb_le E2%Z.ltb_lt]%andb_true_iff E3%bool_decide_eq_true].
    exists s, (drop (length (code s)) v). split; [lia|]. rewrite <- E3 at 1. by rewrite take_drop.
Qed.

Lemma static_table_check :
  match zlib_mktable static_lengths with
  | Some (ZTable m t) => (m =? (1 << 9) - 1) && check_table 9 t static_code 288
  | None => false
  end = true.
Proof. vm_compute. reflexivity. Qed.

Lemma static_dist_table_check :
  match zlib_mktable static_dist_lengths with
  | Some (ZTable m t) => (m =? (1 << 5) - 1) && check_table 5 t static_dist_code 32
  | None => false
  end = true.
Proof. vm_compute. reflexivity. Qed.

Lemma static_table : exists tab, zlib_mktable static_lengths = Some tab /\ Decodes tab static_code 288.
Proof.
  pose proof static_table_check as H. destruct (zlib_mktable static_lengths) as [[m t]|]; [|done].
  apply andb_true_iff in H as [->%Z.eqb_eq H]. eexists. split; [done|]. by apply (check_table_decodes 9 t static_code 288).
Qed.

Lemma static_dist_table : exists tab, zlib_mktable static_dist_lengths = Some tab /\ Decodes tab static_dist_code 32.
Proof.
  pose proof static_dist_table_check as H. destruct (zlib_mktable static_dist_lengths) as [[m t]|]; [|done].
  apply andb_true_iff in H as [->%Z.eqb_eq H]. eexists. split; [done|]. by apply (check_table_decodes 5 t static_dist_code 32).
Qed.

(** [mirrorbytes] reverses the bits of a byte. *)
Lemma mirrorbytes_rev v : 0 <= v < 256 -> exists m, mirrorbytes !! Z.to_nat v = Some m /\ 0 <= m < 256 /\ bits_of 8 m = rev (bits_of 8 v).
Proof.
  intros Hv.
  assert (forallb (fun k => match mirrorbytes !! k with
                            | Some m => (0 <=? m) && (m <? 256) && beq_bits (bits_of 8 m) (rev (bits_of 8 (Z.of_nat k)))
                            | None => false end) (seq 0 256) = true) as H by (vm_compute; reflexivity).
  rewrite forallb_forall in H. specialize (H (Z.to_nat v) ltac:(apply in_seq; lia)). cbn beta in H. rewrite Z2Nat.id in H by lia.
  destruct (mirrorbytes !! Z.to_nat v) as [m|]; [|done]. apply andb_true_iff in H as [[?%Z.leb_le ?%Z.ltb_lt]%andb_true_iff ?%bool_decide_eq_true].
  exists m. split_and!; done || lia.
Qed.

(** ** Tables for any code lengths

    Whatever lengths a stream describes, a table can be built, and a lookup in it ends. *)

(** A table for codes of at most [M] bits, with at most [depth] levels: an entry without a
    symbol or a table behind it takes no bits, one with a symbol takes some. *)
Fixpoint tab_ok (depth : nat) (M : Z) (tab : zlib_table) : Prop :=
  match depth with
  | O => False
  | S depth =>
      let '(ZTable mask t) := tab in
      exists b, 0 <= b /\ mask = 2 ^ b - 1 /\ len t = 2 ^ b /\
      Forall (fun '(nb, code, next) => 0 <= nb <= M /\
        match next with
        | None => code = -1 \/ 0 <= code /\ 1 <= nb
        | Some sub => code = -1 /\ 1 <= nb /\ tab_ok depth (M - nb) sub
        end) t
  end.

(** While the table is filled: [-1] and no bits, or a symbol and its bits. *)
Definition entry_ok (K : Z) (e : Z * Z) : Prop := e = (0, -1) \/ 0 <= e.2 /\ 1 <= e.1 <= K.

Lemma set_entries_total K fuel tab j mask step i nbits :
  Forall (entry_ok K) tab -> len tab = mask + 1 -> 0 <= j -> 1 <= step -> mask + 1 - j <= Z.of_nat fuel -> 0 <= i -> 1 <= nbits <= K ->
  exists tab', set_entries fuel tab j mask step i nbits = Some tab' /\ Forall (entry_ok K) tab' /\ len tab' = mask + 1.
Proof.
  intros Htab Hl Hj Hst Hf Hi Hn. revert tab j Htab Hl Hj Hf. induction fuel as [|fuel IH]; intros tab j Htab Hl Hj Hf; cbn [set_entries].
  all: destruct (Z.leb_spec j mask); [|by exists tab].
  { lia. }
  destruct (lookup_lt_is_Some_2 tab (Z.to_nat j)) as [[nb s] E]; [unfold len in Hl; lia|]. rewrite E. cbn [mbind option_bind].
  pose proof (Forall_lookup_1 _ _ _ _ Htab E) as He. apply IH; [|unfold len in *; by rewrite length_insert|lia|lia].
  apply Forall_insert; [done|]. right. cbn. split; [done|]. destruct (Z.ltb_spec nb nbits); [done|]. destruct He as [[= -> ->]|[_ He]]; [lia|done].
Qed.

Lemma add_symbols_total K cs ls i pfx pfxbits mask tab :
  0 <= pfxbits -> 0 <= mask -> Forall (fun l => l <= K + pfxbits) ls -> Forall (fun c => 0 <= c) cs -> 0 <= i -> Forall (entry_ok K) tab -> len tab = mask + 1 ->
  exists tab', add_symbols cs ls i pfx pfxbits mask tab = Some tab' /\ Forall (entry_ok K) tab' /\ len tab' = mask + 1.
Proof.
  intros Hp Hm. revert ls i tab. induction cs as [|c cs IH]; intros ls i tab Hls Hcs Hi Htab Hl; [by exists tab|].
  destruct ls as [|l ls]; [by exists tab|]. apply Forall_cons in Hls as [Hl1 Hls], Hcs as [Hc Hcs]. cbn [add_symbols].
  destruct (Z.leb_spec l pfxbits); cbn [orb]; [cbn [mbind option_bind]; apply IH; done || lia|].
  destruct (negb _); [cbn [mbind option_bind]; apply IH; done || lia|].
  destruct (set_entries_total K (Z.to_nat (mask + 1)) tab (Z.land (c >> pfxbits) mask) mask (1 << (l - pfxbits)) i (l - pfxbits)) as (tab'&->&Htab'&Hl');
    try done; try lia.
  - apply Z.land_nonneg. right. done.
  - rewrite Z.shiftl_1_l. pose proof (pow2_pos (l - pfxbits)). lia.
  - assert (0 <= Z.land (c >> pfxbits) mask) by (apply Z.land_nonneg; by right). lia.
  - cbn [mbind option_bind]. apply IH; done || lia.
Qed.

Lemma mapM_total {A B} (f : A -> option B) (P : B -> Prop) l :
  (forall x, x ∈ l -> exists y, f x = Some y /\ P y) -> exists k, mapM f l = Some k /\ Forall P k /\ length k = length l.
Proof.
  induction l as [|x l IH]; intros H; [exists []; split_and!; try done; by apply Forall_nil|].
  destruct (H x) as (y&Ey&Hy); [by left|]. destruct IH as (k&Ek&Hk&Hl); [intros z Hz; apply H; by right|].
  exists (y :: k). cbn. rewrite Ey. cbn. rewrite Ek. cbn. split_and!; [done|by apply Forall_cons|by rewrite Hl].
Qed.

Lemma mkonetab_total L fuel cs ls pfx pfxbits bits :
  0 <= pfxbits -> 0 <= bits -> (bits = 0 -> L <= pfxbits) -> Forall (fun l => l <= L) ls -> Forall (fun c => 0 <= c) cs ->
  pfxbits <= L -> L - pfxbits < Z.of_nat fuel -> exists tab, zlib_mkonetab fuel cs ls pfx pfxbits bits = Some tab /\ tab_ok fuel (L - pfxbits) tab.
Proof.
  revert pfx pfxbits bits. induction fuel as [|fuel IH]; intros pfx pfxbits bits Hp Hb H0 Hls Hcs HL Hf; [lia|]. cbn [zlib_mkonetab].
  rewrite Z.shiftl_1_l. pose proof (pow2_pos bits Hb).
  destruct (add_symbols_total (L - pfxbits) cs ls 0 pfx pfxbits (2 ^ bits - 1) (replicate (Z.to_nat (2 ^ bits)) (0, -1))) as (tab&->&Htab&Hl);
    [done|lia|eapply Forall_impl; [exact Hls|intros; cbn in *; lia]|done|done|apply Forall_replicate; by left|rewrite len_replicate; lia|].
  cbn [mbind option_bind].
  destruct (mapM_total (fun '(code, (nbits, sym)) => if nbits <=? bits then Some (nbits, sym, None) else
      sub ← zlib_mkonetab fuel cs ls (Z.lor pfx (code << pfxbits)) (pfxbits + bits) (if 7 <? nbits - bits then 7 else nbits - bits);
      Some (bits, -1, Some sub))
    (fun '(nb, code, next) => 0 <= nb <= L - pfxbits /\
        match next with
        | None => code = -1 \/ 0 <= code /\ 1 <= nb
        | Some sub => code = -1 /\ 1 <= nb /\ tab_ok fuel (L - pfxbits - nb) sub
        end) (zip (Z.of_nat <$> seq 0 (length tab)) tab)) as (es&->&Hes&Hle).
  - intros [code [nb sym]] Hin. apply list_elem_of_lookup in Hin as (k&Hk). apply lookup_zip_Some in Hk as [_ Hk].
    pose proof (Forall_lookup_1 _ _ _ _ Htab Hk) as He. destruct (Z.leb_spec nb bits) as [|Hgt].
    + eexists. split; [done|]. cbn in He. destruct He as [[= -> ->]|He]; cbn in *; [split; [lia|by left]|]. split; [lia|]. right. lia.
    + destruct He as [[= -> ->]|[_ He]]; [lia|]. cbn in He.
      destruct (IH (Z.lor pfx (code << pfxbits)) (pfxbits + bits) (if 7 <? nb - bits then 7 else nb - bits)) as (sub&->&Hsub); try done; try lia.
      { destruct (7 <? nb - bits); lia. } { destruct (Z.ltb_spec 7 (nb - bits)); lia. }
      cbn [mbind option_bind]. eexists. split; [done|]. assert (1 <= bits) by (destruct (Z.eq_dec bits 0); lia).
      cbn beta. split; [lia|]. replace (L - pfxbits - bits) with (L - (pfxbits + bits)) by lia. done.
  - cbn [mbind option_bind]. eexists. split; [done|]. cbn [tab_ok]. exists bits. split; [done|]. split; [done|]. split; [|done].
    unfold len in *. rewrite Hle, length_zip, length_fmap, length_seq. lia.
Qed.

Abbreviation code_length := (fun l : Z => 0 <= l < MAXCODELEN).

Lemma count_lengths_total ls count :
  Forall code_length ls -> len count = MAXCODELEN -> exists count', count_lengths ls count = Some count' /\ len count' = MAXCODELEN.
Proof.
  revert count. induction ls as [|l ls IH]; intros count Hls Hc; [by exists count|]. apply Forall_cons in Hls as [Hl Hls]. cbn [count_lengths].
  destruct (lookup_lt_is_Some_2 count (Z.to_nat l)) as [n ->]; [unfold len in Hc; lia|]. cbn [mbind option_bind]. apply IH; [done|].
  unfold len in *. by rewrite length_insert.
Qed.

Lemma mirror_loop_nonneg l acc code : 0 <= acc -> 0 <= mirror_loop l acc code.
Proof.
  revert acc code. induction l as [|l IH]; intros acc code Ha; [done|]. cbn [mirror_loop]. apply IH. apply Z.lor_nonneg. split.
  - by apply Z.shiftl_nonneg.
  - apply Z.land_nonneg. by right.
Qed.

Lemma assign_codes_total ls start :
  Forall code_length ls -> len start = MAXCODELEN -> exists cs, assign_codes ls start = Some cs /\ Forall (fun c => 0 <= c) cs.
Proof.
  revert start. induction ls as [|l ls IH]; intros start Hls Hs; [exists []; split; [done|by apply Forall_nil]|]. apply Forall_cons in Hls as [Hl Hls]. cbn [assign_codes].
  destruct (lookup_lt_is_Some_2 start (Z.to_nat l)) as [c ->]; [unfold len in Hs; lia|]. cbn [mbind option_bind].
  destruct (IH (<[Z.to_nat l := c + 1]> start) Hls) as (cs&->&Hcs); [unfold len in *; by rewrite length_insert|]. cbn [mbind option_bind].
  eexists. split; [done|]. apply Forall_cons. split; [by apply mirror_loop_nonneg|done].
Qed.

Lemma length_start_codes count code : length (start_codes count code) = length count.
Proof. revert code. induction count as [|n count IH]; intros code; cbn; [done|]. by rewrite IH. Qed.

Lemma max_length_spec ls : Forall code_length ls -> 0 <= max_length ls < MAXCODELEN /\ Forall (fun l => l <= max_length ls) ls.
Proof.
  unfold max_length. intros Hls.
  assert (forall m, 0 <= m < MAXCODELEN -> let r := foldl (fun maxlen l => if maxlen <? l then l else maxlen) m ls in m <= r < MAXCODELEN /\ Forall (fun l => l <= r) ls) as H.
  { clear -Hls. induction ls as [|l ls IH]; intros m Hm; cbn; [split; [lia|by apply Forall_nil]|]. apply Forall_cons in Hls as [Hl Hls].
    destruct (IH Hls (if m <? l then l else m)) as [H1 H2]; [by destruct (m <? l)|]. destruct (Z.ltb_spec m l); (split; [lia|]); apply Forall_cons; (split; [lia|done]). }
  destruct (H 0 ltac:(done)) as [? ?]. split; [lia|done].
Qed.

Lemma tab_ok_mono depth M M' tab : M <= M' -> tab_ok depth M tab -> tab_ok depth M' tab.
Proof.
  revert M M' tab. induction depth as [|depth IH]; intros M M' [mask t] HM; [done|]. cbn [tab_ok]. intros (b&Hb&Em&El&Ht). exists b. split_and!; try done.
  eapply Forall_impl; [exact Ht|]. intros [[nb code] next] [Hnb Hn]. split; [lia|]. destruct next as [sub|]; [|done].
  destruct Hn as (?&?&Hsub). split_and!; try done. eapply IH; [|exact Hsub]. lia.
Qed.

(** A table can be built from any lengths. *)
Lemma zlib_mktable_total ls : Forall code_length ls -> len ls <= MAXSYMS -> exists tab, zlib_mktable ls = Some tab /\ tab_ok (Z.to_nat MAXCODELEN) (MAXCODELEN - 1) tab.
Proof.
  intros Hls Hlen. destruct (max_length_spec ls Hls) as [Hm Hall]. unfold zlib_mktable, zlib_codes. rewrite (proj2 (Z.leb_le _ _)) by done.
  destruct (count_lengths_total ls (replicate (Z.to_nat MAXCODELEN) 0) Hls) as (count&->&Hc); [done|]. cbn [mbind option_bind].
  destruct (assign_codes_total ls (0 :: start_codes (drop 1 count) 0) Hls) as (cs&->&Hcs).
  { rewrite len_cons. unfold len in *. rewrite length_start_codes, length_drop. unfold MAXCODELEN in *. lia. }
  cbn [mbind option_bind]. unfold MAXCODELEN in *.
  destruct (mkonetab_total (max_length ls) (Z.to_nat 16) cs ls 0 0 (if max_length ls <? 9 then max_length ls else 9)) as (tab&->&Htab); try done; try lia;
    try (destruct (Z.ltb_spec (max_length ls) 9); lia).
  exists tab. split; [done|]. eapply tab_ok_mono; [|exact Htab]. lia.
Qed.

(** What a lookup can find: a symbol, and fewer bits are left; no symbol, or not enough bits for one. *)
Definition lookup_result (M bits nbits : Z) (r : Z * Z * Z) : Prop :=
  let '(bits', nbits', code) := r in
  (0 <= code /\ 0 <= nbits' < nbits /\ 0 <= bits' < 2 ^ nbits') \/ (bits' = bits /\ nbits' = nbits /\ (code = -2 \/ code = -1 /\ nbits < M)).

Lemma shiftr_range bits nbits n : 0 <= bits < 2 ^ nbits -> 0 <= n <= nbits -> 0 <= bits >> n < 2 ^ (nbits - n).
Proof.
  intros Hb Hn. rewrite Z.shiftr_div_pow2 by lia. replace nbits with (nbits - n + n) in Hb by lia. rewrite Z.pow_add_r in Hb by lia.
  split; [apply Z.div_pos; lia|apply Z.div_lt_upper_bound; lia].
Qed.

Lemma huflookup_loop_total depth M bits nbits tab :
  tab_ok depth M tab -> 0 <= bits < 2 ^ nbits -> 0 <= nbits ->
  exists rest code, huflookup_loop depth bits nbits tab = Some (rest, code)
    /\ match rest with
       | Some (bits', nbits') => 0 <= code /\ 0 <= nbits' < nbits /\ 0 <= bits' < 2 ^ nbits'
       | None => code = -2 \/ code = -1 /\ nbits < M
       end.
Proof.
  revert M bits nbits tab. induction depth as [|depth IH]; intros M bits nbits [mask t]; [done|]. cbn [tab_ok huflookup_loop].
  intros (b&Hb&->&El&Ht) Hbits Hn. rewrite land_mask by done. pose proof (Z.mod_pos_bound bits (2 ^ b) ltac:(lia)) as Hmod.
  destruct (lookup_lt_is_Some_2 t (Z.to_nat (bits mod 2 ^ b))) as [[[nb code] next] E]; [unfold len in El; lia|]. rewrite E. cbn [mbind option_bind].
  pose proof (Forall_lookup_1 _ _ _ _ Ht E) as [Hnb He]. destruct (Z.ltb_spec nbits nb); [exists None, (-1); split; [done|right; lia]|].
  pose proof (shiftr_range bits nbits nb Hbits ltac:(lia)) as Hs. destruct next as [sub|].
  - destruct He as (->&Hnb1&Hsub). rewrite Z.eqb_refl. destruct (IH _ _ _ sub Hsub Hs ltac:(lia)) as (rest&code&->&Hr). exists rest, code. split; [done|].
    destruct rest as [[bits' nbits']|]; [split_and!; lia|]. destruct Hr as [->|[-> Hr]]; [by left|right; lia].
  - destruct (Z.eqb_spec code (-1)) as [->|]; [exists None, (-2); split; [done|by left]|]. destruct He as [|[Hc Hn1]]; [done|].
    eexists _, _. split; [done|]. split_and!; lia.
Qed.

Lemma huflookup_total bits nbits tab :
  tab_ok (Z.to_nat MAXCODELEN) (MAXCODELEN - 1) tab -> 0 <= bits < 2 ^ nbits -> 0 <= nbits ->
  exists r, zlib_huflookup bits nbits tab = Some r /\ lookup_result (MAXCODELEN - 1) bits nbits r.
Proof.
  intros Ht Hb Hn. unfold zlib_huflookup. destruct (huflookup_loop_total _ _ bits nbits tab Ht Hb Hn) as (rest&code&->&Hr). cbn [mbind option_bind].
  destruct rest as [[b n]|]; cbn [default]; (eexists; split; [done|]); [left; done|right; split_and!; done].
Qed.
