(* ===== verification/ZlibLz77.v ===== *)
(** * LZ77 compression (sshzlib.c)

    The compressor keeps a window of the last 32768 characters.  Every position of the
    window is on a doubly linked chain of the positions with the same hash of three
    characters, from the newest to the oldest; the chains live in arrays of the size of the window.
    At most two characters at the end of the input, for which no hash can be computed yet,
    are kept in [pending].

    Arrays are functions on their indices.  The calls of the functions [literal] and [match]
    are the list of tokens. *)

From S2P Require Import Prelude.
Open Scope Z_scope.

Definition WINSIZE : Z := 32768.
Definition HASHMAX : Z := 2039.
Definition MAXMATCH : nat := 32.
Definition HASHCHARS : Z := 3.
Definition INVALID : Z := -1.

Record WindowEntry := mkEntry { e_next : Z; e_prev : Z; e_hashval : Z }.

Record LZ77InternalContext := mkLz {
  win : Z -> WindowEntry;
  wdata : Z -> Z;
  winpos : Z;
  hashtab : Z -> Z;
  pending : list Z
}.

Inductive token := Literal (c : Z) | Match (distance len : Z).

Definition upd {A} (f : Z -> A) (i : Z) (v : A) : Z -> A := fun k => if k =? i then v else f k.

Definition lz77_hash (a b c : Z) : Z := (257 * a + 263 * b + 269 * c) mod HASHMAX.

(** [uninit] is what the new [data] array holds. *)
Definition lz77_init (uninit : Z -> Z) : LZ77InternalContext :=
  mkLz (fun _ => mkEntry INVALID INVALID INVALID) uninit 0 (fun _ => INVALID) [].

Definition set_next (w : Z -> WindowEntry) (i v : Z) := upd w i (mkEntry v (e_prev (w i)) (e_hashval (w i))).
Definition set_prev (w : Z -> WindowEntry) (i v : Z) := upd w i (mkEntry (e_next (w i)) v (e_hashval (w i))).

Definition lz77_advance (st : LZ77InternalContext) (c hash : Z) : LZ77InternalContext :=
  let p := winpos st in
  let e := win st p in
  let w := if negb (e_prev e =? INVALID) then set_next (win st) (e_prev e) INVALID else win st in
  let h := if negb (e_prev e =? INVALID) then hashtab st
           else if negb (e_hashval e =? INVALID) then upd (hashtab st) (e_hashval e) INVALID else hashtab st in
  let off := h hash in
  let w := upd w p (mkEntry off INVALID hash) in
  let h := upd h hash p in
  let w := if negb (off =? INVALID) then set_prev w off p else w in
  mkLz w (upd (wdata st) p c) (Z.land (p + 1) (WINSIZE - 1)) h (pending st).

Definition set_pending (st : LZ77InternalContext) (l : list Z) : LZ77InternalContext :=
  mkLz (win st) (wdata st) (winpos st) (hashtab st) l.

(** The macro [CHARAT]. *)
Definition CHARAT (st : LZ77InternalContext) (data : list Z) (k : Z) : option Z :=
  if k <? 0 then Some (wdata st (Z.land (winpos st + k) (WINSIZE - 1))) else data !! Z.to_nat k.

(** The characters left over from last time are added to the window, as far as there are three to be hashed. *)
Fixpoint pending_loop (st : LZ77InternalContext) (pend data : list Z) : option LZ77InternalContext :=
  match pend with
  | [] => Some (set_pending st [])
  | c :: pend' =>
      if len data + len pend <? HASHCHARS then Some (set_pending st pend)
      else
        match pend ++ data with
        | a :: b :: d :: _ => pending_loop (lz77_advance st c (lz77_hash a b d)) pend' data
        | _ => None
        end
  end.

(** [for (i = 0; i < HASHCHARS; i++)]: are the next three characters those [distance] back? *)
Definition match3 (st : LZ77InternalContext) (data : list Z) (distance : Z) : option bool :=
  a ← CHARAT st data 0; a' ← CHARAT st data (0 - distance);
  if negb (a =? a') then Some false
  else
    b ← CHARAT st data 1; b' ← CHARAT st data (1 - distance);
    if negb (b =? b') then Some false
    else
      c ← CHARAT st data 2; c' ← CHARAT st data (2 - distance);
      Some (c =? c').

(** The walk along the hash chain: the distances of the matches, at most [MAXMATCH] of them. *)
Fixpoint find_matches (fuel : nat) (st : LZ77InternalContext) (data : list Z) (off : Z) (matches : list Z) : option (list Z) :=
  if off =? INVALID then Some matches
  else
    match fuel with
    | O => None
    | S fuel =>
        let distance := WINSIZE - (off + WINSIZE - winpos st) mod WINSIZE in
        m ← match3 st data distance;
        if m : bool then
          let matches := matches ++ [distance] in
          if (MAXMATCH <=? length matches)%nat then Some matches else find_matches fuel st data (e_next (win st off)) matches
        else find_matches fuel st data (e_next (win st off)) matches
    end.

(** The matches that go on for one more character. *)
Fixpoint filter_matches (st : LZ77InternalContext) (data : list Z) (matchlen : Z) (matches : list Z) : option (list Z) :=
  match matches with
  | [] => Some []
  | d :: matches =>
      a ← CHARAT st data matchlen; b ← CHARAT st data (matchlen - d);
      rest ← filter_matches st data matchlen matches;
      Some (if a =? b then d :: rest else rest)
  end.

(** [while (matchlen < len)] *)
Fixpoint longest_match (fuel : nat) (st : LZ77InternalContext) (data : list Z) (matchlen : Z) (matches : list Z) : option (Z * list Z) :=
  if matchlen <? len data then
    match fuel with
    | O => None
    | S fuel =>
        kept ← filter_matches st data matchlen matches;
        match kept with
        | [] => Some (matchlen, matches)
        | _ => longest_match fuel st data (matchlen + 1) kept
        end
    end
  else Some (matchlen, matches).

(** [while (advance > 0)] *)
Fixpoint advance_loop (n : nat) (st : LZ77InternalContext) (data : list Z) : option (LZ77InternalContext * list Z) :=
  match n with
  | O => Some (st, data)
  | S n =>
      match data with
      | a :: b :: c :: _ => advance_loop n (lz77_advance st a (lz77_hash a b c)) (drop 1 data)
      | a :: rest => assert! len (pending st) <? HASHCHARS; advance_loop n (set_pending st (pending st ++ [a])) rest
      | [] => None
      end
  end.

(** The deferred match ([defermatch.distance], [defermatch.len], [deferchr]), if there is one. *)
Definition deferred := option (Z * Z * Z).

(** What to do at a position with the match found there, if any: the tokens, the deferred match, and how far to go on. *)
Definition lz77_choose (found : option (Z * Z)) (defer : deferred) (c : Z) : list token * deferred * Z :=
  match found, defer with
  | Some (d, n), Some (dd, dn, dc) =>
      if dn + 1 <? n then ([Literal dc], Some (d, n, c), 1) else ([Match dd dn], None, dn - 1)
  | Some (d, n), None => ([], Some (d, n, c), 1)
  | None, Some (dd, dn, _) => ([Match dd dn], None, dn - 1)
  | None, None => ([Literal c], None, 1)
  end.

(** The best match at the current position. *)
Definition best_match (st : LZ77InternalContext) (data : list Z) : option (option (Z * Z)) :=
  match data with
  | a :: b :: c :: _ =>
      matches ← find_matches (Z.to_nat WINSIZE) st data (hashtab st (lz77_hash a b c)) [];
      match matches with
      | [] => Some None
      | _ =>
          '(n, matches) ← longest_match (length data) st data HASHCHARS matches;
          d ← head matches;
          Some (Some (d, n))
      end
  | _ => Some None
  end.

(** [while (len > 0)] *)
Fixpoint lz77_loop (fuel : nat) (st : LZ77InternalContext) (data : list Z) (defer : deferred) : option (LZ77InternalContext * list token) :=
  match data with
  | [] => Some (st, [])
  | c :: _ =>
      match fuel with
      | O => None
      | S fuel =>
          found ← best_match st data;
          let '(toks, defer, advance) := lz77_choose found defer c in
          '(st, data) ← advance_loop (Z.to_nat advance) st data;
          '(st, toks') ← lz77_loop fuel st data defer;
          Some (st, toks ++ toks')
      end
  end.

Definition lz77_compress (st : LZ77InternalContext) (data : list Z) : option (LZ77InternalContext * list token) :=
  assert! len (pending st) <=? HASHCHARS;
  st ← pending_loop st (pending st) data;
  lz77_loop (length data) st data None.

Example lz77_examples :
  (r ← lz77_compress (lz77_init (fun _ => 0)) [1; 2; 3; 1; 2; 3; 1; 2; 9]; Some r.2)
    = Some [Literal 1; Literal 2; Literal 3; Match 3 5; Literal 9]
  /\ ('(st, t) ← lz77_compress (lz77_init (fun _ => 0)) [1; 2]; '(st, t') ← lz77_compress st [3; 1; 2; 3]; Some (t, t', pending st))
    = Some ([Literal 1; Literal 2], [Literal 3; Match 3 3], [2; 3]).
Proof. split; vm_compute; reflexivity. Qed.

(** ** The window *)

Lemma land_win x : Z.land x (WINSIZE - 1) = x mod WINSIZE.
Proof. change (WINSIZE - 1) with (Z.ones 15). rewrite Z.land_ones by lia. done. Qed.

Lemma upd_same {A} (f : Z -> A) i v : upd f i v i = v.
Proof. unfold upd. by rewrite Z.eqb_refl. Qed.
Lemma upd_other {A} (f : Z -> A) i v k : k <> i -> upd f i v k = f k.
Proof. intros Hk. unfold upd. by rewrite (proj2 (Z.eqb_neq k i)). Qed.

(** The positions of the history [W] that are in the window. *)
Definition inwin (W : list Z) (p : Z) : Prop := 0 <= p < len W /\ len W - WINSIZE <= p.

Lemma slot_inj W p q : inwin W p -> inwin W q -> p mod WINSIZE = q mod WINSIZE -> p = q.
Proof.
  intros [Hp1 Hp2] [Hq1 Hq2] E. unfold WINSIZE in *. pose proof (Z.div_mod p 32768 ltac:(lia)). pose proof (Z.div_mod q 32768 ltac:(lia)). nia.
Qed.

Lemma slot_range p : 0 <= p mod WINSIZE < WINSIZE.
Proof. apply Z.mod_pos_bound. done. Qed.

Lemma slot_valid p : p mod WINSIZE <> INVALID.
Proof. pose proof (slot_range p). unfold INVALID. lia. Qed.

(** The window holds the end of [W]; the chains lead from newer to older positions of the
    window, and a position on a chain knows the one before it. *)
Record win_ok (st : LZ77InternalContext) (W : list Z) : Prop := {
  wo_pos : winpos st = len W mod WINSIZE;
  wo_data : forall p, inwin W p -> W !! Z.to_nat p = Some (wdata st (p mod WINSIZE));
  wo_next : forall p, inwin W p -> e_next (win st (p mod WINSIZE)) = INVALID \/
    exists q, inwin W q /\ q < p /\ e_next (win st (p mod WINSIZE)) = q mod WINSIZE /\ e_prev (win st (q mod WINSIZE)) = p mod WINSIZE;
  wo_first : forall h, 0 <= h -> hashtab st h = INVALID \/
    exists p, inwin W p /\ hashtab st h = p mod WINSIZE /\ e_prev (win st (p mod WINSIZE)) = INVALID /\ e_hashval (win st (p mod WINSIZE)) = h;
  wo_free : forall s, len W <= s < WINSIZE -> win st s = mkEntry INVALID INVALID INVALID
}.

Lemma lz77_init_ok uninit : win_ok (lz77_init uninit) [].
Proof.
  assert (forall p, ~ inwin [] p) as Hno by (intros p [H _]; change (len (@nil Z)) with 0 in H; lia).
  constructor; try done; intros; by (left || (exfalso; eapply Hno)).
Qed.

(** A position of the new window is the new one, or an old one whose entry is not reused. *)
Lemma inwin_snoc W c p : inwin (W ++ [c]) p -> p = len W \/ inwin W p /\ p mod WINSIZE <> len W mod WINSIZE.
Proof.
  unfold inwin. rewrite len_app. change (len [c]) with 1. intros [H1 H2]. destruct (Z.eq_dec p (len W)) as [|Hne]; [by left|]. right.
  split; [lia|]. intros E. unfold WINSIZE in *. pose proof (Z.div_mod p 32768 ltac:(lia)). pose proof (Z.div_mod (len W) 32768 ltac:(lia)). nia.
Qed.

Lemma inwin_new W c : inwin (W ++ [c]) (len W).
Proof. unfold inwin. rewrite len_app. change (len [c]) with 1. pose proof (len_nonneg W). unfold WINSIZE. lia. Qed.

Lemma inwin_old W c p : inwin W p -> p mod WINSIZE <> len W mod WINSIZE -> inwin (W ++ [c]) p.
Proof.
  unfold inwin. rewrite len_app. change (len [c]) with 1. intros [H1 H2] Hne. split; [lia|].
  destruct (Z.eq_dec p (len W - WINSIZE)) as [->|]; [|lia]. exfalso. apply Hne. replace (len W - WINSIZE) with (len W + -1 * WINSIZE) by lia.
  by rewrite Z.mod_add.
Qed.

(** After the oldest entry has been taken off its chain, nothing leads to it. *)
Section Advance.
Variables (st : LZ77InternalContext) (W : list Z).
Hypothesis Hok : win_ok st W.
Local Notation s := (len W mod WINSIZE).
Local Notation e := (win st s).

Definition w1 : Z -> WindowEntry := if negb (e_prev e =? INVALID) then set_next (win st) (e_prev e) INVALID else win st.
Definition h1 : Z -> Z :=
  if negb (e_prev e =? INVALID) then hashtab st
  else if negb (e_hashval e =? INVALID) then upd (hashtab st) (e_hashval e) INVALID else hashtab st.

Lemma w1_fields i : e_prev (w1 i) = e_prev (win st i) /\ e_hashval (w1 i) = e_hashval (win st i)
  /\ (e_next (w1 i) = INVALID \/ e_next (w1 i) = e_next (win st i)) /\ (e_prev e = i -> i <> INVALID -> e_next (w1 i) = INVALID).
Proof using Type.
  unfold w1. destruct (Z.eqb_spec (e_prev e) INVALID) as [E|E]; cbn [negb]; [split_and!; try done; try (by right); congruence|]. unfold set_next.
  destruct (Z.eq_dec i (e_prev e)) as [->|Hne].
  - rewrite upd_same. cbn. split_and!; try done. by left.
  - rewrite upd_other by done. split_and!; try done; try (by right); congruence.
Qed.

Lemma w1_next p : inwin W p -> p mod WINSIZE <> s ->
  e_next (w1 (p mod WINSIZE)) = INVALID \/
  exists q, inwin W q /\ q mod WINSIZE <> s /\ q < p /\ e_next (w1 (p mod WINSIZE)) = q mod WINSIZE /\ e_prev (w1 (q mod WINSIZE)) = p mod WINSIZE.
Proof using Hok.
  intros Hp Hs. destruct (w1_fields (p mod WINSIZE)) as (_&_&[Hn|Hn]&Hreset); [by left|]. rewrite Hn.
  destruct (wo_next _ _ Hok p Hp) as [E|(q&Hq&Hlt&En&Ep)]; [by left|]. destruct (Z.eq_dec (q mod WINSIZE) s) as [Eq|Hne].
  - left. rewrite <- Hn. apply Hreset; [by rewrite <- Eq|apply slot_valid].
  - right. exists q. destruct (w1_fields (q mod WINSIZE)) as (->&_). split_and!; done.
Qed.

Lemma h1_first h : 0 <= h ->
  h1 h = INVALID \/ exists p, inwin W p /\ p mod WINSIZE <> s /\ h1 h = p mod WINSIZE /\ e_prev (w1 (p mod WINSIZE)) = INVALID
    /\ e_hashval (w1 (p mod WINSIZE)) = h.
Proof using Hok.
  intros Hh. assert (h1 h = INVALID \/ h1 h = hashtab st h) as [E|E].
  { unfold h1. destruct (negb (e_prev e =? INVALID)); [by right|]. destruct (negb (e_hashval e =? INVALID)); [|by right].
    destruct (Z.eq_dec h (e_hashval e)) as [->|Hne]; [rewrite upd_same; by left|rewrite upd_other by done; by right]. }
  { by left. }
  destruct (wo_first _ _ Hok h Hh) as [E'|(p&Hp&Ef&Epr&Eh)]; [left; congruence|].
  destruct (Z.eq_dec (p mod WINSIZE) s) as [Es|Hne].
  - left. unfold h1. rewrite Es in Epr, Eh. rewrite Epr, Z.eqb_refl, Eh. cbn [negb].
    rewrite (proj2 (Z.eqb_neq h INVALID)) by (unfold INVALID; lia). cbn [negb]. apply upd_same.
  - right. exists p. destruct (w1_fields (p mod WINSIZE)) as (->&->&_). split_and!; try done. congruence.
Qed.

Lemma lz77_advance_eq c hash :
  lz77_advance st c hash =
  mkLz (let w := upd w1 s (mkEntry (h1 hash) INVALID hash) in if negb (h1 hash =? INVALID) then set_prev w (h1 hash) s else w)
    (upd (wdata st) s c) (Z.land (s + 1) (WINSIZE - 1)) (upd h1 hash s) (pending st).
Proof using Hok. unfold lz77_advance. by rewrite (wo_pos _ _ Hok). Qed.

(** The new entry of the window at the head of its chain. *)
Lemma lz77_advance_ok c hash : 0 <= hash -> win_ok (lz77_advance st c hash) (W ++ [c]).
Proof using Hok.
  intros Hh. rewrite lz77_advance_eq. set (off := h1 hash). set (w := upd w1 s (mkEntry off INVALID hash)).
  assert (off = INVALID \/ exists p, inwin W p /\ p mod WINSIZE <> s /\ off = p mod WINSIZE /\ e_prev (w1 (p mod WINSIZE)) = INVALID
    /\ e_hashval (w1 (p mod WINSIZE)) = hash) as Hoff by (by apply h1_first).
  set (w2 := if negb (off =? INVALID) then set_prev w off s else w). cbn zeta. fold w2.
  assert (off <> s) as Hos.
  { destruct Hoff as [->|(p&_&Hne&->&_)]; [|done]. intros E. symmetry in E. by apply slot_valid in E. }
  assert (w2 s = mkEntry off INVALID hash) as Ew2s.
  { unfold w2, set_prev. destruct (negb (off =? INVALID)); [rewrite upd_other by done|]; apply upd_same. }
  assert (forall i, i <> s -> e_next (w2 i) = e_next (w1 i) /\ e_hashval (w2 i) = e_hashval (w1 i)
    /\ e_prev (w2 i) = if (i =? off) && negb (off =? INVALID) then s else e_prev (w1 i)) as Hw2.
  { intros i Hi. unfold w2, set_prev. destruct (Z.eqb_spec i off) as [->|Hne]; cbn [andb].
    - destruct (negb (off =? INVALID)); [rewrite upd_same|]; unfold w; rewrite upd_other by done; done.
    - destruct (negb (off =? INVALID)); [rewrite upd_other by done|]; unfold w; rewrite upd_other by done; done. }
  constructor; cbn [winpos wdata win hashtab].
  - rewrite land_win, len_app. change (len [c]) with 1. by rewrite Zplus_mod_idemp_l.
  - intros p Hp. apply inwin_snoc in Hp as [->|[Hp Hne]].
    + rewrite upd_same, lookup_app_r by (unfold len; lia). unfold len. by rewrite Nat2Z.id, Nat.sub_diag.
    + rewrite upd_other by done. rewrite lookup_app_l by (destruct Hp as [Hp _]; unfold len in Hp; lia). by apply (wo_data _ _ Hok).
  - intros p Hp. apply inwin_snoc in Hp as [->|[Hp Hne]].
    + rewrite Ew2s. cbn [e_next]. destruct Hoff as [->|(p&Hp&Hne&Eo&Epr&_)]; [by left|]. right. exists p. split; [by apply inwin_old|].
      split; [destruct Hp; lia|]. split; [exact Eo|]. destruct (Hw2 _ Hne) as (_&_&->). rewrite Eo, Z.eqb_refl. cbn [andb].
      by rewrite (proj2 (Z.eqb_neq _ _)) by apply slot_valid.
    + destruct (Hw2 _ Hne) as (->&_). destruct (w1_next p Hp Hne) as [E|(q&Hq&Hqs&Hlt&En&Ep)]; [by left|]. right. exists q.
      split; [by apply inwin_old|]. split; [done|]. split; [done|]. destruct (Hw2 _ Hqs) as (_&_&->).
      destruct (Z.eqb_spec (q mod WINSIZE) off) as [Eq|]; [|done]. destruct Hoff as [Eo|(p'&_&_&Eo&Epr&_)].
      * rewrite Eo in Eq. by apply slot_valid in Eq.
      * rewrite <- Eo, <- Eq, Ep in Epr. by apply slot_valid in Epr.
  - intros h Hh'. destruct (Z.eq_dec h hash) as [->|Hne].
    + rewrite upd_same. right. exists (len W). split; [apply inwin_new|]. rewrite Ew2s. done.
    + rewrite upd_other by done. destruct (h1_first h Hh') as [E|(p&Hp&Hps&E&Epr&Eh)]; [by left|]. right. exists p. split; [by apply inwin_old|].
      split; [done|]. destruct (Hw2 _ Hps) as (_&->&->). split; [|done]. destruct (Z.eqb_spec (p mod WINSIZE) off) as [Eq|]; [|done].
      destruct Hoff as [Eo|(p'&_&_&Eo&_&Eh')]; [rewrite Eo in Eq; by apply slot_valid in Eq|]. rewrite <- Eo, <- Eq in Eh'. congruence.
  - rewrite len_app. change (len [c]) with 1. intros i Hi. assert (s = len W) as Es by (apply Z.mod_small; pose proof (len_nonneg W); lia).
    assert (i <> s) as His by lia. pose proof (wo_free _ _ Hok i ltac:(lia)) as Ef. destruct (Hw2 i His) as (E1&E2&E3).
    assert (i <> off) as Hio.
    { destruct Hoff as [->|(p&Hp&_&->&_)]; [unfold INVALID; pose proof (len_nonneg W); lia|]. destruct Hp as [Hp _]. rewrite Z.mod_small; lia. }
    rewrite (proj2 (Z.eqb_neq i off)) in E3 by done. cbn [andb] in E3. destruct (w1_fields i) as (F1&F2&F3&_). rewrite Ef in F1, F2, F3. cbn in F1, F2, F3.
    destruct (w2 i) as [n pv hv]. cbn in E1, E2, E3. rewrite E1, E2, E3, F1, F2. destruct F3 as [-> | ->]; done.
Qed.
End Advance.

(** ** Matches *)

Lemma charat_spec st W data k :
  win_ok st W -> - WINSIZE <= k < len data -> - len W <= k -> exists c, CHARAT st data k = Some c /\ (W ++ data) !! Z.to_nat (len W + k) = Some c.
Proof.
  intros Hok Hk Hw. unfold CHARAT. destruct (Z.ltb_spec k 0).
  - eexists. split; [done|]. rewrite lookup_app_l by (unfold len in *; lia). rewrite (wo_pos _ _ Hok), land_win, Zplus_mod_idemp_l.
    apply (wo_data _ _ Hok). split; [lia|]. unfold WINSIZE in *. lia.
  - destruct (lookup_lt_is_Some_2 data (Z.to_nat k)) as [c Hc]; [unfold len in *; lia|]. exists c. split; [done|].
    rewrite lookup_app_r by (unfold len; lia). rewrite <- Hc. f_equal. unfold len in *. lia.
Qed.

(** From position [cur] on, [n] characters of [L] are those [d] before. *)
Definition agree (L : list Z) (cur d n : Z) : Prop :=
  forall i, 0 <= i < n -> L !! Z.to_nat (cur + i) = L !! Z.to_nat (cur + i - d).

Definition good (W data : list Z) (n d : Z) : Prop := 1 <= d <= WINSIZE /\ d <= len W /\ agree (W ++ data) (len W) d n.

(** One character against the one [d] before. *)
Lemma charat_pair st W data k d :
  win_ok st W -> 0 <= k < len data -> 1 <= d <= WINSIZE -> d <= len W ->
  exists a b, CHARAT st data k = Some a /\ CHARAT st data (k - d) = Some b
    /\ (a = b -> (W ++ data) !! Z.to_nat (len W + k) = (W ++ data) !! Z.to_nat (len W + k - d)).
Proof.
  intros Hok Hk Hd HW. pose proof (len_nonneg W).
  destruct (charat_spec st W data k Hok) as (a&Ea&La); [unfold WINSIZE; lia|lia|].
  destruct (charat_spec st W data (k - d) Hok) as (b&Eb&Lb); [lia|lia|]. exists a, b. split; [done|]. split; [done|]. intros ->.
  by rewrite La, <- Lb, Z.add_sub_assoc.
Qed.

Lemma match3_spec st W data d :
  win_ok st W -> 3 <= len data -> 1 <= d <= WINSIZE -> d <= len W ->
  exists b, match3 st data d = Some b /\ (b = true -> good W data 3 d).
Proof.
  intros Hok Hl Hd HW.
  destruct (charat_pair st W data 0 d Hok ltac:(lia) Hd HW) as (a0&b0&Ea0&Eb0&H0).
  destruct (charat_pair st W data 1 d Hok ltac:(lia) Hd HW) as (a1&b1&Ea1&Eb1&H1).
  destruct (charat_pair st W data 2 d Hok ltac:(lia) Hd HW) as (a2&b2&Ea2&Eb2&H2).
  unfold match3. rewrite Ea0, Eb0. cbn [mbind option_bind]. destruct (Z.eqb_spec a0 b0); cbn [negb]; [|by exists false].
  rewrite Ea1, Eb1. cbn [mbind option_bind]. destruct (Z.eqb_spec a1 b1); cbn [negb]; [|by exists false].
  rewrite Ea2, Eb2. cbn [mbind option_bind]. eexists. split; [done|]. intros ?%Z.eqb_eq. split; [done|]. split; [done|].
  intros i Hi. assert (i = 0 \/ i = 1 \/ i = 2) as [->|[->| ->]] by lia; [by apply H0|by apply H1|by apply H2].
Qed.

(** The distance of a position of the window. *)
Lemma slot_distance W p : inwin W p -> WINSIZE - (p mod WINSIZE + WINSIZE - len W mod WINSIZE) mod WINSIZE = len W - p.
Proof.
  intros [H1 H2]. replace (p mod WINSIZE + WINSIZE - len W mod WINSIZE) with (p mod WINSIZE - len W mod WINSIZE + 1 * WINSIZE) by lia.
  rewrite Z.mod_add by done. rewrite <- Zminus_mod. replace (p - len W) with (WINSIZE - (len W - p) + -1 * WINSIZE) by lia.
  rewrite Z.mod_add by done. rewrite Z.mod_small by (unfold WINSIZE in *; lia). lia.
Qed.

(** The walk along a hash chain ends, and finds distances at which three characters agree. *)
Lemma find_matches_spec st W data fuel off ms :
  win_ok st W -> 3 <= len data -> Forall (good W data 3) ms ->
  (off = INVALID \/ exists p, inwin W p /\ off = p mod WINSIZE /\ p + WINSIZE - len W < Z.of_nat fuel) ->
  exists ms', find_matches fuel st data off ms = Some ms' /\ Forall (good W data 3) ms'.
Proof.
  intros Hok Hl. revert off ms. induction fuel as [|fuel IH]; intros off ms Hms Hoff; cbn [find_matches].
  all: destruct (Z.eqb_spec off INVALID) as [|Hne]; [eauto|]; destruct Hoff as [|(p&Hp&->&Hf)]; [done|].
  { destruct Hp. lia. }
  rewrite (wo_pos _ _ Hok), slot_distance by done. assert (1 <= len W - p <= WINSIZE /\ len W - p <= len W) as [Hd HW] by (destruct Hp; lia).
  destruct (match3_spec st W data (len W - p) Hok Hl Hd HW) as (b&->&Hb). cbn [mbind option_bind].
  assert (e_next (win st (p mod WINSIZE)) = INVALID \/ exists q, inwin W q /\ e_next (win st (p mod WINSIZE)) = q mod WINSIZE
            /\ q + WINSIZE - len W < Z.of_nat fuel) as Hnext.
  { destruct (wo_next _ _ Hok p Hp) as [|(q&Hq&Hlt&E&_)]; [by left|]. right. exists q. split_and!; [done|done|lia]. }
  destruct b; [|by apply IH]. assert (Forall (good W data 3) (ms ++ [len W - p])) as Hms'.
  { apply Forall_app. split; [done|]. apply Forall_cons. split; [by apply Hb|by apply Forall_nil]. }
  destruct (_ <=? _)%nat; [eauto|]. by apply IH.
Qed.

Lemma filter_matches_spec st W data n ms :
  win_ok st W -> 0 <= n < len data -> Forall (good W data n) ms ->
  exists ms', filter_matches st data n ms = Some ms' /\ Forall (good W data (n + 1)) ms'.
Proof.
  intros Hok Hn. induction ms as [|d ms IH]; intros Hms; cbn [filter_matches].
  { exists []. split; [done|]. by apply Forall_nil. }
  apply Forall_cons in Hms as [(Hd&HW&Hag) Hms]. destruct (charat_pair st W data n d Hok Hn Hd HW) as (a&b&->&->&Hab).
  destruct (IH Hms) as (ms'&->&Hms'). cbn [mbind option_bind]. eexists. split; [done|].
  destruct (Z.eqb_spec a b) as [E|]; [|done]. apply Forall_cons. split; [|done]. split_and!; try done; try lia.
  intros i Hi. destruct (Z.eq_dec i n) as [->|]; [by apply Hab|]. apply Hag. lia.
Qed.

Lemma longest_match_spec st W data fuel n ms :
  win_ok st W -> 0 <= n <= len data -> len data - n <= Z.of_nat fuel -> Forall (good W data n) ms -> ms <> [] ->
  exists n' ms', longest_match fuel st data n ms = Some (n', ms') /\ n <= n' <= len data /\ ms' <> [] /\ Forall (good W data n') ms'.
Proof.
  intros Hok. revert n ms. induction fuel as [|fuel IH]; intros n ms Hn Hf Hms Hne; cbn [longest_match].
  all: destruct (Z.ltb_spec n (len data)) as [Hlt|]; [|exists n, ms; split_and!; done || lia].
  { lia. }
  destruct (filter_matches_spec st W data n ms Hok ltac:(lia) Hms) as (kept&->&Hk). cbn [mbind option_bind].
  destruct kept as [|d kept]; [exists n, ms; split_and!; done || lia|].
  destruct (IH (n + 1) (d :: kept)) as (n'&ms'&->&Hn'&Hne'&Hms'); [lia|lia|done|done|]. exists n', ms'. split_and!; done || lia.
Qed.

Lemma lz77_hash_range a b c : 0 <= lz77_hash a b c.
Proof. apply Z.mod_pos_bound. done. Qed.

(** A match found at the current position is one. *)
Definition found_ok (W data : list Z) (found : option (Z * Z)) : Prop :=
  match found with
  | None => True
  | Some (d, n) => 3 <= n <= len data /\ good W data n d
  end.

Lemma best_match_spec st W data : win_ok st W -> exists found, best_match st data = Some found /\ found_ok W data found.
Proof.
  intros Hok. unfold best_match. destruct data as [|a [|b [|c data]]]; try (by exists None). set (l := a :: b :: c :: data).
  assert (3 <= len l) as Hl by (unfold len, l; cbn [length]; lia).
  destruct (find_matches_spec st W l (Z.to_nat WINSIZE) (hashtab st (lz77_hash a b c)) []) as (ms&->&Hms); [done|done|by apply Forall_nil| |].
  { destruct (wo_first _ _ Hok _ (lz77_hash_range a b c)) as [|(p&Hp&E&_)]; [by left|]. right. exists p. split_and!; [done|done|].
    destruct Hp as [Hp _]. change (Z.of_nat (Z.to_nat WINSIZE)) with WINSIZE. lia. }
  cbn [mbind option_bind]. destruct ms as [|d ms]; [by exists None|].
  destruct (longest_match_spec st W l (length l) HASHCHARS (d :: ms) Hok) as (n&ms'&->&Hn&Hne&Hms'); [unfold HASHCHARS; lia|unfold len, HASHCHARS; lia|done|done|].
  cbn [mbind option_bind]. destruct ms' as [|d' ms']; [done|]. cbn [head]. apply Forall_cons in Hms' as [Hd' _]. eexists. split; [done|].
  unfold HASHCHARS in Hn. split; [lia|done].
Qed.

(** ** What the tokens stand for *)

(** [n] characters, each the one [d] before. *)
Fixpoint copy (n : nat) (d : Z) (H : list Z) : option (list Z) :=
  match n with
  | O => Some H
  | S n => c ← H !! Z.to_nat (len H - d); copy n d (H ++ [c])
  end.

(** The text after a token, when a decoder with a window of [WINSIZE] characters can follow it. *)
Definition expand1 (H : list Z) (t : token) : option (list Z) :=
  match t with
  | Literal c => Some (H ++ [c])
  | Match d n => if (1 <=? d) && (d <=? WINSIZE) && (d <=? len H) && (3 <=? n) then copy (Z.to_nat n) d H else None
  end.

Fixpoint expand (H : list Z) (toks : list token) : option (list Z) :=
  match toks with
  | [] => Some H
  | t :: toks => H ← expand1 H t; expand H toks
  end.

Lemma expand_app H H' toks toks' : expand H toks = Some H' -> expand H (toks ++ toks') = expand H' toks'.
Proof.
  revert H. induction toks as [|t toks IH]; intros H; [by intros [= ->]|]. cbn [expand app].
  intros (H1&->&E)%bind_Some. by apply IH.
Qed.

Lemma copy_agree H data d n :
  1 <= d <= len H -> 0 <= n <= len data -> agree (H ++ data) (len H) d n -> copy (Z.to_nat n) d H = Some (H ++ take (Z.to_nat n) data).
Proof.
  intros Hd Hn. remember (Z.to_nat n) as k eqn:Ek. revert H data n Hd Hn Ek.
  induction k as [|k IH]; intros H data n Hd Hn Ek Hag; cbn [copy]; [by rewrite app_nil_r|].
  destruct data as [|c data]; [change (len (@nil Z)) with 0 in Hn; lia|]. rewrite len_cons in Hn. pose proof (Hag 0 ltac:(lia)) as E0.
  rewrite !Z.add_0_r in E0. rewrite lookup_app_r in E0 by (unfold len; lia). rewrite lookup_app_l in E0 by (unfold len in *; lia).
  replace (Z.to_nat (len H) - length H)%nat with 0%nat in E0 by (unfold len; lia). cbn in E0. rewrite <- E0. cbn [mbind option_bind].
  assert (len (H ++ [c]) = len H + 1) as El by (rewrite len_app; done).
  rewrite (IH (H ++ [c]) data (n - 1)); [by rewrite <- app_assoc|lia|lia|lia|]. intros i Hi. rewrite <- app_assoc. cbn [app].
  rewrite El. replace (len H + 1 + i) with (len H + (i + 1)) by lia. apply Hag. lia.
Qed.

Lemma expand_match W data d n :
  3 <= n <= len data -> good W data n d -> expand1 W (Match d n) = Some (W ++ take (Z.to_nat n) data).
Proof.
  intros Hn (Hd&HW&Hag). cbn [expand1]. rewrite !(proj2 (Z.leb_le _ _)) by lia. cbn [andb]. apply copy_agree; try done; lia.
Qed.

(** ** The compressor *)

(** [H] is the text so far; the end of it may be waiting in [pending] for more characters, but then not many are coming. *)
Record lz_ok (st : LZ77InternalContext) (H data : list Z) : Prop := {
  lo_win : exists W, win_ok st W /\ H = W ++ pending st;
  lo_pending : pending st = [] \/ len (pending st) + len data <= 2
}.

Lemma win_ok_pending st W l : win_ok st W -> win_ok (set_pending st l) W.
Proof. intros [? ? ? ? ?]. by constructor. Qed.

Lemma advance_loop_spec st H data n :
  lz_ok st H data -> (n <= length data)%nat ->
  exists st', advance_loop n st data = Some (st', drop n data) /\ lz_ok st' (H ++ take n data) (drop n data).
Proof.
  revert st H data. induction n as [|n IH]; intros st H data Hlz Hn.
  { exists st. rewrite take_0, drop_0, app_nil_r. done. }
  assert (forall st' a rest, data = a :: rest -> lz_ok st' (H ++ [a]) rest -> exists st'', advance_loop n st' rest = Some (st'', drop n rest)
    /\ lz_ok st'' (H ++ a :: take n rest) (drop n rest)) as Hrec.
  { intros st' a rest -> Hlz'. destruct (IH st' (H ++ [a]) rest Hlz') as (st''&E&Hok); [cbn in Hn; lia|]. rewrite <- app_assoc in Hok. by exists st''. }
  destruct Hlz as [(W&Hok&->) Hp].
  assert (len data <= 2 -> forall a rest, data = a :: rest -> exists st', (assert! len (pending st) <? HASHCHARS;
    advance_loop n (set_pending st (pending st ++ [a])) rest) = Some (st', drop n rest) /\ lz_ok st' ((W ++ pending st) ++ a :: take n rest) (drop n rest)) as Hshort.
  { intros Hl a rest ->. rewrite len_cons in Hl, Hp. pose proof (len_nonneg rest).
    rewrite (proj2 (Z.ltb_lt _ _)) by (destruct Hp as [-> |Hp]; [done|unfold HASHCHARS; lia]). apply (Hrec _ a rest eq_refl). constructor.
    - exists W. split; [by apply win_ok_pending|]. cbn. by rewrite app_assoc.
    - right. cbn [pending set_pending]. rewrite len_app. change (len [a]) with 1. destruct Hp as [-> |]; [change (len (@nil Z)) with 0|]; lia. }
  cbn [advance_loop]. destruct data as [|a [|b [|c data]]]; [cbn in Hn; lia|by apply Hshort|by apply Hshort|]. cbn [drop take].
  apply (Hrec _ a _ eq_refl). destruct Hp as [E|Hp]; [|rewrite !len_cons in Hp; pose proof (len_nonneg data); pose proof (len_nonneg (pending st)); lia].
  rewrite E, app_nil_r. constructor; [|by left]. exists (W ++ [a]). split; [apply lz77_advance_ok; [done|apply lz77_hash_range]|]. cbn. by rewrite E, app_nil_r.
Qed.

(** The characters held back last time. *)
Lemma pending_loop_spec st W pend data :
  win_ok st W -> len pend <= 2 ->
  exists st', pending_loop st pend data = Some st' /\ lz_ok st' (W ++ pend) data.
Proof.
  revert st W. induction pend as [|c pend IH]; intros st W Hok Hl; cbn [pending_loop].
  { eexists. split; [done|]. constructor; [|by left]. exists W. split; [by apply win_ok_pending|done]. }
  destruct (Z.ltb_spec (len data + len (c :: pend)) HASHCHARS) as [Hlt|Hge].
  { eexists. split; [done|]. constructor; [exists W; split; [by apply win_ok_pending|done]|]. right. cbn. unfold HASHCHARS in Hlt. lia. }
  unfold HASHCHARS in Hge. rewrite len_cons in Hl, Hge.
  assert (exists b d r, (c :: pend) ++ data = c :: b :: d :: r) as (b&d&r&->).
  { destruct (pend ++ data) as [|b [|d r]] eqn:E; pose proof (f_equal len E) as El; rewrite len_app in El.
    - change (len (@nil Z)) with 0 in El. lia.
    - change (len [b]) with 1 in El. lia.
    - exists b, d, r. cbn [app]. by rewrite E. }
  destruct (IH (lz77_advance st c (lz77_hash c b d)) (W ++ [c])) as (st'&->&Hst'); [apply lz77_advance_ok; [done|apply lz77_hash_range]|lia|].
  exists st'. split; [done|]. by rewrite <- app_assoc in Hst'.
Qed.

(** The text up to the position of a deferred match, which is one before the current one. *)
Definition defer_ok (E H data : list Z) (defer : deferred) : Prop :=
  match defer with
  | None => E = H
  | Some (d, n, c) => H = E ++ [c] /\ 3 <= n <= len (c :: data) /\ good E (c :: data) n d
  end.

(** One step: the tokens bring the decoder to where the next deferred match starts. *)
Lemma lz77_choose_spec E H c data found defer :
  found_ok H (c :: data) found -> defer_ok E H (c :: data) defer ->
  exists toks defer' k E', lz77_choose found defer c = (toks, defer', Z.of_nat k) /\ (1 <= k <= length (c :: data))%nat /\ expand E toks = Some E'
    /\ defer_ok E' (H ++ take k (c :: data)) (drop k (c :: data)) defer'.
Proof.
  intros Hf Hd.
  assert (forall dd dn dc, defer = Some (dd, dn, dc) -> exists toks defer' k E', ([Match dd dn], @None (Z * Z * Z), dn - 1) = (toks, defer', Z.of_nat k)
    /\ (1 <= k <= length (c :: data))%nat /\ expand E toks = Some E' /\ defer_ok E' (H ++ take k (c :: data)) (drop k (c :: data)) defer') as Hmatch.
  { intros dd dn dc ->. destruct Hd as (->&Hn&Hg). rewrite len_cons in Hn. exists [Match dd dn], None, (Z.to_nat (dn - 1)), ((E ++ [dc]) ++ take (Z.to_nat (dn - 1)) (c :: data)).
    split_and!; [by rewrite Z2Nat.id by lia|unfold len in Hn; lia|unfold len in Hn; lia| |done]. cbn [expand]. rewrite (expand_match E (dc :: c :: data)); [|rewrite len_cons; lia|done].
    cbn [mbind option_bind]. f_equal. rewrite <- app_assoc. f_equal. replace (Z.to_nat dn) with (S (Z.to_nat (dn - 1))) by lia. done. }
  unfold lz77_choose. destruct found as [[d n]|]; destruct defer as [[[dd dn] dc]|]; cbn in Hf.
  - destruct (dn + 1 <? n); [|by apply (Hmatch dd dn dc)]. destruct Hd as (->&_). exists [Literal dc], (Some (d, n, c)), 1%nat, (E ++ [dc]).
    split_and!; [done|done|cbn; lia|done|]. cbn [defer_ok take drop]. rewrite take_0, drop_0. done.
  - cbn in Hd. subst E. exists [], (Some (d, n, c)), 1%nat, H. split_and!; [done|done|cbn; lia|done|]. cbn [defer_ok take drop]. rewrite take_0, drop_0. done.
  - by apply (Hmatch dd dn dc).
  - cbn in Hd. subst E. exists [Literal c], None, 1%nat, (H ++ [c]). split_and!; [done|done|cbn; lia|done|]. cbn. by rewrite take_0.
Qed.

Lemma lz77_loop_spec fuel st E H data defer :
  lz_ok st H data -> defer_ok E H data defer -> (length data <= fuel)%nat ->
  exists st' toks, lz77_loop fuel st data defer = Some (st', toks) /\ lz_ok st' (H ++ data) [] /\ expand E toks = Some (H ++ data).
Proof.
  revert st E H data defer. induction fuel as [|fuel IH]; intros st E H data defer Hlz Hd Hf; (destruct data as [|c data]; [|cbn in Hf]); try lia.
  1, 2: exists st, []; rewrite app_nil_r; split_and!; try done; destruct defer as [[[dd dn] dc]|]; cbn in Hd; [|by rewrite Hd];
    destruct Hd as (_&Hn&_); rewrite len_cons in Hn; change (len (@nil Z)) with 0 in Hn; lia.
  cbn [lz77_loop]. assert (exists found, best_match st (c :: data) = Some found /\ found_ok H (c :: data) found) as (found&->&Hfound).
  { destruct Hlz as [(W&Hok&->) [Ep|Hp]]; [rewrite Ep, app_nil_r; by apply best_match_spec|]. exists None. split; [|done].
    rewrite len_cons in Hp. pose proof (len_nonneg (pending st)). destruct data as [|b [|d data]]; try done.
    rewrite !len_cons in Hp. pose proof (len_nonneg data). lia. }
  cbn [mbind option_bind]. destruct (lz77_choose_spec E H c data found defer Hfound Hd) as (toks&defer'&k&E'&->&Hk&Htoks&Hd').
  rewrite Nat2Z.id. destruct (advance_loop_spec st H (c :: data) k Hlz) as (st1&->&Hlz1); [lia|]. cbn [mbind option_bind].
  destruct (IH st1 E' _ _ _ Hlz1 Hd') as (st2&toks2&->&Hlz2&Htoks2); [rewrite length_drop; cbn in *; lia|]. cbn [mbind option_bind].
  rewrite <- app_assoc, take_drop in Hlz2, Htoks2. exists st2, (toks ++ toks2). split_and!; [done|done|]. by rewrite (expand_app E E').
Qed.

(** What is compressed: the tokens, after the text [H] so far, stand for the data. *)
Lemma lz77_compress_spec st H data :
  lz_ok st H [] -> exists st' toks, lz77_compress st data = Some (st', toks) /\ lz_ok st' (H ++ data) [] /\ expand H toks = Some (H ++ data).
Proof.
  intros [(W&Hok&->) Hp]. assert (len (pending st) <= 2) as Hl.
  { destruct Hp as [-> |Hp]; [change (len (@nil Z)) with 0; lia|change (len (@nil Z)) with 0 in Hp; lia]. }
  unfold lz77_compress. rewrite (proj2 (Z.leb_le _ _)) by (unfold HASHCHARS; lia).
  destruct (pending_loop_spec st W (pending st) data Hok Hl) as (st1&->&Hlz). cbn [mbind option_bind].
  by apply lz77_loop_spec.
Qed.

Lemma lz_ok_init uninit : lz_ok (lz77_init uninit) [] [].
Proof. constructor; [|by left]. exists []. split; [apply lz77_init_ok|done]. Qed.

(** The characters of literals are those of the text. *)
Definition token_chars (P : Z -> Prop) (t : token) : Prop := match t with Literal c => P c | Match _ _ => True end.

Lemma copy_extends n d H H' : copy n d H = Some H' -> exists l, H' = H ++ l.
Proof.
  revert H. induction n as [|n IH]; intros H; cbn [copy]; [intros [= ->]; exists []; by rewrite app_nil_r|].
  intros (c&_&(l&->)%IH)%bind_Some. exists (c :: l). by rewrite <- app_assoc.
Qed.

Lemma expand_chars P H toks H' : expand H toks = Some H' -> Forall P H' -> Forall (token_chars P) toks /\ Forall P H.
Proof.
  revert H. induction toks as [|t toks IH]; intros H; cbn [expand]; [intros [= ->] HP; split; [by apply Forall_nil|done]|].
  intros (H1&E&Ht)%bind_Some HP. destruct (IH H1 Ht HP) as [Htoks HP1]. destruct t as [c|d n]; cbn in E.
  - injection E as <-. apply Forall_app in HP1 as [HP1 HPc]. split; [|done]. apply Forall_cons. split; [|done]. by apply Forall_cons in HPc as [? _].
  - destruct (_ && _); [|done]. apply copy_extends in E as (l&->). apply Forall_app in HP1 as [HP1 _]. split; [|done]. by apply Forall_cons.
Qed.
