(* ===== verification/ZlibDeflate.v ===== *)
(** * The compressor of zlib (sshzlib.c)

    Bits are collected in [outbits] and appended to the output buffer byte by byte.  The tokens of the LZ77
    stage are written with the static Huffman codes.  Every packet is a part of one endless
    stream: a packet ends with a flush, so that all its data can be decoded from the bytes
    sent so far; up to seven bits stay behind in [outbits].

    The second half of the file describes such a stream as a list of items, each the
    bits of one symbol or of the extra bits after one, and shows that the compressor writes
    items that stand for the data. *)

From S2P Require Import Prelude ZlibHuff ZlibLz77.
Open Scope Z_scope.
Open Scope word_scope.

(** ** Output *)

(** [ob_outbuf] is the contents of the buffer, [None] while there is none. *)
Record Outbuf := mkOut { ob_outbuf : option (list Z); ob_outbits : Z; ob_noutbits : Z; ob_firstblock : bool }.

(** [while (out->noutbits >= 8)] *)
Fixpoint put_bytes (fuel : nat) (buf : list Z) (bits n : Z) : option (list Z * Z * Z) :=
  if 8 <=? n then
    match fuel with
    | O => None
    | S fuel => put_bytes fuel (buf ++ [bits .& 255]) (bits >> 8) (n - 8)
    end
  else Some (buf, bits, n).

Definition outbits (out : Outbuf) (bits nbits : Z) : option Outbuf :=
  assert! ob_noutbits out + nbits <=? 32;
  buf ← ob_outbuf out;
  '(buf, b, n) ← put_bytes 4 buf (ob_outbits out .| (bits << ob_noutbits out)) (ob_noutbits out + nbits);
  Some (mkOut (Some buf) b n (ob_firstblock out)).

Definition zlib_literal (out : Outbuf) (c : Z) : option Outbuf :=
  if c <=? 143 then m ← mirrorbytes !! Z.to_nat (48 + c); outbits out m 8
  else m ← mirrorbytes !! Z.to_nat (144 - 144 + c); outbits out (1 + 2 * m) 9.

(** The binary search for the record of a length or distance, between [i] and [j]. *)
Fixpoint find_code (fuel : nat) (table : list coderecord) (v i j : Z) : option coderecord :=
  match fuel with
  | O => None
  | S fuel =>
      assert! 2 <=? j - i;
      let k := Z.quot (j + i) 2 in
      rec ← table !! Z.to_nat k;
      if v <? cr_min rec then find_code fuel table v i k
      else if cr_max rec <? v then find_code fuel table v k j
      else Some rec
  end.

Definition lookup_code (table : list coderecord) (v : Z) : option coderecord :=
  find_code (length table) table v (-1) (len table).

(** One step of the loop of [zlib_match]. *)
Definition match_step (out : Outbuf) (distance thislen : Z) : option Outbuf :=
  l ← lookup_code lencodes thislen;
  out ← (if cr_code l <=? 279 then m ← mirrorbytes !! Z.to_nat ((cr_code l - 256) * 2); outbits out m 7
         else m ← mirrorbytes !! Z.to_nat (192 - 280 + cr_code l); outbits out m 8);
  out ← (if cr_extrabits l =? 0 then Some out else outbits out (thislen - cr_min l) (cr_extrabits l));
  d ← lookup_code distcodes distance;
  m ← mirrorbytes !! Z.to_nat (cr_code d * 8);
  out ← outbits out m 5;
  if cr_extrabits d =? 0 then Some out else outbits out (distance - cr_min d) (cr_extrabits d).

Definition thislen (n : Z) : Z := if 260 <? n then 258 else if n <=? 258 then n else n - 3.

Fixpoint match_loop (fuel : nat) (out : Outbuf) (distance n : Z) : option Outbuf :=
  if 0 <? n then
    match fuel with
    | O => None
    | S fuel => out ← match_step out distance (thislen n); match_loop fuel out distance (n - thislen n)
    end
  else Some out.

Definition zlib_match (out : Outbuf) (distance n : Z) : option Outbuf := match_loop (Z.to_nat n) out distance n.

(** The calls of [literal] and [match] that [lz77_compress] makes. *)
Definition emit_token (out : Outbuf) (t : token) : option Outbuf :=
  match t with
  | Literal c => zlib_literal out c
  | Match d n => zlib_match out d n
  end.

Fixpoint emit_tokens (out : Outbuf) (toks : list token) : option Outbuf :=
  match toks with
  | [] => Some out
  | t :: toks => out ← emit_token out t; emit_tokens out toks
  end.

(** ** The compressor *)

Record ssh_zlib_compressor := mkComp { ictx : LZ77InternalContext; userdata : Outbuf }.

Definition zlib_compress_init (uninit : Z -> Z) : ssh_zlib_compressor :=
  mkComp (lz77_init uninit) (mkOut None 0 0 true).

(** [while (out->outbuf->len < minlen)]: the [int] is converted to [size_t].  A negative
    [minlen] asks for more bytes than there is memory for; the model runs out of fuel then. *)
Fixpoint pad_loop (fuel : nat) (out : Outbuf) (minlen : Z) : option Outbuf :=
  buf ← ob_outbuf out;
  if len buf <? u64 minlen then
    match fuel with
    | O => None
    | S fuel => out ← outbits out 0 7; out ← outbits out 2 3; pad_loop fuel out minlen
    end
  else Some out.

Definition zlib_compress_block (comp : ssh_zlib_compressor) (block : list Z) (minlen : Z) : option (ssh_zlib_compressor * list Z) :=
  let out := userdata comp in
  assert! (match ob_outbuf out with None => true | Some _ => false end);
  let out := mkOut (Some []) (ob_outbits out) (ob_noutbits out) (ob_firstblock out) in
  '(out, in_block) ← (if ob_firstblock out then
                        out ← outbits out 40056 16;
                        Some (mkOut (ob_outbuf out) (ob_outbits out) (ob_noutbits out) false, false)
                      else Some (out, true));
  out ← (if negb in_block then outbits out 2 3 else Some out);
  '(lz, toks) ← lz77_compress (ictx comp) block;
  out ← emit_tokens out toks;
  out ← outbits out 0 7;
  out ← outbits out 2 (3 + 7);
  out ← outbits out 2 3;
  out ← pad_loop (Z.to_nat minlen) out minlen;
  buf ← ob_outbuf out;
  Some (mkComp lz (mkOut None (ob_outbits out) (ob_noutbits out) (ob_firstblock out)), buf).

Example compress_examples :
  (r ← zlib_compress_block (zlib_compress_init (fun _ => 0)) (codes "aaaaaaa") 0; Some r.2) = Some [120; 156; 74; 132; 0; 128; 0]
  /\ (r ← zlib_compress_block (zlib_compress_init (fun _ => 0)) [] 9; Some (len r.2)) = Some 9
  /\ lookup_code lencodes 300 = None.
Proof. split_and!; vm_compute; reflexivity. Qed.

(** ** Streams of bits *)

(** The bits that are not yet a byte, and the buffer. *)
Record out_ok (out : Outbuf) (buf : list Z) (left : list bool) : Prop := {
  oo_left : bits_of (Z.to_nat (ob_noutbits out)) (ob_outbits out) = left;
  oo_noutbits : 0 <= ob_noutbits out < 8;
  oo_range : 0 <= ob_outbits out < 2 ^ ob_noutbits out;
  oo_bytes : bytes_ok buf
}.

(** An output buffer that has been given the bits [s]. *)
Definition written (out : Outbuf) (s : list bool) : Prop :=
  exists buf left, ob_outbuf out = Some buf /\ out_ok out buf left /\ s = bytes_bits buf ++ left.

Lemma put_bytes_spec fuel buf bits n :
  n < 8 * (Z.of_nat fuel + 1) -> 0 <= n -> 0 <= bits < 2 ^ n -> bytes_ok buf ->
  exists buf' bits' n', put_bytes fuel buf bits n = Some (buf', bits', n') /\ 0 <= n' < 8 /\ 0 <= bits' < 2 ^ n' /\ bytes_ok buf'
    /\ bytes_bits buf' ++ bits_of (Z.to_nat n') bits' = bytes_bits buf ++ bits_of (Z.to_nat n) bits.
Proof.
  revert buf bits n. induction fuel as [|fuel IH]; intros buf bits n Hf Hn Hb Hbuf; cbn [put_bytes].
  all: destruct (Z.leb_spec 8 n); [|exists buf, bits, n; split_and!; done || lia].
  { lia. }
  destruct (IH (buf ++ [bits .& 255]) (bits >> 8) (n - 8)) as (buf'&bits'&n'&->&?&?&?&E); [lia|lia| | |].
  - rewrite Z.shiftr_div_pow2 by lia. replace n with (n - 8 + 8) in Hb by lia. rewrite Z.pow_add_r in Hb by lia.
    split; [apply Z.div_pos; lia|apply Z.div_lt_upper_bound; lia].
  - apply Forall_app. split; [done|]. apply Forall_cons. split; [|by apply Forall_nil]. rewrite land_255. apply Z.mod_pos_bound. done.
  - exists buf', bits', n'. split_and!; try done; try lia. rewrite E, bytes_bits_app, <- app_assoc. f_equal.
    replace (Z.to_nat n) with (8 + Z.to_nat (n - 8))%nat by lia. rewrite bits_of_shiftr. f_equal.
    change (bytes_bits [bits .& 255]) with (bits_of 8 (bits .& 255) ++ []). rewrite app_nil_r, land_255. apply (bits_of_mod 8).
Qed.

(** The bits are appended to the stream. *)
Lemma outbits_spec out s bits nbits :
  written out s -> 0 <= nbits <= 24 -> 0 <= bits < 2 ^ nbits ->
  exists out', outbits out bits nbits = Some out' /\ written out' (s ++ bits_of (Z.to_nat nbits) bits) /\ ob_firstblock out' = ob_firstblock out.
Proof.
  intros (buf&left&Eb&[El Hn Hr Hbuf]&->) Hnb Hb. unfold outbits. rewrite (proj2 (Z.leb_le _ _)) by lia. rewrite Eb. cbn [mbind option_bind].
  destruct (put_bytes_spec 4 buf (ob_outbits out .| (bits << ob_noutbits out)) (ob_noutbits out + nbits)) as (buf'&b'&n'&->&Hn'&Hb'&Hbuf'&E);
    [lia|lia| |done|].
  - rewrite lor_shiftl_add by (done || lia). rewrite Z.pow_add_r by lia. nia.
  - cbn [mbind option_bind]. eexists. split; [done|]. split; [|done]. exists buf', (bits_of (Z.to_nat n') b'). split; [done|]. split; [by constructor|].
    rewrite E, <- app_assoc. f_equal. replace (Z.to_nat (ob_noutbits out + nbits)) with (Z.to_nat (ob_noutbits out) + Z.to_nat nbits)%nat by lia.
    rewrite <- El. pose proof (bits_of_lor (Z.to_nat (ob_noutbits out)) (Z.to_nat nbits) (ob_outbits out) bits) as Hlor.
    rewrite Z2Nat.id in Hlor by lia. symmetry. by apply Hlor.
Qed.

(** ** The items of a stream

    What the decoder is waiting for, and the text it has produced. *)

Inductive control := QStart | QOut | QIn | QLenSym (sym : Z) | QLen (n : Z) | QDistSym (sym n : Z).

(** The header, the start of a static block, a literal or length symbol, a distance symbol,
    and the extra bits after a symbol. *)
Inductive item := IHdr | IOpen | ISym (s : Z) | IDist (s : Z) | IExtra (k : nat) (v : Z).

Definition item_bits (i : item) : list bool :=
  match i with
  | IHdr => bits_of 16 40056
  | IOpen => bits_of 3 2
  | ISym s => static_code s
  | IDist s => static_dist_code s
  | IExtra k v => bits_of k v
  end.

Definition stream (l : list item) : list bool := l ≫= item_bits.

Definition extra_ok (rec : coderecord) (k : nat) (v : Z) : bool :=
  (Z.of_nat k =? cr_extrabits rec) && (0 <=? v) && (v <? 2 ^ cr_extrabits rec).

Definition item_step (q : control) (H : list Z) (i : item) : option (control * list Z) :=
  match q, i with
  | QStart, IHdr => Some (QOut, H)
  | QOut, IOpen => Some (QIn, H)
  | QIn, ISym s =>
      if s <? 0 then None else if s <? 256 then Some (QIn, H ++ [s])
      else if s =? 256 then Some (QOut, H) else if s <? 286 then Some (QLenSym s, H) else None
  | QLenSym s, IExtra k v =>
      rec ← lencodes !! Z.to_nat (s - 257); assert! extra_ok rec k v; Some (QLen (cr_min rec + v), H)
  | QLen n, IDist s => assert! (0 <=? s) && (s <? 30); Some (QDistSym s n, H)
  | QDistSym s n, IExtra k v =>
      rec ← distcodes !! Z.to_nat s; assert! extra_ok rec k v && (cr_min rec + v <=? len H);
      H ← copy (Z.to_nat n) (cr_min rec + v) H; Some (QIn, H)
  | _, _ => None
  end.

Fixpoint run_items (q : control) (H : list Z) (l : list item) : option (control * list Z) :=
  match l with
  | [] => Some (q, H)
  | i :: l => '(q, H) ← item_step q H i; run_items q H l
  end.

Lemma stream_app l k : stream (l ++ k) = stream l ++ stream k.
Proof. apply bind_app. Qed.

Lemma run_items_app q H l k q' H' : run_items q H l = Some (q', H') -> run_items q H (l ++ k) = run_items q' H' k.
Proof.
  revert q H. induction l as [|i l IH]; intros q H; [by intros [= -> ->]|]. cbn [run_items app].
  destruct (item_step q H i) as [[q1 H1]|]; [|done]. cbn [mbind option_bind]. apply IH.
Qed.

(** [f] writes the items [l]. *)
Definition puts (f : Outbuf -> option Outbuf) (l : list item) : Prop :=
  forall out s, written out s -> exists out', f out = Some out' /\ written out' (s ++ stream l) /\ ob_firstblock out' = ob_firstblock out.

Lemma puts_ret : puts Some [].
Proof. intros out s Hw. exists out. cbn. by rewrite app_nil_r. Qed.

Lemma puts_bind f g l k : puts f l -> puts g k -> puts (fun out => out ← f out; g out) (l ++ k).
Proof.
  intros Hf Hg out s Hw. destruct (Hf out s Hw) as (o1&->&Hw1&F1). cbn [mbind option_bind]. destruct (Hg o1 _ Hw1) as (o2&->&Hw2&F2).
  exists o2. split; [done|]. rewrite stream_app, app_assoc. split; [done|congruence].
Qed.

(** One call of [outbits] for all the bits of [l]. *)
Lemma puts_outbits l bits nbits :
  0 <= nbits <= 24 -> 0 <= bits < 2 ^ nbits -> bits_of (Z.to_nat nbits) bits = stream l -> puts (fun out => outbits out bits nbits) l.
Proof.
  intros Hn Hb E out s Hw. destruct (outbits_spec out s bits nbits Hw Hn Hb) as (o&->&Hw'&F).
  exists o. split; [done|]. split; [|done]. by rewrite <- E.
Qed.

(** The bits of a match that were written before its characters count. *)
Definition owed (q : control) : Z := match q with QLenSym _ => 9 | QLen _ => 14 | QDistSym _ _ => 19 | _ => 0 end.

(** [n] bits are no more than eleven for every character of the text. *)
Definition affordable (n : Z) (q : control) (H : list Z) (q' : control) (H' : list Z) : Prop := n <= 11 * (len H' - len H) + owed q' - owed q.

(** [f] writes items that bring the decoder from [q] and [H] to [q'] and [H'], and not too many bits. *)
Definition writes (f : Outbuf -> option Outbuf) (q : control) (H : list Z) (q' : control) (H' : list Z) : Prop :=
  exists l, run_items q H l = Some (q', H') /\ puts f l /\ affordable (len (stream l)) q H q' H'.

Lemma writes_ret q H : writes Some q H q H.
Proof. exists []. split; [done|]. split; [apply puts_ret|]. unfold affordable. change (len (stream [])) with 0. lia. Qed.

Lemma writes_bind f g q1 H1 q2 H2 q3 H3 :
  writes f q1 H1 q2 H2 -> writes g q2 H2 q3 H3 -> writes (fun out => out ← f out; g out) q1 H1 q3 H3.
Proof.
  intros (l&Hl&Hf&Hc) (k&Hk&Hg&Hd). exists (l ++ k). split; [by rewrite (run_items_app _ _ _ _ _ _ Hl)|]. split; [by apply puts_bind|].
  unfold affordable in *. rewrite stream_app, len_app. lia.
Qed.

Lemma writes_item i bits nbits q H q' H' :
  item_step q H i = Some (q', H') -> 0 <= nbits <= 24 -> 0 <= bits < 2 ^ nbits -> bits_of (Z.to_nat nbits) bits = item_bits i ->
  affordable nbits q H q' H' -> writes (fun out => outbits out bits nbits) q H q' H'.
Proof.
  intros Hi Hn Hb E Hc. assert (stream [i] = item_bits i) as Es by (cbn; by rewrite app_nil_r). exists [i]. split; [cbn; by rewrite Hi|].
  split; [apply puts_outbits; try done; by rewrite E|]. rewrite Es, <- E. unfold len at 1. rewrite length_bits_of, Z2Nat.id by lia. done.
Qed.

(** *** Literals *)

Lemma literal_bits c : 0 <= c < 256 ->
  if c <=? 143 then exists m, mirrorbytes !! Z.to_nat (48 + c) = Some m /\ 0 <= m < 2 ^ 8 /\ bits_of 8 m = static_code c
  else exists m, mirrorbytes !! Z.to_nat (144 - 144 + c) = Some m /\ 0 <= 1 + 2 * m < 2 ^ 9 /\ bits_of 9 (1 + 2 * m) = static_code c.
Proof.
  intros Hc.
  assert (forallb (fun k => let c := Z.of_nat k in
    if c <=? 143 then match mirrorbytes !! Z.to_nat (48 + c) with Some m => (0 <=? m) && (m <? 2 ^ 8) && beq_bits (bits_of 8 m) (static_code c) | None => false end
    else match mirrorbytes !! Z.to_nat (144 - 144 + c) with
         | Some m => (0 <=? 1 + 2 * m) && (1 + 2 * m <? 2 ^ 9) && beq_bits (bits_of 9 (1 + 2 * m)) (static_code c) | None => false end) (seq 0 256) = true) as Hall
    by (vm_compute; reflexivity).
  rewrite forallb_forall in Hall. specialize (Hall (Z.to_nat c) ltac:(apply in_seq; lia)). cbn zeta in Hall. rewrite Z2Nat.id in Hall by lia.
  destruct (c <=? 143); destruct (mirrorbytes !! _) as [m|]; try done; exists m; split; try done;
    apply andb_true_iff in Hall as [[?%Z.leb_le ?%Z.ltb_lt]%andb_true_iff ?%bool_decide_eq_true]; done.
Qed.

Lemma literal_step H c : 0 <= c < 256 -> item_step QIn H (ISym c) = Some (QIn, H ++ [c]).
Proof. intros Hc. cbn. rewrite (proj2 (Z.ltb_ge _ _)), (proj2 (Z.ltb_lt _ _)) by lia. done. Qed.

Lemma writes_literal H c : 0 <= c < 256 -> writes (fun out => zlib_literal out c) QIn H QIn (H ++ [c]).
Proof.
  intros Hc. pose proof (literal_bits c Hc) as Hb. unfold zlib_literal. destruct (c <=? 143); destruct Hb as (m&->&Hm&E); cbn [mbind option_bind].
  all: eapply writes_item; [by apply literal_step|lia|done|done|unfold affordable; rewrite len_app; change (len [c]) with 1; cbn [owed]; lia].
Qed.

(** *** The binary search

    In a table whose ranges follow each other without a gap, the search finds the range of a value. *)

Section FindCode.
Context (table : list coderecord) (lo hi : Z).
Hypothesis Hfirst : exists r, table !! 0%nat = Some r /\ cr_min r = lo.
Hypothesis Hlast : exists r, table !! (length table - 1)%nat = Some r /\ cr_max r = hi.
Hypothesis Hgap : forall k r r', table !! k = Some r -> table !! S k = Some r' -> cr_min r' = cr_max r + 1.

Definition below (v i : Z) : Prop := i = -1 \/ exists r, table !! Z.to_nat i = Some r /\ cr_max r < v.
Definition above (v j : Z) : Prop := j = len table \/ exists r, table !! Z.to_nat j = Some r /\ v < cr_min r.

Lemma bounds_apart v i j : lo <= v <= hi -> -1 <= i < j -> below v i -> above v j -> 2 <= j - i.
Proof using Hfirst Hlast Hgap.
  intros Hv Hij Hb Ha. destruct (Z.eq_dec j (i + 1)) as [->|]; [exfalso|lia]. destruct Hb as [->|(r&Er&Hr)]; destruct Ha as [Ej|(r'&Er'&Hr')].
  - destruct Hfirst as (r&Er&_). apply lookup_lt_Some in Er. unfold len in Ej. lia.
  - destruct Hfirst as (r&Er&E). change (Z.to_nat (-1 + 1)) with 0%nat in Er'. simplify_eq. lia.
  - apply lookup_lt_Some in Er as Hlt. destruct Hlast as (r'&Er'&E). assert (Z.to_nat i = (length table - 1)%nat) as Ei by (unfold len in Ej; lia). rewrite Ei in Er. simplify_eq. lia.
  - destruct (Z.eq_dec i (-1)) as [->|].
    + destruct Hfirst as (r0&Er0&E). change (Z.to_nat (-1 + 1)) with 0%nat in Er'. simplify_eq. lia.
    + replace (Z.to_nat (i + 1)) with (S (Z.to_nat i)) in Er' by lia. pose proof (Hgap _ _ _ Er Er'). lia.
Qed.

Lemma find_code_spec fuel v i j :
  lo <= v <= hi -> -1 <= i < j -> j <= len table -> below v i -> above v j -> j - i <= Z.of_nat fuel + 1 ->
  exists k rec, table !! k = Some rec /\ find_code fuel table v i j = Some rec /\ cr_min rec <= v <= cr_max rec.
Proof using Hfirst Hlast Hgap.
  intros Hv. revert i j. induction fuel as [|fuel IH]; intros i j Hij Hj Hb Ha Hf; pose proof (bounds_apart v i j Hv Hij Hb Ha) as Hap; [lia|].
  cbn [find_code]. rewrite (proj2 (Z.leb_le _ _)) by done. rewrite Z.quot_div_nonneg by lia. set (k := (j + i) / 2).
  assert (i < k < j) as Hk by (subst k; zdivmod). destruct (lookup_lt_is_Some_2 table (Z.to_nat k)) as [rec Erec]; [unfold len in Hj; lia|].
  rewrite Erec. cbn [mbind option_bind]. destruct (Z.ltb_spec v (cr_min rec)); [apply IH; try lia; try done; right; by exists rec|].
  destruct (Z.ltb_spec (cr_max rec) v); [apply IH; try lia; try done; right; by exists rec|].
  exists (Z.to_nat k), rec. split_and!; done || lia.
Qed.

Lemma lookup_code_spec v : lo <= v <= hi -> exists k rec, table !! k = Some rec /\ lookup_code table v = Some rec /\ cr_min rec <= v <= cr_max rec.
Proof using Hfirst Hlast Hgap. intros Hv. unfold lookup_code. pose proof (len_nonneg table). apply find_code_spec; try lia; [by left|by left|unfold len; lia]. Qed.
End FindCode.

(** A table of records with consecutive ranges, the codes counted from [base]. *)
Fixpoint table_ok (base : Z) (min : Z) (l : list coderecord) : bool :=
  match l with
  | [] => true
  | r :: l => (cr_code r =? base) && (cr_min r =? min) && (0 <=? cr_extrabits r) && (cr_extrabits r <=? 13) && (cr_max r - cr_min r <? 2 ^ cr_extrabits r)
              && table_ok (base + 1) (cr_max r + 1) l
  end.

Lemma table_ok_lookup base min l k r :
  table_ok base min l = true -> l !! k = Some r ->
  cr_code r = base + Z.of_nat k /\ 0 <= cr_extrabits r <= 13 /\ cr_max r - cr_min r < 2 ^ cr_extrabits r
  /\ (k = 0%nat -> cr_min r = min) /\ forall r', l !! S k = Some r' -> cr_min r' = cr_max r + 1.
Proof.
  revert base min k r. induction l as [|r0 l IH]; intros base min k r; [done|]. cbn [table_ok].
  intros [[[[[E1%Z.eqb_eq E2%Z.eqb_eq]%andb_true_iff E3%Z.leb_le]%andb_true_iff E4%Z.leb_le]%andb_true_iff E5%Z.ltb_lt]%andb_true_iff Ht]%andb_true_iff.
  destruct k as [|k]; cbn [lookup list_lookup].
  - intros [= <-]. split_and!; try lia. intros r' Hr'. destruct l as [|r1 l]; [done|]. injection Hr' as <-.
    by destruct (IH _ _ 0%nat r1 Ht eq_refl) as (_&_&_&Hmin&_); apply Hmin.
  - intros Hk. destruct (IH _ _ k r Ht Hk) as (H1&H2&H3&_&H5). split_and!; try lia. exact H5.
Qed.

Lemma len_code v : 3 <= v <= 258 ->
  exists k rec, lencodes !! k = Some rec /\ lookup_code lencodes v = Some rec /\ cr_min rec <= v <= cr_max rec
    /\ cr_code rec = 257 + Z.of_nat k /\ 0 <= cr_extrabits rec <= 5 /\ v - cr_min rec < 2 ^ cr_extrabits rec.
Proof.
  intros Hv. assert (table_ok 257 3 lencodes = true) as Hok by (vm_compute; reflexivity).
  destruct (lookup_code_spec lencodes 3 258) with (v := v) as (k&rec&Ek&El&Hrec); [by eexists|by eexists| |done|].
  { intros k r r' Hr. apply (table_ok_lookup _ _ _ _ _ Hok Hr). }
  assert (Forall (fun r => cr_extrabits r <= 5) lencodes) as Hall by (repeat constructor; cbn; lia). pose proof (Forall_lookup_1 _ _ _ _ Hall Ek) as H5. cbn beta in H5.
  destruct (table_ok_lookup _ _ _ _ _ Hok Ek) as (?&?&?&_). exists k, rec. split_and!; done || lia.
Qed.

Lemma dist_code v : 1 <= v <= WINSIZE ->
  exists k rec, distcodes !! k = Some rec /\ lookup_code distcodes v = Some rec /\ cr_min rec <= v <= cr_max rec
    /\ cr_code rec = 0 + Z.of_nat k /\ 0 <= cr_extrabits rec <= 13 /\ v - cr_min rec < 2 ^ cr_extrabits rec.
Proof.
  intros Hv. assert (table_ok 0 1 distcodes = true) as Hok by (vm_compute; reflexivity).
  destruct (lookup_code_spec distcodes 1 WINSIZE) with (v := v) as (k&rec&Ek&El&Hrec); [by eexists|by eexists| |done|].
  { intros k r r' Hr. apply (table_ok_lookup _ _ _ _ _ Hok Hr). }
  destruct (table_ok_lookup _ _ _ _ _ Hok Ek) as (?&?&?&_). exists k, rec. split_and!; done || lia.
Qed.

(** *** Matches *)

Lemma length_bits code : 257 <= code < 286 ->
  if code <=? 279 then exists m, mirrorbytes !! Z.to_nat ((code - 256) * 2) = Some m /\ 0 <= m < 2 ^ 7 /\ bits_of 7 m = static_code code
  else exists m, mirrorbytes !! Z.to_nat (192 - 280 + code) = Some m /\ 0 <= m < 2 ^ 8 /\ bits_of 8 m = static_code code.
Proof.
  intros Hc.
  assert (forallb (fun k => let c := 257 + Z.of_nat k in
    let '(i, n) := if c <=? 279 then ((c - 256) * 2, 7%nat) else (192 - 280 + c, 8%nat) in
    match mirrorbytes !! Z.to_nat i with Some m => (0 <=? m) && (m <? 2 ^ Z.of_nat n) && beq_bits (bits_of n m) (static_code c) | None => false end) (seq 0 29) = true) as Hall
    by (vm_compute; reflexivity).
  rewrite forallb_forall in Hall. specialize (Hall (Z.to_nat (code - 257)) ltac:(apply in_seq; lia)). cbn zeta in Hall.
  rewrite Z2Nat.id, Z.add_sub_assoc, (Z.add_comm 257), Z.add_simpl_r in Hall by lia.
  destruct (code <=? 279); destruct (mirrorbytes !! _) as [m|]; try done; exists m; split; try done;
    apply andb_true_iff in Hall as [[?%Z.leb_le ?%Z.ltb_lt]%andb_true_iff ?%bool_decide_eq_true]; done.
Qed.

Lemma distance_bits code : 0 <= code < 30 ->
  exists m, mirrorbytes !! Z.to_nat (code * 8) = Some m /\ 0 <= m < 2 ^ 5 /\ bits_of 5 m = static_dist_code code.
Proof.
  intros Hc.
  assert (forallb (fun k => let c := Z.of_nat k in
    match mirrorbytes !! Z.to_nat (c * 8) with Some m => (0 <=? m) && (m <? 2 ^ 5) && beq_bits (bits_of 5 m) (static_dist_code c) | None => false end) (seq 0 30) = true)
    as Hall by (vm_compute; reflexivity).
  rewrite forallb_forall in Hall. specialize (Hall (Z.to_nat code) ltac:(apply in_seq; lia)). cbn zeta in Hall. rewrite Z2Nat.id in Hall by lia.
  destruct (mirrorbytes !! _) as [m|]; try done; exists m; split; try done.
  apply andb_true_iff in Hall as [[?%Z.leb_le ?%Z.ltb_lt]%andb_true_iff ?%bool_decide_eq_true]; done.
Qed.

(** The extra bits of a symbol, of which there may be none. *)
Lemma writes_extra q H q' H' v eb :
  item_step q H (IExtra (Z.to_nat eb) v) = Some (q', H') -> 0 <= eb <= 13 -> 0 <= v < 2 ^ eb -> affordable eb q H q' H' ->
  writes (fun out => if eb =? 0 then Some out else outbits out v eb) q H q' H'.
Proof.
  intros Hi He Hv Hc. destruct (Z.eqb_spec eb 0) as [->|]; [|eapply writes_item; [done|lia|done|done|done]].
  exists [IExtra 0 v]. split; [cbn [run_items]; change (Z.to_nat 0) with 0%nat in Hi; by rewrite Hi|].
  split; [|exact Hc]. intros out s Hw. exists out. cbn. by rewrite app_nil_r.
Qed.

Lemma writes_length H n rec k :
  3 <= n <= 258 -> lencodes !! k = Some rec -> cr_code rec = 257 + Z.of_nat k ->
  writes (fun out => if cr_code rec <=? 279 then m ← mirrorbytes !! Z.to_nat ((cr_code rec - 256) * 2); outbits out m 7
                     else m ← mirrorbytes !! Z.to_nat (192 - 280 + cr_code rec); outbits out m 8)
    QIn H (QLenSym (cr_code rec)) H.
Proof.
  intros Hn Hk Ec. apply lookup_lt_Some in Hk as Hlt. change (length lencodes) with 29%nat in Hlt.
  assert (item_step QIn H (ISym (cr_code rec)) = Some (QLenSym (cr_code rec), H)) as Hi.
  { cbn. rewrite !(proj2 (Z.ltb_ge _ _)), (proj2 (Z.eqb_neq _ _)), (proj2 (Z.ltb_lt _ 286)) by lia. done. }
  pose proof (length_bits (cr_code rec) ltac:(lia)) as Hb.
  destruct (cr_code rec <=? 279); destruct Hb as (m&->&Hm&E); cbn [mbind option_bind]; (eapply writes_item; [done|lia|done|done|unfold affordable; cbn [owed]; lia]).
Qed.

Lemma len_copy n d H H' : copy n d H = Some H' -> len H' = len H + Z.of_nat n.
Proof.
  revert H. induction n as [|n IH]; intros H; cbn [copy]; [intros [= ->]; lia|].
  intros (c&_&E%IH)%bind_Some. rewrite E, len_app. change (len [c]) with 1. lia.
Qed.

Lemma writes_match_step H H' d n :
  3 <= n <= 258 -> 1 <= d <= WINSIZE -> d <= len H -> copy (Z.to_nat n) d H = Some H' -> writes (fun out => match_step out d n) QIn H QIn H'.
Proof.
  intros Hn Hd HH Hcopy. destruct (len_code n Hn) as (k&l&Ek&El&Hl&Ec&Heb&Hx). destruct (dist_code d Hd) as (kd&r&Ekd&Er&Hr&Ecd&Hebd&Hxd).
  unfold match_step. rewrite El, Er. cbn [mbind option_bind]. apply lookup_lt_Some in Ekd as Hltd. change (length distcodes) with 30%nat in Hltd.
  destruct (distance_bits (cr_code r) ltac:(lia)) as (m&->&Hm&Em). cbn [mbind option_bind].
  apply (writes_bind _ _ _ _ (QLenSym (cr_code l)) H); [by apply (writes_length H n l k)|].
  apply (writes_bind _ _ _ _ (QLen n) H); [apply writes_extra; [|lia|lia|unfold affordable; cbn [owed]; lia]|].
  { cbn [item_step]. replace (Z.to_nat (cr_code l - 257)) with k by lia. rewrite Ek. cbn [mbind option_bind]. unfold extra_ok.
    rewrite Z2Nat.id, Z.eqb_refl, (proj2 (Z.leb_le _ _)), (proj2 (Z.ltb_lt _ _)) by lia. cbn [andb]. do 3 f_equal. lia. }
  apply (writes_bind _ _ _ _ (QDistSym (cr_code r) n) H); [apply (writes_item (IDist (cr_code r))); [|lia|done|done|unfold affordable; cbn [owed]; lia]|].
  { cbn [item_step]. by rewrite (proj2 (Z.leb_le _ _)), (proj2 (Z.ltb_lt _ _)) by lia. }
  apply writes_extra; [|done|lia|unfold affordable; cbn [owed]; apply len_copy in Hcopy; lia]. cbn [item_step]. replace (Z.to_nat (cr_code r)) with kd by lia. rewrite Ekd. cbn [mbind option_bind].
  unfold extra_ok. replace (cr_min r + (d - cr_min r)) with d by lia. rewrite Z2Nat.id, Z.eqb_refl, !(proj2 (Z.leb_le _ _)), (proj2 (Z.ltb_lt _ _)) by lia.
  cbn [andb]. by rewrite Hcopy.
Qed.

Lemma copy_add a b d H : copy (a + b) d H = (H ← copy a d H; copy b d H).
Proof.
  revert H. induction a as [|a IH]; intros H; [done|]. cbn [copy Nat.add]. destruct (H !! _) as [c|]; [|done]. cbn [mbind option_bind]. apply IH.
Qed.


(** A long match is written in several steps. *)
Lemma writes_match_loop fuel H H' d n :
  n = 0 \/ 3 <= n -> n <= Z.of_nat fuel -> 1 <= d <= WINSIZE -> d <= len H -> copy (Z.to_nat n) d H = Some H' ->
  writes (fun out => match_loop fuel out d n) QIn H QIn H'.
Proof.
  revert H n. induction fuel as [|fuel IH]; intros H n Hn Hf Hd HH Hc; cbn [match_loop].
  all: destruct (Z.ltb_spec 0 n) as [Hpos|]; [|destruct Hn as [->|]; [injection Hc as ->; apply writes_ret|lia]].
  { lia. }
  assert (3 <= thislen n <= 258 /\ thislen n <= n /\ (n - thislen n = 0 \/ 3 <= n - thislen n)) as (Ht1&Ht2&Ht3).
  { unfold thislen. destruct (Z.ltb_spec 260 n); [lia|]. destruct (Z.leb_spec n 258); lia. }
  replace (Z.to_nat n) with (Z.to_nat (thislen n) + Z.to_nat (n - thislen n))%nat in Hc by lia. rewrite copy_add in Hc.
  apply bind_Some in Hc as (H1&Hc1&Hc2). apply (writes_bind _ _ _ _ QIn H1); [by apply writes_match_step|].
  apply IH; try done; try lia. apply len_copy in Hc1. lia.
Qed.

Lemma writes_token H H' t : expand1 H t = Some H' -> token_chars byte_ok t -> writes (fun out => emit_token out t) QIn H QIn H'.
Proof.
  destruct t as [c|d n]; cbn [expand1 emit_token].
  - intros [= <-] Hc. by apply writes_literal.
  - destruct (_ && _) eqn:E; [|done]. intros Hc _. apply andb_true_iff in E as [[[?%Z.leb_le ?%Z.leb_le]%andb_true_iff ?%Z.leb_le]%andb_true_iff ?%Z.leb_le].
    apply writes_match_loop; try done; lia.
Qed.

Lemma writes_tokens H H' toks : expand H toks = Some H' -> Forall (token_chars byte_ok) toks -> writes (fun out => emit_tokens out toks) QIn H QIn H'.
Proof.
  revert H. induction toks as [|t toks IH]; intros H; cbn [expand emit_tokens]; [intros [= ->] _; apply writes_ret|].
  intros (H1&E1&E2)%bind_Some [Ht Hts]%Forall_cons. apply (writes_bind _ _ _ _ QIn H1); [by apply writes_token|by apply IH].
Qed.

(** ** A packet *)

(** The flush and the padding: empty static blocks, and at the end a new block is open. *)
Definition flush_items (pads : nat) : list item :=
  [ISym 256; IOpen; ISym 256; IOpen] ++ mjoin (replicate pads [ISym 256; IOpen]).

(** The compressor between two packets: the text [H] has been compressed, the bits [left] are not sent yet. *)
Record comp_ok (comp : ssh_zlib_compressor) (H : list Z) (left : list bool) : Prop := {
  co_lz : lz_ok (ictx comp) H [];
  co_idle : ob_outbuf (userdata comp) = None;
  co_out : out_ok (userdata comp) [] left
}.

Lemma comp_ok_init uninit : comp_ok (zlib_compress_init uninit) [] [].
Proof. constructor; [apply lz_ok_init|done|by constructor]. Qed.

Lemma written_len out s buf : written out s -> ob_outbuf out = Some buf -> 8 * len buf <= len s < 8 * len buf + 8.
Proof.
  intros (buf'&left&Eb&[El Hn Hr _]&->) Eb'. rewrite Eb in Eb'. injection Eb' as <-. rewrite len_app.
  rewrite len_bytes_bits.
  assert (len left = ob_noutbits out) as ->; [|lia]. rewrite <- El. unfold len. rewrite length_bits_of. lia.
Qed.

Lemma puts_pad : puts (fun out => out ← outbits out 0 7; outbits out 2 3) [ISym 256; IOpen].
Proof. apply (puts_bind _ _ [ISym 256] [IOpen]); by apply puts_outbits. Qed.

(** The padding ends, and the packet is long enough. *)
Lemma pad_loop_spec fuel out s buf minlen :
  written out s -> ob_outbuf out = Some buf -> 0 <= minlen <= INT_MAX -> minlen - len buf <= Z.of_nat fuel ->
  exists out' pads buf', pad_loop fuel out minlen = Some out' /\ ob_outbuf out' = Some buf' /\ minlen <= len buf' /\ len buf' <= Z.max (len buf) (minlen + 1)
    /\ written out' (s ++ stream (mjoin (replicate pads [ISym 256; IOpen]))) /\ ob_firstblock out' = ob_firstblock out.
Proof.
  intros Hw Eb Hm. assert (u64 minlen = minlen) as Eu by (apply wrap_id; unfold word_ok, INT_MAX in *; lia). revert out s buf Hw Eb.
  induction fuel as [|fuel IH]; intros out s buf Hw Eb Hf; cbn [pad_loop]; rewrite Eb; cbn [mbind option_bind]; rewrite Eu.
  all: destruct (Z.ltb_spec (len buf) minlen); [|exists out, 0%nat, buf; cbn; rewrite app_nil_r; split_and!; done || lia].
  { lia. }
  destruct (puts_pad out s Hw) as (o1&E1&Hw1&F1). apply bind_Some in E1 as (o0&->&E1). cbn [mbind option_bind]. rewrite E1. cbn [mbind option_bind].
  destruct Hw1 as (buf1&left&Eb1&Hrest). assert (written o1 (s ++ stream [ISym 256; IOpen])) as Hw1 by (exists buf1, left; done).
  pose proof (written_len _ _ _ Hw Eb). pose proof (written_len _ _ _ Hw1 Eb1) as Hl1. rewrite len_app in Hl1.
  change (len (stream [ISym 256; IOpen])) with 10 in Hl1.
  destruct (IH o1 _ buf1 Hw1 Eb1) as (o2&pads&buf2&->&Eb2&Hmin&Hmax&Hw2&F2); [lia|]. exists o2, (S pads), buf2. split_and!; try done; [lia| |congruence].
  by rewrite <- app_assoc, <- stream_app in Hw2.
Qed.

(** The header and the first block. *)
Lemma writes_start out s H :
  written out s ->
  exists out' items, ('(out, in_block) ← (if ob_firstblock out then
                        out ← outbits out 40056 16;
                        Some (mkOut (ob_outbuf out) (ob_outbits out) (ob_noutbits out) false, false)
                      else Some (out, true));
                      if negb in_block then outbits out 2 3 else Some out) = Some out'
    /\ run_items (if ob_firstblock out then QStart else QIn) H items = Some (QIn, H) /\ written out' (s ++ stream items) /\ ob_firstblock out' = false /\ len (stream items) <= 19.
Proof.
  intros Hw. destruct (ob_firstblock out) eqn:F; [|exists out, []; cbn; by rewrite app_nil_r].
  destruct (puts_outbits [IHdr] 40056 16 ltac:(lia) ltac:(lia) eq_refl out s Hw) as (o1&->&Hw1&_). cbn [mbind option_bind negb].
  assert (written (mkOut (ob_outbuf o1) (ob_outbits o1) (ob_noutbits o1) false) (s ++ stream [IHdr])) as Hw1'.
  { destruct Hw1 as (buf&left&?&[? ? ? ?]&?). by exists buf, left. }
  destruct (puts_outbits [IOpen] 2 3 ltac:(lia) ltac:(lia) eq_refl _ _ Hw1') as (o2&->&Hw2&F2). exists o2, [IHdr; IOpen].
  split_and!; try done. by rewrite <- app_assoc, <- stream_app in Hw2.
Qed.

(** What a packet puts on the wire, after the bits left over from the last one: items that stand for the data, and a flush. *)
Lemma compress_block_spec comp H left data minlen :
  comp_ok comp H left -> bytes_ok H -> bytes_ok data -> 0 <= minlen <= INT_MAX ->
  exists comp' wire left' items pads, zlib_compress_block comp data minlen = Some (comp', wire) /\ minlen <= len wire /\ bytes_ok wire
    /\ len wire <= Z.max (2 * len data + 6) (minlen + 1) /\ comp_ok comp' (H ++ data) left' /\ ob_firstblock (userdata comp') = false /\ len left' < 8
    /\ run_items (if ob_firstblock (userdata comp) then QStart else QIn) H items = Some (QIn, H ++ data)
    /\ left ++ stream (items ++ flush_items pads) = bytes_bits wire ++ left'.
Proof.
  intros [Hlz Hidle Hout] HH Hdata Hm. unfold zlib_compress_block. rewrite Hidle. set (out := mkOut (Some []) _ _ _).
  assert (written out left) as Hw.
  { exists [], left. split; [done|]. split; [|done]. destruct Hout. by constructor. }
  destruct (writes_start out left H Hw) as (o1&items1&E1&Hr1&Hw1&F1&Hc1). apply bind_Some in E1 as ([o0 inb]&->&E1). cbn [mbind option_bind]. rewrite E1.
  cbn [mbind option_bind]. destruct (lz77_compress_spec _ _ data Hlz) as (lz&toks&->&Hlz'&Hexp). cbn [mbind option_bind].
  destruct (expand_chars byte_ok _ _ _ Hexp) as [Htoks _]; [by apply Forall_app|].
  destruct (writes_tokens _ _ _ Hexp Htoks) as (items2&Hr2&Hp2&Hc2). destruct (Hp2 o1 _ Hw1) as (o2&->&Hw2&F2). cbn [mbind option_bind].
  destruct (puts_outbits [ISym 256] 0 7 ltac:(lia) ltac:(lia) eq_refl o2 _ Hw2) as (o3&->&Hw3&F3). cbn [mbind option_bind].
  destruct (puts_outbits [IOpen; ISym 256] 2 (3 + 7) ltac:(lia) ltac:(lia) eq_refl o3 _ Hw3) as (o4&->&Hw4&F4). cbn [mbind option_bind].
  destruct (puts_outbits [IOpen] 2 3 ltac:(lia) ltac:(lia) eq_refl o4 _ Hw4) as (o5&->&Hw5&F5). cbn [mbind option_bind].
  destruct Hw5 as (buf5&left5&Eb5&Hrest5). pose proof (written_len _ _ buf5 (ex_intro _ buf5 (ex_intro _ left5 (conj Eb5 Hrest5))) Eb5) as Hl5.
  rewrite !len_app in Hl5. unfold affordable in Hc2. cbn [owed] in Hc2. rewrite len_app in Hc2. assert (len left < 8) as Hleft.
  { destruct Hout as [<- Hn _ _]. unfold len. rewrite length_bits_of. lia. }
  change (len (stream [ISym 256])) with 7 in Hl5. change (len (stream [IOpen; ISym 256])) with 10 in Hl5. change (len (stream [IOpen])) with 3 in Hl5.
  destruct (pad_loop_spec (Z.to_nat minlen) o5 _ buf5 minlen ltac:(by exists buf5, left5) Eb5 Hm)
    as (o6&pads&wire&->&Eb6&Hmin&Hmax&Hw6&F6); [pose proof (len_nonneg buf5); lia|]. cbn [mbind option_bind]. rewrite Eb6. cbn [mbind option_bind].
  destruct Hw6 as (wire'&left'&Eb6'&Ho6&Es6). rewrite Eb6 in Eb6'. injection Eb6' as <-.
  exists (mkComp lz (mkOut None (ob_outbits o6) (ob_noutbits o6) (ob_firstblock o6))), wire, left', (items1 ++ items2), pads.
  split_and!; [done|done|by destruct Ho6| | | | |by rewrite (run_items_app _ _ _ _ _ _ Hr1)|].
  - pose proof (len_nonneg data). lia.
  - constructor; [done|done|]. destruct Ho6. by constructor.
  - cbn. congruence.
  - destruct Ho6 as [<- Hn _ _]. unfold len. rewrite length_bits_of. lia.
  - rewrite <- Es6. unfold flush_items. rewrite !stream_app, <- !app_assoc. done.
Qed.
