(* ===== verification/ZlibInflate.v ===== *)
(** * The decompressor of zlib (sshzlib.c)

    A state machine that is fed the bytes of a packet at a time and stops wherever
    the bits run out.  Besides the static trees that the compressor of this program uses, it accepts
    dynamic trees and uncompressed blocks. *)

From S2P Require Import Prelude ZlibHuff ZlibLz77.
Open Scope Z_scope.
Open Scope word_scope.

Inductive dstate :=
  | START | OUTSIDEBLK
  | TREES_HDR | TREES_LENLEN | TREES_LEN | TREES_LENREP
  | INBLK | GOTLENSYM | GOTLEN | GOTDISTSYM
  | UNCOMP_LEN | UNCOMP_NLEN | UNCOMP_DATA.

(** A pointer to one of the static tables, or to a table that was made for the block. *)
Inductive tabptr := Static | Own (tab : zlib_table).

(** [None] is a null pointer, also for [outblk], the output of the current call. *)
Record zlib_decompress_ctx := mkCtx {
  staticlentable : zlib_table;
  staticdisttable : zlib_table;
  currlentable : option tabptr;
  currdisttable : option tabptr;
  lenlentable : option zlib_table;
  d_state : dstate;
  d_sym : Z;
  hlit : Z;
  hdist : Z;
  hclen : Z;
  lenptr : Z;
  lenextrabits : Z;
  lenaddon : Z;
  d_len : Z;
  lenrep : Z;
  uncomplen : Z;
  lenlen : list Z;
  lengths : list Z;
  d_bits : Z;
  d_nbits : Z;
  window : Z -> Z;
  d_winpos : Z;
  outblk : option (list Z)
}.

(** Assignments to the fields. *)
Definition set_tables (c : zlib_decompress_ctx) (l d : option tabptr) (ll : option zlib_table) :=
  mkCtx (staticlentable c) (staticdisttable c) l d ll (d_state c) (d_sym c) (hlit c) (hdist c) (hclen c) (lenptr c) (lenextrabits c) (lenaddon c)
    (d_len c) (lenrep c) (uncomplen c) (lenlen c) (lengths c) (d_bits c) (d_nbits c) (window c) (d_winpos c) (outblk c).
Definition set_state (c : zlib_decompress_ctx) (s : dstate) :=
  mkCtx (staticlentable c) (staticdisttable c) (currlentable c) (currdisttable c) (lenlentable c) s (d_sym c) (hlit c) (hdist c) (hclen c) (lenptr c)
    (lenextrabits c) (lenaddon c) (d_len c) (lenrep c) (uncomplen c) (lenlen c) (lengths c) (d_bits c) (d_nbits c) (window c) (d_winpos c) (outblk c).
Definition set_sym (c : zlib_decompress_ctx) (sym n : Z) :=
  mkCtx (staticlentable c) (staticdisttable c) (currlentable c) (currdisttable c) (lenlentable c) (d_state c) sym (hlit c) (hdist c) (hclen c) (lenptr c)
    (lenextrabits c) (lenaddon c) n (lenrep c) (uncomplen c) (lenlen c) (lengths c) (d_bits c) (d_nbits c) (window c) (d_winpos c) (outblk c).
Definition set_hdr (c : zlib_decompress_ctx) (l d cl : Z) :=
  mkCtx (staticlentable c) (staticdisttable c) (currlentable c) (currdisttable c) (lenlentable c) (d_state c) (d_sym c) l d cl (lenptr c)
    (lenextrabits c) (lenaddon c) (d_len c) (lenrep c) (uncomplen c) (lenlen c) (lengths c) (d_bits c) (d_nbits c) (window c) (d_winpos c) (outblk c).
Definition set_rep (c : zlib_decompress_ctx) (x a r : Z) :=
  mkCtx (staticlentable c) (staticdisttable c) (currlentable c) (currdisttable c) (lenlentable c) (d_state c) (d_sym c) (hlit c) (hdist c) (hclen c)
    (lenptr c) x a (d_len c) r (uncomplen c) (lenlen c) (lengths c) (d_bits c) (d_nbits c) (window c) (d_winpos c) (outblk c).
Definition set_lens (c : zlib_decompress_ctx) (p : Z) (ll l : list Z) :=
  mkCtx (staticlentable c) (staticdisttable c) (currlentable c) (currdisttable c) (lenlentable c) (d_state c) (d_sym c) (hlit c) (hdist c) (hclen c) p
    (lenextrabits c) (lenaddon c) (d_len c) (lenrep c) (uncomplen c) ll l (d_bits c) (d_nbits c) (window c) (d_winpos c) (outblk c).
Definition set_uncomplen (c : zlib_decompress_ctx) (n : Z) :=
  mkCtx (staticlentable c) (staticdisttable c) (currlentable c) (currdisttable c) (lenlentable c) (d_state c) (d_sym c) (hlit c) (hdist c) (hclen c)
    (lenptr c) (lenextrabits c) (lenaddon c) (d_len c) (lenrep c) n (lenlen c) (lengths c) (d_bits c) (d_nbits c) (window c) (d_winpos c) (outblk c).
Definition set_bits (c : zlib_decompress_ctx) (b n : Z) :=
  mkCtx (staticlentable c) (staticdisttable c) (currlentable c) (currdisttable c) (lenlentable c) (d_state c) (d_sym c) (hlit c) (hdist c) (hclen c)
    (lenptr c) (lenextrabits c) (lenaddon c) (d_len c) (lenrep c) (uncomplen c) (lenlen c) (lengths c) b n (window c) (d_winpos c) (outblk c).
Definition set_output (c : zlib_decompress_ctx) (w : Z -> Z) (p : Z) (o : option (list Z)) :=
  mkCtx (staticlentable c) (staticdisttable c) (currlentable c) (currdisttable c) (lenlentable c) (d_state c) (d_sym c) (hlit c) (hdist c) (hclen c)
    (lenptr c) (lenextrabits c) (lenaddon c) (d_len c) (lenrep c) (uncomplen c) (lenlen c) (lengths c) (d_bits c) (d_nbits c) w p o.

(** [mem] is the fresh memory that is initialised. *)
Definition zlib_decompress_init (mem : zlib_decompress_ctx) : option zlib_decompress_ctx :=
  slen ← zlib_mktable static_lengths;
  sdist ← zlib_mktable static_dist_lengths;
  Some (mkCtx slen sdist None None None START (d_sym mem) (hlit mem) (hdist mem) (hclen mem) (lenptr mem) (lenextrabits mem) (lenaddon mem)
          (d_len mem) (lenrep mem) (uncomplen mem) (lenlen mem) (lengths mem) 0 0 (window mem) 0 None).

(** The macro [EATBITS]. *)
Definition EATBITS (c : zlib_decompress_ctx) (n : Z) : zlib_decompress_ctx := set_bits c (d_bits c >> n) (d_nbits c - n).

Definition zlib_emit_char (c : zlib_decompress_ctx) (ch : Z) : option zlib_decompress_ctx :=
  out ← outblk c;
  Some (set_output c (upd (window c) (d_winpos c) ch) ((d_winpos c + 1) .& (WINSIZE - 1)) (Some (out ++ [ch]))).

(** What a step of the decoder does: go on, [goto finished], or [goto decode_error]. *)
Inductive outcome := Continue (c : zlib_decompress_ctx) | Finished (c : zlib_decompress_ctx) | DecodeError (c : zlib_decompress_ctx).

(** A symbol is looked up in a table; [k] goes on with it. *)
Definition with_symbol (c : zlib_decompress_ctx) (tab : zlib_table) (k : zlib_decompress_ctx -> Z -> option outcome) : option outcome :=
  '(bits, nbits, code) ← zlib_huflookup (d_bits c) (d_nbits c) tab;
  let c := set_bits c bits nbits in
  if code =? -1 then Some (Finished c)
  else if code =? -2 then Some (DecodeError c)
  else k c code.

Definition deref (static : zlib_table) (p : option tabptr) : option zlib_table :=
  match p with
  | None => None
  | Some Static => Some static
  | Some (Own t) => Some t
  end.

(** A table of the block is freed at its end, and the pointer to it reset. *)
Definition release (p : option tabptr) : option tabptr :=
  match p with
  | Some Static => Some Static
  | _ => None
  end.

Definition lenlenmap : list Z := [16; 17; 18; 0; 8; 7; 9; 6; 10; 5; 11; 4; 12; 3; 13; 2; 14; 1; 15].

Definition step_start (c : zlib_decompress_ctx) : option outcome :=
  if d_nbits c <? 16 then Some (Finished c)
  else
    let header := ((d_bits c .& 65280) >> 8) .| ((d_bits c .& 255) << 8) in
    let c := EATBITS c 16 in
    if negb (header .& 3840 =? 2048) || (28672 <? header .& 61440) || negb (header .& 32 =? 0) || negb (header mod 31 =? 0)
    then Some (DecodeError c)
    else Some (Continue (set_state c OUTSIDEBLK)).

Definition step_outsideblk (c : zlib_decompress_ctx) : option outcome :=
  if d_nbits c <? 3 then Some (Finished c)
  else
    let c := EATBITS c 1 in
    let blktype := d_bits c .& 3 in
    let c := EATBITS c 2 in
    if blktype =? 0 then Some (Continue (EATBITS (set_state c UNCOMP_LEN) (d_nbits c .& 7)))
    else if blktype =? 1 then Some (Continue (set_state (set_tables c (Some Static) (Some Static) (lenlentable c)) INBLK))
    else if blktype =? 2 then Some (Continue (set_state c TREES_HDR))
    else Some (Continue c).

Definition step_trees_hdr (c : zlib_decompress_ctx) : option outcome :=
  if d_nbits c <? 5 + 5 + 4 then Some (Finished c)
  else
    let l := 257 + (d_bits c .& 31) in
    let c := EATBITS c 5 in
    let d := 1 + (d_bits c .& 31) in
    let c := EATBITS c 5 in
    let cl := 4 + (d_bits c .& 15) in
    let c := EATBITS c 4 in
    Some (Continue (set_state (set_lens (set_hdr c l d cl) 0 (replicate 19 0) (lengths c)) TREES_LENLEN)).

(** [while (dctx->lenptr < dctx->hclen && dctx->nbits >= 3)] *)
Fixpoint lenlen_loop (fuel : nat) (c : zlib_decompress_ctx) : option zlib_decompress_ctx :=
  if (lenptr c <? hclen c) && (3 <=? d_nbits c) then
    match fuel with
    | O => None
    | S fuel =>
        i ← lenlenmap !! Z.to_nat (lenptr c);
        _ ← lenlen c !! Z.to_nat i;
        lenlen_loop fuel (EATBITS (set_lens c (lenptr c + 1) (<[Z.to_nat i := d_bits c .& 7]> (lenlen c)) (lengths c)) 3)
    end
  else Some c.

Definition step_trees_lenlen (c : zlib_decompress_ctx) : option outcome :=
  if d_nbits c <? 3 then Some (Finished c)
  else
    c ← lenlen_loop 19 c;
    if lenptr c =? hclen c then
      tab ← zlib_mktable (lenlen c);
      Some (Continue (set_lens (set_state (set_tables c (currlentable c) (currdisttable c) (Some tab)) TREES_LEN) 0 (lenlen c) (lengths c)))
    else Some (Continue c).

Definition step_trees_len (c : zlib_decompress_ctx) : option outcome :=
  if hlit c + hdist c <=? lenptr c then
    l ← zlib_mktable (take (Z.to_nat (hlit c)) (lengths c));
    d ← zlib_mktable (take (Z.to_nat (hdist c)) (drop (Z.to_nat (hlit c)) (lengths c)));
    Some (Continue (set_state (set_tables c (Some (Own l)) (Some (Own d)) None) INBLK))
  else
    tab ← lenlentable c;
    with_symbol c tab (fun c code =>
      if code <? 16 then
        _ ← lengths c !! Z.to_nat (lenptr c);
        Some (Continue (set_lens c (lenptr c + 1) (lenlen c) (<[Z.to_nat (lenptr c) := code]> (lengths c))))
      else
        r ← (if (code =? 16) && (0 <? lenptr c) then lengths c !! Z.to_nat (lenptr c - 1) else Some 0);
        Some (Continue (set_state (set_rep c (if code =? 16 then 2 else if code =? 17 then 3 else 7) (if code =? 18 then 11 else 3) r) TREES_LENREP))).

(** [while (rep > 0 && dctx->lenptr < dctx->hlit + dctx->hdist)] *)
Fixpoint rep_loop (rep : nat) (c : zlib_decompress_ctx) : option zlib_decompress_ctx :=
  match rep with
  | O => Some c
  | S rep =>
      if lenptr c <? hlit c + hdist c then
        _ ← lengths c !! Z.to_nat (lenptr c);
        rep_loop rep (set_lens c (lenptr c + 1) (lenlen c) (<[Z.to_nat (lenptr c) := lenrep c]> (lengths c)))
      else Some c
  end.

Definition step_trees_lenrep (c : zlib_decompress_ctx) : option outcome :=
  if d_nbits c <? lenextrabits c then Some (Finished c)
  else
    let rep := lenaddon c + (d_bits c .& ((1 << lenextrabits c) - 1)) in
    c ← rep_loop (Z.to_nat rep) (EATBITS c (lenextrabits c));
    Some (Continue (set_state c TREES_LEN)).

Definition step_inblk (c : zlib_decompress_ctx) : option outcome :=
  tab ← deref (staticlentable c) (currlentable c);
  with_symbol c tab (fun c code =>
    if code <? 256 then c ← zlib_emit_char c code; Some (Continue c)
    else if code =? 256 then
      Some (Continue (set_tables (set_state c OUTSIDEBLK) (release (currlentable c)) (release (currdisttable c)) (lenlentable c)))
    else if code <? 286 then Some (Continue (set_sym (set_state c GOTLENSYM) code (d_len c)))
    else Some (DecodeError c)).

Definition step_gotlensym (c : zlib_decompress_ctx) : option outcome :=
  rec ← lencodes !! Z.to_nat (d_sym c - 257);
  if d_nbits c <? cr_extrabits rec then Some (Finished c)
  else
    let n := cr_min rec + (d_bits c .& ((1 << cr_extrabits rec) - 1)) in
    Some (Continue (set_state (EATBITS (set_sym c (d_sym c) n) (cr_extrabits rec)) GOTLEN)).

Definition step_gotlen (c : zlib_decompress_ctx) : option outcome :=
  tab ← deref (staticdisttable c) (currdisttable c);
  with_symbol c tab (fun c code =>
    if 30 <=? code then Some (DecodeError c)
    else Some (Continue (set_sym (set_state c GOTDISTSYM) code (d_len c)))).

(** [while (dctx->len--)] *)
Fixpoint copy_loop (n : nat) (c : zlib_decompress_ctx) (dist : Z) : option zlib_decompress_ctx :=
  match n with
  | O => Some (set_sym c (d_sym c) (-1))
  | S n =>
      c ← zlib_emit_char c (window c ((d_winpos c - dist) .& (WINSIZE - 1)));
      copy_loop n c dist
  end.

Definition step_gotdistsym (c : zlib_decompress_ctx) : option outcome :=
  rec ← distcodes !! Z.to_nat (d_sym c);
  if d_nbits c <? cr_extrabits rec then Some (Finished c)
  else
    let dist := cr_min rec + (d_bits c .& ((1 << cr_extrabits rec) - 1)) in
    c ← copy_loop (Z.to_nat (d_len c)) (set_state (EATBITS c (cr_extrabits rec)) INBLK) dist;
    Some (Continue c).

Definition step_uncomp_len (c : zlib_decompress_ctx) : option outcome :=
  if d_nbits c <? 16 then Some (Finished c)
  else Some (Continue (set_state (EATBITS (set_uncomplen c (d_bits c .& 65535)) 16) UNCOMP_NLEN)).

Definition step_uncomp_nlen (c : zlib_decompress_ctx) : option outcome :=
  if d_nbits c <? 16 then Some (Finished c)
  else
    let nlen := d_bits c .& 65535 in
    let c := EATBITS c 16 in
    if negb (uncomplen c =? nlen .^ 65535) then Some (DecodeError c)
    else if uncomplen c =? 0 then Some (Continue (set_state c OUTSIDEBLK))
    else Some (Continue (set_state c UNCOMP_DATA)).

Definition step_uncomp_data (c : zlib_decompress_ctx) : option outcome :=
  if d_nbits c <? 8 then Some (Finished c)
  else
    c ← zlib_emit_char c (d_bits c .& 255);
    let c := EATBITS c 8 in
    let c := set_uncomplen c (uncomplen c - 1) in
    if uncomplen c =? 0 then Some (Continue (set_state c OUTSIDEBLK)) else Some (Continue c).

(** [switch (dctx->state)] *)
Definition step (c : zlib_decompress_ctx) : option outcome :=
  match d_state c with
  | START => step_start c
  | OUTSIDEBLK => step_outsideblk c
  | TREES_HDR => step_trees_hdr c
  | TREES_LENLEN => step_trees_lenlen c
  | TREES_LEN => step_trees_len c
  | TREES_LENREP => step_trees_lenrep c
  | INBLK => step_inblk c
  | GOTLENSYM => step_gotlensym c
  | GOTLEN => step_gotlen c
  | GOTDISTSYM => step_gotdistsym c
  | UNCOMP_LEN => step_uncomp_len c
  | UNCOMP_NLEN => step_uncomp_nlen c
  | UNCOMP_DATA => step_uncomp_data c
  end.

(** [while (dctx->nbits < 24 && len > 0)] *)
Fixpoint refill (c : zlib_decompress_ctx) (block : list Z) : zlib_decompress_ctx * list Z :=
  match block with
  | b :: block' => if d_nbits c <? 24 then refill (set_bits c (d_bits c .| (b << d_nbits c)) (d_nbits c + 8)) block' else (c, block)
  | [] => (c, [])
  end.

(** [while (len > 0 || dctx->nbits > 0)]; the result is whether the data could be decoded. *)
Fixpoint decompress_loop (fuel : nat) (c : zlib_decompress_ctx) (block : list Z) : option (zlib_decompress_ctx * bool) :=
  if (0 <? len block) || (0 <? d_nbits c) then
    match fuel with
    | O => None
    | S fuel =>
        let '(c, block) := refill c block in
        r ← step c;
        match r with
        | Continue c => decompress_loop fuel c block
        | Finished c => Some (c, true)
        | DecodeError c => Some (c, false)
        end
    end
  else Some (c, true).

(** A step takes a bit, or is the second one in a row that takes none: enough steps for all the bits. *)
Definition loop_fuel (c : zlib_decompress_ctx) (block : list Z) : nat := Z.to_nat (2 * (8 * len block + d_nbits c) + 2).

(** The data, or [None] when there was an error: then [outblk] is left behind. *)
Definition zlib_decompress_block (c : zlib_decompress_ctx) (block : list Z) : option (zlib_decompress_ctx * option (list Z)) :=
  assert! (match outblk c with None => true | Some _ => false end);
  let c := set_output c (window c) (d_winpos c) (Some []) in
  '(c, ok) ← decompress_loop (loop_fuel c block) c block;
  out ← outblk c;
  if ok : bool then Some (set_output c (window c) (d_winpos c) None, Some out) else Some (c, None).

Definition mem0 : zlib_decompress_ctx :=
  mkCtx (ZTable 0 []) (ZTable 0 []) None None None START 0 0 0 0 0 0 0 0 0 0 (replicate 19 0) (replicate 320 0) 0 0 (fun _ => 0) 0 None.

(** A packet with a static block, one with a dynamic block, an uncompressed block, and bad data. *)
Example decompress_examples :
  let run l := c ← zlib_decompress_init mem0; r ← zlib_decompress_block c l; Some r.2 in
  run [120; 156; 74; 132; 0; 128; 0] = Some (Some (codes "aaaaaaa"))
  /\ run [120; 218; 5; 193; 1; 1; 0; 0; 0; 64; 160; 173; 248; 255; 65; 169; 68; 162; 21; 96; 12] = Some (Some (codes "bbbacacbabbcccaaabca"))
  /\ run [120; 156; 1; 3; 0; 252; 255; 97; 98; 99] = Some (Some (codes "abc"))
  /\ run [120; 156; 1; 3; 0; 252; 254; 97; 98; 99] = Some None
  /\ run [1; 2; 3] = Some None.
Proof. split_and!; vm_compute; reflexivity. Qed.

(** ** Any stream of bytes

    The decoder never goes wrong, whatever it is sent: every table index, every index into
    [lengths] and every pointer it follows is good, and it comes to an end. *)

Ltac ctx_simpl :=
  cbn [staticlentable staticdisttable currlentable currdisttable lenlentable d_state d_sym hlit hdist hclen lenptr lenextrabits lenaddon d_len lenrep
       uncomplen lenlen lengths d_bits d_nbits window d_winpos outblk
       set_tables set_state set_sym set_hdr set_rep set_lens set_uncomplen set_bits set_output EATBITS] in *.

Abbreviation table_good := (tab_ok (Z.to_nat MAXCODELEN) (MAXCODELEN - 1)).

(** In every state. *)
Record base_ok (c : zlib_decompress_ctx) : Prop := {
  bo_slen : table_good (staticlentable c);
  bo_sdist : table_good (staticdisttable c);
  bo_nbits : 0 <= d_nbits c;
  bo_bits : 0 <= d_bits c < 2 ^ d_nbits c;
  bo_winpos : 0 <= d_winpos c < WINSIZE;
  bo_window : forall i, byte_ok (window c i);
  bo_lengths : length (lengths c) = 320%nat;
  bo_lenlen : length (lenlen c) = 19%nat;
  bo_out : exists out, outblk c = Some out /\ bytes_ok out
}.

(** The dynamic trees of a block, while their code lengths arrive. *)
Definition trees_ok (c : zlib_decompress_ctx) : Prop :=
  257 <= hlit c <= 288 /\ 1 <= hdist c <= 32 /\ 0 <= lenptr c <= hlit c + hdist c /\ Forall code_length (take (Z.to_nat (lenptr c)) (lengths c))
  /\ exists tab, lenlentable c = Some tab /\ table_good tab.

(** Inside a block, both tables are there. *)
Definition block_ok (c : zlib_decompress_ctx) : Prop :=
  (exists tab, deref (staticlentable c) (currlentable c) = Some tab /\ table_good tab)
  /\ (exists tab, deref (staticdisttable c) (currdisttable c) = Some tab /\ table_good tab).

(** In each of the states. *)
Definition state_ok (c : zlib_decompress_ctx) : Prop :=
  match d_state c with
  | START | OUTSIDEBLK | TREES_HDR | UNCOMP_LEN => True
  | TREES_LENLEN => 257 <= hlit c <= 288 /\ 1 <= hdist c <= 32 /\ 4 <= hclen c <= 19 /\ 0 <= lenptr c < hclen c /\ Forall code_length (lenlen c)
  | TREES_LEN => trees_ok c
  | TREES_LENREP => trees_ok c /\ 2 <= lenextrabits c <= 7 /\ 3 <= lenaddon c /\ code_length (lenrep c)
  | INBLK => block_ok c
  | GOTLENSYM => block_ok c /\ 257 <= d_sym c < 286
  | GOTLEN => block_ok c /\ 0 <= d_len c
  | GOTDISTSYM => block_ok c /\ 0 <= d_len c /\ 0 <= d_sym c < 30
  | UNCOMP_NLEN => 0 <= uncomplen c < 65536
  | UNCOMP_DATA => 1 <= uncomplen c < 65536
  end.

Definition ctx_ok (c : zlib_decompress_ctx) : Prop := base_ok c /\ state_ok c.

(** The states that can be left without taking a bit. *)
Definition rank (s : dstate) : Z := match s with TREES_LEN | GOTLENSYM | GOTDISTSYM => 1 | _ => 0 end.

(** A step ends well: the decoder goes on with less to do, or needs more bits, or refuses the data. *)
Definition step_good (c : zlib_decompress_ctx) (r : option outcome) : Prop :=
  match r with
  | None => False
  | Some (Continue c') => ctx_ok c' /\ 2 * d_nbits c' + rank (d_state c') < 2 * d_nbits c + rank (d_state c) /\ d_nbits c' <= d_nbits c
  | Some (Finished c') => ctx_ok c' /\ d_nbits c' < 24
  | Some (DecodeError c') => exists out, outblk c' = Some out
  end.

Ltac base_solve := constructor; ctx_simpl; done || lia || eauto.

Lemma base_eat c n : base_ok c -> 0 <= n <= d_nbits c -> base_ok (EATBITS c n).
Proof. intros [? ? ? Hb ? ? ? ? ?] Hn. pose proof (shiftr_range _ _ n Hb Hn). base_solve. Qed.
Lemma base_state c s : base_ok c -> base_ok (set_state c s).
Proof. intros [? ? ? ? ? ? ? ? ?]. base_solve. Qed.
Lemma base_sym c s n : base_ok c -> base_ok (set_sym c s n).
Proof. intros [? ? ? ? ? ? ? ? ?]. base_solve. Qed.
Lemma base_hdr c l d cl : base_ok c -> base_ok (set_hdr c l d cl).
Proof. intros [? ? ? ? ? ? ? ? ?]. base_solve. Qed.
Lemma base_rep c x a r : base_ok c -> base_ok (set_rep c x a r).
Proof. intros [? ? ? ? ? ? ? ? ?]. base_solve. Qed.
Lemma base_uncomplen c n : base_ok c -> base_ok (set_uncomplen c n).
Proof. intros [? ? ? ? ? ? ? ? ?]. base_solve. Qed.
Lemma base_tables c l d ll : base_ok c -> base_ok (set_tables c l d ll).
Proof. intros [? ? ? ? ? ? ? ? ?]. base_solve. Qed.
Lemma base_lens c p ll l : base_ok c -> length ll = 19%nat -> length l = 320%nat -> base_ok (set_lens c p ll l).
Proof. intros [? ? ? ? ? ? ? ? ?] ? ?. base_solve. Qed.
Lemma base_bits c b n : base_ok c -> 0 <= n -> 0 <= b < 2 ^ n -> base_ok (set_bits c b n).
Proof. intros [? ? ? ? ? ? ? ? ?] ? ?. base_solve. Qed.

Create HintDb inflate discriminated.
#[local] Hint Resolve base_state base_sym base_hdr base_rep base_uncomplen base_tables base_lens : inflate.

(** A character of output. *)
Lemma emit_good c ch : base_ok c -> byte_ok ch -> exists w p o, zlib_emit_char c ch = Some (set_output c w p (Some o)) /\ base_ok (set_output c w p (Some o)).
Proof.
  intros [? ? ? ? Hp Hw ? ? (out&E&Ho)] Hc. unfold zlib_emit_char. rewrite E. cbn [mbind option_bind]. eexists _, _, _. split; [done|].
  constructor; ctx_simpl; try done.
  - rewrite land_win. apply slot_range.
  - intros i. unfold upd. destruct (i =? d_winpos c); [done|apply Hw].
  - eexists. split; [done|]. apply Forall_app. split; [done|]. apply Forall_cons. split; [done|by apply Forall_nil].
Qed.

Lemma copy_loop_good n c dist : base_ok c ->
  exists w p o, copy_loop n c dist = Some (set_sym (set_output c w p (Some o)) (d_sym c) (-1)) /\ base_ok (set_output c w p (Some o)).
Proof.
  revert c. induction n as [|n IH]; intros c Hc; cbn [copy_loop].
  - destruct (bo_out _ Hc) as (out&E&_). exists (window c), (d_winpos c), out. destruct c. cbn in E. subst. done.
  - destruct (emit_good c (window c ((d_winpos c - dist) .& (WINSIZE - 1))) Hc) as (w&p&o&->&Hc'); [apply (bo_window _ Hc)|]. cbn [mbind option_bind].
    destruct (IH _ Hc') as (w'&p'&o'&->&Hc''). by exists w', p', o'.
Qed.

(** A symbol is looked up, or there are not enough bits for one. *)
Lemma with_symbol_good c tab k :
  ctx_ok c -> table_good tab ->
  (forall bits nbits code, 0 <= code -> 0 <= nbits < d_nbits c -> base_ok (set_bits c bits nbits) -> step_good c (k (set_bits c bits nbits) code)) ->
  step_good c (with_symbol c tab k).
Proof.
  intros [Hc Hs] Ht Hk. unfold with_symbol. destruct (huflookup_total (d_bits c) (d_nbits c) tab Ht (bo_bits _ Hc) (bo_nbits _ Hc)) as ([[bits nbits] code]&->&Hr).
  cbn [mbind option_bind]. destruct Hr as [(Hcode&Hn&Hb)|(->&->&Hcode)].
  - rewrite !(proj2 (Z.eqb_neq _ _)) by lia. apply Hk; [done|done|]. apply base_bits; done || lia.
  - assert (set_bits c (d_bits c) (d_nbits c) = c) as -> by (by destruct c). destruct Hcode as [->|[-> Hn]]; cbn [Z.eqb Pos.eqb].
    + destruct (bo_out _ Hc) as (out&E&_). by exists out.
    + split; [done|]. unfold MAXCODELEN in Hn. lia.
Qed.

Ltac stop := cbn [step_good]; (split; [done|lia]).

Lemma land_range x m n : 0 <= n -> m = 2 ^ n - 1 -> 0 <= x .& m < 2 ^ n.
Proof. intros Hn ->. rewrite land_mask by done. apply Z.mod_pos_bound. by apply pow2_pos. Qed.

Section Steps.
Context (c : zlib_decompress_ctx) (Hc : ctx_ok c).

Lemma start_good : d_state c = START -> step_good c (step_start c).
Proof using Hc.
  intros E. destruct Hc as [Hb _]. unfold step_start. destruct (Z.ltb_spec (d_nbits c) 16); [stop|].
  destruct (_ || _); [destruct (bo_out _ Hb) as (out&Eo&_); by exists out|].
  pose proof (base_eat c 16 Hb ltac:(lia)). rewrite ?E. cbn [step_good]. split; [split; [auto with inflate|done]|]. rewrite E. ctx_simpl. cbn [rank]. lia.
Qed.

Lemma outsideblk_good : d_state c = OUTSIDEBLK -> step_good c (step_outsideblk c).
Proof using Hc.
  intros E. destruct Hc as [Hb _]. unfold step_outsideblk. destruct (Z.ltb_spec (d_nbits c) 3); [stop|].
  pose proof (base_eat c 1 Hb ltac:(lia)) as H1. pose proof (base_eat _ 2 H1 ltac:(ctx_simpl; lia)) as H2.
  set (c2 := EATBITS (EATBITS c 1) 2) in *. assert (d_nbits c2 = d_nbits c - 3) as En by (unfold c2; ctx_simpl; lia).
  assert (d_state c2 = OUTSIDEBLK) as Es by done.
  destruct (_ =? 0); [|destruct (_ =? 1); [|destruct (_ =? 2)]]; cbn [step_good]; rewrite E.
  - pose proof (land_range (d_nbits c2) 7 3 ltac:(lia) eq_refl) as Hr. change (2 ^ 3) with 8 in Hr. assert (d_nbits c2 .& 7 <= d_nbits c2) as Hle.
    { change 7 with (2 ^ 3 - 1). rewrite land_mask by lia. apply Z.mod_le; [lia|done]. }
    split; [split; [apply base_eat; [by apply base_state|ctx_simpl; lia]|done]|]. ctx_simpl. cbn [rank]. lia.
  - split; [split; [auto with inflate|]|ctx_simpl; cbn [rank]; lia]. unfold state_ok. ctx_simpl.
    split; eexists; (split; [done|]); [apply (bo_slen _ H2)|apply (bo_sdist _ H2)].
  - split; [split; [auto with inflate|done]|ctx_simpl; cbn [rank]; lia].
  - split; [split; [done|by unfold state_ok; rewrite Es]|]. rewrite Es. cbn [rank]. lia.
Qed.

Lemma trees_hdr_good : d_state c = TREES_HDR -> step_good c (step_trees_hdr c).
Proof using Hc.
  intros E. destruct Hc as [Hb _]. unfold step_trees_hdr. destruct (Z.ltb_spec (d_nbits c) (5 + 5 + 4)); [stop|].
  pose proof (base_eat c 5 Hb ltac:(lia)) as H1. pose proof (base_eat _ 5 H1 ltac:(ctx_simpl; lia)) as H2. pose proof (base_eat _ 4 H2 ltac:(ctx_simpl; lia)) as H3.
  pose proof (land_range (d_bits c) 31 5 ltac:(lia) eq_refl). pose proof (land_range (d_bits (EATBITS c 5)) 31 5 ltac:(lia) eq_refl).
  pose proof (land_range (d_bits (EATBITS (EATBITS c 5) 5)) 15 4 ltac:(lia) eq_refl). change (2 ^ 5) with 32 in *. change (2 ^ 4) with 16 in *.
  set (c3 := EATBITS (EATBITS (EATBITS c 5) 5) 4) in *. assert (d_nbits c3 = d_nbits c - 14) as En by (unfold c3; ctx_simpl; lia).
  cbn [step_good]. rewrite E. split; [split; [apply base_state, base_lens; [by apply base_hdr|done|apply (bo_lengths _ H3)]|]|ctx_simpl; cbn [rank]; lia].
  unfold state_ok. cbn [d_state set_state]. cbn [hlit hdist hclen lenptr lenlen set_state set_lens set_hdr]. split_and!; try lia. by apply Forall_replicate.
Qed.

Lemma uncomp_len_good : d_state c = UNCOMP_LEN -> step_good c (step_uncomp_len c).
Proof using Hc.
  intros E. destruct Hc as [Hb _]. unfold step_uncomp_len. destruct (Z.ltb_spec (d_nbits c) 16); [stop|].
  pose proof (land_range (d_bits c) 65535 16 ltac:(lia) eq_refl). cbn [step_good]. rewrite E.
  split; [split; [apply base_state, base_eat; [by apply base_uncomplen|ctx_simpl; lia]|unfold state_ok; ctx_simpl; done]|ctx_simpl; cbn [rank]; lia].
Qed.

Lemma uncomp_nlen_good : d_state c = UNCOMP_NLEN -> step_good c (step_uncomp_nlen c).
Proof using Hc.
  intros E. destruct Hc as [Hb Hs]. unfold state_ok in Hs. rewrite E in Hs. unfold step_uncomp_nlen. destruct (Z.ltb_spec (d_nbits c) 16); [stop|].
  pose proof (base_eat c 16 Hb ltac:(lia)) as H1. destruct (negb _); [destruct (bo_out _ H1) as (out&Eo&_); by exists out|].
  change (uncomplen (EATBITS c 16)) with (uncomplen c).
  destruct (Z.eqb_spec (uncomplen c) 0); cbn [step_good]; rewrite E;
    (split; [split; [auto with inflate|unfold state_ok; ctx_simpl; done || lia]|ctx_simpl; cbn [rank]; lia]).
Qed.

Lemma uncomp_data_good : d_state c = UNCOMP_DATA -> step_good c (step_uncomp_data c).
Proof using Hc.
  intros E. destruct Hc as [Hb Hs]. unfold state_ok in Hs. rewrite E in Hs. unfold step_uncomp_data. destruct (Z.ltb_spec (d_nbits c) 8); [stop|].
  pose proof (land_range (d_bits c) 255 8 ltac:(lia) eq_refl) as Hr. destruct (emit_good c (d_bits c .& 255) Hb Hr) as (w&p&o&->&H1). cbn [mbind option_bind].
  pose proof (base_uncomplen _ (uncomplen c - 1) (base_eat _ 8 H1 ltac:(ctx_simpl; lia))) as H2. ctx_simpl.
  destruct (Z.eqb_spec (uncomplen c - 1) 0); cbn [step_good]; rewrite E; (split; [split; [|unfold state_ok; ctx_simpl; rewrite ?E; done || lia]|ctx_simpl; rewrite ?E; cbn [rank]; lia]).
  - apply (base_state _ OUTSIDEBLK) in H2. exact H2.
  - exact H2.
Qed.
End Steps.

(** *** The trees of a block *)

Lemma lenlenmap_lookup p : 0 <= p < 19 -> exists i, lenlenmap !! Z.to_nat p = Some i /\ 0 <= i < 19.
Proof.
  intros Hp. destruct (lookup_lt_is_Some_2 lenlenmap (Z.to_nat p)) as [i Hi]; [cbn; lia|]. exists i. split; [done|].
  assert (Forall (fun i => 0 <= i < 19) lenlenmap) as Hall by (repeat constructor; lia). exact (Forall_lookup_1 _ _ _ _ Hall Hi).
Qed.

Lemma lenlen_loop_good fuel c :
  base_ok c -> hclen c <= 19 -> 0 <= lenptr c <= hclen c -> Forall code_length (lenlen c) -> hclen c - lenptr c <= Z.of_nat fuel ->
  exists p ll b n, let c' := set_bits (set_lens c p ll (lengths c)) b n in
    lenlen_loop fuel c = Some c' /\ base_ok c' /\ lenptr c <= p <= hclen c /\ Forall code_length ll /\ n <= d_nbits c
    /\ (lenptr c < hclen c -> 3 <= d_nbits c -> n <= d_nbits c - 3).
Proof.
  revert c. induction fuel as [|fuel IH]; intros c Hb Hcl Hp Hll Hf; cbn [lenlen_loop].
  all: destruct (Z.ltb_spec (lenptr c) (hclen c)) as [Hlt|Hge]; cbn [andb];
    [|exists (lenptr c), (lenlen c), (d_bits c), (d_nbits c); destruct c; ctx_simpl; split_and!; done || lia].
  { lia. }
  destruct (Z.leb_spec 3 (d_nbits c)) as [Hn|Hn]; [|exists (lenptr c), (lenlen c), (d_bits c), (d_nbits c); destruct c; ctx_simpl; split_and!; done || lia].
  destruct (lenlenmap_lookup (lenptr c)) as (i&->&Hi); [lia|]. cbn [mbind option_bind].
  destruct (lookup_lt_is_Some_2 (lenlen c) (Z.to_nat i)) as [x ->]; [rewrite (bo_lenlen _ Hb); lia|]. cbn [mbind option_bind].
  set (c1 := EATBITS (set_lens c (lenptr c + 1) (<[Z.to_nat i:=d_bits c .& 7]> (lenlen c)) (lengths c)) 3).
  assert (base_ok c1) as Hb1.
  { apply base_eat; [apply base_lens; [done|rewrite length_insert; apply (bo_lenlen _ Hb)|apply (bo_lengths _ Hb)]|ctx_simpl; lia]. }
  pose proof (land_range (d_bits c) 7 3 ltac:(lia) eq_refl) as Hr. change (2 ^ 3) with 8 in Hr.
  destruct (IH c1 Hb1) as (p&ll&b&n&E&Hb'&Hp'&Hll'&Hn'&_).
  - done.
  - unfold c1. ctx_simpl. lia.
  - unfold c1. ctx_simpl. apply Forall_insert; [done|]. unfold MAXCODELEN. lia.
  - unfold c1. ctx_simpl. lia.
  - exists p, ll, b, n. unfold c1 in Hb', Hp', Hn', E |- *. ctx_simpl. split_and!; try done; lia.
Qed.

Section Steps2.
Context (c : zlib_decompress_ctx) (Hc : ctx_ok c).

Lemma trees_lenlen_good : d_state c = TREES_LENLEN -> step_good c (step_trees_lenlen c).
Proof using Hc.
  intros E. destruct Hc as [Hb Hs]. unfold state_ok in Hs. rewrite E in Hs. destruct Hs as (Hl&Hd&Hcl&Hp&Hll).
  unfold step_trees_lenlen. destruct (Z.ltb_spec (d_nbits c) 3); [stop|].
  destruct (lenlen_loop_good 19 c Hb) as (p&ll&b&n&->&Hb'&Hp'&Hll'&Hn'&Hn3); try done; try lia. cbn [mbind option_bind]. ctx_simpl. specialize (Hn3 ltac:(lia) ltac:(lia)).
  destruct (Z.eqb_spec p (hclen c)) as [->|Hne].
  - pose proof (bo_lenlen _ Hb') as Elen. ctx_simpl.
    destruct (zlib_mktable_total ll Hll') as (tab&->&Htab); [unfold len; rewrite Elen; done|]. cbn [mbind option_bind step_good]. ctx_simpl. rewrite E.
    pose proof (bo_lenlen _ Hb') as El. ctx_simpl. split; [split|ctx_simpl; cbn [rank]; lia].
    + destruct Hb'. constructor; ctx_simpl; done.
    + unfold state_ok. ctx_simpl. unfold trees_ok. ctx_simpl. change (Z.to_nat 0) with 0%nat. rewrite take_0. split_and!; try lia; [by apply Forall_nil|by exists tab].
  - cbn [step_good]. split; [split; [done|]|ctx_simpl; rewrite E; cbn [rank]; lia]. unfold state_ok. ctx_simpl. rewrite E. split_and!; done || lia.
Qed.

Lemma trees_len_good : d_state c = TREES_LEN -> step_good c (step_trees_len c).
Proof using Hc.
  intros E. destruct Hc as [Hb Hs]. unfold state_ok in Hs. rewrite E in Hs. destruct Hs as (Hl&Hd&Hp&Hall&tab&Et&Htab).
  unfold step_trees_len. destruct (Z.leb_spec (hlit c + hdist c) (lenptr c)) as [Hge|Hlt].
  - replace (lenptr c) with (hlit c + hdist c) in Hall by lia. replace (Z.to_nat (hlit c + hdist c)) with (Z.to_nat (hlit c) + Z.to_nat (hdist c))%nat in Hall by lia.
    rewrite <- take_take_drop in Hall. apply Forall_app in Hall as [Hall1 Hall2].
    destruct (zlib_mktable_total _ Hall1) as (t1&->&Ht1); [unfold len, MAXSYMS; rewrite length_take; lia|].
    destruct (zlib_mktable_total _ Hall2) as (t2&->&Ht2); [unfold len, MAXSYMS; rewrite length_take; lia|]. cbn [mbind option_bind step_good]. rewrite E.
    split; [split; [auto with inflate|]|ctx_simpl; cbn [rank]; lia]. unfold state_ok. ctx_simpl. split; by eexists.
  - rewrite Et. cbn [mbind option_bind]. apply with_symbol_good; [done|done|]. intros bits nbits code Hcode Hn Hb1. set (c1 := set_bits c bits nbits) in *.
    pose proof (bo_lengths _ Hb) as Elen. destruct (Z.ltb_spec code 16) as [Hlt16|Hge16].
    + destruct (lookup_lt_is_Some_2 (lengths c1) (Z.to_nat (lenptr c1))) as [x Hx]; [unfold c1; ctx_simpl; lia|]. rewrite Hx. cbn [mbind option_bind step_good].
      split; [split|unfold c1; ctx_simpl; rewrite E; cbn [rank]; lia].
      * apply base_lens; [done|apply (bo_lenlen _ Hb)|rewrite length_insert; done].
      * unfold state_ok. unfold c1 in *. ctx_simpl. rewrite E. unfold trees_ok. ctx_simpl. split_and!; try lia; [|by exists tab].
        replace (Z.to_nat (lenptr c + 1)) with (S (Z.to_nat (lenptr c))) by lia. rewrite (take_S_r _ _ code) by (apply list_lookup_insert_eq; lia).
        rewrite take_insert_ge by lia. apply Forall_app. split; [done|]. apply Forall_cons. split; [unfold MAXCODELEN; lia|by apply Forall_nil].
    + assert (exists r, (if (code =? 16) && (0 <? lenptr c1) then lengths c1 !! Z.to_nat (lenptr c1 - 1) else Some 0) = Some r /\ code_length r) as (r&->&Hr).
      { change (lenptr c1) with (lenptr c). change (lengths c1) with (lengths c).
        destruct (code =? 16); cbn [andb]; [|by exists 0]. destruct (Z.ltb_spec 0 (lenptr c)); [|by exists 0].
        destruct (lookup_lt_is_Some_2 (lengths c) (Z.to_nat (lenptr c - 1))) as [x Hx]; [lia|]. exists x. split; [done|].
        eapply (Forall_lookup_1 _ _ (Z.to_nat (lenptr c - 1)) _ Hall). by rewrite lookup_take_lt by lia. }
      cbn [mbind option_bind step_good]. split; [split; [auto with inflate|]|unfold c1; ctx_simpl; rewrite E; cbn [rank]; lia].
      unfold state_ok, c1. ctx_simpl. unfold trees_ok. ctx_simpl. split_and!; try done; try lia; [by exists tab|destruct (code =? 16); [lia|destruct (code =? 17); lia]..|destruct (code =? 18); lia].
Qed.

Lemma rep_loop_good n c0 :
  base_ok c0 -> trees_ok c0 -> code_length (lenrep c0) ->
  exists p l, let c' := set_lens c0 p (lenlen c0) l in rep_loop n c0 = Some c' /\ base_ok c' /\ trees_ok c'.
Proof using Type.
  clear c Hc. revert c0. induction n as [|n IH]; intros c Hb Ht Hr; cbn [rep_loop].
  { exists (lenptr c), (lengths c). destruct c. done. }
  destruct (Z.ltb_spec (lenptr c) (hlit c + hdist c)); [|exists (lenptr c), (lengths c); destruct c; done]. destruct Ht as (Hl&Hd&Hp&Hall&Htab).
  pose proof (bo_lengths _ Hb) as Elen. destruct (lookup_lt_is_Some_2 (lengths c) (Z.to_nat (lenptr c))) as [x ->]; [lia|]. cbn [mbind option_bind].
  set (c1 := set_lens c (lenptr c + 1) (lenlen c) (<[Z.to_nat (lenptr c) := lenrep c]> (lengths c))).
  destruct (IH c1) as (p&l&E&Hb'&Ht').
  - apply base_lens; [done|apply (bo_lenlen _ Hb)|rewrite length_insert; done].
  - unfold trees_ok, c1. ctx_simpl. split_and!; try lia; [|done].
    replace (Z.to_nat (lenptr c + 1)) with (S (Z.to_nat (lenptr c))) by lia. rewrite (take_S_r _ _ (lenrep c)) by (apply list_lookup_insert_eq; lia).
    rewrite take_insert_ge by lia. apply Forall_app. split; [done|]. apply Forall_cons. split; [done|by apply Forall_nil].
  - done.
  - exists p, l. done.
Qed.

Lemma trees_lenrep_good : d_state c = TREES_LENREP -> step_good c (step_trees_lenrep c).
Proof using Hc.
  intros E. destruct Hc as [Hb Hs]. unfold state_ok in Hs. rewrite E in Hs. destruct Hs as (Ht&Hx&Ha&Hr).
  unfold step_trees_lenrep. destruct (Z.ltb_spec (d_nbits c) (lenextrabits c)); [stop|].
  destruct (rep_loop_good (Z.to_nat (lenaddon c + (d_bits c .& ((1 << lenextrabits c) - 1)))) (EATBITS c (lenextrabits c))) as (p&l&->&Hb'&Ht').
  - apply base_eat; [done|lia].
  - done.
  - done.
  - cbn [mbind option_bind step_good]. split; [split; [auto with inflate|exact Ht']|]. rewrite E. ctx_simpl. cbn [rank]. lia.
Qed.
End Steps2.

(** *** Symbols *)

Definition rec_ok (r : coderecord) : Prop := 0 <= cr_extrabits r <= 13 /\ 1 <= cr_min r.

Lemma lencodes_rec k : 257 <= k < 286 -> exists r, lencodes !! Z.to_nat (k - 257) = Some r /\ rec_ok r.
Proof.
  intros Hk. destruct (lookup_lt_is_Some_2 lencodes (Z.to_nat (k - 257))) as [r Hr]; [cbn; lia|]. exists r. split; [done|].
  assert (Forall rec_ok lencodes) as Hall by (repeat constructor; cbn; lia). exact (Forall_lookup_1 _ _ _ _ Hall Hr).
Qed.

Lemma distcodes_rec k : 0 <= k < 30 -> exists r, distcodes !! Z.to_nat k = Some r /\ rec_ok r.
Proof.
  intros Hk. destruct (lookup_lt_is_Some_2 distcodes (Z.to_nat k)) as [r Hr]; [cbn; lia|]. exists r. split; [done|].
  assert (Forall rec_ok distcodes) as Hall by (repeat constructor; cbn; lia). exact (Forall_lookup_1 _ _ _ _ Hall Hr).
Qed.

Section Steps3.
Context (c : zlib_decompress_ctx) (Hc : ctx_ok c).

Lemma inblk_good : d_state c = INBLK -> step_good c (step_inblk c).
Proof using Hc.
  intros E. destruct (Hc) as [Hb Hs]. unfold state_ok in Hs. rewrite E in Hs. destruct (Hs) as [(tab&Et&Htab) _]. unfold step_inblk. rewrite Et. cbn [mbind option_bind].
  apply with_symbol_good; [done|done|]. intros bits nbits code Hcode Hn Hb1. set (c1 := set_bits c bits nbits) in *. destruct (Z.ltb_spec code 256).
  - destruct (emit_good c1 code Hb1) as (w&p&o&->&Hb2); [split; [done|]; change (2 ^ 8) with 256; lia|]. cbn [mbind option_bind step_good].
    split; [split; [done|]|unfold c1; ctx_simpl; rewrite E; cbn [rank]; lia]. unfold state_ok, c1. ctx_simpl. rewrite E. exact Hs.
  - destruct (Z.eqb_spec code 256); [|destruct (Z.ltb_spec code 286)]; cbn [step_good].
    + split; [split; [auto with inflate|done]|unfold c1; ctx_simpl; rewrite E; cbn [rank]; lia].
    + split; [split; [auto with inflate|]|unfold c1; ctx_simpl; rewrite E; cbn [rank]; lia]. unfold state_ok, c1. ctx_simpl. split; [exact Hs|lia].
    + destruct (bo_out _ Hb1) as (out&Eo&_). by exists out.
Qed.

Lemma gotlensym_good : d_state c = GOTLENSYM -> step_good c (step_gotlensym c).
Proof using Hc.
  intros E. destruct (Hc) as [Hb Hs]. unfold state_ok in Hs. rewrite E in Hs. destruct Hs as [Hs Hsym]. unfold step_gotlensym.
  destruct (lencodes_rec _ Hsym) as (r&->&He&Hm). cbn [mbind option_bind]. destruct (Z.ltb_spec (d_nbits c) (cr_extrabits r)); [stop|].
  assert (0 <= d_bits c .& ((1 << cr_extrabits r) - 1)) as Hx.
  { rewrite Z.shiftl_1_l. apply (land_range _ _ (cr_extrabits r)); [lia|done]. }
  cbn [step_good]. split; [split|ctx_simpl; rewrite E; cbn [rank]; lia].
  - apply base_state, base_eat; [by apply base_sym|ctx_simpl; lia].
  - unfold state_ok. ctx_simpl. split; [exact Hs|lia].
Qed.

Lemma gotlen_good : d_state c = GOTLEN -> step_good c (step_gotlen c).
Proof using Hc.
  intros E. destruct (Hc) as [Hb Hs]. unfold state_ok in Hs. rewrite E in Hs. destruct Hs as [Hs Hlen]. destruct (Hs) as [_ (tab&Et&Htab)].
  unfold step_gotlen. rewrite Et. cbn [mbind option_bind]. apply with_symbol_good; [done|done|]. intros bits nbits code Hcode Hn Hb1.
  set (c1 := set_bits c bits nbits) in *. destruct (Z.leb_spec 30 code); cbn [step_good]; [destruct (bo_out _ Hb1) as (out&Eo&_); by exists out|].
  split; [split; [auto with inflate|]|unfold c1; ctx_simpl; rewrite E; cbn [rank]; lia]. unfold state_ok, c1. ctx_simpl. split_and!; done.
Qed.

Lemma gotdistsym_good : d_state c = GOTDISTSYM -> step_good c (step_gotdistsym c).
Proof using Hc.
  intros E. destruct (Hc) as [Hb Hs]. unfold state_ok in Hs. rewrite E in Hs. destruct Hs as (Hs&Hlen&Hsym). unfold step_gotdistsym.
  destruct (distcodes_rec _ Hsym) as (r&->&He&Hm). cbn [mbind option_bind]. destruct (Z.ltb_spec (d_nbits c) (cr_extrabits r)); [stop|].
  pose proof (base_state _ INBLK (base_eat c (cr_extrabits r) Hb ltac:(lia))) as Hb1. set (c1 := set_state (EATBITS c (cr_extrabits r)) INBLK) in *.
  destruct (copy_loop_good (Z.to_nat (d_len c)) c1 (cr_min r + (d_bits c .& ((1 << cr_extrabits r) - 1))) Hb1) as (w&p&o&->&Hb2). cbn [mbind option_bind step_good].
  split; [split; [by apply base_sym|]|unfold c1; ctx_simpl; rewrite E; cbn [rank]; lia]. exact Hs.
Qed.

Lemma step_ok : step_good c (step c).
Proof using Hc.
  unfold step. destruct (d_state c) eqn:E;
    eauto using start_good, outsideblk_good, trees_hdr_good, trees_lenlen_good, trees_len_good, trees_lenrep_good, inblk_good, gotlensym_good, gotlen_good,
      gotdistsym_good, uncomp_len_good, uncomp_nlen_good, uncomp_data_good.
Qed.
End Steps3.

(** ** The loop *)

(** The bits at hand, and the ones in the rest of the packet. *)
Definition avail (c : zlib_decompress_ctx) (block : list Z) : list bool := bits_of (Z.to_nat (d_nbits c)) (d_bits c) ++ bytes_bits block.

Lemma refill_spec c block :
  0 <= d_nbits c -> 0 <= d_bits c < 2 ^ d_nbits c -> bytes_ok block ->
  exists b n block', refill c block = (set_bits c b n, block') /\ 0 <= n /\ 0 <= b < 2 ^ n /\ bytes_ok block' /\ (block' = [] \/ 24 <= n)
    /\ avail (set_bits c b n) block' = avail c block.
Proof.
  revert c. induction block as [|x block IH]; intros c Hn Hb Hbl; cbn [refill].
  { exists (d_bits c), (d_nbits c), []. destruct c. ctx_simpl. split_and!; try done; try lia; by left. }
  destruct (Z.ltb_spec (d_nbits c) 24); [|exists (d_bits c), (d_nbits c), (x :: block); destruct c; ctx_simpl; split_and!; try done; lia].
  apply Forall_cons in Hbl as [Hx Hbl]. destruct (IH (set_bits c (d_bits c .| (x << d_nbits c)) (d_nbits c + 8))) as (b&n&block'&E&Hn'&Hb'&Hbl'&Hor&Ha).
  - ctx_simpl. lia.
  - ctx_simpl. rewrite lor_shiftl_add by done. rewrite Z.pow_add_r by lia. destruct Hx. change (2 ^ 8) with 256 in *. nia.
  - done.
  - exists b, n, block'. split_and!; try done; try lia. etransitivity; [exact Ha|].
    unfold avail. ctx_simpl. rewrite bytes_bits_cons, app_assoc. f_equal.
    replace (Z.to_nat (d_nbits c + 8)) with (Z.to_nat (d_nbits c) + 8)%nat by lia.
    pose proof (bits_of_lor (Z.to_nat (d_nbits c)) 8 (d_bits c) x) as Hlor. rewrite Z2Nat.id in Hlor by lia. by apply Hlor.
Qed.

Lemma len_avail c block : 0 <= d_nbits c -> len (avail c block) = d_nbits c + 8 * len block.
Proof. intros Hn. unfold avail. rewrite len_app, len_bytes_bits. unfold len at 1. rewrite length_bits_of. lia. Qed.

Lemma state_ok_bits c b n : state_ok c -> state_ok (set_bits c b n).
Proof. done. Qed.

(** When the decoder stops in time, it has taken all the bytes. *)
Lemma decompress_loop_good fuel c block :
  ctx_ok c -> bytes_ok block -> 2 * (8 * len block + d_nbits c) + rank (d_state c) < Z.of_nat fuel ->
  exists c' ok, decompress_loop fuel c block = Some (c', ok) /\ (exists out, outblk c' = Some out) /\ (ok = true -> ctx_ok c' /\ d_nbits c' < 24).
Proof.
  revert c block. induction fuel as [|fuel IH]; intros c block Hc Hbl Hf; pose proof (len_nonneg block) as Hl0; destruct (Hc) as [Hb Hs]; pose proof (bo_nbits _ Hb).
  { assert (0 <= rank (d_state c)) by (by destruct (d_state c)). lia. }
  cbn [decompress_loop]. destruct ((0 <? len block) || (0 <? d_nbits c)) eqn:Ego.
  - destruct (refill_spec c block (bo_nbits _ Hb) (bo_bits _ Hb) Hbl) as (b&n&block'&->&Hn&Hbits&Hbl'&_&Ha).
    apply (f_equal len) in Ha. rewrite !len_avail in Ha by done. ctx_simpl. assert (ctx_ok (set_bits c b n)) as Hc1 by (split; [by apply base_bits|done]).
    pose proof (step_ok _ Hc1) as Hstep. destruct (step (set_bits c b n)) as [[c'|c'|c']|]; [..|done]; cbn [mbind option_bind]; cbn [step_good] in Hstep; ctx_simpl.
    + destruct Hstep as (Hc'&Hm&Hn'). apply IH; [done|done|lia].
    + destruct Hstep as (Hc'&Hn'). exists c', true. split; [done|]. split; [|done]. destruct Hc' as [Hb' _]. destruct (bo_out _ Hb') as (out&Eo&_). eauto.
    + exists c', false. split_and!; done.
  - apply orb_false_iff in Ego as [_ Hz%Z.ltb_ge]. exists c, true. split; [done|]. split; [destruct (bo_out _ Hb) as (out&Eo&_); eauto|]. intros _. split; [done|lia].
Qed.
