(* ===== verification/Zlib.v ===== *)
(** * Compression (sshzlib.c)

    What the compressor of one side sends, the decompressor of the other side turns back
    into the same packets, each as soon as its bytes have arrived. *)

From S2P Require Import Prelude ZlibHuff ZlibLz77 ZlibDeflate ZlibInflate.
Open Scope Z_scope.
Open Scope word_scope.

(** ** A decoder in step with a stream

    The decoder waits for what [q] says, has produced the text [H], and all of it after [H0] is
    the output of the current call. *)

Definition static_block (c : zlib_decompress_ctx) : Prop := currlentable c = Some Static /\ currdisttable c = Some Static.

Definition at_control (c : zlib_decompress_ctx) (q : control) : Prop :=
  match q with
  | QStart => d_state c = START
  | QOut => d_state c = OUTSIDEBLK
  | QIn => d_state c = INBLK /\ static_block c
  | QLenSym s => d_state c = GOTLENSYM /\ static_block c /\ d_sym c = s
  | QLen n => d_state c = GOTLEN /\ static_block c /\ d_len c = n
  | QDistSym s n => d_state c = GOTDISTSYM /\ static_block c /\ d_sym c = s /\ d_len c = n
  end.

Record dec_base (H0 : list Z) (c : zlib_decompress_ctx) (H : list Z) : Prop := {
  db_slen : Decodes (staticlentable c) static_code 288;
  db_sdist : Decodes (staticdisttable c) static_dist_code 32;
  db_nbits : 0 <= d_nbits c;
  db_bits : 0 <= d_bits c < 2 ^ d_nbits c;
  db_winpos : d_winpos c = len H mod WINSIZE;
  db_window : forall p, inwin H p -> H !! Z.to_nat p = Some (window c (p mod WINSIZE));
  db_out : exists o, outblk c = Some o /\ H = H0 ++ o
}.

Definition dec_rel (H0 : list Z) (c : zlib_decompress_ctx) (q : control) (H : list Z) : Prop := dec_base H0 c H /\ at_control c q.

(** The bits at hand. *)
Definition have (c : zlib_decompress_ctx) : list bool := bits_of (Z.to_nat (d_nbits c)) (d_bits c).

Section Base.
Context (H0 : list Z).

Lemma dbase_state c H s : dec_base H0 c H -> dec_base H0 (set_state c s) H.
Proof using Type. intros [? ? ? ? ? ? ?]. by constructor. Qed.
Lemma dbase_sym c H s n : dec_base H0 c H -> dec_base H0 (set_sym c s n) H.
Proof using Type. intros [? ? ? ? ? ? ?]. by constructor. Qed.
Lemma dbase_tables c H l d ll : dec_base H0 c H -> dec_base H0 (set_tables c l d ll) H.
Proof using Type. intros [? ? ? ? ? ? ?]. by constructor. Qed.
Lemma dbase_bits c H b n : dec_base H0 c H -> 0 <= n -> 0 <= b < 2 ^ n -> dec_base H0 (set_bits c b n) H.
Proof using Type. intros [? ? ? ? ? ? ?] ? ?. by constructor. Qed.

(** Taking the first bits. *)
Lemma take_bits c H l r n :
  dec_base H0 c H -> have c = l ++ r -> len l = n ->
  n <= d_nbits c /\ d_bits c mod 2 ^ n = bits_val l /\ have (EATBITS c n) = r /\ dec_base H0 (EATBITS c n) H.
Proof using Type.
  intros Hb E <-. pose proof (len_nonneg l) as Hl. assert (len l + len r = d_nbits c) as El.
  { rewrite <- len_app, <- E. unfold len, have. rewrite length_bits_of. pose proof (db_nbits _ _ _ Hb). lia. }
  pose proof (len_nonneg r). unfold have in E. replace (Z.to_nat (d_nbits c)) with (length l + Z.to_nat (d_nbits c - len l))%nat in E by (unfold len in *; lia).
  rewrite bits_of_shiftr in E. destruct (app_inj_1 _ _ _ _ (length_bits_of _ _) E) as [E1 E2].
  split_and!; [lia| |exact E2|].
  - rewrite <- E1 at 2. rewrite bits_val_of. done.
  - apply dbase_bits; [done|lia|]. apply shiftr_range; [apply (db_bits _ _ _ Hb)|lia].
Qed.

(** One more character. *)
Lemma emit_rel c H ch : dec_base H0 c H -> exists w p o, zlib_emit_char c ch = Some (set_output c w p o) /\ dec_base H0 (set_output c w p o) (H ++ [ch]).
Proof using Type.
  intros [? ? ? ? Hp Hw (o&Eo&->)]. unfold zlib_emit_char. rewrite Eo. cbn [mbind option_bind]. eexists _, _, _. split; [done|].
  constructor; cbn [staticlentable staticdisttable d_nbits d_bits d_winpos window outblk set_output]; try done.
  - rewrite Hp, land_win, (len_app _ [ch]). change (len [ch]) with 1. by rewrite Zplus_mod_idemp_l.
  - intros p Hin. rewrite Hp. apply inwin_snoc in Hin as [->|[Hin Hne]].
    + rewrite upd_same, lookup_app_r by (unfold len; lia). unfold len. by rewrite Nat2Z.id, Nat.sub_diag.
    + rewrite upd_other by done. rewrite lookup_app_l by (destruct Hin as [Hin _]; unfold len in Hin; lia). by apply Hw.
  - eexists. split; [done|]. by rewrite app_assoc.
Qed.

(** The copy of a match. *)
Lemma copy_rel n c H d H' :
  dec_base H0 c H -> 1 <= d <= WINSIZE -> d <= len H -> copy n d H = Some H' ->
  exists w p o, copy_loop n c d = Some (set_sym (set_output c w p o) (d_sym c) (-1)) /\ dec_base H0 (set_output c w p o) H'.
Proof using Type.
  revert c H. induction n as [|n IH]; intros c H Hb Hd HH; cbn [copy copy_loop].
  - intros [= <-]. exists (window c), (d_winpos c), (outblk c). destruct c. done.
  - intros (ch&Ech&Hcopy)%bind_Some.
    assert (window c ((d_winpos c - d) .& (WINSIZE - 1)) = ch) as ->.
    { assert (inwin H (len H - d)) as Hin by (split; lia). rewrite (db_winpos _ _ _ Hb), land_win, Zminus_mod_idemp_l.
      pose proof (db_window _ _ _ Hb _ Hin) as E. congruence. }
    destruct (emit_rel c H ch Hb) as (w&p&o&->&Hb'). cbn [mbind option_bind].
    destruct (IH _ _ Hb' Hd ltac:(rewrite len_app; change (len [ch]) with 1; lia) Hcopy) as (w'&p'&o'&->&Hb''). by exists w', p', o'.
Qed.
End Base.

(** ** One item

    When all its bits are there, the decoder takes the item; otherwise it waits. *)

Section Symbols.
Context (tab : zlib_table) (code : Z -> list bool) (nsym : Z) {Hdec : Decodes tab code nsym}.

Lemma with_symbol_full H0 c H sym r k :
  dec_base H0 c H -> 0 <= sym < nsym -> have c = code sym ++ r -> with_symbol c tab k = k (EATBITS c (len (code sym))) sym.
Proof using Hdec.
  intros Hb Hs E. unfold with_symbol. rewrite (dec_full sym (d_bits c) (d_nbits c) r Hs (db_nbits _ _ _ Hb) E). cbn [mbind option_bind].
  by rewrite !(proj2 (Z.eqb_neq _ _)) by lia.
Qed.

Lemma with_symbol_part H0 c H sym b r k :
  dec_base H0 c H -> 0 <= sym < nsym -> code sym = have c ++ b :: r -> with_symbol c tab k = Some (Finished c).
Proof using Hdec.
  intros Hb Hs E. unfold with_symbol. rewrite (dec_part sym (d_bits c) (d_nbits c) b r Hs (db_bits _ _ _ Hb) (db_nbits _ _ _ Hb) E). cbn [mbind option_bind].
  by destruct c.
Qed.
End Symbols.

Lemma sym_inv H s q H' : item_step QIn H (ISym s) = Some (q, H') -> 0 <= s < 286.
Proof.
  cbn [item_step]. destruct (Z.ltb_spec s 0); [done|]. destruct (Z.ltb_spec s 256); [lia|]. destruct (Z.eqb_spec s 256); [lia|]. destruct (Z.ltb_spec s 286); [lia|done].
Qed.

Lemma extra_inv rec k v : extra_ok rec k v = true -> Z.of_nat k = cr_extrabits rec /\ 0 <= v < 2 ^ Z.of_nat k.
Proof. intros [[E%Z.eqb_eq ?%Z.leb_le]%andb_true_iff ?%Z.ltb_lt]%andb_true_iff. rewrite E. lia. Qed.

(** The value of the extra bits. *)
Lemma extra_bits H0 c H k v r :
  dec_base H0 c H -> have c = bits_of k v ++ r -> 0 <= v < 2 ^ Z.of_nat k -> d_bits c .& ((1 << Z.of_nat k) - 1) = v.
Proof.
  intros Hb E Hv. destruct (take_bits H0 c H _ _ (Z.of_nat k) Hb E) as (_&Hval&_); [unfold len; by rewrite length_bits_of|].
  rewrite Z.shiftl_1_l, land_mask, Hval, bits_val_of, Z.mod_small by lia. done.
Qed.

Lemma bits_missing H0 c H l b r : dec_base H0 c H -> l = have c ++ b :: r -> d_nbits c < len l.
Proof.
  intros Hb ->. rewrite len_app, len_cons. pose proof (len_nonneg r). unfold have, len at 1. rewrite length_bits_of. pose proof (db_nbits _ _ _ Hb). lia.
Qed.

Lemma distcodes_window k rec v : distcodes !! k = Some rec -> 0 <= v < 2 ^ cr_extrabits rec -> 1 <= cr_min rec + v <= WINSIZE.
Proof.
  intros Hk Hv. assert (Forall (fun r => 1 <= cr_min r /\ cr_min r + 2 ^ cr_extrabits r <= WINSIZE + 1) distcodes) as Hall by (repeat constructor; done).
  pose proof (Forall_lookup_1 _ _ _ _ Hall Hk). cbn in *. lia.
Qed.

Section Items.
Context (H0 : list Z) (c : zlib_decompress_ctx) (q : control) (H : list Z) (Hrel : dec_rel H0 c q H).

Definition takes (q' : control) (H' : list Z) (r : list bool) : Prop :=
  exists c', step c = Some (Continue c') /\ dec_rel H0 c' q' H' /\ have c' = r.

Lemma item_hdr r : q = QStart -> have c = item_bits IHdr ++ r -> takes QOut H r.
Proof using Hrel.
  destruct Hrel as [Hb Hat]. intros -> E. unfold takes, step. rewrite Hat. unfold step_start.
  destruct (take_bits H0 c H _ _ 16 Hb E eq_refl) as (Hn&Hv&Hr&Hb'). rewrite (proj2 (Z.ltb_ge _ _)) by done.
  assert (d_bits c .& 65535 = 40056) as Hlow by (change 65535 with (2 ^ 16 - 1); by rewrite land_mask by lia).
  assert (d_bits c .& 65280 = 40056 .& 65280) as -> by (rewrite <- Hlow, <- Z.land_assoc; done).
  assert (d_bits c .& 255 = 40056 .& 255) as -> by (rewrite <- Hlow, <- Z.land_assoc; done).
  match goal with |- context [if ?b then _ else _] => change b with false end. cbn iota. eexists. split; [done|]. split; [|done]. split; [by apply dbase_state|done].
Qed.

Lemma item_open r : q = QOut -> have c = item_bits IOpen ++ r -> takes QIn H r.
Proof using Hrel.
  destruct Hrel as [Hb Hat]. intros -> E. unfold takes, step. rewrite Hat. unfold step_outsideblk.
  destruct (take_bits H0 c H [false] ([true; false] ++ r) 1 Hb E eq_refl) as (_&_&E1&Hb1).
  destruct (take_bits H0 _ H [true; false] r 2 Hb1 E1 eq_refl) as (Hn&Hv&E2&Hb2). cbn [d_nbits EATBITS set_bits] in Hn. rewrite (proj2 (Z.ltb_ge _ _)) by lia.
  assert (d_bits (EATBITS c 1) .& 3 = 1) as -> by (change 3 with (2 ^ 2 - 1); by rewrite land_mask by lia). cbn [Z.eqb Pos.eqb].
  eexists. split; [done|]. split; [|done]. split; [by apply dbase_state, dbase_tables|done].
Qed.

Lemma item_sym s q' H' r : q = QIn -> item_step QIn H (ISym s) = Some (q', H') -> have c = static_code s ++ r -> takes q' H' r.
Proof using Hrel.
  destruct Hrel as [Hb Hat]. intros -> Hi E. pose proof (sym_inv _ _ _ _ Hi) as Hs. destruct Hat as (Est&Hcl&Hcd). unfold takes, step. rewrite Est.
  unfold step_inblk. rewrite Hcl. cbn [deref mbind option_bind]. pose proof (db_slen _ _ _ Hb) as Hdec.
  rewrite (with_symbol_full _ static_code 288 H0 c H s r) by (done || lia). destruct (take_bits H0 c H _ _ _ Hb E eq_refl) as (_&_&E1&Hb1).
  set (c1 := EATBITS c (len (static_code s))) in *. cbn [item_step] in Hi. rewrite (proj2 (Z.ltb_ge s 0)) in Hi by lia. destruct (s <? 256).
  - injection Hi as <- <-. destruct (emit_rel H0 c1 H s Hb1) as (w&p&o&->&Hb2). cbn [mbind option_bind]. eexists. split; [done|]. split; [|done]. by split.
  - destruct (s =? 256); [|destruct (s <? 286); [|done]]; injection Hi as <- <-; eexists; (split; [done|]); (split; [|done]).
    + split; [by apply dbase_tables, dbase_state|done].
    + split; [by apply dbase_sym, dbase_state|done].
Qed.

Lemma item_lenextra s k v q' H' r :
  q = QLenSym s -> item_step q H (IExtra k v) = Some (q', H') -> have c = bits_of k v ++ r -> takes q' H' r.
Proof using Hrel.
  destruct Hrel as [Hb Hat]. intros -> Hi E. destruct Hat as (Est&Htab&Es). unfold takes, step. rewrite Est. unfold step_gotlensym. rewrite Es. cbn [item_step] in Hi.
  destruct (lencodes !! Z.to_nat (s - 257)) as [rec|]; [|done]. cbn [mbind option_bind] in Hi |- *. destruct (extra_ok rec k v) eqn:Ex; [|done].
  injection Hi as <- <-. apply extra_inv in Ex as [Ek Hv]. rewrite <- Ek, (extra_bits H0 c H k v r Hb E Hv).
  destruct (take_bits H0 c H _ _ (Z.of_nat k) Hb E) as (Hn&_&E1&Hb1); [unfold len; by rewrite length_bits_of|]. rewrite (proj2 (Z.ltb_ge _ _)) by done.
  eexists. split; [done|]. split; [|exact E1]. split; [|done]. apply dbase_state. exact (dbase_sym _ _ _ _ _ Hb1).
Qed.

Lemma item_dist n s q' H' r : q = QLen n -> item_step q H (IDist s) = Some (q', H') -> have c = static_dist_code s ++ r -> takes q' H' r.
Proof using Hrel.
  destruct Hrel as [Hb Hat]. intros -> Hi E. destruct Hat as (Est&(Hcl&Hcd)&El). unfold takes, step. rewrite Est. unfold step_gotlen. rewrite Hcd. cbn [deref mbind option_bind].
  cbn [item_step] in Hi. destruct ((0 <=? s) && (s <? 30)) eqn:Hs; [|done]. injection Hi as <- <-. apply andb_true_iff in Hs as [Hs1%Z.leb_le Hs2%Z.ltb_lt].
  pose proof (db_sdist _ _ _ Hb) as Hdec. rewrite (with_symbol_full _ static_dist_code 32 H0 c H s r) by (done || lia).
  destruct (take_bits H0 c H _ _ _ Hb E eq_refl) as (_&_&E1&Hb1). rewrite (proj2 (Z.leb_gt _ _)) by lia.
  eexists. split; [done|]. split; [|exact E1]. split; [by apply dbase_sym, dbase_state|]. done.
Qed.

Lemma item_distextra s n k v q' H' r :
  q = QDistSym s n -> item_step q H (IExtra k v) = Some (q', H') -> have c = bits_of k v ++ r -> takes q' H' r.
Proof using Hrel.
  destruct Hrel as [Hb Hat]. intros -> Hi E. destruct Hat as (Est&Htab&Es&El). unfold takes, step. rewrite Est. unfold step_gotdistsym. rewrite Es. cbn [item_step] in Hi.
  destruct (distcodes !! Z.to_nat s) as [rec|] eqn:Erec; [|done]. cbn [mbind option_bind] in Hi |- *. destruct (extra_ok rec k v) eqn:Ex; [|done]. cbn [andb] in Hi.
  destruct (Z.leb_spec (cr_min rec + v) (len H)) as [HH|]; [|done]. apply bind_Some in Hi as (H1&Hcopy&[= <- <-]).
  apply extra_inv in Ex as [Ek Hv]. pose proof (distcodes_window _ _ v Erec ltac:(by rewrite <- Ek)) as Hwin. rewrite <- Ek, (extra_bits H0 c H k v r Hb E Hv).
  destruct (take_bits H0 c H _ _ (Z.of_nat k) Hb E) as (Hn&_&E1&Hb1); [unfold len; by rewrite length_bits_of|]. rewrite (proj2 (Z.ltb_ge _ _)) by done.
  rewrite El. destruct (copy_rel H0 (Z.to_nat n) _ H _ H1 (dbase_state _ _ _ INBLK Hb1) Hwin HH Hcopy) as (w&p&o&->&Hb2). cbn [mbind option_bind].
  eexists. split; [done|]. split; [|exact E1]. split; [by apply dbase_sym|]. done.
Qed.
End Items.

(** An item whose bits are all there. *)
Lemma item_full H0 c q H i q' H' r :
  dec_rel H0 c q H -> item_step q H i = Some (q', H') -> have c = item_bits i ++ r -> takes H0 c q' H' r.
Proof.
  intros Hrel Hi E. destruct q, i; try done.
  - injection Hi as <- <-. by eapply item_hdr.
  - injection Hi as <- <-. by eapply item_open.
  - by eapply item_sym.
  - by eapply item_lenextra.
  - by eapply item_dist.
  - by eapply item_distextra.
Qed.

(** An item of which only a part is there: the decoder is as it was. *)
Lemma item_part H0 c q H i q' H' b r :
  dec_rel H0 c q H -> item_step q H i = Some (q', H') -> item_bits i = have c ++ b :: r -> step c = Some (Finished c).
Proof.
  intros [Hb Hat] Hi E. pose proof (bits_missing H0 c H _ b r Hb E) as Hlt. unfold step. destruct q, i; try done; cbn [item_bits at_control] in *.
  - rewrite Hat. unfold step_start. by rewrite (proj2 (Z.ltb_lt _ _)) by exact Hlt.
  - rewrite Hat. unfold step_outsideblk. by rewrite (proj2 (Z.ltb_lt _ _)) by exact Hlt.
  - destruct Hat as (->&Hcl&_). apply sym_inv in Hi. unfold step_inblk. rewrite Hcl. cbn [deref mbind option_bind].
    pose proof (db_slen _ _ _ Hb) as Hdec. apply (with_symbol_part _ static_code 288 H0 c H s b r); done || lia.
  - destruct Hat as (->&_&Es). unfold step_gotlensym. rewrite Es. cbn [item_step] in Hi. destruct (lencodes !! _) as [rec|]; [|done]. cbn [mbind option_bind] in Hi |- *.
    destruct (extra_ok rec k v) eqn:Ex; [|done]. apply extra_inv in Ex as [Ek _]. unfold len in Hlt. rewrite length_bits_of in Hlt.
    by rewrite (proj2 (Z.ltb_lt _ _)) by lia.
  - destruct Hat as (->&(_&Hcd)&_). unfold step_gotlen. rewrite Hcd. cbn [deref mbind option_bind]. cbn [item_step] in Hi.
    destruct ((0 <=? s) && (s <? 30)) eqn:Hs; [|done]. apply andb_true_iff in Hs as [Hs1%Z.leb_le Hs2%Z.ltb_lt].
    pose proof (db_sdist _ _ _ Hb) as Hdec. apply (with_symbol_part _ static_dist_code 32 H0 c H s b r); done || lia.
  - destruct Hat as (->&_&Es&_). unfold step_gotdistsym. rewrite Es. cbn [item_step] in Hi. destruct (distcodes !! _) as [rec|]; [|done]. cbn [mbind option_bind] in Hi |- *.
    destruct (extra_ok rec k v) eqn:Ex; [|done]. apply extra_inv in Ex as [Ek _]. unfold len in Hlt. rewrite length_bits_of in Hlt.
    by rewrite (proj2 (Z.ltb_lt _ _)) by lia.
Qed.

(** No item is longer than what the decoder keeps at hand. *)
Lemma item_len q H i q' H' : item_step q H i = Some (q', H') -> len (item_bits i) <= 24.
Proof.
  intros Hi. destruct q, i; try done; cbn [item_bits].
  - unfold static_code, msb_bits. destruct (s <? 144); [|destruct (s <? 256); [|destruct (s <? 280)]]; unfold len; rewrite length_rev, length_bits_of; lia.
  - cbn [item_step] in Hi. destruct (lencodes !! _) as [rec|] eqn:E; [|done]. cbn [mbind option_bind] in Hi. destruct (extra_ok rec k v) eqn:Ex; [|done].
    apply extra_inv in Ex as [Ek _]. assert (Forall rec_ok lencodes) as Hall by (repeat constructor; cbn; lia).
    pose proof (Forall_lookup_1 _ _ _ _ Hall E) as [? _]. unfold len. rewrite length_bits_of. lia.
  - cbn [item_step] in Hi. destruct (distcodes !! _) as [rec|] eqn:E; [|done]. cbn [mbind option_bind] in Hi. destruct (extra_ok rec k v) eqn:Ex; [|done].
    apply extra_inv in Ex as [Ek _]. assert (Forall rec_ok distcodes) as Hall by (repeat constructor; cbn; lia).
    pose proof (Forall_lookup_1 _ _ _ _ Hall E) as [? _]. unfold len. rewrite length_bits_of. lia.
Qed.

(** An item takes a bit, or the next one does. *)
Definition qrank (q : control) : Z := match q with QLenSym _ | QDistSym _ _ => 1 | _ => 0 end.

Lemma item_rank q H i q' H' : item_step q H i = Some (q', H') -> qrank q' < 2 * len (item_bits i) + qrank q.
Proof.
  intros Hi. pose proof (len_nonneg (item_bits i)). destruct q, i; try done; cbn [item_step] in Hi.
  - injection Hi as <- <-. done.
  - injection Hi as <- <-. done.
  - assert (1 <= len (static_code s)) as Hs.
    { unfold static_code, msb_bits. destruct (s <? 144); [|destruct (s <? 256); [|destruct (s <? 280)]]; unfold len; rewrite length_rev, length_bits_of; lia. }
    cbn [item_bits qrank]. assert (qrank q' <= 1) by (destruct q'; cbn; lia). lia.
  - destruct (lencodes !! _) as [rec|]; [|done]. cbn [mbind option_bind] in Hi. destruct (extra_ok _ _ _); [|done]. injection Hi as <- <-. cbn [qrank]. lia.
  - destruct (_ && _); [|done]. injection Hi as <- <-. cbn [qrank item_bits]. change (len (static_dist_code s)) with 5. lia.
  - destruct (distcodes !! _) as [rec|]; [|done]. cbn [mbind option_bind] in Hi. destruct (_ && _); [|done]. apply bind_Some in Hi as (Hc&_&[= <- <-]). cbn [qrank]. lia.
Qed.

(** ** The loop *)

Lemma have_avail c : have c = avail c [].
Proof. unfold have, avail. by rewrite app_nil_r. Qed.

Lemma app_prefix {A} (a b c d : list A) : a ++ b = c ++ d -> len a <= len c -> exists r, c = a ++ r /\ b = r ++ d.
Proof.
  intros E Hl. exists (drop (length a) c). assert (take (length a) c = a) as Et.
  { apply (f_equal (take (length a))) in E. rewrite take_app_length, take_app_le in E by (unfold len in Hl; lia). done. }
  split; [by rewrite <- Et at 1; rewrite take_drop|]. apply (f_equal (drop (length a))) in E. rewrite drop_app_length, drop_app_le in E by (unfold len in Hl; lia). done.
Qed.

(** The decoder takes the items whose bits have arrived and stops in front of the next one. *)
Lemma decompress_loop_rel fuel H0 c q H block items later qe He :
  dec_rel H0 c q H -> bytes_ok block -> run_items q H items = Some (qe, He) -> stream items = avail c block ++ later ->
  2 * len (avail c block) + qrank q < Z.of_nat fuel ->
  exists c' done rest q' H', decompress_loop fuel c block = Some (c', true) /\ items = done ++ rest /\ run_items q H done = Some (q', H')
    /\ dec_rel H0 c' q' H' /\ stream rest = have c' ++ later
    /\ (have c' = [] \/ match rest with [] => True | i :: _ => len (have c') < len (item_bits i) end).
Proof.
  revert c q H block items. induction fuel as [|fuel IH]; intros c q H block items Hrel Hbl Hrun Es Hf.
  { pose proof (len_nonneg (avail c block)). assert (0 <= qrank q) by (by destruct q). lia. }
  cbn [decompress_loop]. destruct (Hrel) as [Hb Hat]. pose proof (db_nbits _ _ _ Hb) as Hn. pose proof (len_avail c block Hn) as Ela. pose proof (len_nonneg block).
  destruct ((0 <? len block) || (0 <? d_nbits c)) eqn:Ego.
  - assert (0 < len (avail c block)) as Hpos by (apply orb_true_iff in Ego as [?%Z.ltb_lt|?%Z.ltb_lt]; lia).
    destruct (refill_spec c block Hn (db_bits _ _ _ Hb) Hbl) as (b&n&block'&->&Hn1&Hb1&Hbl1&Hor&Ea). set (c1 := set_bits c b n) in *.
    assert (dec_rel H0 c1 q H) as Hrel1 by (split; [by apply dbase_bits|exact Hat]). rewrite <- Ea in Es, Hf, Hpos. clear Ego Ela.
    assert (len (have c1) = n) as Eh by (unfold have, len; rewrite length_bits_of; cbn; lia).
    destruct items as [|i items]; [apply (f_equal len) in Es; rewrite len_app in Es; pose proof (len_nonneg later); change (len (stream [])) with 0 in Es; lia|].
    cbn [run_items] in Hrun. destruct (item_step q H i) as [[q1 T1]|] eqn:Hi; [|done]. cbn [mbind option_bind] in Hrun.
    pose proof (item_len _ _ _ _ _ Hi) as Hl. change (stream (i :: items)) with (item_bits i ++ stream items) in Es.
    destruct (Z.le_gt_cases (len (item_bits i)) n) as [Hle|Hgt].
    + unfold avail in Es. fold (have c1) in Es. rewrite <- app_assoc in Es. apply app_prefix in Es as (r&Er&Es); [|lia].
      destruct (item_full _ _ _ _ _ _ _ _ Hrel1 Hi Er) as (c2&->&Hrel2&Eh2). cbn [mbind option_bind].
      destruct (IH c2 q1 T1 block' items Hrel2 Hbl1 Hrun) as (c'&dn&rest&q'&H'&->&->&Hrun'&Hrel'&Es'&Hstop).
      * rewrite Es. unfold avail. fold (have c2). by rewrite Eh2, <- app_assoc.
      * pose proof (item_rank _ _ _ _ _ Hi). unfold avail in Hf |- *. fold (have c1) in Hf. fold (have c2). rewrite Eh2. rewrite Er, !len_app in Hf. rewrite !len_app. lia.
      * exists c', (i :: dn), rest, q', H'. split_and!; try done. cbn [run_items]. by rewrite Hi.
    + destruct Hor as [->|]; [|lia]. rewrite <- have_avail in Es. symmetry in Es. apply app_prefix in Es as (r&Er&Es); [|lia].
      destruct r as [|bt r]; [apply (f_equal len) in Er; rewrite app_nil_r in Er; lia|]. rewrite (item_part _ _ _ _ _ _ _ _ _ Hrel1 Hi Er). cbn [mbind option_bind].
      exists c1, [], (i :: items), q, H. split_and!; try done; [|right; lia]. change (stream (i :: items)) with (item_bits i ++ stream items).
      by rewrite Es, app_assoc, <- Er.
  - apply orb_false_iff in Ego as [Hz1%Z.ltb_ge Hz2%Z.ltb_ge]. rewrite (len_nil_inv block) in Es by lia. rewrite <- have_avail in Es.
    exists c, [], items, q, H. split_and!; try done. left. apply len_nil_inv. unfold have, len. rewrite length_bits_of. lia.
Qed.

(** ** A packet *)

(** The flush has no data. *)
Definition flush_item (i : item) : Prop := i = ISym 256 \/ i = IOpen.

Lemma flush_items_only pads : Forall flush_item (flush_items pads).
Proof.
  unfold flush_items. apply Forall_app. split; [repeat (apply Forall_cons; split; [by (left + right)|]); by apply Forall_nil|].
  induction pads as [|pads IH]; [by apply Forall_nil|]. cbn. repeat (apply Forall_cons; split; [by (left + right)|]). exact IH.
Qed.

Lemma run_flush_part q H l q' H' : Forall flush_item l -> run_items q H l = Some (q', H') -> H' = H.
Proof.
  intros Hl. revert q H. induction Hl as [|i l Hi Hl IH]; intros q H; cbn [run_items]; [by intros [= -> ->]|].
  destruct (item_step q H i) as [[q1 T1]|] eqn:E; [|done]. cbn [mbind option_bind]. intros ->%IH.
  destruct Hi as [-> | ->]; destruct q; try done; cbn in E; by injection E.
Qed.

Lemma run_flush H pads : run_items QIn H (flush_items pads) = Some (QIn, H).
Proof. unfold flush_items. cbn. induction pads as [|pads IH]; [done|]. exact IH. Qed.

Lemma flush_len pads : 20 <= len (stream (flush_items pads)).
Proof. unfold flush_items. rewrite stream_app, len_app. pose proof (len_nonneg (stream (mjoin (replicate pads [ISym 256; IOpen])))). 
  change (len (stream [ISym 256; IOpen; ISym 256; IOpen])) with 20. lia. Qed.

(** The two sides between two packets: the decoder has all of the text, and what is left of the
    stream, partly with the decoder and partly still with the compressor, is the end of a flush. *)
Definition idle (c : zlib_decompress_ctx) : Prop := outblk c = None.

Definition begin (c : zlib_decompress_ctx) : zlib_decompress_ctx := set_output c (window c) (d_winpos c) (Some []).

Record synced (comp : ssh_zlib_compressor) (c : zlib_decompress_ctx) (H : list Z) : Prop := {
  sy_idle : idle c;
  sy_text : bytes_ok H;
  sy_rest : exists left q rest, comp_ok comp H left /\ dec_rel H (begin c) q H
    /\ run_items q H rest = Some (if ob_firstblock (userdata comp) then QStart else QIn, H) /\ stream rest = have c ++ left
}.

(** The decoder stops inside the flush: it has not taken more than seven bits too few. *)
Lemma stops_in_flush P pads dn rest h left :
  P ++ flush_items pads = dn ++ rest -> stream rest = h ++ left -> len left < 8 ->
  h = [] \/ match rest with [] => True | i :: _ => len h < len (item_bits i) end -> exists r, dn = P ++ r /\ flush_items pads = r ++ rest.
Proof.
  intros E Es Hl Hstop. destruct (Z.le_gt_cases (len P) (len dn)) as [Hle|Hgt]; [by apply app_prefix in E|]. exfalso. symmetry in E.
  apply app_prefix in E as (r&EP&Er); [|lia]. destruct r as [|i r]; [rewrite app_nil_r in EP; subst; lia|]. rewrite Er in Es, Hstop. cbn [app] in Es, Hstop.
  change (stream (i :: r ++ flush_items pads)) with (item_bits i ++ stream (r ++ flush_items pads)) in Es. rewrite stream_app in Es.
  apply (f_equal len) in Es. rewrite !len_app in Es. pose proof (flush_len pads). pose proof (len_nonneg (item_bits i)). pose proof (len_nonneg (stream r)).
  destruct Hstop as [-> |Hstop]; [change (len (@nil bool)) with 0 in Es|]; lia.
Qed.

Lemma transfer_packet comp c H data minlen :
  synced comp c H -> bytes_ok data -> 0 <= minlen <= INT_MAX ->
  exists comp' wire c', zlib_compress_block comp data minlen = Some (comp', wire) /\ zlib_decompress_block c wire = Some (c', Some data)
    /\ synced comp' c' (H ++ data) /\ minlen <= len wire /\ bytes_ok wire
    /\ len wire <= Z.max (2 * len data + 6) (minlen + 1).
Proof.
  intros [Hidle HH (left&q&rest&Hcomp&Hrel&Hrun&Es)] Hdata Hml.
  destruct (compress_block_spec comp H left data minlen Hcomp HH Hdata Hml) as (comp'&wire&left'&items&pads&->&Hmin&Hwire&Hmax&Hcomp'&F&Hleft&Hitems&Estream).
  assert (run_items q H ((rest ++ items) ++ flush_items pads) = Some (QIn, H ++ data)) as Hrun1.
  { rewrite <- app_assoc, (run_items_app _ _ _ _ _ _ Hrun), (run_items_app _ _ _ _ _ _ Hitems). apply run_flush. }
  assert (stream ((rest ++ items) ++ flush_items pads) = avail (begin c) wire ++ left') as Es1.
  { rewrite <- app_assoc, stream_app, Es, <- app_assoc, Estream. unfold avail. by rewrite <- app_assoc. }
  pose proof (db_nbits _ _ _ (proj1 Hrel)) as Hn.
  destruct (decompress_loop_rel (loop_fuel (begin c) wire) H (begin c) q H wire _ left' _ _ Hrel Hwire Hrun1 Es1)
    as (c'&dn&rest'&q'&T&Eloop&Esplit&Hdn&Hrel'&Es'&Hstop).
  { rewrite len_avail by done. assert (qrank q <= 1) by (destruct q; cbn; lia). unfold loop_fuel. pose proof (len_nonneg wire). lia. }
  destruct (stops_in_flush _ _ _ _ _ _ Esplit Es' Hleft Hstop) as (r&->&Eflush).
  assert (run_items q H (rest ++ items) = Some (QIn, H ++ data)) as Hdata_run by (rewrite (run_items_app _ _ _ _ _ _ Hrun); exact Hitems).
  rewrite (run_items_app _ _ _ _ _ _ Hdata_run) in Hdn. pose proof (flush_items_only pads) as Hfl. rewrite Eflush in Hfl. apply Forall_app in Hfl as [Hfr _].
  apply run_flush_part in Hdn as HT; [|done]. subst T. rewrite Eflush, (run_items_app _ _ _ _ _ _ Hdata_run), (run_items_app _ _ _ _ _ _ Hdn) in Hrun1.
  destruct Hrel' as [Hb' Hat']. destruct (db_out _ _ _ Hb') as (o&Eo&Eapp). apply app_inv_head in Eapp. subst o.
  exists comp', wire, (set_output c' (window c') (d_winpos c') None). split; [done|]. split_and!; try done.
  - unfold zlib_decompress_block. rewrite Hidle. fold (begin c). rewrite Eloop. cbn [mbind option_bind]. by rewrite Eo.
  - constructor; [done|by apply Forall_app|]. exists left', q', rest'. rewrite F. split_and!; try done. split; [|exact Hat'].
    destruct Hb'. constructor; try done. exists []. by rewrite app_nil_r.
Qed.

(** ** A connection *)

(** One side sends a packet, the other one receives it. *)
Definition transfer (s : ssh_zlib_compressor * zlib_decompress_ctx) (packet : list Z * Z) :
    option (ssh_zlib_compressor * zlib_decompress_ctx * (list Z * option (list Z))) :=
  '(comp, wire) ← zlib_compress_block s.1 packet.1 packet.2;
  '(c, out) ← zlib_decompress_block s.2 wire;
  Some (comp, c, (wire, out)).

(** A packet and the length asked for. *)
Definition packet_ok (p : list Z * Z) : Prop := bytes_ok p.1 /\ 0 <= p.2 <= INT_MAX.

Lemma synced_init uninit mem : exists c, zlib_decompress_init mem = Some c /\ synced (zlib_compress_init uninit) c [].
Proof.
  unfold zlib_decompress_init. destruct static_table as (t1&->&D1). destruct static_dist_table as (t2&->&D2). cbn [mbind option_bind]. eexists. split; [done|].
  constructor; [done|by apply Forall_nil|]. exists [], QStart, []. split_and!; try done; [apply comp_ok_init|]. split; [|done]. constructor; try done.
  - intros p [Hp _]. change (len (@nil Z)) with 0 in Hp. lia.
  - by exists [].
Qed.

Lemma transfer_run comp c H packets :
  synced comp c H -> Forall packet_ok packets ->
  exists s rs, run_ops transfer (comp, c) packets = Some (s, rs) /\ Forall2 (fun p r => r.2 = Some p.1 /\ p.2 <= len r.1 /\ bytes_ok r.1) packets rs.
Proof.
  intros Hsync Hp. revert comp c H Hsync. induction Hp as [|[data minlen] packets [Hdata Hml] Hp IH]; intros comp c H Hsync.
  { exists (comp, c), []. split; [done|constructor]. }
  destruct (transfer_packet comp c H data minlen Hsync Hdata Hml) as (comp'&wire&c'&E1&E2&Hsync'&Hmin&Hw&_).
  destruct (IH comp' c' _ Hsync') as (s&rs&Ers&Hall).
  assert (transfer (comp, c) (data, minlen) = Some (comp', c', (wire, Some data))) as Et.
  { unfold transfer. cbn [fst snd]. rewrite E1. cbn [mbind option_bind]. by rewrite E2. }
  exists s, ((wire, Some data) :: rs). cbn [run_ops]. rewrite Et. cbn [mbind option_bind]. rewrite Ers. split; [done|]. by constructor.
Qed.

(** C5. Compression loses nothing: on a new connection, however the fresh memory of the two sides looks,
    every packet that one side compresses with [zlib_compress_block] is returned by the other side's
    [zlib_decompress_block] from exactly the bytes sent for it, whatever the packets before it were and however long
    they were, and the bytes sent are at least as many as were asked for. *)
Theorem zlib_roundtrip uninit mem packets :
  Forall packet_ok packets ->
  exists c s rs, zlib_decompress_init mem = Some c /\ run_ops transfer (zlib_compress_init uninit, c) packets = Some (s, rs)
    /\ Forall2 (fun p r => r.2 = Some p.1 /\ p.2 <= len r.1 /\ bytes_ok r.1) packets rs.
Proof.
  intros Hp. destruct (synced_init uninit mem) as (c&E&Hsync). destruct (transfer_run _ _ _ packets Hsync Hp) as (s&rs&Ers&Hall). exists c, s, rs.
  split; [exact E|]. split; [exact Ers|exact Hall].
Qed.

Lemma zlib_roundtrip_witness :
  let packets := [(codes "hello, hello, hello", 0); ([], 100); ([255; 0; 255; 0; 255; 0], 16)] in
  Forall packet_ok packets
  /\ exists c s rs, zlib_decompress_init mem0 = Some c /\ run_ops transfer (zlib_compress_init (fun _ => 7), c) packets = Some (s, rs)
    /\ Forall2 (fun p r => r.2 = Some p.1 /\ p.2 <= len r.1 /\ bytes_ok r.1) packets rs.
Proof.
  cbn zeta. assert (Forall packet_ok [(codes "hello, hello, hello", 0); ([], 100); ([255; 0; 255; 0; 255; 0], 16)]) as Hp
    by (repeat (split || constructor); cbn; lia || done).
  split; [exact Hp|]. exact (zlib_roundtrip (fun _ => 7) mem0 _ Hp).
Defined.

(** ** Hostile input *)

(** Memory of the right shape. *)
Definition mem_ok (mem : zlib_decompress_ctx) : Prop :=
  length (lengths mem) = 320%nat /\ length (lenlen mem) = 19%nat /\ forall i, byte_ok (window mem i).

(** Packets one after the other, as ssh2bpp.c hands them over: it goes on with the next
    one whether or not a packet was refused. *)
Lemma decompress_all_good c packets :
  ctx_ok (begin c) -> idle c -> Forall bytes_ok packets ->
  exists outs, Forall bytes_ok outs /\
    ((exists c', run_ops zlib_decompress_block c packets = Some (c', Some <$> outs))
     \/ exists good bad rest c', packets = good ++ bad :: rest
        /\ run_ops zlib_decompress_block c (good ++ [bad]) = Some (c', (Some <$> outs) ++ [None]) /\ is_Some (outblk c')).
Proof.
  intros Hc Hi Hp. revert c Hc Hi. induction Hp as [|p packets Hp Hps IH]; intros c Hc Hi.
  { exists []. split; [by apply Forall_nil|]. left. by exists c. }
  pose proof (bo_nbits _ (proj1 Hc)) as Hn.
  destruct (decompress_loop_good (loop_fuel (begin c) p) (begin c) p Hc Hp) as (c'&ok&Eloop&(out&Eo)&Hok).
  { unfold loop_fuel. pose proof (len_nonneg p). assert (rank (d_state (begin c)) <= 1) by (destruct (d_state (begin c)); cbn; lia). lia. }
  assert (zlib_decompress_block c p
    = if ok : bool then Some (set_output c' (window c') (d_winpos c') None, Some out) else Some (c', None)) as Eb.
  { unfold zlib_decompress_block. rewrite Hi. fold (begin c). rewrite Eloop. cbn [mbind option_bind]. by rewrite Eo. }
  destruct ok.
  - destruct (Hok eq_refl) as [[Hb' Hs'] _]. destruct (IH (set_output c' (window c') (d_winpos c') None)) as (outs&Houts&Hrun).
    + split; [|exact Hs']. destruct Hb'. constructor; try done. exists []. split; [done|by apply Forall_nil].
    + done.
    + exists (out :: outs). split.
      { apply Forall_cons. split; [|done]. destruct (bo_out _ Hb') as (out'&Eo'&Hout'). congruence. }
      destruct Hrun as [[c2 Hrun]|(good&bad&rest&c2&->&Hrun&Ho)]; [left; exists c2|right; exists (p :: good), bad, rest, c2].
      * cbn [run_ops]. rewrite Eb. cbn [mbind option_bind]. by rewrite Hrun.
      * split; [done|]. split; [|done]. cbn [run_ops app]. rewrite Eb. cbn [mbind option_bind]. by rewrite Hrun.
  - exists []. split; [by apply Forall_nil|]. right. exists [], p, packets, c'. split; [done|]. cbn [app run_ops]. rewrite Eb.
    split; [done|by exists out].
Qed.

(** C22. Whatever the peer sends, in whatever pieces, decompression is safe and comes to an end up to and with the first
    packet that is refused: no table is indexed outside its bounds, no null pointer is followed, no assertion fails, and
    the results are decompressed packets.  What a refused packet leaves is a decompressor whose output block
    is still there; any packet after it, which ssh2bpp.c does hand over, fails the
    assertion at the start of [zlib_decompress_block].  There is no other way for it to fail. *)
Theorem zlib_decompress_safe mem packets :
  mem_ok mem -> Forall bytes_ok packets ->
  exists c outs, zlib_decompress_init mem = Some c /\ Forall bytes_ok outs /\
    ((exists c', run_ops zlib_decompress_block c packets = Some (c', Some <$> outs))
     \/ exists good bad rest c', packets = good ++ bad :: rest
        /\ run_ops zlib_decompress_block c (good ++ [bad]) = Some (c', (Some <$> outs) ++ [None])
        /\ forall next, zlib_decompress_block c' next = None).
Proof.
  intros (Hl&Hll&Hw) Hp. unfold zlib_decompress_init.
  destruct (zlib_mktable_total static_lengths) as (t1&->&Ht1); [unfold static_lengths; rewrite !Forall_app; split_and!; by apply Forall_replicate|done|].
  destruct (zlib_mktable_total static_dist_lengths) as (t2&->&Ht2); [by apply Forall_replicate|done|]. cbn [mbind option_bind]. set (c := mkCtx _ _ _ _ _ _ _ _ _ _ _ _ _ _ _ _ _ _ _ _ _ _ _).
  assert (ctx_ok (begin c)) as Hc.
  { split; [|done]. constructor; try done. exists []. split; [done|by apply Forall_nil]. }
  destruct (decompress_all_good c packets Hc eq_refl Hp) as (outs&Houts&Hrun). exists c, outs. split; [done|]. split; [exact Houts|].
  destruct Hrun as [Hrun|(good&bad&rest&c'&->&Hrun&[o Ho])]; [by left|]. right. exists good, bad, rest, c'. split_and!; [done|done|].
  intros next. unfold zlib_decompress_block. by rewrite Ho.
Qed.

Lemma zlib_decompress_safe_witness :
  let packets := [[120; 156; 255]; [1; 2; 3; 4]; [5]] in
  (mem_ok mem0 /\ Forall bytes_ok packets)
  /\ exists c outs, zlib_decompress_init mem0 = Some c /\ Forall bytes_ok outs /\
    ((exists c', run_ops zlib_decompress_block c packets = Some (c', Some <$> outs))
     \/ exists good bad rest c', packets = good ++ bad :: rest
        /\ run_ops zlib_decompress_block c (good ++ [bad]) = Some (c', (Some <$> outs) ++ [None])
        /\ forall next, zlib_decompress_block c' next = None).
Proof.
  intros packets. assert (mem_ok mem0) as Hm by (split_and!; done). assert (Forall bytes_ok packets) as Hp by (repeat constructor; lia).
  split; [split; [exact Hm|exact Hp]|]. exact (zlib_decompress_safe mem0 _ Hm Hp).
Defined.

(** Three bytes that are no zlib header are refused; the next packet, any packet, meets the
    assertion. *)
Example zlib_refused_then_assertion :
  (c ← zlib_decompress_init mem0; r ← run_ops zlib_decompress_block c [[1; 2; 3]]; Some r.2) = Some [None]
  /\ (c ← zlib_decompress_init mem0; run_ops zlib_decompress_block c [[1; 2; 3]; [120; 156]]) = None.
Proof. split; vm_compute; reflexivity. Qed.
