(* ===== verification/SshCrypto.v ===== *)
(** * Ciphers, MACs and compression as the packet protocol sees them (ssh.h, sshmac.c)

    The packet protocol works with any cipher, MAC and compression method: each is
    an object with a vtable.  An object here is a record of its vtable and its
    context, whose type the vtable gives.  What the protocol relies on is stated in
    the classes [CipherLaws], [MacLaws] and [CompressionLaws]; the implementations
    discharge them. *)

From S2P Require Import Prelude Marshal.
Open Scope Z_scope.
Open Scope word_scope.

(** ** Ciphers *)

(** [ca_new] is [new], [setkey] and [setiv] in one: the key comes first. *)
Record ssh_cipheralg := {
  ca_ctx : Type;
  ca_new : list Z -> list Z -> option ca_ctx;
  ca_encrypt : ca_ctx -> list Z -> ca_ctx * list Z;
  ca_decrypt : ca_ctx -> list Z -> ca_ctx * list Z;
  ca_encrypt_length : ca_ctx -> list Z -> Z -> ca_ctx * list Z;
  ca_decrypt_length : ca_ctx -> list Z -> Z -> ca_ctx * list Z;
  ca_blksize : Z;
  ca_padded_keybytes : Z;
  ca_is_cbc : bool;
  ca_separate_length : bool
}.

Record ssh_cipher := mkCipher { c_vt : ssh_cipheralg; c_ctx : ca_ctx c_vt }.

Definition ssh_cipher_new (alg : ssh_cipheralg) (ckey iv : list Z) : option ssh_cipher := x ← ca_new alg ckey iv; Some (mkCipher alg x).
Definition ssh_cipher_encrypt (c : ssh_cipher) (blk : list Z) : ssh_cipher * list Z :=
  let '(x, out) := ca_encrypt (c_vt c) (c_ctx c) blk in (mkCipher (c_vt c) x, out).
Definition ssh_cipher_decrypt (c : ssh_cipher) (blk : list Z) : ssh_cipher * list Z :=
  let '(x, out) := ca_decrypt (c_vt c) (c_ctx c) blk in (mkCipher (c_vt c) x, out).
Definition ssh_cipher_encrypt_length (c : ssh_cipher) (blk : list Z) (seq : Z) : ssh_cipher * list Z :=
  let '(x, out) := ca_encrypt_length (c_vt c) (c_ctx c) blk seq in (mkCipher (c_vt c) x, out).
Definition ssh_cipher_decrypt_length (c : ssh_cipher) (blk : list Z) (seq : Z) : ssh_cipher * list Z :=
  let '(x, out) := ca_decrypt_length (c_vt c) (c_ctx c) blk seq in (mkCipher (c_vt c) x, out).

(** The unit in which the packet protocol encrypts and decrypts. *)
Definition cipher_unit (alg : ssh_cipheralg) : Z := if ca_blksize alg <? 8 then 8 else ca_blksize alg.

(** [cl_sync e d]: the context [d] of the receiver decrypts what the context [e] of the sender encrypts; [cl_good d]: the context [d] was set up and
    decrypts something.  Data comes in multiples of the block size, and it does not matter how it is divided. *)
Class CipherLaws (alg : ssh_cipheralg) := {
  cl_sync : ca_ctx alg -> ca_ctx alg -> Prop;
  cl_good : ca_ctx alg -> Prop;
  cl_sync_good e d : cl_sync e d -> cl_good d;
  cl_new key iv : bytes_ok key -> bytes_ok iv -> ca_padded_keybytes alg <= len key -> ca_blksize alg <= len iv ->
    exists c, ca_new alg key iv = Some c /\ cl_sync c c;
  cl_unit : cipher_unit alg <= 64 /\ (ca_blksize alg | cipher_unit alg);
  cl_roundtrip e d x : cl_sync e d -> (ca_blksize alg | len x) -> bytes_ok x ->
    exists e' d' y, ca_encrypt alg e x = (e', y) /\ ca_decrypt alg d y = (d', x) /\ cl_sync e' d' /\ len y = len x /\ bytes_ok y;
  cl_app d x y : cl_good d -> bytes_ok x -> bytes_ok y -> (ca_blksize alg | len x) -> (ca_blksize alg | len y) ->
    ca_decrypt alg d (x ++ y) =
    let '(d, x') := ca_decrypt alg d x in let '(d, y') := ca_decrypt alg d y in (d, x' ++ y');
  cl_nil d : ca_decrypt alg d [] = (d, []);
  cl_decrypt_good d x : cl_good d -> bytes_ok x -> (ca_blksize alg | len x) -> cl_good (ca_decrypt alg d x).1;
  cl_decrypt_ok d x : bytes_ok x -> bytes_ok (ca_decrypt alg d x).2;
  cl_decrypt_len d x : (ca_blksize alg | len x) -> len (ca_decrypt alg d x).2 = len x;
  cl_length_good d x seq : cl_good d -> cl_good (ca_decrypt_length alg d x seq).1;
  cl_length e d x seq : ca_separate_length alg = true -> cl_sync e d -> bytes_ok x -> len x = 4 ->
    exists e' d' y, ca_encrypt_length alg e x seq = (e', y) /\ ca_decrypt_length alg d y seq = (d', x) /\ cl_sync e' d'
      /\ len y = 4 /\ bytes_ok y
}.

(** ** MACs *)

(** [ma_new] is [new] and [setkey]. *)
Record ssh2_macalg := {
  ma_ctx : Type;
  ma_new : list Z -> option ma_ctx;
  ma_start : ma_ctx -> ma_ctx;
  ma_write : ma_ctx -> list Z -> option ma_ctx;
  ma_genresult : ma_ctx -> option (ma_ctx * list Z);
  ma_len : Z;
  ma_keylen : Z
}.

Record ssh2_mac := mkMac { m_vt : ssh2_macalg; m_ctx : ma_ctx m_vt }.

Definition ssh2_mac_new (alg : ssh2_macalg) (key : list Z) : option ssh2_mac := x ← ma_new alg key; Some (mkMac alg x).
Definition ssh2_mac_start (m : ssh2_mac) : ssh2_mac := mkMac (m_vt m) (ma_start (m_vt m) (m_ctx m)).
Definition ssh2_mac_genresult (m : ssh2_mac) : option (ssh2_mac * list Z) :=
  '(x, out) ← ma_genresult (m_vt m) (m_ctx m); Some (mkMac (m_vt m) x, out).

#[export] Instance mac_sink : BinarySink ssh2_mac := {| bs_write m d := x ← ma_write (m_vt m) (m_ctx m) d; Some (mkMac (m_vt m) x) |}.

(** A MAC is a function [ml_tag] of its key and of what was written since [start]; asking for the result does not disturb it. *)
Class MacLaws (alg : ssh2_macalg) := {
  ml_tag : list Z -> list Z -> list Z;
  ml_keyed : ma_ctx alg -> list Z -> Prop;
  ml_fed : ma_ctx alg -> list Z -> list Z -> Prop;
  ml_len : 0 < ma_len alg <= 64;
  ml_new key : bytes_ok key -> len key = ma_keylen alg -> exists m, ma_new alg key = Some m /\ ml_keyed m key;
  ml_start m key : ml_keyed m key -> ml_fed (ma_start alg m) key [];
  ml_write m key d x : ml_fed m key d -> bytes_ok x -> exists m', ma_write alg m x = Some m' /\ ml_fed m' key (d ++ x);
  ml_result m key d : ml_fed m key d -> exists m', ma_genresult alg m = Some (m', ml_tag key d) /\ ml_fed m' key d;
  ml_fed_keyed m key d : ml_fed m key d -> ml_keyed m key;
  ml_tag_ok key d : bytes_ok (ml_tag key d) /\ len (ml_tag key d) = ma_len alg
}.

(** [while (len-- > 0) val |= *a++ ^ *b++], and whether [val] is zero, without a branch on it. *)
Fixpoint smemeq_loop (n : nat) (a b : list Z) (val : Z) : option Z :=
  match n with
  | O => Some val
  | S n => x ← head a; y ← head b; smemeq_loop n (tail a) (tail b) (val .| (x .^ y))
  end.
Definition smemeq (a b : list Z) (n : Z) : option bool :=
  val ← smemeq_loop (Z.to_nat n) a b 0;
  Some (negb (u32 (256 - val) >> 8 =? 0)).

(** sshmac.c *)
Definition ssh2_mac_verresult (m : ssh2_mac) (candidate : list Z) : option (ssh2_mac * bool) :=
  assert! ma_len (m_vt m) <=? 64;
  '(m, correct) ← ssh2_mac_genresult m;
  ok ← smemeq correct candidate (ma_len (m_vt m));
  Some (m, ok).

Definition ssh2_mac_prepare (m : ssh2_mac) (blk : list Z) (seq : Z) : option ssh2_mac :=
  let m := ssh2_mac_start m in
  m ← put_uint32 m seq;
  put_data m blk.

(** The result goes behind the block; here it is returned. *)
Definition ssh2_mac_generate (m : ssh2_mac) (blk : list Z) (seq : Z) : option (ssh2_mac * list Z) :=
  m ← ssh2_mac_prepare m blk seq;
  ssh2_mac_genresult m.

(** [blk] and what follows it. *)
Definition ssh2_mac_verify (m : ssh2_mac) (blk after : list Z) (seq : Z) : option (ssh2_mac * bool) :=
  m ← ssh2_mac_prepare m blk seq;
  ssh2_mac_verresult m after.

(** ** Compression *)

(** [za_compress_new] and [za_decompress_new] return a null pointer ([Some None]) when there is no compression;
    compressing and decompressing may fail an assertion. *)
Record ssh_compression_alg := {
  za_comp : Type;
  za_decomp : Type;
  za_compress_new : option (option za_comp);
  za_decompress_new : option (option za_decomp);
  za_compress : za_comp -> list Z -> Z -> option (za_comp * list Z);
  za_decompress : za_decomp -> list Z -> option (za_decomp * option (list Z))
}.

Record ssh_compressor := mkCompressor { zc_vt : ssh_compression_alg; zc_ctx : za_comp zc_vt }.
Record ssh_decompressor := mkDecompressor { zd_vt : ssh_compression_alg; zd_ctx : za_decomp zd_vt }.

Definition ssh_compressor_new (alg : ssh_compression_alg) : option (option ssh_compressor) :=
  c ← za_compress_new alg; Some (option_map (mkCompressor alg) c).
Definition ssh_decompressor_new (alg : ssh_compression_alg) : option (option ssh_decompressor) :=
  d ← za_decompress_new alg; Some (option_map (mkDecompressor alg) d).
Definition ssh_compressor_compress (c : ssh_compressor) (block : list Z) (minlen : Z) : option (ssh_compressor * list Z) :=
  '(x, out) ← za_compress (zc_vt c) (zc_ctx c) block minlen; Some (mkCompressor (zc_vt c) x, out).
Definition ssh_decompressor_decompress (d : ssh_decompressor) (block : list Z) : option (ssh_decompressor * option (list Z)) :=
  '(x, out) ← za_decompress (zd_vt d) (zd_ctx d) block; Some (mkDecompressor (zd_vt d) x, out).

(** A packet that is compressed is decompressed on the other side, and the two stay in step. *)
Class CompressionLaws (alg : ssh_compression_alg) := {
  zl_sync : za_comp alg -> za_decomp alg -> Prop;
  zl_new : (za_compress_new alg = Some None /\ za_decompress_new alg = Some None)
    \/ exists c d, za_compress_new alg = Some (Some c) /\ za_decompress_new alg = Some (Some d) /\ zl_sync c d;
  zl_packet c d data minlen : zl_sync c d -> bytes_ok data -> 0 <= minlen <= INT_MAX ->
    exists c' wire d', za_compress alg c data minlen = Some (c', wire) /\ za_decompress alg d wire = Some (d', Some data)
      /\ zl_sync c' d' /\ bytes_ok wire /\ minlen <= len wire <= Z.max (2 * len data + 6) (minlen + 1)
}.

(** ** Lemmas *)

Lemma smemeq_loop_spec a b v :
  length a = length b -> 0 <= v -> Forall (fun x => 0 <= x) a -> Forall (fun x => 0 <= x) b ->
  exists val, smemeq_loop (length a) a b v = Some val /\ 0 <= val /\ (val = 0 <-> v = 0 /\ a = b).
Proof.
  revert b v. induction a as [|x a IH]; intros [|y b] v Hl Hv Ha Hb; try done; cbn [smemeq_loop length].
  - exists v. split; [done|]. split; [done|]. naive_solver.
  - apply Forall_cons in Ha as [Hx Ha], Hb as [Hy Hb]. cbn [head tail mbind option_bind]. injection Hl as Hl.
    assert (0 <= x .^ y) as Hxy by (by apply Z.lxor_nonneg).
    destruct (IH b (v .| (x .^ y)) Hl) as (val&->&Hval&Hiff); [by apply Z.lor_nonneg|done|done|]. exists val. split; [done|]. split; [done|].
    rewrite Hiff. split.
    + intros [H1 ->]. apply Z.lor_eq_0_iff in H1 as [-> H1%Z.lxor_eq]. by subst.
    + intros [-> [= -> ->]]. by rewrite Z.lxor_nilpotent.
Qed.

Lemma smemeq_loop_byte n a b v val : 0 <= v < 256 -> bytes_ok a -> bytes_ok b -> smemeq_loop n a b v = Some val -> 0 <= val < 256.
Proof.
  revert a b v. induction n as [|n IH]; intros a b v Hv Ha Hb; cbn [smemeq_loop]; [by intros [= ->]|].
  destruct a as [|x a]; [done|]. destruct b as [|y b]; [done|]. cbn [head tail mbind option_bind]. apply Forall_cons in Ha as [Hx Ha], Hb as [Hy Hb].
  apply IH; try done. change (word_ok 8 (v .| (x .^ y))). apply lor_ok; [done|done|]. by apply lxor_ok.
Qed.

(** Two byte strings are compared. *)
Lemma smemeq_spec a b : bytes_ok a -> bytes_ok b -> len a = len b -> smemeq a b (len a) = Some (bool_decide (a = b)).
Proof.
  intros Ha Hb Hl. unfold smemeq. rewrite to_nat_len.
  destruct (smemeq_loop_spec a b 0) as (val&E&Hval&Hiff); [unfold len in Hl; lia|done| | |].
  1, 2: eapply Forall_impl; [eassumption|]; intros ? [? _]; done.
  assert (0 <= 0 < 256) as H0 by lia. pose proof (smemeq_loop_byte _ _ _ _ _ H0 Ha Hb E) as Hr. rewrite E. cbn [mbind option_bind].
  rewrite wrap_id by (unfold word_ok; lia). f_equal. rewrite Z.shiftr_div_pow2 by lia. change (2 ^ 8) with 256.
  destruct (Z.eq_dec val 0) as [Ez|Hne].
  - rewrite (bool_decide_eq_true_2 _ (proj2 (proj1 Hiff Ez))), Ez. done.
  - rewrite (bool_decide_eq_false_2 (a = b)) by (intros ->; apply Hne, Hiff; done). rewrite Z.div_small by lia. done.
Qed.

Section Mac.
Context (m : ssh2_mac) {Hl : MacLaws (m_vt m)} (key : list Z).

(** What the MAC of a packet is computed from. *)
Definition mac_input (seq : Z) (blk : list Z) : list Z := PUT_32BIT_MSB_FIRST (u32 seq) ++ blk.

Lemma put_32_ok v : bytes_ok (PUT_32BIT_MSB_FIRST v) /\ len (PUT_32BIT_MSB_FIRST v) = 4.
Proof using Type. split; [|done]. unfold PUT_32BIT_MSB_FIRST. repeat constructor; apply wrap_range; lia. Qed.

Lemma mac_prepare_spec blk seq :
  ml_keyed (m_ctx m) key -> bytes_ok blk -> exists x, ssh2_mac_prepare m blk seq = Some (mkMac (m_vt m) x) /\ ml_fed x key (mac_input seq blk).
Proof using Type.
  intros Hk Hb. unfold ssh2_mac_prepare, ssh2_mac_start, put_uint32, put_data. cbn [bs_write mac_sink mbind option_bind m_vt m_ctx].
  destruct (ml_write _ _ [] _ (ml_start _ _ Hk) (proj1 (put_32_ok (u32 seq)))) as (x1&->&H1). cbn [mbind option_bind m_vt m_ctx].
  destruct (ml_write _ _ _ _ H1 Hb) as (x2&->&H2). by exists x2.
Qed.

Lemma mac_generate_spec blk seq :
  ml_keyed (m_ctx m) key -> bytes_ok blk ->
  exists x, ssh2_mac_generate m blk seq = Some (mkMac (m_vt m) x, ml_tag key (mac_input seq blk)) /\ ml_keyed x key.
Proof using Type.
  intros Hk Hb. unfold ssh2_mac_generate. destruct (mac_prepare_spec blk seq Hk Hb) as (x&->&Hx). cbn [mbind option_bind].
  unfold ssh2_mac_genresult. cbn [m_vt m_ctx]. destruct (ml_result _ _ _ Hx) as (x'&->&Hx'). cbn [mbind option_bind]. exists x'. split; [done|]. by eapply ml_fed_keyed.
Qed.
End Mac.

Lemma mac_verresult_spec alg {Hl : MacLaws alg} key x d cand :
  ml_fed x key d -> bytes_ok cand -> len cand = ma_len alg ->
  exists x', ssh2_mac_verresult (mkMac alg x) cand = Some (mkMac alg x', bool_decide (ml_tag key d = cand)) /\ ml_fed x' key d.
Proof.
  intros Hx Hc Hlen. unfold ssh2_mac_verresult. cbn [m_vt]. pose proof (ml_len (alg := alg)). rewrite (proj2 (Z.leb_le _ _)) by lia.
  unfold ssh2_mac_genresult. cbn [m_vt m_ctx]. destruct (ml_result _ _ _ Hx) as (x'&->&Hx'). cbn [mbind option_bind]. destruct (ml_tag_ok (alg := alg) key d) as [Hb Ht].
  cbn [m_vt]. rewrite <- Ht, smemeq_spec by (done || lia). cbn [mbind option_bind]. by exists x'.
Qed.

Lemma mac_verify_spec m {Hl : MacLaws (m_vt m)} key blk cand seq :
  ml_keyed (m_ctx m) key -> bytes_ok blk -> bytes_ok cand -> len cand = ma_len (m_vt m) ->
  exists x, ssh2_mac_verify m blk cand seq = Some (mkMac (m_vt m) x, bool_decide (ml_tag key (mac_input seq blk) = cand)) /\ ml_keyed x key.
Proof.
  intros Hk Hb Hc Hlen. unfold ssh2_mac_verify. destruct (mac_prepare_spec m key blk seq Hk Hb) as (x&->&Hx). cbn [mbind option_bind].
  destruct (mac_verresult_spec (m_vt m) key x _ cand Hx Hc Hlen) as (x'&->&Hx'). exists x'. split; [done|]. by eapply ml_fed_keyed.
Qed.
