(* ===== verification/SshCompression.v ===== *)
(** * Compression methods for the packet protocol

    zlib (sshzlib.c, [Zlib.v]) and no compression at all (ssh2transport.c), as
    vtables that satisfy what the packet protocol relies on. *)

From S2P Require Import Prelude SshCrypto ZlibLz77 ZlibDeflate ZlibInflate Zlib.
Open Scope Z_scope.

(** The functions of no compression return null pointers and are never called. *)
Definition ssh_comp_none : ssh_compression_alg := {|
  za_comp := unit; za_decomp := unit;
  za_compress_new := Some None; za_decompress_new := Some None;
  za_compress _ _ _ := None; za_decompress c _ := Some (c, None)
|}.

(** [uninit] and [mem] are what the fresh memory of the two sides holds. *)
Definition ssh_zlib (uninit : Z -> Z) (mem : zlib_decompress_ctx) : ssh_compression_alg := {|
  za_comp := ssh_zlib_compressor; za_decomp := zlib_decompress_ctx;
  za_compress_new := Some (Some (zlib_compress_init uninit));
  za_decompress_new := c ← zlib_decompress_init mem; Some (Some c);
  za_compress := zlib_compress_block; za_decompress := zlib_decompress_block
|}.

#[export] Program Instance comp_none_laws : CompressionLaws ssh_comp_none := {| zl_sync _ _ := False |}.
Next Obligation. by left. Qed.
Next Obligation. done. Qed.

#[export] Program Instance zlib_laws uninit mem : CompressionLaws (ssh_zlib uninit mem) := {| zl_sync c d := exists H, synced c d H |}.
Next Obligation.
  intros uninit mem. right. destruct (synced_init uninit mem) as (c&E&Hs). exists (zlib_compress_init uninit), c. split; [done|]. split; [|by exists []].
  unfold ssh_zlib. cbn [za_decompress_new]. by rewrite E.
Qed.
Next Obligation.
  intros uninit mem c d data minlen (H&Hs) Hd Hml. destruct (transfer_packet c d H data minlen Hs Hd Hml) as (c'&wire&d'&E1&E2&Hs'&Hm&Hw&Hmax).
  exists c', wire, d'. split_and!; try done. by exists (H ++ data).
Qed.
