(* ===== verification/SshHash.v ===== *)
(** * Hash functions (ssh.h, sshauxcrypt.c) and what the block-based ones share

    A hash function is an object with a vtable to which data is written; [HashLaws] is what a
    client such as HMAC relies on.  MD5, SHA-1 and SHA-256 collect the data in blocks of 64 bytes
    with the same code, and pad it in the same way; the second half of the file is
    about that code, with the compression function as a parameter. *)

From S2P Require Import Prelude Marshal.
Open Scope Z_scope.
Open Scope word_scope.

(** ** The vtable *)

(** A context is a value, so that [copyfrom] is the value itself; [ha_new] is fresh memory, before [reset]. *)
Record ssh_hashalg := {
  ha_ctx : Type;
  ha_new : ha_ctx;
  ha_reset : ha_ctx -> ha_ctx;
  ha_write : ha_ctx -> list Z -> option ha_ctx;
  ha_digest : ha_ctx -> option (ha_ctx * list Z);
  ha_hlen : Z;
  ha_blocklen : Z
}.

#[export] Instance hash_sink alg : BinarySink (ha_ctx alg) := {| bs_write := ha_write alg |}.

Definition ssh_hash_reset {alg} (h : ha_ctx alg) : ha_ctx alg := ha_reset alg h.
Definition ssh_hash_new (alg : ssh_hashalg) : ha_ctx alg := ssh_hash_reset (ha_new alg).
Definition ssh_hash_digest {alg} (h : ha_ctx alg) : option (ha_ctx alg * list Z) := ha_digest alg h.
Definition ssh_hash_final {alg} (h : ha_ctx alg) : option (list Z) := '(_, out) ← ha_digest alg h; Some out.
Definition ssh_hash_digest_nondestructive {alg} (h : ha_ctx alg) : option (list Z) := ssh_hash_final h.

(** sshauxcrypt.c *)
Definition hash_simple (alg : ssh_hashalg) (data : list Z) : option (list Z) :=
  hash ← put_datapl (ssh_hash_new alg) data;
  ssh_hash_final hash.

(** A hash is a function [hl_hash] of all that was written since [reset], whatever the memory held before. *)
Class HashLaws (alg : ssh_hashalg) := {
  hl_hash : list Z -> list Z;
  hl_memory : ha_ctx alg -> Prop;
  hl_fed : ha_ctx alg -> list Z -> Prop;
  hl_new : hl_memory (ha_new alg);
  hl_reset c : hl_memory c -> hl_fed (ha_reset alg c) [];
  hl_write c d x : hl_fed c d -> bytes_ok x -> exists c', ha_write alg c x = Some c' /\ hl_fed c' (d ++ x);
  hl_digest c d : hl_fed c d -> exists c', ha_digest alg c = Some (c', hl_hash d) /\ hl_memory c';
  hl_fed_memory c d : hl_fed c d -> hl_memory c;
  hl_ok d : bytes_ok (hl_hash d) /\ len (hl_hash d) = ha_hlen alg;
  hl_blocklen : 0 < ha_blocklen alg
}.

Section Client.
Context (alg : ssh_hashalg) {Hl : HashLaws alg}.

Lemma new_fed : hl_fed (ssh_hash_new alg) [].
Proof using Type. apply hl_reset, hl_new. Qed.

Lemma final_spec (c : ha_ctx alg) d : hl_fed c d -> ssh_hash_final c = Some (hl_hash d).
Proof using Type. intros Hc. unfold ssh_hash_final. by destruct (hl_digest c d Hc) as (c'&->&_). Qed.

Lemma hash_simple_spec data : bytes_ok data -> hash_simple alg data = Some (hl_hash data).
Proof using Type.
  intros Hb. unfold hash_simple, put_datapl, put_data. cbn [bs_write hash_sink]. destruct (hl_write _ [] data new_fed Hb) as (c&->&Hc).
  cbn [mbind option_bind]. by apply final_spec.
Qed.

(** A message in pieces. *)
Fixpoint put_chunks (c : ha_ctx alg) (chunks : list (list Z)) : option (ha_ctx alg) :=
  match chunks with [] => Some c | x :: chunks => c ← put_data c x; put_chunks c chunks end.

Lemma put_chunks_fed c d chunks : hl_fed c d -> Forall bytes_ok chunks -> exists c', put_chunks c chunks = Some c' /\ hl_fed c' (d ++ concat chunks).
Proof using Type.
  intros Hc Hx. revert c d Hc. induction Hx as [|x chunks Hx _ IH]; intros c d Hc; cbn [put_chunks concat]; [exists c; by rewrite app_nil_r|].
  unfold put_data. cbn [bs_write hash_sink]. destruct (hl_write c d x Hc Hx) as (c1&->&Hc1). cbn [mbind option_bind]. rewrite app_assoc. by apply IH.
Qed.

Lemma hash_of_chunks c chunks : hl_memory c -> Forall bytes_ok chunks ->
  exists c' c'', put_chunks (ha_reset alg c) chunks = Some c' /\ ha_digest alg c' = Some (c'', hl_hash (concat chunks)).
Proof using Type.
  intros Hm Hx. destruct (put_chunks_fed _ [] chunks (hl_reset c Hm) Hx) as (c1&->&Hc1). destruct (hl_digest c1 _ Hc1) as (c2&E&_). by exists c1, c2.
Qed.
End Client.

(** ** Collecting blocks *)

(** [hb_block] is the whole array. *)
Record hblock := mkHblock { hb_block : list Z; hb_used : Z; hb_len : Z }.

Section Blocks.
(** [sizeof(blk->block)] *)
Variable B : Z.

Definition block_setup (blk : hblock) : hblock := mkHblock (hb_block blk) 0 0.

(** Some of the data goes into the block; the result has what is left, and whether the block is full. *)
Definition block_write (blk : hblock) (data : list Z) : hblock * list Z * bool :=
  let blkleft := B - hb_used blk in
  let chunk := if len data <? blkleft then len data else blkleft in
  let block := take (Z.to_nat (hb_used blk)) (hb_block blk) ++ take (Z.to_nat chunk) data ++ drop (Z.to_nat (hb_used blk + chunk)) (hb_block blk) in
  let data := drop (Z.to_nat chunk) data in
  let used := hb_used blk + chunk in
  let len := u64 (hb_len blk + chunk) in
  if used =? B then (mkHblock block 0 len, data, true) else (mkHblock block used len, data, false).

Context {core : Type} (do_block : core -> list Z -> core).

(** [while (len > 0) if (block_write(...)) do_block(...)] *)
Fixpoint write_loop (fuel : nat) (c : core) (blk : hblock) (data : list Z) : option (core * hblock) :=
  if 0 <? len data then
    match fuel with
    | O => None
    | S fuel =>
        let '(blk, data, full) := block_write blk data in
        write_loop fuel (if full : bool then do_block c (hb_block blk) else c) blk data
    end
  else Some (c, blk).
Definition write_blocks (c : core) (blk : hblock) (data : list Z) : option (core * hblock) := write_loop (length data) c blk data.

(** *** Reference: the blocks of a message *)

Fixpoint cut_blocks (n : nat) (d : list Z) : list (list Z) :=
  match n with O => [] | S n => take (Z.to_nat B) d :: cut_blocks n (drop (Z.to_nat B) d) end.
Definition blocks_of (d : list Z) : list (list Z) := cut_blocks (Z.to_nat (len d / B)) d.

(** [c] and [blk] have taken in the bytes [d] since [init]. *)
Definition absorbed (init c : core) (blk : hblock) (d : list Z) : Prop :=
  exists bs, Forall (fun b => len b = B) bs /\ d = concat bs ++ take (Z.to_nat (hb_used blk)) (hb_block blk) /\ c = foldl do_block init bs
    /\ 0 <= hb_used blk < B /\ len (hb_block blk) = B /\ hb_len blk = u64 (len d).

Context (HB : 0 < B).

Lemma len_concat (bs : list (list Z)) : Forall (fun b => len b = B) bs -> len (concat bs) = B * len bs.
Proof using Type. induction 1 as [|b bs Hb _ IH]; cbn [concat]; [change (len (@nil Z)) with 0; change (len (@nil (list Z))) with 0; lia|]. rewrite len_app, len_cons, IH. lia. Qed.

Lemma blocks_of_concat (bs : list (list Z)) : Forall (fun b => len b = B) bs -> blocks_of (concat bs) = bs.
Proof using HB.
  intros H. unfold blocks_of. rewrite len_concat by done. rewrite Z.mul_comm, Z.div_mul by lia. rewrite to_nat_len.
  induction H as [|b bs Hb _ IH]; [done|]. cbn [length cut_blocks concat].
  assert (Z.to_nat B = length b) as -> by (unfold len in Hb; lia). rewrite take_app_length, drop_app_length. by rewrite IH.
Qed.

Lemma absorbed_setup init blk : len (hb_block blk) = B -> absorbed init init (block_setup blk) [].
Proof using HB. intros Hl. exists []. split_and!; try done. Qed.

(** How much of the block is used follows from the number of bytes. *)
Lemma absorbed_used init c blk d : absorbed init c blk d -> hb_used blk = len d mod B.
Proof using HB.
  intros (bs&Hbs&->&_&Hu&Hl&_). rewrite len_app, len_concat, len_take by (done || lia).
  rewrite Z.add_comm, (Z.mul_comm B), Z.mod_add, Z.mod_small by lia. done.
Qed.

Lemma absorbed_full init c blk d : absorbed init c blk d -> (B | len d) -> hb_used blk = 0 /\ c = foldl do_block init (blocks_of d).
Proof using HB.
  intros H Hd. pose proof (absorbed_used _ _ _ _ H) as Hu. apply Z.mod_divide in Hd; [|lia]. rewrite Hd in Hu. split; [done|].
  destruct H as (bs&Hbs&->&->&_). rewrite Hu, take_0, app_nil_r. by rewrite blocks_of_concat.
Qed.

Lemma block_write_absorbed init c blk d x :
  absorbed init c blk d -> x <> [] ->
  exists blk' y x' full, block_write blk x = (blk', x', full) /\ x = y ++ x' /\ y <> [] /\
    absorbed init (if full : bool then do_block c (hb_block blk') else c) blk' (d ++ y).
Proof using HB.
  intros (bs&Hbs&->&->&Hu&Hl&Hn) Hx. pose proof (len_pos x Hx) as Hx0. unfold block_write.
  set (chunk := if len x <? B - hb_used blk then len x else B - hb_used blk).
  assert (0 < chunk <= len x /\ chunk <= B - hb_used blk) as [Hc1 Hc2] by (unfold chunk; bcase; lia).
  assert (len (take (Z.to_nat chunk) x) = chunk) as Hy by (apply len_take; lia).
  set (pre := take (Z.to_nat (hb_used blk)) (hb_block blk)). assert (len pre = hb_used blk) as Hpre by (apply len_take; lia).
  set (block := pre ++ take (Z.to_nat chunk) x ++ drop (Z.to_nat (hb_used blk + chunk)) (hb_block blk)).
  assert (len block = B) as Hb by (unfold block; rewrite !len_app, Hpre, Hy, len_drop by lia; lia).
  assert (u64 (hb_len blk + chunk) = u64 (len ((concat bs ++ pre) ++ take (Z.to_nat chunk) x))) as Hlen.
  { rewrite (len_app (concat bs ++ pre)), Hy, Hn. unfold wrap. by rewrite Zplus_mod_idemp_l. }
  assert (take (Z.to_nat chunk) x <> []) as Hne by (intros E; rewrite E in Hy; change (len (@nil Z)) with 0 in Hy; lia).
  destruct (Z.eqb_spec (hb_used blk + chunk) B) as [E|Ne].
  - exists (mkHblock block 0 (u64 (hb_len blk + chunk))), (take (Z.to_nat chunk) x), (drop (Z.to_nat chunk) x), true.
    split; [done|]. split; [by rewrite take_drop|]. split; [done|]. cbn [hb_block].
    assert (block = pre ++ take (Z.to_nat chunk) x) as Eb.
    { unfold block. rewrite drop_ge by (unfold len in Hl; lia). by rewrite app_nil_r. }
    exists (bs ++ [block]). cbn [hb_used hb_block hb_len]. split; [|split; [|split; [|split; [lia|done]]]].
    + apply Forall_app. split; [done|]. by constructor.
    + rewrite take_0, app_nil_r, concat_app. cbn [concat]. rewrite app_nil_r, Eb. by rewrite !app_assoc.
    + by rewrite foldl_app.
  - exists (mkHblock block (hb_used blk + chunk) (u64 (hb_len blk + chunk))), (take (Z.to_nat chunk) x), (drop (Z.to_nat chunk) x), false.
    split; [done|]. split; [by rewrite take_drop|]. split; [done|]. exists bs. cbn [hb_used hb_block hb_len].
    split; [done|split; [|split; [done|split; [lia|done]]]].
    rewrite <- app_assoc. f_equal. unfold block. rewrite app_assoc, take_app_le by (rewrite length_app; unfold len in *; lia).
    rewrite (take_ge (pre ++ take (Z.to_nat chunk) x)); [reflexivity|]. rewrite length_app. unfold len in *. lia.
Qed.

(** Writing takes in all the data. *)
Lemma write_blocks_absorbed init c blk d x :
  absorbed init c blk d -> exists c' blk', write_blocks c blk x = Some (c', blk') /\ absorbed init c' blk' (d ++ x).
Proof using HB.
  unfold write_blocks. assert (len x <= Z.of_nat (length x)) as Hf by done. revert Hf. generalize (length x). intros fuel.
  revert c blk d x. induction fuel as [|fuel IH]; intros c blk d x Hf Ha; cbn [write_loop].
  - apply len_nil_inv in Hf as ->. exists c, blk. by rewrite app_nil_r.
  - destruct (Z.ltb_spec 0 (len x)) as [Hx|Hx]; [|apply len_nil_inv in Hx as ->; exists c, blk; by rewrite app_nil_r].
    assert (x <> []) as Hne by (intros ->; change (len (@nil Z)) with 0 in Hx; lia).
    destruct (block_write_absorbed init c blk d x Ha Hne) as (blk'&y&x'&full&->&->&Hy&Ha').
    destruct (IH (if full then do_block c (hb_block blk') else c) blk' (d ++ y) x') as (c2&blk2&E&Ha2); [rewrite len_app in Hf; pose proof (len_pos y Hy); lia|exact Ha'|].
    exists c2, blk2. split; [done|]. by rewrite app_assoc.
Qed.

Lemma absorbed_block init c blk d : absorbed init c blk d -> len (hb_block blk) = B.
Proof using Type. by intros (bs&_&_&_&_&Hl&_). Qed.

Lemma absorbed_len init c blk d : absorbed init c blk d -> hb_len blk = u64 (len d).
Proof using Type. by intros (bs&_&_&_&_&_&Hn). Qed.
End Blocks.

(** ** Padding *)

(** Zero bytes, for a sink that takes whatever is written to it. *)
Lemma put_padding_fed {S : Type} `{BinarySink S} (fed : S -> list Z -> Prop) :
  (forall s d x, fed s d -> bytes_ok x -> exists s', bs_write s x = Some s' /\ fed s' (d ++ x)) ->
  forall s d n, 0 <= n -> fed s d -> exists s', put_padding s n 0 = Some s' /\ fed s' (d ++ replicate (Z.to_nat n) 0).
Proof.
  intros Hw s d n Hn Hs. unfold put_padding. assert (n <= Z.of_nat (Z.to_nat n)) as Hf by lia. revert Hf. generalize (Z.to_nat n) at 1 2. intros fuel.
  revert s d n Hn Hs. induction fuel as [|fuel IH]; intros s d n Hn Hs Hf; cbn [put_padding_loop].
  - assert (n = 0) as -> by lia. exists s. split; [done|]. cbn. by rewrite app_nil_r.
  - destruct (Z.ltb_spec 0 n); [|assert (n = 0) as -> by lia; exists s; split; [done|]; cbn; by rewrite app_nil_r].
    change (len (replicate 16 0)) with 16. set (k := if n <? 16 then n else 16). assert (0 < k <= n /\ k <= 16) as [Hk Hk16] by (unfold k; bcase; lia).
    rewrite take_replicate, Nat.min_l by lia. destruct (Hw s d (replicate (Z.to_nat k) 0) Hs) as (s1&->&Hs1); [by apply Forall_replicate|].
    destruct (IH s1 _ (n - k) ltac:(lia) Hs1) as (s2&->&Hs2); [lia|]. exists s2. split; [done|].
    rewrite <- app_assoc, <- replicate_add in Hs2. by replace (Z.to_nat k + Z.to_nat (n - k))%nat with (Z.to_nat n) in Hs2 by lia.
Qed.

(** One bit, zeros, and room for the length of the message in 8 bytes: the padding of MD5, SHA-1 and SHA-256. *)
Definition pad_zeros (n : Z) : Z := (55 - n) mod 64.

Lemma pad_full n : (64 | n + 1 + pad_zeros n + 8).
Proof. apply Z.mod_divide; [done|]. unfold pad_zeros. zdivmod. Qed.

(** The count of zeros that the code computes from [used]. *)
Lemma pad_code n : u64 (55 - n mod 64) .& 63 = pad_zeros n.
Proof.
  rewrite land_63. unfold pad_zeros, wrap. rewrite Z.mod_mod_divide by (by exists (2 ^ 58)). zdivmod.
Qed.

(** ** The objects of the block-based hashes *)

(** The variables of a hash: its [core] and its block. *)
Record hash_object := mkHashObject { ho_core : list Z; ho_blk : hblock }.

Section Object.
Context (do_block : list Z -> list Z -> list Z) (init : list Z).

Definition object_reset (s : hash_object) : hash_object := mkHashObject init (block_setup (ho_blk s)).
Definition object_write (s : hash_object) (data : list Z) : option hash_object :=
  '(c, b) ← write_blocks 64 do_block (ho_core s) (ho_blk s) data; Some (mkHashObject c b).

#[local] Instance object_sink : BinarySink hash_object := {| bs_write := object_write |}.

(** The padding of SHA-1 and SHA-256: [put_byte(bs, 0x80); for (i = 1; i < pad; i++) put_byte(bs, 0); put_uint64(bs, final_len)]. *)
Fixpoint put_zeros (n : nat) (s : hash_object) : option hash_object :=
  match n with O => Some s | S n => s ← put_byte s 0; put_zeros n s end.
Definition sha_block_pad (s : hash_object) : option hash_object :=
  let final_len := u64 (hb_len (ho_blk s) << 3) in
  let pad := 1 + (63 .& u64 (55 - hb_used (ho_blk s))) in
  s ← put_byte s 0x80;
  s ← put_zeros (Z.to_nat (pad - 1)) s;
  s ← put_uint64 s final_len;
  assert! hb_used (ho_blk s) =? 0;
  Some s.

(** [s] has taken in the bytes [d] since it was reset. *)
Definition fed (s : hash_object) (d : list Z) : Prop := bytes_ok d /\ absorbed 64 do_block init (ho_core s) (ho_blk s) d.
Definition has_block (s : hash_object) : Prop := len (hb_block (ho_blk s)) = 64.

Lemma fed_reset s : has_block s -> fed (object_reset s) [].
Proof using Type. intros Hs. split; [constructor|]. by apply absorbed_setup. Qed.

Lemma fed_write s d x : fed s d -> bytes_ok x -> exists s', object_write s x = Some s' /\ fed s' (d ++ x).
Proof using Type.
  intros [Hd Ha] Hx. unfold object_write. destruct (write_blocks_absorbed 64 do_block ltac:(done) _ _ _ d x Ha) as (c&b&->&Ha').
  cbn [mbind option_bind]. eexists. split; [done|]. split; [by apply Forall_app|done].
Qed.

Lemma fed_block s d : fed s d -> has_block s.
Proof using Type. intros [_ Ha]. exact (absorbed_block 64 _ _ _ _ _ Ha). Qed.

Lemma fed_counts s d : fed s d -> 63 .& u64 (55 - hb_used (ho_blk s)) = pad_zeros (len d) /\ u64 (hb_len (ho_blk s) << 3) = u64 (8 * len d).
Proof using Type.
  intros [_ Ha]. rewrite (absorbed_used 64 _ ltac:(done) _ _ _ _ Ha), (absorbed_len 64 _ _ _ _ _ Ha), Z.land_comm, pad_code.
  split; [done|]. rewrite Z.shiftl_mul_pow2 by done. unfold wrap. rewrite Zmult_mod_idemp_l. f_equal. lia.
Qed.

(** At the end of the padding the block is empty and all blocks have been taken in. *)
Lemma fed_padded s d tail : fed s (d ++ (0x80 :: replicate (Z.to_nat (pad_zeros (len d))) 0 ++ tail)) -> len tail = 8 ->
  hb_used (ho_blk s) = 0 /\ ho_core s = foldl do_block init (blocks_of 64 (d ++ 0x80 :: replicate (Z.to_nat (pad_zeros (len d))) 0 ++ tail)).
Proof using Type.
  intros [_ Ha] Ht. apply (absorbed_full 64 do_block ltac:(done) _ _ _ _ Ha).
  rewrite len_app, len_cons, len_app, len_replicate, Ht by (by apply Z.mod_pos_bound).
  replace (len d + (1 + (pad_zeros (len d) + 8))) with (len d + 1 + pad_zeros (len d) + 8) by lia. apply pad_full.
Qed.

Lemma put_zeros_fed n s d : fed s d -> exists s', put_zeros n s = Some s' /\ fed s' (d ++ replicate n 0).
Proof using Type.
  revert s d. induction n as [|n IH]; intros s d Hs; cbn [put_zeros replicate]; [exists s; by rewrite app_nil_r|].
  unfold put_byte at 1. cbn [bs_write object_sink]. destruct (fed_write s d [u8 0] Hs) as (s1&->&Hs1); [repeat constructor; done|].
  cbn [mbind option_bind]. destruct (IH s1 _ Hs1) as (s2&->&Hs2). exists s2. by rewrite <- app_assoc in Hs2.
Qed.

(** The padding of the Secure Hash Standard. *)
Definition sha_padding (n : Z) : list Z := 0x80 :: replicate (Z.to_nat (pad_zeros n)) 0 ++ be_split 8 (8 * n).

Lemma be_split_wrap v : be_split 8 (u64 v) = be_split 8 v.
Proof using Type. rewrite <- (be_split_val (be_split 8 v)) by apply be_split_ok. by rewrite length_be_split, be_val_split. Qed.

Lemma sha_block_pad_spec s d : fed s d ->
  exists s', sha_block_pad s = Some s' /\ has_block s' /\ ho_core s' = foldl do_block init (blocks_of 64 (d ++ sha_padding (len d))).
Proof using Type.
  intros Hs. unfold sha_block_pad. destruct (fed_counts s d Hs) as [-> ->]. unfold put_byte, put_uint64. cbn [bs_write object_sink].
  destruct (fed_write s d [u8 0x80] Hs) as (s1&->&Hs1); [repeat constructor; by vm_compute|]. cbn [mbind option_bind].
  replace (1 + pad_zeros (len d) - 1) with (pad_zeros (len d)) by lia.
  destruct (put_zeros_fed (Z.to_nat (pad_zeros (len d))) s1 _ Hs1) as (s2&->&Hs2). cbn [mbind option_bind].
  rewrite wrap_wrap, PUT_64BIT_split, be_split_wrap.
  destruct (fed_write s2 _ (be_split 8 (8 * len d)) Hs2) as (s3&->&Hs3); [apply be_split_ok|]. cbn [mbind option_bind].
  rewrite <- !app_assoc in Hs3. destruct (fed_padded s3 d (be_split 8 (8 * len d)) Hs3) as [-> Hc]; [unfold len at 1; by rewrite length_be_split|].
  exists s3. split; [done|]. split; [by apply (fed_block _ _ Hs3)|done].
Qed.
End Object.

(** ** Rotations of 32-bit words *)

Definition rotl (n x : Z) : Z := (x * 2 ^ n) mod 2 ^ 32 + x / 2 ^ (32 - n).

(** [(x << (31 & y)) | (x >> (31 & -y))] *)
Definition rol (x y : Z) : Z := u32 (x << (31 .& y)) .| (x >> (31 .& u32 (- y))).
(** [(x << (31 & -y)) | (x >> (31 & y))] *)
Definition ror (x y : Z) : Z := u32 (x << (31 .& u32 (- y))) .| (x >> (31 .& y)).

Lemma rotate_parts n x : word_ok 32 x -> 0 < n < 32 -> u32 (x << n) .| (x >> (32 - n)) = rotl n x.
Proof.
  intros Hx Hn. unfold rotl, wrap. rewrite Z.shiftl_mul_pow2, Z.shiftr_div_pow2 by lia.
  assert ((x * 2 ^ n) mod 2 ^ 32 = (x mod 2 ^ (32 - n)) * 2 ^ n) as ->.
  { replace (2 ^ 32) with (2 ^ (32 - n) * 2 ^ n) by (rewrite <- Z.pow_add_r by lia; f_equal; lia).
    rewrite Z.mul_mod_distr_r by (apply Z.pow_nonzero; lia). done. }
  rewrite <- (Z.shiftl_mul_pow2 (x mod 2 ^ (32 - n)) n) by lia. rewrite Z.lor_comm, lor_shiftl_add; [|lia|].
  - rewrite Z.shiftl_mul_pow2 by lia. lia.
  - unfold word_ok in *. split; [apply Z.div_pos; [lia|apply pow2_pos; lia]|]. apply Z.div_lt_upper_bound; [apply pow2_pos; lia|].
    rewrite <- Z.pow_add_r by lia. replace (32 - n + n) with 32 by lia. lia.
Qed.

Lemma rol_rotl n x : word_ok 32 x -> 0 < n < 32 -> rol x n = rotl n x.
Proof.
  intros Hx Hn. unfold rol. assert (31 .& n = n) as -> by (rewrite Z.land_comm; change 31 with (2 ^ 5 - 1); rewrite land_mask by lia; apply Z.mod_small; lia).
  assert (31 .& u32 (- n) = 32 - n) as ->; [|by apply rotate_parts].
  rewrite Z.land_comm. change 31 with (2 ^ 5 - 1). rewrite land_mask by lia. unfold wrap. rewrite Z.mod_mod_divide by (by exists (2 ^ 27)). zdivmod.
Qed.

Lemma ror_rotl n x : word_ok 32 x -> 0 < n < 32 -> ror x n = rotl (32 - n) x.
Proof.
  intros Hx Hn. unfold ror. assert (31 .& n = 32 - (32 - n)) as -> by (rewrite Z.land_comm; change 31 with (2 ^ 5 - 1); rewrite land_mask by lia; rewrite Z.mod_small by lia; lia).
  assert (31 .& u32 (- n) = 32 - n) as ->; [|apply rotate_parts; [done|lia]].
  rewrite Z.land_comm. change 31 with (2 ^ 5 - 1). rewrite land_mask by lia. unfold wrap. rewrite Z.mod_mod_divide by (by exists (2 ^ 27)). zdivmod.
Qed.

(** The words of a block, most significant byte first. *)
Lemma block_words block : bytes_ok block -> len block = 64 ->
  map (fun i => GET_32BIT_MSB_FIRST (drop (4 * i) block)) (seq 0 16) = map (fun i => be_val (take 4 (drop (4 * i) block))) (seq 0 16).
Proof.
  intros Hb Hl. apply map_ext_in. intros i Hi%in_seq. assert (length (drop (4 * i) block) >= 4)%nat as H4 by (rewrite length_drop; unfold len in Hl; lia).
  rewrite <- GET_32BIT_val by (try (by apply Forall_take, Forall_drop); rewrite length_take; lia).
  destruct (drop (4 * i) block) as [|? [|? [|? [|? ?]]]]; cbn in H4; try lia. done.
Qed.

(** The words of the result. *)
Lemma be_words_ok l : bytes_ok (concat (map (be_split 4) l)) /\ len (concat (map (be_split 4) l)) = 4 * len l.
Proof.
  induction l as [|x l [IH1 IH2]]; [done|]. cbn [map concat]. split; [apply Forall_app; split; [apply be_split_ok|done]|].
  rewrite len_app, len_cons, IH2. assert (len (be_split 4 x) = 4) as -> by (unfold len; by rewrite length_be_split). lia.
Qed.

(** The bytes of a concrete list, or of the lists in a list. *)
Ltac concrete_bytes := repeat first [apply Forall_nil_2 | apply Forall_cons_2 | split; [discriminate|reflexivity]].

(** Equations between bitwise functions hold bit by bit. *)
Ltac bitwise :=
  let i := fresh "i" in let Hi := fresh in
  apply Z.bits_inj'; intros i Hi; rewrite ?Z.lxor_spec, ?Z.lor_spec, ?Z.land_spec, ?Z.ldiff_spec, ?Z.lxor_spec, ?Z.lor_spec, ?Z.land_spec, ?Z.ldiff_spec;
  repeat match goal with |- context [Z.testbit ?x i] => destruct (Z.testbit x i) end; reflexivity.

(** Choice and majority, as the code computes them and as the standards write them. *)
Definition Ch (ctrl if1 if0 : Z) : Z := if0 .^ (ctrl .& (if1 .^ if0)).
Definition Maj (x y z : Z) : Z := (x .& y) .| (z .& (x .| y)).

Lemma Ch_xor x y z : Ch x y z = (x .& y) .^ Z.ldiff z x.
Proof. unfold Ch. bitwise. Qed.
Lemma Ch_or x y z : Ch x y z = (x .& y) .| Z.ldiff z x.
Proof. unfold Ch. bitwise. Qed.
Lemma Maj_xor x y z : Maj x y z = (x .& y) .^ (x .& z) .^ (y .& z).
Proof. unfold Maj. bitwise. Qed.

(** A fold whose step is replaced by an equal one. *)
Lemma foldl_ext_in {A B} (P : B -> Prop) (I : A -> Prop) (f g : A -> B -> A) l a :
  (forall a b, I a -> P b -> f a b = g a b /\ I (f a b)) -> Forall P l -> I a -> foldl f a l = foldl g a l /\ I (foldl f a l).
Proof.
  intros Hfg Hl. revert a. induction Hl as [|b l Hb _ IH]; intros a Ha; [done|]. cbn [foldl].
  destruct (Hfg a b Ha Hb) as [<- Hi]. by apply IH.
Qed.

Lemma blocks_of_ok B d : 0 < B -> bytes_ok d -> Forall (fun b => bytes_ok b /\ len b = B) (blocks_of B d).
Proof.
  intros HB Hd. unfold blocks_of. pose proof (Z.mul_div_le (len d) B HB) as Hle. revert Hle.
  assert (0 <= len d / B) as Hq by (apply Z.div_pos; [apply len_nonneg|done]). rewrite <- (Z2Nat.id (len d / B)) at 1 by done.
  generalize (Z.to_nat (len d / B)). intros n. clear Hq. revert d Hd. induction n as [|n IH]; intros d Hd Hle; cbn [cut_blocks]; [constructor|].
  assert (B <= len d) as HBd by nia. constructor.
  - split; [by apply Forall_take|]. apply len_take. lia.
  - apply IH; [by apply Forall_drop|]. rewrite len_drop by lia. lia.
Qed.

(** ** Message schedules

    The code keeps all words of the schedule, each computed from the sixteen before it; the
    reference keeps the last sixteen only. *)

Section Schedule.
Context (next : list Z -> Z).

Definition last16 (w : list Z) : list Z := drop (length w - 16) w.
Fixpoint extend (n : nat) (w : list Z) : list Z :=
  match n with O => w | S n => let w := extend n w in w ++ [next (last16 w)] end.

(** Rounds over a sliding window. *)
Fixpoint window_rounds {S : Type} (step : S -> nat -> Z -> S) (n t : nat) (win : list Z) (s : S) : S :=
  match n with
  | O => s
  | Datatypes.S n => window_rounds step n (Datatypes.S t) (tail win ++ [next win]) (step s t (nth 0 win 0))
  end.

Lemma length_extend n w : length (extend n w) = (n + length w)%nat.
Proof using Type. induction n as [|n IH]; [done|]. cbn [extend]. rewrite length_app, IH. cbn. lia. Qed.

Lemma extend_slide n win : length win = 16%nat -> extend (S n) win = nth 0 win 0 :: extend n (tail win ++ [next win]).
Proof using Type.
  intros Hw. destruct win as [|x win]; [done|]. cbn [tail nth]. cbn in Hw. induction n as [|n IH].
  - cbn [extend]. unfold last16. cbn [length]. by replace (S (length win) - 16)%nat with O by lia.
  - change (extend (S (S n)) (x :: win)) with (extend (S n) (x :: win) ++ [next (last16 (extend (S n) (x :: win)))]). rewrite IH.
    cbn [extend app]. f_equal. f_equal. unfold last16 at 1. cbn [length]. rewrite length_extend, length_app. cbn [length].
    replace (S (n + (length win + 1)) - 16)%nat with (S (n + (length win + 1) - 16)) by lia. cbn [drop]. unfold last16. rewrite length_extend, length_app. done.
Qed.

Lemma window_rounds_extend {S : Type} (step : S -> nat -> Z -> S) n m t win s : length win = 16%nat -> (n <= m)%nat ->
  window_rounds step n t win s = foldl (fun s i => step s i (nth (i - t) (extend m win) 0)) s (seq t n).
Proof using Type.
  revert m t win s. induction n as [|n IH]; intros m t win s Hw Hm; [done|]. destruct m as [|m]; [lia|].
  cbn [window_rounds seq foldl]. rewrite (IH m (Datatypes.S t)) by (rewrite ?length_app; destruct win; cbn in *; lia). rewrite extend_slide by done.
  rewrite Nat.sub_diag. cbn [nth].
  apply (foldl_ext_in (fun i => Datatypes.S t <= i)%nat (fun _ => True)); [|apply Forall_forall; intros i Hi%list_elem_of_In%in_seq; lia|done].
  intros a i _ Hi. split; [|done]. by replace (i - t)%nat with (Datatypes.S (i - Datatypes.S t)) by lia.
Qed.

Lemma nth_extend i n w : (i < length w)%nat -> nth i (extend n w) 0 = nth i w 0.
Proof using Type. intros Hi. induction n as [|n IH]; [done|]. cbn [extend]. rewrite app_nth1 by (rewrite length_extend; lia). done. Qed.

Lemma extend_more i n m w : (i < n + length w)%nat -> (n <= m)%nat -> nth i (extend m w) 0 = nth i (extend n w) 0.
Proof using Type.
  intros Hi Hm. induction Hm as [|m Hm IH]; [done|]. cbn [extend]. rewrite app_nth1 by (rewrite length_extend; lia). done.
Qed.
End Schedule.

(** What the code reads [k] places before the end. *)
Lemma nth_last16 k w : (k <= 16)%nat -> (16 <= length w)%nat -> nth (length w - k) w 0 = nth (16 - k) (last16 w) 0.
Proof. intros Hk Hw. unfold last16. rewrite nth_skipn. f_equal. lia. Qed.

Lemma extend_ext (f g : list Z -> Z) n w : (16 <= length w)%nat -> (forall w, length w = 16%nat -> f w = g w) -> extend f n w = extend g n w.
Proof.
  intros Hw Hfg. induction n as [|n IH]; [done|]. cbn [extend]. rewrite IH. do 2 f_equal. apply Hfg. unfold last16. rewrite length_drop, length_extend. lia.
Qed.

Lemma sha_padding_ok n : bytes_ok (sha_padding n).
Proof. unfold sha_padding. rewrite Forall_cons, Forall_app. split; [by split|]. split; [by apply Forall_replicate|apply be_split_ok]. Qed.

(** Folds that go through [k] steps at a time. *)
Lemma foldl_groups {S : Type} (group step : S -> nat -> S) (k : nat) ts (s : S) :
  (forall s t, In t ts -> group s t = foldl step s (seq t k)) -> foldl group s ts = foldl step s (concat (map (fun t => seq t k) ts)).
Proof.
  revert s. induction ts as [|t ts IH]; intros s H; [done|]. cbn [foldl map concat]. rewrite foldl_app, <- H by (by left). apply IH. intros. apply H. by right.
Qed.
