(* ===== verification/SshMd5.v ===== *)
(** * MD5 (sshmd5.c)

    The hash function that the code computes is the one of RFC 1321. *)

From S2P Require Import Prelude Marshal SshHash.
Open Scope Z_scope.
Open Scope word_scope.

Definition md5_initial_state : list Z := [0x67452301; 0xefcdab89; 0x98badcfe; 0x10325476].

(** addition, rotation, msg_index *)
Definition md5_round_constants : list (Z * Z * Z) :=
  [(0xd76aa478, 7, 0); (0xe8c7b756, 12, 1); (0x242070db, 17, 2); (0xc1bdceee, 22, 3);
   (0xf57c0faf, 7, 4); (0x4787c62a, 12, 5); (0xa8304613, 17, 6); (0xfd469501, 22, 7);
   (0x698098d8, 7, 8); (0x8b44f7af, 12, 9); (0xffff5bb1, 17, 10); (0x895cd7be, 22, 11);
   (0x6b901122, 7, 12); (0xfd987193, 12, 13); (0xa679438e, 17, 14); (0x49b40821, 22, 15);
   (0xf61e2562, 5, 1); (0xc040b340, 9, 6); (0x265e5a51, 14, 11); (0xe9b6c7aa, 20, 0);
   (0xd62f105d, 5, 5); (0x02441453, 9, 10); (0xd8a1e681, 14, 15); (0xe7d3fbc8, 20, 4);
   (0x21e1cde6, 5, 9); (0xc33707d6, 9, 14); (0xf4d50d87, 14, 3); (0x455a14ed, 20, 8);
   (0xa9e3e905, 5, 13); (0xfcefa3f8, 9, 2); (0x676f02d9, 14, 7); (0x8d2a4c8a, 20, 12);
   (0xfffa3942, 4, 5); (0x8771f681, 11, 8); (0x6d9d6122, 16, 11); (0xfde5380c, 23, 14);
   (0xa4beea44, 4, 1); (0x4bdecfa9, 11, 4); (0xf6bb4b60, 16, 7); (0xbebfbc70, 23, 10);
   (0x289b7ec6, 4, 13); (0xeaa127fa, 11, 0); (0xd4ef3085, 16, 3); (0x04881d05, 23, 6);
   (0xd9d4d039, 4, 9); (0xe6db99e5, 11, 12); (0x1fa27cf8, 16, 15); (0xc4ac5665, 23, 2);
   (0xf4292244, 6, 0); (0x432aff97, 10, 7); (0xab9423a7, 15, 14); (0xfc93a039, 21, 5);
   (0x655b59c3, 6, 12); (0x8f0ccc92, 10, 3); (0xffeff47d, 15, 10); (0x85845dd1, 21, 1);
   (0x6fa87e4f, 6, 8); (0xfe2ce6e0, 10, 15); (0xa3014314, 15, 6); (0x4e0811a1, 21, 13);
   (0xf7537e82, 6, 4); (0xbd3af235, 10, 11); (0x2ad7d2bb, 15, 2); (0xeb86d391, 21, 9)].

(** ** Words in memory, least significant byte first (misc.h) *)

Definition GET_32BIT_LSB_FIRST (p : list Z) : Z := nth 0 p 0 .| nth 1 p 0 << 8 .| nth 2 p 0 << 16 .| nth 3 p 0 << 24.
Definition PUT_32BIT_LSB_FIRST (value : Z) : list Z := [u8 value; u8 (value >> 8); u8 (value >> 16); u8 (value >> 24)].
Definition PUT_64BIT_LSB_FIRST (value : Z) : list Z :=
  [u8 value; u8 (value >> 8); u8 (value >> 16); u8 (value >> 24); u8 (value >> 32); u8 (value >> 40); u8 (value >> 48); u8 (value >> 56)].

(** ** Rounds *)

Definition F (x y z : Z) : Z := Ch x y z.
Definition G (x y z : Z) : Z := Ch z x y.
Definition H (x y z : Z) : Z := x .^ y .^ z.
Definition I (x y z : Z) : Z := y .^ (x .| u32 (Z.lnot z)).

(** What is stored in [*a]. *)
Definition md5_round (round_index : nat) (message : list Z) (a b c d : Z) (f : Z -> Z -> Z -> Z) : Z :=
  let '(addition, rotation, msg_index) := nth round_index md5_round_constants (0, 0, 0) in
  u32 (b + rol (u32 (a + f b c d + nth (Z.to_nat msg_index) message 0 + addition)) rotation).

(** The body of each of the four loops. *)
Definition md5_four (f : Z -> Z -> Z -> Z) (message : list Z) (t : nat) (s : Z * Z * Z * Z) : Z * Z * Z * Z :=
  let '(a, b, c, d) := s in
  let a := md5_round t message a b c d f in
  let d := md5_round (t + 1) message d a b c f in
  let c := md5_round (t + 2) message c d a b f in
  let b := md5_round (t + 3) message b c d a f in
  (a, b, c, d).

Definition md5_do_block (core : list Z) (block : list Z) : list Z :=
  let message_words := map (fun i => GET_32BIT_LSB_FIRST (drop (4 * i) block)) (seq 0 16) in
  let s := (nth 0 core 0, nth 1 core 0, nth 2 core 0, nth 3 core 0) in
  let s := foldl (fun s t => md5_four F message_words t s) s [0; 4; 8; 12]%nat in
  let s := foldl (fun s t => md5_four G message_words t s) s [16; 20; 24; 28]%nat in
  let s := foldl (fun s t => md5_four H message_words t s) s [32; 36; 40; 44]%nat in
  let '(a, b, c, d) := foldl (fun s t => md5_four I message_words t s) s [48; 52; 56; 60]%nat in
  [u32 (nth 0 core 0 + a); u32 (nth 1 core 0 + b); u32 (nth 2 core 0 + c); u32 (nth 3 core 0 + d)].

(** ** The object *)

Notation md5 := hash_object (only parsing).

Definition md5_block_setup (b : hblock) : hblock := block_setup b.
Definition md5_block_write (b : hblock) (data : list Z) : hblock * list Z * bool := block_write 64 b data.

(** Fresh memory; its contents do not matter. *)
Definition md5_new : md5 := mkHashObject (replicate 4 0) (mkHblock (replicate 64 0) 0 0).
Definition md5_reset : md5 -> md5 := object_reset md5_initial_state.
Definition md5_write : md5 -> list Z -> option md5 := object_write md5_do_block.

#[local] Instance md5_sink : BinarySink md5 := {| bs_write := md5_write |}.

Definition md5_block_pad (s : md5) : option md5 :=
  let final_len := u64 (hb_len (ho_blk s) << 3) in
  let pad := 63 .& u64 (55 - hb_used (ho_blk s)) in
  s ← put_byte s 0x80;
  s ← put_padding s pad 0;
  s ← put_data s (PUT_64BIT_LSB_FIRST final_len);
  assert! hb_used (ho_blk s) =? 0;
  Some s.

Definition md5_digest (s : md5) : option (md5 * list Z) :=
  s ← md5_block_pad s;
  Some (s, concat (map (fun i => PUT_32BIT_LSB_FIRST (nth i (ho_core s) 0)) (seq 0 4))).

Definition ssh_md5 : ssh_hashalg := {|
  ha_ctx := md5; ha_new := md5_new; ha_reset := md5_reset; ha_write := md5_write; ha_digest := md5_digest; ha_hlen := 16; ha_blocklen := 64
|}.

(** ** Reference: RFC 1321 *)

Module Rfc1321.
Definition F (x y z : Z) : Z := (x .& y) .| Z.ldiff z x.
Definition G (x y z : Z) : Z := (x .& z) .| Z.ldiff y z.
Definition H (x y z : Z) : Z := x .^ y .^ z.
Definition I (x y z : Z) : Z := y .^ (x .| u32 (Z.lnot z)).

(** The function, the index of the message word and the rotation of step [i]. *)
Definition func (i : nat) : Z -> Z -> Z -> Z := nth (i / 16) [F; G; H; I] F.
Definition word_index (i : nat) : nat := match (i / 16)%nat with O => i | 1%nat => 5 * i + 1 | 2%nat => 3 * i + 5 | _ => 7 * i end mod 16.
Definition rotation (i : nat) : Z :=
  nth (i mod 4) (nth (i / 16) [[7; 12; 17; 22]; [5; 9; 14; 20]; [4; 11; 16; 23]; [6; 10; 15; 21]] []) 0.
(** The sine table is that of the code. *)
Definition T (i : nat) : Z := (nth i md5_round_constants (0, 0, 0)).1.1.

Definition step (X : list Z) (s : Z * Z * Z * Z) (i : nat) : Z * Z * Z * Z :=
  let '(a, b, c, d) := s in
  (d, (b + rotl (rotation i) ((a + func i b c d + nth (word_index i) X 0 + T i) mod 2 ^ 32)) mod 2 ^ 32, b, c).

Definition words (block : list Z) : list Z := map (fun i => be_val (rev (take 4 (drop (4 * i) block)))) (seq 0 16).

Definition compress (s : Z * Z * Z * Z) (block : list Z) : Z * Z * Z * Z :=
  let '(a, b, c, d) := s in
  let '(a', b', c', d') := foldl (step (words block)) s (seq 0 64) in
  ((a + a') mod 2 ^ 32, (b + b') mod 2 ^ 32, (c + c') mod 2 ^ 32, (d + d') mod 2 ^ 32).

Definition padding (n : Z) : list Z := 0x80 :: replicate (Z.to_nat (pad_zeros n)) 0 ++ rev (be_split 8 (8 * n)).

Definition md5 (m : list Z) : list Z :=
  let '(a, b, c, d) := foldl compress (0x67452301, 0xefcdab89, 0x98badcfe, 0x10325476) (blocks_of 64 (m ++ padding (len m))) in
  rev (be_split 4 a) ++ rev (be_split 4 b) ++ rev (be_split 4 c) ++ rev (be_split 4 d).
End Rfc1321.

(** Test values of the RFC: the empty string, "abc", the lower-case letters. *)
Example md5_of_abc : be_val (Rfc1321.md5 (codes "abc")) = 0x900150983cd24fb0d6963f7d28e17f72.
Proof. vm_compute. reflexivity. Qed.
Example md5_code_of_letters :
  be_val <$> hash_simple ssh_md5 (codes "abcdefghijklmnopqrstuvwxyz") = Some 0xc3fcd3d76192e4007dfb496cca67e13b.
Proof. vm_compute. reflexivity. Qed.

(** ** The code computes it *)

Lemma GET_32BIT_LSB_val p : bytes_ok p -> (4 <= length p)%nat -> GET_32BIT_LSB_FIRST p = be_val (rev (take 4 p)).
Proof.
  intros Hb Hl. destruct p as [|a [|b [|c [|d p]]]]; cbn in Hl; try lia. repeat (apply Forall_cons in Hb as [? Hb]).
  unfold GET_32BIT_LSB_FIRST. cbv [nth take firstn rev app be_val fold_left]. lor_val. lia.
Qed.

Lemma PUT_32BIT_LSB_split v : PUT_32BIT_LSB_FIRST v = rev (be_split 4 v).
Proof.
  unfold PUT_32BIT_LSB_FIRST, wrap. rewrite !shiftr_div by lia. unfold be_split. cbn [rev app]. by rewrite !Z.div_div by lia.
Qed.

Lemma PUT_64BIT_LSB_split v : PUT_64BIT_LSB_FIRST v = rev (be_split 8 v).
Proof.
  unfold PUT_64BIT_LSB_FIRST, wrap. rewrite !shiftr_div by lia. unfold be_split. cbn [rev app]. by rewrite !Z.div_div by lia.
Qed.

Lemma md5_words block : bytes_ok block -> len block = 64 ->
  map (fun i => GET_32BIT_LSB_FIRST (drop (4 * i) block)) (seq 0 16) = Rfc1321.words block.
Proof.
  intros Hb Hl. unfold Rfc1321.words. apply map_ext_in. intros i Hi%in_seq. apply GET_32BIT_LSB_val; [by apply Forall_drop|].
  rewrite length_drop. unfold len in Hl. lia.
Qed.

Lemma md5_constants i : (i < 64)%nat ->
  nth i md5_round_constants (0, 0, 0) = (Rfc1321.T i, Rfc1321.rotation i, Z.of_nat (Rfc1321.word_index i)) /\ 0 < Rfc1321.rotation i < 32.
Proof.
  intros Hi. assert (Forall (fun i => nth i md5_round_constants (0, 0, 0) = (Rfc1321.T i, Rfc1321.rotation i, Z.of_nat (Rfc1321.word_index i))
    /\ 0 < Rfc1321.rotation i < 32) (seq 0 64)) as Hall.
  { repeat (apply Forall_cons; split; [by split; [reflexivity|cbn; lia]|]). constructor. }
  rewrite Forall_forall in Hall. apply Hall, list_elem_of_In, in_seq. lia.
Qed.

Lemma md5_round_step i X a b c d f : (i < 64)%nat -> (forall x y z, f x y z = Rfc1321.func i x y z) ->
  (d, md5_round i X a b c d f, b, c) = Rfc1321.step X (a, b, c, d) i.
Proof.
  intros Hi Hf. destruct (md5_constants i Hi) as [E Hr]. unfold md5_round. rewrite E, Nat2Z.id, Hf. cbn [Rfc1321.step].
  rewrite rol_rotl by (done || by apply wrap_ok). done.
Qed.

(** Four steps bring the variables back to their places. *)
Lemma md5_four_steps f X t s : (t + 3 < 64)%nat -> (forall k x y z, (k < 4)%nat -> f x y z = Rfc1321.func (t + k) x y z) ->
  md5_four f X t s = foldl (Rfc1321.step X) s (seq t 4).
Proof.
  intros Ht Hf. destruct s as [[[a b] c] d]. unfold md5_four. cbn [seq foldl].
  rewrite <- (md5_round_step t X a b c d f) by (lia || (intros; rewrite (Hf 0%nat) by lia; by rewrite Nat.add_0_r)).
  rewrite <- (md5_round_step (S t) X d _ b c f) by (lia || (intros; rewrite (Hf 1%nat) by lia; by rewrite Nat.add_1_r)).
  rewrite <- (md5_round_step (S (S t)) X c _ _ b f) by (lia || (intros; rewrite (Hf 2%nat) by lia; by replace (t + 2)%nat with (S (S t)) by lia)).
  rewrite <- (md5_round_step (S (S (S t))) X b _ _ _ f) by (lia || (intros; rewrite (Hf 3%nat) by lia; by replace (t + 3)%nat with (S (S (S t))) by lia)).
  by replace (t + 3)%nat with (S (S (S t))) by lia; replace (t + 2)%nat with (S (S t)) by lia; replace (t + 1)%nat with (S t) by lia.
Qed.

Lemma md5_fours f X ts s :
  Forall (fun t => (t + 3 < 64)%nat /\ forall k x y z, (k < 4)%nat -> f x y z = Rfc1321.func (t + k) x y z) ts ->
  foldl (fun s t => md5_four f X t s) s ts = foldl (Rfc1321.step X) s (concat (map (fun t => seq t 4) ts)).
Proof.
  intros H. revert s. induction H as [|t ts [Ht Hf] _ IH]; intros s; [done|]. cbn [foldl map concat]. by rewrite foldl_app, md5_four_steps, IH.
Qed.

Lemma md5_func q k x y z (f g : Z -> Z -> Z -> Z) :
  (k < 16)%nat -> nth q [Rfc1321.F; Rfc1321.G; Rfc1321.H; Rfc1321.I] Rfc1321.F = g -> (forall x y z, f x y z = g x y z) -> f x y z = Rfc1321.func (16 * q + k) x y z.
Proof. intros Hk <- Hf. unfold Rfc1321.func. rewrite (Nat.mul_comm 16), Nat.div_add_l, (Nat.div_small k) by lia. by rewrite Nat.add_0_r. Qed.

Definition md5_list (s : Z * Z * Z * Z) : list Z := let '(a, b, c, d) := s in [a; b; c; d].

Lemma md5_block_compress s block : bytes_ok block -> len block = 64 -> md5_do_block (md5_list s) block = md5_list (Rfc1321.compress s block).
Proof.
  intros Hb Hl. unfold md5_do_block, Rfc1321.compress. rewrite md5_words by done. destruct s as [[[a b] c] d]. cbn [nth md5_list].
  generalize (Rfc1321.words block). intros X.
  assert (forall q f g ts s, nth q [Rfc1321.F; Rfc1321.G; Rfc1321.H; Rfc1321.I] Rfc1321.F = g -> (q < 4)%nat -> (forall x y z, f x y z = g x y z) ->
    ts = map (fun t => 16 * q + t)%nat [0; 4; 8; 12]%nat ->
    foldl (fun s t => md5_four f X t s) s ts = foldl (Rfc1321.step X) s (concat (map (fun t => seq t 4) ts))) as Hq.
  { intros q f g ts s Hg Hq Hf ->. apply md5_fours.
    assert (forall t, (t <= 12)%nat -> (16 * q + t + 3 < 64)%nat /\ forall k x y z, (k < 4)%nat -> f x y z = Rfc1321.func (16 * q + t + k) x y z) as Ht.
    { intros t Ht. split; [lia|]. intros k x y z Hk. rewrite <- Nat.add_assoc. apply (md5_func q (t + k) x y z f g); [lia|done|done]. }
    cbn [map]. do 4 (apply Forall_cons; split; [apply Ht; lia|]). constructor. }
  rewrite (Hq 0%nat F Rfc1321.F) by (done || lia || (intros; apply Ch_or)).
  rewrite (Hq 1%nat G Rfc1321.G) by (done || lia || (intros; unfold G; rewrite Ch_or; unfold Rfc1321.G; by rewrite (Z.land_comm z))).
  rewrite (Hq 2%nat H Rfc1321.H) by (done || lia).
  rewrite (Hq 3%nat I Rfc1321.I) by (done || lia).
  rewrite <- !foldl_app. change (concat _) with (seq 0 16) at 1. change (seq 0 64) with (seq 0 16 ++ seq 16 16 ++ seq 32 16 ++ seq 48 16).
  rewrite !foldl_app. cbn [concat map app].
  destruct (foldl _ _ _) as [[[a' b'] c'] d']. done.
Qed.

Lemma md5_blocks_compress s bs : Forall (fun b => bytes_ok b /\ len b = 64) bs ->
  foldl md5_do_block (md5_list s) bs = md5_list (foldl Rfc1321.compress s bs).
Proof. intros Hbs. revert s. induction Hbs as [|b bs [Hb Hl] _ IH]; intros s; [done|]. cbn [foldl]. by rewrite md5_block_compress, IH. Qed.

Notation md5_fed := (fed md5_do_block md5_initial_state).

Lemma md5_block_pad_spec s d : md5_fed s d ->
  exists s', md5_block_pad s = Some s' /\ has_block s' /\ ho_core s' = foldl md5_do_block md5_initial_state (blocks_of 64 (d ++ Rfc1321.padding (len d))).
Proof.
  intros Hs. unfold md5_block_pad. destruct (fed_counts _ _ s d Hs) as [-> ->]. unfold put_byte, put_data. cbn [bs_write md5_sink]. unfold md5_write.
  destruct (fed_write _ _ s d [u8 0x80] Hs) as (s1&->&Hs1); [repeat constructor; by vm_compute|]. cbn [mbind option_bind].
  destruct (put_padding_fed (H := md5_sink) md5_fed (fed_write md5_do_block md5_initial_state) s1 (d ++ [u8 128]) (pad_zeros (len d))) as (s2&->&Hs2); [by apply Z.mod_pos_bound|exact Hs1|].
  cbn [mbind option_bind]. rewrite PUT_64BIT_LSB_split, be_split_wrap.
  destruct (fed_write _ _ s2 _ (rev (be_split 8 (8 * len d))) Hs2) as (s3&->&Hs3); [apply Forall_rev, be_split_ok|]. cbn [mbind option_bind].
  rewrite <- !app_assoc in Hs3.
  destruct (fed_padded _ _ s3 d (rev (be_split 8 (8 * len d))) Hs3) as [-> Hc]; [unfold len at 1; by rewrite length_rev, length_be_split|].
  exists s3. split; [done|]. split; [by apply (fed_block _ _ _ _ Hs3)|done].
Qed.

Lemma md5_digest_spec s d : md5_fed s d -> exists s', md5_digest s = Some (s', Rfc1321.md5 d) /\ has_block s'.
Proof.
  intros Hs. unfold md5_digest. destruct (md5_block_pad_spec s d Hs) as (s'&->&Hb&Hc). cbn [mbind option_bind]. exists s'.
  split; [|done]. rewrite Hc. change md5_initial_state with (md5_list (0x67452301, 0xefcdab89, 0x98badcfe, 0x10325476)).
  rewrite md5_blocks_compress; [|apply blocks_of_ok; [done|]].
  - unfold Rfc1321.md5. destruct (foldl Rfc1321.compress _ _) as [[[a b] c] e]. cbn [md5_list seq map nth concat]. by rewrite !PUT_32BIT_LSB_split, app_nil_r.
  - destruct Hs as [Hd _]. unfold Rfc1321.padding. rewrite Forall_app, Forall_cons, Forall_app. split_and!; [done|done|by apply Forall_replicate|apply Forall_rev, be_split_ok].
Qed.

#[export] Program Instance md5_laws : HashLaws ssh_md5 := {| hl_hash := Rfc1321.md5; hl_fed := md5_fed; hl_memory := has_block |}.
Next Obligation. done. Qed.
Next Obligation. apply fed_reset. Qed.
Next Obligation. apply fed_write. Qed.
Next Obligation. apply md5_digest_spec. Qed.
Next Obligation. apply fed_block. Qed.
Next Obligation.
  intros d. unfold Rfc1321.md5. destruct (foldl Rfc1321.compress _ _) as [[[a b] c] e]. split; [|done].
  rewrite !Forall_app. split_and!; apply Forall_rev, be_split_ok.
Qed.
Next Obligation. done. Qed.

(** MD5 as RFC 1321 defines it: whatever a context held before, and however the message is divided into writes, the digest is the one of
    the standard, with its rounds and rotations by formula, applied to the padded message cut into blocks; no write fails, and the assertion that the padding
    ends on a block boundary holds. *)
Theorem md5_correct (c : md5) chunks : has_block c -> Forall bytes_ok chunks ->
  exists c' c'', put_chunks ssh_md5 (md5_reset c) chunks = Some c' /\ md5_digest c' = Some (c'', Rfc1321.md5 (concat chunks)).
Proof. exact (hash_of_chunks ssh_md5 c chunks). Qed.
