(* ===== verification/SshSha1.v ===== *)
(** * SHA-1 (sshsha.c)

    The software implementation computes the hash function of the Secure Hash Standard, FIPS 180-4. *)

From S2P Require Import Prelude Marshal SshHash.
Open Scope Z_scope.
Open Scope word_scope.

Definition sha1_initial_state : list Z := [0x67452301; 0xefcdab89; 0x98badcfe; 0x10325476; 0xc3d2e1f0].

Definition SHA1_STAGE0_CONSTANT : Z := 0x5a827999.
Definition SHA1_STAGE1_CONSTANT : Z := 0x6ed9eba1.
Definition SHA1_STAGE2_CONSTANT : Z := 0x8f1bbcdc.
Definition SHA1_STAGE3_CONSTANT : Z := 0xca62c1d6.

Definition Par (x y z : Z) : Z := x .^ y .^ z.

(** What is stored in [*e] and [*b]. *)
Definition sha1_sw_round (round_index : nat) (schedule : list Z) (a b c d e f constant : Z) : Z * Z :=
  (u32 (rol a 5 + f + e + nth round_index schedule 0 + constant), rol b 30).

(** [w[t] = rol(w[t - 3] ^ w[t - 8] ^ w[t - 14] ^ w[t - 16], 1)], for [n] values of [t]. *)
Fixpoint sha1_schedule (n : nat) (w : list Z) : list Z :=
  match n with
  | O => w
  | S n =>
      let w := sha1_schedule n w in
      let t := length w in
      w ++ [rol (nth (t - 3) w 0 .^ nth (t - 8) w 0 .^ nth (t - 14) w 0 .^ nth (t - 16) w 0) 1]
  end.

Definition state5 : Type := Z * Z * Z * Z * Z.

(** The body of each of the four loops. *)
Definition sha1_five (g : Z -> Z -> Z -> Z) (k : Z) (w : list Z) (t : nat) (s : state5) : state5 :=
  let '(a, b, c, d, e) := s in
  let '(e, b) := sha1_sw_round t w a b c d e (g b c d) k in
  let '(d, a) := sha1_sw_round (t + 1) w e a b c d (g a b c) k in
  let '(c, e) := sha1_sw_round (t + 2) w d e a b c (g e a b) k in
  let '(b, d) := sha1_sw_round (t + 3) w c d e a b (g d e a) k in
  let '(a, c) := sha1_sw_round (t + 4) w b c d e a (g c d e) k in
  (a, b, c, d, e).

Definition sha1_sw_block (core : list Z) (block : list Z) : list Z :=
  let w := map (fun t => GET_32BIT_MSB_FIRST (drop (4 * t) block)) (seq 0 16) in
  let w := sha1_schedule 64 w in
  let s := (nth 0 core 0, nth 1 core 0, nth 2 core 0, nth 3 core 0, nth 4 core 0) in
  let s := foldl (fun s t => sha1_five Ch SHA1_STAGE0_CONSTANT w t s) s [0; 5; 10; 15]%nat in
  let s := foldl (fun s t => sha1_five Par SHA1_STAGE1_CONSTANT w t s) s [20; 25; 30; 35]%nat in
  let s := foldl (fun s t => sha1_five Maj SHA1_STAGE2_CONSTANT w t s) s [40; 45; 50; 55]%nat in
  let '(a, b, c, d, e) := foldl (fun s t => sha1_five Par SHA1_STAGE3_CONSTANT w t s) s [60; 65; 70; 75]%nat in
  [u32 (nth 0 core 0 + a); u32 (nth 1 core 0 + b); u32 (nth 2 core 0 + c); u32 (nth 3 core 0 + d); u32 (nth 4 core 0 + e)].

(** ** The object *)

Definition sha1_block_setup (b : hblock) : hblock := block_setup b.
Definition sha1_block_write (b : hblock) (data : list Z) : hblock * list Z * bool := block_write 64 b data.
Definition sha1_sw_new : hash_object := mkHashObject (replicate 5 0) (mkHblock (replicate 64 0) 0 0).
Definition sha1_sw_reset : hash_object -> hash_object := object_reset sha1_initial_state.
Definition sha1_sw_write : hash_object -> list Z -> option hash_object := object_write sha1_sw_block.
Definition sha1_block_pad : hash_object -> option hash_object := sha_block_pad sha1_sw_block.
Definition sha1_sw_digest (s : hash_object) : option (hash_object * list Z) :=
  s ← sha1_block_pad s;
  Some (s, concat (map (fun i => PUT_32BIT_MSB_FIRST (nth i (ho_core s) 0)) (seq 0 5))).

Definition ssh_sha1_sw : ssh_hashalg := {|
  ha_ctx := hash_object; ha_new := sha1_sw_new; ha_reset := sha1_sw_reset; ha_write := sha1_sw_write; ha_digest := sha1_sw_digest;
  ha_hlen := 20; ha_blocklen := 64
|}.

(** ** Reference: FIPS 180-4 *)

Module Fips1.
Definition ROTL (n x : Z) : Z := u32 (x << n) .| (x >> (32 - n)).
Definition f (t : nat) (x y z : Z) : Z :=
  match (t / 20)%nat with
  | O => (x .& y) .^ Z.ldiff z x
  | 2%nat => (x .& y) .^ (x .& z) .^ (y .& z)
  | _ => x .^ y .^ z
  end.
(** [2 ^ 30] times the square roots of 2, 3, 5 and 10. *)
Definition K (t : nat) : Z := Z.sqrt (nth (t / 20) [2; 3; 5; 10] 0 * 2 ^ 60).

(** The next word of the schedule, from the last sixteen. *)
Definition next (w : list Z) : Z := ROTL 1 (nth 13 w 0 .^ nth 8 w 0 .^ nth 2 w 0 .^ nth 0 w 0).

Definition step (s : state5) (t : nat) (W : Z) : state5 :=
  let '(a, b, c, d, e) := s in
  ((ROTL 5 a + f t b c d + e + W + K t) mod 2 ^ 32, a, ROTL 30 b, c, d).

Definition words (block : list Z) : list Z := map (fun i => be_val (take 4 (drop (4 * i) block))) (seq 0 16).

Definition compress (H : state5) (block : list Z) : state5 :=
  let '(a, b, c, d, e) := H in
  let '(a', b', c', d', e') := window_rounds next step 80 0 (words block) H in
  ((a + a') mod 2 ^ 32, (b + b') mod 2 ^ 32, (c + c') mod 2 ^ 32, (d + d') mod 2 ^ 32, (e + e') mod 2 ^ 32).

Definition H0 : state5 := (0x67452301, 0xefcdab89, 0x98badcfe, 0x10325476, 0xc3d2e1f0).
Definition as_list (s : state5) : list Z := let '(a, b, c, d, e) := s in [a; b; c; d; e].

Definition sha1 (m : list Z) : list Z :=
  concat (map (be_split 4) (as_list (foldl compress H0 (blocks_of 64 (m ++ sha_padding (len m)))))).
End Fips1.

(** The test message of the standard. *)
Example sha1_of_abc : be_val (Fips1.sha1 (codes "abc")) = 0xa9993e364706816aba3e25717850c26c9cd0d89d.
Proof. vm_compute. reflexivity. Qed.
Example sha1_code_of_nothing : be_val <$> hash_simple ssh_sha1_sw [] = Some 0xda39a3ee5e6b4b0d3255bfef95601890afd80709.
Proof. vm_compute. reflexivity. Qed.

(** ** The code computes it *)

Lemma sha1_schedule_extend n w : (16 <= length w)%nat -> sha1_schedule n w = extend Fips1.next n w.
Proof.
  intros Hw. induction n as [|n IH]; [done|]. cbn [sha1_schedule extend]. rewrite IH. do 2 f_equal.
  assert (16 <= length (extend Fips1.next n w))%nat by (rewrite length_extend; lia).
  rewrite !nth_last16 by lia. reflexivity.
Qed.

Notation sha1_ref_step w := (fun s i => Fips1.step s i (nth i w 0)).

(** The function and the constant of a stage. *)
Definition stage_of (g : Z -> Z -> Z -> Z) (k : Z) (t : nat) : Prop := (forall x y z, g x y z = Fips1.f t x y z) /\ k = Fips1.K t.

Lemma sha1_round_step g k t w a b c d e : stage_of g k t ->
  exists e' b', sha1_sw_round t w a b c d e (g b c d) k = (e', b') /\ (e', a, b', c, d) = Fips1.step (a, b, c, d, e) t (nth t w 0).
Proof. intros [Hg Hk]. eexists _, _. split; [reflexivity|]. unfold Fips1.step. rewrite Hg, Hk. reflexivity. Qed.

(** Five rounds bring the variables back to their places. *)
Lemma five_steps g k w t s : (forall i, (i < 5)%nat -> stage_of g k (i + t)) -> sha1_five g k w t s = foldl (sha1_ref_step w) s (seq t 5).
Proof.
  intros Hst. destruct s as [[[[a b] c] d] e]. unfold sha1_five.
  replace (t + 1)%nat with (S t) by lia. replace (t + 2)%nat with (S (S t)) by lia. replace (t + 3)%nat with (S (S (S t))) by lia.
  replace (t + 4)%nat with (S (S (S (S t)))) by lia. cbn [seq foldl].
  do 5 match goal with
  | |- context [sha1_sw_round ?t' ?w ?a ?b ?c ?d ?e _ ?k] =>
      let E := fresh in destruct (sha1_round_step g k t' w a b c d e) as (?&?&->&E);
      [first [apply (Hst 0%nat)|apply (Hst 1%nat)|apply (Hst 2%nat)|apply (Hst 3%nat)|apply (Hst 4%nat)]; lia|]; rewrite <- E; clear E
  end.
  reflexivity.
Qed.

Lemma stage_stage (q : nat) g k i : (i < 20)%nat -> stage_of g k (20 * q) -> stage_of g k (i + 20 * q).
Proof.
  intros Hi [Hg Hk]. unfold stage_of, Fips1.f, Fips1.K in *. rewrite (Nat.mul_comm 20), Nat.div_add, Nat.div_small, Nat.add_0_l by lia.
  rewrite (Nat.mul_comm 20), Nat.div_mul in * by lia. done.
Qed.

Lemma stage_steps (q : nat) g k w s ts : ts = map (fun t => t + 20 * q)%nat [0; 5; 10; 15]%nat -> stage_of g k (20 * q) ->
  foldl (fun s t => sha1_five g k w t s) s ts = foldl (sha1_ref_step w) s (seq (20 * q) 20).
Proof.
  intros -> Hst. rewrite (foldl_groups (fun s t => sha1_five g k w t s) (sha1_ref_step w) 5); [done|].
  intros s' t Ht. apply five_steps. intros i Hi. assert (exists j, t = (j + 20 * q)%nat /\ (j <= 15)%nat) as (j&->&Hj).
  { cbn in Ht. destruct Ht as [<-|[<-|[<-|[<-|[]]]]]; [exists 0%nat|exists 5%nat|exists 10%nat|exists 15%nat]; lia. }
  rewrite Nat.add_assoc. apply stage_stage; [lia|done].
Qed.

Lemma sha1_block_compress s block : bytes_ok block -> len block = 64 ->
  sha1_sw_block (Fips1.as_list s) block = Fips1.as_list (Fips1.compress s block).
Proof.
  intros Hb Hl. unfold sha1_sw_block, Fips1.compress. rewrite SshHash.block_words by done. fold (Fips1.words block).
  assert (length (Fips1.words block) = 16%nat) as Hw by (unfold Fips1.words; by rewrite length_map, length_seq).
  rewrite sha1_schedule_extend, (window_rounds_extend _ _ 80 80) by lia. set (w := extend Fips1.next 64 (Fips1.words block)).
  rewrite (stage_steps 0 Ch SHA1_STAGE0_CONSTANT w) by first [reflexivity|split; [intros; apply Ch_xor|reflexivity]].
  rewrite (stage_steps 1 Par SHA1_STAGE1_CONSTANT w) by first [reflexivity|split; [done|reflexivity]].
  rewrite (stage_steps 2 Maj SHA1_STAGE2_CONSTANT w) by first [reflexivity|split; [intros; apply Maj_xor|reflexivity]].
  rewrite (stage_steps 3 Par SHA1_STAGE3_CONSTANT w) by first [reflexivity|split; [done|reflexivity]].
  rewrite <- !foldl_app. destruct s as [[[[a b] c] d] e]. cbn [Fips1.as_list nth].
  change (seq (20 * 0) 20 ++ seq (20 * 1) 20 ++ seq (20 * 2) 20 ++ seq (20 * 3) 20) with (seq 0 80).
  assert (forall s, foldl (sha1_ref_step w) s (seq 0 80) = foldl (fun s i => Fips1.step s i (nth (i - 0) (extend Fips1.next 80 (Fips1.words block)) 0)) s (seq 0 80)) as ->.
  { intros s. apply (foldl_ext_in (fun i => i < 80)%nat (fun _ => True)); [|apply Forall_forall; intros i Hi%list_elem_of_In%in_seq; lia|done].
    intros s' i _ Hi. split; [|done]. rewrite Nat.sub_0_r. unfold w. by rewrite (extend_more Fips1.next i 64 80) by lia. }
  destruct (foldl _ _ _) as [[[[a' b'] c'] d'] e']. reflexivity.
Qed.

Lemma sha1_blocks_compress s bs : Forall (fun b => bytes_ok b /\ len b = 64) bs ->
  foldl sha1_sw_block (Fips1.as_list s) bs = Fips1.as_list (foldl Fips1.compress s bs).
Proof. intros Hbs. revert s. induction Hbs as [|b bs [Hb Hl] _ IH]; intros s; [done|]. cbn [foldl]. by rewrite sha1_block_compress, IH. Qed.

Notation sha1_fed := (fed sha1_sw_block sha1_initial_state).

Lemma sha1_digest_spec s d : sha1_fed s d -> exists s', sha1_sw_digest s = Some (s', Fips1.sha1 d) /\ has_block s'.
Proof.
  intros Hs. unfold sha1_sw_digest, sha1_block_pad. destruct (sha_block_pad_spec _ _ s d Hs) as (s'&->&Hb&Hc). cbn [mbind option_bind]. exists s'.
  split; [|done]. rewrite Hc. change sha1_initial_state with (Fips1.as_list Fips1.H0).
  rewrite sha1_blocks_compress by (apply blocks_of_ok; [done|]; apply Forall_app; split; [apply Hs|apply sha_padding_ok]).
  unfold Fips1.sha1. destruct (foldl Fips1.compress _ _) as [[[[a b] c] e] f].
  cbn [Fips1.as_list seq map nth concat]. by rewrite !PUT_32BIT_split.
Qed.

#[export] Program Instance sha1_laws : HashLaws ssh_sha1_sw := {| hl_hash := Fips1.sha1; hl_fed := sha1_fed; hl_memory := has_block |}.
Next Obligation. done. Qed.
Next Obligation. apply fed_reset. Qed.
Next Obligation. apply fed_write. Qed.
Next Obligation. apply sha1_digest_spec. Qed.
Next Obligation. apply fed_block. Qed.
Next Obligation.
  intros d. unfold Fips1.sha1. destruct (foldl Fips1.compress _ _) as [[[[a b] c] e] f].
  split; [apply be_words_ok|]. by rewrite (proj2 (be_words_ok _)).
Qed.
Next Obligation. done. Qed.

(** C27. SHA-1 as FIPS 180-4 defines it: whatever a context held before, and however the message is divided into writes, the digest is the one
    of the standard, with its constants as square roots and its schedule over a sliding window, applied to the padded message cut into blocks; no
    write fails, and the assertion that the padding ends on a block boundary holds. *)
Theorem sha1_correct (c : hash_object) chunks : has_block c -> Forall bytes_ok chunks ->
  exists c' c'', put_chunks ssh_sha1_sw (sha1_sw_reset c) chunks = Some c' /\ sha1_sw_digest c' = Some (c'', Fips1.sha1 (concat chunks)).
Proof. exact (hash_of_chunks ssh_sha1_sw c chunks). Qed.

Lemma sha1_correct_witness :
  has_block (mkHashObject [] (mkHblock (replicate 64 7) 5 77)) /\
  exists c' c'', put_chunks ssh_sha1_sw (sha1_sw_reset (mkHashObject [] (mkHblock (replicate 64 7) 5 77))) [[97]; [98; 99]] = Some c' /\ sha1_sw_digest c' = Some (c'', Fips1.sha1 (codes "abc")).
Proof.
  split; [reflexivity|]. apply (sha1_correct (mkHashObject [] (mkHblock (replicate 64 7) 5 77)) [[97]; [98; 99]]); [reflexivity|].
  concrete_bytes.
Defined.
