(* ===== verification/SshSha256.v ===== *)
(** * SHA-256 (sshsh256.c)

    The software implementation computes the hash function of the Secure Hash Standard, FIPS 180-4. *)

From S2P Require Import Prelude Marshal SshHash.
Open Scope Z_scope.
Open Scope word_scope.

Definition sha256_initial_state : list Z :=
  [0x6a09e667; 0xbb67ae85; 0x3c6ef372; 0xa54ff53a; 0x510e527f; 0x9b05688c; 0x1f83d9ab; 0x5be0cd19].

Definition sha256_round_constants : list Z := Eval cbv [concat app] in concat [
   [0x428a2f98; 0x71374491; 0xb5c0fbcf; 0xe9b5dba5; 0x3956c25b; 0x59f111f1; 0x923f82a4; 0xab1c5ed5];
   [0xd807aa98; 0x12835b01; 0x243185be; 0x550c7dc3; 0x72be5d74; 0x80deb1fe; 0x9bdc06a7; 0xc19bf174];
   [0xe49b69c1; 0xefbe4786; 0x0fc19dc6; 0x240ca1cc; 0x2de92c6f; 0x4a7484aa; 0x5cb0a9dc; 0x76f988da];
   [0x983e5152; 0xa831c66d; 0xb00327c8; 0xbf597fc7; 0xc6e00bf3; 0xd5a79147; 0x06ca6351; 0x14292967];
   [0x27b70a85; 0x2e1b2138; 0x4d2c6dfc; 0x53380d13; 0x650a7354; 0x766a0abb; 0x81c2c92e; 0x92722c85];
   [0xa2bfe8a1; 0xa81a664b; 0xc24b8b70; 0xc76c51a3; 0xd192e819; 0xd6990624; 0xf40e3585; 0x106aa070];
   [0x19a4c116; 0x1e376c08; 0x2748774c; 0x34b0bcb5; 0x391c0cb3; 0x4ed8aa4a; 0x5b9cca4f; 0x682e6ff3];
   [0x748f82ee; 0x78a5636f; 0x84c87814; 0x8cc70208; 0x90befffa; 0xa4506ceb; 0xbef9a3f7; 0xc67178f2]].

Definition Sigma_0 (x : Z) : Z := ror x 2 .^ ror x 13 .^ ror x 22.
Definition Sigma_1 (x : Z) : Z := ror x 6 .^ ror x 11 .^ ror x 25.
Definition sigma_0 (x : Z) : Z := ror x 7 .^ ror x 18 .^ (x >> 3).
Definition sigma_1 (x : Z) : Z := ror x 17 .^ ror x 19 .^ (x >> 10).

(** What is stored in [*d] and [*h]. *)
Definition sha256_sw_round (round_index : nat) (schedule : list Z) (a b c d e f g h : Z) : Z * Z :=
  let t1 := u32 (h + Sigma_1 e + Ch e f g + nth round_index sha256_round_constants 0 + nth round_index schedule 0) in
  let t2 := u32 (Sigma_0 a + Maj a b c) in
  (u32 (d + t1), u32 (t1 + t2)).

(** [w[t] = sigma_1(w[t-2]) + w[t-7] + sigma_0(w[t-15]) + w[t-16]], for [n] values of [t]. *)
Fixpoint sha256_schedule (n : nat) (w : list Z) : list Z :=
  match n with
  | O => w
  | S n =>
      let w := sha256_schedule n w in
      let t := length w in
      w ++ [u32 (sigma_1 (nth (t - 2) w 0) + nth (t - 7) w 0 + sigma_0 (nth (t - 15) w 0) + nth (t - 16) w 0)]
  end.

Definition state8 : Type := Z * Z * Z * Z * Z * Z * Z * Z.

(** The body of the loop over the rounds. *)
Definition sha256_eight (w : list Z) (t : nat) (s : state8) : state8 :=
  let '(a, b, c, d, e, f, g, h) := s in
  let '(d, h) := sha256_sw_round (t + 0) w a b c d e f g h in
  let '(c, g) := sha256_sw_round (t + 1) w h a b c d e f g in
  let '(b, f) := sha256_sw_round (t + 2) w g h a b c d e f in
  let '(a, e) := sha256_sw_round (t + 3) w f g h a b c d e in
  let '(h, d) := sha256_sw_round (t + 4) w e f g h a b c d in
  let '(g, c) := sha256_sw_round (t + 5) w d e f g h a b c in
  let '(f, b) := sha256_sw_round (t + 6) w c d e f g h a b in
  let '(e, a) := sha256_sw_round (t + 7) w b c d e f g h a in
  (a, b, c, d, e, f, g, h).

Definition sha256_sw_block (core : list Z) (block : list Z) : list Z :=
  let w := map (fun t => GET_32BIT_MSB_FIRST (drop (4 * t) block)) (seq 0 16) in
  let w := sha256_schedule 48 w in
  let s := (nth 0 core 0, nth 1 core 0, nth 2 core 0, nth 3 core 0, nth 4 core 0, nth 5 core 0, nth 6 core 0, nth 7 core 0) in
  let '(a, b, c, d, e, f, g, h) := foldl (fun s t => sha256_eight w t s) s [0; 8; 16; 24; 32; 40; 48; 56]%nat in
  [u32 (nth 0 core 0 + a); u32 (nth 1 core 0 + b); u32 (nth 2 core 0 + c); u32 (nth 3 core 0 + d);
   u32 (nth 4 core 0 + e); u32 (nth 5 core 0 + f); u32 (nth 6 core 0 + g); u32 (nth 7 core 0 + h)].

(** ** The object *)

Definition sha256_block_setup (b : hblock) : hblock := block_setup b.
Definition sha256_block_write (b : hblock) (data : list Z) : hblock * list Z * bool := block_write 64 b data.
Definition sha256_sw_new : hash_object := mkHashObject (replicate 8 0) (mkHblock (replicate 64 0) 0 0).
Definition sha256_sw_reset : hash_object -> hash_object := object_reset sha256_initial_state.
Definition sha256_sw_write : hash_object -> list Z -> option hash_object := object_write sha256_sw_block.
Definition sha256_block_pad : hash_object -> option hash_object := sha_block_pad sha256_sw_block.
Definition sha256_sw_digest (s : hash_object) : option (hash_object * list Z) :=
  s ← sha256_block_pad s;
  Some (s, concat (map (fun i => PUT_32BIT_MSB_FIRST (nth i (ho_core s) 0)) (seq 0 8))).

Definition ssh_sha256_sw : ssh_hashalg := {|
  ha_ctx := hash_object; ha_new := sha256_sw_new; ha_reset := sha256_sw_reset; ha_write := sha256_sw_write; ha_digest := sha256_sw_digest;
  ha_hlen := 32; ha_blocklen := 64
|}.

(** ** Reference: FIPS 180-4 *)

Module Fips256.
Definition SHR (n x : Z) : Z := x >> n.
Definition ROTR (n x : Z) : Z := (x >> n) .| u32 (x << (32 - n)).
Definition Ch (x y z : Z) : Z := (x .& y) .^ Z.ldiff z x.
Definition Maj (x y z : Z) : Z := (x .& y) .^ (x .& z) .^ (y .& z).
Definition Sum0 (x : Z) : Z := ROTR 2 x .^ ROTR 13 x .^ ROTR 22 x.
Definition Sum1 (x : Z) : Z := ROTR 6 x .^ ROTR 11 x .^ ROTR 25 x.
Definition sig0 (x : Z) : Z := ROTR 7 x .^ ROTR 18 x .^ SHR 3 x.
Definition sig1 (x : Z) : Z := ROTR 17 x .^ ROTR 19 x .^ SHR 10 x.
(** The constants are those of the code (see [sha256_constants_are_roots]). *)
Definition K (t : nat) : Z := nth t sha256_round_constants 0.

(** The next word of the schedule, from the last sixteen. *)
Definition next (w : list Z) : Z := (sig1 (nth 14 w 0) + nth 9 w 0 + sig0 (nth 1 w 0) + nth 0 w 0) mod 2 ^ 32.

Definition step (s : state8) (t : nat) (W : Z) : state8 :=
  let '(a, b, c, d, e, f, g, h) := s in
  let T1 := (h + Sum1 e + Ch e f g + K t + W) mod 2 ^ 32 in
  let T2 := (Sum0 a + Maj a b c) mod 2 ^ 32 in
  ((T1 + T2) mod 2 ^ 32, a, b, c, (d + T1) mod 2 ^ 32, e, f, g).

Definition words (block : list Z) : list Z := map (fun i => be_val (take 4 (drop (4 * i) block))) (seq 0 16).

Definition compress (H : state8) (block : list Z) : state8 :=
  let '(a, b, c, d, e, f, g, h) := H in
  let '(a', b', c', d', e', f', g', h') := window_rounds next step 64 0 (words block) H in
  ((a + a') mod 2 ^ 32, (b + b') mod 2 ^ 32, (c + c') mod 2 ^ 32, (d + d') mod 2 ^ 32,
   (e + e') mod 2 ^ 32, (f + f') mod 2 ^ 32, (g + g') mod 2 ^ 32, (h + h') mod 2 ^ 32).

Definition H0 : state8 := (0x6a09e667, 0xbb67ae85, 0x3c6ef372, 0xa54ff53a, 0x510e527f, 0x9b05688c, 0x1f83d9ab, 0x5be0cd19).

Definition as_list (s : state8) : list Z := let '(a, b, c, d, e, f, g, h) := s in [a; b; c; d; e; f; g; h].

Definition sha256 (m : list Z) : list Z :=
  concat (map (be_split 4) (as_list (foldl compress H0 (blocks_of 64 (m ++ sha_padding (len m)))))).
End Fips256.

(** The test message of the standard. *)
Example sha256_of_abc : be_val (Fips256.sha256 (codes "abc")) = 0xba7816bf8f01cfea414140de5dae2223b00361a396177a9cb410ff61f20015ad.
Proof. vm_compute. reflexivity. Qed.
Example sha256_code_of_nothing : be_val <$> hash_simple ssh_sha256_sw [] = Some 0xe3b0c44298fc1c149afbf4c8996fb92427ae41e4649b934ca495991b7852b855.
Proof. vm_compute. reflexivity. Qed.

(** Where the constants come from: the fractional parts of the square and cube roots of the first primes. *)
Definition primes64 : list Z :=
  [2; 3; 5; 7; 11; 13; 17; 19; 23; 29; 31; 37; 41; 43; 47; 53; 59; 61; 67; 71; 73; 79; 83; 89; 97; 101; 103; 107; 109; 113; 127; 131;
   137; 139; 149; 151; 157; 163; 167; 173; 179; 181; 191; 193; 197; 199; 211; 223; 227; 229; 233; 239; 241; 251; 257; 263; 269; 271; 277; 281;
   283; 293; 307; 311].
Definition root_fraction (k n x : Z) : Prop :=
  exists q, 0 <= x < 2 ^ 32 /\ (q * 2 ^ 32 + x) ^ k <= n * 2 ^ (32 * k) < (q * 2 ^ 32 + x + 1) ^ k.

Lemma sha256_constants_are_roots :
  Forall2 (root_fraction 2) (take 8 primes64) sha256_initial_state /\ Forall2 (root_fraction 3) primes64 sha256_round_constants.
Proof.
  split; unfold primes64, sha256_initial_state, sha256_round_constants; cbn [take]; repeat (apply Forall2_cons_2; [|]); try apply Forall2_nil_2.
  all: first
    [ exists 1; vm_compute; done | exists 2; vm_compute; done | exists 3; vm_compute; done | exists 4; vm_compute; done
    | exists 5; vm_compute; done | exists 6; vm_compute; done ].
Qed.

(** ** The code computes it *)

Lemma ror_ROTR x n : 0 < n < 32 -> ror x n = Fips256.ROTR n x.
Proof.
  intros Hn. unfold ror, Fips256.ROTR. rewrite Z.lor_comm, !(Z.land_comm 31). change 31 with (2 ^ 5 - 1). rewrite !land_mask by lia.
  assert (n mod 2 ^ 5 = n) as -> by (apply Z.mod_small; lia).
  assert (u32 (- n) mod 2 ^ 5 = 32 - n) as -> by (unfold wrap; rewrite Z.mod_mod_divide by (by exists (2 ^ 27)); zdivmod). done.
Qed.

Lemma Sigma_Sum x : Sigma_0 x = Fips256.Sum0 x /\ Sigma_1 x = Fips256.Sum1 x /\ sigma_0 x = Fips256.sig0 x /\ sigma_1 x = Fips256.sig1 x.
Proof. unfold Sigma_0, Sigma_1, sigma_0, sigma_1. by rewrite !ror_ROTR by lia. Qed.

Lemma sha256_schedule_extend n w : (16 <= length w)%nat -> sha256_schedule n w = extend Fips256.next n w.
Proof.
  intros Hw. induction n as [|n IH]; [done|]. cbn [sha256_schedule extend]. rewrite IH. do 2 f_equal.
  assert (16 <= length (extend Fips256.next n w))%nat by (rewrite length_extend; lia).
  rewrite !nth_last16 by lia. rewrite (proj2 (proj2 (proj2 (Sigma_Sum _)))), (proj1 (proj2 (proj2 (Sigma_Sum _)))). reflexivity.
Qed.

Notation sha256_ref_step w := (fun s i => Fips256.step s i (nth i w 0)).

Lemma sha256_round_step t w a b c d e f g h :
  exists d' h', sha256_sw_round t w a b c d e f g h = (d', h') /\ (h', a, b, c, d', e, f, g) = Fips256.step (a, b, c, d, e, f, g, h) t (nth t w 0).
Proof.
  unfold sha256_sw_round. eexists _, _. split; [reflexivity|]. unfold Fips256.step.
  rewrite Ch_xor, Maj_xor, (proj1 (Sigma_Sum _)), (proj1 (proj2 (Sigma_Sum _))). reflexivity.
Qed.

(** Eight rounds bring the variables back to their places. *)
Lemma eight_steps w t s : sha256_eight w t s = foldl (sha256_ref_step w) s (seq t 8).
Proof.
  destruct s as [[[[[[[a b] c] d] e] f] g] h]. unfold sha256_eight. rewrite Nat.add_0_r.
  replace (t + 1)%nat with (S t) by lia. replace (t + 2)%nat with (S (S t)) by lia. replace (t + 3)%nat with (S (S (S t))) by lia.
  replace (t + 4)%nat with (S (S (S (S t)))) by lia. replace (t + 5)%nat with (S (S (S (S (S t))))) by lia.
  replace (t + 6)%nat with (S (S (S (S (S (S t)))))) by lia. replace (t + 7)%nat with (S (S (S (S (S (S (S t))))))) by lia.
  cbn [seq foldl].
  repeat match goal with
  | |- context [sha256_sw_round ?t ?w ?a ?b ?c ?d ?e ?f ?g ?h] =>
      let E := fresh in destruct (sha256_round_step t w a b c d e f g h) as (?&?&->&E); rewrite <- E; clear E
  end.
  reflexivity.
Qed.

Lemma sha256_block_compress s block : bytes_ok block -> len block = 64 ->
  sha256_sw_block (Fips256.as_list s) block = Fips256.as_list (Fips256.compress s block).
Proof.
  intros Hb Hl. unfold sha256_sw_block, Fips256.compress. rewrite block_words by done. fold (Fips256.words block).
  assert (length (Fips256.words block) = 16%nat) as Hw by (unfold Fips256.words; by rewrite length_map, length_seq).
  rewrite sha256_schedule_extend, (window_rounds_extend _ _ 64 64) by lia.
  rewrite (foldl_groups (fun s t => sha256_eight _ t s) (sha256_ref_step (extend Fips256.next 48 (Fips256.words block))) 8) by (intros; apply eight_steps).
  destruct s as [[[[[[[a b] c] d] e] f] g] h]. cbn [Fips256.as_list nth].
  change (concat (map (fun t => seq t 8) [0; 8; 16; 24; 32; 40; 48; 56]%nat)) with (seq 0 64).
  assert (forall s, foldl (sha256_ref_step (extend Fips256.next 48 (Fips256.words block))) s (seq 0 64)
    = foldl (fun s i => Fips256.step s i (nth (i - 0) (extend Fips256.next 64 (Fips256.words block)) 0)) s (seq 0 64)) as ->.
  { intros s. apply (foldl_ext_in (fun i => i < 64)%nat (fun _ => True)); [|apply Forall_forall; intros i Hi%list_elem_of_In%in_seq; lia|done].
    intros s' i _ Hi. split; [|done]. rewrite Nat.sub_0_r. by rewrite (extend_more Fips256.next i 48 64) by lia. }
  destruct (foldl _ _ _) as [[[[[[[a' b'] c'] d'] e'] f'] g'] h']. reflexivity.
Qed.

Lemma sha256_blocks_compress s bs : Forall (fun b => bytes_ok b /\ len b = 64) bs ->
  foldl sha256_sw_block (Fips256.as_list s) bs = Fips256.as_list (foldl Fips256.compress s bs).
Proof. intros Hbs. revert s. induction Hbs as [|b bs [Hb Hl] _ IH]; intros s; [done|]. cbn [foldl]. by rewrite sha256_block_compress, IH. Qed.

Notation sha256_fed := (fed sha256_sw_block sha256_initial_state).

Lemma sha256_digest_spec s d : sha256_fed s d -> exists s', sha256_sw_digest s = Some (s', Fips256.sha256 d) /\ has_block s'.
Proof.
  intros Hs. unfold sha256_sw_digest, sha256_block_pad. destruct (sha_block_pad_spec _ _ s d Hs) as (s'&->&Hb&Hc). cbn [mbind option_bind]. exists s'.
  split; [|done]. rewrite Hc. change sha256_initial_state with (Fips256.as_list Fips256.H0).
  rewrite sha256_blocks_compress by (apply blocks_of_ok; [done|]; apply Forall_app; split; [apply Hs|apply sha_padding_ok]).
  unfold Fips256.sha256. destruct (foldl Fips256.compress _ _) as [[[[[[[a b] c] e] f] g] h] i].
  cbn [Fips256.as_list seq map nth concat]. by rewrite !PUT_32BIT_split.
Qed.

#[export] Program Instance sha256_laws : HashLaws ssh_sha256_sw := {| hl_hash := Fips256.sha256; hl_fed := sha256_fed; hl_memory := has_block |}.
Next Obligation. done. Qed.
Next Obligation. apply fed_reset. Qed.
Next Obligation. apply fed_write. Qed.
Next Obligation. apply sha256_digest_spec. Qed.
Next Obligation. apply fed_block. Qed.
Next Obligation.
  intros d. unfold Fips256.sha256. destruct (foldl Fips256.compress _ _) as [[[[[[[a b] c] e] f] g] h] i].
  split; [apply be_words_ok|]. by rewrite (proj2 (be_words_ok _)).
Qed.
Next Obligation. done. Qed.

(** C8. SHA-256 as FIPS 180-4 defines it: whatever a context held before, and however the message is divided into writes, the digest is the one
    of the standard, with its schedule over a sliding window and its own choice, majority and rotation functions, applied to the padded message cut into
    blocks; no write fails, and the assertion that the padding ends on a block boundary holds. *)
Theorem sha256_correct (c : hash_object) chunks : has_block c -> Forall bytes_ok chunks ->
  exists c' c'', put_chunks ssh_sha256_sw (sha256_sw_reset c) chunks = Some c' /\ sha256_sw_digest c' = Some (c'', Fips256.sha256 (concat chunks)).
Proof. exact (hash_of_chunks ssh_sha256_sw c chunks). Qed.

Lemma sha256_correct_witness :
  has_block (mkHashObject [] (mkHblock (replicate 64 7) 5 77)) /\
  exists c' c'', put_chunks ssh_sha256_sw (sha256_sw_reset (mkHashObject [] (mkHblock (replicate 64 7) 5 77))) [[97]; [98; 99]] = Some c' /\ sha256_sw_digest c' = Some (c'', Fips256.sha256 (codes "abc")).
Proof.
  split; [reflexivity|]. apply (sha256_correct (mkHashObject [] (mkHblock (replicate 64 7) 5 77)) [[97]; [98; 99]]); [reflexivity|].
  concrete_bytes.
Defined.
