(* ===== verification/SshHmac.v ===== *)
(** * HMAC (sshhmac.c)

    The MAC that wraps any hash function with a block length; it satisfies [MacLaws] for every hash
    that satisfies [HashLaws], and is the HMAC of RFC 2104. *)

From S2P Require Import Prelude Marshal SshCrypto SshHash SshMd5 SshSha1 SshSha256.
Open Scope Z_scope.
Open Scope word_scope.

Definition PAD_OUTER : Z := 0x5C.
Definition PAD_INNER : Z := 0x36.

(** [put_byte] for each of some bytes. *)
Fixpoint put_each {S : Type} `{BinarySink S} (h : S) (l : list Z) : option S :=
  match l with [] => Some h | x :: l => h ← put_byte h x; put_each h l end.

Section Hmac.
(** [hashalg]; the fields [len] and [keylen] of the vtable. *)
Context (hashalg : ssh_hashalg) (mlen keylen : Z).

Record hmac := mkHmac { h_outer : ha_ctx hashalg; h_inner : ha_ctx hashalg; h_live : ha_ctx hashalg }.

Definition hmac_new : option hmac :=
  assert! negb (ha_blocklen hashalg =? 0);
  Some (mkHmac (ssh_hash_new hashalg) (ssh_hash_new hashalg) (ssh_hash_new hashalg)).

(** The two loops that write the key, padded to the length of a block, into one of the hashes. *)
Definition hmac_pad (h : ha_ctx hashalg) (pad : Z) (kp : list Z) : option (ha_ctx hashalg) :=
  let klen := len kp in
  h ← put_each (ssh_hash_reset h) (map (fun k => pad .^ k) kp);
  put_each h (replicate (Z.to_nat (ha_blocklen hashalg - klen)) pad).

Definition hmac_key (ctx : hmac) (key : list Z) : option hmac :=
  kp ← (if ha_blocklen hashalg <? len key then hash_simple hashalg key else Some key);
  outer ← hmac_pad (h_outer ctx) PAD_OUTER kp;
  inner ← hmac_pad (h_inner ctx) PAD_INNER kp;
  Some (mkHmac outer inner (h_live ctx)).

(** [ssh_hash_copyfrom(ctx->h_live, ctx->h_inner)] *)
Definition hmac_start (ctx : hmac) : hmac := mkHmac (h_outer ctx) (h_inner ctx) (h_inner ctx).

(** What is written to the MAC goes to [h_live]. *)
Definition hmac_write (ctx : hmac) (data : list Z) : option hmac :=
  live ← put_data (h_live ctx) data; Some (mkHmac (h_outer ctx) (h_inner ctx) live).

Definition hmac_genresult (ctx : hmac) : option (hmac * list Z) :=
  digest ← ssh_hash_digest_nondestructive (h_live ctx);
  htmp ← put_data (h_outer ctx) digest;
  digest ← ssh_hash_final htmp;
  assert! mlen <=? len digest;
  Some (ctx, take (Z.to_nat mlen) digest).

Definition hmac_alg : ssh2_macalg := {|
  ma_ctx := hmac;
  ma_new key := ctx ← hmac_new; hmac_key ctx key;
  ma_start := hmac_start; ma_write := hmac_write; ma_genresult := hmac_genresult;
  ma_len := mlen; ma_keylen := keylen
|}.

(** ** It is HMAC *)

Section Laws.
Context {Hl : HashLaws hashalg} (Hmlen : 0 < mlen <= 64) (Hhlen : mlen <= ha_hlen hashalg).

(** RFC 2104: the key as long as a block. *)
Definition hmac_k0 (key : list Z) : list Z :=
  let key := if ha_blocklen hashalg <? len key then hl_hash key else key in
  key ++ replicate (Z.to_nat (ha_blocklen hashalg - len key)) 0.
Definition rfc_hmac (key text : list Z) : list Z :=
  hl_hash (map (fun k => k .^ 0x5C) (hmac_k0 key) ++ hl_hash (map (fun k => k .^ 0x36) (hmac_k0 key) ++ text)).

Lemma put_each_fed (c : ha_ctx hashalg) d l : hl_fed c d -> bytes_ok l -> exists c', put_each c l = Some c' /\ hl_fed c' (d ++ l).
Proof using Type.
  revert c d. induction l as [|x l IH]; intros c d Hc Hb; cbn [put_each]; [exists c; by rewrite app_nil_r|].
  apply Forall_cons in Hb as [Hx Hb]. unfold put_byte. cbn [bs_write hash_sink]. rewrite wrap_id by done.
  destruct (hl_write c d [x] Hc) as (c1&->&Hc1); [by apply Forall_singleton|]. cbn [mbind option_bind]. destruct (IH c1 _ Hc1 Hb) as (c2&->&Hc2).
  exists c2. by rewrite <- app_assoc in Hc2.
Qed.

Lemma pad_ok pad l : byte_ok pad -> bytes_ok l -> bytes_ok (map (fun k => pad .^ k) l).
Proof using Type. intros Hp. induction 1; cbn [map]; constructor; [by apply lxor_ok|done]. Qed.

Lemma hmac_pad_fed c pad kp : hl_memory c -> byte_ok pad -> bytes_ok kp ->
  exists c', hmac_pad c pad kp = Some c' /\ hl_fed c' (map (fun k => k .^ pad) (kp ++ replicate (Z.to_nat (ha_blocklen hashalg - len kp)) 0)).
Proof using Type.
  intros Hc Hp Hb. unfold hmac_pad, ssh_hash_reset.
  destruct (put_each_fed _ [] (map (fun k => pad .^ k) kp) (hl_reset c Hc)) as (c1&->&Hc1); [by apply pad_ok|]. cbn [mbind option_bind].
  destruct (put_each_fed _ _ (replicate (Z.to_nat (ha_blocklen hashalg - len kp)) pad) Hc1) as (c2&->&Hc2); [by apply Forall_replicate|].
  exists c2. split; [done|]. rewrite map_app, (fmap_replicate (fun k => k .^ pad)), Z.lxor_0_l. rewrite (map_ext (fun k => k .^ pad) (fun k => pad .^ k)); [done|]. intros. apply Z.lxor_comm.
Qed.

Definition hmac_keyed (m : hmac) (key : list Z) : Prop :=
  hl_fed (h_outer m) (map (fun k => k .^ 0x5C) (hmac_k0 key)) /\ hl_fed (h_inner m) (map (fun k => k .^ 0x36) (hmac_k0 key)) /\ hl_memory (h_live m).
Definition hmac_fed (m : hmac) (key d : list Z) : Prop := hmac_keyed m key /\ hl_fed (h_live m) (map (fun k => k .^ 0x36) (hmac_k0 key) ++ d).

Lemma hmac_key_keyed m key : hl_memory (h_outer m) -> hl_memory (h_inner m) -> hl_memory (h_live m) -> bytes_ok key ->
  exists m', hmac_key m key = Some m' /\ hmac_keyed m' key.
Proof using Type.
  intros Ho Hi Hv Hb. unfold hmac_key.
  assert (exists kp, (if ha_blocklen hashalg <? len key then hash_simple hashalg key else Some key) = Some kp /\ bytes_ok kp
    /\ hmac_k0 key = kp ++ replicate (Z.to_nat (ha_blocklen hashalg - len kp)) 0) as (kp&->&Hkp&E).
  { unfold hmac_k0. destruct (ha_blocklen hashalg <? len key); [|by exists key]. rewrite (hash_simple_spec hashalg) by done. exists (hl_hash key).
    split; [done|]. split; [apply hl_ok|done]. }
  cbn [mbind option_bind]. destruct (hmac_pad_fed (h_outer m) PAD_OUTER kp Ho) as (o&->&Hof); [done|done|]. cbn [mbind option_bind].
  destruct (hmac_pad_fed (h_inner m) PAD_INNER kp Hi) as (i&->&Hif); [done|done|]. cbn [mbind option_bind].
  eexists. split; [done|]. unfold hmac_keyed. by rewrite E.
Qed.

#[export] Program Instance hmac_laws : MacLaws hmac_alg :=
  {| ml_tag key d := take (Z.to_nat mlen) (rfc_hmac key d); ml_keyed := hmac_keyed; ml_fed := hmac_fed |}.
Next Obligation. exact Hmlen. Qed.
Next Obligation.
  intros key Hb _. cbn [ma_new hmac_alg]. unfold hmac_new. pose proof (hl_blocklen (alg := hashalg)). rewrite (proj2 (Z.eqb_neq _ _)) by lia.
  cbn [negb mbind option_bind]. pose proof (hl_fed_memory _ _ (new_fed hashalg)). by apply hmac_key_keyed.
Qed.
Next Obligation.
  intros m key (Ho&Hi&_). split; [|by rewrite app_nil_r]. split; [done|]. split; [done|]. by eapply hl_fed_memory.
Qed.
Next Obligation.
  intros m key d x [(Ho&Hi&Hm) Hf] Hx. cbn [ma_write hmac_alg]. unfold hmac_write, put_data. cbn [bs_write hash_sink].
  destruct (hl_write _ _ x Hf Hx) as (c&->&Hc). cbn [mbind option_bind]. eexists. split; [done|].
  split; [split; [done|split; [done|by eapply hl_fed_memory]]|]. cbn [h_live]. by rewrite <- app_assoc in Hc.
Qed.
Next Obligation.
  intros m key d [(Ho&Hi&Hm) Hf]. cbn [ma_genresult hmac_alg]. unfold hmac_genresult, ssh_hash_digest_nondestructive.
  rewrite (final_spec hashalg _ _ Hf). cbn [mbind option_bind]. unfold put_data. cbn [bs_write hash_sink].
  destruct (hl_write _ _ _ Ho (proj1 (hl_ok (map (fun k => k .^ 0x36) (hmac_k0 key) ++ d)))) as (c&->&Hc). cbn [mbind option_bind].
  rewrite (final_spec hashalg _ _ Hc). cbn [mbind option_bind]. fold (rfc_hmac key d).
  rewrite (proj2 (hl_ok _) : len (rfc_hmac key d) = ha_hlen hashalg), (proj2 (Z.leb_le _ _)) by done. by exists m.
Qed.
Next Obligation. by intros m key d [H _]. Qed.
Next Obligation.
  intros key d. cbn [ma_len hmac_alg]. split; [apply Forall_take, hl_ok|]. apply len_take. rewrite (proj2 (hl_ok _) : len (rfc_hmac key d) = ha_hlen hashalg). lia.
Qed.
End Laws.
End Hmac.

(** ** The MACs of SSH-2 *)

Definition ssh_hmac_sha256 : ssh2_macalg := hmac_alg ssh_sha256_sw 32 32.
Definition ssh_hmac_md5 : ssh2_macalg := hmac_alg ssh_md5 16 16.
Definition ssh_hmac_sha1 : ssh2_macalg := hmac_alg ssh_sha1_sw 20 20.
Definition ssh_hmac_sha1_96 : ssh2_macalg := hmac_alg ssh_sha1_sw 12 20.
Definition ssh_hmac_sha1_buggy : ssh2_macalg := hmac_alg ssh_sha1_sw 20 16.
Definition ssh_hmac_sha1_96_buggy : ssh2_macalg := hmac_alg ssh_sha1_sw 12 16.

#[export] Instance hmac_sha256_laws : MacLaws ssh_hmac_sha256 := hmac_laws ssh_sha256_sw 32 32 ltac:(lia) ltac:(done).
#[export] Instance hmac_md5_laws : MacLaws ssh_hmac_md5 := hmac_laws ssh_md5 16 16 ltac:(lia) ltac:(done).
#[export] Instance hmac_sha1_laws : MacLaws ssh_hmac_sha1 := hmac_laws ssh_sha1_sw 20 20 ltac:(lia) ltac:(done).
#[export] Instance hmac_sha1_96_laws : MacLaws ssh_hmac_sha1_96 := hmac_laws ssh_sha1_sw 12 20 ltac:(lia) ltac:(done).

(** sshauxcrypt.c *)
Definition mac_simple (alg : ssh2_macalg) (key data : list Z) : option (list Z) :=
  mac ← ssh2_mac_new alg key;
  mac ← put_datapl (ssh2_mac_start mac) data;
  '(_, out) ← ssh2_mac_genresult mac;
  Some out.

(** The first test case of RFC 4231. *)
Example hmac_sha256_rfc4231 :
  be_val <$> mac_simple ssh_hmac_sha256 (replicate 20 0x0b) (codes "Hi There") = Some 0xb0344c61d8db38535ca8afceaf0bf12b881dc200c9833da726e9376c2e32cff7.
Proof. vm_compute. reflexivity. Qed.

(** C18. HMAC as RFC 2104 defines it, for every hash function that keeps its promises: a key of any length, the message in any number of pieces, and
    intermediate results taken after any of them, which do not disturb what follows; the results are those of the
    RFC for the message so far, truncated to the length of the MAC. *)
Theorem hmac_correct hashalg mlen keylen (Hl : HashLaws hashalg) key chunks :
  0 < mlen <= ha_hlen hashalg -> mlen <= 64 -> bytes_ok key -> Forall bytes_ok chunks ->
  exists m, ma_new (hmac_alg hashalg mlen keylen) key = Some m /\
  exists m' tags, run_ops (fun m x => m ← hmac_write hashalg m x; hmac_genresult hashalg mlen m) (hmac_start hashalg m) chunks = Some (m', tags) /\
    tags = map (fun n => take (Z.to_nat mlen) (rfc_hmac hashalg key (concat (take n chunks)))) (seq 1 (length chunks)).
Proof.
  intros Hm H64 Hk Hx.
  set (L := hmac_laws hashalg mlen (len key) (conj (proj1 Hm) H64) (proj2 Hm)).
  destruct (ml_new (MacLaws := L) key Hk eq_refl) as (m&E&Hkd). exists m. split; [exact E|].
  apply (ml_start (MacLaws := L)) in Hkd. change (ma_start _ m) with (hmac_start hashalg m) in Hkd. revert Hkd. generalize (hmac_start hashalg m). clear m E. intros m.
  assert (forall d, @ml_fed _ L m key d -> exists m' tags, run_ops (fun m x => m ← hmac_write hashalg m x; hmac_genresult hashalg mlen m) m chunks = Some (m', tags) /\
    tags = map (fun n => take (Z.to_nat mlen) (rfc_hmac hashalg key (d ++ concat (take n chunks)))) (seq 1 (length chunks))) as H; [|exact (H [])].
  revert m. induction Hx as [|x chunks Hx _ IH]; intros m d Hf; cbn [run_ops length seq map]; [by exists m, []|].
  assert (exists m1 : hmac hashalg, hmac_write hashalg m x = Some m1 /\ @ml_fed _ L m1 key (d ++ x)) as (m1&->&Hf1) by exact (ml_write (MacLaws := L) m key d x Hf Hx).
  cbn [mbind option_bind].
  assert (exists m2 : hmac hashalg, hmac_genresult hashalg mlen m1 = Some (m2, take (Z.to_nat mlen) (rfc_hmac hashalg key (d ++ x))) /\ @ml_fed _ L m2 key (d ++ x))
    as (m2&->&Hf2) by exact (ml_result (MacLaws := L) m1 key _ Hf1).
  cbn [mbind option_bind]. destruct (IH m2 _ Hf2) as (m3&tags&->&->). cbn [mbind option_bind]. eexists _, _. split; [done|].
  cbn [take concat]. rewrite app_nil_r. f_equal. rewrite <- (seq_shift (length chunks) 1), map_map. apply map_ext. intros n. cbn [take concat]. by rewrite app_assoc.
Qed.

Lemma hmac_correct_witness :
  exists m, ma_new (hmac_alg ssh_sha256_sw 32 32) (replicate 20 0x0b) = Some m /\
  exists m' tags, run_ops (fun m x => m ← hmac_write ssh_sha256_sw m x; hmac_genresult ssh_sha256_sw 32 m) (hmac_start ssh_sha256_sw m) [codes "Hi "; codes "There"] = Some (m', tags) /\
    tags = [take 32 (rfc_hmac ssh_sha256_sw (replicate 20 0x0b) (codes "Hi ")); take 32 (rfc_hmac ssh_sha256_sw (replicate 20 0x0b) (codes "Hi There"))].
Proof.
  apply (hmac_correct ssh_sha256_sw 32 32 sha256_laws (replicate 20 0x0b) [codes "Hi "; codes "There"]); [by split|done|by apply Forall_replicate|].
  concrete_bytes.
Defined.
