(* ===== verification/SshArcfour.v ===== *)
(** * Arcfour (ssharcf.c)

    The stream cipher, as an instance of what the packet protocol relies on. *)

From S2P Require Import Prelude SshCrypto.
Open Scope Z_scope.
Open Scope word_scope.

Record ArcfourContext := mkArcfour { arc_i : Z; arc_j : Z; arc_s : list Z }.

Definition s_at (s : list Z) (i : Z) : Z := nth (Z.to_nat i) s 0.
(** [tmp = s[i]; s[i] = s[j]; s[j] = tmp;] *)
Definition swap (s : list Z) (i j : Z) : list Z :=
  let tmp := s_at s i in
  <[Z.to_nat j := tmp]> (<[Z.to_nat i := s_at s j]> s).

(** The loop, over the bytes of the block, with the new bytes. *)
Fixpoint arcfour_loop (i j : Z) (s : list Z) (blk : list Z) : ArcfourContext * list Z :=
  match blk with
  | [] => (mkArcfour i j s, [])
  | b :: blk =>
      let i := (i + 1) .& 0xff in
      let j := (j + s_at s i) .& 0xff in
      let s := swap s i j in
      let b := u8 (b .^ s_at s ((s_at s i + s_at s j) .& 0xff)) in
      let '(ctx, out) := arcfour_loop i j s blk in
      (ctx, b :: out)
  end.
Definition arcfour_block (ctx : ArcfourContext) (blk : list Z) : ArcfourContext * list Z := arcfour_loop (arc_i ctx) (arc_j ctx) (arc_s ctx) blk.

(** The second loop of [arcfour_setkey], for [i] in the list. *)
Fixpoint setkey_loop (idx : list nat) (j : Z) (s k : list Z) : list Z :=
  match idx with
  | [] => s
  | i :: idx =>
      let j := (j + s_at s (Z.of_nat i) + s_at k (Z.of_nat i)) .& 0xff in
      setkey_loop idx j (swap s (Z.of_nat i) j) k
  end.

(** [key] must have the [keybytes] bytes that are read. *)
Definition arcfour_setkey (key : list Z) (keybytes : Z) : option ArcfourContext :=
  assert! keybytes <=? 256;
  k ← mapM (fun i => assert! negb (keybytes =? 0); key !! Z.to_nat (Z.of_nat i mod keybytes)) (seq 0 256);
  let s := Z.of_nat <$> seq 0 256 in
  Some (mkArcfour 0 0 (setkey_loop (seq 0 256) 0 s k)).

Definition arcfour_stir (ctx : ArcfourContext) : ArcfourContext := (arcfour_block ctx (replicate 1536 0)).1.

Definition arcfour_ssh2_setkey (padded_keybytes : Z) (key : list Z) : option ArcfourContext :=
  ctx ← arcfour_setkey key padded_keybytes;
  Some (arcfour_stir ctx).

(** There is no initialisation vector. *)
Definition arcfour_ssh2 (padded_keybytes : Z) : ssh_cipheralg := {|
  ca_ctx := ArcfourContext;
  ca_new key _ := arcfour_ssh2_setkey padded_keybytes key;
  ca_encrypt := arcfour_block; ca_decrypt := arcfour_block;
  ca_encrypt_length c x _ := (c, x); ca_decrypt_length c x _ := (c, x);
  ca_blksize := 1; ca_padded_keybytes := padded_keybytes; ca_is_cbc := false; ca_separate_length := false
|}.
Definition ssh_arcfour128_ssh2 : ssh_cipheralg := arcfour_ssh2 16.
Definition ssh_arcfour256_ssh2 : ssh_cipheralg := arcfour_ssh2 32.

(** The keystream of RFC 6229 for the 128-bit key 1, 2, ..., 16 at offset 1536, where arcfour128 begins. *)
Example arcfour128_rfc6229 :
  (fun c => foldl (fun a b => a * 256 + b) 0 (arcfour_block c (replicate 16 0)).2) <$> ca_new ssh_arcfour128_ssh2 (Z.of_nat <$> seq 1 16) []
  = Some 0xffa0b514647ec04f6306b892ae661181.
Proof. vm_compute. reflexivity. Qed.

(** ** It is a cipher *)

Lemma xor_twice b k : byte_ok b -> u8 (u8 (b .^ k) .^ k) = b.
Proof.
  intros Hb. apply Z.bits_inj'. intros i Hi. unfold wrap. destruct (Z.lt_ge_cases i 8).
  - rewrite !Z.mod_pow2_bits_low, Z.lxor_spec, Z.mod_pow2_bits_low, Z.lxor_spec by lia. destruct (Z.testbit b i), (Z.testbit k i); done.
  - rewrite Z.mod_pow2_bits_high by lia. symmetry. by apply (testbit_high 8).
Qed.

Lemma loop_involutive i j s x : bytes_ok x ->
  exists ctx y, arcfour_loop i j s x = (ctx, y) /\ arcfour_loop i j s y = (ctx, x) /\ len y = len x /\ bytes_ok y.
Proof.
  intros Hx. revert i j s. induction Hx as [|b x Hb _ IH]; intros i j s; [by eexists _, []|]. cbn [arcfour_loop].
  set (i' := (i + 1) .& 0xff). set (j' := (j + s_at s i') .& 0xff). set (s' := swap s i' j').
  destruct (IH i' j' s') as (ctx&y&E1&E2&Hl&Hy). rewrite E1. eexists ctx, (_ :: y). split; [done|]. cbn [arcfour_loop].
  fold i'. fold j'. fold s'. rewrite E2, xor_twice by done. split_and!; [done|by rewrite !len_cons, Hl|].
  constructor; [apply wrap_ok; lia|done].
Qed.

Lemma loop_app i j s x y :
  arcfour_loop i j s (x ++ y) = let '(c, x') := arcfour_loop i j s x in let '(c, y') := arcfour_block c y in (c, x' ++ y').
Proof.
  revert i j s. induction x as [|b x IH]; intros i j s; cbn [arcfour_loop app].
  - unfold arcfour_block. cbn [arc_i arc_j arc_s]. by destruct (arcfour_loop i j s y).
  - rewrite IH. destruct (arcfour_loop _ _ _ x) as [c x']. by destruct (arcfour_block c y).
Qed.

Lemma loop_shape i j s x : len (arcfour_loop i j s x).2 = len x /\ bytes_ok (arcfour_loop i j s x).2.
Proof.
  revert i j s. induction x as [|b x IH]; intros i j s; cbn [arcfour_loop]; [done|].
  set (i' := (i + 1) .& 0xff). set (j' := (j + s_at s i') .& 0xff). set (s' := swap s i' j'). specialize (IH i' j' s').
  destruct (arcfour_loop i' j' s' x) as [c y]. cbn [snd] in *. destruct IH as [H1 H2]. rewrite !len_cons, H1. split; [done|].
  constructor; [apply wrap_ok; lia|done].
Qed.

Lemma setkey_succeeds n key : 0 < n <= 256 -> n <= len key -> exists c, arcfour_setkey key n = Some c.
Proof.
  intros Hn Hk. unfold arcfour_setkey. rewrite (proj2 (Z.leb_le _ _)), (proj2 (Z.eqb_neq _ _)) by lia. cbn [negb].
  assert (is_Some (mapM (fun i => key !! Z.to_nat (Z.of_nat i mod n)) (seq 0 256))) as [k ->]; [|by eexists].
  apply mapM_is_Some_2, Forall_forall. intros i _. apply lookup_lt_is_Some. pose proof (Z.mod_pos_bound (Z.of_nat i) n). unfold len in Hk. lia.
Qed.

(** The two ends of a connection with Arcfour are in step when their contexts are the same. *)
Section Instances.
Context (n : Z) (Hn : 0 < n <= 256).

Program Definition arcfour_laws : CipherLaws (arcfour_ssh2 n) := {| cl_sync (e d : ca_ctx (arcfour_ssh2 n)) := e = d; cl_good _ := True |}.
Next Obligation. done. Qed.
Next Obligation.
  intros key iv _ _ Hk _. cbn [ca_new ca_padded_keybytes arcfour_ssh2] in *. unfold arcfour_ssh2_setkey.
  destruct (setkey_succeeds n key Hn Hk) as [c ->]. by eexists.
Qed.
Next Obligation. split; [done|]. by exists 8. Qed.
Next Obligation.
  intros e d x -> _ Hx. destruct (loop_involutive (arc_i d) (arc_j d) (arc_s d) x Hx) as (c&y&E1&E2&Hl&Hy). by exists c, c, y.
Qed.
Next Obligation. intros d x y _ _ _ _ _. exact (loop_app (arc_i d) (arc_j d) (arc_s d) x y). Qed.
Next Obligation. intros [i j s]. done. Qed.
Next Obligation. done. Qed.
Next Obligation. intros d x _. apply loop_shape. Qed.
Next Obligation. intros d x _. apply loop_shape. Qed.
Next Obligation. done. Qed.
Next Obligation. done. Qed.
End Instances.

#[export] Instance arcfour128_laws : CipherLaws ssh_arcfour128_ssh2 := arcfour_laws 16 ltac:(lia).
#[export] Instance arcfour256_laws : CipherLaws ssh_arcfour256_ssh2 := arcfour_laws 32 ltac:(lia).

(** *** The state stays a permutation *)

Lemma swap_permutation s i j : 0 <= i < len s -> 0 <= j < len s -> swap s i j ≡ₚ s.
Proof.
  intros Hi Hj. unfold swap, s_at, len in *.
  destruct (lookup_lt_is_Some_2 s (Z.to_nat i)) as [x Ex]; [lia|]. destruct (lookup_lt_is_Some_2 s (Z.to_nat j)) as [y Ey]; [lia|].
  rewrite (nth_lookup_Some _ _ _ x), (nth_lookup_Some _ _ _ y) by done. apply Permutation_inj. split; [by rewrite !length_insert|].
  exists (fun k => if decide (k = Z.to_nat i) then Z.to_nat j else if decide (k = Z.to_nat j) then Z.to_nat i else k). split.
  - intros k l. repeat case_decide; lia.
  - intros k. destruct (decide (k = Z.to_nat j)) as [->|Nj].
    + rewrite list_lookup_insert_eq by (rewrite length_insert; lia). case_decide as E; [rewrite <- E in Ex; congruence|done].
    + rewrite list_lookup_insert_ne by done. destruct (decide (k = Z.to_nat i)) as [->|Ni]; [by rewrite list_lookup_insert_eq by lia|].
      by rewrite list_lookup_insert_ne.
Qed.

(** All bytes, each of them once. *)
Definition all_bytes : list Z := Z.of_nat <$> seq 0 256.
Definition arcfour_state (c : ArcfourContext) : Prop := arc_s c ≡ₚ all_bytes /\ byte_ok (arc_i c) /\ byte_ok (arc_j c).

Lemma state_len s : s ≡ₚ all_bytes -> len s = 256.
Proof. intros H%Permutation_length. unfold len. rewrite H. unfold all_bytes. by rewrite length_fmap, length_seq. Qed.

Lemma byte_land x : byte_ok (x .& 0xff).
Proof. rewrite land_255. apply (wrap_range 8). lia. Qed.

Lemma swap_state s i j : s ≡ₚ all_bytes -> byte_ok i -> byte_ok j -> swap s i j ≡ₚ all_bytes.
Proof. intros H Hi Hj. rewrite swap_permutation by (rewrite (state_len s H); unfold word_ok in *; lia). done. Qed.

Lemma loop_state x c : arcfour_state c -> arcfour_state (arcfour_block c x).1.
Proof.
  unfold arcfour_block. destruct c as [i j s]. cbn [arc_i arc_j arc_s]. revert i j s. induction x as [|b x IH]; intros i j s (Hs&Hi&Hj); [done|].
  cbn [arcfour_loop]. cbn [arc_s arc_i arc_j] in *. pose proof (byte_land (i + 1)) as Hi'. set (i' := (i + 1) .& 0xff) in *.
  pose proof (byte_land (j + s_at s i')) as Hj'. set (j' := (j + s_at s i') .& 0xff) in *.
  specialize (IH i' j' (swap s i' j') (conj (swap_state _ _ _ Hs Hi' Hj') (conj Hi' Hj'))). by destruct (arcfour_loop i' j' (swap s i' j') x).
Qed.

Lemma setkey_loop_state idx j s k : s ≡ₚ all_bytes -> Forall (fun i => i < 256)%nat idx -> setkey_loop idx j s k ≡ₚ all_bytes.
Proof.
  intros Hs Hi. revert j s Hs. induction Hi as [|i idx Hi _ IH]; intros j s Hs; cbn [setkey_loop]; [done|].
  apply IH, swap_state; [done|unfold word_ok; lia|apply byte_land].
Qed.

(** Every context is in a good state: all indices are in range, and the table is a permutation of the bytes. *)
Lemma arcfour_new_state n key c : arcfour_ssh2_setkey n key = Some c -> arcfour_state c.
Proof.
  unfold arcfour_ssh2_setkey, arcfour_setkey. intros H. apply bind_Some in H as (c0&H&E). apply (inj Some) in E as <-. destruct (n <=? 256); [|done].
  apply bind_Some in H as (k&_&E). apply (inj Some) in E as <-. apply loop_state. split; [|done]. apply setkey_loop_state; [reflexivity|].
  apply Forall_forall. intros i Hi%list_elem_of_In%in_seq. lia.
Qed.

(** C39. Whatever the key and whatever was encrypted, the context of Arcfour is well formed: its two indices are bytes, so that every access to the table is in range, and the
    table holds every byte exactly once; and a block of bytes comes out as a block of bytes of the same length. *)
Theorem arcfour_well_formed n key chunks c c' outs :
  arcfour_ssh2_setkey n key = Some c -> run_ops (fun c x => Some (arcfour_block c x)) c chunks = Some (c', outs) ->
  arcfour_state c' /\ Forall bytes_ok outs /\ map len outs = map len chunks.
Proof.
  intros Hn. apply arcfour_new_state in Hn. revert c Hn outs. induction chunks as [|x chunks IH]; intros c Hc outs; cbn [run_ops]; [by intros [= <- <-]|].
  pose proof (loop_state x c Hc) as Hc1. destruct (loop_shape (arc_i c) (arc_j c) (arc_s c) x) as [Hl Hb]. unfold arcfour_block in *.
  destruct (arcfour_loop (arc_i c) (arc_j c) (arc_s c) x) as [c1 y]. cbn [mbind option_bind fst snd] in *.
  destruct (run_ops _ c1 chunks) as [[c2 ys]|] eqn:E; cbn [mbind option_bind]; [|done]. intros [= <- <-].
  destruct (IH c1 Hc1 ys E) as (H1&H2&H3). split; [done|]. split; [by constructor|]. cbn [map]. by rewrite Hl, H3.
Qed.

Lemma arcfour_well_formed_witness :
  exists c c' outs, arcfour_ssh2_setkey 16 (Z.of_nat <$> seq 1 16) = Some c /\ run_ops (fun c x => Some (arcfour_block c x)) c [[1; 2]; [3]] = Some (c', outs) /\
    arcfour_state c' /\ Forall bytes_ok outs /\ map len outs = map len [[1; 2]; [3]].
Proof.
  destruct (setkey_succeeds 16 (Z.of_nat <$> seq 1 16)) as [c0 E0]; [done|done|].
  assert (arcfour_ssh2_setkey 16 (Z.of_nat <$> seq 1 16) = Some (arcfour_stir c0)) as E by (unfold arcfour_ssh2_setkey; rewrite E0; reflexivity).
  destruct (run_ops (fun c x => Some (arcfour_block c x)) (arcfour_stir c0) [[1; 2]; [3]]) as [[c' outs]|] eqn:E2.
  - exists (arcfour_stir c0), c', outs. split; [exact E|]. split; [exact E2|]. apply (arcfour_well_formed 16 (Z.of_nat <$> seq 1 16) [[1; 2]; [3]] (arcfour_stir c0) c' outs); [exact E|exact E2].
  - exfalso. revert E2. cbn [run_ops]. destruct (arcfour_block (arcfour_stir c0) [1; 2]) as [c1 y1]. cbn [mbind option_bind].
    destruct (arcfour_block c1 [3]) as [c2 y2]. cbn [mbind option_bind]. discriminate.
Defined.
