(* ===== verification/Fips197.v ===== *)
(** * AES as FIPS 197 defines it

    The reference for sshaes.c.  Bytes stand for polynomials over the field of two elements, modulo
    [x^8 + x^4 + x^3 + x + 1]; a state is a list of sixteen bytes, column by column.  The lemmas say that the
    inverse cipher inverts the cipher, for any keys. *)

From Stdlib Require Import Ring.
From S2P Require Import Prelude.
Open Scope Z_scope.
Open Scope word_scope.

(** ** Bytes as field elements *)

Definition xtime (b : Z) : Z := (b << 1) .^ (if Z.testbit b 7 then 0x11b else 0).

(** The sum of the multiples [a x^i] for the bits of [b]. *)
Fixpoint gmul_bits (n : nat) (a b : Z) : Z :=
  match n with
  | O => 0
  | S n => (if Z.odd b then a else 0) .^ gmul_bits n (xtime a) (b >> 1)
  end.
Definition gmul (a b : Z) : Z := gmul_bits 8 a b.

(** [b ^ (2 ^ n - 2)]: the product of the squares [b ^ (2 ^ i)], [0 < i < n]. *)
Fixpoint gpow_loop (n : nat) (sq : Z) : Z :=
  match n with
  | O => 1
  | S n => let sq := gmul sq sq in gmul sq (gpow_loop n sq)
  end.
(** The multiplicative inverse, [b ^ 254]; of [0] it is [0]. *)
Definition ginv (b : Z) : Z := gpow_loop 7 b.

Definition rotl8 (b n : Z) : Z := u8 (b << n) .| b >> (8 - n).

(** The S-box: the inverse, followed by an affine map. *)
Definition sbox_linear (b : Z) : Z := b .^ rotl8 b 1 .^ rotl8 b 2 .^ rotl8 b 3 .^ rotl8 b 4.
Definition sub_byte (b : Z) : Z := sbox_linear (ginv b) .^ 0x63.
Definition inv_sbox_linear (b : Z) : Z := rotl8 b 1 .^ rotl8 b 3 .^ rotl8 b 6.
Definition inv_sub_byte (b : Z) : Z := ginv (inv_sbox_linear b .^ 0x05).

(** ** States *)

Definition at_ (s : list Z) (p : nat) : Z := nth p s 0.
Definition state_of (f : nat -> Z) : list Z := f <$> seq 0 16.

Definition row (p : nat) : nat := (p mod 4)%nat.
Definition col (p : nat) : nat := (p / 4)%nat.
Definition cell (r c : nat) : nat := (r mod 4 + 4 * (c mod 4))%nat.

Definition sub_bytes (s : list Z) : list Z := sub_byte <$> s.
Definition inv_sub_bytes (s : list Z) : list Z := inv_sub_byte <$> s.
Definition shift_rows (s : list Z) : list Z := state_of (fun p => at_ s (cell (row p) (col p + row p))).
Definition inv_shift_rows (s : list Z) : list Z := state_of (fun p => at_ s (cell (row p) (col p + (4 - row p)))).
Definition mix_columns (s : list Z) : list Z :=
  state_of (fun p => let a i := at_ s (cell (row p + i) (col p)) in gmul (a 0%nat) 2 .^ gmul (a 1%nat) 3 .^ a 2%nat .^ a 3%nat).
Definition inv_mix_columns (s : list Z) : list Z :=
  state_of (fun p => let a i := at_ s (cell (row p + i) (col p)) in gmul (a 0%nat) 14 .^ gmul (a 1%nat) 11 .^ gmul (a 2%nat) 13 .^ gmul (a 3%nat) 9).
Definition xor_bytes (s k : list Z) : list Z := zip_with Z.lxor s k.
Notation add_round_key := xor_bytes (only parsing).

(** ** Key expansion *)

Definition rot_word (w : list Z) : list Z := tail w ++ take 1 w.
Definition sub_word (w : list Z) : list Z := sub_byte <$> w.
Definition rcon (i : nat) : list Z := [Nat.iter (i - 1) xtime 1; 0; 0; 0].
Definition word_at (w : list (list Z)) (i : nat) : list Z := nth i w [].

Definition next_word (nk : nat) (w : list (list Z)) (i : nat) : list Z :=
  let temp := word_at w (i - 1) in
  let temp :=
    if (i mod nk =? 0)%nat then xor_bytes (sub_word (rot_word temp)) (rcon (i / nk))
    else if (6 <? nk)%nat && (i mod nk =? 4)%nat then sub_word temp
    else temp in
  xor_bytes (word_at w (i - nk)) temp.

(** The words [0 .. i - 1] of the schedule. *)
Fixpoint key_words (nk : nat) (key : list Z) (i : nat) : list (list Z) :=
  match i with
  | O => []
  | S i =>
      let w := key_words nk key i in
      w ++ [if (i <? nk)%nat then take 4 (drop (4 * i) key) else next_word nk w i]
  end.
Definition rounds_of (nk : nat) : nat := (nk + 6)%nat.
Definition key_expansion (nk : nat) (key : list Z) : list (list Z) := key_words nk key (4 * (rounds_of nk + 1)).

Definition round_key (w : list (list Z)) (r : nat) : list Z := concat (take 4 (drop (4 * r) w)).

(** ** The cipher and its inverse *)

Definition round (key : nat -> list Z) (s : list Z) (r : nat) : list Z := add_round_key (mix_columns (shift_rows (sub_bytes s))) (key r).
Definition cipher (nr : nat) (key : nat -> list Z) (s : list Z) : list Z :=
  let s := add_round_key s (key 0%nat) in
  let s := foldl (round key) s (seq 1 (nr - 1)) in
  add_round_key (shift_rows (sub_bytes s)) (key nr).

Definition inv_round (key : nat -> list Z) (s : list Z) (r : nat) : list Z :=
  inv_mix_columns (add_round_key (inv_sub_bytes (inv_shift_rows s)) (key r)).
Definition inv_cipher (nr : nat) (key : nat -> list Z) (s : list Z) : list Z :=
  let s := add_round_key s (key nr) in
  let s := foldl (inv_round key) s (rev (seq 1 (nr - 1))) in
  add_round_key (inv_sub_bytes (inv_shift_rows s)) (key 0%nat).

(** AES with a key of [nk] words. *)
Definition aes (nk : nat) (key x : list Z) : list Z := cipher (rounds_of nk) (round_key (key_expansion nk key)) x.
Definition inv_aes (nk : nat) (key x : list Z) : list Z := inv_cipher (rounds_of nk) (round_key (key_expansion nk key)) x.

(** The examples of FIPS 197, appendix C. *)
Definition plaintext_c : list Z := be_split 16 0x00112233445566778899aabbccddeeff.
Definition key_c (n : nat) : list Z := Z.of_nat <$> seq 0 n.
Example fips197_c1 : be_val (aes 4 (key_c 16) plaintext_c) = 0x69c4e0d86a7b0430d8cdb78070b4c55a.
Proof. vm_compute. reflexivity. Qed.
Example fips197_c2 : be_val (aes 6 (key_c 24) plaintext_c) = 0xdda97ca4864cdfe06eaf70a0ec0d7191.
Proof. vm_compute. reflexivity. Qed.
Example fips197_c3 : be_val (aes 8 (key_c 32) plaintext_c) = 0x8ea2b7ca516745bfeafc49904b496089.
Proof. vm_compute. reflexivity. Qed.

(** ** Sums of polynomials *)

(** An equation between sums over [.^] holds when it holds bit by bit; there, sums are those of the field of two elements. *)
Ltac xor_ring := apply Z.bits_inj'; intros ? _; rewrite ?Z.lxor_spec, ?Z.bits_0; ring.

Lemma xtime_xor a b : xtime (a .^ b) = xtime a .^ xtime b.
Proof.
  unfold xtime. rewrite Z.lxor_spec, Z.shiftl_lxor. destruct (Z.testbit a 7), (Z.testbit b 7); cbn [xorb]; xor_ring.
Qed.

Lemma xtime_0 : xtime 0 = 0.
Proof. done. Qed.

Lemma gmul_consts a :
  gmul a 2 = xtime a /\ gmul a 3 = a .^ xtime a /\ gmul a 9 = a .^ xtime (xtime (xtime a)) /\ gmul a 11 = a .^ xtime a .^ xtime (xtime (xtime a))
  /\ gmul a 13 = a .^ xtime (xtime a) .^ xtime (xtime (xtime a)) /\ gmul a 14 = xtime a .^ xtime (xtime a) .^ xtime (xtime (xtime a)).
Proof. unfold gmul. cbn. rewrite ?Z.lxor_0_l, ?Z.lxor_0_r, ?Z.lxor_assoc. done. Qed.

(** A statement about bytes, by their enumeration. *)
Lemma all_bytes (P : Z -> bool) : forallb P (Z.of_nat <$> seq 0 256) = true -> forall b, byte_ok b -> P b = true.
Proof.
  intros H b [H1 H2]. rewrite forallb_forall in H. apply H, list_elem_of_In, list_elem_of_fmap. exists (Z.to_nat b).
  rewrite Z2Nat.id by lia. split; [done|]. apply elem_of_seq. change (2 ^ 8) with 256 in H2. lia.
Qed.

Lemma byte_ok_xtime b : byte_ok b -> byte_ok (xtime b).
Proof.
  intros H. assert ((0 <=? xtime b) && (xtime b <? 256) = true) as E by (revert b H; apply all_bytes; vm_compute; reflexivity).
  bsimpl. unfold word_ok. lia.
Qed.

Lemma sub_byte_checks b : byte_ok b ->
  (inv_sub_byte (sub_byte b) =? b) && (sub_byte b <? 256) && (0 <=? sub_byte b) && (inv_sub_byte b <? 256) && (0 <=? inv_sub_byte b) = true.
Proof. revert b. apply all_bytes. vm_compute. reflexivity. Qed.

Lemma inv_sub_byte_sub b : byte_ok b -> inv_sub_byte (sub_byte b) = b.
Proof. intros H. pose proof (sub_byte_checks b H). bsimpl. lia. Qed.

Lemma sub_byte_ok b : byte_ok b -> byte_ok (sub_byte b).
Proof. intros H. pose proof (sub_byte_checks b H). bsimpl. unfold word_ok. lia. Qed.

Lemma inv_sub_byte_ok b : byte_ok b -> byte_ok (inv_sub_byte b).
Proof. intros H. pose proof (sub_byte_checks b H). bsimpl. unfold word_ok. lia. Qed.

(** ** States *)

Lemma length_state_of f : length (state_of f) = 16%nat.
Proof. done. Qed.

Lemma at_state_of f p : (p < 16)%nat -> at_ (state_of f) p = f p.
Proof. intros Hp. unfold at_, state_of. apply nth_lookup_Some. rewrite list_lookup_fmap, lookup_seq_lt by done. done. Qed.

Lemma state_of_ext f g : (forall p, (p < 16)%nat -> f p = g p) -> state_of f = state_of g.
Proof. intros H. unfold state_of. apply list_fmap_ext. intros i x [-> Hi]%lookup_seq. apply H. lia. Qed.

Lemma state_of_at s : length s = 16%nat -> state_of (at_ s) = s.
Proof.
  intros Hl. apply list_eq. intros i. unfold state_of. rewrite list_lookup_fmap. destruct (Nat.lt_ge_cases i 16).
  - rewrite lookup_seq_lt by done. destruct (lookup_lt_is_Some_2 s i) as [x E]; [lia|]. rewrite E. cbn. f_equal. by apply nth_lookup_Some.
  - rewrite lookup_seq_ge by done. symmetry. apply lookup_ge_None_2. lia.
Qed.

Lemma fmap_state_of (g : Z -> Z) f : g <$> state_of f = state_of (g ∘ f).
Proof. unfold state_of. by rewrite <- list_fmap_compose. Qed.

Lemma xor_state_of f g : xor_bytes (state_of f) (state_of g) = state_of (fun p => f p .^ g p).
Proof. done. Qed.

Lemma at_ok s p : bytes_ok s -> byte_ok (at_ s p).
Proof.
  intros H. unfold at_. destruct (s !! p) as [x|] eqn:E.
  - rewrite (nth_lookup_Some _ _ _ _ E). by apply (Forall_lookup_1 _ _ _ _ H E).
  - rewrite nth_overflow by (by apply lookup_ge_None_1). unfold word_ok. lia.
Qed.

Lemma state_of_ok f : (forall p, (p < 16)%nat -> byte_ok (f p)) -> bytes_ok (state_of f).
Proof. intros H. apply Forall_fmap, Forall_forall. intros p Hp%elem_of_seq. apply H. lia. Qed.

(** A statement about the cells, by their enumeration. *)
Lemma all_cells (P : nat -> Prop) : Forall P (seq 0 16) -> forall p, (p < 16)%nat -> P p.
Proof. intros H p Hp. rewrite Forall_forall in H. apply H, elem_of_seq. lia. Qed.
Ltac each_cell := revert_cell; apply all_cells; repeat (apply Forall_cons_2; [cbn -[at_ gmul xtime Z.lxor sub_byte inv_sub_byte]|]); [..|apply Forall_nil_2]
with revert_cell := match goal with H : (?p < 16)%nat |- _ => revert p H end.

Lemma cell_lt r c : (cell r c < 16)%nat.
Proof. unfold cell. pose proof (Nat.mod_upper_bound r 4). pose proof (Nat.mod_upper_bound c 4). lia. Qed.

Lemma row_cell r c : row (cell r c) = (r mod 4)%nat.
Proof. unfold row, cell. rewrite Nat.mul_comm, Nat.Div0.mod_add, Nat.Div0.mod_mod. done. Qed.

Lemma col_cell r c : col (cell r c) = (c mod 4)%nat.
Proof.
  unfold col, cell. rewrite Nat.mul_comm, Nat.div_add by done. rewrite Nat.div_small; [done|]. by apply Nat.mod_upper_bound.
Qed.

Lemma cell_row_col p : (p < 16)%nat -> cell (row p) (col p) = p.
Proof. intros Hp. revert p Hp. by apply all_cells; repeat constructor. Qed.

Lemma inv_shift_shift s : length s = 16%nat -> inv_shift_rows (shift_rows s) = s.
Proof.
  intros Hl. rewrite <- (state_of_at s Hl) at 2. apply state_of_ext. intros p Hp. unfold shift_rows. rewrite at_state_of by apply cell_lt.
  rewrite row_cell, col_cell. each_cell; reflexivity.
Qed.

Lemma inv_mix_mix s : length s = 16%nat -> inv_mix_columns (mix_columns s) = s.
Proof.
  intros Hl. rewrite <- (state_of_at s Hl) at 2. apply state_of_ext. intros p Hp. unfold mix_columns. rewrite !at_state_of by apply cell_lt.
  set (a i := at_ s i).
  assert (forall w x y z, let m w x y z := gmul w 2 .^ gmul x 3 .^ y .^ z in
    gmul (m w x y z) 14 .^ gmul (m x y z w) 11 .^ gmul (m y z w x) 13 .^ gmul (m z w x y) 9 = w) as H.
  { intros w x y z m. subst m. cbn beta. destruct (gmul_consts w) as (->&->&_), (gmul_consts x) as (->&->&_), (gmul_consts y) as (->&->&_), (gmul_consts z) as (->&->&_).
    match goal with |- gmul ?a 14 .^ gmul ?b 11 .^ gmul ?c 13 .^ gmul ?d 9 = _ =>
      destruct (gmul_consts a) as (_&_&_&_&_&->), (gmul_consts b) as (_&_&_&->&_), (gmul_consts c) as (_&_&_&_&->&_), (gmul_consts d) as (_&_&->&_) end.
    rewrite !xtime_xor. xor_ring. }
  each_cell; apply H.
Qed.

Lemma xor_twice_bytes s k : length s = length k -> xor_bytes (xor_bytes s k) k = s.
Proof.
  intros Hl. apply list_eq. intros i. unfold xor_bytes. rewrite !lookup_zip_with. destruct (s !! i) as [x|] eqn:E; [|done].
  destruct (lookup_lt_is_Some_2 k i) as [y Ey]; [rewrite <- Hl; by eapply lookup_lt_Some|]. rewrite Ey. cbn. f_equal. xor_ring.
Qed.

Lemma inv_sub_sub s : bytes_ok s -> inv_sub_bytes (sub_bytes s) = s.
Proof. intros H. unfold inv_sub_bytes, sub_bytes. induction H as [|b s Hb _ IH]; [done|]. cbn [fmap list_fmap]. by rewrite inv_sub_byte_sub, IH. Qed.

(** ** What is a state stays one *)

Definition is_state (s : list Z) : Prop := length s = 16%nat /\ bytes_ok s.

Lemma is_state_xor s k : is_state s -> is_state k -> is_state (xor_bytes s k).
Proof.
  intros [H1 H2] [H3 H4]. split; [unfold xor_bytes; rewrite length_zip_with; lia|].
  clear H1 H3. revert k H4. induction H2 as [|b s Hb _ IH]; intros [|c k] H4; try constructor; apply Forall_cons in H4 as [Hc H4];
    [apply lxor_ok; [lia|done|done]|by apply IH].
Qed.

Lemma is_state_sub s : is_state s -> is_state (sub_bytes s).
Proof.
  intros [H1 H2]. split; [by unfold sub_bytes; rewrite length_fmap|]. apply Forall_fmap. eapply Forall_impl; [exact H2|]. intros b. apply sub_byte_ok.
Qed.

Lemma is_state_shift s : is_state s -> is_state (shift_rows s).
Proof. intros [H1 H2]. split; [reflexivity|]. apply state_of_ok. intros p _. by apply at_ok. Qed.

Lemma is_state_mix s : is_state s -> is_state (mix_columns s).
Proof.
  intros [H1 H2]. split; [reflexivity|]. apply state_of_ok. intros p _. cbn beta zeta.
  match goal with |- byte_ok (gmul ?a _ .^ gmul ?b _ .^ ?c .^ ?d) =>
    destruct (gmul_consts a) as (->&_), (gmul_consts b) as (_&->&_); pose proof (at_ok s _ H2 : byte_ok a); pose proof (at_ok s _ H2 : byte_ok b);
    pose proof (at_ok s _ H2 : byte_ok c); pose proof (at_ok s _ H2 : byte_ok d) end.
  repeat first [assumption | apply byte_ok_xtime | apply lxor_ok; [lia|..]].
Qed.

Lemma is_state_inv_sub s : is_state s -> is_state (inv_sub_bytes s).
Proof.
  intros [H1 H2]. split; [by unfold inv_sub_bytes; rewrite length_fmap|]. apply Forall_fmap. eapply Forall_impl; [exact H2|]. intros b. apply inv_sub_byte_ok.
Qed.

Lemma is_state_inv_shift s : is_state s -> is_state (inv_shift_rows s).
Proof. intros [H1 H2]. split; [reflexivity|]. apply state_of_ok. intros p _. by apply at_ok. Qed.

Lemma gmul_ok a : byte_ok a -> byte_ok (gmul a 9) /\ byte_ok (gmul a 11) /\ byte_ok (gmul a 13) /\ byte_ok (gmul a 14).
Proof.
  intros H. destruct (gmul_consts a) as (_&_&->&->&->&->). split_and!; repeat first [assumption | apply byte_ok_xtime | apply lxor_ok; [lia|..]].
Qed.

Lemma is_state_inv_mix s : is_state s -> is_state (inv_mix_columns s).
Proof.
  intros [H1 H2]. split; [reflexivity|]. apply state_of_ok. intros p _. cbn beta zeta.
  match goal with |- byte_ok (gmul ?a _ .^ gmul ?b _ .^ gmul ?c _ .^ gmul ?d _) =>
    destruct (gmul_ok a (at_ok s _ H2)) as (_&_&_&?), (gmul_ok b (at_ok s _ H2)) as (_&?&_), (gmul_ok c (at_ok s _ H2)) as (_&_&?&_), (gmul_ok d (at_ok s _ H2)) as (?&_) end.
  repeat first [assumption | apply lxor_ok; [lia|..]].
Qed.

#[export] Hint Resolve is_state_xor is_state_sub is_state_shift is_state_mix is_state_inv_sub is_state_inv_shift is_state_inv_mix : aes.

Lemma is_state_round key s r : is_state s -> is_state (key r) -> is_state (round key s r).
Proof. unfold round. auto with aes. Qed.

Lemma inv_round_key s k : is_state s -> is_state k -> xor_bytes (xor_bytes s k) k = s.
Proof. intros [H _] [H' _]. apply xor_twice_bytes. congruence. Qed.

Lemma is_state_rounds key rs s : Forall (fun r => is_state (key r)) rs -> is_state s -> is_state (foldl (round key) s rs).
Proof. intros Hk. revert s. induction Hk as [|r rs Hr Hk IH]; intros s Hs; [done|]. by apply IH, is_state_round. Qed.

Lemma inv_shift_sub s : is_state s -> inv_sub_bytes (inv_shift_rows (shift_rows (sub_bytes s))) = s.
Proof. intros Hs. rewrite inv_shift_shift by apply (is_state_sub s Hs). by apply inv_sub_sub, Hs. Qed.

(** The middle rounds undo each other, in the opposite order. *)
Lemma inv_rounds key rs s : Forall (fun r => is_state (key r)) rs -> is_state s ->
  foldl (inv_round key) (shift_rows (sub_bytes (foldl (round key) s rs))) (rev rs) = shift_rows (sub_bytes s).
Proof.
  intros Hk. revert s. induction Hk as [|r rs Hr Hk IH]; intros s Hs; [done|]. cbn [foldl rev]. rewrite foldl_app, IH by auto using is_state_round.
  cbn [foldl]. unfold inv_round. rewrite inv_shift_sub by auto using is_state_round. unfold round at 1. rewrite inv_round_key by auto with aes.
  apply inv_mix_mix, is_state_shift, is_state_sub, Hs.
Qed.

Section Cipher.
Context (nr : nat) (key : nat -> list Z) (Hkey : forall r, (r <= nr)%nat -> is_state (key r)).

Lemma middle_keys : Forall (fun r => is_state (key r)) (seq 1 (nr - 1)).
Proof. apply Forall_forall. intros r Hr%elem_of_seq. apply Hkey. lia. Qed.

Lemma inv_cipher_cipher s : is_state s -> inv_cipher nr key (cipher nr key s) = s.
Proof.
  intros Hs. unfold cipher, inv_cipher. set (s0 := add_round_key s (key 0%nat)). assert (is_state s0) as Hs0 by (apply is_state_xor; auto using Nat.le_0_l).
  pose proof middle_keys as Hm. rewrite inv_round_key by auto using is_state_rounds with aes.
  rewrite inv_rounds, inv_shift_sub by done. apply inv_round_key; auto using Nat.le_0_l.
Qed.

Lemma is_state_cipher s : is_state s -> is_state (cipher nr key s).
Proof. intros Hs. pose proof middle_keys as Hm. unfold cipher. auto 8 using is_state_rounds, Nat.le_0_l with aes. Qed.

Lemma is_state_inv_cipher s : is_state s -> is_state (inv_cipher nr key s).
Proof.
  intros Hs. unfold inv_cipher. apply is_state_xor; [|apply Hkey; lia]. apply is_state_inv_sub, is_state_inv_shift.
  assert (is_state (xor_bytes s (key nr))) as H0 by auto with aes. revert H0. generalize (xor_bytes s (key nr)).
  assert (Forall (fun r => is_state (key r)) (rev (seq 1 (nr - 1)))) as Hm by (by apply Forall_rev, middle_keys). revert Hm.
  generalize (rev (seq 1 (nr - 1))). intros rs. induction 1 as [|r rs Hr _ IH]; intros t Ht; [done|]. cbn [foldl]. apply IH. unfold inv_round. auto with aes.
Qed.
End Cipher.

(** ** The key schedule *)

Definition is_word (w : list Z) : Prop := length w = 4%nat /\ bytes_ok w.

Lemma is_word_xor v w : is_word v -> is_word w -> is_word (xor_bytes v w).
Proof.
  intros [H1 H2] [H3 H4]. destruct v as [|? [|? [|? [|? []]]]], w as [|? [|? [|? [|? []]]]]; try done. split; [done|].
  repeat match goal with H : Forall _ (_ :: _) |- _ => apply Forall_cons in H as [? H] end.
  cbn. repeat apply Forall_cons_2; try apply Forall_nil_2; by apply lxor_ok.
Qed.

Lemma is_word_sub w : is_word w -> is_word (sub_word w).
Proof.
  intros [H1 H2]. split; [by unfold sub_word; rewrite length_fmap|]. apply Forall_fmap. eapply Forall_impl; [exact H2|]. intros b. apply sub_byte_ok.
Qed.

Lemma is_word_rot w : is_word w -> is_word (rot_word w).
Proof.
  intros [H1 H2]. destruct w as [|? [|? [|? [|? []]]]]; try done. split; [done|].
  repeat match goal with H : Forall _ (_ :: _) |- _ => apply Forall_cons in H as [? H] end. cbn. by repeat apply Forall_cons_2.
Qed.

Section Schedule.
Context (nk : nat) (key : list Z) (Hnk : (0 < nk)%nat) (Hkey : bytes_ok key) (Hlen : (4 * nk <= length key)%nat).

(** Word [j] of the schedule. *)
Definition key_word (j : nat) : list Z := word_at (key_words nk key (S j)) j.

Lemma length_key_words i : length (key_words nk key i) = i.
Proof using Type. clear Hnk Hkey Hlen. induction i as [|i IH]; [done|]. cbn [key_words]. rewrite length_app, IH. cbn. lia. Qed.

Lemma word_at_key_words i j : (j < i)%nat -> word_at (key_words nk key i) j = key_word j.
Proof using Type.
  clear Hnk Hkey Hlen. induction i as [|i IH]; intros Hj; [lia|]. destruct (decide (j = i)) as [->|]; [done|]. rewrite <- IH by lia. cbn [key_words]. unfold word_at.
  apply app_nth1. rewrite length_key_words. lia.
Qed.

Lemma key_word_unfold j : key_word j = if (j <? nk)%nat then take 4 (drop (4 * j) key) else next_word nk (key_words nk key j) j.
Proof using Type. clear Hnk Hkey Hlen. unfold key_word. cbn [key_words]. unfold word_at. rewrite app_nth2, length_key_words, Nat.sub_diag by (rewrite length_key_words; lia). done. Qed.

Lemma key_word_early j : (j < nk)%nat -> key_word j = take 4 (drop (4 * j) key).
Proof using Type. intros Hj. rewrite key_word_unfold. by rewrite (proj2 (Nat.ltb_lt _ _)). Qed.

Lemma key_word_late j : (nk <= j)%nat -> key_word j =
  let temp := key_word (j - 1) in
  xor_bytes (key_word (j - nk)) (if (j mod nk =? 0)%nat then xor_bytes (sub_word (rot_word temp)) (rcon (j / nk))
    else if (6 <? nk)%nat && (j mod nk =? 4)%nat then sub_word temp else temp).
Proof using Hnk. clear Hkey Hlen. intros Hj. rewrite key_word_unfold, (proj2 (Nat.ltb_ge _ _)) by lia. unfold next_word. by rewrite !word_at_key_words by lia. Qed.

Lemma is_word_rcon i : is_word (rcon i).
Proof using Type.
  clear Hnk Hkey Hlen. split; [done|]. unfold rcon. repeat (apply Forall_cons_2; [|]); try apply Forall_nil_2; try (unfold word_ok; lia).
  induction (i - 1)%nat as [|n IH]; [change (byte_ok 1); unfold word_ok; lia|]. by apply (byte_ok_xtime (Nat.iter n xtime 1)).
Qed.

Lemma key_word_ok j : is_word (key_word j).
Proof using Hnk Hkey Hlen.
  induction j as [j IH] using lt_wf_ind. destruct (Nat.lt_ge_cases j nk).
  - rewrite key_word_early by done. split; [rewrite length_take, length_drop; lia|]. by apply Forall_take, Forall_drop.
  - rewrite key_word_late by done. cbv zeta. assert (is_word (key_word (j - 1)) /\ is_word (key_word (j - nk))) as [H1 H2] by (split; apply IH; lia).
    apply is_word_xor; [done|]. repeat case_match; auto using is_word_xor, is_word_sub, is_word_rot, is_word_rcon.
Qed.

(** The round keys, by their bytes. *)
Lemma round_key_bytes n r : (4 * r + 4 <= n)%nat ->
  is_state (round_key (key_words nk key n) r) /\ round_key (key_words nk key n) r = state_of (fun p => nth (p mod 4) (key_word (4 * r + p / 4)) 0).
Proof using Hnk Hkey Hlen.
  intros Hn. assert (take 4 (drop (4 * r) (key_words nk key n)) = key_word <$> seq (4 * r) 4) as E.
  { apply list_eq. intros i. rewrite list_lookup_fmap. destruct (Nat.lt_ge_cases i 4).
    - rewrite lookup_take_lt, lookup_drop, lookup_seq_lt by done.
      change (key_words nk key n !! (4 * r + i)%nat = Some (key_word (4 * r + i))). rewrite <- (word_at_key_words n) by lia.
      destruct (lookup_lt_is_Some_2 (key_words nk key n) (4 * r + i)) as [x Ex]; [rewrite length_key_words; lia|]. rewrite Ex. f_equal. symmetry. by apply nth_lookup_Some.
    - rewrite lookup_take_ge, lookup_seq_ge by done. done. }
  unfold round_key. rewrite E. cbn [seq fmap list_fmap concat].
  pose proof (key_word_ok (4 * r)) as H0. pose proof (key_word_ok (S (4 * r))) as H1. pose proof (key_word_ok (S (S (4 * r)))) as H2. pose proof (key_word_ok (S (S (S (4 * r))))) as H3.
  assert (bytes_ok (key_word (4 * r) ++ key_word (S (4 * r)) ++ key_word (S (S (4 * r))) ++ key_word (S (S (S (4 * r)))) ++ [])) as Hok.
  { repeat apply Forall_app_2; try apply Forall_nil_2; [apply H0|apply H1|apply H2|apply H3]. }
  split; [split; [|done]; rewrite !length_app; destruct H0 as [-> _], H1 as [-> _], H2 as [-> _], H3 as [-> _]; done|].
  unfold state_of. cbn [seq fmap list_fmap]. cbn [Nat.modulo Nat.divmod snd Nat.sub Nat.div fst].
  rewrite (Nat.add_0_r (4 * r)), (Nat.add_1_r (4 * r)), !(Nat.add_comm (4 * r)). cbn [Nat.add].
  destruct H0 as [H0 _], H1 as [H1 _], H2 as [H2 _], H3 as [H3 _]. revert H0 H1 H2 H3.
  generalize (key_word (4 * r)), (key_word (S (4 * r))), (key_word (S (S (4 * r)))), (key_word (S (S (S (4 * r))))). intros l0 l1 l2 l3 H0 H1 H2 H3.
  destruct l0 as [|? [|? [|? [|? []]]]], l1 as [|? [|? [|? [|? []]]]], l2 as [|? [|? [|? [|? []]]]], l3 as [|? [|? [|? [|? []]]]]; done.
Qed.
End Schedule.
