(* ===== verification/SshAesSlice.v ===== *)
(** * AES in bit slices (sshaes.c, the software implementation)

    The state of the cipher is eight words: bit [p] of word [b] is bit [b] of byte [p] of the state.  With words of
    sixteen bits this is one block, with words of 64 bits ([BignumInt]) four.  [byte_at] reads a byte out of slices; every step
    of the cipher is a step of FIPS 197 on the bytes at their positions, whatever the width. *)

From Stdlib Require Import Btauto.
From S2P Require Import Prelude SshCrypto SshMd5 Fips197.
Open Scope Z_scope.
Open Scope word_scope.

(** ** The S-box, in logic

    The macros declare local variables for the macro that follows; here they pass them to a continuation.  They are
    generic in the type of the words. *)

Section Sbox.
Context {A : Type} (xor and : A -> A -> A).
Local Infix "⊕" := xor (at level 50, left associativity).
Local Infix "⊗" := and (at level 40, left associativity).

Definition fun18 (R : Type) : Type := A -> A -> A -> A -> A -> A -> A -> A -> A -> A -> A -> A -> A -> A -> A -> A -> A -> A -> R.
Definition fun22 (R : Type) : Type := A -> A -> A -> A -> fun18 R.

Definition SBOX_FORWARD_TOP_TRANSFORM {R} (input : nat -> A) (k : fun22 R) : R :=
  let y14 := input 4%nat ⊕ input 2%nat in let y13 := input 7%nat ⊕ input 1%nat in let y9 := input 7%nat ⊕ input 4%nat in
  let y8 := input 7%nat ⊕ input 2%nat in let t0 := input 6%nat ⊕ input 5%nat in let y1 := t0 ⊕ input 0%nat in
  let y4 := y1 ⊕ input 4%nat in let y12 := y13 ⊕ y14 in let y2 := y1 ⊕ input 7%nat in let y5 := y1 ⊕ input 1%nat in
  let y3 := y5 ⊕ y8 in let t1 := input 3%nat ⊕ y12 in let y15 := t1 ⊕ input 2%nat in let y20 := t1 ⊕ input 6%nat in
  let y6 := y15 ⊕ input 0%nat in let y10 := y15 ⊕ t0 in let y11 := y20 ⊕ y9 in let y7 := input 0%nat ⊕ y11 in
  let y17 := y10 ⊕ y11 in let y19 := y10 ⊕ y8 in let y16 := t0 ⊕ y11 in let y21 := y13 ⊕ y16 in
  let y18 := input 7%nat ⊕ y16 in let i0 := input 0%nat in
  k y1 y2 y3 y4 y5 y6 y7 y8 y9 y10 y11 y12 y13 y14 y15 y16 y17 y18 y19 y20 y21 i0.

Definition SBOX_CORE {R} (y1 y2 y3 y4 y5 y6 y7 y8 y9 y10 y11 y12 y13 y14 y15 y16 y17 y18 y19 y20 y21 i0 : A) (k : fun18 R) : R :=
  let t2 := y12 ⊗ y15 in let t3 := y3 ⊗ y6 in let t4 := t3 ⊕ t2 in let t5 := y4 ⊗ i0 in let t6 := t5 ⊕ t2 in
  let t7 := y13 ⊗ y16 in let t8 := y5 ⊗ y1 in let t9 := t8 ⊕ t7 in let t10 := y2 ⊗ y7 in let t11 := t10 ⊕ t7 in
  let t12 := y9 ⊗ y11 in let t13 := y14 ⊗ y17 in let t14 := t13 ⊕ t12 in let t15 := y8 ⊗ y10 in let t16 := t15 ⊕ t12 in
  let t17 := t4 ⊕ t14 in let t18 := t6 ⊕ t16 in let t19 := t9 ⊕ t14 in let t20 := t11 ⊕ t16 in let t21 := t17 ⊕ y20 in
  let t22 := t18 ⊕ y19 in let t23 := t19 ⊕ y21 in let t24 := t20 ⊕ y18 in let t25 := t21 ⊕ t22 in let t26 := t21 ⊗ t23 in
  let t27 := t24 ⊕ t26 in let t28 := t25 ⊗ t27 in let t29 := t28 ⊕ t22 in let t30 := t23 ⊕ t24 in let t31 := t22 ⊕ t26 in
  let t32 := t31 ⊗ t30 in let t33 := t32 ⊕ t24 in let t34 := t23 ⊕ t33 in let t35 := t27 ⊕ t33 in let t36 := t24 ⊗ t35 in
  let t37 := t36 ⊕ t34 in let t38 := t27 ⊕ t36 in let t39 := t29 ⊗ t38 in let t40 := t25 ⊕ t39 in let t41 := t40 ⊕ t37 in
  let t42 := t29 ⊕ t33 in let t43 := t29 ⊕ t40 in let t44 := t33 ⊕ t37 in let t45 := t42 ⊕ t41 in let z0 := t44 ⊗ y15 in
  let z1 := t37 ⊗ y6 in let z2 := t33 ⊗ i0 in let z3 := t43 ⊗ y16 in let z4 := t40 ⊗ y1 in let z5 := t29 ⊗ y7 in
  let z6 := t42 ⊗ y11 in let z7 := t45 ⊗ y17 in let z8 := t41 ⊗ y10 in let z9 := t44 ⊗ y12 in let z10 := t37 ⊗ y3 in
  let z11 := t33 ⊗ y4 in let z12 := t43 ⊗ y13 in let z13 := t40 ⊗ y5 in let z14 := t29 ⊗ y2 in let z15 := t42 ⊗ y9 in
  let z16 := t45 ⊗ y14 in let z17 := t41 ⊗ y8 in
  k z0 z1 z2 z3 z4 z5 z6 z7 z8 z9 z10 z11 z12 z13 z14 z15 z16 z17.

Definition SBOX_FORWARD_BOTTOM_TRANSFORM (z0 z1 z2 z3 z4 z5 z6 z7 z8 z9 z10 z11 z12 z13 z14 z15 z16 z17 : A) : list A :=
  let t46 := z15 ⊕ z16 in let t47 := z10 ⊕ z11 in let t48 := z5 ⊕ z13 in let t49 := z9 ⊕ z10 in let t50 := z2 ⊕ z12 in
  let t51 := z2 ⊕ z5 in let t52 := z7 ⊕ z8 in let t53 := z0 ⊕ z3 in let t54 := z6 ⊕ z7 in let t55 := z16 ⊕ z17 in
  let t56 := z12 ⊕ t48 in let t57 := t50 ⊕ t53 in let t58 := z4 ⊕ t46 in let t59 := z3 ⊕ t54 in let t60 := t46 ⊕ t57 in
  let t61 := z14 ⊕ t57 in let t62 := t52 ⊕ t58 in let t63 := t49 ⊕ t58 in let t64 := z4 ⊕ t59 in let t65 := t61 ⊕ t62 in
  let t66 := z1 ⊕ t63 in let output7 := t59 ⊕ t63 in let output1 := t56 ⊕ t62 in let output0 := t48 ⊕ t60 in
  let t67 := t64 ⊕ t65 in let output4 := t53 ⊕ t66 in let output3 := t51 ⊕ t66 in let output2 := t47 ⊕ t65 in
  let output6 := t64 ⊕ output4 in let output5 := t55 ⊕ t67 in
  [output0; output1; output2; output3; output4; output5; output6; output7].

Definition SBOX_BACKWARD_TOP_TRANSFORM {R} (input : nat -> A) (k : fun22 R) : R :=
  let y5 := input 4%nat ⊕ input 6%nat in let y19 := input 3%nat ⊕ input 0%nat in let itmp8 := y5 ⊕ input 0%nat in
  let y4 := itmp8 ⊕ input 1%nat in let y9 := input 4%nat ⊕ input 3%nat in let y2 := y9 ⊕ y4 in
  let itmp9 := y2 ⊕ input 7%nat in let y1 := y9 ⊕ input 0%nat in let y6 := y5 ⊕ input 7%nat in
  let y18 := y9 ⊕ input 5%nat in let y7 := y18 ⊕ y2 in let y16 := y7 ⊕ y1 in let y21 := y7 ⊕ input 1%nat in
  let y3 := input 4%nat ⊕ input 7%nat in let y13 := y16 ⊕ y21 in let y8 := input 4%nat ⊕ y6 in let y10 := y8 ⊕ y19 in
  let y14 := y8 ⊕ y9 in let y20 := itmp9 ⊕ input 2%nat in let y11 := y9 ⊕ y20 in let i0 := y11 ⊕ y7 in let y15 := i0 ⊕ y6 in
  let y17 := y16 ⊕ y15 in let y12 := itmp9 ⊕ input 3%nat in
  k y1 y2 y3 y4 y5 y6 y7 y8 y9 y10 y11 y12 y13 y14 y15 y16 y17 y18 y19 y20 y21 i0.

Definition SBOX_BACKWARD_BOTTOM_TRANSFORM (z0 z1 z2 z3 z4 z5 z6 z7 z8 z9 z10 z11 z12 z13 z14 z15 z16 z17 : A) : list A :=
  let otmp18 := z15 ⊕ z6 in let otmp19 := z13 ⊕ otmp18 in let otmp20 := z12 ⊕ otmp19 in let otmp21 := z16 ⊕ otmp20 in
  let otmp22 := z8 ⊕ otmp21 in let otmp23 := z0 ⊕ otmp22 in let otmp24 := otmp22 ⊕ z3 in let otmp25 := otmp24 ⊕ z4 in
  let otmp26 := otmp25 ⊕ z2 in let otmp27 := z1 ⊕ otmp26 in let otmp28 := z14 ⊕ otmp27 in let otmp29 := otmp28 ⊕ z10 in
  let output4 := z2 ⊕ otmp23 in let output7 := z5 ⊕ otmp24 in let otmp30 := z11 ⊕ otmp29 in let output5 := z13 ⊕ otmp30 in
  let otmp31 := otmp25 ⊕ z8 in let output1 := z7 ⊕ otmp31 in let otmp32 := z11 ⊕ z9 in let otmp33 := z17 ⊕ otmp32 in
  let otmp34 := otmp30 ⊕ otmp33 in let output0 := z15 ⊕ otmp33 in let otmp35 := z12 ⊕ otmp34 in
  let output6 := otmp35 ⊕ z16 in let otmp36 := z1 ⊕ otmp23 in let otmp37 := z5 ⊕ otmp36 in let output2 := z4 ⊕ otmp37 in
  let otmp38 := z11 ⊕ output1 in let otmp39 := z2 ⊕ otmp38 in let otmp40 := z17 ⊕ otmp39 in let otmp41 := z0 ⊕ otmp40 in
  let otmp42 := z5 ⊕ otmp41 in let otmp43 := otmp42 ⊕ z10 in let otmp44 := otmp43 ⊕ z3 in let output3 := otmp44 ⊕ z16 in
  [output0; output1; output2; output3; output4; output5; output6; output7].

Definition BITSLICED_SUBBYTES (input : nat -> A) : list A :=
  SBOX_FORWARD_TOP_TRANSFORM input (fun y1 y2 y3 y4 y5 y6 y7 y8 y9 y10 y11 y12 y13 y14 y15 y16 y17 y18 y19 y20 y21 i0 =>
  SBOX_CORE y1 y2 y3 y4 y5 y6 y7 y8 y9 y10 y11 y12 y13 y14 y15 y16 y17 y18 y19 y20 y21 i0 SBOX_FORWARD_BOTTOM_TRANSFORM).

Definition BITSLICED_INVSUBBYTES (input : nat -> A) : list A :=
  SBOX_BACKWARD_TOP_TRANSFORM input (fun y1 y2 y3 y4 y5 y6 y7 y8 y9 y10 y11 y12 y13 y14 y15 y16 y17 y18 y19 y20 y21 i0 =>
  SBOX_CORE y1 y2 y3 y4 y5 y6 y7 y8 y9 y10 y11 y12 y13 y14 y15 y16 y17 y18 y19 y20 y21 i0 SBOX_BACKWARD_BOTTOM_TRANSFORM).
End Sbox.

(** ** Words, bytes, bits *)

Definition slice (s : list Z) (i : nat) : Z := nth i s 0.

(** misc.h *)
Definition GET_64BIT_LSB_FIRST (p : list Z) : Z :=
  nth 0 p 0 .| nth 1 p 0 << 8 .| nth 2 p 0 << 16 .| nth 3 p 0 << 24 .| nth 4 p 0 << 32 .| nth 5 p 0 << 40 .| nth 6 p 0 << 48 .| nth 7 p 0 << 56.

Definition SWAPWORDS (shift : Z) (i0 i1 : Z) : Z * Z :=
  let mask := (2 ^ 64 - 1) / ((1 << shift) + 1) in
  let diff := ((i0 >> shift) .^ i1) .& mask in
  (u64 (i0 .^ (diff << shift)), i1 .^ diff).

Definition SWAPINWORD (bigshift smallshift : Z) (i : Z) : Z :=
  let mask := 2 ^ 64 - 1 in
  let mask := mask / ((1 << bigshift) + 1) in
  let mask := mask / ((1 << smallshift) + 1) in
  let mask := u64 (mask << smallshift) in
  let shift := bigshift - smallshift in
  let diff := ((i >> shift) .^ i) .& mask in
  u64 (i .^ (diff .^ (diff << shift))).

(** The values that are assigned to the slices, or are or-ed into them, by a call of the macro with words of [w] bits. *)
Definition TO_BITSLICES (w : Z) (bytes : list Z) (shift : Z) : list Z :=
  let i0 := GET_64BIT_LSB_FIRST bytes in
  let i1 := GET_64BIT_LSB_FIRST (drop 8 bytes) in
  let i0 := SWAPINWORD 8 1 i0 in let i1 := SWAPINWORD 8 1 i1 in
  let i0 := SWAPINWORD 16 2 i0 in let i1 := SWAPINWORD 16 2 i1 in
  let i0 := SWAPINWORD 32 4 i0 in let i1 := SWAPINWORD 32 4 i1 in
  let '(i0, i1) := SWAPWORDS 8 i0 i1 in
  let field i n := wrap w (((i >> n) .& 0xFFFF) << shift) in
  [field i0 0; field i1 0; field i0 16; field i1 16; field i0 32; field i1 32; field i0 48; field i1 48].

Definition FROM_BITSLICES (slices : list Z) (shift : Z) : list Z :=
  let field i := (slice slices i >> shift) .& 0xFFFF in
  let i1 := field 7%nat in
  let i1 := (i1 << 16) .| field 5%nat in let i1 := (i1 << 16) .| field 3%nat in let i1 := (i1 << 16) .| field 1%nat in
  let i0 := field 6%nat in
  let i0 := (i0 << 16) .| field 4%nat in let i0 := (i0 << 16) .| field 2%nat in let i0 := (i0 << 16) .| field 0%nat in
  let '(i0, i1) := SWAPWORDS 8 i0 i1 in
  let i0 := SWAPINWORD 32 4 i0 in let i1 := SWAPINWORD 32 4 i1 in
  let i0 := SWAPINWORD 16 2 i0 in let i1 := SWAPINWORD 16 2 i1 in
  let i0 := SWAPINWORD 8 1 i0 in let i1 := SWAPINWORD 8 1 i1 in
  PUT_64BIT_LSB_FIRST i0 ++ PUT_64BIT_LSB_FIRST i1.

Definition BITSLICED_ADD (lhs rhs : list Z) : list Z := zip_with Z.lxor lhs rhs.

(** ** The other steps, on words of [w] bits *)

Section Words.
Context (w : Z).

(** [m * (((uintN_t)~(uintN_t)0) / unit)], the mask [m] once in each group of bits. *)
Definition mask_of (m unit : Z) : Z := wrap w (m * ((2 ^ w - 1) / unit)).

Definition SINGLE_BITSLICE_SHIFTROWS (x : Z) : Z :=
  let mask := mask_of 0x00CC 0xFFFF in
  let diff := ((x >> 8) .^ x) .& mask in
  let x := wrap w (x .^ (diff .^ (diff << 8))) in
  let mask := mask_of 0x0AAA 0xFFFF in
  let mask2 := mask_of 0xA000 0xFFFF in
  let mask3 := mask_of 0x5555 0xFFFF in
  ((x >> 4) .& mask) .| ((wrap w (x << 12)) .& mask2) .| (x .& mask3).

Definition SINGLE_BITSLICE_INVSHIFTROWS (x : Z) : Z :=
  let mask := mask_of 0x00CC 0xFFFF in
  let diff := ((x >> 8) .^ x) .& mask in
  let x := wrap w (x .^ (diff .^ (diff << 8))) in
  let mask := mask_of 0x000A 0xFFFF in
  let mask2 := mask_of 0xAAA0 0xFFFF in
  let mask3 := mask_of 0x5555 0xFFFF in
  ((x >> 12) .& mask) .| ((wrap w (x << 4)) .& mask2) .| (x .& mask3).

Definition BITSLICED_SHIFTROWS (input : list Z) : list Z := SINGLE_BITSLICE_SHIFTROWS <$> input.
Definition BITSLICED_INVSHIFTROWS (input : list Z) : list Z := SINGLE_BITSLICE_INVSHIFTROWS <$> input.

Definition BITSLICED_MUL_BY_Y3 (x : Z) : Z :=
  let mask := mask_of 0x8 0xF in let mask2 := mask_of 0x7 0xF in
  ((wrap w (x << 3)) .& mask) .^ ((x >> 1) .& mask2).
Definition BITSLICED_MUL_BY_Y2 (x : Z) : Z :=
  let mask := mask_of 0xC 0xF in let mask2 := mask_of 0x3 0xF in
  ((wrap w (x << 2)) .& mask) .^ ((x >> 2) .& mask2).
Definition BITSLICED_MUL_BY_1_Y3 (x : Z) : Z := x .^ BITSLICED_MUL_BY_Y3 x.
Definition BITSLICED_MUL_BY_1_Y2 (x : Z) : Z := x .^ BITSLICED_MUL_BY_Y2 x.

Definition BITSLICED_MUL_BY_X (input : list Z) : list Z :=
  let bit7 := slice input 7 in
  [bit7; slice input 0 .^ bit7; slice input 1; slice input 2 .^ bit7; slice input 3 .^ bit7; slice input 4; slice input 5; slice input 6].

Definition BITSLICED_MIXCOLUMNS (input : list Z) : list Z :=
  let a := BITSLICED_MUL_BY_1_Y3 <$> input in
  let aX := BITSLICED_MUL_BY_X a in
  let b := BITSLICED_MUL_BY_1_Y2 <$> a in
  let a := BITSLICED_ADD aX b in
  BITSLICED_ADD input a.

Definition BITSLICED_INVMIXCOLUMNS (input : list Z) : list Z :=
  let X := BITSLICED_MUL_BY_X input in
  let X2 := BITSLICED_MUL_BY_X X in
  let X3 := BITSLICED_MUL_BY_X X2 in
  let S := BITSLICED_ADD input X in let S := BITSLICED_ADD S X2 in let S := BITSLICED_ADD S X3 in
  let S := BITSLICED_MUL_BY_1_Y3 <$> S in let S := BITSLICED_MUL_BY_1_Y2 <$> S in
  let A := BITSLICED_MUL_BY_1_Y3 <$> X in let A := BITSLICED_MUL_BY_Y2 <$> A in
  let B := BITSLICED_MUL_BY_1_Y2 <$> X2 in let B := BITSLICED_MUL_BY_Y3 <$> B in
  let S := BITSLICED_ADD S input in let S := BITSLICED_ADD S A in
  BITSLICED_ADD S B.

(** [mixcol] says whether [mixcol_macro] is there: it is not in the last round of a cipher and in the first of its inverse. *)
Definition aes_sliced_round_e (mixcol : bool) (input roundkey : list Z) : list Z :=
  let output := BITSLICED_SUBBYTES Z.lxor Z.land (slice input) in
  let output := BITSLICED_SHIFTROWS output in
  let output := if mixcol then BITSLICED_MIXCOLUMNS output else output in
  BITSLICED_ADD output roundkey.

Definition aes_sliced_round_d (mixcol : bool) (input roundkey : list Z) : list Z :=
  let output := BITSLICED_ADD input roundkey in
  let output := if mixcol then BITSLICED_INVMIXCOLUMNS output else output in
  let output := BITSLICED_INVSUBBYTES Z.lxor Z.land (slice output) in
  BITSLICED_INVSHIFTROWS output.

(** [nblocks] blocks, one after the other, are brought into slices, and back. *)
Definition slices_of_blocks (nblocks : nat) (input : list Z) : list Z :=
  foldl (fun state i => zip_with Z.lor state (TO_BITSLICES w (drop (16 * i) input) (Z.of_nat i * 16)))
    (TO_BITSLICES w input 0) (seq 1 (nblocks - 1)).
Definition blocks_of_slices (nblocks : nat) (state : list Z) : list Z :=
  concat ((fun i => FROM_BITSLICES state (Z.of_nat i * 16)) <$> seq 0 nblocks).

(** Round key [r] of a schedule. *)
Definition keys_at (roundkeys : list Z) (r : nat) : list Z := take 8 (drop (8 * r) roundkeys).

Definition aes_sliced_e (nblocks rounds : nat) (roundkeys input : list Z) : list Z :=
  let state := slices_of_blocks nblocks input in
  let state := BITSLICED_ADD state (keys_at roundkeys 0) in
  let state := foldl (fun state i => aes_sliced_round_e true state (keys_at roundkeys i)) state (seq 1 (rounds - 1)) in
  let state := aes_sliced_round_e false state (keys_at roundkeys rounds) in
  blocks_of_slices nblocks state.

Definition aes_sliced_d (nblocks rounds : nat) (roundkeys input : list Z) : list Z :=
  let state := slices_of_blocks nblocks input in
  let state := aes_sliced_round_d false state (keys_at roundkeys rounds) in
  let state := foldl (fun state i => aes_sliced_round_d true state (keys_at roundkeys i)) state (rev (seq 1 (rounds - 1))) in
  let state := BITSLICED_ADD state (keys_at roundkeys 0) in
  blocks_of_slices nblocks state.
End Words.

(** ** Reading slices *)

Definition byte_of (l : list bool) : Z := foldr (fun b v => Z.b2z b + 2 * v) 0 l.
Definition bits_at (s : list Z) (p : Z) : list bool := (fun b => Z.testbit (slice s b) p) <$> seq 0 8.
(** Byte [p] of the slices [s]. *)
Definition byte_at (s : list Z) (p : Z) : Z := byte_of (bits_at s p).

Lemma byte_of_bit l b : Z.testbit (byte_of l) (Z.of_nat b) = nth b l false.
Proof.
  revert b. induction l as [|x l IH]; intros b; [cbn; rewrite Z.bits_0; by destruct b|]. cbn [byte_of foldr]. fold (byte_of l).
  rewrite Z.add_comm. destruct b as [|b]; [by rewrite Z.testbit_0_r|]. rewrite Nat2Z.inj_succ, Z.testbit_succ_r by lia. apply IH.
Qed.

Lemma byte_of_ok l : length l = 8%nat -> byte_ok (byte_of l).
Proof.
  intros H. apply word_ok_bits; [lia| |].
  - clear H. induction l as [|x l IH]; [done|]. change (0 <= Z.b2z x + 2 * byte_of l). destruct x; cbn [Z.b2z]; lia.
  - intros i Hi. rewrite <- (Z2Nat.id i) by lia. rewrite byte_of_bit. apply nth_overflow. lia.
Qed.

Lemma byte_at_ok s p : byte_ok (byte_at s p).
Proof. by apply byte_of_ok. Qed.
#[export] Hint Resolve byte_at_ok : aes.

Lemma byte_at_bit s p b : (b < 8)%nat -> Z.testbit (byte_at s p) (Z.of_nat b) = Z.testbit (slice s b) p.
Proof. intros Hb. unfold byte_at. rewrite byte_of_bit. unfold bits_at. apply nth_lookup_Some. by rewrite list_lookup_fmap, lookup_seq_lt. Qed.

(** Bytes with the same bits are the same. *)
Lemma byte_ext x y : byte_ok x -> byte_ok y -> (forall b, (b < 8)%nat -> Z.testbit x (Z.of_nat b) = Z.testbit y (Z.of_nat b)) -> x = y.
Proof.
  intros Hx Hy H. apply Z.bits_inj'. intros i Hi. destruct (Z.lt_ge_cases i 8).
  - rewrite <- (Z2Nat.id i) by lia. apply H. lia.
  - by rewrite (testbit_high 8 x), (testbit_high 8 y).
Qed.

Lemma byte_at_eq s p y : byte_ok y -> (forall b, (b < 8)%nat -> Z.testbit (slice s b) p = Z.testbit y (Z.of_nat b)) -> byte_at s p = y.
Proof. intros Hy H. apply byte_ext; [apply byte_at_ok|done|]. intros b Hb. rewrite byte_at_bit by done. by apply H. Qed.

Lemma slice_fmap f s b : length s = 8%nat -> (b < 8)%nat -> slice (f <$> s) b = f (slice s b).
Proof.
  intros Hl Hb. unfold slice. destruct (lookup_lt_is_Some_2 s b) as [x E]; [lia|]. rewrite (nth_lookup_Some s b 0 x E).
  apply nth_lookup_Some. by rewrite list_lookup_fmap, E.
Qed.

Lemma slice_zip (f : Z -> Z -> Z) s t b : length s = 8%nat -> length t = 8%nat -> (b < 8)%nat -> slice (zip_with f s t) b = f (slice s b) (slice t b).
Proof.
  intros Hs Ht Hb. unfold slice. destruct (lookup_lt_is_Some_2 s b) as [x E]; [lia|]. destruct (lookup_lt_is_Some_2 t b) as [y E']; [lia|].
  rewrite (nth_lookup_Some s b 0 x E), (nth_lookup_Some t b 0 y E'). apply nth_lookup_Some. by rewrite lookup_zip_with, E; cbn; rewrite E'.
Qed.

(** A step that acts on all slices alike and moves bits moves bytes. *)
Lemma byte_at_fmap f s p q : length s = 8%nat -> (forall x, Z.testbit (f x) p = Z.testbit x q) -> byte_at (f <$> s) p = byte_at s q.
Proof. intros Hl H. apply byte_at_eq; [apply byte_at_ok|]. intros b Hb. by rewrite slice_fmap, byte_at_bit. Qed.

Lemma byte_at_fmap_xor f s p q : length s = 8%nat -> (forall x, Z.testbit (f x) p = Z.testbit x q) ->
  byte_at ((fun x => x .^ f x) <$> s) p = byte_at s p .^ byte_at s q.
Proof.
  intros Hl H. apply byte_at_eq; [apply lxor_ok; auto with aes; lia|]. intros b Hb. rewrite slice_fmap, !Z.lxor_spec, !byte_at_bit by done. f_equal. apply H.
Qed.

Lemma byte_at_add s t p : length s = 8%nat -> length t = 8%nat -> byte_at (BITSLICED_ADD s t) p = byte_at s p .^ byte_at t p.
Proof.
  intros Hs Ht. apply byte_at_eq; [apply lxor_ok; auto with aes; lia|]. intros b Hb. unfold BITSLICED_ADD.
  by rewrite slice_zip, !Z.lxor_spec, !byte_at_bit.
Qed.

(** *** The S-box circuits *)

(** A map that respects the two operations can be applied gate by gate. *)
Section Gates.
Context {A B : Type} (h : A -> B) (xorA andA : A -> A -> A) (xorB andB : B -> B -> B).
Context (h_xor : forall x y, h (xorA x y) = xorB (h x) (h y)) (h_and : forall x y, h (andA x y) = andB (h x) (h y)).

Lemma gate_step (F : A -> list A) (G : B -> list B) a b : h a = b -> (forall x y, h x = y -> h <$> F x = G y) -> h <$> F a = G b.
Proof using Type. auto. Qed.

Ltac gate :=
  match goal with |- (_ <$> (let x := ?a in @?F x)) = (let y := ?b in @?G y) =>
    refine (gate_step F G a b _ _); cbv beta; [first [rewrite h_xor; f_equal | rewrite h_and; f_equal | idtac]; first [assumption | reflexivity]|];
    let x := fresh "x" in let y := fresh "y" in let H := fresh "H" in intros x y H end.

Lemma subbytes_gates input :
  h <$> BITSLICED_SUBBYTES xorA andA input = BITSLICED_SUBBYTES xorB andB (h ∘ input).
Proof using h_xor h_and.
  cbv beta delta [BITSLICED_SUBBYTES SBOX_FORWARD_TOP_TRANSFORM SBOX_CORE SBOX_FORWARD_BOTTOM_TRANSFORM compose]. repeat gate.
  cbn. by repeat first [assumption | apply (f_equal2 cons)].
Qed.

Lemma invsubbytes_gates input :
  h <$> BITSLICED_INVSUBBYTES xorA andA input = BITSLICED_INVSUBBYTES xorB andB (h ∘ input).
Proof using h_xor h_and.
  cbv beta delta [BITSLICED_INVSUBBYTES SBOX_BACKWARD_TOP_TRANSFORM SBOX_CORE SBOX_BACKWARD_BOTTOM_TRANSFORM compose]. repeat gate.
  cbn. by repeat first [assumption | apply (f_equal2 cons)].
Qed.
End Gates.

(** The S-box without its constant, and its inverse, on bits. *)
Definition bits_of (x : Z) : list bool := (fun b => Z.testbit x (Z.of_nat b)) <$> seq 0 8.

Lemma sbox_circuits x : byte_ok x ->
  (byte_of (BITSLICED_SUBBYTES xorb andb (fun b => Z.testbit x (Z.of_nat b))) =? sub_byte x .^ 0x63)
  && (byte_of (BITSLICED_INVSUBBYTES xorb andb (fun b => Z.testbit (x .^ 0x63) (Z.of_nat b))) =? inv_sub_byte x) = true.
Proof. revert x. apply all_bytes. vm_compute. reflexivity. Qed.

Lemma subbytes_ext {A} (xor and : A -> A -> A) f g : (forall b, (b < 8)%nat -> f b = g b) ->
  BITSLICED_SUBBYTES xor and f = BITSLICED_SUBBYTES xor and g /\ BITSLICED_INVSUBBYTES xor and f = BITSLICED_INVSUBBYTES xor and g.
Proof.
  intros H. cbv beta delta [BITSLICED_SUBBYTES SBOX_FORWARD_TOP_TRANSFORM BITSLICED_INVSUBBYTES SBOX_BACKWARD_TOP_TRANSFORM].
  rewrite !(H 0%nat), !(H 1%nat), !(H 2%nat), !(H 3%nat), !(H 4%nat), !(H 5%nat), !(H 6%nat), !(H 7%nat) by lia. split; reflexivity.
Qed.

Lemma bits_at_fmap l p : length l = 8%nat -> bits_at l p = (fun x => Z.testbit x p) <$> l.
Proof. intros H. destruct l as [|? [|? [|? [|? [|? [|? [|? [|? []]]]]]]]]; done. Qed.

Lemma length_subbytes {A} (xor and : A -> A -> A) f :
  length (BITSLICED_SUBBYTES xor and f) = 8%nat /\ length (BITSLICED_INVSUBBYTES xor and f) = 8%nat.
Proof. split; reflexivity. Qed.

Lemma byte_at_subbytes s p : byte_at (BITSLICED_SUBBYTES Z.lxor Z.land (slice s)) p = sub_byte (byte_at s p) .^ 0x63.
Proof.
  unfold byte_at at 1. rewrite bits_at_fmap by apply (length_subbytes Z.lxor Z.land (slice s)).
  rewrite (subbytes_gates _ _ _ xorb andb) by (intros; apply Z.lxor_spec || apply Z.land_spec).
  edestruct (subbytes_ext xorb andb) as [-> _]; [intros b Hb; symmetry; exact (byte_at_bit s p b Hb)|].
  pose proof (sbox_circuits _ (byte_at_ok s p)). bsimpl. lia.
Qed.

Lemma byte_at_invsubbytes s p : byte_at (BITSLICED_INVSUBBYTES Z.lxor Z.land (slice s)) p = inv_sub_byte (byte_at s p .^ 0x63).
Proof.
  unfold byte_at at 1. rewrite bits_at_fmap by apply (length_subbytes Z.lxor Z.land (slice s)).
  rewrite (invsubbytes_gates _ _ _ xorb andb) by (intros; apply Z.lxor_spec || apply Z.land_spec).
  set (x := byte_at s p .^ 0x63). assert (byte_ok x) as Hx by (apply lxor_ok; auto with aes; unfold word_ok; lia).
  assert (byte_at s p = x .^ 0x63) as E by (subst x; xor_ring).
  edestruct (subbytes_ext xorb andb) as [_ ->]; [intros b Hb; symmetry; exact (byte_at_bit s p b Hb)|]. rewrite E.
  pose proof (sbox_circuits _ Hx). bsimpl. lia.
Qed.

(** ** Moving bits *)

(** A statement about the numbers below [n], by their enumeration. *)
Lemma all_below (n : nat) (P : Z -> bool) : forallb P (Z.of_nat <$> seq 0 n) = true -> forall p, 0 <= p < Z.of_nat n -> P p = true.
Proof.
  intros H p Hp. rewrite forallb_forall in H. apply H, list_elem_of_In, list_elem_of_fmap. exists (Z.to_nat p).
  rewrite Z2Nat.id by lia. split; [done|]. apply elem_of_seq. lia.
Qed.

(** Exchanging the bits under the mask [m] with those [sh] places above. *)
Lemma delta_swap_bit w x m sh p : 0 <= p < w -> 0 <= sh -> Z.testbit m p && Z.testbit m (p - sh) = false ->
  let diff := ((x >> sh) .^ x) .& m in
  Z.testbit (wrap w (x .^ (diff .^ (diff << sh)))) p = Z.testbit x (if Z.testbit m p then p + sh else if Z.testbit m (p - sh) then p - sh else p).
Proof.
  intros Hp Hsh Hm diff. unfold wrap. rewrite Z.mod_pow2_bits_low, !Z.lxor_spec, Z.shiftl_spec by lia. subst diff.
  rewrite !Z.land_spec, !Z.lxor_spec, Z.shiftr_spec by lia. destruct (Z.testbit m p) eqn:E; cbn [andb] in Hm.
  - rewrite Hm, andb_false_r, andb_true_r, xorb_false_r. ring.
  - destruct (Z.testbit m (p - sh)) eqn:E'; rewrite ?andb_false_r, ?andb_true_r, ?xorb_false_l, ?xorb_false_r; [|done].
    destruct (Z.lt_ge_cases (p - sh) 0); [by rewrite Z.testbit_neg_r in E'|]. rewrite Z.shiftr_spec by lia. replace (p - sh + sh) with p by lia. ring.
Qed.

Section Moves.
Context (w : Z) (Hw : w = 16 \/ w = 64).

(** What a mask tests, by enumeration of the positions. *)
Ltac mask_table p := match goal with Hp : 0 <= p < w |- _ = ?b =>
  apply eqb_prop; clear - Hw Hp; revert p Hp; destruct Hw as [-> | ->]; [apply (all_below 16 (fun p => Bool.eqb _ _)) | apply (all_below 64 (fun p => Bool.eqb _ _))];
  vm_compute; reflexivity end.

(** Where a bit comes from. *)
Definition y3_src (p : Z) : Z := 4 * (p / 4) + (p + 1) mod 4.
Definition y2_src (p : Z) : Z := 4 * (p / 4) + (p + 2) mod 4.
Definition half_src (p : Z) : Z := if p mod 4 <? 2 then p else if p mod 16 <? 8 then p + 8 else p - 8.
Definition shift_src (p : Z) : Z := 16 * (p / 16) + (p + 4 * (p mod 4)) mod 16.
Definition inv_shift_src (p : Z) : Z := 16 * (p / 16) + (p + 12 * (p mod 4)) mod 16.

Lemma y3_bit x p : 0 <= p < w -> Z.testbit (BITSLICED_MUL_BY_Y3 w x) p = Z.testbit x (y3_src p).
Proof using Hw.
  intros Hp. unfold BITSLICED_MUL_BY_Y3, wrap. rewrite Z.lxor_spec, !Z.land_spec, Z.mod_pow2_bits_low, Z.shiftl_spec, Z.shiftr_spec by lia.
  assert (Z.testbit (mask_of w 0x8 0xF) p = (p mod 4 =? 3)) as -> by mask_table p.
  assert (Z.testbit (mask_of w 0x7 0xF) p = (p mod 4 <? 3)) as -> by mask_table p. unfold y3_src.
  repeat bcase; rewrite ?andb_false_r, ?andb_true_r, ?xorb_false_l, ?xorb_false_r; try lia; f_equal; zdivmod.
Qed.

Lemma y2_bit x p : 0 <= p < w -> Z.testbit (BITSLICED_MUL_BY_Y2 w x) p = Z.testbit x (y2_src p).
Proof using Hw.
  intros Hp. unfold BITSLICED_MUL_BY_Y2, wrap. rewrite Z.lxor_spec, !Z.land_spec, Z.mod_pow2_bits_low, Z.shiftl_spec, Z.shiftr_spec by lia.
  assert (Z.testbit (mask_of w 0xC 0xF) p = (2 <=? p mod 4)) as -> by mask_table p.
  assert (Z.testbit (mask_of w 0x3 0xF) p = (p mod 4 <? 2)) as -> by mask_table p. unfold y2_src.
  repeat bcase; rewrite ?andb_false_r, ?andb_true_r, ?xorb_false_l, ?xorb_false_r; try lia; f_equal; zdivmod.
Qed.

(** Rows 2 and 3 turn by two columns. *)
Lemma half_bit x p : 0 <= p < w ->
  Z.testbit (let diff := ((x >> 8) .^ x) .& mask_of w 0x00CC 0xFFFF in wrap w (x .^ (diff .^ (diff << 8)))) p = Z.testbit x (half_src p).
Proof using Hw.
  intros Hp. assert (Z.testbit (mask_of w 0x00CC 0xFFFF) p = (2 <=? p mod 4) && (p mod 16 <? 8)) as E1 by mask_table p.
  assert (Z.testbit (mask_of w 0x00CC 0xFFFF) (p - 8) = (2 <=? p mod 4) && (8 <=? p mod 16)) as E2 by mask_table p.
  cbv zeta. rewrite delta_swap_bit; rewrite ?E1, ?E2; [|lia..|]; unfold half_src; repeat bcase; try lia; f_equal; zdivmod.
Qed.

Lemma shiftrows_bit x p : 0 <= p < w -> Z.testbit (SINGLE_BITSLICE_SHIFTROWS w x) p = Z.testbit x (shift_src p).
Proof using Hw.
  intros Hp. unfold SINGLE_BITSLICE_SHIFTROWS. cbv zeta. pose proof (half_bit x) as Hh. cbv zeta in Hh.
  revert Hh. generalize (wrap w (x .^ ((((x >> 8) .^ x) .& mask_of w 204 65535) .^ ((((x >> 8) .^ x) .& mask_of w 204 65535) << 8)))). intros y Hh.
  unfold wrap. rewrite !Z.lor_spec, !Z.land_spec, Z.mod_pow2_bits_low, Z.shiftl_spec, Z.shiftr_spec by lia.
  assert (Z.testbit (mask_of w 0x0AAA 0xFFFF) p = Z.odd p && (p mod 16 <? 12)) as -> by mask_table p.
  assert (Z.testbit (mask_of w 0xA000 0xFFFF) p = Z.odd p && (12 <=? p mod 16)) as -> by mask_table p.
  assert (Z.testbit (mask_of w 0x5555 0xFFFF) p = negb (Z.odd p)) as -> by mask_table p.
  rewrite Zodd_mod. repeat bcase; cbn [andb orb negb]; rewrite ?andb_false_r, ?andb_true_r, ?orb_false_l, ?orb_false_r; try lia;
    (rewrite Hh; [f_equal; unfold half_src, shift_src; repeat bcase; zdivmod | destruct Hw; subst w; zdivmod]).
Qed.

Lemma inv_shiftrows_bit x p : 0 <= p < w -> Z.testbit (SINGLE_BITSLICE_INVSHIFTROWS w x) p = Z.testbit x (inv_shift_src p).
Proof using Hw.
  intros Hp. unfold SINGLE_BITSLICE_INVSHIFTROWS. cbv zeta. pose proof (half_bit x) as Hh. cbv zeta in Hh.
  revert Hh. generalize (wrap w (x .^ ((((x >> 8) .^ x) .& mask_of w 204 65535) .^ ((((x >> 8) .^ x) .& mask_of w 204 65535) << 8)))). intros y Hh.
  unfold wrap. rewrite !Z.lor_spec, !Z.land_spec, Z.mod_pow2_bits_low, Z.shiftl_spec, Z.shiftr_spec by lia.
  assert (Z.testbit (mask_of w 0x000A 0xFFFF) p = Z.odd p && (p mod 16 <? 4)) as -> by mask_table p.
  assert (Z.testbit (mask_of w 0xAAA0 0xFFFF) p = Z.odd p && (4 <=? p mod 16)) as -> by mask_table p.
  assert (Z.testbit (mask_of w 0x5555 0xFFFF) p = negb (Z.odd p)) as -> by mask_table p.
  rewrite Zodd_mod. repeat bcase; cbn [andb orb negb]; rewrite ?andb_false_r, ?andb_true_r, ?orb_false_l, ?orb_false_r; try lia;
    (rewrite Hh; [f_equal; unfold half_src, inv_shift_src; repeat bcase; zdivmod | destruct Hw; subst w; zdivmod]).
Qed.
End Moves.

(** *** Into slices and back *)

Lemma GET_64BIT_LSB_bit l q : bytes_ok l -> (8 <= length l)%nat -> 0 <= q < 64 -> Z.testbit (GET_64BIT_LSB_FIRST l) q = Z.testbit (nth (Z.to_nat (q / 8)) l 0) (q mod 8).
Proof.
  intros Hl Hn Hq. destruct l as [|a0 [|a1 [|a2 [|a3 [|a4 [|a5 [|a6 [|a7 l']]]]]]]]; try (cbn in Hn; lia).
  repeat match goal with H : Forall _ (_ :: _) |- _ => apply Forall_cons in H as [? H] end.
  unfold GET_64BIT_LSB_FIRST. cbn [nth]. rewrite !Z.lor_spec, !Z.shiftl_spec by lia.
  assert (forall a k, byte_ok a -> q / 8 <> k -> Z.testbit a (q - 8 * k) = false) as Hz.
  { intros a k Ha Hk. destruct (Z.lt_ge_cases (q - 8 * k) 0); [by apply Z.testbit_neg_r|]. apply (testbit_high 8); [done|]. zdivmod. }
  assert (forall k, q / 8 = k -> q - 8 * k = q mod 8) as He by (intros k <-; zdivmod).
  replace (Z.testbit a0 q) with (Z.testbit a0 (q - 8 * 0)) by (f_equal; lia).
  change 8 with (8 * 1) at 2. change 16 with (8 * 2). change 24 with (8 * 3). change 32 with (8 * 4). change 40 with (8 * 5). change 48 with (8 * 6). change 56 with (8 * 7).
  assert (q / 8 = 0 \/ q / 8 = 1 \/ q / 8 = 2 \/ q / 8 = 3 \/ q / 8 = 4 \/ q / 8 = 5 \/ q / 8 = 6 \/ q / 8 = 7) as Hc by zdivmod.
  destruct Hc as [E|[E|[E|[E|[E|[E|[E|E]]]]]]]; rewrite E; cbn [Z.to_nat nth Pos.to_nat Pos.iter_op Nat.add];
    rewrite ?(He _ E), !Hz by (done || lia); rewrite ?orb_false_l, ?orb_false_r; reflexivity.
Qed.

Lemma PUT_64BIT_LSB_bit v k j : (k < 8)%nat -> (j < 8)%nat -> Z.testbit (nth k (PUT_64BIT_LSB_FIRST v) 0) (Z.of_nat j) = Z.testbit v (Z.of_nat (8 * k + j)).
Proof.
  intros Hk Hj. unfold PUT_64BIT_LSB_FIRST, wrap.
  do 8 (destruct k as [|k]; [cbn [nth]; rewrite Z.mod_pow2_bits_low, ?Z.shiftr_spec by lia; f_equal; lia|]). lia.
Qed.

(** The mask of an exchange within a word, and where the bits of the result come from. *)
Definition swapin_mask (bigshift smallshift : Z) : Z := u64 (((2 ^ 64 - 1) / ((1 << bigshift) + 1) / ((1 << smallshift) + 1)) << smallshift).
Definition swapin_src (bigshift smallshift q : Z) : Z :=
  let m := swapin_mask bigshift smallshift in let sh := bigshift - smallshift in
  if Z.testbit m q then q + sh else if Z.testbit m (q - sh) then q - sh else q.
Definition swap_shifts (bs ss : Z) : Prop := bs = 8 /\ ss = 1 \/ bs = 16 /\ ss = 2 \/ bs = 32 /\ ss = 4.

Lemma swapin_bit bs ss i q : swap_shifts bs ss -> 0 <= q < 64 ->
  Z.testbit (SWAPINWORD bs ss i) q = Z.testbit i (swapin_src bs ss q) /\ 0 <= swapin_src bs ss q < 64.
Proof.
  intros Hs Hq.
  assert (negb (Z.testbit (swapin_mask bs ss) q && Z.testbit (swapin_mask bs ss) (q - (bs - ss))) && (0 <=? swapin_src bs ss q) && (swapin_src bs ss q <? 64) = true) as H.
  { revert q Hq. destruct Hs as [[-> ->]|[[-> ->]|[-> ->]]]; (refine (all_below 64 (fun q => _) _); vm_compute; reflexivity). }
  bsimpl. split; [|lia]. unfold SWAPINWORD. cbv zeta. fold (swapin_mask bs ss). unfold swapin_src. cbv zeta.
  apply (delta_swap_bit 64); [lia|destruct Hs as [[-> ->]|[[-> ->]|[-> ->]]]; lia|done].
Qed.

Definition swapwords_mask : Z := (2 ^ 64 - 1) / ((1 << 8) + 1).
(** From which of the two words, and from which of its bits. *)
Definition swapwords_src (word : bool) (q : Z) : bool * Z :=
  if word then if Z.testbit swapwords_mask q then (false, q + 8) else (true, q)
  else if Z.testbit swapwords_mask (q - 8) then (true, q - 8) else (false, q).

Definition pick {A} (p : A * A) (word : bool) : A := if word then p.2 else p.1.

Lemma swapwords_bit i0 i1 word q : 0 <= q < 64 ->
  Z.testbit (pick (SWAPWORDS 8 i0 i1) word) q = Z.testbit (pick (i0, i1) (swapwords_src word q).1) (swapwords_src word q).2 /\ 0 <= (swapwords_src word q).2 < 64.
Proof.
  intros Hq. split.
  - unfold SWAPWORDS, swapwords_src, pick. cbv zeta. fold swapwords_mask. destruct word; cbn [fst snd].
    + rewrite Z.lxor_spec, Z.land_spec, Z.lxor_spec, Z.shiftr_spec by lia. destruct (Z.testbit swapwords_mask q); cbn [fst snd]; rewrite ?andb_true_r, ?andb_false_r; ring.
    + unfold wrap. rewrite Z.mod_pow2_bits_low, Z.lxor_spec, Z.shiftl_spec by lia.
      destruct (Z.testbit swapwords_mask (q - 8)) eqn:E; cbn [fst snd]; rewrite Z.land_spec, E, ?andb_true_r, ?andb_false_r, ?xorb_false_r; [|done].
      destruct (Z.lt_ge_cases (q - 8) 0); [by rewrite Z.testbit_neg_r in E|]. rewrite Z.lxor_spec, Z.shiftr_spec by lia. replace (q - 8 + 8) with q by lia. ring.
  - assert ((0 <=? (swapwords_src word q).2) && ((swapwords_src word q).2 <? 64) = true); [|bsimpl; lia].
    revert q Hq. destruct word; (refine (all_below 64 (fun q => _) _); vm_compute; reflexivity).
Qed.

Definition word_of (b : nat) : bool := Nat.odd b.
Definition place_of (b : nat) (p : Z) : Z := 16 * Z.of_nat (b / 2) + p.

(** Where bit [p] of slice [b] comes from: from bit [b] of byte [p]. *)
Definition to_src (b : nat) (p : Z) : bool * Z :=
  let '(word, q) := swapwords_src (word_of b) (place_of b p) in (word, swapin_src 8 1 (swapin_src 16 2 (swapin_src 32 4 q))).

Lemma to_src_spec b p : (b < 8)%nat -> 0 <= p < 16 -> to_src b p = (8 <=? p, 8 * (p mod 8) + Z.of_nat b).
Proof.
  intros Hb Hp. assert (bool_decide (to_src b p = (8 <=? p, 8 * (p mod 8) + Z.of_nat b)) = true); [|by apply bool_decide_eq_true in H].
  revert p Hp. do 8 (destruct b as [|b]; [refine (all_below 16 (fun q => _) _); vm_compute; reflexivity|]). lia.
Qed.

Lemma three_swaps_bit i q : 0 <= q < 64 -> let src := swapin_src 8 1 (swapin_src 16 2 (swapin_src 32 4 q)) in
  Z.testbit (SWAPINWORD 32 4 (SWAPINWORD 16 2 (SWAPINWORD 8 1 i))) q = Z.testbit i src /\ 0 <= src < 64.
Proof.
  intros Hq src. subst src. destruct (swapin_bit 32 4 (SWAPINWORD 16 2 (SWAPINWORD 8 1 i)) q) as [-> H1]; [unfold swap_shifts; lia|done|].
  destruct (swapin_bit 16 2 (SWAPINWORD 8 1 i) _ ltac:(unfold swap_shifts; lia) H1) as [-> H2]. exact (swapin_bit 8 1 i _ ltac:(unfold swap_shifts; lia) H2).
Qed.

Lemma three_swaps_back_bit i q : 0 <= q < 64 -> let src := swapin_src 32 4 (swapin_src 16 2 (swapin_src 8 1 q)) in
  Z.testbit (SWAPINWORD 8 1 (SWAPINWORD 16 2 (SWAPINWORD 32 4 i))) q = Z.testbit i src /\ 0 <= src < 64.
Proof.
  intros Hq src. subst src. destruct (swapin_bit 8 1 (SWAPINWORD 16 2 (SWAPINWORD 32 4 i)) q) as [-> H1]; [unfold swap_shifts; lia|done|].
  destruct (swapin_bit 16 2 (SWAPINWORD 32 4 i) _ ltac:(unfold swap_shifts; lia) H1) as [-> H2]. exact (swapin_bit 32 4 i _ ltac:(unfold swap_shifts; lia) H2).
Qed.

(** A field of a word, placed in a slice. *)
Lemma field_bit w i n sh p : 0 <= p < w -> 0 <= sh -> 0 <= n ->
  Z.testbit (wrap w (((i >> n) .& 0xFFFF) << sh)) p = (sh <=? p) && (p <? sh + 16) && Z.testbit i (n + (p - sh)).
Proof.
  intros Hp Hsh Hn. unfold wrap. rewrite Z.mod_pow2_bits_low, Z.shiftl_spec by lia. destruct (Z.leb_spec sh p); [|by rewrite Z.testbit_neg_r by lia].
  change 0xFFFF with (Z.ones 16). rewrite Z.land_spec, Z.shiftr_spec, Z.testbit_ones_nonneg, andb_comm by lia. cbn [andb].
  rewrite Z.add_comm. f_equal. apply eq_true_iff_eq. rewrite !Z.ltb_lt. lia.
Qed.

Lemma place_of_range b p : (b < 8)%nat -> 0 <= p < 16 -> 0 <= place_of b p < 64.
Proof. intros Hb Hp. unfold place_of. pose proof (Nat.Div0.div_lt_upper_bound b 2 4). lia. Qed.

Lemma to_bits w bytes sh b p : bytes_ok bytes -> (16 <= length bytes)%nat -> (b < 8)%nat -> 0 <= p < w -> 0 <= sh ->
  Z.testbit (slice (TO_BITSLICES w bytes sh) b) p = (sh <=? p) && (p <? sh + 16) && Z.testbit (nth (Z.to_nat (p - sh)) bytes 0) (Z.of_nat b).
Proof.
  intros Hok Hl Hb Hp Hsh. unfold TO_BITSLICES. cbv zeta.
  set (i0 := SWAPINWORD 32 4 (SWAPINWORD 16 2 (SWAPINWORD 8 1 (GET_64BIT_LSB_FIRST bytes)))).
  set (i1 := SWAPINWORD 32 4 (SWAPINWORD 16 2 (SWAPINWORD 8 1 (GET_64BIT_LSB_FIRST (drop 8 bytes))))).
  transitivity ((sh <=? p) && (p <? sh + 16) && Z.testbit (pick (SWAPWORDS 8 i0 i1) (word_of b)) (place_of b (p - sh))).
  { clearbody i0 i1. destruct (SWAPWORDS 8 i0 i1) as [j0 j1]. do 8 (destruct b as [|b]; [cbn [slice nth]; rewrite field_bit by lia; reflexivity|]). lia. }
  destruct (Z.leb_spec sh p); [|done]. destruct (Z.ltb_spec p (sh + 16)); [|done]. cbn [andb]. pose proof (to_src_spec b (p - sh) Hb ltac:(lia)) as Hsrc.
  destruct (swapwords_bit i0 i1 (word_of b) _ (place_of_range b (p - sh) Hb ltac:(lia))) as [-> Hq].
  unfold to_src in Hsrc. destruct (swapwords_src (word_of b) (place_of b (p - sh))) as [word q]. cbn [fst snd] in *. set (c := p - sh) in *.
  injection Hsrc as Hword Hc. transitivity (Z.testbit (GET_64BIT_LSB_FIRST (if word then drop 8 bytes else bytes)) (8 * (c mod 8) + Z.of_nat b)).
  { rewrite <- Hc. subst i0 i1. destruct word; by apply three_swaps_bit. }
  rewrite Hword. destruct (Z.leb_spec 8 c).
  - rewrite GET_64BIT_LSB_bit by (try apply Forall_drop; try rewrite length_drop; first [done | lia | zdivmod]).
    rewrite nth_skipn. f_equal; [f_equal|]; zdivmod.
  - rewrite GET_64BIT_LSB_bit by (first [done | lia | zdivmod]). f_equal; [f_equal|]; zdivmod.
Qed.

(** Where bit [j] of byte [c] of the result comes from: from bit [c] of slice [j]. *)
Definition from_src (c : Z) (j : nat) : bool * Z :=
  swapwords_src (8 <=? c) (swapin_src 32 4 (swapin_src 16 2 (swapin_src 8 1 (8 * (c mod 8) + Z.of_nat j)))).

Lemma from_src_spec c j : (j < 8)%nat -> 0 <= c < 16 -> from_src c j = (word_of j, place_of j c).
Proof.
  intros Hj Hc. assert (bool_decide (from_src c j = (word_of j, place_of j c)) = true); [|by apply bool_decide_eq_true in H].
  revert c Hc. do 8 (destruct j as [|j]; [refine (all_below 16 (fun q => _) _); vm_compute; reflexivity|]). lia.
Qed.

(** Four fields of sixteen bits in a word. *)
Lemma fields_bit a b c d q : word_ok 16 a -> word_ok 16 b -> word_ok 16 c -> word_ok 16 d -> 0 <= q < 64 ->
  Z.testbit (((a << 16 .| b) << 16 .| c) << 16 .| d) q = Z.testbit (nth (Z.to_nat (q / 16)) [d; c; b; a] 0) (q mod 16).
Proof.
  intros Ha Hb Hc Hd Hq.
  assert (forall x y k, word_ok 16 y -> 0 <= k -> Z.testbit (x << 16 .| y) k = if k <? 16 then Z.testbit y k else Z.testbit x (k - 16)) as Hs.
  { intros x y k Hy Hk. rewrite Z.lor_spec, Z.shiftl_spec by lia. destruct (Z.ltb_spec k 16).
    - by rewrite (Z.testbit_neg_r x) by lia.
    - by rewrite (testbit_high 16 y), orb_false_r by (done || lia). }
  assert (q / 16 = 0 \/ q / 16 = 1 \/ q / 16 = 2 \/ q / 16 = 3) as Hk by zdivmod.
  destruct Hk as [E|[E|[E|E]]]; rewrite E; cbn [Z.to_nat nth Pos.to_nat Pos.iter_op Nat.add].
  - rewrite Hs by (done || lia). destruct (Z.ltb_spec q 16); [f_equal; zdivmod|exfalso; zdivmod].
  - rewrite !Hs by (done || zdivmod). destruct (Z.ltb_spec q 16); [exfalso; zdivmod|]. destruct (Z.ltb_spec (q - 16) 16); [f_equal; zdivmod|exfalso; zdivmod].
  - rewrite !Hs by (done || zdivmod). destruct (Z.ltb_spec q 16); [exfalso; zdivmod|]. destruct (Z.ltb_spec (q - 16) 16); [exfalso; zdivmod|].
    destruct (Z.ltb_spec (q - 16 - 16) 16); [f_equal; zdivmod|exfalso; zdivmod].
  - rewrite !Hs by (done || zdivmod). destruct (Z.ltb_spec q 16); [exfalso; zdivmod|]. destruct (Z.ltb_spec (q - 16) 16); [exfalso; zdivmod|].
    destruct (Z.ltb_spec (q - 16 - 16) 16); [exfalso; zdivmod|f_equal; zdivmod].
Qed.

Lemma from_bits s sh c j : (c < 16)%nat -> (j < 8)%nat -> 0 <= sh ->
  Z.testbit (nth c (FROM_BITSLICES s sh) 0) (Z.of_nat j) = Z.testbit (slice s j) (sh + Z.of_nat c).
Proof.
  intros Hc Hj Hsh. set (field i := (slice s i >> sh) .& 0xFFFF).
  assert (forall i, word_ok 16 (field i)) as Hf by (intros i; unfold field; rewrite (land_mask _ 16) by lia; by apply wrap_ok).
  assert (forall i k, 0 <= k < 16 -> Z.testbit (field i) k = Z.testbit (slice s i) (sh + k)) as Hfb.
  { intros i k Hk. unfold field. rewrite (land_mask _ 16), Z.mod_pow2_bits_low, Z.shiftr_spec by lia. f_equal. lia. }
  set (i1 := ((field 7%nat << 16 .| field 5%nat) << 16 .| field 3%nat) << 16 .| field 1%nat).
  set (i0 := ((field 6%nat << 16 .| field 4%nat) << 16 .| field 2%nat) << 16 .| field 0%nat).
  change (FROM_BITSLICES s sh) with (let '(j0, j1) := SWAPWORDS 8 i0 i1 in
    PUT_64BIT_LSB_FIRST (SWAPINWORD 8 1 (SWAPINWORD 16 2 (SWAPINWORD 32 4 j0))) ++ PUT_64BIT_LSB_FIRST (SWAPINWORD 8 1 (SWAPINWORD 16 2 (SWAPINWORD 32 4 j1)))).
  assert (Z.testbit (pick (i0, i1) (word_of j)) (place_of j (Z.of_nat c)) = Z.testbit (slice s j) (sh + Z.of_nat c)) as <-.
  { assert (place_of j (Z.of_nat c) / 16 = Z.of_nat (j / 2) /\ place_of j (Z.of_nat c) mod 16 = Z.of_nat c) as [E1 E2] by (unfold place_of; zdivmod).
    rewrite <- Hfb by lia. pose proof (place_of_range j (Z.of_nat c) Hj ltac:(lia)). unfold pick. subst i0 i1.
    do 8 (destruct j as [|j]; [cbn [word_of Nat.odd Nat.even negb fst snd]; rewrite fields_bit by (done || lia); rewrite E1, E2; reflexivity|]). lia. }
  clearbody i0 i1. clear Hf Hfb. pose proof (from_src_spec (Z.of_nat c) j Hj ltac:(lia)) as Hsrc. unfold from_src in Hsrc.
  assert (0 <= 8 * (Z.of_nat c mod 8) + Z.of_nat j < 64) as Hq by zdivmod.
  destruct (three_swaps_back_bit 0 _ Hq) as [_ Hq']. destruct (swapwords_bit i0 i1 (8 <=? Z.of_nat c) _ Hq') as [Hs _]. rewrite Hsrc in Hs. cbn [fst snd] in Hs. rewrite <- Hs.
  destruct (SWAPWORDS 8 i0 i1) as [j0 j1]. destruct (Z.leb_spec 8 (Z.of_nat c)); cbn [pick fst snd].
  - rewrite app_nth2 by (cbn; lia). rewrite PUT_64BIT_LSB_bit by (cbn; lia).
    destruct (three_swaps_back_bit j1 _ Hq) as [<- _]. f_equal. cbn [length PUT_64BIT_LSB_FIRST]. zdivmod.
  - rewrite app_nth1 by (cbn; lia). rewrite PUT_64BIT_LSB_bit by (cbn; lia). destruct (three_swaps_back_bit j0 _ Hq) as [<- _]. f_equal. zdivmod.
Qed.
