(* ===== verification/SshAesRounds.v ===== *)
(** * AES in bit slices (sshaes.c): every round is one of FIPS 197

    [view s i] is block [i] of the slices [s].  The rounds are compared with
    those of FIPS 197, and the ciphers with the ciphers on each of the blocks. *)

From S2P Require Import Prelude SshCrypto SshMd5 Fips197 SshAesSlice.
Open Scope Z_scope.
Open Scope word_scope.

(** *** Several blocks *)

Lemma length_to w bytes sh : length (TO_BITSLICES w bytes sh) = 8%nat.
Proof. unfold TO_BITSLICES. cbv zeta. by destruct (SWAPWORDS _ _ _). Qed.

Lemma length_from s sh : length (FROM_BITSLICES s sh) = 16%nat.
Proof. unfold FROM_BITSLICES. cbv zeta. by destruct (SWAPWORDS _ _ _). Qed.

(** What [FROM_BITSLICES] returns. *)
Definition view (s : list Z) (i : nat) : list Z := state_of (fun p => byte_at s (16 * Z.of_nat i + Z.of_nat p)).

Lemma from_ok s sh : bytes_ok (FROM_BITSLICES s sh).
Proof.
  unfold FROM_BITSLICES. cbv zeta. destruct (SWAPWORDS _ _ _). apply Forall_app; split; unfold PUT_64BIT_LSB_FIRST;
    repeat (apply Forall_cons_2; [apply wrap_ok; lia|]); apply Forall_nil_2.
Qed.

Lemma from_view s i : FROM_BITSLICES s (Z.of_nat i * 16) = view s i.
Proof.
  rewrite <- (state_of_at (FROM_BITSLICES s (Z.of_nat i * 16))) by apply length_from. apply state_of_ext. intros c Hc.
  apply byte_ext; [apply at_ok, from_ok|apply byte_at_ok|]. intros j Hj. unfold at_. rewrite from_bits, byte_at_bit by lia. f_equal. lia.
Qed.

Lemma slices_bits w bytes n b p : bytes_ok bytes -> length bytes = (16 * n)%nat -> 16 * Z.of_nat n <= w -> (0 < n)%nat -> (b < 8)%nat -> 0 <= p < w ->
  forall k, (k < n)%nat ->
  let s := foldl (fun state i => zip_with Z.lor state (TO_BITSLICES w (drop (16 * i) bytes) (Z.of_nat i * 16))) (TO_BITSLICES w bytes 0) (seq 1 k) in
  length s = 8%nat /\ Z.testbit (slice s b) p = (p <? 16 * Z.of_nat (S k)) && Z.testbit (nth (Z.to_nat p) bytes 0) (Z.of_nat b).
Proof.
  intros Hok Hl Hw Hn Hb Hp. induction k as [|k IH]; intros Hk s; subst s.
  - split; [apply length_to|]. cbn [seq foldl]. rewrite to_bits by (done || lia). destruct (Z.leb_spec 0 p); [|lia]. cbn [andb]. by rewrite Z.sub_0_r.
  - rewrite seq_S, foldl_app. cbn [foldl]. destruct (IH ltac:(lia)) as [Hls Hbit].
    set (s := foldl _ _ (seq 1 k)) in *. clearbody s. split; [rewrite length_zip_with, length_to; lia|].
    rewrite slice_zip, Z.lor_spec, Hbit, to_bits by (try apply Forall_drop; try rewrite length_drop; try apply length_to; done || lia).
    rewrite nth_skipn. replace (16 * (1 + k) + Z.to_nat (p - Z.of_nat (1 + k) * 16))%nat with (if p <? Z.of_nat (1 + k) * 16 then (16 * (1 + k))%nat else Z.to_nat p) by (bcase; lia).
    repeat bcase; cbn [andb orb]; rewrite ?orb_false_r; try done; lia.
Qed.

Lemma length_slices w bytes n : (0 < n)%nat -> length (slices_of_blocks w n bytes) = 8%nat.
Proof.
  intros Hn. unfold slices_of_blocks. generalize (seq 1 (n - 1)). intros l. set (s := TO_BITSLICES w bytes 0). assert (length s = 8%nat) as Hs by apply length_to.
  clearbody s. revert s Hs. induction l as [|i l IH]; intros s Hs; [done|]. cbn [foldl]. apply IH. rewrite length_zip_with, length_to. lia.
Qed.

(** The bytes of the blocks are those of the slices, *)
Lemma view_slices w bytes n i : bytes_ok bytes -> length bytes = (16 * n)%nat -> 16 * Z.of_nat n <= w -> (i < n)%nat ->
  view (slices_of_blocks w n bytes) i = take 16 (drop (16 * i) bytes).
Proof.
  intros Hok Hl Hw Hi. assert (length (take 16 (drop (16 * i) bytes)) = 16%nat) as Hl' by (rewrite length_take, length_drop; lia).
  rewrite <- (state_of_at _ Hl'). apply state_of_ext. intros p Hp. apply byte_at_eq; [by apply at_ok, Forall_take, Forall_drop|]. intros b Hb.
  destruct (slices_bits w bytes n b (16 * Z.of_nat i + Z.of_nat p) Hok Hl Hw ltac:(lia) Hb ltac:(lia) (n - 1) ltac:(lia)) as [_ E].
  unfold slices_of_blocks. rewrite E. destruct (Z.ltb_spec (16 * Z.of_nat i + Z.of_nat p) (16 * Z.of_nat (S (n - 1)))); [|lia]. cbn [andb]. f_equal.
  unfold at_. rewrite nth_firstn. destruct (Nat.ltb_spec p 16); [|lia]. rewrite nth_skipn. f_equal. lia.
Qed.

(** and back. *)
Lemma blocks_view n s : blocks_of_slices n s = concat (view s <$> seq 0 n).
Proof. unfold blocks_of_slices. f_equal. apply list_fmap_ext. intros i x _. apply from_view. Qed.

(** ** Every step is one of FIPS 197 *)

(** The constant of the S-box, which the code leaves out of it. *)
Definition xor63 (s : list Z) : list Z := (fun b => b .^ 0x63) <$> s.

Lemma at_fmap f s p : length s = 16%nat -> (p < 16)%nat -> at_ (f <$> s) p = f (at_ s p).
Proof.
  intros Hl Hp. unfold at_. destruct (lookup_lt_is_Some_2 s p) as [x E]; [lia|]. rewrite (nth_lookup_Some s p 0 x E).
  apply nth_lookup_Some. by rewrite list_lookup_fmap, E.
Qed.

Lemma xor63_twice s : xor63 (xor63 s) = s.
Proof.
  unfold xor63. rewrite <- list_fmap_compose. rewrite <- (list_fmap_id s) at 2. apply list_fmap_ext. intros i x _. unfold compose, id. xor_ring.
Qed.

Lemma xor63_xor s k : length s = length k -> xor_bytes (xor63 s) (xor63 k) = xor_bytes s k.
Proof.
  revert k. induction s as [|x s IH]; intros [|y k] H; try done. cbn. f_equal; [xor_ring|]. apply IH. cbn in H. lia.
Qed.

Lemma xor63_xor_l s k : xor_bytes s (xor63 k) = xor63 (xor_bytes s k).
Proof. revert k. induction s as [|x s IH]; intros [|y k]; try done. cbn. f_equal; [xor_ring|]. apply IH. Qed.

Lemma xor63_shift s : length s = 16%nat -> shift_rows (xor63 s) = xor63 (shift_rows s).
Proof.
  intros Hl. unfold shift_rows, xor63 at 2. rewrite fmap_state_of. apply state_of_ext. intros p Hp. by apply at_fmap, cell_lt.
Qed.

Lemma xor63_mix s : length s = 16%nat -> mix_columns (xor63 s) = xor63 (mix_columns s).
Proof.
  intros Hl. unfold mix_columns, xor63 at 5. rewrite fmap_state_of. apply state_of_ext. intros p Hp. unfold xor63, compose. rewrite !at_fmap by (done || apply cell_lt).
  match goal with |- gmul (?a .^ ?k) 2 .^ gmul (?b .^ ?k) 3 .^ _ .^ _ = _ =>
    destruct (gmul_consts (a .^ k)) as (->&_), (gmul_consts (b .^ k)) as (_&->&_), (gmul_consts a) as (->&_), (gmul_consts b) as (_&->&_) end.
  rewrite !xtime_xor. xor_ring.
Qed.

Lemma xor63_inv_mix s : length s = 16%nat -> inv_mix_columns (xor63 s) = xor63 (inv_mix_columns s).
Proof.
  intros Hl. unfold inv_mix_columns, xor63 at 5. rewrite fmap_state_of. apply state_of_ext. intros p Hp. unfold xor63, compose. rewrite !at_fmap by (done || apply cell_lt).
  match goal with |- gmul (?a .^ ?k) 14 .^ gmul (?b .^ ?k) 11 .^ gmul (?c .^ ?k) 13 .^ gmul (?d .^ ?k) 9 = _ =>
    destruct (gmul_consts (a .^ k)) as (_&_&_&_&_&->), (gmul_consts (b .^ k)) as (_&_&_&->&_), (gmul_consts (c .^ k)) as (_&_&_&_&->&_), (gmul_consts (d .^ k)) as (_&_&->&_),
      (gmul_consts a) as (_&_&_&_&_&->), (gmul_consts b) as (_&_&_&->&_), (gmul_consts c) as (_&_&_&_&->&_), (gmul_consts d) as (_&_&->&_) end.
  rewrite !xtime_xor. xor_ring.
Qed.

Lemma inv_sub_shift s : length s = 16%nat -> inv_sub_bytes (inv_shift_rows s) = inv_shift_rows (inv_sub_bytes s).
Proof.
  intros Hl. unfold inv_sub_bytes, inv_shift_rows. rewrite fmap_state_of. apply state_of_ext. intros p Hp. unfold compose. by rewrite at_fmap by (done || apply cell_lt).
Qed.

Section Rounds.
Context (w : Z) (Hw : w = 16 \/ w = 64).

(** Block [i] is one of those in words of [w] bits. *)
Definition in_words (i : nat) : Prop := 16 * (Z.of_nat i + 1) <= w.

(** Only the bit positions matter: [src] takes those of block [i] to those of block [i]. *)
Lemma view_moved (s s' : list Z) i (src : Z -> Z) (f : nat -> nat) :
  (forall p, 0 <= p < w -> byte_at s' p = byte_at s (src p)) ->
  (forall p, (p < 16)%nat -> src (16 * Z.of_nat i + Z.of_nat p) = 16 * Z.of_nat i + Z.of_nat (f p) /\ (f p < 16)%nat) -> in_words i ->
  view s' i = state_of (fun p => at_ (view s i) (f p)).
Proof using Type.
  intros H Hsrc Hi. unfold in_words in Hi. apply state_of_ext. intros p Hp. destruct (Hsrc p Hp) as [E Hf]. rewrite H, E by lia. unfold view. by rewrite at_state_of.
Qed.

Ltac sources := intros p Hp; each_cell; (split; [zdivmod|lia]).

Lemma view_shiftrows s i : length s = 8%nat -> in_words i -> view (BITSLICED_SHIFTROWS w s) i = shift_rows (view s i).
Proof using Hw.
  intros Hl Hi. apply (view_moved s _ i shift_src (fun p => cell (row p) (col p + row p))); [|unfold shift_src; sources|done].
  intros p Hp. apply byte_at_fmap; [done|]. intros x. by apply shiftrows_bit.
Qed.

Lemma view_inv_shiftrows s i : length s = 8%nat -> in_words i -> view (BITSLICED_INVSHIFTROWS w s) i = inv_shift_rows (view s i).
Proof using Hw.
  intros Hl Hi. apply (view_moved s _ i inv_shift_src (fun p => cell (row p) (col p + (4 - row p)))); [|unfold inv_shift_src; sources|done].
  intros p Hp. apply byte_at_fmap; [done|]. intros x. by apply inv_shiftrows_bit.
Qed.

Lemma view_sub s i : view (BITSLICED_SUBBYTES Z.lxor Z.land (slice s)) i = xor63 (sub_bytes (view s i)).
Proof using Type.
  unfold sub_bytes, xor63, view. rewrite !fmap_state_of. apply state_of_ext. intros p _. apply byte_at_subbytes.
Qed.

Lemma view_inv_sub s i : view (BITSLICED_INVSUBBYTES Z.lxor Z.land (slice s)) i = inv_sub_bytes (xor63 (view s i)).
Proof using Type.
  unfold inv_sub_bytes, xor63, view. rewrite !fmap_state_of. apply state_of_ext. intros p _. apply byte_at_invsubbytes.
Qed.

Lemma view_add s k i : length s = 8%nat -> length k = 8%nat -> view (BITSLICED_ADD s k) i = xor_bytes (view s i) (view k i).
Proof using Type. intros Hs Hk. unfold view. rewrite xor_state_of. apply state_of_ext. intros p _. by apply byte_at_add. Qed.

Lemma byte_at_mulx s p : length s = 8%nat -> byte_at (BITSLICED_MUL_BY_X s) p = xtime (byte_at s p).
Proof using Type.
  intros Hl. apply byte_at_eq; [apply byte_ok_xtime, byte_at_ok|]. intros b Hb. unfold xtime. change 7 with (Z.of_nat 7). rewrite Z.lxor_spec, byte_at_bit by lia.
  rewrite Z.shiftl_spec by lia. destruct b as [|b].
  { rewrite (Z.testbit_neg_r (byte_at s p)) by lia. cbn [slice BITSLICED_MUL_BY_X nth]. by destruct (Z.testbit _ p). }
  replace (Z.of_nat (S b) - 1) with (Z.of_nat b) by lia. rewrite byte_at_bit by lia.
  do 7 (destruct b as [|b]; [cbn [slice BITSLICED_MUL_BY_X nth]; rewrite ?Z.lxor_spec; destruct (Z.testbit (slice s 7) p) eqn:E; unfold slice in *; cbn in E |- *;
    rewrite ?E, ?xorb_false_r; reflexivity|]). lia.
Qed.

Lemma length_ops s t : length s = 8%nat -> length t = 8%nat ->
  length (BITSLICED_ADD s t) = 8%nat /\ length (BITSLICED_MUL_BY_X s) = 8%nat /\ forall f : Z -> Z, length (f <$> s) = 8%nat.
Proof using Type. intros Hs Ht. split_and!; [unfold BITSLICED_ADD; rewrite length_zip_with; lia|done|]. intros f. by rewrite length_fmap. Qed.

(** The positions of the other cells of a column. *)
Lemma y_src_range p : 0 <= p < w -> 0 <= y3_src p < w /\ 0 <= y2_src p < w /\ y3_src (y2_src p) = y2_src (y3_src p).
Proof using Hw. intros Hp. unfold y3_src, y2_src. destruct Hw; subst w; zdivmod. Qed.

Lemma byte_at_1_y3 s p : length s = 8%nat -> 0 <= p < w -> byte_at (BITSLICED_MUL_BY_1_Y3 w <$> s) p = byte_at s p .^ byte_at s (y3_src p).
Proof using Hw. intros Hl Hp. apply byte_at_fmap_xor; [done|]. intros x. by apply y3_bit. Qed.

Lemma byte_at_1_y2 s p : length s = 8%nat -> 0 <= p < w -> byte_at (BITSLICED_MUL_BY_1_Y2 w <$> s) p = byte_at s p .^ byte_at s (y2_src p).
Proof using Hw. intros Hl Hp. apply byte_at_fmap_xor; [done|]. intros x. by apply y2_bit. Qed.

Lemma byte_at_y3 s p : length s = 8%nat -> 0 <= p < w -> byte_at (BITSLICED_MUL_BY_Y3 w <$> s) p = byte_at s (y3_src p).
Proof using Hw. intros Hl Hp. apply byte_at_fmap; [done|]. intros x. by apply y3_bit. Qed.

Lemma byte_at_y2 s p : length s = 8%nat -> 0 <= p < w -> byte_at (BITSLICED_MUL_BY_Y2 w <$> s) p = byte_at s (y2_src p).
Proof using Hw. intros Hl Hp. apply byte_at_fmap; [done|]. intros x. by apply y2_bit. Qed.

Lemma length_ADD s t : length s = 8%nat -> length t = 8%nat -> length (BITSLICED_ADD s t) = 8%nat.
Proof using Type. intros Hs Ht. unfold BITSLICED_ADD. rewrite length_zip_with. lia. Qed.

(** The lengths of compound slices. *)
Ltac lengths := repeat first [assumption | reflexivity | apply length_ADD | rewrite length_fmap].

Lemma length_mix s : length s = 8%nat -> length (BITSLICED_MIXCOLUMNS w s) = 8%nat /\ length (BITSLICED_INVMIXCOLUMNS w s) = 8%nat.
Proof using Type. intros Hl. unfold BITSLICED_MIXCOLUMNS, BITSLICED_INVMIXCOLUMNS. cbv zeta. split; lengths. Qed.

(** The neighbours of cell [p] of block [i], by their positions. *)
Lemma column_positions i p : (p < 16)%nat -> in_words i -> let q := 16 * Z.of_nat i + Z.of_nat p in
  0 <= q < w /\ 0 <= y3_src q < w /\ 0 <= y2_src q < w
  /\ y3_src q = 16 * Z.of_nat i + Z.of_nat (cell (row p + 1) (col p))
  /\ y2_src q = 16 * Z.of_nat i + Z.of_nat (cell (row p + 2) (col p))
  /\ y3_src (y2_src q) = 16 * Z.of_nat i + Z.of_nat (cell (row p + 3) (col p))
  /\ y2_src (y3_src q) = 16 * Z.of_nat i + Z.of_nat (cell (row p + 3) (col p)).
Proof using Hw.
  intros Hp Hi q. unfold in_words in Hi. destruct (y_src_range q) as (H1&H2&_); [lia|]. split_and!; [lia|lia|lia|lia|lia|lia|..]; subst q; unfold y3_src, y2_src; clear H1 H2; each_cell; zdivmod.
Qed.

Lemma view_at s i r c : at_ (view s i) (cell r c) = byte_at s (16 * Z.of_nat i + Z.of_nat (cell r c)).
Proof using Type. unfold view. apply at_state_of, cell_lt. Qed.

Lemma view_mix s i : length s = 8%nat -> in_words i -> view (BITSLICED_MIXCOLUMNS w s) i = mix_columns (view s i).
Proof using Hw.
  intros Hl Hi. apply state_of_ext. intros p Hp. cbv beta zeta. rewrite !view_at. destruct (column_positions i p Hp Hi) as (Hq&H3&H2&E1&E2&E3&E3').
  unfold BITSLICED_MIXCOLUMNS. cbv zeta. rewrite !byte_at_add, byte_at_mulx, !byte_at_1_y2, !byte_at_1_y3 by (lengths || done).
  rewrite E3, <- E1, <- E2. rewrite Nat.add_0_r, cell_row_col by done.
  match goal with |- _ = gmul ?a 2 .^ gmul ?b 3 .^ _ .^ _ => destruct (gmul_consts a) as (->&_), (gmul_consts b) as (_&->&_) end.
  rewrite xtime_xor. xor_ring.
Qed.

Lemma view_inv_mix s i : length s = 8%nat -> in_words i -> view (BITSLICED_INVMIXCOLUMNS w s) i = inv_mix_columns (view s i).
Proof using Hw.
  intros Hl Hi. apply state_of_ext. intros p Hp. cbv beta zeta. rewrite !view_at. destruct (column_positions i p Hp Hi) as (Hq&H3&H2&E1&E2&E3&E3').
  unfold BITSLICED_INVMIXCOLUMNS. cbv zeta.
  rewrite !byte_at_add by lengths. rewrite !byte_at_1_y2 by (lengths || done). rewrite !byte_at_y3 by (lengths || done). rewrite !byte_at_y2 by (lengths || done).
  rewrite !byte_at_1_y2 by (lengths || done). rewrite !byte_at_1_y3 by (lengths || done). rewrite !byte_at_add by lengths. rewrite !byte_at_mulx by lengths.
  rewrite E3, E3', <- E1, <- E2. rewrite Nat.add_0_r, cell_row_col by done.
  match goal with |- _ = gmul ?a 14 .^ gmul ?b 11 .^ gmul ?c 13 .^ gmul ?d 9 =>
    destruct (gmul_consts a) as (_&_&_&_&_&->), (gmul_consts b) as (_&_&_&->&_), (gmul_consts c) as (_&_&_&_&->&_), (gmul_consts d) as (_&_&->&_) end.
  xor_ring.
Qed.

Lemma length_view s i : length (view s i) = 16%nat.
Proof using Type. done. Qed.

Lemma view_ok s i : is_state (view s i).
Proof using Type. split; [done|]. apply state_of_ok. intros p _. apply byte_at_ok. Qed.

(** ** The rounds *)

(** Slices [k] hold the round key [r] in every block; in the later round keys with the constant of the S-box. *)
Definition holds_key (k : list Z) (r : nat) (key : list Z) : Prop :=
  length k = 8%nat /\ is_state key /\ forall i, in_words i -> view k i = if (r =? 0)%nat then key else xor63 key.

Lemma round_e_view s k i r key : length s = 8%nat -> holds_key k r key -> (0 < r)%nat -> in_words i ->
  length (aes_sliced_round_e w true s k) = 8%nat /\ length (aes_sliced_round_e w false s k) = 8%nat
  /\ view (aes_sliced_round_e w true s k) i = xor_bytes (mix_columns (shift_rows (sub_bytes (view s i)))) key
  /\ view (aes_sliced_round_e w false s k) i = xor_bytes (shift_rows (sub_bytes (view s i))) key.
Proof using Hw.
  intros Hs (Hk&[Hkey _]&Hv) Hr Hi. unfold aes_sliced_round_e. cbv zeta. set (t := BITSLICED_SUBBYTES Z.lxor Z.land (slice s)).
  assert (length t = 8%nat) as Ht by done. assert (length (BITSLICED_SHIFTROWS w t) = 8%nat) as Ht' by (unfold BITSLICED_SHIFTROWS; lengths).
  assert (view (BITSLICED_SHIFTROWS w t) i = xor63 (shift_rows (sub_bytes (view s i)))) as E.
  { rewrite view_shiftrows by done. unfold t. rewrite view_sub, xor63_shift; [done|]. unfold sub_bytes. by rewrite length_fmap. }
  destruct (length_mix (BITSLICED_SHIFTROWS w t) Ht') as [Hm _]. split_and!; [lengths|lengths|..]; rewrite view_add by done;
    rewrite Hv by done; destruct r as [|r]; try lia; cbn [Nat.eqb].
  - rewrite view_mix, E, xor63_mix by done. apply xor63_xor. by rewrite Hkey.
  - rewrite E. apply xor63_xor. by rewrite Hkey.
Qed.

Lemma round_d_view s k i r key : length s = 8%nat -> holds_key k r key -> (0 < r)%nat -> in_words i ->
  length (aes_sliced_round_d w true s k) = 8%nat /\ length (aes_sliced_round_d w false s k) = 8%nat
  /\ view (aes_sliced_round_d w true s k) i = inv_sub_bytes (inv_shift_rows (inv_mix_columns (xor_bytes (view s i) key)))
  /\ view (aes_sliced_round_d w false s k) i = inv_sub_bytes (inv_shift_rows (xor_bytes (view s i) key)).
Proof using Hw.
  intros Hs (Hk&[Hkey Hkok]&Hv) Hr Hi. unfold aes_sliced_round_d. cbv zeta. set (t := BITSLICED_ADD s k).
  assert (length t = 8%nat) as Ht by (unfold t; lengths). destruct (length_mix t Ht) as [_ Hm].
  assert (view t i = xor63 (xor_bytes (view s i) key)) as E.
  { unfold t. rewrite view_add, Hv by done. destruct r as [|r]; [lia|]. apply xor63_xor_l. }
  assert (is_state (xor_bytes (view s i) key)) as [Hx _] by (apply is_state_xor; [apply view_ok|done]).
  split_and!; [done|done|..]; rewrite view_inv_shiftrows by done; rewrite view_inv_sub.
  - rewrite view_inv_mix, E, xor63_inv_mix, xor63_twice by done. by rewrite <- inv_sub_shift.
  - rewrite E, xor63_twice. by rewrite <- inv_sub_shift.
Qed.

(** ** The cipher *)

Section Cipher.
Context (n nr : nat) (Hn : 0 < Z.of_nat n /\ 16 * Z.of_nat n <= w) (Hnr : (0 < nr)%nat) (rk : list Z) (key : nat -> list Z).
Context (Hrk : forall r, (r <= nr)%nat -> holds_key (keys_at rk r) r (key r)).

Lemma rounds_e_view rs s i : Forall (fun r => 0 < r <= nr)%nat rs -> length s = 8%nat -> in_words i ->
  let t := foldl (fun state i => aes_sliced_round_e w true state (keys_at rk i)) s rs in
  length t = 8%nat /\ view t i = foldl (round key) (view s i) rs.
Proof using Hw Hrk.
  intros Hrs. revert s. induction Hrs as [|r rs [Hr Hr'] _ IH]; intros s Hs Hi; [done|]. cbn [foldl].
  destruct (round_e_view s _ i r (key r) Hs (Hrk r Hr') Hr Hi) as (Hl&_&E&_). unfold round at 2. rewrite <- E. by apply IH.
Qed.

Lemma rounds_d_view rs s v i : Forall (fun r => 0 < r <= nr)%nat rs -> length s = 8%nat -> in_words i -> view s i = inv_sub_bytes (inv_shift_rows v) ->
  let t := foldl (fun state i => aes_sliced_round_d w true state (keys_at rk i)) s rs in
  length t = 8%nat /\ view t i = inv_sub_bytes (inv_shift_rows (foldl (inv_round key) v rs)).
Proof using Hw Hrk.
  intros Hrs. revert s v. induction Hrs as [|r rs [Hr Hr'] _ IH]; intros s v Hs Hi Hv; [done|]. cbn [foldl].
  destruct (round_d_view s _ i r (key r) Hs (Hrk r Hr') Hr Hi) as (Hl&_&E&_). apply IH; [done|done|]. by rewrite E, Hv.
Qed.

Lemma middle_rounds : Forall (fun r => 0 < r <= nr)%nat (seq 1 (nr - 1)).
Proof using Type. apply Forall_forall. intros r Hr%elem_of_seq. clear - Hr. lia. Qed.

(** The cipher in slices is the cipher on each of the blocks. *)
Lemma sliced_e_correct input : bytes_ok input -> length input = (16 * n)%nat ->
  aes_sliced_e w n nr rk input = concat ((fun i => cipher nr key (take 16 (drop (16 * i) input))) <$> seq 0 n).
Proof using Hw Hrk Hn Hnr.
  intros Hok Hl. unfold aes_sliced_e. cbv zeta. rewrite blocks_view. f_equal. apply list_fmap_ext. intros j i [-> Hi]%lookup_seq. cbn [Nat.add] in *.
  assert (in_words j) as Hj by (unfold in_words; lia). set (s := slices_of_blocks w n input). assert (length s = 8%nat) as Hs by (apply length_slices; lia).
  destruct (Hrk 0%nat ltac:(lia)) as (Hk0&_&Hv0).
  destruct (rounds_e_view (seq 1 (nr - 1)) (BITSLICED_ADD s (keys_at rk 0)) j middle_rounds) as [Ht E]; [by apply length_ADD|done|].
  destruct (round_e_view _ _ j nr (key nr) Ht (Hrk nr (le_n nr)) Hnr Hj) as (_&_&_&->). rewrite E, view_add, Hv0 by done. cbn [Nat.eqb].
  unfold s. rewrite view_slices by (done || lia). done.
Qed.

Lemma sliced_d_correct input : bytes_ok input -> length input = (16 * n)%nat ->
  aes_sliced_d w n nr rk input = concat ((fun i => inv_cipher nr key (take 16 (drop (16 * i) input))) <$> seq 0 n).
Proof using Hw Hrk Hn Hnr.
  intros Hok Hl. unfold aes_sliced_d. cbv zeta. rewrite blocks_view. f_equal. apply list_fmap_ext. intros j i [-> Hi]%lookup_seq. cbn [Nat.add] in *.
  assert (in_words j) as Hj by (unfold in_words; lia). set (s := slices_of_blocks w n input). assert (length s = 8%nat) as Hs by (apply length_slices; lia).
  destruct (Hrk 0%nat ltac:(lia)) as (Hk0&_&Hv0).
  destruct (round_d_view s _ j nr (key nr) Hs (Hrk nr (le_n nr)) Hnr Hj) as (_&Hl1&_&E1).
  destruct (rounds_d_view (rev (seq 1 (nr - 1))) _ _ j (Forall_rev middle_rounds) Hl1 Hj E1) as [Ht E].
  rewrite view_add, Hv0, E by done. cbn [Nat.eqb]. unfold s. rewrite view_slices by (done || lia). done.
Qed.
End Cipher.
End Rounds.
