(* ===== verification/SshAesKey.v ===== *)
(** * The key schedule of AES in slices (sshaes.c)

    The words of the schedule are kept in bit slices, four to a round key; the schedule is that of FIPS 197, with the constant of the
    S-box added to all round keys but the first. *)

From Stdlib Require Import ZifyNat.
From S2P Require Import Prelude SshCrypto Fips197 SshAesSlice SshAesRounds.
Open Scope Z_scope.
Open Scope word_scope.

Definition key_setup_round_constants : list Z := [0x01; 0x02; 0x04; 0x08; 0x10; 0x20; 0x40; 0x80; 0x1b; 0x36].
Definition MAXROUNDKEYS : nat := 15.

Record aes_sliced_key := mkSlicedKey { roundkeys_parallel : list Z; roundkeys_serial : list Z; rounds : nat }.

(** [prevslices[j] >> bitshift] for the word [wordindex]; [& 3] and [>> 2] on its index are remainder and quotient. *)
Definition prev_word (rk : list Z) (wordindex : nat) : list Z :=
  let bitshift := Z.of_nat (4 * (wordindex mod 4)) in
  (fun x => x >> bitshift) <$> take 8 (drop (8 * (wordindex / 4)) rk).

(** [slices[0] ^= 0xFFFF] and so on. *)
Definition sbox_constant : list Z := [0xFFFF; 0xFFFF; 0; 0; 0; 0xFFFF; 0xFFFF; 0].

(** An expansion stage: the slices of word [i], and [rconpos]. *)
Definition expand_word (key_words : nat) (rk : list Z) (i rconpos : nat) : option (list Z * nat) :=
  let slices := prev_word rk (i - 1) in
  let rotate_and_round_constant := (i mod key_words =? 0)%nat in
  let sub := rotate_and_round_constant || ((key_words =? 8)%nat && (i mod 8 =? 4)%nat) in
  let slices := if rotate_and_round_constant then (fun x => ((x << 3) .| (x >> 1)) .& 0xF) <$> slices else slices in
  let slices := if sub then BITSLICED_ADD (BITSLICED_SUBBYTES Z.lxor Z.land (slice slices)) sbox_constant else slices in
  '(slices, rconpos) ← (if rotate_and_round_constant
    then assert! (rconpos <? length key_setup_round_constants)%nat;
      let rcon := nth rconpos key_setup_round_constants 0 in
      Some (imap (fun j x => x .^ (1 .& (rcon >> Z.of_nat j))) slices, S rconpos)
    else Some (slices, rconpos));
  Some (zip_with Z.lxor slices (prev_word rk (i - key_words)), rconpos).

(** [outslices[b] |= (slices[b] & 0xF) << outshift]; [outslices] is a position in the array. *)
Definition or_slices (rk : list Z) (outslices : nat) (outshift : Z) (slices : list Z) : list Z :=
  take outslices rk ++ zip_with Z.lor (take 8 (drop outslices rk)) ((fun x => (x .& 0xF) << outshift) <$> slices) ++ drop (outslices + 8) rk.

Record setup_state := mkSetup { st_serial : list Z; st_inblk : list Z; st_rconpos : nat; st_outslices : nat; st_outshift : Z }.

Definition setup_step (key : list Z) (key_words : nat) (st : setup_state) (i : nat) : option setup_state :=
  '(slices, inblk, rconpos) ← (if (i <? key_words)%nat
    then let inblk := take 4 (drop (4 * i) key) ++ drop 4 (st_inblk st) in Some (TO_BITSLICES 16 inblk 0, inblk, st_rconpos st)
    else '(slices, rconpos) ← expand_word key_words (st_serial st) i (st_rconpos st); Some (slices, st_inblk st, rconpos));
  let rk := or_slices (st_serial st) (st_outslices st) (st_outshift st) slices in
  let outshift := st_outshift st + 4 in
  Some (if outshift =? 16 then mkSetup rk inblk rconpos (st_outslices st + 8) 0 else mkSetup rk inblk rconpos (st_outslices st) outshift).

Definition setup_loop (key : list Z) (key_words : nat) (st : setup_state) (is_ : list nat) : option setup_state :=
  foldl (fun st i => st ← st; setup_step key key_words st i) (Some st) is_.

(** The S-box constant is added to round key [r]. *)
Definition add_constant (rk : list Z) (r : nat) : list Z :=
  let i := (8 * r)%nat in
  alter (Z.lxor 0xFFFF) (i + 6)%nat (alter (Z.lxor 0xFFFF) (i + 5)%nat (alter (Z.lxor 0xFFFF) (i + 1)%nat (alter (Z.lxor 0xFFFF) (i + 0)%nat rk))).

Definition aes_sliced_key_setup (key : list Z) (keybits : nat) : option aes_sliced_key :=
  let key_words := (keybits / 32)%nat in
  let rounds := (key_words + 6)%nat in
  let sched_words := ((rounds + 1) * 4)%nat in
  st ← setup_loop key key_words (mkSetup (replicate (MAXROUNDKEYS * 8) 0) (replicate 16 0) 0 0 0) (seq 0 sched_words);
  let serial := foldl add_constant (st_serial st) (seq 1 (sched_words / 4 - 1)) in
  let parallel := (fun x => u64 (x * ((2 ^ 64 - 1) / 0xFFFF))) <$> take (8 * (sched_words / 4)) serial in
  Some (mkSlicedKey parallel serial rounds).

(** The examples of FIPS 197, appendix C. *)
Example sliced_c : be_val <$> (sk ← aes_sliced_key_setup (key_c 16) 128; Some (aes_sliced_e 16 1 (rounds sk) (roundkeys_serial sk) plaintext_c))
  = Some 0x69c4e0d86a7b0430d8cdb78070b4c55a.
Proof. vm_compute. reflexivity. Qed.
Example sliced_c256 :
  (sk ← aes_sliced_key_setup (key_c 32) 256;
   let x := concat (replicate 4 plaintext_c) in
   let y := aes_sliced_e 64 4 (rounds sk) (roundkeys_parallel sk) x in
   Some (bool_decide (y = concat (replicate 4 (be_split 16 0x8ea2b7ca516745bfeafc49904b496089))) && bool_decide (aes_sliced_d 64 4 (rounds sk) (roundkeys_parallel sk) y = x)))
  = Some true.
Proof. vm_compute. reflexivity. Qed.

(** ** Slices of one word *)

Lemma byte_at_zip_lor s t p : length s = 8%nat -> length t = 8%nat -> byte_at (zip_with Z.lor s t) p = byte_at s p .| byte_at t p.
Proof.
  intros Hs Ht. apply byte_at_eq; [apply lor_ok; auto with aes; lia|]. intros b Hb. by rewrite slice_zip, !Z.lor_spec, !byte_at_bit.
Qed.

Lemma byte_at_zero s p : length s = 8%nat -> Forall (fun x => Z.testbit x p = false) s -> byte_at s p = 0.
Proof.
  intros Hl H. apply byte_at_eq; [unfold word_ok; lia|]. intros b Hb. rewrite Z.bits_0. unfold slice.
  destruct (lookup_lt_is_Some_2 s b) as [x E]; [lia|]. rewrite (nth_lookup_Some _ _ _ _ E). by apply (Forall_lookup_1 _ _ _ _ H E).
Qed.

(** The four bits of a word, placed at the position of the word. *)
Lemma byte_at_placed s sh p : length s = 8%nat -> 0 <= sh -> 0 <= p ->
  byte_at ((fun x => (x .& 0xF) << sh) <$> s) p = if (sh <=? p) && (p <? sh + 4) then byte_at s (p - sh) else 0.
Proof.
  intros Hl Hsh Hp.
  assert (forall x, Z.testbit ((x .& 0xF) << sh) p = (sh <=? p) && (p <? sh + 4) && Z.testbit x (p - sh)) as H.
  { intros x. rewrite Z.shiftl_spec by lia. destruct (Z.leb_spec sh p); [|by rewrite Z.testbit_neg_r by lia].
    change 0xF with (Z.ones 4). rewrite Z.land_spec, Z.testbit_ones_nonneg, andb_comm by lia. cbn [andb]. f_equal. apply eq_true_iff_eq. rewrite !Z.ltb_lt. lia. }
  destruct ((sh <=? p) && (p <? sh + 4)) eqn:E.
  - apply byte_at_fmap; [done|]. intros x. by rewrite H.
  - apply byte_at_zero; [by rewrite length_fmap|]. apply Forall_fmap, Forall_forall. intros x _. cbn. by rewrite H.
Qed.

Lemma length_keys_at rk r : (8 * r + 8 <= length rk)%nat -> length (keys_at rk r) = 8%nat.
Proof. intros H. unfold keys_at. rewrite length_take, length_drop. lia. Qed.

Lemma length_prev_word rk j : (8 * (j / 4) + 8 <= length rk)%nat -> length (prev_word rk j) = 8%nat.
Proof. intros H. unfold prev_word. rewrite length_fmap. by apply length_keys_at. Qed.

Lemma byte_at_prev rk j p : (8 * (j / 4) + 8 <= length rk)%nat -> 0 <= p ->
  byte_at (prev_word rk j) p = byte_at (keys_at rk (j / 4)) (p + Z.of_nat (4 * (j mod 4))).
Proof.
  intros H Hp. unfold prev_word. apply (byte_at_fmap _ (keys_at rk (j / 4))); [by apply length_keys_at|]. intros x. apply Z.shiftr_spec. lia.
Qed.

(** The rotation of a word of four bits; what is above it must be empty. *)
Lemma byte_at_rotated s k : length s = 8%nat -> (k < 4)%nat -> byte_at s 4 = 0 ->
  byte_at ((fun x => ((x << 3) .| (x >> 1)) .& 0xF) <$> s) (Z.of_nat k) = byte_at s (Z.of_nat ((k + 1) mod 4)).
Proof.
  intros Hl Hk H4. apply byte_at_eq; [apply byte_at_ok|]. intros b Hb. rewrite slice_fmap, byte_at_bit by done.
  assert (Z.testbit (slice s b) 4 = false) as Hz by (rewrite <- byte_at_bit by done; by rewrite H4, Z.bits_0).
  rewrite Z.land_spec, Z.lor_spec, Z.shiftl_spec, Z.shiftr_spec by lia.
  do 4 (destruct k as [|k]; [cbn -[Z.testbit];
    repeat match goal with |- context [Z.testbit (slice s b) ?i] => progress (let j := eval vm_compute in i in change i with j) end;
    rewrite ?Hz, ?Z.testbit_neg_r, ?orb_false_r, ?andb_true_r by lia; reflexivity|]). lia.
Qed.

Lemma byte_at_imap_rcon s c k : length s = 8%nat -> byte_ok c ->
  byte_at (imap (fun j x => x .^ (1 .& (c >> Z.of_nat j))) s) (Z.of_nat k) = byte_at s (Z.of_nat k) .^ (if (k =? 0)%nat then c else 0).
Proof.
  intros Hl Hc. assert (byte_ok (if (k =? 0)%nat then c else 0)) as Hc' by (destruct (k =? 0)%nat; [done|unfold word_ok; lia]).
  apply byte_at_eq; [apply lxor_ok; auto with aes; lia|]. intros b Hb. rewrite Z.lxor_spec, byte_at_bit by done. unfold slice.
  destruct (lookup_lt_is_Some_2 s b) as [x E]; [lia|]. rewrite (nth_lookup_Some s b 0 x E).
  assert (imap (fun j x => x .^ (1 .& (c >> Z.of_nat j))) s !! b = Some (x .^ (1 .& (c >> Z.of_nat b)))) as E' by (by rewrite list_lookup_imap, E).
  rewrite (nth_lookup_Some _ b 0 _ E'), Z.lxor_spec, Z.land_spec, Z.shiftr_spec by lia. f_equal. destruct k as [|k]; cbn [Nat.eqb].
  - cbn. done.
  - rewrite Z.bits_0. replace (Z.testbit 1 (Z.of_nat (S k))) with false; [done|]. symmetry. apply (testbit_high 1); [unfold word_ok; lia|lia].
Qed.

Lemma byte_at_full_sub s k : length s = 8%nat -> (k < 16)%nat ->
  byte_at (BITSLICED_ADD (BITSLICED_SUBBYTES Z.lxor Z.land (slice s)) sbox_constant) (Z.of_nat k) = sub_byte (byte_at s (Z.of_nat k)).
Proof.
  intros Hl Hk. rewrite byte_at_add, byte_at_subbytes by done.
  assert (byte_at sbox_constant (Z.of_nat k) = 0x63) as ->; [|xor_ring].
  do 16 (destruct k as [|k]; [reflexivity|]). lia.
Qed.

(** ** Words of the schedule *)

(** Linear arithmetic with quotients and remainders of natural numbers. *)
Ltac ndivmod := zify; Z.to_euclidean_division_equations; lia.

Lemma nth_xor v w k : is_word v -> is_word w -> nth k (xor_bytes v w) 0 = nth k v 0 .^ nth k w 0.
Proof. intros [Hv _] [Hw _]. destruct v as [|? [|? [|? [|? []]]]], w as [|? [|? [|? [|? []]]]]; try done. by do 5 (destruct k as [|k]; [done|]). Qed.

Lemma nth_sub w k : is_word w -> (k < 4)%nat -> nth k (sub_word w) 0 = sub_byte (nth k w 0).
Proof. intros [Hw _] Hk. destruct w as [|? [|? [|? [|? []]]]]; try done. do 4 (destruct k as [|k]; [done|]). lia. Qed.

Lemma nth_rot w k : is_word w -> (k < 4)%nat -> nth k (rot_word w) 0 = nth ((k + 1) mod 4) w 0.
Proof. intros [Hw _] Hk. destruct w as [|? [|? [|? [|? []]]]]; try done. do 4 (destruct k as [|k]; [done|]). lia. Qed.

(** The table holds the powers of [x]. *)
Lemma nth_round_constant n : (n < 10)%nat -> nth n key_setup_round_constants 0 = Nat.iter n xtime 1 /\ byte_ok (Nat.iter n xtime 1).
Proof. intros Hn. do 10 (destruct n as [|n]; [split; [reflexivity|split; [discriminate|reflexivity]]|]). lia. Qed.

Section Schedule.
Context (nk : nat) (key : list Z) (Hnk : nk = 4%nat \/ nk = 6%nat \/ nk = 8%nat) (Hkey : bytes_ok key) (Hlen : (4 * nk <= length key)%nat).
Notation K := (key_word nk key).

Lemma K_ok j : is_word (K j).
Proof using Hnk Hkey Hlen. apply key_word_ok; [lia|done|done]. Qed.

(** Byte [p] of round key [r] when the first [i] words are there. *)
Definition cell_value (i r p : nat) : Z := if (p <? 16)%nat && (4 * r + p / 4 <? i)%nat then nth (p mod 4) (K (4 * r + p / 4)) 0 else 0.

Definition holds_words (i : nat) (rk : list Z) : Prop :=
  length rk = 120%nat /\ Forall (word_ok 16) rk /\ forall r p, (r < 15)%nat -> byte_at (keys_at rk r) (Z.of_nat p) = cell_value i r p.

Lemma prev_word_value i rk j k : holds_words i rk -> (i <= 60)%nat -> (j < i)%nat -> (k < 4)%nat -> byte_at (prev_word rk j) (Z.of_nat k) = nth k (K j) 0.
Proof using Type.
  clear Hkey Hlen Hnk. intros (Hl&_&H) Hi Hj Hk. rewrite byte_at_prev by (rewrite ?Hl; ndivmod).
  replace (Z.of_nat k + Z.of_nat (4 * (j mod 4))) with (Z.of_nat (k + 4 * (j mod 4))) by lia. rewrite H by ndivmod.
  unfold cell_value. replace (4 * (j / 4) + (k + 4 * (j mod 4)) / 4)%nat with j by ndivmod. replace ((k + 4 * (j mod 4)) mod 4)%nat with k by ndivmod.
  rewrite (proj2 (Nat.ltb_lt _ _)), (proj2 (Nat.ltb_lt _ _)) by (done || ndivmod). done.
Qed.

(** Behind the last word there is nothing. *)
Lemma prev_word_end i rk : holds_words i rk -> (0 < i <= 60)%nat -> byte_at (prev_word rk (i - 1)) 4 = 0.
Proof using Type.
  clear Hkey Hlen Hnk. intros (Hl&_&H) Hi. rewrite byte_at_prev by (rewrite ?Hl; ndivmod).
  replace (4 + Z.of_nat (4 * ((i - 1) mod 4))) with (Z.of_nat (4 + 4 * ((i - 1) mod 4))) by lia. rewrite H by ndivmod.
  unfold cell_value. destruct (Nat.ltb_spec (4 + 4 * ((i - 1) mod 4)) 16); [|done]. cbn [andb].
  rewrite (proj2 (Nat.ltb_ge _ _)); [done|]. ndivmod.
Qed.

Lemma expand_word_spec rk i : holds_words i rk -> (nk <= i < 4 * (nk + 7))%nat ->
  exists slices, expand_word nk rk i ((i - 1) / nk) = Some (slices, (i / nk)%nat) /\ length slices = 8%nat
    /\ forall k, (k < 4)%nat -> byte_at slices (Z.of_nat k) = nth k (K i) 0.
Proof using Hnk Hkey Hlen.
  intros Hh Hi. pose proof Hh as (Hl&_&_). assert (i <= 60)%nat as Hi60 by lia.
  assert (length (prev_word rk (i - 1)) = 8%nat /\ length (prev_word rk (i - nk)) = 8%nat) as [Hl1 Hl2] by (split; apply length_prev_word; rewrite Hl; ndivmod).
  pose proof (prev_word_value i rk (i - 1)) as H1. pose proof (prev_word_value i rk (i - nk)) as H2.
  pose proof (K_ok (i - 1)) as Hw1. pose proof (K_ok (i - nk)) as Hw2.
  unfold expand_word. cbv zeta. rewrite key_word_late by lia. cbv zeta.
  destruct (Nat.eqb_spec (i mod nk) 0) as [Hrot|Hrot].
  - cbn [orb]. set (s := (fun x => _) <$> prev_word rk (i - 1)). assert (length s = 8%nat) as Hs by (subst s; by rewrite length_fmap).
    set (t := BITSLICED_ADD _ _). assert (length t = 8%nat) as Ht by done.
    assert ((i - 1) / nk = i / nk - 1 /\ 0 < i / nk <= 10)%nat as [Hpos Hpos'] by (destruct Hnk as [-> |[-> | ->]]; ndivmod).
    destruct (nth_round_constant (i / nk - 1) ltac:(lia)) as [Erc Hrc].
    assert (((i - 1) / nk <? length key_setup_round_constants)%nat = true) as -> by (apply Nat.ltb_lt; cbn; lia). cbn [mbind option_bind].
    eexists. split; [do 2 f_equal; lia|]. split; [rewrite length_zip_with, length_imap; lia|]. intros k Hk.
    rewrite byte_at_add by (rewrite ?length_imap; done). rewrite Hpos, Erc, byte_at_imap_rcon, H2 by (done || lia).
    pose proof (is_word_rot _ Hw1) as Hwr. pose proof (is_word_sub _ Hwr) as Hws. pose proof (is_word_rcon (i / nk)) as Hwc.
    rewrite (nth_xor _ _ k Hw2 (is_word_xor _ _ Hws Hwc)), (nth_xor _ _ k Hws Hwc), (nth_sub _ k Hwr Hk), (nth_rot _ k Hw1 Hk).
    unfold t. rewrite byte_at_full_sub by (done || lia). unfold s. rewrite byte_at_rotated, H1 by (done || lia || (try apply Nat.mod_upper_bound; lia) || (eapply prev_word_end; [done|lia])).
    unfold rcon. replace (nth k [Nat.iter (i / nk - 1) xtime 1; 0; 0; 0] 0) with (if (k =? 0)%nat then Nat.iter (i / nk - 1) xtime 1 else 0);
      [apply Z.lxor_comm|]. by do 4 (destruct k as [|k]; [done|]); lia.
  - cbn [orb mbind option_bind]. assert ((i - 1) / nk = i / nk)%nat as -> by (destruct Hnk as [-> |[-> | ->]]; ndivmod).
    assert ((nk =? 8)%nat && (i mod 8 =? 4)%nat = (6 <? nk)%nat && (i mod nk =? 4)%nat) as -> by (destruct Hnk as [-> |[-> | ->]]; done).
    eexists. split; [done|]. destruct ((6 <? nk)%nat && (i mod nk =? 4)%nat).
    + split; [rewrite length_zip_with, Hl2; done|]. intros k Hk. rewrite byte_at_add, byte_at_full_sub, H1, H2, nth_xor, nth_sub by (done || lia || by apply is_word_sub).
      apply Z.lxor_comm.
    + split; [rewrite length_zip_with; lia|]. intros k Hk. rewrite byte_at_add, H1, H2, nth_xor by (done || lia). apply Z.lxor_comm.
Qed.

(** Or-ing a word in. *)
Lemma keys_at_or rk off sh vals r r' : length rk = 120%nat -> off = (8 * r)%nat -> (r < 15)%nat -> (r' < 15)%nat -> length vals = 8%nat ->
  keys_at (or_slices rk off sh vals) r' = if (r' =? r)%nat then zip_with Z.lor (keys_at rk r) ((fun x => (x .& 0xF) << sh) <$> vals) else keys_at rk r'.
Proof using Type.
  clear Hnk Hkey Hlen. intros Hl -> Hr Hr' Hv. unfold or_slices, keys_at at 1. set (mid := zip_with _ _ _).
  assert (length mid = 8%nat) as Hm by (subst mid; rewrite length_zip_with, length_take, length_drop, length_fmap; lia).
  destruct (Nat.eqb_spec r' r) as [->|Hne].
  - rewrite drop_app_length' by (rewrite length_take; lia). by rewrite take_app_length' by done.
  - unfold keys_at. destruct (Nat.lt_ge_cases r' r).
    + rewrite drop_app_le, take_app_le by (rewrite ?length_drop, ?length_take; lia).
      rewrite skipn_firstn_comm, take_take. f_equal. lia.
    + rewrite drop_app_ge by (rewrite length_take; lia). rewrite length_take, Nat.min_l by lia. rewrite drop_app_ge by lia. rewrite Hm, drop_drop. do 2 f_equal. lia.
Qed.

Lemma or_slices_ok rk off sh vals : length rk = 120%nat -> (off + 8 <= 120)%nat -> 0 <= sh <= 12 -> length vals = 8%nat -> Forall (word_ok 16) rk ->
  length (or_slices rk off sh vals) = 120%nat /\ Forall (word_ok 16) (or_slices rk off sh vals).
Proof using Type.
  clear Hnk Hkey Hlen. intros Hl Ho Hsh Hv Hok. unfold or_slices. split.
  - rewrite !length_app, length_zip_with, !length_take, !length_drop, length_fmap. lia.
  - apply Forall_app. split; [by apply Forall_take|]. apply Forall_app. split; [|by apply Forall_drop].
    assert (Forall (word_ok 16) ((fun x => (x .& 0xF) << sh) <$> vals)) as Hs.
    { apply Forall_fmap, Forall_forall. intros x _. change (word_ok 16 ((x .& (2 ^ 4 - 1)) << sh)). rewrite (land_mask x 4), Z.shiftl_mul_pow2 by lia. pose proof (Z.mod_pos_bound x (2 ^ 4) ltac:(lia)).
      pose proof (Z.pow_le_mono_r 2 sh 12 ltac:(lia) ltac:(lia)). pose proof (pow2_pos sh ltac:(lia)). unfold word_ok. change (2 ^ 16) with 65536. change (2 ^ 12) with 4096 in *. change (2 ^ 4) with 16 in *. nia. }
    assert (Forall (word_ok 16) (take 8 (drop off rk))) as Ht by (by apply Forall_take, Forall_drop).
    revert Hs Ht. generalize ((fun x => (x .& 0xF) << sh) <$> vals), (take 8 (drop off rk)). clear. intros l k Hl. revert k.
    induction Hl as [|x l Hx _ IH]; intros [|y k] Hk; try constructor; apply Forall_cons in Hk as [Hy Hk]; [by apply lor_ok|by apply IH].
Qed.

(** [is_] words have been expanded. *)
Record sched_inv (i : nat) (st : setup_state) : Prop := {
  si_words : holds_words i (st_serial st);
  si_outslices : st_outslices st = (8 * (i / 4))%nat;
  si_outshift : st_outshift st = Z.of_nat (4 * (i mod 4));
  si_rconpos : st_rconpos st = ((i - 1) / nk)%nat;
  si_inblk : length (st_inblk st) = 16%nat /\ bytes_ok (st_inblk st)
}.

Lemma holds_next i rk vals : holds_words i rk -> (i < 60)%nat -> length vals = 8%nat -> (forall k, (k < 4)%nat -> byte_at vals (Z.of_nat k) = nth k (K i) 0) ->
  holds_words (S i) (or_slices rk (8 * (i / 4)) (Z.of_nat (4 * (i mod 4))) vals).
Proof using Type.
  clear Hkey Hlen Hnk. intros (Hl&Hok&H) Hi Hv Hw. destruct (or_slices_ok rk (8 * (i / 4)) (Z.of_nat (4 * (i mod 4))) vals Hl) as [Hl' Hok']; [ndivmod|ndivmod|done|done|].
  split; [done|]. split; [done|]. intros r p Hr. rewrite (keys_at_or rk (8 * (i / 4)) _ vals (i / 4) r Hl eq_refl) by (done || ndivmod).
  destruct (Nat.eqb_spec r (i / 4)) as [->|Hne].
  - rewrite byte_at_zip_lor by (rewrite ?length_fmap; first [done | apply length_keys_at; rewrite Hl; ndivmod]). rewrite H, byte_at_placed by (done || lia).
    unfold cell_value. destruct (Z.leb_spec (Z.of_nat (4 * (i mod 4))) (Z.of_nat p)), (Z.ltb_spec (Z.of_nat p) (Z.of_nat (4 * (i mod 4)) + 4)); cbn [andb]; rewrite ?Z.lor_0_r.
    + replace (4 * (i / 4) + p / 4)%nat with i by ndivmod. rewrite (proj2 (Nat.ltb_lt p 16)) by ndivmod. rewrite Nat.ltb_irrefl, (proj2 (Nat.ltb_lt i (S i))) by lia. cbn [andb].
      rewrite Z.lor_0_l. replace (Z.of_nat p - Z.of_nat (4 * (i mod 4))) with (Z.of_nat (p mod 4)) by ndivmod. apply Hw. ndivmod.
    + destruct (Nat.ltb_spec p 16); [|done]. cbn [andb]. rewrite !(proj2 (Nat.ltb_ge _ _)) by ndivmod. done.
    + destruct (Nat.ltb_spec p 16); [|done]. cbn [andb]. rewrite !(proj2 (Nat.ltb_lt _ _)) by ndivmod. done.
    + exfalso. lia.
  - rewrite H by done. unfold cell_value. destruct (Nat.ltb_spec p 16); [|done]. cbn [andb].
    destruct (Nat.ltb_spec (4 * r + p / 4) i), (Nat.ltb_spec (4 * r + p / 4) (S i)); try done; exfalso; ndivmod.
Qed.

(** Four words to a round key. *)
Lemma next_position i :
  ((i mod 4 = 3)%nat -> (S i / 4 = S (i / 4) /\ S i mod 4 = 0)%nat) /\ ((i mod 4 <> 3)%nat -> (S i / 4 = i / 4 /\ S i mod 4 = S (i mod 4))%nat).
Proof using Type. clear Hkey Hlen Hnk. split; intros H; split; ndivmod. Qed.

Lemma setup_step_spec i st : sched_inv i st -> (i < 4 * (nk + 7))%nat -> exists st', setup_step key nk st i = Some st' /\ sched_inv (S i) st'.
Proof using Hnk Hkey Hlen.
  intros [Hw Ho Hsh Hrc [Hl16 Hblk]] Hi. unfold setup_step.
  assert (exists slices inblk, (if (i <? nk)%nat
    then Some (TO_BITSLICES 16 (take 4 (drop (4 * i) key) ++ drop 4 (st_inblk st)) 0, take 4 (drop (4 * i) key) ++ drop 4 (st_inblk st), st_rconpos st)
    else '(slices, rconpos) ← expand_word nk (st_serial st) i (st_rconpos st); Some (slices, st_inblk st, rconpos)) = Some (slices, inblk, (i / nk)%nat)
    /\ length slices = 8%nat /\ (forall k, (k < 4)%nat -> byte_at slices (Z.of_nat k) = nth k (K i) 0) /\ length inblk = 16%nat /\ bytes_ok inblk)
    as (slices&inblk&->&Hls&Hv&Hib).
  { destruct (Nat.ltb_spec i nk) as [Hlt|Hge].
    - set (inblk := take 4 (drop (4 * i) key) ++ drop 4 (st_inblk st)). exists (TO_BITSLICES 16 inblk 0), inblk.
      assert (length inblk = 16%nat) as Hl by (subst inblk; rewrite length_app, length_take, !length_drop; lia).
      assert (bytes_ok inblk) as Hok by (subst inblk; apply Forall_app_2; [by apply Forall_take, Forall_drop|by apply Forall_drop]).
      rewrite Hrc, !Nat.div_small by lia. split; [done|]. split; [apply length_to|]. split; [|done]. intros k Hk. rewrite key_word_early by done.
      replace (nth k (take 4 (drop (4 * i) key)) 0) with (nth k inblk 0) by (subst inblk; rewrite app_nth1; [done|rewrite length_take, length_drop; lia]).
      apply byte_at_eq; [by apply (at_ok inblk k)|]. intros b Hb. rewrite to_bits by (done || lia). rewrite Z.sub_0_r, Nat2Z.id.
      destruct (Z.leb_spec 0 (Z.of_nat k)), (Z.ltb_spec (Z.of_nat k) (0 + 16)); try lia. done.
    - destruct (expand_word_spec (st_serial st) i Hw ltac:(lia)) as (slices&E&Hls&Hv). rewrite Hrc, E. cbn [mbind option_bind]. by exists slices, (st_inblk st). }
  cbn [mbind option_bind]. rewrite Ho, Hsh. pose proof (holds_next i (st_serial st) slices Hw ltac:(lia) Hls Hv) as Hw'. eexists. split; [done|].
  destruct (next_position i) as [Hend Hnot]. destruct (Z.eqb_spec (Z.of_nat (4 * (i mod 4)) + 4) 16) as [E|E].
  - destruct Hend as [E1 E2]; [lia|]. constructor; cbn [st_serial st_inblk st_rconpos st_outslices st_outshift]; rewrite ?E1, ?E2; [exact Hw'|lia|lia|by rewrite Nat.sub_1_r|exact Hib].
  - destruct Hnot as [E1 E2]; [lia|]. constructor; cbn [st_serial st_inblk st_rconpos st_outslices st_outshift]; rewrite ?E1, ?E2; [exact Hw'|lia|lia|by rewrite Nat.sub_1_r|exact Hib].
Qed.

Lemma setup_loop_spec n i st : sched_inv i st -> (i + n <= 4 * (nk + 7))%nat -> exists st', setup_loop key nk st (seq i n) = Some st' /\ sched_inv (i + n) st'.
Proof using Hnk Hkey Hlen.
  revert i st. induction n as [|n IH]; intros i st Hi Hn; [exists st; by rewrite Nat.add_0_r|]. unfold setup_loop. cbn [seq foldl].
  destruct (setup_step_spec i st Hi ltac:(lia)) as (st1&E&H1). cbn [mbind option_bind]. rewrite E. rewrite <- Nat.add_succ_comm. apply IH; [done|lia].
Qed.
End Schedule.

(** ** The whole setup *)

Lemma keys_at_add_constant rk r r' : (8 * r + 8 <= length rk)%nat ->
  length (add_constant rk r) = length rk /\ keys_at (add_constant rk r) r' = if (r' =? r)%nat then BITSLICED_ADD (keys_at rk r) sbox_constant else keys_at rk r'.
Proof.
  intros Hl. unfold add_constant. cbv zeta. split; [by rewrite !length_alter|].
  assert (exists a x0 x1 x2 x3 x4 x5 x6 x7 c, rk = a ++ [x0; x1; x2; x3; x4; x5; x6; x7] ++ c /\ length a = (8 * r)%nat) as (a&x0&x1&x2&x3&x4&x5&x6&x7&c&->&Ha).
  { exists (take (8 * r) rk). pose proof (length_keys_at rk r Hl) as Hk. unfold keys_at in Hk. destruct (take 8 (drop (8 * r) rk)) as [|x0 [|x1 [|x2 [|x3 [|x4 [|x5 [|x6 [|x7 []]]]]]]]] eqn:E; try done.
    exists x0, x1, x2, x3, x4, x5, x6, x7, (drop 8 (drop (8 * r) rk)). split; [by rewrite <- E, !take_drop|]. rewrite length_take. lia. }
  rewrite <- Ha. rewrite !alter_app_r. unfold alter, list_alter. cbn [app]. unfold keys_at. destruct (Nat.eqb_spec r' r) as [->|Hne].
  - rewrite <- Ha, !drop_app_length. cbn. rewrite !Z.lxor_0_r, !(Z.lxor_comm 65535). done.
  - destruct (Nat.lt_ge_cases r' r).
    + rewrite !drop_app_le by lia. rewrite !take_app_le by (rewrite length_drop; lia). done.
    + rewrite !drop_app_ge by lia. replace (8 * r' - length a)%nat with (8 + (8 * r' - length a - 8))%nat by lia. done.
Qed.

Lemma keys_at_constants n rk r : (8 * n + 8 <= length rk)%nat ->
  let rk' := foldl add_constant rk (seq 1 n) in
  length rk' = length rk /\ keys_at rk' r = if (0 <? r)%nat && (r <=? n)%nat then BITSLICED_ADD (keys_at rk r) sbox_constant else keys_at rk r.
Proof.
  induction n as [|n IH]; intros Hl.
  - split; [done|]. by destruct r.
  - rewrite seq_S, foldl_app. cbn [foldl]. destruct (IH ltac:(lia)) as [Hl' E]. set (rk1 := foldl _ rk _) in *.
    destruct (keys_at_add_constant rk1 (1 + n) r ltac:(lia)) as [-> ->]. split; [done|].
    destruct (Nat.eqb_spec r (1 + n)) as [->|]; rewrite E.
    + rewrite (proj2 (Nat.leb_gt (1 + n) n)), andb_false_r, (proj2 (Nat.leb_le (1 + n) (S n))) by lia. done.
    + destruct (Nat.ltb_spec 0 r), (Nat.leb_spec r n), (Nat.leb_spec r (S n)); try done; lia.
Qed.

(** The copies of a word of sixteen bits. *)
Lemma replicated_bit x p : word_ok 16 x -> 0 <= p < 64 -> Z.testbit (u64 (x * ((2 ^ 64 - 1) / 0xFFFF))) p = Z.testbit x (p mod 16).
Proof.
  intros Hx Hp. unfold wrap. rewrite Z.mod_pow2_bits_low by lia.
  assert (x * ((2 ^ 64 - 1) / 0xFFFF) = ((x << 16 .| x) << 16 .| x) << 16 .| x) as ->.
  { rewrite !(Z.lor_comm _ x), !lor_shiftl_add by (done || lia). change ((2 ^ 64 - 1) / 0xFFFF) with 281479271743489. change (2 ^ 16) with 65536. lia. }
  rewrite fields_bit by done. assert (p / 16 = 0 \/ p / 16 = 1 \/ p / 16 = 2 \/ p / 16 = 3) as [-> |[-> |[-> | ->]]] by zdivmod; done.
Qed.

Lemma byte_at_parallel s p : length s = 8%nat -> Forall (word_ok 16) s -> 0 <= p < 64 ->
  byte_at ((fun x => u64 (x * ((2 ^ 64 - 1) / 0xFFFF))) <$> s) p = byte_at s (p mod 16).
Proof.
  intros Hl Hok Hp. apply byte_at_eq; [apply byte_at_ok|]. intros b Hb. rewrite slice_fmap, byte_at_bit by done. apply replicated_bit; [|done].
  unfold slice. destruct (lookup_lt_is_Some_2 s b) as [x E]; [lia|]. rewrite (nth_lookup_Some _ _ _ _ E). by apply (Forall_lookup_1 _ _ _ _ Hok E).
Qed.

Section Setup.
Context (nk : nat) (key : list Z) (Hnk : nk = 4%nat \/ nk = 6%nat \/ nk = 8%nat) (Hkey : bytes_ok key) (Hlen : (4 * nk <= length key)%nat).
Notation rkey := (round_key (key_expansion nk key)).

Lemma rkey_state r : (r <= nk + 6)%nat -> is_state (rkey r) /\ rkey r = state_of (fun p => nth (p mod 4) (key_word nk key (4 * r + p / 4)) 0).
Proof using Hnk Hkey Hlen. intros Hr. apply round_key_bytes; [lia|done|done|]. unfold rounds_of. lia. Qed.

(** The round keys once the constants are added. *)
Lemma serial_round_key ser r : holds_words nk key ((nk + 7) * 4) ser -> (r <= nk + 6)%nat ->
  let k := keys_at (foldl add_constant ser (seq 1 (nk + 6))) r in
  length k = 8%nat /\ Forall (word_ok 16) k /\ forall p, (p < 16)%nat -> byte_at k (Z.of_nat p) = at_ (if (r =? 0)%nat then rkey r else xor63 (rkey r)) p.
Proof using Hnk Hkey Hlen.
  intros (Hl&Hok&Hv) Hr. cbv zeta. destruct (keys_at_constants (nk + 6) ser r ltac:(lia)) as [_ ->].
  assert (length (keys_at ser r) = 8%nat) as Hls by (apply length_keys_at; lia). destruct (rkey_state r Hr) as [[Hst1 _] Hst2].
  assert (forall p, (p < 16)%nat -> byte_at (keys_at ser r) (Z.of_nat p) = at_ (rkey r) p) as Hser.
  { intros p Hp. rewrite Hv, Hst2, at_state_of by (done || lia). unfold cell_value. rewrite !(proj2 (Nat.ltb_lt _ _)) by (done || ndivmod). done. }
  assert (Forall (word_ok 16) (keys_at ser r)) as Hoks by (by apply Forall_take, Forall_drop).
  rewrite (proj2 (Nat.leb_le r _)) by lia. destruct r as [|r]; cbn [Nat.ltb Nat.leb andb Nat.eqb]; [done|]. split; [by apply length_ADD|]. split.
  - unfold BITSLICED_ADD, sbox_constant. destruct (keys_at ser (S r)) as [|x0 [|x1 [|x2 [|x3 [|x4 [|x5 [|x6 [|x7 []]]]]]]]]; try done.
    repeat match goal with H : Forall _ (_ :: _) |- _ => apply Forall_cons in H as [? H] end. cbn [zip_with].
    repeat (apply Forall_cons_2; [apply lxor_ok; [lia|done|split; [discriminate|reflexivity]]|]). apply Forall_nil_2.
  - intros p Hp. rewrite byte_at_add, Hser by done. unfold xor63. rewrite at_fmap by done. f_equal. do 16 (destruct p as [|p]; [reflexivity|]). lia.
Qed.

Lemma setup_start : sched_inv nk key 0 (mkSetup (replicate (MAXROUNDKEYS * 8) 0) (replicate 16 0) 0 0 0).
Proof using Hnk Hlen.
  constructor; cbn [st_serial st_inblk st_rconpos st_outslices st_outshift]; try done.
  - split; [done|]. split; [apply Forall_replicate; unfold word_ok; lia|]. intros r p Hr. unfold cell_value. rewrite (proj2 (Nat.ltb_ge (4 * r + p / 4) 0)), andb_false_r by lia.
    apply byte_at_zero; [apply length_keys_at; change (length (replicate (MAXROUNDKEYS * 8) 0)) with 120%nat; lia|]. apply Forall_take, Forall_drop, Forall_replicate, Z.bits_0.
  - symmetry. apply Nat.div_small. lia.
  - split; [done|]. apply Forall_replicate. unfold word_ok. lia.
Qed.

(** Slices that hold a state at every block. *)
Lemma view_by_bytes s i v : length v = 16%nat -> (forall p, (p < 16)%nat -> byte_at s (16 * Z.of_nat i + Z.of_nat p) = at_ v p) -> view s i = v.
Proof using Type. clear Hnk Hkey Hlen. intros Hl H. rewrite <- (state_of_at v Hl). by apply state_of_ext. Qed.

(** Both sets of round keys are those of FIPS 197. *)
Lemma key_setup_spec : exists sk, aes_sliced_key_setup key (32 * nk) = Some sk /\ rounds sk = rounds_of nk /\
  forall r, (r <= rounds_of nk)%nat -> holds_key 16 (keys_at (roundkeys_serial sk) r) r (rkey r) /\ holds_key 64 (keys_at (roundkeys_parallel sk) r) r (rkey r).
Proof using Hnk Hkey Hlen.
  unfold aes_sliced_key_setup. rewrite (Nat.mul_comm 32), (Nat.div_mul nk 32) by done. replace ((nk + 6 + 1) * 4 / 4)%nat with (nk + 7)%nat by ndivmod.
  replace ((nk + 6 + 1) * 4)%nat with ((nk + 7) * 4)%nat by lia. replace (nk + 7 - 1)%nat with (nk + 6)%nat by lia.
  destruct (setup_loop_spec nk key Hnk Hkey Hlen ((nk + 7) * 4) 0 _ setup_start) as (st&->&Hst); [lia|].
  cbn [Nat.add mbind option_bind]. set (rk := foldl add_constant (st_serial st) (seq 1 (nk + 6))).
  eexists. split; [done|]. split; [done|]. intros r Hr. unfold rounds_of in Hr. cbn [roundkeys_serial roundkeys_parallel].
  destruct (serial_round_key (st_serial st) r (si_words _ _ _ _ Hst) Hr) as (Hlk&Hok&Hk). fold rk in Hlk, Hok, Hk.
  assert (is_state (rkey r)) as Hst1 by (apply rkey_state; lia).
  assert (length (if (r =? 0)%nat then rkey r else xor63 (rkey r)) = 16%nat) as Hl16 by (destruct (r =? 0)%nat; [|unfold xor63; rewrite length_fmap]; apply Hst1).
  assert (keys_at ((fun x => u64 (x * ((2 ^ 64 - 1) / 0xFFFF))) <$> take (8 * (nk + 7)) rk) r = (fun x => u64 (x * ((2 ^ 64 - 1) / 0xFFFF))) <$> keys_at rk r) as Epar.
  { unfold keys_at. rewrite <- fmap_drop, <- fmap_take. f_equal. rewrite skipn_firstn_comm, take_take. f_equal. lia. }
  split; (split; [|split; [done|]]).
  - done.
  - intros i Hi. unfold in_words in Hi. assert (i = 0%nat) as -> by lia. apply view_by_bytes; [done|]. intros p Hp. apply (Hk p Hp).
  - by rewrite Epar, length_fmap.
  - intros i Hi. unfold in_words in Hi. apply view_by_bytes; [done|]. intros p Hp. rewrite Epar, byte_at_parallel by (done || lia).
    rewrite <- (Hk p Hp). f_equal. zdivmod.
Qed.
End Setup.
