(* ===== verification/SshAes.v ===== *)
(** * AES (sshaes.c): the two modes, in the software implementation

    CBC and SDCTR over the cipher in slices are the modes of NIST SP 800-38A over the cipher of FIPS 197, and instances of what the packet
    protocol relies on.  A [BignumInt] has 64 bits, so that four blocks are done in parallel.  The callers hand over whole blocks of sixteen bytes.  The
    hardware implementations and GCM, and [aes_select], which chooses between the implementations, are not modelled. *)

From Stdlib Require Import ZifyNat.
From S2P Require Import Prelude Marshal Mpint SshCrypto SshHash SshMd5 Fips197 SshAesSlice SshAesRounds SshAesKey.
Open Scope Z_scope.
Open Scope word_scope.

Definition SLICE_PARALLELISM : nat := 4.
Definition SDCTR_WORDS : nat := 2.

Definition memxor16 (lhs rhs : list Z) : list Z :=
  PUT_64BIT_LSB_FIRST (GET_64BIT_LSB_FIRST lhs .^ GET_64BIT_LSB_FIRST rhs)
  ++ PUT_64BIT_LSB_FIRST (GET_64BIT_LSB_FIRST (drop 8 lhs) .^ GET_64BIT_LSB_FIRST (drop 8 rhs)).

Definition aes_sliced_e_serial (input : list Z) (sk : aes_sliced_key) : list Z := aes_sliced_e 16 1 (rounds sk) (roundkeys_serial sk) input.
Definition aes_sliced_e_parallel (input : list Z) (sk : aes_sliced_key) : list Z :=
  aes_sliced_e 64 SLICE_PARALLELISM (rounds sk) (roundkeys_parallel sk) input.
Definition aes_sliced_d_parallel (input : list Z) (sk : aes_sliced_key) : list Z :=
  aes_sliced_d 64 SLICE_PARALLELISM (rounds sk) (roundkeys_parallel sk) input.

(** ** CBC

    The context with the CBC member of the union. *)
Record aes_cbc_context := mkCbc { cbc_sk : aes_sliced_key; prevblk : list Z }.

Definition aes_sw_setiv_cbc (sk : aes_sliced_key) (iv : list Z) : aes_cbc_context := mkCbc sk (take 16 iv).

(** The loop, with the blocks it writes; a block of fuel is enough for every 16 bytes. *)
Fixpoint cbc_encrypt_loop (fuel : nat) (ctx : aes_cbc_context) (blk : list Z) : aes_cbc_context * list Z :=
  match fuel, blk with
  | S fuel, _ :: _ =>
      let prev := memxor16 (prevblk ctx) (take 16 blk) in
      let prev := aes_sliced_e_serial prev (cbc_sk ctx) in
      let '(ctx, out) := cbc_encrypt_loop fuel (mkCbc (cbc_sk ctx) prev) (drop 16 blk) in
      (ctx, prev ++ out)
  | _, _ => (ctx, [])
  end.
Definition aes_cbc_sw_encrypt (ctx : aes_cbc_context) (blk : list Z) : aes_cbc_context * list Z := cbc_encrypt_loop (length blk) ctx blk.

(** Writing [n] blocks: what becomes of [data] and of [prevblk], and the output. *)
Fixpoint cbc_write (n : nat) (data prev blk : list Z) : list Z * list Z * list Z :=
  match n with
  | O => (data, prev, [])
  | S n =>
      let decrypted := memxor16 (take 16 data) prev in
      let '(data, prev, out) := cbc_write n (drop 16 data) (take 16 blk) (drop 16 blk) in
      (decrypted ++ data, prev, decrypted ++ out)
  end.

(** [while (blocks_remaining > 0)]; every iteration does one block at least. *)
Fixpoint cbc_decrypt_loop (fuel blocks_remaining : nat) (ctx : aes_cbc_context) (data blk : list Z) : aes_cbc_context * list Z :=
  match fuel, blocks_remaining with
  | S fuel, S _ =>
      let blocks := if (blocks_remaining <? SLICE_PARALLELISM)%nat then blocks_remaining else SLICE_PARALLELISM in
      let data := take (16 * blocks) blk ++ drop (16 * blocks) data in
      let data := aes_sliced_d_parallel data (cbc_sk ctx) in
      let '(data, prev, out) := cbc_write blocks data (prevblk ctx) blk in
      let '(ctx, rest) := cbc_decrypt_loop fuel (blocks_remaining - blocks) (mkCbc (cbc_sk ctx) prev) data (drop (16 * blocks) blk) in
      (ctx, out ++ rest)
  | _, _ => (ctx, blk)
  end.
Definition aes_cbc_sw_decrypt (ctx : aes_cbc_context) (blk : list Z) : aes_cbc_context * list Z :=
  let blocks_remaining := (length blk / 16)%nat in
  cbc_decrypt_loop blocks_remaining blocks_remaining ctx (replicate (SLICE_PARALLELISM * 16) 0) blk.

(** ** SDCTR

    The context with the SDCTR member of the union; [keystream_pos] is an index. *)
Record aes_sdctr_context := mkSdctr { ctr_sk : aes_sliced_key; counter : list Z; keystream : list Z; keystream_pos : nat }.

(** [keystream] is fresh memory, of which nothing is read before it is filled. *)
Definition aes_sw_setiv_sdctr (fresh : list Z) (sk : aes_sliced_key) (iv : list Z) : aes_sdctr_context :=
  mkSdctr sk ((fun i => GET_64BIT_MSB_FIRST (drop (16 - 8 - i * 8) iv)) <$> seq 0 SDCTR_WORDS) fresh (SLICE_PARALLELISM * 16).

(** The words of the counter go into the block from its end. *)
Definition counter_block (counter : list Z) : list Z := concat (PUT_64BIT_MSB_FIRST <$> rev counter).
Fixpoint counter_add (counter : list Z) (carry : Z) : list Z :=
  match counter with
  | [] => []
  | w :: counter => let '(w, carry) := BignumADC w 0 carry in w :: counter_add counter carry
  end.

(** The blocks of counter values to encrypt. *)
Fixpoint counter_blocks (n : nat) (counter : list Z) : list Z * list Z :=
  match n with
  | O => ([], counter)
  | S n =>
      let block := counter_block counter in
      let '(blocks, counter) := counter_blocks n (counter_add counter 1) in
      (block ++ blocks, counter)
  end.

Definition refill_keystream (ctx : aes_sdctr_context) : aes_sdctr_context :=
  let '(blocks, counter) := counter_blocks SLICE_PARALLELISM (counter ctx) in
  mkSdctr (ctr_sk ctx) counter (aes_sliced_e_parallel blocks (ctr_sk ctx)) 0.

Fixpoint sdctr_loop (fuel : nat) (ctx : aes_sdctr_context) (blk : list Z) : aes_sdctr_context * list Z :=
  match fuel, blk with
  | S fuel, _ :: _ =>
      let ctx := if (keystream_pos ctx =? SLICE_PARALLELISM * 16)%nat then refill_keystream ctx else ctx in
      let out := memxor16 (take 16 blk) (drop (keystream_pos ctx) (keystream ctx)) in
      let '(ctx, rest) := sdctr_loop fuel (mkSdctr (ctr_sk ctx) (counter ctx) (keystream ctx) (keystream_pos ctx + 16)) (drop 16 blk) in
      (ctx, out ++ rest)
  | _, _ => (ctx, [])
  end.
Definition aes_sdctr_sw (ctx : aes_sdctr_context) (blk : list Z) : aes_sdctr_context * list Z := sdctr_loop (length blk) ctx blk.

(** ** The ciphers, by the number of words of their keys

    The functions for lengths are null pointers in these vtables; nothing calls them, because the ciphers do not encrypt the length on its own. *)

Definition aes_sw_setkey (nk : nat) (key : list Z) : option aes_sliced_key := aes_sliced_key_setup key (32 * nk).

Definition aes_cbc_sw (nk : nat) : ssh_cipheralg := {|
  ca_ctx := aes_cbc_context;
  ca_new key iv := sk ← aes_sw_setkey nk key; Some (aes_sw_setiv_cbc sk iv);
  ca_encrypt := aes_cbc_sw_encrypt; ca_decrypt := aes_cbc_sw_decrypt;
  ca_encrypt_length c x _ := (c, x); ca_decrypt_length c x _ := (c, x);
  ca_blksize := 16; ca_padded_keybytes := Z.of_nat (4 * nk); ca_is_cbc := true; ca_separate_length := false
|}.
Definition aes_sdctr_sw_alg (fresh : list Z) (nk : nat) : ssh_cipheralg := {|
  ca_ctx := aes_sdctr_context;
  ca_new key iv := sk ← aes_sw_setkey nk key; Some (aes_sw_setiv_sdctr fresh sk iv);
  ca_encrypt := aes_sdctr_sw; ca_decrypt := aes_sdctr_sw;
  ca_encrypt_length c x _ := (c, x); ca_decrypt_length c x _ := (c, x);
  ca_blksize := 16; ca_padded_keybytes := Z.of_nat (4 * nk); ca_is_cbc := false; ca_separate_length := false
|}.

(** The first blocks of the examples F.2.1 and F.5.1 of SP 800-38A. *)
Example aes128_sp800_38a :
  let key := be_split 16 0x2b7e151628aed2a6abf7158809cf4f3c in
  let block := be_split 16 0x6bc1bee22e409f96e93d7e117393172a in
  ((c ← ca_new (aes_cbc_sw 4) key (be_split 16 0x000102030405060708090a0b0c0d0e0f); Some (be_val (ca_encrypt (aes_cbc_sw 4) c block).2)),
   (c ← ca_new (aes_sdctr_sw_alg [] 4) key (be_split 16 0xf0f1f2f3f4f5f6f7f8f9fafbfcfdfeff); Some (be_val (ca_encrypt (aes_sdctr_sw_alg [] 4) c block).2)))
  = (Some 0x7649abac8119b246cee98e9b12e9197d, Some 0x874d6191b620e3261bef6864990db6ce).
Proof. vm_compute. reflexivity. Qed.

(** ** The reference: the modes of SP 800-38A, on blocks *)

Section Modes.
Context (E D : list Z -> list Z).

Fixpoint cbc_encrypt (iv : list Z) (blocks : list (list Z)) : list (list Z) :=
  match blocks with [] => [] | p :: blocks => let c := E (xor_bytes p iv) in c :: cbc_encrypt c blocks end.
Fixpoint cbc_decrypt (iv : list Z) (blocks : list (list Z)) : list (list Z) :=
  match blocks with [] => [] | c :: blocks => xor_bytes (D c) iv :: cbc_decrypt c blocks end.

(** The counter is a number of 128 bits. *)
Definition ctr_key (n : Z) : list Z := E (be_split 16 n).
Fixpoint ctr_mode (n : Z) (blocks : list (list Z)) : list (list Z) :=
  match blocks with [] => [] | p :: blocks => xor_bytes p (ctr_key n) :: ctr_mode (n + 1) blocks end.

(** The last ciphertext block. *)
Definition last_block (iv : list Z) (blocks : list (list Z)) : list Z := default iv (list.last blocks).
End Modes.

(** ** Blocks *)

Lemma blocks_of x : bytes_ok x -> (16 | len x) -> exists blocks, x = concat blocks /\ Forall is_state blocks.
Proof.
  intros Hx [k Hk]. remember (Z.to_nat k) as n eqn:En. assert (length x = 16 * n)%nat as Hl by (unfold len in Hk; lia). clear Hk En k.
  revert x Hx Hl. induction n as [|n IH]; intros x Hx Hl; [exists []; destruct x; done|].
  destruct (IH (drop 16 x)) as (bs&E&Hbs); [by apply Forall_drop|rewrite length_drop; lia|]. exists (take 16 x :: bs).
  split; [cbn [concat]; by rewrite <- E, take_drop|]. constructor; [|done]. split; [rewrite length_take; lia|by apply Forall_take].
Qed.

Lemma length_blocks blocks : Forall is_state blocks -> length (concat blocks) = (16 * length blocks)%nat.
Proof. induction 1 as [|b blocks [Hb _] _ IH]; [done|]. cbn [concat length]. rewrite length_app, Hb, IH. lia. Qed.

Lemma bytes_blocks blocks : Forall is_state blocks -> bytes_ok (concat blocks).
Proof. induction 1 as [|b blocks [_ Hb] _ IH]; [by apply Forall_nil|]. cbn [concat]. by apply Forall_app. Qed.

(** ** [memxor16] *)

Lemma xor_bytes_ok a b : bytes_ok a -> bytes_ok b -> bytes_ok (xor_bytes a b).
Proof.
  intros Ha. revert b. induction Ha as [|x a Hx _ IH]; intros [|y b] Hb; try apply Forall_nil_2. apply Forall_cons in Hb as [Hy Hb].
  unfold xor_bytes. cbn [zip_with]. constructor; [apply lxor_ok; [lia|done|done]|by apply IH].
Qed.

Lemma be_val_xor a b : length a = length b -> bytes_ok a -> bytes_ok b -> be_val (xor_bytes a b) = be_val a .^ be_val b.
Proof.
  revert b. induction a as [|x a IH] using rev_ind; intros b Hl Ha Hb; [destruct b; done|].
  destruct b as [|y b _] using rev_ind; [rewrite length_app in Hl; cbn in Hl; lia|]. rewrite !length_app in Hl. cbn in Hl.
  apply Forall_app in Ha as [Ha Hx], Hb as [Hb Hy]. apply Forall_cons in Hx as [Hx _], Hy as [Hy _].
  unfold xor_bytes in *. rewrite zip_with_app by lia. cbn [zip_with]. rewrite !be_val_snoc, (IH b) by (done || lia).
  assert (word_ok 8 (x .^ y)) as Hxy by (apply lxor_ok; [lia|done|done]).
  change 256 with (2 ^ 8). rewrite !(Z.add_comm (_ * 2 ^ 8)). rewrite <- (lor_shiftl_add 8 (x .^ y)), <- (lor_shiftl_add 8 x), <- (lor_shiftl_add 8 y) by (done || lia).
  apply Z.bits_inj'. intros i Hi. rewrite Z.lxor_spec, !Z.lor_spec, Z.lxor_spec. destruct (Z.lt_ge_cases i 8).
  - rewrite !Z.shiftl_spec_low by done. by rewrite !orb_false_r.
  - rewrite (testbit_high 8 x), (testbit_high 8 y), !Z.shiftl_spec, Z.lxor_spec by (done || lia). done.
Qed.

Lemma GET_64BIT_LSB_val p : bytes_ok p -> (8 <= length p)%nat -> GET_64BIT_LSB_FIRST p = be_val (rev (take 8 p)).
Proof.
  intros Hp Hl. do 8 (destruct p as [|? p]; [cbn in Hl; lia|]). repeat match goal with H : Forall _ (_ :: _) |- _ => apply Forall_cons in H as [? H] end.
  unfold GET_64BIT_LSB_FIRST. cbv [nth take firstn rev app be_val fold_left]. lor_val. lia.
Qed.

Lemma memxor16_ok a b : is_state (memxor16 a b).
Proof. split; [done|]. unfold memxor16. rewrite !PUT_64BIT_LSB_split. apply Forall_app. split; apply Forall_rev, be_split_ok. Qed.

Lemma memxor8 a b : bytes_ok a -> bytes_ok b -> (8 <= length a)%nat -> (8 <= length b)%nat ->
  PUT_64BIT_LSB_FIRST (GET_64BIT_LSB_FIRST a .^ GET_64BIT_LSB_FIRST b) = xor_bytes (take 8 a) (take 8 b).
Proof.
  intros Ha Hb Hla Hlb. rewrite PUT_64BIT_LSB_split, !GET_64BIT_LSB_val by done.
  assert (bytes_ok (rev (take 8 a)) /\ bytes_ok (rev (take 8 b)) /\ length (rev (take 8 a)) = 8%nat /\ length (rev (take 8 b)) = 8%nat) as (Ha'&Hb'&Hla'&Hlb').
  { rewrite !length_rev, !length_take. split_and!; try lia; apply Forall_rev; by apply Forall_take. }
  rewrite <- be_val_xor by (done || lia). set (l := xor_bytes (rev _) _). assert (length l = 8%nat) as Hl by (unfold l, xor_bytes; rewrite length_zip_with; lia).
  pose proof (be_split_val l (xor_bytes_ok _ _ Ha' Hb')) as El. rewrite Hl in El. rewrite El. unfold l. clear -Hla Hlb.
  do 8 (destruct a as [|? a]; [cbn in Hla; lia|]). do 8 (destruct b as [|? b]; [cbn in Hlb; lia|]). done.
Qed.

Lemma memxor16_spec a b : bytes_ok a -> bytes_ok b -> (16 <= length a)%nat -> (16 <= length b)%nat -> memxor16 a b = xor_bytes (take 16 a) (take 16 b).
Proof.
  intros Ha Hb Hla Hlb. unfold memxor16. rewrite !memxor8 by (try apply Forall_drop; rewrite ?length_drop; done || lia). unfold xor_bytes.
  rewrite <- zip_with_app by (rewrite !length_take; lia). by rewrite !take_take_drop.
Qed.

Lemma memxor16_state a b : is_state a -> is_state b -> memxor16 a b = xor_bytes a b.
Proof. intros [Hla Ha] [Hlb Hb]. rewrite memxor16_spec by (done || lia). by rewrite !take_ge by lia. Qed.

(** ** Contexts with their keys *)

Lemma xor_comm a b : xor_bytes a b = xor_bytes b a.
Proof. revert b. induction a as [|x a IH]; intros [|y b]; try done. unfold xor_bytes. cbn [zip_with]. f_equal; [apply Z.lxor_comm|apply IH]. Qed.

(** The key of [nk] words behind [sk]. *)
Definition keyed (nk : nat) (sk : aes_sliced_key) (key : list Z) : Prop :=
  (nk = 4 \/ nk = 6 \/ nk = 8)%nat /\ bytes_ok key /\ (4 * nk <= length key)%nat /\ aes_sw_setkey nk key = Some sk.

Section Keyed.
Context (nk : nat) (sk : aes_sliced_key) (key : list Z) (Hk : keyed nk sk key).

Lemma keyed_spec : rounds sk = rounds_of nk /\ (0 < rounds_of nk)%nat /\
  forall r, (r <= rounds_of nk)%nat -> holds_key 16 (keys_at (roundkeys_serial sk) r) r (round_key (key_expansion nk key) r)
    /\ holds_key 64 (keys_at (roundkeys_parallel sk) r) r (round_key (key_expansion nk key) r).
Proof using Hk.
  destruct Hk as (Hnk&Hb&Hl&E). destruct (key_setup_spec nk key Hnk Hb Hl) as (sk'&E'&Hr&Hh).
  unfold aes_sw_setkey in E. rewrite E' in E. injection E as ->. split; [done|]. split; [unfold rounds_of; lia|done].
Qed.

Lemma serial_correct x : is_state x -> aes_sliced_e_serial x sk = aes nk key x.
Proof using Hk.
  intros [Hl Hb]. destruct keyed_spec as (Hr&Hpos&Hh). unfold aes_sliced_e_serial. rewrite Hr.
  rewrite (sliced_e_correct 16 ltac:(by left) 1 (rounds_of nk) ltac:(lia) Hpos _ (round_key (key_expansion nk key)) (fun r H => proj1 (Hh r H)) x Hb Hl).
  cbn [seq fmap list_fmap concat]. rewrite app_nil_r, drop_0, take_ge by lia. done.
Qed.

Lemma e_parallel_correct x : bytes_ok x -> length x = 64%nat ->
  aes_sliced_e_parallel x sk = concat ((fun i => aes nk key (take 16 (drop (16 * i) x))) <$> seq 0 4).
Proof using Hk.
  intros Hb Hl. destruct keyed_spec as (Hr&Hpos&Hh). unfold aes_sliced_e_parallel, SLICE_PARALLELISM. rewrite Hr.
  by rewrite (sliced_e_correct 64 ltac:(by right) 4 (rounds_of nk) ltac:(lia) Hpos _ (round_key (key_expansion nk key)) (fun r H => proj2 (Hh r H)) x Hb Hl).
Qed.

Lemma d_parallel_correct x : bytes_ok x -> length x = 64%nat ->
  aes_sliced_d_parallel x sk = concat ((fun i => inv_aes nk key (take 16 (drop (16 * i) x))) <$> seq 0 4).
Proof using Hk.
  intros Hb Hl. destruct keyed_spec as (Hr&Hpos&Hh). unfold aes_sliced_d_parallel, SLICE_PARALLELISM. rewrite Hr.
  by rewrite (sliced_d_correct 64 ltac:(by right) 4 (rounds_of nk) ltac:(lia) Hpos _ (round_key (key_expansion nk key)) (fun r H => proj2 (Hh r H)) x Hb Hl).
Qed.

Lemma keys_are_states r : (r <= rounds_of nk)%nat -> is_state (round_key (key_expansion nk key) r).
Proof using Hk. intros Hr. destruct keyed_spec as (_&_&Hh). by destruct (Hh r Hr) as [(_&?&_) _]. Qed.

Lemma aes_state x : is_state x -> is_state (aes nk key x) /\ is_state (inv_aes nk key x) /\ inv_aes nk key (aes nk key x) = x.
Proof using Hk.
  intros Hx. split_and!; [apply is_state_cipher|apply is_state_inv_cipher|apply inv_cipher_cipher]; done || apply keys_are_states.
Qed.
End Keyed.

Lemma last_block_cons iv b blocks : last_block iv (b :: blocks) = last_block b blocks.
Proof. unfold last_block. rewrite last_cons. by destruct (list.last blocks). Qed.

Lemma last_block_app iv b1 b2 : last_block iv (b1 ++ b2) = last_block (last_block iv b1) b2.
Proof. unfold last_block. rewrite last_app. by destruct (list.last b2). Qed.

Lemma last_block_state iv blocks : is_state iv -> Forall is_state blocks -> is_state (last_block iv blocks).
Proof. intros Hiv Hb. revert iv Hiv. induction Hb as [|b blocks Hb _ IH]; intros iv Hiv; [done|]. rewrite last_block_cons. by apply IH. Qed.

Lemma cbc_encrypt_app E iv b1 b2 : cbc_encrypt E iv (b1 ++ b2) = cbc_encrypt E iv b1 ++ cbc_encrypt E (last_block iv (cbc_encrypt E iv b1)) b2.
Proof. revert iv. induction b1 as [|b b1 IH]; intros iv; [done|]. cbn [app cbc_encrypt]. by rewrite IH, last_block_cons. Qed.

Lemma cbc_decrypt_app D iv b1 b2 : cbc_decrypt D iv (b1 ++ b2) = cbc_decrypt D iv b1 ++ cbc_decrypt D (last_block iv b1) b2.
Proof. revert iv. induction b1 as [|b b1 IH]; intros iv; [done|]. cbn [app cbc_decrypt]. by rewrite IH, last_block_cons. Qed.

Lemma concat_state b blocks : is_state b -> take 16 (concat (b :: blocks)) = b /\ drop 16 (concat (b :: blocks)) = concat blocks.
Proof. intros [Hl _]. cbn [concat]. rewrite <- Hl. by rewrite take_app_length, drop_app_length. Qed.

Lemma each_block (f : list Z -> list Z) blocks : Forall is_state blocks ->
  (fun i => f (take 16 (drop (16 * i) (concat blocks)))) <$> seq 0 (length blocks) = f <$> blocks.
Proof.
  induction 1 as [|b blocks Hb Hbs IH]; [done|]. cbn [length seq]. rewrite <- seq_shift, fmap_cons, <- list_fmap_compose. cbn [fmap list_fmap].
  destruct (concat_state b blocks Hb) as [E1 E2]. f_equal; [by rewrite Nat.mul_0_r, drop_0, E1|]. fold (fmap (M := list) f blocks). rewrite <- IH.
  apply list_fmap_ext. intros j i _. unfold compose. f_equal. rewrite <- E2, drop_drop. do 2 f_equal. lia.
Qed.

(** ** CBC *)

Section Cbc.
Context (nk : nat) (sk : aes_sliced_key) (key : list Z) (Hk : keyed nk sk key).
Notation E := (aes nk key).
Notation D := (inv_aes nk key).

Lemma E_state x : is_state x -> is_state (E x).
Proof using Hk. intros Hx. by apply (aes_state nk sk key Hk x Hx). Qed.
Lemma D_state x : is_state x -> is_state (D x).
Proof using Hk. intros Hx. by apply (aes_state nk sk key Hk x Hx). Qed.

Lemma cbc_encrypt_states iv blocks : is_state iv -> Forall is_state blocks -> Forall is_state (cbc_encrypt E iv blocks).
Proof using Hk.
  intros Hiv Hb. revert iv Hiv. induction Hb as [|b blocks Hb _ IH]; intros iv Hiv; [by apply Forall_nil|]. cbn [cbc_encrypt].
  assert (is_state (E (xor_bytes b iv))) by (by apply E_state, is_state_xor). constructor; [done|by apply IH].
Qed.

Lemma cbc_decrypt_states iv blocks : is_state iv -> Forall is_state blocks -> Forall is_state (cbc_decrypt D iv blocks).
Proof using Hk.
  intros Hiv Hb. revert iv Hiv. induction Hb as [|b blocks Hb _ IH]; intros iv Hiv; [by apply Forall_nil|]. cbn [cbc_decrypt].
  constructor; [by apply is_state_xor; [apply D_state|]|by apply IH].
Qed.

(** Decryption undoes encryption. *)
Lemma cbc_inverse iv blocks : is_state iv -> Forall is_state blocks -> cbc_decrypt D iv (cbc_encrypt E iv blocks) = blocks.
Proof using Hk.
  intros Hiv Hb. revert iv Hiv. induction Hb as [|b blocks Hb _ IH]; intros iv Hiv; [done|]. cbn [cbc_encrypt cbc_decrypt].
  assert (is_state (xor_bytes b iv)) as Hx by by apply is_state_xor. destruct (aes_state nk sk key Hk _ Hx) as (He&_&->).
  rewrite inv_round_key, IH by done. done.
Qed.

Lemma encrypt_loop_spec fuel prev blocks : is_state prev -> Forall is_state blocks -> (length blocks <= fuel)%nat ->
  cbc_encrypt_loop fuel (mkCbc sk prev) (concat blocks)
  = (mkCbc sk (last_block prev (cbc_encrypt E prev blocks)), concat (cbc_encrypt E prev blocks)).
Proof using Hk.
  intros Hp Hb. revert fuel prev Hp. induction Hb as [|b blocks Hb Hbs IH]; intros fuel prev Hp Hf; [by destruct fuel|].
  destruct fuel as [|fuel]; [cbn in Hf; lia|]. destruct (concat_state b blocks Hb) as [E1 E2].
  destruct (concat (b :: blocks)) as [|x l] eqn:Ec; [cbn [concat] in Ec; apply app_eq_nil in Ec as [-> _]; by destruct Hb|].
  cbn [cbc_encrypt_loop cbc_sk prevblk]. rewrite E1, E2, memxor16_state, xor_comm by done.
  assert (is_state (xor_bytes b prev)) as Hx by by apply is_state_xor. rewrite (serial_correct nk sk key Hk _ Hx).
  rewrite IH by (first [by apply E_state | cbn in Hf; lia]). cbn [cbc_encrypt concat]. by rewrite last_block_cons.
Qed.

Lemma cbc_write_spec prev blocks dr br : is_state prev -> Forall is_state blocks ->
  cbc_write (length blocks) (concat (D <$> blocks) ++ dr) prev (concat blocks ++ br)
  = (concat (cbc_decrypt D prev blocks) ++ dr, last_block prev blocks, concat (cbc_decrypt D prev blocks)).
Proof using Hk.
  intros Hp Hb. revert prev Hp. induction Hb as [|b blocks Hb Hbs IH]; intros prev Hp; [done|]. cbn [length cbc_write fmap list_fmap concat cbc_decrypt].
  fold (fmap (M := list) D blocks). pose proof (D_state b Hb) as HD. destruct Hb as [Hl Hbb], HD as [HlD HbD]. rewrite <- !app_assoc.
  rewrite (take_app_length' (D b)), (drop_app_length' (D b)), (take_app_length' b), (drop_app_length' b) by done.
  rewrite IH by done. rewrite memxor16_state by done. by rewrite last_block_cons.
Qed.

Lemma decrypt_loop_spec fuel prev ds blocks :
  is_state prev -> Forall is_state ds -> length ds = 4%nat -> Forall is_state blocks -> (length blocks <= fuel)%nat ->
  cbc_decrypt_loop fuel (length blocks) (mkCbc sk prev) (concat ds) (concat blocks)
  = (mkCbc sk (last_block prev blocks), concat (cbc_decrypt D prev blocks)).
Proof using Hk.
  revert prev ds blocks. induction fuel as [|fuel IH]; intros prev ds blocks Hp Hds Hld Hb Hf; [destruct blocks; [done|cbn in Hf; lia]|].
  destruct (length blocks) as [|m] eqn:El; [by apply nil_length_inv in El as ->|]. cbn [cbc_decrypt_loop]. rewrite <- El in *. assert (0 < length blocks)%nat as Hpos by lia. clear m El. set (n := if (length blocks <? SLICE_PARALLELISM)%nat then length blocks else SLICE_PARALLELISM).
  assert (0 < n <= 4 /\ n <= length blocks)%nat as Hn by (unfold n, SLICE_PARALLELISM; destruct (Nat.ltb_spec (length blocks) 4); lia).
  set (b1 := take n blocks). set (b2 := drop n blocks). assert (blocks = b1 ++ b2) as Esplit by (unfold b1, b2; by rewrite take_drop).
  assert (length b1 = n) as Hl1 by (unfold b1; rewrite length_take; lia).
  assert (Forall is_state b1 /\ Forall is_state b2) as [Hb1 Hb2] by (apply Forall_app; by rewrite <- Esplit).
  rewrite Esplit, concat_app. assert (length (concat b1) = 16 * n)%nat as Hlc by (rewrite length_blocks, Hl1 by done; lia).
  rewrite <- Hlc, take_app_length, drop_app_length, Hlc.
  assert (drop (16 * n) (concat ds) = concat (drop n ds)) as Edr.
  { rewrite <- (take_drop n ds) at 1. rewrite concat_app, drop_app_length'; [done|].
    rewrite length_blocks by by apply Forall_take. rewrite length_take. lia. }
  set (ds1 := b1 ++ drop n ds). rewrite Edr, <- concat_app. fold ds1.
  assert (Forall is_state ds1) as Hds1 by (apply Forall_app; split; [done|by apply Forall_drop]).
  assert (length ds1 = 4%nat) as Hl4 by (unfold ds1; rewrite length_app, length_drop; lia).
  rewrite (d_parallel_correct nk sk key Hk) by (first [by apply bytes_blocks | rewrite length_blocks by done; lia]).
  pose proof (each_block D ds1 Hds1) as Eb. rewrite Hl4 in Eb. rewrite Eb. unfold ds1. rewrite fmap_app, concat_app. cbn [cbc_sk prevblk]. rewrite <- Hl1 at 1.
  rewrite cbc_write_spec by done. rewrite length_app, Hl1. replace (n + length b2 - n)%nat with (length b2) by lia. rewrite <- concat_app.
  rewrite IH.
  - by rewrite cbc_decrypt_app, last_block_app, concat_app.
  - by apply last_block_state.
  - apply Forall_app. split; [by apply cbc_decrypt_states|]. apply Forall_fmap. apply Forall_drop with (n := n) in Hds.
    eapply Forall_impl; [exact Hds|]. intros x. apply D_state.
  - rewrite length_app, length_fmap, length_drop. assert (length (cbc_decrypt D prev b1) = length b1) as ->; [|lia].
    clear. revert prev. induction b1 as [|b b1 IH]; intros prev; [done|]. cbn. by rewrite IH.
  - done.
  - rewrite Esplit, length_app in Hf. lia.
Qed.

Lemma cbc_encrypt_spec prev blocks : is_state prev -> Forall is_state blocks ->
  aes_cbc_sw_encrypt (mkCbc sk prev) (concat blocks) = (mkCbc sk (last_block prev (cbc_encrypt E prev blocks)), concat (cbc_encrypt E prev blocks)).
Proof using Hk. intros Hp Hb. apply encrypt_loop_spec; [done|done|]. rewrite length_blocks by done. lia. Qed.

Lemma cbc_decrypt_spec prev blocks : is_state prev -> Forall is_state blocks ->
  aes_cbc_sw_decrypt (mkCbc sk prev) (concat blocks) = (mkCbc sk (last_block prev blocks), concat (cbc_decrypt D prev blocks)).
Proof using Hk.
  intros Hp Hb. unfold aes_cbc_sw_decrypt. rewrite length_blocks by done. replace (16 * length blocks / 16)%nat with (length blocks) by ndivmod.
  apply (decrypt_loop_spec (length blocks) prev (replicate 4 (replicate 16 0))); try done. apply Forall_replicate. split; [done|]. apply Forall_replicate. done.
Qed.
End Cbc.

(** ** SDCTR *)

Lemma be_split_add a b v : be_split (a + b) v = be_split a (v / 256 ^ Z.of_nat b) ++ be_split b v.
Proof.
  revert v. induction b as [|b IH]; intros v; [by rewrite Nat.add_0_r, Z.div_1_r, app_nil_r|].
  rewrite Nat.add_succ_r. change (be_split (S (a + b)) v) with (be_split (a + b) (v / 256) ++ [v mod 256]).
  change (be_split (S b) v) with (be_split b (v / 256) ++ [v mod 256]). rewrite IH, <- app_assoc. do 2 f_equal. rewrite Z.div_div, Nat2Z.inj_succ, Z.pow_succ_r by lia. done.
Qed.

Lemma be_val_app a b : be_val (a ++ b) = be_val a * 256 ^ len b + be_val b.
Proof.
  induction b as [|x b IH] using rev_ind; [rewrite app_nil_r; change (len (@nil Z)) with 0; unfold be_val; cbn; lia|].
  rewrite app_assoc, !be_val_snoc, IH, len_app. change (len [x]) with 1. pose proof (len_nonneg b). rewrite Z.pow_add_r by lia. lia.
Qed.

(** The words of a counter. *)
Definition words_of (n : Z) : list Z := [u64 n; u64 (n / 2 ^ 64)].

Lemma counter_block_words n : counter_block (words_of n) = be_split 16 n.
Proof.
  unfold counter_block, words_of. cbn [rev app fmap list_fmap concat]. rewrite app_nil_r, !PUT_64BIT_split, !be_split_wrap. symmetry. apply (be_split_add 8 8).
Qed.

Lemma counter_add_words n : counter_add (words_of n) 1 = words_of (n + 1).
Proof.
  unfold words_of. cbn [counter_add]. assert (forall x, word_ok 64 (u64 x)) as Hu by (intros x; apply wrap_range; lia).
  rewrite BignumADC_spec by (done || lia || (unfold word_ok; lia)). rewrite BignumADC_spec; [|done|unfold word_ok; lia|pose proof (Hu n) as [? ?]; unfold WB; zdivmod].
  unfold wrap, WB. f_equal; [|f_equal].
  - rewrite Z.add_0_r, Zplus_mod_idemp_l. done.
  - rewrite Z.add_0_r, Zplus_mod_idemp_l. f_equal. zdivmod.
Qed.

Lemma counter_blocks_words k n :
  counter_blocks k (words_of n) = (concat ((fun i => be_split 16 (n + Z.of_nat i)) <$> seq 0 k), words_of (n + Z.of_nat k)).
Proof.
  revert n. induction k as [|k IH]; intros n; [by rewrite Z.add_0_r|]. cbn [counter_blocks]. rewrite counter_add_words, IH, counter_block_words.
  cbn [seq fmap list_fmap concat]. rewrite <- seq_shift, <- list_fmap_compose, Z.add_0_r. f_equal; [|f_equal; lia]. f_equal. f_equal.
  apply list_fmap_ext. intros i x _. unfold compose. f_equal. lia.
Qed.

Lemma GET_64BIT_take p : bytes_ok p -> (8 <= length p)%nat -> GET_64BIT_MSB_FIRST p = be_val (take 8 p).
Proof.
  intros Hp Hl. rewrite <- GET_64BIT_val by (first [by apply Forall_take | rewrite length_take; lia]).
  do 8 (destruct p as [|? p]; [cbn in Hl; lia|]). done.
Qed.

Lemma start_words iv : bytes_ok iv -> (16 <= length iv)%nat ->
  (fun i => GET_64BIT_MSB_FIRST (drop (16 - 8 - i * 8) iv)) <$> seq 0 SDCTR_WORDS = words_of (be_val (take 16 iv)).
Proof.
  intros Hb Hl. cbn [SDCTR_WORDS seq fmap list_fmap Nat.sub Nat.mul Nat.add]. rewrite !GET_64BIT_take by (try apply Forall_drop; rewrite ?length_drop; done || lia).
  rewrite drop_0. assert (take 16 iv = take 8 iv ++ take 8 (drop 8 iv)) as -> by (by rewrite take_take_drop). rewrite be_val_app.
  assert (len (take 8 (drop 8 iv)) = 8) as -> by (unfold len; rewrite length_take, length_drop; lia).
  assert (forall l, bytes_ok l -> word_ok 64 (be_val (take 8 l))) as Hw.
  { intros l Hlb. pose proof (be_val_bound (take 8 l) (Forall_take _ 8 _ Hlb)) as [? Hlt]. split; [done|]. eapply Z.lt_le_trans; [exact Hlt|].
    change (2 ^ 64) with (256 ^ 8). apply Z.pow_le_mono_r; [lia|]. unfold len. rewrite length_take. lia. }
  pose proof (Hw iv Hb) as H1. pose proof (Hw (drop 8 iv) (Forall_drop _ 8 _ Hb)) as H2. change (256 ^ 8) with (2 ^ 64). unfold words_of, wrap. f_equal; [|f_equal].
  - rewrite Z.add_comm, Z.mod_add, Z.mod_small by done. done.
  - rewrite Z.add_comm, Z.div_add, Z.div_small, Z.mod_small by done. done.
Qed.

Section Sdctr.
Context (nk : nat) (sk : aes_sliced_key) (key : list Z) (Hk : keyed nk sk key).
Notation E := (aes nk key).

(** The next block to be used is that of counter [n]; [k] blocks are left in the buffer. *)
Record ctr_at (n : Z) (c : aes_sdctr_context) : Prop := {
  ca_key : ctr_sk c = sk;
  ca_left : exists k, (k <= 4)%nat /\ keystream_pos c = (16 * (4 - k))%nat /\ counter c = words_of (n + Z.of_nat k)
    /\ (k = 0%nat \/ drop (keystream_pos c) (keystream c) = concat ((fun i => ctr_key E (n + Z.of_nat i)) <$> seq 0 k))
}.

Lemma ctr_key_state n : is_state (ctr_key E n).
Proof using Hk. apply (aes_state nk sk key Hk). split; [apply length_be_split|apply be_split_ok]. Qed.

Lemma ctr_keys_states n l : Forall is_state ((fun i => ctr_key E (n + Z.of_nat i)) <$> l).
Proof using Hk. apply Forall_fmap, Forall_forall. intros i _. apply ctr_key_state. Qed.

Lemma refill_keystream_spec n c : ctr_at n c -> keystream_pos c = 64%nat ->
  ctr_at n (refill_keystream c) /\ keystream_pos (refill_keystream c) = 0%nat
  /\ keystream (refill_keystream c) = concat ((fun i => ctr_key E (n + Z.of_nat i)) <$> seq 0 4).
Proof using Hk.
  intros [Ek (k&Hle&Epos&Ec&_)] Hpos. assert (k = 0%nat) as -> by lia. rewrite Z.add_0_r in Ec.
  unfold refill_keystream. rewrite Ec, counter_blocks_words, Ek. set (bs := (fun i => be_split 16 (n + Z.of_nat i)) <$> seq 0 SLICE_PARALLELISM).
  assert (Forall is_state bs) as Hbs by (apply Forall_fmap, Forall_forall; intros i _; split; [apply length_be_split|apply be_split_ok]).
  assert (aes_sliced_e_parallel (concat bs) sk = concat ((fun i => ctr_key E (n + Z.of_nat i)) <$> seq 0 4)) as Eks.
  { rewrite (e_parallel_correct nk sk key Hk) by (first [by apply bytes_blocks | rewrite length_blocks by done; done]).
    pose proof (each_block E bs Hbs) as Eb. change (length bs) with 4%nat in Eb. rewrite Eb. unfold bs. by rewrite <- list_fmap_compose. }
  rewrite Eks. split; [|done]. split; [done|]. exists 4%nat. split_and!; [done|done|done|by right].
Qed.

Lemma sdctr_loop_spec fuel n c blocks : ctr_at n c -> Forall is_state blocks -> (length blocks <= fuel)%nat ->
  exists c', sdctr_loop fuel c (concat blocks) = (c', concat (ctr_mode E n blocks)) /\ ctr_at (n + Z.of_nat (length blocks)) c'.
Proof using Hk.
  intros Hc Hb. revert fuel n c Hc. induction Hb as [|b blocks Hb Hbs IH]; intros fuel n c Hc Hf.
  { exists c. split; [by destruct fuel|]. by rewrite Z.add_0_r. }
  destruct fuel as [|fuel]; [cbn in Hf; lia|]. destruct (concat_state b blocks Hb) as [E1 E2].
  destruct (concat (b :: blocks)) as [|x l] eqn:Ec; [cbn [concat] in Ec; apply app_eq_nil in Ec as [-> _]; by destruct Hb|].
  cbn [sdctr_loop]. change (SLICE_PARALLELISM * 16)%nat with 64%nat. set (c1 := if (keystream_pos c =? 64)%nat then refill_keystream c else c).
  assert (exists k, ctr_sk c1 = sk /\ (k < 4)%nat /\ keystream_pos c1 = (16 * (4 - S k))%nat /\ counter c1 = words_of (n + Z.of_nat (S k))
    /\ drop (keystream_pos c1) (keystream c1) = concat ((fun i => ctr_key E (n + Z.of_nat i)) <$> seq 0 (S k))) as (k&Ek&Hk4&Hpos&Ecnt&Eks).
  { unfold c1. destruct (Nat.eqb_spec (keystream_pos c) 64) as [Hp|Hp].
    - destruct (refill_keystream_spec n c Hc Hp) as ([R1 (k&Hle&R2&R3&_)]&R4&R5). assert (k = 4%nat) as -> by lia. exists 3%nat.
      rewrite R4 in *. rewrite R5, drop_0. split_and!; first [done | lia].
    - destruct Hc as [R1 (k&Hle&R2&R3&R4)]. destruct k as [|k]; [lia|]. destruct R4 as [R4|R4]; [done|]. exists k. split_and!; try done. }
  rewrite E1, E2, Eks. cbn [seq fmap list_fmap concat]. rewrite Z.add_0_r.
  assert (memxor16 b (ctr_key E n ++ concat ((fun i => ctr_key E (n + Z.of_nat i)) <$> seq 1 k)) = xor_bytes b (ctr_key E n)) as ->.
  { pose proof (ctr_key_state n) as [Hl Hbk]. destruct Hb as [Hlb Hbb]. rewrite memxor16_spec.
    - rewrite take_ge by lia. by rewrite take_app_length'.
    - done.
    - apply Forall_app. split; [done|]. apply bytes_blocks, ctr_keys_states.
    - lia.
    - rewrite length_app. lia. }
  destruct (IH fuel (n + 1) (mkSdctr (ctr_sk c1) (counter c1) (keystream c1) (keystream_pos c1 + 16))) as (c'&->&Hc'); [|cbn in Hf; lia|].
  - split; [done|]. exists k. cbn [keystream_pos keystream counter]. split_and!; [lia|lia|rewrite Ecnt; f_equal; lia|]. right.
    rewrite <- drop_drop, Eks. cbn [seq fmap list_fmap concat]. rewrite drop_app_length' by (rewrite Z.add_0_r; symmetry; apply ctr_key_state).
    rewrite <- seq_shift, <- list_fmap_compose. f_equal. apply list_fmap_ext. intros i y _. unfold compose. f_equal. lia.
  - exists c'. split; [done|]. replace (n + Z.of_nat (length (b :: blocks))) with (n + 1 + Z.of_nat (length blocks)) by (cbn; lia). done.
Qed.

Lemma sdctr_spec n c blocks : ctr_at n c -> Forall is_state blocks ->
  exists c', aes_sdctr_sw c (concat blocks) = (c', concat (ctr_mode E n blocks)) /\ ctr_at (n + Z.of_nat (length blocks)) c'.
Proof using Hk. intros Hc Hb. apply sdctr_loop_spec; [done|done|]. rewrite length_blocks by done. lia. Qed.

Lemma ctr_mode_states n blocks : Forall is_state blocks -> Forall is_state (ctr_mode E n blocks) /\ ctr_mode E n (ctr_mode E n blocks) = blocks.
Proof using Hk.
  intros Hb. revert n. induction Hb as [|b blocks Hb _ IH]; intros n; [done|]. cbn [ctr_mode]. destruct (IH (n + 1)) as [IH1 IH2].
  pose proof (ctr_key_state n) as Hkey. split; [constructor; [by apply is_state_xor|done]|]. by rewrite IH2, inv_round_key.
Qed.

Lemma length_ctr_mode n blocks : length (ctr_mode E n blocks) = length blocks.
Proof using Type. revert n. induction blocks as [|b blocks IH]; intros n; [done|]. cbn. by rewrite IH. Qed.

Lemma ctr_start fresh iv : bytes_ok iv -> (16 <= length iv)%nat -> ctr_at (be_val (take 16 iv)) (aes_sw_setiv_sdctr fresh sk iv).
Proof using Type.
  intros Hb Hl. split; [done|]. exists 0%nat. unfold aes_sw_setiv_sdctr. cbn [keystream_pos counter keystream]. rewrite start_words, Z.add_0_r by done.
  split_and!; [lia|done|done|by left].
Qed.
End Sdctr.

(** ** What the packet protocol relies on *)

Lemma new_keyed nk key : (nk = 4 \/ nk = 6 \/ nk = 8)%nat -> bytes_ok key -> (4 * nk <= length key)%nat ->
  exists sk, aes_sw_setkey nk key = Some sk /\ keyed nk sk key.
Proof.
  intros Hnk Hb Hl. destruct (key_setup_spec nk key Hnk Hb Hl) as (sk&E&_). exists sk. split; [done|]. by split_and!.
Qed.

Lemma is_state_take iv : bytes_ok iv -> (16 <= length iv)%nat -> is_state (take 16 iv).
Proof. intros Hb Hl. split; [rewrite length_take; lia|by apply Forall_take]. Qed.

Lemma length_cbc_encrypt E iv blocks : length (cbc_encrypt E iv blocks) = length blocks.
Proof. revert iv. induction blocks as [|b blocks IH]; intros iv; [done|]. cbn. by rewrite IH. Qed.

(** The shape of the output holds for any context. *)
Lemma cbc_write_shape n data prev blk :
  length (cbc_write n data prev blk).2 = (16 * n)%nat /\ bytes_ok (cbc_write n data prev blk).2.
Proof.
  revert data prev blk. induction n as [|n IH]; intros data prev blk; [split; [done|by apply Forall_nil]|]. cbn [cbc_write].
  specialize (IH (drop 16 data) (take 16 blk) (drop 16 blk)). destruct (cbc_write n _ _ _) as [[data' prev'] out]. cbn [snd] in *.
  destruct (memxor16_ok (take 16 data) prev) as [Hl Hb], IH as [IH1 IH2]. rewrite length_app, Hl, IH1. split; [lia|by apply Forall_app].
Qed.

Lemma decrypt_loop_shape fuel n c data blk : (16 * n <= length blk)%nat ->
  length (cbc_decrypt_loop fuel n c data blk).2 = length blk /\ (bytes_ok blk -> bytes_ok (cbc_decrypt_loop fuel n c data blk).2).
Proof.
  revert n c data blk. induction fuel as [|fuel IH]; intros [|n] c data blk Hl; try done. cbn [cbc_decrypt_loop].
  set (m := if (S n <? SLICE_PARALLELISM)%nat then S n else SLICE_PARALLELISM).
  assert (m <= S n)%nat as Hm by (unfold m; destruct (Nat.ltb_spec (S n) SLICE_PARALLELISM); lia).
  set (d := aes_sliced_d_parallel _ _). pose proof (cbc_write_shape m d (prevblk c) blk) as [Hw1 Hw2]. destruct (cbc_write m d (prevblk c) blk) as [[d' p'] out].
  specialize (IH (S n - m)%nat (mkCbc (cbc_sk c) p') d' (drop (16 * m) blk)). rewrite length_drop in IH.
  destruct IH as [IH1 IH2]; [lia|]. destruct (cbc_decrypt_loop fuel _ _ _ _) as [c' rest]. cbn [snd] in *.
  rewrite length_app, Hw1, IH1. split; [lia|]. intros Hb. apply Forall_app. split; [done|]. by apply IH2, Forall_drop.
Qed.

Lemma sdctr_loop_shape fuel c n blk : length blk = (16 * n)%nat -> (n <= fuel)%nat -> length (sdctr_loop fuel c blk).2 = length blk.
Proof.
  revert c n blk. induction fuel as [|fuel IH]; intros c n blk Hl Hf; [assert (n = 0%nat) as -> by lia; by destruct blk|].
  destruct n as [|n]; [by destruct blk|]. destruct blk as [|x blk]; [done|]. cbn [sdctr_loop].
  set (c1 := if (keystream_pos c =? _)%nat then _ else _). set (c2 := mkSdctr _ _ _ _).
  specialize (IH c2 n (drop 16 (x :: blk))). rewrite length_drop, Hl in IH. destruct (sdctr_loop fuel c2 _) as [c' rest]. cbn [snd] in *.
  rewrite length_app, (proj1 (memxor16_ok _ _)), IH by lia. lia.
Qed.

Lemma sdctr_loop_ok fuel c blk : bytes_ok (sdctr_loop fuel c blk).2.
Proof.
  revert c blk. induction fuel as [|fuel IH]; intros c [|x blk]; try by apply Forall_nil. cbn [sdctr_loop].
  set (c1 := if (keystream_pos c =? _)%nat then _ else _). set (c2 := mkSdctr _ _ _ _). specialize (IH c2 (drop 16 (x :: blk))).
  destruct (sdctr_loop fuel c2 _) as [c' rest]. cbn [snd] in *. apply Forall_app. split; [apply memxor16_ok|done].
Qed.

(** The context after a number of blocks does not depend on what they hold. *)
Lemma sdctr_loop_ctx n f1 f2 c x y : length x = (16 * n)%nat -> length y = (16 * n)%nat -> (n <= f1)%nat -> (n <= f2)%nat ->
  (sdctr_loop f1 c x).1 = (sdctr_loop f2 c y).1.
Proof.
  revert f1 f2 c x y. induction n as [|n IH]; intros f1 f2 c x y Hx Hy H1 H2.
  { apply nil_length_inv in Hx as ->. apply nil_length_inv in Hy as ->. by destruct f1, f2. }
  destruct f1 as [|f1]; [lia|]. destruct f2 as [|f2]; [lia|]. destruct x as [|b x]; [done|]. destruct y as [|b' y]; [done|]. cbn [sdctr_loop].
  set (c1 := if (keystream_pos c =? _)%nat then _ else _). set (c2 := mkSdctr _ _ _ _).
  specialize (IH f1 f2 c2 (drop 16 (b :: x)) (drop 16 (b' :: y))). rewrite !length_drop, Hx, Hy in IH.
  destruct (sdctr_loop f1 c2 _), (sdctr_loop f2 c2 _). cbn [fst] in *. apply IH; lia.
Qed.

Lemma sdctr_loop_fuel n f1 f2 c x : length x = (16 * n)%nat -> (n <= f1)%nat -> (n <= f2)%nat -> sdctr_loop f1 c x = sdctr_loop f2 c x.
Proof.
  revert f1 f2 c x. induction n as [|n IH]; intros f1 f2 c x Hx H1 H2; [apply nil_length_inv in Hx as ->; by destruct f1, f2|].
  destruct f1 as [|f1]; [lia|]. destruct f2 as [|f2]; [lia|]. destruct x as [|b x]; [done|]. cbn [sdctr_loop].
  set (c1 := if (keystream_pos c =? _)%nat then _ else _). set (c2 := mkSdctr _ _ _ _).
  rewrite (IH f1 f2 c2) by (rewrite ?length_drop; lia). done.
Qed.

Lemma sdctr_loop_app n f c x y : length x = (16 * n)%nat ->
  sdctr_loop (n + f) c (x ++ y) = let '(c, x') := sdctr_loop n c x in let '(c, y') := sdctr_loop f c y in (c, x' ++ y').
Proof.
  revert c x. induction n as [|n IH]; intros c x Hx.
  { apply nil_length_inv in Hx as ->. cbn [app Nat.add sdctr_loop]. by destruct (sdctr_loop f c y). }
  assert (take 16 (x ++ y) = take 16 x /\ drop 16 (x ++ y) = drop 16 x ++ y) as [E1 E2] by (rewrite take_app_le, drop_app_le by lia; done).
  destruct x as [|b x]; [done|]. cbn [app] in *. cbn [Nat.add sdctr_loop]. rewrite E1, E2.
  set (c1 := if (keystream_pos c =? _)%nat then _ else _). set (c2 := mkSdctr _ _ _ _). rewrite IH by (rewrite length_drop; lia).
  destruct (sdctr_loop n c2 _) as [c3 o]. destruct (sdctr_loop f c3 y) as [c4 o']. by rewrite app_assoc.
Qed.

Lemma sdctr_app c n m x y : length x = (16 * n)%nat -> length y = (16 * m)%nat ->
  aes_sdctr_sw c (x ++ y) = let '(c, x') := aes_sdctr_sw c x in let '(c, y') := aes_sdctr_sw c y in (c, x' ++ y').
Proof.
  intros Hx Hy. unfold aes_sdctr_sw. rewrite length_app, (sdctr_loop_fuel (n + m) _ (n + length y)) by (rewrite ?length_app; lia).
  rewrite (sdctr_loop_app n _ c x y Hx), (sdctr_loop_fuel n n (length x)) by lia. done.
Qed.

Section Instances.
Context (nk : nat) (Hnk : (nk = 4 \/ nk = 6 \/ nk = 8)%nat) (fresh : list Z).

Definition cbc_good (c : aes_cbc_context) : Prop := exists key, keyed nk (cbc_sk c) key /\ is_state (prevblk c).
Definition sdctr_good (c : aes_sdctr_context) : Prop := exists key n, keyed nk (ctr_sk c) key /\ ctr_at nk (ctr_sk c) key n c.

Lemma cbc_start key iv : bytes_ok key -> bytes_ok iv -> Z.of_nat (4 * nk) <= len key -> 16 <= len iv ->
  exists sk, ca_new (aes_cbc_sw nk) key iv = Some (mkCbc sk (take 16 iv)) /\ keyed nk sk key /\ is_state (take 16 iv).
Proof using Hnk.
  intros Hk Hiv Hlk Hli. unfold len in *. destruct (new_keyed nk key Hnk Hk) as (sk&E&Hsk); [lia|]. exists sk.
  cbn [ca_new aes_cbc_sw]. rewrite E. split; [done|]. split; [done|]. apply is_state_take; [done|lia].
Qed.

Lemma sdctr_start key iv : bytes_ok key -> bytes_ok iv -> Z.of_nat (4 * nk) <= len key -> 16 <= len iv ->
  exists sk c, ca_new (aes_sdctr_sw_alg fresh nk) key iv = Some c /\ keyed nk sk key /\ ctr_at nk sk key (be_val (take 16 iv)) c.
Proof using Hnk.
  intros Hk Hiv Hlk Hli. unfold len in *. destruct (new_keyed nk key Hnk Hk) as (sk&E&Hsk); [lia|]. exists sk, (aes_sw_setiv_sdctr fresh sk iv).
  cbn [ca_new aes_sdctr_sw_alg]. rewrite E. split; [done|]. split; [done|]. apply ctr_start; [done|lia].
Qed.

Program Definition aes_cbc_laws : CipherLaws (aes_cbc_sw nk) :=
  {| cl_sync (e d : ca_ctx (aes_cbc_sw nk)) := e = d /\ cbc_good d; cl_good (d : ca_ctx (aes_cbc_sw nk)) := cbc_good d |}.
Next Obligation. by intros e d [_ H]. Qed.
Next Obligation.
  intros key iv Hk Hiv Hlk Hli. destruct (cbc_start key iv Hk Hiv Hlk Hli) as (sk&E&Hsk&Hst). exists (mkCbc sk (take 16 iv)).
  split; [done|]. split; [done|]. by exists key.
Qed.
Next Obligation. split; [done|]. by exists 1. Qed.
Next Obligation.
  intros e [sk prev] x [-> (key&Hk&Hp)] Hl Hx. destruct (blocks_of x Hx Hl) as (bs&->&Hbs). cbn [cbc_sk prevblk] in *.
  pose proof (cbc_encrypt_states nk sk key Hk prev bs Hp Hbs) as Hy. set (ys := cbc_encrypt (aes nk key) prev bs) in *.
  exists (mkCbc sk (last_block prev ys)), (mkCbc sk (last_block prev ys)), (concat ys). cbn [ca_encrypt ca_decrypt aes_cbc_sw].
  rewrite (cbc_encrypt_spec nk sk key Hk) by done. rewrite (cbc_decrypt_spec nk sk key Hk) by done. split; [done|].
  unfold ys at 2. rewrite (cbc_inverse nk sk key Hk) by done. split; [done|]. split; [split; [done|]; exists key; split; [done|by apply last_block_state]|].
  unfold len. rewrite !length_blocks by done. split; [|by apply bytes_blocks]. unfold ys. by rewrite length_cbc_encrypt.
Qed.
Next Obligation.
  intros [sk prev] x y (key&Hk&Hp) Hx Hy Hlx Hly. destruct (blocks_of x Hx Hlx) as (b1&->&Hb1), (blocks_of y Hy Hly) as (b2&->&Hb2).
  cbn [cbc_sk prevblk ca_decrypt aes_cbc_sw] in *. rewrite <- concat_app. rewrite !(cbc_decrypt_spec nk sk key Hk) by (try apply Forall_app; done || by apply last_block_state).
  by rewrite last_block_app, cbc_decrypt_app, concat_app.
Qed.
Next Obligation. done. Qed.
Next Obligation.
  intros [sk prev] x (key&Hk&Hp) Hx Hlx. destruct (blocks_of x Hx Hlx) as (bs&->&Hbs). cbn [cbc_sk prevblk ca_decrypt aes_cbc_sw] in *.
  rewrite (cbc_decrypt_spec nk sk key Hk) by done. exists key. split; [done|by apply last_block_state].
Qed.
Next Obligation. intros d x Hx. apply decrypt_loop_shape; [|done]. ndivmod. Qed.
Next Obligation.
  intros d x _. unfold len. f_equal. cbn [ca_decrypt aes_cbc_sw]. apply decrypt_loop_shape. ndivmod.
Qed.
Next Obligation. done. Qed.
Next Obligation. done. Qed.

Program Definition aes_sdctr_laws : CipherLaws (aes_sdctr_sw_alg fresh nk) :=
  {| cl_sync (e d : ca_ctx (aes_sdctr_sw_alg fresh nk)) := e = d /\ sdctr_good d; cl_good (d : ca_ctx (aes_sdctr_sw_alg fresh nk)) := sdctr_good d |}.
Next Obligation. by intros e d [_ H]. Qed.
Next Obligation.
  intros key iv Hk Hiv Hlk Hli. destruct (sdctr_start key iv Hk Hiv Hlk Hli) as (sk&c&E&Hsk&Hc). exists c.
  split; [done|]. split; [done|]. exists key, (be_val (take 16 iv)). pose proof (ca_key _ _ _ _ _ Hc) as <-. done.
Qed.
Next Obligation. split; [done|]. by exists 1. Qed.
Next Obligation.
  intros e d x [-> (key&n&Hk&Hc)] Hl Hx. destruct (blocks_of x Hx Hl) as (bs&->&Hbs). destruct (ctr_mode_states nk (ctr_sk d) key Hk n bs Hbs) as [Hs Hinv].
  destruct (sdctr_spec nk (ctr_sk d) key Hk n d bs Hc Hbs) as (c'&E1&Hc'). destruct (sdctr_spec nk (ctr_sk d) key Hk n d _ Hc Hs) as (c2&E2&Hc2).
  assert (c2 = c') as ->.
  { pose proof (sdctr_loop_ctx (length bs) (length (concat (ctr_mode (aes nk key) n bs))) (length (concat bs)) d (concat (ctr_mode (aes nk key) n bs)) (concat bs)) as Hx2.
    unfold aes_sdctr_sw in E1, E2. rewrite E1, E2 in Hx2. cbn [fst] in Hx2. apply Hx2; rewrite ?length_blocks, ?length_ctr_mode by done; lia. }
  exists c', c', (concat (ctr_mode (aes nk key) n bs)). cbn [ca_encrypt ca_decrypt aes_sdctr_sw_alg]. rewrite E1, E2, Hinv. split_and!; try done.
  - exists key, (n + Z.of_nat (length bs)). by rewrite (ca_key _ _ _ _ _ Hc').
  - unfold len. by rewrite !length_blocks, length_ctr_mode.
  - by apply bytes_blocks.
Qed.
Next Obligation.
  intros d x y (key&n&Hk&Hc) Hx Hy Hlx Hly. destruct (blocks_of x Hx Hlx) as (b1&->&Hb1), (blocks_of y Hy Hly) as (b2&->&Hb2).
  cbn [ca_decrypt aes_sdctr_sw_alg] in *.
  by apply (sdctr_app d (length b1) (length b2)); apply length_blocks.
Qed.
Next Obligation. done. Qed.
Next Obligation.
  intros d x (key&n&Hk&Hc) Hx Hlx. destruct (blocks_of x Hx Hlx) as (bs&->&Hbs). destruct (sdctr_spec nk (ctr_sk d) key Hk n d bs Hc Hbs) as (c'&E1&Hc').
  cbn [ca_decrypt aes_sdctr_sw_alg]. rewrite E1. exists key, (n + Z.of_nat (length bs)). cbn [fst]. by rewrite (ca_key _ _ _ _ _ Hc').
Qed.
Next Obligation. intros d x _. apply sdctr_loop_ok. Qed.
Next Obligation.
  intros d x [k Hl]. unfold len in *. f_equal. cbn [ca_blksize aes_sdctr_sw_alg] in Hl. apply (sdctr_loop_shape _ _ (Z.to_nat k)); lia.
Qed.
Next Obligation. done. Qed.
Next Obligation. done. Qed.
End Instances.

#[export] Instance aes128_cbc_laws : CipherLaws (aes_cbc_sw 4) := aes_cbc_laws 4 ltac:(lia).
#[export] Instance aes192_cbc_laws : CipherLaws (aes_cbc_sw 6) := aes_cbc_laws 6 ltac:(lia).
#[export] Instance aes256_cbc_laws : CipherLaws (aes_cbc_sw 8) := aes_cbc_laws 8 ltac:(lia).
#[export] Instance aes128_sdctr_laws fresh : CipherLaws (aes_sdctr_sw_alg fresh 4) := aes_sdctr_laws 4 ltac:(lia) fresh.
#[export] Instance aes192_sdctr_laws fresh : CipherLaws (aes_sdctr_sw_alg fresh 6) := aes_sdctr_laws 6 ltac:(lia) fresh.
#[export] Instance aes256_sdctr_laws fresh : CipherLaws (aes_sdctr_sw_alg fresh 8) := aes_sdctr_laws 8 ltac:(lia) fresh.

(** ** The two modes *)

Section Pieces.
Context (nk : nat) (sk : aes_sliced_key) (key : list Z) (Hk : keyed nk sk key).

(** Blocks in pieces of any sizes. *)
Lemma cbc_encrypt_pieces chunks : forall prev, is_state prev -> Forall (Forall is_state) chunks ->
  exists c outs, run_ops (fun c x => Some (aes_cbc_sw_encrypt c x)) (mkCbc sk prev) (map (@concat Z) chunks) = Some (c, outs)
    /\ concat outs = concat (cbc_encrypt (aes nk key) prev (concat chunks)).
Proof using Hk.
  induction chunks as [|bs chunks IH]; intros prev Hp Hb; [by exists (mkCbc sk prev), []|]. apply Forall_cons in Hb as [Hbs Hb].
  cbn [map run_ops]. rewrite (cbc_encrypt_spec nk sk key Hk) by done. cbn [mbind option_bind].
  destruct (IH (last_block prev (cbc_encrypt (aes nk key) prev bs))) as (c&outs&E&Eo);
    [by apply last_block_state, (cbc_encrypt_states nk sk key Hk)|done|].
  rewrite E. cbn [mbind option_bind]. do 2 eexists. split; [done|]. cbn [concat]. by rewrite Eo, cbc_encrypt_app, concat_app.
Qed.

Lemma cbc_decrypt_pieces chunks : forall prev, is_state prev -> Forall (Forall is_state) chunks ->
  exists c outs, run_ops (fun c x => Some (aes_cbc_sw_decrypt c x)) (mkCbc sk prev) (map (@concat Z) chunks) = Some (c, outs)
    /\ concat outs = concat (cbc_decrypt (inv_aes nk key) prev (concat chunks)).
Proof using Hk.
  induction chunks as [|bs chunks IH]; intros prev Hp Hb; [by exists (mkCbc sk prev), []|]. apply Forall_cons in Hb as [Hbs Hb].
  cbn [map run_ops]. rewrite (cbc_decrypt_spec nk sk key Hk) by done. cbn [mbind option_bind].
  destruct (IH (last_block prev bs)) as (c&outs&E&Eo); [by apply last_block_state|done|].
  rewrite E. cbn [mbind option_bind]. do 2 eexists. split; [done|]. cbn [concat]. by rewrite Eo, cbc_decrypt_app, concat_app.
Qed.

Lemma ctr_mode_app E b1 b2 : forall n, ctr_mode E n (b1 ++ b2) = ctr_mode E n b1 ++ ctr_mode E (n + Z.of_nat (length b1)) b2.
Proof using Type.
  induction b1 as [|b b1 IH]; intros n; [by rewrite Z.add_0_r|]. cbn [app ctr_mode length]. rewrite IH. do 3 f_equal. lia.
Qed.

Lemma sdctr_pieces chunks : forall n c, ctr_at nk sk key n c -> Forall (Forall is_state) chunks ->
  exists c' outs, run_ops (fun c x => Some (aes_sdctr_sw c x)) c (map (@concat Z) chunks) = Some (c', outs)
    /\ concat outs = concat (ctr_mode (aes nk key) n (concat chunks)).
Proof using Hk.
  induction chunks as [|bs chunks IH]; intros n c Hc Hb; [by exists c, []|]. apply Forall_cons in Hb as [Hbs Hb].
  cbn [map run_ops]. destruct (sdctr_spec nk sk key Hk n c bs Hc Hbs) as (c1&E1&Hc1). rewrite E1. cbn [mbind option_bind].
  destruct (IH _ _ Hc1 Hb) as (c'&outs&E&Eo). rewrite E. cbn [mbind option_bind]. do 2 eexists. split; [done|].
  cbn [concat]. by rewrite Eo, ctr_mode_app, concat_app.
Qed.
End Pieces.

(** C0. The software implementation of AES, which computes in bit slices with four blocks at once, is the standard one for keys of 128, 192 and 256 bits: encryption and decryption
    in CBC mode, and SDCTR mode, are those of NIST SP 800-38A over the cipher of FIPS 197 (a cipher on bytes with its S-box as a table of values), for blocks handed over in
    pieces of any sizes; and the vtables satisfy what the packet protocol asks of a cipher. *)
Theorem aes_sw_correct nk key iv chunks fresh :
  (nk = 4 \/ nk = 6 \/ nk = 8)%nat -> bytes_ok key -> len key = ca_padded_keybytes (aes_cbc_sw nk) -> is_state iv -> Forall (Forall is_state) chunks ->
  (exists c e eouts d douts, ca_new (aes_cbc_sw nk) key iv = Some c
    /\ run_ops (fun c x => Some (ca_encrypt (aes_cbc_sw nk) c x)) c (map (@concat Z) chunks) = Some (e, eouts)
    /\ concat eouts = concat (cbc_encrypt (aes nk key) iv (concat chunks))
    /\ run_ops (fun c x => Some (ca_decrypt (aes_cbc_sw nk) c x)) c (map (@concat Z) chunks) = Some (d, douts)
    /\ concat douts = concat (cbc_decrypt (inv_aes nk key) iv (concat chunks)))
  /\ (exists c c' outs, ca_new (aes_sdctr_sw_alg fresh nk) key iv = Some c
    /\ run_ops (fun c x => Some (ca_encrypt (aes_sdctr_sw_alg fresh nk) c x)) c (map (@concat Z) chunks) = Some (c', outs)
    /\ run_ops (fun c x => Some (ca_decrypt (aes_sdctr_sw_alg fresh nk) c x)) c (map (@concat Z) chunks) = Some (c', outs)
    /\ concat outs = concat (ctr_mode (aes nk key) (be_val iv) (concat chunks)))
  /\ inhabited (CipherLaws (aes_cbc_sw nk)) /\ inhabited (CipherLaws (aes_sdctr_sw_alg fresh nk)).
Proof.
  intros Hnk Hkey Hlen [Hl Hiv] Hch. cbn [ca_padded_keybytes aes_cbc_sw] in Hlen. assert (16 <= len iv) as Hli by (unfold len; lia).
  assert (Z.of_nat (4 * nk) <= len key) as Hlk by lia. split; [|split].
  - destruct (cbc_start nk Hnk key iv Hkey Hiv Hlk Hli) as (sk&E&Hk&Hs). rewrite take_ge in E, Hs by lia.
    destruct (cbc_encrypt_pieces nk sk key Hk chunks iv Hs Hch) as (e&eouts&E1&E2), (cbc_decrypt_pieces nk sk key Hk chunks iv Hs Hch) as (d&douts&E3&E4).
    exists (mkCbc sk iv), e, eouts, d, douts. done.
  - destruct (sdctr_start nk Hnk fresh key iv Hkey Hiv Hlk Hli) as (sk&c&E&Hk&Hc). rewrite take_ge in Hc by lia.
    destruct (sdctr_pieces nk sk key Hk chunks (be_val iv) c Hc Hch) as (c'&outs&E1&E2). exists c, c', outs. done.
  - split; constructor; [by apply aes_cbc_laws|by apply aes_sdctr_laws].
Qed.

Lemma aes_sw_correct_witness :
  let key := be_split 32 1 in let iv := be_split 16 (2 ^ 128 - 1) in let b := be_split 16 2 in
  (exists c c' outs, ca_new (aes_sdctr_sw_alg [] 8) key iv = Some c
    /\ run_ops (fun c x => Some (ca_encrypt (aes_sdctr_sw_alg [] 8) c x)) c [b; b ++ b] = Some (c', outs)
    /\ concat outs = concat (ctr_mode (aes 8 key) (be_val iv) [b; b; b])).
Proof.
  cbv zeta. set (b := be_split 16 2). assert (is_state b) as Hb by (split; [done|apply be_split_ok]).
  destruct (aes_sw_correct 8 (be_split 32 1) (be_split 16 (2 ^ 128 - 1)) [[b]; [b; b]] []) as (_&(c&c'&outs&E1&E2&_&E3)&_).
  - by right; right.
  - apply be_split_ok.
  - done.
  - split; [done|apply be_split_ok].
  - by repeat constructor.
  - exists c, c', outs. split; [exact E1|]. split; [|exact E3]. cbn [map concat] in E2. rewrite !app_nil_r in E2. exact E2.
Defined.
