(* ===== verification/Ssh2Bpp.v ===== *)
(** * The SSH-2 binary packet protocol (ssh2bpp.c)

    Packets are padded, compressed, encrypted and authenticated on their way out, and cut
    out of the byte stream again on their way in.  The input side is a coroutine
    that stops wherever the bytes run out; [crState] is where it goes on.  The cipher, MAC and
    compression method of each direction are objects with a vtable ([SshCrypto.v]).

    The byte queues [in_raw] and [out_raw] are given by their contents (see [Bufchain.v]), the
    packet queues by the list of their packets.  The random bytes of the padding are those that
    the generator delivers, a parameter.  Logging is left out. *)

From S2P Require Import Prelude Marshal Conf SshCrypto.
Open Scope Z_scope.
Open Scope word_scope.

Definition OUR_V2_PACKETLIMIT : Z := 36864.

(** ** Message types *)

Definition SSH2_MSG_DISCONNECT : Z := 1.
Definition SSH2_MSG_IGNORE : Z := 2.
Definition SSH2_MSG_UNIMPLEMENTED : Z := 3.
Definition SSH2_MSG_EXT_INFO : Z := 7.
Definition SSH2_MSG_NEWKEYS : Z := 21.
Definition SSH2_MSG_USERAUTH_SUCCESS : Z := 52.
Definition SSH_MSG_NO_TYPE_CODE : Z := 256.

(** The numbers in the table [SSH2_MESSAGE_TYPES]. *)
Definition SSH2_MESSAGE_TYPES : list Z :=
  [1; 2; 3; 4; 5; 6; 7; 20; 21; 30; 31; 30; 34; 31; 32; 33; 30; 31; 32; 33; 34; 40; 41; 30; 31; 32; 30; 31;
   50; 51; 52; 53; 60; 60; 60; 61; 60; 61; 63; 64; 65; 66; 80; 81; 82; 90; 91; 92; 93; 94; 95; 96; 97; 98; 99; 100].

Definition SSH2_BITMAP_WORD (y : Z) : Z :=
  foldl (fun w value => w .| (if (32 * y <=? value) && (value <? 32 * y + 32) then 1 << (value - 32 * y) else 0)) 0 SSH2_MESSAGE_TYPES.
Definition valid_bitmap : list Z := SSH2_BITMAP_WORD <$> [0; 1; 2; 3; 4; 5; 6; 7].

(** [#define userauth_range(pkttype) ((unsigned)((pkttype) - 50) < 20)] *)
Definition userauth_range (pkttype : Z) : bool := u32 (pkttype - 50) <? 20.

(** ** Packets *)

Record PktIn := mkPktIn { pi_type : Z; pi_sequence : Z; pi_data : list Z }.

(** [po_data] is what was written to the packet so far; its length is the field [length]. *)
Record PktOut := mkPktOut { po_type : Z; po_prefix : Z; po_minlen : Z; po_data : list Z }.

Definition set_po_data (p : PktOut) (d : list Z) : PktOut := mkPktOut (po_type p) (po_prefix p) (po_minlen p) d.

#[export] Instance pktout_sink : BinarySink PktOut := {| bs_write p d := Some (set_po_data p (po_data p ++ d)) |}.

(** The first five bytes are left free for the lengths. *)
Definition ssh2_bpp_new_pktout (pkt_type : Z) : option PktOut :=
  pkt ← put_byte (mkPktOut pkt_type 0 0 (replicate 5 0)) pkt_type;
  Some (mkPktOut pkt_type (len (po_data pkt)) 0 (po_data pkt)).

(** ** Memory blocks

    The size of an allocated block and the bytes written to it so far, from its start on.  A store
    outside the block is an error. *)

Record block := mkBlock { blk_size : Z; blk_bytes : list Z }.

Definition store (b : block) (off : Z) (data : list Z) : option block :=
  if (0 <=? off) && (off <=? len (blk_bytes b)) && (off + len data <=? blk_size b) then
    Some (mkBlock (blk_size b) (take (Z.to_nat off) (blk_bytes b) ++ data ++ drop (Z.to_nat (off + len data)) (blk_bytes b)))
  else None.

(** [n] bytes from [off] on, which must have been written. *)
Definition fetch (b : block) (off n : Z) : option (list Z) :=
  if (0 <=? off) && (0 <=? n) && (off + n <=? len (blk_bytes b)) then Some (take (Z.to_nat n) (drop (Z.to_nat off) (blk_bytes b))) else None.

Definition sresize (b : block) (size : Z) : block := mkBlock size (take (Z.to_nat size) (blk_bytes b)).

(** ** State *)

Record DataTransferStatsDirection := mkDts { running : bool; expired : bool; remaining : Z }.

Definition dts_consume (s : DataTransferStatsDirection) (size_consumed : Z) : DataTransferStatsDirection :=
  if running s then
    if remaining s <=? size_consumed then mkDts false true (remaining s)
    else mkDts true (expired s) (remaining s - size_consumed)
  else s.
Definition dts_reset (s : DataTransferStatsDirection) (starting_size : Z) : DataTransferStatsDirection :=
  mkDts (negb (starting_size =? 0)) false starting_size.

Record ssh2_bpp_direction := mkDir {
  sequence : Z;
  cipher : option ssh_cipher;
  mac : option ssh2_mac;
  etm_mode : bool;
  pending_compression : option ssh_compression_alg
}.

(** Where the input coroutine waits: at the top, in one of the calls of [BPP_READ], for new keys, at the end of the input. *)
Inductive crpos := CrStart | CrCbcMac | CrCbcBlock | CrEtmLen | CrEtmRest | CrStdFirst | CrStdRest | CrNewkeys | CrEof.

(** The variables of the input coroutine ([len] is [r_len]; [pktin] has the data block [r_data]). *)
Record input := mkInput {
  crState : crpos;
  r_len : Z;
  packetlen : Z;
  maclen : Z;
  maxlen : Z;
  cipherblk : Z;
  buf : block;
  r_data : block
}.

(** The flags; the field [pending_compression] of the whole state is [output_blocked] here. *)
Record flags := mkFlags {
  cbc_ignore_workaround : bool;
  is_server : bool;
  pending_newkeys : bool;
  output_blocked : bool;
  seen_userauth_success : bool;
  enforce_next_packet_is_userauth_success : bool;
  nnewkeys : Z;
  prev_type : Z
}.

(** The queues of [BinaryPacketProtocol]. *)
Record queues := mkQueues {
  in_raw : list Z;
  input_eof : bool;
  in_pq : list PktIn;
  out_pq : list PktOut;
  out_raw : list Z;
  expect_close : bool
}.

(** How the connection ended: [ssh_sw_abort], [ssh_proto_error], [ssh_remote_error], [ssh_remote_eof]. *)
Inductive fate := SwAbort (msg : string) | ProtoError (msg : string) | RemoteError | RemoteEof.

Record ssh2_bpp_state := mkBpp {
  b_input : input;
  b_in : ssh2_bpp_direction;
  b_out : ssh2_bpp_direction;
  in_decomp : option ssh_decompressor;
  out_comp : option ssh_compressor;
  b_flags : flags;
  b_queues : queues;
  stats_in : DataTransferStatsDirection;
  stats_out : DataTransferStatsDirection;
  b_fate : option fate;
  b_random : nat
}.

(** Assignments. *)
Definition set_input (s : ssh2_bpp_state) (i : input) :=
  mkBpp i (b_in s) (b_out s) (in_decomp s) (out_comp s) (b_flags s) (b_queues s) (stats_in s) (stats_out s) (b_fate s) (b_random s).
Definition set_in (s : ssh2_bpp_state) (d : ssh2_bpp_direction) (z : option ssh_decompressor) :=
  mkBpp (b_input s) d (b_out s) z (out_comp s) (b_flags s) (b_queues s) (stats_in s) (stats_out s) (b_fate s) (b_random s).
Definition set_out (s : ssh2_bpp_state) (d : ssh2_bpp_direction) (z : option ssh_compressor) :=
  mkBpp (b_input s) (b_in s) d (in_decomp s) z (b_flags s) (b_queues s) (stats_in s) (stats_out s) (b_fate s) (b_random s).
Definition set_flags (s : ssh2_bpp_state) (f : flags) :=
  mkBpp (b_input s) (b_in s) (b_out s) (in_decomp s) (out_comp s) f (b_queues s) (stats_in s) (stats_out s) (b_fate s) (b_random s).
Definition set_queues (s : ssh2_bpp_state) (q : queues) :=
  mkBpp (b_input s) (b_in s) (b_out s) (in_decomp s) (out_comp s) (b_flags s) q (stats_in s) (stats_out s) (b_fate s) (b_random s).
Definition set_stats (s : ssh2_bpp_state) (i o : DataTransferStatsDirection) :=
  mkBpp (b_input s) (b_in s) (b_out s) (in_decomp s) (out_comp s) (b_flags s) (b_queues s) i o (b_fate s) (b_random s).
Definition set_random (s : ssh2_bpp_state) (n : nat) :=
  mkBpp (b_input s) (b_in s) (b_out s) (in_decomp s) (out_comp s) (b_flags s) (b_queues s) (stats_in s) (stats_out s) (b_fate s) n.

Definition set_cr (i : input) (p : crpos) : input := mkInput p (r_len i) (packetlen i) (maclen i) (maxlen i) (cipherblk i) (buf i) (r_data i).
Definition set_buf (i : input) (b : block) : input := mkInput (crState i) (r_len i) (packetlen i) (maclen i) (maxlen i) (cipherblk i) b (r_data i).
Definition set_crypto (d : ssh2_bpp_direction) (c : option ssh_cipher) (m : option ssh2_mac) : ssh2_bpp_direction :=
  mkDir (sequence d) c m (etm_mode d) (pending_compression d).
Definition next_sequence (d : ssh2_bpp_direction) : ssh2_bpp_direction :=
  mkDir (u64 (sequence d + 1)) (cipher d) (mac d) (etm_mode d) (pending_compression d).
Definition push_in (q : queues) (p : PktIn) : queues := mkQueues (in_raw q) (input_eof q) (in_pq q ++ [p]) (out_pq q) (out_raw q) (expect_close q).
Definition push_out (q : queues) (p : PktOut) : queues := mkQueues (in_raw q) (input_eof q) (in_pq q) (out_pq q ++ [p]) (out_raw q) (expect_close q).
Definition set_in_raw (q : queues) (l : list Z) : queues := mkQueues l (input_eof q) (in_pq q) (out_pq q) (out_raw q) (expect_close q).

(** The connection ends. *)
Definition end_with (s : ssh2_bpp_state) (p : crpos) (f : fate) : ssh2_bpp_state :=
  mkBpp (set_cr (b_input s) p) (b_in s) (b_out s) (in_decomp s) (out_comp s) (b_flags s) (b_queues s) (stats_in s) (stats_out s) (Some f) (b_random s).

(** [ssh2_bpp_new]: everything is zero. *)
Definition ssh2_bpp_new (server : bool) (dts : DataTransferStatsDirection * DataTransferStatsDirection) : ssh2_bpp_state :=
  mkBpp (mkInput CrStart 0 0 0 0 0 (mkBlock 0 []) (mkBlock 0 []))
    (mkDir 0 None None false None) (mkDir 0 None None false None) None None (mkFlags false server false false false false 0 0)
    (mkQueues [] false [] [] [] false) dts.1 dts.2 None 0.

(** ** New keys *)

Record crypto_params := mkParams {
  p_cipher : option ssh_cipheralg; p_ckey : list Z; p_iv : list Z;
  p_mac : option ssh2_macalg; p_etm_mode : bool; p_mac_key : list Z;
  p_compression : ssh_compression_alg; p_delayed : bool
}.

(** [ssh_cipher_new], [ssh_cipher_setkey] and [ssh_cipher_setiv]; [ssh2_mac_new] and [ssh2_mac_setkey] with [make_ptrlen(mac_key, mac->keylen)]. *)
Definition new_cipher (p : crypto_params) : option (option ssh_cipher) :=
  match p_cipher p with
  | Some alg => c ← ssh_cipher_new alg (p_ckey p) (p_iv p); Some (Some c)
  | None => Some None
  end.
Definition new_mac (p : crypto_params) : option (option ssh2_mac) :=
  match p_mac p with
  | Some alg =>
      assert! ma_keylen alg <=? len (p_mac_key p);
      m ← ssh2_mac_new alg (take (Z.to_nat (ma_keylen alg)) (p_mac_key p)); Some (Some m)
  | None => Some None
  end.

(** [remote_bugs & BUG_CHOKES_ON_SSH2_IGNORE] is the argument [chokes]. *)
Definition ssh2_bpp_new_outgoing_crypto (s : ssh2_bpp_state) (chokes : bool) (p : crypto_params) : option ssh2_bpp_state :=
  let f := b_flags s in
  c ← new_cipher p;
  let workaround := match p_cipher p with Some alg => ca_is_cbc alg && negb chokes | None => false end in
  m ← new_mac p;
  let s := set_flags s (mkFlags workaround (is_server f) (pending_newkeys f) (output_blocked f) (seen_userauth_success f)
                          (enforce_next_packet_is_userauth_success f) (nnewkeys f) (prev_type f)) in
  if p_delayed p && negb (seen_userauth_success f) then
    Some (set_out s (mkDir (sequence (b_out s)) c m (p_etm_mode p) (Some (p_compression p))) None)
  else
    z ← ssh_compressor_new (p_compression p);
    Some (set_out s (mkDir (sequence (b_out s)) c m (p_etm_mode p) None) z).

Definition ssh2_bpp_new_incoming_crypto (s : ssh2_bpp_state) (p : crypto_params) : option ssh2_bpp_state :=
  let f := b_flags s in
  c ← new_cipher p;
  m ← new_mac p;
  let s := set_flags s (mkFlags (cbc_ignore_workaround f) (is_server f) false (output_blocked f) (seen_userauth_success f)
                          (enforce_next_packet_is_userauth_success f) (nnewkeys f) (prev_type f)) in
  if p_delayed p && negb (seen_userauth_success f) then
    Some (set_in s (mkDir (sequence (b_in s)) c m (p_etm_mode p) (Some (p_compression p))) None)
  else
    z ← ssh_decompressor_new (p_compression p);
    Some (set_in s (mkDir (sequence (b_in s)) c m (p_etm_mode p) None) z).

(** The log messages look at the new objects, which must not be null. *)
Definition ssh2_bpp_enable_pending_compression (s : ssh2_bpp_state) : option ssh2_bpp_state :=
  s ← (match pending_compression (b_in s) with
       | None => Some s
       | Some alg =>
           z ← ssh_decompressor_new alg;
           z ← z : option ssh_decompressor;
           Some (set_in s (mkDir (sequence (b_in s)) (cipher (b_in s)) (mac (b_in s)) (etm_mode (b_in s)) None) (Some z))
       end);
  match pending_compression (b_out s) with
  | None => Some s
  | Some alg =>
      z ← ssh_compressor_new alg;
      z ← z : option ssh_compressor;
      Some (set_out s (mkDir (sequence (b_out s)) (cipher (b_out s)) (mac (b_out s)) (etm_mode (b_out s)) None) (Some z))
  end.

Definition ssh2_bpp_rekey_inadvisable (s : ssh2_bpp_state) : bool := output_blocked (b_flags s).

Definition mac_len (m : option ssh2_mac) : Z := match m with Some m => ma_len (m_vt m) | None => 0 end.

(** The block size of the cipher, or [none] without a cipher, but at least 8. *)
Definition unit_of (c : option ssh_cipher) (none : Z) : Z :=
  let b := match c with Some c => ca_blksize (c_vt c) | None => none end in
  if b <? 8 then 8 else b.

(** ** Output *)

Section Output.
(** The bytes the random generator delivers at its [n]th call. *)
Variable random_read : nat -> Z -> list Z.

(** [blk[off..off+n)] replaced by what [f] makes of it. *)
Definition in_place {A} (f : list Z -> A * list Z) (blk : list Z) (off n : Z) : A * list Z :=
  let '(a, out) := f (take (Z.to_nat n) (drop (Z.to_nat off) blk)) in
  (a, take (Z.to_nat off) blk ++ out ++ drop (Z.to_nat (off + n)) blk).

Definition compress_payload (s : ssh2_bpp_state) (pkt : PktOut) : option (ssh2_bpp_state * PktOut) :=
  match out_comp s with
  | None => Some (s, pkt)
  | Some z =>
      let minlen := po_minlen pkt in
      let minlen := if negb (minlen =? 0) then minlen - mac_len (mac (b_out s)) - 8 else minlen in
      '(z, newpayload) ← ssh_compressor_compress z (drop 5 (po_data pkt)) minlen;
      pkt ← put_data (set_po_data pkt (take 5 (po_data pkt))) newpayload;
      Some (set_out s (b_out s) (Some z), pkt)
  end.

Definition out_etm (out : ssh2_bpp_direction) : bool := match mac out with Some _ => etm_mode out | None => false end.

(** Encryption and the MAC, from the comment "Encrypt length if the scheme requires it" on: [data] is the packet, [n] bytes long. *)
Definition protect (out : ssh2_bpp_direction) (data : list Z) (n : Z) : option (ssh2_bpp_direction * list Z) :=
  let '(c, data) := match cipher out with
                    | Some c => if ca_separate_length (c_vt c)
                                then let '(c, d) := in_place (fun x => ssh_cipher_encrypt_length c x (sequence out)) data 0 4 in (Some c, d)
                                else (Some c, data)
                    | None => (None, data)
                    end in
  if out_etm out then
    let '(c, data) := match c with
                      | Some c => let '(c, d) := in_place (ssh_cipher_encrypt c) data 4 (n - 4) in (Some c, d)
                      | None => (None, data)
                      end in
    m ← mac out;
    '(m, tag) ← ssh2_mac_generate m data (sequence out);
    Some (next_sequence (set_crypto out c (Some m)), data ++ tag)
  else
    '(m, tag) ← (match mac out with
                 | Some m => '(m, tag) ← ssh2_mac_generate m data (sequence out); Some (Some m, tag)
                 | None => Some (None, [])
                 end);
    let '(c, data) := match c with
                      | Some c => let '(c, d) := in_place (ssh_cipher_encrypt c) data 0 n in (Some c, d)
                      | None => (None, data)
                      end in
    Some (next_sequence (set_crypto out c m), data ++ tag).

(** The padding and the lengths. *)
Definition ssh2_bpp_format_packet_inner (s : ssh2_bpp_state) (pkt : PktOut) : option (ssh2_bpp_state * PktOut) :=
  let blk := unit_of (cipher (b_out s)) 8 in
  '(s, pkt) ← compress_payload s pkt;
  let unencrypted_prefix := if out_etm (b_out s) then 4 else 0 in
  let origlen := len (po_data pkt) in
  let padding := 4 + (blk - (origlen - unencrypted_prefix + 4) mod blk) mod blk in
  assert! padding <=? 255;
  let random := random_read (b_random s) padding in
  let s := set_random s (S (b_random s)) in
  let data := <[4%nat := u8 padding]> (po_data pkt ++ random) in
  let data := PUT_32BIT_MSB_FIRST (u32 (origlen + padding - 4)) ++ drop 4 data in
  '(out, data) ← protect (b_out s) data (origlen + padding);
  Some (set_stats (set_out s out (out_comp s)) (stats_in s) (dts_consume (stats_out s) (origlen + padding)), set_po_data pkt data).

Definition add_out_raw (s : ssh2_bpp_state) (pkt : PktOut) : ssh2_bpp_state :=
  let q := b_queues s in
  set_queues s (mkQueues (in_raw q) (input_eof q) (in_pq q) (out_pq q) (out_raw q ++ po_data pkt) (expect_close q)).

(** The SSH_MSG_IGNORE that brings a packet up to its [minlen], when it is not compressed. *)
Definition ignore_length (s : ssh2_bpp_state) (pkt : PktOut) : option Z :=
  let blk := unit_of (cipher (b_out s)) 0 in
  let length := len (po_data pkt) + 4 + (blk - 1) in
  let length := length - length mod blk + mac_len (mac (b_out s)) in
  if length <? po_minlen pkt then
    let length := po_minlen pkt - length - mac_len (mac (b_out s)) - 8 - 5 in
    Some (if length <? 0 then 0 else length)
  else None.

Definition ssh2_bpp_format_packet (s : ssh2_bpp_state) (pkt : PktOut) : option ssh2_bpp_state :=
  s ← (match out_comp s, ignore_length s pkt with
       | None, Some length =>
           if 0 <? po_minlen pkt then
             ignore_pkt ← ssh2_bpp_new_pktout SSH2_MSG_IGNORE;
             ignore_pkt ← put_uint32 ignore_pkt length;
             let ignore_pkt := set_po_data ignore_pkt (po_data ignore_pkt ++ random_read (b_random s) length) in
             '(s, ignore_pkt) ← ssh2_bpp_format_packet_inner (set_random s (S (b_random s))) ignore_pkt;
             Some (add_out_raw s ignore_pkt)
           else Some s
       | _, _ => Some s
       end);
  '(s, pkt) ← ssh2_bpp_format_packet_inner s pkt;
  Some (add_out_raw s pkt).

(** [while ((pkt = pq_pop(&s->bpp.out_pq)) != NULL)] *)
Fixpoint output_loop (pkts : list PktOut) (n_userauth : Z) (s : ssh2_bpp_state) : option ssh2_bpp_state :=
  match pkts with
  | [] => Some s
  | pkt :: pkts =>
      let q := b_queues s in
      let s := set_queues s (mkQueues (in_raw q) (input_eof q) (in_pq q) pkts (out_raw q) (expect_close q)) in
      let type := po_type pkt in
      let n_userauth := if userauth_range type then n_userauth - 1 else n_userauth in
      s ← ssh2_bpp_format_packet s pkt;
      let f := b_flags s in
      if (n_userauth =? 0) && (match pending_compression (b_out s) with Some _ => true | None => false end) && negb (is_server f) then
        Some (set_flags s (mkFlags (cbc_ignore_workaround f) (is_server f) (pending_newkeys f) true (seen_userauth_success f)
                             (enforce_next_packet_is_userauth_success f) (nnewkeys f) (prev_type f)))
      else if (type =? SSH2_MSG_USERAUTH_SUCCESS) && is_server f then
        s ← ssh2_bpp_enable_pending_compression s; output_loop pkts n_userauth s
      else output_loop pkts n_userauth s
  end.

Definition ssh2_bpp_handle_output (s : ssh2_bpp_state) : option ssh2_bpp_state :=
  let n_userauth := len (filter (fun p => userauth_range (po_type p) = true) (out_pq (b_queues s))) in
  if output_blocked (b_flags s) && (n_userauth =? 0) then Some s
  else
    s ← (if cbc_ignore_workaround (b_flags s) then
           c ← cipher (b_out s); m ← mac (b_out s);
           if len (out_raw (b_queues s)) <? ca_blksize (c_vt c) + ma_len (m_vt m) then
             pkt ← ssh2_bpp_new_pktout SSH2_MSG_IGNORE;
             pkt ← put_stringz pkt [];
             ssh2_bpp_format_packet s pkt
           else Some s
         else Some s);
    output_loop (out_pq (b_queues s)) n_userauth s.
End Output.

(** [pkt]'s fields are written to the end of the queue. *)
Definition ssh2_bpp_queue_disconnect (s : ssh2_bpp_state) (msg : list Z) (category : Z) : option ssh2_bpp_state :=
  pkt ← ssh2_bpp_new_pktout SSH2_MSG_DISCONNECT;
  pkt ← put_uint32 pkt category;
  pkt ← put_stringz pkt msg;
  pkt ← put_stringz pkt (codes "en");
  Some (set_queues s (push_out (b_queues s) pkt)).

(** ** Input *)

(** The macro [BPP_READ]: go on with [n] bytes of the input, wait for them, or go to the label [eof].  The boolean is whether
    the coroutine goes on at all. *)
Definition BPP_READ (s : ssh2_bpp_state) (n : Z) (k : ssh2_bpp_state -> list Z -> option (ssh2_bpp_state * bool)) : option (ssh2_bpp_state * bool) :=
  let q := b_queues s in
  if n <=? len (in_raw q) then k (set_queues s (set_in_raw q (drop (Z.to_nat n) (in_raw q)))) (take (Z.to_nat n) (in_raw q))
  else if input_eof q then Some (set_input s (set_cr (b_input s) CrEof), true)
  else Some (s, false).

Definition in_etm (s : ssh2_bpp_state) : bool := match mac (b_in s) with Some _ => etm_mode (b_in s) | None => false end.
Definition in_cbc (s : ssh2_bpp_state) : bool :=
  match cipher (b_in s), mac (b_in s) with
  | Some c, Some _ => ca_is_cbc (c_vt c) && negb (etm_mode (b_in s))
  | _, _ => false
  end.

Definition grow (b : block) (size : Z) : block := if blk_size b <? size then sresize b size else b.

(** The top of the loop. *)
Definition start_packet (s : ssh2_bpp_state) : ssh2_bpp_state :=
  let i := b_input s in
  let blk := unit_of (cipher (b_in s)) 8 in
  let ml := mac_len (mac (b_in s)) in
  let '(p, size) := if in_cbc s then (CrCbcMac, OUR_V2_PACKETLIMIT + ml) else if in_etm s then (CrEtmLen, 4) else (CrStdFirst, blk) in
  set_input s (mkInput p (r_len i) (packetlen i) ml 0 blk (grow (buf i) size) (r_data i)).

Definition read_length (b : list Z) : Z := toint (GET_32BIT_MSB_FIRST b).

(** Decryption of a part of a block, in place. *)
Definition decrypt_at (c : option ssh_cipher) (b : block) (off n : Z) : option (option ssh_cipher * block) :=
  match c with
  | None => Some (None, b)
  | Some c =>
      x ← fetch b off n;
      let '(c, y) := ssh_cipher_decrypt c x in
      b ← store b off y;
      Some (Some c, b)
  end.

(** *** CBC ciphers: the MAC decides where the packet ends *)

Definition step_cbc_mac (s : ssh2_bpp_state) : option (ssh2_bpp_state * bool) :=
  BPP_READ s (maclen (b_input s)) (fun s x =>
    let i := b_input s in
    b ← store (buf i) 0 x;
    m ← mac (b_in s);
    m ← put_uint32 (ssh2_mac_start m) (sequence (b_in s));
    let s := set_in s (set_crypto (b_in s) (cipher (b_in s)) (Some m)) (in_decomp s) in
    Some (set_input s (mkInput CrCbcBlock (r_len i) 0 (maclen i) (maxlen i) (cipherblk i) b (r_data i)), true)).

(** What is common to all modes, once the packet is in [r_data], decrypted. *)
Section Packet.

(** The payload, decompressed if there is a decompressor that can; the result is [data] and [length]. *)
Definition decompress_payload (s : ssh2_bpp_state) (data : block) (length : Z) : option (ssh2_bpp_state * block * Z) :=
  match in_decomp s with
  | None => Some (s, data, length)
  | Some z =>
      x ← fetch data 5 (length - 5);
      '(z, r) ← ssh_decompressor_decompress z x;
      let s := set_in s (b_in s) (Some z) in
      match r with
      | None => Some (s, data, length)
      | Some newpayload =>
          let newlen := len newpayload in
          let data := if maxlen (b_input s) <? newlen + 5 then mkBlock (newlen + 5) (replicate 5 0) else data in
          data ← store data 5 newpayload;
          Some (s, data, 5 + newlen)
      end
  end.

Definition ssh2_bpp_check_unimplemented (s : ssh2_bpp_state) (p : PktIn) : option (ssh2_bpp_state * bool) :=
  if pi_type p <? 256 then
    w ← valid_bitmap !! Z.to_nat (pi_type p >> 5);
    if negb (Z.testbit w (pi_type p .& 31)) then
      pkt ← ssh2_bpp_new_pktout SSH2_MSG_UNIMPLEMENTED;
      pkt ← put_uint32 pkt (pi_sequence p);
      Some (set_queues s (push_out (b_queues s) pkt), true)
    else Some (s, false)
  else Some (s, false).

Definition set_prev_type (s : ssh2_bpp_state) (type : Z) : ssh2_bpp_state :=
  let f := b_flags s in
  set_flags s (mkFlags (cbc_ignore_workaround f) (is_server f) (pending_newkeys f) (output_blocked f) (seen_userauth_success f)
                 (enforce_next_packet_is_userauth_success f) (nnewkeys f) type).

(** After EXT_INFO: an error, or the flag to be set. *)
Definition check_ext_info (f : flags) (prev : Z) : string + bool :=
  if (prev =? SSH2_MSG_NEWKEYS) && (nnewkeys f =? 1) then inr (enforce_next_packet_is_userauth_success f)
  else if is_server f then inl "Remote side sent SSH2_MSG_EXT_INFO that was not immediately after the initial NEWKEYS"%string
  else if (0 <? nnewkeys f) && seen_userauth_success f then inl "Remote side sent SSH2_MSG_EXT_INFO after USERAUTH_SUCCESS"%string
  else inr true.

(** What the type of a packet that was put on the queue means for the protocol itself. *)
Definition handle_type (s : ssh2_bpp_state) (type : Z) : option (ssh2_bpp_state * bool) :=
  let prev := prev_type (b_flags s) in
  let s := set_prev_type s type in
  let f := b_flags s in
  if enforce_next_packet_is_userauth_success f && negb (type =? SSH2_MSG_USERAUTH_SUCCESS) then
    Some (end_with s (crState (b_input s))
            (ProtoError "Remote side sent SSH2_MSG_EXT_INFO not either preceded by NEWKEYS or followed by USERAUTH_SUCCESS"), false)
  else
    let s := set_flags s (mkFlags (cbc_ignore_workaround f) (is_server f) (pending_newkeys f) (output_blocked f) (seen_userauth_success f)
                            false (nnewkeys f) (prev_type f)) in
    let f := b_flags s in
    if type =? SSH2_MSG_NEWKEYS then
      let s := set_flags s (mkFlags (cbc_ignore_workaround f) (is_server f) true (output_blocked f) (seen_userauth_success f)
                              (enforce_next_packet_is_userauth_success f) (if nnewkeys f <? 2 then nnewkeys f + 1 else nnewkeys f) (prev_type f)) in
      Some (set_input s (set_cr (b_input s) CrNewkeys), false)
    else
      s ← (if (type =? SSH2_MSG_USERAUTH_SUCCESS) && negb (is_server f) then
             s ← ssh2_bpp_enable_pending_compression s;
             let f := b_flags s in
             Some (set_flags s (mkFlags (cbc_ignore_workaround f) (is_server f) (pending_newkeys f) (output_blocked f) true
                                  (enforce_next_packet_is_userauth_success f) (nnewkeys f) (prev_type f)))
           else Some s);
      let f := b_flags s in
      match (if type =? SSH2_MSG_EXT_INFO then check_ext_info f prev else inr (enforce_next_packet_is_userauth_success f)) with
      | inl msg => Some (end_with s (crState (b_input s)) (ProtoError msg), false)
      | inr enforce =>
          let blocked := if output_blocked f && userauth_range type then false else output_blocked f in
          let s := set_flags s (mkFlags (cbc_ignore_workaround f) (is_server f) (pending_newkeys f) blocked (seen_userauth_success f)
                                  enforce (nnewkeys f) (prev_type f)) in
          Some (set_input s (set_cr (b_input s) CrStart), true)
      end.

Definition finish_packet (s : ssh2_bpp_state) : option (ssh2_bpp_state * bool) :=
  let i := b_input s in
  x ← fetch (r_data i) 4 1;
  pad ← head x;
  if (pad <? 4) || (r_len i - pad <? 1) then Some (end_with s CrStart (SwAbort "Invalid padding length on received packet"), false)
  else
    let s := set_stats s (dts_consume (stats_in s) (packetlen i)) (stats_out s) in
    let seq := sequence (b_in s) in
    let s := set_in s (next_sequence (b_in s)) (in_decomp s) in
    let length := packetlen i - pad in
    assert! 0 <=? length;
    '(s, data, length) ← decompress_payload s (r_data i) length;
    '(type, payload) ← (if length <=? 5 then Some (SSH_MSG_NO_TYPE_CODE, [])
                        else
                          t ← fetch data 5 1; t ← head t;
                          payload ← fetch data 6 (length - 6);
                          Some (t, payload));
    let pkt := mkPktIn type seq payload in
    '(s, unimplemented) ← ssh2_bpp_check_unimplemented s pkt;
    if unimplemented : bool then Some (set_input s (set_cr (b_input s) CrStart), true)
    else handle_type (set_queues s (push_in (b_queues s) pkt)) type.
End Packet.

(** One more block of the cipher is read, decrypted and fed to the MAC. *)
Definition step_cbc_block (s : ssh2_bpp_state) : option (ssh2_bpp_state * bool) :=
  BPP_READ s (cipherblk (b_input s)) (fun s x =>
    let i := b_input s in
    b ← store (buf i) (packetlen i + maclen i) x;
    '(c, b) ← decrypt_at (cipher (b_in s)) b (packetlen i) (cipherblk i);
    x ← fetch b (packetlen i) (cipherblk i);
    m ← mac (b_in s);
    m ← put_data m x;
    let plen := packetlen i + cipherblk i in
    cand ← fetch b plen (maclen i);
    '(m, ok) ← ssh2_mac_verresult m cand;
    l ← fetch b 0 4;
    let s := set_in s (set_crypto (b_in s) c (Some m)) (in_decomp s) in
    let rlen := if ok : bool then read_length l else r_len i in
    if ok && (rlen =? plen - 4) then
      let max := plen + maclen i in
      x ← fetch b 0 max;
      data ← store (mkBlock max []) 0 x;
      finish_packet (set_input s (mkInput CrCbcBlock rlen plen (maclen i) max (cipherblk i) b data))
    else
      let s := set_input s (mkInput CrCbcBlock rlen plen (maclen i) (maxlen i) (cipherblk i) b (r_data i)) in
      if OUR_V2_PACKETLIMIT <=? plen then Some (end_with s CrStart (SwAbort "No valid incoming packet found"), false)
      else Some (s, true)).

(** *** Encrypt-then-MAC *)

Definition step_etm_len (s : ssh2_bpp_state) : option (ssh2_bpp_state * bool) :=
  BPP_READ s 4 (fun s x =>
    let i := b_input s in
    b ← store (buf i) 0 x;
    let '(c, l) := match cipher (b_in s) with
                   | Some c => if ca_separate_length (c_vt c)
                               then let '(c, l) := ssh_cipher_decrypt_length c x (sequence (b_in s)) in (Some c, l)
                               else (Some c, x)
                   | None => (None, x)
                   end in
    let s := set_in s (set_crypto (b_in s) c (mac (b_in s))) (in_decomp s) in
    let rlen := read_length l in
    if (rlen <? 0) || (OUR_V2_PACKETLIMIT <? rlen) || negb (Z.rem rlen (cipherblk i) =? 0) then
      Some (end_with (set_input s (mkInput (crState i) rlen (packetlen i) (maclen i) (maxlen i) (cipherblk i) b (r_data i))) CrStart
              (SwAbort "Incoming packet length field was garbled"), false)
    else
      data ← store (mkBlock (OUR_V2_PACKETLIMIT + maclen i) []) 0 x;
      Some (set_input s (mkInput CrEtmRest rlen (rlen + 4) (maclen i) (maxlen i) (cipherblk i) b data), true)).

(** The MAC of what is in [r_data] up to the end of the packet. *)
Definition check_mac (s : ssh2_bpp_state) (data : block) : option (ssh2_bpp_state * bool) :=
  match mac (b_in s) with
  | None => Some (s, true)
  | Some m =>
      let i := b_input s in
      x ← fetch data 0 (r_len i + 4);
      cand ← fetch data (r_len i + 4) (maclen i);
      '(m, ok) ← ssh2_mac_verify m x cand (sequence (b_in s));
      Some (set_in s (set_crypto (b_in s) (cipher (b_in s)) (Some m)) (in_decomp s), ok)
  end.

Definition set_data (s : ssh2_bpp_state) (data : block) : ssh2_bpp_state :=
  let i := b_input s in
  set_input s (mkInput (crState i) (r_len i) (packetlen i) (maclen i) (maxlen i) (cipherblk i) (buf i) data).

Definition step_etm_rest (s : ssh2_bpp_state) : option (ssh2_bpp_state * bool) :=
  BPP_READ s (packetlen (b_input s) + maclen (b_input s) - 4) (fun s x =>
    let i := b_input s in
    data ← store (r_data i) 4 x;
    '(s, ok) ← check_mac s data;
    if negb ok then Some (end_with (set_data s data) CrStart (SwAbort "Incorrect MAC received on packet"), false)
    else
      '(c, data) ← decrypt_at (cipher (b_in s)) data 4 (packetlen i - 4);
      finish_packet (set_data (set_in s (set_crypto (b_in s) c (mac (b_in s))) (in_decomp s)) data)).

(** *** The standard protocol *)

Definition step_std_first (s : ssh2_bpp_state) : option (ssh2_bpp_state * bool) :=
  BPP_READ s (cipherblk (b_input s)) (fun s x =>
    let i := b_input s in
    b ← store (buf i) 0 x;
    '(c, b) ← decrypt_at (cipher (b_in s)) b 0 (cipherblk i);
    let s := set_in s (set_crypto (b_in s) c (mac (b_in s))) (in_decomp s) in
    l ← fetch b 0 4;
    let rlen := read_length l in
    if (rlen <? 0) || (OUR_V2_PACKETLIMIT <? rlen) || negb (Z.rem (rlen + 4) (cipherblk i) =? 0) then
      Some (end_with (set_input s (mkInput (crState i) rlen (packetlen i) (maclen i) (maxlen i) (cipherblk i) b (r_data i))) CrStart
              (SwAbort "Incoming packet was garbled on decryption"), false)
    else
      let max := rlen + 4 + maclen i in
      x ← fetch b 0 (cipherblk i);
      data ← store (mkBlock max []) 0 x;
      Some (set_input s (mkInput CrStdRest rlen (rlen + 4) (maclen i) max (cipherblk i) b data), true)).

Definition step_std_rest (s : ssh2_bpp_state) : option (ssh2_bpp_state * bool) :=
  BPP_READ s (packetlen (b_input s) + maclen (b_input s) - cipherblk (b_input s)) (fun s x =>
    let i := b_input s in
    data ← store (r_data i) (cipherblk i) x;
    '(c, data) ← decrypt_at (cipher (b_in s)) data (cipherblk i) (packetlen i - cipherblk i);
    let s := set_in s (set_crypto (b_in s) c (mac (b_in s))) (in_decomp s) in
    '(s, ok) ← check_mac s data;
    if negb ok then Some (end_with (set_data s data) CrStart (SwAbort "Incorrect MAC received on packet"), false)
    else finish_packet (set_data s data)).

(** *** The coroutine *)

Definition step_eof (s : ssh2_bpp_state) : option (ssh2_bpp_state * bool) :=
  let q := b_queues s in
  match in_pq q with
  | [] => Some (end_with s CrEof (if expect_close q then RemoteEof else RemoteError), false)
  | _ => Some (s, false)
  end.

Definition bpp_step (s : ssh2_bpp_state) : option (ssh2_bpp_state * bool) :=
  match crState (b_input s) with
  | CrStart => Some (start_packet s, true)
  | CrCbcMac => step_cbc_mac s
  | CrCbcBlock => step_cbc_block s
  | CrEtmLen => step_etm_len s
  | CrEtmRest => step_etm_rest s
  | CrStdFirst => step_std_first s
  | CrStdRest => step_std_rest s
  | CrNewkeys => if pending_newkeys (b_flags s) then Some (s, false) else Some (set_input s (set_cr (b_input s) CrStart), true)
  | CrEof => step_eof s
  end.

Fixpoint input_loop (fuel : nat) (s : ssh2_bpp_state) : option ssh2_bpp_state :=
  match fuel with
  | O => None
  | S fuel => '(s, go) ← bpp_step s; if go : bool then input_loop fuel s else Some s
  end.

(** Every packet takes at least one byte of the input, in at most four steps. *)
Definition input_fuel (s : ssh2_bpp_state) : nat := 4 * length (in_raw (b_queues s)) + 8.

(** Once the connection has ended, nothing more happens. *)
Definition ssh2_bpp_handle_input (s : ssh2_bpp_state) : option ssh2_bpp_state :=
  match b_fate s with
  | Some _ => Some s
  | None => input_loop (input_fuel s) s
  end.
