(* ===== verification/Ssh2Run.v ===== *)
(** * The input side of the packet protocol: runs of the coroutine

    The coroutine always comes to a stop, and where it stops does not
    depend on how the bytes were divided on their way. *)

From S2P Require Import Prelude Marshal SshCrypto Ssh2Bpp.
Open Scope Z_scope.
#[local] Opaque valid_bitmap.

(** ** Runs, without fuel *)

(** [run s r]: the coroutine, started in [s], stops in the state [r], or fails. *)
Inductive run : ssh2_bpp_state -> option ssh2_bpp_state -> Prop :=
| run_fail s : bpp_step s = None -> run s None
| run_stop s s' : bpp_step s = Some (s', false) -> run s (Some s')
| run_go s s' r : bpp_step s = Some (s', true) -> run s' r -> run s r.

Lemma run_det s r1 r2 : run s r1 -> run s r2 -> r1 = r2.
Proof. intros H1. revert r2. induction H1; intros r2; inversion 1; simplify_eq; auto. Qed.

(** ** Termination *)

Definition rank (p : crpos) : Z :=
  match p with
  | CrEof => 0 | CrCbcBlock => 1 | CrCbcMac | CrStdFirst | CrEtmLen => 2 | CrStart => 3 | CrStdRest | CrEtmRest | CrNewkeys => 4
  end.
Definition measure (s : ssh2_bpp_state) : Z := 4 * len (in_raw (b_queues s)) + rank (crState (b_input s)).

(** In the states that read [cipherblk] bytes, it has been set. *)
Definition cr_ok (s : ssh2_bpp_state) : Prop :=
  match crState (b_input s) with
  | CrCbcMac | CrCbcBlock | CrStdFirst => 8 <= cipherblk (b_input s)
  | _ => True
  end.

Lemma unit_of_8 c n : 8 <= unit_of c n.
Proof. unfold unit_of. bcase; lia. Qed.


(** Take apart what says that something succeeded. *)
Ltac succeeds :=
  repeat (match goal with
  | H : mbind _ _ = Some _ |- _ => apply bind_Some in H as (?&?&H)
  | H : match ?x with _ => _ end = Some _ |- _ => destruct x eqn:?
  end; try done); simplify_eq.

(** The parts of the state that neither new compression nor the type of a packet touches. *)
Definition io (s : ssh2_bpp_state) : input * queues * option fate := (b_input s, b_queues s, b_fate s).

Lemma enable_pending_io s s' : ssh2_bpp_enable_pending_compression s = Some s' -> io s' = io s /\ b_flags s' = b_flags s.
Proof. unfold ssh2_bpp_enable_pending_compression. intros H. succeeds; done. Qed.

(** What the end of a step leaves of the input, and where the coroutine goes. *)
Definition source (s : ssh2_bpp_state) : list Z * bool := (in_raw (b_queues s), input_eof (b_queues s)).
Definition halted (s : ssh2_bpp_state) : Prop :=
  b_fate s <> None \/ (crState (b_input s) = CrNewkeys /\ pending_newkeys (b_flags s) = true).
Definition ended_well (s s' : ssh2_bpp_state) (go : bool) : Prop :=
  source s' = source s /\ (if go then crState (b_input s') = CrStart /\ b_fate s' = b_fate s else halted s') /\ (cr_ok s -> cr_ok s').

Lemma handle_type_end s t s' go : handle_type s t = Some (s', go) -> ended_well s s' go.
Proof.
  unfold handle_type, ended_well, halted. intros H.
  case_match; [simplify_eq; split_and!; [done|by left|done]|]. case_match; [simplify_eq; split_and!; [done|by right|done]|].
  apply bind_Some in H as (s1&E&H).
  assert (source s1 = source s /\ b_fate s1 = b_fate s /\ (cr_ok s -> cr_ok s1)) as (<-&<-&Hok).
  { clear H. revert E. unfold source, cr_ok. case_match; intros E; [|by simplify_eq]. apply bind_Some in E as (s2&[E2 _]%enable_pending_io&E).
    injection E2 as E1 E2 E3. simplify_eq. cbn. by rewrite E1, E2, E3. }
  case_match; simplify_eq; split_and!; (done || by left).
Qed.

Lemma decompress_payload_io s data l s' data' l' : decompress_payload s data l = Some (s', data', l') -> io s' = io s.
Proof. unfold decompress_payload. intros H. succeeds; done. Qed.

Lemma check_unimplemented_io s p s' u : ssh2_bpp_check_unimplemented s p = Some (s', u) ->
  b_input s' = b_input s /\ source s' = source s /\ b_fate s' = b_fate s.
Proof. unfold ssh2_bpp_check_unimplemented. intros H. succeeds; done. Qed.

Lemma finish_packet_end s s' go : finish_packet s = Some (s', go) -> ended_well s s' go.
Proof.
  unfold finish_packet, ended_well. intros H. apply bind_Some in H as (x&_&H). apply bind_Some in H as (pad&_&H).
  case_match; [simplify_eq; split_and!; [done|by left|done]|]. case_match; [|done].
  apply bind_Some in H as ([[s1 data] l]&E1%decompress_payload_io&H). apply bind_Some in H as ([t payload]&_&H).
  apply bind_Some in H as ([s2 u]&(E4&E2&E3)%check_unimplemented_io&H). injection E1 as Ei Eq Ef.
  assert (source s2 = source s /\ b_fate s2 = b_fate s) as [Es Ef'] by (rewrite E2, E3, Ef; unfold source; by rewrite Eq).
  assert (cr_ok s -> cr_ok s2) as Hok by (unfold cr_ok; by rewrite E4, Ei).
  destruct u; [injection H as <- <-; by rewrite <- Es, <- Ef'|]. apply handle_type_end in H as (Ha&Hb&Hc). rewrite <- Es, <- Ef'. auto.
Qed.

(** A step that goes on from a call of [BPP_READ] has read the bytes, or found the end of the input. *)
Definition consumed (s : ssh2_bpp_state) (n : Z) : ssh2_bpp_state :=
  set_queues s (set_in_raw (b_queues s) (drop (Z.to_nat n) (in_raw (b_queues s)))).

Lemma BPP_READ_go s n k s' : BPP_READ s n k = Some (s', true) ->
  s' = set_input s (set_cr (b_input s) CrEof) \/ (n <= len (in_raw (b_queues s)) /\ exists x, k (consumed s n) x = Some (s', true)).
Proof. unfold BPP_READ. bcase; [|case_match; intros; simplify_eq; auto]. right. eauto. Qed.

Lemma consumed_len s n : n <= len (in_raw (b_queues s)) -> len (in_raw (b_queues (consumed s n))) = len (in_raw (b_queues s)) - Z.max 0 n.
Proof. intros. unfold consumed. cbn. unfold len in *. rewrite length_drop. lia. Qed.

(** How one read of [n] bytes, and what follows it, changes the rank. *)
Lemma read_decreases s n k s' (b : Z) :
  (forall s0 x, b_input s0 = b_input s -> k s0 x = Some (s', true) ->
     source s' = source s0 /\ b_fate s' = b_fate s0 /\ rank (crState (b_input s')) < b /\ cr_ok s') ->
  0 < rank (crState (b_input s)) -> b <= rank (crState (b_input s)) + 4 * Z.max 0 n ->
  BPP_READ s n k = Some (s', true) -> (measure s' < measure s /\ cr_ok s') /\ input_eof (b_queues s') = input_eof (b_queues s) /\ b_fate s' = b_fate s.
Proof.
  intros Hk Hr Hb H. unfold measure. apply BPP_READ_go in H as [->|(Hn&x&H)].
  - cbn. split; [|done]. split; [|done]. lia.
  - destruct (Hk (consumed s n) x eq_refl H) as ([= E Ee]&Ef&Hr'&Hok). split; [|by rewrite Ee, Ef]. split; [|done].
    pose proof (consumed_len s n Hn) as Hl. cbn in *. rewrite E, Hl. lia.
Qed.

Lemma finish_packet_moves s s' :
  finish_packet s = Some (s', true) -> source s' = source s /\ b_fate s' = b_fate s /\ rank (crState (b_input s')) < 4 /\ cr_ok s'.
Proof. intros (H1&[H2 H3]&_)%finish_packet_end. unfold cr_ok. rewrite H2. done. Qed.

Lemma check_mac_io s data s' ok : check_mac s data = Some (s', ok) -> io s' = io s.
Proof. unfold check_mac. intros H. succeeds; done. Qed.

(** The packet is finished in a state that differs from [s] in the direction only. *)
Ltac after_check_mac :=
  match goal with H : check_mac _ _ = Some _, H' : source _ = source _ /\ _ |- _ => apply check_mac_io in H; revert H H' end;
  unfold io, source; cbn; intros [= _ -> ->]; done.

Lemma step_decreases s s' : cr_ok s -> bpp_step s = Some (s', true) ->
  (measure s' < measure s /\ cr_ok s') /\ input_eof (b_queues s') = input_eof (b_queues s) /\ b_fate s' = b_fate s.
Proof.
  intros Hok. unfold bpp_step. destruct (crState (b_input s)) eqn:Ecr; unfold cr_ok in Hok; rewrite Ecr in Hok.
  2: apply (read_decreases _ _ _ _ 2). 5: apply (read_decreases _ _ _ _ 4). 8: apply (read_decreases _ _ _ _ 5).
  11: apply (read_decreases _ _ _ _ 4). 14: apply (read_decreases _ _ _ _ 5). 17: apply (read_decreases _ _ _ _ 4).
  all: rewrite ?Ecr; cbn [rank]; try lia; try (intros s0 x E H).
  - unfold measure. rewrite Ecr. intros [= <-]. unfold start_packet, cr_ok. pose proof (unit_of_8 (cipher (b_in s)) 8).
    repeat case_match; cbn; simplify_eq; cbn in *; simplify_eq; split_and!; (done || lia).
  - succeeds. cbn. split_and!; try done. by rewrite E.
  - succeeds; [by apply finish_packet_moves in H|]. cbn. split_and!; try done. by rewrite E.
  - by succeeds.
  - succeeds. apply finish_packet_moves in H. after_check_mac.
  - by succeeds.
  - succeeds. apply finish_packet_moves in H. after_check_mac.
  - case_match; intros [= <-]. unfold measure. rewrite Ecr. cbn. split_and!; (lia || done).
  - unfold step_eof. case_match; by intros [= <-].
Qed.

(** Where the coroutine stops: for good, for new keys, or for more input. *)
Lemma step_stops s s' : bpp_step s = Some (s', false) -> halted s' \/ s' = s.
Proof.
  unfold bpp_step. destruct (crState (b_input s)) eqn:Ecr; [done|..].
  1-6: unfold step_cbc_mac, step_cbc_block, step_etm_len, step_etm_rest, step_std_first, step_std_rest, BPP_READ; intros H;
    case_match; [|case_match; [done|right; congruence]]; left.
  all: succeeds; try match goal with H : finish_packet _ = Some _ |- _ => apply finish_packet_end in H as (_&H&_) end; try done.
  1-5: by left.
  - case_match; intros [= <-]. by right.
  - unfold step_eof. destruct (in_pq _); intros [= <-]; [left; by left|by right].
Qed.

Lemma input_loop_run n s : cr_ok s -> measure s < Z.of_nat n -> run s (input_loop n s).
Proof.
  revert s. induction n as [|n IH]; intros s Hok Hm.
  - unfold measure in Hm. pose proof (len_nonneg (in_raw (b_queues s))). destruct (crState (b_input s)); cbn in Hm; lia.
  - cbn [input_loop]. destruct (bpp_step s) as [[s' [|]]|] eqn:E; cbn [mbind option_bind]; [|by apply run_stop|by apply run_fail].
    apply (run_go _ s'); [done|]. destruct (step_decreases s s' Hok E) as ([Hd Hok']&_&_). apply IH; [done|]. lia.
Qed.

Lemma input_fuel_enough s : measure s < Z.of_nat (input_fuel s).
Proof. unfold measure, input_fuel, len. destruct (crState (b_input s)); cbn [rank]; lia. Qed.

(** [ssh2_bpp_handle_input], as a relation. *)
Definition handles (s : ssh2_bpp_state) (r : option ssh2_bpp_state) : Prop :=
  match b_fate s with Some _ => r = Some s | None => run s r end.

Lemma handle_input_handles s : cr_ok s -> handles s (ssh2_bpp_handle_input s).
Proof.
  intros Hok. unfold handles, ssh2_bpp_handle_input. destruct (b_fate s); [done|]. apply input_loop_run; [done|]. apply input_fuel_enough.
Qed.

Lemma handles_det s r1 r2 : handles s r1 -> handles s r2 -> r1 = r2.
Proof. unfold handles. case_match; [congruence|apply run_det]. Qed.

(** ** More input *)

Definition add_raw (s : ssh2_bpp_state) (y : list Z) : ssh2_bpp_state := set_queues s (set_in_raw (b_queues s) (in_raw (b_queues s) ++ y)).

Definition more {A} (y : list Z) (r : option (ssh2_bpp_state * A)) : option (ssh2_bpp_state * A) := '(s, a) ← r; Some (add_raw s y, a).

(** Both sides of an equation make the same decisions. *)
Ltac atomic t := lazymatch t with context [match _ with _ => _ end] => fail | context [mbind] => fail | _ => idtac end.
Ltac lockstep :=
  repeat (match goal with
  | |- context [mbind _ ?x] => atomic x; destruct x
  | |- context [match ?x with _ => _ end] => atomic x; destruct x
  end; cbn; try reflexivity).

Lemma enable_pending_more s y : ssh2_bpp_enable_pending_compression (add_raw s y) = (s ← ssh2_bpp_enable_pending_compression s; Some (add_raw s y)).
Proof.
  unfold ssh2_bpp_enable_pending_compression, add_raw. destruct s as [i [] [] zi zo f q si so fa r]. cbn.
  lockstep.
Qed.

Lemma decompress_payload_more s data l y :
  decompress_payload (add_raw s y) data l = ('(s, d, l) ← decompress_payload s data l; Some (add_raw s y, d, l)).
Proof. unfold decompress_payload, add_raw. destruct s as [i di do zi zo f q si so fa r]. cbn. lockstep. Qed.

Lemma check_unimplemented_more s p y : ssh2_bpp_check_unimplemented (add_raw s y) p = more y (ssh2_bpp_check_unimplemented s p).
Proof. unfold more, ssh2_bpp_check_unimplemented, add_raw. destruct s as [i di do zi zo f q si so fa r]. cbn. lockstep. Qed.

Lemma check_mac_more s data y : check_mac (add_raw s y) data = more y (check_mac s data).
Proof. unfold more, check_mac, add_raw. destruct s as [i di do zi zo f q si so fa r]. cbn. lockstep. Qed.

Lemma handle_type_more s t y : handle_type (add_raw s y) t = more y (handle_type s t).
Proof.
  unfold handle_type. change (b_flags (set_prev_type (add_raw s y) t)) with (b_flags (set_prev_type s t)).
  change (prev_type (b_flags (add_raw s y))) with (prev_type (b_flags s)).
  case_match; [done|]. case_match; [done|].
  change (set_flags (set_prev_type (add_raw s y) t) ?f) with (add_raw (set_flags (set_prev_type s t) f) y).
  change (b_flags (add_raw ?s y)) with (b_flags s). unfold more.
  destruct ((t =? SSH2_MSG_USERAUTH_SUCCESS) && negb _).
  - rewrite enable_pending_more. destruct (ssh2_bpp_enable_pending_compression _) as [s1|]; [|done]. cbn [mbind option_bind].
    destruct s1. cbn. destruct (if _ =? _ then _ else _); done.
  - cbn [mbind option_bind]. destruct (if t =? SSH2_MSG_EXT_INFO then _ else _); done.
Qed.

Lemma finish_packet_more s y : finish_packet (add_raw s y) = more y (finish_packet s).
Proof.
  unfold finish_packet. change (b_input (add_raw s y)) with (b_input s). destruct (fetch _ 4 1) as [x|]; [|done]. cbn [mbind option_bind].
  destruct (head x) as [pad|]; [|done]. cbn [mbind option_bind]. case_match; [done|]. case_match; [|done].
  change (decompress_payload _ _ _) with (decompress_payload (add_raw (set_in (set_stats s (dts_consume (stats_in s) (packetlen (b_input s))) (stats_out s))
    (next_sequence (b_in s)) (in_decomp s)) y) (r_data (b_input s)) (packetlen (b_input s) - pad)) at 1.
  rewrite decompress_payload_more. cbn [stats_in stats_out set_stats b_in in_decomp].
  destruct (decompress_payload _ _ _) as [[[s1 data] l]|]; [|done]. cbn [mbind option_bind].
  destruct (if l <=? 5 then _ else _) as [[t payload]|]; [|done]. cbn [mbind option_bind].
  rewrite check_unimplemented_more. change (sequence (b_in (set_stats (add_raw s y) ?a ?b))) with (sequence (b_in s)).
  change (sequence (b_in (set_stats s ?a ?b))) with (sequence (b_in s)).
  destruct (ssh2_bpp_check_unimplemented _ _) as [[s2 u]|]; [|done]. cbn [mbind option_bind more].
  destruct u; [done|]. apply (handle_type_more (set_queues s2 (push_in (b_queues s2) _)) t y).
Qed.

Lemma BPP_READ_more s n k y :
  (forall s x, k (add_raw s y) x = more y (k s x)) -> input_eof (b_queues s) = false ->
  BPP_READ (add_raw s y) n k = more y (BPP_READ s n k) \/ BPP_READ s n k = Some (s, false).
Proof.
  intros Hk He. unfold BPP_READ. rewrite He. destruct (Z.leb_spec n (len (in_raw (b_queues s)))); [left|by right].
  cbn [add_raw set_queues b_queues set_in_raw in_raw]. rewrite len_app, (proj2 (Z.leb_le n _)) by (pose proof (len_nonneg y); lia).
  unfold len in *. rewrite take_app_le, drop_app_le by lia. rewrite <- Hk. done.
Qed.

Lemma bpp_step_more s y : input_eof (b_queues s) = false -> bpp_step (add_raw s y) = more y (bpp_step s) \/ bpp_step s = Some (s, false).
Proof.
  intros He. unfold bpp_step. change (b_input (add_raw s y)) with (b_input s). destruct (crState (b_input s)).
  2-7: apply BPP_READ_more; [clear He s; intros s x; cbv beta zeta|done]; change (b_input (add_raw s y)) with (b_input s); change (b_in (add_raw s y)) with (b_in s).
  - left. unfold start_packet. change (in_cbc (add_raw s y)) with (in_cbc s). change (in_etm (add_raw s y)) with (in_etm s).
    by destruct (in_cbc s), (in_etm s).
  - lockstep.
  - destruct (store _ _ _) as [b|]; [|done]. cbn [mbind option_bind].
    destruct (decrypt_at _ _ _ _) as [[c b']|]; [|done]. cbn [mbind option_bind].
    destruct (fetch b' (packetlen (b_input s)) _) as [x'|]; [|done]. cbn [mbind option_bind].
    destruct (mac (b_in s)) as [m|]; [|done]. cbn [mbind option_bind].
    destruct (put_data m x') as [m'|]; [|done]. cbn [mbind option_bind].
    destruct (fetch b' (packetlen (b_input s) + _) _) as [cand|]; [|done]. cbn [mbind option_bind].
    destruct (ssh2_mac_verresult _ _) as [[m2 ok]|]; [|done]. cbn [mbind option_bind].
    destruct (fetch b' 0 4) as [l|]; [|done]. cbn [mbind option_bind].
    case_match.
    + destruct (fetch b' 0 (_ + _ + _)) as [x2|]; [|done]. cbn [mbind option_bind]. destruct (store _ _ x2) as [d|]; [|done]. cbn [mbind option_bind].
      change (set_input (set_in (add_raw s y) ?d ?z) ?i) with (add_raw (set_input (set_in s d z) i) y). apply finish_packet_more.
    + by destruct (OUR_V2_PACKETLIMIT <=? _).
  - lockstep.
  - destruct (store _ _ _) as [b|]; [|done]. cbn [mbind option_bind].
    rewrite check_mac_more. destruct (check_mac _ _) as [[s1 ok]|]; [|done]. cbn [mbind option_bind more].
    case_match; [done|]. change (b_in (add_raw s1 y)) with (b_in s1). destruct (decrypt_at _ _ _ _) as [[c b']|]; [|done]. cbn [mbind option_bind].
    unfold set_data. change (b_input (set_in (add_raw s1 y) ?d ?z)) with (b_input (set_in s1 d z)).
    change (set_input (set_in (add_raw s1 y) ?d ?z) ?i) with (add_raw (set_input (set_in s1 d z) i) y). apply finish_packet_more.
  - lockstep.
  - destruct (store _ _ _) as [b|]; [|done]. cbn [mbind option_bind].
    destruct (decrypt_at _ _ _ _) as [[c b']|]; [|done]. cbn [mbind option_bind].
    change (check_mac _ _) with (check_mac (add_raw (set_in s (set_crypto (b_in s) c (mac (b_in s))) (in_decomp s)) y) b') at 1.
    rewrite check_mac_more. destruct (check_mac _ _) as [[s1 ok]|]; [|done]. cbn [mbind option_bind more].
    case_match; [done|]. unfold set_data. change (b_input (add_raw s1 y)) with (b_input s1).
    change (set_input (add_raw s1 y) ?i) with (add_raw (set_input s1 i) y). apply finish_packet_more.
  - left. change (b_flags (add_raw s y)) with (b_flags s). by case_match.
  - left. unfold step_eof. change (in_pq (b_queues (add_raw s y))) with (in_pq (b_queues s)).
    change (expect_close (b_queues (add_raw s y))) with (expect_close (b_queues s)). by case_match.
Qed.

Lemma halted_more s y : halted s -> b_fate s = None -> bpp_step (add_raw s y) = Some (add_raw s y, false).
Proof.
  intros [?|[Hc Hp]] Hf; [done|]. unfold bpp_step. change (b_input (add_raw s y)) with (b_input s). rewrite Hc.
  change (b_flags (add_raw s y)) with (b_flags s). by rewrite Hp.
Qed.

(** Input that arrives later is treated as if it had been there from the start. *)
Lemma run_more s r y r' :
  cr_ok s -> input_eof (b_queues s) = false -> b_fate s = None -> run s r ->
  match r with Some s1 => handles (add_raw s1 y) r' | None => r' = None end -> run (add_raw s y) r'.
Proof.
  intros Hok He Hf Hr. induction Hr as [s E|s s1 E|s s1 r E Hr IH].
  - intros ->. destruct (bpp_step_more s y He) as [H|H]; [|congruence]. apply run_fail. by rewrite H, E.
  - intros Hh. destruct (bpp_step_more s y He) as [H|H].
    + rewrite E in H. cbn in H. destruct (step_stops s s1 E) as [Hs| ->].
      * assert (r' = Some (add_raw s1 y)) as ->; [|by apply run_stop].
        unfold handles in Hh. change (b_fate (add_raw s1 y)) with (b_fate s1) in Hh. destruct (b_fate s1) eqn:Ef; [done|].
        apply (run_det _ _ _ Hh), run_stop. by apply halted_more.
      * unfold handles in Hh. change (b_fate (add_raw s y)) with (b_fate s) in Hh. by rewrite Hf in Hh.
    + rewrite E in H. injection H as ->. unfold handles in Hh. change (b_fate (add_raw s y)) with (b_fate s) in Hh. by rewrite Hf in Hh.
  - intros Hh. destruct (step_decreases s s1 Hok E) as ([_ Hok1]&He1&Hf1).
    destruct (bpp_step_more s y He) as [H|H]; [|congruence]. rewrite E in H. cbn in H. apply (run_go _ (add_raw s1 y)); [done|].
    apply IH; [done|congruence|congruence|done].
Qed.

Lemma handle_input_fate s f : b_fate s = Some f -> ssh2_bpp_handle_input s = Some s.
Proof. intros Hf. unfold ssh2_bpp_handle_input. by rewrite Hf. Qed.

(** What handling input keeps. *)
Definition open_input (s : ssh2_bpp_state) : Prop := cr_ok s /\ input_eof (b_queues s) = false.

Lemma finish_packet_open s s' go : open_input s -> finish_packet s = Some (s', go) -> open_input s'.
Proof. intros [Hok He] ([= _ H1]&_&H2)%finish_packet_end. split; [by apply H2|congruence]. Qed.

Lemma step_keeps s s' : open_input s -> bpp_step s = Some (s', false) -> open_input s'.
Proof.
  intros [Hok He]. unfold bpp_step. destruct (crState (b_input s)) eqn:Ecr; unfold cr_ok in Hok; rewrite Ecr in Hok; [done|..].
  1-6: unfold step_cbc_mac, step_cbc_block, step_etm_len, step_etm_rest, step_std_first, step_std_rest, BPP_READ; intros H;
    (case_match; [|case_match; [done|injection H as <-; split; [unfold cr_ok; by rewrite Ecr|done]]]).
  all: succeeds; try match goal with H : finish_packet _ = Some _ |- _ => eapply finish_packet_open; [|exact H]; clear H end; try done.
  1-4: match goal with H : check_mac _ _ = Some _ |- _ => apply check_mac_io in H; injection H as Hi Hq _ end;
    (split; [unfold cr_ok; cbn; rewrite ?Hi; cbn; by rewrite ?Ecr|cbn; by rewrite Hq]).
  - case_match; intros [= <-]. split; [unfold cr_ok; by rewrite Ecr|done].
  - unfold step_eof. destruct (in_pq _); intros [= <-]; (split; [unfold cr_ok; cbn; by rewrite ?Ecr|done]).
Qed.

Lemma run_keeps s s1 : open_input s -> run s (Some s1) -> open_input s1.
Proof.
  intros Ho Hr. remember (Some s1) as r eqn:Er. revert Ho Er. induction Hr as [|s s2 E|s s2 r E Hr IH]; intros Ho Er; [done| |].
  - injection Er as ->. by apply (step_keeps s).
  - apply IH; [|done]. destruct Ho as [Hok He], (step_decreases s s2 Hok E) as ([_ Hok2]&He2&_). split; [done|congruence].
Qed.

(** Bytes arrive from the network. *)
Definition receive (s : ssh2_bpp_state) (data : list Z) : option ssh2_bpp_state := ssh2_bpp_handle_input (add_raw s data).
Fixpoint receive_all (s : ssh2_bpp_state) (chunks : list (list Z)) : option ssh2_bpp_state :=
  match chunks with [] => Some s | c :: chunks => s ← receive s c; receive_all s chunks end.

Lemma add_raw_app s a b : add_raw (add_raw s a) b = add_raw s (a ++ b).
Proof. unfold add_raw. cbn. by rewrite app_assoc. Qed.

Lemma receive_more s a b : open_input s -> receive s (a ++ b) = (s ← receive s a; receive s b).
Proof.
  intros [Hok He]. unfold receive. rewrite <- add_raw_app. destruct (b_fate s) as [f|] eqn:Ef.
  - rewrite !(handle_input_fate _ f) by done. cbn [mbind option_bind]. by rewrite (handle_input_fate _ f).
  - pose proof (handle_input_handles (add_raw s a) Hok) as Ha. unfold handles in Ha. change (b_fate (add_raw s a)) with (b_fate s) in Ha.
    rewrite Ef in Ha. pose proof (handle_input_handles (add_raw (add_raw s a) b) Hok) as Hab. unfold handles in Hab.
    change (b_fate (add_raw (add_raw s a) b)) with (b_fate s) in Hab. rewrite Ef in Hab. apply (run_det _ _ _ Hab).
    apply (run_more (add_raw s a) _ b _ Hok He Ef Ha). destruct (ssh2_bpp_handle_input (add_raw s a)) as [s1|]; [|done]. cbn [mbind option_bind].
    apply handle_input_handles. by apply (run_keeps (add_raw s a) s1).
Qed.

Lemma receive_keeps s a s1 : open_input s -> receive s a = Some s1 -> open_input s1.
Proof.
  intros Ho. unfold receive. destruct (b_fate s) as [f|] eqn:Ef; [rewrite (handle_input_fate _ f) by done; by intros [= <-]|].
  intros E. apply (run_keeps (add_raw s a)); [done|]. rewrite <- E. pose proof (handle_input_handles (add_raw s a) (proj1 Ho)) as Ha.
  unfold handles in Ha. change (b_fate (add_raw s a)) with (b_fate s) in Ha. by rewrite Ef in Ha.
Qed.

Lemma receive_all_concat s c chunks : open_input s -> receive_all s (c :: chunks) = receive s (concat (c :: chunks)).
Proof.
  revert s c. induction chunks as [|c' chunks IH]; intros s c Ho.
  - cbn. rewrite app_nil_r. by destruct (receive s c).
  - change (concat (c :: c' :: chunks)) with (c ++ concat (c' :: chunks)). rewrite receive_more by done.
    cbn [receive_all]. destruct (receive s c) as [s1|] eqn:E; [|done]. cbn [mbind option_bind]. apply IH. by apply (receive_keeps s c).
Qed.

(** C11. The network may divide the stream of bytes in any way: two divisions of the same bytes lead the coroutine to the same state, with the same
    packets on its queue, the same keys, the same point where it waits, and the same end of the connection or failure, whatever cipher, MAC and compression
    are in use and whatever the bytes are. *)
Theorem receive_chunks s c chunks c' chunks' :
  open_input s -> concat (c :: chunks) = concat (c' :: chunks') -> receive_all s (c :: chunks) = receive_all s (c' :: chunks').
Proof. intros Ho E. rewrite !receive_all_concat by done. by rewrite E. Qed.

(** Two states that come to the same stop do the same with any further input. *)
Lemma run_same_future s t r y f :
  open_input s -> open_input t -> b_fate s = None -> b_fate t = None -> run s r -> run t r -> run (add_raw t y) f -> run (add_raw s y) f.
Proof.
  intros [Hs1 Hs2] [Ht1 Ht2] Hsf Htf Hs Ht Hf.
  assert (exists g, match r with Some s1 => handles (add_raw s1 y) g | None => g = None end) as [g Hg].
  { destruct r as [s1|]; [|by exists None]. exists (ssh2_bpp_handle_input (add_raw s1 y)). apply handle_input_handles. by apply (run_keeps s s1). }
  pose proof (run_more s r y g Hs1 Hs2 Hsf Hs Hg) as Hs'. pose proof (run_more t r y g Ht1 Ht2 Htf Ht Hg) as Ht'.
  by rewrite (run_det _ _ _ Hf Ht').
Qed.

(** C23. The loops of [ssh2_bpp_handle_input] come to an end on any input, in any state whose block size has been set: the coroutine, as a relation without fuel, stops
    in exactly one way, and that is what the executable function returns. *)
Theorem handle_input_terminates s :
  cr_ok s -> b_fate s = None -> run s (ssh2_bpp_handle_input s) /\ (forall r, run s r -> r = ssh2_bpp_handle_input s).
Proof.
  intros Hok Hf. pose proof (handle_input_handles s Hok) as Hr. unfold handles in Hr. rewrite Hf in Hr.
  split; [done|]. intros r Hr'. by apply (run_det s).
Qed.

(** *** Examples *)

Definition no_stats : DataTransferStatsDirection * DataTransferStatsDirection := (mkDts false false 0, mkDts false false 0).

Lemma receive_chunks_witness :
  receive_all (ssh2_bpp_new false no_stats) [[0; 0; 0]; [12; 10; 94; 0; 0]; [0; 0; 0; 0; 0; 0; 0; 0; 5]]
  = receive_all (ssh2_bpp_new false no_stats) [[0]; [0; 0; 12; 10; 94; 0; 0; 0; 0; 0; 0; 0; 0]; [0; 0; 5]].
Proof. apply receive_chunks; [split; exact I || reflexivity|reflexivity]. Defined.

Lemma handle_input_terminates_witness :
  let s := add_raw (ssh2_bpp_new false no_stats) [0; 0; 0; 12; 10; 94; 0; 0; 0; 0; 0; 0; 0; 0; 0; 0; 5] in
  run s (ssh2_bpp_handle_input s) /\ (forall r, run s r -> r = ssh2_bpp_handle_input s).
Proof. apply handle_input_terminates; [exact I|reflexivity]. Defined.
