(* ===== verification/Ssh2Channel.v ===== *)
(** * One direction of an SSH-2 connection: two ends with the same keys

    The sender's end and the receiver's end of one direction agree on the cipher, the MAC, their
    keys and the sequence number.  A packet that one end protects, the other end opens. *)

From S2P Require Import Prelude Marshal SshCrypto Ssh2Bpp.
Open Scope Z_scope.

(** ** Which cipher and MAC are in use *)

Inductive cipher_kind := NoCipher | TheCipher (alg : ssh_cipheralg) (L : CipherLaws alg).
Inductive mac_kind := NoMac | TheMac (alg : ssh2_macalg) (L : MacLaws alg) (key : list Z).

(** [e] is the sender's cipher, [d] the receiver's. *)
Definition cipher_pair (k : cipher_kind) (e d : option ssh_cipher) : Prop :=
  match k with
  | NoCipher => e = None /\ d = None
  | TheCipher alg _ => exists x y, e = Some (mkCipher alg x) /\ d = Some (mkCipher alg y) /\ cl_sync x y
  end.

Definition mac_is (k : mac_kind) (m : option ssh2_mac) : Prop :=
  match k with NoMac => m = None | TheMac alg _ key => exists x, m = Some (mkMac alg x) /\ ml_keyed x key end.

Definition k_unit (k : cipher_kind) : Z := match k with NoCipher => 8 | TheCipher alg _ => cipher_unit alg end.
Definition k_separate (k : cipher_kind) : bool := match k with NoCipher => false | TheCipher alg _ => ca_separate_length alg end.
Definition k_maclen (k : mac_kind) : Z := match k with NoMac => 0 | TheMac alg _ _ => ma_len alg end.
Definition k_etm (k : mac_kind) (etm : bool) : bool := match k with NoMac => false | TheMac _ _ _ => etm end.
Definition tag (k : mac_kind) (seq : Z) (blk : list Z) : list Z :=
  match k with NoMac => [] | TheMac _ _ key => ml_tag key (mac_input seq blk) end.

(** The two ends of a direction. *)
Record channel (kc : cipher_kind) (km : mac_kind) (etm : bool) (o i : ssh2_bpp_direction) : Prop := {
  ch_sequence : sequence o = sequence i;
  ch_cipher : cipher_pair kc (cipher o) (cipher i);
  ch_mac_out : mac_is km (mac o);
  ch_mac_in : mac_is km (mac i);
  ch_etm_out : etm_mode o = etm;
  ch_etm_in : etm_mode i = etm;
  ch_pending : pending_compression o = pending_compression i;
  ch_separate : k_separate kc = true -> k_etm km etm = true
}.

(** ** The functions of the protocol on null pointers *)

Definition enc (c : option ssh_cipher) (x : list Z) : option ssh_cipher * list Z :=
  match c with None => (None, x) | Some c => let '(c, y) := ssh_cipher_encrypt c x in (Some c, y) end.
Definition dec (c : option ssh_cipher) (x : list Z) : option ssh_cipher * list Z :=
  match c with None => (None, x) | Some c => let '(c, y) := ssh_cipher_decrypt c x in (Some c, y) end.
Definition enc_length (c : option ssh_cipher) (x : list Z) (seq : Z) : option ssh_cipher * list Z :=
  match c with
  | None => (None, x)
  | Some c => if ca_separate_length (c_vt c) then let '(c, y) := ssh_cipher_encrypt_length c x seq in (Some c, y) else (Some c, x)
  end.
Definition dec_length (c : option ssh_cipher) (x : list Z) (seq : Z) : option ssh_cipher * list Z :=
  match c with
  | None => (None, x)
  | Some c => if ca_separate_length (c_vt c) then let '(c, y) := ssh_cipher_decrypt_length c x seq in (Some c, y) else (Some c, x)
  end.

Lemma k_unit_bounds k : 8 <= k_unit k <= 64.
Proof. destruct k as [|alg L]; cbn; [lia|]. pose proof (proj1 (cl_unit (alg := alg))). unfold cipher_unit in *. case_match; lia. Qed.

Lemma unit_divide alg L x : (k_unit (TheCipher alg L) | x) -> (ca_blksize alg | x).
Proof. cbn. apply Z.divide_trans, cl_unit. Qed.

Section Pair.
Context (k : cipher_kind) (e d : option ssh_cipher) (Hp : cipher_pair k e d).

Lemma pair_unit n : (k = NoCipher -> n <= 8) -> unit_of e n = k_unit k /\ unit_of d n = k_unit k.
Proof using Hp.
  intros Hn. unfold cipher_pair in Hp. destruct k as [|alg L].
  - destruct Hp as [-> ->]. unfold unit_of. specialize (Hn eq_refl). cbn. assert ((if n <? 8 then 8 else n) = 8) as E by (bcase; lia). by rewrite E.
  - by destruct Hp as (x&y&->&->&_).
Qed.

Lemma enc_dec x : (k_unit k | len x) -> bytes_ok x ->
  exists e' d' y, enc e x = (e', y) /\ dec d y = (d', x) /\ cipher_pair k e' d' /\ len y = len x /\ bytes_ok y.
Proof using Hp.
  intros Hd Hx. unfold cipher_pair in *. destruct k as [|alg L] eqn:Ek.
  - destruct Hp as [-> ->]. exists None, None, x. done.
  - destruct Hp as (a&b&->&->&Hs). destruct (cl_roundtrip a b x Hs) as (a'&b'&y&E1&E2&Hs'&Hl&Hy); [by apply (unit_divide alg L)|done|].
    exists (Some (mkCipher alg a')), (Some (mkCipher alg b')), y. unfold enc, dec, ssh_cipher_encrypt, ssh_cipher_decrypt. cbn [c_vt c_ctx].
    rewrite E1, E2. split_and!; eauto.
Qed.

Lemma enc_dec_length x seq : len x = 4 -> bytes_ok x ->
  exists e' d' y, enc_length e x seq = (e', y) /\ dec_length d y seq = (d', x) /\ cipher_pair k e' d' /\ len y = 4 /\ bytes_ok y
    /\ (k_separate k = false -> y = x /\ e' = e /\ d' = d).
Proof using Hp.
  intros Hl Hx. unfold cipher_pair in *. destruct k as [|alg L] eqn:Ek; cbn [k_separate].
  - destruct Hp as [-> ->]. exists None, None, x. done.
  - destruct Hp as (a&b&->&->&Hs). unfold enc_length, dec_length. cbn [c_vt]. destruct (ca_separate_length alg) eqn:E.
    + destruct (cl_length a b x seq E Hs Hx Hl) as (a'&b'&y&E1&E2&Hs'&Hly&Hy).
      exists (Some (mkCipher alg a')), (Some (mkCipher alg b')), y. unfold ssh_cipher_encrypt_length, ssh_cipher_decrypt_length. cbn [c_vt c_ctx].
      rewrite E1, E2. split_and!; eauto; done.
    + eexists _, _, x. split_and!; eauto.
Qed.
End Pair.

(** Decryption block by block, whatever is decrypted. *)
Definition opener (k : cipher_kind) (d : option ssh_cipher) : Prop :=
  match k with NoCipher => d = None | TheCipher alg _ => exists y, d = Some (mkCipher alg y) /\ cl_good y end.

Lemma pair_opener k e d : cipher_pair k e d -> opener k d.
Proof. destruct k as [|alg L]; cbn; [by intros [_ ->]|]. intros (x&y&_&->&H). exists y. split; [done|]. by eapply cl_sync_good. Qed.

Lemma dec_nil k d : opener k d -> dec d [] = (d, []).
Proof.
  destruct k as [|alg L]; cbn [opener]; [by intros ->|]. intros (y&->&_). unfold dec, ssh_cipher_decrypt. cbn [c_vt c_ctx]. by rewrite cl_nil.
Qed.

Lemma dec_split k d y1 y2 d' p : opener k d -> bytes_ok y1 -> bytes_ok y2 -> (k_unit k | len y1) -> (k_unit k | len y2) -> dec d (y1 ++ y2) = (d', p) ->
  exists d1 p1 p2, dec d y1 = (d1, p1) /\ dec d1 y2 = (d', p2) /\ p = p1 ++ p2 /\ len p1 = len y1 /\ opener k d1.
Proof.
  intros Ho Hb1 Hb2 H1 H2 E. destruct k as [|alg L]; cbn [opener] in Ho.
  - subst d. injection E as <- <-. by exists None, y1, y2.
  - destruct Ho as (b&->&Hg). unfold dec, ssh_cipher_decrypt in *. cbn [c_vt c_ctx] in *.
    rewrite cl_app in E by (done || by apply (unit_divide alg L)). pose proof (cl_decrypt_len b y1) as Hl.
    pose proof (cl_decrypt_good b y1 Hg Hb1 (unit_divide alg L _ H1)) as Hg1. destruct (ca_decrypt alg b y1) as [b1 p1]. cbn in Hl, Hg1. destruct (ca_decrypt alg b1 y2) as [b2 p2] eqn:E2. injection E as <- <-.
    exists (Some (mkCipher alg b1)), p1, p2. cbn [c_vt c_ctx]. rewrite E2. split_and!; [done..| |by exists b1].
    by apply Hl, (unit_divide alg L).
Qed.

Lemma k_maclen_bounds km : 0 <= k_maclen km <= 64.
Proof. destruct km as [|alg L key]; cbn; [lia|]. pose proof (ml_len (alg := alg)). lia. Qed.

Lemma tag_ok km seq blk : bytes_ok (tag km seq blk) /\ len (tag km seq blk) = k_maclen km.
Proof. destruct km as [|alg L key]; cbn; [by split; [constructor|]|apply ml_tag_ok]. Qed.

Section MacKind.
Context (km : mac_kind) (m : option ssh2_mac) (Hm : mac_is km m).

Lemma mac_is_len : mac_len m = k_maclen km.
Proof using Hm. unfold mac_is in Hm. destruct km; [by rewrite Hm|]. by destruct Hm as (x&->&_). Qed.

(** The MAC of a packet on its way out. *)
Definition mac_gen (m : option ssh2_mac) (blk : list Z) (seq : Z) : option (option ssh2_mac * list Z) :=
  match m with Some m => '(m, tag) ← ssh2_mac_generate m blk seq; Some (Some m, tag) | None => Some (None, []) end.

Lemma mac_gen_spec blk seq : bytes_ok blk -> exists m', mac_gen m blk seq = Some (m', tag km seq blk) /\ mac_is km m'.
Proof using Hm.
  intros Hb. unfold mac_is in *. destruct km as [|alg L key].
  - rewrite Hm. exists None. done.
  - destruct Hm as (x&->&Hk). destruct (mac_generate_spec (mkMac alg x) key blk seq Hk Hb) as (x'&E&Hk'). cbn [mac_gen]. rewrite E.
    exists (Some (mkMac alg x')). cbn. eauto.
Qed.

(** The MAC of a packet that arrives: it is compared with what follows the packet. *)
Definition mac_check (m : option ssh2_mac) (blk cand : list Z) (seq : Z) : option (option ssh2_mac * bool) :=
  match m with Some m => '(m, ok) ← ssh2_mac_verify m blk cand seq; Some (Some m, ok) | None => Some (None, true) end.

Lemma mac_check_spec blk cand seq : bytes_ok blk -> bytes_ok cand -> len cand = k_maclen km ->
  exists m', mac_check m blk cand seq = Some (m', bool_decide (tag km seq blk = cand)) /\ mac_is km m'.
Proof using Hm.
  intros Hb Hc Hl. unfold mac_is in *. destruct km as [|alg L key].
  - rewrite Hm. assert (cand = []) as -> by (apply len_nil_inv; cbn in Hl; lia). exists None. done.
  - destruct Hm as (x&->&Hk). destruct (mac_verify_spec (mkMac alg x) key blk cand seq Hk Hb Hc Hl) as (x'&E&Hk'). cbn [mac_check]. rewrite E.
    exists (Some (mkMac alg x')). cbn. eauto.
Qed.
End MacKind.

(** ** Protecting a packet *)

Lemma in_place_mid {A} (f : list Z -> A * list Z) a x b n : len x = n -> in_place f (a ++ x ++ b) (len a) n = let '(r, y) := f x in (r, a ++ y ++ b).
Proof.
  intros <-. unfold in_place. rewrite !Z2Nat.inj_add, !to_nat_len by apply len_nonneg.
  assert (drop (length a + length x) (a ++ x ++ b) = b) as -> by (rewrite app_assoc, <- length_app; apply drop_app_length).
  rewrite drop_app_length, take_app_length, take_app_length. done.
Qed.

Section Protect.
Context {kc km etm o i} (Hch : channel kc km etm o i).

Lemma out_etm_spec : out_etm o = k_etm km etm.
Proof using Hch.
  unfold out_etm. destruct Hch as [_ _ Hm _ <- _ _ _]. unfold mac_is in Hm. destruct km; [by rewrite Hm|]. by destruct Hm as (x&->&_).
Qed.

(** What is left of the channel when a packet has gone through. *)
Lemma channel_next e d mo mi :
  cipher_pair kc e d -> mac_is km mo -> mac_is km mi ->
  channel kc km etm (next_sequence (set_crypto o e mo)) (next_sequence (set_crypto i d mi)).
Proof using Hch. destruct Hch. intros. constructor; cbn; (done || congruence). Qed.

(** The standard protocol: the MAC of the packet, and the encrypted packet. *)
Lemma protect_std plain :
  k_etm km etm = false -> bytes_ok plain -> (k_unit kc | len plain) ->
  exists o' y d', protect o plain (len plain) = Some (o', y ++ tag km (sequence o) plain) /\ dec (cipher i) y = (d', plain)
    /\ len y = len plain /\ bytes_ok y /\ forall mi, mac_is km mi -> channel kc km etm o' (next_sequence (set_crypto i d' mi)).
Proof using Hch.
  intros He Hb Hd. destruct (enc_dec _ _ _ (ch_cipher _ _ _ _ _ Hch) plain Hd Hb) as (e'&d'&y&E1&E2&Hp'&Hl&Hy).
  destruct (mac_gen_spec km _ (ch_mac_out _ _ _ _ _ Hch) plain (sequence o) Hb) as (m'&Em&Hm').
  exists (next_sequence (set_crypto o e' m')), y, d'. split; [|eauto using channel_next].
  unfold protect. rewrite out_etm_spec, He.
  assert (match cipher o with Some c => if ca_separate_length (c_vt c)
            then let '(c, d) := in_place (fun x => ssh_cipher_encrypt_length c x (sequence o)) plain 0 4 in (Some c, d) else (Some c, plain)
          | None => (None, plain) end = (cipher o, plain)) as Ec.
  { assert (k_separate kc = false) as Hs by (destruct (k_separate kc) eqn:Es; [by rewrite (ch_separate _ _ _ _ _ Hch Es) in He|done]).
    pose proof (ch_cipher _ _ _ _ _ Hch) as Hp. unfold cipher_pair in Hp. destruct kc as [|alg L]; [by destruct Hp as [-> _]|].
    destruct Hp as (x&_&->&_&_). cbn in *. by rewrite Hs. }
  rewrite Ec. unfold mac_gen in Em. rewrite Em. cbn [mbind option_bind]. unfold enc in E1. destruct (cipher o) as [c|].
  - pose proof (in_place_mid (ssh_cipher_encrypt c) [] plain [] (len plain) eq_refl) as Hip. rewrite app_nil_r in Hip. change (len (@nil Z)) with 0 in Hip.
    cbn [app] in Hip. rewrite Hip. destruct (ssh_cipher_encrypt c plain) as [c' z]. injection E1 as <- <-. by rewrite app_nil_r.
  - by injection E1 as <- <-.
Qed.

(** Encrypt-then-MAC: the length may be encrypted on its own; the MAC is that of the encrypted packet. *)
Lemma protect_etm l body :
  k_etm km etm = true -> bytes_ok l -> bytes_ok body -> len l = 4 -> (k_unit kc | len body) ->
  exists o' l' y d1 d', protect o (l ++ body) (4 + len body) = Some (o', l' ++ y ++ tag km (sequence o) (l' ++ y))
    /\ dec_length (cipher i) l' (sequence o) = (d1, l) /\ dec d1 y = (d', body) /\ len l' = 4 /\ len y = len body /\ bytes_ok l' /\ bytes_ok y
    /\ forall mi, mac_is km mi -> channel kc km etm o' (next_sequence (set_crypto i d' mi)).
Proof using Hch.
  intros He Hbl Hbb Hl Hd. destruct (enc_dec_length _ _ _ (ch_cipher _ _ _ _ _ Hch) l (sequence o) Hl Hbl) as (e1&d1&l'&E1&E2&Hp1&Hl'&Hbl'&_).
  destruct (enc_dec _ _ _ Hp1 body Hd Hbb) as (e'&d'&y&E3&E4&Hp'&Hly&Hby).
  destruct (mac_gen_spec km _ (ch_mac_out _ _ _ _ _ Hch) (l' ++ y) (sequence o)) as (m'&Em&Hm'); [by apply Forall_app|].
  exists (next_sequence (set_crypto o e' m')), l', y, d1, d'. split; [|by eauto 10 using channel_next].
  unfold protect. rewrite out_etm_spec, He.
  assert (match cipher o with
          | Some c => if ca_separate_length (c_vt c) then let '(c, d) := in_place (fun x => ssh_cipher_encrypt_length c x (sequence o)) (l ++ body) 0 4 in (Some c, d)
                      else (Some c, l ++ body)
          | None => (None, l ++ body) end = (e1, l' ++ body)) as Ec.
  { unfold enc_length in E1. destruct (cipher o) as [c|]; [|by injection E1 as <- <-]. destruct (ca_separate_length (c_vt c)); [|by injection E1 as <- <-].
    pose proof (in_place_mid (fun x => ssh_cipher_encrypt_length c x (sequence o)) [] l body 4 Hl) as Hip. change (len (@nil Z)) with 0 in Hip.
    cbn [app] in Hip. rewrite Hip. destruct (ssh_cipher_encrypt_length c l (sequence o)) as [c' z]. by injection E1 as <- <-. }
  rewrite Ec. unfold mac_gen in Em.
  assert (match e1 with Some c => let '(c, d) := in_place (ssh_cipher_encrypt c) (l' ++ body) 4 (4 + len body - 4) in (Some c, d) | None => (None, l' ++ body) end
          = (e', l' ++ y)) as Ec2.
  { unfold enc in E3. destruct e1 as [c|]; [|by injection E3 as <- <-].
    pose proof (in_place_mid (ssh_cipher_encrypt c) l' body [] (4 + len body - 4)) as Hip. rewrite Hl', !app_nil_r in Hip. rewrite Hip by lia.
    destruct (ssh_cipher_encrypt c body) as [c' z]. injection E3 as <- <-. by rewrite app_nil_r. }
  rewrite Ec2. destruct (mac o) as [m|] eqn:Eo.
  - cbn [mbind option_bind]. destruct (ssh2_mac_generate m (l' ++ y) (sequence o)) as [[m2 t]|]; [|done]. cbn [mbind option_bind] in *.
    injection Em as <- <-. by rewrite <- app_assoc.
  - pose proof (ch_mac_out _ _ _ _ _ Hch) as Hmo. unfold mac_is in Hmo. destruct km; [done|]. destruct Hmo as (x&Hx&_). congruence.
Qed.
End Protect.
