(* ===== verification/Ssh2Open.v ===== *)
(** * The SSH-2 packet protocol: a packet that was protected is opened again

    In each of the three modes (MAC over the plaintext, encrypt-then-MAC, and CBC
    ciphers, where the MAC is tried after every block) the coroutine finds the end
    of the packet and has its plaintext in memory. *)

From S2P Require Import Prelude Marshal Conf SshCrypto Ssh2Bpp Ssh2Run Ssh2Channel.
Open Scope Z_scope.

(** ** Memory blocks by their contents *)

Lemma store_at b a x c n :
  blk_bytes b = a ++ c -> n = len a -> len a + len x <= blk_size b -> store b n x = Some (mkBlock (blk_size b) (a ++ x ++ drop (length x) c)).
Proof.
  intros E -> Hs. unfold store. rewrite E, len_app. pose proof (len_nonneg a). pose proof (len_nonneg c).
  rewrite !(proj2 (Z.leb_le _ _)) by lia. cbn [andb]. do 2 f_equal.
  rewrite Z2Nat.inj_add, !to_nat_len by apply len_nonneg. rewrite take_app_length, drop_app_add. done.
Qed.

Lemma fetch_at b a x c n m : blk_bytes b = a ++ x ++ c -> n = len a -> m = len x -> fetch b n m = Some x.
Proof.
  intros E -> ->. unfold fetch. rewrite E, !len_app. pose proof (len_nonneg a). pose proof (len_nonneg x). pose proof (len_nonneg c).
  rewrite !(proj2 (Z.leb_le _ _)) by lia. cbn [andb]. by rewrite !to_nat_len, drop_app_length, take_app_length.
Qed.

Lemma decrypt_at_mid c c' b a x y e n m :
  blk_bytes b = a ++ x ++ e -> n = len a -> m = len x -> len a + len x <= blk_size b -> dec c x = (c', y) -> len y = len x ->
  decrypt_at c b n m = Some (c', mkBlock (blk_size b) (a ++ y ++ e)).
Proof.
  intros E -> -> Hs Hd Hl. unfold decrypt_at, dec in *. destruct c as [c|].
  - rewrite (fetch_at b a x e) by done. cbn [mbind option_bind]. destruct (ssh_cipher_decrypt c x) as [c1 y1]. injection Hd as <- ->.
    rewrite (store_at b a y (x ++ e)) by (done || lia). cbn [mbind option_bind]. do 5 f_equal.
    assert (length y = length x) as -> by (unfold len in Hl; lia). by rewrite drop_app_length.
  - injection Hd as <- <-. rewrite <- E. by destruct b.
Qed.

(** ** The plaintext of a packet *)

Definition frame_body (payload random : list Z) : list Z := u8 (len random) :: payload ++ random.
Definition frame_len (payload random : list Z) : list Z := PUT_32BIT_MSB_FIRST (u32 (len (frame_body payload random))).

Lemma frame_len_4 payload random : len (frame_len payload random) = 4 /\ bytes_ok (frame_len payload random).
Proof. split; [done|]. apply put_32_ok. Qed.

Lemma read_frame_len payload random : len (frame_body payload random) < 2 ^ 31 -> read_length (frame_len payload random) = len (frame_body payload random).
Proof.
  intros Hl. unfold read_length, frame_len. pose proof (len_nonneg (frame_body payload random)) as Hn.
  rewrite PUT_32BIT_split, GET_32BIT_len by (apply wrap_range; lia). apply toint_u32. unfold int_ok, INT_MIN, INT_MAX. lia.
Qed.

(** ** Opening *)

(** [wire] opens to the length [l] and the rest [body] of a packet, and the cipher is then [d']. *)
Inductive opens (kc : cipher_kind) (km : mac_kind) (etm : bool) (i : ssh2_bpp_direction) (l body : list Z) : list Z -> option ssh_cipher -> Prop :=
| opens_std y d' :
    k_etm km etm = false -> (k_unit kc | len (l ++ body)) -> dec (cipher i) y = (d', l ++ body) -> len y = len (l ++ body) -> bytes_ok y ->
    opens kc km etm i l body (y ++ tag km (sequence i) (l ++ body)) d'
| opens_etm l' y d1 d' :
    k_etm km etm = true -> (k_unit kc | len body) -> dec_length (cipher i) l' (sequence i) = (d1, l) -> dec d1 y = (d', body) ->
    len l' = 4 -> len y = len body -> bytes_ok l' -> bytes_ok y ->
    opens kc km etm i l body (l' ++ y ++ tag km (sequence i) (l' ++ y)) d'.

(** The coroutine has the packet in memory and goes on with [finish_packet]. *)
Record at_packet (km : mac_kind) (s s1 : ssh2_bpp_state) (rest plain : list Z) (d' : option ssh_cipher) (i1 : input) (m' : option ssh2_mac) (junk : list Z) : Prop := {
  ap_state : s1 = mkBpp i1 (set_crypto (b_in s) d' m') (b_out s) (in_decomp s) (out_comp s) (b_flags s) (set_in_raw (b_queues s) rest)
                    (stats_in s) (stats_out s) (b_fate s) (b_random s);
  ap_mac : mac_is km m';
  ap_len : r_len i1 = len plain - 4;
  ap_packetlen : packetlen i1 = len plain;
  ap_data : blk_bytes (r_data i1) = plain ++ junk;
  ap_size : len plain <= blk_size (r_data i1) /\ maxlen i1 <= blk_size (r_data i1)
}.

(** The coroutine stops with a result that has the property [f]. *)
Definition gets (s : ssh2_bpp_state) (f : option ssh2_bpp_state -> Prop) : Prop := exists r, run s r /\ f r.

(** The same, from the end of a step. *)
Definition continues (r : option (ssh2_bpp_state * bool)) (f : option ssh2_bpp_state -> Prop) : Prop :=
  match r with Some (s, true) => gets s f | Some (s, false) => f (Some s) | None => f None end.

Lemma run_continues s f : continues (bpp_step s) f -> gets s f.
Proof.
  unfold continues, gets. destruct (bpp_step s) as [[s' [|]]|] eqn:E.
  - intros (r&Hr&Hf). exists r. split; [by apply (run_go _ s')|done].
  - intros Hf. exists (Some s'). split; [by apply run_stop|done].
  - intros Hf. exists None. split; [by apply run_fail|done].
Qed.

Lemma BPP_READ_ready s n x rest k : in_raw (b_queues s) = x ++ rest -> len x = n -> BPP_READ s n k = k (set_queues s (set_in_raw (b_queues s) rest)) x.
Proof.
  intros E <-. unfold BPP_READ. rewrite E, len_app, (proj2 (Z.leb_le _ _)) by (pose proof (len_nonneg rest); lia).
  by rewrite to_nat_len, drop_app_length, take_app_length.
Qed.

Lemma divide_le a b : 0 < b -> (a | b) -> a <= b.
Proof. intros Hb Hd. by apply Z.divide_pos_le. Qed.

Lemma split_at {A} n (l : list A) : 0 <= n <= len l -> exists a b, l = a ++ b /\ len a = n.
Proof. intros Hn. exists (take (Z.to_nat n) l), (drop (Z.to_nat n) l). split; [by rewrite take_drop|]. by apply len_take. Qed.

Lemma grow_size b n : n <= blk_size (grow b n).
Proof. unfold grow. case_match; bsimpl; [done|lia]. Qed.

Definition k_cbc (kc : cipher_kind) (km : mac_kind) (etm : bool) : bool :=
  match kc, km with TheCipher alg _, TheMac _ _ _ => ca_is_cbc alg && negb etm | _, _ => false end.

(** The state seen through its setters. *)
Ltac st := cbn [set_queues set_input set_in set_data set_crypto set_in_raw set_cr b_input b_in b_out in_decomp out_comp b_flags b_queues stats_in
  stats_out b_fate b_random in_raw cipher mac sequence etm_mode pending_compression crState r_len packetlen maclen maxlen cipherblk buf r_data
  blk_size blk_bytes mbind option_bind].

(** What the lemmas about blocks leave to show. *)
Ltac block_side := st; change (len (@nil Z)) with 0 in *; rewrite ?len_app in *; first [done | lia | by rewrite <- ?app_assoc].
Tactic Notation "by_block" uconstr(L) := rewrite L; [st|block_side..].

Lemma wire_step (w z1 z' yb tg : list Z) u :
  w ++ z1 ++ z' = yb ++ tg -> len z1 = u -> 0 <= u <= len yb ->
  exists y1 yb' w', yb = y1 ++ yb' /\ len y1 = u /\ w ++ z1 = y1 ++ w' /\ w' ++ z' = yb' ++ tg /\ len w' = len w.
Proof.
  intros E Hz Hu. destruct (split_at u yb Hu) as (y1&yb'&->&Hy1).
  destruct (split_at u (w ++ z1)) as (a&w'&Ea&Hla); [rewrite len_app; pose proof (len_nonneg w); lia|].
  rewrite app_assoc, Ea, <- !app_assoc in E. apply app_inj_1 in E as [-> E]; [|unfold len in *; lia].
  exists y1, yb', w'. split_and!; try done. apply (f_equal len) in Ea. rewrite !len_app in Ea. lia.
Qed.

Section Open.
Context {kc km etm o} (s : ssh2_bpp_state) (Hch : channel kc km etm o (b_in s)).
Context (l body rest : list Z) (Hl : len l = 4) (Hlb : bytes_ok l) (Hbb : bytes_ok body) (Hread : read_length l = len body).
Context (Hcr : crState (b_input s) = CrStart) (Hsmall : 4 + len body <= OUR_V2_PACKETLIMIT).

Lemma in_etm_spec : in_etm s = k_etm km etm.
Proof using Hch.
  unfold in_etm. destruct Hch as [_ _ _ Hm _ <- _ _]. unfold mac_is in Hm. destruct km; [by rewrite Hm|]. by destruct Hm as (x&->&_).
Qed.

Lemma in_cbc_spec : in_cbc s = k_cbc kc km etm.
Proof using Hch.
  unfold in_cbc. destruct Hch as [_ Hc _ Hm _ <- _ _]. unfold mac_is, cipher_pair, k_cbc in *. destruct kc, km.
  - by destruct Hc as [_ ->].
  - by destruct Hc as [_ ->].
  - destruct Hc as (?&?&_&->&_). by rewrite Hm.
  - destruct Hc as (?&?&_&->&_). by destruct Hm as (?&->&_).
Qed.

(** The first step: which mode it is, and how much is read at a time. *)
Lemma open_start f :
  let i := b_input s in
  (let '(p, size) := if k_cbc kc km etm then (CrCbcMac, OUR_V2_PACKETLIMIT + k_maclen km) else if k_etm km etm then (CrEtmLen, 4) else (CrStdFirst, k_unit kc) in
   gets (set_input s (mkInput p (r_len i) (packetlen i) (k_maclen km) 0 (k_unit kc) (grow (buf i) size) (r_data i))) f) ->
  gets s f.
Proof using Hch Hcr.
  intros i Hr. apply run_continues. unfold bpp_step. rewrite Hcr. cbn [continues]. unfold start_packet. rewrite in_etm_spec, in_cbc_spec.
  rewrite (mac_is_len km) by apply (ch_mac_in _ _ _ _ _ Hch).
  destruct (pair_unit kc _ _ (ch_cipher _ _ _ _ _ Hch) 8) as [_ ->]; [done|]. revert Hr. by repeat case_match.
Qed.

Lemma check_mac_spec t data blk junk :
  blk_bytes data = blk ++ tag km (sequence (b_in t)) blk ++ junk -> mac_is km (mac (b_in t)) -> bytes_ok blk ->
  r_len (b_input t) = len blk - 4 -> maclen (b_input t) = k_maclen km ->
  exists m', check_mac t data = Some (set_in t (set_crypto (b_in t) (cipher (b_in t)) m') (in_decomp t), true) /\ mac_is km m'.
Proof using Type.
  intros E Hm Hb Hr Hml. destruct (tag_ok km (sequence (b_in t)) blk) as [Ht Htl].
  destruct (mac_check_spec km (mac (b_in t)) Hm blk (tag km (sequence (b_in t)) blk) (sequence (b_in t)) Hb Ht Htl) as (m'&Em&Hm').
  exists m'. split; [|done]. unfold check_mac, mac_check in *. rewrite bool_decide_eq_true_2 in Em by done. destruct (mac (b_in t)) as [m|] eqn:Eo.
  - rewrite (fetch_at data [] blk (tag km (sequence (b_in t)) blk ++ junk) 0) by (done || lia). st.
    rewrite (fetch_at data blk (tag km (sequence (b_in t)) blk) junk) by (done || lia). st.
    destruct (ssh2_mac_verify m blk _ _) as [[m2 ok]|]; [|done]. cbn [mbind option_bind] in *. by injection Em as <- ->.
  - injection Em as <-. destruct t as [? [sq c mm e p] ? ? ? ? ? ? ? ? ?]. cbn in *. by subst mm.
Qed.

Lemma open_std y d' f :
  k_cbc kc km etm = false -> k_etm km etm = false -> (k_unit kc | len (l ++ body)) -> dec (cipher (b_in s)) y = (d', l ++ body) ->
  len y = len (l ++ body) -> bytes_ok y -> in_raw (b_queues s) = (y ++ tag km (sequence (b_in s)) (l ++ body)) ++ rest ->
  (forall s1 i1 m' junk, at_packet km s s1 rest (l ++ body) d' i1 m' junk -> continues (finish_packet s1) f) -> gets s f.
Proof using Hch Hl Hlb Hbb Hread Hcr Hsmall.
  intros Hc He Hu Hd Hly Hby Hin Hf. pose proof (k_unit_bounds kc) as Hu8. pose proof (k_maclen_bounds km) as Hml. rewrite len_app, Hl in Hly.
  assert (k_unit kc <= len y) as Huy by (apply divide_le; [pose proof (len_nonneg body); lia|rewrite Hly, <- Hl, <- len_app; done]).
  destruct (split_at (k_unit kc) y) as (y1&y2&Ey&Hl1); [lia|].
  assert (k_unit kc | len y2) as Hu2.
  { replace (len y2) with (len (l ++ body) - k_unit kc) by (rewrite len_app, Hl, <- Hly, Ey, len_app; lia). apply Z.divide_sub_r; [done|]. apply Z.divide_refl. }
  destruct (dec_split kc (cipher (b_in s)) y1 y2 d' (l ++ body)) as (d1&p1&p2&D1&D2&Ep&Hp1&_); [by eapply pair_opener, (ch_cipher _ _ _ _ _ Hch)|..].
  1, 2: rewrite Ey in Hby; by apply Forall_app in Hby as [??].
  { rewrite Hl1. apply Z.divide_refl. } { done. } { by rewrite <- Ey. }
  set (tg := tag km (sequence (b_in s)) (l ++ body)) in *.
  pose proof (tag_ok km (sequence (b_in s)) (l ++ body)) as [_ Htl]. fold tg in Htl.
  pose proof (grow_size (buf (b_input s)) (k_unit kc)) as Hgr.
  assert (len p2 = len y2) as Hp2 by (apply (f_equal len) in Ep; rewrite !len_app in Ep; rewrite Ey, len_app in Hly; lia).
  destruct (split_at 4 p1) as (l1&p1'&E1&Hl4); [lia|].
  assert (l1 = l) as ->.
  { assert (length l1 = length l) as Hle by (unfold len in *; lia). rewrite E1, <- app_assoc in Ep. symmetry in Ep. by apply app_inj_1 in Ep as [-> _]. }
  assert (len y2 = 4 + len body - k_unit kc) as Hly2 by (rewrite Ey, len_app in Hly; lia).
  apply open_start. rewrite Hc, He.
  revert Hgr. generalize (grow (buf (b_input s)) (k_unit kc)). intros b0 Hgr.
  apply run_continues. unfold bpp_step. st. unfold step_std_first.
  rewrite (BPP_READ_ready _ _ y1 (y2 ++ tg ++ rest)); [|st; rewrite Hin, Ey, <- !app_assoc; done|done]. st.
  by_block (store_at b0 [] y1 (blk_bytes b0) 0).
  by_block (decrypt_at_mid _ d1 _ [] y1 p1 (drop (length y1) (blk_bytes b0)) 0).
  rewrite E1 in *. by_block (fetch_at _ [] l (p1' ++ drop (length y1) (blk_bytes b0)) 0 4).
  rewrite Hread, (proj2 (Z.ltb_ge (len body) 0)), (proj2 (Z.ltb_ge OUR_V2_PACKETLIMIT _)) by lia.
  assert (Z.rem (len body + 4) (k_unit kc) = 0) as -> by (rewrite Z.rem_mod_nonneg by lia; apply Z.mod_divide; [lia|]; by rewrite Z.add_comm, <- Hl, <- len_app).
  cbn [orb negb Z.eqb].
  by_block (fetch_at _ [] (l ++ p1') (drop (length y1) (blk_bytes b0)) 0 (k_unit kc)).
  by_block (store_at (mkBlock (len body + 4 + k_maclen km) []) [] (l ++ p1') [] 0).
  cbn [continues]. apply run_continues. unfold bpp_step. st. unfold step_std_rest.
  rewrite (BPP_READ_ready _ _ (y2 ++ tg) rest); [st|st; by rewrite <- app_assoc|st; rewrite !len_app in *; lia].
  rewrite drop_nil. by_block (store_at _ (l ++ p1') (y2 ++ tg) [] (k_unit kc)).
  rewrite drop_nil, !app_nil_r. by_block (decrypt_at_mid _ d' _ (l ++ p1') y2 p2 tg (k_unit kc)).
  assert ((l ++ p1') ++ p2 ++ tg = (l ++ body) ++ tg) as -> by (by rewrite Ep, <- !app_assoc).
  match goal with |- context [check_mac ?T ?D] => destruct (check_mac_spec T D (l ++ body) []) as (m'&Em&Hm') end; st.
  { by rewrite app_nil_r. } { apply (ch_mac_in _ _ _ _ _ Hch). } { by apply Forall_app. } { rewrite len_app. lia. } { done. }
  rewrite Em. st. cbn [negb]. eapply (Hf _ _ m' tg).
  constructor; [reflexivity|st..]; [done|rewrite len_app; lia|rewrite len_app; lia|done|rewrite len_app; lia].
Qed.

Lemma open_etm l' y d1 d' f :
  k_cbc kc km etm = false -> k_etm km etm = true -> (k_unit kc | len body) -> dec_length (cipher (b_in s)) l' (sequence (b_in s)) = (d1, l) ->
  dec d1 y = (d', body) -> len l' = 4 -> len y = len body -> bytes_ok l' -> bytes_ok y ->
  in_raw (b_queues s) = (l' ++ y ++ tag km (sequence (b_in s)) (l' ++ y)) ++ rest ->
  (forall s1 i1 m' junk, at_packet km s s1 rest (l' ++ body) d' i1 m' junk -> continues (finish_packet s1) f) -> gets s f.
Proof using Hch Hread Hcr Hsmall.
  intros Hc He Hu HD1 HD2 Hl' Hly Hbl' Hby Hin Hf. pose proof (k_unit_bounds kc) as Hu8. pose proof (k_maclen_bounds km) as Hml.
  pose proof (tag_ok km (sequence (b_in s)) (l' ++ y)) as [_ Htl]. set (tg := tag km (sequence (b_in s)) (l' ++ y)) in *. pose proof (len_nonneg body) as Hb0.
  apply open_start. rewrite Hc, He. pose proof (grow_size (buf (b_input s)) 4) as Hgr. revert Hgr. generalize (grow (buf (b_input s)) 4). intros b0 Hgr.
  apply run_continues. unfold bpp_step. st. unfold step_etm_len.
  rewrite (BPP_READ_ready _ _ l' (y ++ tg ++ rest)); [|st; rewrite Hin, <- !app_assoc; done|done]. st.
  by_block (store_at b0 [] l' (blk_bytes b0) 0). fold (dec_length (cipher (b_in s)) l' (sequence (b_in s))). rewrite HD1. st.
  rewrite Hread, (proj2 (Z.ltb_ge (len body) 0)), (proj2 (Z.ltb_ge OUR_V2_PACKETLIMIT _)) by lia.
  assert (Z.rem (len body) (k_unit kc) = 0) as -> by (rewrite Z.rem_mod_nonneg by lia; by apply Z.mod_divide; [lia|]).
  cbn [orb negb Z.eqb]. by_block (store_at (mkBlock (OUR_V2_PACKETLIMIT + k_maclen km) []) [] l' [] 0).
  cbn [continues]. apply run_continues. unfold bpp_step. st. unfold step_etm_rest.
  rewrite (BPP_READ_ready _ _ (y ++ tg) rest); [st|st; by rewrite <- app_assoc|st; rewrite !len_app in *; lia].
  rewrite drop_nil. by_block (store_at _ l' (y ++ tg) [] 4). rewrite drop_nil, !app_nil_r.
  match goal with |- context [check_mac ?T ?D] => destruct (check_mac_spec T D (l' ++ y) []) as (m'&Em&Hm') end; st.
  { by rewrite app_nil_r, <- app_assoc. } { apply (ch_mac_in _ _ _ _ _ Hch). } { by apply Forall_app. } { rewrite len_app. lia. } { done. }
  rewrite Em. st. cbn [negb]. by_block (decrypt_at_mid _ d' _ l' y body tg 4). eapply (Hf _ _ m' tg).
  constructor; [reflexivity|st..]; [done|rewrite len_app; lia|rewrite len_app; lia|by rewrite <- app_assoc|rewrite len_app; lia].
Qed.

(** In the CBC loop: [pa] is what has been decrypted, [w] as many bytes as the MAC has, after it in the buffer, and [z] the rest of the wire. *)
Definition cbc_state (malg : ssh2_macalg) (c : option ssh_cipher) (mx : ma_ctx malg) (rl mxl plen : Z) (b dat : block) (z : list Z) : ssh2_bpp_state :=
  mkBpp (mkInput CrCbcBlock rl plen (ma_len malg) mxl (k_unit kc) b dat) (set_crypto (b_in s) c (Some (mkMac malg mx))) (b_out s) (in_decomp s)
    (out_comp s) (b_flags s) (set_in_raw (b_queues s) (z ++ rest)) (stats_in s) (stats_out s) (b_fate s) (b_random s).

Section Cbc.
Context (malg : ssh2_macalg) (L : MacLaws malg) (key : list Z) (Hkm : km = TheMac malg L key) (d' : option ssh_cipher) (f : option ssh2_bpp_state -> Prop).
Let tg := tag km (sequence (b_in s)) (l ++ body).
Context (Hf : forall s1 i1 m' junk, at_packet km s s1 rest (l ++ body) d' i1 m' junk -> continues (finish_packet s1) f).

(** What is at hand before a block is read. *)
Record cbc_ready (n : nat) c mx b pa pb yb w z junk : Prop := {
  cb_buf : blk_bytes b = pa ++ w ++ junk;
  cb_size : OUR_V2_PACKETLIMIT + ma_len malg <= blk_size b;
  cb_fed : ml_fed mx key (mac_input (sequence (b_in s)) pa);
  cb_opener : opener kc c;
  cb_dec : dec c yb = (d', pb);
  cb_yb : len yb = k_unit kc * Z.of_nat n;
  cb_pb : len pb = len yb;
  cb_wire : w ++ z = yb ++ tg;
  cb_w : len w = ma_len malg;
  cb_ok : bytes_ok yb;
  cb_plain : l ++ body = pa ++ pb
}.

(** The state of the memory after it. *)
Lemma cbc_advance n c mx b pa pb yb w z junk :
  cbc_ready (S n) c mx b pa pb yb w z junk ->
  exists z1 z' w' y1 d1 p1 b1 b2 junk', z = z1 ++ z' /\ len z1 = k_unit kc /\ len p1 = k_unit kc /\
    store b (len pa + ma_len malg) z1 = Some b1 /\ decrypt_at c b1 (len pa) (k_unit kc) = Some (d1, b2) /\ bytes_ok p1 /\ bytes_ok w' /\
    fetch b2 (len pa) (k_unit kc) = Some p1 /\
    forall mx', ml_fed mx' key (mac_input (sequence (b_in s)) (pa ++ p1)) ->
      exists pb' yb', cbc_ready n d1 mx' b2 (pa ++ p1) pb' yb' w' z' junk' /\ yb = y1 ++ yb'.
Proof using Hl Hlb Hbb Hsmall Hkm.
  intros [Eb Hsz Hfed Ho HD Hly Hlp Ew Hlw Hby Epl]. pose proof (k_unit_bounds kc) as Hu8. pose proof (ml_len (alg := malg)) as Hml.
  destruct (tag_ok km (sequence (b_in s)) (l ++ body)) as [Htb Htl]. fold tg in Htb, Htl. assert (k_maclen km = ma_len malg) as Ekm by (by rewrite Hkm). rewrite Ekm in Htl.
  assert (len z = len yb) as Hlz by (apply (f_equal len) in Ew; rewrite !len_app in Ew; lia).
  destruct (split_at (k_unit kc) z) as (z1&z'&->&Hz1); [nia|].
  destruct (wire_step w z1 z' yb tg (k_unit kc)) as (y1&yb'&w'&->&Hy1&Ewz&Ew'&Hlw'); [done|done|nia|].
  rewrite len_app in Hly, Hlp. destruct (dec_split kc c y1 yb' d' pb) as (d1&p1&p2&D1&D2&->&Hp1&Ho1); [done|by apply Forall_app in Hby as [??]..| | |done|].
  { rewrite Hy1. apply Z.divide_refl. } { exists (Z.of_nat n). lia. } rewrite len_app in Hlp.
  assert (bytes_ok w') as Hbw by (eapply (Forall_app _ w' z'); rewrite Ew'; apply Forall_app; split; [by apply Forall_app in Hby as [_ ?]|done]).
  assert (bytes_ok p1) as Hbp by (assert (bytes_ok (pa ++ p1 ++ p2)) as Hb by (rewrite <- Epl; by apply Forall_app); by rewrite !Forall_app in Hb; destruct Hb as (_&?&_)).
  assert (len pa + len p1 + len p2 = 4 + len body) as Hlen by (apply (f_equal len) in Epl; rewrite !len_app in Epl; lia).
  pose proof (len_nonneg p2) as Hp2.
  exists z1, z', w', y1, d1, p1, (mkBlock (blk_size b) (pa ++ w ++ z1 ++ drop (length z1) junk)), (mkBlock (blk_size b) (pa ++ p1 ++ w' ++ drop (length z1) junk)), (drop (length z1) junk).
  split_and!; try done; [lia|..].
  - rewrite (store_at b (pa ++ w) z1 junk); [|by rewrite Eb, <- app_assoc|rewrite len_app; lia|rewrite len_app; lia]. by rewrite <- app_assoc.
  - apply (decrypt_at_mid c d1 (mkBlock (blk_size b) (pa ++ w ++ z1 ++ drop (length z1) junk)) pa y1 p1 (w' ++ drop (length z1) junk)); cbn [blk_bytes blk_size]; try done; [|lia].
    by rewrite (app_assoc w), Ewz, <- app_assoc.
  - apply (fetch_at _ pa p1 (w' ++ drop (length z1) junk)); [done|done|lia].
  - intros mx' Hfed'. exists p2, yb'. split; [|done]. constructor; cbn [blk_bytes blk_size]; try done; [by rewrite <- app_assoc|lia|lia|lia| |by rewrite <- app_assoc].
    by apply Forall_app in Hby as [_ ?].
Qed.

(** One block: the packet is complete, or the loop goes on. *)
Lemma cbc_step n c mx rl mxl b dat pa pb yb w z junk :
  cbc_ready (S n) c mx b pa pb yb w z junk ->
  (forall c mx rl b pa pb yb w z junk, n <> O -> cbc_ready n c mx b pa pb yb w z junk -> gets (cbc_state malg c mx rl mxl (len pa) b dat z) f) ->
  gets (cbc_state malg c mx rl mxl (len pa) b dat z) f.
Proof using Hl Hlb Hbb Hread Hsmall Hkm Hf.
  intros Hr IH. pose proof (k_unit_bounds kc) as Hu8. pose proof (cb_fed _ _ _ _ _ _ _ _ _ _ Hr) as Hfed.
  destruct (cbc_advance n c mx b pa pb yb w z junk Hr) as (z1&z'&w'&y1&d1&p1&b1&b2&junk'&->&Hz1&Hp1&S1&D1&Hbp&Hbw&F1&Hnext).
  assert (exists mx1, ma_write malg mx p1 = Some mx1 /\ ml_fed mx1 key (mac_input (sequence (b_in s)) (pa ++ p1))) as (mx1&Ewr&Hfed1).
  { unfold mac_input in *. rewrite app_assoc. by apply ml_write. }
  destruct (Hnext _ Hfed1) as (pb'&yb'&Hr1&Eyb). destruct (mac_verresult_spec malg key _ _ w' Hfed1 Hbw (cb_w _ _ _ _ _ _ _ _ _ _ Hr1)) as (x'&Ev&Hfed2).
  destruct (Hnext _ Hfed2) as (pb2&yb2&Hr2&_). clear Hnext.
  destruct Hr1 as [Eb1 Hsz1 _ Ho1 HD1 Hly1 Hlp1 Ew1 Hlw1 Hby1 Epl1].
  assert (len (pa ++ p1) + len pb' = 4 + len body) as Hlen by (apply (f_equal len) in Epl1; rewrite len_app, len_app in Epl1; lia).
  apply run_continues. unfold cbc_state, bpp_step. st. unfold step_cbc_block.
  rewrite (BPP_READ_ready _ _ z1 (z' ++ rest)); [|st; by rewrite <- app_assoc|done]. st. rewrite S1. st. rewrite D1. st. rewrite F1. st.
  unfold put_data. cbn [bs_write mac_sink m_vt m_ctx]. rewrite Ewr. st. rewrite (fetch_at b2 (pa ++ p1) w' junk' (len pa + k_unit kc)) by first [done|rewrite len_app; lia|lia]. st. rewrite Ev. st.
  destruct (split_at 4 (pa ++ p1)) as (l1&q&Eq&Hl1); [rewrite len_app; pose proof (len_nonneg pa); lia|].
  assert (l1 = l) as -> by (rewrite Eq, <- app_assoc in Epl1; symmetry in Epl1; apply app_inj_1 in Epl1 as [-> _]; [done|unfold len in *; lia]).
  rewrite (fetch_at b2 [] l (q ++ w' ++ junk') 0 4); [st|by rewrite Eb1, Eq, <- app_assoc|done|done]. rewrite Hread. rewrite len_app in Hlen.
  destruct n as [|n].
  - assert (pb' = []) as -> by (apply len_nil_inv; lia). assert (yb' = []) as -> by (apply len_nil_inv; lia). rewrite app_nil_r in Epl1.
    destruct (tag_ok km (sequence (b_in s)) (l ++ body)) as [_ Htl]. fold tg in Htl. assert (k_maclen km = ma_len malg) as Ekm by (by rewrite Hkm).
    assert (z' = []) as -> by (apply len_nil_inv; apply (f_equal len) in Ew1; rewrite !len_app in Ew1; change (len (@nil Z)) with 0 in Ew1; lia).
    rewrite app_nil_r in Ew1. cbn [app] in Ew1. subst w'. rewrite bool_decide_eq_true_2 by (unfold tg; rewrite Epl1; by rewrite Hkm).
    change (len (@nil Z)) with 0 in Hlen. rewrite (proj2 (Z.eqb_eq (len body) _)) by lia. cbn [andb].
    rewrite (fetch_at b2 [] (pa ++ p1 ++ tg) junk' 0); [st|by rewrite Eb1, <- !app_assoc|done|rewrite !len_app; lia].
    by_block (store_at (mkBlock (len pa + k_unit kc + ma_len malg) []) [] (pa ++ p1 ++ tg) [] 0).
    assert (d1 = d') as -> by (rewrite (dec_nil kc d1 Ho1) in HD1; by injection HD1).
    eapply (Hf _ _ (Some (mkMac malg x')) tg). constructor; [reflexivity|st..].
    + rewrite Hkm. cbn. exists x'. split; [done|]. by eapply ml_fed_keyed.
    + rewrite Epl1, len_app. lia.
    + rewrite Epl1, len_app. lia.
    + rewrite drop_nil, app_nil_r. by rewrite Epl1, <- !app_assoc.
    + rewrite Epl1, len_app. pose proof (ml_len (alg := malg)). lia.
  - assert (len pb' > 0) as Hpb by nia.
    rewrite (proj2 (Z.leb_gt OUR_V2_PACKETLIMIT (len pa + k_unit kc))) by lia.
    assert (bool_decide (ml_tag key (mac_input (sequence (b_in s)) (pa ++ p1)) = w')
      && ((if bool_decide (ml_tag key (mac_input (sequence (b_in s)) (pa ++ p1)) = w') then len body else rl) =? len pa + k_unit kc - 4) = false) as ->.
    { case_bool_decide; [|done]. cbn. apply Z.eqb_neq. lia. }
    cbn [continues]. replace (len pa + k_unit kc) with (len (pa ++ p1)) by (rewrite len_app; lia).
    eapply IH; [done|exact Hr2].
Qed.

Lemma cbc_loop n c mx rl mxl b dat pa pb yb w z junk :
  cbc_ready (S n) c mx b pa pb yb w z junk -> gets (cbc_state malg c mx rl mxl (len pa) b dat z) f.
Proof using Hl Hlb Hbb Hread Hsmall Hkm Hf.
  revert c mx rl b pa pb yb w z junk. induction n as [|n IH]; intros c mx rl b pa pb yb w z junk Hr; eapply cbc_step; try exact Hr; [done|].
  intros. by eapply IH.
Qed.
End Cbc.

Lemma open_cbc y d' f :
  k_cbc kc km etm = true -> (k_unit kc | len (l ++ body)) -> dec (cipher (b_in s)) y = (d', l ++ body) -> len y = len (l ++ body) -> bytes_ok y ->
  in_raw (b_queues s) = (y ++ tag km (sequence (b_in s)) (l ++ body)) ++ rest ->
  (forall s1 i1 m' junk, at_packet km s s1 rest (l ++ body) d' i1 m' junk -> continues (finish_packet s1) f) -> gets s f.
Proof using Hch Hl Hlb Hbb Hread Hcr Hsmall.
  intros Hc Hu Hd Hly Hby Hin Hf. pose proof (k_unit_bounds kc) as Hu8.
  assert (exists malg L key, km = TheMac malg L key) as (malg&L&key&Hkm) by (unfold k_cbc in Hc; destruct kc, km; try done; eauto).
  pose proof (ml_len (alg := malg)) as Hml. pose proof (ch_mac_in _ _ _ _ _ Hch) as Hm. unfold mac_is in Hm. rewrite Hkm in Hm. destruct Hm as (x&Em&Hk).
  destruct (tag_ok km (sequence (b_in s)) (l ++ body)) as [_ Htl]. set (tg := tag _ _ _) in *. assert (k_maclen km = ma_len malg) as Ekm by (by rewrite Hkm).
  apply open_start. rewrite Hc, Ekm. pose proof (grow_size (buf (b_input s)) (OUR_V2_PACKETLIMIT + ma_len malg)) as Hgr.
  revert Hgr. generalize (grow (buf (b_input s)) (OUR_V2_PACKETLIMIT + ma_len malg)). intros b0 Hgr.
  destruct (split_at (ma_len malg) (y ++ tg)) as (w&z&Ew&Hlw); [rewrite len_app; pose proof (len_nonneg y); lia|].
  apply run_continues. unfold bpp_step. st. unfold step_cbc_mac.
  rewrite (BPP_READ_ready _ _ w (z ++ rest)); [|st; by rewrite Hin, Ew, <- app_assoc|done]. st.
  rewrite (store_at b0 [] w (blk_bytes b0) 0); [st|done|done|change (len (@nil Z)) with 0; unfold OUR_V2_PACKETLIMIT in *; lia].
  destruct (ml_write _ key [] _ (ml_start _ _ Hk) (proj1 (put_32_ok (u32 (sequence (b_in s)))))) as (x1&Ewr&Hfed).
  rewrite Em. st. unfold put_uint32, ssh2_mac_start. cbn [bs_write mac_sink m_vt m_ctx]. rewrite Ewr. st. cbn [continues].
  destruct Hu as [n Hn]. assert (0 < n) as Hn0 by (rewrite len_app in Hn; pose proof (len_nonneg body); nia).
  eapply (cbc_loop malg L key Hkm d' f Hf (Z.to_nat (n - 1)) (cipher (b_in s)) _ (r_len (b_input s)) 0 (mkBlock (blk_size b0) (w ++ drop (length w) (blk_bytes b0)))
    (r_data (b_input s)) [] (l ++ body) y w z (drop (length w) (blk_bytes b0))).
  constructor; st; try done.
  - by eapply pair_opener, (ch_cipher _ _ _ _ _ Hch).
  - rewrite Hly, Hn, Nat2Z.inj_succ, Z2Nat.id by lia. ring.
Qed.

(** All modes. *)
Lemma open_packet wire d' f :
  opens kc km etm (b_in s) l body wire d' -> in_raw (b_queues s) = wire ++ rest ->
  (forall s1 i1 m' junk l0, len l0 = 4 -> at_packet km s s1 rest (l0 ++ body) d' i1 m' junk -> continues (finish_packet s1) f) -> gets s f.
Proof using Hch Hl Hlb Hbb Hread Hcr Hsmall.
  intros Ho Hin Hf. destruct Ho as [y d' He Hu Hd Hly Hby|l' y d1 d' He Hu H1 H2 Hl' Hly Hbl Hby].
  - destruct (k_cbc kc km etm) eqn:Ec; [apply (open_cbc y d')|apply (open_std y d')]; try done; intros; by eapply Hf.
  - apply (open_etm l' y d1 d'); try done; [|intros; by eapply Hf]. unfold k_cbc. destruct kc, km; try done. cbn in He. rewrite He. apply andb_false_r.
Qed.

(** The same, with the states named. *)
Lemma open_packet_ex wire d' :
  opens kc km etm (b_in s) l body wire d' -> in_raw (b_queues s) = wire ++ rest ->
  exists r s1 i1 m' junk l0, run s r /\ len l0 = 4 /\ at_packet km s s1 rest (l0 ++ body) d' i1 m' junk /\ continues (finish_packet s1) (eq r).
Proof using Hch Hl Hlb Hbb Hread Hcr Hsmall.
  intros Ho Hin.
  destruct (open_packet wire d' (fun r => exists s1 i1 m' junk l0, len l0 = 4 /\ at_packet km s s1 rest (l0 ++ body) d' i1 m' junk /\ continues (finish_packet s1) (eq r)))
    as (r&Hrun&s1&i1&m'&junk&l0&H); try done; [|by exists r, s1, i1, m', junk, l0].
  intros s1 i1 m' junk l0 Hl0 Hat. unfold continues. destruct (finish_packet s1) as [[s2 [|]]|] eqn:E; [|by exists s1, i1, m', junk, l0; rewrite E..].
  pose proof (finish_packet_moves _ _ E) as (_&_&_&Hok). pose proof (input_loop_run (input_fuel s2) s2 Hok (input_fuel_enough s2)) as Hrun.
  exists (input_loop (input_fuel s2) s2). split; [done|]. exists s1, i1, m', junk, l0. rewrite E. split_and!; try done. by exists (input_loop (input_fuel s2) s2).
Qed.
End Open.
