(* ===== verification/Ssh2Link.v ===== *)
(** * The SSH-2 packet protocol from one end to the other

    What [ssh2_bpp_handle_output] of one end writes, [ssh2_bpp_handle_input] of the other end
    turns into the same packets, through compression, padding, encryption and the MAC. *)

From S2P Require Import Prelude Marshal SshCrypto Ssh2Bpp Ssh2Run Ssh2Channel Ssh2Open.
Open Scope Z_scope.
#[local] Opaque valid_bitmap.

(** ** Compression *)

Inductive comp_kind := NoComp | TheComp (alg : ssh_compression_alg) (L : CompressionLaws alg).

Definition comp_pair (k : comp_kind) (c : option ssh_compressor) (d : option ssh_decompressor) : Prop :=
  match k with
  | NoComp => c = None /\ d = None
  | TheComp alg _ => exists x y, c = Some (mkCompressor alg x) /\ d = Some (mkDecompressor alg y) /\ zl_sync x y
  end.

(** The longest the payload of [n] bytes can become. *)
Definition room (n minlen : Z) : Z := Z.max (2 * n + 6) (Z.max minlen 0 + 1).

Definition compress (c : option ssh_compressor) (data : list Z) (minlen : Z) : option (option ssh_compressor * list Z) :=
  match c with None => Some (None, data) | Some z => '(z, x) ← ssh_compressor_compress z data minlen; Some (Some z, x) end.
Definition decompress (d : option ssh_decompressor) (data : list Z) : option (option ssh_decompressor * option (list Z)) :=
  match d with None => Some (None, Some data) | Some z => '(z, x) ← ssh_decompressor_decompress z data; Some (Some z, x) end.

Lemma compress_pair k c d data minlen : comp_pair k c d -> bytes_ok data -> (if k then True else 0 <= minlen <= INT_MAX) ->
  exists c' x d', compress c data minlen = Some (c', x) /\ decompress d x = Some (d', Some data) /\ comp_pair k c' d' /\ bytes_ok x /\ len x <= room (len data) minlen
    /\ (k = NoComp -> x = data).
Proof.
  intros Hp Hb Hm. pose proof (len_nonneg data). unfold comp_pair in *. destruct k as [|alg L].
  - destruct Hp as [-> ->]. exists None, data, None. unfold room. split_and!; try done. lia.
  - destruct Hp as (a&b&->&->&Hs). destruct (zl_packet a b data minlen Hs Hb Hm) as (a'&x&b'&E1&E2&Hs'&Hx&Hlx).
    exists (Some (mkCompressor alg a')), x, (Some (mkDecompressor alg b')).
    unfold compress, decompress, ssh_compressor_compress, ssh_decompressor_decompress. cbn [zc_vt zc_ctx zd_vt zd_ctx]. rewrite E1, E2.
    split_and!; try done; [eauto|unfold room; lia].
Qed.

(** ** The sender *)

(** No length is asked for, or one longer than any MAC and the eight bytes [compress_payload]
    takes off it. *)
Definition minlen_ok (n : Z) : Prop := n = 0 \/ 72 <= n.

(** A packet as the protocol layers make it: its type, then its fields, not too long. *)
Definition pkt_ok (p : PktOut) : Prop :=
  exists five data, po_data p = five ++ po_type p :: data /\ len five = 5 /\ bytes_ok (po_type p :: data) /\ minlen_ok (po_minlen p) /\ room (len (po_type p :: data)) (po_minlen p) + 90 <= OUR_V2_PACKETLIMIT.

Section Sender.
Variable random_read : nat -> Z -> list Z.
Context (Hrandom : forall n k, 0 <= k -> len (random_read n k) = k /\ bytes_ok (random_read n k)).

Lemma padding_ok u n : 8 <= u <= 64 -> 0 <= n ->
  let padding := 4 + (u - (n + 4) mod u) mod u in 4 <= padding <= 67 /\ (u | n + padding).
Proof.
  intros Hu Hn padding. pose proof (Z.mod_pos_bound (u - (n + 4) mod u) u). split; [unfold padding; lia|].
  pose proof (Z.div_mod (n + 4) u) as Hdm. pose proof (Z.mod_pos_bound (n + 4) u) as Hr. set (q := (n + 4) / u) in *. set (r := (n + 4) mod u) in *.
  destruct (Z.eq_dec r 0) as [E|Hne].
  - exists q. unfold padding. rewrite E, Z.sub_0_r, Z.mod_same by lia. lia.
  - exists (q + 1). unfold padding. rewrite (Z.mod_small (u - r)) by lia. lia.
Qed.

(** The sender's state, but for the direction. *)
Definition sent_from (s s' : ssh2_bpp_state) : Prop :=
  b_input s' = b_input s /\ b_in s' = b_in s /\ in_decomp s' = in_decomp s /\ b_flags s' = b_flags s /\ b_queues s' = b_queues s /\ b_fate s' = b_fate s.

Lemma compress_payload_spec s pkt five payload zo' x :
  po_data pkt = five ++ payload -> len five = 5 ->
  compress (out_comp s) payload (if negb (po_minlen pkt =? 0) then po_minlen pkt - mac_len (mac (b_out s)) - 8 else po_minlen pkt) = Some (zo', x) ->
  compress_payload s pkt = Some (set_out s (b_out s) zo', set_po_data pkt (five ++ x)).
Proof using Type.
  intros Ed Hf Ez. unfold compress_payload, compress in *. destruct (out_comp s) as [z|] eqn:Eo.
  - assert (length five = 5%nat) as Hf' by (unfold len in Hf; lia).
    rewrite Ed, <- Hf', drop_app_length, take_app_length. destruct (ssh_compressor_compress z payload _) as [[z' y]|]; [|done].
    cbn [mbind option_bind] in *. by injection Ez as <- <-.
  - injection Ez as <- <-. rewrite <- Ed, <- Eo. by destruct s, pkt.
Qed.

Lemma frame_data five x random :
  len five = 5 -> <[4%nat := u8 (len random)]> ((five ++ x) ++ random) = take 4 five ++ frame_body x random.
Proof using Type.
  intros Hf. assert (length five = 5%nat) as Hf' by (unfold len in Hf; lia). destruct five as [|? [|? [|? [|? [|? [|]]]]]]; done.
Qed.

(** A packet is compressed, padded and protected; the receiver's end of the direction opens it. *)
Lemma format_inner_spec kc km etm kz s i zi pkt five payload :
  channel kc km etm (b_out s) i -> comp_pair kz (out_comp s) zi -> po_data pkt = five ++ payload -> len five = 5 -> bytes_ok payload ->
  minlen_ok (po_minlen pkt) -> (if kz then len payload else room (len payload) (po_minlen pkt)) + 80 <= OUR_V2_PACKETLIMIT ->
  exists s' pkt' x random zi' d',
    ssh2_bpp_format_packet_inner random_read s pkt = Some (s', pkt') /\ sent_from s s' /\
    decompress zi x = Some (zi', Some payload) /\ comp_pair kz (out_comp s') zi' /\
    4 <= len random <= 67 /\ bytes_ok (frame_body x random) /\ 4 + len (frame_body x random) <= OUR_V2_PACKETLIMIT /\
    opens kc km etm i (frame_len x random) (frame_body x random) (po_data pkt') d' /\
    forall mi, mac_is km mi -> channel kc km etm (b_out s') (next_sequence (set_crypto i d' mi)).
Proof using Hrandom.
  intros Hch Hz Ed Hf Hb Hminlen Hroom.
  set (minlen := if negb (po_minlen pkt =? 0) then po_minlen pkt - mac_len (mac (b_out s)) - 8 else po_minlen pkt).
  pose proof (mac_is_len km _ (ch_mac_out _ _ _ _ _ Hch)) as Hml. pose proof (k_maclen_bounds km).
  destruct (compress_pair kz _ _ payload minlen Hz Hb) as (zo'&x&zi'&Ez&Ez'&Hz'&Hbx&Hlx&Hno).
  { destruct kz; [done|]. pose proof (len_nonneg payload). unfold minlen_ok, room, minlen, OUR_V2_PACKETLIMIT, INT_MAX in *. rewrite Hml.
    destruct (Z.eqb_spec (po_minlen pkt) 0); cbn [negb]; lia. }
  assert (len x + 80 <= OUR_V2_PACKETLIMIT) as Hx.
  { destruct kz as [|alg L]; [by rewrite Hno|].
    assert (room (len payload) minlen <= room (len payload) (po_minlen pkt)); [|lia]. unfold room, minlen. rewrite Hml. case_match; lia. }
  pose proof (compress_payload_spec s pkt five payload zo' x Ed Hf Ez) as Ecp. clear Ez. pose proof (k_unit_bounds kc) as Hu.
  assert (unit_of (cipher (b_out s)) 8 = k_unit kc) as Eu by (by apply (pair_unit kc _ _ (ch_cipher _ _ _ _ _ Hch))).
  pose proof (out_etm_spec Hch) as Ee. set (pre := if k_etm km etm then 4 else 0).
  destruct (padding_ok (k_unit kc) (5 + len x - pre)) as [Hpad Hdiv]; [done|pose proof (len_nonneg x); unfold pre; destruct (k_etm km etm); lia|].
  set (padding := 4 + (k_unit kc - (5 + len x - pre + 4) mod k_unit kc) mod k_unit kc) in *.
  destruct (Hrandom (b_random s) padding) as [Hrl Hrb]; [lia|]. set (random := random_read (b_random s) padding) in *.
  assert (len (frame_body x random) = 1 + len x + padding) as Hbody by (unfold frame_body; rewrite len_cons, len_app; lia).
  assert (bytes_ok (frame_body x random)) as Hbb by (unfold frame_body; constructor; [apply wrap_ok; lia|by apply Forall_app]).
  assert (exists out data d', protect (b_out s) (frame_len x random ++ frame_body x random) (4 + len (frame_body x random)) = Some (out, data)
    /\ opens kc km etm i (frame_len x random) (frame_body x random) data d'
    /\ forall mi, mac_is km mi -> channel kc km etm out (next_sequence (set_crypto i d' mi))) as (out&data&d'&Ep&Ho&Hch').
  { destruct (frame_len_4 x random) as [Hl4 Hlb]. pose proof (ch_sequence _ _ _ _ _ Hch) as Hseq. destruct (k_etm km etm) eqn:Eetm; unfold pre in *.
    - destruct (protect_etm Hch (frame_len x random) (frame_body x random)) as (out&l'&y&d1&d'&E1&E2&E3&Hl1&Hl2&Hb1&Hb2&Hn); try done.
      { rewrite Hbody. by replace (1 + len x + padding) with (5 + len x - 4 + padding) by lia. }
      assert (k_unit kc | len (frame_body x random)) as Hd by (rewrite Hbody; by replace (1 + len x + padding) with (5 + len x - 4 + padding) by lia).
      exists out, (l' ++ y ++ tag km (sequence (b_out s)) (l' ++ y)), d'. split; [done|]. split; [|done]. rewrite Hseq in E1, E2 |- *. by apply (opens_etm _ _ _ _ _ _ l' y d1 d').
    - assert (len (frame_len x random ++ frame_body x random) = 4 + len (frame_body x random)) as Hla by (rewrite len_app; lia).
      assert (k_unit kc | len (frame_len x random ++ frame_body x random)) as Hd.
      { rewrite Hla, Hbody. by replace (4 + (1 + len x + padding)) with (5 + len x - 0 + padding) by lia. }
      destruct (protect_std Hch (frame_len x random ++ frame_body x random)) as (out&y&d'&E1&E2&Hl1&Hb1&Hn); [done|by apply Forall_app|done|].
      rewrite Hla in E1. exists out, (y ++ tag km (sequence (b_out s)) (frame_len x random ++ frame_body x random)), d'.
      split; [done|]. split; [|done]. rewrite Hseq. by apply opens_std. }
  eexists _, (set_po_data pkt data), x, random, zi', d'. split; [|split; [|split_and!; try done]].
  - unfold ssh2_bpp_format_packet_inner. rewrite Ecp, Eu. cbn [mbind option_bind].
    cbn [po_data set_po_data set_out b_out b_random set_random out_comp stats_in stats_out]. rewrite Ee, len_app, Hf. fold pre. fold padding. fold random.
    rewrite (proj2 (Z.leb_le padding 255)) by lia. 
    assert (<[4%nat := u8 padding]> ((five ++ x) ++ random) = take 4 five ++ frame_body x random) as -> by (rewrite <- Hrl at 1; by apply frame_data).
    assert (PUT_32BIT_MSB_FIRST (u32 (5 + len x + padding - 4)) = frame_len x random) as -> by (unfold frame_len; rewrite Hbody; do 2 f_equal; lia).
    assert (drop 4 (take 4 five ++ frame_body x random) = frame_body x random) as ->.
    { assert (length (take 4 five) = 4%nat) as H4 by (rewrite length_take; unfold len in Hf; lia). rewrite <- H4 at 1. apply drop_app_length. }
    replace (5 + len x + padding) with (4 + len (frame_body x random)) by lia. rewrite Ep. reflexivity.
  - done.
  - exact Hz'.
  - lia.
  - lia.
  - rewrite Hbody. lia.
  - exact Hch'.
Qed.
End Sender.

(** ** The receiver *)

(** The types the packet protocol passes on. *)
Definition known_type (t : Z) : bool :=
  (0 <=? t) && (t <? 256) && match valid_bitmap !! Z.to_nat (Z.shiftr t 5) with Some w => Z.testbit w (Z.land t 31) | None => false end.

Lemma decompress_payload_spec t data a5 x junk zi' payload :
  blk_bytes data = a5 ++ x ++ junk -> len a5 = 5 -> maxlen (b_input t) <= blk_size data -> 5 + len x <= blk_size data ->
  decompress (in_decomp t) x = Some (zi', Some payload) ->
  exists data' b5 junk', decompress_payload t data (5 + len x) = Some (set_in t (b_in t) zi', data', 5 + len payload)
    /\ blk_bytes data' = b5 ++ payload ++ junk' /\ len b5 = 5.
Proof.
  intros Ed Ha Hm Hs Ez. unfold decompress_payload, decompress in *. destruct (in_decomp t) as [z|] eqn:Eo.
  - rewrite (fetch_at data a5 x junk) by first [done|lia]. cbn [mbind option_bind].
    destruct (ssh_decompressor_decompress z x) as [[z' r]|]; [|done]. cbn [mbind option_bind] in *. injection Ez as <- ->.
    change (b_input (set_in t (b_in t) (Some z'))) with (b_input t). bcase.
    + rewrite (store_at (mkBlock (len payload + 5) (replicate 5 0)) (replicate 5 0) payload [] 5) by first [done|cbn; unfold len; cbn; lia].
      cbn [mbind option_bind]. eexists _, (replicate 5 0), []. split; [done|]. split; [|done]. cbn [blk_bytes]. by rewrite drop_nil.
    + rewrite (store_at data a5 payload (x ++ junk) 5) by first [done|lia]. cbn [mbind option_bind]. by eexists _, a5, _.
  - injection Ez as <- <-. exists data, a5, junk. split; [|done]. do 3 f_equal. destruct t. cbn in *. by subst.
Qed.

Lemma check_unimplemented_known s t seq d : known_type t = true -> ssh2_bpp_check_unimplemented s (mkPktIn t seq d) = Some (s, false).
Proof.
  intros Hk. unfold known_type in Hk. bsimpl. unfold ssh2_bpp_check_unimplemented. cbn [pi_type].
  rewrite (proj2 (Z.ltb_lt t 256)) by lia. destruct (valid_bitmap !! _) as [w|]; [|done]. cbn [mbind option_bind].
  match goal with H : Z.testbit _ _ = true |- _ => by rewrite H end.
Qed.

(** [finish_packet] on the plaintext of a packet: it is put on the queue. *)
Lemma finish_packet_spec km s s1 rest l0 x random d' i1 m' junk zi' t data :
  at_packet km s s1 rest (l0 ++ frame_body x random) d' i1 m' junk -> len l0 = 4 -> 4 <= len random <= 67 ->
  decompress (in_decomp s) x = Some (zi', Some (t :: data)) -> known_type t = true ->
  finish_packet s1 =
    handle_type (mkBpp i1 (next_sequence (set_crypto (b_in s) d' m')) (b_out s) zi' (out_comp s) (b_flags s)
      (push_in (set_in_raw (b_queues s) rest) (mkPktIn t (sequence (b_in s)) data)) (dts_consume (stats_in s) (packetlen i1)) (stats_out s) (b_fate s) (b_random s)) t.
Proof.
  intros [-> _ Hr Hp Hd [Hs1 Hs2]] Hl0 Hrand Ez Hk. unfold finish_packet. st.
  assert (len (l0 ++ frame_body x random) = 5 + len x + len random) as Hlen by (unfold frame_body; rewrite len_app, len_cons, len_app; lia).
  rewrite (fetch_at (r_data i1) l0 [u8 (len random)] (x ++ random ++ junk) 4 1) by first [done|rewrite Hd, <- app_assoc; unfold frame_body; cbn [app]; by rewrite <- app_assoc].
  cbn [mbind option_bind head]. rewrite (wrap_id 8 (len random)) by (unfold word_ok; lia). pose proof (len_nonneg x).
  rewrite (proj2 (Z.ltb_ge (len random) 4)), (proj2 (Z.ltb_ge (r_len i1 - len random) 1)) by lia. cbn [orb].
  replace (packetlen i1 - len random) with (5 + len x) by lia. rewrite (proj2 (Z.leb_le 0 _)) by lia.
  match goal with |- context [decompress_payload ?T ?D ?L] => destruct (decompress_payload_spec T D (l0 ++ [u8 (len random)]) x (random ++ junk) zi' (t :: data)) as (data'&b5&junk'&Edp&Ed'&Hb5) end.
  { st. rewrite Hd, <- !app_assoc. unfold frame_body. cbn [app]. by rewrite <- app_assoc. } { rewrite len_app. change (len [_]) with 1. lia. } { done. } { st. lia. } { done. }
  rewrite Edp. cbn [mbind option_bind]. rewrite len_cons, (proj2 (Z.leb_gt (5 + (1 + len data)) 5)) by (pose proof (len_nonneg data); lia).
  rewrite (fetch_at data' b5 [t] (data ++ junk') 5 1) by done. cbn [mbind option_bind head].
  rewrite (fetch_at data' (b5 ++ [t]) data junk' 6) by first [rewrite Ed'; by rewrite <- app_assoc|rewrite len_app; change (len [_]) with 1; lia|lia].
  cbn [mbind option_bind]. rewrite check_unimplemented_known by done. cbn [mbind option_bind]. reflexivity.
Qed.

(** ** Two ends in step *)

(** A compression method that waits for the user to be authenticated is a real one. *)
Definition pending_ok (p : option ssh_compression_alg) : Prop :=
  match p with
  | None => True
  | Some alg => exists (L : CompressionLaws alg) c d, za_compress_new alg = Some (Some c) /\ za_decompress_new alg = Some (Some d) /\ zl_sync c d
  end.

(** [so] sends, [si] receives. *)
Record linked (kc : cipher_kind) (km : mac_kind) (etm : bool) (kz : comp_kind) (so si : ssh2_bpp_state) : Prop := {
  lk_channel : channel kc km etm (b_out so) (b_in si);
  lk_comp : comp_pair kz (out_comp so) (in_decomp si);
  lk_pending_ok : pending_ok (pending_compression (b_out so)) /\ pending_ok (pending_compression (b_in so)) /\ pending_ok (pending_compression (b_out si));
  lk_role : is_server (b_flags so) = negb (is_server (b_flags si));
  lk_alive : b_fate si = None /\ input_eof (b_queues si) = false /\ enforce_next_packet_is_userauth_success (b_flags si) = false;
  lk_workaround : cbc_ignore_workaround (b_flags so) = true -> kc <> NoCipher /\ km <> NoMac
}.

(** A direction whose compression no longer waits. *)
Definition unpend (d : ssh2_bpp_direction) : ssh2_bpp_direction := mkDir (sequence d) (cipher d) (mac d) (etm_mode d) None.
Definition undelayed_out (p : option ssh_compression_alg) (c c' : option ssh_compressor) : Prop :=
  match p with None => c' = c | Some alg => exists x, za_compress_new alg = Some (Some x) /\ c' = Some (mkCompressor alg x) end.
Definition undelayed_in (p : option ssh_compression_alg) (d d' : option ssh_decompressor) : Prop :=
  match p with None => d' = d | Some alg => exists x, za_decompress_new alg = Some (Some x) /\ d' = Some (mkDecompressor alg x) end.

Record enabled (s s' : ssh2_bpp_state) : Prop := {
  en_in : b_in s' = unpend (b_in s);
  en_out : b_out s' = unpend (b_out s);
  en_decomp : undelayed_in (pending_compression (b_in s)) (in_decomp s) (in_decomp s');
  en_comp : undelayed_out (pending_compression (b_out s)) (out_comp s) (out_comp s')
}.

Lemma unpend_id d : pending_compression d = None -> unpend d = d.
Proof. destruct d. cbn. by intros ->. Qed.

Lemma enable_spec s : pending_ok (pending_compression (b_in s)) -> pending_ok (pending_compression (b_out s)) ->
  exists s', ssh2_bpp_enable_pending_compression s = Some s' /\ enabled s s' /\ io s' = io s /\ b_flags s' = b_flags s.
Proof.
  intros Hi Ho. unfold ssh2_bpp_enable_pending_compression.
  assert (exists s1, (match pending_compression (b_in s) with None => Some s | Some alg => z ← ssh_decompressor_new alg; z ← z; Some (set_in s (unpend (b_in s)) (Some z)) end)
    = Some s1 /\ b_in s1 = unpend (b_in s) /\ b_out s1 = b_out s /\ out_comp s1 = out_comp s /\ undelayed_in (pending_compression (b_in s)) (in_decomp s) (in_decomp s1)
    /\ io s1 = io s /\ b_flags s1 = b_flags s) as (s1&E1&Ei&Eo&Ec&Hd&Hio&Hfl).
  { destruct (pending_compression (b_in s)) as [alg|] eqn:E.
    - destruct Hi as (L&c&d&_&E2&_). unfold ssh_decompressor_new. rewrite E2. cbn. eexists. split; [done|]. cbn. eauto 10.
    - exists s. rewrite unpend_id by done. done. }
  unfold unpend in E1. rewrite E1. cbn [mbind option_bind]. rewrite Eo. destruct (pending_compression (b_out s)) as [alg|] eqn:E.
  - destruct Ho as (L&c&d&E2&_&_). unfold ssh_compressor_new. rewrite E2. cbn. eexists. split; [done|]. split; [|done]. constructor; cbn.
    + done.
    + done.
    + done.
    + rewrite E. cbn. eauto.
  - exists s1. split; [done|]. split; [|done]. constructor; [done|by rewrite Eo, unpend_id|done|]. by rewrite E.
Qed.

Lemma linked_enabled kc km etm kz so si so' si' :
  linked kc km etm kz so si -> enabled so so' -> enabled si si' -> b_flags so' = b_flags so -> is_server (b_flags si') = is_server (b_flags si) ->
  b_fate si' = b_fate si -> input_eof (b_queues si') = input_eof (b_queues si) ->
  enforce_next_packet_is_userauth_success (b_flags si') = enforce_next_packet_is_userauth_success (b_flags si) ->
  exists kz', linked kc km etm kz' so' si'.
Proof.
  intros [Hch Hz (Hp1&Hp2&Hp3) Hr Ha Hw] [Eoi Eoo Eod Eoc] [Eii Eio Eid Eic] Hf Hs Hfa He Hen.
  assert (exists kz', comp_pair kz' (out_comp so') (in_decomp si')) as [kz' Hz'].
  { rewrite <- (ch_pending _ _ _ _ _ Hch) in Eid. unfold undelayed_in, undelayed_out, pending_ok in *. destruct (pending_compression (b_out so)) as [alg|].
    - destruct Hp1 as (L&c&d&E1&E2&Hsync), Eoc as (x&Ex&->), Eid as (y&Ey&->). exists (TheComp alg L). cbn. exists x, y. by simplify_eq.
    - exists kz. by rewrite Eoc, Eid. }
  exists kz'. constructor; rewrite ?Eoo, ?Eii, ?Eoi, ?Eio, ?Hs, ?Hf, ?Hfa, ?He, ?Hen; try done. by destruct Hch.
Qed.

(** ** The effect of a packet on the receiver *)

Definition directions (s : ssh2_bpp_state) := (b_in s, b_out s, in_decomp s, out_comp s).

(** What [handle_type] leaves behind when the packet has type [t]. *)
Record typed (t : Z) (s s' : ssh2_bpp_state) : Prop := {
  ty_queues : b_queues s' = b_queues s;
  ty_fate : b_fate s' = b_fate s;
  ty_server : is_server (b_flags s') = is_server (b_flags s);
  ty_enforce : enforce_next_packet_is_userauth_success (b_flags s') = false;
  ty_cr : crState (b_input s') = if t =? SSH2_MSG_NEWKEYS then CrNewkeys else CrStart;
  ty_newkeys : t = SSH2_MSG_NEWKEYS -> pending_newkeys (b_flags s') = true;
  ty_directions : if (t =? SSH2_MSG_USERAUTH_SUCCESS) && negb (is_server (b_flags s)) then enabled s s' else directions s' = directions s
}.

Lemma handle_type_spec s t :
  enforce_next_packet_is_userauth_success (b_flags s) = false -> t <> SSH2_MSG_EXT_INFO ->
  pending_ok (pending_compression (b_in s)) -> pending_ok (pending_compression (b_out s)) ->
  exists s', handle_type s t = Some (s', negb (t =? SSH2_MSG_NEWKEYS)) /\ typed t s s'.
Proof.
  intros He Hx Hi Ho. unfold handle_type. change (enforce_next_packet_is_userauth_success (b_flags (set_prev_type s t))) with
    (enforce_next_packet_is_userauth_success (b_flags s)). rewrite He. cbn [andb]. destruct (Z.eqb_spec t SSH2_MSG_NEWKEYS) as [->|Hn].
  - eexists. split; [done|]. by constructor.
  - rewrite (proj2 (Z.eqb_neq t SSH2_MSG_EXT_INFO)) by done.
    match goal with |- context [ssh2_bpp_enable_pending_compression ?S] => set (s1 := S) end.
    assert (exists s2, (if (t =? SSH2_MSG_USERAUTH_SUCCESS) && negb (is_server (b_flags s1)) then
        s ← ssh2_bpp_enable_pending_compression s1;
        Some (set_flags s (mkFlags (cbc_ignore_workaround (b_flags s)) (is_server (b_flags s)) (pending_newkeys (b_flags s)) (output_blocked (b_flags s)) true
                             (enforce_next_packet_is_userauth_success (b_flags s)) (nnewkeys (b_flags s)) (prev_type (b_flags s)))) else Some s1) = Some s2
      /\ io s2 = io s /\ is_server (b_flags s2) = is_server (b_flags s) /\ enforce_next_packet_is_userauth_success (b_flags s2) = false
      /\ if (t =? SSH2_MSG_USERAUTH_SUCCESS) && negb (is_server (b_flags s)) then enabled s s2 else directions s2 = directions s)
      as (s2&->&Hio&Hs&Hen&Hd).
    { change (is_server (b_flags s1)) with (is_server (b_flags s)). destruct (_ && _).
      - destruct (enable_spec s1) as (s2&->&[E1 E2 E3 E4]&Hio&Hf); [done|done|]. cbn [mbind option_bind]. eexists. split; [done|]. split; [done|].
        cbn. rewrite Hf. done.
      - by exists s1. }
    cbn [mbind option_bind]. injection Hio as _ Eq Ef. eexists. split; [done|]. constructor; try done.
    + cbn. by rewrite (proj2 (Z.eqb_neq t _)).
    + revert Hd. case_match; [|done]. intros [E1 E2 E3 E4]. by constructor.
Qed.

(** ** One packet *)

(** The bytes [w] take the receiver from [s] to [s']. *)
Definition delivers (s : ssh2_bpp_state) (w : list Z) (s' : ssh2_bpp_state) : Prop :=
  forall rest f, run (add_raw s' rest) f -> run (add_raw s (w ++ rest)) f.

Record received (s s' : ssh2_bpp_state) (t : Z) (data : list Z) : Prop := {
  rc_queues : b_queues s' = push_in (b_queues s) (mkPktIn t (sequence (b_in s)) data);
  rc_sequence : sequence (b_in s') = u64 (sequence (b_in s) + 1);
  rc_cr : crState (b_input s') = if t =? SSH2_MSG_NEWKEYS then CrNewkeys else CrStart;
  rc_newkeys : t = SSH2_MSG_NEWKEYS -> pending_newkeys (b_flags s') = true
}.

(** What [output_loop] does after a packet of type [t] was formatted, apart from stopping. *)
Definition after_sending (t : Z) (s : ssh2_bpp_state) : option ssh2_bpp_state :=
  if (t =? SSH2_MSG_USERAUTH_SUCCESS) && is_server (b_flags s) then ssh2_bpp_enable_pending_compression s else Some s.

(** No compression waits for the user to be authenticated. *)
Definition undelayed (s : ssh2_bpp_state) : Prop := pending_compression (b_out s) = None.

(** The effect of the type on both ends. *)
Lemma linked_typed kc km etm kz so si si' t :
  linked kc km etm kz so si -> typed t si si' ->
  exists so' kz', after_sending t so = Some so' /\ linked kc km etm kz' so' si' /\ io so' = io so /\ b_flags so' = b_flags so
    /\ sequence (b_in si') = sequence (b_in si) /\ (undelayed so -> undelayed so').
Proof.
  intros Hl Ht. pose proof Hl as [_ _ (Hp1&Hp2&Hp3) Hr (Ha1&Ha2&Ha3) _]. destruct Ht as [Tq Tf Ts Te Tc Tn Td]. unfold after_sending. rewrite Hr.
  destruct (_ && negb _).
  - destruct (enable_spec so Hp2 Hp1) as (so'&->&Hen&Hio&Hf). destruct (linked_enabled _ _ _ _ _ _ _ _ Hl Hen Td) as [kz' Hl']; try done; [by rewrite Tq|by rewrite Te|].
    exists so', kz'. split_and!; try done; [by rewrite (en_in _ _ Td)|]. unfold undelayed. by rewrite (en_out _ _ Hen).
  - injection Td as D1 D2 D3 D4. exists so, kz. split; [done|]. split; [|by rewrite D1].
    destruct Hl as [L1 L2 L3 L4 L5 L6]. constructor; rewrite ?D1, ?D2, ?D3, ?Ts, ?Tf, ?Tq, ?Te; done.
Qed.

(** ** Packets one after the other *)

(** The packets carry consecutive sequence numbers from [n] on. *)
Fixpoint numbered (n : Z) (ps : list PktIn) : Prop :=
  match ps with [] => True | p :: ps => pi_sequence p = n /\ numbered (u64 (n + 1)) ps end.
Fixpoint next_number (n : Z) (ps : list PktIn) : Z :=
  match ps with [] => n | _ :: ps => next_number (u64 (n + 1)) ps end.

Lemma numbered_app n ps qs : numbered n (ps ++ qs) <-> numbered n ps /\ numbered (next_number n ps) qs.
Proof. revert n. induction ps as [|p ps IH]; intros n; cbn; [by naive_solver|]. rewrite IH. naive_solver. Qed.
Lemma next_number_app n ps qs : next_number n (ps ++ qs) = next_number (next_number n ps) qs.
Proof. revert n. induction ps as [|p ps IH]; intros n; cbn; [done|]. apply IH. Qed.

Definition add_in (q : queues) (ps : list PktIn) : queues := mkQueues (in_raw q) (input_eof q) (in_pq q ++ ps) (out_pq q) (out_raw q) (expect_close q).
Definition add_out (q : queues) (w : list Z) : queues := mkQueues (in_raw q) (input_eof q) (in_pq q) (out_pq q) (out_raw q ++ w) (expect_close q).

(** The receiver has turned [w] into the packets [ps]. *)
Record got (s s' : ssh2_bpp_state) (w : list Z) (ps : list PktIn) : Prop := {
  g_queues : b_queues s' = add_in (b_queues s) ps;
  g_numbered : numbered (sequence (b_in s)) ps;
  g_next : sequence (b_in s') = next_number (sequence (b_in s)) ps;
  g_delivers : delivers s w s'
}.

Lemma got_nil s : got s s [] [].
Proof. constructor; try done; [|by intros rest f]. unfold add_in. rewrite app_nil_r. by destruct (b_queues s). Qed.

Lemma got_trans s1 s2 s3 w w' ps qs : got s1 s2 w ps -> got s2 s3 w' qs -> got s1 s3 (w ++ w') (ps ++ qs).
Proof.
  intros [Q1 N1 X1 D1] [Q2 N2 X2 D2]. constructor.
  - rewrite Q2, Q1. unfold add_in. cbn. by rewrite app_assoc.
  - apply numbered_app. split; [done|]. by rewrite <- X1.
  - by rewrite X2, X1, next_number_app.
  - intros rest f Hf. rewrite <- app_assoc. by apply D1, D2.
Qed.

Lemma got_received s s' t data w : received s s' t data -> delivers s w s' -> got s s' w [mkPktIn t (sequence (b_in s)) data].
Proof. intros [R1 R2 R3 R4] Hd. by constructor. Qed.

Definition is_ignore (p : PktIn) : Prop := pi_type p = SSH2_MSG_IGNORE.

(** The receiver can go on at once, or waits for new keys. *)
Definition standing (t : Z) (s : ssh2_bpp_state) : Prop :=
  crState (b_input s) = (if t =? SSH2_MSG_NEWKEYS then CrNewkeys else CrStart) /\ (t = SSH2_MSG_NEWKEYS -> pending_newkeys (b_flags s) = true).

(** A packet by its contents. *)
Definition sendable (p : PktOut) : Prop :=
  pkt_ok p /\ known_type (po_type p) = true /\ po_type p <> SSH2_MSG_EXT_INFO.
Definition payload (p : PktOut) : list Z := drop 6 (po_data p).

Section Transfer.
Variable random_read : nat -> Z -> list Z.
Context (Hrandom : forall n k, 0 <= k -> len (random_read n k) = k /\ bytes_ok (random_read n k)).

Lemma transfer_inner kc km etm kz so si pkt five t data :
  linked kc km etm kz so si -> crState (b_input si) = CrStart -> in_raw (b_queues si) = [] ->
  po_data pkt = five ++ t :: data -> len five = 5 -> bytes_ok (t :: data) ->
  minlen_ok (po_minlen pkt) -> (if kz then len (t :: data) else room (len (t :: data)) (po_minlen pkt)) + 80 <= OUR_V2_PACKETLIMIT ->
  known_type t = true -> t <> SSH2_MSG_EXT_INFO ->
  exists so1 pkt' so' si' kz',
    ssh2_bpp_format_packet_inner random_read so pkt = Some (so1, pkt') /\ after_sending t so1 = Some so' /\ linked kc km etm kz' so' si' /\
    b_queues so1 = b_queues so /\ b_flags so1 = b_flags so /\ b_queues so' = b_queues so /\ b_flags so' = b_flags so /\ received si si' t data /\ delivers si (po_data pkt') si' /\
    (undelayed so -> undelayed so1 /\ undelayed so').
Proof using Hrandom.
  intros Hl Hcr Hraw Ed Hf Hb Hminlen Hroom Hk Hx. pose proof Hl as [Hch Hz (Hp1&Hp2&Hp3) Hr (Ha1&Ha2&Ha3) Hw].
  destruct (format_inner_spec random_read Hrandom _ _ _ _ so (b_in si) (in_decomp si) pkt five (t :: data) Hch Hz Ed Hf Hb Hminlen Hroom)
    as (so1&pkt'&x&random&zi'&d'&E&(S1&S2&S3&S4&S5&S6)&Ez&Hz'&Hrl&Hbb&Hsz&Ho&Hch').
  destruct (frame_len_4 x random) as [Hl4 Hlb].
  destruct (open_packet_ex (add_raw si (po_data pkt')) Hch (frame_len x random) (frame_body x random) [] Hl4 Hlb Hbb) with (wire := po_data pkt') (d' := d')
    as (r&s1&i1&m'&junk&l0&Hrun&Hl0&Hat&Hc); try done.
  { apply read_frame_len. unfold OUR_V2_PACKETLIMIT in Hsz. lia. }
  { cbn. by rewrite Hraw, app_nil_r. }
  rewrite (finish_packet_spec _ _ _ _ _ _ _ _ _ _ _ _ t data Hat Hl0 Hrl Ez Hk) in Hc.
  match type of Hc with context [handle_type ?S t] => set (si1 := S) in Hc end.
  assert (linked kc km etm kz so1 si1) as Hl1.
  { assert (channel kc km etm (b_out so1) (b_in si1)) as Hch1 by apply Hch', (ap_mac _ _ _ _ _ _ _ _ _ Hat).
    constructor; rewrite ?S2, ?S4; try done. pose proof (ch_pending _ _ _ _ _ Hch1) as Ep. rewrite Ep. cbn. by rewrite <- (ch_pending _ _ _ _ _ Hch). }
  destruct (handle_type_spec si1 t) as (si'&Eh&Hty); [done|done|by rewrite <- (ch_pending _ _ _ _ _ (lk_channel _ _ _ _ _ _ Hl1)); apply (lk_pending_ok _ _ _ _ _ _ Hl1)|done|].
  destruct (linked_typed _ _ _ _ _ _ _ _ Hl1 Hty) as (so'&kz'&Ea&Hl'&[= I1 I2 I3]&If&Iseq&Iu).
  exists so1, pkt', so', si', kz'. split_and!; try done; [congruence|congruence|..].
  - pose proof Hty as [T1 T2 T3 T4 T5 T6 _]. constructor; try done. rewrite T1. cbn. destruct (b_queues si) as [q1 q2 q3 q4 q5 q6]. cbn in Hraw. by subst q1.
  - intros rest f Hrest. rewrite <- add_raw_app. destruct Hty as [T1 T2 T3 T4 T5 T6 _].
    apply (run_same_future _ si' r); try done.
    + split; [unfold cr_ok; cbn; by rewrite Hcr|done].
    + split; [unfold cr_ok; rewrite T5; by case_match|by rewrite T1].
    + by rewrite T2.
    + rewrite Eh in Hc. destruct (Z.eqb_spec t SSH2_MSG_NEWKEYS) as [->|_]; cbn in Hc.
      * subst r. apply run_stop. unfold bpp_step. rewrite T5. cbn. by rewrite T6.
      * by destruct Hc as (r'&Hr'&<-).
  - intros Hu. assert (undelayed so1) as Hu1; [|by split; [|apply Iu]].
    unfold undelayed in *. rewrite (ch_pending _ _ _ _ _ (lk_channel _ _ _ _ _ _ Hl1)). cbn. by rewrite <- (ch_pending _ _ _ _ _ Hch).
Qed.

(** The link does not depend on the queues of the sender, nor on what the random generator did. *)
Lemma linked_flags kc km etm kz so so' si :
  linked kc km etm kz so si -> directions so' = directions so -> is_server (b_flags so') = is_server (b_flags so) ->
  cbc_ignore_workaround (b_flags so') = cbc_ignore_workaround (b_flags so) -> linked kc km etm kz so' si.
Proof using Type.
  intros [L1 L2 L3 L4 L5 L6] [= D1 D2 D3 D4] Hs Hw. constructor; rewrite ?D1, ?D2, ?D3, ?D4, ?Hs, ?Hw; done.
Qed.

Lemma linked_sender kc km etm kz so so' si :
  linked kc km etm kz so si -> directions so' = directions so -> b_flags so' = b_flags so -> linked kc km etm kz so' si.
Proof using Type. intros Hl Hd Hf. apply (linked_flags _ _ _ _ so); [done|done|by rewrite Hf..]. Qed.

Definition ignore_pkt (m : Z) (random : list Z) : PktOut :=
  mkPktOut SSH2_MSG_IGNORE 6 0 (replicate 5 0 ++ SSH2_MSG_IGNORE :: PUT_32BIT_MSB_FIRST (u32 m) ++ random).

Lemma ignore_length_bounds s pkt m :
  ignore_length s pkt = Some m -> 0 < po_minlen pkt -> 0 <= mac_len (mac (b_out s)) -> 0 <= m <= po_minlen pkt.
Proof using Type.
  unfold ignore_length. set (u := unit_of _ 0). assert (8 <= u) as Hu by apply unit_of_8. pose proof (len_nonneg (po_data pkt)) as Hn. intros E Hp Hm. revert E.
  pose proof (Z.mod_le (len (po_data pkt) + 4 + (u - 1)) u). bcase; [|done]. bcase; intros [= <-]; lia.
Qed.

(** The SSH_MSG_IGNORE that goes before a packet, if there is one. *)
Lemma transfer_ignore kc km etm kz so si pkt :
  linked kc km etm kz so si -> crState (b_input si) = CrStart -> in_raw (b_queues si) = [] -> room 0 (po_minlen pkt) + 86 <= OUR_V2_PACKETLIMIT ->
  exists so' si' kz' w ps,
    (match out_comp so, ignore_length so pkt with
     | None, Some length =>
         if 0 <? po_minlen pkt then
           ignore_pkt ← ssh2_bpp_new_pktout SSH2_MSG_IGNORE;
           ignore_pkt ← put_uint32 ignore_pkt length;
           '(s, ignore_pkt) ← ssh2_bpp_format_packet_inner random_read (set_random so (S (b_random so)))
                                (set_po_data ignore_pkt (po_data ignore_pkt ++ random_read (b_random so) length));
           Some (add_out_raw s ignore_pkt)
         else Some so
     | _, _ => Some so
     end) = Some so' /\ linked kc km etm kz' so' si' /\ b_queues so' = add_out (b_queues so) w /\ b_flags so' = b_flags so /\
    got si si' w ps /\ Forall is_ignore ps /\ standing SSH2_MSG_IGNORE si' /\ (undelayed so -> undelayed so').
Proof using Hrandom.
  intros Hl Hcr Hraw Hroom.
  assert (exists so' si' kz' w ps, Some so = Some so' /\ linked kc km etm kz' so' si' /\ b_queues so' = add_out (b_queues so) w /\ b_flags so' = b_flags so /\
    got si si' w ps /\ Forall is_ignore ps /\ standing SSH2_MSG_IGNORE si' /\ (undelayed so -> undelayed so')) as Hnone.
  { exists so, si, kz, [], []. split_and!; try done; [unfold add_out; rewrite app_nil_r; by destruct (b_queues so)|apply got_nil]. }
  destruct (out_comp so) as [z|] eqn:Eo; [done|]. destruct (ignore_length so pkt) as [m|] eqn:Em; [|done].
  destruct (Z.ltb_spec 0 (po_minlen pkt)) as [Hp|]; [|done]. clear Hnone.
  pose proof (mac_is_len km _ (ch_mac_out _ _ _ _ _ (lk_channel _ _ _ _ _ _ Hl))) as Hml. pose proof (k_maclen_bounds km).
  destruct (ignore_length_bounds so pkt m Em Hp) as [Hm0 Hm]; [lia|]. destruct (Hrandom (b_random so) m Hm0) as [Hrl Hrb].
  destruct (transfer_inner kc km etm kz (set_random so (S (b_random so))) si (ignore_pkt m (random_read (b_random so) m)) (replicate 5 0) SSH2_MSG_IGNORE
    (PUT_32BIT_MSB_FIRST (u32 m) ++ random_read (b_random so) m)) as (so1&pkt'&so'&si'&kz'&E&Ea&Hl'&Q1&F1&Q2&F2&Hr&Hd&Hu); try done.
  { by apply (linked_sender kc km etm kz so). }
  { constructor; [unfold word_ok, SSH2_MSG_IGNORE; lia|]. apply Forall_app. split; [apply put_32_ok|done]. }
  { by left. }
  { destruct kz as [|alg L]; [|pose proof (lk_comp _ _ _ _ _ _ Hl) as (x&y&Hx&_); congruence]. rewrite len_cons, len_app, Hrl.
    change (len (PUT_32BIT_MSB_FIRST (u32 m))) with 4. unfold room in Hroom. lia. }
  cbn in Ea. injection Ea as <-. unfold ssh2_bpp_new_pktout, put_byte, put_uint32, put_data in *. 
  exists (add_out_raw so1 pkt'), si', kz', (po_data pkt'), [mkPktIn SSH2_MSG_IGNORE (sequence (b_in si)) (PUT_32BIT_MSB_FIRST (u32 m) ++ random_read (b_random so) m)].
  split_and!.
  - cbn [bs_write pktout_sink mbind option_bind set_po_data po_data].
    match goal with |- context [ssh2_bpp_format_packet_inner _ _ ?p] => change p with (ignore_pkt m (random_read (b_random so) m)) end. by rewrite E.
  - by apply (linked_sender _ _ _ _ so1).
  - cbn. rewrite Q1. done.
  - exact F1.
  - by apply got_received.
  - by repeat constructor.
  - destruct Hr as [_ _ R3 R4]. by split.
  - intros Hso. by apply Hu.
Qed.

Lemma enable_add_out s p : ssh2_bpp_enable_pending_compression (add_out_raw s p) = (s ← ssh2_bpp_enable_pending_compression s; Some (add_out_raw s p)).
Proof using Type.
  unfold ssh2_bpp_enable_pending_compression, add_out_raw. destruct s as [i [] [] zi zo f q si so fa r]. cbn. lockstep.
Qed.

(** A packet, with what goes before it. *)
Lemma transfer_one kc km etm kz so si pkt :
  linked kc km etm kz so si -> crState (b_input si) = CrStart -> in_raw (b_queues si) = [] -> sendable pkt ->
  exists so1 so' si' kz' w ps n, ssh2_bpp_format_packet random_read so pkt = Some so1 /\ after_sending (po_type pkt) so1 = Some so' /\ linked kc km etm kz' so' si' /\
    b_queues so1 = add_out (b_queues so) w /\ b_queues so' = add_out (b_queues so) w /\ b_flags so1 = b_flags so /\ b_flags so' = b_flags so /\
    got si si' w (ps ++ [mkPktIn (po_type pkt) n (payload pkt)]) /\ Forall is_ignore ps /\ standing (po_type pkt) si' /\
    (undelayed so -> undelayed so1 /\ undelayed so').
Proof using Hrandom.
  intros Hl Hcr Hraw ((five&data&Ed&Hf&Hb&Hmin&Hroom)&Hk&Hx). unfold ssh2_bpp_format_packet.
  destruct (transfer_ignore kc km etm kz so si pkt Hl Hcr Hraw) as (s0&si0&kz0&w0&ps0&->&Hl0&Q0&F0&Hg0&Hi0&[Hs0 _]&Hu0).
  { unfold room in *. rewrite len_cons in Hroom. pose proof (len_nonneg data). lia. }
  cbn [mbind option_bind].
  destruct (transfer_inner kc km etm kz0 s0 si0 pkt five (po_type pkt) data) as (so1&pkt'&so'&si'&kz'&->&Ea&Hl'&Q1&F1&Q2&F2&Hr&Hd&Hu); try done.
  { rewrite (g_queues _ _ _ _ Hg0). exact Hraw. }
  { destruct kz0; [|]; unfold room in *; pose proof (len_nonneg (po_type pkt :: data)); lia. }
  cbn [mbind option_bind].
  assert (exists so2, after_sending (po_type pkt) (add_out_raw so1 pkt') = Some so2 /\ directions so2 = directions so' /\ b_flags so2 = b_flags so' /\ b_queues so2 = add_out (b_queues so') (po_data pkt'))
    as (so2&Ea2&D2&F3&Q3).
  { revert Ea. unfold after_sending. change (b_flags (add_out_raw so1 pkt')) with (b_flags so1). destruct ((po_type pkt =? SSH2_MSG_USERAUTH_SUCCESS) && _).
    - rewrite enable_add_out. intros ->. cbn. by eexists.
    - intros [= ->]. by eexists. }
  exists (add_out_raw so1 pkt'), so2, si', kz', (w0 ++ po_data pkt'), ps0, (sequence (b_in si0)).
  assert (payload pkt = data) as -> by (unfold payload; rewrite Ed; assert (length five = 5%nat) as H5 by (unfold len in Hf; lia); change 6%nat with (5 + 1)%nat; rewrite <- H5, drop_app_add; done).
  assert (add_out (b_queues so) (w0 ++ po_data pkt') = add_out (b_queues s0) (po_data pkt')) as Eq by (rewrite Q0; unfold add_out; cbn; by rewrite app_assoc).
  split_and!; try done.
  - by apply (linked_sender _ _ _ _ so').
  - rewrite Eq, <- Q1. done.
  - by rewrite Eq, Q3, Q2.
  - cbn. congruence.
  - congruence.
  - eapply got_trans; [exact Hg0|]. by apply got_received.
  - destruct Hr as [_ _ R3 R4]. by split.
  - intros Hso. destruct (Hu (Hu0 Hso)) as [Hu1 Hu2]. split; [done|]. unfold undelayed in *. injection D2 as _ -> _ _. done.
Qed.

(** ** The output queue *)

Definition with_pq (q : queues) (pq : list PktOut) : queues := mkQueues (in_raw q) (input_eof q) (in_pq q) pq (out_raw q) (expect_close q).

(** Only the last packet may announce new keys. *)
Fixpoint newkeys_last (ps : list PktOut) : Prop :=
  match ps with [] => True | p :: ps => (ps <> [] -> po_type p <> SSH2_MSG_NEWKEYS) /\ newkeys_last ps end.
Definition last_type (ps : list PktOut) : Z := match last ps with Some p => po_type p | None => 0 end.

Definition content_in (p : PktIn) : Z * list Z := (pi_type p, pi_data p).
Definition content_out (p : PktOut) : Z * list Z := (po_type p, payload p).
(** Packets other than SSH_MSG_IGNORE. *)
Definition real (l : list (Z * list Z)) : list (Z * list Z) := filter (fun c => c.1 <> SSH2_MSG_IGNORE) l.

Lemma real_app l k : real (l ++ k) = real l ++ real k.
Proof using Type. apply filter_app. Qed.
Lemma real_ignores ps : Forall is_ignore ps -> real (content_in <$> ps) = [].
Proof using Type.
  induction 1 as [|p ps Hp _ IH]; [done|]. unfold real. cbn [fmap list_fmap]. rewrite filter_cons_False; [done|]. cbn. unfold is_ignore in Hp. lia.
Qed.

Lemma real_packet ps p n : Forall is_ignore ps ->
  real (content_in <$> (ps ++ [mkPktIn (po_type p) n (payload p)])) = real (content_out <$> [p]).
Proof using Type. intros Hi. rewrite fmap_app, real_app, real_ignores by done. done. Qed.

(** What the loop over the output queue has done: [sent] is gone, [rest] is still there. *)
Record flushed (kc : cipher_kind) (km : mac_kind) (etm : bool) (so so' si si' : ssh2_bpp_state) (w : list Z) (ps : list PktIn) (sent rest : list PktOut) : Prop := {
  fl_linked : exists kz, linked kc km etm kz so' si';
  fl_queues : b_queues so' = with_pq (add_out (b_queues so) w) rest;
  fl_got : got si si' w ps;
  fl_real : real (content_in <$> ps) = real (content_out <$> sent);
  fl_standing : standing (last_type sent) si';
  fl_rest : rest = [] \/ output_blocked (b_flags so') = true;
  fl_undelayed : undelayed so -> output_blocked (b_flags so) = false -> undelayed so' /\ output_blocked (b_flags so') = false
}.

Lemma flushed_stop kc km etm kz so so' si si' w ps sent rest :
  linked kc km etm kz so' si' -> b_queues so' = with_pq (add_out (b_queues so) w) rest -> got si si' w ps ->
  real (content_in <$> ps) = real (content_out <$> sent) -> standing (last_type sent) si' -> rest = [] \/ output_blocked (b_flags so') = true ->
  (undelayed so -> output_blocked (b_flags so) = false -> undelayed so' /\ output_blocked (b_flags so') = false) -> flushed kc km etm so so' si si' w ps sent rest.
Proof using Type. intros. constructor; eauto. Qed.

Lemma last_type_cons p ps : ps <> [] -> last_type (p :: ps) = last_type ps.
Proof using Type. unfold last_type. by destruct ps. Qed.

Lemma transfer_loop kc km etm pkts n kz so si :
  linked kc km etm kz so si -> crState (b_input si) = CrStart -> in_raw (b_queues si) = [] -> Forall sendable pkts -> newkeys_last pkts ->
  out_pq (b_queues so) = pkts ->
  exists so' si' w ps sent rest, output_loop random_read pkts n so = Some so' /\ pkts = sent ++ rest /\ flushed kc km etm so so' si si' w ps sent rest.
Proof using Hrandom.
  revert n kz so si. induction pkts as [|p pkts IH]; intros n kz so si Hl Hcr Hraw Hs Hnk Hpq.
  - exists so, si, [], [], [], []. split; [done|]. split; [done|]. eapply flushed_stop; try done; [|apply got_nil|by left].
    unfold with_pq, add_out. rewrite app_nil_r. destruct (b_queues so); cbn in *; congruence.
  - apply Forall_cons in Hs as [Hp Hs]. destruct Hnk as [Hnk1 Hnk]. cbn [output_loop].
    set (so0 := set_queues so _).
    destruct (transfer_one kc km etm kz so0 si p) as (so1&so2&si1&kz1&w1&ps1&seq&E1&E2&Hl1&Q1&Q2&F1&F2&Hg&Hi&[Hc1 Hc2]&Hu); [|done..|].
    { by apply (linked_sender kc km etm kz so). }
    rewrite E1. cbn [mbind option_bind].
    set (n' := if userauth_range (po_type p) then n - 1 else n). destruct (_ && negb _) eqn:Eb.
    + (* blocked until the reply to the last userauth packet *)
      apply andb_true_iff in Eb as [Eb Esrv]. apply negb_true_iff in Esrv. apply andb_true_iff in Eb as [_ Epd].
      assert (so2 = so1) as -> by (unfold after_sending in E2; rewrite Esrv, andb_false_r in E2; by injection E2).
      eexists _, si1, w1, _, [p], pkts. split; [done|]. split; [done|]. eapply flushed_stop; [by apply (linked_flags _ _ _ _ so1)| |exact Hg|by apply real_packet|done|by right|].
      { cbn. by rewrite Q1. } intros Hso _. exfalso. destruct (Hu Hso) as [Hu1 _]. unfold undelayed in Hu1. by rewrite Hu1 in Epd.
    + assert ((if (po_type p =? SSH2_MSG_USERAUTH_SUCCESS) && is_server (b_flags so1)
               then s ← ssh2_bpp_enable_pending_compression so1; output_loop random_read pkts n' s else output_loop random_read pkts n' so1)
        = output_loop random_read pkts n' so2) as ->.
      { unfold after_sending in E2. destruct (_ && _); [by rewrite E2|by injection E2 as ->]. }
      destruct pkts as [|p' pkts].
      * exists so2, si1, w1, (ps1 ++ [mkPktIn (po_type p) seq (payload p)]), [p], []. split; [done|]. split; [done|].
        eapply flushed_stop; [done|by rewrite Q2|done|by apply real_packet|done|by left|]. intros Hso Hb. split; [by apply Hu|by rewrite F2].
      * destruct (IH n' kz1 so2 si1) as (so'&si'&w&ps&sent&rest&E&Esplit&[Fl Fq Fg Fr Fs Fb Fu]); try done.
        { rewrite Hc1. by rewrite (proj2 (Z.eqb_neq _ _)) by (by apply Hnk1). } { rewrite (g_queues _ _ _ _ Hg). exact Hraw. } { by rewrite Q2. }
        exists so', si', (w1 ++ w), ((ps1 ++ [mkPktIn (po_type p) seq (payload p)]) ++ ps), (p :: sent), rest. split; [done|]. split; [by rewrite Esplit|].
        destruct Fl as [kz' Fl]. eapply flushed_stop; [done| |by eapply got_trans| | |done|].
        -- rewrite Fq, Q2. unfold with_pq, add_out. cbn. by rewrite app_assoc.
        -- rewrite fmap_app, real_app, Fr, (real_packet ps1 p seq Hi). change (content_out <$> p :: sent) with ((content_out <$> [p]) ++ (content_out <$> sent)). by rewrite real_app.
        -- destruct sent; [|by rewrite last_type_cons]. assert (po_type p <> SSH2_MSG_NEWKEYS) as Hne by (by apply Hnk1).
           split; [|done]. change (last_type [p]) with (po_type p). rewrite (proj2 (Z.eqb_neq _ _) Hne). apply (proj1 Fs).
        -- intros Hso Hb. apply Fu; [by apply Hu|by rewrite F2].
Qed.

Lemma flushed_before kc km etm so0 so so' si0 si si' w0 w ps0 ps sent rest :
  (undelayed so0 -> undelayed so) -> b_flags so = b_flags so0 -> got si0 si w0 ps0 -> Forall is_ignore ps0 -> b_queues so = add_out (b_queues so0) w0 -> flushed kc km etm so so' si si' w ps sent rest ->
  flushed kc km etm so0 so' si0 si' (w0 ++ w) (ps0 ++ ps) sent rest.
Proof using Type.
  intros Hu Hf Hg Hi Hq [[kz Fl] Fq Fg Fr Fs Fb Fu]. eapply flushed_stop; [done| |by eapply got_trans| |done|done|].
  - rewrite Fq, Hq. unfold with_pq, add_out. cbn. by rewrite app_assoc.
  - by rewrite fmap_app, real_app, real_ignores.
  - intros Hso Hb. apply Fu; [by apply Hu|by rewrite Hf].
Qed.

Lemma transfer_output kc km etm kz so si :
  linked kc km etm kz so si -> crState (b_input si) = CrStart -> in_raw (b_queues si) = [] -> Forall sendable (out_pq (b_queues so)) ->
  newkeys_last (out_pq (b_queues so)) ->
  exists so' si' w ps sent rest, ssh2_bpp_handle_output random_read so = Some so' /\ out_pq (b_queues so) = sent ++ rest /\
    flushed kc km etm so so' si si' w ps sent rest.
Proof using Hrandom.
  intros Hl Hcr Hraw Hs Hnk. unfold ssh2_bpp_handle_output. set (n := len (filter _ _)). destruct (_ && (n =? 0)) eqn:Eb.
  { exists so, si, [], [], [], (out_pq (b_queues so)). split; [done|]. split; [done|]. apply andb_true_iff in Eb as [Eb _].
    eapply flushed_stop; try done; [|apply got_nil|by right]. unfold with_pq, add_out. rewrite app_nil_r. by destruct (b_queues so). }
  assert (exists s1 si1 kz1 w1 ps1, (if cbc_ignore_workaround (b_flags so) then
           c ← cipher (b_out so); m ← mac (b_out so);
           if len (out_raw (b_queues so)) <? ca_blksize (c_vt c) + ma_len (m_vt m) then
             pkt ← ssh2_bpp_new_pktout SSH2_MSG_IGNORE;
             pkt ← put_stringz pkt [];
             ssh2_bpp_format_packet random_read so pkt
           else Some so
         else Some so) = Some s1 /\ linked kc km etm kz1 s1 si1 /\ crState (b_input si1) = CrStart /\ got si si1 w1 ps1 /\ Forall is_ignore ps1 /\ b_queues s1 = add_out (b_queues so) w1
      /\ b_flags s1 = b_flags so /\ (undelayed so -> undelayed s1))
    as (s1&si1&kz1&w1&ps1&E1&Hl1&Hc1&Hg1&Hi1&Q1&F1&Hu1).
  { assert (exists s1 si1 kz1 w1 ps1, Some so = Some s1 /\ linked kc km etm kz1 s1 si1 /\ crState (b_input si1) = CrStart /\ got si si1 w1 ps1 /\ Forall is_ignore ps1
       /\ b_queues s1 = add_out (b_queues so) w1 /\ b_flags s1 = b_flags so /\ (undelayed so -> undelayed s1)) as Hnone.
    { exists so, si, kz, [], []. split_and!; try done; [apply got_nil|]. unfold add_out. rewrite app_nil_r. by destruct (b_queues so). }
    destruct (cbc_ignore_workaround (b_flags so)) eqn:Ew; [|done]. destruct (lk_workaround _ _ _ _ _ _ Hl Ew) as [Hc Hm].
    pose proof (ch_cipher _ _ _ _ _ (lk_channel _ _ _ _ _ _ Hl)) as Hcp. pose proof (ch_mac_out _ _ _ _ _ (lk_channel _ _ _ _ _ _ Hl)) as Hmp.
    destruct kc as [|alg L]; [done|]. destruct km as [|malg ML key]; [done|]. destruct Hcp as (x&y&->&_&_), Hmp as (z&->&_). cbn [mbind option_bind].
    case_match; [|done]. clear Hnone.
    set (p := mkPktOut SSH2_MSG_IGNORE 6 0 (replicate 5 0 ++ [SSH2_MSG_IGNORE; 0; 0; 0; 0])).
    destruct (transfer_one _ _ _ kz so si p Hl Hcr Hraw) as (so1&so2&si1&kz1&w1&ps1&seq&E&E2&Hl1&Q1&Q2&F1&F2&Hg&Hi&[Hc1 Hc2]&Hu).
    { split; [|split; [vm_compute; done|done]]. exists (replicate 5 0), [0; 0; 0; 0]. split; [done|]. split; [done|].
      split; [|split; [by left|by vm_compute]]. do 5 (apply Forall_cons; split; [split; [done|reflexivity]|]). constructor. }
    cbn in E2. injection E2 as <-. exists so1, si1, kz1, w1, (ps1 ++ [mkPktIn SSH2_MSG_IGNORE seq (payload p)]). split_and!; try done.
    - apply Forall_app. split; [done|]. by repeat constructor.
    - intros Hso. by apply Hu. }
  rewrite E1. cbn [mbind option_bind]. assert (out_pq (b_queues s1) = out_pq (b_queues so)) as Hpq by (by rewrite Q1). rewrite Hpq.
  destruct (transfer_loop kc km etm (out_pq (b_queues so)) n kz1 s1 si1) as (so'&si'&w&ps&sent&rest&E&Esplit&Hfl); try done.
  { rewrite (g_queues _ _ _ _ Hg1). exact Hraw. }
  exists so', si', (w1 ++ w), (ps1 ++ ps), sent, rest. split; [done|]. split; [done|]. by eapply flushed_before.
Qed.
End Transfer.
