(* ===== verification/Ssh2Auth.v ===== *)
(** * Nothing unauthenticated gets through

    When a MAC is in use, the packets that are accepted are cut from the bytes that arrived, one after the
    other; each piece ends with the tag, under the key in use and the sequence number of the packet, of the very text the
    packet is taken from.  Whoever cannot compute such a tag cannot make the receiver accept anything. *)

From S2P Require Import Prelude Marshal SshCrypto SshHash SshMd5 SshHmac Ssh2Bpp Ssh2Run Ssh2Channel Ssh2Open.
Open Scope Z_scope.

(** ** Memory blocks, from what a successful access says *)

Lemma fetch_inv b n m x : fetch b n m = Some x -> exists a c, blk_bytes b = a ++ x ++ c /\ len a = n /\ len x = m.
Proof.
  unfold fetch. case_match; [|done]. bsimpl. intros [= <-]. exists (take (Z.to_nat n) (blk_bytes b)), (drop (Z.to_nat m) (drop (Z.to_nat n) (blk_bytes b))).
  rewrite !take_drop. split; [done|]. unfold len in *. rewrite !length_take, length_drop. lia.
Qed.

Lemma store_inv b n x b' : store b n x = Some b' -> exists a c, blk_bytes b = a ++ c /\ len a = n /\ blk_bytes b' = a ++ x ++ drop (length x) c /\ blk_size b' = blk_size b.
Proof.
  unfold store. case_match; [|done]. bsimpl. intros [= <-]. exists (take (Z.to_nat n) (blk_bytes b)), (drop (Z.to_nat n) (blk_bytes b)).
  cbn. rewrite take_drop, drop_drop. split; [done|]. split; [unfold len in *; rewrite length_take; lia|]. split; [|done]. do 3 f_equal. unfold len. lia.
Qed.

Lemma BPP_READ_cases s n k r : BPP_READ s n k = Some r ->
  (r = (set_input s (set_cr (b_input s) CrEof), true) /\ input_eof (b_queues s) = true) \/ r = (s, false) \/
  (exists x rest, in_raw (b_queues s) = x ++ rest /\ (0 <= n -> len x = n) /\ k (set_queues s (set_in_raw (b_queues s) rest)) x = Some r).
Proof.
  unfold BPP_READ. destruct (Z.leb_spec n (len (in_raw (b_queues s)))).
  - intros Hk. right. right. exists (take (Z.to_nat n) (in_raw (b_queues s))), (drop (Z.to_nat n) (in_raw (b_queues s))). rewrite take_drop.
    split; [done|]. split; [|done]. intros. apply len_take. lia.
  - case_match; intros [= <-]; auto.
Qed.

(** The decryption of any bytes by a cipher that satisfies its laws. *)
Lemma dec_any kc c x : opener kc c -> (k_unit kc | len x) -> bytes_ok x -> opener kc (dec c x).1 /\ len (dec c x).2 = len x /\ bytes_ok (dec c x).2.
Proof.
  intros Ho Hd Hb. destruct kc as [|alg L]; cbn [opener] in *; [by subst c|]. destruct Ho as (y&->&Hg). unfold dec, ssh_cipher_decrypt. cbn [c_vt c_ctx].
  pose proof (cl_decrypt_good y x Hg Hb (unit_divide alg L _ Hd)) as Hg'. pose proof (cl_decrypt_len y x) as Hl. pose proof (cl_decrypt_ok y x Hb) as Hok. destruct (ca_decrypt alg y x) as [y' z]. cbn in *.
  split_and!; [by exists y'|by apply Hl, (unit_divide alg L)|done].
Qed.

Lemma decrypt_at_any kc c c' b b' a x e n m :
  opener kc c -> decrypt_at c b n m = Some (c', b') -> blk_bytes b = a ++ x ++ e -> n = len a -> m = len x -> (k_unit kc | len x) -> bytes_ok x ->
  exists y, blk_bytes b' = a ++ y ++ e /\ len y = len x /\ bytes_ok y /\ opener kc c' /\ dec c x = (c', y).
Proof.
  intros Ho E Eb -> -> Hd Hx. pose proof (dec_any kc c x Ho Hd Hx) as (H1&H2&H3). unfold decrypt_at, dec in *. destruct c as [c|].
  - rewrite (fetch_at b a x e) in E by done. cbn [mbind option_bind] in E. destruct (ssh_cipher_decrypt c x) as [c1 y]. cbn in *.
    destruct (store b (len a) y) as [b1|] eqn:Es; [|done]. injection E as <- <-. apply store_inv in Es as (a'&r&E1&E2&E3&_).
    exists y. split_and!; try done. rewrite Eb in E1. apply app_inj_1 in E1 as [<- <-]; [|unfold len in *; lia]. rewrite E3.
    assert (length y = length x) as -> by (unfold len in *; lia). by rewrite drop_app_length.
  - injection E as <- <-. exists x. done.
Qed.

Lemma opener_unit kc c : opener kc c -> unit_of c 8 = k_unit kc.
Proof. destruct kc as [|alg L]; cbn; [by intros ->|]. by intros (y&->&_). Qed.

(** What is decrypted in two pieces is decrypted. *)
Lemma dec_compose kc c y1 y2 c1 p1 c2 p2 : opener kc c -> bytes_ok y1 -> bytes_ok y2 -> (k_unit kc | len y1) -> (k_unit kc | len y2) ->
  dec c y1 = (c1, p1) -> dec c1 y2 = (c2, p2) -> dec c (y1 ++ y2) = (c2, p1 ++ p2).
Proof.
  intros Ho Hb1 Hb2 H1 H2 E1 E2. destruct (dec c (y1 ++ y2)) as [c' p] eqn:E.
  destruct (dec_split kc c y1 y2 c' p Ho Hb1 Hb2 H1 H2 E) as (d1&q1&q2&F1&F2&->&_). congruence.
Qed.

(** ** What a packet is taken from *)

(** The payload of a text: between the five bytes of the lengths and the padding. *)
Definition padding_of (text : list Z) : Z := nth 4 text 0.
Definition payload_of (text : list Z) : list Z := take (Z.to_nat (len text - 5 - padding_of text)) (drop 5 text).

(** [p] is the packet in [text]: its payload, decompressed if there is a decompressor and it does not refuse, is the type and the data. *)
Definition carries (z : option ssh_decompressor) (n : Z) (text : list Z) (p : PktIn) (z' : option ssh_decompressor) : Prop :=
  4 <= padding_of text <= len text - 5 /\ pi_sequence p = n /\
  exists content,
    match z with
    | None => content = payload_of text /\ z' = None
    | Some d => exists d' r, ssh_decompressor_decompress d (payload_of text) = Some (d', r) /\ content = default (payload_of text) r /\ z' = Some d'
    end /\
    match content with [] => pi_type p = SSH_MSG_NO_TYPE_CODE /\ pi_data p = [] | t :: rest => pi_type p = t /\ pi_data p = rest end.

(** Packets of other types are answered with SSH_MSG_UNIMPLEMENTED, and dropped. *)
Definition implemented (t : Z) : bool :=
  if t <? 256 then match valid_bitmap !! Z.to_nat (t >> 5)%word with Some w => Z.testbit w (t .& 31)%word | None => false end else true.
Definition queued (p : PktIn) : list PktIn := if implemented (pi_type p) then [p] else [].

Lemma check_unimplemented_any s p s' u : ssh2_bpp_check_unimplemented s p = Some (s', u) ->
  u = negb (implemented (pi_type p)) /\ in_pq (b_queues s') = in_pq (b_queues s) /\ in_raw (b_queues s') = in_raw (b_queues s)
  /\ b_in s' = b_in s /\ in_decomp s' = in_decomp s /\ b_input s' = b_input s.
Proof.
  unfold ssh2_bpp_check_unimplemented, implemented. case_match; [|by intros [= <- <-]]. destruct (valid_bitmap !! _) as [w|]; [|done]. cbn [mbind option_bind].
  destruct (Z.testbit w _) eqn:E; cbn [negb]; [by intros [= <- <-]|]. destruct (ssh2_bpp_new_pktout _) as [q|]; [|done]. cbn [mbind option_bind].
  destruct (put_uint32 q _) as [q'|]; [|done]. cbn [mbind option_bind]. by intros [= <- <-].
Qed.

(** What the type of a packet does to the direction. *)
Lemma handle_type_any s t s' go : handle_type s t = Some (s', go) ->
  in_pq (b_queues s') = in_pq (b_queues s) /\ in_raw (b_queues s') = in_raw (b_queues s)
  /\ sequence (b_in s') = sequence (b_in s) /\ cipher (b_in s') = cipher (b_in s) /\ mac (b_in s') = mac (b_in s) /\ etm_mode (b_in s') = etm_mode (b_in s)
  /\ (t <> SSH2_MSG_USERAUTH_SUCCESS -> in_decomp s' = in_decomp s) /\ (go = true -> crState (b_input s') = CrStart).
Proof.
  unfold handle_type. intros H. case_match; [by simplify_eq|]. case_match; [by simplify_eq|]. apply bind_Some in H as (s1&E&H).
  match type of E with _ = Some s1 => set (S := set_flags _ _) in E at 1 end.
  assert (in_pq (b_queues s1) = in_pq (b_queues s) /\ in_raw (b_queues s1) = in_raw (b_queues s)
    /\ sequence (b_in s1) = sequence (b_in s) /\ cipher (b_in s1) = cipher (b_in s) /\ mac (b_in s1) = mac (b_in s) /\ etm_mode (b_in s1) = etm_mode (b_in s)
    /\ (t <> SSH2_MSG_USERAUTH_SUCCESS -> in_decomp s1 = in_decomp s)) as Hs1.
  { clear H. revert E. case_match; [|by intros [= <-]]. intros E. apply bind_Some in E as (s2&E2&E). unfold ssh2_bpp_enable_pending_compression in E2. bsimpl.
    succeeds; cbn in *; (split_and!; [done..|]); lia. }
  destruct Hs1 as (E1&E2&E3&E4&E5&E6&E7). case_match; simplify_eq; cbn; by rewrite ?E1, ?E2, ?E3, ?E4, ?E5, ?E6.
Qed.

Lemma decompress_payload_any s data a5 x junk s' data' l' : decompress_payload s data (5 + len x) = Some (s', data', l') -> blk_bytes data = a5 ++ x ++ junk -> len a5 = 5 ->
  exists content b5 junk', blk_bytes data' = b5 ++ content ++ junk' /\ len b5 = 5 /\ l' = 5 + len content /\ s' = set_in s (b_in s) (in_decomp s') /\
    match in_decomp s with
    | None => content = x /\ in_decomp s' = None
    | Some d => exists d' r, ssh_decompressor_decompress d x = Some (d', r) /\ content = default x r /\ in_decomp s' = Some d'
    end.
Proof.
  intros H Ed Ha. unfold decompress_payload in H. destruct (in_decomp s) as [z|] eqn:Ez.
  - rewrite (fetch_at data a5 x junk) in H by first [done|lia]. cbn [mbind option_bind] in H.
    destruct (ssh_decompressor_decompress z x) as [[z' r]|] eqn:E; [|done]. cbn [mbind option_bind] in H. destruct r as [new|].
    + match type of H with context [store ?D _ _] => set (D' := D) in * end. destruct (store D' 5 new) as [d2|] eqn:Es; [|done]. cbn [mbind option_bind] in H. injection H as <- <- <-.
      apply store_inv in Es as (a&c&E1&E2&E3&_). exists new, a, (drop (length new) c). split_and!; try done. by exists z', (Some new).
    + injection H as <- <- <-. exists x, a5, junk. split_and!; try done. by exists z', None.
  - injection H as <- <- <-. exists x, a5, junk. split_and!; try done. destruct s. cbn in *. by rewrite Ez.
Qed.

(** Whatever packet is in memory: it is refused, or it is dealt with. *)
Lemma finish_any s s' go text junk : finish_packet s = Some (s', go) ->
  blk_bytes (r_data (b_input s)) = text ++ junk -> len text = packetlen (b_input s) -> packetlen (b_input s) = r_len (b_input s) + 4 ->
  (in_pq (b_queues s') = in_pq (b_queues s) /\ go = false) \/
  exists p z', carries (in_decomp s) (sequence (b_in s)) text p z' /\ in_pq (b_queues s') = in_pq (b_queues s) ++ queued p /\ in_raw (b_queues s') = in_raw (b_queues s)
    /\ sequence (b_in s') = u64 (sequence (b_in s) + 1) /\ cipher (b_in s') = cipher (b_in s) /\ mac (b_in s') = mac (b_in s) /\ etm_mode (b_in s') = etm_mode (b_in s)
    /\ (pi_type p <> SSH2_MSG_USERAUTH_SUCCESS -> in_decomp s' = z') /\ (go = true -> crState (b_input s') = CrStart).
Proof.
  intros H Ed Hl Hp. unfold finish_packet in H. destruct (fetch _ 4 1) as [x|] eqn:Ef; [|done]. cbn [mbind option_bind] in H.
  destruct x as [|pad x]; [done|]. cbn [head mbind option_bind] in H. apply fetch_inv in Ef as (a4&c&E1&Ha4&Hx).
  assert (x = []) as -> by (apply len_nil_inv; rewrite len_cons in Hx; lia).
  destruct ((pad <? 4) || (r_len (b_input s) - pad <? 1)) eqn:Ec; [injection H as <- <-; by left|]. bsimpl.
  assert (0 <= packetlen (b_input s) - pad) as Hge by lia. rewrite (proj2 (Z.leb_le _ _) Hge) in H. right.
  assert (exists rest, text = a4 ++ [pad] ++ rest) as [rest Et].
  { rewrite Ed in E1. destruct (split_at 5 text) as (t5&t'&->&Ht5); [lia|]. exists t'. rewrite <- app_assoc in E1. rewrite (app_assoc a4) in E1.
    apply app_inj_1 in E1 as [-> _]; [by rewrite <- app_assoc|]. pose proof (len_app a4 [pad]) as E. change (len [pad]) with 1 in E. unfold len in *. lia. }
  assert (padding_of text = pad) as Epad.
  { unfold padding_of. rewrite Et, app_nth2; [|unfold len in Ha4; lia]. replace (4 - length a4)%nat with 0%nat by (unfold len in Ha4; lia). done. }
  assert (len rest = len text - 5) as Hrest by (rewrite Et, !len_app; change (len [pad]) with 1; lia).
  assert (payload_of text = take (Z.to_nat (len text - 5 - pad)) rest) as Epay.
  { unfold payload_of. rewrite Epad. f_equal. rewrite Et, app_assoc. apply drop_app_length'. rewrite length_app. unfold len in Ha4. cbn. lia. }
  assert (exists n, n = Z.to_nat (len text - 5 - pad)) as [n En] by eauto. rewrite <- En in Epay.
  set (pay := take n rest) in *. assert (len pay = len text - 5 - pad) as Hpay by (unfold pay; rewrite En; apply len_take; lia).
  match type of H with context [decompress_payload ?S0 _ _] => set (S := S0) in * end.
  destruct (decompress_payload S _ _) as [[[s1 data'] l']|] eqn:Edp; [|done]. cbn [mbind option_bind] in H.
  replace (packetlen (b_input s) - pad) with (5 + len pay) in Edp by lia.
  apply (decompress_payload_any S _ (a4 ++ [pad]) pay (drop n rest ++ junk)) in Edp as (content&b5&junk'&Ed'&Hb5&->&Es1&Hz);
    [|rewrite Ed, Et, <- !app_assoc; do 2 f_equal; rewrite (app_assoc pay); f_equal; symmetry; apply take_drop|rewrite len_app; change (len [pad]) with 1; lia].
  change (in_decomp S) with (in_decomp s) in Hz.
  destruct (if 5 + len content <=? 5 then _ else _) as [[t data]|] eqn:Etp; [|done]. cbn [mbind option_bind] in H.
  change (sequence (b_in (set_stats s _ _))) with (sequence (b_in s)) in H. set (p := mkPktIn t (sequence (b_in s)) data) in *.
  assert (carries (in_decomp s) (sequence (b_in s)) text p (in_decomp s1)) as Hcarry.
  { split; [rewrite Epad; lia|]. split; [done|]. exists content. split.
    - rewrite Epay. exact Hz.
    - destruct content as [|t0 content]; [cbn in Etp; injection Etp as <- <-; done|]. rewrite len_cons in Etp. pose proof (len_nonneg content). rewrite (proj2 (Z.leb_gt _ 5)) in Etp by lia.
      rewrite (fetch_at data' b5 [t0] (content ++ junk') 5 1) in Etp by done. cbn [mbind option_bind head] in Etp.
      rewrite (fetch_at data' (b5 ++ [t0]) content junk' 6) in Etp by first [rewrite Ed'; by rewrite <- app_assoc|rewrite len_app; change (len [t0]) with 1; lia|lia].
      by injection Etp as <- <-. }
  destruct (ssh2_bpp_check_unimplemented s1 p) as [[s2 u]|] eqn:Eu; [|done]. cbn [mbind option_bind] in H.
  apply check_unimplemented_any in Eu as (->&Eq&Er&Ei&Ez&_). exists p, (in_decomp s1). unfold queued.
  assert (in_pq (b_queues s1) = in_pq (b_queues s) /\ in_raw (b_queues s1) = in_raw (b_queues s) /\ b_in s1 = next_sequence (b_in s)) as (Eq1&Er1&Ei1) by (by rewrite Es1).
  destruct (implemented (pi_type p)); cbn [negb] in H.
  - apply handle_type_any in H as (F1&F2&F3&F4&F5&F6&F7&F8). cbn in F1, F2, F3, F4, F5, F6, F7. rewrite Eq, Er, Ei, Ei1, Eq1, Er1, Ez in *. split_and!; try done.
  - injection H as <- <-. cbn. rewrite app_nil_r, Eq, Er, Ei, Ei1, Eq1, Er1, Ez. done.
Qed.

Section Auth.
Context (kc : cipher_kind) (malg : ssh2_macalg) (L : MacLaws malg) (key : list Z) (etm : bool).
Let km := TheMac malg L key.

(** The bytes [wire] are a packet with the text [text] and the sequence number [n], for a receiver whose cipher is [c] before and [c'] after it.  The text is
    as long as its length field says, and the last bytes are the tag of the text; with encrypt-then-MAC, of its encryption (and the length field is left as it was sent). *)
Definition sealed (c : option ssh_cipher) (n : Z) (wire text : list Z) (c' : option ssh_cipher) : Prop :=
  if etm then exists l' l c1 y body, wire = l' ++ y ++ tag km n (l' ++ y) /\ len l' = 4 /\ dec_length c l' n = (c1, l) /\ read_length l = len y
    /\ dec c1 y = (c', body) /\ len body = len y /\ text = l' ++ body
  else exists y, wire = y ++ tag km n text /\ dec c y = (c', text) /\ len y = len text /\ read_length (take 4 text) = len text - 4.

(** What a receiver may accept: packets that are cut from the stream one after the other, each with the next sequence number; after the last of them the stream
    goes on with anything.  [c] and [z] are the cipher and the decompressor before the first; a packet SSH_MSG_USERAUTH_SUCCESS can start a decompressor. *)
Inductive accepts : option ssh_cipher -> option ssh_decompressor -> Z -> list Z -> list PktIn -> Prop :=
| accepts_nothing c z n stream : accepts c z n stream []
| accepts_packet c z n wire text c' p z' z'' rest ps :
    sealed c n wire text c' -> carries z n text p z' -> (pi_type p <> SSH2_MSG_USERAUTH_SUCCESS -> z'' = z') ->
    accepts c' z'' (u64 (n + 1)) rest ps -> accepts c z n (wire ++ rest) (queued p ++ ps).

(** The bytes that have arrived since the last packet, and the state then. *)
Context (stream : list Z) (Hstream : bytes_ok stream) (seq : Z) (accepted : list PktIn) (c0 : option ssh_cipher) (z0 : option ssh_decompressor) (Hc0 : opener kc c0).

(** Where the coroutine is in the packet. *)
Definition position (s : ssh2_bpp_state) : Prop :=
  let i := b_input s in let raw := in_raw (b_queues s) in let c := cipher (b_in s) in
  match crState i with
  | CrStart | CrNewkeys => c = c0 /\ stream = raw
  | CrCbcMac => maclen i = ma_len malg /\ cipherblk i = k_unit kc /\ etm = false /\ c = c0 /\ stream = raw
  | CrCbcBlock => maclen i = ma_len malg /\ cipherblk i = k_unit kc /\ etm = false /\
      exists x y pa w junk, blk_bytes (buf i) = pa ++ w ++ junk /\ len pa = packetlen i /\ len w = ma_len malg /\ stream = y ++ w ++ raw
        /\ dec c0 y = (c, pa) /\ len y = len pa /\ (k_unit kc | len y) /\ mac (b_in s) = Some (mkMac malg x) /\ ml_fed x key (mac_input seq pa)
  | CrEtmLen => maclen i = ma_len malg /\ cipherblk i = k_unit kc /\ etm = true /\ c = c0 /\ stream = raw
  | CrEtmRest => maclen i = ma_len malg /\ packetlen i = r_len i + 4 /\ 0 <= r_len i /\ (k_unit kc | r_len i) /\ etm = true /\
      exists l' l, blk_bytes (r_data i) = l' /\ len l' = 4 /\ bytes_ok l' /\ stream = l' ++ raw /\ dec_length c0 l' seq = (c, l) /\ read_length l = r_len i
  | CrStdFirst => maclen i = ma_len malg /\ cipherblk i = k_unit kc /\ etm = false /\ c = c0 /\ stream = raw
  | CrStdRest => maclen i = ma_len malg /\ cipherblk i = k_unit kc /\ packetlen i = r_len i + 4 /\ (k_unit kc | packetlen i) /\ 0 < packetlen i /\ etm = false /\
      exists y1 p1, blk_bytes (r_data i) = p1 /\ len p1 = k_unit kc /\ bytes_ok p1 /\ stream = y1 ++ raw /\ len y1 = k_unit kc /\ dec c0 y1 = (c, p1)
        /\ read_length (take 4 p1) = r_len i
  | CrEof => True
  end.

(** Between two steps, in the middle of a packet. *)
Record unaccepted (s : ssh2_bpp_state) : Prop := {
  un_pq : in_pq (b_queues s) = accepted;
  un_sequence : sequence (b_in s) = seq;
  un_mac : mac_is km (mac (b_in s));
  un_cipher : opener kc (cipher (b_in s));
  un_etm : etm_mode (b_in s) = etm;
  un_decomp : in_decomp s = z0;
  un_stream : exists before, stream = before ++ in_raw (b_queues s);
  un_position : position s
}.

(** A packet was taken from the stream, and the next one may begin. *)
Definition took (s : ssh2_bpp_state) (go : bool) : Prop :=
  exists wire text c' p z' z'', stream = wire ++ in_raw (b_queues s) /\ sealed c0 seq wire text c' /\ carries z0 seq text p z'
    /\ (pi_type p <> SSH2_MSG_USERAUTH_SUCCESS -> z'' = z') /\ in_pq (b_queues s) = accepted ++ queued p /\ cipher (b_in s) = c' /\ in_decomp s = z''
    /\ sequence (b_in s) = u64 (seq + 1) /\ mac_is km (mac (b_in s)) /\ opener kc c' /\ etm_mode (b_in s) = etm /\ (go = true -> crState (b_input s) = CrStart).

(** What may come of a step. *)
Definition step_safe (r : option (ssh2_bpp_state * bool)) : Prop :=
  match r with None => True | Some (s, go) => took s go \/ (in_pq (b_queues s) = accepted /\ (go = true -> unaccepted s)) end.

(** The end of a packet whose tag was right. *)
Lemma finish_took t s' go text junk wire : finish_packet t = Some (s', go) ->
  blk_bytes (r_data (b_input t)) = text ++ junk -> len text = packetlen (b_input t) -> packetlen (b_input t) = r_len (b_input t) + 4 ->
  in_pq (b_queues t) = accepted -> in_decomp t = z0 -> sequence (b_in t) = seq -> mac_is km (mac (b_in t)) -> opener kc (cipher (b_in t)) -> etm_mode (b_in t) = etm ->
  stream = wire ++ in_raw (b_queues t) -> sealed c0 seq wire text (cipher (b_in t)) -> step_safe (Some (s', go)).
Proof using Type.
  intros Hf Ed Hl Hp Hq Hz Hn Hm Hc He Hs Hsealed. destruct (finish_any t s' go text junk Hf Ed Hl Hp) as [[E ->]|(p&z'&Hcar&Eq&Er&Es&Ec&Em&Ee&Hz'&Hgo)].
  - right. split; [congruence|done].
  - left. exists wire, text, (cipher (b_in t)), p, z', (in_decomp s'). rewrite Er, Es, Ec, Em, Ee, Eq, Hn, Hq. rewrite Hz, Hn in Hcar. split_and!; try done.
Qed.

Lemma check_mac_any t t' ok data blk cand junk :
  check_mac t data = Some (t', ok) -> mac_is km (mac (b_in t)) -> blk_bytes data = blk ++ cand ++ junk -> len blk = r_len (b_input t) + 4 ->
  maclen (b_input t) = ma_len malg -> len cand = ma_len malg -> bytes_ok blk -> bytes_ok cand ->
  exists x, ok = bool_decide (tag km (sequence (b_in t)) blk = cand) /\ t' = set_in t (set_crypto (b_in t) (cipher (b_in t)) (Some (mkMac malg x))) (in_decomp t) /\ ml_keyed x key.
Proof using Type.
  intros E (x&Em&Hk) Eb Hl Hm Hc Hb1 Hb2. unfold check_mac in E. rewrite Em in E.
  rewrite (fetch_at data [] blk (cand ++ junk) 0) in E by done. cbn [mbind option_bind] in E.
  rewrite (fetch_at data blk cand junk) in E by (done || lia). cbn [mbind option_bind] in E.
  destruct (mac_verify_spec (mkMac malg x) key blk cand (sequence (b_in t)) Hk Hb1 Hb2 Hc) as (x'&Ev&Hk'). rewrite Ev in E. cbn [mbind option_bind] in E.
  injection E as <- <-. exists x'. done.
Qed.

Lemma arrived_ok before raw x rest : stream = before ++ raw -> raw = x ++ rest -> bytes_ok x.
Proof using Hstream. intros -> ->. apply Forall_app in Hstream as [_ Hb]. by apply Forall_app in Hb as [? _]. Qed.

(** Reads that find the end of the input, or too little of it. *)
Ltac not_read before :=
  match goal with E : BPP_READ _ _ _ = Some _ |- _ => apply BPP_READ_cases in E as [[-> _]|[-> |(x&rest&Ex&Hx&E)]] end;
  [right; split; [done|]; intros _; constructor; try done; by exists before|right; split; [done|]; done|].

(** The end of the standard protocol and of encrypt-then-MAC. *)
Lemma std_rest_safe s : unaccepted s -> crState (b_input s) = CrStdRest -> step_safe (step_std_rest s).
Proof using Hstream Hc0.
  intros [Upq Useq Um Uc Ue Uz [before Us] Upos] Hcr. unfold position in Upos. rewrite Hcr in Upos. destruct Upos as (Hml&Hcb&Hpl&Hdiv&Hpos&Hetm&y1&p1&Ed1&Hp1&Hbp1&Es&Hy1&D1&Hrl).
  pose proof (k_unit_bounds kc) as Hu. pose proof (ml_len (alg := malg)) as Hm0. assert (k_unit kc <= packetlen (b_input s)) as Hle by (by apply divide_le).
  unfold step_std_rest. destruct (BPP_READ _ _ _) as [r|] eqn:E; [|done]. not_read before.
  specialize (Hx ltac:(lia)). cbn [b_input set_queues] in E.
  destruct (store _ _ x) as [b1|] eqn:Est; [|done]. cbn [mbind option_bind] in E. apply store_inv in Est as (a&c&E1&E2&E3&_). rewrite Ed1 in E1.
  assert (c = []) as -> by (apply len_nil_inv; apply (f_equal len) in E1; rewrite len_app in E1; lia). rewrite app_nil_r in E1. subst a. rewrite drop_nil, app_nil_r in E3.
  destruct (split_at (packetlen (b_input s) - cipherblk (b_input s)) x) as (x1&x2&->&Hx1); [lia|]. rewrite len_app in Hx.
  pose proof (arrived_ok _ _ _ _ Us Ex) as Hbx. apply Forall_app in Hbx as [Hb1 Hb2].
  destruct (decrypt_at _ b1 _ _) as [[c' b2]|] eqn:Ed; [|done]. cbn [mbind option_bind] in E.
  assert (k_unit kc | len x1) as Hdx by (rewrite Hx1, Hcb; apply Z.divide_sub_r; [done|apply Z.divide_refl]).
  eapply (decrypt_at_any kc) in Ed as (y&E4&Hy&Hby&Huc&D2); [|exact Uc|exact E3|lia|by rewrite Hx1|done|done].
  match type of E with context [check_mac ?T ?D] => destruct (check_mac T D) as [[t' ok]|] eqn:Em end; [|done]. cbn [mbind option_bind] in E.
  eapply (check_mac_any _ _ _ _ (p1 ++ y) x2 []) in Em as (m'&->&->&Hk'); [|exact Um|by rewrite E4, app_nil_r, <- app_assoc|cbn; rewrite len_app; lia|done|lia|by apply Forall_app|done].
  destruct r as [s' go]. case_bool_decide as Htag; cbn [negb] in E; [|injection E as <- <-; by right].
  assert (dec c0 (y1 ++ x1) = (c', p1 ++ y)) as D.
  { eapply (dec_compose kc); try done; [|rewrite Hy1; apply Z.divide_refl]. rewrite Es in Hstream. by apply Forall_app in Hstream as [? _]. }
  eapply (finish_took _ _ _ (p1 ++ y) x2 ((y1 ++ x1) ++ x2)); [exact E|..]; cbn; try done.
  - by rewrite E4, <- app_assoc.
  - rewrite len_app. lia.
  - exists m'. done.
  - by rewrite Es, Ex, <- !app_assoc.
  - unfold sealed. rewrite Hetm. exists (y1 ++ x1). cbn in Htag. rewrite Useq in Htag. split; [cbn; by rewrite Htag|]. split; [done|]. split; [rewrite !len_app; lia|].
    rewrite take_app_le by (unfold len in Hp1; lia). rewrite Hrl, len_app. lia.
Qed.

Lemma etm_rest_safe s : unaccepted s -> crState (b_input s) = CrEtmRest -> step_safe (step_etm_rest s).
Proof using Hstream Hc0.
  intros [Upq Useq Um Uc Ue Uz [before Us] Upos] Hcr. unfold position in Upos. rewrite Hcr in Upos. destruct Upos as (Hml&Hpl&Hr0&Hdiv&Hetm&l'&l&El&Hl4&Hbl&Es&D1&Hrl).
  pose proof (ml_len (alg := malg)) as Hm0.
  unfold step_etm_rest. destruct (BPP_READ _ _ _) as [r|] eqn:E; [|done]. not_read before.
  specialize (Hx ltac:(lia)). cbn [b_input set_queues] in E.
  destruct (store _ _ x) as [b1|] eqn:Est; [|done]. cbn [mbind option_bind] in E. apply store_inv in Est as (a&c&E1&E2&E3&_). rewrite El in E1.
  assert (c = []) as -> by (apply len_nil_inv; apply (f_equal len) in E1; rewrite len_app in E1; lia). rewrite app_nil_r in E1. subst a. rewrite drop_nil, app_nil_r in E3.
  destruct (split_at (r_len (b_input s)) x) as (x1&x2&->&Hx1); [lia|]. rewrite len_app in Hx.
  pose proof (arrived_ok _ _ _ _ Us Ex) as Hbx. apply Forall_app in Hbx as [Hb1 Hb2].
  match type of E with context [check_mac ?T ?D] => destruct (check_mac T D) as [[t' ok]|] eqn:Em end; [|done]. cbn [mbind option_bind] in E.
  eapply (check_mac_any _ _ _ _ (l' ++ x1) x2 []) in Em as (m'&->&->&Hk'); [|exact Um|by rewrite E3, app_nil_r, <- app_assoc|cbn; rewrite len_app; lia|done|lia|by apply Forall_app|done].
  destruct r as [s' go]. case_bool_decide as Htag; cbn [negb] in E; [|injection E as <- <-; by right].
  destruct (decrypt_at _ b1 _ _) as [[c' b2]|] eqn:Ed; [|done]. cbn [mbind option_bind] in E.
  eapply (decrypt_at_any kc _ _ _ _ l' x1 x2) in Ed as (y&E4&Hy&Hby&Huc&D2); [|exact Uc|exact E3|lia|cbn; lia|by rewrite Hx1|done].
  eapply (finish_took _ _ _ (l' ++ y) x2 (l' ++ x1 ++ x2)); [exact E|..]; cbn; try done.
  - by rewrite E4, <- app_assoc.
  - rewrite len_app. lia.
  - exists m'. done.
  - by rewrite Es, Ex, <- !app_assoc.
  - unfold sealed. rewrite Hetm. cbn in Htag. rewrite Useq in Htag. exists l', l, (cipher (b_in s)), x1, y. split_and!; try done; [cbn; by rewrite Htag|lia].
Qed.

Lemma etm_len_safe s : unaccepted s -> crState (b_input s) = CrEtmLen -> step_safe (step_etm_len s).
Proof using Hstream Hc0.
  intros [Upq Useq Um Uc Ue Uz [before Us] Upos] Hcr. unfold position in Upos. rewrite Hcr in Upos. destruct Upos as (Hml&Hcb&Hetm&Ec0&Es). pose proof (k_unit_bounds kc) as Hu.
  unfold step_etm_len. destruct (BPP_READ _ _ _) as [r|] eqn:E; [|done]. not_read before.
  specialize (Hx ltac:(lia)). pose proof (arrived_ok _ _ _ _ Us Ex) as Hbx.
  destruct (store (buf _) 0 x) as [b1|] eqn:Es1; [|done]. cbn [mbind option_bind] in E.
  set (S := set_queues s (set_in_raw (b_queues s) rest)) in *.
  fold (dec_length (cipher (b_in S)) x (sequence (b_in S))) in E. destruct (dec_length (cipher (b_in S)) x (sequence (b_in S))) as [c l] eqn:Ed.
  assert (opener kc c) as Hoc.
  { unfold dec_length in Ed. cbn in Ed. unfold opener in *. destruct kc as [|alg CL]; [rewrite Uc in Ed; by injection Ed as <-|].
    destruct Uc as (y&Ec&Hg). rewrite Ec in Ed. cbn in Ed. destruct (ca_separate_length alg); [|injection Ed as <- _; by exists y].
    unfold ssh_cipher_decrypt_length in Ed. cbn in Ed. pose proof (cl_length_good y x (sequence (b_in s)) Hg). destruct (ca_decrypt_length alg y x _) as [y' l']. injection Ed as <- _. by exists y'. }
  destruct r as [s' go]. revert E. case_match; [intros [= <- <-]; by right|].
  destruct (store (mkBlock _ []) 0 x) as [d|] eqn:Es2; [|done]. cbn [mbind option_bind]. intros [= <- <-]. right. split; [done|]. intros _.
  bsimpl. apply store_inv in Es2 as (a&r&E1&E2&E3&_). symmetry in E1. apply app_eq_nil in E1 as [-> ->]. rewrite drop_nil, app_nil_r in E3. cbn in E3.
  constructor; try done; [exists (before ++ x); cbn; by rewrite Us, Ex, <- app_assoc|]. unfold position. cbn in *.
  match goal with H : Z.rem _ _ = 0 |- _ => rewrite Z.rem_mod_nonneg in H by lia; apply Z.mod_divide in H; [|lia] end.
  split_and!; try done; [by rewrite <- Hcb|]. exists x, l. split_and!; try done; [by rewrite Es|]. by rewrite <- Ec0, <- Useq.
Qed.

Lemma std_first_safe s : unaccepted s -> crState (b_input s) = CrStdFirst -> step_safe (step_std_first s).
Proof using Hstream Hc0.
  intros [Upq Useq Um Uc Ue Uz [before Us] Upos] Hcr. unfold position in Upos. rewrite Hcr in Upos. destruct Upos as (Hml&Hcb&Hetm&Ec0&Es). pose proof (k_unit_bounds kc) as Hu.
  unfold step_std_first. destruct (BPP_READ _ _ _) as [r|] eqn:E; [|done]. not_read before.
  specialize (Hx ltac:(lia)). pose proof (arrived_ok _ _ _ _ Us Ex) as Hbx. set (S := set_queues s (set_in_raw (b_queues s) rest)) in *.
  destruct (store (buf (b_input S)) 0 x) as [b1|] eqn:Es1; [|done]. cbn [mbind option_bind] in E. apply store_inv in Es1 as (a&r0&_&E2&E3&_).
  destruct a; [|done]. cbn [app] in E3.
  destruct (decrypt_at _ b1 0 _) as [[c' b2]|] eqn:Ed; [|done]. cbn [mbind option_bind] in E.
  eapply (decrypt_at_any kc _ _ _ _ [] x) in Ed as (y&E4&Hy&Hby&Huc&D); [|exact Uc|exact E3|done|by rewrite Hx|rewrite Hx, Hcb; apply Z.divide_refl|done]. cbn [app] in E4.
  destruct (split_at 4 y) as (l&y'&Ey&Hl4); [lia|].
  rewrite (fetch_at b2 [] l (y' ++ drop (length x) r0) 0 4) in E by first [done|lia|cbn; rewrite E4, Ey; by rewrite <- app_assoc]. cbn [mbind option_bind] in E.
  destruct r as [s' go]. revert E. case_match; [intros [= <- <-]; by right|].
  rewrite (fetch_at b2 [] y (drop (length x) r0)) by first [done|cbn; lia]. cbn [mbind option_bind].
  destruct (store (mkBlock _ []) 0 y) as [d|] eqn:Es2; [|done]. cbn [mbind option_bind]. intros [= <- <-]. right. split; [done|]. intros _.
  bsimpl. apply store_inv in Es2 as (a&r&E1&E2'&E3'&_). symmetry in E1. apply app_eq_nil in E1 as [-> ->]. rewrite drop_nil, app_nil_r in E3'. cbn in E3'.
  constructor; try done; [exists (before ++ x); cbn; by rewrite Us, Ex, <- app_assoc|]. unfold position. cbn in *.
  match goal with H : Z.rem _ _ = 0 |- _ => rewrite Z.rem_mod_nonneg in H by lia; apply Z.mod_divide in H; [|lia] end.
  split_and!; try done; [by rewrite <- Hcb|lia|]. exists x, y. split_and!; try done; [lia|by rewrite Es|lia|by rewrite <- Ec0|].
  rewrite Ey, take_app_length' by (unfold len in Hl4; lia). done.
Qed.

Lemma cbc_mac_safe s : unaccepted s -> crState (b_input s) = CrCbcMac -> step_safe (step_cbc_mac s).
Proof using Hstream Hc0.
  intros [Upq Useq Um Uc Ue Uz [before Us] Upos] Hcr. unfold position in Upos. rewrite Hcr in Upos. destruct Upos as (Hml&Hcb&Hetm&Ec0&Es). pose proof (ml_len (alg := malg)) as Hm0.
  unfold step_cbc_mac. destruct (BPP_READ _ _ _) as [r|] eqn:E; [|done]. not_read before.
  specialize (Hx ltac:(lia)). destruct (store _ 0 x) as [b1|] eqn:Est; [|done]. cbn [mbind option_bind] in E. apply store_inv in Est as (a&r0&_&E2&E3&_).
  destruct a; [|done]. cbn [app] in E3. destruct Um as (mx&Em&Hk). change (mac (b_in (set_queues s (set_in_raw (b_queues s) rest)))) with (mac (b_in s)) in E. rewrite Em in E.
  destruct (ml_write _ key [] _ (ml_start _ _ Hk) (proj1 (put_32_ok (u32 (sequence (b_in s)))))) as (x1&Ewr&Hfed).
  cbn [mbind option_bind] in E. unfold put_uint32, ssh2_mac_start in E. cbn [bs_write mac_sink m_vt m_ctx mbind option_bind] in E.
  change (sequence (b_in (set_queues s (set_in_raw (b_queues s) rest)))) with (sequence (b_in s)) in E. rewrite Ewr in E. cbn [mbind option_bind] in E.
  destruct r as [s' go]. injection E as <- <-. rewrite <- (app_nil_r ([] ++ _)), Useq in Hfed. change (([] ++ PUT_32BIT_MSB_FIRST (u32 seq)) ++ []) with (mac_input seq []) in Hfed.
  right. split; [done|]. intros _. constructor; try done.
  - eexists. split; [done|]. by eapply ml_fed_keyed.
  - exists (before ++ x). cbn. by rewrite Us, Ex, <- app_assoc.
  - unfold position. cbn. split_and!; try done. eexists _, [], [], x, (drop (length x) r0). cbn. split_and!; try done; [congruence|by rewrite Es, Ex|rewrite Ec0; by apply (dec_nil kc)|apply Z.divide_0_r].
Qed.

Lemma cbc_block_safe s : unaccepted s -> crState (b_input s) = CrCbcBlock -> step_safe (step_cbc_block s).
Proof using Hstream Hc0.
  intros [Upq Useq Um Uc Ue Uz [before Us] Upos] Hcr. unfold position in Upos. rewrite Hcr in Upos.
  destruct Upos as (Hml&Hcb&Hetm&mx&y0&pa&w&junk&Eb&Hpa&Hw&Es&D0&Hy0&Hdiv&Em&Hfed). pose proof (ml_len (alg := malg)) as Hm0. pose proof (k_unit_bounds kc) as Hu.
  unfold step_cbc_block. destruct (BPP_READ _ _ _) as [r|] eqn:E; [|done]. not_read before.
  specialize (Hx ltac:(lia)). set (S := set_queues s (set_in_raw (b_queues s) rest)) in *.
  assert (bytes_ok y0 /\ bytes_ok (w ++ x)) as [Hby0 Hbwx] by (pose proof Hstream as Hb; rewrite Es, Ex, !Forall_app in Hb; destruct Hb as (?&?&?&_); split; [done|by apply Forall_app]).
  destruct (store (buf (b_input S)) _ x) as [b1|] eqn:Est; [|done]. cbn [mbind option_bind] in E. apply store_inv in Est as (a&c&E1&E2&E3&_).
  change (buf (b_input S)) with (buf (b_input s)) in E1. rewrite Eb, app_assoc in E1. cbn in E2. apply app_inj_1 in E1 as [<- <-]; [|pose proof (len_app pa w); unfold len in *; lia].
  destruct (split_at (k_unit kc) (w ++ x)) as (y1&w'&Ewx&Hy1); [rewrite len_app; pose proof (len_nonneg w); lia|].
  assert (len w' = len w) as Hw' by (apply (f_equal len) in Ewx; rewrite !len_app in Ewx; lia).
  rewrite Ewx in Hbwx. apply Forall_app in Hbwx as [Hby1 Hbw'].
  assert (blk_bytes b1 = pa ++ y1 ++ w' ++ drop (length x) junk) as E4 by (rewrite E3, <- app_assoc, (app_assoc w), Ewx; by rewrite <- app_assoc).
  destruct (decrypt_at _ b1 _ _) as [[c' b2]|] eqn:Ed; [|done]. cbn [mbind option_bind] in E.
  eapply (decrypt_at_any kc _ _ _ _ pa y1) in Ed as (p1&E5&Hp1&Hbp1&Huc&D1); [|exact Uc|exact E4|done|cbn; lia|rewrite Hy1; apply Z.divide_refl|done].
  change (cipher (b_in S)) with (cipher (b_in s)) in D1.
  assert (dec c0 (y0 ++ y1) = (c', pa ++ p1)) as D by (eapply (dec_compose kc); try done; rewrite Hy1; apply Z.divide_refl).
  rewrite (fetch_at b2 pa p1 (w' ++ drop (length x) junk) (packetlen (b_input S)) (cipherblk (b_input S))) in E by first [done|cbn; lia]. cbn [mbind option_bind] in E.
  change (mac (b_in S)) with (mac (b_in s)) in E. rewrite Em in E. unfold put_data in E. cbn [mbind option_bind bs_write mac_sink m_vt m_ctx] in E.
  assert (exists mx1, ma_write malg mx p1 = Some mx1 /\ ml_fed mx1 key (mac_input seq (pa ++ p1))) as (mx1&Ewr&Hfed1) by (unfold mac_input in *; rewrite app_assoc; by apply ml_write).
  rewrite Ewr in E. cbn [mbind option_bind] in E.
  rewrite (fetch_at b2 (pa ++ p1) w' (drop (length x) junk) (packetlen (b_input S) + cipherblk (b_input S))) in E
    by first [by rewrite E5, <- app_assoc|rewrite len_app; cbn; lia|cbn; lia]. cbn [mbind option_bind] in E.
  destruct (mac_verresult_spec malg key _ _ w' Hfed1 Hbw') as (x'&Ev&Hfed2); [lia|]. rewrite Ev in E. cbn [mbind option_bind] in E.
  destruct (split_at 4 (pa ++ p1)) as (l&q&El&Hl4); [rewrite len_app; pose proof (len_nonneg pa); lia|].
  rewrite (fetch_at b2 [] l (q ++ w' ++ drop (length x) junk) 0 4) in E by first [done|lia|rewrite E5, app_assoc, El; by rewrite <- app_assoc]. cbn [mbind option_bind] in E. destruct r as [s' go].
  assert (stream = (y0 ++ y1) ++ w' ++ rest) as Es' by (rewrite Es, Ex, (app_assoc w), Ewx; by rewrite <- !app_assoc).
  assert ((k_unit kc | len (y0 ++ y1)) /\ len (y0 ++ y1) = len (pa ++ p1)) as [Hdiv' Hly].
  { rewrite !len_app. split; [|lia]. apply Z.divide_add_r; [done|]. rewrite Hy1. apply Z.divide_refl. }
  revert E. case_bool_decide as Htag; cbn [andb].
  - destruct (Z.eqb_spec (read_length l) (packetlen (b_input S) + cipherblk (b_input S) - 4)) as [Hrl|].
    + rewrite (fetch_at b2 [] (pa ++ p1 ++ w') (drop (length x) junk) 0) by first [done|rewrite E5; by rewrite <- !app_assoc|rewrite !len_app; cbn; lia]. cbn [mbind option_bind].
      match goal with |- context [store ?B 0 ?X] => destruct (store B 0 X) as [d|] eqn:Es2 end; [|done]. cbn [mbind option_bind]. intros Ef.
      apply store_inv in Es2 as (a&r&F1&F2&F3&_). symmetry in F1. apply app_eq_nil in F1 as [-> ->]. rewrite drop_nil, app_nil_r in F3. cbn in F3.
      eapply (finish_took _ _ _ (pa ++ p1) w' ((y0 ++ y1) ++ w')); [exact Ef|..]; cbn; try done.
      * by rewrite F3, <- app_assoc.
      * rewrite len_app. lia.
      * cbn in Hrl. lia.
      * exists x'. split; [done|]. by eapply ml_fed_keyed.
      * by rewrite Es', <- !app_assoc.
      * unfold sealed. rewrite Hetm. exists (y0 ++ y1). split; [by rewrite <- Htag|]. split; [done|]. split; [done|].
        rewrite El, take_app_length' by (unfold len in Hl4; lia). rewrite Hrl, <- El, len_app. cbn. lia.
    + destruct (OUR_V2_PACKETLIMIT <=? _); intros [= <- <-]; right; (split; [done|]); [done|]. intros _.
      constructor; try done; [eexists; split; [done|]; by eapply ml_fed_keyed|exists (before ++ x); cbn; by rewrite Us, Ex, <- app_assoc|].
      unfold position. cbn. split_and!; try done. exists x', (y0 ++ y1), (pa ++ p1), w', (drop (length x) junk). split_and!; try done.
      * by rewrite E5, <- app_assoc.
      * rewrite len_app. cbn in *. lia.
      * lia.
  - destruct (OUR_V2_PACKETLIMIT <=? _); intros [= <- <-]; right; (split; [done|]); [done|]. intros _.
    constructor; try done; [eexists; split; [done|]; by eapply ml_fed_keyed|exists (before ++ x); cbn; by rewrite Us, Ex, <- app_assoc|].
    unfold position. cbn. split_and!; try done. exists x', (y0 ++ y1), (pa ++ p1), w', (drop (length x) junk). split_and!; try done.
    + by rewrite E5, <- app_assoc.
    + rewrite len_app. cbn in *. lia.
    + lia.
Qed.

Lemma step_is_safe s : unaccepted s -> step_safe (bpp_step s).
Proof using Hstream Hc0.
  intros Hs. pose proof Hs as [Upq Useq Um Uc Ue Uz Us Upos]. unfold bpp_step. unfold position in Upos. destruct (crState (b_input s)) eqn:Hcr.
  - unfold start_packet. pose proof (opener_unit kc _ Uc) as Eu. right. split; [by destruct (in_cbc s), (in_etm s)|]. intros _.
    destruct Um as (x&Em&Hk). destruct Upos as [Ec Es].
    assert (in_cbc s = true -> etm = false) as Hcbc.
    { unfold in_cbc. rewrite Em, Ue. destruct (cipher (b_in s)); [|done]. intros [_ H]%andb_true_iff. by apply negb_true_iff in H. }
    assert (in_etm s = etm) as He by (unfold in_etm; by rewrite Em). rewrite Em, Eu.
    destruct (in_cbc s), (in_etm s); constructor; try done; try (by exists x); unfold position; cbn; auto 10.
  - by apply cbc_mac_safe.
  - by apply cbc_block_safe.
  - by apply etm_len_safe.
  - by apply etm_rest_safe.
  - by apply std_first_safe.
  - by apply std_rest_safe.
  - case_match; right; (split; [done|]); [done|]. intros _. constructor; try done.
  - unfold step_eof. destruct (in_pq (b_queues s)) eqn:Eq; right; (split; [cbn; congruence|done]).
Qed.
End Auth.

(** A run takes packets from the stream, one after the other. *)
Lemma run_accepts kc malg (L : MacLaws malg) key etm s r : run s r -> forall s' stream seq accepted c0 z0, r = Some s' -> bytes_ok stream -> opener kc c0 ->
  unaccepted kc malg L key etm stream seq accepted c0 z0 s ->
  exists ps, accepts malg L key etm c0 z0 seq stream ps /\ in_pq (b_queues s') = accepted ++ ps.
Proof.
  induction 1 as [s E|s s1 E|s s1 r E Hr IH]; intros s' stream seq accepted c0 z0 Er Hb Hc Hs; [done| |];
    pose proof (step_is_safe kc malg L key etm stream Hb seq accepted c0 z0 Hc s Hs) as H; rewrite E in H.
  - injection Er as ->. destruct H as [(wire&text&c'&p&z'&z''&Est&Hseal&Hcar&Hz&Eq&_)|[Eq _]].
    + exists (queued p ++ []). split; [|by rewrite app_nil_r]. rewrite Est. eapply accepts_packet; try done. apply accepts_nothing.
    + exists []. split; [apply accepts_nothing|]. by rewrite app_nil_r.
  - destruct H as [(wire&text&c'&p&z'&z''&Est&Hseal&Hcar&Hz&Eq&Ec&Ez&En&Hm&Ho&He&Hgo)|[_ H]]; [|by eapply IH; [..|apply H]].
    destruct (IH s' (in_raw (b_queues s1)) (u64 (seq + 1)) (accepted ++ queued p) c' z'' Er) as (ps&Hps&Eps); [rewrite Est in Hb; by apply Forall_app in Hb as [_ ?]|done| |].
    + constructor; try done; [by rewrite Ec|by exists []|]. unfold position. by rewrite (Hgo eq_refl).
    + exists (queued p ++ ps). split; [|by rewrite Eps, app_assoc]. rewrite Est. by eapply accepts_packet.
Qed.

(** C4. Nothing is accepted without authentication: for every cipher and MAC and in each of the three modes (the MAC decides the length, encrypt-then-MAC, the standard), the packets
    that a receiver between two packets puts on its queue, all of them and in order, are cut from the bytes that arrived.  Each comes from a piece of the stream that decrypts to a text as long
    as its length field says and that ends with the tag, under the MAC key and the sequence number then expected, of that very text (with encrypt-then-MAC, of its encryption); the packet is
    the type and the data in the payload of the text, decompressed if compression is on.  This holds for all bytes an attacker can send, garbled lengths, failures and unfinished packets
    included, in one call of [receive] (new keys are installed between two). *)
Theorem accepted_only_with_tag kc malg (L : MacLaws malg) key s data s' :
  crState (b_input s) = CrStart -> in_raw (b_queues s) = [] -> b_fate s = None ->
  opener kc (cipher (b_in s)) -> mac_is (TheMac malg L key) (mac (b_in s)) -> bytes_ok data ->
  receive s data = Some s' ->
  exists ps, in_pq (b_queues s') = in_pq (b_queues s) ++ ps
    /\ accepts malg L key (etm_mode (b_in s)) (cipher (b_in s)) (in_decomp s) (sequence (b_in s)) data ps.
Proof.
  intros Hcr Hraw Hf Hc Hm Hb Hr. unfold receive in Hr.
  assert (run (add_raw s data) (Some s')) as Hrun.
  { rewrite <- Hr. assert (cr_ok (add_raw s data)) as Hok by (unfold cr_ok; cbn; by rewrite Hcr).
    pose proof (handle_input_handles _ Hok) as Hh. unfold handles in Hh. cbn in Hh. by rewrite Hf in Hh. }
  destruct (run_accepts kc malg L key (etm_mode (b_in s)) _ _ Hrun s' data (sequence (b_in s)) (in_pq (b_queues s)) (cipher (b_in s)) (in_decomp s)) as (ps&H1&H2); try done; [|by exists ps].
  constructor; try done; [exists []; cbn; by rewrite Hraw|]. unfold position. cbn. rewrite Hcr, Hraw. done.
Qed.

(** C38. The largest length that passes the check in encrypt-then-MAC mode does not fit: with the length field [OUR_V2_PACKETLIMIT] the packet, its
    length field and its MAC take four bytes more than the block that was allocated, and the bytes are stored outside it before the MAC is looked at, whatever they are
    and whatever the keys. *)
Theorem etm_limit_overflows kc km etm o s x :
  channel kc km etm o (b_in s) -> k_etm km etm = true -> k_separate kc = false -> (k_unit kc | OUR_V2_PACKETLIMIT) ->
  crState (b_input s) = CrStart -> in_raw (b_queues s) = [] -> b_fate s = None -> input_eof (b_queues s) = false ->
  OUR_V2_PACKETLIMIT + k_maclen km <= len x ->
  receive s (PUT_32BIT_MSB_FIRST OUR_V2_PACKETLIMIT ++ x) = None.
Proof.
  intros Hch He Hsep Hdiv Hcr Hraw Hf Heof Hx. set (l := PUT_32BIT_MSB_FIRST OUR_V2_PACKETLIMIT).
  assert (gets (add_raw s (l ++ x)) (eq None)) as (r&Hrun&<-).
  { pose proof (k_unit_bounds kc) as Hu. pose proof (k_maclen_bounds km) as Hml.
    eapply (open_start (add_raw s (l ++ x)) Hch); [done|]. assert (k_cbc kc km etm = false) as ->.
    { unfold k_cbc. destruct kc, km; try done. cbn in He. rewrite He. apply andb_false_r. }
    rewrite He. pose proof (grow_size (buf (b_input s)) 4) as Hgr. cbn [b_input add_raw set_queues]. revert Hgr. generalize (grow (buf (b_input s)) 4). intros b0 Hgr.
    apply run_continues. unfold add_raw, bpp_step. st. unfold step_etm_len.
    rewrite (BPP_READ_ready _ _ l x); [|cbn [set_input add_raw set_queues b_queues set_in_raw in_raw]; by rewrite Hraw|done]. st.
    rewrite (store_at b0 [] l (blk_bytes b0) 0); [st|done|done|change (len (@nil Z)) with 0; change (len l) with 4; lia].
    fold (dec_length (cipher (b_in s)) l (sequence (b_in s))).
    assert (dec_length (cipher (b_in s)) l (sequence (b_in s)) = (cipher (b_in s), l)) as ->.
    { pose proof (ch_cipher _ _ _ _ _ Hch) as Hp. unfold dec_length, cipher_pair in *. destruct kc as [|alg L]; [by destruct Hp as [_ ->]|].
      destruct Hp as (y&z&_&->&_). cbn in *. by rewrite Hsep. }
    assert (read_length l = OUR_V2_PACKETLIMIT) as -> by reflexivity.
    rewrite (proj2 (Z.ltb_ge OUR_V2_PACKETLIMIT 0)), (proj2 (Z.ltb_ge OUR_V2_PACKETLIMIT OUR_V2_PACKETLIMIT)) by (unfold OUR_V2_PACKETLIMIT; lia).
    assert (Z.rem OUR_V2_PACKETLIMIT (k_unit kc) = 0) as -> by (rewrite Z.rem_mod_nonneg by (unfold OUR_V2_PACKETLIMIT; lia); by apply Z.mod_divide; [lia|]).
    cbn [orb negb Z.eqb].
    rewrite (store_at (mkBlock (OUR_V2_PACKETLIMIT + k_maclen km) []) [] l [] 0); [st|done|done|st; change (len (@nil Z)) with 0; change (len l) with 4; unfold OUR_V2_PACKETLIMIT; lia].
    cbn [continues]. apply run_continues. unfold bpp_step. st. unfold step_etm_rest.
    destruct (split_at (OUR_V2_PACKETLIMIT + 4 + k_maclen km - 4) x) as (x1&x2&->&Hl1); [unfold OUR_V2_PACKETLIMIT in *; lia|].
    rewrite (BPP_READ_ready _ _ x1 x2); [st|done|done]. unfold store. st.
    assert (4 + len x1 <=? OUR_V2_PACKETLIMIT + k_maclen km = false) as -> by (apply Z.leb_gt; lia). by rewrite !andb_false_r. }
  unfold receive. assert (cr_ok (add_raw s (l ++ x))) as Hok by (unfold cr_ok; cbn; by rewrite Hcr).
  pose proof (handle_input_handles _ Hok) as Hh. unfold handles in Hh. cbn in Hh. rewrite Hf in Hh. by apply (run_det _ _ _ Hh).
Qed.

(** ** Examples: HMAC-MD5, without a cipher *)

Definition example_key : list Z := Z.of_nat <$> seq 1 16.
Definition example_mac : ma_ctx ssh_hmac_md5 :=
  match ma_new ssh_hmac_md5 example_key with Some m => m | None => mkHmac ssh_md5 md5_new md5_new md5_new end.
Definition example_end (etm : bool) : ssh2_bpp_state :=
  set_in (ssh2_bpp_new false no_stats) (mkDir 3 None (Some (mkMac ssh_hmac_md5 example_mac)) etm None) None.

Lemma example_mac_keyed : ml_keyed example_mac example_key.
Proof.
  destruct (ml_new (alg := ssh_hmac_md5) example_key) as (m&E&Hk); [|reflexivity|].
  - concrete_bytes.
  - unfold example_mac. by rewrite E.
Qed.

(** SSH_MSG_CHANNEL_DATA with the sequence number 3, and its tag. *)
Definition example_packet : list Z := [0; 0; 0; 12; 10; 94; 0; 0; 0; 0; 0; 0; 0; 0; 0; 0].
Definition example_data : list Z := example_packet ++ rfc_hmac ssh_md5 example_key ([0; 0; 0; 3] ++ example_packet).

Lemma accepted_only_with_tag_witness :
  exists s' ps, receive (example_end false) example_data = Some s' /\ length ps = 1%nat /\
    in_pq (b_queues s') = in_pq (b_queues (example_end false)) ++ ps /\
    accepts ssh_hmac_md5 hmac_md5_laws example_key false None None 3 example_data ps.
Proof.
  assert (match receive (example_end false) example_data with Some s' => bool_decide (length (in_pq (b_queues s')) = 1%nat) | None => false end = true) as H
    by (vm_compute; reflexivity).
  destruct (receive (example_end false) example_data) as [s'|] eqn:E; [|discriminate H]. apply bool_decide_eq_true in H.
  destruct (accepted_only_with_tag NoCipher ssh_hmac_md5 hmac_md5_laws example_key (example_end false) example_data s') as (ps&Eps&Hps);
    [reflexivity|reflexivity|reflexivity|reflexivity| | |exact E|].
  - exists example_mac. split; [reflexivity|exact example_mac_keyed].
  - unfold example_data. apply Forall_app_2; [|apply hl_ok]. unfold example_packet. concrete_bytes.
  - exists s', ps. rewrite Eps in H. split; [reflexivity|]. split; [exact H|]. split; [exact Eps|exact Hps].
Defined.

Lemma etm_limit_overflows_witness :
  receive (example_end true) (PUT_32BIT_MSB_FIRST OUR_V2_PACKETLIMIT ++ replicate (Z.to_nat (OUR_V2_PACKETLIMIT + 16)) 0) = None.
Proof.
  apply (etm_limit_overflows NoCipher (TheMac ssh_hmac_md5 hmac_md5_laws example_key) true
    (mkDir 3 None (Some (mkMac ssh_hmac_md5 example_mac)) true None) (example_end true)).
  - constructor; try done; exists example_mac; (split; [reflexivity|exact example_mac_keyed]).
  - reflexivity.
  - reflexivity.
  - by exists 4608.
  - reflexivity.
  - reflexivity.
  - reflexivity.
  - reflexivity.
  - rewrite len_replicate by done. done.
Defined.
