(* ===== verification/Ssh2Session.v ===== *)
(** * Sessions of the SSH-2 packet protocol

    A connection from its first byte: both ends start without cipher and MAC, packets are
    exchanged, and new keys are installed on both ends. *)

From S2P Require Import Prelude Marshal SshCrypto SshCompression SshHash SshHmac SshArcfour Ssh2Bpp Ssh2Run Ssh2Channel Ssh2Open Ssh2Link.
Open Scope Z_scope.

(** ** A receiver that waits for bytes *)

Lemma start_packet_more s y : start_packet (add_raw s y) = add_raw (start_packet s) y.
Proof.
  unfold start_packet. change (in_cbc (add_raw s y)) with (in_cbc s). change (in_etm (add_raw s y)) with (in_etm s). by destruct (in_cbc s), (in_etm s).
Qed.

Lemma start_delivers s : crState (b_input s) = CrStart -> delivers (start_packet s) [] s.
Proof.
  intros Hcr rest f Hr. cbn [app]. rewrite <- start_packet_more.
  assert (bpp_step (add_raw s rest) = Some (start_packet (add_raw s rest), true)) as E by (unfold bpp_step; cbn; by rewrite Hcr).
  inversion Hr; subst; rewrite E in *; by simplify_eq.
Qed.

Lemma waits s n k : in_raw (b_queues s) = [] -> input_eof (b_queues s) = false -> 0 < n -> BPP_READ s n k = Some (s, false).
Proof. intros Hr He Hn. unfold BPP_READ. rewrite Hr, He. change (len (@nil Z)) with 0. by rewrite (proj2 (Z.leb_gt n 0)). Qed.

Lemma start_stops kc km etm kz so s :
  linked kc km etm kz so s -> crState (b_input s) = CrStart -> in_raw (b_queues s) = [] -> run s (Some (start_packet s)).
Proof.
  intros Hl Hcr Hraw. apply (run_go _ (start_packet s)); [unfold bpp_step; by rewrite Hcr|]. apply run_stop.
  pose proof (ch_mac_in _ _ _ _ _ (lk_channel _ _ _ _ _ _ Hl)) as Hm. destruct (lk_alive _ _ _ _ _ _ Hl) as (_&He&_).
  pose proof (unit_of_8 (cipher (b_in s)) 8).
  assert (in_cbc s = true -> 0 < mac_len (mac (b_in s))) as Hcbc.
  { unfold in_cbc. destruct (cipher (b_in s)); [|done]. unfold mac_is in Hm. destruct km as [|alg L key]; [by rewrite Hm|].
    destruct Hm as (x&->&_). cbn. intros _. apply ml_len. }
  unfold bpp_step, start_packet. destruct (in_cbc s) eqn:E1; [|destruct (in_etm s) eqn:E2]; cbn [crState b_input set_input];
    apply waits; try done; cbn; [by apply Hcbc|lia].
Qed.

(** ** Links *)

(** The coroutine waits for [ssh2_bpp_new_incoming_crypto]. *)
Definition waits_for_keys (s : ssh2_bpp_state) : bool :=
  match crState (b_input s) with CrNewkeys => pending_newkeys (b_flags s) | _ => false end.

(** What [so] has sent has been received by [si]; with [nk], the receiver waits for new keys. *)
Record link (nk : bool) (so si : ssh2_bpp_state) : Prop := {
  ln_ends : exists kc km etm kz s0, linked kc km etm kz so s0 /\ delivers si [] s0 /\ in_raw (b_queues s0) = [] /\
    standing (if nk then SSH2_MSG_NEWKEYS else 0) s0 /\ in_pq (b_queues si) = in_pq (b_queues s0) /\ sequence (b_in si) = sequence (b_in s0)
    /\ (nk = true -> si = s0);
  ln_open : open_input si;
  ln_fate : b_fate si = None;
  ln_waits : waits_for_keys si = nk
}.

Lemma settles kc km etm kz so s (nk : bool) :
  linked kc km etm kz so s -> in_raw (b_queues s) = [] -> standing (if nk then SSH2_MSG_NEWKEYS else 0) s ->
  exists s', run s (Some s') /\ link nk so s' /\ b_queues s' = b_queues s /\ sequence (b_in s') = sequence (b_in s).
Proof.
  intros Hl Hraw [Hcr Hnk]. pose proof (lk_alive _ _ _ _ _ _ Hl) as (Hf&He&_). destruct nk; cbn in Hcr.
  - exists s. split; [|split; [|done]].
    + apply run_stop. unfold bpp_step. rewrite Hcr. by rewrite (Hnk eq_refl).
    + constructor; [|split; [unfold cr_ok; by rewrite Hcr|done]|done|unfold waits_for_keys; rewrite Hcr; by apply Hnk].
      exists kc, km, etm, kz, s. split_and!; try done. by intros rest f.
  - exists (start_packet s). split; [by eapply start_stops|].
    assert (b_queues (start_packet s) = b_queues s /\ b_in (start_packet s) = b_in s /\ b_fate (start_packet s) = b_fate s /\ waits_for_keys (start_packet s) = false) as (E1&E2&E3&E4).
    { unfold start_packet. by destruct (in_cbc s), (in_etm s). }
    split; [|by rewrite E2]. constructor; [|split|by rewrite E3|done].
    + exists kc, km, etm, kz, s. rewrite E1, E2. split_and!; try done. by apply start_delivers.
    + apply (step_decreases s (start_packet s)); [unfold cr_ok; by rewrite Hcr|unfold bpp_step; by rewrite Hcr].
    + by rewrite E1.
Qed.

Lemma add_raw_nil s : add_raw s [] = s.
Proof. unfold add_raw. rewrite app_nil_r. by destruct s as [? ? ? ? ? ? [] ? ? ? ?]. Qed.

Lemma receive_run s w r : open_input s -> b_fate s = None -> run (add_raw s w) r -> receive s w = r.
Proof.
  intros Hop Hf Hr. pose proof (handle_input_handles (add_raw s w) (proj1 Hop)) as Hh. unfold handles in Hh.
  change (b_fate (add_raw s w)) with (b_fate s) in Hh. rewrite Hf in Hh. by apply (run_det _ _ _ Hh).
Qed.

(** The network may deliver nothing. *)
Lemma receive_nothing so si : link false so si -> exists si', receive si [] = Some si' /\ link false so si' /\ in_pq (b_queues si') = in_pq (b_queues si) /\ sequence (b_in si') = sequence (b_in si).
Proof.
  intros [(kc&km&etm&kz&s0&Hl&Hd&Hraw&Hst&Hpq&Hseq&_) Hop Hfate _].
  destruct (settles kc km etm kz so s0 false) as (si'&Hrun&Hlink&Hq&Hs); try done. exists si'. split_and!; [|done|by rewrite Hq, Hpq|by rewrite Hs, Hseq].
  apply receive_run; [done|done|]. apply (Hd []). by rewrite add_raw_nil.
Qed.

Section Exchange.
Variable random_read : nat -> Z -> list Z.
Context (Hrandom : forall n k, 0 <= k -> len (random_read n k) = k /\ bytes_ok (random_read n k)).

Lemma exchange so si :
  link false so si -> Forall sendable (out_pq (b_queues so)) -> newkeys_last (out_pq (b_queues so)) ->
  exists so' w sent rest si' ps,
    ssh2_bpp_handle_output random_read so = Some so' /\ b_queues so' = with_pq (add_out (b_queues so) w) rest /\
    out_pq (b_queues so) = sent ++ rest /\ (rest = [] \/ output_blocked (b_flags so') = true) /\
    receive si w = Some si' /\ in_pq (b_queues si') = in_pq (b_queues si) ++ ps /\
    numbered (sequence (b_in si)) ps /\ sequence (b_in si') = next_number (sequence (b_in si)) ps /\
    real (content_in <$> ps) = real (content_out <$> sent) /\ link (last_type sent =? SSH2_MSG_NEWKEYS) so' si' /\
    (undelayed so -> output_blocked (b_flags so) = false -> undelayed so' /\ output_blocked (b_flags so') = false).
Proof using Hrandom.
  intros [(kc&km&etm&kz&s0&Hl&Hd&Hraw&[Hcr _]&Hpq&Hseq&_) Hop Hfate _] Hs Hnk.
  destruct (transfer_output random_read Hrandom kc km etm kz so s0) as (so'&s1&w&ps&sent&rest&E&Esplit&[[kz' Fl] Fq Fg Fr Fs Fb Fu]); try done.
  destruct (settles kc km etm kz' so' s1 (last_type sent =? SSH2_MSG_NEWKEYS)) as (si'&Hrun&Hlink&Hq&Hseq'); [done| |..].
  { rewrite (g_queues _ _ _ _ Fg). exact Hraw. }
  { destruct Fs as [Fs1 Fs2]. unfold standing. destruct (Z.eqb_spec (last_type sent) SSH2_MSG_NEWKEYS) as [Et|Et]; [split; [done|intros _; by apply Fs2]|by split]. }
  exists so', w, sent, rest, si', ps. split_and!; try done.
  - apply receive_run; [done|done|]. replace w with (w ++ []) by apply app_nil_r. apply (Hd (w ++ [])). apply (g_delivers _ _ _ _ Fg). by rewrite add_raw_nil.
  - by rewrite Hq, (g_queues _ _ _ _ Fg), Hpq.
  - rewrite Hseq. apply Fg.
  - rewrite Hseq', Hseq. apply Fg.
Qed.

(** C24. What [ssh2_bpp_handle_output] of one end puts out arrives at the other end: on linked ends (the same keys, whatever the cipher, MAC and compression, delayed
    compression included), the packets on the output queue are all sent, or up to the authentication packet after which the output is blocked; and however
    the bytes are divided on their way, the other end queues the same packets in the same order, but for SSH_MSG_IGNORE, with consecutive sequence numbers, and
    the ends are linked again. *)
Theorem packets_arrive so si :
  link false so si -> Forall sendable (out_pq (b_queues so)) -> newkeys_last (out_pq (b_queues so)) ->
  exists so' w sent,
    ssh2_bpp_handle_output random_read so = Some so' /\ out_raw (b_queues so') = out_raw (b_queues so) ++ w /\
    out_pq (b_queues so) = sent ++ out_pq (b_queues so') /\ (out_pq (b_queues so') = [] \/ output_blocked (b_flags so') = true) /\
    forall c chunks, concat (c :: chunks) = w ->
      exists si' ps, receive_all si (c :: chunks) = Some si' /\ in_pq (b_queues si') = in_pq (b_queues si) ++ ps /\
        numbered (sequence (b_in si)) ps /\ real (content_in <$> ps) = real (content_out <$> sent) /\ link (last_type sent =? SSH2_MSG_NEWKEYS) so' si'.
Proof using Hrandom.
  intros Hl Hs Hnk. destruct (exchange so si Hl Hs Hnk) as (so'&w&sent&rest&si'&ps&E&Eq&Esplit&Hb&Er&Epq&Hn&_&Hreal&Hl'&_).
  exists so', w, sent. rewrite Eq. split_and!; try done. intros c chunks Ec. exists si', ps. split_and!; try done.
  rewrite receive_all_concat, Ec; [done|]. apply Hl.
Qed.
End Exchange.

(** ** New keys *)

(** Algorithms that satisfy their laws, and that fit together, with enough key material for them. *)
Record usable (chokes : bool) (p : crypto_params) : Prop := {
  us_cipher : match p_cipher p with
              | None => True
              | Some alg => inhabited (CipherLaws alg) /\ ca_padded_keybytes alg <= len (p_ckey p) /\ ca_blksize alg <= len (p_iv p)
              end;
  us_mac : match p_mac p with None => True | Some alg => inhabited (MacLaws alg) /\ 0 <= ma_keylen alg <= len (p_mac_key p) end;
  us_bytes : bytes_ok (p_ckey p) /\ bytes_ok (p_iv p) /\ bytes_ok (p_mac_key p);
  us_comp : inhabited (CompressionLaws (p_compression p));
  us_separate : forall alg, p_cipher p = Some alg -> ca_separate_length alg = true -> p_mac p <> None /\ p_etm_mode p = true;
  us_cbc : forall alg, p_cipher p = Some alg -> ca_is_cbc alg = true -> chokes = false -> p_mac p <> None;
  us_delayed : p_delayed p = true -> pending_ok (Some (p_compression p))
}.

(** Both ends of a direction, made from the same parameters. *)
Lemma new_channel chokes p seq pend : usable chokes p ->
  exists c m kc km, new_cipher p = Some c /\ new_mac p = Some m /\
    channel kc km (p_etm_mode p) (mkDir seq c m (p_etm_mode p) pend) (mkDir seq c m (p_etm_mode p) pend)
    /\ (kc = NoCipher -> p_cipher p = None) /\ (km = NoMac -> p_mac p = None).
Proof.
  intros [Hc Hm (Hbk&Hbi&Hbm) _ Hs _ _]. unfold new_cipher, new_mac.
  assert (exists c kc, match p_cipher p with Some alg => c ← ssh_cipher_new alg (p_ckey p) (p_iv p); Some (Some c) | None => Some None end = Some c /\ cipher_pair kc c c
    /\ k_separate kc = (match p_cipher p with Some alg => ca_separate_length alg | None => false end) /\ (kc = NoCipher -> p_cipher p = None)) as (c&kc&->&Hkc&Hsep&Hkn).
  { destruct (p_cipher p) as [alg|]; [|by exists None, NoCipher]. destruct Hc as ([L]&Hk&Hi). destruct (cl_new (alg := alg) _ _ Hbk Hbi Hk Hi) as (x&E&Hx).
    unfold ssh_cipher_new. rewrite E. exists (Some (mkCipher alg x)), (TheCipher alg L). split_and!; try done. by exists x, x. }
  assert (exists m km, match p_mac p with
      | Some alg => assert! ma_keylen alg <=? len (p_mac_key p); m ← ssh2_mac_new alg (take (Z.to_nat (ma_keylen alg)) (p_mac_key p)); Some (Some m)
      | None => Some None end = Some m /\ mac_is km m /\ (km = NoMac <-> p_mac p = None)) as (m&km&->&Hkm&Hmn).
  { destruct (p_mac p) as [alg|]; [|by exists None, NoMac]. destruct Hm as ([L]&Hk). rewrite (proj2 (Z.leb_le _ _)) by lia.
    destruct (ml_new (alg := alg) (take (Z.to_nat (ma_keylen alg)) (p_mac_key p))) as (x&E&Hx); [by apply Forall_take|by apply len_take|].
    unfold ssh2_mac_new. rewrite E. exists (Some (mkMac alg x)), (TheMac alg L (take (Z.to_nat (ma_keylen alg)) (p_mac_key p))). split_and!; try done. by exists x. }
  exists c, m, kc, km. split_and!; try done; [|apply Hmn]. constructor; try done. intros E. rewrite Hsep in E. destruct (p_cipher p) as [alg|]; [|done].
  destruct (Hs alg eq_refl E) as [Hpm ->]. destruct km; [|done]. exfalso. apply Hpm, Hmn. done.
Qed.

(** The compression of the new keys, now or later. *)
Lemma new_compression p : inhabited (CompressionLaws (p_compression p)) ->
  exists kz c d, ssh_compressor_new (p_compression p) = Some c /\ ssh_decompressor_new (p_compression p) = Some d /\ comp_pair kz c d.
Proof.
  intros [L]. unfold ssh_compressor_new, ssh_decompressor_new. destruct (zl_new (alg := p_compression p)) as [[-> ->]|(c&d&->&->&Hs)].
  - by exists NoComp, None, None.
  - exists (TheComp (p_compression p) L), (Some (mkCompressor _ c)), (Some (mkDecompressor _ d)). split_and!; [done..|]. cbn. eauto.
Qed.

(** New keys on both ends, after SSH_MSG_NEWKEYS: the link goes on, with the sequence numbers as they were. *)
Lemma rekey chokes p so si :
  link true so si -> usable chokes p -> (p_delayed p = true -> seen_userauth_success (b_flags so) = seen_userauth_success (b_flags si)) ->
  exists so' si', ssh2_bpp_new_outgoing_crypto so chokes p = Some so' /\ ssh2_bpp_new_incoming_crypto si p = Some si' /\ link false so' si' /\
    b_queues so' = b_queues so /\ b_queues si' = b_queues si /\ sequence (b_in si') = sequence (b_in si).
Proof.
  intros [(kc&km&etm&kz&s0&Hl&Hd&Hraw&[Hcr Hnk]&Hpq&Hseq&Heq) Hop Hfate Hw] Hu Hsame. assert (s0 = si) as -> by (symmetry; by apply Heq). clear Heq Hd Hpq Hseq.
  destruct Hl as [Hch Hz (Hp1&Hp2&Hp3) Hr (Ha1&Ha2&Ha3) _].
  set (later := p_delayed p && negb (seen_userauth_success (b_flags so))).
  assert (p_delayed p && negb (seen_userauth_success (b_flags si)) = later) as Elater by (unfold later; destruct (p_delayed p); [by rewrite Hsame|done]).
  set (pend := if later then Some (p_compression p) else None).
  destruct (new_channel chokes p (sequence (b_out so)) pend Hu) as (c'&m'&kc'&km'&Enc&Enm&Hch'&Hkc&Hkm). destruct (new_compression p (us_comp _ _ Hu)) as (kz'&zc&zd&Ec&Ed&Hzp).
  assert (exists so' si' kz1, ssh2_bpp_new_outgoing_crypto so chokes p = Some so' /\ ssh2_bpp_new_incoming_crypto si p = Some si' /\ comp_pair kz1 (out_comp so') (in_decomp si') /\
    b_out so' = mkDir (sequence (b_out so)) c' m' (p_etm_mode p) pend /\ b_in si' = mkDir (sequence (b_in si)) c' m' (p_etm_mode p) pend /\
    b_in so' = b_in so /\ b_out si' = b_out si /\ b_queues so' = b_queues so /\ io si' = io si /\ is_server (b_flags so') = is_server (b_flags so) /\
    is_server (b_flags si') = is_server (b_flags si) /\ enforce_next_packet_is_userauth_success (b_flags si') = false /\ pending_newkeys (b_flags si') = false /\
    cbc_ignore_workaround (b_flags so') = match p_cipher p with Some alg => ca_is_cbc alg && negb chokes | None => false end)
    as (so'&si'&kz1&E1&E2&Hz1&Eo&Ei&Eoi&Eio&Eq&Eio'&Es1&Es2&Een&Epn&Ew).
  { unfold ssh2_bpp_new_outgoing_crypto, ssh2_bpp_new_incoming_crypto. rewrite Enc, Enm. cbn [mbind option_bind]. rewrite Elater. fold later. unfold pend. destruct later.
    - eexists _, _, NoComp. split; [reflexivity|]. split; [reflexivity|]. split_and!; done.
    - rewrite Ec, Ed. cbn [mbind option_bind]. eexists _, _, kz'. split; [reflexivity|]. split; [reflexivity|]. split_and!; done. }
  injection Eio' as Ein Eqi Efa.
  exists so', si'. split_and!; [done|done| |done|done|by rewrite Ei].
  assert (linked kc' km' (p_etm_mode p) kz1 so' (set_input si' (set_cr (b_input si') CrStart))) as Hl'.
  { constructor; cbn; rewrite ?Eo, ?Ei, ?Eoi, ?Eio, ?Es1, ?Es2, ?Een, ?Eqi, ?Efa; try done.
    - by rewrite <- (ch_sequence _ _ _ _ _ Hch).
    - cbn. split_and!; try done. unfold pend, later. destruct (p_delayed p) eqn:Edl; [|done]. destruct (_ && _); [|done]. by apply (us_delayed _ _ Hu).
    - rewrite Ew. intros Hwk. destruct (p_cipher p) as [alg|] eqn:Ep; [|done]. apply andb_true_iff in Hwk as [Hcbc Hck]. apply negb_true_iff in Hck.
      split; [intros E; by apply Hkc in E|]. intros E. apply Hkm in E. by apply (us_cbc _ _ Hu alg). }
  constructor; [|split; [unfold cr_ok; by rewrite Ein, Hcr|by rewrite Eqi]|by rewrite Efa|unfold waits_for_keys; by rewrite Ein, Hcr].
  exists kc', km', (p_etm_mode p), kz1, (set_input si' (set_cr (b_input si') CrStart)). split_and!; try done.
  - intros rest f Hf. cbn [app]. apply (run_go _ (add_raw (set_input si' (set_cr (b_input si') CrStart)) rest)); [|done].
    unfold bpp_step. change (b_input (add_raw si' rest)) with (b_input si'). rewrite Ein, Hcr. change (b_flags (add_raw si' rest)) with (b_flags si'). by rewrite Epn.
  - cbn. by rewrite Eqi.
Qed.

(** ** Sessions *)

(** The start of a connection. *)
Lemma link_new server dts dts' : link false (ssh2_bpp_new server dts) (ssh2_bpp_new (negb server) dts').
Proof.
  constructor; try done. exists NoCipher, NoMac, false, NoComp, (ssh2_bpp_new (negb server) dts'). split_and!; try done; [|by intros rest f].
  constructor; try done. cbn. by rewrite negb_involutive.
Qed.

(** The keys are installed as soon as the coroutine waits for them, and it runs again on the bytes that are there. *)
Fixpoint install (ks : list crypto_params) (s : ssh2_bpp_state) : option (ssh2_bpp_state * list crypto_params) :=
  match ks with
  | [] => Some (s, [])
  | p :: ks' =>
      if waits_for_keys s then s ← ssh2_bpp_new_incoming_crypto s p; s ← ssh2_bpp_handle_input s; install ks' s
      else Some (s, ks)
  end.
Definition feed (r : ssh2_bpp_state * list crypto_params) (data : list Z) : option (ssh2_bpp_state * list crypto_params) :=
  s ← receive r.1 data; install r.2 s.
Fixpoint feed_all (r : ssh2_bpp_state * list crypto_params) (chunks : list (list Z)) : option (ssh2_bpp_state * list crypto_params) :=
  match chunks with [] => Some r | c :: chunks => r ← feed r c; feed_all r chunks end.

Lemma receive_waiting s y : waits_for_keys s = true -> receive s y = Some (add_raw s y).
Proof.
  unfold waits_for_keys. intros Hw. destruct (crState (b_input s)) eqn:Hcr; try done.
  unfold receive, ssh2_bpp_handle_input. destruct (b_fate (add_raw s y)); [done|]. unfold input_fuel. rewrite Nat.add_comm. cbn [Nat.add input_loop].
  unfold bpp_step. change (b_input (add_raw s y)) with (b_input s). rewrite Hcr. change (b_flags (add_raw s y)) with (b_flags s). by rewrite Hw.
Qed.

Lemma new_incoming_more s p y : ssh2_bpp_new_incoming_crypto (add_raw s y) p = (s ← ssh2_bpp_new_incoming_crypto s p; Some (add_raw s y)).
Proof.
  unfold ssh2_bpp_new_incoming_crypto. destruct (new_cipher p); [|done]. destruct (new_mac p); [|done]. cbn [mbind option_bind].
  change (b_flags (add_raw s y)) with (b_flags s). case_match; [done|]. by destruct (ssh_decompressor_new _).
Qed.

Lemma new_incoming_open s p s' : open_input s -> ssh2_bpp_new_incoming_crypto s p = Some s' -> open_input s'.
Proof.
  unfold ssh2_bpp_new_incoming_crypto. intros Ho E. destruct (new_cipher p); [|done]. destruct (new_mac p); [|done]. cbn [mbind option_bind] in E.
  case_match; [injection E as <-; exact Ho|]. destruct (ssh_decompressor_new _); [|done]. injection E as <-. exact Ho.
Qed.

(** It does not matter how the bytes are divided, although keys are installed in between. *)
Lemma feed_app ks s a b : open_input s -> feed (s, ks) (a ++ b) = (r ← feed (s, ks) a; feed r b).
Proof.
  revert s a. induction ks as [|p ks IH]; intros s a Ho; unfold feed; cbn [fst snd install]; rewrite receive_more by done.
  - destruct (receive s a) as [s1|]; [|done]. cbn [mbind option_bind fst snd install]. by destruct (receive s1 b).
  - destruct (receive s a) as [s1|] eqn:E1; [|done]. cbn [mbind option_bind]. pose proof (receive_keeps s a s1 Ho E1) as Ho1.
    destruct (waits_for_keys s1) eqn:Ew; [|done]. rewrite receive_waiting by done. cbn [mbind option_bind].
    change (waits_for_keys (add_raw s1 b)) with (waits_for_keys s1). rewrite Ew, new_incoming_more.
    destruct (ssh2_bpp_new_incoming_crypto s1 p) as [s2|] eqn:E2; [|done]. cbn [mbind option_bind]. pose proof (new_incoming_open _ _ _ Ho1 E2) as Ho2.
    specialize (IH s2 [] Ho2). unfold feed in IH. cbn [fst snd app] in IH.
    assert (receive s2 [] = ssh2_bpp_handle_input s2) as E3 by (unfold receive; by rewrite add_raw_nil). rewrite E3 in IH. exact IH.
Qed.

Lemma feed_keeps ks s a r : open_input s -> feed (s, ks) a = Some r -> open_input r.1.
Proof.
  intros Ho. unfold feed. cbn [fst snd]. destruct (receive s a) as [s1|] eqn:E; [|done]. cbn [mbind option_bind]. pose proof (receive_keeps s a s1 Ho E) as Ho1.
  clear E Ho s a. revert s1 Ho1. induction ks as [|p ks IH]; intros s1 Ho1; cbn [install]; [by intros [= <-]|].
  destruct (waits_for_keys s1); [|by intros [= <-]]. destruct (ssh2_bpp_new_incoming_crypto s1 p) as [s2|] eqn:E2; [|done]. cbn [mbind option_bind].
  destruct (ssh2_bpp_handle_input s2) as [s3|] eqn:E3; [|done]. cbn [mbind option_bind]. apply IH.
  apply (receive_keeps s2 []); [by eapply new_incoming_open|]. unfold receive. by rewrite add_raw_nil.
Qed.

Lemma feed_all_concat r c chunks : open_input r.1 -> feed_all r (c :: chunks) = feed r (concat (c :: chunks)).
Proof.
  revert r c. induction chunks as [|c' chunks IH]; intros [s ks] c Ho.
  - cbn [feed_all concat]. rewrite app_nil_r. by destruct (feed (s, ks) c).
  - change (concat (c :: c' :: chunks)) with (c ++ concat (c' :: chunks)). rewrite feed_app by done.
    cbn [feed_all]. destruct (feed (s, ks) c) as [r1|] eqn:E; [|done]. cbn [mbind option_bind]. apply IH. by apply (feed_keeps ks s c).
Qed.

(** The sender's side: packets are queued and formatted; what comes out goes to the network. *)
Definition queue_pkts (s : ssh2_bpp_state) (ps : list PktOut) : ssh2_bpp_state := set_queues s (with_pq (b_queues s) (out_pq (b_queues s) ++ ps)).
Definition take_raw (s : ssh2_bpp_state) : list Z * ssh2_bpp_state :=
  let q := b_queues s in (out_raw q, set_queues s (mkQueues (in_raw q) (input_eof q) (in_pq q) (out_pq q) [] (expect_close q))).

Section Sessions.
Variable random_read : nat -> Z -> list Z.
Context (Hrandom : forall n k, 0 <= k -> len (random_read n k) = k /\ bytes_ok (random_read n k)).
Variable chokes : bool.

Definition send_batch (s : ssh2_bpp_state) (ps : list PktOut) : option (list Z * ssh2_bpp_state) :=
  s ← ssh2_bpp_handle_output random_read (queue_pkts s ps); Some (take_raw s).

(** Epochs, each of them ended by new keys, and the packets after the last of them. *)
Fixpoint send_epochs (s : ssh2_bpp_state) (epochs : list (list PktOut * crypto_params)) (ps : list PktOut) : option (list Z * ssh2_bpp_state) :=
  match epochs with
  | [] => send_batch s ps
  | (batch, p) :: epochs =>
      '(w, s) ← send_batch s batch;
      s ← ssh2_bpp_new_outgoing_crypto s chokes p;
      '(w', s) ← send_epochs s epochs ps;
      Some (w ++ w', s)
  end.

(** A batch of packets that ends with SSH_MSG_NEWKEYS, and keys that can be used. *)
Definition epoch_ok (e : list PktOut * crypto_params) : Prop :=
  Forall sendable e.1 /\ newkeys_last e.1 /\ last_type e.1 = SSH2_MSG_NEWKEYS /\ usable chokes e.2 /\ p_delayed e.2 = false.

Definition idle (s : ssh2_bpp_state) : Prop := out_pq (b_queues s) = [] /\ out_raw (b_queues s) = [] /\ undelayed s /\ output_blocked (b_flags s) = false.

Lemma link_queues nk so so' si : link nk so si -> directions so' = directions so -> b_flags so' = b_flags so -> link nk so' si.
Proof using Type.
  intros [(kc&km&etm&kz&s0&Hl&H) H2 H3 H4] Hd Hf. constructor; try done. exists kc, km, etm, kz, s0. split; [|done]. by apply (linked_sender _ _ _ _ so).
Qed.

Lemma send_batch_spec so si ps :
  link false so si -> idle so -> Forall sendable ps -> newkeys_last ps ->
  exists w so' si' got, send_batch so ps = Some (w, so') /\ receive si w = Some si' /\ idle so' /\ link (last_type ps =? SSH2_MSG_NEWKEYS) so' si' /\
    in_pq (b_queues si') = in_pq (b_queues si) ++ got /\ numbered (sequence (b_in si)) got /\ sequence (b_in si') = next_number (sequence (b_in si)) got /\
    real (content_in <$> got) = real (content_out <$> ps).
Proof using Hrandom.
  intros Hl (Hpq&Hraw&Hu&Hb) Hs Hnk. assert (out_pq (b_queues (queue_pkts so ps)) = ps) as Epq by (cbn; by rewrite Hpq).
  destruct (exchange random_read Hrandom (queue_pkts so ps) si) as (so'&w&sent&rest&si'&got&E&Eq&Esplit&Hrest&Er&Ein&Hn&Hx&Hreal&Hl'&Hu').
  { by apply (link_queues _ so). } { by rewrite Epq. } { by rewrite Epq. }
  destruct (Hu' Hu Hb) as [Hu1 Hb1]. destruct Hrest as [->|Hbad]; [|congruence]. rewrite Epq, app_nil_r in Esplit. subst sent.
  exists w, (take_raw so').2, si', got. split_and!; try done.
  - assert (out_raw (b_queues so') = w) as Ew by (rewrite Eq; cbn; by rewrite Hraw). unfold send_batch. rewrite E. cbn [mbind option_bind]. unfold take_raw. cbn [snd]. by rewrite Ew.
  - cbn. by rewrite Eq.
  - by apply (link_queues _ so').
Qed.

(** After new keys the receiver goes on with the bytes that are there. *)
Lemma feed_batch so si ps ks w si' :
  receive si w = Some si' -> link (last_type ps =? SSH2_MSG_NEWKEYS) so si' -> last_type ps <> SSH2_MSG_NEWKEYS -> feed (si, ks) w = Some (si', ks).
Proof using Type.
  intros Er Hl Hne. unfold feed. cbn [fst snd]. rewrite Er. cbn [mbind option_bind]. apply ln_waits in Hl. rewrite (proj2 (Z.eqb_neq _ _) Hne) in Hl.
  destruct ks; [done|]. cbn [install]. by rewrite Hl.
Qed.

Lemma session_from epochs : forall so si ps,
  link false so si -> idle so -> Forall epoch_ok epochs -> Forall sendable ps -> Forall (fun p => po_type p <> SSH2_MSG_NEWKEYS) ps ->
  exists w so' si' got, send_epochs so epochs ps = Some (w, so') /\ feed (si, epochs.*2) w = Some (si', []) /\ link false so' si' /\
    in_pq (b_queues si') = in_pq (b_queues si) ++ got /\ numbered (sequence (b_in si)) got /\
    real (content_in <$> got) = real (content_out <$> concat epochs.*1 ++ ps).
Proof using Hrandom.
  induction epochs as [|[batch p] epochs IH]; intros so si ps Hl Hidle Hep Hs Hnn.
  - assert (newkeys_last ps /\ last_type ps <> SSH2_MSG_NEWKEYS) as [Hnk Hlast].
    { clear Hs. induction Hnn as [|q ps Hq _ [IH1 IH2]]; [done|]. split; [by split|]. destruct ps; [done|]. by rewrite last_type_cons. }
    destruct (send_batch_spec so si ps Hl Hidle Hs Hnk) as (w&so'&si'&got&E&Er&_&Hl'&Hin&Hn&_&Hreal).
    exists w, so', si', got. split; [done|]. split; [by eapply feed_batch|]. rewrite (proj2 (Z.eqb_neq _ _) Hlast) in Hl'. done.
  - apply Forall_cons in Hep as [(Hb1&Hb2&Hb3&Hus&Hdel) Hep]. cbn [fst snd] in *.
    destruct (send_batch_spec so si batch Hl Hidle Hb1 Hb2) as (w1&so1&si1&got1&E1&Er1&(I1&I2&I3&I4)&Hl1&Hin1&Hn1&Hx1&Hreal1).
    rewrite Hb3 in Hl1. change (SSH2_MSG_NEWKEYS =? SSH2_MSG_NEWKEYS) with true in Hl1.
    destruct (rekey chokes p so1 si1 Hl1 Hus) as (so2&si2&E2&E3&Hl2&Q2&Q3&X3); [congruence|].
    assert (idle so2) as Hidle2.
    { unfold idle in *. rewrite Q2. unfold ssh2_bpp_new_outgoing_crypto in E2. destruct (new_cipher p); [|done]. destruct (new_mac p); [|done].
      cbn [mbind option_bind] in E2. rewrite Hdel in E2. cbn [andb] in E2. destruct (ssh_compressor_new _); [|done]. cbn in E2. by injection E2 as <-. }
    destruct (receive_nothing so2 si2 Hl2) as (si3&E4&Hl3&Q4&X4).
    destruct (IH so2 si3 ps Hl3 Hidle2 Hep Hs Hnn) as (w&so'&si'&got&E&Ef&Hl'&Hin&Hn&Hreal).
    exists (w1 ++ w), so', si', (got1 ++ got). split_and!.
    + cbn [send_epochs]. rewrite E1. cbn [mbind option_bind]. rewrite E2. cbn [mbind option_bind]. by rewrite E.
    + assert (feed (si, p :: epochs.*2) w1 = Some (si3, epochs.*2)) as Ef1; [|change (((batch, p) :: epochs).*2) with (p :: epochs.*2); by rewrite feed_app, Ef1 by apply Hl].
      unfold feed. cbn [fst snd]. rewrite Er1. cbn [mbind option_bind install]. rewrite (ln_waits _ _ _ Hl1), E3. cbn [mbind option_bind].
      unfold receive in E4. rewrite add_raw_nil in E4. rewrite E4. cbn [mbind option_bind].
      destruct epochs.*2; [done|]. cbn [install]. by rewrite (ln_waits _ _ _ Hl3).
    + done.
    + by rewrite Hin, Q4, Q3, Hin1, app_assoc.
    + apply numbered_app. split; [done|]. by rewrite <- Hx1, <- X3, <- X4.
    + cbn [fmap list_fmap fst concat]. rewrite <- app_assoc, fmap_app, real_app, Hreal1, Hreal. by rewrite (fmap_app _ batch), real_app.
Qed.

(** C3. A whole session, from [ssh2_bpp_new] on both ends: any number of batches of packets, each followed by new keys for the ciphers, MACs and compression methods
    that the two ends agreed on, and packets after the last of them; the bytes are divided in any way, and the receiver installs its keys when the
    coroutine waits for them.  Every packet arrives, in order, decrypted, verified and decompressed as it was sent, with consecutive sequence
    numbers from zero across the changes of keys, and nothing fails. *)
Theorem session_delivers server dts dts' epochs ps :
  Forall epoch_ok epochs -> Forall sendable ps -> Forall (fun p => po_type p <> SSH2_MSG_NEWKEYS) ps ->
  exists w so', send_epochs (ssh2_bpp_new server dts) epochs ps = Some (w, so') /\
    forall c chunks, concat (c :: chunks) = w ->
      exists si', feed_all (ssh2_bpp_new (negb server) dts', epochs.*2) (c :: chunks) = Some (si', []) /\ b_fate si' = None /\
        numbered 0 (in_pq (b_queues si')) /\ real (content_in <$> in_pq (b_queues si')) = real (content_out <$> concat epochs.*1 ++ ps).
Proof using Hrandom.
  intros He Hs Hn. destruct (session_from epochs (ssh2_bpp_new server dts) (ssh2_bpp_new (negb server) dts') ps) as (w&so'&si'&got&E&Ef&Hl&Hin&Hnum&Hreal); try done.
  { apply link_new. }
  exists w, so'. split; [done|]. intros c chunks Ec. exists si'. split_and!.
  - by rewrite feed_all_concat, Ec.
  - apply Hl.
  - by rewrite Hin.
  - by rewrite Hin.
Qed.
End Sessions.

(** ** Examples: Arcfour with HMAC-SHA-256 in encrypt-then-MAC mode and zlib, after a first batch in the clear *)

Definition zeros (n : nat) (k : Z) : list Z := replicate (Z.to_nat k) 0.
Lemma zeros_ok n k : 0 <= k -> len (zeros n k) = k /\ bytes_ok (zeros n k).
Proof. intros Hk. split; [by apply len_replicate|by apply Forall_replicate]. Qed.

Definition a_packet (type : Z) (data : list Z) : PktOut := mkPktOut type 6 0 (replicate 5 0 ++ type :: data).
Definition some_keys : crypto_params :=
  mkParams (Some ssh_arcfour128_ssh2) (Z.of_nat <$> seq 1 16) [0] (Some ssh_hmac_sha256) true (Z.of_nat <$> seq 1 32) (ssh_zlib (fun _ => 0) ZlibInflate.mem0) false.

Lemma a_packet_sendable type data : (0 <= type < 256) -> bytes_ok data -> 2 * len data + 98 <= OUR_V2_PACKETLIMIT -> known_type type = true -> type <> SSH2_MSG_EXT_INFO ->
  sendable (a_packet type data).
Proof.
  intros Ht Hd Hl Hk Hne. split; [|done]. exists (replicate 5 0), data. cbn [a_packet po_data po_type po_minlen]. split; [done|]. split; [done|].
  split; [by constructor|]. split; [by left|]. pose proof (len_nonneg data). unfold room. rewrite len_cons. unfold OUR_V2_PACKETLIMIT in *. lia.
Qed.

Lemma some_keys_usable : usable false some_keys.
Proof.
  constructor; cbn.
  - split; [exact (inhabits arcfour128_laws)|by split].
  - split; [exact (inhabits hmac_sha256_laws)|by split].
  - split_and!; concrete_bytes.
  - exact (inhabits (zlib_laws _ _)).
  - by intros alg [= <-].
  - by intros alg [= <-].
  - done.
Qed.

Lemma packets_arrive_witness :
  let so := queue_pkts (ssh2_bpp_new true no_stats) [a_packet 94 [1; 2; 3]] in
  exists so' w sent,
    ssh2_bpp_handle_output zeros so = Some so' /\ out_raw (b_queues so') = out_raw (b_queues so) ++ w /\
    out_pq (b_queues so) = sent ++ out_pq (b_queues so') /\ (out_pq (b_queues so') = [] \/ output_blocked (b_flags so') = true) /\
    forall c chunks, concat (c :: chunks) = w ->
      exists si' ps, receive_all (ssh2_bpp_new false no_stats) (c :: chunks) = Some si' /\ in_pq (b_queues si') = [] ++ ps /\
        numbered 0 ps /\ real (content_in <$> ps) = real (content_out <$> sent) /\ link (last_type sent =? SSH2_MSG_NEWKEYS) so' si'.
Proof.
  apply (packets_arrive zeros zeros_ok (queue_pkts (ssh2_bpp_new true no_stats) [a_packet 94 [1; 2; 3]]) (ssh2_bpp_new false no_stats)).
  - apply (link_queues _ (ssh2_bpp_new true no_stats)); [apply link_new|reflexivity|reflexivity].
  - constructor; [|constructor]. apply a_packet_sendable; [lia| |vm_compute; discriminate|vm_compute; reflexivity|discriminate].
    concrete_bytes.
  - split; [intros H; by destruct H|exact I].
Defined.

Lemma session_delivers_witness :
  exists w so', send_epochs zeros false (ssh2_bpp_new false no_stats) [([a_packet 21 []], some_keys)] [a_packet 94 [1; 2; 3]; a_packet 94 []] = Some (w, so') /\
    forall c chunks, concat (c :: chunks) = w ->
      exists si', feed_all (ssh2_bpp_new true no_stats, [some_keys]) (c :: chunks) = Some (si', []) /\ b_fate si' = None /\
        numbered 0 (in_pq (b_queues si')) /\ real (content_in <$> in_pq (b_queues si')) = [(21, []); (94, [1; 2; 3]); (94, [])].
Proof.
  apply (session_delivers zeros zeros_ok false false no_stats no_stats [([a_packet 21 []], some_keys)] [a_packet 94 [1; 2; 3]; a_packet 94 []]).
  - constructor; [|constructor]. split; [|split; [|split; [reflexivity|split; [apply some_keys_usable|reflexivity]]]].
    + constructor; [|constructor]. apply a_packet_sendable; [lia|constructor|vm_compute; discriminate|vm_compute; reflexivity|discriminate].
    + split; [intros H; by destruct H|exact I].
  - constructor; [|constructor; [|constructor]]; (apply a_packet_sendable; [lia| |vm_compute; discriminate|vm_compute; reflexivity|discriminate]).
    + concrete_bytes.
    + constructor.
  - constructor; [discriminate|constructor; [discriminate|constructor]].
Defined.
